(* ===== verification/_CoqProject ===== *)
-Q . S2P
Prelude.v
Types.v
ValueCodec.v
NetView.v
SortedRuns.v
Index.v
PendingOverlay.v
FactStore.v
Lookup.v
MergeScan.v
CurrentState.v
IndexScan.v
Cursors.v
EntityCursors.v
RefsCursor.v
Columns.v
Projection.v
ProjectionRefresh.v
Wal.v
PackedPages.v
Cache.v
CommittedReaders.v
HeaderPage.v
Floats.v
HashKeys.v
QueryTypes.v
Functions.v
Expressions.v
Matcher.v
AccessPlan.v
JoinOrder.v
Optimizer.v
Branches.v
Aggregation.v
Stratification.v
Evaluator.v
LeastModel.v
MagicSets.v
Executor.v
Negation.v
QueryAnswers.v
Database.v
Durability.v
Forget.v
Transactions.v
BTreePages.v
BTreeScan.v
Backends.v
BTreeBuild.v
PageIntegrity.v
BTreeIndex.v
IndexOrder.v
IntegrityStore.v
DeltaSegment.v
DeltaManifest.v
DeltaIndex.v
DeltaCheckpoint.v
Lexer.v
FileLock.v
EdnParser.v
QueryParser.v
Prepared.v
