(* ===== verification/Prelude.v ===== *)
(** * ViciaDB: a verification library

    ViciaDB is an embedded bi-temporal fact database.  A fact says that an
    entity has a value for an attribute over an interval of valid time; it is
    stamped with the transaction that recorded it and with whether it asserts or
    retracts.  Facts are only ever appended.  The parts of the program and what
    they hand to one another:

    - the _fact store_ (src/src/graph/storage.rs) appends batches to a
      _pending overlay_ (src/src/graph/pending_overlay.rs) with four in-memory
      indexes over sorted runs, and reads the union of the overlay and of the
      committed ledger;
    - a write is first appended to the _write-ahead log_ (src/src/wal.rs) and
      replayed from it when the database opens (src/src/db.rs);
    - a checkpoint packs the overlay into _packed pages_
      (src/src/storage/packed_pages.rs) and publishes them through _page 0_
      (src/src/storage/mod.rs, header_extension.rs); committed facts are read
      back through a _page cache_ (cache.rs) by the _committed readers_
      (persistent_facts.rs);
    - the index keys and the order-preserving _value encoding_
      (src/src/storage/index.rs) are shared by the overlay and by the disk
      indexes;
    - queries see the _net view_ of the ledger (storage.rs, executor.rs) and may
      use _rules_, which must be stratified (src/src/query/datalog).

    ** Files

    - [Prelude]: the result monad and its loops, machine integers at their
      width, byte strings, sorted lists, the [Ord] classes, the tactics [inv_ok],
      [crush], [ilia] and the hint database [vicia].
    - Facts and values.  [Types]: [Value], [Fact] and their [Ord], [Eq] and
      [Hash] (types.rs); a float is its 64-bit pattern, a UUID a 128-bit
      integer.  [ValueCodec]: [encode_value] and the decoders.  [NetView]:
      [net_asserted_facts] and the temporal filters, with the specification of
      which assertion survives.
    - The store.  [SortedRuns], [PendingOverlay]: the overlay's log-structured
      indexes, insertion, deduplication and range reads.  [Index]: the four key
      types, their wire views, and the in-memory indexes.  [FactStore]: the
      store's state, every write and whole-ledger read, the step relations
      [store_step] (writing and publishing) and [load_step] (loading and
      restoring), the reader interface [CommittedFactReader] and the contract
      [ServesFacts].  [Lookup]: lookups by entity and attribute against the
      index contract [ServesIndex].
    - Current values.  [MergeScan], [CurrentState], [IndexScan]: the merge of
      committed entries and pending records and the state it keeps per value.
      [Cursors], [EntityCursors], [RefsCursor]: the resumable cursors by
      attribute, entity and reference.  [Columns], [Projection],
      [ProjectionRefresh]: the column projection, its validation, refresh and
      tail cache (current_projection.rs).
    - Durability.  [Wal]: log format, writer, reader and replay.  [PackedPages],
      [Cache], [CommittedReaders]: the committed ledger, from bytes on a page up
      to readers that keep [ServesFacts].  [HeaderPage]: page 0, one Module per
      structure of header_extension.rs.  [Backends]: the storage trait with its
      laws, the memory and the file backend.  [FileLock]: the lock file, one
      file-system call at a time, staging calls included.  [PageIntegrity], [IntegrityStore]: the
      checksum catalog of the base pages, its codec, its pages and its
      validation on load.
    - On-disk indexes (btree_v6.rs).  [BTreePages]: page layouts; [BTreeScan]:
      cursors and scans; [BTreeBuild]: the builder; [BTreeIndex]: the index
      reader, which keeps [ServesIndex].  [IndexOrder]: the checkpoint's sorting
      of entries by position.
    - The delta behind the base.  [DeltaSegment]: the facts of one checkpoint with
      their index entries (delta_segment.rs).  [DeltaManifest]: the list of the
      segments, its choice on open, the pages of a delta checkpoint
      (delta_manifest.rs, persistent_facts.rs), the growth policy (delta_growth.rs).
      [DeltaIndex]: the layered index reader (delta_index.rs) over a base that keeps
      [ServesKeyed].  [DeltaCheckpoint]: the checkpoint of a handle, with page 0, the
      cache, the resident delta and the readers it publishes.
    - Queries.  [QueryTypes]: syntax.  [Lexer], [EdnParser], [QueryParser]: the
      parser and its safety checks, time stamps.  [Prepared]: bind slots.
      [Floats], [HashKeys], [Functions], [Expressions]: arithmetic, keys,
      aggregate registry, expression evaluation.  [Matcher], [AccessPlan],
      [JoinOrder], [Optimizer]: pattern matching, the choice of index lookups,
      and planning.  [Branches], [Negation], [Aggregation]: [or], [not] and the
      grouping of results.  [Stratification], [Evaluator], [LeastModel],
      [MagicSets]: rules.  [Executor], [QueryAnswers]: whole queries and
      commands.
    - The database handle (db.rs).  [Database]: commands on a handle and write
      transactions; [Durability], [Forget], [Transactions]: what they guarantee.

    Operations keep the names of the source; where Rust mutates, the definition
    takes the state and returns the new one, and a fallible operation returns
    [result].  A panic is an [Err] whose message says so.

    ** What the theorems show

    - _Values_: the byte encoding preserves the order of values and inverts,
      with the exact exceptions (NaN, the two zeros); the decoder accepts only
      canonical bytes; [Ord] is a total preorder, [Hash] disagrees with [Eq].
    - _View_: the one-pass hash-map algorithm computes the declarative rule for
      survival, and a past view never changes as the ledger grows.
    - _Store_: in every reachable store the ledger is the committed facts and the
      pending ones and grows at its end; without loading it is sorted by
      transaction and the counters are right; a committed batch or retraction changes the net
      view exactly as intended; all whole-ledger reads agree; lookups by entity
      are exact, lookups by attribute return the facts of every attribute the
      string is a prefix of.
    - _Overlay_: insertion accepts exactly the new identities and keeps the
      indexes sorted and complete; range reads, paged or not, return exactly the
      range in key order.
    - _Current values_: every cursor, driven in any budgets, yields the net view
      (the attribute cursor when no stored attribute extends the requested one);
      a refreshed projection equals a rebuilt one under the same condition.
    - _Durability_: between checkpoints, acknowledged writes survive a crash and a
      reopen of a handle whose sidecar has no torn tail, and through checkpoints
      when a save keeps [CheckpointLaws]; any prefix of the log recovers exactly
      the complete entries; a torn tail and an oversized entry hide what is
      appended after them; a damaged slot of page 0 never loses the published
      manifest; page 0 is the commit point of the file; live processes do not
      share the lock unless one drops it between another's failed link and read
      or a stale lock is there at the start (both examples are given), and
      acquisition decides as its specification says.
    - _Committed ledger and indexes_: packing resolves and reads back, the cache
      is transparent under every interleaving of its critical sections, a built
      B+tree returns exactly the entries of any range, verified pages are the
      pages of the base up to checksum collisions, and the readers discharge
      the contracts under which the store was verified.
    - _Delta_: a checkpoint appends a segment and a manifest and writes page 0, from
      which opening the file loads the old segments and the new one, while the
      store reads the ledger it read before; segments round-trip, decoded segments
      and manifests are coherent; the layered reader serves the rows of base and
      delta.
    - _Parsing_: the tokenizer ends on every input with bounded tokens or a known
      error; the EDN reader accepts exactly its grammar; every accepted command
      is safe (variables bound where they are used, negation well nested, its
      variables checked only at the top level); a prepared query runs exactly when
      its slots are rightly bound, with nested slots left and literal times lost.
    - _Queries_: a query returns the answers of its declarative reading; planning,
      join order, hash joins and access plans do not change them, under stated
      conditions on values (floats and keywords) and patterns; commands are
      all or nothing and take effect; grouping is correct.
    - _Rules_: stratification ends, succeeds exactly when a stratification
      exists and returns the least one; evaluation computes the least model;
      the magic-set rewriting adds no answer (it can lose some: examples).
    - _Handle_: an in-memory transaction reads its own writes; [forget] closes the
      windows of the facts it selects.

    ** Parameters, bounds and fuel

    Code outside the repository is a parameter with named hypotheses: postcard's
    codecs of facts, of index keys ([PostcardKeyLaws]: they invert, no entry is
    empty), of segments and of manifests ([SegmentPostcardLaws],
    [ManifestPostcardLaws]: they invert), crc32 (a 32-bit result), the hasher of the overlay (any
    function), the iteration order of hash maps (any permutation),
    [Uuid::parse_str] and v5 identifiers, the regular-expression matcher, chrono's
    parsers, the Unicode tables, whether a process is alive.  The wall clock is
    an argument.  Loops that are not structural carry fuel computed from their
    input: the log reader the length of the file, the page search and tree
    descents the number of pages, stratification the square of the number of
    predicates plus one, the tokenizer the length of the text, the EDN reader
    twice the number of tokens plus one; the theorems state that a result is
    returned, so the fuel is enough.  Capacity hypotheses ([2^32] pending
    facts, [2^64] pages or predicates) are the widths of the counters in the
    source.

    ** Not modelled

    Lock poisoning, diagnostics and benchmarks; the full rebuild of the base, the
    load driver, recompaction and migrations; projection images and their catalog; read views, backup and
    maintenance of the handle; the v5 tree kept for migrations; the browser build
    and the command line.  The stack depth of the recursive parser and evaluator
    is not bounded in the model, as it is not in the source. *)
From stdpp Require Export base tactics decidable countable gmap list strings list_numbers sorting.
From coqutil Require Export Byte Word.LittleEndianList.
From Stdlib Require Export ZArith Lia.
From Stdlib Require Strings.String Strings.Byte.

Open Scope Z_scope.

(** * Scope and notations of the development *)

Declare Scope vicia_scope.
Delimit Scope vicia_scope with vicia.

(** * Results: [anyhow::Result] with the error reduced to its message *)

Inductive result (A : Type) : Type :=
| Ok (a : A)
| Err (e : string).
Arguments Ok {A} a.
Arguments Err {A} e.

#[export] Instance result_ret : MRet result := @Ok.
#[export] Instance result_bind : MBind result := λ A B f r,
  match r with Ok a => f a | Err e => Err e end.

(** [bail!] behind a condition: the early return of the source. *)
Definition ensure (b : bool) (e : string) : result unit :=
  if b then Ok () else Err e.

(** [ok_or_else]: an absent value becomes an error. *)
Definition ok_or {A} (o : option A) (e : string) : result A :=
  match o with Some a => Ok a | None => Err e end.

Definition is_ok {A} (r : result A) : bool :=
  match r with Ok _ => true | Err _ => false end.

Lemma bind_Ok {A B} (r : result A) (f : A → result B) (b : B) :
  r ≫= f = Ok b ↔ ∃ a, r = Ok a ∧ f a = Ok b.
Proof.
  destruct r as [a|e]; cbn; split.
  - intros H; by exists a.
  - intros (a' & [= ->] & H). exact H.
  - discriminate.
  - intros (a' & [=] & _).
Qed.

Lemma ensure_Ok b e u : ensure b e = Ok u ↔ b = true.
Proof. destruct b, u; cbn; naive_solver. Qed.

Lemma ok_or_Ok {A} (o : option A) e (a : A) : ok_or o e = Ok a ↔ o = Some a.
Proof. destruct o; cbn; naive_solver. Qed.

(** Run a fallible function over a list, in order, stopping at the first error. *)
Fixpoint mapR {A B} (f : A → result B) (l : list A) : result (list B) :=
  match l with
  | [] => Ok []
  | x :: l => y ← f x; ys ← mapR f l; Ok (y :: ys)
  end.

Fixpoint foldR {A S} (f : S → A → result S) (s : S) (l : list A) : result S :=
  match l with
  | [] => Ok s
  | x :: l => s' ← f s x; foldR f s' l
  end.

Lemma foldR_app {A S} (f : S → A → result S) s l1 l2 :
  foldR f s (l1 ++ l2) = (s' ← foldR f s l1; foldR f s' l2).
Proof.
  revert s; induction l1 as [|x l1 IH]; intros s; cbn; [done|].
  destruct (f s x) as [s'|e]; cbn; [apply IH|done].
Qed.

Lemma Ok_inj {A} (a b : A) : Ok a = Ok b → a = b.
Proof. by intros [= ->]. Qed.

(** Decompose a chain of binds that returned [Ok]. *)
Ltac inv_ok :=
  repeat match goal with
  | H : Ok _ = Ok _ |- _ => apply Ok_inj in H; subst
  | H : Err _ = Ok _ |- _ => discriminate H
  | H : Ok _ = Err _ |- _ => discriminate H
  | H : mret _ = Ok _ |- _ => apply Ok_inj in H; subst
  | H : mbind _ _ = Ok _ |- _ => apply bind_Ok in H as (? & ? & H)
  | H : ensure _ _ = Ok _ |- _ => apply ensure_Ok in H
  | H : ok_or _ _ = Ok _ |- _ => apply ok_or_Ok in H
  end.

Lemma mapR_Forall2 {A B} (f : A → result B) l k :
  mapR f l = Ok k ↔ Forall2 (λ x y, f x = Ok y) l k.
Proof.
  revert k; induction l as [|x l IH]; intros k; cbn.
  - split; [intros [= <-]; constructor|by inversion 1].
  - split.
    + intros H. inv_ok. constructor; [done|]. by apply IH.
    + inversion 1 as [|? y ? ys E F]; subst. rewrite E. cbn. by rewrite (proj2 (IH ys) F).
Qed.

(** Collecting what a loop visits. *)
Lemma foldR_collect {A} (l acc : list A) : foldR (λ xs x, Ok (xs ++ [x])) acc l = Ok (acc ++ l).
Proof.
  revert acc; induction l as [|x l IH]; intros acc; cbn; [by rewrite app_nil_r|].
  by rewrite IH, <-app_assoc.
Qed.

(** A loop over positions that looks each element up is a loop over the list. *)
Lemma foldR_seq {A S} (F : S → nat → result S) (G : S → nat → A → result S) l s :
  (∀ k x s, l !! k = Some x → F s k = G s k x) →
  foldR F s (seq 0 (length l)) = foldR (λ s '(k, x), G s k x) s (imap pair l).
Proof.
  intros H. change (imap pair l) with (imap (λ i x, (length (@nil A) + i, x)%nat) l).
  change 0%nat with (length (@nil A)).
  assert (∀ pre post, l = pre ++ post → ∀ s, foldR F s (seq (length pre) (length post))
    = foldR (λ s '(k, x), G s k x) s (imap (λ i x, (length pre + i, x)%nat) post)) as X;
    [|by apply (X [] l)].
  clear s. intros pre post. revert pre. induction post as [|x post IH]; intros pre E s; [done|].
  cbn [length seq foldR imap]. rewrite Nat.add_0_r, (H (length pre) x); [|by rewrite E, list_lookup_middle].
  destruct (G s (length pre) x) as [s'|e]; [|done]. cbn [mbind result_bind].
  specialize (IH (pre ++ [x])). rewrite length_app, <-app_assoc, Nat.add_1_r in IH. rewrite (IH E).
  f_equal. apply imap_ext. intros i y _. cbn. f_equal. lia.
Qed.

Lemma foldR_fmap {A B S} (f : S → B → result S) (g : A → B) s l :
  foldR f s (g <$> l) = foldR (λ s x, f s (g x)) s l.
Proof. revert s; induction l as [|x l IH]; intros s; [done|]. cbn. destruct (f s (g x)); [apply IH|done]. Qed.
Lemma foldR_ext {A S} (f g : S → A → result S) s l :
  (∀ s x, f s x = g s x) → foldR f s l = foldR g s l.
Proof. intros H. revert s; induction l as [|x l IH]; intros s; cbn; [done|]. rewrite H. destruct (g s x); [apply IH|done]. Qed.
Lemma imap_pair_shift {A} (l : list A) :
  imap (pair ∘ S) l = (λ '(i, x), (S i, x)) <$> imap pair l.
Proof. by rewrite fmap_imap. Qed.

Lemma zip_seq {A B} (g : nat → B) (l : list A) :
  zip l (g <$> seq 0 (length l)) = (λ '(i, x), (x, g i)) <$> imap pair l.
Proof.
  assert (∀ n, zip l (g <$> seq n (length l)) = imap (λ i x, (x, g (n + i)%nat)) l) as H.
  { induction l as [|x l IH]; intros n; [done|]. cbn. rewrite Nat.add_0_r. f_equal. rewrite IH.
    apply imap_ext. intros i y _. cbn. do 2 f_equal. lia. }
  by rewrite H, fmap_imap.
Qed.

(** Nested loops over the pages and over the facts of each page. *)
Lemma foldR_concat {A S} (visit : S → A → result S) s gs :
  foldR (λ s '(k, g), foldR visit s g) s (imap pair gs) = foldR visit s (concat gs).
Proof.
  revert s; induction gs as [|g gs IH]; intros s; [done|]. cbn [imap foldR concat].
  rewrite foldR_app. destruct (foldR visit s g) as [s'|e]; [|done]. cbn [mbind result_bind].
  rewrite <-IH, imap_pair_shift, foldR_fmap. apply foldR_ext. by intros ? [].
Qed.

Lemma foldR_imap {A S} (visit : S → A → result S) s l :
  foldR visit s l = foldR (λ s '(_, x), visit s x) s (imap pair l).
Proof.
  revert s; induction l as [|x l IH]; intros s; [done|]. cbn [imap foldR].
  destruct (visit s x) as [s'|e]; [|done]. cbn [mbind result_bind].
  rewrite IH, imap_pair_shift, foldR_fmap. apply foldR_ext. by intros ? [].
Qed.

(** Close the impossible branches of a case analysis and clean the context. *)
Ltac crush := repeat (simplify_eq/= || case_match); try done; try lia.

(** * Machine integers, kept at their width *)

Definition u8_ok (z : Z) : Prop := 0 ≤ z < 2 ^ 8.
Definition u16_ok (z : Z) : Prop := 0 ≤ z < 2 ^ 16.
Definition u32_ok (z : Z) : Prop := 0 ≤ z < 2 ^ 32.
Definition u64_ok (z : Z) : Prop := 0 ≤ z < 2 ^ 64.
Definition u128_ok (z : Z) : Prop := 0 ≤ z < 2 ^ 128.
Definition i64_ok (z : Z) : Prop := - 2 ^ 63 ≤ z < 2 ^ 63.

Definition u16_MAX : Z := 2 ^ 16 - 1.
Definition u32_MAX : Z := 2 ^ 32 - 1.
Definition u64_MAX : Z := 2 ^ 64 - 1.
Definition i64_MAX : Z := 2 ^ 63 - 1.
Definition i64_MIN : Z := - 2 ^ 63.

(** [i64::cast_unsigned] and [u64::cast_signed]: the same 64 bits read with
    the other signedness. *)
Definition cast_unsigned (z : Z) : Z := z mod 2 ^ 64.
Definition cast_signed (z : Z) : Z := if z <? 2 ^ 63 then z else z - 2 ^ 64.

(** [u64::saturating_add], [u64::saturating_sub], [u64::checked_add]. *)
Definition sat_add_u64 (a b : Z) : Z := Z.min (a + b) u64_MAX.
Definition sat_sub_u64 (a b : Z) : Z := Z.max (a - b) 0.
Definition checked_add_u64 (a b : Z) : option Z :=
  if a + b <=? u64_MAX then Some (a + b) else None.
(** [i64::try_from] of a [u64] and [u64::try_from] of an [i64]. *)
Definition i64_try_from (z : Z) : option Z := if z <=? i64_MAX then Some z else None.
Definition u64_try_from (z : Z) : option Z := if 0 <=? z then Some z else None.

Ltac unfold_int :=
  unfold u8_ok, u16_ok, u32_ok, u64_ok, u128_ok, i64_ok, u16_MAX, u32_MAX, u64_MAX,
    i64_MAX, i64_MIN in *.
Ltac ilia := unfold_int; lia.

Lemma cast_signed_unsigned z : i64_ok z → cast_signed (cast_unsigned z) = z.
Proof.
  intros H. unfold cast_signed, cast_unsigned. unfold_int.
  destruct (decide (0 ≤ z)).
  - rewrite Z.mod_small by lia. destruct (Z.ltb_spec z (2 ^ 63)); lia.
  - replace (z mod 2 ^ 64) with (z + 2 ^ 64).
    + destruct (Z.ltb_spec (z + 2 ^ 64) (2 ^ 63)); lia.
    + rewrite <-(Z.mod_add z 1) by lia. rewrite Z.mod_small; lia.
Qed.

Lemma cast_unsigned_ok z : u64_ok (cast_unsigned z).
Proof. unfold cast_unsigned, u64_ok. apply Z.mod_pos_bound. lia. Qed.

Lemma cast_signed_ok z : u64_ok z → i64_ok (cast_signed z).
Proof. intros H. unfold cast_signed. unfold_int. destruct (Z.ltb_spec z (2 ^ 63)); lia. Qed.

Lemma cast_unsigned_signed z : u64_ok z → cast_unsigned (cast_signed z) = z.
Proof.
  intros H. unfold cast_signed, cast_unsigned. unfold_int.
  destruct (Z.ltb_spec z (2 ^ 63)).
  - rewrite Z.mod_small; lia.
  - rewrite <-(Z.mod_add _ 1) by lia. rewrite Z.mod_small; lia.
Qed.

(** * Bytes *)

Abbreviation bytes := (list Init.Byte.byte).
Abbreviation b2z := byte.unsigned.
Abbreviation z2b := byte.of_Z.

#[export] Instance byte_eq_dec : EqDecision Init.Byte.byte.
Proof.
  intros x y. destruct (Byte.eqb x y) eqn:E.
  - left. by apply Byte.byte_dec_bl.
  - right. intros ->. by rewrite (Byte.byte_dec_lb (eq_refl y)) in E.
Defined.

#[export] Program Instance byte_countable : Countable Init.Byte.byte :=
  inj_countable Byte.to_N Byte.of_N _.
Next Obligation. intros x. apply Byte.of_to_N. Qed.

Lemma b2z_range b : 0 ≤ b2z b < 256.
Proof. exact (byte.unsigned_range b). Qed.

Lemma b2z_z2b z : 0 ≤ z < 256 → b2z (z2b z) = z.
Proof. intros H. rewrite byte.unsigned_of_Z. unfold byte.wrap. by rewrite Z.mod_small. Qed.

#[export] Instance b2z_inj : Inj (=) (=) byte.unsigned.
Proof. intros x y. apply byte.unsigned_inj. Qed.

(** [str::as_bytes]. *)
Definition as_bytes (s : string) : bytes := String.list_byte_of_string s.
Definition of_bytes (bs : bytes) : string := String.string_of_list_byte bs.

Lemma of_bytes_as_bytes s : of_bytes (as_bytes s) = s.
Proof. apply String.string_of_list_byte_of_string. Qed.
Lemma as_bytes_of_bytes bs : as_bytes (of_bytes bs) = bs.
Proof. apply String.list_byte_of_string_of_list_byte. Qed.
#[export] Instance as_bytes_inj : Inj (=) (=) as_bytes.
Proof. intros s t H. by rewrite <-(of_bytes_as_bytes s), H, of_bytes_as_bytes. Qed.

(** Fixed-width integers as bytes ([to_le_bytes], [from_le_bytes], [to_be_bytes],
    [from_be_bytes]); [n] is the width in bytes. *)
Definition to_le_bytes (n : nat) (z : Z) : bytes := le_split n z.
Definition from_le_bytes (bs : bytes) : Z := le_combine bs.
Definition to_be_bytes (n : nat) (z : Z) : bytes := rev (le_split n z).
Definition from_be_bytes (bs : bytes) : Z := le_combine (rev bs).

#[global] Arguments to_le_bytes : simpl never.
#[global] Arguments from_le_bytes : simpl never.
#[global] Arguments to_be_bytes : simpl never.
#[global] Arguments from_be_bytes : simpl never.

Lemma length_to_le_bytes n z : length (to_le_bytes n z) = n.
Proof. apply length_le_split. Qed.
Lemma length_to_be_bytes n z : length (to_be_bytes n z) = n.
Proof. unfold to_be_bytes. rewrite length_rev. apply length_le_split. Qed.

Lemma from_to_le_bytes n z : 0 ≤ z < 2 ^ (Z.of_nat n * 8) → from_le_bytes (to_le_bytes n z) = z.
Proof.
  intros H. unfold from_le_bytes, to_le_bytes.
  rewrite le_combine_split. by rewrite Z.mod_small.
Qed.
Lemma to_from_le_bytes bs : to_le_bytes (length bs) (from_le_bytes bs) = bs.
Proof. apply split_le_combine. Qed.
Lemma from_le_bytes_range bs : 0 ≤ from_le_bytes bs < 2 ^ (8 * Z.of_nat (length bs)).
Proof. apply le_combine_bound. Qed.

Lemma from_to_be_bytes n z : 0 ≤ z < 2 ^ (Z.of_nat n * 8) → from_be_bytes (to_be_bytes n z) = z.
Proof.
  intros H. unfold from_be_bytes, to_be_bytes. rewrite rev_involutive.
  by apply from_to_le_bytes.
Qed.
Lemma to_from_be_bytes bs : to_be_bytes (length bs) (from_be_bytes bs) = bs.
Proof.
  unfold from_be_bytes, to_be_bytes. rewrite <-(length_rev bs), split_le_combine.
  apply rev_involutive.
Qed.
Lemma from_be_bytes_range bs : 0 ≤ from_be_bytes bs < 2 ^ (8 * Z.of_nat (length bs)).
Proof. unfold from_be_bytes. rewrite <-(length_rev bs). apply le_combine_bound. Qed.
Lemma to_be_bytes_inj n a b :
  0 ≤ a < 2 ^ (Z.of_nat n * 8) → 0 ≤ b < 2 ^ (Z.of_nat n * 8) →
  to_be_bytes n a = to_be_bytes n b → a = b.
Proof. intros Ha Hb H. rewrite <-(from_to_be_bytes n a), H; [by apply from_to_be_bytes|done]. Qed.

Lemma lor_shiftl_add a b k : 0 ≤ k → 0 ≤ a < 2 ^ k → Z.lor a (Z.shiftl b k) = a + b * 2 ^ k.
Proof.
  intros Hk Ha. rewrite <-Z.shiftl_mul_pow2 by done.
  pose proof (Z.add_lor_land a (Z.shiftl b k)) as E.
  assert (Z.land a (Z.shiftl b k) = 0) as L.
  { apply Z.bits_inj'. intros i Hi. rewrite Z.land_spec, Z.bits_0.
    destruct (decide (i < k)).
    - rewrite Z.shiftl_spec_low by done. by rewrite andb_false_r.
    - destruct (decide (a = 0)) as [->|]; [by rewrite Z.bits_0|].
      rewrite Z.bits_above_log2; [done|lia|].
      apply Z.lt_le_trans with k; [|lia]. apply Z.log2_lt_pow2; lia. }
  lia.
Qed.

Lemma from_be_bytes_cons b bs :
  from_be_bytes (b :: bs) = b2z b * 2 ^ (8 * Z.of_nat (length bs)) + from_be_bytes bs.
Proof.
  unfold from_be_bytes. cbn [rev]. rewrite le_combine_app, le_combine_1, length_rev.
  rewrite lor_shiftl_add; [|lia|].
  - replace (Z.of_nat (length bs) * 8) with (8 * Z.of_nat (length bs)) by lia. lia.
  - pose proof (le_combine_bound (rev bs)) as H. rewrite length_rev in H.
    replace (Z.of_nat (length bs) * 8) with (8 * Z.of_nat (length bs)) by lia. exact H.
Qed.

(** [slice.get(a..b)]: the bytes from [a] up to [b], [None] out of range. *)
Definition get_range {A} (l : list A) (a b : nat) : option (list A) :=
  if decide (a ≤ b ∧ b ≤ length l)%nat then Some (take (b - a) (drop a l)) else None.

Lemma get_range_app_mid {A} (l1 l2 l3 : list A) :
  get_range (l1 ++ l2 ++ l3) (length l1) (length l1 + length l2) = Some l2.
Proof.
  unfold get_range. rewrite !length_app.
  rewrite decide_True by lia.
  replace (length l1 + length l2 - length l1)%nat with (length l2) by lia.
  by rewrite drop_app_length, take_app_length.
Qed.

Lemma get_range_at {A} (l l1 l2 l3 : list A) a b :
  l = l1 ++ l2 ++ l3 → a = length l1 → b = (length l1 + length l2)%nat →
  get_range l a b = Some l2.
Proof. intros -> -> ->. apply get_range_app_mid. Qed.

Lemma get_range_Some {A} (l r : list A) a b :
  get_range l a b = Some r ↔
  (a ≤ b)%nat ∧ (b ≤ length l)%nat ∧ r = take (b - a) (drop a l).
Proof.
  unfold get_range. case_decide as D; split; [|by intros (_ & _ & ->)|done|].
  - intros [= <-]. by destruct D.
  - intros (? & ? & _). by destruct D.
Qed.

Lemma get_range_length {A} (l r : list A) a b :
  get_range l a b = Some r → length r = (b - a)%nat.
Proof. intros (Ha & Hb & ->)%get_range_Some. rewrite length_take, length_drop. lia. Qed.

(** * [List.filter], the model of [Iterator::filter] with a bool test *)

Lemma List_filter_perm {A} (p : A → bool) l k : l ≡ₚ k → List.filter p l ≡ₚ List.filter p k.
Proof.
  induction 1 as [|x l k _ IH|x y l|]; cbn; [done| | |by etrans].
  - destruct (p x); [by constructor|done].
  - destruct (p x), (p y); done || apply Permutation_swap.
Qed.

Lemma elem_of_List_filter {A} (p : A → bool) l x : x ∈ List.filter p l ↔ p x = true ∧ x ∈ l.
Proof. rewrite !list_elem_of_In, filter_In. naive_solver. Qed.

Lemma elem_of_flat_map {A B} (f : A → list B) l y : y ∈ flat_map f l ↔ ∃ x, x ∈ l ∧ y ∈ f x.
Proof. rewrite list_elem_of_In, in_flat_map. by setoid_rewrite list_elem_of_In. Qed.
Lemma flat_map_omap {A B C} (h : B → list C) (g : A → option B) (l : list A) :
  flat_map h (omap g l) = flat_map (λ x, match g x with Some y => h y | None => [] end) l.
Proof. induction l as [|x l IH]; [done|]. cbn. destruct (g x); cbn; by rewrite IH. Qed.

Lemma flat_map_perm {A B} (g h : A → list B) (l : list A) : (∀ x, g x ≡ₚ h x) → flat_map g l ≡ₚ flat_map h l.
Proof. intros E. induction l as [|x l IH]; [done|]. cbn. apply Permutation_app; [apply E|apply IH]. Qed.

Lemma flat_map_app_perm {A B} (g h : A → list B) (l : list A) :
  flat_map (λ x, g x ++ h x) l ≡ₚ flat_map g l ++ flat_map h l.
Proof.
  induction l as [|x l IH]; [done|]. cbn. rewrite <-!app_assoc. apply Permutation_app_head.
  etrans; [apply Permutation_app_head, IH|]. rewrite !app_assoc. apply Permutation_app_tail, Permutation_app_comm.
Qed.

Lemma flat_map_nil {A B} (l : list A) : flat_map (λ _, @nil B) l = [].
Proof. by induction l. Qed.

Lemma flat_map_swap {A B C} (g : A → B → list C) (l : list A) (k : list B) :
  flat_map (λ x, flat_map (g x) k) l ≡ₚ flat_map (λ y, flat_map (λ x, g x y) l) k.
Proof.
  induction l as [|x l IH]; cbn; [by rewrite flat_map_nil|].
  etrans; [apply Permutation_app_head, IH|]. symmetry. apply flat_map_app_perm.
Qed.

Lemma omap_ext_in {A B} (g h : A → option B) (l : list A) : (∀ x, x ∈ l → g x = h x) → omap g l = omap h l.
Proof.
  induction l as [|x l IH]; intros E; [done|]. cbn. rewrite (E x) by left. rewrite IH; [done|].
  intros y I. apply E. by right.
Qed.

Lemma flat_map_ext_in {A B} (g h : A → list B) (l : list A) : (∀ x, x ∈ l → g x = h x) → flat_map g l = flat_map h l.
Proof.
  induction l as [|x l IH]; intros E; [done|]. cbn. rewrite (E x) by left. rewrite IH; [done|].
  intros y I. apply E. by right.
Qed.

Lemma NoDup_List_filter {A} (p : A → bool) l : NoDup l → NoDup (List.filter p l).
Proof. rewrite !NoDup_ListNoDup. apply List.NoDup_filter. Qed.

Lemma List_filter_filter {A} (p q : A → bool) l :
  List.filter (λ x, p x && q x) l = List.filter p (List.filter q l).
Proof.
  induction l as [|x l IH]; [done|]. cbn. destruct (q x), (p x) eqn:P; cbn; rewrite ?P, ?IH; done.
Qed.

Lemma List_filter_ext {A} (p q : A → bool) l :
  (∀ x, x ∈ l → p x = q x) → List.filter p l = List.filter q l.
Proof.
  induction l as [|x l IH]; intros E; [done|]. cbn. rewrite (E x) by set_solver.
  rewrite IH; [done|]. intros; apply E; set_solver.
Qed.

Lemma List_filter_id {A} (p : A → bool) l : (∀ x, x ∈ l → p x = true) → List.filter p l = l.
Proof.
  induction l as [|x l IH]; intros E; [done|]. cbn. rewrite (E x) by set_solver.
  f_equal. apply IH. intros; apply E; set_solver.
Qed.

Lemma List_filter_fmap {A B} (f : A → B) (p : B → bool) l :
  List.filter p (f <$> l) = f <$> List.filter (λ x, p (f x)) l.
Proof. induction l as [|x l IH]; [done|]. cbn. destruct (p (f x)); cbn; by rewrite IH. Qed.

Lemma StronglySorted_weaken {A} (R R' : relation A) l :
  (∀ x y, x ∈ l → y ∈ l → R x y → R' x y) → StronglySorted R l → StronglySorted R' l.
Proof.
  intros H S. induction S as [|x l S IH F]; [constructor|]. constructor.
  - apply IH. set_solver.
  - rewrite Forall_forall in *. intros y Y. apply H; [set_solver..|by apply F].
Qed.

Lemma StronglySorted_lookup {A} (R : relation A) l i j x y :
  StronglySorted R l → (i < j)%nat → l !! i = Some x → l !! j = Some y → R x y.
Proof.
  intros S. revert i j. induction S as [|z l S IH F]; intros i j Hij Hx Hy; [done|].
  destruct j as [|j]; [lia|]. destruct i as [|i]; cbn in *.
  - injection Hx as ->. rewrite Forall_forall in F. by apply F, list_elem_of_lookup_2 with j.
  - apply (IH i j); [lia|done..].
Qed.

(** Keys computed by [f] are distinct when those computed by [g] are and [f]
    determines [g]. *)
Lemma NoDup_omap_det {A B C} (f : A → option B) (g : A → C) l :
  (∀ x y k, f x = Some k → f y = Some k → g x = g y) → NoDup (g <$> l) → NoDup (omap f l).
Proof.
  intros D. induction l as [|x l IH]; cbn; [constructor|]. intros [N R]%NoDup_cons.
  destruct (f x) as [k|] eqn:E; [|by apply IH]. constructor; [|by apply IH].
  intros (y & Y & F)%list_elem_of_omap. apply N. rewrite (D x y k E F).
  by apply list_elem_of_fmap_2.
Qed.
Lemma and_iff_compat_l_dep (P Q R : Prop) : (P → Q ↔ R) → P ∧ Q ↔ P ∧ R.
Proof. tauto. Qed.
Lemma iff_bool_eq (a b : bool) : (a = true ↔ b = true) → a = b.
Proof. destruct a, b; naive_solver. Qed.

Lemma NoDup_fmap_det {A B C} (f : A → B) (g : A → C) l :
  (∀ x y, f x = f y → g x = g y) → NoDup (g <$> l) → NoDup (f <$> l).
Proof.
  intros D N. replace (f <$> l) with (omap (Some ∘ f) l) by (clear N; induction l; cbn; by f_equal).
  apply (NoDup_omap_det _ g); [|done]. cbn. intros x y k [= <-] [= E]. by apply D.
Qed.

(** * Comparisons: [Ord::cmp], lexicographic as [derive(Ord)] makes it *)

Definition cmp_then (c d : comparison) : comparison :=
  match c with Eq => d | _ => c end.
Notation "c '.then' d" := (cmp_then c d) (at level 41, right associativity) : vicia_scope.

Class Ord (A : Type) := cmp : A → A → comparison.

(** A total preorder; [OrdLaws] adds that equal in the order is equal. *)
Class PreOrdLaws (A : Type) `{Ord A} : Prop := {
  cmp_refl : ∀ x : A, cmp x x = Eq;
  cmp_opp : ∀ x y : A, cmp y x = CompOpp (cmp x y);
  cmp_trans : ∀ (c : comparison) (x y z : A), cmp x y = c → cmp y z = c → cmp x z = c;
}.
Class OrdLaws (A : Type) `{Ord A} : Prop := {
  ord_pre :: PreOrdLaws A;
  cmp_eq : ∀ x y : A, cmp x y = Eq → x = y;
}.

Definition le_ord {A} `{Ord A} (x y : A) : Prop := cmp x y ≠ Gt.
Definition ltb_ord {A} `{Ord A} (x y : A) : bool :=
  match cmp x y with Lt => true | _ => false end.

Section pre_ord.
Context {A : Type} `{PreOrdLaws A}.

Lemma cmp_eq_l (x y z : A) : cmp x y = Eq → cmp x z = cmp y z.
Proof.
  intros E. destruct (cmp y z) eqn:D.
  - by eapply cmp_trans.
  - destruct (cmp x z) eqn:F; [|done|].
    + assert (cmp y z = Eq) by (apply cmp_trans with x; [by rewrite cmp_opp, E|done]).
      congruence.
    + assert (cmp z x = Lt) by (by rewrite cmp_opp, F).
      assert (cmp y x = Lt) by (by eapply cmp_trans).
      rewrite (cmp_opp x y), E in *. done.
  - destruct (cmp x z) eqn:F; [| |done].
    + assert (cmp y z = Eq) by (apply cmp_trans with x; [by rewrite cmp_opp, E|done]).
      congruence.
    + assert (cmp z y = Lt) by (by rewrite cmp_opp, D).
      assert (cmp x y = Lt) by (by eapply cmp_trans). congruence.
Qed.

Lemma cmp_eq_r (x y z : A) : cmp x y = Eq → cmp z x = cmp z y.
Proof. intros E. rewrite (cmp_opp x z), (cmp_opp y z). f_equal. by apply cmp_eq_l. Qed.

#[export] Instance le_ord_preorder : PreOrder (@le_ord A _).
Proof.
  split; unfold le_ord.
  - intros x. by rewrite cmp_refl.
  - intros x y z Hxy Hyz Hxz.
    destruct (cmp x y) eqn:E; [|clear Hxy|done].
    + by rewrite (cmp_eq_l _ _ z E) in Hxz.
    + destruct (cmp y z) eqn:D; [|clear Hyz|done].
      * rewrite <-(cmp_eq_r _ _ x D) in Hxz. congruence.
      * rewrite (cmp_trans Lt x y z) in Hxz by done. done.
Qed.

#[export] Instance le_ord_total : Total (@le_ord A _).
Proof. intros x y. unfold le_ord. rewrite (cmp_opp x y). destruct (cmp x y); auto. Qed.
End pre_ord.

Lemma le_lt_trans {A} `{PreOrdLaws A} (x y z : A) :
  le_ord x y → cmp y z = Lt → cmp x z = Lt.
Proof.
  unfold le_ord. intros N E. destruct (cmp x y) eqn:D; [|by eapply cmp_trans|done].
  by rewrite (cmp_eq_l _ _ z D).
Qed.

#[export] Instance le_ord_dec {A} `{Ord A} : RelDecision (@le_ord A _).
Proof. intros x y. unfold le_ord. destruct (cmp x y); [left|left|right]; naive_solver. Defined.

#[export] Instance le_ord_antisymm {A} `{OrdLaws A} : AntiSymm (=) (@le_ord A _).
Proof.
  intros x y. unfold le_ord. rewrite (cmp_opp x y). intros H1 H2. apply cmp_eq.
  by destruct (cmp x y).
Qed.

#[export] Instance Z_ord : Ord Z := Z.compare.
#[export] Instance Z_ord_laws : OrdLaws Z.
Proof.
  split; [split|]; unfold cmp, Z_ord; intros.
  - apply Z.compare_refl.
  - apply Z.compare_antisym.
  - destruct c; rewrite ?Z.compare_eq_iff, ?Z.compare_lt_iff, ?Z.compare_gt_iff in *; lia.
  - by apply Z.compare_eq_iff.
Qed.

#[export] Instance nat_ord : Ord nat := Nat.compare.
#[export] Instance nat_ord_laws : OrdLaws nat.
Proof.
  split; [split|]; unfold cmp, nat_ord; intros.
  - apply Nat.compare_refl.
  - apply Nat.compare_antisym.
  - destruct c; rewrite ?Nat.compare_eq_iff, ?Nat.compare_lt_iff, ?Nat.compare_gt_iff in *; lia.
  - by apply Nat.compare_eq_iff.
Qed.

(** Comparing through a projection: [cmp_on f x y = cmp (f x) (f y)]. *)
Definition cmp_on {A B} `{Ord B} (f : A → B) : Ord A := λ x y, cmp (f x) (f y).
Lemma cmp_on_pre {A B} `{PreOrdLaws B} (f : A → B) : @PreOrdLaws A (cmp_on f).
Proof.
  split; unfold cmp, cmp_on; intros.
  - apply cmp_refl.
  - apply cmp_opp.
  - by eapply cmp_trans.
Qed.
Lemma cmp_on_laws {A B} `{OrdLaws B} (f : A → B) `{!Inj (=) (=) f} : @OrdLaws A (cmp_on f).
Proof.
  split; [apply cmp_on_pre|]. unfold cmp at 1, cmp_on. intros x y E.
  by apply (inj f), cmp_eq.
Qed.

#[export] Instance bool_ord : Ord bool := cmp_on (λ b : bool, if b then 1 else 0).
#[export] Instance bool_ord_laws : OrdLaws bool.
Proof. apply cmp_on_laws. intros [] []; naive_solver. Qed.

#[export] Instance byte_ord : Ord Init.Byte.byte := cmp_on b2z.
#[export] Instance byte_ord_laws : OrdLaws Init.Byte.byte.
Proof. exact (cmp_on_laws byte.unsigned). Qed.

#[export] Instance pair_ord {A B} `{Ord A, Ord B} : Ord (A * B) := λ x y,
  (cmp x.1 y.1 .then cmp x.2 y.2)%vicia.
#[export] Instance pair_pre {A B} `{PreOrdLaws A, PreOrdLaws B} : PreOrdLaws (A * B).
Proof.
  split; unfold cmp, pair_ord.
  - intros [a b]; cbn. by rewrite !cmp_refl.
  - intros [a b] [a' b']; cbn. rewrite (cmp_opp a a'), (cmp_opp b b').
    by destruct (cmp a a'), (cmp b b').
  - intros c [a b] [a' b'] [a'' b'']; cbn.
    destruct (cmp a a') eqn:E1; cbn.
    + rewrite (cmp_eq_l a a' a'' E1). destruct (cmp a' a'') eqn:E2; cbn.
      * intros; by eapply cmp_trans.
      * intros <-. destruct (cmp b b'); try done.
      * intros <-. destruct (cmp b b'); try done.
    + intros <-. destruct (cmp a' a'') eqn:E2; cbn.
      * by rewrite <-(cmp_eq_r _ _ a E2), E1.
      * by rewrite (cmp_trans Lt a a' a'').
      * done.
    + intros <-. destruct (cmp a' a'') eqn:E2; cbn.
      * by rewrite <-(cmp_eq_r _ _ a E2), E1.
      * done.
      * by rewrite (cmp_trans Gt a a' a'').
Qed.
#[export] Instance pair_ord_laws {A B} `{OrdLaws A, OrdLaws B} : OrdLaws (A * B).
Proof.
  split; [apply _|]. intros [a b] [a' b']. unfold cmp, pair_ord; cbn.
  destruct (cmp a a') eqn:E; cbn; try done. intros F.
  apply cmp_eq in E as ->. apply cmp_eq in F as ->. done.
Qed.

(** Slices compare lexicographically, a proper prefix first. *)
Fixpoint list_cmp {A} `{Ord A} (l k : list A) : comparison :=
  match l, k with
  | [], [] => Eq
  | [], _ :: _ => Lt
  | _ :: _, [] => Gt
  | x :: l, y :: k => (cmp x y .then list_cmp l k)%vicia
  end.
#[export] Instance list_ord {A} `{Ord A} : Ord (list A) := list_cmp.
#[export] Instance list_pre {A} `{PreOrdLaws A} : PreOrdLaws (list A).
Proof.
  split; unfold cmp, list_ord.
  - intros l; induction l as [|x l IH]; cbn; [done|]. by rewrite cmp_refl.
  - intros l; induction l as [|x l IH]; intros [|y k]; cbn; try done.
    rewrite (cmp_opp x y), IH. by destruct (cmp x y).
  - intros c l; induction l as [|x l IH]; intros [|y k] [|z m]; cbn; try congruence.
    destruct (cmp x y) eqn:E1; cbn.
    + rewrite (cmp_eq_l x y z E1). destruct (cmp y z) eqn:E2; cbn; [apply IH| |].
      * intros <-. by destruct (list_cmp l k).
      * intros <-. by destruct (list_cmp l k).
    + intros <-. destruct (cmp y z) eqn:E2; cbn; try done.
      * by rewrite <-(cmp_eq_r _ _ x E2), E1.
      * by rewrite (cmp_trans Lt x y z).
    + intros <-. destruct (cmp y z) eqn:E2; cbn; try done.
      * by rewrite <-(cmp_eq_r _ _ x E2), E1.
      * by rewrite (cmp_trans Gt x y z).
Qed.
#[export] Instance list_ord_laws {A} `{OrdLaws A} : OrdLaws (list A).
Proof.
  split; [apply _|]. unfold cmp, list_ord.
  intros l; induction l as [|x l IH]; intros [|y k]; cbn; try done.
  destruct (cmp x y) eqn:E; cbn; try done.
  intros F. apply cmp_eq in E as ->. by rewrite (IH _ F).
Qed.

#[export] Instance string_ord : Ord string := cmp_on as_bytes.
#[export] Instance string_ord_laws : OrdLaws string.
Proof. exact (cmp_on_laws as_bytes). Qed.

(** Big-endian bytes of one width compare as the numbers they encode. *)
Lemma be_bytes_cmp (l k : bytes) :
  length l = length k → cmp l k = Z.compare (from_be_bytes l) (from_be_bytes k).
Proof.
  revert k; induction l as [|x l IH]; intros [|y k]; try done.
  intros [= E]. unfold cmp, list_ord; cbn [list_cmp].
  change (list_cmp l k) with (cmp l k). rewrite (IH k E), !from_be_bytes_cons, E.
  pose proof (from_be_bytes_range l) as Hl. pose proof (from_be_bytes_range k) as Hk.
  rewrite E in Hl. set (W := 2 ^ (8 * Z.of_nat (length k))) in *.
  unfold cmp, byte_ord, cmp_on, cmp, Z_ord.
  destruct (Z.compare_spec (b2z x) (b2z y)) as [->|L|G]; cbn.
  - destruct (Z.compare_spec (from_be_bytes l) (from_be_bytes k)) as [->|L|G].
    + symmetry. by apply Z.compare_eq_iff.
    + symmetry. apply Z.compare_lt_iff. nia.
    + symmetry. apply Z.compare_gt_iff. nia.
  - symmetry. apply Z.compare_lt_iff. nia.
  - symmetry. apply Z.compare_gt_iff. nia.
Qed.

Lemma to_be_bytes_cmp n a b :
  0 ≤ a < 2 ^ (Z.of_nat n * 8) → 0 ≤ b < 2 ^ (Z.of_nat n * 8) →
  cmp (to_be_bytes n a) (to_be_bytes n b) = Z.compare a b.
Proof.
  intros Ha Hb. rewrite be_bytes_cmp by (by rewrite !length_to_be_bytes).
  by rewrite !from_to_be_bytes.
Qed.

(** * Hints *)

Create HintDb vicia.
Create Rewrite HintDb vicia.
#[export] Hint Resolve cast_unsigned_ok cast_signed_ok NoDup_List_filter : vicia.
#[export] Hint Rewrite length_to_le_bytes length_to_be_bytes @length_app : vicia.

(** Lengths of layouts. *)
Ltac lens := autorewrite with vicia.
