(* ===== verification/Types.v ===== *)
(** The fact model of src/src/graph/types.rs: values, facts, the public fact
    record, their orders, their equality and what they feed to a hasher.

    A [u64]/[i64] is a [Z] in range, an [EntityId] (a UUID) is its 128-bit
    big-endian number, an [f64] is its 64-bit IEEE-754 pattern, a [String] is
    a Rocq [string] read as its UTF-8 bytes.  [value_ok] and [fact_ok] state
    the ranges the Rust types impose. *)
From S2P Require Import Prelude.

Abbreviation TxId := Z (only parsing).
Abbreviation EntityId := Z (only parsing).
Abbreviation Attribute := string (only parsing).

(** * [f64] as a bit pattern *)
Module F64.
Definition SIGN : Z := 0x8000000000000000.
Definition MAG_MASK : Z := 0x7FFFFFFFFFFFFFFF.
Definition INF : Z := 0x7FF0000000000000.

(** Everything but the sign bit. *)
Definition magnitude (f : Z) : Z := f mod SIGN.
Definition is_sign_negative (f : Z) : bool := SIGN <=? f.
Definition is_nan (f : Z) : bool := INF <? magnitude f.
Definition is_infinite (f : Z) : bool := magnitude f =? INF.
(** Unary minus flips the sign bit. *)
Definition neg (f : Z) : Z := Z.lxor f SIGN.
(** The patterns of one sign grow with the number they denote, and both
    zeros have key 0. *)
Definition key (f : Z) : Z :=
  if is_sign_negative f then - magnitude f else magnitude f.
Definition partial_cmp (a b : Z) : option comparison :=
  if is_nan a || is_nan b then None else Some (key a ?= key b).
(** [==] on [f64]. *)
Definition eqb (a b : Z) : bool :=
  match partial_cmp a b with Some Eq => true | _ => false end.

Definition NAN : Z := 0x7FF8000000000000.
Definition NEG_ZERO : Z := SIGN.

Lemma magnitude_range f : 0 ≤ magnitude f < SIGN.
Proof. apply Z.mod_pos_bound. done. Qed.

Lemma magnitude_pos f : 0 ≤ f < SIGN → magnitude f = f.
Proof. apply Z.mod_small. Qed.

Lemma magnitude_neg f : SIGN ≤ f < 2 ^ 64 → magnitude f = f - SIGN.
Proof.
  intros H. unfold magnitude, SIGN in *.
  rewrite <-(Z.mod_add _ (-1)) by lia. rewrite Z.mod_small; lia.
Qed.

Lemma key_zero f : u64_ok f → key f = 0 ↔ f = 0 ∨ f = NEG_ZERO.
Proof.
  intros H. unfold key, is_sign_negative, NEG_ZERO.
  destruct (Z.leb_spec SIGN f).
  - rewrite magnitude_neg by ilia. unfold SIGN in *. lia.
  - rewrite magnitude_pos by ilia. unfold SIGN in *. lia.
Qed.

(** Equal keys are equal patterns, except for the two zeros. *)
Lemma key_inj a b : u64_ok a → u64_ok b → key a = key b → a = b ∨ (key a = 0 ∧ key b = 0).
Proof.
  intros Ha Hb. unfold key, is_sign_negative.
  destruct (Z.leb_spec SIGN a), (Z.leb_spec SIGN b).
  - rewrite !magnitude_neg by ilia. lia.
  - rewrite magnitude_neg, (magnitude_pos b) by ilia. unfold SIGN in *. ilia.
  - rewrite (magnitude_neg b), magnitude_pos by ilia. unfold SIGN in *. ilia.
  - rewrite !magnitude_pos by ilia. lia.
Qed.
End F64.

(** * UTF-8 validity, the test of [std::str::from_utf8] *)

Definition utf8_cont (b : Init.Byte.byte) : bool := (0x80 <=? b2z b) && (b2z b <=? 0xBF).

(** The second byte of a three- or four-byte sequence is restricted for the
    lead bytes E0, ED, F0 and F4 (no overlong form, no surrogate, no scalar
    above U+10FFFF). *)
Definition utf8_second (lead : Z) (b : Init.Byte.byte) : bool :=
  let c := b2z b in
  if lead =? 0xE0 then (0xA0 <=? c) && (c <=? 0xBF)
  else if lead =? 0xED then (0x80 <=? c) && (c <=? 0x9F)
  else if lead =? 0xF0 then (0x90 <=? c) && (c <=? 0xBF)
  else if lead =? 0xF4 then (0x80 <=? c) && (c <=? 0x8F)
  else utf8_cont b.

Fixpoint utf8_valid (bs : bytes) : bool :=
  match bs with
  | [] => true
  | b0 :: r0 =>
      let c := b2z b0 in
      if c <? 0x80 then utf8_valid r0
      else match r0 with
      | [] => false
      | b1 :: r1 =>
          if (0xC2 <=? c) && (c <=? 0xDF) then utf8_cont b1 && utf8_valid r1
          else match r1 with
          | [] => false
          | b2 :: r2 =>
              if (0xE0 <=? c) && (c <=? 0xEF)
              then utf8_second c b1 && utf8_cont b2 && utf8_valid r2
              else match r2 with
              | [] => false
              | b3 :: r3 =>
                  if (0xF0 <=? c) && (c <=? 0xF4)
                  then utf8_second c b1 && utf8_cont b2 && utf8_cont b3 && utf8_valid r3
                  else false
              end
          end
      end
  end.

Definition from_utf8 (bs : bytes) : result string :=
  if utf8_valid bs then Ok (of_bytes bs) else Err "invalid utf-8 sequence".

Lemma from_utf8_as_bytes s : utf8_valid (as_bytes s) = true → from_utf8 (as_bytes s) = Ok s.
Proof. unfold from_utf8. intros ->. by rewrite of_bytes_as_bytes. Qed.

Lemma from_utf8_Ok bs s : from_utf8 bs = Ok s → as_bytes s = bs ∧ utf8_valid bs = true.
Proof.
  unfold from_utf8. destruct (utf8_valid bs); [|done]. intros [= <-].
  by rewrite as_bytes_of_bytes.
Qed.

(** * Values *)

Inductive Value : Type :=
| VString (s : string)
| VInteger (i : Z)
| VFloat (f : Z)
| VBoolean (b : bool)
| VRef (id : EntityId)
| VKeyword (k : string)
| VNull.

#[export] Instance Value_eq_dec : EqDecision Value.
Proof. solve_decision. Defined.

Definition value_ok (v : Value) : Prop :=
  match v with
  | VString s | VKeyword s => utf8_valid (as_bytes s) = true
  | VInteger i => i64_ok i
  | VFloat f => u64_ok f
  | VBoolean _ | VNull => True
  | VRef id => u128_ok id
  end.

(** [#[derive(PartialEq)]]: structural, with [==] of [f64] on floats. *)
Definition value_eq (a b : Value) : bool :=
  match a, b with
  | VString s, VString t => bool_decide (s = t)
  | VInteger i, VInteger j => i =? j
  | VFloat f, VFloat g => F64.eqb f g
  | VBoolean x, VBoolean y => eqb x y
  | VRef x, VRef y => x =? y
  | VKeyword s, VKeyword t => bool_decide (s = t)
  | VNull, VNull => true
  | _, _ => false
  end.

Definition is_nan_value (v : Value) : bool :=
  match v with VFloat f => F64.is_nan f | _ => false end.

(** What [Hash for Value] writes to the hasher, in order. *)
Inductive HashWrite : Type :=
| HDiscriminant (d : Z)
| HU8 (z : Z)
| HU64 (z : Z)
| HI64 (z : Z)
| HBool (b : bool)
| HStr (s : string)
| HUuid (id : Z).

Definition value_discriminant (v : Value) : Z :=
  match v with
  | VString _ => 0 | VInteger _ => 1 | VFloat _ => 2 | VBoolean _ => 3
  | VRef _ => 4 | VKeyword _ => 5 | VNull => 6
  end.

Definition value_hash (v : Value) : list HashWrite :=
  HDiscriminant (value_discriminant v) ::
  match v with
  | VString s => [HStr s]
  | VInteger i => [HI64 i]
  | VFloat f =>
      if F64.is_nan f then [HU8 0]
      else if F64.is_sign_negative f then [HU8 1; HU64 (F64.neg f)]
      else [HU8 2; HU64 f]
  | VBoolean b => [HBool b]
  | VRef r => [HUuid r]
  | VKeyword k => [HStr k]
  | VNull => []
  end.

Definition float_cmp (a b : Z) : comparison :=
  if F64.is_nan a && F64.is_nan b then Eq
  else if F64.is_nan a then Gt
  else if F64.is_nan b then Lt
  else default Eq (F64.partial_cmp a b).

(** [impl Ord for Value]. *)
Definition value_cmp (a b : Value) : comparison :=
  match a, b with
  | VString a, VString b => cmp a b
  | VInteger a, VInteger b => cmp a b
  | VFloat a, VFloat b => float_cmp a b
  | VBoolean a, VBoolean b => cmp a b
  | VRef a, VRef b => cmp a b
  | VKeyword a, VKeyword b => cmp a b
  | VNull, VNull => Eq
  | _, _ => cmp (value_discriminant a) (value_discriminant b)
  end.
#[export] Instance Value_ord : Ord Value := value_cmp.

Definition as_string (v : Value) : option string :=
  match v with VString s => Some s | _ => None end.
Definition as_integer (v : Value) : option Z :=
  match v with VInteger i => Some i | _ => None end.
Definition as_float (v : Value) : option Z :=
  match v with VFloat f => Some f | _ => None end.
Definition as_boolean (v : Value) : option bool :=
  match v with VBoolean b => Some b | _ => None end.
Definition as_ref (v : Value) : option EntityId :=
  match v with VRef id => Some id | _ => None end.
Definition as_keyword (v : Value) : option string :=
  match v with VKeyword k => Some k | _ => None end.
Definition is_null (v : Value) : bool :=
  match v with VNull => true | _ => false end.

(** * Facts *)

Definition VALID_TIME_FOREVER : Z := i64_MAX.
Definition RETRACT_ALL_VALID_FROM : Z := i64_MIN + 1.

Inductive FactValidTime : Type :=
| Window (valid_from valid_to : Z)
| AllValidTime.

Record FactRecord : Type := {
  rec_entity : EntityId;
  rec_attribute : string;
  rec_value : Value;
  rec_tx_id : Z;
  rec_tx_count : Z;
  rec_valid_time : FactValidTime;
  rec_asserted : bool;
}.

Record Fact : Type := mkFact {
  entity : EntityId;
  attribute : Attribute;
  value : Value;
  tx_id : TxId;
  tx_count : Z;
  valid_from : Z;
  valid_to : Z;
  asserted : bool;
}.

#[export] Instance Fact_eq_dec : EqDecision Fact.
Proof. solve_decision. Defined.

Record fact_ok (f : Fact) : Prop := {
  ok_entity : u128_ok (entity f);
  ok_attribute : utf8_valid (as_bytes (attribute f)) = true;
  ok_value : value_ok (value f);
  ok_tx_id : u64_ok (tx_id f);
  ok_tx_count : u64_ok (tx_count f);
  ok_valid_from : i64_ok (valid_from f);
  ok_valid_to : i64_ok (valid_to f);
}.

(** The unscoped ("legacy") retraction: the sentinel window on a retraction. *)
Definition is_unscoped_window (vf vt : Z) : bool :=
  (vf =? RETRACT_ALL_VALID_FROM) && (vt =? VALID_TIME_FOREVER).

Definition from_fact (f : Fact) : FactRecord := {|
  rec_entity := entity f;
  rec_attribute := attribute f;
  rec_value := value f;
  rec_tx_id := tx_id f;
  rec_tx_count := tx_count f;
  rec_valid_time :=
    if negb (asserted f) && is_unscoped_window (valid_from f) (valid_to f)
    then AllValidTime
    else Window (valid_from f) (valid_to f);
  rec_asserted := asserted f;
|}.

(** [i64::try_from(tx_id).unwrap_or(i64::MAX)]. *)
Definition tx_id_as_time (tx_id : TxId) : Z := default i64_MAX (i64_try_from tx_id).

Definition fact_new (e : EntityId) (a : Attribute) (v : Value) (tx : TxId) : Fact :=
  mkFact e a v tx 0 (tx_id_as_time tx) VALID_TIME_FOREVER true.
Definition fact_with_valid_time (e : EntityId) (a : Attribute) (v : Value) (tx : TxId)
    (count vf vt : Z) : Fact :=
  mkFact e a v tx count vf vt true.
Definition fact_retract (e : EntityId) (a : Attribute) (v : Value) (tx : TxId) : Fact :=
  mkFact e a v tx 0 RETRACT_ALL_VALID_FROM VALID_TIME_FOREVER false.
Definition fact_retract_with_valid_time (e : EntityId) (a : Attribute) (v : Value) (tx : TxId)
    (count vf vt : Z) : Fact :=
  mkFact e a v tx count vf vt false.
Definition is_asserted (f : Fact) : bool := asserted f.

Record TransactOptions : Type := {
  opt_valid_from : option Z;
  opt_valid_to : option Z;
}.
Definition default_opts : TransactOptions := {| opt_valid_from := None; opt_valid_to := None |}.

(** * The order of values *)

(** The order of [value_cmp] as the lexicographic order of a key: the variant,
    then "is NaN", then the number or the bytes. *)
Definition value_rank (v : Value) : Z * (bool * (Z * bytes)) :=
  (value_discriminant v,
   match v with
   | VString s | VKeyword s => (false, (0, as_bytes s))
   | VInteger i => (false, (i, []))
   | VFloat f => if F64.is_nan f then (true, (0, [])) else (false, (F64.key f, []))
   | VBoolean b => (false, (if b then 1 else 0, []))
   | VRef id => (false, (id, []))
   | VNull => (false, (0, []))
   end).

Lemma cmp_pair_eq {A B} `{PreOrdLaws A} `{Ord B} (a : A) (b b' : B) :
  cmp (a, b) (a, b') = cmp b b'.
Proof. unfold cmp at 1, pair_ord; cbn. by rewrite cmp_refl. Qed.

Lemma cmp_pair_l {A B} `{Ord A} `{PreOrdLaws B} (a a' : A) (b : B) :
  cmp (a, b) (a', b) = cmp a a'.
Proof. unfold cmp at 1, pair_ord; cbn. rewrite cmp_refl. by destruct (cmp a a'). Qed.

Lemma value_cmp_rank a b : value_cmp a b = cmp (value_rank a) (value_rank b).
Proof.
  destruct a as [s|i|f|x|x|s|], b as [t|j|g|y|y|t|]; try reflexivity;
    unfold value_rank; cbn [value_discriminant]; rewrite cmp_pair_eq;
    try (rewrite cmp_pair_eq, cmp_pair_l; reflexivity).
  cbn [value_cmp]. unfold float_cmp, F64.partial_cmp.
  destruct (F64.is_nan f), (F64.is_nan g); cbn [orb andb default]; try reflexivity.
  rewrite cmp_pair_eq, cmp_pair_l; reflexivity.
Qed.

Lemma value_pre_ord_laws : PreOrdLaws Value.
Proof.
  pose proof (cmp_on_pre value_rank) as L.
  split; unfold cmp, Value_ord; intros *; rewrite !value_cmp_rank.
  - apply (cmp_refl (PreOrdLaws := L)).
  - apply (cmp_opp (PreOrdLaws := L)).
  - apply (cmp_trans (PreOrdLaws := L)).
Qed.

(** Two values that are the same number under different bit patterns. *)
Definition opposite_zeros (a b : Value) : Prop :=
  (a = VFloat 0 ∧ b = VFloat F64.NEG_ZERO) ∨ (a = VFloat F64.NEG_ZERO ∧ b = VFloat 0).
Definition both_nan (a b : Value) : Prop :=
  ∃ f g, a = VFloat f ∧ b = VFloat g ∧ F64.is_nan f = true ∧ F64.is_nan g = true.
Definition nan_value (a : Value) : Prop := ∃ f, a = VFloat f ∧ F64.is_nan f = true.

Lemma key_cmp_eq f g :
  u64_ok f → u64_ok g → (F64.key f ?= F64.key g) = Eq →
  f = g ∨ opposite_zeros (VFloat f) (VFloat g).
Proof.
  intros Hf Hg E%Z.compare_eq_iff.
  destruct (F64.key_inj f g Hf Hg E) as [->|[Zf Zg]]; [by left|].
  apply F64.key_zero in Zf, Zg; [|done..]. unfold opposite_zeros.
  destruct Zf as [->| ->], Zg as [->| ->]; auto.
Qed.

Lemma value_cmp_Eq a b :
  value_ok a → value_ok b →
  value_cmp a b = Eq ↔ a = b ∨ both_nan a b ∨ opposite_zeros a b.
Proof.
  intros Ha Hb. split.
  - destruct a as [s|i|f|x|x|s|], b as [t|j|g|y|y|t|]; cbn in *; try discriminate;
      try (intros ->%cmp_eq; by left); [|by left].
    unfold float_cmp, F64.partial_cmp.
    destruct (F64.is_nan f) eqn:Nf, (F64.is_nan g) eqn:Ng; cbn; try discriminate.
    + intros _. right; left. by exists f, g.
    + intros E. destruct (key_cmp_eq f g Ha Hb E) as [->|Z]; auto.
  - intros [->|[(f & g & -> & -> & Nf & Ng)|Z]].
    + apply (cmp_refl (PreOrdLaws := value_pre_ord_laws)).
    + cbn. unfold float_cmp. by rewrite Nf, Ng.
    + destruct Z as [[-> ->]|[-> ->]]; vm_compute; reflexivity.
Qed.

Lemma neg_ne_SIGN f : u64_ok f → F64.is_sign_negative f = true → F64.neg f = F64.magnitude f.
Proof.
  intros Hf S%Z.leb_le. rewrite F64.magnitude_neg by (unfold F64.SIGN in *; ilia).
  unfold F64.neg.
  assert (f = Z.lor (f - F64.SIGN) (Z.shiftl 1 63)) as E.
  { rewrite lor_shiftl_add; unfold F64.SIGN in *; ilia. }
  assert (Z.land (f - F64.SIGN) (Z.shiftl 1 63) = 0) as L.
  { pose proof (Z.add_lor_land (f - F64.SIGN) (Z.shiftl 1 63)) as A.
    rewrite <-E in A. change (Z.shiftl 1 63) with F64.SIGN in *. lia. }
  rewrite E at 1. rewrite <-Z.lxor_lor by done.
  change (Z.shiftl 1 63) with F64.SIGN.
  by rewrite Z.lxor_assoc, Z.lxor_nilpotent, Z.lxor_0_r.
Qed.

(** [Ord for Value] is a total preorder (reflexive, antisymmetric under
    swapping, transitive for each outcome), and two in-range values compare
    equal exactly when they are the same value, both NaN, or the two zeros. *)
Theorem value_ord_total :
  (∀ a : Value, value_cmp a a = Eq) ∧
  (∀ a b : Value, value_cmp b a = CompOpp (value_cmp a b)) ∧
  (∀ c (a b d : Value), value_cmp a b = c → value_cmp b d = c → value_cmp a d = c) ∧
  (∀ a b, value_ok a → value_ok b →
     value_cmp a b = Eq ↔ a = b ∨ both_nan a b ∨ opposite_zeros a b).
Proof.
  split; [apply (cmp_refl (PreOrdLaws := value_pre_ord_laws))|].
  split; [apply (cmp_opp (PreOrdLaws := value_pre_ord_laws))|].
  split; [apply (cmp_trans (PreOrdLaws := value_pre_ord_laws))|apply value_cmp_Eq].
Qed.

Lemma value_eq_cases a b :
  value_ok a → value_ok b → value_eq a b = true →
  (a = b ∧ ¬ nan_value a) ∨ opposite_zeros a b.
Proof.
  intros Ha Hb E. unfold nan_value.
  destruct a as [s|i|f|x|x|s|], b as [t|j|g|y|y|t|]; cbn in *; try discriminate.
  3:{ unfold F64.eqb, F64.partial_cmp in E.
      destruct (F64.is_nan f) eqn:Nf, (F64.is_nan g) eqn:Ng; try discriminate. cbn in E.
      destruct (F64.key f ?= F64.key g) eqn:C; try discriminate.
      destruct (key_cmp_eq f g Ha Hb C) as [->|Z]; [|by right].
      left; split; [done|]. intros (h & [= <-] & Nh). congruence. }
  all: left; split; [|by intros (h & [=] & _)].
  - by apply bool_decide_eq_true in E as ->.
  - by apply Z.eqb_eq in E as ->.
  - by apply eqb_prop in E as ->.
  - by apply Z.eqb_eq in E as ->.
  - by apply bool_decide_eq_true in E as ->.
  - done.
Qed.

(** Where [Eq]/[Hash] keep their contract and where they do not: two
    in-range values that are [==] write the same bytes to the hasher unless
    they are the zeros of opposite sign, which are [==] but hash differently;
    and [==] is reflexive except on NaN, although [Eq] is implemented. *)
Theorem value_hash_agrees_with_eq a b :
  value_ok a → value_ok b →
  (value_eq a b = true → (value_hash a = value_hash b ↔ ¬ opposite_zeros a b)) ∧
  (value_eq a a = true ↔ ¬ nan_value a).
Proof.
  intros Ha Hb. split.
  - intros E. destruct (value_eq_cases a b Ha Hb E) as [[-> _]|Z].
    + split; [|done]. intros _ [[-> [=]]|[-> [=]]].
    + split; [|done]. intros H. exfalso.
      destruct Z as [[-> ->]|[-> ->]]; vm_compute in H; discriminate.
  - split.
    + intros E. destruct (value_eq_cases a a Ha Ha E) as [[_ N]|[[-> [=]]|[-> [=]]]]; done.
    + destruct a as [s|i|f|x|x|s|]; cbn; intros N; try done.
      * by apply bool_decide_eq_true.
      * apply Z.eqb_refl.
      * unfold F64.eqb, F64.partial_cmp. destruct (F64.is_nan f) eqn:E.
        { destruct N. by exists f. }
        cbn. by rewrite Z.compare_refl.
      * apply eqb_reflx.
      * apply Z.eqb_refl.
      * by apply bool_decide_eq_true.
Qed.

Lemma value_hash_agrees_with_eq_witness :
  (value_eq (VFloat 0) (VFloat F64.NEG_ZERO) = true →
     value_hash (VFloat 0) = value_hash (VFloat F64.NEG_ZERO) ↔
     ¬ opposite_zeros (VFloat 0) (VFloat F64.NEG_ZERO)) ∧
  (value_eq (VFloat 0) (VFloat 0) = true ↔ ¬ nan_value (VFloat 0)).
Proof. apply (value_hash_agrees_with_eq (VFloat 0) (VFloat F64.NEG_ZERO)); done. Defined.

(** The public fact record loses nothing: two facts with the same
    [FactRecord] are the same fact, and the record says [AllValidTime]
    exactly for the unscoped retraction. *)
Theorem fact_record_lossless :
  (∀ f g, from_fact f = from_fact g → f = g) ∧
  (∀ f, rec_valid_time (from_fact f) = AllValidTime ↔
     asserted f = false ∧ valid_from f = RETRACT_ALL_VALID_FROM ∧
     valid_to f = VALID_TIME_FOREVER).
Proof.
  assert (∀ f, negb (asserted f) && is_unscoped_window (valid_from f) (valid_to f) = true ↔
     asserted f = false ∧ valid_from f = RETRACT_ALL_VALID_FROM ∧
     valid_to f = VALID_TIME_FOREVER) as U.
  { intros f. unfold is_unscoped_window. rewrite !andb_true_iff, negb_true_iff, !Z.eqb_eq. done. }
  split.
  - intros [e a v t c vf vt s] [e' a' v' t' c' vf' vt' s'].
    pose proof (U (mkFact e a v t c vf vt s)) as U1.
    pose proof (U (mkFact e' a' v' t' c' vf' vt' s')) as U2.
    unfold from_fact; cbn in *. intros [= -> -> -> -> -> V ->].
    destruct (negb s' && is_unscoped_window vf vt), (negb s' && is_unscoped_window vf' vt');
      try discriminate.
    + destruct (proj1 U1 eq_refl) as (_ & -> & ->), (proj1 U2 eq_refl) as (_ & -> & ->). done.
    + by injection V as -> ->.
  - intros f. rewrite <-U. unfold from_fact; cbn.
    destruct (negb (asserted f) && is_unscoped_window (valid_from f) (valid_to f)); done.
Qed.
