(* ===== verification/ValueCodec.v ===== *)
(** The canonical value encoding of src/src/storage/index.rs ([encode_value]),
    the two decoders of it ([decode_index_value] of src/src/graph/storage.rs and
    [decode_value], [decode_integer], [validate_encoded_value] of
    src/src/graph/current_projection.rs) and the value identity the retraction
    logic uses ([CanonicalValueRef] of src/src/graph/storage.rs).

    The theorems say in which sense the encoding preserves the order of values
    and their identity, that the decoders invert it, and exactly where NaN
    breaks each of these. *)
From S2P Require Import Prelude Types.

(** [!x] on [u64]. *)
Definition not_u64 (z : Z) : Z := Z.lnot z mod 2 ^ 64.

(** The order-preserving image of a float's bits, before [to_be_bytes]. *)
Definition float_bits (f : Z) : Z :=
  if F64.is_nan f then 0x7FF8000000000000
  else if Z.shiftr f 63 =? 0 then Z.lxor f 0x8000000000000000
  else not_u64 f.

Definition encode_value (v : Value) : bytes :=
  match v with
  | VNull => [z2b 0x00]
  | VBoolean b => [z2b 0x01; z2b (if b then 1 else 0)]
  | VInteger n =>
      z2b 0x02 :: to_be_bytes 8 (Z.lxor (cast_unsigned n) 0x8000000000000000)
  | VFloat f => z2b 0x03 :: to_be_bytes 8 (float_bits f)
  | VString s => z2b 0x04 :: as_bytes s
  | VKeyword k => z2b 0x05 :: as_bytes k
  | VRef id => z2b 0x06 :: to_be_bytes 16 id
  end.

(** [decode_index_value]: floats are refused, they need the fact itself. *)
Definition decode_index_value (encoded : bytes) : result Value :=
  match encoded with
  | [] => Err "empty encoded index value"
  | tag :: payload =>
      let t := b2z tag in
      if (t =? 0x00) && (length payload =? 0)%nat then Ok VNull
      else if (t =? 0x01) && (length payload =? 1)%nat then
        Ok (VBoolean (bool_decide (head payload = Some (z2b 1))))
      else if (t =? 0x02) && (length payload =? 8)%nat then
        Ok (VInteger (cast_signed (Z.lxor (from_be_bytes payload) 0x8000000000000000)))
      else if t =? 0x04 then s ← from_utf8 payload; Ok (VString s)
      else if t =? 0x05 then s ← from_utf8 payload; Ok (VKeyword s)
      else if (t =? 0x06) && (length payload =? 16)%nat then Ok (VRef (from_be_bytes payload))
      else if t =? 0x03 then Err "float index values require exact fact resolution"
      else Err "malformed encoded index value tag"
  end.

Definition decode_integer (encoded : bytes) : result Z :=
  match encoded with
  | [] => Err "empty current projection value"
  | tag :: payload =>
      if negb (b2z tag =? 0x02) || negb (length payload =? 8)%nat
      then Err "current projection integer aggregate encountered a non-integer value"
      else Ok (cast_signed (Z.lxor (from_be_bytes payload) 0x8000000000000000))
  end.

Definition float_of_ordered (ordered : Z) : Z :=
  if Z.shiftr ordered 63 =? 0 then not_u64 ordered else Z.lxor ordered 0x8000000000000000.

Definition decode_value (encoded : bytes) : result Value :=
  match encoded with
  | [] => Err "empty current projection value"
  | tag :: payload =>
      let t := b2z tag in
      if (t =? 0x00) && (length payload =? 0)%nat then Ok VNull
      else if (t =? 0x01) && bool_decide (payload = [z2b 0]) then Ok (VBoolean false)
      else if (t =? 0x01) && bool_decide (payload = [z2b 1]) then Ok (VBoolean true)
      else if (t =? 0x02) && (length payload =? 8)%nat then
        i ← decode_integer encoded; Ok (VInteger i)
      else if (t =? 0x03) && (length payload =? 8)%nat then
        Ok (VFloat (float_of_ordered (from_be_bytes payload)))
      else if t =? 0x04 then s ← from_utf8 payload; Ok (VString s)
      else if t =? 0x05 then s ← from_utf8 payload; Ok (VKeyword s)
      else if (t =? 0x06) && (length payload =? 16)%nat then Ok (VRef (from_be_bytes payload))
      else Err "malformed current projection value tag"
  end.

Definition validate_encoded_value (encoded : bytes) : result unit :=
  match encoded with
  | [] => Err "empty current projection value"
  | tag :: payload =>
      let t := b2z tag in
      if (t =? 0x00) && (length payload =? 0)%nat then Ok ()
      else if (t =? 0x01) && (bool_decide (payload = [z2b 0]) || bool_decide (payload = [z2b 1]))
      then Ok ()
      else if ((t =? 0x02) || (t =? 0x03)) && (length payload =? 8)%nat then Ok ()
      else if (t =? 0x04) || (t =? 0x05) then _ ← from_utf8 payload; Ok ()
      else if (t =? 0x06) && (length payload =? 16)%nat then Ok ()
      else Err "malformed current projection value tag"
  end.

(** * The value identity of retractions *)

Definition canonical_float_bits (f : Z) : Z :=
  if F64.is_nan f then 0x7FF8000000000000 else f.

(** [PartialEq for CanonicalValueRef]. *)
Definition canonical_eq (a b : Value) : bool :=
  match a, b with
  | VFloat f, VFloat g => canonical_float_bits f =? canonical_float_bits g
  | _, _ => value_eq a b
  end.

(** One representative per identity class: NaN payloads collapsed. *)
Definition canonical (v : Value) : Value :=
  match v with VFloat f => VFloat (canonical_float_bits f) | _ => v end.

Lemma canonical_eq_iff a b : canonical_eq a b = true ↔ canonical a = canonical b.
Proof.
  destruct a as [s|i|f|x|x|s|], b as [t|j|g|y|y|t|]; cbn; try (split; discriminate);
    rewrite ?bool_decide_eq_true, ?Z.eqb_eq, ?eqb_true_iff; split; congruence.
Qed.

(** * Bit arithmetic of the encoding *)

Lemma not_u64_eq z : u64_ok z → not_u64 z = u64_MAX - z.
Proof.
  intros H. unfold not_u64, Z.lnot. unfold_int.
  rewrite <-(Z.mod_add _ 1) by lia. rewrite Z.mod_small; lia.
Qed.

(** Flipping bit 63 moves a 64-bit number by half the range. *)
Lemma lxor_SIGN z : u64_ok z →
  Z.lxor z 0x8000000000000000 = if z <? 2 ^ 63 then z + 2 ^ 63 else z - 2 ^ 63.
Proof.
  intros H. destruct (Z.ltb_spec z (2 ^ 63)).
  - assert (Z.land z (Z.shiftl 1 63) = 0) as L.
    { pose proof (Z.add_lor_land z (Z.shiftl 1 63)) as A.
      rewrite (lor_shiftl_add z 1 63) in A by ilia.
      change (Z.shiftl 1 63) with (2 ^ 63) in *. lia. }
    change 0x8000000000000000 with (Z.shiftl 1 63).
    rewrite Z.lxor_lor by done. rewrite lor_shiftl_add; ilia.
  - change 0x8000000000000000 with F64.SIGN. change (Z.lxor z F64.SIGN) with (F64.neg z).
    rewrite neg_ne_SIGN; [|done|apply Z.leb_le; unfold F64.SIGN; lia].
    apply F64.magnitude_neg. unfold F64.SIGN. ilia.
Qed.

Lemma shiftr63_zero z : u64_ok z → (Z.shiftr z 63 =? 0) = (z <? 2 ^ 63).
Proof.
  intros H. rewrite Z.shiftr_div_pow2 by lia. unfold_int.
  destruct (Z.ltb_spec z (2 ^ 63)).
  - rewrite Z.div_small by lia. done.
  - apply Z.eqb_neq. pose proof (Z.div_le_lower_bound z (2 ^ 63) 1). lia.
Qed.

Lemma lxor_SIGN_ok z : u64_ok z → u64_ok (Z.lxor z 0x8000000000000000).
Proof. intros H. rewrite lxor_SIGN by done. destruct (Z.ltb_spec z (2 ^ 63)); ilia. Qed.
Lemma lxor_SIGN_invol z : Z.lxor (Z.lxor z 0x8000000000000000) 0x8000000000000000 = z.
Proof. by rewrite Z.lxor_assoc, Z.lxor_nilpotent, Z.lxor_0_r. Qed.

(** The encoded form of an integer is its offset from [i64::MIN]. *)
Lemma int_bits n : i64_ok n → Z.lxor (cast_unsigned n) 0x8000000000000000 = n + 2 ^ 63.
Proof.
  intros H. rewrite lxor_SIGN by apply cast_unsigned_ok. unfold cast_unsigned.
  destruct (decide (0 ≤ n)).
  - rewrite Z.mod_small by ilia. destruct (Z.ltb_spec n (2 ^ 63)); ilia.
  - rewrite <-(Z.mod_add _ 1) by lia. rewrite Z.mod_small by ilia.
    destruct (Z.ltb_spec (n + 1 * 2 ^ 64) (2 ^ 63)); ilia.
Qed.

(** The encoded form of a non-NaN float grows with the float, negative zero
    just below positive zero. *)
Lemma float_bits_eq f : u64_ok f → F64.is_nan f = false →
  float_bits f = if f <? 2 ^ 63 then f + 2 ^ 63 else u64_MAX - f.
Proof.
  intros H N. unfold float_bits. rewrite N, shiftr63_zero by done.
  destruct (f <? 2 ^ 63) eqn:E.
  - by rewrite lxor_SIGN, E.
  - by rewrite not_u64_eq.
Qed.
Lemma float_bits_ok f : u64_ok f → u64_ok (float_bits f).
Proof.
  intros H. destruct (F64.is_nan f) eqn:N.
  - unfold float_bits. rewrite N. ilia.
  - rewrite float_bits_eq by done. destruct (Z.ltb_spec f (2 ^ 63)); ilia.
Qed.
Lemma float_of_ordered_bits f :
  u64_ok f → F64.is_nan f = false → float_of_ordered (float_bits f) = f.
Proof.
  intros H N. pose proof (float_bits_ok f H) as Hb.
  unfold float_of_ordered. rewrite shiftr63_zero by done. rewrite float_bits_eq in * by done.
  destruct (Z.ltb_spec f (2 ^ 63)).
  - destruct (Z.ltb_spec (f + 2 ^ 63) (2 ^ 63)); [ilia|].
    rewrite lxor_SIGN by done. destruct (Z.ltb_spec (f + 2 ^ 63) (2 ^ 63)); ilia.
  - destruct (Z.ltb_spec (u64_MAX - f) (2 ^ 63)); [|ilia].
    rewrite not_u64_eq by done. lia.
Qed.
Lemma float_of_ordered_ok b : u64_ok b → u64_ok (float_of_ordered b).
Proof.
  intros H. unfold float_of_ordered. rewrite shiftr63_zero by done.
  destruct (Z.ltb_spec b (2 ^ 63)).
  - rewrite not_u64_eq by done. ilia.
  - by apply lxor_SIGN_ok.
Qed.
Lemma float_of_ordered_inv b :
  u64_ok b → F64.is_nan (float_of_ordered b) = false → float_bits (float_of_ordered b) = b.
Proof.
  intros H N. pose proof (float_of_ordered_ok b H) as Ho.
  rewrite float_bits_eq by done. unfold float_of_ordered. rewrite shiftr63_zero by done.
  destruct (Z.ltb_spec b (2 ^ 63)).
  - rewrite not_u64_eq by done. destruct (Z.ltb_spec (u64_MAX - b) (2 ^ 63)); ilia.
  - rewrite lxor_SIGN by done. destruct (Z.ltb_spec b (2 ^ 63)); [ilia|].
    destruct (Z.ltb_spec (b - 2 ^ 63) (2 ^ 63)); ilia.
Qed.

(** * Order *)

(** The first byte of the encoding. *)
Definition value_tag (v : Value) : Z :=
  match v with
  | VNull => 0 | VBoolean _ => 1 | VInteger _ => 2 | VFloat _ => 3
  | VString _ => 4 | VKeyword _ => 5 | VRef _ => 6
  end.

Lemma list_cmp_cons {A} `{PreOrdLaws A} (x : A) (l k : list A) :
  cmp (x :: l) (x :: k) = cmp l k.
Proof. unfold cmp at 1, list_ord; cbn. by rewrite cmp_refl. Qed.

Lemma float_key_eq f : u64_ok f → F64.key f = if f <? 2 ^ 63 then f else 2 ^ 63 - f.
Proof.
  intros H. unfold F64.key, F64.is_sign_negative.
  destruct (Z.ltb_spec f (2 ^ 63)), (Z.leb_spec F64.SIGN f); unfold F64.SIGN in *; try lia.
  - apply F64.magnitude_pos. unfold F64.SIGN. ilia.
  - rewrite F64.magnitude_neg by (unfold F64.SIGN; ilia). unfold F64.SIGN. lia.
Qed.

Lemma float_bits_cmp f g :
  u64_ok f → u64_ok g → F64.is_nan f = false → F64.is_nan g = false →
  ¬ opposite_zeros (VFloat f) (VFloat g) →
  (float_bits f ?= float_bits g) = (F64.key f ?= F64.key g).
Proof.
  intros Hf Hg Nf Ng Z. rewrite !float_bits_eq, !float_key_eq by done.
  assert (¬ (f = 0 ∧ g = 2 ^ 63) ∧ ¬ (f = 2 ^ 63 ∧ g = 0)) as [Z1 Z2].
  { split; intros [-> ->]; apply Z; [left|right]; done. }
  destruct (Z.ltb_spec f (2 ^ 63)), (Z.ltb_spec g (2 ^ 63)); symmetry;
    match goal with |- (?x ?= ?y) = (?a ?= ?b) => destruct (Z.compare_spec a b) end;
    rewrite ?Z.compare_eq_iff, ?Z.compare_lt_iff, ?Z.compare_gt_iff; ilia.
Qed.

Lemma encode_value_cmp_tag a b :
  value_tag a ≠ value_tag b →
  cmp (encode_value a) (encode_value b) = (value_tag a ?= value_tag b).
Proof. destruct a, b; cbn; intros N; try done; reflexivity. Qed.

Lemma be8_cmp x y :
  u64_ok x → u64_ok y → cmp (to_be_bytes 8 x) (to_be_bytes 8 y) = (x ?= y).
Proof. intros Hx Hy. apply to_be_bytes_cmp; [exact Hx|exact Hy]. Qed.

Lemma encode_value_cmp_same a b :
  value_ok a → value_ok b → ¬ nan_value a → ¬ nan_value b →
  value_tag a = value_tag b → ¬ opposite_zeros a b →
  cmp (encode_value a) (encode_value b) = value_cmp a b.
Proof.
  intros Ha Hb Na Nb T Z.
  destruct a as [s|i|f|x|x|s|], b as [t|j|g|y|y|t|]; cbn in T; try discriminate;
    cbn [encode_value value_cmp]; try rewrite list_cmp_cons.
  - reflexivity.
  - cbn in Ha, Hb. rewrite !int_bits, be8_cmp by ilia.
    destruct (Z.compare_spec (i + 2 ^ 63) (j + 2 ^ 63)); symmetry; unfold cmp, Z_ord;
      rewrite ?Z.compare_eq_iff, ?Z.compare_lt_iff, ?Z.compare_gt_iff; lia.
  - assert (F64.is_nan f = false) as Nf by (apply not_true_is_false; intros E; apply Na; by exists f).
    assert (F64.is_nan g = false) as Ng by (apply not_true_is_false; intros E; apply Nb; by exists g).
    rewrite be8_cmp by (by apply float_bits_ok). rewrite float_bits_cmp by done.
    unfold float_cmp, F64.partial_cmp. rewrite Nf, Ng. reflexivity.
  - by destruct x, y.
  - apply to_be_bytes_cmp; [exact Ha|exact Hb].
  - reflexivity.
  - reflexivity.
Qed.

(** C22: [encode_value] preserves the sort order: encodings of different
    variants compare by their tag byte (Null < Boolean < Integer < Float <
    String < Keyword < Ref); encodings of in-range, non-NaN values of one
    variant compare as [Ord for Value] does, except that the encoding also
    separates the two zeros, negative zero first. *)
Theorem encode_value_order :
  (∀ a b, value_tag a ≠ value_tag b →
     cmp (encode_value a) (encode_value b) = (value_tag a ?= value_tag b)) ∧
  (∀ a b, value_ok a → value_ok b → ¬ nan_value a → ¬ nan_value b →
     value_tag a = value_tag b → ¬ opposite_zeros a b →
     cmp (encode_value a) (encode_value b) = value_cmp a b) ∧
  cmp (encode_value (VFloat F64.NEG_ZERO)) (encode_value (VFloat 0)) = Lt.
Proof.
  split; [apply encode_value_cmp_tag|]. split; [apply encode_value_cmp_same|].
  vm_compute. reflexivity.
Qed.

(** * Identity *)

(** The one negative subnormal whose encoding is also the encoding of NaN. *)
Definition NAN_TWIN : Z := 0x8007FFFFFFFFFFFF.
Definition nan_collision (a b : Value) : Prop :=
  (nan_value a ∧ b = VFloat NAN_TWIN) ∨ (a = VFloat NAN_TWIN ∧ nan_value b).

Lemma float_bits_NAN f : u64_ok f → F64.is_nan f = false →
  float_bits f = 0x7FF8000000000000 ↔ f = NAN_TWIN.
Proof.
  intros H N. rewrite float_bits_eq by done. unfold NAN_TWIN.
  destruct (Z.ltb_spec f (2 ^ 63)); unfold_int; lia.
Qed.

Lemma float_bits_inj f g :
  u64_ok f → u64_ok g → F64.is_nan f = false → F64.is_nan g = false →
  float_bits f = float_bits g → f = g.
Proof.
  intros Hf Hg Nf Ng E. rewrite <-(float_of_ordered_bits f), E by done.
  by apply float_of_ordered_bits.
Qed.

Lemma nan_value_float f : nan_value (VFloat f) ↔ F64.is_nan f = true.
Proof. split; [by intros (g & [= ->] & N)|intros N; by exists f]. Qed.

Lemma float_identity f g : u64_ok f → u64_ok g →
  float_bits f = float_bits g ↔
  canonical_float_bits f = canonical_float_bits g ∨ nan_collision (VFloat f) (VFloat g).
Proof.
  intros Hf Hg. unfold nan_collision, canonical_float_bits.
  rewrite !nan_value_float.
  destruct (F64.is_nan f) eqn:Nf, (F64.is_nan g) eqn:Ng.
  - unfold float_bits. rewrite Nf, Ng. tauto.
  - unfold float_bits at 1. rewrite Nf. split.
    + intros E. right; left. split; [done|]. f_equal. by apply float_bits_NAN.
    + intros [<-|[[_ [= ->]]|[_ [=]]]]; [by vm_compute in Ng|by vm_compute].
  - unfold float_bits at 2. rewrite Ng. split.
    + intros E. right; right. split; [|done]. f_equal. by apply float_bits_NAN.
    + intros [->|[[[=] _]|[[= ->] _]]]; [by vm_compute in Nf|by vm_compute].
  - split.
    + intros E. left. by apply float_bits_inj.
    + intros [->|[[[=] _]|[_ [=]]]]. done.
Qed.

Lemma encode_float_eq f g : u64_ok f → u64_ok g →
  encode_value (VFloat f) = encode_value (VFloat g) ↔ float_bits f = float_bits g.
Proof.
  intros Hf Hg. cbn [encode_value]. split; [|by intros ->].
  intros E%(f_equal tail). cbn [tail] in E.
  apply (to_be_bytes_inj 8) in E; [done|by apply float_bits_ok..].
Qed.

Lemma encode_value_inj_exact a b :
  value_ok a → value_ok b → as_float a = None → encode_value a = encode_value b → a = b.
Proof.
  intros Ha Hb NF E. destruct (decide (value_tag a = value_tag b)) as [T|T].
  - destruct a as [s|i|f|x|x|s|], b as [t|j|g|y|y|t|]; cbn in T; try discriminate;
      apply (f_equal tail) in E; cbn [encode_value tail] in E.
    + by apply (inj as_bytes) in E as ->.
    + cbn in Ha, Hb. rewrite !int_bits in E by done.
      apply (to_be_bytes_inj 8) in E; [f_equal; lia|ilia..].
    + by destruct x, y.
    + apply (to_be_bytes_inj 16) in E; [by subst|done..].
    + by apply (inj as_bytes) in E as ->.
    + done.
  - pose proof (encode_value_cmp_tag a b T) as C. rewrite E, cmp_refl in C.
    symmetry in C. by apply Z.compare_eq_iff in C.
Qed.

Lemma canonical_inj_exact a b : as_float a = None → canonical a = canonical b → a = b.
Proof. destruct a, b; cbn; try done; congruence. Qed.

Lemma nan_collision_float a b : nan_collision a b → is_Some (as_float a) ∧ is_Some (as_float b).
Proof. intros [[(f & -> & _) ->]|[-> (f & -> & _)]]; cbn; eauto. Qed.

(** [encode_value] identifies two in-range values exactly when the
    retraction logic's [CanonicalValueRef] does, or when one is NaN and the
    other is the negative subnormal 0x8007FFFFFFFFFFFF: the canonical NaN
    pattern is stored without the sign flip the other floats get, and is the
    complement of that subnormal. *)
Theorem encode_value_identity a b :
  value_ok a → value_ok b →
  encode_value a = encode_value b ↔ canonical_eq a b = true ∨ nan_collision a b.
Proof.
  intros Ha Hb. rewrite canonical_eq_iff. destruct (as_float a) as [f|] eqn:Fa.
  - destruct (as_float b) as [g|] eqn:Fb.
    + destruct a as [| |f'| | | |], b as [| |g'| | | |]; try discriminate.
      injection Fa as ->. injection Fb as ->.
      rewrite encode_float_eq, float_identity by done. cbn.
      split; intros [E|E]; auto; left; congruence.
    + split.
      * intros E. symmetry in E. apply encode_value_inj_exact in E as ->; auto.
      * intros [E|E]; [symmetry in E; by apply canonical_inj_exact in E as ->|].
        apply nan_collision_float in E as [_ [? E]]. congruence.
  - split.
    + intros E. apply encode_value_inj_exact in E as ->; auto.
    + intros [E|E]; [by apply canonical_inj_exact in E as ->|].
      apply nan_collision_float in E as [[? E] _]. congruence.
Qed.

Lemma encode_value_identity_witness :
  encode_value (VFloat F64.NAN) = encode_value (VFloat NAN_TWIN) ↔
  canonical_eq (VFloat F64.NAN) (VFloat NAN_TWIN) = true ∨
  nan_collision (VFloat F64.NAN) (VFloat NAN_TWIN).
Proof. apply (encode_value_identity (VFloat F64.NAN) (VFloat NAN_TWIN)); done. Defined.

(** * Decoding *)

Lemma b2z_tag k : 0 ≤ k < 256 → b2z (z2b k) = k.
Proof. apply b2z_z2b. Qed.

(** [decode_value] inverts [encode_value] on every in-range value but NaN;
    every NaN decodes to the negative subnormal 0x8007FFFFFFFFFFFF. *)
Theorem decode_encode_value v :
  value_ok v →
  decode_value (encode_value v) =
    Ok (if is_nan_value v then VFloat NAN_TWIN else v).
Proof.
  intros H. destruct v as [s|i|f|b|x|s|]; cbn [encode_value decode_value].
  - cbn. by rewrite from_utf8_as_bytes.
  - rewrite length_to_be_bytes. cbn -[cast_signed cast_unsigned to_be_bytes].
    rewrite length_to_be_bytes. cbn -[cast_signed cast_unsigned to_be_bytes].
    rewrite from_to_be_bytes by (apply lxor_SIGN_ok, cast_unsigned_ok).
    by rewrite lxor_SIGN_invol, cast_signed_unsigned.
  - rewrite length_to_be_bytes. cbn -[float_bits to_be_bytes].
    rewrite from_to_be_bytes by (by apply float_bits_ok).
    destruct (F64.is_nan f) eqn:N.
    + unfold float_bits. by rewrite N.
    + by rewrite float_of_ordered_bits.
  - by destruct b.
  - rewrite length_to_be_bytes. cbn -[to_be_bytes]. by rewrite from_to_be_bytes.
  - cbn. by rewrite from_utf8_as_bytes.
  - done.
Qed.

Lemma decode_encode_value_witness :
  decode_value (encode_value (VFloat F64.NAN)) =
    Ok (if is_nan_value (VFloat F64.NAN) then VFloat NAN_TWIN else VFloat F64.NAN).
Proof. apply (decode_encode_value (VFloat F64.NAN)). done. Defined.

(** A tag test that succeeded names the tag byte. *)
Lemma tag_is t k : 0 ≤ k < 256 → (b2z t =? k) = true → t = z2b k.
Proof. intros Hk E%Z.eqb_eq. apply (inj b2z). by rewrite E, b2z_z2b. Qed.

Lemma to_be_8_from bs : length bs = 8%nat → to_be_bytes 8 (from_be_bytes bs) = bs.
Proof. intros <-. apply to_from_be_bytes. Qed.
Lemma to_be_16_from bs : length bs = 16%nat → to_be_bytes 16 (from_be_bytes bs) = bs.
Proof. intros <-. apply to_from_be_bytes. Qed.
Lemma from_be_8_ok bs : length bs = 8%nat → u64_ok (from_be_bytes bs).
Proof. intros E. pose proof (from_be_bytes_range bs) as H. rewrite E in H. exact H. Qed.
Lemma from_be_16_ok bs : length bs = 16%nat → u128_ok (from_be_bytes bs).
Proof. intros E. pose proof (from_be_bytes_range bs) as H. rewrite E in H. exact H. Qed.

Lemma encode_integer_bits z : u64_ok z →
  encode_value (VInteger (cast_signed (Z.lxor z 0x8000000000000000))) = z2b 2 :: to_be_bytes 8 z.
Proof.
  intros H. cbn [encode_value].
  by rewrite cast_unsigned_signed, lxor_SIGN_invol by (by apply lxor_SIGN_ok).
Qed.

(** Peel one branch off the decoders' chain of tag tests. *)
Ltac next_branch H :=
  match type of H with
  | context [if ?c then _ else _] => let E := fresh "B" in destruct c eqn:E; cbn in H
  end.

Lemma decode_value_inv bs v : decode_value bs = Ok v →
  value_ok v ∧ (is_nan_value v = false → encode_value v = bs).
Proof.
  destruct bs as [|tag payload]; [done|]. unfold decode_value; intros H.
  next_branch H.
  { apply andb_prop in B as [T L]. apply (tag_is _ 0) in T as ->; [|done].
    apply Nat.eqb_eq, nil_length_inv in L as ->. by inv_ok. }
  next_branch H.
  { apply andb_prop in B0 as [T L]. apply (tag_is _ 1) in T as ->; [|done].
    apply bool_decide_eq_true in L as ->. by inv_ok. }
  next_branch H.
  { apply andb_prop in B1 as [T L]. apply (tag_is _ 1) in T as ->; [|done].
    apply bool_decide_eq_true in L as ->. by inv_ok. }
  next_branch H.
  { apply andb_prop in B2 as [T L]. rewrite T, L in H. cbn in H.
    apply (tag_is _ 2) in T as ->; [|done]. apply Nat.eqb_eq in L. inv_ok.
    pose proof (from_be_8_ok _ L) as R. split.
    - apply cast_signed_ok, lxor_SIGN_ok, R.
    - intros _. by rewrite encode_integer_bits, to_be_8_from. }
  next_branch H.
  { apply andb_prop in B3 as [T L]. apply (tag_is _ 3) in T as ->; [|done].
    apply Nat.eqb_eq in L. inv_ok. pose proof (from_be_8_ok _ L) as R. split.
    - by apply float_of_ordered_ok.
    - cbn [is_nan_value encode_value]. intros N.
      by rewrite float_of_ordered_inv, to_be_8_from. }
  next_branch H.
  { apply (tag_is _ 4) in B4 as ->; [|done]. inv_ok. apply from_utf8_Ok in H0 as [<- U].
    split; [exact U|done]. }
  next_branch H.
  { apply (tag_is _ 5) in B5 as ->; [|done]. inv_ok. apply from_utf8_Ok in H0 as [<- U].
    split; [exact U|done]. }
  next_branch H; [|done].
  apply andb_prop in B6 as [T L]. apply (tag_is _ 6) in T as ->; [|done].
  apply Nat.eqb_eq in L. inv_ok. split; [by apply from_be_16_ok|].
  intros _. cbn [encode_value]. by rewrite to_be_16_from.
Qed.

(** [decode_value] is strict: it accepts only canonical encodings.  What
    it returns is in range and, NaN bit patterns aside, re-encodes to the very
    bytes it was read from; and [validate_encoded_value] accepts exactly the
    byte strings [decode_value] decodes. *)
Theorem decode_value_canonical bs :
  (∀ v, decode_value bs = Ok v → value_ok v ∧ (is_nan_value v = false → encode_value v = bs)) ∧
  (is_ok (validate_encoded_value bs) = is_ok (decode_value bs)).
Proof.
  split; [apply decode_value_inv|].
  destruct bs as [|tag payload]; [done|]. unfold validate_encoded_value, decode_value, decode_integer.
  destruct (b2z tag =? 0) eqn:T0; [apply Z.eqb_eq in T0 as E; rewrite E; cbn; by destruct (length payload =? 0)%nat|].
  destruct (b2z tag =? 1) eqn:T1.
  { apply Z.eqb_eq in T1 as E; rewrite E; cbn.
    by repeat case_bool_decide. }
  destruct (b2z tag =? 2) eqn:T2.
  { apply Z.eqb_eq in T2 as E; rewrite E; cbn. by destruct (length payload =? 8)%nat. }
  destruct (b2z tag =? 3) eqn:T3.
  { apply Z.eqb_eq in T3 as E; rewrite E; cbn. by destruct (length payload =? 8)%nat. }
  cbn. destruct (b2z tag =? 4); cbn; [by destruct (from_utf8 payload)|].
  destruct (b2z tag =? 5); cbn; [by destruct (from_utf8 payload)|].
  by destruct (_ && _).
Qed.

(** [decode_index_value] inverts [encode_value] on every in-range value
    that is not a float, and refuses every float. *)
Theorem decode_index_encode_value v :
  value_ok v →
  decode_index_value (encode_value v) =
    match v with
    | VFloat _ => Err "float index values require exact fact resolution"
    | _ => Ok v
    end.
Proof.
  intros H. destruct v as [s|i|f|b|x|s|]; cbn [encode_value decode_index_value].
  - cbn. by rewrite from_utf8_as_bytes.
  - rewrite length_to_be_bytes. cbn -[cast_signed cast_unsigned to_be_bytes].
    rewrite from_to_be_bytes by (apply lxor_SIGN_ok, cast_unsigned_ok).
    by rewrite lxor_SIGN_invol, cast_signed_unsigned.
  - reflexivity.
  - by destruct b.
  - rewrite length_to_be_bytes. cbn -[to_be_bytes]. by rewrite from_to_be_bytes.
  - cbn. by rewrite from_utf8_as_bytes.
  - done.
Qed.

Lemma decode_index_encode_value_witness :
  decode_index_value (encode_value (VInteger (-7))) = Ok (VInteger (-7)).
Proof. apply (decode_index_encode_value (VInteger (-7))). done. Defined.
