(* ===== verification/NetView.v ===== *)
(** The bi-temporal view of a fact log: [filter_facts_as_of],
    [net_asserted_facts] and [coalesce_point_in_time_facts] of
    src/src/graph/storage.rs, and the per-query composition of them in
    [filter_facts_for_query] of src/src/query/datalog/executor.rs.

    The three HashMap passes are modelled with finite maps keyed by the
    canonical identity of a value; the reference definitions ([survives],
    [newest_of_eav]) state the retraction semantics row by row, and the
    theorems say that the passes compute exactly the reference. *)
From S2P Require Import Prelude Types ValueCodec.

(** * Selectors (src/src/query/datalog/types.rs) *)

Inductive AsOf : Type :=
| AsOfCounter (n : Z)
| AsOfTimestamp (t : Z)
| AsOfSlot (name : string).

Inductive ValidAt : Type :=
| ValidAtTimestamp (t : Z)
| AnyValidTime
| ValidAtSlot (name : string).

(** [entry_visible_at_tx]; [filter_facts_as_of] applies the same test. *)
Definition entry_visible_at_tx (tx_count tx_id : Z) (as_of : option AsOf) : bool :=
  match as_of with
  | None => true
  | Some (AsOfCounter counter) => tx_count <=? counter
  | Some (AsOfTimestamp t) => tx_id <=? default 0 (u64_try_from t)
  | Some (AsOfSlot _) => false
  end.

Definition fact_visible_as_of (as_of : AsOf) (f : Fact) : bool :=
  match as_of with
  | AsOfCounter n => tx_count f <=? n
  | AsOfTimestamp t => tx_id f <=? default 0 (u64_try_from t)
  | AsOfSlot _ => false
  end.
Definition filter_facts_as_of (facts : list Fact) (as_of : AsOf) : list Fact :=
  List.filter (fact_visible_as_of as_of) facts.

(** * Keys *)

#[export] Instance Value_countable : Countable Value.
Proof.
  refine (inj_countable'
    (λ v, match v with
          | VString s => inl (inl (inl s)) | VKeyword s => inl (inl (inr s))
          | VInteger i => inl (inr (inl i)) | VFloat f => inl (inr (inr f))
          | VRef r => inr (inl r) | VBoolean b => inr (inr (Some b)) | VNull => inr (inr None)
          end)
    (λ x : (((string + string) + (Z + Z)) + (Z + option bool))%type, match x with
          | inl (inl (inl s)) => VString s | inl (inl (inr s)) => VKeyword s
          | inl (inr (inl i)) => VInteger i | inl (inr (inr f)) => VFloat f
          | inr (inl r) => VRef r | inr (inr (Some b)) => VBoolean b | inr (inr None) => VNull
          end) _).
  by intros [].
Defined.

Abbreviation EavKey := (EntityId * string * Value)%type (only parsing).
Abbreviation WindowKey := (EntityId * string * Value * (Z * Z))%type (only parsing).

Definition eav_key (f : Fact) : EavKey := (entity f, attribute f, canonical (value f)).
Definition window_key (f : Fact) : WindowKey := (eav_key f, (valid_from f, valid_to f)).

(** * The passes *)

(** One step of the "highest [tx_count] wins, first one on a tie" map. *)
Definition replace_winner {K} `{Countable K} (facts : list Fact) (m : gmap K nat)
    (key : K) (index : nat) (fact : Fact) : gmap K nat :=
  let replace :=
    match m !! key ≫= λ existing, facts !! existing with
    | None => true
    | Some existing => tx_count existing <? tx_count fact
    end in
  if replace then <[key := index]> m else m.

(** [entry(k).and_modify(max).or_insert(tx)]. *)
Definition raise_max {K} `{Countable K} (m : gmap K Z) (key : K) (tx : Z) : gmap K Z :=
  <[key := match m !! key with Some old => Z.max old tx | None => tx end]> m.

Record NetState : Type := {
  max_unscoped_retract_tx : gmap EavKey Z;
  max_scoped_retract_tx : gmap WindowKey Z;
  by_window : gmap WindowKey nat;
}.
Definition net_init : NetState :=
  {| max_unscoped_retract_tx := ∅; max_scoped_retract_tx := ∅; by_window := ∅ |}.

Definition net_step (facts : list Fact) (s : NetState) (row : nat * Fact) : NetState :=
  let '(index, fact) := row in
  if asserted fact then
    {| max_unscoped_retract_tx := max_unscoped_retract_tx s;
       max_scoped_retract_tx := max_scoped_retract_tx s;
       by_window := replace_winner facts (by_window s) (window_key fact) index fact |}
  else if is_unscoped_window (valid_from fact) (valid_to fact) then
    {| max_unscoped_retract_tx :=
         raise_max (max_unscoped_retract_tx s) (eav_key fact) (tx_count fact);
       max_scoped_retract_tx := max_scoped_retract_tx s;
       by_window := by_window s |}
  else
    {| max_unscoped_retract_tx := max_unscoped_retract_tx s;
       max_scoped_retract_tx :=
         raise_max (max_scoped_retract_tx s) (window_key fact) (tx_count fact);
       by_window := by_window s |}.

Definition enumerate {A} (l : list A) : list (nat * A) := imap pair l.

(** Set the mark of each winning index, then keep the marked rows. *)
Definition mark (decision : nat → option bool) (keep : list bool) (index : nat) : list bool :=
  match decision index with Some b => <[index := b]> keep | None => keep end.
Definition keep_rows (facts : list Fact) (keep : list bool) : list Fact :=
  omap (λ '(fact, k), if k : bool then Some fact else None) (zip facts keep).

Definition net_decision (facts : list Fact) (s : NetState) (index : nat) : option bool :=
  fact ← facts !! index;
  let unscoped := default 0 (max_unscoped_retract_tx s !! eav_key fact) in
  let scoped := default 0 (max_scoped_retract_tx s !! window_key fact) in
  Some (Z.max unscoped scoped <? tx_count fact).

Definition net_asserted_facts (facts : list Fact) : list Fact :=
  let s := foldl (net_step facts) net_init (enumerate facts) in
  let keep := foldl (mark (net_decision facts s)) (replicate (length facts) false)
                (map_to_list (by_window s)).*2 in
  keep_rows facts keep.

Definition coalesce_point_in_time_facts (facts : list Fact) : list Fact :=
  let by_eav : gmap EavKey nat :=
    foldl (λ m '(index, fact), replace_winner facts m (eav_key fact) index fact)
      ∅ (enumerate facts) in
  let keep := foldl (mark (λ _, Some true)) (replicate (length facts) false)
                (map_to_list by_eav).*2 in
  keep_rows facts keep.

(** [filter_facts_for_query] after the source facts are read: [now] is
    [read_now()], the source read and its bound are inputs. *)
Definition valid_at_test (t : Z) (f : Fact) : bool := (valid_from f <=? t) && (t <? valid_to f).

Definition filter_facts_for_query (now : Z) (as_of : option AsOf) (valid_at : option ValidAt)
    (source : list Fact) : result (list Fact) :=
  let tx_filtered :=
    match as_of with Some a => filter_facts_as_of source a | None => source end in
  let net := net_asserted_facts tx_filtered in
  match valid_at with
  | Some (ValidAtTimestamp t) =>
      Ok (coalesce_point_in_time_facts (List.filter (valid_at_test t) net))
  | Some AnyValidTime => Ok net
  | Some (ValidAtSlot _) => Err "internal: unsubstituted :valid-at bind slot reached the executor"
  | None => Ok (coalesce_point_in_time_facts (List.filter (valid_at_test now) net))
  end.

(** * Reference semantics *)

(** Retraction [g] cancels assertions like [f]: an unscoped one by the triple,
    a scoped one by the triple and the exact window. *)
Definition cancels (g f : Fact) : bool :=
  negb (asserted g) &&
  (if is_unscoped_window (valid_from g) (valid_to g)
   then bool_decide (eav_key g = eav_key f)
   else bool_decide (window_key g = window_key f)).

(** Row [i] beats every row that [same] puts in its class: a higher counter,
    or the same counter and not later in the log. *)
Definition wins (same : Fact → bool) (facts : list Fact) (i : nat) (f : Fact) : bool :=
  forallb (λ '(j, g), negb (same g) || (tx_count g <? tx_count f)
                      || ((tx_count g =? tx_count f) && (i <=? j)%nat)) (enumerate facts).

Definition same_window (f g : Fact) : bool := asserted g && bool_decide (window_key g = window_key f).
Definition same_eav (f g : Fact) : bool := bool_decide (eav_key g = eav_key f).

(** Row [i] is visible: an assertion with a positive counter above every
    retraction that cancels it, and the winner of its window. *)
Definition survives (facts : list Fact) (i : nat) (f : Fact) : bool :=
  asserted f && (0 <? tx_count f)
  && forallb (λ g, negb (cancels g f) || (tx_count g <? tx_count f)) facts
  && wins (same_window f) facts i f.

Definition newest_of_eav (facts : list Fact) (i : nat) (f : Fact) : bool :=
  wins (same_eav f) facts i f.

(** The rows of a log that pass a positional test, in log order. *)
Definition select (test : nat → Fact → bool) (facts : list Fact) : list Fact :=
  (List.filter (λ '(i, f), test i f) (enumerate facts)).*2.

(** * Lemmas on enumerated logs *)

Lemma enumerate_snoc {A} (l : list A) x : enumerate (l ++ [x]) = enumerate l ++ [(length l, x)].
Proof. unfold enumerate. rewrite imap_app. cbn. by rewrite Nat.add_0_r. Qed.

Lemma elem_of_enumerate {A} (l : list A) i x : (i, x) ∈ enumerate l ↔ l !! i = Some x.
Proof.
  unfold enumerate. rewrite list_elem_of_lookup. split.
  - intros [j E]. rewrite list_lookup_imap in E. destruct (l !! j) eqn:L; cbn in E; [|done].
    by injection E as -> ->.
  - intros E. exists i. by rewrite list_lookup_imap, E.
Qed.

Lemma forallb_elem {A} (P : A → bool) l : forallb P l = true ↔ ∀ x, x ∈ l → P x = true.
Proof. rewrite forallb_forall. by setoid_rewrite list_elem_of_In. Qed.

(** The winner of a class, as a fold and as a property. *)
Definition best_step (P : Fact → bool) (b : option (nat * Fact)) (row : nat * Fact) :=
  if P row.2 then
    match b with
    | Some (j, g) => if tx_count g <? tx_count row.2 then Some row else b
    | None => Some row
    end
  else b.
Definition best (P : Fact → bool) (l : list Fact) : option (nat * Fact) :=
  foldl (best_step P) None (enumerate l).

Lemma best_snoc P l x : best P (l ++ [x]) = best_step P (best P l) (length l, x).
Proof. unfold best. by rewrite enumerate_snoc, foldl_app. Qed.

Definition is_winner (P : Fact → bool) (l : list Fact) (i : nat) (f : Fact) : Prop :=
  l !! i = Some f ∧ P f = true ∧
  ∀ j g, l !! j = Some g → P g = true →
    tx_count g < tx_count f ∨ (tx_count g = tx_count f ∧ (i ≤ j)%nat).

Lemma is_winner_unique P l i f j g : is_winner P l i f → is_winner P l j g → i = j ∧ f = g.
Proof.
  intros (Li & Pi & Wi) (Lj & Pj & Wj).
  destruct (Wi _ _ Lj Pj), (Wj _ _ Li Pi); try lia.
  assert (i = j) as -> by lia. split; congruence.
Qed.

Lemma lookup_snoc_cases {A} (l : list A) x j y :
  (l ++ [x]) !! j = Some y → l !! j = Some y ∨ (j = length l ∧ y = x).
Proof.
  rewrite lookup_app. destruct (l !! j) eqn:E; [intros [= ->]; by left|].
  intros H. right. apply lookup_ge_None in E.
  destruct (j - length l)%nat eqn:D; cbn in H; [|by destruct n].
  injection H as ->. split; [lia|done].
Qed.

Lemma is_winner_snoc_skip P l x i f :
  is_winner P l i f → (P x = true → tx_count x ≤ tx_count f) → is_winner P (l ++ [x]) i f.
Proof.
  intros (L & Pf & W) Hx. split; [by apply lookup_app_l_Some|]. split; [done|].
  intros j g [Lj|[-> ->]]%lookup_snoc_cases Pg; [eauto|].
  apply lookup_lt_Some in L. specialize (Hx Pg). lia.
Qed.

Lemma best_spec P l :
  match best P l with
  | Some (i, f) => is_winner P l i f
  | None => ∀ g, g ∈ l → P g = false
  end.
Proof.
  induction l as [|x l IH] using rev_ind.
  - cbn. intros g []%elem_of_nil.
  - rewrite best_snoc. unfold best_step; cbn. destruct (P x) eqn:Px.
    + destruct (best P l) as [[j g]|].
      * destruct (Z.ltb_spec (tx_count g) (tx_count x)).
        -- destruct IH as (L & Pg & W). split; [by rewrite lookup_app_r, Nat.sub_diag|].
           split; [done|]. intros j' g' [Lj|[-> ->]]%lookup_snoc_cases Pg'; [|lia].
           destruct (W _ _ Lj Pg'); lia.
        -- by apply is_winner_snoc_skip.
      * split; [by rewrite lookup_app_r, Nat.sub_diag|]. split; [done|].
        intros j' g' [Lj|[-> ->]]%lookup_snoc_cases Pg'; [|lia].
        apply list_elem_of_lookup_2 in Lj. rewrite (IH _ Lj) in Pg'. done.
    + destruct (best P l) as [[j g]|].
      * apply is_winner_snoc_skip; [done|congruence].
      * intros g [Hg|Hg%list_elem_of_singleton]%elem_of_app; [by apply IH|by subst].
Qed.

Lemma best_Some P l i f : best P l = Some (i, f) ↔ is_winner P l i f.
Proof.
  pose proof (best_spec P l) as S. split; [intros E; by rewrite E in S|].
  intros W. destruct (best P l) as [[j g]|].
  - destruct (is_winner_unique _ _ _ _ _ _ W S) as [-> ->]. done.
  - destruct W as (L & Pf & _). apply list_elem_of_lookup_2 in L.
    rewrite (S _ L) in Pf. done.
Qed.

Lemma wins_is_winner P l i f :
  l !! i = Some f → P f = true → wins P l i f = true ↔ is_winner P l i f.
Proof.
  intros L Pf. unfold wins, is_winner. rewrite forallb_elem. split.
  - intros W. split; [done|]. split; [done|]. intros j g Lj Pg.
    specialize (W (j, g)). rewrite elem_of_enumerate in W. specialize (W Lj).
    rewrite Pg in W; cbn in W.
    rewrite orb_true_iff, andb_true_iff, Z.ltb_lt, Z.eqb_eq, Nat.leb_le in W. done.
  - intros (_ & _ & W) [j g]. rewrite elem_of_enumerate. intros Lj.
    destruct (P g) eqn:Pg; cbn; [|done].
    rewrite orb_true_iff, andb_true_iff, Z.ltb_lt, Z.eqb_eq, Nat.leb_le. eauto.
Qed.

(** The highest counter of a class. *)
Definition max_tx_step (P : Fact → bool) (m : option Z) (f : Fact) : option Z :=
  if P f then Some (match m with Some o => Z.max o (tx_count f) | None => tx_count f end) else m.
Definition max_tx (P : Fact → bool) (l : list Fact) : option Z := foldl (max_tx_step P) None l.

Lemma max_tx_lt P l t :
  (∀ g, g ∈ l → 0 ≤ tx_count g) →
  default 0 (max_tx P l) < t ↔ 0 < t ∧ ∀ g, g ∈ l → P g = true → tx_count g < t.
Proof.
  induction l as [|x l IH] using rev_ind; intros N.
  - cbn. split; [intros H; split; [done|]; intros g []%elem_of_nil|by intros []].
  - assert (∀ g, g ∈ l → 0 ≤ tx_count g) as Nl by set_solver.
    assert (0 ≤ tx_count x) as Nx by (apply N; set_solver).
    specialize (IH Nl). unfold max_tx in *. rewrite foldl_app. cbn. unfold max_tx_step at 1.
    setoid_rewrite elem_of_app. setoid_rewrite list_elem_of_singleton.
    destruct (P x) eqn:Px.
    + assert (default 0 (Some (match foldl (max_tx_step P) None l with
        | Some o => Z.max o (tx_count x) | None => tx_count x end)) < t ↔
        default 0 (foldl (max_tx_step P) None l) < t ∧ tx_count x < t) as ->.
      { destruct (foldl (max_tx_step P) None l); cbn; lia. }
      rewrite IH. naive_solver.
    + rewrite IH. split; [|naive_solver].
      intros [? H]. split; [done|]. intros g [?| ->] Pg; [eauto|congruence].
Qed.

(** * The map passes compute the winners and the maxima *)

Definition in_class {K} `{EqDecision K} (sel : Fact → bool) (key : Fact → K) (k : K) (g : Fact) :=
  sel g && bool_decide (key g = k).

Lemma replace_winner_lookup {K} `{Countable K} sel (key : Fact → K) l x rest (m : gmap K nat) :
  (∀ k, m !! k = fst <$> best (in_class sel key k) l) → sel x = true →
  ∀ k, replace_winner (l ++ x :: rest) m (key x) (length l) x !! k
       = fst <$> best (in_class sel key k) (l ++ [x]).
Proof.
  intros I Sx k. rewrite best_snoc. unfold replace_winner, best_step, in_class at 1; cbn.
  rewrite Sx; cbn. rewrite (I (key x)).
  case_bool_decide as E.
  - subst k. pose proof (best_spec (in_class sel key (key x)) l) as S.
    destruct (best (in_class sel key (key x)) l) as [[j g]|] eqn:B; cbn.
    + destruct S as (L & _ & _). rewrite (lookup_app_l_Some _ _ _ _ L).
      destruct (tx_count g <? tx_count x); cbn; [by rewrite lookup_insert_eq|].
      by rewrite I, B.
    + by rewrite lookup_insert_eq.
  - match goal with |- (if ?c then _ else _) !! _ = _ => destruct c end;
      rewrite ?lookup_insert_ne by done; apply I.
Qed.

Lemma raise_max_lookup {K} `{Countable K} sel (key : Fact → K) l x (m : gmap K Z) :
  (∀ k, m !! k = max_tx (in_class sel key k) l) → sel x = true →
  ∀ k, raise_max m (key x) (tx_count x) !! k = max_tx (in_class sel key k) (l ++ [x]).
Proof.
  intros I Sx k. unfold max_tx. rewrite foldl_app. cbn. unfold max_tx_step at 1, in_class at 1.
  rewrite Sx; cbn. unfold raise_max. case_bool_decide as E.
  - subst k. rewrite lookup_insert_eq. by rewrite I.
  - rewrite lookup_insert_ne by done. apply I.
Qed.

Lemma best_snoc_out P l x : P x = false → best P (l ++ [x]) = best P l.
Proof. intros E. rewrite best_snoc. unfold best_step; cbn. by rewrite E. Qed.
Lemma max_tx_snoc_out P l x : P x = false → max_tx P (l ++ [x]) = max_tx P l.
Proof. intros E. unfold max_tx. rewrite foldl_app. cbn. unfold max_tx_step at 1. by rewrite E. Qed.

Definition sel_unscoped (g : Fact) : bool :=
  negb (asserted g) && is_unscoped_window (valid_from g) (valid_to g).
Definition sel_scoped (g : Fact) : bool :=
  negb (asserted g) && negb (is_unscoped_window (valid_from g) (valid_to g)).

Record net_inv (s : NetState) (l : list Fact) : Prop := {
  inv_winner k : by_window s !! k = fst <$> best (in_class asserted window_key k) l;
  inv_unscoped k : max_unscoped_retract_tx s !! k = max_tx (in_class sel_unscoped eav_key k) l;
  inv_scoped k : max_scoped_retract_tx s !! k = max_tx (in_class sel_scoped window_key k) l;
}.

Lemma in_class_out {K} `{EqDecision K} sel (key : Fact → K) k x :
  sel x = false → in_class sel key k x = false.
Proof. unfold in_class. by intros ->. Qed.

Lemma net_fold_inv l : ∀ rest,
  net_inv (foldl (net_step (l ++ rest)) net_init (enumerate l)) l.
Proof.
  induction l as [|x l IH] using rev_ind; intros rest.
  - split; intros k; cbn; by rewrite lookup_empty.
  - rewrite enumerate_snoc, foldl_app. cbn [foldl].
    rewrite <-app_assoc. cbn [app]. specialize (IH (x :: rest)).
    destruct IH as [IW IU IS]. unfold net_step at 1.
    destruct (asserted x) eqn:A; [|destruct (is_unscoped_window _ _) eqn:U];
      split; cbn [by_window max_unscoped_retract_tx max_scoped_retract_tx]; intros k.
    + by apply (replace_winner_lookup asserted window_key).
    + rewrite max_tx_snoc_out; [done|]. apply in_class_out. unfold sel_unscoped. by rewrite A.
    + rewrite max_tx_snoc_out; [done|]. apply in_class_out. unfold sel_scoped. by rewrite A.
    + rewrite best_snoc_out; [done|]. by apply in_class_out.
    + apply (raise_max_lookup sel_unscoped eav_key); [done|]. unfold sel_unscoped. by rewrite A, U.
    + rewrite max_tx_snoc_out; [done|]. apply in_class_out. unfold sel_scoped. by rewrite A, U.
    + rewrite best_snoc_out; [done|]. by apply in_class_out.
    + rewrite max_tx_snoc_out; [done|]. apply in_class_out. unfold sel_unscoped. by rewrite A, U.
    + apply (raise_max_lookup sel_scoped window_key); [done|]. unfold sel_scoped. by rewrite A, U.
Qed.

Lemma coalesce_fold_inv l : ∀ rest k,
  foldl (λ m '(index, fact), replace_winner (l ++ rest) m (eav_key fact) index fact)
    (∅ : gmap EavKey nat) (enumerate l) !! k
  = fst <$> best (in_class (λ _, true) eav_key k) l.
Proof.
  induction l as [|x l IH] using rev_ind; intros rest k; [apply lookup_empty|].
  rewrite enumerate_snoc, foldl_app. cbn [foldl]. rewrite <-app_assoc. cbn [app].
  by apply (replace_winner_lookup (λ _, true) eav_key).
Qed.

(** * Marking and keeping *)

Lemma marks_lookup d idxs keep i b :
  keep !! i = Some b →
  foldl (mark d) keep idxs !! i =
    Some (if bool_decide (i ∈ idxs) then default b (d i) else b).
Proof.
  intros K. induction idxs as [|x idxs IH] using rev_ind; [done|].
  rewrite foldl_app. cbn. unfold mark at 1. destruct (d x) as [v|] eqn:D.
  - destruct (decide (x = i)) as [->|Ne].
    + rewrite list_lookup_insert_eq; [|by apply lookup_lt_Some in IH].
      rewrite bool_decide_true by set_solver. by rewrite D.
    + rewrite list_lookup_insert_ne by done. rewrite IH. repeat case_bool_decide; set_solver.
  - rewrite IH. destruct (decide (x = i)) as [->|Ne]; [rewrite D; cbn|];
      repeat case_bool_decide; set_solver.
Qed.

Lemma marks_length d idxs keep : length (foldl (mark d) keep idxs) = length keep.
Proof.
  revert keep; induction idxs as [|x idxs IH]; intros keep; [done|].
  cbn. rewrite IH. unfold mark. destruct (d x); [apply length_insert|done].
Qed.

Lemma keep_rows_imap test facts : keep_rows facts (imap test facts) = select test facts.
Proof.
  unfold keep_rows, select, enumerate. revert test. induction facts as [|f l IH]; intros test; [done|].
  cbn. specialize (IH (test ∘ S)).
  assert (∀ l' : list (nat * Fact),
    (List.filter (λ '(i, g), test i g) ((λ '(i, g), (S i, g)) <$> l')).*2
    = (List.filter (λ '(i, g), (test ∘ S) i g) l').*2) as Sh.
  { induction l' as [|[i g] l' IH']; [done|]. cbn. destruct (test (S i) g); cbn; by rewrite IH'. }
  assert (imap (pair ∘ S) l = (λ '(i, g), (S i, g)) <$> imap pair l) as ->.
  { by rewrite fmap_imap. }
  destruct (test 0%nat f); cbn; [f_equal|]; by rewrite Sh, <-IH.
Qed.

(** Marks that agree with a positional test select by it. *)
Lemma keep_rows_select (test : nat → Fact → bool) facts keep :
  length keep = length facts →
  (∀ i f, facts !! i = Some f → keep !! i = Some (test i f)) →
  keep_rows facts keep = select test facts.
Proof.
  intros L H. rewrite <-keep_rows_imap. f_equal. apply list_eq. intros i.
  rewrite list_lookup_imap. destruct (facts !! i) as [f|] eqn:E; cbn; [by apply H|].
  apply lookup_ge_None in E. apply lookup_ge_None. lia.
Qed.

Lemma elem_of_map_values {K} `{Countable K} (m : gmap K nat) i :
  i ∈ (map_to_list m).*2 ↔ ∃ k, m !! k = Some i.
Proof.
  rewrite list_elem_of_fmap. split.
  - intros ([k j] & -> & E%elem_of_map_to_list). by exists k.
  - intros [k E%elem_of_map_to_list]. by exists (k, i).
Qed.

(** An index is stored under some key exactly when its row wins its class. *)
Lemma stored_iff_wins {K} `{Countable K} sel (key : Fact → K) facts (m : gmap K nat) i f :
  (∀ k, m !! k = fst <$> best (in_class sel key k) facts) → facts !! i = Some f →
  i ∈ (map_to_list m).*2 ↔ sel f = true ∧ is_winner (in_class sel key (key f)) facts i f.
Proof.
  intros I L. rewrite elem_of_map_values. split.
  - intros [k E]. rewrite I in E. apply fmap_Some in E as ([j g] & B & ->).
    apply best_Some in B. pose proof B as (L' & C & _). cbn in L. rewrite L in L'.
    injection L' as <-. apply andb_prop in C as [S Kf]. apply bool_decide_eq_true in Kf as <-.
    done.
  - intros [S W]. exists (key f). rewrite I. apply best_Some in W. by rewrite W.
Qed.

Lemma cancels_iff g f :
  cancels g f = true ↔
  in_class sel_unscoped eav_key (eav_key f) g = true ∨
  in_class sel_scoped window_key (window_key f) g = true.
Proof.
  unfold cancels, in_class, sel_unscoped, sel_scoped.
  destruct (asserted g), (is_unscoped_window _ _); cbn; naive_solver.
Qed.

Lemma retractions_below facts f :
  (∀ g, g ∈ facts → 0 ≤ tx_count g) →
  (Z.max (default 0 (max_tx (in_class sel_unscoped eav_key (eav_key f)) facts))
         (default 0 (max_tx (in_class sel_scoped window_key (window_key f)) facts))
   <? tx_count f) =
  (0 <? tx_count f) &&
  forallb (λ g, negb (cancels g f) || (tx_count g <? tx_count f)) facts.
Proof.
  intros N. apply eq_bool_prop_intro. rewrite !Is_true_true.
  rewrite Z.ltb_lt, Z.max_lub_lt_iff, !max_tx_lt by done.
  rewrite andb_true_iff, Z.ltb_lt, forallb_elem. split.
  - intros [[P U] [_ S]]. split; [done|]. intros g G.
    destruct (cancels g f) eqn:C; cbn; [|done]. apply Z.ltb_lt.
    apply cancels_iff in C as [C|C]; eauto.
  - intros [P H]. split; (split; [done|]); intros g G C; specialize (H g G);
      rewrite (proj2 (cancels_iff g f)) in H by auto; by apply Z.ltb_lt in H.
Qed.

Lemma net_asserted_facts_select facts :
  (∀ g, g ∈ facts → 0 ≤ tx_count g) →
  net_asserted_facts facts = select (survives facts) facts.
Proof.
  intros N. unfold net_asserted_facts.
  pose proof (net_fold_inv facts []) as [IW IU IS]. rewrite app_nil_r in IW, IU, IS.
  set (s := foldl (net_step facts) net_init (enumerate facts)) in *.
  apply keep_rows_select; [by rewrite marks_length, length_replicate|].
  intros i f L. pose proof (lookup_lt_Some _ _ _ L) as Hi.
  rewrite (marks_lookup _ _ _ _ false) by (by apply lookup_replicate_2). f_equal.
  pose proof (stored_iff_wins asserted window_key facts _ i f IW L) as SW.
  unfold net_decision. rewrite L. cbn [mbind option_bind default]. rewrite IU, IS.
  rewrite retractions_below by done. unfold survives.
  change (same_window f) with (in_class asserted window_key (window_key f)).
  case_bool_decide as M.
  - apply SW in M as [A W]. rewrite A. cbn [andb default].
    rewrite (proj2 (wins_is_winner _ _ _ _ L (proj1 (proj2 W))) W). by rewrite andb_true_r.
  - destruct (asserted f) eqn:A; [|done].
    destruct (wins (in_class asserted window_key (window_key f)) facts i f) eqn:W;
      [|by rewrite andb_false_r].
    destruct M. apply SW. split; [done|]. apply wins_is_winner in W; [done..|].
    unfold in_class. rewrite A. by apply bool_decide_eq_true.
Qed.

Lemma coalesce_select facts :
  coalesce_point_in_time_facts facts = select (newest_of_eav facts) facts.
Proof.
  unfold coalesce_point_in_time_facts. pose proof (coalesce_fold_inv facts []) as I.
  rewrite app_nil_r in I.
  apply keep_rows_select; [by rewrite marks_length, length_replicate|].
  intros i f L. pose proof (lookup_lt_Some _ _ _ L) as Hi.
  rewrite (marks_lookup _ _ _ _ false) by (by apply lookup_replicate_2). f_equal.
  pose proof (stored_iff_wins (λ _, true) eav_key facts _ i f I L) as SW.
  unfold newest_of_eav.
  change (same_eav f) with (in_class (λ _, true) eav_key (eav_key f)).
  case_bool_decide as M.
  - apply SW in M as [_ W]. cbn.
    by rewrite (proj2 (wins_is_winner _ _ _ _ L (proj1 (proj2 W))) W).
  - symmetry. apply not_true_is_false. intros W. apply M, SW. split; [done|].
    apply wins_is_winner in W; [done..|]. unfold in_class. by apply bool_decide_eq_true.
Qed.

(** Selected rows are rows, and a key that the test makes unique stays unique. *)
Lemma elem_of_select test facts f :
  f ∈ select test facts ↔ ∃ i, facts !! i = Some f ∧ test i f = true.
Proof.
  unfold select. rewrite list_elem_of_fmap. split.
  - intros ([i g] & -> & H). apply list_elem_of_In, filter_In in H as [H T].
    apply list_elem_of_In, elem_of_enumerate in H. by exists i.
  - intros (i & L & T). exists (i, f). split; [done|].
    apply list_elem_of_In, filter_In. split; [|done].
    by apply list_elem_of_In, elem_of_enumerate.
Qed.

Lemma NoDup_enumerate {A} (l : list A) : NoDup (enumerate l).
Proof.
  apply NoDup_alt. intros i j [k x] Hi Hj. unfold enumerate in *.
  rewrite list_lookup_imap in Hi, Hj.
  destruct (l !! i), (l !! j); cbn in *; congruence.
Qed.

Lemma NoDup_select {K} (key : Fact → K) test facts :
  (∀ i j f g, facts !! i = Some f → facts !! j = Some g → test i f = true → test j g = true →
     key f = key g → i = j) →
  NoDup (key <$> select test facts).
Proof.
  intros U. unfold select. rewrite <-list_fmap_compose. apply NoDup_fmap_2_strong.
  - intros [i f] [j g] Hi Hj E.
    apply list_elem_of_In, filter_In in Hi as [Hi Ti], Hj as [Hj Tj].
    apply list_elem_of_In, elem_of_enumerate in Hi, Hj.
    assert (i = j) as <- by (by eapply U). congruence.
  - apply NoDup_ListNoDup, List.NoDup_filter, NoDup_ListNoDup, NoDup_enumerate.
Qed.

Lemma wins_unique P facts i j f g :
  facts !! i = Some f → facts !! j = Some g → P f = true → P g = true →
  wins P facts i f = true → wins P facts j g = true → i = j.
Proof.
  intros Li Lj Pf Pg Wi Wj. apply wins_is_winner in Wi, Wj; [|done..].
  by destruct (is_winner_unique _ _ _ _ _ _ Wi Wj).
Qed.

(** At most one row per window of a triple survives. *)
Lemma net_windows_distinct facts :
  (∀ g, g ∈ facts → 0 ≤ tx_count g) → NoDup (window_key <$> net_asserted_facts facts).
Proof.
  intros N. rewrite net_asserted_facts_select by done.
  apply NoDup_select. intros i j f g Li Lj Sf Sg E. unfold survives in *.
  apply andb_prop in Sf as [[[Af _]%andb_prop _]%andb_prop Wf].
  apply andb_prop in Sg as [[[Ag _]%andb_prop _]%andb_prop Wg].
  assert (same_window g = same_window f) as Es by (unfold same_window; by rewrite E).
  rewrite Es in Wg. eapply wins_unique; [exact Li|exact Lj| | |exact Wf|exact Wg];
    unfold same_window; rewrite ?Af, ?Ag; cbn; apply bool_decide_eq_true; done.
Qed.

(** * Theorems *)

(** C3: [net_asserted_facts] computes the documented retraction semantics: it
    keeps, in log order, exactly the rows that [survives] describes (an
    assertion with positive counter, above every unscoped retraction of its
    triple and every scoped retraction of its exact window, and the highest
    counter of its window, the earliest row on a tie), and keeps at most one
    row per validity window of a triple. *)
Theorem net_asserted_facts_spec facts :
  (∀ g, g ∈ facts → 0 ≤ tx_count g) →
  net_asserted_facts facts = select (survives facts) facts ∧
  NoDup (window_key <$> net_asserted_facts facts).
Proof.
  intros N. split; [by apply net_asserted_facts_select|by apply net_windows_distinct].
Qed.

(** A log with a scoped retraction, an unscoped one and a re-assertion. *)
Definition sample_log : list Fact := [
  mkFact 1 ":salary" (VInteger 100) 10 1 0 50 true;
  mkFact 1 ":salary" (VInteger 100) 10 1 60 90 true;
  mkFact 1 ":salary" (VInteger 100) 11 2 0 50 false;
  mkFact 2 ":salary" (VInteger 7) 12 3 0 VALID_TIME_FOREVER true;
  mkFact 2 ":salary" (VInteger 7) 13 4 RETRACT_ALL_VALID_FROM VALID_TIME_FOREVER false;
  mkFact 2 ":salary" (VInteger 7) 14 5 20 30 true ].

Lemma sample_log_nonneg g : g ∈ sample_log → 0 ≤ tx_count g.
Proof.
  intros H. repeat (apply elem_of_cons in H as [->|H]; [cbn; lia|]). by apply elem_of_nil in H.
Qed.

Lemma net_asserted_facts_spec_witness :
  net_asserted_facts sample_log = select (survives sample_log) sample_log ∧
  NoDup (window_key <$> net_asserted_facts sample_log) ∧
  length (net_asserted_facts sample_log) = 2%nat.
Proof.
  destruct (net_asserted_facts_spec sample_log sample_log_nonneg) as [E D].
  split; [exact E|]. split; [exact D|]. vm_compute. reflexivity.
Defined.

(** [coalesce_point_in_time_facts] keeps, in order, exactly the newest row
    of every (entity, attribute, value) triple: no triple twice, and no triple
    lost. *)
Theorem coalesce_spec facts :
  coalesce_point_in_time_facts facts = select (newest_of_eav facts) facts ∧
  NoDup (eav_key <$> coalesce_point_in_time_facts facts) ∧
  ∀ k, k ∈ eav_key <$> coalesce_point_in_time_facts facts ↔ k ∈ eav_key <$> facts.
Proof.
  rewrite coalesce_select. split; [done|]. split.
  - apply NoDup_select. unfold newest_of_eav. intros i j f g Li Lj Sf Sg E.
    assert (same_eav g = same_eav f) as Es by (unfold same_eav; by rewrite E).
    rewrite Es in Sg. eapply wins_unique; [exact Li|exact Lj| | |exact Sf|exact Sg];
      unfold same_eav; by apply bool_decide_eq_true.
  - intros k. rewrite !list_elem_of_fmap. split.
    + intros (f & -> & (i & L & _)%elem_of_select). exists f. split; [done|].
      by eapply list_elem_of_lookup_2.
    + intros (g & -> & G). pose proof (best_spec (same_eav g) facts) as B.
      destruct (best (same_eav g) facts) as [[i f]|].
      * pose proof B as (L & Pf & _). apply bool_decide_eq_true in Pf as E.
        exists f. split; [done|]. apply elem_of_select. exists i. split; [done|].
        unfold newest_of_eav. apply wins_is_winner; [done|by apply bool_decide_eq_true|].
        assert (same_eav f = same_eav g) as -> by (unfold same_eav; by rewrite E). done.
      * specialize (B g G). unfold same_eav in B. by rewrite bool_decide_true in B.
Qed.

Lemma filter_as_of_tx as_of f facts : f ∈ filter_facts_as_of facts as_of → f ∈ facts.
Proof. intros [H _]%list_elem_of_In%filter_In. by apply list_elem_of_In. Qed.

(** A point-in-time query view holds each triple at most once, and holds
    it exactly when some row of the transaction-time snapshot survives the
    retractions of that snapshot and is valid at the queried time. *)
Theorem point_in_time_view now as_of t source :
  (∀ g, g ∈ source → 0 ≤ tx_count g) →
  let snapshot := match as_of with
                  | Some a => filter_facts_as_of source a | None => source end in
  ∃ rows, filter_facts_for_query now as_of (Some (ValidAtTimestamp t)) source = Ok rows ∧
    NoDup (eav_key <$> rows) ∧
    ∀ k, k ∈ eav_key <$> rows ↔
      ∃ i f, snapshot !! i = Some f ∧ survives snapshot i f = true ∧
             valid_from f ≤ t < valid_to f ∧ k = eav_key f.
Proof.
  intros N snapshot.
  exists (coalesce_point_in_time_facts
            (List.filter (valid_at_test t) (net_asserted_facts snapshot))).
  split; [reflexivity|].
  destruct (coalesce_spec (List.filter (valid_at_test t) (net_asserted_facts snapshot)))
    as (_ & D & M). split; [exact D|].
  intros k. rewrite M, net_asserted_facts_select, list_elem_of_fmap.
  2:{ intros g G. apply N. destruct as_of; [by eapply filter_as_of_tx|done]. }
  split.
  - intros (f & -> & F). apply list_elem_of_In, filter_In in F as [F T].
    apply list_elem_of_In, elem_of_select in F as (i & L & S).
    exists i, f. unfold valid_at_test in T. apply andb_prop in T as [T1 T2].
    apply Z.leb_le in T1. apply Z.ltb_lt in T2. done.
  - intros (i & f & L & S & [T1 T2] & ->). exists f. split; [done|].
    apply list_elem_of_In, filter_In. split.
    + apply list_elem_of_In, elem_of_select. by exists i.
    + unfold valid_at_test. apply andb_true_intro. split; [by apply Z.leb_le|by apply Z.ltb_lt].
Qed.

Lemma point_in_time_view_witness :
  ∃ rows, filter_facts_for_query 0 (Some (AsOfCounter 2)) (Some (ValidAtTimestamp 70)) sample_log
          = Ok rows ∧ NoDup (eav_key <$> rows) ∧ length rows = 1%nat.
Proof.
  destruct (point_in_time_view 0 (Some (AsOfCounter 2)) 70 sample_log sample_log_nonneg)
    as (rows & E & D & _).
  exists rows. split; [exact E|]. split; [exact D|].
  vm_compute in E. injection E as <-. reflexivity.
Defined.

(** History is immutable: whatever is appended to the log with a counter
    above [n] (assertions, retractions, any valid time), every [:as-of n] view
    stays the same list of rows. *)
Theorem as_of_view_immutable now n valid_at source new :
  (∀ g, g ∈ new → n < tx_count g) →
  filter_facts_for_query now (Some (AsOfCounter n)) valid_at (source ++ new) =
  filter_facts_for_query now (Some (AsOfCounter n)) valid_at source.
Proof.
  intros H. assert (filter_facts_as_of (source ++ new) (AsOfCounter n)
                    = filter_facts_as_of source (AsOfCounter n)) as E.
  { unfold filter_facts_as_of. rewrite List.filter_app.
    replace (List.filter (fact_visible_as_of (AsOfCounter n)) new) with (@nil Fact);
      [apply app_nil_r|].
    symmetry. clear source. induction new as [|g new IH]; [done|]. cbn.
    destruct (Z.leb_spec (tx_count g) n) as [L|_].
    - specialize (H g ltac:(set_solver)). lia.
    - apply IH. set_solver. }
  unfold filter_facts_for_query. by rewrite E.
Qed.

Lemma as_of_view_immutable_witness :
  filter_facts_for_query 0 (Some (AsOfCounter 3)) (Some AnyValidTime)
    (take 4 sample_log ++ drop 4 sample_log) =
  filter_facts_for_query 0 (Some (AsOfCounter 3)) (Some AnyValidTime) (take 4 sample_log).
Proof.
  apply (as_of_view_immutable 0 3 (Some AnyValidTime) (take 4 sample_log) (drop 4 sample_log)).
  intros g H. cbn in H. repeat (apply elem_of_cons in H as [->|H]; [cbn; lia|]).
  by apply elem_of_nil in H.
Defined.
