(* ===== verification/SortedRuns.v ===== *)
(** The index runs of the pending overlay ([SortedRuns] of
    src/src/graph/pending_overlay.rs): sorted runs of fact ids in levels of
    doubling size, merged like the carries of a binary counter, and read by a
    k-way merge of the slices in range.

    The file is generic in the comparison of ids ([compare_ids] at one
    [IndexOrder]); PendingOverlay.v instantiates it.  A run is a list of ids, a
    cursor is the rest of a run's slice. *)
From S2P Require Import Prelude.

Record SortedRuns : Type := {
  levels : list (option (list nat));
  runs_len : Z;
  merge_count : Z;
}.
Definition runs_empty : SortedRuns := {| levels := []; runs_len := 0; merge_count := 0 |}.

(** Every id of the runs, level by level. *)
Definition run_ids (ls : list (option (list nat))) : list nat := concat (omap id ls).

(** [slice::partition_point] on a slice partitioned by the predicate. *)
Fixpoint partition_point (p : nat → bool) (l : list nat) : nat :=
  match l with
  | [] => 0
  | x :: l => if p x then S (partition_point p l) else 0
  end.

(** [Vec::swap_remove]: the last element takes the place of the removed one. *)
Definition swap_remove {A} (i : nat) (l : list A) : list A :=
  match last l with
  | Some x => take (length l - 1) (<[i := x]> l)
  | None => []
  end.

Section runs.
Context (Oi : Ord nat).
Local Abbreviation le_id := (@le_ord nat Oi).

Definition merge_runs (left right : list nat) : list nat := list_merge le_id left right.

(** The loop of [SortedRuns::insert] from the level the new run starts at:
    an occupied level is merged into the run, which moves one level up; the
    result is the levels and the number of merges. *)
Fixpoint carry (ls : list (option (list nat))) (run : list nat)
    : list (option (list nat)) * Z :=
  match ls with
  | [] => ([Some run], 0)
  | None :: ls => (Some run :: ls, 0)
  | Some existing :: ls =>
      let '(ls', n) := carry ls (merge_runs existing run) in (None :: ls', n + 1)
  end.

Definition runs_insert (s : SortedRuns) (run : list nat) : SortedRuns :=
  match run with
  | [] => s
  | _ =>
      let level := Nat.log2_up (length run) in
      let padded := levels s ++ replicate (S level - length (levels s)) None in
      let '(upper, merges) := carry (drop level padded) (merge_sort le_id run) in
      {| levels := take level padded ++ upper;
         runs_len := sat_add_u64 (runs_len s) (Z.of_nat (length run));
         merge_count := sat_add_u64 (merge_count s) merges |}
  end.

(** [SortedRuns::range]: the slice of each run between the bounds; [lower] and
    [upper] compare an id's record with the two bounds. *)
Definition run_slice (lower upper : nat → comparison) (run : list nat) : list nat :=
  let lt c := match c with Lt => true | _ => false end in
  let start := partition_point (λ id, lt (lower id)) run in
  let stop := partition_point (λ id, lt (upper id)) run in
  if (start <? stop)%nat then take (stop - start) (drop start run) else [].

Definition range_cursors (lower upper : nat → comparison) (ls : list (option (list nat)))
    : list (list nat) :=
  List.filter (λ c, negb (Nat.eqb (length c) 0)) (run_slice lower upper <$> omap id ls).

(** The cursor whose first id is smallest, the earliest on a tie: the inner
    [for] loop over the cursor positions. *)
Definition head_lt (cursors : list (list nat)) (i j : nat) : bool :=
  match cursors !! i ≫= head, cursors !! j ≫= head with
  | Some x, Some y => ltb_ord (H := Oi) x y
  | _, _ => false
  end.
Definition select_cursor (cursors : list (list nat)) : nat :=
  foldl (λ selected index, if head_lt cursors index selected then index else selected)
    0%nat (seq 1 (length cursors - 1)).

(** Advance the selected cursor, dropping it when it is exhausted. *)
Definition advance (cursors : list (list nat)) (i : nat) (rest : list nat) : list (list nat) :=
  match rest with [] => swap_remove i cursors | _ => <[i := rest]> cursors end.

(** The [while] loop; [fuel] bounds the number of ids left.  The flag says that
    the bound was exceeded. *)
Fixpoint range_loop (fuel : nat) (cursors : list (list nat)) (result : list nat) (max_entries : Z)
    : list nat * bool :=
  match cursors with
  | [] => (result, false)
  | _ =>
      match fuel with
      | O => (result, false)
      | S fuel =>
          let selected := select_cursor cursors in
          match cursors !! selected with
          | Some (x :: rest) =>
              let result := result ++ [x] in
              if max_entries <? Z.of_nat (length result) then (result, true)
              else range_loop fuel (advance cursors selected rest) result max_entries
          | _ => (result, false)
          end
      end
  end.

Definition runs_range (s : SortedRuns) (lower upper : nat → comparison) (max_entries : Z)
    : list nat * bool :=
  let cursors := range_cursors lower upper (levels s) in
  range_loop (length (concat cursors)) cursors [] max_entries.
End runs.

(** * Invariants of the levels *)

Lemma run_ids_app l k : run_ids (l ++ k) = run_ids l ++ run_ids k.
Proof. unfold run_ids. by rewrite omap_app, concat_app. Qed.
Lemma run_ids_None n : run_ids (replicate n None) = [].
Proof. induction n as [|n IH]; [done|exact IH]. Qed.

(** Level [k] holds a run of more than [2^(k-1)] and at most [2^k] ids. *)
Definition level_sized (k : nat) (o : option (list nat)) : Prop :=
  match o with
  | Some run => (2 ^ k < 2 * length run ∧ length run ≤ 2 ^ k)%nat
  | None => True
  end.

Section runs_invariant.
Context (Oi : Ord nat) (L : @OrdLaws nat Oi).
Local Abbreviation le_id := (@le_ord nat Oi).

Definition run_sorted (o : option (list nat)) : Prop :=
  match o with Some run => StronglySorted le_id run | None => True end.

Record runs_ok (s : SortedRuns) (ids : list nat) : Prop := {
  runs_perm : run_ids (levels s) ≡ₚ ids;
  runs_sorted : Forall run_sorted (levels s);
  runs_sized : ∀ k o, levels s !! k = Some o → level_sized k o;
}.

Lemma merge_runs_sorted l k :
  StronglySorted le_id l → StronglySorted le_id k → StronglySorted le_id (merge_runs Oi l k).
Proof.
  intros Hl Hk. apply Sorted_StronglySorted; [apply _|].
  apply Sorted_list_merge; [apply _| |]; by apply StronglySorted_Sorted.
Qed.

Lemma carry_perm ls run : run_ids (carry Oi ls run).1 ≡ₚ run ++ run_ids ls.
Proof.
  revert run; induction ls as [|[e|] ls IH]; intros run; cbn.
  - done.
  - destruct (carry Oi ls (merge_runs Oi e run)) as [ls' n] eqn:C. cbn.
    specialize (IH (merge_runs Oi e run)). rewrite C in IH. cbn in IH.
    unfold run_ids in *. cbn. rewrite IH. unfold merge_runs.
    rewrite merge_Permutation. by rewrite (Permutation_app_comm e run), app_assoc.
  - done.
Qed.

Lemma carry_sorted ls run :
  StronglySorted le_id run → Forall run_sorted ls → Forall run_sorted (carry Oi ls run).1.
Proof.
  revert run; induction ls as [|[e|] ls IH]; intros run Hr Hl; cbn.
  - by repeat constructor.
  - apply Forall_cons_1 in Hl as [He Hl].
    destruct (carry Oi ls (merge_runs Oi e run)) as [ls' n] eqn:C. cbn.
    constructor; [done|]. specialize (IH (merge_runs Oi e run)). rewrite C in IH.
    apply IH; [by apply merge_runs_sorted|done].
  - apply Forall_cons_1 in Hl as [_ Hl]. by constructor.
Qed.

Lemma length_merge_runs l k : length (merge_runs Oi l k) = (length l + length k)%nat.
Proof. unfold merge_runs. by rewrite merge_Permutation, length_app. Qed.

Lemma carry_sized k ls run :
  level_sized k (Some run) → (∀ i o, ls !! i = Some o → level_sized (k + i) o) →
  ∀ i o, (carry Oi ls run).1 !! i = Some o → level_sized (k + i) o.
Proof.
  revert k run; induction ls as [|[e|] ls IH]; intros k run Hr Hl i o; cbn.
  - destruct i; cbn; [|done]. intros [= <-]. by rewrite Nat.add_0_r.
  - destruct (carry Oi ls (merge_runs Oi e run)) as [ls' n] eqn:C. cbn.
    destruct i as [|i]; cbn; [by intros [= <-]|]. intros E.
    rewrite Nat.add_succ_r, <-Nat.add_succ_l. specialize (IH (S k) (merge_runs Oi e run)).
    rewrite C in IH. apply IH; [| |done].
    + pose proof (Hl 0%nat (Some e) eq_refl) as He. rewrite Nat.add_0_r in He.
      cbn in *. rewrite length_merge_runs. lia.
    + intros j o' E'. rewrite Nat.add_succ_l, <-Nat.add_succ_r. by apply Hl.
  - destruct i as [|i]; cbn; [intros [= <-]; by rewrite Nat.add_0_r|].
    intros E. by apply (Hl (S i)).
Qed.

Lemma lookup_padded ls n i o :
  (ls ++ replicate n None) !! i = Some o → ls !! i = Some o ∨ o = (None : option (list nat)).
Proof.
  rewrite lookup_app. destruct (ls !! i); [naive_solver|].
  intros [-> _]%lookup_replicate. by right.
Qed.

Lemma runs_insert_ok s ids run :
  runs_ok s ids → runs_ok (runs_insert Oi s run) (ids ++ run).
Proof.
  intros [Pm Srt Z]. destruct run as [|x run']; [by rewrite app_nil_r|].
  remember (x :: run') as run eqn:Er. assert (0 < length run)%nat as Pos by (subst; cbn; lia).
  unfold runs_insert. rewrite Er at 1. cbn match.
  set (level := Nat.log2_up (length run)).
  set (padded := levels s ++ replicate (S level - length (levels s)) None).
  assert (run_ids padded ≡ₚ ids) as Pp.
  { unfold padded. by rewrite run_ids_app, run_ids_None, app_nil_r. }
  assert (Forall run_sorted padded) as Sp.
  { apply Forall_app. split; [done|]. by apply Forall_replicate. }
  assert (∀ i o, padded !! i = Some o → level_sized i o) as Zp.
  { intros i o [E| ->]%lookup_padded; [by apply Z|done]. }
  assert (level ≤ length padded)%nat as Lp.
  { unfold padded. rewrite length_app, length_replicate. lia. }
  assert (StronglySorted le_id (merge_sort le_id run)) as Sr by (apply StronglySorted_merge_sort; apply _).
  assert (level_sized level (Some (merge_sort le_id run))) as Zr.
  { cbn. rewrite merge_sort_Permutation. unfold level.
    destruct (decide (length run = 1)%nat) as [->|N]; [cbn; lia|].
    pose proof (Nat.log2_up_spec (length run) ltac:(lia)) as [Hlo Hhi].
    split; [|done]. pose proof (Nat.log2_up_pos (length run) ltac:(lia)).
    destruct (Nat.log2_up (length run)) eqn:E; [lia|]. cbn [Nat.pred Nat.pow] in *. lia. }
  pose proof (carry_perm (drop level padded) (merge_sort le_id run)) as Cp.
  pose proof (carry_sorted (drop level padded) _ Sr (Forall_drop _ _ _ Sp)) as Cs.
  pose proof (carry_sized level (drop level padded) _ Zr) as Cz.
  destruct (carry Oi (drop level padded) (merge_sort le_id run)) as [upper merges].
  cbn [fst] in *. split; cbn [levels].
  - rewrite run_ids_app, Cp, merge_sort_Permutation, <-Pp.
    rewrite <-(take_drop level padded) at 3. rewrite run_ids_app.
    rewrite (Permutation_app_comm run), app_assoc. done.
  - apply Forall_app. split; [by apply Forall_take|done].
  - intros i o E. apply lookup_app_Some in E as [E|[Hi E]].
    + apply lookup_take_Some in E as [E _]. by apply Zp.
    + rewrite length_take in *. replace i with (level + (i - (level `min` length padded)))%nat by lia.
      apply Cz; [|done]. intros j o' E'. rewrite lookup_drop in E'. by apply Zp.
Qed.
End runs_invariant.

(** * Reading a range *)

Lemma swap_remove_perm {A} (l : list A) i x :
  l !! i = Some x → x :: swap_remove i l ≡ₚ l.
Proof.
  intros E. unfold swap_remove.
  destruct l as [|z l' _] using rev_ind; [done|]. rewrite last_snoc, length_app.
  replace (length l' + length [z] - 1)%nat with (length l') by (cbn; lia).
  apply lookup_snoc_Some in E as [[Hi E]|[-> ->]].
  - rewrite insert_app_l by done. rewrite take_app_length' by (by rewrite length_insert).
    rewrite insert_take_drop by done. rewrite <-(take_drop_middle l' i x E) at 3.
    rewrite <-(Permutation_cons_append _ z), <-!Permutation_middle. apply Permutation_swap.
  - rewrite insert_app_r_alt by done. rewrite take_app_length.
    by rewrite <-Permutation_cons_append.
Qed.

Lemma concat_perm {A} (l k : list (list A)) : l ≡ₚ k → concat l ≡ₚ concat k.
Proof. induction 1; cbn; [done|by f_equiv| |by etrans]. rewrite !app_assoc. f_equiv. apply Permutation_app_comm. Qed.

Section range.
Context (Oi : Ord nat) (L : @OrdLaws nat Oi).
Local Abbreviation le_id := (@le_ord nat Oi).

Definition cursors_ok (cursors : list (list nat)) : Prop :=
  Forall (λ c, c ≠ [] ∧ StronglySorted le_id c) cursors.

Lemma advance_spec cursors i x rest :
  cursors_ok cursors → cursors !! i = Some (x :: rest) →
  cursors_ok (advance cursors i rest) ∧ x :: concat (advance cursors i rest) ≡ₚ concat cursors.
Proof.
  intros Ok E. destruct rest as [|y rest]; cbn.
  - pose proof (swap_remove_perm cursors i _ E) as P. split.
    + unfold cursors_ok in *. rewrite <-P in Ok. by apply Forall_cons_1 in Ok as [_ Ok].
    + apply concat_perm in P. exact P.
  - split.
    + apply Forall_insert; [done|]. eapply Forall_lookup_1 in Ok as [_ S]; [|exact E].
      split; [done|]. by apply StronglySorted_inv in S as [S _].
    + rewrite insert_take_drop by (by eapply lookup_lt_Some).
      rewrite <-(take_drop_middle cursors i _ E) at 3.
      rewrite !concat_app. cbn. by rewrite Permutation_middle.
Qed.

Lemma lt_not_ge x y : ltb_ord (H := Oi) x y = false ↔ le_id y x.
Proof.
  unfold ltb_ord, le_ord. rewrite (cmp_opp x y). by destruct (cmp x y).
Qed.

Definition head_at (cursors : list (list nat)) (i x : nat) : Prop :=
  cursors !! i ≫= head = Some x.

Lemma head_at_ok cursors i :
  cursors_ok cursors → (i < length cursors)%nat → ∃ x, head_at cursors i x.
Proof.
  intros Ok Hi. apply lookup_lt_is_Some in Hi as [c E].
  eapply Forall_lookup_1 in Ok as [N _]; [|exact E].
  destruct c as [|x c]; [done|]. exists x. unfold head_at. by rewrite E.
Qed.

Lemma select_cursor_min cursors :
  cursors_ok cursors → cursors ≠ [] →
  ∃ x, head_at cursors (select_cursor Oi cursors) x ∧
       ∀ j y, head_at cursors j y → le_id x y.
Proof.
  intros Ok N. assert (0 < length cursors)%nat as Pos by (destruct cursors; cbn in *; [done|lia]).
  assert (∀ n, (n < length cursors)%nat →
    let s := foldl (λ selected index, if head_lt Oi cursors index selected then index else selected)
               0%nat (seq 1 n) in
    ∃ x, head_at cursors s x ∧ ∀ j y, (j ≤ n)%nat → head_at cursors j y → le_id x y) as H.
  { induction n as [|n IH]; intros Hn.
    - cbn. destruct (head_at_ok cursors 0 Ok Pos) as [x Hx]. exists x. split; [done|].
      intros j y Hj Hy. assert (j = 0)%nat as -> by lia. unfold head_at in *.
      assert (x = y) as -> by congruence. reflexivity.
    - rewrite seq_S, foldl_app. cbn [foldl]. destruct IH as (x & Hx & M); [lia|].
      set (s := foldl _ _ _) in *. destruct (head_at_ok cursors (1 + n) Ok Hn) as [z Hz].
      unfold head_lt. unfold head_at in Hx, Hz. rewrite Hz, Hx.
      change (1 + n)%nat with (S n) in *.
      destruct (ltb_ord z x) eqn:C.
      + exists z. split; [done|]. intros j y Hj Hy.
        destruct (decide (j = S n)) as [->|].
        { unfold head_at in Hy. assert (z = y) as -> by congruence. reflexivity. }
        transitivity x; [|apply (M j y); [lia|done]].
        unfold ltb_ord, le_ord in *. by destruct (cmp z x).
      + exists x. split; [done|]. intros j y Hj Hy.
        destruct (decide (j = S n)) as [->|]; [|apply (M j y); [lia|done]].
        unfold head_at in Hy. assert (z = y) as -> by congruence. by apply lt_not_ge. }
  destruct (H (length cursors - 1)%nat ltac:(lia)) as (x & Hx & M). exists x. split; [exact Hx|].
  intros j y Hy. apply (M j y); [|done].
  unfold head_at in Hy. apply bind_Some in Hy as (c & E & _). apply lookup_lt_Some in E. lia.
Qed.

Lemma min_head_below cursors x :
  cursors_ok cursors → (∀ j y, head_at cursors j y → le_id x y) →
  Forall (le_id x) (concat cursors).
Proof.
  intros Ok M. apply Forall_forall. intros z Z. apply list_elem_of_In, in_concat in Z as (c & C & Zc).
  apply list_elem_of_In, list_elem_of_lookup_1 in C as [j E]. apply list_elem_of_In in Zc.
  eapply Forall_lookup_1 in Ok as [N S]; [|exact E].
  destruct c as [|y c]; [done|]. transitivity y; [apply (M j y); unfold head_at; by rewrite E|].
  apply StronglySorted_inv in S as [_ S]. apply elem_of_cons in Zc as [->|Zc]; [reflexivity|].
  rewrite Forall_forall in S. by apply S.
Qed.

Lemma range_loop_done fuel result max_entries :
  Z.of_nat (length result) ≤ max_entries →
  range_loop Oi fuel [] result max_entries =
    if max_entries <? Z.of_nat (length result + length (@nil nat))
    then (result ++ take (S (Z.to_nat max_entries) - length result) [], true)
    else (result ++ [], false).
Proof.
  intros R. rewrite app_nil_r. cbn [length]. rewrite Nat.add_0_r.
  rewrite (proj2 (Z.ltb_ge _ _) R). by destruct fuel.
Qed.

(** The loop emits the sorted ids of all cursors, up to one past the bound. *)
Lemma range_loop_spec fuel : ∀ cursors result mx,
  cursors_ok cursors → (length (concat cursors) ≤ fuel)%nat → Z.of_nat (length result) ≤ mx →
  let full := merge_sort le_id (concat cursors) in
  range_loop Oi fuel cursors result mx =
    if mx <? Z.of_nat (length result + length full)
    then (result ++ take (S (Z.to_nat mx) - length result) full, true)
    else (result ++ full, false).
Proof.
  induction fuel as [|fuel IH]; intros cursors result mx Ok F R full.
  - assert (cursors = []) as ->.
    { destruct cursors as [|[|x c] cs]; [done| |cbn in F; lia].
      by apply Forall_cons_1 in Ok as [[? _] _]. }
    by apply range_loop_done.
  - destruct (decide (cursors = [])) as [->|N]; [by apply range_loop_done|].
    destruct (select_cursor_min cursors Ok N) as (x & Hx & M). unfold head_at in Hx.
    apply bind_Some in Hx as (c & E & Hc). destruct c as [|x' rest]; [done|]. injection Hc as ->.
    destruct (advance_spec cursors _ x rest Ok E) as [Ok' P].
    set (rem := merge_sort le_id (concat (advance cursors (select_cursor Oi cursors) rest))).
    assert (full = x :: rem) as Ef.
    { apply (StronglySorted_unique le_id).
      - apply StronglySorted_merge_sort; apply _.
      - constructor; [apply StronglySorted_merge_sort; apply _|].
        pose proof (min_head_below _ _ Ok M) as B. rewrite <-P in B.
        apply Forall_cons_1 in B as [_ B]. unfold rem. by rewrite merge_sort_Permutation.
      - unfold full, rem. by rewrite !merge_sort_Permutation. }
    apply Permutation_length in P. cbn [length] in P.
    cbn [range_loop]. destruct cursors as [|c0 cs]; [done|].
    set (cursors := c0 :: cs) in *. rewrite E, length_app, Ef. cbn [length].
    destruct (Z.ltb_spec mx (Z.of_nat (length result + 1))).
    + rewrite (proj2 (Z.ltb_lt mx _)) by lia.
      replace (S (Z.to_nat mx) - length result)%nat with 1%nat by lia. cbn. by rewrite take_0.
    + rewrite IH; [|done|lia|rewrite length_app; cbn; lia]. fold rem.
      rewrite length_app. cbn [length].
      replace (length result + 1 + length rem)%nat with (length result + S (length rem))%nat by lia.
      rewrite <-!app_assoc. cbn [app].
      replace (S (Z.to_nat mx) - (length result + 1))%nat with (Z.to_nat mx - length result)%nat by lia.
      replace (S (Z.to_nat mx) - length result)%nat with (S (Z.to_nat mx - length result)) by lia.
      done.
Qed.
End range.

(** * The slices are the ids between the bounds *)

Definition lt_b (c : comparison) : bool := match c with Lt => true | _ => false end.
(** An id is in range: not below [lower], below [upper]. *)
Definition in_range (lower upper : nat → comparison) (id : nat) : bool :=
  negb (lt_b (lower id)) && lt_b (upper id).

Section slices.
Context (Oi : Ord nat) (L : @OrdLaws nat Oi).
Local Abbreviation le_id := (@le_ord nat Oi).

(** A test that holds of everything below an id it holds of. *)
Definition down_closed (p : nat → bool) : Prop :=
  ∀ x y, le_id x y → p y = true → p x = true.

Lemma partition_point_filter p run :
  StronglySorted le_id run → down_closed p →
  List.filter p run = take (partition_point p run) run ∧
  List.filter (λ x, negb (p x)) run = drop (partition_point p run) run.
Proof.
  intros S D. induction run as [|x run IH]; [done|].
  apply StronglySorted_inv in S as [S A]. destruct (IH S) as [I1 I2]. cbn.
  destruct (p x) eqn:Px; cbn; [by rewrite I1, I2|].
  assert (∀ y, y ∈ run → p y = false) as F.
  { intros y Y. apply not_true_is_false. intros Py. rewrite Forall_forall in A.
    rewrite (D x y (A y Y) Py) in Px. done. }
  clear IH I1 I2 S A D. split; [|f_equal]; induction run as [|y run IH]; cbn; try done.
  - rewrite F by set_solver. apply IH. set_solver.
  - rewrite F by set_solver. cbn. f_equal. apply IH. set_solver.
Qed.

Lemma partition_point_take p n run :
  partition_point p (take n run) = (n `min` partition_point p run)%nat.
Proof.
  revert n; induction run as [|x run IH]; intros [|n]; cbn; try done.
  destruct (p x); [|done]. by rewrite IH.
Qed.

Lemma StronglySorted_take (n : nat) (l : list nat) :
  StronglySorted le_id l → StronglySorted le_id (take n l).
Proof.
  intros S. rewrite <-(take_drop n l) in S. by apply StronglySorted_app in S as (_ & S & _).
Qed.

Lemma run_slice_filter lower upper run :
  StronglySorted le_id run →
  down_closed (λ id, lt_b (lower id)) → down_closed (λ id, lt_b (upper id)) →
  run_slice lower upper run = List.filter (in_range lower upper) run.
Proof.
  intros S Dl Du. unfold in_range. rewrite List_filter_filter.
  destruct (partition_point_filter _ run S Du) as [-> _].
  destruct (partition_point_filter _ (take (partition_point (λ x, lt_b (upper x)) run) run)
              (StronglySorted_take _ _ S) Dl) as [_ ->].
  rewrite partition_point_take, skipn_firstn_comm. unfold run_slice. fold lt_b.
  change (λ id : nat, match lower id with Lt => true | _ => false end) with (λ id, lt_b (lower id)).
  change (λ id : nat, match upper id with Lt => true | _ => false end) with (λ id, lt_b (upper id)).
  destruct (Nat.ltb_spec (partition_point (λ id, lt_b (lower id)) run)
                         (partition_point (λ id, lt_b (upper id)) run)).
  - by rewrite Nat.min_r by lia.
  - rewrite Nat.min_l by lia. rewrite Nat.sub_diag. by rewrite take_0.
Qed.

Lemma StronglySorted_filter (p : nat → bool) l :
  StronglySorted le_id l → StronglySorted le_id (List.filter p l).
Proof.
  induction 1 as [|x l S IH A]; [constructor|]. cbn. destruct (p x); [|done].
  constructor; [done|]. apply Forall_forall. intros y [Y _]%list_elem_of_In%filter_In.
  rewrite Forall_forall in A. by apply A, list_elem_of_In.
Qed.

Lemma range_cursors_spec lower upper s ids :
  runs_ok Oi s ids →
  down_closed (λ id, lt_b (lower id)) → down_closed (λ id, lt_b (upper id)) →
  cursors_ok Oi (range_cursors lower upper (levels s)) ∧
  concat (range_cursors lower upper (levels s)) ≡ₚ List.filter (in_range lower upper) ids.
Proof.
  intros [P S _] Dl Du. unfold range_cursors.
  assert (List.filter (in_range lower upper) ids
          ≡ₚ List.filter (in_range lower upper) (run_ids (levels s))) as ->.
  { symmetry. by apply List_filter_perm. }
  clear P. unfold run_ids. induction (levels s) as [|[run|] ls IH]; cbn.
  - split; [constructor|done].
  - apply Forall_cons_1 in S as [Sr S]. destruct (IH S) as [Ok C].
    rewrite run_slice_filter by done. rewrite List.filter_app, <-C.
    destruct (List.filter (in_range lower upper) run) as [|x c] eqn:F; cbn; [done|].
    split; [|done]. constructor; [|done]. split; [done|]. rewrite <-F.
    by apply StronglySorted_filter.
  - apply Forall_cons_1 in S as [_ S]. by apply IH.
Qed.

(** Reading a range returns the ids in range, sorted, up to one past the
    bound; the flag says that there were more than the bound allows. *)
Lemma runs_range_spec lower upper s ids max_entries :
  runs_ok Oi s ids → 0 ≤ max_entries →
  down_closed (λ id, lt_b (lower id)) → down_closed (λ id, lt_b (upper id)) →
  let full := merge_sort le_id (List.filter (in_range lower upper) ids) in
  runs_range Oi s lower upper max_entries =
    if max_entries <? Z.of_nat (length full)
    then (take (S (Z.to_nat max_entries)) full, true) else (full, false).
Proof.
  intros Ok N Dl Du full. destruct (range_cursors_spec lower upper s ids Ok Dl Du) as [C P].
  unfold runs_range. rewrite (range_loop_spec Oi L); [|done|done|cbn; lia].
  assert (merge_sort le_id (concat (range_cursors lower upper (levels s))) = full) as ->; [|done].
  apply (StronglySorted_unique le_id); [apply StronglySorted_merge_sort; apply _..|].
  unfold full. by rewrite !merge_sort_Permutation.
Qed.

End slices.

(** The invariant only depends on how the stored ids compare. *)
Lemma runs_ok_ext (O1 O2 : Ord nat) s ids :
  (∀ x y, x ∈ ids → y ∈ ids → @cmp nat O1 x y = @cmp nat O2 x y) →
  runs_ok O1 s ids → runs_ok O2 s ids.
Proof.
  intros E [P S Z]. split; [done| |done]. apply Forall_forall. intros [run|] H; [|done].
  rewrite Forall_forall in S. specialize (S _ H). cbn in *.
  assert (∀ x, x ∈ run → x ∈ ids) as M.
  { intros x X. rewrite <-P. unfold run_ids. apply list_elem_of_In, in_concat. exists run.
    split; [|by apply list_elem_of_In]. apply list_elem_of_In, list_elem_of_omap. by exists (Some run). }
  refine (StronglySorted_weaken _ _ _ _ S). intros x y X Y. unfold le_ord.
  by rewrite (E x y) by auto.
Qed.

Definition sort_ids (Oi : Ord nat) (ids : list nat) : list nat := merge_sort (@le_ord nat Oi) ids.

Lemma sort_ids_sorted (Oi : Ord nat) (L : @OrdLaws nat Oi) ids :
  StronglySorted (@le_ord nat Oi) (sort_ids Oi ids).
Proof. apply StronglySorted_merge_sort; apply _. Qed.
Lemma sort_ids_perm (Oi : Ord nat) ids : sort_ids Oi ids ≡ₚ ids.
Proof. apply merge_sort_Permutation. Qed.

Lemma runs_ok_empty (Oi : Ord nat) : runs_ok Oi runs_empty [].
Proof. split; [done|constructor|done]. Qed.
