(* ===== verification/Index.v ===== *)
(** Index keys and the in-memory covering indexes (src/src/storage/index.rs):
    [FactRef], the four key types in their sort order, the borrowed entry
    projections used by streaming readers, and [Indexes] with its lookups.

    [derive(Ord)] compares a struct field by field in declaration order, so a
    key's order is the order of the right-nested tuple of its fields.  A
    [BTreeMap] is its list of entries in ascending key order. *)
From S2P Require Import Prelude Types ValueCodec.

Record FactRef : Type := mkFactRef { page_id : Z; slot_index : Z }.
#[export] Instance FactRef_eq_dec : EqDecision FactRef.
Proof. solve_decision. Defined.

(** * Keys *)

Record EavtKey : Type := mkEavt {
  ek_entity : EntityId; ek_attribute : Attribute; ek_valid_from : Z; ek_valid_to : Z;
  ek_tx_count : Z; ek_value_bytes : bytes; ek_tx_id : Z; ek_asserted : bool }.
Record AevtKey : Type := mkAevt {
  ak_attribute : Attribute; ak_entity : EntityId; ak_valid_from : Z; ak_valid_to : Z;
  ak_tx_count : Z; ak_value_bytes : bytes; ak_tx_id : Z; ak_asserted : bool }.
Record AvetKey : Type := mkAvet {
  vk_attribute : Attribute; vk_value_bytes : bytes; vk_valid_from : Z; vk_valid_to : Z;
  vk_entity : EntityId; vk_tx_count : Z; vk_tx_id : Z; vk_asserted : bool }.
Record VaetKey : Type := mkVaet {
  rk_ref_target : EntityId; rk_attribute : Attribute; rk_valid_from : Z; rk_valid_to : Z;
  rk_source_entity : EntityId; rk_tx_count : Z; rk_tx_id : Z; rk_asserted : bool }.

#[export] Instance EavtKey_eq_dec : EqDecision EavtKey.
Proof. solve_decision. Defined.

Definition eavt_tuple (k : EavtKey) :=
  (ek_entity k, (ek_attribute k, (ek_valid_from k, (ek_valid_to k,
    (ek_tx_count k, (ek_value_bytes k, (ek_tx_id k, ek_asserted k))))))).
Definition aevt_tuple (k : AevtKey) :=
  (ak_attribute k, (ak_entity k, (ak_valid_from k, (ak_valid_to k,
    (ak_tx_count k, (ak_value_bytes k, (ak_tx_id k, ak_asserted k))))))).
Definition avet_tuple (k : AvetKey) :=
  (vk_attribute k, (vk_value_bytes k, (vk_valid_from k, (vk_valid_to k,
    (vk_entity k, (vk_tx_count k, (vk_tx_id k, vk_asserted k))))))).
Definition vaet_tuple (k : VaetKey) :=
  (rk_ref_target k, (rk_attribute k, (rk_valid_from k, (rk_valid_to k,
    (rk_source_entity k, (rk_tx_count k, (rk_tx_id k, rk_asserted k))))))).

#[export] Instance EavtKey_ord : Ord EavtKey := cmp_on eavt_tuple.
#[export] Instance AevtKey_ord : Ord AevtKey := cmp_on aevt_tuple.
#[export] Instance AvetKey_ord : Ord AvetKey := cmp_on avet_tuple.
#[export] Instance VaetKey_ord : Ord VaetKey := cmp_on vaet_tuple.

#[export] Instance eavt_tuple_inj : Inj (=) (=) eavt_tuple.
Proof. intros [] []; cbv; naive_solver. Qed.
#[export] Instance aevt_tuple_inj : Inj (=) (=) aevt_tuple.
Proof. intros [] []; cbv; naive_solver. Qed.
#[export] Instance avet_tuple_inj : Inj (=) (=) avet_tuple.
Proof. intros [] []; cbv; naive_solver. Qed.
#[export] Instance vaet_tuple_inj : Inj (=) (=) vaet_tuple.
Proof. intros [] []; cbv; naive_solver. Qed.

#[export] Instance EavtKey_laws : OrdLaws EavtKey.
Proof. exact (cmp_on_laws eavt_tuple). Qed.
#[export] Instance AevtKey_laws : OrdLaws AevtKey.
Proof. exact (cmp_on_laws aevt_tuple). Qed.
#[export] Instance AvetKey_laws : OrdLaws AvetKey.
Proof. exact (cmp_on_laws avet_tuple). Qed.
#[export] Instance VaetKey_laws : OrdLaws VaetKey.
Proof. exact (cmp_on_laws vaet_tuple). Qed.

(** The keys [Indexes::insert] builds for a fact. *)
Definition eavt_key_of (f : Fact) : EavtKey :=
  mkEavt (entity f) (attribute f) (valid_from f) (valid_to f) (tx_count f)
    (encode_value (value f)) (tx_id f) (asserted f).
Definition aevt_key_of (f : Fact) : AevtKey :=
  mkAevt (attribute f) (entity f) (valid_from f) (valid_to f) (tx_count f)
    (encode_value (value f)) (tx_id f) (asserted f).
Definition avet_key_of (f : Fact) : AvetKey :=
  mkAvet (attribute f) (encode_value (value f)) (valid_from f) (valid_to f)
    (entity f) (tx_count f) (tx_id f) (asserted f).
Definition vaet_key_of (f : Fact) : option VaetKey :=
  match value f with
  | VRef target =>
      Some (mkVaet target (attribute f) (valid_from f) (valid_to f) (entity f)
              (tx_count f) (tx_id f) (asserted f))
  | _ => None
  end.

(** * Borrowed projections of on-disk entries *)

Module CurrentEavtEntryRef.
Record t : Type := mk {
  entity : EntityId; attribute : Attribute; valid_from : Z; valid_to : Z;
  tx_count : Z; value_bytes : bytes; tx_id : Z; asserted : bool }.
Definition from_owned (key : EavtKey) : t :=
  mk (ek_entity key) (ek_attribute key) (ek_valid_from key) (ek_valid_to key)
    (ek_tx_count key) (ek_value_bytes key) (ek_tx_id key) (ek_asserted key).
Definition tuple (s : t) :=
  (entity s, (attribute s, (valid_from s, (valid_to s,
    (tx_count s, (value_bytes s, (tx_id s, asserted s))))))).
Definition cmp_owned (s : t) (key : EavtKey) : comparison := cmp (tuple s) (eavt_tuple key).
(** The capacities are those of the resume key's two buffers; the flag says
    that neither had to grow. *)
Definition write_resume_key (attribute_capacity value_capacity : nat) (s : t) (key : EavtKey)
    : EavtKey * bool :=
  (mkEavt (entity s) (attribute s) (valid_from s) (valid_to s) (tx_count s)
     (value_bytes s) (tx_id s) (asserted s),
   (length (as_bytes (attribute s)) <=? attribute_capacity)%nat &&
   (length (value_bytes s) <=? value_capacity)%nat).
End CurrentEavtEntryRef.

Module CurrentAevtEntryRef.
Record t : Type := mk {
  entity : EntityId; valid_from : Z; valid_to : Z;
  tx_count : Z; value_bytes : bytes; tx_id : Z; asserted : bool }.
Definition from_owned (key : AevtKey) : t :=
  mk (ak_entity key) (ak_valid_from key) (ak_valid_to key)
    (ak_tx_count key) (ak_value_bytes key) (ak_tx_id key) (ak_asserted key).
Definition tuple (s : t) :=
  (entity s, (valid_from s, (valid_to s,
    (tx_count s, (value_bytes s, (tx_id s, asserted s)))))).
Definition cmp_owned_suffix (s : t) (key : AevtKey) : comparison :=
  cmp (tuple s)
    (ak_entity key, (ak_valid_from key, (ak_valid_to key,
      (ak_tx_count key, (ak_value_bytes key, (ak_tx_id key, ak_asserted key)))))).
(** The attribute of the resume key is kept. *)
Definition write_resume_key (value_capacity : nat) (s : t) (key : AevtKey) : AevtKey * bool :=
  (mkAevt (ak_attribute key) (entity s) (valid_from s) (valid_to s) (tx_count s)
     (value_bytes s) (tx_id s) (asserted s),
   (length (value_bytes s) <=? value_capacity)%nat).
End CurrentAevtEntryRef.

Module CurrentVaetEntryRef.
Record t : Type := mk {
  ref_target : EntityId; attribute : Attribute; valid_from : Z; valid_to : Z;
  source_entity : EntityId; tx_count : Z; tx_id : Z; asserted : bool }.
Definition from_owned (key : VaetKey) : t :=
  mk (rk_ref_target key) (rk_attribute key) (rk_valid_from key) (rk_valid_to key)
    (rk_source_entity key) (rk_tx_count key) (rk_tx_id key) (rk_asserted key).
Definition tuple (s : t) :=
  (ref_target s, (attribute s, (valid_from s, (valid_to s,
    (source_entity s, (tx_count s, (tx_id s, asserted s))))))).
Definition cmp_owned (s : t) (key : VaetKey) : comparison := cmp (tuple s) (vaet_tuple key).
Definition write_resume_key (attribute_capacity : nat) (s : t) (key : VaetKey) : VaetKey * bool :=
  (mkVaet (ref_target s) (attribute s) (valid_from s) (valid_to s) (source_entity s)
     (tx_count s) (tx_id s) (asserted s),
   (length (as_bytes (attribute s)) <=? attribute_capacity)%nat).
End CurrentVaetEntryRef.

Definition value_projection (s : CurrentEavtEntryRef.t) : CurrentAevtEntryRef.t :=
  CurrentAevtEntryRef.mk (CurrentEavtEntryRef.entity s) (CurrentEavtEntryRef.valid_from s)
    (CurrentEavtEntryRef.valid_to s) (CurrentEavtEntryRef.tx_count s)
    (CurrentEavtEntryRef.value_bytes s) (CurrentEavtEntryRef.tx_id s)
    (CurrentEavtEntryRef.asserted s).

(** The wire shapes have the fields of the key; [take_from_bytes] (postcard)
    is the decoder of one of them followed by a [FactRef]. *)
Section wire.
Context {Key Entry : Type} (from_owned : Key → Entry)
  (take_from_bytes : bytes → result ((Key * FactRef) * bytes)).
Definition decode_entry (bs : bytes) : result (Key * FactRef) :=
  '(entry, remaining) ← take_from_bytes bs;
  if (length remaining =? 0)%nat then Ok entry
  else Err "trailing bytes after projected entry".
Definition project (wire : Key) : Entry := from_owned wire.
End wire.

Definition eavt_wire_cmp_owned (wire key : EavtKey) : comparison :=
  CurrentEavtEntryRef.cmp_owned (project CurrentEavtEntryRef.from_owned wire) key.
Definition aevt_wire_cmp_owned (wire key : AevtKey) : comparison :=
  (cmp (ak_attribute wire) (ak_attribute key) .then
   CurrentAevtEntryRef.cmp_owned_suffix (project CurrentAevtEntryRef.from_owned wire) key)%vicia.
Definition vaet_wire_cmp_owned (wire key : VaetKey) : comparison :=
  CurrentVaetEntryRef.cmp_owned (project CurrentVaetEntryRef.from_owned wire) key.

(** * [BTreeMap] as its ascending list of entries *)

Section btree_map.
Context {K V : Type} `{OrdLaws K}.

Fixpoint bt_insert (k : K) (v : V) (m : list (K * V)) : list (K * V) :=
  match m with
  | [] => [(k, v)]
  | (k', v') :: m' =>
      match cmp k k' with
      | Lt => (k, v) :: m
      | Eq => (k', v) :: m'
      | Gt => (k', v') :: bt_insert k v m'
      end
  end.

Definition bt_in (upper_inclusive : bool) (lo hi k : K) : bool :=
  match cmp lo k with Gt => false | _ =>
    match cmp k hi with Lt => true | Eq => upper_inclusive | Gt => false end end.
Definition bt_range (upper_inclusive : bool) (lo hi : K) (m : list (K * V)) : list (K * V) :=
  List.filter (λ '(k, _), bt_in upper_inclusive lo hi k) m.

Definition strictly_ascending (m : list (K * V)) : Prop :=
  StronglySorted (λ x y, cmp x.1 y.1 = Lt) m.

Lemma bt_insert_keys k v m x : x ∈ bt_insert k v m → x = (k, v) ∨ x.1 = k ∨ x ∈ m.
Proof.
  induction m as [|[k' v'] m IH]; cbn; [set_solver|].
  destruct (cmp k k') eqn:E; rewrite ?elem_of_cons; [|naive_solver..].
  apply cmp_eq in E as ->. naive_solver.
Qed.

Lemma bt_insert_ascending k v m : strictly_ascending m → strictly_ascending (bt_insert k v m).
Proof.
  unfold strictly_ascending. induction 1 as [|[k' v'] m S IH F]; cbn; [repeat constructor|].
  rewrite Forall_forall in F. destruct (cmp k k') eqn:E.
  - constructor; [done|]. by apply Forall_forall.
  - constructor; [by constructor; [|apply Forall_forall]|]. constructor; [done|].
    apply Forall_forall. intros x X. cbn. apply cmp_trans with k'; [done|]. by apply (F x X).
  - constructor; [done|]. apply Forall_forall. intros x [->|[X|X]]%bt_insert_keys; cbn.
    + by rewrite (cmp_opp k k'), E.
    + by rewrite X, (cmp_opp k k'), E.
    + by apply (F x X).
Qed.

Lemma bt_insert_fresh k v m : k ∉ m.*1 → bt_insert k v m ≡ₚ (k, v) :: m.
Proof.
  induction m as [|[k' v'] m IH]; cbn; [done|]. intros N.
  destruct (cmp k k') eqn:E; [|done|].
  - apply cmp_eq in E. set_solver.
  - rewrite IH by set_solver. apply Permutation_swap.
Qed.

Lemma bt_insert_dom k v m : ∀ x, x ∈ (bt_insert k v m).*1 ↔ x = k ∨ x ∈ m.*1.
Proof.
  intros x. induction m as [|[k' v'] m IH]; cbn; [set_solver|].
  destruct (cmp k k') eqn:E; cbn; rewrite ?elem_of_cons.
  - apply cmp_eq in E as ->. naive_solver.
  - done.
  - rewrite IH. naive_solver.
Qed.

(** What a map built by inserting rows holds, when their keys are distinct. *)
Lemma bt_build (rows : list (K * V)) :
  strictly_ascending (foldl (λ m r, bt_insert r.1 r.2 m) [] rows) ∧
  (NoDup rows.*1 → foldl (λ m r, bt_insert r.1 r.2 m) [] rows ≡ₚ rows).
Proof.
  induction rows as [|[k v] rows IH] using rev_ind; [split; [constructor|done]|].
  rewrite foldl_app. cbn. destruct IH as [A P]. split; [by apply bt_insert_ascending|].
  rewrite fmap_app. cbn. intros (N & D & _)%NoDup_app. specialize (P N).
  rewrite bt_insert_fresh; [rewrite P; apply Permutation_cons_append|].
  rewrite P. intros X. apply (D k X). set_solver.
Qed.

Lemma bt_range_rows incl lo hi (rows : list (K * V)) :
  NoDup rows.*1 →
  bt_range incl lo hi (foldl (λ m r, bt_insert r.1 r.2 m) [] rows)
    ≡ₚ List.filter (λ '(k, _), bt_in incl lo hi k) rows.
Proof.
  intros N. destruct (bt_build rows) as [_ P]. by apply List_filter_perm, P.
Qed.
End btree_map.

(** * [Indexes] *)

Record Indexes : Type := {
  eavt : list (EavtKey * FactRef);
  aevt : list (AevtKey * FactRef);
  avet : list (AvetKey * FactRef);
  vaet : list (VaetKey * FactRef);
}.
Definition indexes_new : Indexes := {| eavt := []; aevt := []; avet := []; vaet := [] |}.

Definition indexes_insert (s : Indexes) (fact : Fact) (fact_ref : FactRef) : Indexes := {|
  eavt := bt_insert (eavt_key_of fact) fact_ref (eavt s);
  aevt := bt_insert (aevt_key_of fact) fact_ref (aevt s);
  avet := bt_insert (avet_key_of fact) fact_ref (avet s);
  vaet := match vaet_key_of fact with
          | Some key => bt_insert key fact_ref (vaet s)
          | None => vaet s
          end;
|}.

Definition max_uuid : Z := 2 ^ 128 - 1.
(** [char::MAX.to_string()]. *)
Definition char_MAX : string := of_bytes (z2b <$> [0xF4; 0x8F; 0xBF; 0xBF]).
Definition FF : bytes := [z2b 0xFF].

Definition lookup_eavt_entity (s : Indexes) (e : EntityId) : list FactRef :=
  snd <$> bt_range false
    (mkEavt e "" i64_MIN i64_MIN 0 [] 0 false)
    (mkEavt e "zzzzzzzzzzzzzzzzzz" i64_MAX i64_MAX u64_MAX FF u64_MAX true) (eavt s).
Definition lookup_eavt_entity_attr (s : Indexes) (e : EntityId) (a : Attribute) : list FactRef :=
  snd <$> bt_range true
    (mkEavt e a i64_MIN i64_MIN 0 [] 0 false)
    (mkEavt e a i64_MAX i64_MAX u64_MAX FF u64_MAX true) (eavt s).
Definition lookup_aevt_attr (s : Indexes) (a : Attribute) : list FactRef :=
  snd <$> bt_range true
    (mkAevt a 0 i64_MIN i64_MIN 0 [] 0 false)
    (mkAevt a max_uuid i64_MAX i64_MAX u64_MAX FF u64_MAX true) (aevt s).
Definition lookup_avet_attr_value (s : Indexes) (a : Attribute) (v : Value) : list FactRef :=
  snd <$> bt_range true
    (mkAvet a (encode_value v) i64_MIN i64_MIN 0 0 0 false)
    (mkAvet a (encode_value v) i64_MAX i64_MAX max_uuid u64_MAX u64_MAX true) (avet s).
Definition lookup_vaet_ref (s : Indexes) (target : EntityId) : list FactRef :=
  snd <$> bt_range true
    (mkVaet target "" i64_MIN i64_MIN 0 0 0 false)
    (mkVaet target char_MAX i64_MAX i64_MAX max_uuid u64_MAX u64_MAX true) (vaet s).

(** The indexes of a list of located facts, inserted in order. *)
Definition indexes_of (rows : list (Fact * FactRef)) : Indexes :=
  foldl (λ s '(f, r), indexes_insert s f r) indexes_new rows.

(** * Lookups return exactly the matching facts *)

Lemma indexes_of_parts rows :
  indexes_of rows = {|
    eavt := foldl (λ m r, bt_insert r.1 r.2 m) [] (prod_map eavt_key_of id <$> rows);
    aevt := foldl (λ m r, bt_insert r.1 r.2 m) [] (prod_map aevt_key_of id <$> rows);
    avet := foldl (λ m r, bt_insert r.1 r.2 m) [] (prod_map avet_key_of id <$> rows);
    vaet := foldl (λ m r, bt_insert r.1 r.2 m) []
              (omap (λ '(f, r), k ← vaet_key_of f; Some (k, r)) rows) |}.
Proof.
  induction rows as [|[f r] rows IH] using rev_ind; [done|].
  unfold indexes_of in *. rewrite foldl_app, IH, !fmap_app, omap_app, !foldl_app. cbn.
  unfold indexes_insert. cbn. f_equal. by destruct (vaet_key_of f).
Qed.

(** The order tests of a range scan, one field at a time. *)
Lemma cmp_pair {A B} `{Ord A, Ord B} (a a' : A) (b b' : B) :
  cmp (a, b) (a', b') = (cmp a a' .then cmp b b')%vicia.
Proof. done. Qed.

Lemma cmp_ge {A} `{OrdLaws A} (lo x : A) {B} `{Ord B} (l' x' : B) :
  le_ord lo x → le_ord l' x' → le_ord (lo, l') (x, x').
Proof. unfold le_ord. rewrite cmp_pair. by destruct (cmp lo x). Qed.

Lemma cmp_pair_le {A B} `{OrdLaws A, OrdLaws B} (a x : A) (b y : B) :
  le_ord y b → le_ord (x, y) (a, b) ↔ le_ord x a.
Proof.
  unfold le_ord. rewrite cmp_pair. intros L. destruct (cmp x a); cbn; naive_solver.
Qed.

Lemma bt_in_bounds {A} `{OrdLaws A} (lo hi y : A) :
  bt_in true lo hi y = true ↔ le_ord lo y ∧ le_ord y hi.
Proof. unfold bt_in, le_ord. destruct (cmp lo y), (cmp y hi); naive_solver. Qed.

Lemma bt_in_strict {A} `{OrdLaws A} (lo hi y : A) :
  y ≠ hi → bt_in false lo hi y = bt_in true lo hi y.
Proof.
  intros N. unfold bt_in. destruct (cmp lo y), (cmp y hi) eqn:E; try done.
  all: by apply cmp_eq in E.
Qed.

(** Bounds that share the first field select that field, then go on inside. *)
Lemma bt_in_first {A B} `{OrdLaws A, OrdLaws B} (a x : A) (lo hi y : B) (Q : Prop) :
  (bt_in true lo hi y = true ↔ Q) → bt_in true (a, lo) (a, hi) (x, y) = true ↔ x = a ∧ Q.
Proof.
  intros <-.
  unfold bt_in. rewrite !cmp_pair. destruct (decide (cmp a x = Eq)) as [E|N].
  - apply cmp_eq in E as ->. rewrite !cmp_refl. cbn. naive_solver.
  - rewrite (cmp_opp a x). split.
    + by destruct (cmp a x).
    + intros [-> _]. by rewrite cmp_refl in N.
Qed.

Lemma le_ord_Z (x y : Z) : le_ord x y ↔ x ≤ y.
Proof. unfold le_ord, cmp, Z_ord. rewrite Z.compare_gt_iff. lia. Qed.
Lemma le_ord_nil {A} `{Ord A} (l : list A) : le_ord [] l.
Proof. by destruct l. Qed.
Lemma le_ord_false (b : bool) : le_ord false b.
Proof. by destruct b. Qed.
Lemma le_ord_true (b : bool) : le_ord b true.
Proof. by destruct b. Qed.
Lemma le_ord_empty_string (s : string) : le_ord "" s.
Proof. apply (le_ord_nil (as_bytes s)). Qed.
Lemma encode_value_below_FF v : le_ord (encode_value v) FF.
Proof. by destruct v. Qed.

Create HintDb ord_bounds.
#[export] Hint Resolve cmp_ge le_ord_nil le_ord_false le_ord_true le_ord_empty_string
  encode_value_below_FF : ord_bounds.
(** Bounds of a whole key tuple from the ranges of its fields. *)
Ltac key_bounds :=
  cbn; repeat match goal with
  | |- le_ord (_, _) (_, _) => apply cmp_ge
  | |- @le_ord Z _ _ _ => apply le_ord_Z; ilia
  | |- le_ord ?x ?x => reflexivity
  | |- _ => solve [auto with ord_bounds]
  end.

Section lookups.
Context (rows : list (Fact * FactRef)).
Hypothesis rows_ok : Forall fact_ok rows.*1.
Hypothesis rows_distinct : NoDup (eavt_key_of <$> rows.*1).

Definition refs_where (p : Fact → bool) : list FactRef :=
  snd <$> List.filter (λ r, p r.1) rows.

Lemma key_distinct {K} (kf : Fact → K) :
  (∀ f g, kf f = kf g → eavt_key_of f = eavt_key_of g) →
  NoDup (prod_map kf id <$> rows : list (K * FactRef)).*1.
Proof using rows_distinct.
  intros I. rewrite <-list_fmap_compose. pose proof rows_distinct as N.
  rewrite <-list_fmap_compose in N. refine (NoDup_fmap_det _ _ _ _ N).
  intros [f r] [g q]. apply I.
Qed.

(** A lookup through an index whose bounds select [p]. *)
Lemma lookup_where {K} `{OrdLaws K} (kf : Fact → K) incl lo hi (p : Fact → bool) :
  (∀ f g, kf f = kf g → eavt_key_of f = eavt_key_of g) →
  (∀ f, fact_ok f → bt_in incl lo hi (kf f) = true ↔ p f = true) →
  (snd <$> bt_range incl lo hi (foldl (λ m r, bt_insert r.1 r.2 m) [] (prod_map kf id <$> rows)))
    ≡ₚ refs_where p.
Proof using rows_ok rows_distinct.
  intros I B. rewrite bt_range_rows by (by apply key_distinct).
  rewrite List_filter_fmap, <-list_fmap_compose. unfold refs_where.
  rewrite (List_filter_ext _ (λ r, p r.1)); [done|]. intros [f r] X. cbn.
  apply iff_bool_eq, B. rewrite Forall_fmap, Forall_forall in rows_ok. by apply (rows_ok (f, r)).
Qed.

Lemma eavt_suffix_in f :
  fact_ok f →
  bt_in true (i64_MIN, (i64_MIN, (0, ([], (0, false)))))
    (i64_MAX, (i64_MAX, (u64_MAX, (FF, (u64_MAX, true)))))
    (valid_from f, (valid_to f, (tx_count f, (encode_value (value f), (tx_id f, asserted f)))))
    = true ↔ True.
Proof using.
  intros []. rewrite bt_in_bounds. split; [done|]. intros _. split; key_bounds.
Qed.

(** With distinct in-range facts, the EAVT lookup by entity and attribute,
    the AEVT lookup by attribute and the AVET lookup by attribute and value
    return exactly the references of the matching facts. *)
Theorem lookups_exact e a v :
  lookup_eavt_entity_attr (indexes_of rows) e a
    ≡ₚ refs_where (λ f, bool_decide (entity f = e ∧ attribute f = a)) ∧
  lookup_aevt_attr (indexes_of rows) a ≡ₚ refs_where (λ f, bool_decide (attribute f = a)) ∧
  lookup_avet_attr_value (indexes_of rows) a v
    ≡ₚ refs_where (λ f, bool_decide (attribute f = a ∧ encode_value (value f) = encode_value v)).
Proof using rows_ok rows_distinct.
  rewrite indexes_of_parts. split_and!; apply lookup_where.
  - done.
  - intros f Hf. rewrite bool_decide_eq_true, <-(right_id True (∧) (attribute f = a)).
    by apply (bt_in_first (A := Z)), (bt_in_first (A := string)), eavt_suffix_in.
  - intros f g [=]. unfold eavt_key_of. by f_equal.
  - intros f Hf. rewrite bool_decide_eq_true, <-(right_id True (∧) (attribute f = a)).
    apply (bt_in_first (A := string)). rewrite bt_in_bounds.
    destruct Hf; split; [done|]; intros _; split; unfold max_uuid; key_bounds.
  - intros f g [=]. unfold eavt_key_of. by f_equal.
  - intros f Hf. rewrite bool_decide_eq_true, <-(right_id True (∧) (_ = encode_value v)).
    apply (bt_in_first (A := string)), (bt_in_first (A := bytes)). rewrite bt_in_bounds.
    destruct Hf; split; [done|]; intros _; split; unfold max_uuid; key_bounds.
Qed.

(** A bound on the first field, above everything in the rest. *)
Lemma bt_in_up_to {A B} `{OrdLaws A, OrdLaws B} (a0 a x : A) (lo hi y : B) :
  le_ord a0 x → le_ord lo y → le_ord y hi →
  bt_in true (a0, lo) (a, hi) (x, y) = true ↔ le_ord x a.
Proof using.
  intros L Lo Hi. rewrite bt_in_bounds, (cmp_pair_le a x hi y Hi).
  pose proof (cmp_ge _ _ _ _ L Lo). tauto.
Qed.

Lemma lookup_vaet_where lo hi (p : Fact → bool) :
  (∀ f, fact_ok f →
     p f = match vaet_key_of f with Some k => bt_in true lo hi k | None => false end) →
  (snd <$> bt_range true lo hi (vaet (indexes_of rows))) ≡ₚ refs_where p.
Proof using rows_ok rows_distinct.
  intros B. rewrite indexes_of_parts. cbn [vaet]. rewrite bt_range_rows.
  - unfold refs_where. clear rows_distinct.
    induction rows as [|[f r] rs IH]; [done|]. apply Forall_cons_1 in rows_ok as [Hf Hr].
    specialize (B f Hf) as Bf. cbn. rewrite Bf. destruct (vaet_key_of f); cbn.
    + destruct (bt_in true lo hi v); cbn; [constructor|]; by apply IH.
    + by apply IH.
  - rewrite list_fmap_omap. pose proof rows_distinct as N. rewrite <-list_fmap_compose in N.
    refine (NoDup_omap_det _ _ _ _ N). intros [f r] [g q] k. cbn. unfold vaet_key_of.
    destruct (value f) eqn:Ef, (value g) eqn:Eg; try done. cbn. intros [= <-] [=].
    unfold eavt_key_of; cbn. rewrite Ef, Eg. congruence.
Qed.

(** The two lookups by entity alone are exact only up to a fixed attribute:
    [lookup_eavt_entity] returns the facts of the entity whose attribute is at
    most eighteen times [z], [lookup_vaet_ref] the references to the target
    whose attribute is at most U+10FFFF, in byte order. *)
Theorem entity_lookups_limit e :
  lookup_eavt_entity (indexes_of rows) e
    ≡ₚ refs_where (λ f, bool_decide (entity f = e ∧ le_ord (attribute f) "zzzzzzzzzzzzzzzzzz"%string)) ∧
  lookup_vaet_ref (indexes_of rows) e
    ≡ₚ refs_where (λ f, bool_decide (value f = VRef e ∧ le_ord (attribute f) char_MAX)).
Proof using rows_ok rows_distinct.
  split.
  - rewrite indexes_of_parts. apply lookup_where; [done|].
    intros f Hf. rewrite bool_decide_eq_true, bt_in_strict.
    + destruct Hf. apply (bt_in_first (A := Z)), (bt_in_up_to (A := string)); key_bounds.
    + intros [= E]. by destruct (value f).
  - apply lookup_vaet_where. intros f Hf. apply iff_bool_eq. rewrite bool_decide_eq_true.
    unfold vaet_key_of. destruct (value f) as [| | | |t| |] eqn:V; try naive_solver.
    transitivity (t = e ∧ le_ord (attribute f) char_MAX); [naive_solver|]. symmetry.
    destruct Hf. apply (bt_in_first (A := Z)), (bt_in_up_to (A := string)); unfold max_uuid; key_bounds.
Qed.
End lookups.

Definition sample_rows : list (Fact * FactRef) :=
  [ (mkFact 1 ":name" (VString "a") 10 1 0 100 true, mkFactRef 5 0);
    (mkFact 2 ":friend" (VRef 1) 10 1 0 100 true, mkFactRef 5 1);
    (mkFact 1 "~" VNull 11 2 0 100 true, mkFactRef 5 2) ].

Lemma sample_rows_ok : Forall fact_ok sample_rows.*1.
Proof. repeat (constructor; [split; try done; cbn; ilia|]). constructor. Defined.
Lemma sample_rows_distinct : NoDup (eavt_key_of <$> sample_rows.*1).
Proof. apply (bool_decide_unpack (NoDup _)). vm_compute. exact I. Defined.

Lemma lookups_exact_witness :
  lookup_eavt_entity_attr (indexes_of sample_rows) 1 ":name"
    ≡ₚ refs_where sample_rows (λ f, bool_decide (entity f = 1 ∧ attribute f = ":name"%string)) ∧
  lookup_eavt_entity_attr (indexes_of sample_rows) 1 ":name" = [mkFactRef 5 0].
Proof.
  split; [|by vm_compute].
  apply (lookups_exact sample_rows sample_rows_ok sample_rows_distinct 1 ":name" VNull).
Defined.

(** The attribute [~] is above the limit: the third fact is not found. *)
Lemma entity_lookups_limit_witness :
  lookup_eavt_entity (indexes_of sample_rows) 1
    ≡ₚ refs_where sample_rows
         (λ f, bool_decide (entity f = 1 ∧ le_ord (attribute f) "zzzzzzzzzzzzzzzzzz"%string)) ∧
  lookup_eavt_entity (indexes_of sample_rows) 1 = [mkFactRef 5 0].
Proof.
  split; [|by vm_compute].
  apply (entity_lookups_limit sample_rows sample_rows_ok sample_rows_distinct 1).
Defined.

(** * The borrowed projections compare like the keys they are taken from *)

Lemma eavt_wire_cmp wire key : eavt_wire_cmp_owned wire key = cmp wire key.
Proof. done. Qed.
Lemma aevt_wire_cmp wire key : aevt_wire_cmp_owned wire key = cmp wire key.
Proof. done. Qed.
Lemma vaet_wire_cmp wire key : vaet_wire_cmp_owned wire key = cmp wire key.
Proof. done. Qed.

(** Resuming a scan: the written key is the entry's own key, whatever the key
    held before (the AEVT key keeps its attribute). *)
Lemma eavt_resume c d s key :
  CurrentEavtEntryRef.from_owned (CurrentEavtEntryRef.write_resume_key c d s key).1 = s.
Proof. by destruct s. Qed.
Lemma aevt_resume c s key :
  let key' := (CurrentAevtEntryRef.write_resume_key c s key).1 in
  CurrentAevtEntryRef.from_owned key' = s ∧ ak_attribute key' = ak_attribute key.
Proof. by destruct s. Qed.
Lemma vaet_resume c s key :
  CurrentVaetEntryRef.from_owned (CurrentVaetEntryRef.write_resume_key c s key).1 = s.
Proof. by destruct s. Qed.
