(* ===== verification/PendingOverlay.v ===== *)
(** The pending overlay (src/src/graph/pending_overlay.rs): the append-only
    store of facts that are committed to the WAL but not yet checkpointed, with
    a duplicate table and four sorted-run indexes over the fact ids.

    A fact id is the position of its record.  [DefaultHasher] is a parameter
    [hasher] of the definitions that use it: a function of the hashed fields,
    about which nothing is assumed. *)
From S2P Require Import Prelude Types ValueCodec SortedRuns Index.

Module PendingFactRecord.
Record t : Type := mk {
  entity : EntityId; attribute : Attribute; value : Value; value_bytes : bytes;
  tx_id : Z; tx_count : Z; valid_from : Z; valid_to : Z; asserted : bool }.
Definition from_fact (fact : Fact) (attribute : Attribute) : t :=
  mk (Types.entity fact) attribute (Types.value fact) (encode_value (Types.value fact))
    (Types.tx_id fact) (Types.tx_count fact) (Types.valid_from fact) (Types.valid_to fact)
    (Types.asserted fact).
Definition to_fact (r : t) : Fact :=
  mkFact (entity r) (attribute r) (value r) (tx_id r) (tx_count r) (valid_from r) (valid_to r)
    (asserted r).
Definition equals_fact (r : t) (fact : Fact) (encoded : bytes) : bool :=
  (entity r =? Types.entity fact)
  && bool_decide (attribute r = Types.attribute fact)
  && bool_decide (value_bytes r = encoded)
  && (valid_from r =? Types.valid_from fact)
  && (valid_to r =? Types.valid_to fact)
  && (tx_count r =? Types.tx_count fact)
  && (tx_id r =? Types.tx_id fact)
  && eqb (asserted r) (Types.asserted fact).
Definition current_aevt_entry (r : t) : CurrentAevtEntryRef.t :=
  CurrentAevtEntryRef.mk (entity r) (valid_from r) (valid_to r) (tx_count r) (value_bytes r)
    (tx_id r) (asserted r).
Definition current_eavt_entry (r : t) : CurrentEavtEntryRef.t :=
  CurrentEavtEntryRef.mk (entity r) (attribute r) (valid_from r) (valid_to r) (tx_count r)
    (value_bytes r) (tx_id r) (asserted r).
Definition current_vaet_entry (r : t) : result CurrentVaetEntryRef.t :=
  match value r with
  | VRef ref_target =>
      Ok (CurrentVaetEntryRef.mk ref_target (attribute r) (valid_from r) (valid_to r) (entity r)
            (tx_count r) (tx_id r) (asserted r))
  | _ => Err "pending VAET entry is not a reference"
  end.
Definition ref_target (r : t) : EntityId := match value r with VRef target => target | _ => 0 end.
End PendingFactRecord.

Definition from_index (index : nat) : result nat :=
  if Z.of_nat index <=? u32_MAX then Ok index
  else Err "pending overlay exceeds u32 fact identity space".

Inductive DuplicateBucket : Type :=
| BucketEmpty
| BucketOne (id : nat)
| BucketMany (ids : list nat).

Inductive IndexOrder : Type := Eavt | Aevt | Avet | Vaet.

(** * Comparisons *)

Section compare.
Import PendingFactRecord.
Local Open Scope vicia_scope.

Definition compare_records (left right : t) (order : IndexOrder) : comparison :=
  match order with
  | Eavt =>
      cmp (entity left) (entity right)
      .then cmp (attribute left) (attribute right)
      .then cmp (valid_from left) (valid_from right)
      .then cmp (valid_to left) (valid_to right)
      .then cmp (tx_count left) (tx_count right)
      .then cmp (value_bytes left) (value_bytes right)
      .then cmp (tx_id left) (tx_id right)
      .then cmp (asserted left) (asserted right)
  | Aevt =>
      cmp (attribute left) (attribute right)
      .then cmp (entity left) (entity right)
      .then cmp (valid_from left) (valid_from right)
      .then cmp (valid_to left) (valid_to right)
      .then cmp (tx_count left) (tx_count right)
      .then cmp (value_bytes left) (value_bytes right)
      .then cmp (tx_id left) (tx_id right)
      .then cmp (asserted left) (asserted right)
  | Avet =>
      cmp (attribute left) (attribute right)
      .then cmp (value_bytes left) (value_bytes right)
      .then cmp (valid_from left) (valid_from right)
      .then cmp (valid_to left) (valid_to right)
      .then cmp (entity left) (entity right)
      .then cmp (tx_count left) (tx_count right)
      .then cmp (tx_id left) (tx_id right)
      .then cmp (asserted left) (asserted right)
  | Vaet =>
      cmp (ref_target left) (ref_target right)
      .then cmp (attribute left) (attribute right)
      .then cmp (valid_from left) (valid_from right)
      .then cmp (valid_to left) (valid_to right)
      .then cmp (entity left) (entity right)
      .then cmp (tx_count left) (tx_count right)
      .then cmp (tx_id left) (tx_id right)
      .then cmp (asserted left) (asserted right)
  end.

Definition compare_eavt_bound (record : t) (key : EavtKey) : comparison :=
  cmp (entity record) (ek_entity key)
  .then cmp (attribute record) (ek_attribute key)
  .then cmp (valid_from record) (ek_valid_from key)
  .then cmp (valid_to record) (ek_valid_to key)
  .then cmp (tx_count record) (ek_tx_count key)
  .then cmp (value_bytes record) (ek_value_bytes key)
  .then cmp (tx_id record) (ek_tx_id key)
  .then cmp (asserted record) (ek_asserted key).
Definition compare_aevt_bound (record : t) (key : AevtKey) : comparison :=
  cmp (attribute record) (ak_attribute key)
  .then cmp (entity record) (ak_entity key)
  .then cmp (valid_from record) (ak_valid_from key)
  .then cmp (valid_to record) (ak_valid_to key)
  .then cmp (tx_count record) (ak_tx_count key)
  .then cmp (value_bytes record) (ak_value_bytes key)
  .then cmp (tx_id record) (ak_tx_id key)
  .then cmp (asserted record) (ak_asserted key).
Definition compare_vaet_bound (record : t) (key : VaetKey) : comparison :=
  cmp (ref_target record) (rk_ref_target key)
  .then cmp (attribute record) (rk_attribute key)
  .then cmp (valid_from record) (rk_valid_from key)
  .then cmp (valid_to record) (rk_valid_to key)
  .then cmp (entity record) (rk_source_entity key)
  .then cmp (tx_count record) (rk_tx_count key)
  .then cmp (tx_id record) (rk_tx_id key)
  .then cmp (asserted record) (rk_asserted key).

(** [compare_ids]; an id out of range panics in the source and is never
    stored, here it sorts first. *)
Definition compare_ids (records : list t) (order : IndexOrder) (left right : nat) : comparison :=
  match records !! left, records !! right with
  | Some l, Some r => compare_records l r order .then cmp left right
  | None, None => cmp left right
  | None, Some _ => Lt
  | Some _, None => Gt
  end.
End compare.

(** * The overlay *)

Record PendingIndexes : Type := {
  p_eavt : SortedRuns; p_aevt : SortedRuns; p_avet : SortedRuns; p_vaet : SortedRuns }.
Definition indexes_empty : PendingIndexes :=
  {| p_eavt := runs_empty; p_aevt := runs_empty; p_avet := runs_empty; p_vaet := runs_empty |}.

Record PendingOverlay : Type := {
  records : list PendingFactRecord.t;
  attributes : gset string;
  duplicates : gmap Z DuplicateBucket;
  indexes : PendingIndexes;
}.

Definition overlay_new : PendingOverlay :=
  {| records := []; attributes := ∅; duplicates := ∅; indexes := indexes_empty |}.
Definition overlay_len (o : PendingOverlay) : nat := length (records o).
Definition overlay_is_empty (o : PendingOverlay) : bool := (length (records o) =? 0)%nat.
Definition overlay_clear (o : PendingOverlay) : PendingOverlay :=
  {| records := []; attributes := ∅; duplicates := ∅; indexes := indexes_empty |}.

Definition overlay_get (o : PendingOverlay) (id : nat) : result PendingFactRecord.t :=
  ok_or (records o !! id) "pending fact id out of bounds".
Definition overlay_facts (o : PendingOverlay) : list Fact :=
  PendingFactRecord.to_fact <$> records o.

Section overlay.
(** [DefaultHasher] fed with the identity fields of a fact. *)
Context (hasher : EavtKey → Z).

Definition identity_hash (fact : Fact) : Z := hasher (eavt_key_of fact).

Definition record_equals (o : PendingOverlay) (fact : Fact) (encoded : bytes) (id : nat) : bool :=
  match records o !! id with
  | Some r => PendingFactRecord.equals_fact r fact encoded
  | None => false
  end.

Definition find_duplicate (o : PendingOverlay) (fact : Fact) : option nat :=
  let encoded := encode_value (value fact) in
  match duplicates o !! identity_hash fact with
  | None | Some BucketEmpty => None
  | Some (BucketOne id) => if record_equals o fact encoded id then Some id else None
  | Some (BucketMany ids) => List.find (record_equals o fact encoded) ids
  end.

Definition add_duplicate (d : gmap Z DuplicateBucket) (hash : Z) (id : nat) : gmap Z DuplicateBucket :=
  <[hash := match d !! hash with
            | None | Some BucketEmpty => BucketOne id
            | Some (BucketOne existing) => BucketMany [existing; id]
            | Some (BucketMany ids) => BucketMany (ids ++ [id])
            end]> d.

(** The loop of [insert_batch] over the facts: the overlay so far with the ids
    inserted, and the error that stopped it. *)
Fixpoint insert_facts (o : PendingOverlay) (facts : list Fact) (reject_duplicates : bool)
    (inserted : list nat) : PendingOverlay * result (list nat) :=
  match facts with
  | [] => (o, Ok inserted)
  | fact :: facts =>
      if bool_decide (is_Some (find_duplicate o fact)) && reject_duplicates
      then insert_facts o facts reject_duplicates inserted
      else
        let attrs := {[attribute fact]} ∪ attributes o in
        match from_index (length (records o)) with
        | Err e =>
            ({| records := records o; attributes := attrs; duplicates := duplicates o;
                indexes := indexes o |}, Err e)
        | Ok id =>
            insert_facts
              {| records := records o ++ [PendingFactRecord.from_fact fact (attribute fact)];
                 attributes := attrs;
                 duplicates := add_duplicate (duplicates o) (identity_hash fact) id;
                 indexes := indexes o |}
              facts reject_duplicates (inserted ++ [id])
        end
  end.

Definition is_ref_id (rs : list PendingFactRecord.t) (id : nat) : bool :=
  match PendingFactRecord.value <$> rs !! id with Some (VRef _) => true | _ => false end.

Definition index_inserted (rs : list PendingFactRecord.t) (ix : PendingIndexes) (inserted : list nat)
    : PendingIndexes := {|
  p_eavt := runs_insert (compare_ids rs Eavt) (p_eavt ix) inserted;
  p_aevt := runs_insert (compare_ids rs Aevt) (p_aevt ix) inserted;
  p_avet := runs_insert (compare_ids rs Avet) (p_avet ix) inserted;
  p_vaet := runs_insert (compare_ids rs Vaet) (p_vaet ix) (List.filter (is_ref_id rs) inserted);
|}.

Definition insert_batch (o : PendingOverlay) (facts : list Fact) (reject_duplicates : bool)
    : PendingOverlay * result nat :=
  match insert_facts o facts reject_duplicates [] with
  | (o', Err e) => (o', Err e)
  | (o', Ok []) => (o', Ok 0%nat)
  | (o', Ok inserted) =>
      ({| records := records o'; attributes := attributes o'; duplicates := duplicates o';
          indexes := index_inserted (records o') (indexes o') inserted |},
       Ok (length inserted))
  end.
End overlay.

(** * Range reads *)

Definition at_id (rs : list PendingFactRecord.t) (f : PendingFactRecord.t → comparison) (id : nat)
    : comparison :=
  match rs !! id with Some r => f r | None => Lt end.

Definition usize_MAX : Z := u64_MAX.

Definition range_eavt_page (o : PendingOverlay) (start stop : EavtKey) (max_entries : Z)
    : list nat * bool :=
  runs_range (compare_ids (records o) Eavt) (p_eavt (indexes o))
    (at_id (records o) (λ r, compare_eavt_bound r start))
    (at_id (records o) (λ r, compare_eavt_bound r stop)) max_entries.
Definition range_eavt (o : PendingOverlay) (start stop : EavtKey) : list nat :=
  (range_eavt_page o start stop usize_MAX).1.
Definition range_eavt_bounded (o : PendingOverlay) (start stop : EavtKey) (max_entries : Z)
    : result (list nat) :=
  let '(entries, overflowed) := range_eavt_page o start stop max_entries in
  if overflowed : bool then Err "current_entities history work exceeds the bound" else Ok entries.

Definition range_aevt (o : PendingOverlay) (start : AevtKey) (stop : option AevtKey) : list nat :=
  (runs_range (compare_ids (records o) Aevt) (p_aevt (indexes o))
     (at_id (records o) (λ r, compare_aevt_bound r start))
     (at_id (records o) (λ r, match stop with None => Lt | Some k => compare_aevt_bound r k end))
     usize_MAX).1.

Definition range_vaet_bounded (o : PendingOverlay) (start stop : VaetKey) (max_entries : Z)
    : result (list nat) :=
  let '(entries, overflowed) :=
    runs_range (compare_ids (records o) Vaet) (p_vaet (indexes o))
      (at_id (records o) (λ r, compare_vaet_bound r start))
      (at_id (records o) (λ r, compare_vaet_bound r stop)) max_entries in
  if overflowed : bool then Err "current_refs history work exceeds the bound" else Ok entries.

Definition index_counts (o : PendingOverlay) : Z * Z * Z * Z :=
  (runs_len (p_eavt (indexes o)), runs_len (p_aevt (indexes o)),
   runs_len (p_avet (indexes o)), runs_len (p_vaet (indexes o))).

Definition compare_aevt_projection (o : PendingOverlay) (id : nat) (key : CurrentAevtEntryRef.t)
    : result comparison :=
  r ← overlay_get o id;
  Ok (cmp (CurrentAevtEntryRef.tuple (PendingFactRecord.current_aevt_entry r))
        (CurrentAevtEntryRef.tuple key)).
Definition compare_eavt_projection (o : PendingOverlay) (id : nat) (key : CurrentEavtEntryRef.t)
    : result comparison :=
  r ← overlay_get o id;
  Ok (cmp (CurrentEavtEntryRef.tuple (PendingFactRecord.current_eavt_entry r))
        (CurrentEavtEntryRef.tuple key)).
Definition compare_vaet_projection (o : PendingOverlay) (id : nat) (key : CurrentVaetEntryRef.t)
    : result comparison :=
  r ← overlay_get o id;
  e ← PendingFactRecord.current_vaet_entry r;
  Ok (cmp (CurrentVaetEntryRef.tuple e) (CurrentVaetEntryRef.tuple key)).

(** * The order of ids *)

(** The sort key of a record in each order. *)
Definition rec_eavt (r : PendingFactRecord.t) : EavtKey :=
  mkEavt (PendingFactRecord.entity r) (PendingFactRecord.attribute r)
    (PendingFactRecord.valid_from r) (PendingFactRecord.valid_to r)
    (PendingFactRecord.tx_count r) (PendingFactRecord.value_bytes r)
    (PendingFactRecord.tx_id r) (PendingFactRecord.asserted r).
Definition rec_aevt (r : PendingFactRecord.t) : AevtKey :=
  mkAevt (PendingFactRecord.attribute r) (PendingFactRecord.entity r)
    (PendingFactRecord.valid_from r) (PendingFactRecord.valid_to r)
    (PendingFactRecord.tx_count r) (PendingFactRecord.value_bytes r)
    (PendingFactRecord.tx_id r) (PendingFactRecord.asserted r).
Definition rec_avet (r : PendingFactRecord.t) : AvetKey :=
  mkAvet (PendingFactRecord.attribute r) (PendingFactRecord.value_bytes r)
    (PendingFactRecord.valid_from r) (PendingFactRecord.valid_to r)
    (PendingFactRecord.entity r) (PendingFactRecord.tx_count r)
    (PendingFactRecord.tx_id r) (PendingFactRecord.asserted r).
Definition rec_vaet (r : PendingFactRecord.t) : VaetKey :=
  mkVaet (PendingFactRecord.ref_target r) (PendingFactRecord.attribute r)
    (PendingFactRecord.valid_from r) (PendingFactRecord.valid_to r)
    (PendingFactRecord.entity r) (PendingFactRecord.tx_count r)
    (PendingFactRecord.tx_id r) (PendingFactRecord.asserted r).

(** A record order given by a key. *)
Class KeyedOrder (order : IndexOrder) {K : Type} `{Ord K} (kf : PendingFactRecord.t → K) : Prop := {
  keyed_laws :: OrdLaws K;
  keyed_cmp l r : compare_records l r order = cmp (kf l) (kf r);
}.
#[export] Instance eavt_keyed : KeyedOrder Eavt rec_eavt.
Proof. by split; [apply _|]. Qed.
#[export] Instance aevt_keyed : KeyedOrder Aevt rec_aevt.
Proof. by split; [apply _|]. Qed.
#[export] Instance avet_keyed : KeyedOrder Avet rec_avet.
Proof. by split; [apply _|]. Qed.
#[export] Instance vaet_keyed : KeyedOrder Vaet rec_vaet.
Proof. by split; [apply _|]. Qed.

Section keyed.
Context (order : IndexOrder) {K : Type} (kf : PendingFactRecord.t → K) `{KeyedOrder order K kf}.

Definition id_rank (rs : list PendingFactRecord.t) (id : nat) : list K * nat :=
  (match rs !! id with Some r => [kf r] | None => [] end, id).

Lemma compare_ids_rank rs i j : compare_ids rs order i j = cmp (id_rank rs i) (id_rank rs j).
Proof using Type*.
  unfold compare_ids, id_rank. rewrite cmp_pair.
  destruct (rs !! i), (rs !! j); try done. rewrite keyed_cmp.
  unfold cmp at 4. cbn. by destruct (cmp (kf t) (kf t0)).
Qed.

Lemma compare_ids_laws rs : @OrdLaws nat (compare_ids rs order).
Proof using Type*.
  split; [split|]; unfold cmp; intros *; rewrite ?compare_ids_rank.
  - apply cmp_refl.
  - apply cmp_opp.
  - apply cmp_trans.
  - by intros [= _ E]%cmp_eq.
Qed.

Lemma le_ids_key rs i j x y :
  le_ord (H := compare_ids rs order) i j → rs !! i = Some x → rs !! j = Some y →
  le_ord (kf x) (kf y).
Proof using Type*.
  unfold le_ord, cmp at 1, compare_ids. intros L E F. rewrite E, F, keyed_cmp in L.
  by destruct (cmp (kf x) (kf y)).
Qed.

(** "Below a bound" is closed downwards in the order of ids. *)
Lemma below_down_closed rs (f : PendingFactRecord.t → comparison) (k : K) :
  (∀ r, f r = cmp (kf r) k) →
  down_closed (compare_ids rs order) (λ id, lt_b (at_id rs f id)).
Proof using Type*.
  intros F i j L. unfold at_id. destruct (rs !! i) as [x|] eqn:X; [|done].
  destruct (rs !! j) as [y|] eqn:Y.
  - pose proof (le_ids_key _ _ _ _ _ L X Y) as Le. rewrite !F.
    destruct (cmp (kf y) k) eqn:C; try done. by rewrite (le_lt_trans _ _ _ Le C).
  - unfold le_ord, cmp, compare_ids in L. by rewrite X, Y in L.
Qed.

Lemma compare_ids_grow rs rs' i j :
  (i < length rs)%nat → (j < length rs)%nat →
  compare_ids (rs ++ rs') order i j = compare_ids rs order i j.
Proof using. intros I J. unfold compare_ids. by rewrite !lookup_app_l. Qed.

Lemma index_grow rs rs' s ids new :
  Forall (λ i, i < length rs)%nat ids →
  runs_ok (compare_ids rs order) s ids →
  runs_ok (compare_ids (rs ++ rs') order) (runs_insert (compare_ids (rs ++ rs') order) s new)
    (ids ++ new).
Proof using Type*.
  rewrite Forall_forall. intros B Ok. apply runs_insert_ok; [apply compare_ids_laws|].
  apply (runs_ok_ext (compare_ids rs order)); [|done]. intros x y X Y. symmetry. apply compare_ids_grow; auto.
Qed.
End keyed.

(** * Invariant *)

Definition bucket_ids (b : DuplicateBucket) : list nat :=
  match b with BucketEmpty => [] | BucketOne id => [id] | BucketMany ids => ids end.

Definition record_wf (r : PendingFactRecord.t) : Prop :=
  PendingFactRecord.value_bytes r = encode_value (PendingFactRecord.value r).

(** The identities of the stored facts. *)
Definition identities (o : PendingOverlay) : list EavtKey := rec_eavt <$> records o.

Section invariant.
Context (hasher : EavtKey → Z).

Record table_ok (o : PendingOverlay) : Prop := {
  tb_wf : Forall record_wf (records o);
  tb_attributes : ∀ a, a ∈ attributes o ↔ a ∈ PendingFactRecord.attribute <$> records o;
  tb_duplicates : ∀ hash id,
    id ∈ bucket_ids (default BucketEmpty (duplicates o !! hash)) ↔
    ∃ r, records o !! id = Some r ∧ hasher (rec_eavt r) = hash;
  tb_bound : Z.of_nat (length (records o)) ≤ 2 ^ 32;
}.

Definition ref_ids (rs : list PendingFactRecord.t) : list nat :=
  List.filter (is_ref_id rs) (seq 0 (length rs)).

Record index_ok (o : PendingOverlay) : Prop := {
  ix_eavt : runs_ok (compare_ids (records o) Eavt) (p_eavt (indexes o)) (seq 0 (length (records o)));
  ix_aevt : runs_ok (compare_ids (records o) Aevt) (p_aevt (indexes o)) (seq 0 (length (records o)));
  ix_avet : runs_ok (compare_ids (records o) Avet) (p_avet (indexes o)) (seq 0 (length (records o)));
  ix_vaet : runs_ok (compare_ids (records o) Vaet) (p_vaet (indexes o)) (ref_ids (records o));
  ix_counts : index_counts o =
    (Z.of_nat (length (records o)), Z.of_nat (length (records o)), Z.of_nat (length (records o)),
     Z.of_nat (length (ref_ids (records o))));
}.

Record overlay_ok (o : PendingOverlay) : Prop := {
  ov_table : table_ok o;
  ov_index : index_ok o;
}.

Lemma equals_fact_iff r f :
  record_wf r →
  PendingFactRecord.equals_fact r f (encode_value (value f)) = true ↔ rec_eavt r = eavt_key_of f.
Proof using.
  intros W. unfold PendingFactRecord.equals_fact, rec_eavt, eavt_key_of.
  rewrite !andb_true_iff, !Z.eqb_eq, !bool_decide_eq_true, eqb_true_iff.
  split; [|by intros [=]]. intros (((((((? & ?) & ?) & ?) & ?) & ?) & ?) & ?). by f_equal.
Qed.

Lemma find_duplicate_find o f :
  find_duplicate hasher o f =
  List.find (record_equals o f (encode_value (value f)))
    (bucket_ids (default BucketEmpty (duplicates o !! identity_hash hasher f))).
Proof using. unfold find_duplicate. by destruct (duplicates o !! _) as [[]|]. Qed.

Lemma find_duplicate_iff o f :
  table_ok o → is_Some (find_duplicate hasher o f) ↔ eavt_key_of f ∈ identities o.
Proof using.
  intros [W _ D _]. rewrite find_duplicate_find. unfold identities.
  rewrite list_elem_of_fmap. split.
  - intros [id E]. apply List.find_some in E as [I E]. apply list_elem_of_In, D in I as (r & L & _).
    unfold record_equals in E. rewrite L in E. apply list_elem_of_lookup_2 in L.
    rewrite Forall_forall in W. apply equals_fact_iff in E; [|by apply W]. by exists r.
  - intros (r & E & [id L]%list_elem_of_lookup). destruct (List.find _ _) eqn:F; [by eexists|].
    exfalso. assert (record_equals o f (encode_value (value f)) id = false) as N.
    { apply (List.find_none _ _ F), list_elem_of_In, D. exists r. split; [done|]. by rewrite <-E. }
    unfold record_equals in N. rewrite L in N. apply list_elem_of_lookup_2 in L.
    rewrite Forall_forall in W. by rewrite (proj2 (equals_fact_iff r f (W r L))) in N.
Qed.

(** The facts a batch adds: all of them, or those whose identity is new. *)
Fixpoint accepted (reject_duplicates : bool) (seen : list EavtKey) (facts : list Fact) : list Fact :=
  match facts with
  | [] => []
  | f :: fs =>
      if bool_decide (eavt_key_of f ∈ seen) && reject_duplicates
      then accepted reject_duplicates seen fs
      else f :: accepted reject_duplicates (seen ++ [eavt_key_of f]) fs
  end.

Lemma bucket_ids_add d hash id hash' :
  bucket_ids (default BucketEmpty (add_duplicate d hash id !! hash')) =
  bucket_ids (default BucketEmpty (d !! hash')) ++ (if decide (hash' = hash) then [id] else []).
Proof using.
  unfold add_duplicate. case_decide as E.
  - subst. rewrite lookup_insert_eq. by destruct (d !! hash) as [[]|].
  - rewrite lookup_insert_ne by done. by rewrite app_nil_r.
Qed.

Definition record_of (f : Fact) : PendingFactRecord.t :=
  PendingFactRecord.from_fact f (attribute f).

Lemma push_table_ok o f :
  table_ok o → Z.of_nat (length (records o)) < 2 ^ 32 →
  table_ok {| records := records o ++ [record_of f];
              attributes := {[attribute f]} ∪ attributes o;
              duplicates := add_duplicate (duplicates o) (identity_hash hasher f) (length (records o));
              indexes := indexes o |}.
Proof using.
  intros [W A D B] Lt. split; cbn [records attributes duplicates].
  - apply Forall_app. split; [done|]. by constructor.
  - intros a. rewrite fmap_app, elem_of_app, elem_of_union, A. cbn. set_solver.
  - intros hash id. rewrite bucket_ids_add, elem_of_app, D. split.
    + intros [(r & L & E)|I]; [exists r; by rewrite lookup_app_l by (by eapply lookup_lt_Some)|].
      case_decide as E; [|set_solver]. apply list_elem_of_singleton in I as ->.
      exists (record_of f). split; [|by rewrite E]. by rewrite lookup_app_r, Nat.sub_diag.
    + intros (r & L & E). apply lookup_snoc_Some in L as [[? L]|[-> <-]]; [left; by exists r|].
      right. rewrite decide_True by (by rewrite <-E). set_solver.
  - rewrite length_app. cbn. lia.
Qed.

Lemma insert_facts_spec facts reject : ∀ o acc,
  table_ok o → Z.of_nat (length (records o) + length facts) ≤ 2 ^ 32 →
  let new := accepted reject (identities o) facts in
  ∃ o', insert_facts hasher o facts reject acc =
          (o', Ok (acc ++ seq (length (records o)) (length new))) ∧
    table_ok o' ∧ records o' = records o ++ (record_of <$> new) ∧ indexes o' = indexes o.
Proof using.
  induction facts as [|f facts IH]; intros o acc T B; cbn [accepted insert_facts].
  - exists o. cbn. rewrite !app_nil_r. done.
  - rewrite (bool_decide_ext _ _ (find_duplicate_iff o f T)).
    destruct (bool_decide (eavt_key_of f ∈ identities o) && reject).
    { apply IH; [done|]. cbn in B. lia. }
    unfold from_index. cbn [length] in B. rewrite (proj2 (Z.leb_le _ _)) by ilia.
    fold (record_of f).
    edestruct (IH _ (acc ++ [length (records o)]) (push_table_ok o f T ltac:(lia)))
      as (o' & E & T' & R & I).
    { cbn. rewrite length_app. cbn. lia. }
    cbn [records indexes] in *. unfold identities in *. cbn [records] in *.
    rewrite fmap_app, length_app, Nat.add_1_r in *. cbn in E, R.
    exists o'. split_and!; [|done| |done].
    + rewrite E. by rewrite <-app_assoc.
    + rewrite R. cbn. by rewrite <-app_assoc.
Qed.
End invariant.

Lemma accepted_distinct facts seen :
  NoDup seen → NoDup (seen ++ (eavt_key_of <$> accepted true seen facts)).
Proof.
  revert seen; induction facts as [|f facts IH]; intros seen N; cbn; [by rewrite app_nil_r|].
  rewrite andb_true_r. case_bool_decide as D; [by apply IH|]. cbn.
  change (eavt_key_of f :: ?l) with ([eavt_key_of f] ++ l). rewrite app_assoc. apply IH.
  apply NoDup_app. split; [done|]. split; [set_solver|apply NoDup_singleton].
Qed.

Section overlay_theorems.
Context (hasher : EavtKey → Z).

Lemma record_of_to_fact f : PendingFactRecord.to_fact (record_of f) = f.
Proof using. by destruct f. Qed.

Lemma rec_eavt_record_of f : rec_eavt (record_of f) = eavt_key_of f.
Proof using. done. Qed.

Lemma seq_bound n : Forall (λ i, i < n)%nat (seq 0 n).
Proof using. apply Forall_forall. intros i I. apply elem_of_seq in I. lia. Qed.

Lemma ref_ids_app rs rs' :
  ref_ids (rs ++ rs') =
  ref_ids rs ++ List.filter (is_ref_id (rs ++ rs')) (seq (length rs) (length rs')).
Proof using.
  unfold ref_ids. rewrite length_app, seq_app, List.filter_app. f_equal.
  apply List_filter_ext. intros i I. apply elem_of_seq in I. unfold is_ref_id.
  by rewrite lookup_app_l by lia.
Qed.

Lemma runs_len_insert Oi s run :
  runs_len (runs_insert Oi s run) =
  match run with [] => runs_len s | _ => sat_add_u64 (runs_len s) (Z.of_nat (length run)) end.
Proof using. unfold runs_insert. destruct run; [done|]. by destruct (carry _ _ _). Qed.

Lemma runs_len_grow Oi s run n :
  runs_len s = Z.of_nat n → Z.of_nat (n + length run) ≤ 2 ^ 32 →
  runs_len (runs_insert Oi s run) = Z.of_nat (n + length run).
Proof using.
  intros E B. rewrite runs_len_insert. destruct run as [|x run]; [cbn; by rewrite Nat.add_0_r|].
  unfold sat_add_u64. rewrite E. ilia.
Qed.

Lemma length_filter_le {A} (p : A → bool) l : (length (List.filter p l) ≤ length l)%nat.
Proof using. induction l as [|x l IH]; cbn; [lia|]. destruct (p x); cbn; lia. Qed.

Lemma index_ok_grow o (new : list Fact) tbl :
  index_ok o → new ≠ [] →
  Z.of_nat (length (records o) + length new) ≤ 2 ^ 32 →
  records tbl = records o ++ (record_of <$> new) → indexes tbl = indexes o →
  index_ok {| records := records tbl; attributes := attributes tbl; duplicates := duplicates tbl;
              indexes := index_inserted (records tbl) (indexes tbl)
                           (seq (length (records o)) (length new)) |}.
Proof using.
  intros [E A V R C] N B -> ->. set (rs := records o) in *. set (rs' := record_of <$> new).
  assert (length rs' = length new) as Ln by apply length_fmap.
  injection C as C1 C2 C3 C4.
  assert (seq 0 (length (rs ++ rs')) = seq 0 (length rs) ++ seq (length rs) (length new)) as Sq.
  { by rewrite length_app, seq_app, Ln. }
  split; cbn [records indexes]; unfold index_counts; cbn [indexes p_eavt p_aevt p_avet p_vaet index_inserted];
    rewrite ?Sq, ?ref_ids_app, ?Ln.
  1-3: by apply (index_grow _ _ _ _ _ _ _ (seq_bound _)).
  - apply (index_grow Vaet rec_vaet); [|done]. apply Forall_forall.
    intros i [_ I]%elem_of_List_filter. apply elem_of_seq in I. lia.
  - rewrite length_app, Ln, length_app.
    pose proof (length_filter_le (is_ref_id (rs ++ rs')) (seq (length rs) (length new))) as F.
    pose proof (length_filter_le (is_ref_id rs) (seq 0 (length rs))) as G.
    rewrite !length_seq in *. unfold ref_ids in *.
    repeat f_equal; (erewrite runs_len_grow; [|eassumption|]);
      rewrite ?length_seq; try done; lia.
Qed.

Lemma insert_batch_grows o facts reject :
  overlay_ok hasher o → Z.of_nat (length (records o) + length facts) ≤ 2 ^ 32 →
  let new := accepted reject (identities o) facts in
  ∃ o', insert_batch hasher o facts reject = (o', Ok (length new)) ∧
    records o' = records o ++ (record_of <$> new) ∧ overlay_ok hasher o'.
Proof.
  intros [T X] B new.
  destruct (insert_facts_spec hasher facts reject o [] T B) as (o' & E & T' & R & I).
  fold new in E, R. unfold insert_batch. rewrite E. cbn [app].
  destruct (decide (new = [])) as [->|N].
  - cbn in *. exists o'. split_and!; [done|done|]. split; [done|].
    rewrite app_nil_r in R. destruct o as [? ? ? ?], o' as [? ? ? ?]. cbn in *. subst.
    destruct X; by split.
  - destruct (seq (length (records o)) (length new)) eqn:Sq.
    { apply (f_equal length) in Sq. rewrite length_seq in Sq. by destruct new. }
    rewrite <-Sq. eexists. split; [by rewrite length_seq|]. split; [exact R|].
    split; [by destruct T'|]. apply index_ok_grow; [done..| |done|done].
    destruct T'. rewrite R, length_app, length_fmap in *. done.
Qed.

(** Inserting a batch adds exactly the accepted facts (every fact, or with
    duplicate rejection those whose identity is not stored yet and did not occur
    earlier in the batch), reports their number, and keeps the duplicate table
    and the four indexes consistent with the records, for any hash function.
    With rejection, stored identities stay pairwise distinct. *)
Theorem insert_batch_spec o facts reject :
  overlay_ok hasher o → Z.of_nat (length (records o) + length facts) ≤ 2 ^ 32 →
  let new := accepted reject (identities o) facts in
  ∃ o', insert_batch hasher o facts reject = (o', Ok (length new)) ∧
    overlay_facts o' = overlay_facts o ++ new ∧ overlay_ok hasher o' ∧
    (reject = true → NoDup (identities o) → NoDup (identities o')).
Proof.
  intros Ok B new. destruct (insert_batch_grows o facts reject Ok B) as (o' & E & R & Ok').
  fold new in E, R. exists o'. split_and!; [done| |done|].
  - unfold overlay_facts. rewrite R, fmap_app. f_equal. rewrite <-list_fmap_compose.
    rewrite (list_fmap_ext _ id); [apply list_fmap_id|]. intros; apply record_of_to_fact.
  - intros ->. unfold identities. rewrite R, fmap_app, <-list_fmap_compose.
    apply accepted_distinct.
Qed.

(** ** Reading a range *)

Section keyed_range.
Context (order : IndexOrder) {K : Type} (kf : PendingFactRecord.t → K) `{KeyedOrder order K kf}.

(** Ids in ascending key order, each once, exactly those in [ids] whose key is
    in the half-open interval. *)
Record exact_range (rs : list PendingFactRecord.t) (ids : list nat) (start : K)
    (stop : option K) (out : list nat) : Prop := {
  er_sorted : ∀ i j x y r q, (i < j)%nat → out !! i = Some x → out !! j = Some y →
    rs !! x = Some r → rs !! y = Some q → le_ord (kf r) (kf q);
  er_nodup : NoDup out;
  er_members : ∀ x, x ∈ out ↔ x ∈ ids ∧ ∃ r, rs !! x = Some r ∧ le_ord start (kf r) ∧
    match stop with Some k => cmp (kf r) k = Lt | None => True end;
}.

Lemma keyed_range_spec rs s ids (lower upper : PendingFactRecord.t → comparison) start stop :
  runs_ok (compare_ids rs order) s ids → NoDup ids → Forall (λ i, i < length rs)%nat ids →
  (∀ r, lower r = cmp (kf r) start) →
  (∀ r, upper r = match stop with Some k => cmp (kf r) k | None => Lt end) →
  ∃ full, exact_range rs ids start stop full ∧ ∀ mx, 0 ≤ mx →
    runs_range (compare_ids rs order) s (at_id rs lower) (at_id rs upper) mx =
      if mx <? Z.of_nat (length full) then (take (S (Z.to_nat mx)) full, true) else (full, false).
Proof using Type*.
  intros Ok N B Hl Hu. pose proof (compare_ids_laws order kf rs) as L.
  set (p := in_range (at_id rs lower) (at_id rs upper)).
  exists (sort_ids (compare_ids rs order) (List.filter p ids)). split.
  - split.
    + intros i j x y r q Hij Hi Hj R Q. apply (le_ids_key order kf rs x y); [|done..].
      refine (StronglySorted_lookup _ _ _ _ _ _ _ Hij Hi Hj).
      by apply sort_ids_sorted.
    + rewrite sort_ids_perm. by apply NoDup_ListNoDup, List.NoDup_filter, NoDup_ListNoDup.
    + intros x. rewrite sort_ids_perm, elem_of_List_filter.
      rewrite (and_comm (p x = true)). apply and_iff_compat_l_dep. intros X.
      rewrite Forall_forall in B. destruct (lookup_lt_is_Some_2 rs x (B x X)) as [r R].
      transitivity (le_ord start (kf r) ∧ match stop with Some k => cmp (kf r) k = Lt | None => True end);
        [|naive_solver].
      unfold p, in_range, at_id. rewrite R, Hl, Hu. unfold le_ord. rewrite (cmp_opp start (kf r)).
      destruct (cmp start (kf r)), stop as [k|]; cbn; try destruct (cmp (kf r) k); cbn; intuition done.
  - intros mx Hm. apply runs_range_spec; [done..| |].
    + by apply (below_down_closed order kf rs _ start).
    + destruct stop as [k|]; [by apply (below_down_closed order kf rs _ k)|].
      intros i j _ _. unfold at_id. destruct (rs !! i); [|done]. by rewrite Hu.
Qed.
End keyed_range.

Lemma exact_range_length {K} `{Ord K} (kf : PendingFactRecord.t → K) rs ids start stop out :
  exact_range kf rs ids start stop out → NoDup ids → (length out ≤ length ids)%nat.
Proof using.
  intros [_ N M] _. apply submseteq_length, NoDup_submseteq; [done|]. intros x X. by apply M.
Qed.

Lemma ref_ids_facts rs : NoDup (ref_ids rs) ∧ Forall (λ i, i < length rs)%nat (ref_ids rs)
  ∧ (length (ref_ids rs) ≤ length rs)%nat.
Proof using.
  unfold ref_ids. split_and!.
  - apply NoDup_ListNoDup, List.NoDup_filter, NoDup_ListNoDup, NoDup_seq.
  - apply Forall_forall. intros i [_ I]%elem_of_List_filter. apply elem_of_seq in I. lia.
  - etrans; [apply length_filter_le|]. by rewrite length_seq.
Qed.

Lemma is_ref_id_iff rs x : x ∈ ref_ids rs ↔
  ∃ r t, rs !! x = Some r ∧ PendingFactRecord.value r = VRef t.
Proof using.
  unfold ref_ids, is_ref_id. rewrite elem_of_List_filter, elem_of_seq. split.
  - intros [E I]. destruct (rs !! x) as [r|] eqn:L; [|done]. cbn in E.
    destruct (PendingFactRecord.value r) eqn:V; try done. eauto.
  - intros (r & t & L & V). rewrite L. cbn. rewrite V. apply lookup_lt_Some in L. split; [done|lia].
Qed.

Lemma usize_unbounded (n m : nat) :
  Z.of_nat m ≤ 2 ^ 32 → (n ≤ m)%nat → (usize_MAX <? Z.of_nat n) = false.
Proof using. intros B Hn. unfold usize_MAX. apply Z.ltb_ge. ilia. Qed.

Lemma eavt_page_exact o :
  overlay_ok hasher o → ∀ start stop, ∃ full,
  exact_range rec_eavt (records o) (seq 0 (length (records o))) start (Some stop) full ∧
  range_eavt o start stop = full ∧
  ∀ mx, 0 ≤ mx → range_eavt_page o start stop mx =
    if mx <? Z.of_nat (length full) then (take (S (Z.to_nat mx)) full, true) else (full, false).
Proof using.
  intros [[_ _ _ B] [Ie _ _ _ _]] start stop. pose proof (NoDup_seq 0 (length (records o))) as Nd.
  destruct (keyed_range_spec Eavt rec_eavt (records o) _ _ (λ r, compare_eavt_bound r start)
    (λ r, compare_eavt_bound r stop) start (Some stop) Ie Nd (seq_bound _)) as (full & X & E); [done..|].
  exists full. split; [done|]. split; [|exact E]. unfold range_eavt, range_eavt_page.
  rewrite E by done. apply exact_range_length in X as Len; [|done].
  rewrite length_seq in Len. by rewrite (usize_unbounded _ _ B Len).
Qed.

Lemma eavt_range_exact o :
  overlay_ok hasher o → ∀ start stop,
  exact_range rec_eavt (records o) (seq 0 (length (records o))) start (Some stop)
    (range_eavt o start stop).
Proof using. intros Ok start stop. destruct (eavt_page_exact o Ok start stop) as (f & X & -> & _). done. Qed.

Lemma aevt_range_exact o :
  overlay_ok hasher o → ∀ start stop,
  exact_range rec_aevt (records o) (seq 0 (length (records o))) start stop (range_aevt o start stop).
Proof using.
  intros [[_ _ _ B] [_ Ia _ _ _]] start stop. pose proof (NoDup_seq 0 (length (records o))) as Nd.
  destruct (keyed_range_spec Aevt rec_aevt (records o) _ _ (λ r, compare_aevt_bound r start)
    (λ r, match stop with None => Lt | Some k => compare_aevt_bound r k end) start stop Ia Nd
    (seq_bound _)) as (full & X & E); [done|by destruct stop|].
  unfold range_aevt. rewrite E by done. apply exact_range_length in X as Len; [|done].
  rewrite length_seq in Len. by rewrite (usize_unbounded _ _ B Len).
Qed.

Lemma vaet_range_exact o :
  overlay_ok hasher o → ∀ start stop, ∃ out,
  exact_range rec_vaet (records o) (ref_ids (records o)) start (Some stop) out ∧
  ∀ mx, 0 ≤ mx → range_vaet_bounded o start stop mx =
    if mx <? Z.of_nat (length out) then Err "current_refs history work exceeds the bound" else Ok out.
Proof using.
  intros Ok start stop. destruct (ref_ids_facts (records o)) as (Nr & Fr & _). destruct Ok as [_ [_ _ _ Iv _]].
  destruct (keyed_range_spec Vaet rec_vaet (records o) _ _ (λ r, compare_vaet_bound r start)
    (λ r, compare_vaet_bound r stop) start (Some stop) Iv Nr Fr) as (full & X & E); [done..|].
  exists full. split; [done|]. intros mx Hm. unfold range_vaet_bounded.
  rewrite E by done. by destruct (mx <? Z.of_nat (length full)).
Qed.

(** C8: a range read of the overlay returns the ids of exactly the stored facts
    whose EAVT (AEVT, VAET) key is in the half-open interval, each once and in
    ascending key order; a bounded read returns the same ids, or an error
    exactly when there are more of them than the bound. *)
Theorem range_reads_exact o :
  overlay_ok hasher o →
  let rs := records o in
  (∀ start stop,
     exact_range rec_eavt rs (seq 0 (length rs)) start (Some stop) (range_eavt o start stop) ∧
     ∀ mx, 0 ≤ mx → range_eavt_bounded o start stop mx =
       if mx <? Z.of_nat (length (range_eavt o start stop))
       then Err "current_entities history work exceeds the bound"
       else Ok (range_eavt o start stop)) ∧
  (∀ start stop,
     exact_range rec_aevt rs (seq 0 (length rs)) start stop (range_aevt o start stop)) ∧
  (∀ start stop, ∃ out,
     exact_range rec_vaet rs (ref_ids rs) start (Some stop) out ∧
     ∀ mx, 0 ≤ mx → range_vaet_bounded o start stop mx =
       if mx <? Z.of_nat (length out)
       then Err "current_refs history work exceeds the bound" else Ok out).
Proof using.
  intros Ok rs. split_and!.
  - intros start stop. destruct (eavt_page_exact o Ok start stop) as (full & X & -> & E).
    split; [done|]. intros mx Hm. unfold range_eavt_bounded.
    rewrite E by done. by destruct (mx <? Z.of_nat (length full)).
  - by apply aevt_range_exact.
  - by apply vaet_range_exact.
Qed.

Lemma overlay_new_ok : overlay_ok hasher overlay_new.
Proof using.
  split; split; cbn; try done; try apply runs_ok_empty; try constructor; intros *.
  - set_solver.
  - set_solver.
  - rewrite lookup_empty. cbn. set_solver.
  - intros (r & ? & _). done.
Qed.
Lemma overlay_clear_ok o : overlay_ok hasher (overlay_clear o).
Proof using. apply overlay_new_ok. Qed.
End overlay_theorems.

(** A hash under which everything collides, and one over the entity. *)
Definition const_hasher (k : EavtKey) : Z := 0.

Definition sample_batch : list Fact :=
  [ mkFact 1 ":name" (VString "a") 10 1 0 100 true;
    mkFact 2 ":friend" (VRef 1) 10 1 0 100 true;
    mkFact 1 ":name" (VString "a") 10 1 0 100 true ].

Lemma insert_batch_spec_witness :
  ∃ o', insert_batch const_hasher overlay_new sample_batch true = (o', Ok 2%nat) ∧
    overlay_facts o' = take 2 sample_batch ∧ overlay_ok const_hasher o' ∧
    (true = true → NoDup (identities overlay_new) → NoDup (identities o')).
Proof.
  exact (insert_batch_spec const_hasher overlay_new sample_batch true
           (overlay_new_ok const_hasher) ltac:(vm_compute; discriminate)).
Defined.

Lemma range_reads_exact_witness :
  ∃ o, overlay_ok const_hasher o ∧
    exact_range rec_aevt (records o) (seq 0 (length (records o)))
      (mkAevt ":n" 0 0 0 0 [] 0 false) None
      (range_aevt o (mkAevt ":n" 0 0 0 0 [] 0 false) None) ∧
    range_aevt o (mkAevt ":n" 0 0 0 0 [] 0 false) None = [0%nat].
Proof.
  exists (insert_batch const_hasher overlay_new sample_batch true).1.
  assert (overlay_ok const_hasher (insert_batch const_hasher overlay_new sample_batch true).1) as Ok.
  { destruct (insert_batch_grows const_hasher overlay_new sample_batch true
      (overlay_new_ok _) ltac:(vm_compute; discriminate)) as (o' & E & _ & X). by rewrite E. }
  split; [exact Ok|]. split; [|by vm_compute].
  apply (range_reads_exact const_hasher _ Ok).
Defined.
