(* ===== verification/FactStore.v ===== *)
(** The fact store (src/src/graph/storage.rs, [FactStorage]): the append-only
    ledger seen by queries, made of a committed reader (facts already in the
    database file) and the pending overlay, with the transaction counter and
    the publication generation.

    An operation is a function from the store to the store and a result; the
    wall clock ([tx_id_now]) is its [now] argument.  The traits
    [CommittedFactReader] and [CommittedIndexReader] of src/src/storage/mod.rs
    are records of operations with the laws [ServesFacts] and [ServesIndex];
    the theorems on reads hold for every reader that obeys them.  Lock poisoning
    (a panic of another thread) is not modelled. *)
From S2P Require Import Prelude Types ValueCodec NetView SortedRuns Index PendingOverlay.

(** * Readers *)

Record CommittedFactReader : Type := {
  rd_resolve : FactRef → result Fact;
  rd_stream_all : result (list Fact);
  rd_for_each_fact : ∀ S : Type, (S → Fact → result S) → S → result S;
  rd_for_each_fact_since : ∀ S : Type, Z → (S → Fact → result S) → S → result S;
  rd_committed_page_count : Z;
}.
Arguments rd_for_each_fact _ {S}.
Arguments rd_for_each_fact_since _ {S}.

(** The provided methods of the trait. *)
Definition default_for_each_fact (stream_all : result (list Fact)) {S} (visit : S → Fact → result S)
    (s : S) : result S :=
  facts ← stream_all; foldR visit s facts.
Definition default_for_each_fact_since
    (for_each_fact : ∀ S : Type, (S → Fact → result S) → S → result S) {S} (since_tx_count : Z)
    (visit : S → Fact → result S) (s : S) : result S :=
  for_each_fact S (λ s fact, if since_tx_count <? tx_count fact then visit s fact else Ok s) s.

Definition after_tx (since_tx_count : Z) (f : Fact) : bool := since_tx_count <? tx_count f.

(** What a client may rely on: every path serves the same facts in one order. *)
Class ServesFacts (rd : CommittedFactReader) (facts : list Fact) : Prop := {
  serves_all : rd_stream_all rd = Ok facts;
  serves_each S (visit : S → Fact → result S) s :
    rd_for_each_fact rd visit s = foldR visit s facts;
  serves_since S n (visit : S → Fact → result S) s :
    rd_for_each_fact_since rd n visit s = foldR visit s (List.filter (after_tx n) facts);
}.

(** A visitor over index entries: [false] stops the scan; the result says
    whether the scan reached the end of the range. *)
Fixpoint visitR {S A} (visit : S → A → result (S * bool)) (s : S) (l : list A) : result (S * bool) :=
  match l with
  | [] => Ok (s, true)
  | x :: l =>
      '(s', continue) ← visit s x;
      if continue : bool then visitR visit s' l else Ok (s', false)
  end.

Record CommittedIndexReader : Type := {
  ix_range_scan_eavt : EavtKey → option EavtKey → result (list FactRef);
  ix_visit_eavt : ∀ S : Type, EavtKey → option EavtKey →
    (S → CurrentEavtEntryRef.t * FactRef → result (S * bool)) → S → result (S * bool);
  ix_range_scan_aevt : AevtKey → option AevtKey → result (list FactRef);
  ix_visit_aevt : ∀ S : Type, AevtKey → option AevtKey →
    (S → CurrentAevtEntryRef.t * FactRef → result (S * bool)) → S → result (S * bool);
  ix_range_scan_vaet : VaetKey → option VaetKey → result (list FactRef);
  ix_visit_vaet : ∀ S : Type, VaetKey → option VaetKey →
    (S → CurrentVaetEntryRef.t * FactRef → result (S * bool)) → S → result (S * bool);
}.
Arguments ix_visit_eavt _ {S}.
Arguments ix_visit_aevt _ {S}.
Arguments ix_visit_vaet _ {S}.

(** * The store *)

Record FactStorage : Type := {
  pending : PendingOverlay;
  committed : option CommittedFactReader;
  committed_index_reader : option CommittedIndexReader;
  publication_generation : Z;
  tx_counter : Z;
}.

Definition storage_new : FactStorage := {|
  pending := overlay_new; committed := None; committed_index_reader := None;
  publication_generation := 0; tx_counter := 0 |}.

Definition with_pending (s : FactStorage) (p : PendingOverlay) : FactStorage := {|
  pending := p; committed := committed s; committed_index_reader := committed_index_reader s;
  publication_generation := publication_generation s; tx_counter := tx_counter s |}.
Definition with_counter (s : FactStorage) (c : Z) : FactStorage := {|
  pending := pending s; committed := committed s;
  committed_index_reader := committed_index_reader s;
  publication_generation := publication_generation s; tx_counter := c |}.
Definition bump_generation (s : FactStorage) : FactStorage := {|
  pending := pending s; committed := committed s;
  committed_index_reader := committed_index_reader s;
  publication_generation := sat_add_u64 (publication_generation s) 1;
  tx_counter := tx_counter s |}.

(** [fetch_add(1).saturating_add(1)]: the stored counter wraps, the returned
    count saturates. *)
Definition allocate_tx_count (s : FactStorage) : FactStorage * Z :=
  (with_counter s ((tx_counter s + 1) mod 2 ^ 64), sat_add_u64 (tx_counter s) 1).
Definition current_tx_count (s : FactStorage) : Z := tx_counter s.

Abbreviation FactTuple := (EntityId * Attribute * Value)%type (only parsing).
Abbreviation FactTupleOpts := (EntityId * Attribute * Value * option TransactOptions)%type (only parsing).

Section store.
Context (hasher : EavtKey → Z).

(** The common tail of the write operations. *)
Definition append_batch (s : FactStorage) (facts : list Fact) : FactStorage * result unit :=
  match insert_batch hasher (pending s) facts false with
  | (p, Ok _) => (bump_generation (with_pending s p), Ok ())
  | (p, Err e) => (with_pending s p, Err e)
  end.

Definition opts_window (opts : TransactOptions) (tx : TxId) : Z * Z :=
  (default (tx_id_as_time tx) (opt_valid_from opts),
   default VALID_TIME_FOREVER (opt_valid_to opts)).

Definition assertion_of (tx count : Z) (opts : TransactOptions) (t : FactTuple) : Fact :=
  let '(e, a, v) := t in
  let '(vf, vt) := opts_window opts tx in
  fact_with_valid_time e a v tx count vf vt.

Definition transact (now : TxId) (s : FactStorage) (fact_tuples : list FactTuple)
    (opts : option TransactOptions) : FactStorage * result TxId :=
  let '(s, count) := allocate_tx_count s in
  let opts := default default_opts opts in
  match append_batch s (assertion_of now count opts <$> fact_tuples) with
  | (s, Ok _) => (s, Ok now)
  | (s, Err e) => (s, Err e)
  end.

Definition transact_batch (now : TxId) (s : FactStorage) (fact_tuples : list FactTupleOpts)
    (default_o : option TransactOptions) : FactStorage * result (TxId * Z) :=
  let '(s, count) := allocate_tx_count s in
  let default_o := default default_opts default_o in
  match append_batch s
    ((λ '(t, per_fact_opts), assertion_of now count (default default_o per_fact_opts) t)
       <$> fact_tuples) with
  | (s, Ok _) => (s, Ok (now, count))
  | (s, Err e) => (s, Err e)
  end.

Definition set_tx_count (f : Fact) (count : Z) : Fact :=
  mkFact (entity f) (attribute f) (value f) (tx_id f) count (valid_from f) (valid_to f) (asserted f).

Definition retraction_of (tx count : Z) (default_o : option TransactOptions) (t : FactTupleOpts)
    : Fact :=
  let '(e, a, v, per_fact_opts) := t in
  match per_fact_opts, default_o with
  | None, None => set_tx_count (fact_retract e a v tx) count
  | _, _ =>
      let opts := default (default default_opts default_o) per_fact_opts in
      let '(vf, vt) := opts_window opts tx in
      fact_retract_with_valid_time e a v tx count vf vt
  end.

Definition retract_batch (now : TxId) (s : FactStorage) (fact_tuples : list FactTupleOpts)
    (default_o : option TransactOptions) : FactStorage * result (TxId * Z) :=
  let '(s, count) := allocate_tx_count s in
  match append_batch s (retraction_of now count default_o <$> fact_tuples) with
  | (s, Ok _) => (s, Ok (now, count))
  | (s, Err e) => (s, Err e)
  end.

Definition load_fact (s : FactStorage) (fact : Fact) : FactStorage * result bool :=
  match insert_batch hasher (pending s) [fact] true with
  | (p, Ok n) =>
      let inserted := (n =? 1)%nat in
      let s := with_pending s p in
      (if inserted then bump_generation s else s, Ok inserted)
  | (p, Err e) => (with_pending s p, Err e)
  end.
End store.

Definition restore_tx_counter (s : FactStorage) : FactStorage :=
  with_counter s (foldl Z.max 0 (PendingFactRecord.tx_count <$> records (pending s))).
Definition restore_tx_counter_from (s : FactStorage) (max : Z) : FactStorage := with_counter s max.

Definition storage_clear (s : FactStorage) : FactStorage := {|
  pending := overlay_clear (pending s); committed := None; committed_index_reader := None;
  publication_generation := sat_add_u64 (publication_generation s) 1; tx_counter := 0 |}.
Definition post_checkpoint_clear (s : FactStorage) : FactStorage :=
  bump_generation (with_pending s (overlay_clear (pending s))).
Definition set_committed_reader (s : FactStorage) (reader : CommittedFactReader) : FactStorage :=
  bump_generation {|
    pending := pending s; committed := Some reader;
    committed_index_reader := committed_index_reader s;
    publication_generation := publication_generation s; tx_counter := tx_counter s |}.
Definition publish_committed_readers (s : FactStorage) (fact_reader : CommittedFactReader)
    (index_reader : option CommittedIndexReader) : FactStorage :=
  bump_generation {|
    pending := overlay_clear (pending s); committed := Some fact_reader;
    committed_index_reader := index_reader;
    publication_generation := publication_generation s; tx_counter := tx_counter s |}.
(** The shared reader is extended in place: [extend] is its new state. *)
Definition publish_incremental_committed (s : FactStorage)
    (extend : option CommittedFactReader → option CommittedFactReader)
    (extend_index : option CommittedIndexReader → option CommittedIndexReader) : FactStorage :=
  bump_generation {|
    pending := overlay_clear (pending s); committed := extend (committed s);
    committed_index_reader := extend_index (committed_index_reader s);
    publication_generation := publication_generation s; tx_counter := tx_counter s |}.

(** * Reading the ledger *)

Definition get_all_facts (s : FactStorage) : result (list Fact) :=
  committed_facts ← match committed s with
                    | Some loader => rd_stream_all loader
                    | None => Ok []
                    end;
  Ok (committed_facts ++ overlay_facts (pending s)).

Definition for_each_fact (s : FactStorage) {S} (visit : S → Fact → result S) (x : S) : result S :=
  x ← match committed s with Some loader => rd_for_each_fact loader visit x | None => Ok x end;
  foldR visit x (overlay_facts (pending s)).

Definition for_each_fact_since (s : FactStorage) (since_tx_count : Z) {S}
    (visit : S → Fact → result S) (x : S) : result S :=
  x ← match committed s with
      | Some loader => rd_for_each_fact_since loader since_tx_count visit x
      | None => Ok x
      end;
  foldR (λ x r, if since_tx_count <? PendingFactRecord.tx_count r
                then visit x (PendingFactRecord.to_fact r) else Ok x) x (records (pending s)).

Definition push_bounded_query_fact (max_facts : Z) (facts : list Fact) (fact : Fact)
    : result (list Fact) :=
  if max_facts <=? Z.of_nat (length facts)
  then Err "query source work exceeds max-results; incomplete result rejected"
  else Ok (facts ++ [fact]).

Definition get_all_facts_bounded (s : FactStorage) (max_facts : Z) : result (list Fact) :=
  for_each_fact s (push_bounded_query_fact max_facts) [].

Definition get_asserted_facts (s : FactStorage) : result (list Fact) :=
  all ← get_all_facts s; Ok (List.filter is_asserted all).
Definition get_pending_facts (s : FactStorage) : list Fact := overlay_facts (pending s).
Definition pending_fact_count (s : FactStorage) : nat := overlay_len (pending s).
Definition has_committed_reader (s : FactStorage) : bool :=
  match committed s with Some _ => true | None => false end.
Definition pending_index_counts (s : FactStorage) : Z * Z * Z * Z := index_counts (pending s).

(** * The current view after a write *)

Lemma enumerate_app {A} (l k : list A) :
  enumerate (l ++ k) = enumerate l ++ ((λ '(i, x), ((length l + i)%nat, x)) <$> enumerate k).
Proof.
  unfold enumerate. rewrite imap_app. f_equal. rewrite fmap_imap. by apply imap_ext.
Qed.

Lemma select_app test l k :
  select test (l ++ k) = select test l ++ select (λ i, test (length l + i)%nat) k.
Proof.
  unfold select. rewrite enumerate_app, List.filter_app, fmap_app. f_equal.
  rewrite List_filter_fmap, <-list_fmap_compose.
  rewrite (List_filter_ext _ (λ '(i, f), test (length l + i)%nat f)); [|by intros []].
  apply list_fmap_ext. by intros i [].
Qed.

Lemma select_ext test test' l :
  (∀ i f, l !! i = Some f → test i f = test' i f) → select test l = select test' l.
Proof.
  intros E. unfold select. f_equal. apply List_filter_ext. intros [i f] I.
  apply elem_of_enumerate in I. by apply E.
Qed.

Lemma select_none test l : (∀ i f, l !! i = Some f → test i f = false) → select test l = [].
Proof.
  intros E. unfold select. replace (List.filter _ _) with (@nil (nat * Fact)); [done|].
  symmetry. apply elem_of_nil_inv. intros [i f] [T I]%elem_of_List_filter.
  apply elem_of_enumerate in I. by rewrite E in T.
Qed.

Lemma select_filter test (p : Fact → bool) l :
  select (λ i f, p f && test i f) l = List.filter p (select test l).
Proof.
  unfold select. rewrite List_filter_fmap. f_equal. rewrite <-List_filter_filter.
  apply List_filter_ext. by intros [i f] _.
Qed.

Lemma wins_app same l k i f :
  wins same (l ++ k) i f =
  wins same l i f &&
  forallb (λ '(j, g), negb (same g) || (tx_count g <? tx_count f)
             || ((tx_count g =? tx_count f) && (i <=? length l + j)%nat)) (enumerate k).
Proof.
  unfold wins. rewrite enumerate_app, forallb_app. f_equal.
  generalize (enumerate k). intros r. induction r as [|[j g] r IH]; [done|]. cbn. by rewrite IH.
Qed.

Lemma forallb_true {A} (p : A → bool) l : (∀ x, x ∈ l → p x = true) → forallb p l = true.
Proof. intros H. by apply forallb_elem. Qed.

Lemma snd_enumerate {A} (l : list A) : (enumerate l).*2 = l.
Proof. unfold enumerate. rewrite fmap_imap. cbn. induction l; [done|]. cbn. by f_equal. Qed.

Lemma wins_below same log i f :
  (∀ g, g ∈ log → tx_count g < tx_count f) → wins same log i f = true.
Proof.
  intros H. apply forallb_true. intros [j g] I. apply elem_of_enumerate, list_elem_of_lookup_2, H in I.
  rewrite (proj2 (Z.ltb_lt _ _)) by lia. by rewrite orb_true_r.
Qed.

Lemma forallb_ext {A} (p q : A → bool) l :
  (∀ x, x ∈ l → p x = q x) → forallb p l = forallb q l.
Proof.
  induction l as [|x l IH]; intros E; [done|]. cbn. rewrite (E x) by set_solver.
  rewrite IH; [done|]. intros; apply E; set_solver.
Qed.

Lemma survives_shuffle (a b c n w : bool) : a && b && (c && n) && w = n && (a && b && c && w).
Proof. by destruct a, b, c, n, w. Qed.
Lemma survives_shuffle_win (a b c n w : bool) : a && b && c && (w && n) = n && (a && b && c && w).
Proof. by destruct a, b, c, n, w. Qed.

(** Appending retractions newer than the log removes what they cancel. *)
Lemma net_append_retractions log rs t :
  (∀ g, g ∈ log → 0 ≤ tx_count g ≤ t) → 0 ≤ t →
  (∀ r, r ∈ rs → asserted r = false ∧ tx_count r = t) →
  net_asserted_facts (log ++ rs) =
  List.filter (λ f, negb (existsb (λ r, cancels r f) rs)) (net_asserted_facts log).
Proof.
  intros Hl Ht Hr. rewrite !net_asserted_facts_select.
  2: { intros g Hg. apply Hl in Hg. lia. }
  2: { intros g [Hg|Hg]%elem_of_app; [apply Hl in Hg|apply Hr in Hg]; lia. }
  rewrite select_app, (select_none _ rs), app_nil_r.
  2: { intros i f L. apply list_elem_of_lookup_2, Hr in L as [A _]. unfold survives. by rewrite A. }
  rewrite <-select_filter. apply select_ext. intros i f L.
  apply list_elem_of_lookup_2 in L. apply Hl in L.
  unfold survives. rewrite forallb_app, wins_app.
  rewrite (forallb_true _ (enumerate rs)), andb_true_r.
  2: { intros [j g] I. apply elem_of_enumerate, list_elem_of_lookup_2, Hr in I as [A _].
       unfold same_window. by rewrite A. }
  assert (forallb (λ g, negb (cancels g f) || (tx_count g <? tx_count f)) rs
          = negb (existsb (λ r, cancels r f) rs)) as ->.
  { clear -Hr L. induction rs as [|r rs IH]; [done|]. cbn.
    destruct (Hr r ltac:(set_solver)) as [_ E]. rewrite IH by set_solver.
    rewrite (proj2 (Z.ltb_ge (tx_count r) (tx_count f))) by lia. by destruct (cancels r f). }
  apply survives_shuffle.
Qed.

(** Appending assertions newer than the log: each window they name shows its
    first new row instead of the old one. *)
Lemma net_append_assertions log asr t :
  (∀ g, g ∈ log → 0 ≤ tx_count g < t) →
  (∀ a, a ∈ asr → asserted a = true ∧ tx_count a = t) → 0 < t →
  net_asserted_facts (log ++ asr) =
  List.filter (λ f, negb (existsb (λ a, bool_decide (window_key a = window_key f)) asr))
    (net_asserted_facts log)
  ++ select (λ i f, wins (same_window f) asr i f) asr.
Proof.
  intros Hl Ha Ht. rewrite !net_asserted_facts_select.
  2: { intros g Hg. apply Hl in Hg. lia. }
  2: { intros g [Hg|Hg]%elem_of_app; [apply Hl in Hg|apply Ha in Hg]; lia. }
  rewrite select_app. f_equal.
  - rewrite <-select_filter. apply select_ext. intros i f L.
    apply list_elem_of_lookup_2 in L. apply Hl in L. unfold survives. rewrite forallb_app, wins_app.
    rewrite (forallb_true _ asr), andb_true_r.
    2: { intros a A%Ha. unfold cancels. destruct A as [-> _]. done. }
    assert (forallb (λ '(j, g), negb (same_window f g) || (tx_count g <? tx_count f)
              || ((tx_count g =? tx_count f) && (i <=? length log + j)%nat)) (enumerate asr)
            = negb (existsb (λ a, bool_decide (window_key a = window_key f)) asr)) as ->.
    { rewrite <-(snd_enumerate asr) at 2.
      assert (∀ r, r ∈ (enumerate asr).*2 → t = tx_count r ∧ asserted r = true) as Hr.
      { rewrite snd_enumerate. intros r R%Ha. naive_solver. }
      induction (enumerate asr) as [|[j a] r IH]; [done|]. cbn.
      destruct (Hr a ltac:(set_solver)) as [<- A]. rewrite IH by set_solver.
      unfold same_window. rewrite A, (proj2 (Z.ltb_ge t _)), (proj2 (Z.eqb_neq t _)) by lia.
      by destruct (bool_decide _). }
    apply survives_shuffle_win.
  - apply select_ext. intros i f L. pose proof (list_elem_of_lookup_2 _ _ _ L) as [A E]%Ha.
    unfold survives. rewrite A, E, wins_app. rewrite (proj2 (Z.ltb_lt 0 t)) by lia.
    rewrite (forallb_true _ (log ++ asr)).
    2: { intros g [G|G]%elem_of_app; [apply Hl in G|apply Ha in G as [G _]].
         - rewrite (proj2 (Z.ltb_lt _ _)) by lia. apply orb_true_r.
         - unfold cancels. by rewrite G. }
    rewrite (wins_below _ log).
    2: { intros g G%Hl. lia. }
    cbn. unfold wins. apply forallb_ext. intros [j g] _.
    assert ((length log + i <=? length log + j)%nat = (i <=? j)%nat) as ->; [|done].
    apply iff_bool_eq. rewrite !Nat.leb_le. lia.
Qed.

(** * Store invariant and operations *)

(** The provided trait methods obey the laws. *)
Definition default_reader (resolve : FactRef → result Fact) (facts : list Fact) (pages : Z)
    : CommittedFactReader := {|
  rd_resolve := resolve;
  rd_stream_all := Ok facts;
  rd_for_each_fact S := @default_for_each_fact (Ok facts) S;
  rd_for_each_fact_since S := @default_for_each_fact_since (@default_for_each_fact (Ok facts)) S;
  rd_committed_page_count := pages |}.

Lemma foldR_guard {A S} (p : A → bool) (visit : S → A → result S) s l :
  foldR (λ s x, if p x then visit s x else Ok s) s l = foldR visit s (List.filter p l).
Proof.
  revert s; induction l as [|x l IH]; intros s; [done|]. cbn.
  destruct (p x); cbn; [|apply IH]. destruct (visit s x); cbn; [apply IH|done].
Qed.

#[export] Instance default_reader_serves resolve facts pages :
  ServesFacts (default_reader resolve facts pages) facts.
Proof. split; [done..|]. intros S n visit s. apply foldR_guard. Qed.

Definition committed_log (s : FactStorage) (facts : list Fact) : Prop :=
  match committed s with Some rd => ServesFacts rd facts | None => facts = [] end.

Definition tx_sorted (log : list Fact) : Prop :=
  StronglySorted (λ f g, tx_count f ≤ tx_count g) log.

Section store_theorems.
Context (hasher : EavtKey → Z).

(** The ledger of a store is [log]; counters never run ahead of [tx_counter]
    and never decrease along the ledger. *)
Record store_ok (s : FactStorage) (log : list Fact) : Prop := {
  so_overlay : overlay_ok hasher (pending s);
  so_log : ∃ facts, committed_log s facts ∧ log = facts ++ overlay_facts (pending s);
  so_counts : ∀ f, f ∈ log → 0 ≤ tx_count f ≤ tx_counter s;
  so_counter : 0 ≤ tx_counter s;
  so_sorted : tx_sorted log;
}.

Lemma accepted_all seen facts : accepted false seen facts = facts.
Proof using.
  revert seen; induction facts as [|f facts IH]; intros seen; [done|]. cbn.
  rewrite andb_false_r. by rewrite IH.
Qed.

Definition fits (s : FactStorage) (n : nat) : Prop :=
  Z.of_nat (length (records (pending s)) + n) ≤ 2 ^ 32.

Lemma tx_sorted_app log new t :
  tx_sorted log → (∀ f, f ∈ log → tx_count f ≤ t) → (∀ f, f ∈ new → tx_count f = t) →
  tx_sorted (log ++ new).
Proof using.
  intros S B E. apply StronglySorted_app_2; [|done|].
  - intros f g F G. rewrite (E g G). by apply B.
  - clear B S. induction new as [|f new IH]; [constructor|]. constructor; [apply IH; set_solver|].
    apply Forall_forall. intros g G. rewrite !E; [done|set_solver..].
Qed.

Lemma append_batch_spec s log facts t :
  store_ok s log → fits s (length facts) →
  (∀ f, f ∈ log → tx_count f ≤ t) → (∀ f, f ∈ facts → tx_count f = t) → 0 ≤ t ≤ tx_counter s →
  ∃ s', append_batch hasher s facts = (s', Ok ()) ∧ store_ok s' (log ++ facts) ∧
        tx_counter s' = tx_counter s.
Proof using.
  intros [O (cf & C & ->) B P S] F Old New T. unfold append_batch.
  destruct (insert_batch_grows hasher (pending s) facts false O F) as (p & E & R & O').
  rewrite accepted_all in E, R. rewrite E. eexists. split; [done|]. split; [|done].
  assert (overlay_facts p = overlay_facts (pending s) ++ facts) as Fp.
  { unfold overlay_facts. rewrite R, fmap_app. f_equal. rewrite <-list_fmap_compose.
    rewrite (list_fmap_ext _ id); [apply list_fmap_id|]. intros; apply record_of_to_fact. }
  split; cbn [pending tx_counter bump_generation with_pending]; [done| | |done|].
  - exists cf. split; [exact C|]. by rewrite Fp, app_assoc.
  - intros f [Hf|Hf]%elem_of_app; [by apply B|]. rewrite (New f Hf). done.
  - by apply (tx_sorted_app _ _ t).
Qed.

Lemma allocate_spec s log :
  store_ok s log → tx_counter s < u64_MAX →
  store_ok (allocate_tx_count s).1 log ∧ (allocate_tx_count s).2 = tx_counter s + 1 ∧
  tx_counter (allocate_tx_count s).1 = tx_counter s + 1 ∧
  pending (allocate_tx_count s).1 = pending s.
Proof using.
  intros [O L B P S] M. unfold allocate_tx_count, sat_add_u64; cbn.
  assert ((tx_counter s + 1) mod 2 ^ 64 = tx_counter s + 1) as Em by (rewrite Z.mod_small; ilia).
  rewrite Em. split_and!; [|ilia|done|done]. split; cbn; [done|done| |lia|done].
  intros f Hf. apply B in Hf. lia.
Qed.

(** A write stamps its batch with the next counter and appends it. *)
Lemma write_spec s log (mk : Z → list Fact) :
  store_ok s log → tx_counter s < u64_MAX →
  let count := tx_counter s + 1 in
  fits s (length (mk count)) → (∀ f, f ∈ mk count → tx_count f = count) →
  ∃ s', append_batch hasher (allocate_tx_count s).1 (mk (allocate_tx_count s).2) = (s', Ok ()) ∧
    store_ok s' (log ++ mk count) ∧ tx_counter s' = count.
Proof using.
  intros Ok M count F E. destruct (allocate_spec s log Ok M) as (Ok' & -> & C & P).
  destruct (append_batch_spec (allocate_tx_count s).1 log (mk count) count) as (s' & Es & Os & Cs).
  - done.
  - unfold fits. by rewrite P.
  - intros f Hf. apply (so_counts _ _ Ok) in Hf. lia.
  - done.
  - rewrite C. pose proof (so_counter _ _ Ok). lia.
  - exists s'. split; [exact Es|]. split; [done|]. by rewrite Cs, C.
Qed.

Lemma assertion_of_spec tx count opts t :
  asserted (assertion_of tx count opts t) = true ∧ tx_count (assertion_of tx count opts t) = count.
Proof using. by destruct t as [[e a] v]. Qed.
Lemma retraction_of_spec tx count d t :
  asserted (retraction_of tx count d t) = false ∧ tx_count (retraction_of tx count d t) = count.
Proof using. by destruct t as [[[e a] v] [o|]], d. Qed.

(** C7: a [transact_batch] succeeds with the next counter, appends one assertion
    per tuple, and the current view becomes: the old view without the windows
    the batch names, then the first assertion of the batch for each window. *)
Theorem transact_batch_view now s log tuples d :
  store_ok s log → tx_counter s < u64_MAX → fits s (length tuples) →
  let count := tx_counter s + 1 in
  let new := (λ '(t, o), assertion_of now count (default (default default_opts d) o) t) <$> tuples in
  ∃ s', transact_batch hasher now s tuples d = (s', Ok (now, count)) ∧
    store_ok s' (log ++ new) ∧
    net_asserted_facts (log ++ new) =
      List.filter (λ f, negb (existsb (λ a, bool_decide (window_key a = window_key f)) new))
        (net_asserted_facts log)
      ++ select (λ i f, wins (same_window f) new i f) new.
Proof using.
  intros Ok M F count new.
  assert (∀ f, f ∈ new → asserted f = true ∧ tx_count f = count) as Hn.
  { intros f ([t o] & -> & _)%list_elem_of_fmap. apply assertion_of_spec. }
  destruct (write_spec s log (λ c, (λ '(t, o), assertion_of now c (default (default default_opts d) o) t)
    <$> tuples) Ok M) as (s' & E & Ok' & C).
  { by rewrite length_fmap. }
  { intros f Hf. by apply Hn. }
  exists s'. split_and!; [|done|].
  - unfold transact_batch. destruct (allocate_spec s log Ok M) as (_ & A & _ & _).
    destruct (allocate_tx_count s) as [s0 c0]. cbn in *. rewrite E. by rewrite A.
  - apply (net_append_assertions log new count); [|done|].
    + intros g Hg. apply (so_counts _ _ Ok) in Hg. lia.
    + pose proof (so_counter _ _ Ok). lia.
Qed.

(** C32: a [retract_batch] succeeds with the next counter, appends one retraction
    per tuple, and the current view loses exactly the facts these retractions
    cancel: every window of the value without valid-time options, the named
    window with them. *)
Theorem retract_batch_view now s log tuples d :
  store_ok s log → tx_counter s < u64_MAX → fits s (length tuples) →
  let count := tx_counter s + 1 in
  let new := retraction_of now count d <$> tuples in
  ∃ s', retract_batch hasher now s tuples d = (s', Ok (now, count)) ∧
    store_ok s' (log ++ new) ∧
    net_asserted_facts (log ++ new) =
      List.filter (λ f, negb (existsb (λ r, cancels r f) new)) (net_asserted_facts log).
Proof using.
  intros Ok M F count new.
  assert (∀ f, f ∈ new → asserted f = false ∧ tx_count f = count) as Hn.
  { intros f (t & -> & _)%list_elem_of_fmap. apply retraction_of_spec. }
  destruct (write_spec s log (λ c, retraction_of now c d <$> tuples) Ok M) as (s' & E & Ok' & C).
  { by rewrite length_fmap. }
  { intros f Hf. by apply Hn. }
  exists s'. split_and!; [|done|].
  - unfold retract_batch. destruct (allocate_spec s log Ok M) as (_ & A & _ & _).
    destruct (allocate_tx_count s) as [s0 c0]. cbn in *. rewrite E. by rewrite A.
  - apply (net_append_retractions log new count); [| |done].
    + intros g Hg. apply (so_counts _ _ Ok) in Hg. lia.
    + pose proof (so_counter _ _ Ok). lia.
Qed.

(** ** Reads of the whole ledger *)

Lemma for_each_fact_fold s log {S} (visit : S → Fact → result S) x :
  store_ok s log → for_each_fact s visit x = foldR visit x log.
Proof using.
  intros [_ (cf & C & ->) _ _ _]. unfold for_each_fact, committed_log in *.
  rewrite foldR_app. destruct (committed s) as [rd|]; [by rewrite serves_each|by subst].
Qed.

Lemma for_each_since_fold s log n {S} (visit : S → Fact → result S) x :
  store_ok s log → for_each_fact_since s n visit x = foldR visit x (List.filter (after_tx n) log).
Proof using.
  intros Ok. destruct Ok as [_ (cf & C & ->) _ _ _].
  unfold for_each_fact_since, committed_log in *. rewrite List.filter_app, foldR_app.
  assert (∀ y, foldR (λ x r, if n <? PendingFactRecord.tx_count r
      then visit x (PendingFactRecord.to_fact r) else Ok x) y (records (pending s))
    = foldR visit y (List.filter (after_tx n) (overlay_facts (pending s)))) as Ep.
  { intros y. unfold overlay_facts. rewrite List_filter_fmap, foldR_fmap. symmetry.
    symmetry. refine (foldR_guard (λ r, n <? PendingFactRecord.tx_count r)
      (λ x r, visit x (PendingFactRecord.to_fact r)) y _). }
  destruct (committed s) as [rd|]; [rewrite serves_since|subst; cbn; apply Ep].
  destruct (foldR _ _ _); cbn; [apply Ep|done].
Qed.

Lemma push_all max_facts facts acc :
  Z.of_nat (length acc) ≤ max_facts →
  foldR (push_bounded_query_fact max_facts) acc facts =
  if Z.of_nat (length acc + length facts) <=? max_facts then Ok (acc ++ facts)
  else Err "query source work exceeds max-results; incomplete result rejected".
Proof using.
  revert acc; induction facts as [|f facts IH]; intros acc B; cbn [foldR length].
  - rewrite Nat.add_0_r, app_nil_r. by rewrite (proj2 (Z.leb_le _ _)).
  - destruct (push_bounded_query_fact max_facts acc f) eqn:E; unfold push_bounded_query_fact in E;
      destruct (Z.leb_spec max_facts (Z.of_nat (length acc))); try discriminate E.
    2: { injection E as <-.
         by rewrite (proj2 (Z.leb_gt (Z.of_nat (length acc + S (length facts))) max_facts)) by lia. }
    injection E as <-.
    cbn [mbind result_bind]. rewrite IH by (rewrite length_app; cbn; lia).
    rewrite length_app, <-app_assoc. cbn [length app]. by rewrite <-Nat.add_assoc.
Qed.

(** The ways to read the ledger agree: [get_all_facts] returns it,
    [for_each_fact] visits it in order (stopping at the first error of the
    visitor), [for_each_fact_since] visits exactly its later part, and
    [get_all_facts_bounded] returns all of it or fails, never a truncated part;
    the since-tail is a suffix of the ledger. *)
Theorem ledger_reads s log :
  store_ok s log →
  get_all_facts s = Ok log ∧
  (∀ S (visit : S → Fact → result S) x, for_each_fact s visit x = foldR visit x log) ∧
  (∀ n S (visit : S → Fact → result S) x,
     for_each_fact_since s n visit x = foldR visit x (List.filter (after_tx n) log)) ∧
  (∀ n, ∃ old, log = old ++ List.filter (after_tx n) log) ∧
  (∀ mx, 0 ≤ mx → get_all_facts_bounded s mx =
     if Z.of_nat (length log) <=? mx then Ok log
     else Err "query source work exceeds max-results; incomplete result rejected").
Proof using.
  intros Ok. split_and!.
  - destruct Ok as [_ (cf & C & ->) _ _ _]. unfold get_all_facts, committed_log in *.
    destruct (committed s) as [rd|]; [by rewrite (serves_all (facts := cf))|by subst].
  - intros. by apply for_each_fact_fold.
  - intros. by apply for_each_since_fold.
  - intros n. pose proof (so_sorted _ _ Ok) as S. clear Ok. induction S as [|f log S [old IH] F].
    + by exists [].
    + cbn. unfold after_tx at 1. destruct (Z.ltb_spec n (tx_count f)).
      * exists []. cbn. f_equal. rewrite List_filter_id; [done|]. intros g G.
        rewrite Forall_forall in F. apply F in G. apply Z.ltb_lt. lia.
      * exists (f :: old). cbn. by f_equal.
  - intros mx Hm. unfold get_all_facts_bounded. rewrite (for_each_fact_fold _ _ _ _ Ok).
    by rewrite push_all by (cbn; lia).
Qed.

(** ** Reachable stores *)

(** One operation of a handle: writes within the capacity of the overlay and
    the counter, counter allocations, and publications of a reader that serves
    the whole ledger, new or extended in place. *)
Inductive store_step (s : FactStorage) : FactStorage → Prop :=
| StepTransact now tuples opts s' r :
    fits s (length tuples) → tx_counter s < u64_MAX →
    transact hasher now s tuples opts = (s', r) → store_step s s'
| StepTransactBatch now tuples d s' r :
    fits s (length tuples) → tx_counter s < u64_MAX →
    transact_batch hasher now s tuples d = (s', r) → store_step s s'
| StepRetractBatch now tuples d s' r :
    fits s (length tuples) → tx_counter s < u64_MAX →
    retract_batch hasher now s tuples d = (s', r) → store_step s s'
| StepAllocate :
    tx_counter s < u64_MAX → store_step s (allocate_tx_count s).1
| StepPublish rd ix log :
    get_all_facts s = Ok log → ServesFacts rd log →
    store_step s (publish_committed_readers s rd ix)
| StepExtend rd extend extend_index log :
    get_all_facts s = Ok log → extend (committed s) = Some rd → ServesFacts rd log →
    store_step s (publish_incremental_committed s extend extend_index)
| StepRetire :
    records (pending s) = [] → store_step s (post_checkpoint_clear s).

(** The operations of loading, migration, replay and rule evaluation: single
    facts, the counter set to the pending maximum or to a given value, and
    readers that serve the ledger and any facts after it. *)
Inductive load_step (s : FactStorage) : FactStorage → Prop :=
| LoadFact fact s' r :
    fits s 1 → load_fact hasher s fact = (s', r) → load_step s s'
| LoadRestore : load_step s (restore_tx_counter s)
| LoadRestoreFrom max : load_step s (restore_tx_counter_from s max)
| LoadReader rd log more :
    records (pending s) = [] → get_all_facts s = Ok log → ServesFacts rd (log ++ more) →
    load_step s (set_committed_reader s rd)
| LoadPublish rd ix log more :
    get_all_facts s = Ok log → ServesFacts rd (log ++ more) →
    load_step s (publish_committed_readers s rd ix)
| LoadExtend rd extend extend_index log more :
    get_all_facts s = Ok log → extend (committed s) = Some rd → ServesFacts rd (log ++ more) →
    load_step s (publish_incremental_committed s extend extend_index).

(** Any writer but [clear]; and any writer. *)
Definition growing_step (s s' : FactStorage) : Prop := store_step s s' ∨ load_step s s'.
Definition any_step (s s' : FactStorage) : Prop := growing_step s s' ∨ s' = storage_clear s.

(** The part of [store_ok] that says nothing of counts. *)
Definition holds_ledger (s : FactStorage) (log : list Fact) : Prop :=
  overlay_ok hasher (pending s) ∧ ∃ facts, committed_log s facts ∧ log = facts ++ overlay_facts (pending s).

Lemma get_all_facts_ok s log : store_ok s log → get_all_facts s = Ok log.
Proof using.
  intros [_ (cf & C & ->) _ _ _]. unfold get_all_facts, committed_log in *.
  destruct (committed s) as [rd|]; [by rewrite (serves_all (facts := cf))|by subst].
Qed.

Lemma store_step_ok s s' log :
  store_ok s log → store_step s s' →
  (∃ new, store_ok s' (log ++ new) ∧ ∀ f, f ∈ new → tx_counter s < tx_count f) ∧
  tx_counter s ≤ tx_counter s'.
Proof using.
  intros Ok St. destruct St as [now ts o s' r F M E|now ts d s' r F M E|now ts d s' r F M E|M|rd ix lg E Sv|rd x xi lg E X Sv|Em].
  - destruct (write_spec s log (λ c, assertion_of now c (default default_opts o) <$> ts) Ok M)
      as (s1 & E1 & Ok1 & C1).
    { by rewrite length_fmap. }
    { intros f (t & -> & _)%list_elem_of_fmap. apply assertion_of_spec. }
    unfold transact in E. destruct (allocate_tx_count s) as [s0 c0]. cbn in *.
    rewrite E1 in E. injection E as <- _. split; [|lia]. eexists. split; [exact Ok1|].
    intros f (t & -> & _)%list_elem_of_fmap. rewrite (proj2 (assertion_of_spec _ _ _ _)). lia.
  - destruct (write_spec s log (λ c, (λ '(t, o), assertion_of now c (default (default default_opts d) o) t)
      <$> ts) Ok M) as (s1 & E1 & Ok1 & C1).
    { by rewrite length_fmap. }
    { intros f ([t o] & -> & _)%list_elem_of_fmap. apply assertion_of_spec. }
    unfold transact_batch in E. destruct (allocate_tx_count s) as [s0 c0]. cbn in *.
    rewrite E1 in E. injection E as <- _. split; [|lia]. eexists. split; [exact Ok1|].
    intros f ([t o] & -> & _)%list_elem_of_fmap. rewrite (proj2 (assertion_of_spec _ _ _ _)). lia.
  - destruct (write_spec s log (λ c, retraction_of now c d <$> ts) Ok M) as (s1 & E1 & Ok1 & C1).
    { by rewrite length_fmap. }
    { intros f (t & -> & _)%list_elem_of_fmap. apply retraction_of_spec. }
    unfold retract_batch in E. destruct (allocate_tx_count s) as [s0 c0]. cbn in *.
    rewrite E1 in E. injection E as <- _. split; [|lia]. eexists. split; [exact Ok1|].
    intros f (t & -> & _)%list_elem_of_fmap. rewrite (proj2 (retraction_of_spec _ _ _ _)). lia.
  - destruct (allocate_spec s log Ok M) as (Ok' & _ & C & _). split; [|lia].
    exists []. rewrite app_nil_r. split; [done|]. set_solver.
  - rewrite (get_all_facts_ok _ _ Ok) in E. injection E as <-. split; [|done]. exists [].
    rewrite app_nil_r. split; [|set_solver]. destruct Ok as [_ _ B P S].
    split; cbn; [apply overlay_clear_ok| |done|done|done].
    exists log. split; [exact Sv|]. by rewrite app_nil_r.
  - rewrite (get_all_facts_ok _ _ Ok) in E. injection E as <-. split; [|done]. exists [].
    rewrite app_nil_r. split; [|set_solver]. destruct Ok as [_ _ B P S].
    split; cbn; [apply overlay_clear_ok| |done|done|done].
    exists log. unfold committed_log. cbn. rewrite X. split; [exact Sv|]. by rewrite app_nil_r.
  - split; [|done]. exists []. rewrite app_nil_r. split; [|set_solver]. destruct Ok as [_ (cf & C & L) B P S].
    split; cbn; [apply overlay_clear_ok| |done|done|done].
    exists cf. split; [exact C|]. rewrite L. unfold overlay_facts. by rewrite Em.
Qed.

Lemma storage_new_ok : store_ok storage_new [].
Proof using.
  split; cbn; [apply overlay_new_ok|by exists []|set_solver|done|constructor].
Qed.

Lemma steps_ok s s' log : store_ok s log → rtc store_step s s' →
  ∃ new, store_ok s' (log ++ new) ∧ (∀ f, f ∈ new → tx_counter s < tx_count f) ∧ tx_counter s ≤ tx_counter s'.
Proof using.
  intros Ok R. revert log Ok. induction R as [s|a b c St R IH]; intros log Ok.
  - exists []. rewrite app_nil_r. split_and!; [done|set_solver|done].
  - destruct (store_step_ok _ _ _ Ok St) as ((n & Okb & Fb) & Cb).
    destruct (IH _ Okb) as (n' & Okc & Fc & Cc). exists (n ++ n'). rewrite app_assoc.
    split_and!; [done| |lia]. intros f [Hf|Hf]%elem_of_app; [by apply Fb|]. apply Fc in Hf. lia.
Qed.

(** *** The ledger under every writer *)

Lemma holds_ledger_facts s log : holds_ledger s log → get_all_facts s = Ok log.
Proof using.
  intros [_ (cf & C & ->)]. unfold get_all_facts, committed_log in *.
  destruct (committed s) as [rd|]; [by rewrite (serves_all (facts := cf))|by subst].
Qed.
Lemma holds_ledger_grows s log p new reject facts :
  holds_ledger s log → records p = records (pending s) ++ (record_of <$> new) → overlay_ok hasher p →
  new = accepted reject (identities (pending s)) facts → ∀ s', committed s' = committed s → pending s' = p →
  holds_ledger s' (log ++ new).
Proof using.
  intros [O (cf & C & ->)] R O' _ s' Cs Ps. split; [by rewrite Ps|]. exists cf. unfold committed_log. rewrite Cs, Ps.
  split; [exact C|]. rewrite <-app_assoc. f_equal. unfold overlay_facts. rewrite R, fmap_app. f_equal.
  rewrite <-list_fmap_compose. rewrite (list_fmap_ext _ id); [by rewrite list_fmap_id|]. intros; apply record_of_to_fact.
Qed.
Lemma append_batch_ledger s log facts : holds_ledger s log → fits s (length facts) →
  ∃ s', append_batch hasher s facts = (s', Ok ()) ∧ holds_ledger s' (log ++ facts).
Proof using.
  intros H F. unfold append_batch.
  destruct (insert_batch_grows hasher (pending s) facts false (proj1 H) F) as (p & E & R & O').
  rewrite E. eexists. split; [done|]. rewrite accepted_all in R.
  eapply (holds_ledger_grows s log p facts false facts); try done. by rewrite accepted_all.
Qed.
(** [load_fact] appends its fact unless a pending fact has its identity. *)
Lemma load_fact_ledger s log f : holds_ledger s log → fits s 1 →
  ∃ s', load_fact hasher s f = (s', Ok (negb (bool_decide (eavt_key_of f ∈ identities (pending s))))) ∧
    holds_ledger s' (log ++ if bool_decide (eavt_key_of f ∈ identities (pending s)) then [] else [f]).
Proof using.
  intros H F. unfold load_fact.
  destruct (insert_batch_grows hasher (pending s) [f] true (proj1 H) F) as (p & E & R & O').
  assert (accepted true (identities (pending s)) [f] =
    if bool_decide (eavt_key_of f ∈ identities (pending s)) then [] else [f]) as A by (cbn; by case_bool_decide).
  rewrite A in E, R. rewrite E. cbn zeta. destruct (bool_decide _); eexists; (split; [reflexivity|]);
    by apply (holds_ledger_grows s log p _ true [f] H R O').
Qed.

Lemma publish_ledger s s' rd log : committed s' = Some rd → pending s' = overlay_clear (pending s) →
  ServesFacts rd log → holds_ledger s' log.
Proof using.
  intros C P Sv. split; [rewrite P; apply overlay_clear_ok|]. exists log. unfold committed_log. rewrite C, P.
  split; [exact Sv|]. by rewrite app_nil_r.
Qed.

Lemma store_step_ledger s s' log : holds_ledger s log → store_step s s' → ∃ new, holds_ledger s' (log ++ new).
Proof using.
  intros H St. assert (W : ∀ c (facts : list Fact), fits s (length facts) →
    ∃ s1, append_batch hasher (with_counter s c) facts = (s1, Ok ()) ∧ holds_ledger s1 (log ++ facts)).
  { intros c facts F. by apply append_batch_ledger. }
  destruct St as [now ts o s' r F M E|now ts d s' r F M E|now ts d s' r F M E|M|rd ix lg E Sv|rd x xi lg E X Sv|Em].
  1: unfold transact, allocate_tx_count in E. 2: unfold transact_batch, allocate_tx_count in E.
  3: unfold retract_batch, allocate_tx_count in E.
  1-3: match type of E with context [append_batch hasher (with_counter _ ?c) ?facts] =>
         destruct (W c facts ltac:(by rewrite length_fmap)) as (s1 & E1 & H1) end;
       rewrite E1 in E; injection E as <- _; by eexists.
  all: exists []; rewrite app_nil_r.
  - exact H.
  - rewrite (holds_ledger_facts _ _ H) in E. injection E as <-. by apply (publish_ledger s _ rd).
  - rewrite (holds_ledger_facts _ _ H) in E. injection E as <-. by apply (publish_ledger s _ rd).
  - destruct H as [O (cf & C & ->)]. split; [apply overlay_clear_ok|]. exists cf. split; [exact C|].
    unfold overlay_facts. by rewrite Em.
Qed.
Lemma load_step_ledger s s' log : holds_ledger s log → load_step s s' → ∃ new, holds_ledger s' (log ++ new).
Proof using.
  intros H St. destruct St as [f s' r F E| |m|rd lg more Em E Sv|rd ix lg more E Sv|rd x xi lg more E X Sv].
  - destruct (load_fact_ledger s log f H F) as (s1 & E1 & H1). rewrite E1 in E. injection E as <- _. by eexists.
  - exists []. by rewrite app_nil_r.
  - exists []. by rewrite app_nil_r.
  - rewrite (holds_ledger_facts _ _ H) in E. injection E as <-. exists more. split; [apply H|]. exists (log ++ more).
    split; [exact Sv|]. cbn. unfold overlay_facts. by rewrite Em, app_nil_r.
  - rewrite (holds_ledger_facts _ _ H) in E. injection E as <-. exists more. by apply (publish_ledger s _ rd).
  - rewrite (holds_ledger_facts _ _ H) in E. injection E as <-. exists more. by apply (publish_ledger s _ rd).
Qed.
Lemma growing_steps_ledger s s' log : holds_ledger s log → rtc growing_step s s' → ∃ new, holds_ledger s' (log ++ new).
Proof using.
  intros H R. revert log H. induction R as [s|a b c St R IH]; intros log H; [exists []; by rewrite app_nil_r|].
  assert (∃ n, holds_ledger b (log ++ n)) as [n Hb]
    by (destruct St; [by eapply store_step_ledger|by eapply load_step_ledger]).
  destruct (IH _ Hb) as [n' Hc]. exists (n ++ n'). by rewrite app_assoc.
Qed.
Lemma any_steps_ledger s s' : rtc any_step s s' → ∀ log, holds_ledger s log → ∃ log', holds_ledger s' log'.
Proof using.
  induction 1 as [s|a b c [St| ->] R IH]; intros log H; [by exists log| |].
  - destruct (growing_steps_ledger a b log H (rtc_once _ _ St)) as [n Hb]. by eapply IH.
  - apply (IH []). split; [apply overlay_clear_ok|]. by exists [].
Qed.

(** C2: in every store that any of the writers can lead to, [clear] and the
    loading operations included, the ledger is the facts of the committed reader
    followed by the pending ones, and is what [get_all_facts] returns; until a
    [clear] it only grows at its end, a loaded fact being left out when a pending
    fact has its identity.  Where moreover the counts are in order, as they are in
    a store reached without loading, writing, allocating and publishing keep them
    so: counts never decrease along the ledger, no count is above the counter, and
    the facts that are added have counts above everything issued before. *)
Theorem reachable_stores s : rtc any_step storage_new s →
  (∃ log, holds_ledger s log ∧ get_all_facts s = Ok log) ∧
  (∀ log s', holds_ledger s log → rtc growing_step s s' → ∃ new, holds_ledger s' (log ++ new)) ∧
  (∀ log f s' r, holds_ledger s log → fits s 1 → load_fact hasher s f = (s', r) →
     holds_ledger s' (log ++ if bool_decide (eavt_key_of f ∈ identities (pending s)) then [] else [f])) ∧
  (rtc store_step storage_new s → ∃ log, store_ok s log) ∧
  (∀ log s', store_ok s log → rtc store_step s s' →
     ∃ new, store_ok s' (log ++ new) ∧ (∀ f, f ∈ new → tx_counter s < tx_count f) ∧ tx_counter s ≤ tx_counter s').
Proof using.
  intros R. split_and!.
  - destruct (any_steps_ledger _ _ R []) as [log H]; [split; [apply overlay_new_ok|by exists []]|].
    exists log. split; [done|]. by apply holds_ledger_facts.
  - intros log s' H. by apply growing_steps_ledger.
  - intros log f s' r H F E. destruct (load_fact_ledger s log f H F) as (s1 & E1 & H1). rewrite E1 in E. by injection E as <- _.
  - intros R'. destruct (steps_ok _ _ _ storage_new_ok R') as (n & Ok & _). by exists n.
  - intros log s' Ok R'. by apply steps_ok.
Qed.
End store_theorems.

Definition sample_tuples : list (EntityId * Attribute * Value * option TransactOptions) :=
  [ (1, ":name"%string, VString "a", None); (1, ":age"%string, VInteger 3, None) ].
Definition sample_store : FactStorage :=
  (transact_batch const_hasher 1000 storage_new sample_tuples None).1.

Lemma sample_step : store_step const_hasher storage_new sample_store.
Proof. eapply (StepTransactBatch _ _ 1000 sample_tuples None); by vm_compute. Qed.
Definition sample_log : list Fact :=
  [ mkFact 1 ":name" (VString "a") 1000 1 1000 VALID_TIME_FOREVER true;
    mkFact 1 ":age" (VInteger 3) 1000 1 1000 VALID_TIME_FOREVER true ].
Lemma sample_store_ok : store_ok const_hasher sample_store sample_log.
Proof.
  destruct (store_step_ok const_hasher _ _ _ (storage_new_ok _) sample_step) as ((n & Ok & _) & _).
  assert (sample_log = n) as ->; [|exact Ok].
  pose proof (get_all_facts_ok _ _ _ Ok) as E. vm_compute in E. by injection E.
Qed.

Lemma transact_batch_view_witness :
  ∃ s', transact_batch const_hasher 1000 storage_new sample_tuples None = (s', Ok (1000, 1)) ∧
    net_asserted_facts sample_log = sample_log.
Proof.
  destruct (transact_batch_view const_hasher 1000 storage_new [] sample_tuples None
    (storage_new_ok _) ltac:(done) ltac:(vm_compute; discriminate)) as (s' & E & _ & V).
  exists s'. split; [exact E|]. by vm_compute.
Defined.

Lemma retract_batch_view_witness :
  ∃ s', retract_batch const_hasher 2000 sample_store [(1, ":name"%string, VString "a", None)] None
          = (s', Ok (2000, 2)) ∧
    net_asserted_facts
      (sample_log ++ [retraction_of 2000 2 None (1, ":name"%string, VString "a", None)])
    = drop 1 sample_log.
Proof.
  destruct (retract_batch_view const_hasher 2000 sample_store sample_log
    [(1, ":name"%string, VString "a", None)] None sample_store_ok ltac:(done)
    ltac:(vm_compute; discriminate)) as (s' & E & _ & V).
  exists s'. split; [exact E|]. etrans; [exact V|]. by vm_compute.
Defined.

Lemma ledger_reads_witness :
  get_all_facts sample_store = Ok sample_log ∧
  get_all_facts_bounded sample_store 1 =
    Err "query source work exceeds max-results; incomplete result rejected".
Proof.
  split; [apply (ledger_reads const_hasher _ _ sample_store_ok)|].
  rewrite (proj2 (proj2 (proj2 (proj2 (ledger_reads const_hasher _ _ sample_store_ok)))) 1) by done.
  by vm_compute.
Defined.

Lemma reachable_stores_witness :
  rtc (any_step const_hasher) storage_new sample_store ∧
  ∃ log, holds_ledger const_hasher sample_store log ∧ get_all_facts sample_store = Ok log.
Proof.
  assert (R : rtc (any_step const_hasher) storage_new sample_store) by (apply rtc_once; left; left; apply sample_step).
  split; [exact R|]. exact (proj1 (reachable_stores const_hasher sample_store R)).
Defined.

(** Loading keeps no order of counts: rule evaluation loads its derived facts
    with count 0 after the facts of the view. *)
Example loaded_out_of_order :
  tx_count <$> overlay_facts (pending (load_fact const_hasher sample_store (fact_new 2 ":name" (VString "b") 0)).1)
  = [1; 1; 0].
Proof. by vm_compute. Qed.
