(* ===== verification/Lookup.v ===== *)
(** Index-driven lookups of the fact store (src/src/graph/storage.rs):
    [next_string_prefix], [resolve_fact_ref], [get_facts_by_entity] and
    [get_facts_by_attribute] with their bounded variants, [facts_for_triple].

    [ServesIndex] states what the committed index reader promises: its scans
    return the references of the committed rows in key order.  The theorems
    say exactly which facts each lookup returns. *)
From S2P Require Import Prelude Types ValueCodec NetView SortedRuns Index PendingOverlay FactStore.

(** * Definitions *)

(** [next_string_prefix]: increment the last byte below 0xFF, drop what follows;
    [None] when there is none or the bytes are not UTF-8. *)
Definition increment_last (bs : bytes) : option bytes :=
  let fix go (rev_bytes : bytes) : option bytes :=
    match rev_bytes with
    | [] => None
    | b :: rest =>
        if b2z b <? 0xFF then Some (rev (z2b (b2z b + 1) :: rest)) else go rest
    end in
  go (rev bs).
Definition next_string_prefix (s : string) : option string :=
  bs ← increment_last (as_bytes s);
  match from_utf8 bs with Ok t => Some t | Err _ => None end.

Definition resolve_fact_ref (s : FactStorage) (fr : FactRef) : result Fact :=
  if page_id fr =? 0 then Err "pending facts must use PendingFactId, not on-disk FactRef"
  else match committed s with
       | Some loader => rd_resolve loader fr
       | None => Err "no CommittedFactReader but got committed FactRef"
       end.

#[export] Instance FactRef_ord : Ord FactRef := cmp_on (λ r, (page_id r, slot_index r)).
#[export] Instance FactRef_laws : OrdLaws FactRef.
Proof.
  assert (Inj (=) (=) (λ r, (page_id r, slot_index r))) by (intros [] []; naive_solver).
  exact (cmp_on_laws (λ r, (page_id r, slot_index r))).
Qed.
(** [sort_unstable] on references. *)
Definition sort_refs (refs : list FactRef) : list FactRef := merge_sort (@le_ord FactRef _) refs.

(** The keys below every entry of an entity, and of an attribute. *)
Definition entity_low (e : EntityId) : EavtKey := mkEavt e "" i64_MIN i64_MIN 0 [] 0 false.
Definition attribute_low (a : Attribute) : AevtKey := mkAevt a 0 i64_MIN i64_MIN 0 [] 0 false.
(** [Uuid::from_u128(id.wrapping_add(1))]. *)
Definition next_entity (e : EntityId) : EntityId := (e + 1) mod 2 ^ 128.

Definition has_index_reader (s : FactStorage) : bool :=
  match committed_index_reader s with Some _ => true | None => false end.

Definition pending_fact (s : FactStorage) (id : nat) : result Fact :=
  r ← overlay_get (pending s) id; Ok (PendingFactRecord.to_fact r).

Definition get_facts_by_entity (s : FactStorage) (e : EntityId) : result (list Fact) :=
  let start := entity_low e in
  let stop := entity_low (next_entity e) in
  if overlay_is_empty (pending s) && negb (has_index_reader s) then
    let from_pending := List.filter (λ f, entity f =? e) (overlay_facts (pending s)) in
    match committed s with
    | None => Ok from_pending
    | Some loader =>
        all ← rd_stream_all loader;
        Ok (from_pending ++ List.filter (λ f, entity f =? e) all)
    end
  else
    facts ← mapR (pending_fact s) (range_eavt (pending s) start stop);
    match committed_index_reader s with
    | None => Ok facts
    | Some reader =>
        refs ← ix_range_scan_eavt reader start (Some stop);
        resolved ← mapR (resolve_fact_ref s) (sort_refs refs);
        Ok (facts ++ resolved)
    end.

(** The visitor of the bounded lookups: collect references, fail at the first
    one past the bound. *)
Definition collect_ref (max_facts : Z) (have : nat) {E} (refs : list FactRef) (entry : E * FactRef)
    : result (list FactRef * bool) :=
  if max_facts <=? Z.of_nat (have + length refs)
  then Err "query source work exceeds max-results; incomplete result rejected"
  else Ok (refs ++ [entry.2], true).

Definition get_facts_by_entity_bounded (s : FactStorage) (e : EntityId) (max_facts : Z)
    : result (list Fact) :=
  let start := entity_low e in
  let stop := entity_low (next_entity e) in
  facts ← foldR (λ facts id, f ← pending_fact s id; push_bounded_query_fact max_facts facts f)
            [] (range_eavt (pending s) start stop);
  match committed_index_reader s with
  | Some reader =>
      '(refs, _) ← ix_visit_eavt reader start (Some stop) (collect_ref max_facts (length facts)) [];
      foldR (λ facts fr, f ← resolve_fact_ref s fr; push_bounded_query_fact max_facts facts f)
        facts (sort_refs refs)
  | None =>
      match committed s with
      | Some reader =>
          rd_for_each_fact reader
            (λ facts f, if entity f =? e then push_bounded_query_fact max_facts facts f else Ok facts)
            facts
      | None => Ok facts
      end
  end.

Definition facts_for_triple (s : FactStorage) (e : EntityId) (a : Attribute) (v : Value)
    : result (list Fact) :=
  facts ← get_facts_by_entity s e;
  Ok (List.filter (λ f, bool_decide (attribute f = a) && bool_decide (encode_value (value f) = encode_value v))
        facts).

Definition get_facts_by_attribute (s : FactStorage) (a : Attribute) : result (list Fact) :=
  if overlay_is_empty (pending s) && negb (has_index_reader s) then
    all ← get_all_facts s;
    Ok (List.filter (λ f, bool_decide (attribute f = a)) all)
  else
    let start := attribute_low a in
    let stop := attribute_low <$> next_string_prefix a in
    facts ← mapR (pending_fact s) (range_aevt (pending s) start stop);
    match committed_index_reader s with
    | None => Ok facts
    | Some reader =>
        refs ← ix_range_scan_aevt reader start stop;
        resolved ← mapR (resolve_fact_ref s) (sort_refs refs);
        Ok (facts ++ List.filter (λ f, bool_decide (attribute f = a)) resolved)
    end.

Definition get_facts_by_attribute_bounded (s : FactStorage) (a : Attribute) (max_facts : Z)
    : result (list Fact) :=
  let start := attribute_low a in
  let stop := attribute_low <$> next_string_prefix a in
  facts ← foldR (λ facts id, f ← pending_fact s id; push_bounded_query_fact max_facts facts f)
            [] (range_aevt (pending s) start stop);
  match committed_index_reader s with
  | Some reader =>
      '(refs, _) ← ix_visit_aevt reader start stop (collect_ref max_facts (length facts)) [];
      foldR (λ facts fr, f ← resolve_fact_ref s fr;
               if bool_decide (attribute f = a) then push_bounded_query_fact max_facts facts f
               else Ok facts)
        facts (sort_refs refs)
  | None =>
      match committed s with
      | Some reader =>
          rd_for_each_fact reader
            (λ facts f, if bool_decide (attribute f = a)
                        then push_bounded_query_fact max_facts facts f else Ok facts)
            facts
      | None => Ok facts
      end
  end.

(** * The promise of the committed index *)

(** The entries of an ascending map in [start, stop). *)
Definition bt_from {K V} `{Ord K} (start : K) (stop : option K) (m : list (K * V)) : list (K * V) :=
  List.filter (λ '(k, _), negb (ltb_ord k start) &&
                          match stop with Some k' => ltb_ord k k' | None => true end) m.

(** A range whose start is not behind its stop.  For any other the reader may fail:
    [BTreeMap::range] panics. *)
Definition ordered_range {K} `{Ord K} (start : K) (stop : option K) : Prop :=
  match stop with Some k => le_ord start k | None => True end.

Lemma lt_ordered {K} `{Ord K} (k stop : K) : cmp k stop = Lt → ordered_range k (Some stop).
Proof. intros E. unfold ordered_range, le_ord. by rewrite E. Qed.

(** Visiting by attribute promises key order only within one attribute: the entries
    handed out do not carry it, and a layered reader merges by the rest. *)
Definition one_attribute (l : list (AevtKey * FactRef)) : Prop :=
  ∀ x y, x ∈ l → y ∈ l → ak_attribute x.1 = ak_attribute y.1.

Class ServesIndex (ix : CommittedIndexReader) (rows : list (Fact * FactRef)) : Prop := {
  scans_eavt start stop : ordered_range start stop →
    ix_range_scan_eavt ix start stop = Ok (snd <$> bt_from start stop (eavt (indexes_of rows)));
  visits_eavt S start stop (visit : S → _ → result (S * bool)) x : ordered_range start stop →
    ix_visit_eavt ix start stop visit x =
    visitR visit x (prod_map CurrentEavtEntryRef.from_owned id
                      <$> bt_from start stop (eavt (indexes_of rows)));
  scans_aevt start stop : ordered_range start stop →
    ix_range_scan_aevt ix start stop = Ok (snd <$> bt_from start stop (aevt (indexes_of rows)));
  visits_aevt start stop : ordered_range start stop → ∃ l, l ≡ₚ bt_from start stop (aevt (indexes_of rows)) ∧
    (one_attribute l → l = bt_from start stop (aevt (indexes_of rows))) ∧
    ∀ S (visit : S → _ → result (S * bool)) x,
      ix_visit_aevt ix start stop visit x = visitR visit x (prod_map CurrentAevtEntryRef.from_owned id <$> l);
  scans_vaet start stop : ordered_range start stop →
    ix_range_scan_vaet ix start stop = Ok (snd <$> bt_from start stop (vaet (indexes_of rows)));
  visits_vaet S start stop (visit : S → _ → result (S * bool)) x : ordered_range start stop →
    ix_visit_vaet ix start stop visit x =
    visitR visit x (prod_map CurrentVaetEntryRef.from_owned id
                      <$> bt_from start stop (vaet (indexes_of rows)));
}.

(** A reader over the in-memory indexes of located rows. *)
Definition index_reader_of (rows : list (Fact * FactRef)) : CommittedIndexReader := {|
  ix_range_scan_eavt start stop := Ok (snd <$> bt_from start stop (eavt (indexes_of rows)));
  ix_visit_eavt S start stop visit x :=
    visitR visit x (prod_map CurrentEavtEntryRef.from_owned id
                      <$> bt_from start stop (eavt (indexes_of rows)));
  ix_range_scan_aevt start stop := Ok (snd <$> bt_from start stop (aevt (indexes_of rows)));
  ix_visit_aevt S start stop visit x :=
    visitR visit x (prod_map CurrentAevtEntryRef.from_owned id
                      <$> bt_from start stop (aevt (indexes_of rows)));
  ix_range_scan_vaet start stop := Ok (snd <$> bt_from start stop (vaet (indexes_of rows)));
  ix_visit_vaet S start stop visit x :=
    visitR visit x (prod_map CurrentVaetEntryRef.from_owned id
                      <$> bt_from start stop (vaet (indexes_of rows)));
|}.
#[export] Instance index_reader_of_serves rows : ServesIndex (index_reader_of rows) rows.
Proof. split; try done. intros start stop _. by exists (bt_from start stop (aevt (indexes_of rows))). Qed.

(** The committed side of a store holds [rows]: both readers serve them and
    every reference resolves. *)
Record committed_rows (s : FactStorage) (rows : list (Fact * FactRef)) : Prop := {
  cr_facts : ∃ rd, committed s = Some rd ∧ ServesFacts rd rows.*1 ∧
               ∀ f r, (f, r) ∈ rows → page_id r ≠ 0 ∧ rd_resolve rd r = Ok f;
  cr_index : ∃ ix, committed_index_reader s = Some ix ∧ ServesIndex ix rows;
  cr_ok : Forall fact_ok rows.*1;
  cr_distinct : NoDup (eavt_key_of <$> rows.*1);
}.
(** The committed side is empty: an in-memory store. *)
Definition in_memory (s : FactStorage) : Prop := committed s = None ∧ committed_index_reader s = None.

(** * Bounds *)

(** UTF-8 text never contains the byte 0xFF. *)
Lemma utf8_cont_le b : utf8_cont b = true → b2z b < 0xFF.
Proof. unfold utf8_cont. lia. Qed.
Lemma utf8_second_le c b : utf8_second c b = true → b2z b < 0xFF.
Proof.
  unfold utf8_second. pose proof (utf8_cont_le b).
  repeat match goal with |- context [if ?x then _ else _] => destruct x end; lia || auto.
Qed.

Lemma utf8_no_FF_len n bs :
  (length bs ≤ n)%nat → utf8_valid bs = true → Forall (λ b, b2z b < 0xFF) bs.
Proof.
  revert bs; induction n as [|n IH]; intros [|b0 r0] L V; try (constructor; fail); [cbn in L; lia|].
  cbn [utf8_valid] in V. destruct (Z.ltb_spec (b2z b0) 0x80).
  { constructor; [lia|]. apply IH; [cbn in L; lia|done]. }
  destruct r0 as [|b1 r1]; [done|]. destruct ((0xC2 <=? b2z b0) && (b2z b0 <=? 0xDF)) eqn:E2.
  { apply andb_true_iff in V as [V1 V]. constructor; [lia|].
    constructor; [by apply utf8_cont_le|]. apply IH; [cbn in *; lia|done]. }
  destruct r1 as [|b2 r2]; [done|]. destruct ((0xE0 <=? b2z b0) && (b2z b0 <=? 0xEF)) eqn:E3.
  { apply andb_true_iff in V as [[V1 V2]%andb_true_iff V]. constructor; [lia|].
    constructor; [by eapply utf8_second_le|]. constructor; [by apply utf8_cont_le|].
    apply IH; [cbn in *; lia|done]. }
  destruct r2 as [|b3 r3]; [done|]. destruct ((0xF0 <=? b2z b0) && (b2z b0 <=? 0xF4)) eqn:E4; [|done].
  apply andb_true_iff in V as [[[V1 V2]%andb_true_iff V3]%andb_true_iff V]. constructor; [lia|].
  constructor; [by eapply utf8_second_le|]. constructor; [by apply utf8_cont_le|].
  constructor; [by apply utf8_cont_le|]. apply IH; [cbn in *; lia|done].
Qed.

Lemma increment_last_snoc p c :
  b2z c < 0xFF → increment_last (p ++ [c]) = Some (p ++ [z2b (b2z c + 1)]).
Proof.
  intros C. unfold increment_last. rewrite rev_app_distr. cbn.
  rewrite (proj2 (Z.ltb_lt _ _)) by done. by rewrite rev_involutive.
Qed.

(** Between a string and the string with its last byte incremented: exactly
    its extensions. *)
Lemma between_increment (p x : bytes) (c : Init.Byte.byte) :
  b2z c < 0xFF →
  le_ord (p ++ [c]) x ∧ cmp x (p ++ [z2b (b2z c + 1)]) = Lt ↔ p ++ [c] `prefix_of` x.
Proof.
  intros C. revert x. induction p as [|y p IH]; intros [|z x]; cbn [app].
  - split; [by intros [? _]|]. by intros [? ?%(f_equal length)].
  - unfold le_ord, cmp, list_ord. cbn. unfold cmp, byte_ord, cmp_on, cmp, Z_ord.
    rewrite b2z_z2b by (pose proof (b2z_range c); lia).
    destruct (Z.compare_spec (b2z c) (b2z z)) as [E|E|E]; cbn.
    + apply (inj byte.unsigned) in E as ->. rewrite (proj2 (Z.compare_lt_iff _ _)) by lia. cbn.
      split; [|by destruct x]. intros _. by exists x.
    + split; [|intros [? [= ->]]; lia]. intros [_ H].
      destruct (Z.compare_spec (b2z z) (b2z c + 1)); cbn in H; [by destruct x|lia|done].
    + split; [by intros [? _]|]. intros [? [= ->]]. lia.
  - split; [by intros [? _]|]. by intros [? ?%(f_equal length)].
  - specialize (IH x). unfold le_ord, cmp, list_ord in *. cbn. unfold cmp, byte_ord, cmp_on, cmp, Z_ord in *.
    destruct (Z.compare_spec (b2z y) (b2z z)) as [E|E|E]; cbn.
    + apply (inj byte.unsigned) in E as ->. rewrite Z.compare_refl. cbn. rewrite IH.
      split; [by apply prefix_cons|by apply prefix_cons_inv_2].
    + rewrite (proj2 (Z.compare_gt_iff (b2z z) (b2z y))) by lia. split; [by intros [_ ?]|].
      intros [? [= ->]]. lia.
    + split; [by intros [? _]|]. intros [? [= ->]]. lia.
Qed.

(** The attributes an AEVT range for [a] covers: those that extend [a], or all
    from [a] on when the upper bound cannot be formed. *)
Definition covered (a x : Attribute) : Prop :=
  match next_string_prefix a with
  | Some _ => as_bytes a `prefix_of` as_bytes x
  | None => le_ord a x
  end.
#[export] Instance covered_dec a x : Decision (covered a x).
Proof. unfold covered. destruct (next_string_prefix a); apply _. Defined.

Definition coveredb (a x : Attribute) : bool := bool_decide (covered a x).
Lemma coveredb_spec a x : coveredb a x = true ↔ covered a x.
Proof. apply bool_decide_eq_true. Qed.

Lemma covered_refl a : covered a a.
Proof. unfold covered. destruct (next_string_prefix a); [done|reflexivity]. Qed.

Lemma covered_range a x :
  utf8_valid (as_bytes a) = true →
  le_ord a x ∧ match next_string_prefix a with Some b => cmp x b = Lt | None => True end
  ↔ covered a x.
Proof.
  intros V. unfold covered, next_string_prefix.
  destruct (as_bytes a) as [|c p _] eqn:E using rev_ind; [cbn; tauto|].
  apply (utf8_no_FF_len _ _ (le_n _)) in V. apply Forall_app in V as [_ V].
  apply Forall_cons_1 in V as [V _]. rewrite increment_last_snoc by done. cbn.
  destruct (from_utf8 _) as [b|] eqn:U; [|tauto]. apply from_utf8_Ok in U as [U _].
  rewrite <-(between_increment p (as_bytes x) c V), <-E, <-U. done.
Qed.

Lemma low_bounds {A B} `{OrdLaws A, OrdLaws B} (a x : A) (lo y : B) :
  le_ord lo y →
  (le_ord (a, lo) (x, y) ↔ le_ord a x) ∧ (cmp (x, y) (a, lo) = Lt ↔ cmp x a = Lt).
Proof.
  unfold le_ord. intros L. rewrite !cmp_pair. split.
  - destruct (cmp a x); cbn; tauto || done.
  - destruct (cmp x a) eqn:E; cbn; [|done..]. rewrite (cmp_opp lo y).
    destruct (cmp lo y); cbn; done.
Qed.

Lemma eavt_low f e :
  fact_ok f →
  (le_ord (entity_low e) (eavt_key_of f) ↔ e ≤ entity f) ∧
  (cmp (eavt_key_of f) (entity_low e) = Lt ↔ entity f < e).
Proof.
  intros []. rewrite <-le_ord_Z, <-Z.compare_lt_iff. apply (low_bounds (A := Z)). key_bounds.
Qed.

Lemma aevt_low f a :
  fact_ok f →
  (le_ord (attribute_low a) (aevt_key_of f) ↔ le_ord a (attribute f)) ∧
  (cmp (aevt_key_of f) (attribute_low a) = Lt ↔ cmp (attribute f) a = Lt).
Proof. intros []. apply (low_bounds (A := string)). key_bounds. Qed.

(** Which facts the range of an entity, and of an attribute, selects. *)
Lemma entity_range f e :
  fact_ok f → u128_ok e → e ≠ 2 ^ 128 - 1 →
  le_ord (entity_low e) (eavt_key_of f) ∧ cmp (eavt_key_of f) (entity_low (next_entity e)) = Lt
  ↔ entity f = e.
Proof.
  intros F E N. rewrite (proj1 (eavt_low f e F)), (proj2 (eavt_low f _ F)).
  unfold next_entity. rewrite Z.mod_small by ilia. lia.
Qed.

Lemma attribute_range f a :
  fact_ok f → utf8_valid (as_bytes a) = true →
  le_ord (attribute_low a) (aevt_key_of f) ∧
  match attribute_low <$> next_string_prefix a with
  | Some k => cmp (aevt_key_of f) k = Lt
  | None => True
  end ↔ covered a (attribute f).
Proof.
  intros F V. rewrite <-(covered_range a _ V), (proj1 (aevt_low f a F)).
  destruct (next_string_prefix a) as [b|]; cbn; [|done]. by rewrite (proj2 (aevt_low f b F)).
Qed.

(** Both ranges are ordered. *)
Lemma entity_ordered e : u128_ok e → e ≠ 2 ^ 128 - 1 → ordered_range (entity_low e) (Some (entity_low (next_entity e))).
Proof.
  intros E N. refine (proj2 (proj1 (low_bounds (A := Z) e (next_entity e) _ _ _)) _); [reflexivity|].
  apply le_ord_Z. unfold next_entity. rewrite Z.mod_small by ilia. lia.
Qed.
Lemma attribute_ordered a : utf8_valid (as_bytes a) = true → ordered_range (attribute_low a) (attribute_low <$> next_string_prefix a).
Proof.
  intros V. destruct (proj2 (covered_range a a V) (covered_refl a)) as [_ L].
  destruct (next_string_prefix a) as [b|]; [|done]. cbn [fmap option_fmap option_map ordered_range].
  refine (proj2 (proj1 (low_bounds (A := string) a b _ _ _)) _); [reflexivity|]. unfold le_ord. by rewrite L.
Qed.

(** * The pending part of a lookup *)

Definition fact_at (rs : list PendingFactRecord.t) (id : nat) : option Fact :=
  PendingFactRecord.to_fact <$> rs !! id.

Lemma mapR_pending s ids :
  Forall (λ i, i < length (records (pending s)))%nat ids →
  mapR (pending_fact s) ids = Ok (omap (fact_at (records (pending s))) ids).
Proof.
  induction 1 as [|i ids L F IH]; [done|]. cbn. rewrite IH. unfold pending_fact, overlay_get, fact_at.
  destruct (lookup_lt_is_Some_2 _ _ L) as [r ->]. done.
Qed.

Lemma facts_where rs (p : Fact → bool) :
  omap (fact_at rs) (List.filter (λ i, match fact_at rs i with Some f => p f | None => false end)
                       (seq 0 (length rs)))
  = List.filter p (PendingFactRecord.to_fact <$> rs).
Proof.
  induction rs as [|r rs IH] using rev_ind; [done|].
  rewrite length_app, Nat.add_1_r, seq_S, List.filter_app, omap_app, fmap_app, List.filter_app, <-IH.
  f_equal.
  - rewrite (List_filter_ext _ (λ i, match fact_at rs i with Some f => p f | None => false end)).
    + apply list_omap_ext, Forall_Forall2_diag, Forall_forall. intros i [_ I]%elem_of_List_filter.
      apply elem_of_seq in I. unfold fact_at. by rewrite lookup_app_l by lia.
    + intros i I. apply elem_of_seq in I. unfold fact_at. by rewrite lookup_app_l by lia.
  - assert (fact_at (rs ++ [r]) (length rs) = Some (PendingFactRecord.to_fact r)) as E.
    { unfold fact_at. by rewrite lookup_app_r, Nat.sub_diag by lia. }
    cbn. rewrite E. destruct (p (PendingFactRecord.to_fact r)); [|done]. cbn. by rewrite E.
Qed.

(** Ids that are exactly those of the facts satisfying [p], each once. *)
Lemma pending_part s ids (p : Fact → bool) :
  NoDup ids →
  (∀ i, i ∈ ids ↔ ∃ r, records (pending s) !! i = Some r ∧ p (PendingFactRecord.to_fact r) = true) →
  ∃ fs, mapR (pending_fact s) ids = Ok fs ∧ length fs = length ids ∧
    fs ≡ₚ List.filter p (overlay_facts (pending s)).
Proof.
  intros N M. set (rs := records (pending s)) in *.
  assert (Forall (λ i, i < length rs)%nat ids) as B.
  { apply Forall_forall. intros i (r & L & _)%M. by eapply lookup_lt_Some. }
  exists (omap (fact_at rs) ids). split_and!.
  - by apply mapR_pending.
  - clear N M. induction B as [|i ids L F IH]; [done|]. cbn. unfold fact_at at 1.
    destruct (lookup_lt_is_Some_2 _ _ L) as [r ->]. cbn. by rewrite IH.
  - unfold overlay_facts. fold rs. rewrite <-facts_where. apply omap_Permutation.
    apply NoDup_Permutation; [done|apply NoDup_ListNoDup, List.NoDup_filter, NoDup_ListNoDup, NoDup_seq|].
    intros i. rewrite M, elem_of_List_filter, elem_of_seq. unfold fact_at. split.
    + intros (r & L & P). rewrite L. cbn. apply lookup_lt_Some in L. split; [done|lia].
    + intros [P L]. destruct (rs !! i) as [r|]; [|done]. by exists r.
Qed.

(** * The committed part of a lookup *)

Lemma bt_from_rows {K} `{OrdLaws K} (kf : Fact → K) (rows : list (Fact * FactRef)) start stop
    (p : Fact → bool) m :
  NoDup (eavt_key_of <$> rows.*1) →
  (∀ f g, kf f = kf g → eavt_key_of f = eavt_key_of g) →
  (∀ f, f ∈ rows.*1 → p f = true ↔ le_ord start (kf f) ∧
     match stop with Some k => cmp (kf f) k = Lt | None => True end) →
  m = foldl (λ m r, bt_insert r.1 r.2 m) [] (prod_map kf id <$> rows) →
  (snd <$> bt_from start stop m) ≡ₚ (List.filter (λ r, p r.1) rows).*2.
Proof.
  intros N I B ->. destruct (bt_build (prod_map kf id <$> rows)) as [_ P].
  specialize (P (key_distinct rows N kf I)). unfold bt_from.
  etrans; [apply fmap_Permutation, List_filter_perm, P|].
  rewrite List_filter_fmap, <-list_fmap_compose.
  rewrite (List_filter_ext _ (λ r, p r.1)); [done|]. intros [f r] R. cbn.
  apply iff_bool_eq. rewrite B by (apply list_elem_of_fmap; by exists (f, r)).
  unfold le_ord, ltb_ord. rewrite (cmp_opp start (kf f)), andb_true_iff.
  destruct (cmp start (kf f)), stop as [k|]; cbn; try destruct (cmp (kf f) k); intuition done.
Qed.

Lemma resolve_rows (resolve : FactRef → result Fact) (rows : list (Fact * FactRef)) refs :
  (∀ f r, (f, r) ∈ rows → resolve r = Ok f) → refs ≡ₚ rows.*2 →
  ∃ fs, mapR resolve refs = Ok fs ∧ fs ≡ₚ rows.*1.
Proof.
  intros H (rows' & -> & P)%Permutation_map_inv. exists rows'.*1. split; [|by rewrite P].
  assert (∀ f r, (f, r) ∈ rows' → resolve r = Ok f) as H' by (intros f r; rewrite <-P; apply H).
  clear H P. induction rows' as [|[f r] rows' IH]; [done|]. cbn in *.
  rewrite (H' f r) by set_solver. cbn. rewrite IH; [done|]. intros; apply H'; set_solver.
Qed.

Lemma fst_filter (rows : list (Fact * FactRef)) (p : Fact → bool) :
  (List.filter (λ r, p r.1) rows).*1 = List.filter p rows.*1.
Proof. by rewrite List_filter_fmap. Qed.

Section lookups.
Context (hasher : EavtKey → Z) (s : FactStorage) (log : list Fact).
Hypothesis Ok_s : store_ok hasher s log.
Hypothesis Ok_log : Forall fact_ok log.

Lemma log_ok f : f ∈ log → fact_ok f.
Proof using Ok_log. rewrite Forall_forall in Ok_log. apply Ok_log. Qed.

Lemma overlay_log f : f ∈ overlay_facts (pending s) → f ∈ log.
Proof using All. destruct Ok_s as [_ (cf & _ & ->) _ _ _]. intros I. apply elem_of_app. by right. Qed.

Lemma rows_log rows : committed_rows s rows → log = rows.*1 ++ overlay_facts (pending s).
Proof using All.
  intros [(rd & E & Sv & _) _ _ _]. destruct Ok_s as [_ (cf & C & ->) _ _ _].
  unfold committed_log in C. rewrite E in C. f_equal.
  pose proof (serves_all (facts := cf)) as E1. rewrite (serves_all (facts := rows.*1)) in E1. by injection E1.
Qed.

Lemma resolve_ok rows f r :
  committed_rows s rows → (f, r) ∈ rows → resolve_fact_ref s r = Ok f.
Proof using.
  intros [(rd & E & _ & R) _ _ _] I. destruct (R f r I) as [P Q]. unfold resolve_fact_ref.
  rewrite E. by rewrite (proj2 (Z.eqb_neq _ _)).
Qed.

Lemma record_fact r :
  r ∈ records (pending s) →
  fact_ok (PendingFactRecord.to_fact r) ∧ rec_eavt r = eavt_key_of (PendingFactRecord.to_fact r) ∧
  rec_aevt r = aevt_key_of (PendingFactRecord.to_fact r).
Proof using Ok_s Ok_log.
  intros R. split.
  - apply log_ok, overlay_log, list_elem_of_fmap_2, R.
  - destruct Ok_s as [[[W _ _ _] _] _ _ _ _]. rewrite Forall_forall in W. specialize (W r R).
    unfold record_wf in W. unfold rec_eavt, rec_aevt, eavt_key_of, aevt_key_of. cbn. by rewrite W.
Qed.

Lemma entity_pending e :
  u128_ok e → e ≠ 2 ^ 128 - 1 →
  ∃ fs, mapR (pending_fact s) (range_eavt (pending s) (entity_low e) (entity_low (next_entity e))) = Ok fs ∧
    fs ≡ₚ List.filter (λ f, entity f =? e) (overlay_facts (pending s)).
Proof using Ok_s Ok_log.
  intros U N. destruct (so_overlay _ _ _ Ok_s) as [[_ _ _ Bd] Ix].
  destruct (eavt_range_exact hasher (pending s) (so_overlay _ _ _ Ok_s) (entity_low e)
    (entity_low (next_entity e))) as [_ Nd M].
  destruct (pending_part s _ (λ f, entity f =? e) Nd) as (fs & E & _ & P); [|by exists fs].
  intros i. rewrite M. split.
  - intros [_ (r & L & Hr)]. exists r. split; [done|]. apply list_elem_of_lookup_2 in L.
    destruct (record_fact r L) as (F & K & _). rewrite K in Hr. apply entity_range in Hr; [|done..].
    by apply Z.eqb_eq.
  - intros (r & L & Hr). apply list_elem_of_lookup_2 in L as R.
    destruct (record_fact r R) as (F & K & _). apply Z.eqb_eq in Hr. split.
    + apply elem_of_seq. apply lookup_lt_Some in L. lia.
    + exists r. split; [done|]. rewrite K. by apply entity_range.
Qed.

Lemma attribute_pending a :
  utf8_valid (as_bytes a) = true →
  ∃ fs, mapR (pending_fact s)
      (range_aevt (pending s) (attribute_low a) (attribute_low <$> next_string_prefix a)) = Ok fs ∧
    fs ≡ₚ List.filter (λ f, coveredb a (attribute f)) (overlay_facts (pending s)).
Proof using Ok_s Ok_log.
  intros U.
  destruct (aevt_range_exact hasher (pending s) (so_overlay _ _ _ Ok_s) (attribute_low a)
    (attribute_low <$> next_string_prefix a)) as [_ Nd M].
  destruct (pending_part s _ (λ f, coveredb a (attribute f)) Nd) as (fs & E & _ & P);
    [|by exists fs].
  intros i. rewrite M. split.
  - intros [_ (r & L & Hr)]. exists r. split; [done|]. apply list_elem_of_lookup_2 in L.
    destruct (record_fact r L) as (F & _ & K). rewrite K in Hr. apply attribute_range in Hr; [|done..].
    by apply coveredb_spec.
  - intros (r & L & Hr%coveredb_spec). apply list_elem_of_lookup_2 in L as R.
    destruct (record_fact r R) as (F & _ & K). split.
    + apply elem_of_seq. apply lookup_lt_Some in L. lia.
    + exists r. split; [done|]. rewrite K. by apply attribute_range.
Qed.

(** The committed rows of the store, none for an in-memory one. *)
Definition backed_by (rows : list (Fact * FactRef)) : Prop :=
  committed_rows s rows ∨ (in_memory s ∧ rows = []).

Lemma backed_log rows : backed_by rows → log = rows.*1 ++ overlay_facts (pending s).
Proof using All.
  intros [C|[[C _] ->]]; [by apply rows_log|].
  destruct Ok_s as [_ (cf & D & ->) _ _ _]. unfold committed_log in D. rewrite C in D. by subst.
Qed.

Lemma entity_committed rows ix e :
  committed_rows s rows → committed_index_reader s = Some ix →
  u128_ok e → e ≠ 2 ^ 128 - 1 →
  (snd <$> bt_from (entity_low e) (Some (entity_low (next_entity e))) (eavt (indexes_of rows)))
    ≡ₚ (List.filter (λ r, entity r.1 =? e) rows).*2.
Proof using.
  intros [_ _ F N] _ U M. apply (bt_from_rows eavt_key_of _ _ _ (λ f, entity f =? e)); [done|done| |by rewrite indexes_of_parts].
  intros f I. rewrite Forall_forall in F. rewrite Z.eqb_eq. symmetry. apply entity_range; auto.
Qed.

Lemma attribute_committed rows a :
  committed_rows s rows → utf8_valid (as_bytes a) = true →
  (snd <$> bt_from (attribute_low a) (attribute_low <$> next_string_prefix a) (aevt (indexes_of rows)))
    ≡ₚ (List.filter (λ r, coveredb a (attribute r.1)) rows).*2.
Proof using.
  intros [_ _ F N] U.
  apply (bt_from_rows aevt_key_of _ _ _ (λ f, coveredb a (attribute f)));
    [done| | |by rewrite indexes_of_parts].
  - intros f g [=]. unfold eavt_key_of. by f_equal.
  - intros f I. rewrite Forall_forall in F. rewrite coveredb_spec. symmetry.
    apply attribute_range; auto.
Qed.

Lemma sort_refs_perm refs : sort_refs refs ≡ₚ refs.
Proof using. apply merge_sort_Permutation. Qed.

Lemma resolved_rows rows (p : Fact → bool) refs :
  committed_rows s rows → refs ≡ₚ (List.filter (λ r, p r.1) rows).*2 →
  ∃ fs, mapR (resolve_fact_ref s) (sort_refs refs) = Ok fs ∧ fs ≡ₚ List.filter p rows.*1.
Proof using.
  intros C P. rewrite <-fst_filter. apply resolve_rows; [|by rewrite sort_refs_perm].
  intros f r [_ I]%elem_of_List_filter. by eapply resolve_ok.
Qed.

Lemma get_facts_by_entity_lemma rows e :
  backed_by rows → u128_ok e → e ≠ 2 ^ 128 - 1 →
  ∃ fs, get_facts_by_entity s e = Ok fs ∧ fs ≡ₚ List.filter (λ f, entity f =? e) log.
Proof using All.
  intros B U N. pose proof (backed_log rows B) as L. destruct (entity_pending e U N) as (fs & E & P).
  assert (List.filter (λ f, entity f =? e) log ≡ₚ fs ++ List.filter (λ f, entity f =? e) rows.*1) as Q.
  { rewrite L, List.filter_app, P. apply Permutation_app_comm. }
  unfold get_facts_by_entity, has_index_reader. destruct B as [C|[[C I] ->]].
  - destruct (cr_index _ _ C) as (ix & Ei & Si). rewrite Ei. cbn [negb]. rewrite andb_false_r.
    rewrite E. cbn [mbind result_bind]. rewrite (scans_eavt (rows := rows)) by by apply entity_ordered. cbn [mbind result_bind].
    destruct (resolved_rows rows (λ f, entity f =? e) _ C (entity_committed rows ix e C Ei U N)) as (gs & Eg & Pg).
    rewrite Eg. cbn. exists (fs ++ gs). split; [done|]. by rewrite Q, Pg.
  - rewrite I, C. cbn in Q. rewrite app_nil_r in Q.
    destruct (overlay_is_empty (pending s)); cbn [negb andb].
    + eexists. split; [done|]. by rewrite Q, P.
    + rewrite E. cbn. exists fs. by rewrite Q.
Qed.

Lemma foldR_mapR {A B S} (g : A → result B) (h : S → B → result S) l ys a :
  mapR g l = Ok ys → foldR (λ acc x, y ← g x; h acc y) a l = foldR h a ys.
Proof using.
  revert a ys; induction l as [|x l IH]; intros a ys E; cbn in E; inv_ok; [done|].
  cbn. match goal with H : g x = Ok _ |- _ => rewrite H end. cbn.
  destruct (h a _); cbn; [by apply IH|done].
Qed.

Lemma collect_refs {E} mx n (refs : list FactRef) (entries : list (E * FactRef)) :
  Z.of_nat (n + length refs) ≤ mx →
  visitR (collect_ref mx n) refs entries =
  if Z.of_nat (n + length refs + length entries) <=? mx then Ok (refs ++ entries.*2, true)
  else Err "query source work exceeds max-results; incomplete result rejected".
Proof using.
  revert refs; induction entries as [|[k r] entries IH]; intros refs B; cbn [visitR length fmap list_fmap].
  - rewrite Nat.add_0_r, app_nil_r. by rewrite (proj2 (Z.leb_le _ _)).
  - assert (collect_ref mx n refs (k, r) =
      if mx <=? Z.of_nat (n + length refs)
      then Err "query source work exceeds max-results; incomplete result rejected"
      else Ok (refs ++ [r], true)) as -> by done.
    destruct (Z.leb_spec mx (Z.of_nat (n + length refs))); cbn [mbind result_bind].
    + by rewrite (proj2 (Z.leb_gt (Z.of_nat (n + length refs + S (length entries))) mx)) by lia.
    + rewrite IH by (rewrite length_app; cbn; lia). rewrite length_app, <-app_assoc. cbn [length app].
      replace (n + (length refs + 1) + length entries)%nat
        with (n + length refs + S (length entries))%nat by lia. done.
Qed.

Definition TOO_MANY : string := "query source work exceeds max-results; incomplete result rejected".

Lemma push_pending mx ids fs :
  0 ≤ mx → mapR (pending_fact s) ids = Ok fs →
  foldR (λ facts id, f ← pending_fact s id; push_bounded_query_fact mx facts f) [] ids =
  if Z.of_nat (length fs) <=? mx then Ok fs else Err TOO_MANY.
Proof using.
  intros M E. rewrite (foldR_mapR _ _ _ _ _ E). by rewrite push_all by (cbn; lia).
Qed.

Lemma get_facts_by_entity_bounded_lemma rows e mx :
  backed_by rows → u128_ok e → e ≠ 2 ^ 128 - 1 → 0 ≤ mx →
  ∃ fs, fs ≡ₚ List.filter (λ f, entity f =? e) log ∧
    get_facts_by_entity_bounded s e mx =
      if Z.of_nat (length fs) <=? mx then Ok fs else Err TOO_MANY.
Proof using All.
  intros B U N M. pose proof (backed_log rows B) as L. destruct (entity_pending e U N) as (fs & E & P).
  assert (List.filter (λ f, entity f =? e) log ≡ₚ fs ++ List.filter (λ f, entity f =? e) rows.*1) as Q.
  { rewrite L, List.filter_app, P. apply Permutation_app_comm. }
  unfold get_facts_by_entity_bounded. rewrite (push_pending _ _ _ M E).
  destruct B as [C|[[C I] ->]].
  - destruct (cr_index _ _ C) as (ix & Ei & Si). rewrite Ei.
    pose proof (entity_committed rows ix e C Ei U N) as Pr.
    destruct (resolved_rows rows (λ f, entity f =? e) _ C Pr) as (gs & Eg & Pg).
    exists (fs ++ gs). split; [by rewrite Q, Pg|]. rewrite length_app.
    rewrite <-fst_filter in Pg. apply Permutation_length in Pr, Pg. rewrite !length_fmap in Pr. rewrite length_fmap in Pg.
    destruct (Z.leb_spec (Z.of_nat (length fs)) mx); cbn [mbind result_bind].
    2: { by rewrite (proj2 (Z.leb_gt (Z.of_nat (length fs + length gs)) mx)) by lia. }
    rewrite (visits_eavt (rows := rows)) by by apply entity_ordered. rewrite collect_refs by (cbn; lia).
    rewrite length_fmap, Nat.add_0_r, Pr, <-Pg.
    destruct (Z.leb_spec (Z.of_nat (length fs + length gs)) mx); cbn [mbind result_bind]; [|done].
    rewrite <-list_fmap_compose. rewrite (foldR_mapR _ _ _ gs); [|exact Eg].
    rewrite push_all by lia. by rewrite (proj2 (Z.leb_le _ _)).
  - rewrite I, C. cbn in Q. rewrite app_nil_r in Q. exists fs. split; [by rewrite Q|].
    by destruct (Z.of_nat (length fs) <=? mx).
Qed.

(** C23: the entity lookup returns exactly the facts of the entity, committed and
    pending, for every entity but the largest UUID; bounded, it returns all of
    them or an error exactly when there are more than the bound.  For the
    largest UUID the upper bound of the scan wraps to zero: its pending facts are
    never found. *)
Theorem entity_lookup_exact rows e mx :
  backed_by rows → u128_ok e → 0 ≤ mx →
  (e ≠ 2 ^ 128 - 1 →
     (∃ fs, get_facts_by_entity s e = Ok fs ∧ fs ≡ₚ List.filter (λ f, entity f =? e) log) ∧
     (∃ fs, fs ≡ₚ List.filter (λ f, entity f =? e) log ∧
        get_facts_by_entity_bounded s e mx =
          if Z.of_nat (length fs) <=? mx then Ok fs else Err TOO_MANY)) ∧
  (e = 2 ^ 128 - 1 → range_eavt (pending s) (entity_low e) (entity_low (next_entity e)) = []).
Proof using All.
  intros B U M. split.
  - intros N. split; [by eapply get_facts_by_entity_lemma|by eapply get_facts_by_entity_bounded_lemma].
  - intros ->. apply elem_of_nil_inv. intros i I.
    destruct (eavt_range_exact hasher (pending s) (so_overlay _ _ _ Ok_s) (entity_low (2 ^ 128 - 1))
      (entity_low (next_entity (2 ^ 128 - 1)))) as [_ _ X]. apply X in I as [_ (r & L & _ & H)].
    apply list_elem_of_lookup_2 in L. destruct (record_fact r L) as (F & K & _).
    rewrite K in H. apply (eavt_low _ _ F) in H. destruct F. unfold next_entity in H.
    rewrite Z.sub_add, Z.mod_same in H by lia. ilia.
Qed.

(** The attribute lookup returns the committed facts of exactly the
    attribute, but every pending fact whose attribute the scanned range covers:
    all attributes that extend the requested one (or, when no upper bound can
    be formed, all from it on). *)
Theorem attribute_lookup_covers rows a :
  backed_by rows → utf8_valid (as_bytes a) = true →
  ∃ fs, get_facts_by_attribute s a = Ok fs ∧
    fs ≡ₚ List.filter (λ f, bool_decide (attribute f = a)) rows.*1
          ++ List.filter (λ f, coveredb a (attribute f)) (overlay_facts (pending s)).
Proof using All.
  intros B U. pose proof (backed_log rows B) as L. destruct (attribute_pending a U) as (fs & E & P).
  unfold get_facts_by_attribute, has_index_reader. destruct B as [C|[[C I] ->]].
  - destruct (cr_index _ _ C) as (ix & Ei & Si). rewrite Ei. cbn [negb]. rewrite andb_false_r.
    rewrite E. cbn [mbind result_bind]. rewrite (scans_aevt (rows := rows)) by by apply attribute_ordered. cbn [mbind result_bind].
    destruct (resolved_rows rows (λ f, coveredb a (attribute f)) _ C (attribute_committed rows a C U))
      as (gs & Eg & Pg).
    rewrite Eg. cbn. eexists. split; [done|]. rewrite P, Permutation_app_comm. f_equiv.
    etrans; [apply List_filter_perm, Pg|]. rewrite <-List_filter_filter.
    rewrite (List_filter_ext _ (λ f, bool_decide (attribute f = a))); [done|]. intros f _.
    case_bool_decide as D; [|done]. subst. cbn. apply coveredb_spec, covered_refl.
  - rewrite I. cbn [negb fmap list_fmap List.filter app].
    destruct (overlay_is_empty (pending s)) eqn:Em; cbn [andb].
    + unfold overlay_is_empty in Em. apply Nat.eqb_eq, nil_length_inv in Em.
      unfold get_all_facts, overlay_facts. rewrite C, Em. cbn. by exists [].
    + rewrite E. cbn. by exists fs.
Qed.
End lookups.

(** A store with two pending attributes, one extending the other. *)
Definition prefix_tuples : list (EntityId * Attribute * Value * option TransactOptions) :=
  [ (1, ":age"%string, VInteger 3, None); (1, ":age2"%string, VInteger 99, None) ].
Definition prefix_store : FactStorage :=
  (transact_batch const_hasher 1000 storage_new prefix_tuples None).1.
Definition prefix_log : list Fact :=
  [ mkFact 1 ":age" (VInteger 3) 1000 1 1000 VALID_TIME_FOREVER true;
    mkFact 1 ":age2" (VInteger 99) 1000 1 1000 VALID_TIME_FOREVER true ].
Lemma prefix_store_ok : store_ok const_hasher prefix_store prefix_log.
Proof.
  assert (store_step const_hasher storage_new prefix_store) as St.
  { eapply (StepTransactBatch _ _ 1000 prefix_tuples None); by vm_compute. }
  destruct (store_step_ok const_hasher _ _ _ (storage_new_ok _) St) as ((n & Ok & _) & _).
  assert (prefix_log = n) as ->; [|exact Ok].
  pose proof (get_all_facts_ok _ _ _ Ok) as E. vm_compute in E. by injection E.
Qed.
Lemma prefix_log_ok : Forall fact_ok prefix_log.
Proof. repeat (constructor; [split; try done; cbn; ilia|]). constructor. Qed.

Lemma entity_lookup_exact_witness :
  ∃ fs, get_facts_by_entity prefix_store 1 = Ok fs ∧
        fs ≡ₚ List.filter (λ f, entity f =? 1) prefix_log.
Proof.
  apply (entity_lookup_exact const_hasher prefix_store prefix_log prefix_store_ok prefix_log_ok
    [] 1 10); [by right|done|done|done].
Defined.

(** Asking for [:age] also returns the pending fact of [:age2]. *)
Lemma attribute_lookup_covers_witness :
  ∃ fs, get_facts_by_attribute prefix_store ":age" = Ok fs ∧ fs ≡ₚ prefix_log.
Proof.
  destruct (attribute_lookup_covers const_hasher prefix_store prefix_log prefix_store_ok
    prefix_log_ok [] ":age" ltac:(by right) ltac:(by vm_compute)) as (fs & E & P).
  exists fs. split; [exact E|]. rewrite P. by vm_compute.
Defined.
