(* ===== verification/MergeScan.v ===== *)
(** The resumable merge of the current-value cursors (src/src/graph/storage.rs).

    [CurrentAttributeCursor], [CurrentEntityAttributeCursor] and
    [CurrentRefsCursor] keep the same fields and step in the same way: the
    committed index entries of a range are visited in key order, the selected
    pending facts are merged in, every entry is handed to the cursor's reducer,
    and the step stops after [max_entries] entries with a key to resume from.
    The shared part is written once here, over the key type, the entry type and
    the reducer; [merge_step_spec] says that a step consumes exactly the next
    entries of the ordered merge, whatever the budget. *)
From S2P Require Import Prelude Types ValueCodec NetView SortedRuns Index PendingOverlay FactStore.

(** * Definitions *)

Inductive CurrentValidTime : Type :=
| At (t : Z)
| Any.

Inductive CursorFactRef : Type :=
| CPending (id : nat)
| CCommitted (fact_ref : FactRef).

(** The fields the cursors share; [reduced] is the part each adds. *)
Record Cursor (Key Reduced : Type) : Type := mkCursor {
  c_end : option Key;
  next_start : Key;
  c_pending : list nat;
  pending_position : nat;
  reduced : Reduced;
  c_as_of : option AsOf;
  c_valid_time : CurrentValidTime;
  c_fact_reader : option CommittedFactReader;
  c_index_reader : option CommittedIndexReader;
  c_generation : Z;
  last_key : option Key;
  committed_complete : bool;
  complete : bool;
}.
Arguments mkCursor {Key Reduced}.
Arguments c_end {Key Reduced}.
Arguments next_start {Key Reduced}.
Arguments c_pending {Key Reduced}.
Arguments pending_position {Key Reduced}.
Arguments reduced {Key Reduced}.
Arguments c_as_of {Key Reduced}.
Arguments c_valid_time {Key Reduced}.
Arguments c_fact_reader {Key Reduced}.
Arguments c_index_reader {Key Reduced}.
Arguments c_generation {Key Reduced}.
Arguments last_key {Key Reduced}.
Arguments committed_complete {Key Reduced}.
Arguments complete {Key Reduced}.

(** A cursor over [start, stop) that has read nothing yet. *)
Definition cursor_new {Key R} (s : FactStorage) (start : Key) (stop : option Key) (ids : list nat)
    (r : R) (as_of : option AsOf) (valid_time : CurrentValidTime) : Cursor Key R :=
  mkCursor stop start ids 0 r as_of valid_time (committed s) (committed_index_reader s)
    (publication_generation s) None false false.

Definition with_reduced {Key R} (c : Cursor Key R) (r : R) (done : bool) : Cursor Key R :=
  mkCursor (c_end c) (next_start c) (c_pending c) (pending_position c) r (c_as_of c) (c_valid_time c)
    (c_fact_reader c) (c_index_reader c) (c_generation c) (last_key c) (committed_complete c) done.

(** What a step mutates while it runs. *)
Record Progress (Key Acc : Type) : Type := mkProgress {
  position : nat;
  processed : Z;
  resume_key : option Key;
  acc : Acc;
}.
Arguments mkProgress {Key Acc}.
Arguments position {Key Acc}.
Arguments processed {Key Acc}.
Arguments resume_key {Key Acc}.
Arguments acc {Key Acc}.

Definition is_gt (c : comparison) : bool := match c with Gt => true | _ => false end.

Section scan.
Context {Key Entry R V : Type}.
Context (cmp_owned : Entry → Key → comparison) (write_resume_key : Entry → Key → Key).
Context (visit_entries : CommittedIndexReader → ∀ S : Type, Key → option Key →
           (S → Entry * FactRef → result (S * bool)) → S → result (S * bool)).
Context (compare_projection : nat → Entry → result comparison) (pending_entry : nat → result Entry).
Context (accept : R * V → Entry → CursorFactRef → result (R * V)).

(** The pending entries that come before a committed one. *)
Fixpoint drain (max_entries : Z) (key : Entry) (ids : list nat) (p : Progress Key (R * V))
    : result (Progress Key (R * V) * bool) :=
  match ids with
  | [] => Ok (p, true)
  | id :: ids =>
    match compare_projection id key with
    | Ok Lt =>
      entry ← pending_entry id;
      a ← accept (acc p) entry (CPending id);
      let p := mkProgress (S (position p)) (processed p + 1) (resume_key p) a in
      if max_entries <=? processed p then Ok (p, false) else drain max_entries key ids p
    | _ => Ok (p, true)
    end
  end.

(** The visitor over committed entries; [last] and [start] are the resume point
    at the beginning of the step. *)
Definition visit_committed (max_entries : Z) (last : option Key) (start : Key) (ids : list nat)
    (p : Progress Key (R * V)) (entry : Entry * FactRef) : result (Progress Key (R * V) * bool) :=
  let '(key, fact_ref) := entry in
  if match last with Some l => negb (is_gt (cmp_owned key l)) | None => false end then Ok (p, true)
  else
    '(p, go_on) ← drain max_entries key (drop (position p) ids) p;
    if go_on : bool then
      a ← accept (acc p) key (CCommitted fact_ref);
      let resume :=
        if max_entries =? usize_MAX then resume_key p
        else Some (write_resume_key key (default start (resume_key p))) in
      let p := mkProgress (position p) (processed p + 1) resume a in
      Ok (p, processed p <? max_entries)
    else Ok (p, false).

(** The pending entries after the last committed one. *)
Fixpoint finish_pending (max_entries : Z) (ids : list nat) (p : Progress Key (R * V))
    : result (Progress Key (R * V)) :=
  match ids with
  | [] => Ok p
  | id :: ids =>
    if processed p <? max_entries then
      entry ← pending_entry id;
      a ← accept (acc p) entry (CPending id);
      finish_pending max_entries ids (mkProgress (S (position p)) (processed p + 1) (resume_key p) a)
    else Ok p
  end.

Definition visit_range (max_entries : Z) (c : Cursor Key R) (p : Progress Key (R * V))
    : result (Progress Key (R * V) * bool) :=
  match c_index_reader c with
  | None => Ok (p, true)
  | Some reader =>
    visit_entries reader _ (next_start c) (c_end c)
      (visit_committed max_entries (last_key c) (next_start c) (c_pending c)) p
  end.

Definition advanced (c : Cursor Key R) (p : Progress Key (R * V)) (start : Key) (committed_done : bool)
    : Cursor Key R :=
  mkCursor (c_end c) start (c_pending c) (position p) (acc p).1 (c_as_of c) (c_valid_time c)
    (c_fact_reader c) (c_index_reader c) (c_generation c) (resume_key p) committed_done (complete c).

(** A step up to the point where the reducer is emptied: the cursor, the
    visitor's state, the entries processed, and whether none is left. *)
Definition merge_step (c : Cursor Key R) (max_entries : Z) (v : V)
    : result (Cursor Key R * V * Z * bool) :=
  let p := mkProgress (pending_position c) 0 (last_key c) (reduced c, v) in
  '(c, p, committed_done) ←
    (if committed_complete c then Ok (c, p, true)
     else
       '(p, done) ← visit_range max_entries c p;
       let start := if max_entries =? usize_MAX then next_start c
                    else default (next_start c) (resume_key p) in
       Ok (advanced c p start done, p, done) : result (Cursor Key R * Progress Key (R * V) * bool));
  if committed_done : bool then
    p ← finish_pending max_entries (drop (position p) (c_pending c)) p;
    Ok (advanced c p (next_start c) true, (acc p).2, processed p,
        (length (c_pending c) <=? position p)%nat)
  else Ok (c, (acc p).2, processed p, false).
End scan.

Inductive CursorStep : Type :=
| Yielded (entries : Z)
| Complete (entries : Z).

(** A whole step: nothing on a complete cursor, an error when the store has
    published since the cursor was made, and at the end the reducer's rows. *)
Section cursor_step.
Context {Key Entry R V : Type}.
Context (cmp_owned : Entry → Key → comparison) (write_resume_key : Entry → Key → Key).
Context (visit_entries : CommittedIndexReader → ∀ S : Type, Key → option Key →
           (S → Entry * FactRef → result (S * bool)) → S → result (S * bool)).
Context (compare_projection : nat → Entry → result comparison) (pending_entry : nat → result Entry).
Context (accept : option AsOf → CurrentValidTime → option CommittedFactReader →
           R * V → Entry → CursorFactRef → result (R * V)).
Context (finish : CurrentValidTime → option CommittedFactReader → R * V → result (R * V)).
Context (generation : Z) (stale : string).

Definition cursor_step (c : Cursor Key R) (max_entries : Z) (v : V) : result (Cursor Key R * V * CursorStep) :=
  if complete c then Ok (c, v, Complete 0)
  else
    _ ← ensure (generation =? c_generation c) stale;
    '(c, v, processed, done) ←
      merge_step cmp_owned write_resume_key visit_entries compare_projection pending_entry
        (accept (c_as_of c) (c_valid_time c) (c_fact_reader c)) c max_entries v;
    if done : bool then
      '(r, v) ← finish (c_valid_time c) (c_fact_reader c) (reduced c, v);
      Ok (with_reduced c r true, v, Complete processed)
    else Ok (c, v, Yielded processed).

(** Steps with the given budgets until the cursor is complete. *)
Fixpoint drive (c : Cursor Key R) (v : V) (budgets : list Z) : result (V * bool) :=
  match budgets with
  | [] => Ok (v, false)
  | n :: budgets =>
    '(c, v, st) ← cursor_step c n v;
    match st with Complete _ => Ok (v, true) | Yielded _ => drive c v budgets end
  end.
End cursor_step.

Definition sum_Z (l : list Z) : Z := foldr Z.add 0 l.

(** * The ordered merge *)

Section span.
Context {A : Type} (test : A → bool).
Fixpoint take_while (l : list A) : list A :=
  match l with [] => [] | x :: l => if test x then x :: take_while l else [] end.
Fixpoint drop_while (l : list A) : list A :=
  match l with [] => [] | x :: l' => if test x then drop_while l' else l end.
Lemma take_drop_while l : take_while l ++ drop_while l = l.
Proof. induction l as [|x l IH]; cbn; [done|]. destruct (test x); cbn; by rewrite ?IH. Qed.
Lemma drop_take_while l : drop (length (take_while l)) l = drop_while l.
Proof. induction l as [|x l IH]; cbn; [done|]. destruct (test x); cbn; [by rewrite IH|done]. Qed.
Lemma take_while_true l x : x ∈ take_while l → test x = true.
Proof.
  induction l as [|y l IH]; cbn; [by intros ?%elem_of_nil|]. destruct (test y) eqn:T; [|by intros ?%elem_of_nil].
  intros [->|I]%elem_of_cons; auto.
Qed.
Lemma drop_while_head l x : head (drop_while l) = Some x → test x = false.
Proof. induction l as [|y l IH]; cbn; [done|]. destruct (test y) eqn:T; [done|]. cbn. by intros [= ->]. Qed.
End span.

Section merged.
Context {Entry : Type} `{OrdLaws Entry}.
Implicit Types ps cs : list (Entry * CursorFactRef).

Definition entry_before (c p : Entry * CursorFactRef) : bool :=
  match cmp p.1 c.1 with Lt => true | _ => false end.

(** The merge up to the last committed entry, and the pending entries after it. *)
Fixpoint front ps cs : list (Entry * CursorFactRef) :=
  match cs with
  | [] => []
  | c :: cs => take_while (entry_before c) ps ++ c :: front (drop_while (entry_before c) ps) cs
  end.
Fixpoint left_over ps cs : list (Entry * CursorFactRef) :=
  match cs with
  | [] => ps
  | c :: cs => left_over (drop_while (entry_before c) ps) cs
  end.
Definition merged ps cs : list (Entry * CursorFactRef) := front ps cs ++ left_over ps cs.

Lemma merged_cons ps c cs :
  merged ps (c :: cs) = take_while (entry_before c) ps ++ c :: merged (drop_while (entry_before c) ps) cs.
Proof using Type*. unfold merged. cbn. by rewrite <-app_assoc. Qed.

Lemma merged_perm ps cs : merged ps cs ≡ₚ ps ++ cs.
Proof using Type*.
  revert ps; induction cs as [|c cs IH]; intros ps; [unfold merged; cbn; by rewrite app_nil_r|].
  rewrite merged_cons, IH. rewrite <-(take_drop_while (entry_before c) ps) at 3.
  rewrite <-app_assoc. f_equiv. apply Permutation_middle.
Qed.

Lemma merged_skip p ps cs : (∀ c, c ∈ cs → entry_before c p = true) → merged (p :: ps) cs = p :: merged ps cs.
Proof using Type*.
  destruct cs as [|c cs]; intros B; [done|]. rewrite !merged_cons. cbn.
  by rewrite (B c) by set_solver.
Qed.

Lemma merged_drop b ps c cs : (b ≤ length (take_while (entry_before c) ps))%nat →
  merged (drop b ps) (c :: cs) = drop b (merged ps (c :: cs)).
Proof using Type*.
  revert ps; induction b as [|b IH]; intros ps B; [done|]. destruct ps as [|p ps]; cbn in B; [lia|].
  rewrite (merged_cons (p :: ps)). cbn [take_while drop_while]. destruct (entry_before c p); cbn in B; [|lia].
  cbn [app drop]. rewrite IH by lia. by rewrite merged_cons.
Qed.

#[local] Abbreviation ordered := (StronglySorted (λ x y : Entry * CursorFactRef, le_ord x.1 y.1)).

Lemma merged_sorted ps cs : ordered ps → ordered cs → ordered (merged ps cs).
Proof using Type*.
  revert ps; induction cs as [|c cs IH]; intros ps Sp Sc; [done|].
  rewrite merged_cons. inversion Sc as [|? ? Sc' Fc]; subst.
  rewrite <-(take_drop_while (entry_before c) ps) in Sp. apply StronglySorted_app in Sp as (X & S1 & S2).
  rewrite Forall_forall in Fc.
  assert (∀ y, y ∈ drop_while (entry_before c) ps → le_ord c.1 y.1) as Y.
  { destruct (drop_while (entry_before c) ps) as [|d ds] eqn:D; [by intros ? ?%elem_of_nil|].
    pose proof (drop_while_head (entry_before c) ps d) as Hd. rewrite D in Hd. specialize (Hd eq_refl).
    assert (le_ord c.1 d.1) as Cd.
    { unfold entry_before in Hd. unfold le_ord. rewrite (cmp_opp d.1 c.1). by destruct (cmp d.1 c.1). }
    inversion S2 as [|? ? _ Fd]; subst. rewrite Forall_forall in Fd.
    intros y [->|Iy]%elem_of_cons; [done|]. etrans; [exact Cd|]. by apply Fd. }
  apply StronglySorted_app. split_and!; [|done|].
  - intros x y Ix Iy. apply take_while_true in Ix as T.
    assert (le_ord x.1 c.1) as Xc.
    { unfold entry_before in T. unfold le_ord. by destruct (cmp x.1 c.1). }
    apply elem_of_cons in Iy as [->|Iy]; [done|]. rewrite merged_perm in Iy.
    etrans; [exact Xc|]. apply elem_of_app in Iy as [Iy|Iy]; [by apply Y|by apply Fc].
  - constructor; [by apply IH|]. apply Forall_forall. intros y. rewrite merged_perm.
    intros [Iy|Iy]%elem_of_app; [by apply Y|by apply Fc].
Qed.
End merged.

(** * A step consumes the next entries of the merge *)

Lemma last_greatest {Entry A} `{OrdLaws Entry} (l : list (Entry * A)) e x :
  StronglySorted (λ x y, cmp x.1 y.1 = Lt) l → last l = Some e → x ∈ l → cmp x.1 e.1 ≠ Gt.
Proof.
  intros S L X. apply last_Some in L as [l' ->]. apply StronglySorted_app in S as (B & _ & _).
  apply elem_of_app in X as [X|X%list_elem_of_singleton]; [rewrite B; set_solver|].
  subst. by rewrite cmp_refl.
Qed.
Lemma after_last {Entry A} `{OrdLaws Entry} (l l' : list (Entry * A)) e x :
  StronglySorted (λ x y, cmp x.1 y.1 = Lt) (l ++ l') → last l = Some e → x ∈ l' → cmp x.1 e.1 = Gt.
Proof.
  intros S L X. apply StronglySorted_app in S as (B & _ & _). rewrite (cmp_opp e.1 x.1), B; [done| |done].
  apply last_Some in L as [? ->]. set_solver.
Qed.

Section step_spec.
Context {Key Entry R V : Type} `{OrdLaws Entry}.
Context (cmp_owned : Entry → Key → comparison) (write_resume_key : Entry → Key → Key).
Context (visit_entries : CommittedIndexReader → ∀ S : Type, Key → option Key →
           (S → Entry * FactRef → result (S * bool)) → S → result (S * bool)).
Context (compare_projection : nat → Entry → result comparison) (pending_entry : nat → result Entry).
Context (accept : R * V → Entry → CursorFactRef → result (R * V)).

(** The pending ids of the cursor stand for entries. *)
Context (ids : list nat) (entry_of : nat → Entry).
Hypothesis pending_ok : ∀ id, id ∈ ids → pending_entry id = Ok (entry_of id).
Hypothesis compare_ok : ∀ id key, id ∈ ids → compare_projection id key = Ok (cmp (entry_of id) key).

#[local] Abbreviation Prog := (Progress Key (R * V)).
#[local] Abbreviation drainP := (drain compare_projection pending_entry accept).
#[local] Abbreviation finishP := (finish_pending pending_entry accept).
#[local] Abbreviation visitP :=
  (visit_committed cmp_owned write_resume_key compare_projection pending_entry accept).

Definition pending_entries (l : list nat) : list (Entry * CursorFactRef) :=
  (λ id, (entry_of id, CPending id)) <$> l.
Definition committed_entries (l : list (Entry * FactRef)) : list (Entry * CursorFactRef) :=
  prod_map id CCommitted <$> l.
Definition take_in (a : R * V) (x : Entry * CursorFactRef) : result (R * V) := accept a x.1 x.2.

Lemma pending_entries_drop n l : pending_entries (drop n l) = drop n (pending_entries l).
Proof using. apply fmap_drop. Qed.

Lemma drain_spec max_entries key fr l (p : Prog) : l ⊆ ids → processed p < max_entries →
  let q := take_while (entry_before (key, CCommitted fr)) (pending_entries l) in
  let b := Z.to_nat (max_entries - processed p) in
  drainP max_entries key l p =
  (a ← foldR take_in (acc p) (take b q);
   Ok (mkProgress (position p + length (take b q)) (processed p + Z.of_nat (length (take b q)))
         (resume_key p) a, (length q <? b)%nat)).
Proof using Type*.
  cbv zeta. revert p; induction l as [|id l IH]; intros [pos n r a] Sub Bd; cbn [processed] in Bd.
  { change (pending_entries []) with (@nil (Entry * CursorFactRef)). cbn [take_while length].
    rewrite take_nil. cbn [foldR mbind result_bind length position processed resume_key acc drain].
    rewrite Nat.add_0_r, Z.add_0_r, (proj2 (Nat.ltb_lt 0 _)) by lia. done. }
  cbn [drain]. rewrite compare_ok by set_solver.
  cbn [pending_entries fmap list_fmap take_while]. fold (pending_entries l).
  assert (entry_before (key, CCommitted fr) (entry_of id, CPending id) =
    match cmp (entry_of id) key with Lt => true | _ => false end) as -> by done.
  destruct (cmp (entry_of id) key) eqn:C.
  1,3: cbn [length]; rewrite take_nil; cbn [foldR mbind result_bind length position processed resume_key acc];
    rewrite Nat.add_0_r, Z.add_0_r, (proj2 (Nat.ltb_lt 0 _)) by lia; done.
  rewrite pending_ok by set_solver. cbn [mbind result_bind acc processed position resume_key].
  replace (Z.to_nat (max_entries - n)) with (S (Z.to_nat (max_entries - (n + 1)))) by lia.
  cbn [take foldR].
  assert (take_in a (entry_of id, CPending id) = accept a (entry_of id) (CPending id)) as -> by done.
  destruct (accept a (entry_of id) (CPending id)) as [a'|e]; cbn [mbind result_bind]; [|done].
  destruct (Z.leb_spec max_entries (n + 1)).
  - replace (Z.to_nat (max_entries - (n + 1))) with 0%nat by lia.
    rewrite take_0. cbn [foldR mbind result_bind length]. f_equal. apply (f_equal2 pair).
    + f_equal; lia.
    + symmetry. apply Nat.ltb_ge. cbn. lia.
  - rewrite IH; [|set_solver|cbn; lia]. cbn [acc processed position resume_key].
    destruct (foldR _ _ _); cbn [mbind result_bind]; [|done]. f_equal.
    apply (f_equal2 pair); [|done]. cbn [length]. f_equal; lia.
Qed.

(** Resume keys stand for the entry they were written from. *)
Context (cs : list (Entry * FactRef)) (good : Key → Prop).
Hypothesis resume_good : ∀ e k, e ∈ cs.*1 → good k → good (write_resume_key e k).
Hypothesis resume_cmp : ∀ e k x, good k → cmp_owned x (write_resume_key e k) = cmp x e.

Definition skipped (last : option Key) (e : Entry * FactRef) : bool :=
  match last with Some l => negb (is_gt (cmp_owned e.1 l)) | None => false end.

Lemma visit_skips max_entries last start l p :
  visitR (visitP max_entries last start ids) p l =
  visitR (visitP max_entries last start ids) p (List.filter (λ e, negb (skipped last e)) l).
Proof using.
  revert p; induction l as [|[k r] l IH]; intros p; [done|]. cbn [visitR List.filter].
  destruct (skipped last (k, r)) eqn:E; cbn [negb].
  - assert (visitP max_entries last start ids p (k, r) = Ok (p, true)) as ->.
    { unfold visit_committed. by change (match last with Some l => _ | None => _ end) with (skipped last (k, r));
        rewrite E. }
    cbn [mbind result_bind]. apply IH.
  - cbn [visitR]. destruct (visitP _ _ _ _ _ _) as [[p' [] ]|e]; cbn [mbind result_bind]; [|done..]. apply IH.
Qed.

(** Where a visit of [l] stops: it has consumed [used] entries of the merge,
    [rest] of the committed ones are left, and the resume key is that of the last
    committed entry consumed. *)
Record stopped (max_entries : Z) (l : list (Entry * FactRef)) (p p' : Prog) (used : nat) (a : R * V)
    (pre rest : list (Entry * FactRef)) : Prop := {
  st_acc : acc p' = a;
  st_processed : processed p' = processed p + Z.of_nat used;
  st_split : l = pre ++ rest;
  st_left : merged (drop (position p') (pending_entries ids)) (committed_entries rest) =
    drop used (merged (drop (position p) (pending_entries ids)) (committed_entries l));
  st_good : (∀ k, resume_key p = Some k → good k) → ∀ k, resume_key p' = Some k → good k;
  st_resume : max_entries ≠ usize_MAX →
    match last pre with
    | Some c => ∃ k, resume_key p' = Some k ∧ ∀ x, cmp_owned x k = cmp x c.1
    | None => resume_key p' = resume_key p
    end;
}.

Lemma visit_spec max_entries since start l p :
  l ⊆ cs → (∀ c, c ∈ l → skipped since c = false) → processed p < max_entries → good start →
  (∀ k, resume_key p = Some k → good k) →
  let fr := front (drop (position p) (pending_entries ids)) (committed_entries l) in
  let b := Z.to_nat (max_entries - processed p) in
  match foldR take_in (acc p) (take b fr) with
  | Err e => visitR (visitP max_entries since start ids) p l = Err e
  | Ok a => ∃ p' pre rest,
      visitR (visitP max_entries since start ids) p l = Ok (p', (length fr <? b)%nat) ∧
      stopped max_entries l p p' (length (take b fr)) a pre rest ∧ ((length fr < b)%nat → rest = [])
  end.
Proof using Type*.
  cbv zeta. revert p; induction l as [|[key r] l IH]; intros p Sub Sk Bd Gs Gp.
  { cbn [front committed_entries fmap list_fmap]. rewrite take_nil. cbn [foldR].
    exists p, [], []. cbn [visitR length]. rewrite (proj2 (Nat.ltb_lt 0 _)) by lia.
    split; [done|]. split; [|done]. split; cbn; rewrite ?Z.add_0_r; auto. }
  change (committed_entries ((key, r) :: l)) with ((key, CCommitted r) :: committed_entries l).
  cbn [front visitR]. set (q := take_while _ _). set (b := Z.to_nat _).
  assert (visitP max_entries since start ids p (key, r) =
    ('(p, go_on) ← drainP max_entries key (drop (position p) ids) p;
     if go_on : bool then
       a ← accept (acc p) key (CCommitted r);
       let resume := if max_entries =? usize_MAX then resume_key p
                     else Some (write_resume_key key (default start (resume_key p))) in
       let p := mkProgress (position p) (processed p + 1) resume a in
       Ok (p, processed p <? max_entries)
     else Ok (p, false))) as Ev.
  { unfold visit_committed. change (match since with Some l => _ | None => _ end) with (skipped since (key, r)).
    by rewrite Sk by set_solver. }
  rewrite (drain_spec max_entries key r) in Ev; [|apply subseteq_drop|done].
  rewrite pending_entries_drop in Ev. fold q b in Ev.
  destruct (le_lt_dec b (length q)) as [L|L].
  - rewrite take_app_le by done. rewrite (proj2 (Nat.ltb_ge _ _)) in Ev by done. rewrite Ev.
    destruct (foldR take_in (acc p) (take b q)) as [a|e]; cbn [mbind result_bind]; [|done].
    eexists _, [], _. split; [|split].
    + rewrite (proj2 (Nat.ltb_ge _ _)); [done|]. rewrite length_app. lia.
    + split; cbn [acc processed position resume_key last]; [done..| |auto|done].
      rewrite <-drop_drop. rewrite length_take_le by done. by apply merged_drop.
    + rewrite length_app. lia.
  - rewrite take_app_ge by lia. replace (b - length q)%nat with (S (b - S (length q))) by lia.
    cbn [take]. rewrite (proj2 (Nat.ltb_lt _ _)) in Ev by done. rewrite take_ge in Ev by lia.
    rewrite foldR_app, Ev. destruct (foldR take_in (acc p) q) as [a1|e]; cbn [mbind result_bind]; [|done].
    cbn [foldR acc processed position resume_key].
    assert (take_in a1 (key, CCommitted r) = accept a1 key (CCommitted r)) as -> by done.
    destruct (accept a1 key (CCommitted r)) as [a2|e]; cbn [mbind result_bind]; [|done].
    set (resume := if max_entries =? usize_MAX then _ else _).
    set (p1 := mkProgress _ _ resume a2).
    assert (merged (drop (position p1) (pending_entries ids)) (committed_entries l) =
      drop (S (length q)) (merged (drop (position p) (pending_entries ids)) ((key, CCommitted r) :: committed_entries l))) as M.
    { change (position p1) with (position p + length q)%nat. rewrite merged_cons. fold q. rewrite <-drop_drop.
      unfold q at 1. rewrite drop_take_while. fold q.
      by rewrite (drop_app_ge q) by lia; replace (S (length q) - length q)%nat with 1%nat by lia. }
    assert (∀ k, resume_key p1 = Some k → good k) as G1.
    { cbn. unfold resume. destruct (max_entries =? usize_MAX); [done|]. intros k [= <-]. apply resume_good.
      { apply list_elem_of_fmap. exists (key, r). split; [done|]. apply Sub. constructor. }
      destruct (resume_key p) eqn:Er; cbn; auto. }
    assert (max_entries ≠ usize_MAX → ∃ k, resume_key p1 = Some k ∧ ∀ x, cmp_owned x k = cmp x key) as R1.
    { intros N. cbn. unfold resume. rewrite (proj2 (Z.eqb_neq _ _)) by done. eexists. split; [done|].
      intros x. apply resume_cmp. destruct (resume_key p) eqn:Er; cbn; auto. }
    change (processed p + Z.of_nat (length q) + 1 <? max_entries) with (processed p1 <? max_entries).
    destruct (Z.ltb_spec (processed p1) max_entries) as [Lt|Ge].
    + specialize (IH p1 ltac:(intros ? ?; apply Sub; by constructor) ltac:(intros; apply Sk; set_solver) Lt Gs G1). cbv zeta in IH.
      assert (drop_while (entry_before (key, CCommitted r)) (drop (position p) (pending_entries ids)) =
        drop (position p1) (pending_entries ids)) as ->.
      { change (position p1) with (position p + length q)%nat. rewrite <-drop_drop. symmetry. apply drop_take_while. }
      assert (Z.to_nat (max_entries - processed p1) = b - S (length q))%nat as Eb by (cbn; lia).
      rewrite Eb in IH. set (fr := front _ _) in *. cbn [acc] in IH. change (acc p1) with a2 in IH.
      destruct (foldR take_in a2 (take (b - S (length q)) fr)) as [a|e]; [|done].
      destruct IH as (p' & pre & rest & E & [Sa Sp Ss Sl Sg Sr] & Rest).
      exists p', ((key, r) :: pre), rest. split; [|split].
      * rewrite E. f_equal. f_equal. rewrite length_app. cbn [length]. apply iff_bool_eq.
        rewrite !Nat.ltb_lt. lia.
      * split; [done| | | |auto|].
        -- rewrite Sp. cbn [processed]. rewrite length_app. cbn [length]. lia.
        -- by rewrite Ss.
        -- rewrite Sl, M, drop_drop. f_equal. rewrite length_app. cbn [length]. lia.
        -- intros N. specialize (Sr N). destruct pre as [|c pre]; [cbn; rewrite Sr; by apply R1|].
           rewrite last_cons_cons. destruct (last (c :: pre)) eqn:El; [done|]. by apply last_None in El.
      * intros H'. apply Rest. rewrite length_app in H'. cbn [length] in H'. lia.
    + cbn in Ge. replace (b - S (length q))%nat with 0%nat by lia. rewrite take_0. cbn [foldR].
      exists p1, [(key, r)], l. split; [|split].
      * rewrite (proj2 (Nat.ltb_ge _ _)); [done|]. rewrite length_app. cbn [length]. lia.
      * split; [done| |done| |auto|done].
        -- cbn. rewrite length_app. cbn. lia.
        -- rewrite M. f_equal. rewrite length_app. cbn. lia.
      * rewrite length_app. cbn. lia.
Qed.

Lemma finish_spec max_entries l (p : Prog) : l ⊆ ids → processed p ≤ max_entries →
  let q := take (Z.to_nat (max_entries - processed p)) (pending_entries l) in
  finishP max_entries l p =
  (a ← foldR take_in (acc p) q;
   Ok (mkProgress (position p + length q) (processed p + Z.of_nat (length q)) (resume_key p) a)).
Proof using pending_ok.
  cbv zeta. revert p; induction l as [|id l IH]; intros [pos n r a] Sub Bd; cbn [processed] in Bd.
  { change (pending_entries []) with (@nil (Entry * CursorFactRef)). rewrite take_nil. cbn.
    by rewrite Nat.add_0_r, Z.add_0_r. }
  change (pending_entries (id :: l)) with ((entry_of id, CPending id) :: pending_entries l).
  cbn [finish_pending processed acc position resume_key]. destruct (Z.ltb_spec n max_entries).
  - replace (Z.to_nat (max_entries - n)) with (S (Z.to_nat (max_entries - (n + 1)))) by lia.
    cbn [take foldR]. rewrite pending_ok by (apply Sub; constructor).
    change (take_in a (entry_of id, CPending id)) with (accept a (entry_of id) (CPending id)).
    cbn [mbind result_bind].
    destruct (accept a (entry_of id) (CPending id)) as [a'|e]; cbn [mbind result_bind]; [|done].
    rewrite IH; [|by intros x X; apply Sub; constructor|cbn; lia]. cbn [acc processed position resume_key].
    destruct (foldR _ _ _); cbn [mbind result_bind]; [|done]. cbn [length]. do 2 f_equal; lia.
  - replace (Z.to_nat (max_entries - n)) with 0%nat by lia. cbn.
    by rewrite Nat.add_0_r, Z.add_0_r.
Qed.

(** The committed side: the entries [cs] of the range in strict order, visited
    from any resume key. *)
Context (reader : option CommittedIndexReader) (start0 : Key) (stop : option Key).
Hypothesis cs_sorted : StronglySorted (λ x y, cmp x.1 y.1 = Lt) cs.
Hypothesis start_good : good start0.
Hypothesis start_below : ∀ e, e ∈ cs → cmp_owned e.1 start0 ≠ Lt.
Hypothesis reader_ok :
  match reader with
  | Some rd => ∀ S start (f : S → Entry * FactRef → result (S * bool)) x, good start →
      visit_entries rd S start stop f x =
      visitR f x (List.filter (λ e, negb (bool_decide (cmp_owned e.1 start = Lt))) cs)
  | None => cs = []
  end.

(** The cursor has [rest] of the merge before it. *)
Record scanning (c : Cursor Key R) (rest : list (Entry * CursorFactRef)) : Prop := {
  sc_ids : c_pending c = ids;
  sc_reader : c_index_reader c = reader;
  sc_end : c_end c = stop;
  sc_rest : ∃ read unread, cs = read ++ unread ∧
    rest = merged (drop (pending_position c) (pending_entries ids)) (committed_entries unread) ∧
    if committed_complete c then unread = []
    else match last read with
         | None => last_key c = None ∧ next_start c = start0
         | Some e => good (next_start c) ∧ last_key c = Some (next_start c) ∧
                     ∀ x, cmp_owned x (next_start c) = cmp x e.1
         end;
}.

#[local] Abbreviation step :=
  (merge_step cmp_owned write_resume_key visit_entries compare_projection pending_entry accept).

(** The entries a step visits are the unread ones. *)
Lemma unread_visited (c : Cursor Key R) read unread : cs = read ++ unread →
  match last read with
  | None => last_key c = None ∧ next_start c = start0
  | Some e => good (next_start c) ∧ last_key c = Some (next_start c) ∧
              ∀ x, cmp_owned x (next_start c) = cmp x e.1
  end →
  List.filter (λ e, negb (skipped (last_key c) e))
    (List.filter (λ e, negb (bool_decide (cmp_owned e.1 (next_start c) = Lt))) cs) = unread.
Proof using Type*.
  intros E. destruct (last read) as [e|] eqn:L.
  - intros (_ & -> & K). rewrite E, !List.filter_app.
    assert (StronglySorted (λ x y, cmp x.1 y.1 = Lt) read) as S1.
    { rewrite E in cs_sorted. by apply StronglySorted_app in cs_sorted as (_ & ? & _). }
    rewrite (elem_of_nil_inv (List.filter _ (List.filter _ read))).
    + assert (∀ x, x ∈ unread → cmp x.1 e.1 = Gt) as G.
      { intros x. rewrite E in cs_sorted. by apply after_last with (l := read). }
      cbn [app]. rewrite (List_filter_id _ unread), List_filter_id; [done| |]; intros x X.
      * unfold skipped. by rewrite K, G.
      * by rewrite K, G.
    + intros x [N [_ X]%elem_of_List_filter]%elem_of_List_filter.
      unfold skipped in N. rewrite K in N. pose proof (last_greatest _ _ _ S1 L X).
      by destruct (cmp x.1 e.1).
  - intros [-> ->]. apply last_None in L as ->. cbn in E. subst unread.
    rewrite (List_filter_id _ cs), List_filter_id; [done|done|]. intros x X.
    rewrite bool_decide_false; [done|]. by apply start_below.
Qed.

(** What no step changes. *)
Definition same_view (c c' : Cursor Key R) : Prop :=
  c_as_of c' = c_as_of c ∧ c_valid_time c' = c_valid_time c ∧ c_fact_reader c' = c_fact_reader c ∧
  c_generation c' = c_generation c ∧ complete c' = complete c.

Lemma finish_phase (c : Cursor Key R) (p : Prog) max_entries : c_pending c = ids → c_index_reader c = reader →
  c_end c = stop → processed p ≤ max_entries →
  let rest := drop (position p) (pending_entries ids) in
  let b := Z.to_nat (max_entries - processed p) in
  match foldR take_in (acc p) (take b rest) with
  | Err e => finishP max_entries (drop (position p) (c_pending c)) p = Err e
  | Ok (r, v) => ∃ p', finishP max_entries (drop (position p) (c_pending c)) p = Ok p' ∧
      (acc p') = (r, v) ∧ processed p' = processed p + Z.of_nat (length (take b rest)) ∧
      scanning (advanced c p' (next_start c) true) (drop b rest) ∧
      (length (c_pending c) <=? position p')%nat = (length rest <=? b)%nat
  end.
Proof using Type*.
  intros Ei Er Ee Bd. cbv zeta. rewrite Ei, finish_spec by (done || apply subseteq_drop).
  rewrite pending_entries_drop.
  set (rest := drop (position p) (pending_entries ids)). set (b := Z.to_nat _).
  assert (length rest = length ids - position p)%nat as Lr.
  { unfold rest, pending_entries. by rewrite length_drop, length_fmap. }
  destruct (foldR take_in (acc p) (take b rest)) as [[r v]|e]; cbn [mbind result_bind]; [|done].
  eexists. split; [done|]. cbn [acc processed position]. split_and!; [done|done| |].
  - split; [done..|]. exists cs, []. rewrite app_nil_r. split_and!; [done| |done].
    cbn [advanced pending_position committed_entries fmap list_fmap position]. unfold merged. cbn [front left_over app].
    rewrite <-drop_drop. fold rest. rewrite length_take.
    destruct (le_lt_dec b (length rest)); [by rewrite Nat.min_l|].
    rewrite Nat.min_r by lia. by rewrite !drop_ge by lia.
  - apply iff_bool_eq. rewrite !Nat.leb_le, length_take. lia.
Qed.

Lemma visit_range_unread (c : Cursor Key R) rest max_entries read unread p :
  scanning c rest → committed_complete c = false → cs = read ++ unread →
  match last read with
  | None => last_key c = None ∧ next_start c = start0
  | Some e => good (next_start c) ∧ last_key c = Some (next_start c) ∧
              ∀ x, cmp_owned x (next_start c) = cmp x e.1
  end →
  visit_range cmp_owned write_resume_key visit_entries compare_projection pending_entry accept max_entries c p =
  visitR (visitP max_entries (last_key c) (next_start c) ids) p unread.
Proof using Type*.
  intros [Ei Er Ee _] _ E L. unfold visit_range. rewrite Er, Ei, Ee.
  rewrite <-(unread_visited c read unread E L), <-visit_skips. destruct reader as [rd|].
  - apply reader_ok. destruct (last read); [by destruct L|]. by destruct L as [_ ->].
  - by rewrite reader_ok.
Qed.

(** The outcome of a step: the budget's worth of [rest] has been taken in, and the
    step says so when nothing is left. *)
Definition stepped (c : Cursor Key R) (rest : list (Entry * CursorFactRef)) (n : nat)
    (r : R) (v : V) (out : result (Cursor Key R * V * Z * bool)) : Prop :=
  ∃ c' done, out = Ok (c', v, Z.of_nat (length (take n rest)), done) ∧
    scanning c' (drop n rest) ∧ reduced c' = r ∧ same_view c c' ∧
    (done = true → (length rest ≤ n)%nat) ∧ ((length rest < n)%nat → done = true).

Lemma step_committed_done c rest max_entries v :
  scanning c rest → committed_complete c = true → 0 < max_entries →
  let n := Z.to_nat max_entries in
  match foldR take_in (reduced c, v) (take n rest) with
  | Err e => step c max_entries v = Err e
  | Ok (r, v') => stepped c rest n r v' (step c max_entries v)
  end.
Proof using Type*.
  intros [Ei Er Ee (read & unread & _ & -> & Cc)] Ec Bd. rewrite Ec in Cc. subst unread. cbv zeta.
  unfold merge_step. rewrite Ec. cbn [mbind result_bind committed_entries fmap list_fmap]. unfold merged. cbn [front left_over app].
  set (p := mkProgress (pending_position c) 0 (last_key c) (reduced c, v)).
  pose proof (finish_phase c p max_entries Ei Er Ee ltac:(cbn; lia)) as F. cbv zeta in F.
  replace (max_entries - processed p) with max_entries in F by (cbn; lia).
  change (acc p) with (reduced c, v) in F. change (position p) with (pending_position c) in *.
  destruct (foldR _ _ _) as [[r v']|e]; [|by rewrite F].
  destruct F as (p' & -> & Ea & Ep & Sc & D). cbn [mbind result_bind]. rewrite Ea, Ep, D.
  eexists _, _. split; [done|]. split_and!; [done|by cbn; rewrite Ea|done| |].
  - apply Nat.leb_le.
  - intros ?. apply Nat.leb_le. lia.
Qed.

(** A step stopped by its budget leaves a cursor that resumes where it stopped. *)
Lemma yielded_scanning (c : Cursor Key R) rest read unread pre unread' p p' used a max_entries :
  scanning c rest → max_entries ≠ usize_MAX → cs = read ++ unread →
  match last read with
  | None => last_key c = None ∧ next_start c = start0
  | Some e => good (next_start c) ∧ last_key c = Some (next_start c) ∧
              ∀ x, cmp_owned x (next_start c) = cmp x e.1
  end →
  resume_key p = last_key c → position p = pending_position c →
  (∀ k, resume_key p = Some k → good k) →
  stopped max_entries unread p p' used a pre unread' →
  scanning (advanced c p' (default (next_start c) (resume_key p')) false)
    (drop used (merged (drop (pending_position c) (pending_entries ids)) (committed_entries unread))).
Proof using Type*.
  intros [Ei Er Ee _] N E L Rk Pp Gk [Sa Sp Ss Sl Sg Sr]. split; [done..|].
  exists (read ++ pre), unread'. split_and!.
  - by rewrite E, Ss, app_assoc.
  - cbn [advanced pending_position]. by rewrite Sl, Pp.
  - specialize (Sr N). specialize (Sg Gk). cbn [advanced committed_complete last_key next_start].
    rewrite last_app. destruct (last pre) as [e|].
    + destruct Sr as (k & Ek & K). rewrite Ek in *. cbn. auto.
    + rewrite Sr, Rk. rewrite Rk in Gk. destruct (last read) as [e|].
      * destruct L as (G & -> & K). by cbn.
      * destruct L as [-> ->]. by cbn.
Qed.

Lemma merge_step_spec c rest max_entries v :
  scanning c rest → 0 < max_entries → (max_entries = usize_MAX → Z.of_nat (length rest) < usize_MAX) →
  let n := Z.to_nat max_entries in
  match foldR take_in (reduced c, v) (take n rest) with
  | Err e => step c max_entries v = Err e
  | Ok (r, v') => stepped c rest n r v' (step c max_entries v)
  end.
Proof using Type*.
  intros Sc Bd Un. destruct (committed_complete c) eqn:Ec; [by apply step_committed_done|].
  pose proof Sc as [Ei Er Ee (read & unread & E & -> & L)]. rewrite Ec in L. cbv zeta.
  set (p := mkProgress (pending_position c) 0 (last_key c) (reduced c, v)).
  unfold merge_step. rewrite Ec. fold p.
  rewrite (visit_range_unread c _ max_entries read unread p Sc Ec E L).
  assert (good (next_start c) ∧ ∀ k, resume_key p = Some k → good k) as [Gs Gk].
  { cbn. destruct (last read); destruct L as [L1 L2]; [by destruct L2 as [-> _]; split; [|intros k [= <-]]|].
    rewrite L1, L2. by split. }
  assert (∀ x, x ∈ unread → skipped (last_key c) x = false) as Sk.
  { intros x. rewrite <-(unread_visited c read unread E L). intros [N _]%elem_of_List_filter.
    by destruct (skipped _ x). }
  assert (unread ⊆ cs) as Su by (rewrite E; intros ? ?; apply elem_of_app; by right).
  pose proof (visit_spec max_entries (last_key c) (next_start c) unread p Su Sk Bd Gs Gk) as Vs. cbv zeta in Vs.
  replace (max_entries - processed p) with max_entries in Vs by (cbn; lia).
  change (position p) with (pending_position c) in Vs. change (acc p) with (reduced c, v) in Vs.
  set (n := Z.to_nat max_entries) in *. unfold merged in *.
  set (fr := front _ _) in *. set (lo := left_over _ _) in *.
  destruct (le_lt_dec n (length fr)) as [Ln|Ln].
  - rewrite take_app_le by done. destruct (foldR _ _ _) as [[r v']|e]; [|by rewrite Vs].
    destruct Vs as (p' & pre & rest & -> & St & _). rewrite (proj2 (Nat.ltb_ge _ _)) by done.
    cbn [mbind result_bind]. rewrite (st_acc _ _ _ _ _ _ _ _ St), (st_processed _ _ _ _ _ _ _ _ St).
    assert (max_entries ≠ usize_MAX) as N.
    { intros Em. specialize (Un Em). rewrite length_app in Un. unfold n in Ln. lia. }
    rewrite (proj2 (Z.eqb_neq _ _) N). eexists _, false.
    rewrite take_app_le by done. split; [done|]. split_and!; [| |done|done|].
    + pose proof (yielded_scanning c _ read unread pre rest p p' _ _ _ Sc N E L eq_refl eq_refl Gk St) as Y.
      rewrite length_take_le in Y by done. exact Y.
    + cbn. by rewrite (st_acc _ _ _ _ _ _ _ _ St).
    + rewrite length_app. lia.
  - rewrite take_app_ge, foldR_app by lia. rewrite take_ge in Vs by lia.
    destruct (foldR _ _ _) as [a|e]; cbn [mbind result_bind]; [|by rewrite Vs].
    destruct Vs as (p' & pre & rest & -> & St & Re). rewrite (proj2 (Nat.ltb_lt _ _)) by done.
    cbn [mbind result_bind]. specialize (Re Ln) as ->. destruct St as [Sa Sp Ss Sl Sg Sr].
    unfold merged in Sl. change (position p) with (pending_position c) in Sl. fold fr lo in Sl.
    cbn [committed_entries fmap list_fmap front left_over app] in Sl.
    rewrite (drop_app_length fr) in Sl. rewrite Z.add_0_l in Sp.
    set (c1 := advanced c p' _ true).
    pose proof (finish_phase c1 p' max_entries Ei Er Ee ltac:(rewrite Sp; lia)) as F. cbv zeta in F.
    rewrite Sl, Sa in F. replace (Z.to_nat (max_entries - processed p')) with (n - length fr)%nat in F by (rewrite Sp; lia).
    destruct (foldR _ _ _) as [[r v']|e]; [|by rewrite F].
    destruct F as (p2 & -> & Ea & Ep & Sc' & D). cbn [mbind result_bind]. rewrite Ea, Ep, Sp, D.
    eexists _, _. rewrite (take_app_ge fr), length_app by lia.
    split; [rewrite Nat2Z.inj_add; done|]. split_and!; [|by cbn; rewrite Ea|done| |].
    + rewrite (drop_app_ge fr) by lia. exact Sc'.
    + rewrite Nat.leb_le, length_app. lia.
    + rewrite Nat.leb_le, length_app. lia.
Qed.

(** Driving the cursor takes in the whole merge, in order, unless the budgets are
    used up before. *)
Context (accept_of : option AsOf → CurrentValidTime → option CommittedFactReader →
           R * V → Entry → CursorFactRef → result (R * V)).
Context (finish : CurrentValidTime → option CommittedFactReader → R * V → result (R * V)).
Context (generation : Z) (stale : string) (as_of : option AsOf) (valid_time : CurrentValidTime)
  (fact_reader : option CommittedFactReader).
Hypothesis accept_eq : accept = accept_of as_of valid_time fact_reader.
#[local] Abbreviation driveP :=
  (drive cmp_owned write_resume_key visit_entries compare_projection pending_entry accept_of finish generation stale).

Record driving (c : Cursor Key R) (rest : list (Entry * CursorFactRef)) : Prop := {
  dr_scanning : scanning c rest;
  dr_as_of : c_as_of c = as_of;
  dr_valid_time : c_valid_time c = valid_time;
  dr_reader : c_fact_reader c = fact_reader;
  dr_generation : c_generation c = generation;
  dr_open : complete c = false;
}.

Lemma drive_cases budgets c rest v : driving c rest →
  Forall (λ n, 0 < n ∧ (n = usize_MAX → Z.of_nat (length rest) < usize_MAX)) budgets →
  driveP c v budgets =
    ('(r, v) ← foldR take_in (reduced c, v) rest;
     '(r, v) ← finish valid_time fact_reader (r, v); Ok (v, true)) ∨
  sum_Z budgets ≤ Z.of_nat (length rest) ∧ ∃ v', driveP c v budgets = Ok (v', false).
Proof using Type*.
  revert c rest v; induction budgets as [|n budgets IH]; intros c rest v D Fb.
  { right. split; [cbn; lia|]. by exists v. }
  apply Forall_cons in Fb as [[Hn Un] Fb]. destruct D as [Sc Da Dv Dr Dg Do].
  cbn [drive]. unfold cursor_step. rewrite Do, Da, Dv, Dr, Dg, Z.eqb_refl, <-accept_eq. cbn [ensure mbind result_bind].
  pose proof (merge_step_spec c rest n v Sc Hn Un) as St. cbv zeta in St.
  rewrite <-(take_drop (Z.to_nat n) rest) at 1. rewrite foldR_app.
  destruct (foldR take_in (reduced c, v) (take (Z.to_nat n) rest)) as [[r v']|e]; cbn [mbind result_bind];
    [|left; by rewrite St].
  destruct St as (c' & done & -> & Sc' & <- & (Ea & Ev & Er & Eg & Eo) & D1 & D2). cbn [mbind result_bind].
  rewrite Ev, Er, Dv, Dr. destruct done.
  - left. rewrite drop_ge by auto. cbn [foldR mbind result_bind].
    by destruct (finish valid_time fact_reader (reduced c', v')) as [[r v2]|e].
  - assert (Z.to_nat n ≤ length rest)%nat as Ln.
    { destruct (le_lt_dec (Z.to_nat n) (length rest)) as [|L]; [done|]. by specialize (D2 L). }
    destruct (IH c' (drop (Z.to_nat n) rest) v') as [E|[Su E]].
    + split; congruence.
    + eapply Forall_impl; [exact Fb|]. intros m [M1 M2]. split; [done|]. intros Em. specialize (M2 Em).
      rewrite length_drop. lia.
    + by left.
    + right. split; [|done]. rewrite length_drop in Su. change (sum_Z (n :: budgets)) with (n + sum_Z budgets). lia.
Qed.
End step_spec.
