(* ===== verification/CurrentState.v ===== *)
(** The reducers behind the current-value cursors (src/src/graph/storage.rs):
    [CurrentValueState] keeps, for one value, the newest assertion of each window
    and the newest retractions; [CurrentAttributeValues] keeps the states of an
    entity's values, the first one inline.

    [reduces] says what a state knows of the facts it has seen, [values_visible]
    that the rows it yields are those that no retraction cancels, and the
    inline slot is shown to be an optimisation of the map. *)
From S2P Require Import Prelude Types ValueCodec NetView SortedRuns Index PendingOverlay FactStore MergeScan.

(** * Definitions *)

Record CurrentValueState : Type := mkState {
  max_unscoped : Z;
  max_scoped : gmap (Z * Z) Z;
  assertions : gmap (Z * Z) (Z * CursorFactRef);
}.
(** [CurrentValueState::default] and [clear]. *)
Definition state_new : CurrentValueState := mkState 0 ∅ ∅.

Definition windows (st : CurrentValueState) : nat := size (assertions st) + size (max_scoped st).

(** The flag says that a window was added. *)
Definition reduce_current_state (st : CurrentValueState) (valid_from valid_to tx_count : Z) (asserted : bool)
    (fact_ref : CursorFactRef) : CurrentValueState * bool :=
  let w := (valid_from, valid_to) in
  let st' :=
    if asserted then
      let winner := match assertions st !! w with
                    | Some (tx, r) => if tx <? tx_count then (tx_count, fact_ref) else (tx, r)
                    | None => (tx_count, fact_ref)
                    end in
      mkState (max_unscoped st) (max_scoped st) (<[w := winner]> (assertions st))
    else if is_unscoped_window valid_from valid_to then
      mkState (Z.max (max_unscoped st) tx_count) (max_scoped st) (assertions st)
    else
      mkState (max_unscoped st)
        (<[w := match max_scoped st !! w with Some tx => Z.max tx tx_count | None => tx_count end]>
           (max_scoped st))
        (assertions st) in
  (st', (windows st <? windows st')%nat).

Definition reduce_key (st : CurrentValueState) (key : CurrentAevtEntryRef.t) (fact_ref : CursorFactRef)
    : CurrentValueState * bool :=
  reduce_current_state st (CurrentAevtEntryRef.valid_from key) (CurrentAevtEntryRef.valid_to key)
    (CurrentAevtEntryRef.tx_count key) (CurrentAevtEntryRef.asserted key) fact_ref.

#[local] Arguments reduce_key : simpl never.

Definition reduce_current_entry (values : gmap bytes CurrentValueState) (key : CurrentAevtEntryRef.t)
    (fact_ref : CursorFactRef) : gmap bytes CurrentValueState * bool :=
  let b := CurrentAevtEntryRef.value_bytes key in
  if bool_decide (values = ∅) then
    let '(st, added) := reduce_key state_new key fact_ref in (<[b := st]> values, added)
  else match values !! b with
       | Some st => let '(st, added) := reduce_key st key fact_ref in (<[b := st]> values, added)
       | None => let '(st, added) := reduce_key state_new key fact_ref in (<[b := st]> values, added)
       end.

Record CurrentAttributeValues : Type := mkValues {
  inline_value_bytes : bytes;
  inline_state : CurrentValueState;
  inline_active : bool;
  overflow : gmap bytes CurrentValueState;
}.
(** [CurrentAttributeValues::default] and [clear]. *)
Definition values_new : CurrentAttributeValues := mkValues [] state_new false ∅.

Definition values_len (vs : CurrentAttributeValues) : Z :=
  sat_add_u64 (Z.b2z (inline_active vs)) (Z.of_nat (size (overflow vs))).

Definition values_iter (vs : CurrentAttributeValues) : list (bytes * CurrentValueState) :=
  (if inline_active vs then [(inline_value_bytes vs, inline_state vs)] else []) ++ map_to_list (overflow vs).

Definition values_reduce (vs : CurrentAttributeValues) (key : CurrentAevtEntryRef.t) (fact_ref : CursorFactRef)
    : CurrentAttributeValues * bool :=
  let b := CurrentAevtEntryRef.value_bytes key in
  if negb (bool_decide (overflow vs = ∅)) then
    let '(m, added) := reduce_current_entry (overflow vs) key fact_ref in
    (mkValues (inline_value_bytes vs) (inline_state vs) (inline_active vs) m, added)
  else if negb (inline_active vs) then
    let '(st, added) := reduce_key (inline_state vs) key fact_ref in
    (mkValues (inline_value_bytes vs ++ b) st true (overflow vs), added)
  else if bool_decide (inline_value_bytes vs = b) then
    let '(st, added) := reduce_key (inline_state vs) key fact_ref in
    (mkValues (inline_value_bytes vs) st true (overflow vs), added)
  else
    let '(m, added) := reduce_current_entry (<[inline_value_bytes vs := inline_state vs]> (overflow vs)) key fact_ref in
    (mkValues [] state_new false m, added).

Definition scoped_retract (st : CurrentValueState) (w : Z * Z) : Z := default 0 (max_scoped st !! w).

(** The test every cursor applies to a window before it emits it. *)
Definition window_visible (valid_time : CurrentValidTime) (st : CurrentValueState) (w : Z * Z) (assert_tx : Z) : bool :=
  negb ((assert_tx <=? Z.max (max_unscoped st) (scoped_retract st w)) ||
        match valid_time with At t => negb ((w.1 <=? t) && (t <? w.2)) | Any => false end).

(** * What a state knows *)

(** The index entry of a fact, as the AEVT projection presents it. *)
Definition entry_of_fact (f : Fact) : CurrentAevtEntryRef.t := CurrentAevtEntryRef.from_owned (aevt_key_of f).
Definition window_of (f : Fact) : Z * Z := (valid_from f, valid_to f).

Abbreviation Located := (Fact * CursorFactRef)%type (only parsing).

(** [st] has seen the facts of [l] that [sel] selects. *)
Record reduces (sel : Fact → bool) (l : list Located) (st : CurrentValueState) : Prop := {
  rd_assertions w :
    match assertions st !! w with
    | None => ∀ x, x ∈ l → sel x.1 = true → asserted x.1 = true → window_of x.1 ≠ w
    | Some (tx, r) => ∃ f, (f, r) ∈ l ∧ sel f = true ∧ asserted f = true ∧ window_of f = w ∧ tx = tx_count f ∧
        ∀ x, x ∈ l → sel x.1 = true → asserted x.1 = true → window_of x.1 = w → tx_count x.1 ≤ tx
    end;
  rd_scoped w t : scoped_retract st w < t ↔
    0 < t ∧ ∀ x, x ∈ l → sel x.1 = true → sel_scoped x.1 = true → window_of x.1 = w → tx_count x.1 < t;
  rd_unscoped t : max_unscoped st < t ↔
    0 < t ∧ ∀ x, x ∈ l → sel x.1 = true → sel_unscoped x.1 = true → tx_count x.1 < t;
}.

Lemma reduces_new sel : reduces sel [] state_new.
Proof.
  split; cbn.
  - intros w. rewrite lookup_empty. by intros x ?%elem_of_nil.
  - intros w t. unfold scoped_retract. cbn. rewrite lookup_empty. cbn. split; [|by intros []].
    intros ?. split; [done|]. by intros x ?%elem_of_nil.
  - intros t. split; [|by intros []]. intros ?. split; [done|]. by intros x ?%elem_of_nil.
Qed.

Lemma forall_snoc {A} (P : A → Prop) l x : (∀ y, y ∈ l ++ [x] → P y) ↔ (∀ y, y ∈ l → P y) ∧ P x.
Proof. setoid_rewrite elem_of_app. setoid_rewrite list_elem_of_singleton. naive_solver. Qed.

Lemma imp_known (P Q : Prop) : P → (P → Q) ↔ Q.
Proof. tauto. Qed.

#[local] Ltac by_snoc := rewrite forall_snoc; cbn [fst snd]; intuition congruence.

Lemma reduces_skip sel l st x : reduces sel l st → sel x.1 = false → reduces sel (l ++ [x]) st.
Proof.
  intros [A S U] N. split.
  - intros w. specialize (A w). destruct (assertions st !! w) as [[tx r]|].
    + destruct A as (f & I & A). exists f. rewrite elem_of_app. by_snoc.
    + by_snoc.
  - intros w t. rewrite S. by_snoc.
  - intros t. rewrite U. by_snoc.
Qed.

Lemma reduces_step sel l st f r : reduces sel l st → sel f = true → 0 ≤ tx_count f →
  reduces sel (l ++ [(f, r)]) (reduce_key st (entry_of_fact f) r).1.
Proof.
  intros [A S U] Sf Nn. unfold reduce_key, reduce_current_state. cbn [entry_of_fact CurrentAevtEntryRef.from_owned
    aevt_key_of ak_valid_from ak_valid_to ak_tx_count ak_asserted CurrentAevtEntryRef.valid_from
    CurrentAevtEntryRef.valid_to CurrentAevtEntryRef.tx_count CurrentAevtEntryRef.asserted fst].
  fold (window_of f).
  assert (sel_scoped f = negb (asserted f) && negb (is_unscoped_window (valid_from f) (valid_to f))) as Es by done.
  assert (sel_unscoped f = negb (asserted f) && is_unscoped_window (valid_from f) (valid_to f)) as Eu by done.
  destruct (asserted f) eqn:Af; [|destruct (is_unscoped_window (valid_from f) (valid_to f)) eqn:Uf]; cbn in Es, Eu.
  - split; unfold scoped_retract in *; cbn [assertions max_scoped max_unscoped];
      [|intros w t; rewrite S; by_snoc|
        intros t; rewrite U; by_snoc].
    intros w. specialize (A w). destruct (decide (window_of f = w)) as [<-|N].
    + rewrite lookup_insert_eq. destruct (assertions st !! window_of f) as [[tx q]|].
      * destruct A as (g & I & Sg & Ag & Wg & -> & M). destruct (Z.ltb_spec (tx_count g) (tx_count f)).
        -- exists f. rewrite elem_of_app, list_elem_of_singleton, forall_snoc. split_and!; try by auto.
           intros x X X1 X2 X3. specialize (M x X X1 X2 X3). lia.
        -- exists g. rewrite elem_of_app, forall_snoc. split_and!; auto. 
      * exists f. rewrite elem_of_app, list_elem_of_singleton, forall_snoc. split_and!; try by auto.
        intros x X X1 X2 X3. by destruct (A x X X1 X2).
    + rewrite lookup_insert_ne by done. destruct (assertions st !! w) as [[tx q]|].
      * destruct A as (g & I & A). exists g. rewrite elem_of_app. by_snoc.
      * by_snoc.
  - split; unfold scoped_retract in *; cbn [assertions max_scoped max_unscoped].
    + intros w. specialize (A w). destruct (assertions st !! w) as [[tx q]|]; [|by_snoc].
      destruct A as (g & I & A). exists g. rewrite elem_of_app. by_snoc.
    + intros w t; rewrite S; by_snoc.
    + intros t. rewrite Z.max_lub_lt_iff, U, forall_snoc. cbn [fst].
      rewrite (imp_known _ _ Sf), (imp_known _ _ Eu). tauto.
  - split; unfold scoped_retract in *; cbn [assertions max_scoped max_unscoped].
    + intros w. specialize (A w). destruct (assertions st !! w) as [[tx q]|]; [|by_snoc].
      destruct A as (g & I & A). exists g. rewrite elem_of_app. by_snoc.
    + intros w t. destruct (decide (window_of f = w)) as [<-|N].
      * rewrite lookup_insert_eq. cbn [default from_option id]. specialize (S (window_of f) t). rewrite forall_snoc. cbn [fst].
        rewrite (imp_known _ _ Sf), (imp_known _ _ Es), (imp_known _ _ eq_refl).
        destruct (max_scoped st !! window_of f) as [tx|]; cbn in S; [rewrite Z.max_lub_lt_iff, S; tauto|].
        split; [intros L|tauto]. assert (0 < t) as P%S by lia. tauto.
      * rewrite lookup_insert_ne by done. rewrite S. by_snoc.
    + intros t; rewrite U; by_snoc.
Qed.

(** * The states of an entity's values *)

(** States keyed by what tells the triples apart: the value's bytes or the entity. *)
Section knowledge.
Context {B : Type} `{Countable B} (key_of : Fact → B).

Definition has_key (b : B) (f : Fact) : bool := bool_decide (key_of f = b).

Definition knows_by (l : list Located) (m : gmap B CurrentValueState) : Prop :=
  ∀ b, reduces (has_key b) l (default state_new (m !! b)).

Lemma knows_nil : knows_by [] ∅.
Proof using. intros b. rewrite lookup_empty. apply reduces_new. Qed.

Lemma knows_by_step l m f r : knows_by l m → 0 ≤ tx_count f →
  knows_by (l ++ [(f, r)]) (<[key_of f := (reduce_key (default state_new (m !! key_of f)) (entry_of_fact f) r).1]> m).
Proof using.
  intros K N b. destruct (decide (key_of f = b)) as [<-|D].
  - rewrite lookup_insert_eq. apply reduces_step; [apply K| |done]. by apply bool_decide_eq_true.
  - rewrite lookup_insert_ne by done. apply reduces_skip; [apply K|]. by apply bool_decide_eq_false.
Qed.
End knowledge.

Definition value_key (f : Fact) : bytes := encode_value (value f).
Abbreviation knows := (knows_by value_key).

Lemma reduce_current_entry_eq m key r :
  (reduce_current_entry m key r).1 =
  <[CurrentAevtEntryRef.value_bytes key :=
      (reduce_key (default state_new (m !! CurrentAevtEntryRef.value_bytes key)) key r).1]> m.
Proof.
  unfold reduce_current_entry. case_bool_decide as E.
  - subst. rewrite lookup_empty. cbn [default from_option id]. by destruct (reduce_key state_new key r).
  - destruct (m !! _) as [st|]; cbn [default from_option id];
      [by destruct (reduce_key st key r)|by destruct (reduce_key state_new key r)].
Qed.

Lemma knows_step l m f r : knows l m → 0 ≤ tx_count f →
  knows (l ++ [(f, r)]) (reduce_current_entry m (entry_of_fact f) r).1.
Proof. intros K N. rewrite reduce_current_entry_eq. by apply (knows_by_step value_key). Qed.

(** The inline slot holds the only state, or nothing. *)
Definition values_wf (vs : CurrentAttributeValues) : Prop :=
  if inline_active vs then overflow vs = ∅ else inline_value_bytes vs = [] ∧ inline_state vs = state_new.
Definition values_map (vs : CurrentAttributeValues) : gmap bytes CurrentValueState :=
  if inline_active vs then {[inline_value_bytes vs := inline_state vs]} else overflow vs.

Lemma values_iter_map vs : values_wf vs → values_iter vs ≡ₚ map_to_list (values_map vs).
Proof.
  unfold values_wf, values_map, values_iter. destruct (inline_active vs); [|done].
  intros ->. by rewrite map_to_list_empty, map_to_list_singleton.
Qed.

Lemma values_reduce_map vs key r : values_wf vs →
  values_wf (values_reduce vs key r).1 ∧
  values_map (values_reduce vs key r).1 = (reduce_current_entry (values_map vs) key r).1.
Proof.
  unfold values_wf, values_map, values_reduce. rewrite reduce_current_entry_eq.
  set (b := CurrentAevtEntryRef.value_bytes key).
  destruct (inline_active vs) eqn:Ia.
  - intros ->. rewrite bool_decide_true by done. cbn [negb]. case_bool_decide as E.
    + destruct (reduce_key _ _ _) as [st ad] eqn:Er. cbn. split; [done|].
      rewrite E, lookup_singleton_eq. cbn. by rewrite Er, insert_singleton_eq.
    + destruct (reduce_current_entry _ _ _) as [m ad] eqn:Em. cbn. split; [done|].
      pose proof (reduce_current_entry_eq (<[inline_value_bytes vs := inline_state vs]> ∅) key r) as Q.
      rewrite Em, <-insert_empty in *. exact Q.
  - intros [Eb Es]. case_bool_decide as E; cbn [negb].
    + rewrite Es, Eb. destruct (reduce_key _ _ _) as [st ad] eqn:Er. cbn. split; [done|].
      rewrite E, lookup_empty. cbn. by rewrite Er.
    + destruct (reduce_current_entry _ _ _) as [m ad] eqn:Em. cbn. split; [done|].
      pose proof (reduce_current_entry_eq (overflow vs) key r) as Q. by rewrite Em in Q.
Qed.

(** * The rows a state yields *)

Definition visible_windows {B} (valid_time : CurrentValidTime) (values : list (B * CurrentValueState))
    : list (B * (Z * Z) * CursorFactRef) :=
  flat_map (λ '(b, st), omap (λ '(w, (tx, r)),
      if window_visible valid_time st w tx then Some (b, w, r) else None) (map_to_list (assertions st))) values.

(** An assertion that no retraction of the log cancels. *)
Definition visible (log : list Fact) (f : Fact) : Prop :=
  f ∈ log ∧ asserted f = true ∧ 0 < tx_count f ∧
  ∀ g, g ∈ log → cancels g f = true → tx_count g < tx_count f.
Definition valid_during (valid_time : CurrentValidTime) (w : Z * Z) : Prop :=
  match valid_time with At t => w.1 ≤ t < w.2 | Any => True end.

Lemma window_visible_spec vt st w tx :
  window_visible vt st w tx = true ↔ max_unscoped st < tx ∧ scoped_retract st w < tx ∧ valid_during vt w.
Proof.
  unfold window_visible, valid_during. rewrite negb_true_iff, orb_false_iff, Z.leb_gt.
  destruct vt as [t|]; [rewrite negb_false_iff, andb_true_iff, Z.leb_le, Z.ltb_lt|]; lia.
Qed.

Section shown.
Context {B : Type} `{Countable B} (key_of : Fact → B).

(** The key tells the triples of the log apart. *)
Definition coherent_by (log : list Fact) : Prop :=
  ∀ f g, f ∈ log → g ∈ log → eav_key f = eav_key g ↔ key_of f = key_of g.

Lemma elem_of_visible_windows vt (m : gmap B CurrentValueState) b w r :
  (b, w, r) ∈ visible_windows vt (map_to_list m) ↔
  ∃ st tx, m !! b = Some st ∧ assertions st !! w = Some (tx, r) ∧ window_visible vt st w tx = true.
Proof using.
  unfold visible_windows. rewrite elem_of_flat_map. split.
  - intros ([b' st] & Mb & I). apply elem_of_map_to_list in Mb. apply list_elem_of_omap in I as ([w' [tx r']] & I & E).
    apply elem_of_map_to_list in I. destruct (window_visible vt st w' tx) eqn:V; [|done].
    injection E as -> -> ->. eauto.
  - intros (st & tx & Mb & I & V). exists (b, st). split; [by apply elem_of_map_to_list|].
    apply list_elem_of_omap. exists (w, (tx, r)). split; [by apply elem_of_map_to_list|]. by rewrite V.
Qed.

Lemma cancels_cases log f g : coherent_by log → f ∈ log → g ∈ log →
  cancels g f = true ↔
  has_key key_of (key_of f) g = true ∧
  (sel_unscoped g = true ∨ sel_scoped g = true ∧ window_of g = window_of f).
Proof using.
  intros C If Ig. unfold cancels, sel_unscoped, sel_scoped, has_key. rewrite !bool_decide_eq_true.
  rewrite <-(C g f) by done.
  destruct (asserted g); cbn; [naive_solver|].
  destruct (is_unscoped_window _ _); cbn; rewrite bool_decide_eq_true.
  - intuition.
  - unfold window_key, window_of. split; [intros [= ? ? ? ? ?]; split; [unfold eav_key|]; intuition congruence|].
    intros [-> [?|[_ [= -> ->]]]]; done.
Qed.

Lemma visible_sound vt l m b w r : knows_by key_of l m → coherent_by l.*1 →
  (b, w, r) ∈ visible_windows vt (map_to_list m) →
  ∃ f, (f, r) ∈ l ∧ key_of f = b ∧ window_of f = w ∧ visible l.*1 f ∧ valid_during vt w.
Proof using.
  intros K C (st & tx & Mb & As & V)%elem_of_visible_windows. specialize (K b). rewrite Mb in K. cbn in K.
  destruct K as [A S U]. specialize (A w). rewrite As in A.
  destruct A as (f & If & Bf & Af & Wf & -> & _). apply window_visible_spec in V as (Vu & Vs & Vd).
  apply bool_decide_eq_true in Bf as Eb. apply U in Vu as [P Vu]. apply S in Vs as [_ Vs].
  apply (list_elem_of_fmap_2 fst) in If as If1. cbn in If1.
  exists f. split_and!; [done..| |done]. split_and!; [done..|].
  intros g Ig [Bg X]%(cancels_cases _ _ _ C If1 Ig).
  apply list_elem_of_fmap in Ig as ([g' r'] & -> & Ig). rewrite Eb in Bg.
  destruct X as [X|[X Wg]]; [by apply (Vu (g', r'))|apply (Vs (g', r')); [done..|congruence]].
Qed.

Lemma visible_complete vt l m f : knows_by key_of l m → coherent_by l.*1 → visible l.*1 f → valid_during vt (window_of f) →
  ∃ r, (key_of f, window_of f, r) ∈ visible_windows vt (map_to_list m).
Proof using.
  intros K C (If & Af & Pf & Cf) Vd. specialize (K (key_of f)).
  destruct K as [A S U]. specialize (A (window_of f)).
  assert (∃ q, (f, q) ∈ l) as [q Iq] by (apply list_elem_of_fmap in If as ([? q] & -> & ?); by exists q).
  assert (has_key key_of (key_of f) f = true) as Bf by by apply bool_decide_eq_true.
  destruct (assertions _ !! _) as [[tx r]|] eqn:As; [|by destruct (A (f, q) Iq Bf Af)].
  destruct A as (g & Ig & Bg & Ag & Wg & -> & M). specialize (M (f, q) Iq Bf Af eq_refl). cbn in M.
  exists r. apply elem_of_visible_windows. destruct (m !! _) as [st|] eqn:Mb; cbn in As; [|by rewrite lookup_empty in As].
  cbn in S, U. eexists _, _. split_and!; [done..|]. apply window_visible_spec. rewrite U, S. split_and!; [lia| |lia| |done].
  - intros [x qx] Ix Bx Sx. cbn in *. apply Z.lt_le_trans with (tx_count f); [|done].
    apply Cf; [by apply (list_elem_of_fmap_2 fst) in Ix|].
    apply (cancels_cases l.*1); [done|done|by apply (list_elem_of_fmap_2 fst) in Ix|]. auto.
  - intros [x qx] Ix Bx Sx Wx. cbn in *. apply Z.lt_le_trans with (tx_count f); [|done].
    apply Cf; [by apply (list_elem_of_fmap_2 fst) in Ix|].
    apply (cancels_cases l.*1); [done|done|by apply (list_elem_of_fmap_2 fst) in Ix|]. auto.
Qed.

(** Each value and window is yielded once. *)
Lemma visible_windows_keys vt (m : gmap B CurrentValueState) : NoDup (fst <$> visible_windows vt (map_to_list m)).
Proof using.
  unfold visible_windows. pose proof (NoDup_fst_map_to_list m) as N.
  induction (map_to_list m) as [|[b st] l IH]; [constructor|]. cbn [flat_map fmap list_fmap fst] in *.
  apply NoDup_cons in N as [Nb N]. rewrite fmap_app. apply NoDup_app. split_and!; [|clear IH|auto].
  - pose proof (NoDup_fst_map_to_list (assertions st)) as Nw.
    induction (map_to_list (assertions st)) as [|[w [tx r]] ws IHw]; [constructor|].
    cbn [omap list_omap fmap list_fmap fst] in *. apply NoDup_cons in Nw as [Nw1 Nw].
    destruct (window_visible vt st w tx); [|auto]. cbn [fmap list_fmap fst]. apply NoDup_cons. split; [|auto].
    intros ([[b' w'] r'] & E & I)%list_elem_of_fmap.
    apply list_elem_of_omap in I as ([w2 [tx2 r2]] & I & E'). destruct (window_visible _ _ _ _); [|done].
    cbn in E. simplify_eq. apply Nw1, list_elem_of_fmap. eexists; split; [|exact I]. done.
  - intros [b' w'] ([[b1 w1] r1] & E1 & I1)%list_elem_of_fmap ([[b2 w2] r2] & E2 & I2)%list_elem_of_fmap.
    apply list_elem_of_omap in I1 as ([w3 [tx3 r3]] & _ & E3). destruct (window_visible _ _ _ _); [|done].
    apply elem_of_flat_map in I2 as ([b4 st4] & I4 & I2).
    apply list_elem_of_omap in I2 as ([w5 [tx5 r5]] & _ & E5). destruct (window_visible _ _ _ _); [|done].
    cbn in E1, E2. simplify_eq. apply Nb, list_elem_of_fmap. eexists; split; [|exact I4]. done.
Qed.
End shown.
Abbreviation coherent := (coherent_by value_key).

(** The net view shows, for each visible assertion, one with its triple and window. *)
Lemma net_visible facts f : (∀ g, g ∈ facts → 0 ≤ tx_count g) → f ∈ net_asserted_facts facts → visible facts f.
Proof.
  intros N. rewrite net_asserted_facts_select by done. intros (i & L & S)%elem_of_select. unfold survives in S.
  apply andb_prop in S as [[[A P]%andb_prop C]%andb_prop _]. split_and!; [by apply list_elem_of_lookup_2 in L|done|lia|].
  intros g G X. rewrite forallb_elem in C. specialize (C g G). rewrite X in C. cbn in C. lia.
Qed.
Lemma visible_net facts f : (∀ g, g ∈ facts → 0 ≤ tx_count g) → visible facts f →
  ∃ g, g ∈ net_asserted_facts facts ∧ window_key g = window_key f.
Proof.
  intros N (I & A & P & C). pose proof (best_spec (same_window f) facts) as B.
  destruct (best (same_window f) facts) as [[i g]|] eqn:E.
  2: { specialize (B f I). unfold same_window in B. rewrite A in B. by rewrite bool_decide_true in B. }
  pose proof B as (L & Sg & W). unfold same_window in Sg. apply andb_prop in Sg as [Ag Wg].
  apply bool_decide_eq_true in Wg. exists g. split; [|done]. rewrite net_asserted_facts_select by done.
  apply elem_of_select. exists i. split; [done|]. unfold survives. rewrite Ag.
  assert (same_window g = same_window f) as -> by (unfold same_window; by rewrite Wg).
  rewrite (proj2 (wins_is_winner _ _ _ _ L (proj1 (proj2 B))) B), andb_true_r.
  assert (tx_count f ≤ tx_count g) as Le.
  { apply list_elem_of_lookup in I as [j Lj]. assert (same_window f f = true) as Sf.
    { unfold same_window. rewrite A. by apply bool_decide_eq_true. }
    destruct (W j f Lj Sf); lia. }
  apply andb_true_intro. split; [cbn; lia|]. apply forallb_elem. intros h Hh.
  destruct (cancels h g) eqn:X; [|done]. cbn. apply Z.ltb_lt. apply Z.lt_le_trans with (tx_count f); [|done].
  apply C; [done|]. revert X. unfold cancels. injection Wg as We Wa Wv Wf Wt. unfold window_key, eav_key. by rewrite We, Wa, Wv, Wf, Wt.
Qed.
