(* ===== verification/IndexScan.v ===== *)
(** Scans of one index range: the entries that the committed reader and the
    pending overlay contribute to a cursor, as facts with the place they are
    read from.  Generic in the index; [Cursors] uses it for AEVT, EAVT and VAET. *)
From S2P Require Import Prelude Types ValueCodec NetView SortedRuns Index PendingOverlay FactStore Lookup MergeScan.

Lemma le_ord_cmp {A} `{OrdLaws A} (x y : A) : ltb_ord y x = false ↔ le_ord x y.
Proof. unfold ltb_ord, le_ord. rewrite (cmp_opp y x). destruct (cmp y x); cbn; intuition done. Qed.

Lemma StronglySorted_filter_bool {A} (R : A → A → Prop) p l :
  StronglySorted R l → StronglySorted R (List.filter p l).
Proof.
  induction 1 as [|x l S IH F]; cbn; [constructor|]. destruct (p x); [|done]. constructor; [done|].
  apply Forall_forall. intros y [_ Y]%elem_of_List_filter. rewrite Forall_forall in F. auto.
Qed.

(** * The committed side *)

Section committed.
Context {K E : Type} `{OrdLaws K, OrdLaws E}.
Context (kf : Fact → K) (from_owned : K → E) (cmp_owned : E → K → comparison).
Context (rows : list (Fact * FactRef)) (start : K) (stop : option K) (sel : Fact → bool) (good : K → Prop).
Hypothesis keys_distinct : NoDup (kf <$> rows.*1).
Hypothesis range_sel : ∀ f, f ∈ rows.*1 → sel f = true ↔
  le_ord start (kf f) ∧ match stop with Some k => cmp (kf f) k = Lt | None => True end.
Hypothesis entries_cmp : ∀ f g, sel f = true → sel g = true →
  cmp (from_owned (kf f)) (from_owned (kf g)) = cmp (kf f) (kf g).
Hypothesis good_from : ∀ k, good k → le_ord start k.
Hypothesis owned_cmp : ∀ f k, sel f = true → good k → cmp_owned (from_owned (kf f)) k = cmp (kf f) k.

Definition index_of : list (K * FactRef) := foldl (λ m r, bt_insert r.1 r.2 m) [] (prod_map kf id <$> rows).
Definition range_entries : list (E * FactRef) := prod_map from_owned id <$> bt_from start stop index_of.
Definition entry_at (x : Fact * FactRef) : E * FactRef := (from_owned (kf x.1), x.2).

(** The index in key order is the rows in some order. *)
Lemma index_rows : ∃ rows', index_of = prod_map kf id <$> rows' ∧ rows' ≡ₚ rows ∧
  StronglySorted (λ x y, cmp (kf x.1) (kf y.1) = Lt) rows'.
Proof using Type*.
  destruct (bt_build (prod_map kf id <$> rows)) as [A P]. fold index_of in A, P.
  assert (NoDup (prod_map kf id <$> rows).*1) as N.
  { rewrite <-list_fmap_compose. by rewrite <-list_fmap_compose in keys_distinct. }
  apply P, Permutation_map_inv in N as (rows' & E1 & Pr). exists rows'. split_and!; [done|done|].
  rewrite E1 in A. unfold strictly_ascending in A. clear -A. induction rows' as [|x l IH]; [constructor|].
  cbn in A. inversion A as [|? ? A' F]; subst. constructor; [by apply IH|]. apply Forall_fmap in F. exact F.
Qed.

Lemma bt_from_sel k rows' : rows' ≡ₚ rows → le_ord start k →
  bt_from k stop (prod_map kf id <$> rows') =
  prod_map kf id <$> List.filter (λ x, negb (ltb_ord (kf x.1) k) && sel x.1) rows'.
Proof using Type*.
  intros P L. unfold bt_from. rewrite List_filter_fmap. f_equal. apply List_filter_ext.
  intros [f r] I. cbn. rewrite P in I. apply (list_elem_of_fmap_2 fst) in I. cbn in I.
  destruct (ltb_ord (kf f) k) eqn:Ek; cbn; [done|].
  apply iff_bool_eq. rewrite range_sel by done. apply le_ord_cmp in Ek.
  split.
  - intros Hs. split; [by etrans|]. destruct stop as [k'|]; [|done]. unfold ltb_ord in Hs. by destruct (cmp (kf f) k').
  - intros [_ Hs]. destruct stop as [k'|]; [|done]. unfold ltb_ord. by rewrite Hs.
Qed.

Lemma range_entries_rows : ∃ rows', range_entries = entry_at <$> rows' ∧
  rows' ≡ₚ List.filter (λ x, sel x.1) rows ∧ StronglySorted (λ x y, cmp (kf x.1) (kf y.1) = Lt) rows' ∧
  ∀ k, good k → prod_map from_owned id <$> bt_from k stop index_of =
    List.filter (λ e, negb (bool_decide (cmp_owned e.1 k = Lt))) range_entries.
Proof using Type*.
  destruct index_rows as (rows' & E1 & P & S).
  assert (range_entries = entry_at <$> List.filter (λ x, sel x.1) rows') as Er.
  { unfold range_entries. rewrite E1, (bt_from_sel start rows' P) by reflexivity. rewrite <-list_fmap_compose.
    rewrite (List_filter_ext _ (λ x, sel x.1)); [done|]. intros [f r] I. cbn.
    destruct (sel f) eqn:Sf; [|by rewrite andb_false_r]. rewrite P in I. apply (list_elem_of_fmap_2 fst) in I.
    apply range_sel in Sf as [L _]; [|done]. by apply le_ord_cmp in L as ->. }
  exists (List.filter (λ x, sel x.1) rows'). split_and!; [done|by apply List_filter_perm|by apply StronglySorted_filter_bool|].
  intros k G. rewrite Er, E1, (bt_from_sel k rows' P) by auto.
  rewrite List_filter_fmap, List_filter_filter, <-list_fmap_compose. f_equal.
  apply List_filter_ext. intros [f r] I. apply elem_of_List_filter in I as [Sf _]. cbn in *.
  unfold entry_at. cbn. rewrite owned_cmp by done. unfold ltb_ord. by destruct (cmp (kf f) k).
Qed.

Lemma range_entries_sorted : StronglySorted (λ x y, cmp x.1 y.1 = Lt) range_entries.
Proof using Type*.
  destruct range_entries_rows as (rows' & -> & P & S & _).
  assert (∀ x, x ∈ rows' → sel x.1 = true) as Sl by (intros x; rewrite P; by intros [? _]%elem_of_List_filter).
  clear P. induction S as [|x l S IH F]; [constructor|]. cbn. constructor; [apply IH; set_solver|].
  apply Forall_forall. intros y (z & -> & Z)%list_elem_of_fmap. rewrite Forall_forall in F. cbn.
  rewrite entries_cmp by (apply Sl; set_solver). auto.
Qed.
End committed.

(** * Both sides merged *)

Definition no_fact : Fact := mkFact 0 "" VNull 0 0 0 0 false.
Definition pending_at (s : FactStorage) (id : nat) : Fact := default no_fact (fact_at (records (pending s)) id).

Section located.
Context {K E : Type} `{OrdLaws K, OrdLaws E}.
Context (kf : Fact → K) (from_owned : K → E) (cmp_owned : E → K → comparison).
Context (rows : list (Fact * FactRef)) (start : K) (stop : option K) (sel : Fact → bool) (good : K → Prop).
Context (s : FactStorage) (ids : list nat).
Hypothesis keys_distinct : NoDup (kf <$> rows.*1).
Hypothesis range_sel : ∀ f, f ∈ rows.*1 → sel f = true ↔
  le_ord start (kf f) ∧ match stop with Some k => cmp (kf f) k = Lt | None => True end.
Hypothesis entries_cmp : ∀ f g, sel f = true → sel g = true →
  cmp (from_owned (kf f)) (from_owned (kf g)) = cmp (kf f) (kf g).
Hypothesis good_from : ∀ k, good k → le_ord start k.
Hypothesis owned_cmp : ∀ f k, sel f = true → good k → cmp_owned (from_owned (kf f)) k = cmp (kf f) k.
Hypothesis ids_nodup : NoDup ids.
Hypothesis ids_sel : ∀ i, i ∈ ids ↔
  ∃ r, records (pending s) !! i = Some r ∧ sel (PendingFactRecord.to_fact r) = true.
Hypothesis ids_sorted : ∀ i j x y r q, (i < j)%nat → ids !! i = Some x → ids !! j = Some y →
  records (pending s) !! x = Some r → records (pending s) !! y = Some q →
  le_ord (kf (PendingFactRecord.to_fact r)) (kf (PendingFactRecord.to_fact q)).

Definition entry_of_id (id : nat) : E := from_owned (kf (pending_at s id)).
Definition place (x : Fact * CursorFactRef) : E * CursorFactRef := (from_owned (kf x.1), x.2).
#[local] Abbreviation cs := (range_entries kf from_owned rows start stop).

(** Where a fact of the scan is read from. *)
Definition read_from (x : Fact * CursorFactRef) : Prop :=
  match x.2 with
  | CPending id => pending_fact s id = Ok x.1
  | CCommitted fr => (x.1, fr) ∈ rows
  end.

Lemma id_record id : id ∈ ids → ∃ r, records (pending s) !! id = Some r ∧
  sel (PendingFactRecord.to_fact r) = true ∧ pending_at s id = PendingFactRecord.to_fact r ∧
  pending_fact s id = Ok (PendingFactRecord.to_fact r).
Proof using ids_sel.
  intros (r & L & S)%ids_sel. exists r. split_and!; [done|done| |].
  - unfold pending_at, fact_at. by rewrite L.
  - unfold pending_fact, overlay_get. by rewrite L.
Qed.

Lemma pending_facts : (pending_at s <$> ids) ≡ₚ List.filter sel (overlay_facts (pending s)).
Proof using ids_nodup ids_sel.
  destruct (Lookup.pending_part s ids sel ids_nodup ids_sel) as (fs & E1 & _ & <-).
  rewrite (mapR_pending s ids) in E1.
  - injection E1 as <-. clear -ids_sel. assert (∀ i, i ∈ ids → is_Some (fact_at (records (pending s)) i)) as Sm.
    { intros i (r & L & _)%ids_sel. unfold fact_at. rewrite L. by eexists. }
    clear ids_sel. induction ids as [|i l IH]; [done|]. cbn. destruct (Sm i ltac:(set_solver)) as [f E1].
    unfold pending_at at 1. rewrite E1. cbn. rewrite IH; [done|]. intros; apply Sm; set_solver.
  - apply Forall_forall. intros i (r & L & _)%ids_sel. by eapply lookup_lt_Some.
Qed.

Lemma pending_sorted : StronglySorted (λ x y : E * CursorFactRef, le_ord x.1 y.1) (pending_entries entry_of_id ids).
Proof using entries_cmp ids_sel ids_sorted.
  assert (∀ l k, ids = k ++ l → StronglySorted (λ x y : E * CursorFactRef, le_ord x.1 y.1) (pending_entries entry_of_id l)) as G.
  2: { by apply (G ids []). }
  induction l as [|i l IH]; intros k Ek; [constructor|]. cbn. constructor; [apply (IH (k ++ [i])); by rewrite <-app_assoc|].
  apply Forall_forall. intros y (j & -> & J)%list_elem_of_fmap. cbn.
  destruct (id_record i) as (r & Lr & Sr & Er & _); [rewrite Ek; apply elem_of_app; right; constructor|].
  destruct (id_record j) as (q & Lq & Sq & Eq & _); [rewrite Ek; apply elem_of_app; right; by constructor|].
  unfold entry_of_id, le_ord. rewrite Er, Eq, entries_cmp by done.
  apply list_elem_of_lookup in J as [n Ln].
  apply (ids_sorted (length k) (length k + S n) i j); [lia| | |done|done].
  - by rewrite Ek, lookup_app_r, Nat.sub_diag by lia.
  - rewrite Ek, lookup_app_r by lia. by replace (length k + S n - length k)%nat with (S n) by lia.
Qed.

Lemma scan_located : ∃ lf, merged (pending_entries entry_of_id ids) (committed_entries cs) = place <$> lf ∧
  lf.*1 ≡ₚ List.filter sel (rows.*1 ++ overlay_facts (pending s)) ∧
  StronglySorted (λ x y, le_ord x.1 y.1) (place <$> lf) ∧ ∀ x, x ∈ lf → read_from x ∧ sel x.1 = true.
Proof using Type*.
  destruct (range_entries_rows kf from_owned cmp_owned rows start stop sel good) as (rows' & Er & P & _ & _); [done..|].
  set (plf := (λ id, (pending_at s id, CPending id)) <$> ids).
  set (clf := prod_map id CCommitted <$> rows').
  assert (merged (pending_entries entry_of_id ids) (committed_entries cs) ≡ₚ place <$> (plf ++ clf)) as M.
  { rewrite merged_perm, fmap_app. unfold plf, clf, pending_entries, committed_entries. rewrite Er, <-!list_fmap_compose. done. }
  pose proof M as M'. apply Permutation_map_inv in M' as (lf & El & Pl).
  change (map place lf) with (place <$> lf) in El. exists lf. split_and!; [done| | |].
  - rewrite <-Pl, fmap_app, List.filter_app. unfold plf, clf. rewrite <-!list_fmap_compose.
    rewrite (Permutation_app_comm (List.filter _ rows.*1)). f_equiv; [apply pending_facts|].
    rewrite <-fst_filter, <-P. done.
  - rewrite <-El. apply merged_sorted; [apply pending_sorted|].
    pose proof (range_entries_sorted kf from_owned cmp_owned rows start stop sel good) as S.
    specialize (S keys_distinct range_sel entries_cmp good_from owned_cmp). clear -S.
    induction S as [|x l S IH F]; [constructor|]. cbn. constructor; [done|]. apply Forall_fmap.
    eapply Forall_impl; [exact F|]. intros y Y. unfold le_ord. destruct x, y. cbn in *. by rewrite Y.
  - intros x. rewrite <-Pl. unfold plf, clf. intros [(i & -> & I)%list_elem_of_fmap|(y & -> & Y)%list_elem_of_fmap]%elem_of_app.
    + destruct (id_record i I) as (r & _ & Sr & Ei & Ep). unfold read_from. cbn. rewrite Ei. done.
    + rewrite P in Y. apply elem_of_List_filter in Y as [Sy Y]. destruct y. unfold read_from. cbn. auto.
Qed.

(** ** Driving a cursor over the range *)

Context (visit_entries : CommittedIndexReader → ∀ S : Type, K → option K →
           (S → E * FactRef → result (S * bool)) → S → result (S * bool)).
Context (write_resume_key : E → K → K).
Context (compare_projection : nat → E → result comparison) (pending_entry : nat → result E).
Hypothesis pending_ok : ∀ id, id ∈ ids → pending_entry id = Ok (entry_of_id id).
Hypothesis compare_ok : ∀ id key, id ∈ ids → compare_projection id key = Ok (cmp (entry_of_id id) key).
Hypothesis good_start : good start.
Hypothesis resume_good : ∀ f k, f ∈ rows.*1 → sel f = true → good k → good (write_resume_key (from_owned (kf f)) k).
Hypothesis resume_cmp : ∀ e k x, good k → cmp_owned x (write_resume_key e k) = cmp x e.
Hypothesis reader_ok :
  match committed_index_reader s with
  | Some ix => ∀ S k (f : S → E * FactRef → result (S * bool)) x, good k →
      visit_entries ix S k stop f x = visitR f x (prod_map from_owned id <$> bt_from k stop (index_of kf rows))
  | None => rows = []
  end.

(** Budgets that finish a scan of [n] entries. *)
Definition enough (n : nat) (budgets : list Z) : Prop :=
  Forall (λ b, 0 < b) budgets ∧ Z.of_nat n < sum_Z budgets.
Lemma enough_max (n : nat) : Z.of_nat n < usize_MAX → enough n [usize_MAX].
Proof using. intros L. split; [by repeat constructor|]. change (sum_Z [usize_MAX]) with (usize_MAX + 0). lia. Qed.

Lemma drive_located : ∃ lf,
  lf.*1 ≡ₚ List.filter sel (rows.*1 ++ overlay_facts (pending s)) ∧
  StronglySorted (λ x y, le_ord x.1 y.1) (place <$> lf) ∧ (∀ x, x ∈ lf → read_from x ∧ sel x.1 = true) ∧
  (Z.of_nat (length lf) < usize_MAX →
   ∀ R V accept finish stale as_of vt budgets (r : R) (v : V), Forall (λ b, 0 < b) budgets →
     let out := drive cmp_owned write_resume_key visit_entries compare_projection pending_entry accept finish
       (publication_generation s) stale (cursor_new s start stop ids r as_of vt) v budgets in
     let full := ('(r, v) ← foldR (take_in (accept as_of vt (committed s))) (r, v) (place <$> lf);
      '(r, v) ← finish vt (committed s) (r, v); Ok (v, true)) in
     (enough (length lf) budgets → out = full) ∧ (∀ v', out = Ok (v', true) → full = Ok (v', true))).
Proof using Type*.
  destruct scan_located as (lf & El & P & S & Rd). exists lf. split_and!; [done..|].
  intros Cap R V accept finish stale as_of vt budgets r v Pos out full.
  destruct (range_entries_rows kf from_owned cmp_owned rows start stop sel good) as (rows' & Er & Pr & _ & Fr); [done..|].
  assert (∀ e, e ∈ cs → ∃ f, f ∈ rows.*1 ∧ sel f = true ∧ e.1 = from_owned (kf f)) as Ie.
  { intros e. rewrite Er. intros (x & -> & X)%list_elem_of_fmap. rewrite Pr in X.
    apply elem_of_List_filter in X as [Sx X]. exists x.1. split; [by apply list_elem_of_fmap_2|done]. }
  cut (out = full ∨ sum_Z budgets ≤ Z.of_nat (length lf) ∧ ∃ v', out = Ok (v', false)).
  { intros C. destruct C as [C|[Su (v' & C)]]; [by rewrite C|]. split; [|congruence]. intros [_ En]. lia. }
  subst out full. rewrite <-(length_fmap place lf), <-El.
  apply (drive_cases cmp_owned write_resume_key visit_entries compare_projection pending_entry
    (accept as_of vt (committed s)) ids entry_of_id pending_ok compare_ok cs good)
    with (reader := committed_index_reader s) (start0 := start) (stop := stop) (as_of := as_of); try done.
  - intros e k (x & -> & X)%list_elem_of_fmap. destruct (Ie x X) as (f & If & Sf & ->). auto.
  - by apply (range_entries_sorted kf from_owned cmp_owned rows start stop sel good).
  - intros e (f & If & Sf & ->)%Ie. rewrite owned_cmp by done. apply range_sel in Sf as [L _]; [|done].
    unfold le_ord in L. rewrite (cmp_opp start). by destruct (cmp start (kf f)).
  - destruct (committed_index_reader s) as [ix|]; [|by rewrite reader_ok in *].
    intros S' k f x G. by rewrite reader_ok, Fr by done.
  - split; [|done..]. split; [done..|]. exists [], cs. split_and!; [done..|]. done.
  - eapply Forall_impl; [exact Pos|]. intros b Hb. split; [done|]. intros _. by rewrite El, length_fmap.
Qed.
End located.
