(* ===== verification/Cursors.v ===== *)
(** The current-value cursors of the fact store (src/src/graph/storage.rs): one
    attribute ([CurrentAttributeCursor], AEVT), one entity and attribute
    ([CurrentEntityAttributeCursor], EAVT) and the entities that refer to a target
    ([CurrentRefsCursor], VAET).  Each is the merge of [MergeScan] with a reducer of
    [CurrentState] and emits what the reducer finds visible.

    The theorems say that the rows emitted are the net view of the ledger, in
    order and each once, for every sequence of step budgets. *)
From S2P Require Import Prelude Types ValueCodec NetView SortedRuns Index PendingOverlay FactStore Lookup MergeScan CurrentState IndexScan.

(** * Definitions *)

Definition entry_visible_as_of (key : CurrentAevtEntryRef.t) (as_of : option AsOf) : bool :=
  entry_visible_at_tx (CurrentAevtEntryRef.tx_count key) (CurrentAevtEntryRef.tx_id key) as_of.

Definition resolve_cursor_fact (s : FactStorage) (reader : option CommittedFactReader) (r : CursorFactRef)
    : result Fact :=
  match r with
  | CPending id => pending_fact s id
  | CCommitted fact_ref =>
    match reader with
    | Some rd => rd_resolve rd fact_ref
    | None => Err "current attribute cursor has no committed fact reader"
    end
  end.

(** Floats are read back from the fact, other values from the index bytes. *)
Definition current_value (s : FactStorage) (reader : option CommittedFactReader) (encoded : bytes)
    (r : CursorFactRef) : result Value :=
  if bool_decide (head encoded = Some (z2b 0x03)) then
    f ← resolve_cursor_fact s reader r; Ok (value f)
  else decode_index_value encoded.

Record OutputRow : Type := mkRow { row_bytes : bytes; row_value : Value; row_from : Z; row_to : Z }.
Definition window_row (s : FactStorage) (reader : option CommittedFactReader)
    (x : bytes * (Z * Z) * CursorFactRef) : result OutputRow :=
  let '(encoded, (valid_from, valid_to), r) := x in
  v ← current_value s reader encoded r;
  Ok (mkRow encoded v valid_from valid_to).

Definition row_order (r : OutputRow) : bytes * (Z * Z) := (row_bytes r, (row_from r, row_to r)).
(** [sort_unstable_by] on the encoded value and the window. *)
Definition sort_rows (rows : list OutputRow) : list OutputRow :=
  merge_sort (λ x y, le_ord (row_order x) (row_order y)) rows.

(** ** One attribute *)

(** The flag [yielded] of the source only feeds the diagnostics. *)
Record AttributeReduction : Type := mkReduction {
  current_entity : option EntityId;
  values : CurrentAttributeValues;
}.
Definition CurrentAttributeCursor : Type := Cursor AevtKey AttributeReduction.

Definition attribute_start (attribute : Attribute) (start_entity : EntityId) : AevtKey :=
  mkAevt attribute start_entity i64_MIN i64_MIN 0 [] 0 false.
Definition current_attribute_cursor_starting_at (s : FactStorage) (attribute : Attribute)
    (as_of : option AsOf) (valid_time : CurrentValidTime) (start_entity : EntityId) : CurrentAttributeCursor :=
  let start := attribute_start attribute start_entity in
  let stop := attribute_low <$> next_string_prefix attribute in
  cursor_new s start stop (range_aevt (pending s) start stop) (mkReduction None values_new) as_of valid_time.
Definition current_attribute_cursor (s : FactStorage) (attribute : Attribute)
    (as_of : option AsOf) (valid_time : CurrentValidTime) : CurrentAttributeCursor :=
  current_attribute_cursor_starting_at s attribute as_of valid_time 0.
Definition current_attribute_cursor_after (s : FactStorage) (attribute : Attribute)
    (as_of : option AsOf) (valid_time : CurrentValidTime) (after_entity : EntityId)
    : option CurrentAttributeCursor :=
  if after_entity + 1 <? 2 ^ 128
  then Some (current_attribute_cursor_starting_at s attribute as_of valid_time (after_entity + 1))
  else None.

Definition aevt_resume (e : CurrentAevtEntryRef.t) (key : AevtKey) : AevtKey :=
  (CurrentAevtEntryRef.write_resume_key 0 e key).1.
Definition pending_aevt (s : FactStorage) (id : nat) : result CurrentAevtEntryRef.t :=
  r ← overlay_get (pending s) id; Ok (PendingFactRecord.current_aevt_entry r).

Section attribute.
Context {V : Type} (s : FactStorage) (visit : V → EntityId * Value * Z * Z → result V).

Definition flush_entity (valid_time : CurrentValidTime) (reader : option CommittedFactReader)
    (a : AttributeReduction * V) : result (AttributeReduction * V) :=
  let '(red, v) := a in
  match current_entity red with
  | None => Ok a
  | Some e =>
    rows ← mapR (window_row s reader) (visible_windows valid_time (values_iter (values red)));
    v ← foldR (λ v row, visit v (e, row_value row, row_from row, row_to row)) v (sort_rows rows);
    Ok (mkReduction None values_new, v)
  end.

Definition accept_attribute (as_of : option AsOf) (valid_time : CurrentValidTime)
    (reader : option CommittedFactReader) (a : AttributeReduction * V) (key : CurrentAevtEntryRef.t)
    (r : CursorFactRef) : result (AttributeReduction * V) :=
  if negb (entry_visible_as_of key as_of) then Ok a
  else
    '(red, v) ← (if match current_entity a.1 with
                    | Some e => negb (e =? CurrentAevtEntryRef.entity key)
                    | None => false
                    end
                 then flush_entity valid_time reader a else Ok a);
    Ok (mkReduction (Some (CurrentAevtEntryRef.entity key)) (values_reduce (values red) key r).1, v).

Definition step_current_attribute_interval_cursor
    : CurrentAttributeCursor → Z → V → result (CurrentAttributeCursor * V * CursorStep) :=
  cursor_step CurrentAevtEntryRef.cmp_owned_suffix aevt_resume (λ rd S, @ix_visit_aevt rd S)
    (compare_aevt_projection (pending s)) (pending_aevt s) accept_attribute flush_entity
    (publication_generation s) "current attribute cursor publication changed during the aggregate session".

(** A client that steps the cursor with the given budgets. *)
Definition drive_attribute : CurrentAttributeCursor → V → list Z → result (V * bool) :=
  drive CurrentAevtEntryRef.cmp_owned_suffix aevt_resume (λ rd S, @ix_visit_aevt rd S)
    (compare_aevt_projection (pending s)) (pending_aevt s) accept_attribute flush_entity
    (publication_generation s) "current attribute cursor publication changed during the aggregate session".

(** The loop of the unbounded visits. *)
Fixpoint visit_until_complete (fuel : nat) (c : CurrentAttributeCursor) (v : V) : result V :=
  match fuel with
  | O => Err "fuel"
  | S fuel =>
    '(c, v, st) ← step_current_attribute_interval_cursor c usize_MAX v;
    match st with Complete _ => Ok v | Yielded _ => visit_until_complete fuel c v end
  end.
End attribute.

(** The visitor that ignores the window. *)
Definition on_value {V} (visit : V → EntityId * Value → result V) (v : V) (x : EntityId * Value * Z * Z) : result V :=
  let '(e, val, _, _) := x in visit v (e, val).
Definition step_current_attribute_cursor {V} (s : FactStorage) (visit : V → EntityId * Value → result V)
    : CurrentAttributeCursor → Z → V → result (CurrentAttributeCursor * V * CursorStep) :=
  step_current_attribute_interval_cursor s (on_value visit).
Definition visit_current_attribute_values {V} (s : FactStorage) (attribute : Attribute) (as_of : option AsOf)
    (valid_time : CurrentValidTime) (visit : V → EntityId * Value → result V) (v : V) : result V :=
  visit_until_complete s (on_value visit) 1 (current_attribute_cursor s attribute as_of valid_time) v.
Definition visit_current_attribute_intervals {V} (s : FactStorage) (attribute : Attribute)
    (visit : V → EntityId * Value * Z * Z → result V) (v : V) : result V :=
  visit_until_complete s visit 1 (current_attribute_cursor s attribute None Any) v.

(** ** One entity and attribute *)

Definition CURRENT_ENTITIES_MAX_HISTORY_ENTRIES : Z := 65536.

Record EntityReduction : Type := mkEntityReduction {
  entity_values : gmap bytes CurrentValueState;
  emit_each_visible_window : bool;
}.
Definition CurrentEntityAttributeCursor : Type := Cursor EavtKey EntityReduction.

(** The first keys of an entity's attribute and of the attribute after it. *)
Definition next_attribute (attribute : Attribute) : Attribute := (attribute +:+ String (Ascii.ascii_of_nat 0) "")%string.
Definition entity_attribute_low (e : EntityId) (attribute : Attribute) : EavtKey :=
  mkEavt e attribute i64_MIN i64_MIN 0 [] 0 false.

Definition current_entity_attribute_cursor (s : FactStorage) (e : EntityId) (attribute : Attribute)
    (as_of : option AsOf) (valid_time : CurrentValidTime) : result CurrentEntityAttributeCursor :=
  let start := entity_attribute_low e attribute in
  let stop := entity_attribute_low e (next_attribute attribute) in
  ids ← range_eavt_bounded (pending s) start stop CURRENT_ENTITIES_MAX_HISTORY_ENTRIES;
  Ok (cursor_new s start (Some stop) ids (mkEntityReduction ∅ false) as_of valid_time).

Definition eavt_resume (e : CurrentEavtEntryRef.t) (key : EavtKey) : EavtKey :=
  (CurrentEavtEntryRef.write_resume_key 0 0 e key).1.
Definition pending_eavt (s : FactStorage) (id : nat) : result CurrentEavtEntryRef.t :=
  r ← overlay_get (pending s) id; Ok (PendingFactRecord.current_eavt_entry r).

Section entity_attribute.
Context {V : Type} (s : FactStorage) (visit : V → Value * Z * Z → result V).
(** The iteration order of the windows of a value. *)
Context (window_order : gmap (Z * Z) (Z * CursorFactRef) → list ((Z * Z) * (Z * CursorFactRef))).

Definition accept_entity (as_of : option AsOf) (valid_time : CurrentValidTime)
    (reader : option CommittedFactReader) (a : EntityReduction * V) (key : CurrentEavtEntryRef.t)
    (r : CursorFactRef) : result (EntityReduction * V) :=
  let key := value_projection key in
  if entry_visible_as_of key as_of
  then Ok (mkEntityReduction (reduce_current_entry (entity_values a.1) key r).1
             (emit_each_visible_window a.1), a.2)
  else Ok a.

(** The windows of a value that are emitted: all, or the first visible one. *)
Definition emitted_windows (valid_time : CurrentValidTime) (each : bool) (x : bytes * CurrentValueState)
    : list (bytes * (Z * Z) * CursorFactRef) :=
  let '(b, st) := x in
  let shown := omap (λ '(w, (tx, r)), if window_visible valid_time st w tx then Some (b, w, r) else None)
                 (window_order (assertions st)) in
  if each then shown else take 1 shown.

Definition finish_entity (valid_time : CurrentValidTime) (reader : option CommittedFactReader)
    (a : EntityReduction * V) : result (EntityReduction * V) :=
  let '(red, v) := a in
  rows ← mapR (window_row s reader)
           (flat_map (emitted_windows valid_time (emit_each_visible_window red)) (map_to_list (entity_values red)));
  v ← foldR (λ v row, visit v (row_value row, row_from row, row_to row)) v (sort_rows rows);
  Ok (mkEntityReduction ∅ (emit_each_visible_window red), v).

Definition step_current_entity_attribute_interval_cursor
    : CurrentEntityAttributeCursor → Z → V → result (CurrentEntityAttributeCursor * V * CursorStep) :=
  cursor_step CurrentEavtEntryRef.cmp_owned eavt_resume (λ rd S, @ix_visit_eavt rd S)
    (compare_eavt_projection (pending s)) (pending_eavt s) accept_entity finish_entity
    (publication_generation s) "current entity/attribute cursor publication changed during the read view".
End entity_attribute.

Definition step_current_entity_attribute_cursor {V} (s : FactStorage) (visit : V → Value → result V) window_order
    : CurrentEntityAttributeCursor → Z → V → result (CurrentEntityAttributeCursor * V * CursorStep) :=
  step_current_entity_attribute_interval_cursor s (λ v '(val, _, _), visit v val) window_order.

(** ** References to a target *)

Definition CURRENT_REFS_MAX_HISTORY_ENTRIES : Z := 65536.
Definition CurrentRefsCursor : Type := Cursor VaetKey (gmap EntityId CurrentValueState).

Definition refs_low (target : EntityId) (attribute : Attribute) : VaetKey :=
  mkVaet target attribute i64_MIN i64_MIN 0 0 0 false.
Definition current_refs_cursor (s : FactStorage) (attribute : Attribute) (target : EntityId)
    (as_of : option AsOf) (valid_time : CurrentValidTime) : result CurrentRefsCursor :=
  let start := refs_low target attribute in
  let stop := refs_low target (next_attribute attribute) in
  ids ← range_vaet_bounded (pending s) start stop CURRENT_REFS_MAX_HISTORY_ENTRIES;
  Ok (cursor_new s start (Some stop) ids ∅ as_of valid_time).

Definition vaet_resume (e : CurrentVaetEntryRef.t) (key : VaetKey) : VaetKey :=
  (CurrentVaetEntryRef.write_resume_key 0 e key).1.
Definition pending_vaet (s : FactStorage) (id : nat) : result CurrentVaetEntryRef.t :=
  r ← overlay_get (pending s) id; PendingFactRecord.current_vaet_entry r.

Section refs.
Context {V : Type} (s : FactStorage) (visit : V → EntityId → result V).

Definition accept_refs (as_of : option AsOf) (valid_time : CurrentValidTime) (reader : option CommittedFactReader)
    (a : gmap EntityId CurrentValueState * V) (key : CurrentVaetEntryRef.t) (r : CursorFactRef)
    : result (gmap EntityId CurrentValueState * V) :=
  let source := CurrentVaetEntryRef.source_entity key in
  if entry_visible_at_tx (CurrentVaetEntryRef.tx_count key) (CurrentVaetEntryRef.tx_id key) as_of
  then Ok (<[source := (reduce_current_state (default state_new (a.1 !! source))
               (CurrentVaetEntryRef.valid_from key) (CurrentVaetEntryRef.valid_to key)
               (CurrentVaetEntryRef.tx_count key) (CurrentVaetEntryRef.asserted key) r).1]> a.1, a.2)
  else Ok a.

Definition source_visible (valid_time : CurrentValidTime) (st : CurrentValueState) : bool :=
  existsb (λ '(w, (tx, _)), window_visible valid_time st w tx) (map_to_list (assertions st)).

Definition finish_refs (valid_time : CurrentValidTime) (reader : option CommittedFactReader)
    (a : gmap EntityId CurrentValueState * V) : result (gmap EntityId CurrentValueState * V) :=
  let '(sources, v) := a in
  let found := omap (λ '(source, st), if source_visible valid_time st then Some source else None) (map_to_list sources) in
  v ← foldR visit v (merge_sort Z.le found);
  Ok (∅, v).

Definition step_current_refs_cursor
    : CurrentRefsCursor → Z → V → result (CurrentRefsCursor * V * CursorStep) :=
  cursor_step CurrentVaetEntryRef.cmp_owned vaet_resume (λ rd S, @ix_visit_vaet rd S)
    (compare_vaet_projection (pending s)) (pending_vaet s) accept_refs finish_refs
    (publication_generation s) "current refs cursor publication changed during the read view".
End refs.

(** * The rows of a reduction *)

(** Values other than NaN are told apart by their bytes. *)
Definition not_nan (v : Value) : Prop := match v with VFloat x => F64.is_nan x = false | _ => True end.

Lemma encode_value_inj_plain a b : value_ok a → value_ok b → not_nan a → not_nan b →
  encode_value a = encode_value b → a = b.
Proof.
  intros Va Vb Na Nb E. destruct (as_float a) as [x|] eqn:Fa; [|by apply encode_value_inj_exact].
  destruct (as_float b) as [y|] eqn:Fb; [|symmetry; by apply encode_value_inj_exact].
  destruct a, b; try done. apply encode_float_eq in E; [|done..]. f_equal. by apply float_bits_inj.
Qed.

Lemma canonical_plain a : not_nan a → canonical a = a.
Proof. destruct a; try done. cbn. unfold canonical_float_bits. by intros ->. Qed.

Lemma encode_float_head v : bool_decide (head (encode_value v) = Some (z2b 0x03)) =
  match v with VFloat _ => true | _ => false end.
Proof. destruct v; try done. Qed.

(** What a selection of facts must satisfy: one entity and attribute, in-range
    values without NaN, counts that are not negative. *)
Record uniform (e : EntityId) (a : Attribute) (l : list Fact) : Prop := {
  un_entity f : f ∈ l → entity f = e;
  un_attribute f : f ∈ l → attribute f = a;
  un_ok f : f ∈ l → fact_ok f;
  un_plain f : f ∈ l → not_nan (value f);
}.

Lemma uniform_perm e a l k : uniform e a l → l ≡ₚ k → uniform e a k.
Proof. intros [Ue Ua Uo Up] P. split; intros f; rewrite <-P; auto. Qed.

Lemma uniform_inj e a l f g : uniform e a l → f ∈ l → g ∈ l →
  encode_value (value f) = encode_value (value g) → value f = value g.
Proof.
  intros [Ue Ua Uo Up] If Ig. pose proof (Uo f If) as []. pose proof (Uo g Ig) as [].
  apply encode_value_inj_plain; auto.
Qed.

Lemma uniform_coherent e a l : uniform e a l → coherent l.
Proof.
  intros U f g If Ig. pose proof U as [Ue Ua Uo Up]. unfold eav_key, value_key.
  rewrite (Ue f If), (Ue g Ig), (Ua f If), (Ua g Ig), !canonical_plain by auto. split.
  - intros [= ->]. done.
  - intros E. f_equal. by apply (uniform_inj e a l).
Qed.

Definition row_of (f : Fact) : OutputRow := mkRow (encode_value (value f)) (value f) (valid_from f) (valid_to f).

Lemma mapR_total {A B} (f : A → result B) (g : A → B) l : (∀ x, x ∈ l → f x = Ok (g x)) → mapR f l = Ok (g <$> l).
Proof.
  induction l as [|x l IH]; intros E; [done|]. cbn. rewrite (E x) by set_solver. cbn.
  rewrite IH by set_solver. done.
Qed.

Definition strictly_by {A K} `{Ord K} (key : A → K) : list A → Prop := StronglySorted (λ x y, cmp (key x) (key y) = Lt).

Lemma sort_strict {A K} `{OrdLaws K} (key : A → K) (l k : list A) :
  k ≡ₚ l → StronglySorted (λ x y, le_ord (key x) (key y)) k → NoDup (key <$> l) → strictly_by key k.
Proof.
  intros P S N. rewrite <-P in N. clear P. induction S as [|x k S IH F]; [constructor|].
  cbn in N. apply NoDup_cons in N as [Nx N]. constructor; [by apply IH|]. rewrite Forall_forall in F |- *.
  intros y Y. specialize (F y Y). unfold le_ord in F. destruct (cmp (key x) (key y)) eqn:C; [|done|done].
  apply cmp_eq in C. destruct Nx. rewrite C. by apply list_elem_of_fmap_2.
Qed.

Lemma sort_rows_sorted rows : StronglySorted (λ x y, le_ord (row_order x) (row_order y)) (sort_rows rows).
Proof.
  apply StronglySorted_merge_sort; [intros x y z; apply transitivity|intros x y; apply (total le_ord (row_order x))].
Qed.
Lemma sort_rows_strict rows : NoDup (row_order <$> rows) → strictly_by row_order (sort_rows rows).
Proof. intros N. apply (sort_strict row_order rows); [apply merge_sort_Permutation|apply sort_rows_sorted|done]. Qed.

Section emission.
Context (s : FactStorage) (reader : option CommittedFactReader).
Definition resolves (x : Fact * CursorFactRef) : Prop := resolve_cursor_fact s reader x.2 = Ok x.1.

Lemma window_row_ok f r : fact_ok f → resolves (f, r) →
  window_row s reader (encode_value (value f), window_of f, r) = Ok (row_of f).
Proof using.
  intros F R. unfold window_row, current_value, window_of. rewrite encode_float_head.
  pose proof (decode_index_encode_value (value f) (ok_value _ F)) as D. unfold resolves in R. cbn in R.
  destruct (value f) eqn:V; rewrite ?R; cbn [mbind result_bind]; rewrite ?D; unfold row_of; rewrite ?V; done.
Qed.

(** The rows a reduction emits, sorted: one for each visible value and window. *)
Definition rows_of (vt : CurrentValidTime) (l : list Fact) (rows : list OutputRow) : Prop :=
  strictly_by row_order rows ∧
  ∀ row, row ∈ rows ↔ ∃ f, visible l f ∧ valid_during vt (window_of f) ∧ row = row_of f.

(** Rows for windows a reduction finds visible. *)
Lemma emit_rows vt l m vw e a : knows l m → uniform e a l.*1 → (∀ x, x ∈ l → resolves x) →
  (∀ x, x ∈ vw → x ∈ visible_windows vt (map_to_list m)) →
  ∃ rows, mapR (window_row s reader) vw = Ok rows ∧ row_order <$> rows = fst <$> vw ∧
  (∀ row, row ∈ rows ↔ ∃ x, x ∈ vw ∧ window_row s reader x = Ok row) ∧
  ∀ x, x ∈ vw → ∃ f, (f, x.2) ∈ l ∧ x.1 = (encode_value (value f), window_of f) ∧
    visible l.*1 f ∧ valid_during vt (window_of f) ∧ window_row s reader x = Ok (row_of f).
Proof using.
  intros K U R P. pose proof (uniform_coherent _ _ _ U) as C.
  assert (∀ x, x ∈ vw → ∃ f, (f, x.2) ∈ l ∧ x.1 = (encode_value (value f), window_of f) ∧
    visible l.*1 f ∧ valid_during vt (window_of f) ∧ window_row s reader x = Ok (row_of f)) as X.
  { intros [[b w] r] I. apply P, (visible_sound value_key _ l) in I as (f & If & <- & <- & Vf & Vd); [|done..].
    exists f. split_and!; [done..|]. apply window_row_ok; [|by apply R].
    apply (un_ok _ _ _ U). by apply (list_elem_of_fmap_2 fst) in If. }
  clear P K C R U. induction vw as [|x vw IH]; [exists []; split_and!; [done..| |]; set_solver|].
  destruct IH as (rows & E & Ek & M & _); [intros; apply X; set_solver|].
  destruct (X x ltac:(set_solver)) as (f & _ & Ex & _ & _ & Ef). exists (row_of f :: rows). cbn [mapR]. rewrite Ef, E.
  split_and!; [done|cbn; rewrite Ek, Ex; done| |done]. intros row. rewrite elem_of_cons, M. setoid_rewrite elem_of_cons.
  split; [intros [->|(y & Y & Ey)]; eauto|]. intros (y & [->|Y] & Ey); [left; congruence|eauto].
Qed.

Lemma emit_windows vt l m vw e a : knows l m → uniform e a l.*1 → (∀ x, x ∈ l → resolves x) →
  vw ≡ₚ visible_windows vt (map_to_list m) →
  ∃ rows, mapR (window_row s reader) vw = Ok rows ∧ rows_of vt l.*1 (sort_rows rows).
Proof using.
  intros K U R P. pose proof (uniform_coherent _ _ _ U) as C.
  destruct (emit_rows vt l m vw e a K U R) as (rows & E & Ek & M & X); [intros x; by rewrite P|].
  exists rows. split; [done|]. split.
  - apply sort_rows_strict. rewrite Ek, P. apply visible_windows_keys.
  - intros row. unfold sort_rows. rewrite merge_sort_Permutation, M. split.
    + intros (x & I & Ex). destruct (X x I) as (f & _ & _ & Vf & Vd & Ef). exists f. split_and!; [done..|congruence].
    + intros (f & Vf & Vd & ->). destruct (visible_complete value_key vt l m f K C Vf Vd) as [r I]. rewrite <-P in I. unfold value_key in I.
      exists (encode_value (value f), window_of f, r). split; [done|].
      destruct (X _ I) as (g & Ig & Eg & _ & _ & ->). cbn in Eg. injection Eg as Eb Ew1 Ew2. f_equal.
      unfold row_of. rewrite <-Eb, <-Ew1, <-Ew2. f_equal.
      apply (uniform_inj e a l.*1); [done| |apply Vf|done]. by apply (list_elem_of_fmap_2 fst) in Ig.
Qed.
End emission.

(** * The attribute cursor's reduction *)

Abbreviation ValueRow := (EntityId * Value * Z * Z)%type (only parsing).
Definition fact_row (f : Fact) : ValueRow := (entity f, value f, valid_from f, valid_to f).
(** Rows come in the order of entity, encoded value and window. *)
Definition row_key (x : ValueRow) : EntityId * (bytes * (Z * Z)) :=
  let '(e, v, valid_from, valid_to) := x in (e, (encode_value v, (valid_from, valid_to))).

Lemma cmp_pair_same {A B} `{OrdLaws A, Ord B} (x : A) (y z : B) : cmp (x, y) (x, z) = cmp y z.
Proof. rewrite cmp_pair. by rewrite cmp_refl. Qed.

Lemma le_ord_fst {A B} `{Ord A, Ord B} (x x' : A) (y y' : B) : le_ord (x, y) (x', y') → le_ord x x'.
Proof. unfold le_ord. rewrite cmp_pair. by destruct (cmp x x'). Qed.

(** Facts of different triples do not cancel one another. *)
Lemma visible_app l k f : (∀ g h, g ∈ l → h ∈ k → eav_key g ≠ eav_key h) →
  visible (l ++ k) f ↔ visible l f ∨ visible k f.
Proof.
  intros D. assert (∀ g, cancels g f = true → eav_key g = eav_key f) as C.
  { intros g. unfold cancels, window_key. destruct (asserted g); [done|]. cbn.
    destruct (is_unscoped_window _ _); rewrite bool_decide_eq_true; [done|]. by intros [= ? ? ? ? ?]; unfold eav_key; congruence. }
  unfold visible. setoid_rewrite elem_of_app. split.
  - intros ([I|I] & A & P & X); [left|right]; (split_and!; auto).
  - intros [(I & A & P & X)|(I & A & P & X)]; (split_and!; [auto|done|done|]); intros g [G|G] Cg; auto; apply C in Cg.
    + by destruct (D f g I G).
    + by destruct (D g f G I).
Qed.

Section attribute_rows.
Context {V : Type} (s : FactStorage) (visit : V → ValueRow → result V).
Context (as_of : option AsOf) (vt : CurrentValidTime) (reader : option CommittedFactReader) (a : Attribute).
#[local] Abbreviation flush := (flush_entity s visit vt reader).
#[local] Abbreviation take := (take_in (accept_attribute s visit as_of vt reader)).

Definition seen (f : Fact) : bool := entry_visible_at_tx (tx_count f) (tx_id f) as_of.
Definition located_entry (x : Fact * CursorFactRef) : CurrentAevtEntryRef.t * CursorFactRef := (entry_of_fact x.1, x.2).

(** The rows [R] show what is visible in [l]. *)
Definition shows (l : list Fact) (R : list ValueRow) : Prop :=
  strictly_by row_key R ∧
  ∀ x, x ∈ R ↔ ∃ f, visible l f ∧ valid_during vt (window_of f) ∧ x = fact_row f.

Record reducing (e : EntityId) (cur : list (Fact * CursorFactRef)) (vs : CurrentAttributeValues) : Prop := {
  rg_wf : values_wf vs;
  rg_knows : knows cur (values_map vs);
  rg_uniform : uniform e a cur.*1;
  rg_resolves : ∀ x, x ∈ cur → resolves s reader x;
}.

Definition with_entity (e : EntityId) (row : OutputRow) : ValueRow := (e, row_value row, row_from row, row_to row).

Lemma rows_show e l rows : uniform e a l → rows_of vt l rows → shows l (with_entity e <$> rows).
Proof using.
  intros U [S M].
  assert (∀ row, row ∈ rows → ∃ f, visible l f ∧ row = row_of f) as F.
  { intros row (f & Vf & _ & ->)%M. eauto. }
  split.
  - clear M. induction S as [|x k S IH Fx]; [constructor|]. cbn. constructor; [apply IH; set_solver|].
    apply Forall_forall. intros y (z & -> & Z)%list_elem_of_fmap. rewrite Forall_forall in Fx. specialize (Fx z Z).
    destruct (F x ltac:(set_solver)) as (f & _ & ->), (F z ltac:(set_solver)) as (g & _ & ->).
    cbn. rewrite cmp_pair_same. exact Fx.
  - intros x. rewrite list_elem_of_fmap. split.
    + intros (row & -> & (f & Vf & Vd & ->)%M). exists f. split_and!; [done..|]. unfold fact_row, row_of. cbn.
      by rewrite (un_entity _ _ _ U f (proj1 Vf)).
    + intros (f & Vf & Vd & ->). exists (row_of f). split; [|apply M; eauto]. unfold fact_row, row_of. cbn.
      by rewrite (un_entity _ _ _ U f (proj1 Vf)).
Qed.

Lemma flush_rows e cur vs : reducing e cur vs →
  ∃ R, shows cur.*1 R ∧
    ∀ v, flush (mkReduction (Some e) vs, v) = (v' ← foldR visit v R; Ok (mkReduction None values_new, v')).
Proof using.
  intros [W K U Rs].
  destruct (emit_windows s reader vt cur _ (visible_windows vt (values_iter vs)) e a K U Rs) as (rows & E & Ro).
  { unfold visible_windows. by apply Permutation_flat_map, values_iter_map. }
  exists (with_entity e <$> sort_rows rows). split; [by apply rows_show|].
  intros v. unfold flush_entity. cbn [current_entity values]. rewrite E. cbn [mbind result_bind].
  by rewrite foldR_fmap.
Qed.

(** What the merge hands to the reducer: resolvable facts of the attribute, by entity. *)
Record feed (l : list (Fact * CursorFactRef)) : Prop := {
  fd_ok x : x ∈ l → fact_ok x.1 ∧ not_nan (value x.1) ∧ attribute x.1 = a ∧ resolves s reader x;
  fd_sorted : StronglySorted (λ x y, entity x.1 ≤ entity y.1) l;
}.
Lemma feed_cons x l : feed (x :: l) → feed l ∧ ∀ y, y ∈ l → entity x.1 ≤ entity y.1.
Proof using.
  intros [O S]. inversion S as [|? ? S' F]; subst. rewrite Forall_forall in F.
  split; [|done]. split; [|done]. intros y Y. apply O. by constructor.
Qed.

Lemma reducing_start x : fact_ok x.1 → not_nan (value x.1) → attribute x.1 = a → resolves s reader x →
  reducing (entity x.1) [x] (values_reduce values_new (entry_of_fact x.1) x.2).1.
Proof using.
  intros O N A R. destruct (values_reduce_map values_new (entry_of_fact x.1) x.2 ltac:(done)) as [W E].
  split; [done| | |by intros y ->%list_elem_of_singleton].
  - rewrite E. destruct x as [f r]. apply (knows_step [] ∅); [apply (knows_nil value_key)|]. destruct O. unfold u64_ok in *. cbn in *. lia.
  - split; intros f; cbn; intros ->%list_elem_of_singleton; done.
Qed.

Lemma reducing_step e cur vs x : reducing e cur vs →
  fact_ok x.1 → not_nan (value x.1) → attribute x.1 = a → resolves s reader x → entity x.1 = e →
  reducing e (cur ++ [x]) (values_reduce vs (entry_of_fact x.1) x.2).1.
Proof using.
  intros [W K [Ue Ua Uo Up] Rs] O N A R Ex.
  destruct (values_reduce_map vs (entry_of_fact x.1) x.2 W) as [W' E]. split; [done| | |].
  - rewrite E. destruct x as [f r]. apply knows_step; [done|]. destruct O. unfold u64_ok in *. cbn in *. lia.
  - rewrite fmap_app. split; intros f [I|I]%elem_of_app; auto; cbn in I; apply list_elem_of_singleton in I as ->; done.
  - intros y [I| ->%list_elem_of_singleton]%elem_of_app; auto.
Qed.

Lemma shows_app l k e R1 R2 : (∀ f, f ∈ l → entity f = e) → (∀ f, f ∈ k → e < entity f) →
  shows l R1 → shows k R2 → shows (l ++ k) (R1 ++ R2).
Proof using.
  intros El Ek [S1 M1] [S2 M2]. split.
  - apply StronglySorted_app. split_and!; [|done..]. intros x y (f & Vf & _ & ->)%M1 (g & Vg & _ & ->)%M2.
    unfold fact_row, row_key. rewrite cmp_pair. specialize (Ek g (proj1 Vg)). rewrite (El f (proj1 Vf)).
    assert (cmp e (entity g) = Lt) as -> by by apply Z.compare_lt_iff. done.
  - intros x. rewrite elem_of_app, M1, M2. setoid_rewrite visible_app.
    + split; [intros [(f & Vf & H)|(f & Vf & H)]; eauto|intros (f & [Vf|Vf] & H); eauto].
    + intros g h G H. unfold eav_key. specialize (El g G). specialize (Ek h H). intros [=]. lia.
Qed.

(** Taking in a feed and flushing at the end visits the rows it shows. *)
Definition visits (red : AttributeReduction) (l : list (Fact * CursorFactRef)) (shown : list Fact) : Prop :=
  ∃ R, shows shown R ∧
    ∀ v, (a ← foldR take (red, v) (located_entry <$> l); flush a) =
         (v' ← foldR visit v R; Ok (mkReduction None values_new, v')).

Lemma take_unseen red v x : seen x.1 = false → take (red, v) (located_entry x) = Ok (red, v).
Proof using.
  intros E. unfold take_in, accept_attribute. cbn.
  assert (entry_visible_as_of (entry_of_fact x.1) as_of = seen x.1) as -> by done. by rewrite E.
Qed.
Lemma take_same red v x : seen x.1 = true → (∀ e, current_entity red = Some e → e = entity x.1) →
  take (red, v) (located_entry x) =
  Ok (mkReduction (Some (entity x.1)) (values_reduce (values red) (entry_of_fact x.1) x.2).1, v).
Proof using.
  intros E C. unfold take_in, accept_attribute. cbn [fst snd located_entry].
  assert (entry_visible_as_of (entry_of_fact x.1) as_of = seen x.1) as -> by done. rewrite E. cbn [negb].
  destruct (current_entity red) as [e|] eqn:Ec; [|done]. rewrite (C e eq_refl).
  change (CurrentAevtEntryRef.entity (entry_of_fact x.1)) with (entity x.1). by rewrite Z.eqb_refl.
Qed.
Lemma take_next e vs v x : seen x.1 = true → entity x.1 ≠ e →
  take (mkReduction (Some e) vs, v) (located_entry x) =
  ('(red, v) ← flush (mkReduction (Some e) vs, v);
   Ok (mkReduction (Some (entity x.1)) (values_reduce (values red) (entry_of_fact x.1) x.2).1, v)).
Proof using.
  intros E C. unfold take_in, accept_attribute. cbn [fst snd located_entry].
  assert (entry_visible_as_of (entry_of_fact x.1) as_of = seen x.1) as -> by done. rewrite E. cbn [negb current_entity].
  change (CurrentAevtEntryRef.entity (entry_of_fact x.1)) with (entity x.1).
  by rewrite (proj2 (Z.eqb_neq e (entity x.1))) by congruence.
Qed.

Lemma accept_rows l : ∀ e cur vs, feed l → reducing e cur vs → (∀ x, x ∈ l → e ≤ entity x.1) →
  visits (mkReduction (Some e) vs) l (cur.*1 ++ List.filter seen l.*1).
Proof using.
  induction l as [|x l IH]; intros e cur vs F Rd Ge.
  { cbn. rewrite app_nil_r. destruct (flush_rows e cur vs Rd) as (R & S & E). by exists R. }
  destruct (feed_cons _ _ F) as [Fl Gx]. destruct (fd_ok _ F x) as (O & N & A & R); [by constructor|].
  cbn [fmap list_fmap List.filter]. destruct (seen x.1) eqn:Sx.
  - destruct (decide (entity x.1 = e)) as [Ex|Ex].
    + destruct (IH e (cur ++ [x]) _ Fl (reducing_step e cur vs x Rd O N A R Ex)) as (R' & S & E).
      { intros y Y. rewrite <-Ex. auto. }
      exists R'. rewrite fmap_app, <-app_assoc in S. split; [exact S|]. intros v. cbn [fmap list_fmap foldR].
      rewrite take_same; [|done|cbn; congruence]. rewrite Ex. apply E.
    + destruct (IH _ [x] _ Fl (reducing_start x O N A R) Gx) as (R2 & S2 & E2).
      destruct (flush_rows e cur vs Rd) as (R1 & S1 & E1).
      assert (e < entity x.1) as Lx by (specialize (Ge x ltac:(by constructor)); lia).
      exists (R1 ++ R2). split.
      * apply (shows_app _ _ e); [by apply Rd| |done|done]. intros f [->|I]%elem_of_cons; [done|].
        apply elem_of_List_filter in I as [_ (y & -> & Y)%list_elem_of_fmap]. specialize (Gx y Y). lia.
      * intros v. cbn [fmap list_fmap foldR]. rewrite take_next, E1, foldR_app by done.
        destruct (foldR visit v R1) as [v1|er]; cbn [mbind result_bind]; [|done]. apply E2.
  - destruct (IH e cur vs Fl Rd) as (R' & S & E); [intros y Y; apply Ge; by constructor|].
    exists R'. split; [exact S|]. intros v. cbn [fmap list_fmap foldR]. rewrite take_unseen by done. apply E.
Qed.

Lemma start_rows l : feed l → visits (mkReduction None values_new) l (List.filter seen l.*1).
Proof using.
  induction l as [|x l IH]; intros F.
  { exists []. split; [|done]. split; [constructor|]. cbn. intros y. split; [by intros ?%elem_of_nil|].
    intros (f & (I & _) & _). by apply elem_of_nil in I. }
  destruct (feed_cons _ _ F) as [Fl Gx]. destruct (fd_ok _ F x) as (O & N & A & R); [by constructor|].
  cbn [fmap list_fmap List.filter]. destruct (seen x.1) eqn:Sx.
  - destruct (accept_rows l _ [x] _ Fl (reducing_start x O N A R) Gx) as (R' & S & E).
    exists R'. split; [exact S|]. intros v. cbn [fmap list_fmap foldR]. rewrite take_same; [|done|done]. apply E.
  - destruct (IH Fl) as (R' & S & E). exists R'. split; [exact S|]. intros v. cbn [fmap list_fmap foldR].
    rewrite take_unseen by done. apply E.
Qed.
End attribute_rows.

(** * The net view as rows *)

Definition valid_duringb (vt : CurrentValidTime) (f : Fact) : bool :=
  match vt with At t => valid_at_test t f | Any => true end.
Lemma valid_duringb_spec vt f : valid_duringb vt f = true ↔ valid_during vt (window_of f).
Proof. destruct vt; cbn; [|done]. unfold valid_at_test. lia. Qed.

(** The rows of a list of facts in net view, in the order of the cursors. *)
Definition net_rows (vt : CurrentValidTime) (facts : list Fact) : list ValueRow :=
  merge_sort (λ x y, le_ord (row_key x) (row_key y))
    (fact_row <$> List.filter (valid_duringb vt) (net_asserted_facts facts)).

Record plain_facts (a : Attribute) (facts : list Fact) : Prop := {
  pf_attribute f : f ∈ facts → attribute f = a;
  pf_ok f : f ∈ facts → fact_ok f;
  pf_plain f : f ∈ facts → not_nan (value f);
}.

Lemma plain_counts a facts : plain_facts a facts → ∀ g, g ∈ facts → 0 ≤ tx_count g.
Proof. intros [_ O _] g G. destruct (O g G). ilia. Qed.

Lemma strictly_unique {A K} `{OrdLaws K} (key : A → K) l k :
  strictly_by key l → strictly_by key k → (∀ x, x ∈ l ↔ x ∈ k) → l = k.
Proof.
  intros S. revert k; induction S as [|x l S IH F]; intros k T M.
  { destruct k as [|y k]; [done|]. exfalso. apply (elem_of_nil (A := A) y), M. constructor. }
  destruct T as [|y k T G]; [exfalso; apply (elem_of_nil (A := A) x), M; constructor|].
  rewrite Forall_forall in F, G.
  assert (x = y) as ->.
  { pose proof (proj1 (M x) ltac:(constructor)) as X. pose proof (proj2 (M y) ltac:(constructor)) as Y.
    apply elem_of_cons in X as [->|X]; [done|]. apply elem_of_cons in Y as [->|Y]; [done|].
    specialize (F y Y). specialize (G x X). rewrite (cmp_opp (key x)), F in G. done. }
  f_equal. apply IH; [done|]. intros z. specialize (M z). rewrite !elem_of_cons in M.
  split; intros Z; [destruct (proj1 M (or_intror Z)) as [->|]|destruct (proj2 M (or_intror Z)) as [->|]]; auto.
  - specialize (F y Z). by rewrite cmp_refl in F.
  - specialize (G y Z). by rewrite cmp_refl in G.
Qed.

Lemma row_key_window a facts f g : plain_facts a facts → f ∈ facts → g ∈ facts →
  row_key (fact_row f) = row_key (fact_row g) → window_key f = window_key g.
Proof.
  intros [Pa Po Pp] If Ig. pose proof (Po f If) as []. pose proof (Po g Ig) as [].
  cbn. intros [= E1 E2 E3 E4]. apply encode_value_inj_plain in E2; auto.
  unfold window_key, eav_key. rewrite E1, E2, E3, E4, (Pa f If), (Pa g Ig). done.
Qed.
Lemma window_key_row f g : not_nan (value f) → not_nan (value g) →
  window_key f = window_key g → fact_row f = fact_row g.
Proof.
  intros Nf Ng [= E1 E2 E3 E4 E5]. rewrite !canonical_plain in E3 by done. unfold fact_row. congruence.
Qed.

Lemma net_elem facts f : (∀ g, g ∈ facts → 0 ≤ tx_count g) → f ∈ net_asserted_facts facts → f ∈ facts.
Proof. intros N I. by apply (net_visible facts f N I). Qed.

Lemma NoDup_fmap_elem {A B} (f : A → B) l x y : NoDup (f <$> l) → x ∈ l → y ∈ l → f x = f y → x = y.
Proof.
  intros N (i & Li)%list_elem_of_lookup (j & Lj)%list_elem_of_lookup E.
  assert (i = j) as ->; [|congruence]. apply (NoDup_lookup (f <$> l) i j (f x)); [done|by rewrite list_lookup_fmap, Li|].
  by rewrite list_lookup_fmap, Lj, E.
Qed.

(** Rows that show what is visible are the net view. *)
Lemma net_rows_show a vt facts : plain_facts a facts → shows vt facts (net_rows vt facts).
Proof.
  intros Pf. pose proof (plain_counts _ _ Pf) as N. split.
  - apply (sort_strict row_key (fact_row <$> List.filter (valid_duringb vt) (net_asserted_facts facts)));
      [apply merge_sort_Permutation| |].
    + apply StronglySorted_merge_sort; [intros x y z; apply transitivity|intros x y; apply (total le_ord (row_key x))].
    + pose proof (net_windows_distinct facts N) as D. rewrite <-list_fmap_compose. apply NoDup_fmap_2_strong.
      * intros f g [_ If]%elem_of_List_filter [_ Ig]%elem_of_List_filter E.
        apply (NoDup_fmap_elem window_key (net_asserted_facts facts)); [done..|].
        apply (row_key_window a facts); [done|by apply net_elem..|done].
      * apply NoDup_List_filter. by apply NoDup_fmap_1 in D.
  - intros x. unfold net_rows. rewrite merge_sort_Permutation, list_elem_of_fmap. split.
    + intros (f & -> & [Vd If]%elem_of_List_filter). exists f. split_and!; [by apply net_visible|by apply valid_duringb_spec|done].
    + intros (f & Vf & Vd & ->). destruct (visible_net facts f N Vf) as (g & Ig & W). exists g. split.
      * symmetry. apply window_key_row; [apply Pf; by apply net_elem|apply Pf, Vf|done].
      * apply elem_of_List_filter. split; [|done]. apply valid_duringb_spec. unfold window_of.
        injection W as _ _ _ E1 E2. by rewrite E1, E2.
Qed.
Lemma shows_net a vt facts R : plain_facts a facts → shows vt facts R → R = net_rows vt facts.
Proof.
  intros Pf [S M]. destruct (net_rows_show a vt facts Pf) as [Sn Mn].
  apply (strictly_unique row_key); [done..|]. intros x. by rewrite M, Mn.
Qed.

Lemma visible_perm l k f : l ≡ₚ k → visible l f ↔ visible k f.
Proof. intros P. unfold visible. by setoid_rewrite P. Qed.
Lemma shows_perm vt l k R : l ≡ₚ k → shows vt l R → shows vt k R.
Proof. intros P [S M]. split; [done|]. intros x. rewrite M. by setoid_rewrite (visible_perm l k _ P). Qed.

(** * Theorems: the attribute cursor *)

#[export] Instance aevt_entry_ord : Ord CurrentAevtEntryRef.t := cmp_on CurrentAevtEntryRef.tuple.
#[export] Instance aevt_entry_laws : OrdLaws CurrentAevtEntryRef.t.
Proof.
  assert (Inj (=) (=) CurrentAevtEntryRef.tuple) by (intros [] [] [=]; congruence).
  exact (cmp_on_laws CurrentAevtEntryRef.tuple).
Qed.

Lemma aevt_suffix_cmp (k : AevtKey) (k' : AevtKey) : ak_attribute k = ak_attribute k' →
  CurrentAevtEntryRef.cmp_owned_suffix (CurrentAevtEntryRef.from_owned k) k' = cmp k k'.
Proof.
  intros E. change (cmp k k') with (cmp (aevt_tuple k) (aevt_tuple k')). unfold aevt_tuple. rewrite E.
  by rewrite (cmp_pair_same (A := string)).
Qed.

Lemma start_attribute a e0 f : fact_ok f → le_ord (attribute_start a e0) (aevt_key_of f) → le_ord a (attribute f).
Proof.
  intros F L. unfold le_ord in *. change (cmp (attribute_start a e0) (aevt_key_of f)) with (cmp (aevt_tuple (attribute_start a e0)) (aevt_tuple (aevt_key_of f))) in L.
  unfold aevt_tuple in L. rewrite cmp_pair in L. intros E. apply L.
  change (ak_attribute (attribute_start a e0)) with a. change (ak_attribute (aevt_key_of f)) with (attribute f). by rewrite E.
Qed.
Lemma start_entity a e0 f : fact_ok f → attribute f = a → le_ord (attribute_start a e0) (aevt_key_of f) ↔ e0 ≤ entity f.
Proof.
  intros F E. unfold le_ord. change (cmp (attribute_start a e0) (aevt_key_of f)) with (cmp (aevt_tuple (attribute_start a e0)) (aevt_tuple (aevt_key_of f))).
  unfold aevt_tuple. cbn. rewrite E, (cmp_pair_same (A := string)). rewrite <-le_ord_Z.
  destruct F. apply (low_bounds (A := Z)). key_bounds.
Qed.
(** What a scan reads resolves to the facts of the log. *)
Lemma read_resolves s rows x : backed_by s rows → read_from rows s x → resolves s (committed s) x.
Proof.
  unfold resolves, resolve_cursor_fact, read_from. intros B Rx. destruct (x.2) as [id|fr]; [done|].
  destruct B as [[(rd & -> & _ & Rs) _ _ _]|[_ Er]]; [by apply Rs|]. rewrite Er in Rx. by apply elem_of_nil in Rx.
Qed.
Lemma scanned_ok log (lf : list (Fact * CursorFactRef)) sel x : Forall fact_ok log →
  lf.*1 ≡ₚ List.filter sel log → x ∈ lf → fact_ok x.1 ∧ x.1 ∈ log.
Proof.
  intros F P X. apply (list_elem_of_fmap_2 fst) in X. rewrite P in X. apply elem_of_List_filter in X as [_ X].
  rewrite Forall_forall in F. auto.
Qed.

Section attribute_cursor.
Context (hasher : EavtKey → Z) (s : FactStorage) (log : list Fact) (rows : list (Fact * FactRef)).
Hypothesis Ok_s : store_ok hasher s log.
Hypothesis Ok_log : Forall fact_ok log.
Hypothesis backed : backed_by s rows.
Context (a : Attribute) (e0 : EntityId).
Hypothesis utf8 : utf8_valid (as_bytes a) = true.
Hypothesis unextended : ∀ f, f ∈ log → covered a (attribute f) → attribute f = a.
Hypothesis plain : ∀ f, f ∈ log → attribute f = a → not_nan (value f).
Hypothesis capacity : Z.of_nat (length log) < usize_MAX.

Definition selected (f : Fact) : bool := bool_decide (attribute f = a) && (e0 <=? entity f).
#[local] Abbreviation start := (attribute_start a e0).
#[local] Abbreviation stop := (attribute_low <$> next_string_prefix a).
#[local] Abbreviation ids := (range_aevt (pending s) start stop).
#[local] Abbreviation good := (λ k, ak_attribute k = a ∧ le_ord start k ∧ ordered_range k stop).
#[local] Abbreviation cs := (range_entries aevt_key_of CurrentAevtEntryRef.from_owned rows start stop).


Lemma selected_range f : f ∈ log → selected f = true ↔
  le_ord start (aevt_key_of f) ∧ match stop with Some k => cmp (aevt_key_of f) k = Lt | None => True end.
Proof using Ok_log utf8 unextended.
  intros I. assert (fact_ok f) as F by (rewrite Forall_forall in Ok_log; auto).
  pose proof (attribute_range f a F utf8) as Ra. unfold selected. rewrite andb_true_iff, bool_decide_eq_true, Z.leb_le.
  split.
  - intros [E L]. split; [by apply (start_entity a e0 f F E)|]. assert (covered a (attribute f)) as C by (rewrite E; apply covered_refl).
    by apply Ra in C as [_ C].
  - intros [L B]. assert (covered a (attribute f)) as C.
    { apply Ra. split; [|done]. apply start_attribute in L; [|done]. by apply aevt_low. }
    pose proof (unextended f I C) as E. split; [done|]. by apply (start_entity a e0 f F E).
Qed.

Lemma selected_ids i : i ∈ ids ↔ ∃ r, records (pending s) !! i = Some r ∧ selected (PendingFactRecord.to_fact r) = true.
Proof using Ok_s Ok_log utf8 unextended.
  destruct (aevt_range_exact hasher (pending s) (so_overlay _ _ _ Ok_s) start stop) as [_ _ M]. rewrite M.
  assert (∀ r, records (pending s) !! i = Some r → selected (PendingFactRecord.to_fact r) = true ↔
    le_ord start (rec_aevt r) ∧ match stop with Some k => cmp (rec_aevt r) k = Lt | None => True end) as X.
  { intros r L. apply list_elem_of_lookup_2 in L. destruct (record_fact hasher s log Ok_s Ok_log r L) as (_ & _ & ->).
    apply selected_range. apply (overlay_log hasher s log Ok_s Ok_log). by apply list_elem_of_fmap_2. }
  split.
  - intros [_ (r & L & H)]. exists r. split; [done|]. by apply X.
  - intros (r & L & H). split; [apply elem_of_seq; apply lookup_lt_Some in L; lia|]. exists r. split; [done|]. by apply X.
Qed.

Lemma selected_attribute f : selected f = true → attribute f = a.
Proof using. unfold selected. by intros [->%bool_decide_eq_true _]%andb_prop. Qed.

Lemma selected_record i : i ∈ ids → ∃ r, records (pending s) !! i = Some r ∧
  entry_of_id aevt_key_of CurrentAevtEntryRef.from_owned s i = PendingFactRecord.current_aevt_entry r.
Proof using Ok_s Ok_log utf8 unextended.
  intros (r & L & Sr)%selected_ids. exists r. split; [done|]. unfold entry_of_id, pending_at, fact_at. rewrite L. cbn [fmap option_fmap option_map default from_option id].
  apply list_elem_of_lookup_2 in L. by destruct (record_fact hasher s log Ok_s Ok_log r L) as (_ & _ & <-).
Qed.

Lemma resume_selected f k : f ∈ log → selected f = true → ak_attribute k = a →
  aevt_resume (CurrentAevtEntryRef.from_owned (aevt_key_of f)) k = aevt_key_of f.
Proof using.
  intros I Sf E. unfold aevt_resume, CurrentAevtEntryRef.write_resume_key. cbn. rewrite E.
  by rewrite <-(selected_attribute f Sf) at 1.
Qed.

Lemma attribute_keys : NoDup (aevt_key_of <$> rows.*1).
Proof using backed.
  destruct backed as [[_ _ _ D]|[_ ->]]; [|constructor]. apply (NoDup_fmap_det _ eavt_key_of); [|done].
  intros f g [=]. unfold eavt_key_of. by f_equal.
Qed.

Lemma attribute_reader :
  match committed_index_reader s with
  | Some ix => ∀ S k (f : S → _ → result (S * bool)) x, good k → ix_visit_aevt ix k stop f x =
      visitR f x (prod_map CurrentAevtEntryRef.from_owned id <$> bt_from k stop (index_of aevt_key_of rows))
  | None => rows = []
  end.
Proof using Ok_s Ok_log backed utf8 unextended.
  pose proof attribute_keys as N. pose proof (backed_log hasher s log Ok_s Ok_log rows backed) as Lg.
  destruct backed as [[_ (ix & -> & Sv) _ _]|[[_ ->] ->]]; [|done].
  intros S k f x (_ & Lk & Ro). destruct (visits_aevt (rows := rows) k stop Ro) as (l & P & One & ->). rewrite One; [by rewrite indexes_of_parts|].
  assert (A : ∀ e, e ∈ l → ak_attribute e.1 = a).
  { intros e. rewrite P, indexes_of_parts. cbn [aevt]. fold (index_of aevt_key_of rows).
    intros [B I]%elem_of_List_filter. destruct (bt_build (prod_map aevt_key_of id <$> rows)) as [_ Q].
    unfold index_of in I. rewrite Q in I by (rewrite <-list_fmap_compose; by rewrite <-list_fmap_compose in N).
    apply list_elem_of_fmap in I as ([g r] & -> & I). cbn in B |- *.
    apply andb_true_iff in B as [B1 B2]. apply selected_attribute, selected_range.
    - rewrite Lg. apply elem_of_app. left. by apply (list_elem_of_fmap_2 fst) in I.
    - split; [etrans; [exact Lk|]; apply le_ord_cmp; by destruct (ltb_ord (aevt_key_of g) k)|].
      destruct stop as [k'|]; [|done]. unfold ltb_ord in B2. by destruct (cmp (aevt_key_of g) k'). }
  intros y z Y Z. by rewrite (A y Y), (A z Z).
Qed.

(** The facts the cursor is about: those of the attribute from [e0] on that the
    requested point in time sees. *)
Definition cursor_facts (as_of : option AsOf) : list Fact := List.filter (seen as_of) (List.filter selected log).

Lemma attribute_feed lf : lf.*1 ≡ₚ List.filter selected log →
  StronglySorted (λ x y : CurrentAevtEntryRef.t * CursorFactRef, le_ord x.1 y.1)
    (place aevt_key_of CurrentAevtEntryRef.from_owned <$> lf) →
  (∀ x, x ∈ lf → read_from rows s x ∧ selected x.1 = true) → feed s (committed s) a lf.
Proof using Ok_log backed plain.
  intros P S R. split.
  - intros x X. destruct (R x X) as [Rx Sx]. destruct (scanned_ok log lf _ x Ok_log P X) as [O I].
    pose proof (selected_attribute _ Sx) as A. split_and!; auto. by apply (read_resolves s rows).
  - clear -S. induction lf as [|x l IH]; [constructor|]. cbn in S. inversion S as [|? ? S' F]; subst.
    constructor; [by apply IH|]. apply Forall_forall. intros y I.
    pose proof (proj1 (Forall_forall _ _) F _ (list_elem_of_fmap_2 (place aevt_key_of CurrentAevtEntryRef.from_owned) _ _ I)) as Y.
    exact (proj1 (le_ord_Z _ _) (le_ord_fst _ _ _ _ Y)).
Qed.

Lemma start_ordered : ordered_range start stop.
Proof using utf8.
  destruct (proj2 (covered_range a a utf8) (covered_refl a)) as [_ L]. destruct (next_string_prefix a) as [b|]; [|done].
  cbn [fmap option_fmap option_map ordered_range]. change (le_ord (aevt_tuple start) (aevt_tuple (attribute_low b))).
  unfold le_ord, aevt_tuple. rewrite cmp_pair. cbn [ak_attribute attribute_start attribute_low]. by rewrite L.
Qed.

Lemma attribute_cursor_drives as_of vt : ∃ n, (n ≤ length log)%nat ∧
  ∀ V (visit : V → ValueRow → result V) v budgets, enough n budgets →
    drive_attribute s visit (current_attribute_cursor_starting_at s a as_of vt e0) v budgets =
    (v ← foldR visit v (net_rows vt (cursor_facts as_of)); Ok (v, true)).
Proof using All.
  pose proof (backed_log hasher s log Ok_s Ok_log rows backed) as Lg.
  assert (∀ f, f ∈ rows.*1 → f ∈ log) as Rl by (rewrite Lg; intros; apply elem_of_app; by left).
  destruct (aevt_range_exact hasher (pending s) (so_overlay _ _ _ Ok_s) start stop) as [So Nd _].
  destruct (drive_located aevt_key_of CurrentAevtEntryRef.from_owned CurrentAevtEntryRef.cmp_owned_suffix rows
    start stop selected good s ids) with (visit_entries := λ rd S, @ix_visit_aevt rd S) (write_resume_key := aevt_resume)
    (compare_projection := compare_aevt_projection (pending s)) (pending_entry := pending_aevt s)
    as (lf & P & Sl & Rd & D).
  - apply attribute_keys.
  - intros f If. by apply selected_range, Rl.
  - intros f g Sf Sg. change (CurrentAevtEntryRef.cmp_owned_suffix (CurrentAevtEntryRef.from_owned (aevt_key_of f)) (aevt_key_of g)
      = cmp (aevt_key_of f) (aevt_key_of g)). apply aevt_suffix_cmp. cbn.
    by rewrite (selected_attribute f Sf), (selected_attribute g Sg).
  - by intros k (_ & ? & _).
  - intros f k Sf [Ek _]. apply aevt_suffix_cmp. cbn. by rewrite (selected_attribute f Sf).
  - done.
  - apply selected_ids.
  - intros i j x y r q Hij Hi Hj Lr Lq. pose proof (So i j x y r q Hij Hi Hj Lr Lq) as Le.
    apply list_elem_of_lookup_2 in Lr, Lq.
    destruct (record_fact hasher s log Ok_s Ok_log r Lr) as (_ & _ & <-),
      (record_fact hasher s log Ok_s Ok_log q Lq) as (_ & _ & <-). done.
  - intros id (r & L & ->)%selected_record. unfold pending_aevt, overlay_get. by rewrite L.
  - intros id key (r & L & ->)%selected_record. unfold compare_aevt_projection, overlay_get. by rewrite L.
  - split; [done|]. split; [reflexivity|apply start_ordered].
  - intros f k If Sf [Ek _]. rewrite (resume_selected f k (Rl f If) Sf Ek). split; [by apply selected_attribute|].
    apply selected_range in Sf as [? Ls]; [|by apply Rl]. split; [done|]. destruct stop as [k'|]; [|done]. by apply lt_ordered.
  - done.
  - apply attribute_reader.
  - assert (lf.*1 ≡ₚ List.filter selected log) as Pl.
    { rewrite P, Lg. done. }
    assert (length lf ≤ length log)%nat as Ll.
    { rewrite <-(length_fmap fst lf), Pl. apply length_filter_le. }
    exists (length lf). split; [done|]. intros V visit v budgets En.
    assert (feed s (committed s) a lf) as F by by apply attribute_feed.
    destruct (start_rows s visit as_of vt (committed s) a lf F) as (R & Sh & E).
    unfold drive_attribute, current_attribute_cursor_starting_at. rewrite (proj1 (D ltac:(lia) _ _ _ _ _ _ _ _ _ _ (proj1 En)) En).
    specialize (E v). change (place aevt_key_of CurrentAevtEntryRef.from_owned <$> lf) with (located_entry <$> lf).
    rewrite <-(shows_net a vt (cursor_facts as_of) R).
    + destruct (foldR (take_in _) _ _) as [[r v1]|e]; cbn [mbind result_bind] in *.
      * rewrite E. by destruct (foldR visit v R).
      * destruct (foldR visit v R); cbn in *; congruence.
    + split; intros f [_ [Sf If]%elem_of_List_filter]%elem_of_List_filter;
        [by apply selected_attribute|by rewrite Forall_forall in Ok_log; apply Ok_log|apply plain; [done|by apply selected_attribute]].
    + eapply shows_perm; [|exact Sh]. unfold cursor_facts. by apply List_filter_perm.
Qed.

Lemma unbounded_visit {V} (visit : V → ValueRow → result V) c v out fuel :
  drive_attribute s visit c v [usize_MAX] = (v ← out; Ok (v, true)) →
  visit_until_complete s visit (S fuel) c v = out.
Proof using.
  unfold drive_attribute. cbn [drive visit_until_complete]. fold (step_current_attribute_interval_cursor s visit c usize_MAX v).
  intros E. destruct (step_current_attribute_interval_cursor s visit c usize_MAX v) as [[[c' v'] [n|n]]|e];
    cbn [mbind result_bind] in *; destruct out as [w|e']; cbn in E; congruence.
Qed.

(** C29: an attribute cursor visits the net view.  For an attribute that no stored
    attribute properly extends, with values other than NaN, and whatever the budgets
    of the steps (at least one entry each, and enough of them), the cursor visits
    exactly the rows of the net view of the facts of the attribute at the requested
    transaction and valid time, each once, in the order of entity, value and window,
    and then reports completion; an error of the visitor stops it.  The unbounded
    visit returns after one step with the same visits; a step after the store has
    published fails. *)
Theorem attribute_cursor_is_net_view as_of vt V (visit : V → ValueRow → result V) v :
  (∃ n, (n ≤ length log)%nat ∧ ∀ budgets, enough n budgets →
     drive_attribute s visit (current_attribute_cursor_starting_at s a as_of vt e0) v budgets =
     (v ← foldR visit v (net_rows vt (cursor_facts as_of)); Ok (v, true))) ∧
  (∀ fuel, visit_until_complete s visit (S fuel) (current_attribute_cursor_starting_at s a as_of vt e0) v =
     foldR visit v (net_rows vt (cursor_facts as_of))) ∧
  (∀ c n, complete c = false → c_generation c ≠ publication_generation s →
     is_ok (step_current_attribute_interval_cursor s visit c n v) = false).
Proof using All.
  destruct (attribute_cursor_drives as_of vt) as (n & Ln & D). split_and!.
  - exists n. split; [done|]. intros budgets. apply D.
  - intros fuel. apply unbounded_visit, D, enough_max. lia.
  - intros c m Co Gn. unfold step_current_attribute_interval_cursor, cursor_step. rewrite Co.
    by rewrite (proj2 (Z.eqb_neq _ _)) by congruence.
Qed.
End attribute_cursor.

(** The rows of a visit, in order. *)
Definition collect (rows : list ValueRow) (x : ValueRow) : result (list ValueRow) := Ok (rows ++ [x]).

Lemma attribute_cursor_is_net_view_witness :
  visit_until_complete prefix_store collect 1
    (current_attribute_cursor_starting_at prefix_store ":age2" None (At 2000) 0) [] =
  Ok [(1, VInteger 99, 1000, VALID_TIME_FOREVER)].
Proof.
  destruct (attribute_cursor_is_net_view const_hasher prefix_store prefix_log [] prefix_store_ok prefix_log_ok
    ltac:(by right) ":age2" 0 ltac:(done)) with (as_of := @None AsOf) (vt := At 2000) (V := list ValueRow)
    (visit := collect) (v := @nil ValueRow) as (_ & E & _).
  - intros f [->|[->|[]%elem_of_nil]%elem_of_cons]%elem_of_cons; [|done]. intros C%coveredb_spec. by vm_compute in C.
  - intros f [->|[->|[]%elem_of_nil]%elem_of_cons]%elem_of_cons; done.
  - by vm_compute.
  - rewrite E. by vm_compute.
Defined.

(** A cursor for [:age] also visits the facts of [:age2]. *)
Example attribute_cursor_reads_extensions :
  visit_until_complete prefix_store collect 1
    (current_attribute_cursor_starting_at prefix_store ":age" None (At 2000) 0) [] =
  Ok [(1, VInteger 3, 1000, VALID_TIME_FOREVER); (1, VInteger 99, 1000, VALID_TIME_FOREVER)].
Proof. by vm_compute. Qed.
