(* ===== verification/EntityCursors.v ===== *)
(** The entity-attribute and reference cursors visit the net view
    (src/src/graph/storage.rs, [step_current_entity_attribute_cursor] and
    [step_current_refs_cursor]): the theorems of [Cursors] for the other two. *)
From S2P Require Import Prelude Types ValueCodec NetView SortedRuns Index PendingOverlay FactStore Lookup MergeScan CurrentState IndexScan Cursors.

(** * Ranges of one attribute *)

Lemma as_bytes_next a : as_bytes (next_attribute a) = as_bytes a ++ [z2b 0].
Proof.
  unfold next_attribute. induction a as [|c a IH]; [done|].
  change (as_bytes (String c a +:+ String (Ascii.ascii_of_nat 0) ""))
    with (Ascii.byte_of_ascii c :: as_bytes (a +:+ String (Ascii.ascii_of_nat 0) "")).
  by rewrite IH.
Qed.

Lemma between_zero (p x : bytes) : le_ord p x ∧ cmp x (p ++ [z2b 0]) = Lt ↔ x = p.
Proof.
  split; [|intros ->; split; [reflexivity|]].
  - revert x; induction p as [|b p IH]; intros [|c x]; unfold le_ord, cmp, list_ord; cbn; [done| |by intros []|].
    + intros [_ H]. pose proof (b2z_range c). unfold cmp, byte_ord, cmp_on, cmp, Z_ord in H.
      change (byte.unsigned (z2b 0)) with 0 in H.
      destruct (Z.compare_spec (b2z c) 0) as [E|E|E]; cbn in H; [by destruct x|lia|done].
    + intros [L H]. specialize (IH x). destruct (cmp b c) eqn:C; cbn in L; [|by rewrite (cmp_opp b c), C in H|done].
      apply cmp_eq in C as ->. rewrite cmp_refl in H. cbn in H. f_equal. by apply IH.
  - induction p as [|b p IH]; [done|]. unfold cmp, list_ord. cbn. by rewrite cmp_refl.
Qed.

Lemma next_attribute_between a x : le_ord a x ∧ cmp x (next_attribute a) = Lt ↔ x = a.
Proof.
  unfold le_ord, cmp, string_ord, cmp_on. rewrite as_bytes_next.
  rewrite (between_zero (as_bytes a) (as_bytes x)). split; [apply (inj as_bytes)|by intros ->].
Qed.

(** Keys that start with a number and an attribute: the range of one attribute. *)
Lemma exact_range_pair {B} `{OrdLaws B} (e x : Z) (a y : string) (lo rest : B) : le_ord lo rest →
  le_ord (e, (a, lo)) (x, (y, rest)) ∧ cmp (x, (y, rest)) (e, (next_attribute a, lo)) = Lt ↔ x = e ∧ y = a.
Proof.
  intros L. split.
  - unfold le_ord. rewrite !cmp_pair. intros [L1 L2].
    destruct (cmp e x) eqn:C; [|by rewrite (cmp_opp e x), C in L2|done].
    apply cmp_eq in C as ->. rewrite cmp_refl in L2. cbn in L1, L2. split; [done|].
    apply next_attribute_between. split; [unfold le_ord; by destruct (cmp a y)|].
    destruct (cmp y (next_attribute a)) eqn:C; cbn in L2; [|done|done]. apply cmp_eq in C as ->.
    by rewrite (cmp_opp lo rest) in L2; unfold le_ord in L; destruct (cmp lo rest).
  - intros [-> ->]. unfold le_ord. rewrite !cmp_pair, !cmp_refl. cbn. split; [done|].
    by destruct (proj2 (next_attribute_between a a) eq_refl) as [_ ->].
Qed.
Lemma attribute_pair_ordered {B} `{OrdLaws B} (e : Z) (a : string) (lo : B) : le_ord (e, (a, lo)) (e, (next_attribute a, lo)).
Proof.
  destruct (proj2 (exact_range_pair e e a a lo lo (reflexivity lo)) (conj eq_refl eq_refl)) as [_ L]. by apply lt_ordered.
Qed.

(** * One entity and attribute *)

#[export] Instance eavt_entry_ord : Ord CurrentEavtEntryRef.t := cmp_on CurrentEavtEntryRef.tuple.
#[export] Instance eavt_entry_laws : OrdLaws CurrentEavtEntryRef.t.
Proof.
  assert (Inj (=) (=) CurrentEavtEntryRef.tuple) by (intros [] [] [=]; congruence).
  exact (cmp_on_laws CurrentEavtEntryRef.tuple).
Qed.

(** What the reducer holds at the end of a scan. *)

Definition eavt_located (x : Fact * CursorFactRef) : CurrentEavtEntryRef.t * CursorFactRef :=
  (CurrentEavtEntryRef.from_owned (eavt_key_of x.1), x.2).

Lemma accept_entity_one {V} as_of vt reader m each (v : V) f r :
  take_in (accept_entity as_of vt reader) (mkEntityReduction m each, v) (eavt_located (f, r)) =
  Ok (mkEntityReduction (if seen as_of f then (reduce_current_entry m (entry_of_fact f) r).1 else m) each, v).
Proof.
  unfold take_in, accept_entity. cbn [fst snd].
  change (entry_visible_as_of (value_projection (eavt_located (f, r)).1) as_of) with (seen as_of f).
  by destruct (seen as_of f).
Qed.

Lemma accept_entity_fold as_of vt reader each lf : ∀ taken m, knows taken m →
  (∀ x, x ∈ lf → fact_ok x.1) → ∃ m', knows (taken ++ List.filter (λ x, seen as_of x.1) lf) m' ∧
  ∀ V (v : V), foldR (take_in (accept_entity as_of vt reader)) (mkEntityReduction m each, v) (eavt_located <$> lf) =
    Ok (mkEntityReduction m' each, v).
Proof.
  induction lf as [|[f r] lf IH]; intros taken m K O; [exists m; by rewrite app_nil_r|].
  assert (0 ≤ tx_count f) as N by (destruct (O (f, r) ltac:(by constructor)); unfold u64_ok in *; cbn in *; lia).
  assert (∀ x, x ∈ lf → fact_ok x.1) as O' by (intros; apply O; by constructor).
  cbn [List.filter fst]. destruct (seen as_of f) eqn:Sf.
  - destruct (IH (taken ++ [(f, r)]) _ (knows_step _ _ f r K N) O') as (m' & K' & E).
    exists m'. rewrite <-app_assoc in K'. split; [done|]. intros V v. cbn [fmap list_fmap foldR].
    rewrite accept_entity_one, Sf. apply E.
  - destruct (IH taken m K O') as (m' & K' & E). exists m'. split; [done|]. intros V v. cbn [fmap list_fmap foldR].
    rewrite accept_entity_one, Sf. apply E.
Qed.

Section entity_cursor.
Context (hasher : EavtKey → Z) (s : FactStorage) (log : list Fact) (rows : list (Fact * FactRef)).
Hypothesis Ok_s : store_ok hasher s log.
Hypothesis Ok_log : Forall fact_ok log.
Hypothesis backed : backed_by s rows.
Context (e : EntityId) (a : Attribute).
Hypothesis plain : ∀ f, f ∈ log → entity f = e → attribute f = a → not_nan (value f).
Hypothesis capacity : Z.of_nat (length log) < usize_MAX.

Definition of_entity (f : Fact) : bool := (entity f =? e) && bool_decide (attribute f = a).
#[local] Abbreviation start := (entity_attribute_low e a).
#[local] Abbreviation stop := (entity_attribute_low e (next_attribute a)).
#[local] Abbreviation ids := (range_eavt (pending s) start stop).

Lemma of_entity_spec f : of_entity f = true ↔ entity f = e ∧ attribute f = a.
Proof using. unfold of_entity. by rewrite andb_true_iff, Z.eqb_eq, bool_decide_eq_true. Qed.

Lemma of_entity_range f : f ∈ log →
  of_entity f = true ↔ le_ord start (eavt_key_of f) ∧ cmp (eavt_key_of f) stop = Lt.
Proof using Ok_log.
  intros I. rewrite Forall_forall in Ok_log. destruct (Ok_log f I). rewrite of_entity_spec.
  change (le_ord start (eavt_key_of f)) with (le_ord (eavt_tuple start) (eavt_tuple (eavt_key_of f))).
  change (cmp (eavt_key_of f) stop) with (cmp (eavt_tuple (eavt_key_of f)) (eavt_tuple stop)).
  unfold eavt_tuple. cbn. symmetry. apply exact_range_pair. key_bounds.
Qed.

Lemma entity_ids i : i ∈ ids ↔ ∃ r, records (pending s) !! i = Some r ∧ of_entity (PendingFactRecord.to_fact r) = true.
Proof using Ok_s Ok_log.
  destruct (eavt_range_exact hasher (pending s) (so_overlay _ _ _ Ok_s) start stop) as [_ _ M]. rewrite M.
  assert (∀ r, records (pending s) !! i = Some r → of_entity (PendingFactRecord.to_fact r) = true ↔
    le_ord start (rec_eavt r) ∧ cmp (rec_eavt r) stop = Lt) as X.
  { intros r L. apply list_elem_of_lookup_2 in L. destruct (record_fact hasher s log Ok_s Ok_log r L) as (_ & -> & _).
    apply of_entity_range. apply (overlay_log hasher s log Ok_s Ok_log). by apply list_elem_of_fmap_2. }
  split.
  - intros [_ (r & L & H)]. exists r. split; [done|]. by apply X.
  - intros (r & L & H). split; [apply elem_of_seq; apply lookup_lt_Some in L; lia|]. exists r. split; [done|]. by apply X.
Qed.

Lemma entity_record i : i ∈ ids → ∃ r, records (pending s) !! i = Some r ∧
  entry_of_id eavt_key_of CurrentEavtEntryRef.from_owned s i = PendingFactRecord.current_eavt_entry r.
Proof using Ok_s Ok_log.
  intros (r & L & Sr)%entity_ids. exists r. split; [done|]. unfold entry_of_id, pending_at, fact_at. rewrite L.
  cbn [fmap option_fmap option_map default from_option id].
  apply list_elem_of_lookup_2 in L. by destruct (record_fact hasher s log Ok_s Ok_log r L) as (_ & <- & _).
Qed.

Lemma entity_attribute_ordered : ordered_range start (Some stop).
Proof using. exact (attribute_pair_ordered e a _). Qed.

(** The facts of the entity and attribute, with where they are read from. *)
Lemma entity_scan : ∃ lf,
  lf.*1 ≡ₚ List.filter of_entity log ∧ (∀ x, x ∈ lf → resolves s (committed s) x ∧ fact_ok x.1 ∧ of_entity x.1 = true) ∧
  ∀ R V accept finish stale as_of vt budgets (r : R) (v : V), Forall (λ b, 0 < b) budgets →
    let out := drive CurrentEavtEntryRef.cmp_owned eavt_resume (λ rd S, @ix_visit_eavt rd S)
      (compare_eavt_projection (pending s)) (pending_eavt s) accept finish
      (publication_generation s) stale (cursor_new s start (Some stop) ids r as_of vt) v budgets in
    let full := ('(r, v) ← foldR (take_in (accept as_of vt (committed s))) (r, v) (eavt_located <$> lf);
      '(r, v) ← finish vt (committed s) (r, v); Ok (v, true)) in
    (enough (length lf) budgets → out = full) ∧ (∀ v', out = Ok (v', true) → full = Ok (v', true)).
Proof using Ok_s Ok_log backed capacity.
  pose proof (backed_log hasher s log Ok_s Ok_log rows backed) as Lg.
  assert (∀ f, f ∈ rows.*1 → f ∈ log) as Rl by (rewrite Lg; intros; apply elem_of_app; by left).
  destruct (eavt_range_exact hasher (pending s) (so_overlay _ _ _ Ok_s) start stop) as [So Nd _].
  destruct (drive_located eavt_key_of CurrentEavtEntryRef.from_owned CurrentEavtEntryRef.cmp_owned rows
    start (Some stop) of_entity (λ k, le_ord start k ∧ ordered_range k (Some stop)) s ids) with (visit_entries := λ rd S, @ix_visit_eavt rd S)
    (write_resume_key := eavt_resume) (compare_projection := compare_eavt_projection (pending s))
    (pending_entry := pending_eavt s) as (lf & P & Sl & Rd & D).
  - destruct backed as [[_ _ _ ?]|[_ ->]]; [done|constructor].
  - intros f If. by apply of_entity_range, Rl.
  - done.
  - by intros k [? _].
  - done.
  - done.
  - apply entity_ids.
  - intros i j x y r q Hij Hi Hj Lr Lq. pose proof (So i j x y r q Hij Hi Hj Lr Lq) as Le.
    apply list_elem_of_lookup_2 in Lr, Lq.
    destruct (record_fact hasher s log Ok_s Ok_log r Lr) as (_ & <- & _),
      (record_fact hasher s log Ok_s Ok_log q Lq) as (_ & <- & _). done.
  - intros i (r & L & ->)%entity_record. unfold pending_eavt, overlay_get. by rewrite L.
  - intros i key (r & L & ->)%entity_record. unfold compare_eavt_projection, overlay_get. by rewrite L.
  - split; [reflexivity|apply entity_attribute_ordered].
  - intros f k If Sf _. apply of_entity_range in Sf as [? Ls]; [|by apply Rl]. split; [done|].
    exact (lt_ordered _ _ Ls).
  - done.
  - destruct backed as [[_ (ix & -> & Sv) _ _]|[[_ ->] ->]]; [|done].
    intros S k f x [_ Ro]. by rewrite (visits_eavt (rows := rows)), indexes_of_parts.
  - exists lf. assert (lf.*1 ≡ₚ List.filter of_entity log) as Pl by by rewrite P, Lg.
    split_and!; [done| |].
    + intros x X. destruct (Rd x X) as [Rx Sx]. split_and!; [|by eapply scanned_ok|done].
      by apply (read_resolves s rows).
    + apply D. rewrite <-(length_fmap fst lf), Pl. pose proof (length_filter_le of_entity log). lia.
Qed.

Definition entity_facts (as_of : option AsOf) : list Fact := List.filter (seen as_of) (List.filter of_entity log).

Lemma entity_facts_plain as_of : plain_facts a (entity_facts as_of).
Proof using Ok_log plain.
  rewrite Forall_forall in Ok_log.
  split; intros f [_ [[Ee Ea]%of_entity_spec If]%elem_of_List_filter]%elem_of_List_filter; auto.
Qed.
End entity_cursor.

(** * The rows of one entity *)

(** The distinct values of the net view, in the order of their bytes. *)
Definition net_values (vt : CurrentValidTime) (facts : list Fact) : list Value :=
  merge_sort (λ x y, le_ord (encode_value x) (encode_value y))
    (remove_dups (value <$> List.filter (valid_duringb vt) (net_asserted_facts facts))).

(** The values that have a visible window. *)
Definition shows_values (vt : CurrentValidTime) (facts : list Fact) (vs : list Value) : Prop :=
  strictly_by encode_value vs ∧
  ∀ v, v ∈ vs ↔ ∃ f, visible facts f ∧ valid_during vt (window_of f) ∧ v = value f.

Lemma net_values_show e a vt facts : uniform e a facts → shows_values vt facts (net_values vt facts).
Proof.
  intros U. assert (plain_facts a facts) as Pf by (by destruct U; split). pose proof (plain_counts _ _ Pf) as N. split.
  - eapply (sort_strict encode_value); [apply merge_sort_Permutation| |].
    + apply StronglySorted_merge_sort; [intros ???; apply transitivity|intros x y; apply (total le_ord (encode_value x))].
    + apply NoDup_fmap_2_strong; [|apply NoDup_remove_dups]. intros x y.
      rewrite !elem_of_remove_dups. intros (f & -> & [_ If]%elem_of_List_filter)%list_elem_of_fmap
        (g & -> & [_ Ig]%elem_of_List_filter)%list_elem_of_fmap.
      apply (uniform_inj e a facts); [done|by apply net_elem..].
  - intros v. unfold net_values. rewrite merge_sort_Permutation, elem_of_remove_dups, list_elem_of_fmap. split.
    + intros (f & -> & [Vd If]%elem_of_List_filter). exists f. split_and!; [by apply net_visible|by apply valid_duringb_spec|done].
    + intros (f & Vf & Vd & ->). destruct (visible_net _ f N Vf) as (g & Ig & W). exists g.
      assert (fact_row f = fact_row g) as Er by (apply window_key_row; [apply Pf, Vf|apply Pf; by apply net_elem|done]).
      injection Er as _ Ev Ef Et. split; [done|]. apply elem_of_List_filter. split; [|done]. apply valid_duringb_spec.
      unfold window_of. by rewrite <-Ef, <-Et.
Qed.
Lemma shows_values_net e a vt facts vs : uniform e a facts → shows_values vt facts vs → vs = net_values vt facts.
Proof.
  intros U [S M]. destruct (net_values_show e a vt facts U) as [Sn Mn].
  apply (strictly_unique encode_value); [done..|]. intros x. by rewrite M, Mn.
Qed.
Lemma shows_values_perm vt l k vs : l ≡ₚ k → shows_values vt l vs → shows_values vt k vs.
Proof. intros P [S M]. split; [done|]. intros x. rewrite M. by setoid_rewrite (visible_perm l k _ P). Qed.

Section entity_rows.
Context (s : FactStorage) (reader : option CommittedFactReader) (vt : CurrentValidTime) (e : EntityId) (a : Attribute).
Context (window_order : gmap (Z * Z) (Z * CursorFactRef) → list ((Z * Z) * (Z * CursorFactRef))).
Hypothesis order_ok : ∀ m, window_order m ≡ₚ map_to_list m.
Context (l : list (Fact * CursorFactRef)) (m : gmap bytes CurrentValueState).
Hypothesis K : knows l m.
Hypothesis U : uniform e a l.*1.
Hypothesis R : ∀ x, x ∈ l → resolves s reader x.
#[local] Abbreviation emitted each := (flat_map (emitted_windows window_order vt each) (map_to_list m)).

Lemma emitted_all : emitted true ≡ₚ visible_windows vt (map_to_list m).
Proof using order_ok.
  unfold visible_windows. induction (map_to_list m) as [|[b st] k IH]; [done|]. cbn.
  f_equiv; [|exact IH]. unfold emitted_windows. by rewrite order_ok.
Qed.

(** Every window visible: the rows of the net view. *)
Lemma finish_each : ∃ rows, mapR (window_row s reader) (emitted true) = Ok rows ∧
  shows vt l.*1 (with_entity e <$> sort_rows rows).
Proof using All.
  destruct (emit_windows s reader vt l m (emitted true) e a K U R emitted_all) as (rows & E & Ro).
  exists rows. split; [done|]. by apply (rows_show vt a).
Qed.

Lemma emitted_first x : x ∈ emitted false → x ∈ emitted true.
Proof using.
  rewrite !elem_of_flat_map. intros ([b st] & I & X). exists (b, st). split; [done|]. cbn in *.
  rewrite <-(take_drop 1 (omap _ _)). apply elem_of_app. by left.
Qed.
Lemma emitted_bytes each b w r : (b, w, r) ∈ emitted each → ∃ st, m !! b = Some st.
Proof using.
  rewrite elem_of_flat_map. intros ([b' st] & I%elem_of_map_to_list & X). exists st.
  assert ((b, w, r) ∈ emitted_windows window_order vt true (b', st)) as Y.
  { destruct each; [done|]. cbn in *. rewrite <-(take_drop 1 (omap _ _)). apply elem_of_app. by left. }
  apply list_elem_of_omap in Y as ([w' [tx r']] & _ & E). destruct (window_visible _ _ _ _); [|done]. by simplify_eq.
Qed.
Lemma emitted_some b w r : (b, w, r) ∈ emitted true → ∃ w' r', (b, w', r') ∈ emitted false.
Proof using.
  rewrite elem_of_flat_map. intros ([b' st] & I & X). cbn in X.
  destruct (omap _ (window_order (assertions st))) as [|[[b1 w1] r1] k] eqn:Eo; [by apply elem_of_nil in X|].
  assert (∀ y, y ∈ (b1, w1, r1) :: k → y.1.1 = b') as Eb.
  { intros y. rewrite <-Eo. intros ([w' [tx r']] & _ & E)%list_elem_of_omap. destruct (window_visible _ _ _ _); [|done]. by simplify_eq. }
  pose proof (Eb _ X) as E1. pose proof (Eb (b1, w1, r1) ltac:(by constructor)) as E2. cbn in E1, E2. subst.
  exists w1, r1. rewrite elem_of_flat_map. exists (b', st). split; [done|]. cbn. rewrite Eo. by constructor.
Qed.

Lemma emitted_once : NoDup (fst ∘ fst <$> emitted false).
Proof using.
  pose proof (NoDup_fst_map_to_list m) as N.
  induction (map_to_list m) as [|[b st] k IH]; [constructor|]. cbn [fmap list_fmap fst] in N.
  apply NoDup_cons in N as [Nb N]. cbn [flat_map]. rewrite fmap_app. apply NoDup_app.
  assert (∀ b st y, y ∈ emitted_windows window_order vt false (b, st) → y.1.1 = b) as Eb.
  { intros b' st' y Y. cbn in Y. assert (y ∈ emitted_windows window_order vt true (b', st')) as Z.
    { cbn. rewrite <-(take_drop 1 (omap _ _)). apply elem_of_app. by left. }
    apply list_elem_of_omap in Z as ([w' [tx r']] & _ & E). destruct (window_visible _ _ _ _); [|done]. by simplify_eq. }
  split_and!; [| |by apply IH].
  - cbn. destruct (omap _ _) as [|x ?]; cbn; [constructor|apply NoDup_singleton].
  - intros y (x1 & -> & X1%Eb)%list_elem_of_fmap (x2 & E & X2)%list_elem_of_fmap.
    apply elem_of_flat_map in X2 as ([b2 st2] & I2 & X2%Eb). cbn in *. apply Nb. rewrite <-X1, E, X2.
    apply list_elem_of_fmap. by exists (b2, st2).
Qed.

(** The first visible window of each value: the distinct values. *)
Lemma finish_values : ∃ rows, mapR (window_row s reader) (emitted false) = Ok rows ∧
  shows_values vt l.*1 (row_value <$> sort_rows rows).
Proof using All.
  assert (∀ x, x ∈ emitted false → x ∈ visible_windows vt (map_to_list m)) as Vi
    by (intros x X%emitted_first; by rewrite emitted_all in X).
  destruct (emit_rows s reader vt l m (emitted false) e a K U R Vi) as (rows & E & Ek & M & X).
  exists rows. split; [done|]. pose proof (uniform_coherent _ _ _ U) as Co.
  assert (∀ row, row ∈ rows → ∃ f, visible l.*1 f ∧ valid_during vt (window_of f) ∧ row = row_of f) as F.
  { intros row (x & I & Ex)%M. destruct (X x I) as (f & _ & _ & Vf & Vd & Ef). exists f. split_and!; [done..|congruence]. }
  split.
  - apply (sort_strict encode_value _ _ (reflexivity _)).
    + assert (∀ row, row ∈ sort_rows rows → encode_value (row_value row) = row_bytes row) as B.
      { unfold sort_rows. intros row. rewrite merge_sort_Permutation. intros (f & _ & _ & ->)%F. done. }
      pose proof (sort_rows_sorted rows) as So. clear -So B.
      induction So as [|x k S IH Fx]; [constructor|]. cbn. constructor; [apply IH; set_solver|].
      apply Forall_fmap, Forall_forall. intros y Y. rewrite Forall_forall in Fx. cbn. rewrite !B by set_solver.
      exact (le_ord_fst _ _ _ _ (Fx y Y)).
    + assert (encode_value <$> (row_value <$> sort_rows rows) ≡ₚ fst ∘ fst <$> emitted false) as ->; [|apply emitted_once].
      unfold sort_rows. rewrite merge_sort_Permutation, (list_fmap_compose fst fst), <-Ek, <-!list_fmap_compose.
      apply reflexive_eq, list_fmap_ext. intros i row L%list_elem_of_lookup_2. destruct (F row L) as (f & _ & _ & ->). done.
  - intros v. unfold sort_rows. rewrite merge_sort_Permutation, list_elem_of_fmap. split.
    + intros (row & -> & (f & Vf & Vd & ->)%F). by exists f.
    + intros (f & Vf & Vd & ->).
      destruct (visible_complete value_key vt l m f K Co Vf Vd) as [r I]. rewrite <-emitted_all in I.
      apply emitted_some in I as (w & r' & I). destruct (X _ I) as (g & Ig & Eg & _ & _ & Eg').
      exists (row_of g). split; [|apply M; eauto]. cbn in Eg. injection Eg as Eb _.
      apply (uniform_inj e a l.*1); [done|apply Vf| |done]. by apply (list_elem_of_fmap_2 fst) in Ig.
Qed.
End entity_rows.

(** * Theorems: the entity-attribute cursor *)

(** A client that steps the cursor with the given budgets. *)
Definition drive_entity {V} (s : FactStorage) (visit : V → Value * Z * Z → result V) window_order
    : CurrentEntityAttributeCursor → V → list Z → result (V * bool) :=
  drive CurrentEavtEntryRef.cmp_owned eavt_resume (λ rd S, @ix_visit_eavt rd S)
    (compare_eavt_projection (pending s)) (pending_eavt s) accept_entity (finish_entity s visit window_order)
    (publication_generation s) "current entity/attribute cursor publication changed during the read view".

(** [cursor.emit_each_visible_window = true] *)
Definition emit_each (c : CurrentEntityAttributeCursor) : CurrentEntityAttributeCursor :=
  with_reduced c (mkEntityReduction (entity_values (reduced c)) true) (complete c).

Definition row_window (x : ValueRow) : Value * Z * Z := let '(_, v, valid_from, valid_to) := x in (v, valid_from, valid_to).

Section entity_theorems.
Context (hasher : EavtKey → Z) (s : FactStorage) (log : list Fact) (rows : list (Fact * FactRef)).
Hypothesis Ok_s : store_ok hasher s log.
Hypothesis Ok_log : Forall fact_ok log.
Hypothesis backed : backed_by s rows.
Context (e : EntityId) (a : Attribute).
Hypothesis plain : ∀ f, f ∈ log → entity f = e → attribute f = a → not_nan (value f).
Hypothesis capacity : Z.of_nat (length log) < usize_MAX.
Context (window_order : gmap (Z * Z) (Z * CursorFactRef) → list ((Z * Z) * (Z * CursorFactRef))).
Hypothesis order_ok : ∀ m, window_order m ≡ₚ map_to_list m.
#[local] Abbreviation start := (entity_attribute_low e a).
#[local] Abbreviation stop := (entity_attribute_low e (next_attribute a)).
#[local] Abbreviation ids := (range_eavt (pending s) start stop).
#[local] Abbreviation cursor each as_of vt :=
  (cursor_new s start (Some stop) ids (mkEntityReduction ∅ each) as_of vt).

Lemma entity_cursor_created as_of vt :
  current_entity_attribute_cursor s e a as_of vt =
  if CURRENT_ENTITIES_MAX_HISTORY_ENTRIES <? Z.of_nat (length (List.filter (of_entity e a) (overlay_facts (pending s))))
  then Err "current_entities history work exceeds the bound" else Ok (cursor false as_of vt).
Proof using Ok_s Ok_log.
  destruct (eavt_range_exact hasher (pending s) (so_overlay _ _ _ Ok_s) start stop) as [_ Nd _].
  rewrite <-(pending_facts (of_entity e a) s ids Nd (entity_ids hasher s log Ok_s Ok_log e a)), length_fmap.
  destruct (eavt_page_exact hasher (pending s) (so_overlay _ _ _ Ok_s) start stop) as (full & X & E & P).
  unfold current_entity_attribute_cursor, range_eavt_bounded. rewrite P, E by done.
  by destruct (CURRENT_ENTITIES_MAX_HISTORY_ENTRIES <? Z.of_nat (length full)).
Qed.

Lemma entity_reduced each as_of vt : ∃ n l m,
  (n ≤ length log)%nat ∧ knows l m ∧ uniform e a l.*1 ∧ (∀ x, x ∈ l → resolves s (committed s) x) ∧
  l.*1 ≡ₚ entity_facts log e a as_of ∧
  ∀ V visit (v : V) budgets, Forall (λ b, 0 < b) budgets →
    let out := drive_entity s visit window_order (cursor each as_of vt) v budgets in
    let full := ('(r, v) ← finish_entity s visit window_order vt (committed s) (mkEntityReduction m each, v); Ok (v, true)) in
    (enough n budgets → out = full) ∧ (∀ v', out = Ok (v', true) → full = Ok (v', true)).
Proof using All.
  destruct (entity_scan hasher s log rows Ok_s Ok_log backed e a capacity) as (lf & P & F & D).
  destruct (accept_entity_fold as_of vt (committed s) each lf [] ∅ (knows_nil value_key)) as (m & K & E); [apply F|].
  exists (length lf), (List.filter (λ x, seen as_of x.1) lf), m. split_and!; [|done| | | |].
  - rewrite <-(length_fmap fst lf), P. apply length_filter_le.
  - split; intros f (x & -> & [_ I]%elem_of_List_filter)%list_elem_of_fmap;
      destruct (F x I) as (_ & O & [Ee Ea]%of_entity_spec); try done.
    apply plain; [|done..]. by destruct (scanned_ok log lf _ x Ok_log P I).
  - intros x [_ I]%elem_of_List_filter. by apply F.
  - unfold entity_facts. rewrite <-(List_filter_perm _ _ _ P). by rewrite List_filter_fmap.
  - intros V visit v budgets Pos. cbv zeta.
    specialize (D _ _ accept_entity (finish_entity s visit window_order)
      "current entity/attribute cursor publication changed during the read view"
      as_of vt budgets (mkEntityReduction ∅ each) v Pos). cbv zeta in D. by rewrite E in D.
Qed.

(** Driven to completion, the cursor visits the values, or the values and windows. *)
Lemma entity_drives as_of vt : let facts := entity_facts log e a as_of in
  ∃ n, (n ≤ length log)%nat ∧ ∀ V budgets (v : V), Forall (λ b, 0 < b) budgets →
    (∀ visit, let out := drive_entity s (λ v '(val, _, _), visit v val) window_order (cursor false as_of vt) v budgets in
       let full := (v ← foldR visit v (net_values vt facts); Ok (v, true)) in
       (enough n budgets → out = full) ∧ (∀ v', out = Ok (v', true) → full = Ok (v', true))) ∧
    (∀ visit, let out := drive_entity s visit window_order (cursor true as_of vt) v budgets in
       let full := (v ← foldR visit v (row_window <$> net_rows vt facts); Ok (v, true)) in
       (enough n budgets → out = full) ∧ (∀ v', out = Ok (v', true) → full = Ok (v', true))).
Proof using All.
  intros facts.
  destruct (entity_reduced false as_of vt) as (n1 & l1 & m1 & N1 & K1 & U1 & R1 & P1 & D1).
  destruct (entity_reduced true as_of vt) as (n2 & l2 & m2 & N2 & K2 & U2 & R2 & P2 & D2).
  exists (Nat.max n1 n2). split; [lia|]. intros V budgets v Pos.
  assert (enough (Nat.max n1 n2) budgets → enough n1 budgets ∧ enough n2 budgets) as En.
  { intros [_ L]. split; split; (done || lia). }
  split; intros visit out full.
  - specialize (D1 _ (λ v '(val, _, _), visit v val) v budgets Pos). cbv zeta in D1. fold out in D1.
    assert (full = ('(r, v) ← finish_entity s (λ v '(val, _, _), visit v val) window_order vt (committed s)
      (mkEntityReduction m1 false, v); Ok (v, true))) as ->; [|destruct D1; split; [intros X%En; tauto|done]].
    destruct (finish_values s (committed s) vt e a window_order order_ok l1 m1 K1 U1 R1) as (rs & E & Sh).
    apply (shows_values_perm _ _ _ _ P1), (shows_values_net e a) in Sh; [|by apply (uniform_perm e a l1.*1)].
    subst full. fold facts in Sh. rewrite <-Sh, foldR_fmap. unfold finish_entity. cbn [emit_each_visible_window entity_values].
    rewrite E. cbn [mbind result_bind]. by destruct (foldR _ v (sort_rows rs)).
  - specialize (D2 _ visit v budgets Pos). cbv zeta in D2. fold out in D2.
    assert (full = ('(r, v) ← finish_entity s visit window_order vt (committed s)
      (mkEntityReduction m2 true, v); Ok (v, true))) as ->; [|destruct D2; split; [intros X%En; tauto|done]].
    destruct (finish_each s (committed s) vt e a window_order order_ok l2 m2 K2 U2 R2) as (rs & E & Sh).
    apply (shows_perm _ _ _ _ P2), (shows_net a) in Sh; [|by apply entity_facts_plain].
    subst full. fold facts in Sh. rewrite <-Sh, !foldR_fmap. unfold finish_entity. cbn [emit_each_visible_window entity_values].
    rewrite E. cbn [mbind result_bind]. by destruct (foldR _ v (sort_rows rs)).
Qed.

(** C30: an entity-attribute cursor visits the net view.  Let no value of the entity
    and attribute be NaN.  Creating a cursor fails exactly when the pending facts of the entity and attribute exceed the bound.  Driven
    with any budgets that suffice, the cursor visits the values that the net view
    has at the requested transaction and valid time, each once and in the order of
    their bytes; with [emit_each_visible_window] it visits every value and window
    of the net view, in order.  The order in which the windows of a value are
    iterated does not matter. *)
Theorem entity_cursor_is_net_view as_of vt :
  let facts := entity_facts log e a as_of in
  match current_entity_attribute_cursor s e a as_of vt with
  | Err _ => CURRENT_ENTITIES_MAX_HISTORY_ENTRIES <
      Z.of_nat (length (List.filter (of_entity e a) (overlay_facts (pending s))))
  | Ok c => Z.of_nat (length (List.filter (of_entity e a) (overlay_facts (pending s)))) ≤
      CURRENT_ENTITIES_MAX_HISTORY_ENTRIES ∧
      ∃ n, (n ≤ length log)%nat ∧ ∀ V budgets (v : V), enough n budgets →
      (∀ visit, drive_entity s (λ v '(val, _, _), visit v val) window_order c v budgets =
         (v ← foldR visit v (net_values vt facts); Ok (v, true))) ∧
      (∀ visit, drive_entity s visit window_order (emit_each c) v budgets =
         (v ← foldR visit v (row_window <$> net_rows vt facts); Ok (v, true)))
  end.
Proof using All.
  intros facts. rewrite entity_cursor_created. destruct (Z.ltb_spec CURRENT_ENTITIES_MAX_HISTORY_ENTRIES
    (Z.of_nat (length (List.filter (of_entity e a) (overlay_facts (pending s)))))) as [B|B]; [done|]. split; [exact B|].
  destruct (entity_drives as_of vt) as (n & Ln & D). exists n. split; [done|]. intros V budgets v En.
  destruct (D V budgets v (proj1 En)) as [D1 D2]. split; intros visit; [by apply D1|by apply D2].
Qed.
End entity_theorems.

(** The values a cursor visits. *)
Definition gather {X} (xs : list X) (x : X) : result (list X) := Ok (xs ++ [x]).

Lemma entity_cursor_is_net_view_witness :
  match current_entity_attribute_cursor prefix_store 1 ":age" None (At 2000) with
  | Err _ => False
  | Ok c => drive_entity prefix_store gather map_to_list (emit_each c) [] [usize_MAX] =
              Ok ([(VInteger 3, 1000, VALID_TIME_FOREVER)], true)
  end.
Proof.
  pose proof (entity_cursor_is_net_view const_hasher prefix_store prefix_log [] prefix_store_ok prefix_log_ok
    ltac:(by right) 1 ":age") as H.
  specialize (H ltac:(intros f [->|[->|[]%elem_of_nil]%elem_of_cons]%elem_of_cons; done) ltac:(by vm_compute)
    map_to_list (λ m, reflexivity _) None (At 2000)). cbn zeta in H.
  destruct (current_entity_attribute_cursor prefix_store 1 ":age" None (At 2000)) as [c|er]; [|by vm_compute in H].
  destruct H as (_ & n & Ln & H). destruct (H (list (Value * Z * Z)) [usize_MAX] []) as [_ E].
  { apply enough_max. change (length prefix_log) with 2%nat in Ln. unfold usize_MAX. ilia. }
  rewrite (E gather). by vm_compute.
Defined.
