(* ===== verification/RefsCursor.v ===== *)
(** The reference cursor (src/src/graph/storage.rs, [step_current_refs_cursor])
    visits the entities whose reference to the target is in net view. *)
From S2P Require Import Prelude Types ValueCodec NetView SortedRuns Index PendingOverlay FactStore Lookup MergeScan CurrentState IndexScan Cursors EntityCursors.

(** * The VAET index as an index of the references *)

Definition is_ref (f : Fact) : bool := match value f with VRef _ => true | _ => false end.
Definition vaet_key (f : Fact) : VaetKey :=
  mkVaet (match value f with VRef t => t | _ => 0 end) (attribute f) (valid_from f) (valid_to f) (entity f)
    (tx_count f) (tx_id f) (asserted f).
Abbreviation ref_rows rows := (List.filter (λ x : Fact * FactRef, is_ref x.1) rows).

Lemma vaet_index rows : vaet (indexes_of rows) = index_of vaet_key (ref_rows rows).
Proof.
  rewrite indexes_of_parts. cbn [vaet]. unfold index_of. f_equal. induction rows as [|[f r] rows IH]; [done|].
  cbn [omap list_omap List.filter]. unfold vaet_key_of at 1, is_ref at 1. cbn [fst]. destruct (value f) eqn:V; cbn; try exact IH.
  f_equal; [|exact IH]. unfold prod_map, vaet_key. cbn. by rewrite V.
Qed.

#[export] Instance vaet_entry_ord : Ord CurrentVaetEntryRef.t := cmp_on CurrentVaetEntryRef.tuple.
#[export] Instance vaet_entry_laws : OrdLaws CurrentVaetEntryRef.t.
Proof.
  assert (Inj (=) (=) CurrentVaetEntryRef.tuple) by (intros [] [] [=]; congruence).
  exact (cmp_on_laws CurrentVaetEntryRef.tuple).
Qed.

Lemma rec_vaet_key r : rec_vaet r = vaet_key (PendingFactRecord.to_fact r).
Proof. done. Qed.

(** * What the reducer holds at the end of a scan *)

Definition vaet_located (x : Fact * CursorFactRef) : CurrentVaetEntryRef.t * CursorFactRef :=
  (CurrentVaetEntryRef.from_owned (vaet_key x.1), x.2).

Lemma accept_refs_one {V} as_of vt reader m (v : V) f r :
  take_in (accept_refs as_of vt reader) (m, v) (vaet_located (f, r)) =
  Ok (if seen as_of f then <[entity f := (reduce_key (default state_new (m !! entity f)) (entry_of_fact f) r).1]> m else m, v).
Proof.
  unfold take_in, accept_refs. cbn [fst snd].
  change (entry_visible_at_tx _ _ as_of) with (seen as_of f). by destruct (seen as_of f).
Qed.

Lemma accept_refs_fold as_of vt reader lf : ∀ taken m, knows_by entity taken m →
  (∀ x, x ∈ lf → fact_ok x.1) → ∃ m', knows_by entity (taken ++ List.filter (λ x, seen as_of x.1) lf) m' ∧
  ∀ V (v : V), foldR (take_in (accept_refs as_of vt reader)) (m, v) (vaet_located <$> lf) = Ok (m', v).
Proof.
  induction lf as [|[f r] lf IH]; intros taken m K O; [exists m; by rewrite app_nil_r|].
  assert (0 ≤ tx_count f) as N by (destruct (O (f, r) ltac:(by constructor)); unfold u64_ok in *; cbn in *; lia).
  assert (∀ x, x ∈ lf → fact_ok x.1) as O' by (intros; apply O; by constructor).
  cbn [List.filter fst]. destruct (seen as_of f) eqn:Sf.
  - destruct (IH (taken ++ [(f, r)]) _ (knows_by_step entity _ _ f r K N) O') as (m' & K' & E).
    exists m'. rewrite <-app_assoc in K'. split; [done|]. intros V v. cbn [fmap list_fmap foldR].
    rewrite accept_refs_one, Sf. apply E.
  - destruct (IH taken m K O') as (m' & K' & E). exists m'. split; [done|]. intros V v. cbn [fmap list_fmap foldR].
    rewrite accept_refs_one, Sf. apply E.
Qed.

(** A source is found when one of its windows is visible. *)
Lemma source_visible_windows vt (m : gmap EntityId CurrentValueState) src :
  src ∈ omap (λ '(source, st), if source_visible vt st then Some source else None) (map_to_list m) ↔
  ∃ w r, (src, w, r) ∈ visible_windows vt (map_to_list m).
Proof.
  rewrite list_elem_of_omap. setoid_rewrite elem_of_visible_windows. split.
  - intros ([e st] & I%elem_of_map_to_list & E). destruct (source_visible vt st) eqn:Vs; [|done]. injection E as ->.
    apply existsb_exists in Vs as ([w [tx r]] & Iw & V). apply list_elem_of_In, elem_of_map_to_list in Iw. eauto 10.
  - intros (w & r & st & tx & L & As & V). exists (src, st). split; [by apply elem_of_map_to_list|].
    assert (source_visible vt st = true) as ->; [|done].
    apply existsb_exists. exists (w, (tx, r)). split; [by apply list_elem_of_In, elem_of_map_to_list|done].
Qed.
Lemma sources_distinct vt (m : gmap EntityId CurrentValueState) :
  NoDup (omap (λ '(source, st), if source_visible vt st then Some source else None) (map_to_list m)).
Proof.
  pose proof (NoDup_fst_map_to_list m) as N. induction (map_to_list m) as [|[e st] l IH]; [constructor|].
  cbn [fmap list_fmap fst] in N. apply NoDup_cons in N as [Ne N]. cbn. destruct (source_visible vt st); [|by apply IH].
  apply NoDup_cons. split; [|by apply IH]. intros ([e' st'] & I & E)%list_elem_of_omap.
  destruct (source_visible vt st'); [|done]. injection E as ->. apply Ne, list_elem_of_fmap. by exists (e, st').
Qed.

(** The distinct entities of the net view, in order. *)
Definition net_sources (vt : CurrentValidTime) (facts : list Fact) : list EntityId :=
  merge_sort Z.le (remove_dups (entity <$> List.filter (valid_duringb vt) (net_asserted_facts facts))).

Lemma sorted_ints_unique (l k : list Z) : (∀ x, x ∈ l ↔ x ∈ k) → NoDup l → NoDup k → merge_sort Z.le l = merge_sort Z.le k.
Proof.
  intros M Nl Nk. assert (∀ l, NoDup l → strictly_by (λ z : Z, z) (merge_sort Z.le l)) as S.
  { intros q Nq. apply (sort_strict (λ z, z) q); [apply merge_sort_Permutation| |by rewrite list_fmap_id].
    pose proof (StronglySorted_merge_sort Z.le q) as So.
    induction So as [|x k0 So IH F]; constructor; [done|]. eapply Forall_impl; [exact F|]. intros y. by apply le_ord_Z. }
  apply (strictly_unique (λ z, z)); [by apply S..|]. intros x. by rewrite !merge_sort_Permutation.
Qed.

Section refs_cursor.
Context (hasher : EavtKey → Z) (s : FactStorage) (log : list Fact) (rows : list (Fact * FactRef)).
Hypothesis Ok_s : store_ok hasher s log.
Hypothesis Ok_log : Forall fact_ok log.
Hypothesis backed : backed_by s rows.
Context (a : Attribute) (target : EntityId).
Hypothesis capacity : Z.of_nat (length log) < usize_MAX.

Definition refers (f : Fact) : bool := bool_decide (attribute f = a) && bool_decide (value f = VRef target).
#[local] Abbreviation start := (refs_low target a).
#[local] Abbreviation stop := (refs_low target (next_attribute a)).

Lemma refers_spec f : refers f = true ↔ attribute f = a ∧ value f = VRef target.
Proof using. unfold refers. by rewrite andb_true_iff, !bool_decide_eq_true. Qed.

Lemma refers_range f : f ∈ log → is_ref f = true →
  refers f = true ↔ le_ord start (vaet_key f) ∧ cmp (vaet_key f) stop = Lt.
Proof using Ok_log.
  intros I Rf. rewrite Forall_forall in Ok_log. destruct (Ok_log f I). rewrite refers_spec.
  change (le_ord start (vaet_key f)) with (le_ord (vaet_tuple start) (vaet_tuple (vaet_key f))).
  change (cmp (vaet_key f) stop) with (cmp (vaet_tuple (vaet_key f)) (vaet_tuple stop)).
  unfold vaet_tuple, vaet_key, is_ref in *. cbn. destruct (value f) as [| | | |t| |]; try done. 
  rewrite exact_range_pair by key_bounds. split; [intros [-> [= ->]]|intros [-> ->]]; done.
Qed.

Lemma refs_ids : ∃ ids, NoDup ids ∧
  (∀ mx, 0 ≤ mx → range_vaet_bounded (pending s) start stop mx =
     if mx <? Z.of_nat (length ids) then Err "current_refs history work exceeds the bound" else Ok ids) ∧
  (∀ i, i ∈ ids ↔ ∃ r, records (pending s) !! i = Some r ∧ refers (PendingFactRecord.to_fact r) = true) ∧
  (∀ i j x y r q, (i < j)%nat → ids !! i = Some x → ids !! j = Some y →
     records (pending s) !! x = Some r → records (pending s) !! y = Some q →
     le_ord (vaet_key (PendingFactRecord.to_fact r)) (vaet_key (PendingFactRecord.to_fact q))).
Proof using Ok_s Ok_log.
  destruct (vaet_range_exact hasher (pending s) (so_overlay _ _ _ Ok_s) start stop) as (ids & [So Nd M] & E).
  exists ids. split_and!; [done..| |done]. intros i. rewrite M, is_ref_id_iff.
  assert (∀ r, records (pending s) !! i = Some r → PendingFactRecord.to_fact r ∈ log) as L.
  { intros r L%list_elem_of_lookup_2. apply (overlay_log hasher s log Ok_s Ok_log). by apply list_elem_of_fmap_2. }
  split.
  - intros [(q & t & Lq & V) (r & Lr & H)]. exists r. split; [done|]. apply refers_range; [by apply L| |done].
    assert (q = r) as -> by congruence. unfold is_ref. cbn. by rewrite V.
  - intros (r & Lr & Sr). pose proof Sr as [_ V]%refers_spec. split; [by exists r, target|].
    exists r. split; [done|]. rewrite rec_vaet_key. apply refers_range; [by apply L| |done]. unfold is_ref. by rewrite V.
Qed.

Lemma refs_keys : NoDup (vaet_key <$> (ref_rows rows).*1).
Proof using backed.
  destruct backed as [[_ _ _ D]|[_ ->]]; [|constructor]. rewrite fst_filter.
  apply NoDup_fmap_2_strong; [|apply NoDup_List_filter; by apply NoDup_fmap_1 in D].
  intros f g [Rf If]%elem_of_List_filter [Rg Ig]%elem_of_List_filter E.
  apply (NoDup_fmap_elem eavt_key_of rows.*1); [done..|]. unfold is_ref in Rf, Rg.
  injection E as E1 E2 E3 E4 E5 E6 E7 E8. unfold eavt_key_of.
  destruct (value f), (value g); try done. congruence.
Qed.

Lemma refs_record (ids : list nat) i : (∀ i, i ∈ ids ↔ ∃ r, records (pending s) !! i = Some r ∧ refers (PendingFactRecord.to_fact r) = true) →
  i ∈ ids → ∃ r, records (pending s) !! i = Some r ∧
  PendingFactRecord.current_vaet_entry r = Ok (entry_of_id vaet_key CurrentVaetEntryRef.from_owned s i).
Proof using.
  intros M (r & L & [_ Sr]%refers_spec)%M. exists r. split; [done|]. unfold entry_of_id, pending_at, fact_at. rewrite L.
  cbn [fmap option_fmap option_map default from_option id]. unfold PendingFactRecord.current_vaet_entry, vaet_key.
  rewrite Sr. change (PendingFactRecord.value r) with (value (PendingFactRecord.to_fact r)). by rewrite Sr.
Qed.

Lemma refs_ordered : ordered_range start (Some stop).
Proof using. exact (attribute_pair_ordered target a _). Qed.

Lemma refs_scan (ids : list nat) : NoDup ids →
  (∀ i, i ∈ ids ↔ ∃ r, records (pending s) !! i = Some r ∧ refers (PendingFactRecord.to_fact r) = true) →
  (∀ i j x y r q, (i < j)%nat → ids !! i = Some x → ids !! j = Some y →
     records (pending s) !! x = Some r → records (pending s) !! y = Some q →
     le_ord (vaet_key (PendingFactRecord.to_fact r)) (vaet_key (PendingFactRecord.to_fact q))) →
  ∃ lf, lf.*1 ≡ₚ List.filter refers log ∧
  ∀ R V accept finish stale as_of vt budgets (r : R) (v : V), enough (length lf) budgets →
    drive CurrentVaetEntryRef.cmp_owned vaet_resume (λ rd S, @ix_visit_vaet rd S)
      (compare_vaet_projection (pending s)) (pending_vaet s) accept finish
      (publication_generation s) stale (cursor_new s start (Some stop) ids r as_of vt) v budgets =
    ('(r, v) ← foldR (take_in (accept as_of vt (committed s))) (r, v) (vaet_located <$> lf);
     '(r, v) ← finish vt (committed s) (r, v); Ok (v, true)).
Proof using Ok_s Ok_log backed capacity.
  intros Nd M So. pose proof (backed_log hasher s log Ok_s Ok_log rows backed) as Lg.
  assert (∀ f, f ∈ (ref_rows rows).*1 → f ∈ log ∧ is_ref f = true) as Rl.
  { rewrite fst_filter, Lg. intros f [Rf If]%elem_of_List_filter. split; [apply elem_of_app; by left|done]. }
  destruct (drive_located vaet_key CurrentVaetEntryRef.from_owned CurrentVaetEntryRef.cmp_owned (ref_rows rows)
    start (Some stop) refers (λ k, le_ord start k ∧ ordered_range k (Some stop)) s ids) with (visit_entries := λ rd S, @ix_visit_vaet rd S)
    (write_resume_key := vaet_resume) (compare_projection := compare_vaet_projection (pending s))
    (pending_entry := pending_vaet s) as (lf & P & Sl & Rd & D).
  - apply refs_keys.
  - intros f [If Rf]%Rl. by apply refers_range.
  - done.
  - by intros k [? _].
  - done.
  - done.
  - done.
  - done.
  - intros i (r & L & E)%(refs_record ids i M). unfold pending_vaet, overlay_get. by rewrite L.
  - intros i key (r & L & E)%(refs_record ids i M). unfold compare_vaet_projection, overlay_get. rewrite L. cbn. by rewrite E.
  - split; [reflexivity|apply refs_ordered].
  - intros f k [If Rf]%Rl Sf _. apply refers_range in Sf as [? Ls]; [|done..]. split; [done|].
    exact (lt_ordered _ _ Ls).
  - done.
  - destruct backed as [[_ (ix & -> & Sv) _ _]|[[_ ->] ->]]; [|done].
    intros S k f x [_ Ro]. by rewrite (visits_vaet (rows := rows)), vaet_index.
  - exists lf. assert (lf.*1 ≡ₚ List.filter refers log) as Pl.
    { rewrite P, Lg, !List.filter_app. f_equiv. rewrite fst_filter, <-List_filter_filter. apply reflexive_eq, List_filter_ext.
      intros f _. unfold refers, is_ref. destruct (bool_decide_reflect (value f = VRef target)) as [->|]; by rewrite ?andb_true_r, ?andb_false_r. }
    split; [done|]. intros R V accept finish stale as_of vt budgets r v En. apply D; [|apply En|done].
    rewrite <-(length_fmap fst lf), Pl. pose proof (length_filter_le refers log). lia.
Qed.

(** ** Theorems *)

Definition ref_facts (as_of : option AsOf) : list Fact := List.filter (seen as_of) (List.filter refers log).

Lemma ref_facts_coherent l : (∀ f, f ∈ l → refers f = true) → coherent_by entity l.
Proof using.
  intros S f g [Af Vf]%S%refers_spec [Ag Vg]%S%refers_spec. unfold eav_key. rewrite Af, Vf, Ag, Vg.
  split; [by intros [= ->]|by intros ->].
Qed.

(** A client that steps the cursor with the given budgets. *)
Definition drive_refs {V} (visit : V → EntityId → result V) : CurrentRefsCursor → V → list Z → result (V * bool) :=
  drive CurrentVaetEntryRef.cmp_owned vaet_resume (λ rd S, @ix_visit_vaet rd S)
    (compare_vaet_projection (pending s)) (pending_vaet s) accept_refs (finish_refs visit)
    (publication_generation s) "current refs cursor publication changed during the read view".

(** The reference cursor visits the entities that refer to the target.  Creating
    it fails exactly when the pending references of the attribute to the target
    exceed the bound.  Driven with any budgets that suffice it visits, in order and
    each once, the entities for which the net view has the reference at the requested
    transaction and valid time. *)
Theorem refs_cursor_is_net_view as_of vt :
  match current_refs_cursor s a target as_of vt with
  | Err _ => CURRENT_REFS_MAX_HISTORY_ENTRIES < Z.of_nat (length (List.filter refers (overlay_facts (pending s))))
  | Ok c => ∃ n, (n ≤ length log)%nat ∧ ∀ V visit budgets (v : V), enough n budgets →
      drive_refs visit c v budgets = (v ← foldR visit v (net_sources vt (ref_facts as_of)); Ok (v, true))
  end.
Proof using Ok_s Ok_log backed capacity.
  destruct refs_ids as (ids & Nd & E & M & So). unfold current_refs_cursor. rewrite E by done.
  assert (length ids = length (List.filter refers (overlay_facts (pending s)))) as ->
    by by rewrite <-(pending_facts refers s ids Nd M), length_fmap.
  destruct (Z.ltb_spec CURRENT_REFS_MAX_HISTORY_ENTRIES (Z.of_nat (length (List.filter refers (overlay_facts (pending s)))))) as [B|_];
    [done|]. cbn [mbind result_bind].
  destruct (refs_scan ids Nd M So) as (lf & P & D). exists (length lf).
  split; [rewrite <-(length_fmap fst lf), P; apply length_filter_le|]. intros V visit budgets v En.
  unfold drive_refs. rewrite D by done.
  destruct (accept_refs_fold as_of vt (committed s) lf [] ∅ (knows_nil entity)) as (m & K & F).
  { intros x X. by destruct (scanned_ok log lf refers x Ok_log P X). }
  rewrite F. unfold finish_refs. cbn [mbind result_bind].
  set (l := List.filter (λ x, seen as_of x.1) lf) in *.
  assert (l.*1 ≡ₚ ref_facts as_of) as Pl.
  { unfold ref_facts. rewrite <-(List_filter_perm _ _ _ P). by rewrite List_filter_fmap. }
  assert (coherent_by entity l.*1) as Co.
  { apply ref_facts_coherent. intros f. rewrite Pl. by intros [_ [Sf _]%elem_of_List_filter]%elem_of_List_filter. }
  assert (∀ g, g ∈ ref_facts as_of → 0 ≤ tx_count g) as Nn.
  { intros g [_ [_ G]%elem_of_List_filter]%elem_of_List_filter. rewrite Forall_forall in Ok_log. destruct (Ok_log g G). ilia. }
  unfold net_sources. rewrite (sorted_ints_unique _
    (remove_dups (entity <$> List.filter (valid_duringb vt) (net_asserted_facts (ref_facts as_of))))).
  - by destruct (foldR visit v _).
  - intros src. rewrite source_visible_windows, elem_of_remove_dups, list_elem_of_fmap. split.
    + intros (w & r & (f & If & <- & <- & Vf & Vd)%(visible_sound entity vt l m)); [|done..].
      apply (visible_perm _ _ _ Pl), (visible_net _ _ Nn) in Vf as (g & Ig & W). injection W as We _ _ Wf Wt. exists g.
      split; [done|]. apply elem_of_List_filter. split; [|done]. apply valid_duringb_spec. unfold window_of. by rewrite Wf, Wt.
    + intros (f & -> & [Vd If]%elem_of_List_filter). apply valid_duringb_spec in Vd.
      apply (net_visible _ _ Nn), (visible_perm _ _ _ Pl) in If.
      destruct (visible_complete entity vt l m f K Co If Vd) as [r I]. eauto.
  - apply sources_distinct.
  - apply NoDup_remove_dups.
Qed.
End refs_cursor.

(** Two entities refer to entity 9, one of them no longer. *)
Definition friend_tuples : list (EntityId * Attribute * Value * option TransactOptions) :=
  [ (2, ":friend"%string, VRef 9, None); (1, ":friend"%string, VRef 9, None); (1, ":friend"%string, VRef 8, None) ].
Definition friend_asserted : FactStorage := (transact_batch const_hasher 1000 storage_new friend_tuples None).1.
Definition friend_store : FactStorage :=
  (retract_batch const_hasher 2000 friend_asserted [(2, ":friend"%string, VRef 9, None)] None).1.
Definition friend_log : list Fact := match get_all_facts friend_store with Ok l => l | Err _ => [] end.
Lemma friend_store_ok : store_ok const_hasher friend_store friend_log.
Proof.
  assert (store_step const_hasher storage_new friend_asserted) as S1.
  { eapply (StepTransactBatch _ _ 1000 friend_tuples None); by vm_compute. }
  assert (store_step const_hasher friend_asserted friend_store) as S2.
  { eapply (StepRetractBatch _ _ 2000 [(2, ":friend"%string, VRef 9, None)] None); by vm_compute. }
  destruct (store_step_ok const_hasher _ _ _ (storage_new_ok _) S1) as ((n & Ok1 & _) & _).
  destruct (store_step_ok const_hasher _ _ _ Ok1 S2) as ((k & Ok2 & _) & _).
  unfold friend_log. by rewrite (get_all_facts_ok _ _ _ Ok2).
Qed.
Lemma friend_log_ok : Forall fact_ok friend_log.
Proof. repeat (constructor; [split; try done; cbn; ilia|]). constructor. Qed.

Lemma refs_cursor_is_net_view_witness :
  match current_refs_cursor friend_store ":friend" 9 None (At 5000) with
  | Err _ => False
  | Ok c => drive_refs friend_store gather c [] [1; 1; 1; 1; 1] = Ok ([1], true)
  end.
Proof.
  pose proof (refs_cursor_is_net_view const_hasher friend_store friend_log [] friend_store_ok friend_log_ok
    ltac:(by right) ":friend" 9 ltac:(by vm_compute) None (At 5000)) as H.
  destruct (current_refs_cursor friend_store ":friend" 9 None (At 5000)) as [c|er]; [|by vm_compute in H].
  destruct H as (n & Ln & H). rewrite (H (list EntityId) gather [1; 1; 1; 1; 1] []); [by vm_compute|].
  split; [by repeat constructor|]. change (length friend_log) with 4%nat in Ln. change (sum_Z [1; 1; 1; 1; 1]) with 5. lia.
Defined.
