(* ===== verification/Columns.v ===== *)
(** The compressed valid-time columns of the current projection
    (src/src/graph/current_projection.rs): LEB128-style varints, and a column of
    [i64] values stored as the XOR with one of the last eight values.

    A column that was built decodes to the values pushed, and the decoder accepts
    no other encoding of a varint. *)
From S2P Require Import Prelude.

(** * Definitions *)

(** Nine shifts by seven exhaust 64 bits: ten rounds are enough ([encode_varint_done]). *)
Fixpoint encode_varint_go (fuel : nat) (value : Z) : bytes :=
  match fuel with
  | O => []
  | S fuel =>
    if 0x80 <=? value
    then z2b (Z.lor (Z.land value 0x7f) 0x80) :: encode_varint_go fuel (Z.shiftr value 7)
    else [z2b value]
  end.
Definition encode_varint (value : Z) : bytes := encode_varint_go 10 value.

Fixpoint varint_len_go (fuel : nat) (value bytes : Z) : Z :=
  match fuel with
  | O => bytes
  | S fuel => if 0x80 <=? value then varint_len_go fuel (Z.shiftr value 7) (Z.min (bytes + 1) 255) else bytes
  end.
Definition varint_len (value : Z) : Z := varint_len_go 10 value 1.

(** [index] counts up to ten; [rounds] is what remains of the loop. *)
Fixpoint decode_varint_go (bs : bytes) (rounds : nat) (index value : Z) (position : nat) : result (Z * nat) :=
  match rounds with
  | O => Err "current projection temporal varint is overlong"
  | S rounds =>
    byte ← ok_or (bs !! position) "truncated current projection temporal varint";
    let position := S position in
    let payload := Z.land (b2z byte) 0x7f in
    if (index =? 9) && (1 <? payload) then Err "current projection temporal varint exceeds u64"
    else
      let value := Z.lor value (Z.shiftl payload (index * 7) mod 2 ^ 64) in
      if Z.land (b2z byte) 0x80 =? 0 then
        if (0 <? index) && (payload =? 0) then Err "current projection temporal varint is overlong"
        else Ok (value, position)
      else decode_varint_go bs rounds (index + 1) value position
  end.
Definition decode_varint (bs : bytes) (position : nat) : result (Z * nat) := decode_varint_go bs 10 0 0 position.

(** The eight predictors and the next one to replace. *)
Record Predictors : Type := mkPredictors { predictors : list Z; next_predictor : nat }.
Definition predictors_new : Predictors := mkPredictors (replicate 8 0) 0.
Definition remember (p : Predictors) (bits : Z) : Predictors :=
  mkPredictors (<[next_predictor p := bits]> (predictors p))
    ((next_predictor p + 1) mod length (predictors p)).

Record TemporalColumnBuilder : Type := mkBuilder { column_bytes : bytes; builder_state : Predictors }.
Definition column_new : TemporalColumnBuilder := mkBuilder [] predictors_new.

(** [min_by_key] keeps the first of the smallest. *)
Definition best_predictor (p : Predictors) (bits : Z) : nat * Z :=
  let scored := imap (λ i previous, (i, Z.lxor bits previous)) (predictors p) in
  match scored with
  | [] => (0%nat, bits)
  | x :: rest => foldl (λ m y, if varint_len y.2 <? varint_len m.2 then y else m) x rest
  end.

Definition column_push (c : TemporalColumnBuilder) (value : Z) : TemporalColumnBuilder :=
  let bits := cast_unsigned value in
  let '(predictor, delta) := best_predictor (builder_state c) bits in
  mkBuilder (column_bytes c ++ z2b (Z.of_nat predictor) :: encode_varint delta) (remember (builder_state c) bits).

Record TemporalColumnDecoder : Type := mkDecoder {
  decoder_position : nat; decoder_state : Predictors; decoder_rows : nat }.
Definition decoder_new : TemporalColumnDecoder := mkDecoder 0 predictors_new 0.

Definition decoder_next (bs : bytes) (d : TemporalColumnDecoder) : result (Z * TemporalColumnDecoder) :=
  predictor ← ok_or (bs !! decoder_position d) "truncated current projection temporal predictor";
  previous ← ok_or (predictors (decoder_state d) !! Z.to_nat (b2z predictor))
    "invalid current projection temporal predictor";
  '(delta, position) ← decode_varint bs (S (decoder_position d));
  let bits := Z.lxor previous delta in
  Ok (cast_signed bits, mkDecoder position (remember (decoder_state d) bits) (S (decoder_rows d))).

Definition decoder_finish (bs : bytes) (d : TemporalColumnDecoder) (expected_rows : nat) : result unit :=
  _ ← ensure (decoder_rows d =? expected_rows)%nat "current projection temporal row mismatch";
  ensure (decoder_position d =? length bs)%nat "current projection temporal column has trailing bytes".

Definition validate_temporal_row (floor from to : Z) : result unit :=
  if to <=? from then Err "current projection interval is empty or inverted"
  else if to <=? floor then Err "current projection interval ends at or before its floor" else Ok tt.
Fixpoint validate_rows (from_bytes to_bytes : bytes) (floor : Z) (rows : nat) (f t : TemporalColumnDecoder)
    : result (TemporalColumnDecoder * TemporalColumnDecoder) :=
  match rows with
  | O => Ok (f, t)
  | S rows =>
    '(from, f) ← decoder_next from_bytes f;
    '(to, t) ← decoder_next to_bytes t;
    _ ← validate_temporal_row floor from to;
    validate_rows from_bytes to_bytes floor rows f t
  end.
Definition validate_temporal_columns (valid_from_bytes valid_to_bytes : bytes) (rows : nat) (valid_time_floor : Z)
    : result unit :=
  '(f, t) ← validate_rows valid_from_bytes valid_to_bytes valid_time_floor rows decoder_new decoder_new;
  _ ← decoder_finish valid_from_bytes f rows;
  decoder_finish valid_to_bytes t rows.

(** * Varints *)

Lemma land_127 v : Z.land v 0x7f = v mod 2 ^ 7.
Proof. change 0x7f with (Z.ones 7). by rewrite Z.land_ones. Qed.

Lemma more_byte v : b2z (z2b (Z.lor (Z.land v 0x7f) 0x80)) = v mod 2 ^ 7 + 2 ^ 7.
Proof.
  rewrite land_127. pose proof (Z.mod_pos_bound v (2 ^ 7) ltac:(lia)).
  change 0x80 with (Z.shiftl 1 7). rewrite lor_shiftl_add by lia. apply b2z_z2b. lia.
Qed.

Lemma z2b_b2z (b : Init.Byte.byte) : z2b (b2z b) = b.
Proof. by destruct b. Qed.
Lemma byte_parts (b : Init.Byte.byte) :
  Z.land (b2z b) 0x7f = b2z b mod 2 ^ 7 ∧ (Z.land (b2z b) 0x80 =? 0) = (b2z b <? 2 ^ 7).
Proof. split; [apply land_127|]. by destruct b. Qed.

Lemma lor_shifted acc x i : 0 ≤ i → 0 ≤ acc < 2 ^ (7 * i) → 0 ≤ x → x * 2 ^ (7 * i) < 2 ^ 64 →
  Z.lor acc (Z.shiftl x (i * 7) mod 2 ^ 64) = acc + x * 2 ^ (7 * i).
Proof.
  intros I A X B. rewrite (Z.mul_comm i 7), Z.mod_small.
  - apply lor_shiftl_add; lia.
  - rewrite Z.shiftl_mul_pow2 by lia. pose proof (Z.pow_pos_nonneg 2 (7 * i)). nia.
Qed.

Lemma decode_encode_go fuel : ∀ v acc i pre post,
  i = 10 - Z.of_nat fuel → 0 ≤ i → 0 ≤ v → v * 2 ^ (7 * i) < 2 ^ 64 → 0 ≤ acc < 2 ^ (7 * i) → (0 < i → 0 < v) →
  decode_varint_go (pre ++ encode_varint_go fuel v ++ post) fuel i acc (length pre) =
  Ok (acc + v * 2 ^ (7 * i), (length pre + length (encode_varint_go fuel v))%nat).
Proof.
  induction fuel as [|fuel IH]; intros v acc i pre post Ei Ip Vp Vb Ab Vi.
  { change (2 ^ (7 * i)) with (2 ^ (7 * i)) in Vb. assert (i = 10) as -> by lia. change (2 ^ (7 * 10)) with (2 ^ 64 * 64) in Vb. lia. }
  cbn [encode_varint_go decode_varint_go]. destruct (Z.leb_spec 0x80 v) as [L|L].
  - cbn [app]. rewrite list_lookup_middle by done. cbn [ok_or mbind result_bind].
    destruct (byte_parts (z2b (Z.lor (Z.land v 0x7f) 0x80))) as [-> ->]. rewrite more_byte.
    pose proof (Z.mod_pos_bound v (2 ^ 7) ltac:(lia)) as M.
    assert ((v mod 2 ^ 7 + 2 ^ 7) mod 2 ^ 7 = v mod 2 ^ 7) as ->.
    { rewrite <-(Z.mul_1_l (2 ^ 7)) at 2. rewrite Z.mod_add, Z.mod_mod; lia. }
    rewrite (proj2 (Z.ltb_ge (v mod 2 ^ 7 + 2 ^ 7) (2 ^ 7))) by lia.
    pose proof (Z.div_mod v (2 ^ 7) ltac:(lia)) as D.
    pose proof (Z.pow_pos_nonneg 2 (7 * i) ltac:(lia) ltac:(lia)) as P.
    assert (i < 9) as I9.
    { destruct (Z.lt_ge_cases i 9) as [|G]; [done|]. assert (2 ^ (7 * 9) ≤ 2 ^ (7 * i)) by (apply Z.pow_le_mono_r; lia).
      change (2 ^ (7 * 9)) with (2 ^ 63) in *. nia. }
    rewrite (proj2 (Z.eqb_neq i 9)) by lia. cbn [andb].
    assert (2 ^ (7 * (i + 1)) = 2 ^ (7 * i) * 2 ^ 7) as E7 by (rewrite <-Z.pow_add_r by lia; f_equal; lia).
    rewrite lor_shifted by nia.
    specialize (IH (Z.shiftr v 7) (acc + v mod 2 ^ 7 * 2 ^ (7 * i)) (i + 1) (pre ++ [z2b (Z.lor (Z.land v 0x7f) 0x80)]) post).
    rewrite <-app_assoc, length_app, Nat.add_1_r in IH. cbn [app] in IH |- *. rewrite Z.shiftr_div_pow2 in * by lia.
    rewrite IH; [|lia|lia|apply Z.div_pos; lia|rewrite E7; nia|rewrite E7; nia|intros _; apply Z.div_str_pos; lia].
    rewrite E7. f_equal. f_equal; [nia|cbn; lia].
  - cbn [app]. rewrite list_lookup_middle by done. cbn [ok_or mbind result_bind].
    destruct (byte_parts (z2b v)) as [-> ->]. rewrite b2z_z2b by lia. rewrite (Z.mod_small v) by lia.
    rewrite (proj2 (Z.ltb_lt v (2 ^ 7))) by lia.
    destruct (Z.eqb_spec i 9) as [->|Ni]; cbn [andb].
    { change (2 ^ (7 * 9)) with (2 ^ 63) in *. rewrite (proj2 (Z.ltb_ge 1 v)) by lia.
      rewrite (proj2 (Z.eqb_neq v 0)) by lia. change (2 ^ 63) with (2 ^ (7 * 9)) in *. rewrite lor_shifted by lia. cbn. by rewrite Nat.add_1_r. }
    destruct (Z.ltb_spec 0 i) as [Pi|Pi]; cbn [andb]; [rewrite (proj2 (Z.eqb_neq v 0)) by lia|];
      rewrite lor_shifted by lia; cbn; by rewrite Nat.add_1_r.
Qed.

Lemma decode_encode_varint v pre post : u64_ok v →
  decode_varint (pre ++ encode_varint v ++ post) (length pre) = Ok (v, (length pre + length (encode_varint v))%nat).
Proof.
  intros [V1 V2]. unfold decode_varint, encode_varint. rewrite (decode_encode_go 10 v 0 0 pre post) by lia.
  f_equal. f_equal. lia.
Qed.

Lemma decode_go_canonical bs rounds : ∀ i acc pos v pos',
  i = 10 - Z.of_nat rounds → 0 ≤ i → 0 ≤ acc < 2 ^ (7 * i) →
  decode_varint_go bs rounds i acc pos = Ok (v, pos') →
  ∃ w, 0 ≤ w ∧ w * 2 ^ (7 * i) < 2 ^ 64 ∧ (0 < i → 0 < w) ∧ v = acc + w * 2 ^ (7 * i) ∧
    drop pos bs = encode_varint_go rounds w ++ drop pos' bs.
Proof.
  induction rounds as [|rounds IH]; intros i acc pos v pos' Ei Ip Ab; [done|]. cbn [decode_varint_go].
  destruct (bs !! pos) as [b|] eqn:L; [|done]. cbn [ok_or mbind result_bind].
  destruct (byte_parts b) as [-> ->]. pose proof (b2z_range b) as Rb.
  pose proof (Z.mod_pos_bound (b2z b) (2 ^ 7) ltac:(lia)) as M. set (p := b2z b mod 2 ^ 7) in *.
  destruct ((i =? 9) && (1 <? p)) eqn:E9; [done|].
  assert (p * 2 ^ (7 * i) < 2 ^ 64) as Pb.
  { destruct (Z.eqb_spec i 9) as [->|N]; cbn in E9; [change (2 ^ (7 * 9)) with (2 ^ 63); lia|].
    assert (2 ^ (7 * i) ≤ 2 ^ (7 * 8)) by (apply Z.pow_le_mono_r; lia). change (2 ^ (7 * 8)) with (2 ^ 56) in *. nia. }
  rewrite lor_shifted by lia. rewrite (drop_S _ _ _ L). destruct (Z.ltb_spec (b2z b) (2 ^ 7)) as [S|S].
  - assert (p = b2z b) as Ep by (apply Z.mod_small; lia).
    destruct ((0 <? i) && (p =? 0)) eqn:E0; [done|]. intros [= <- <-]. exists p. split_and!; [lia|done|lia|done|].
    cbn [encode_varint_go]. rewrite (proj2 (Z.leb_gt 0x80 p)) by lia. cbn. f_equal. rewrite Ep. symmetry. apply z2b_b2z.
  - assert (2 ^ (7 * (i + 1)) = 2 ^ (7 * i) * 2 ^ 7) as E7 by (rewrite <-Z.pow_add_r by lia; f_equal; lia).
    intros D. apply IH in D as (w & W0 & W1 & W2 & -> & Dr); [|lia|lia|rewrite E7; nia].
    assert (b2z b = p + 2 ^ 7) as Eb.
    { subst p. pose proof (Z.div_mod (b2z b) (2 ^ 7) ltac:(lia)) as Q.
      assert (b2z b / 2 ^ 7 = 1) as Q1 by (symmetry; apply Z.div_unique with (b2z b - 2 ^ 7); lia). lia. }
    assert (0 < w) as W3 by (apply W2; lia). exists (p + w * 2 ^ 7).
    assert ((p + w * 2 ^ 7) mod 2 ^ 7 = p ∧ (p + w * 2 ^ 7) / 2 ^ 7 = w) as [Em Ed].
    { rewrite Z.mod_add, Z.mod_small by lia. rewrite Z.div_add, Z.div_small by lia. done. }
    split_and!; [lia| |lia|rewrite E7; lia|].
    { pose proof (Z.pow_pos_nonneg 2 (7 * i) ltac:(lia) ltac:(lia)).
      destruct (Z.le_gt_cases (i + 1) 9) as [I9|I9].
      - assert (2 ^ 64 = 2 ^ (7 * (i + 1)) * 2 ^ (64 - 7 * (i + 1))) as Eq by (rewrite <-Z.pow_add_r by lia; f_equal; lia).
        assert (w < 2 ^ (64 - 7 * (i + 1))) by nia. rewrite Eq, E7 in *. nia.
      - assert (2 ^ (7 * 10) ≤ 2 ^ (7 * (i + 1))) by (apply Z.pow_le_mono_r; lia). change (2 ^ (7 * 10)) with (2 ^ 64 * 64) in *. nia. }
    cbn [encode_varint_go]. rewrite (proj2 (Z.leb_le 0x80 (p + w * 2 ^ 7))) by lia.
    rewrite Z.shiftr_div_pow2, Ed by lia. cbn [app]. rewrite Dr. f_equal.
    rewrite <-(z2b_b2z b), Eb. f_equal. rewrite land_127, Em. change 0x80 with (Z.shiftl 1 7).
    rewrite lor_shiftl_add; lia.
Qed.

(** Only the shortest encoding of a number is accepted. *)
Lemma decode_varint_canonical bs pos v pos' : decode_varint bs pos = Ok (v, pos') →
  u64_ok v ∧ drop pos bs = encode_varint v ++ drop pos' bs.
Proof.
  intros D. apply decode_go_canonical in D as (w & W0 & W1 & _ & -> & Dr); [|done|lia|done].
  unfold u64_ok. rewrite Z.add_0_l. change (2 ^ (7 * 0)) with 1 in *. rewrite Z.mul_1_r in *. done.
Qed.

(** * Columns *)

Definition predictors_ok (p : Predictors) : Prop :=
  length (predictors p) = 8%nat ∧ Forall u64_ok (predictors p).
Lemma predictors_new_ok : predictors_ok predictors_new.
Proof. split; [done|]. by repeat constructor. Qed.
Lemma remember_ok p b : predictors_ok p → u64_ok b → predictors_ok (remember p b).
Proof. intros [L F] B. split; cbn; [by rewrite length_insert|by apply Forall_insert]. Qed.

Lemma lxor_ok a b : u64_ok a → u64_ok b → u64_ok (Z.lxor a b).
Proof.
  intros [A1 A2] [B1 B2]. split; [by apply Z.lxor_nonneg|].
  destruct (decide (Z.lxor a b = 0)) as [->|N]; [done|]. assert (0 < Z.lxor a b) as P by (pose proof (proj2 (Z.lxor_nonneg a b)); lia).
  apply Z.log2_lt_pow2; [done|]. eapply Z.le_lt_trans; [by apply Z.log2_lxor|]. apply Z.max_lub_lt.
  - destruct (decide (a = 0)) as [->|]; [done|]. apply Z.log2_lt_pow2; lia.
  - destruct (decide (b = 0)) as [->|]; [done|]. apply Z.log2_lt_pow2; lia.
Qed.

(** Whatever predictor is chosen, it and the difference give the bits back. *)
Lemma best_predictor_ok p bits : predictors_ok p → u64_ok bits → ∃ previous,
  predictors p !! (best_predictor p bits).1 = Some previous ∧ ((best_predictor p bits).1 < 8)%nat ∧
  Z.lxor previous (best_predictor p bits).2 = bits ∧ u64_ok (best_predictor p bits).2.
Proof.
  intros [L F] B. assert (∀ y, y ∈ imap (λ i previous, (i, Z.lxor bits previous)) (predictors p) →
    ∃ q, predictors p !! y.1 = Some q ∧ y.2 = Z.lxor bits q) as All.
  { intros y (i & Ly)%list_elem_of_lookup. rewrite list_lookup_imap in Ly.
    destruct (predictors p !! i) as [q|] eqn:Lq; [|done]. injection Ly as <-. by exists q. }
  assert (best_predictor p bits ∈ imap (λ i previous, (i, Z.lxor bits previous)) (predictors p)) as I.
  { unfold best_predictor. destruct (imap _ _) as [|x rest] eqn:E.
    { apply (f_equal length) in E. by rewrite length_imap, L in E. }
    clear E All. revert x. induction rest as [|y rest IH]; intros x; [by constructor|]. cbn [foldl].
    destruct (varint_len y.2 <? varint_len x.2).
    - right. apply IH.
    - specialize (IH x). apply elem_of_cons in IH as [->|IH]; [by constructor|]. by do 2 constructor. }
  destruct (All _ I) as (q & Lq & ->). exists q. split_and!; [done| | |].
  - apply lookup_lt_Some in Lq. lia.
  - by rewrite (Z.lxor_comm bits), <-Z.lxor_assoc, Z.lxor_nilpotent, Z.lxor_0_l.
  - apply lxor_ok; [done|]. rewrite Forall_forall in F. eapply F, list_elem_of_lookup_2, Lq.
Qed.

(** A decoder that has consumed exactly what the builder has written. *)
Definition in_step (c : TemporalColumnBuilder) (d : TemporalColumnDecoder) : Prop :=
  decoder_position d = length (column_bytes c) ∧ decoder_state d = builder_state c ∧ predictors_ok (builder_state c).

Lemma in_step_new : in_step column_new decoder_new.
Proof. split_and!; [done..|apply predictors_new_ok]. Qed.

Lemma push_next c d v post : in_step c d → i64_ok v → ∃ d',
  decoder_next (column_bytes (column_push c v) ++ post) d = Ok (v, d') ∧ in_step (column_push c v) d' ∧
  decoder_rows d' = S (decoder_rows d).
Proof.
  intros (Ep & Es & P) V. unfold decoder_next, column_push. rewrite Ep, Es.
  destruct (best_predictor_ok _ (cast_unsigned v) P (cast_unsigned_ok v)) as (q & Lq & Lt & Ex & Ok).
  destruct (best_predictor _ _) as [i delta] eqn:Eb. cbn [fst snd column_bytes] in *.
  rewrite <-!app_assoc. cbn [app]. rewrite list_lookup_middle by done. cbn [ok_or mbind result_bind].
  rewrite b2z_z2b, Nat2Z.id, Lq by lia. cbn [ok_or mbind result_bind].
  pose proof (decode_encode_varint delta (column_bytes c ++ [z2b (Z.of_nat i)]) post Ok) as D.
  rewrite <-app_assoc, length_app, Nat.add_1_r in D. cbn [app] in D. rewrite D. cbn [mbind result_bind].
  rewrite Ex, cast_signed_unsigned by done. eexists. split; [done|]. split; [|done].
  split_and!; cbn; [rewrite length_app; cbn; lia|done|by apply remember_ok, cast_unsigned_ok].
Qed.

Fixpoint decode_all (bs : bytes) (n : nat) (d : TemporalColumnDecoder) : result (list Z * TemporalColumnDecoder) :=
  match n with
  | O => Ok ([], d)
  | S n => '(v, d) ← decoder_next bs d; '(vs, d) ← decode_all bs n d; Ok (v :: vs, d)
  end.

Lemma column_prefix c vs : ∃ more, column_bytes (foldl column_push c vs) = column_bytes c ++ more.
Proof.
  revert c; induction vs as [|v vs IH]; intros c; [exists []; by rewrite app_nil_r|].
  cbn. destruct (IH (column_push c v)) as [more ->]. unfold column_push.
  destruct (best_predictor _ _). cbn. rewrite <-app_assoc. by eexists.
Qed.

Lemma decode_pushed vs : ∀ c d, in_step c d → Forall i64_ok vs → ∃ d',
  decode_all (column_bytes (foldl column_push c vs)) (length vs) d = Ok (vs, d') ∧
  in_step (foldl column_push c vs) d' ∧ decoder_rows d' = (decoder_rows d + length vs)%nat.
Proof.
  induction vs as [|v vs IH]; intros c d St F; [exists d; rewrite Nat.add_0_r; by cbn|].
  apply Forall_cons in F as [V F]. cbn [foldl length decode_all].
  destruct (column_prefix (column_push c v) vs) as [more E]. rewrite E.
  destruct (push_next c d v more St V) as (d1 & -> & St1 & R1). cbn [mbind result_bind]. rewrite <-E.
  destruct (IH _ _ St1 F) as (d2 & -> & St2 & R2). exists d2. cbn [mbind result_bind].
  split_and!; [done..|]. lia.
Qed.

(** A valid-time column reads back what was pushed: the decoder returns every
    64-bit value in order and ends exactly at the last byte, and a varint is
    accepted only in its shortest encoding. *)
Theorem temporal_column_roundtrip vs : Forall i64_ok vs →
  let bs := column_bytes (foldl column_push column_new vs) in
  (∃ d, decode_all bs (length vs) decoder_new = Ok (vs, d) ∧ decoder_finish bs d (length vs) = Ok tt) ∧
  (∀ other pos v pos', decode_varint other pos = Ok (v, pos') →
     u64_ok v ∧ drop pos other = encode_varint v ++ drop pos' other).
Proof.
  intros F bs. split; [|intros; by apply decode_varint_canonical].
  destruct (decode_pushed vs column_new decoder_new in_step_new F) as (d & E & (Ep & _ & _) & R).
  exists d. split; [done|]. unfold decoder_finish. cbn in R. rewrite R, Nat.eqb_refl. cbn. by rewrite Ep, Nat.eqb_refl.
Qed.

Lemma temporal_column_roundtrip_witness :
  let bs := column_bytes (foldl column_push column_new [1000; -1; 1000; i64_MAX; i64_MIN]) in
  length bs = 36%nat ∧ ∃ d, decode_all bs 5 decoder_new = Ok ([1000; -1; 1000; i64_MAX; i64_MIN], d) ∧
  decoder_finish bs d 5 = Ok tt.
Proof.
  split; [by vm_compute|].
  apply (temporal_column_roundtrip [1000; -1; 1000; i64_MAX; i64_MIN]). repeat constructor; ilia.
Defined.
