(* ===== verification/Projection.v ===== *)
(** The current projection of one attribute (src/src/graph/current_projection.rs):
    row-aligned columns of entities, encoded values and compressed valid-time
    windows, and an overlay of replaced entities.

    [represents] relates the columns to the rows they hold.  The builder and the
    validating constructor establish it, and a visit of a candidate that has it
    yields the rows with the replaced entities' rows in their place. *)
From S2P Require Import Prelude Types ValueCodec NetView SortedRuns Index Columns.

(** * Definitions *)

Record ProjectedInterval : Type := mkInterval { iv_value : bytes; iv_from : Z; iv_to : Z }.
Definition interval_new (v : Value) (valid_from valid_to : Z) : ProjectedInterval :=
  mkInterval (encode_value v) valid_from valid_to.
Definition interval_key (i : ProjectedInterval) : bytes * (Z * Z) := (iv_value i, (iv_from i, iv_to i)).
(** [sort_unstable_by]: intervals with equal keys are equal. *)
Definition sort_intervals (l : list ProjectedInterval) : list ProjectedInterval :=
  merge_sort (λ x y, le_ord (interval_key x) (interval_key y)) l.

(** [BTreeMap<EntityId, OverlayEntry>], in key order. *)
Abbreviation Overlay := (list (EntityId * list ProjectedInterval)) (only parsing).

Record CurrentProjectionCandidate : Type := mkCandidate {
  cp_attribute : Attribute;
  valid_time_floor : Z;
  cp_generation : Z;
  cp_tx_count : Z;
  entities : list EntityId;
  value_offsets : list Z;
  value_bytes : bytes;
  valid_from_bytes : bytes;
  valid_to_bytes : bytes;
  overlay : Overlay;
}.

Definition set_watermark (c : CurrentProjectionCandidate) (generation tx : Z) : CurrentProjectionCandidate :=
  mkCandidate (cp_attribute c) (valid_time_floor c) generation tx (entities c) (value_offsets c) (value_bytes c)
    (valid_from_bytes c) (valid_to_bytes c) (overlay c).
Definition replace_entity (c : CurrentProjectionCandidate) (e : EntityId) (intervals : list ProjectedInterval)
    : CurrentProjectionCandidate :=
  mkCandidate (cp_attribute c) (valid_time_floor c) (cp_generation c) (cp_tx_count c) (entities c)
    (value_offsets c) (value_bytes c) (valid_from_bytes c) (valid_to_bytes c)
    (bt_insert e (sort_intervals intervals) (overlay c)).

Definition interval_contains (valid_from valid_to valid_at : Z) : bool := (valid_from <=? valid_at) && (valid_at <? valid_to).

Definition base_value (c : CurrentProjectionCandidate) (index : nat) : result bytes :=
  start ← ok_or (value_offsets c !! index) "current projection value offset missing";
  stop ← ok_or (value_offsets c !! S index) "current projection value end offset missing";
  ok_or (get_range (value_bytes c) (Z.to_nat start) (Z.to_nat stop)) "current projection value range is corrupt".

(** A row as the visitor gets it. *)
Abbreviation IntervalRow := (EntityId * bytes * Z * Z)%type (only parsing).
Definition row_entity (x : IntervalRow) : EntityId := x.1.1.1.
Definition tag (e : EntityId) (i : ProjectedInterval) : IntervalRow := (e, iv_value i, iv_from i, iv_to i).

Section visit.
Context {S : Type} (c : CurrentProjectionCandidate) (visit : S → IntervalRow → result S).

Definition visit_overlay (x : S) (e : EntityId) (entry : list ProjectedInterval) : result S :=
  foldR (λ x i, visit x (tag e i)) x entry.

(** Overlay entries of smaller entities. *)
Fixpoint visit_before (e : EntityId) (ov : Overlay) (x : S) : result (Overlay * S) :=
  match ov with
  | (oe, entry) :: rest => if oe <? e then x ← visit_overlay x oe entry; visit_before e rest x else Ok (ov, x)
  | [] => Ok (ov, x)
  end.

(** The rows of one entity; their windows are decoded even when they are replaced. *)
Fixpoint visit_group (e : EntityId) (replaced : bool) (count index : nat) (f t : TemporalColumnDecoder) (x : S)
    : result (TemporalColumnDecoder * TemporalColumnDecoder * S) :=
  match count with
  | O => Ok (f, t, x)
  | Datatypes.S count =>
    '(from, f) ← decoder_next (valid_from_bytes c) f;
    '(to, t) ← decoder_next (valid_to_bytes c) t;
    x ← (if replaced then Ok x else v ← base_value c index; visit x (e, v, from, to));
    visit_group e replaced count (Datatypes.S index) f t x
  end.

(** Entities equal to [e] from the head on. *)
Fixpoint run_length (e : EntityId) (es : list EntityId) : nat :=
  match es with
  | e' :: es => if e' =? e then Datatypes.S (run_length e es) else 0
  | [] => 0
  end.

(** Each round consumes at least one row: as much fuel as rows is enough. *)
Fixpoint visit_base (fuel : nat) (base : nat) (ov : Overlay) (f t : TemporalColumnDecoder) (x : S)
    : result (Overlay * TemporalColumnDecoder * TemporalColumnDecoder * S) :=
  match entities c !! base, fuel with
  | None, _ => Ok (ov, f, t, x)
  | Some _, O => Err "fuel"
  | Some e, Datatypes.S fuel =>
    let base_end := (base + 1 + run_length e (drop (base + 1) (entities c)))%nat in
    '(ov, x) ← visit_before e ov x;
    let replaced := match ov with (oe, _) :: _ => oe =? e | [] => false end in
    '(f, t, x) ← visit_group e replaced (base_end - base) base f t x;
    '(ov, x) ← (if replaced then
                  match ov with
                  | (_, entry) :: rest => x ← visit_overlay x e entry; Ok (rest, x)
                  | [] => Ok (ov, x)
                  end
                else Ok (ov, x));
    visit_base fuel base_end ov f t x
  end.

Definition visit_merged_encoded (x : S) : result S :=
  '(ov, f, t, x) ← visit_base (length (entities c)) 0 (overlay c) decoder_new decoder_new x;
  _ ← decoder_finish (valid_from_bytes c) f (length (entities c));
  _ ← decoder_finish (valid_to_bytes c) t (length (entities c));
  foldR (λ x '(e, entry), visit_overlay x e entry) x ov.
End visit.

Definition ensure_valid_at (c : CurrentProjectionCandidate) (valid_at : Z) : result unit :=
  ensure (valid_time_floor c <=? valid_at) "current projection cannot answer valid time before its floor".

Definition rows_at (c : CurrentProjectionCandidate) (valid_at : Z) : result (list (EntityId * Value)) :=
  _ ← ensure_valid_at c valid_at;
  visit_merged_encoded c (λ rows '(e, encoded, valid_from, valid_to),
    if interval_contains valid_from valid_to valid_at
    then v ← decode_value encoded; Ok (rows ++ [(e, v)]) else Ok rows) [].

(** [i128::saturating_add] *)
Definition sat_add_i128 (a b : Z) : Z := Z.max (- 2 ^ 127) (Z.min (2 ^ 127 - 1) (a + b)).
Definition integer_count_sum_at (c : CurrentProjectionCandidate) (valid_at : Z) : result (Z * Z) :=
  _ ← ensure_valid_at c valid_at;
  visit_merged_encoded c (λ '(count, sum) '(_, encoded, valid_from, valid_to),
    if interval_contains valid_from valid_to valid_at
    then v ← decode_integer encoded; Ok (sat_add_u64 count 1, sat_add_i128 sum v) else Ok (count, sum)) (0, 0).

(** FNV-1a, each field ended by 0xff. *)
Definition FNV_PRIME : Z := 0x100000001b3.
Definition hash_bytes (hash : Z) (bs : bytes) : Z :=
  let hash := foldl (λ h b, (Z.lxor h (b2z b) * FNV_PRIME) mod 2 ^ 64) hash bs in
  (Z.lxor hash 0xff * FNV_PRIME) mod 2 ^ 64.
Definition fingerprint (c : CurrentProjectionCandidate) : result Z :=
  let hash := hash_bytes 0xcbf29ce484222325 (as_bytes (cp_attribute c)) in
  let hash := hash_bytes hash (to_be_bytes 8 (cast_unsigned (valid_time_floor c))) in
  visit_merged_encoded c (λ hash '(e, encoded, valid_from, valid_to),
    let hash := hash_bytes hash (to_be_bytes 16 e) in
    let hash := hash_bytes hash encoded in
    let hash := hash_bytes hash (to_be_bytes 8 (cast_unsigned valid_from)) in
    Ok (hash_bytes hash (to_be_bytes 8 (cast_unsigned valid_to)))) hash.

Definition base_entity_range (c : CurrentProjectionCandidate) (e : EntityId) : nat * nat :=
  let fix point (p : EntityId → bool) (l : list EntityId) : nat :=
    match l with x :: l => if p x then S (point p l) else O | [] => O end in
  (point (λ x, x <? e) (entities c), point (λ x, x <=? e) (entities c)).
Definition row_count (c : CurrentProjectionCandidate) : Z :=
  let replaced := foldl (λ total '(e, _), let '(start, stop) := base_entity_range c e in
                     sat_add_u64 total (Z.of_nat (stop - start))) 0 (overlay c) in
  let overlay_rows := foldl (λ total '(_, entry), sat_add_u64 total (Z.of_nat (length entry))) 0 (overlay c) in
  sat_add_u64 (sat_sub_u64 (Z.of_nat (length (entities c))) replaced) overlay_rows.

(** ** Validated columns *)

Record EncodedProjectionColumns : Type := mkColumns {
  ec_attribute : Attribute; ec_floor : Z; ec_generation : Z; ec_tx_count : Z;
  ec_entities : list EntityId; ec_value_offsets : list Z; ec_value_bytes : bytes;
  ec_valid_from_bytes : bytes; ec_valid_to_bytes : bytes }.

(** [windows(2)] in order *)
Fixpoint ascending (l : list Z) : bool :=
  match l with
  | x :: ((y :: _) as l') => (x <=? y) && ascending l'
  | _ => true
  end.
Fixpoint validate_values (bs : bytes) (offsets : list Z) : result unit :=
  match offsets with
  | start :: ((stop :: _) as rest) =>
    encoded ← ok_or (get_range bs (Z.to_nat start) (Z.to_nat stop)) "current projection value range is corrupt";
    _ ← validate_encoded_value encoded;
    validate_values bs rest
  | _ => Ok tt
  end.

Definition from_encoded_columns (cols : EncodedProjectionColumns) : result CurrentProjectionCandidate :=
  let '(mkColumns attribute floor generation tx es offsets vbytes from_bytes to_bytes) := cols in
  _ ← ensure (ascending es) "current projection entities are not sorted";
  _ ← ensure (length offsets =? length es + 1)%nat "current projection value offset count does not match rows";
  _ ← ensure (bool_decide (head offsets = Some 0)) "current projection value offsets must start at zero";
  _ ← ensure (ascending offsets) "current projection value offsets are not monotonic";
  _ ← ensure (bool_decide (last offsets = Some (Z.of_nat (length vbytes))))
        "current projection final value offset does not match payload";
  _ ← validate_values vbytes offsets;
  _ ← validate_temporal_columns from_bytes to_bytes (length es) floor;
  Ok (mkCandidate attribute floor generation tx es offsets vbytes from_bytes to_bytes []).

(** ** Builder *)

Record CurrentProjectionBuilder : Type := mkPBuilder {
  pb_attribute : Attribute; pb_floor : Z; pb_generation : Z; pb_tx_count : Z;
  pb_entities : list EntityId; pb_value_offsets : list Z; pb_value_bytes : bytes;
  pb_from : TemporalColumnBuilder; pb_to : TemporalColumnBuilder;
  pb_current : option EntityId; pb_intervals : list ProjectedInterval }.
Definition builder_new (attribute : Attribute) (floor generation tx : Z) : CurrentProjectionBuilder :=
  mkPBuilder attribute floor generation tx [] [] [] column_new column_new None [].

Definition offset_of (bs : bytes) : result Z :=
  let n := Z.of_nat (length bs) in
  if n <=? u32_MAX then Ok n else Err "current projection candidate exceeds the 4 GiB feasibility limit".

(** One row appended to the columns. *)
Definition append_row (e : EntityId) (b : CurrentProjectionBuilder) (i : ProjectedInterval)
    : result CurrentProjectionBuilder :=
  offset ← offset_of (pb_value_bytes b);
  Ok (mkPBuilder (pb_attribute b) (pb_floor b) (pb_generation b) (pb_tx_count b) (pb_entities b ++ [e])
        (pb_value_offsets b ++ [offset]) (pb_value_bytes b ++ iv_value i)
        (column_push (pb_from b) (iv_from i)) (column_push (pb_to b) (iv_to i)) (pb_current b) (pb_intervals b)).
Definition set_current (b : CurrentProjectionBuilder) (e : option EntityId) (l : list ProjectedInterval)
    : CurrentProjectionBuilder :=
  mkPBuilder (pb_attribute b) (pb_floor b) (pb_generation b) (pb_tx_count b) (pb_entities b) (pb_value_offsets b)
    (pb_value_bytes b) (pb_from b) (pb_to b) e l.
Definition builder_flush (b : CurrentProjectionBuilder) : result CurrentProjectionBuilder :=
  match pb_current b with
  | None => Ok b
  | Some e => foldR (append_row e) (set_current b None []) (sort_intervals (pb_intervals b))
  end.

Definition builder_push (b : CurrentProjectionBuilder) (e : EntityId) (v : Value) (valid_from valid_to : Z)
    : result CurrentProjectionBuilder :=
  if valid_to <=? pb_floor b then Ok b
  else
    b ← (if match pb_current b with Some current => negb (current =? e) | None => false end
         then builder_flush b else Ok b);
    Ok (set_current b (Some e) (pb_intervals b ++ [interval_new v valid_from valid_to])).

Definition builder_finish (b : CurrentProjectionBuilder) : result CurrentProjectionCandidate :=
  b ← builder_flush b;
  offset ← offset_of (pb_value_bytes b);
  Ok (mkCandidate (pb_attribute b) (pb_floor b) (pb_generation b) (pb_tx_count b) (pb_entities b)
        (pb_value_offsets b ++ [offset]) (pb_value_bytes b) (column_bytes (pb_from b)) (column_bytes (pb_to b)) []).

(** * Rows by entity *)

Definition of_e (e : EntityId) (x : IntervalRow) : bool := row_entity x =? e.
Abbreviation rows_of e l := (List.filter (of_e e) l).
Definition by_entity (l : list IntervalRow) : Prop := StronglySorted (λ x y, row_entity x ≤ row_entity y) l.

Lemma by_entity_app l k : by_entity (l ++ k) ↔
  by_entity l ∧ by_entity k ∧ ∀ x y, x ∈ l → y ∈ k → row_entity x ≤ row_entity y.
Proof. unfold by_entity. rewrite StronglySorted_app. tauto. Qed.

Lemma rows_of_none e l : (∀ x, x ∈ l → row_entity x ≠ e) → rows_of e l = [].
Proof.
  intros N. apply elem_of_nil_inv. intros x [E%Z.eqb_eq I]%elem_of_List_filter. by apply (N x).
Qed.
Lemma rows_of_all e l : (∀ x, x ∈ l → row_entity x = e) → rows_of e l = l.
Proof. intros A. apply List_filter_id. intros x I. by apply Z.eqb_eq, A. Qed.

(** Rows in entity order are determined by the rows of each entity. *)
Lemma by_entity_unique l : ∀ k, by_entity l → by_entity k → (∀ e, rows_of e l = rows_of e k) → l = k.
Proof.
  assert (∀ x l k, by_entity (x :: l) → by_entity k → (∀ e, rows_of e (x :: l) = rows_of e k) →
    ∃ k', k = x :: k') as H.
  { intros x l' k Sl Sk E. pose proof (E (row_entity x)) as Ex. cbn in Ex. unfold of_e at 1 in Ex. rewrite Z.eqb_refl in Ex.
    destruct k as [|y k]; [done|]. destruct (decide (row_entity y = row_entity x)) as [Ey|Ny].
    - cbn in Ex. unfold of_e at 2 in Ex. rewrite (proj2 (Z.eqb_eq _ _) Ey) in Ex. injection Ex as -> _. by eexists.
    - exfalso. assert (x ∈ y :: k) as I.
      { apply (elem_of_List_filter (of_e (row_entity x))). rewrite <-Ex. constructor. }
      assert (y ∈ x :: l') as J.
      { apply (elem_of_List_filter (of_e (row_entity y))). rewrite E. apply elem_of_List_filter. split; [apply Z.eqb_refl|constructor]. }
      apply StronglySorted_inv in Sl as [_ Sl], Sk as [_ Sk]. rewrite Forall_forall in Sl, Sk.
      apply elem_of_cons in I as [->|I]; [done|]. apply elem_of_cons in J as [->|J]; [done|].
      specialize (Sl _ J). specialize (Sk _ I). lia. }
  induction l as [|x l IH]; intros k Sl Sk E.
  - destruct k as [|y k]; [done|]. destruct (H y k [] Sk Sl) as [? [=]]. intros e. by rewrite E.
  - destruct (H x l k Sl Sk E) as [k' ->]. f_equal. apply IH.
    + by apply StronglySorted_inv in Sl as [].
    + by apply StronglySorted_inv in Sk as [].
    + intros e. specialize (E e). cbn in E. destruct (of_e e x); [by injection E|done].
Qed.

(** ** Overlays *)

Fixpoint bt_get {K V} `{Ord K} (k : K) (m : list (K * V)) : option V :=
  match m with
  | [] => None
  | (k', v) :: m => match cmp k k' with Eq => Some v | _ => bt_get k m end
  end.
Lemma bt_get_app {K V} `{Ord K} (k : K) (m n : list (K * V)) :
  bt_get k (m ++ n) = match bt_get k m with Some v => Some v | None => bt_get k n end.
Proof. induction m as [|[k' v] m IH]; [done|]. cbn. by destruct (cmp k k'). Qed.
Lemma bt_get_none {K V} `{OrdLaws K} (k : K) (m : list (K * V)) : k ∉ m.*1 → bt_get k m = None.
Proof.
  induction m as [|[k' v] m IH]; intros N; [done|]. cbn in *. destruct (cmp k k') eqn:C; [|apply IH; set_solver..].
  apply cmp_eq in C as ->. set_solver.
Qed.
Lemma bt_get_some {K V} `{OrdLaws K} (k : K) (m : list (K * V)) v : bt_get k m = Some v → (k, v) ∈ m.
Proof.
  induction m as [|[k' w] m IH]; [done|]. cbn. destruct (cmp k k') eqn:C; [|right; auto..].
  apply cmp_eq in C as ->. intros [= ->]. by left.
Qed.
Lemma bt_get_insert {K V} `{OrdLaws K} (k k' : K) (v : V) m :
  bt_get k' (bt_insert k v m) = match cmp k' k with Eq => Some v | _ => bt_get k' m end.
Proof.
  induction m as [|[k1 w] m IH]; cbn; [done|]. destruct (cmp k k1) eqn:C; cbn.
  - apply cmp_eq in C as ->. by destruct (cmp k' k1).
  - by destruct (cmp k' k) eqn:C'.
  - destruct (cmp k' k1) eqn:C'; [|by rewrite IH..]. apply cmp_eq in C' as ->. by rewrite (cmp_opp k k1), C.
Qed.

Lemma row_entity_tag e i : row_entity (tag e i) = e.
Proof. done. Qed.

Definition flat (ov : Overlay) : list IntervalRow := flat_map (λ '(e, entry), tag e <$> entry) ov.

Lemma flat_entities ov x : x ∈ flat ov → row_entity x ∈ ov.*1.
Proof.
  unfold flat. rewrite elem_of_flat_map. intros ([e entry] & I & (i & -> & _)%list_elem_of_fmap).
  apply list_elem_of_fmap. by exists (e, entry).
Qed.

(** Strictly ascending entities, as integers. *)
Definition ov_ok (ov : Overlay) : Prop := StronglySorted Z.lt ov.*1.
Lemma ov_ok_ascending ov : strictly_ascending ov → ov_ok ov.
Proof.
  unfold strictly_ascending, ov_ok. induction 1 as [|[e en] ov S IH F]; [constructor|]. cbn. constructor; [done|].
  apply Forall_fmap. eapply Forall_impl; [exact F|]. intros [e' en'] E. cbn in *. by apply Z.compare_lt_iff in E.
Qed.
Lemma ov_ok_app l k : ov_ok (l ++ k) ↔ ov_ok l ∧ ov_ok k ∧ ∀ x y, x ∈ l.*1 → y ∈ k.*1 → x < y.
Proof. unfold ov_ok. rewrite fmap_app, StronglySorted_app. tauto. Qed.

Lemma rows_of_flat e ov : ov_ok ov → rows_of e (flat ov) = match bt_get e ov with Some en => tag e <$> en | None => [] end.
Proof.
  induction ov as [|[e' en] ov IH]; intros O; [done|]. unfold ov_ok in O. cbn in O. apply StronglySorted_inv in O as [O F].
  cbn [flat flat_map bt_get]. rewrite List.filter_app. fold (flat ov). rewrite IH by done.
  destruct (cmp e e') eqn:C.
  - apply cmp_eq in C as <-. rewrite rows_of_all by by intros x (i & -> & _)%list_elem_of_fmap.
    rewrite bt_get_none, app_nil_r; [done|]. intros I. rewrite Forall_forall in F. specialize (F e I). lia.
  - rewrite rows_of_none; [done|]. intros x (i & -> & _)%list_elem_of_fmap. rewrite row_entity_tag. change (e < e') in C. lia.
  - rewrite rows_of_none; [done|]. intros x (i & -> & _)%list_elem_of_fmap. rewrite row_entity_tag. change ((e ?= e') = Gt) in C. rewrite Z.compare_gt_iff in C. lia.
Qed.
Lemma constant_by_entity e l : (∀ x, x ∈ l → row_entity x = e) → by_entity l.
Proof.
  induction l as [|x l IH]; intros E; [constructor|]. constructor; [apply IH; set_solver|].
  apply Forall_forall. intros y Y. rewrite !E by set_solver. done.
Qed.
Lemma flat_by_entity ov : ov_ok ov → by_entity (flat ov).
Proof.
  induction ov as [|[e en] ov IH]; intros O; [constructor|]. unfold ov_ok in O. cbn in O. apply StronglySorted_inv in O as [O F].
  cbn. apply by_entity_app. split_and!; [|by apply IH|].
  - apply constant_by_entity with e. by intros x (i & -> & _)%list_elem_of_fmap.
  - intros x y (i & -> & _)%list_elem_of_fmap I%flat_entities. rewrite Forall_forall in F. specialize (F _ I). rewrite row_entity_tag. lia.
Qed.

(** The rows of the base, replaced entity by entity. *)
Definition merged_row (R : list IntervalRow) (ov : Overlay) (e : EntityId) : list IntervalRow :=
  match bt_get e ov with Some en => tag e <$> en | None => rows_of e R end.
Definition merges (R : list IntervalRow) (ov : Overlay) (M : list IntervalRow) : Prop :=
  by_entity M ∧ ∀ e, rows_of e M = merged_row R ov e.

Lemma merges_entities R ov M x : merges R ov M → x ∈ M → row_entity x ∈ ov.*1 ∨ ∃ y, y ∈ R ∧ row_entity y = row_entity x.
Proof.
  intros [_ E] I. assert (x ∈ rows_of (row_entity x) M) as J by (apply elem_of_List_filter; split; [apply Z.eqb_refl|done]).
  rewrite E in J. unfold merged_row in J. destruct (bt_get (row_entity x) ov) as [en|] eqn:G.
  - left. apply bt_get_some in G. by apply (list_elem_of_fmap_2 fst) in G.
  - right. apply elem_of_List_filter in J as [_ J]. by exists x.
Qed.

(** One round: overlay entries below [e], the rows [G] of [e] or their
    replacement, and the rest. *)
Lemma merges_round e B G R ov M : ov_ok (B ++ ov) → (∀ x, x ∈ B.*1 → x < e) →
  (∀ x, x ∈ G → row_entity x = e) → (∀ x, x ∈ R → e < row_entity x) → (∀ x, x ∈ ov.*1 → e ≤ x) →
  let rest := match ov with (oe, _) :: ov' => if oe =? e then ov' else ov | [] => ov end in
  let here := match ov with (oe, en) :: _ => if oe =? e then tag e <$> en else G | [] => G end in
  merges R rest M → merges (G ++ R) (B ++ ov) (flat B ++ here ++ M).
Proof.
  intros O LB EG GR Go rest here [Sm Em]. apply ov_ok_app in O as (OB & Oo & Lt).
  assert (∀ x, x ∈ rest.*1 → e < x) as Gr.
  { subst rest here. destruct ov as [|[oe en] ov']; [by intros x ?%elem_of_nil|].
    unfold ov_ok in Oo. cbn in Oo. apply StronglySorted_inv in Oo as [_ F]. rewrite Forall_forall in F.
    pose proof (Go oe ltac:(cbn; by left)) as Ge. destruct (Z.eqb_spec oe e) as [->|N]; intros x I.
    - by apply F.
    - cbn in I. apply elem_of_cons in I as [->|I]; [lia|]. specialize (F x I). lia. }
  assert (∀ x, x ∈ here → row_entity x = e) as Eh.
  { subst rest here. destruct ov as [|[oe en] ov']; [done|]. destruct (oe =? e); [|done]. by intros x (i & -> & _)%list_elem_of_fmap. }
  assert (∀ x, x ∈ M → e < row_entity x) as GM.
  { intros x X. destruct (merges_entities R rest M x (conj Sm Em) X) as [I|(y & Y & <-)]; auto. }
  split.
  - apply by_entity_app. split_and!; [by apply flat_by_entity| |].
    + apply by_entity_app. split_and!; [|done|].
      * by apply constant_by_entity with e.
      * intros x y X Y. rewrite (Eh x X). specialize (GM y Y). lia.
    + intros x y X%flat_entities%LB [Y|Y]%elem_of_app; [rewrite (Eh y Y); lia|]. specialize (GM y Y). lia.
  - intros e'. rewrite !List.filter_app, rows_of_flat by done. unfold merged_row. rewrite bt_get_app, List.filter_app.
    destruct (Z.lt_trichotomy e' e) as [L|[->|L]].
    + assert (bt_get e' ov = None) as -> by (apply bt_get_none; intros I; specialize (Go _ I); lia).
      rewrite !(rows_of_none e'), !app_nil_r.
      * by destruct (bt_get e' B).
      * intros x X. specialize (GR x X). lia.
      * intros x X. specialize (EG x X). lia.
      * intros x X. specialize (GM x X). lia.
      * intros x X. specialize (Eh x X). lia.
    + assert (bt_get e B = None) as -> by (apply bt_get_none; intros I; specialize (LB _ I); lia).
      rewrite (rows_of_none e M), (rows_of_none e R), (rows_of_all e G), (rows_of_all e here), !app_nil_r; [|done..| |].
      * subst here. destruct ov as [|[oe en] ov']; [done|]. cbn [bt_get]. destruct (Z.eqb_spec oe e) as [->|N]; [by rewrite cmp_refl|].
        rewrite bt_get_none; [by destruct (cmp e oe) eqn:C; [apply cmp_eq in C|..]|]. intros I.
        unfold ov_ok in Oo. cbn in Oo. apply StronglySorted_inv in Oo as [_ F]. rewrite Forall_forall in F.
        specialize (F e I). specialize (Go oe ltac:(cbn; by left)). lia.
      * intros x X. specialize (GR x X). lia.
      * intros x X. specialize (GM x X). lia.
    + assert (bt_get e' B = None) as -> by (apply bt_get_none; intros I; specialize (LB _ I); lia).
      rewrite (rows_of_none e' here), (rows_of_none e' G), Em by (intros x X; (specialize (EG x X) || specialize (Eh x X)); lia).
      cbn [app]. unfold merged_row. assert (bt_get e' rest = bt_get e' ov) as ->; [|by destruct (bt_get e' ov)].
      subst rest. destruct ov as [|[oe en] ov']; [done|]. destruct (Z.eqb_spec oe e) as [->|N]; [|done]. cbn.
      destruct (cmp e' e) eqn:C; [apply cmp_eq in C; lia|done..].
Qed.

(** * What the columns hold *)

Abbreviation row_bytes x := (x.1.1.2).
Abbreviation row_from x := (x.1.2).
Abbreviation row_to x := (x.2).

(** A column decodes to [vs] and has nothing after them. *)
Definition column_holds (bs : bytes) (vs : list Z) : Prop :=
  ∃ d, decode_all bs (length vs) decoder_new = Ok (vs, d) ∧ decoder_finish bs d (length vs) = Ok tt.

Record represents (c : CurrentProjectionCandidate) (R : list IntervalRow) : Prop := {
  rp_entities : entities c = row_entity <$> R;
  rp_sorted : by_entity R;
  rp_values i x : R !! i = Some x → base_value c i = Ok (row_bytes x);
  rp_from : column_holds (valid_from_bytes c) ((λ x : IntervalRow, row_from x) <$> R);
  rp_to : column_holds (valid_to_bytes c) ((λ x : IntervalRow, row_to x) <$> R);
}.

Lemma run_length_spec e (l : list IntervalRow) : by_entity l → (∀ x, x ∈ l → e ≤ row_entity x) →
  let n := run_length e (row_entity <$> l) in
  (n ≤ length l)%nat ∧ (∀ x, x ∈ take n l → row_entity x = e) ∧ (∀ x, x ∈ drop n l → e < row_entity x).
Proof.
  induction l as [|x l IH]; intros S G; [split_and!; [done|by intros ? ?%elem_of_nil..]|].
  apply StronglySorted_inv in S as [S F]. rewrite Forall_forall in F. cbn [fmap list_fmap run_length].
  destruct (Z.eqb_spec (row_entity x) e) as [E|N]; cbn [take drop length].
  - destruct (IH S) as (L & T & D); [set_solver|]. split_and!; [lia| |done]. intros y [->|Y]%elem_of_cons; auto.
  - split_and!; [lia|by intros ? ?%elem_of_nil|]. pose proof (G x ltac:(by left)). intros y [->|Y]%elem_of_cons; [lia|].
    specialize (F y Y). lia.
Qed.

Section visiting.
Context {S : Type} (c : CurrentProjectionCandidate) (visit : S → IntervalRow → result S) (R : list IntervalRow).
Hypothesis rep : represents c R.

Lemma visit_overlay_rows x e en : visit_overlay visit x e en = foldR visit x (tag e <$> en).
Proof using. unfold visit_overlay. by rewrite foldR_fmap. Qed.
Lemma visit_flat x ov : foldR (λ x '(e, en), visit_overlay visit x e en) x ov = foldR visit x (flat ov).
Proof using.
  revert x; induction ov as [|[e en] ov IH]; intros x; [done|]. cbn [flat flat_map foldR]. rewrite foldR_app, visit_overlay_rows.
  destruct (foldR visit x (tag e <$> en)); cbn; [apply IH|done].
Qed.

Lemma visit_before_rows e ov : ov_ok ov → ∃ B ov', ov = B ++ ov' ∧ (∀ x, x ∈ B.*1 → x < e) ∧ (∀ x, x ∈ ov'.*1 → e ≤ x) ∧
  ∀ x, visit_before visit e ov x = (x ← foldR visit x (flat B); Ok (ov', x)).
Proof using.
  induction ov as [|[oe en] ov IH]; intros O.
  { exists [], []. split_and!; [done|by intros ? ?%elem_of_nil..|done]. }
  unfold ov_ok in O. cbn in O. apply StronglySorted_inv in O as [O F]. rewrite Forall_forall in F.
  destruct (Z.ltb_spec oe e) as [L|L].
  - destruct (IH O) as (B & ov' & -> & LB & Go & E). exists ((oe, en) :: B), ov'. split_and!; [done| |done|].
    + intros x [->|X]%elem_of_cons; auto.
    + intros x. cbn [visit_before flat flat_map]. rewrite (proj2 (Z.ltb_lt oe e)) by done.
      rewrite visit_overlay_rows, foldR_app. fold (flat B). destruct (foldR visit x (tag oe <$> en)); cbn; [apply E|done].
  - exists [], ((oe, en) :: ov). split_and!; [done|by intros ? ?%elem_of_nil| |].
    + intros x [->|X]%elem_of_cons; [done|]. specialize (F x X). cbn in L. lia.
    + intros x. cbn [visit_before flat flat_map foldR]. by rewrite (proj2 (Z.ltb_ge oe e)).
Qed.

Abbreviation froms l := ((λ x : IntervalRow, row_from x) <$> l).
Abbreviation tos l := ((λ x : IntervalRow, row_to x) <$> l).

Lemma decode_all_cons bs n d v vs d2 : decode_all bs (Datatypes.S n) d = Ok (v :: vs, d2) →
  ∃ d1, decoder_next bs d = Ok (v, d1) ∧ decode_all bs n d1 = Ok (vs, d2).
Proof using.
  cbn [decode_all]. intros E. destruct (decoder_next bs d) as [[w d1]|] eqn:N; [|done]. cbn in E.
  destruct (decode_all bs n d1) as [[ws d3]|] eqn:A; [|done]. cbn in E. injection E as -> -> ->. eauto.
Qed.

(** The rows of one entity, from row [base] on. *)
Lemma visit_group_rows e replaced G : ∀ base rest f t df dt, drop base R = G ++ rest → (∀ x, x ∈ G → row_entity x = e) →
  decode_all (valid_from_bytes c) (length (G ++ rest)) f = Ok (froms (G ++ rest), df) →
  decode_all (valid_to_bytes c) (length (G ++ rest)) t = Ok (tos (G ++ rest), dt) →
  ∃ f' t', decode_all (valid_from_bytes c) (length rest) f' = Ok (froms rest, df) ∧
    decode_all (valid_to_bytes c) (length rest) t' = Ok (tos rest, dt) ∧
    ∀ x, visit_group c visit e replaced (length G) base f t x =
      (x ← foldR visit x (if replaced then [] else G); Ok (f', t', x)).
Proof using rep.
  induction G as [|y G IH]; intros base rest f t df dt D E Hf Ht.
  { exists f, t. split_and!; [done..|]. intros x. by destruct replaced. }
  cbn [app fmap list_fmap length] in Hf, Ht.
  apply decode_all_cons in Hf as (f1 & Nf & Hf), Ht as (t1 & Nt & Ht).
  destruct (IH (Datatypes.S base) rest f1 t1 df dt) as (f' & t' & Af & At & Ev).
  { rewrite <-Nat.add_1_r, <-drop_drop, D. done. }
  { set_solver. }
  { done. }
  { done. }
  exists f', t'. split_and!; [done..|]. intros x. cbn [length visit_group]. rewrite Nf, Nt. cbn [mbind result_bind].
  assert (R !! base = Some y) as L.
  { rewrite <-(Nat.add_0_r base), <-lookup_drop, D. done. }
  rewrite (rp_values _ _ rep base y L). cbn [mbind result_bind].
  destruct replaced; cbn [foldR mbind result_bind]; [apply Ev|].
  assert ((e, row_bytes y, row_from y, row_to y) = y) as ->.
  { destruct y as [[[e' b] fr] to]. cbn. f_equal. f_equal. f_equal. symmetry. apply (E (e', b, fr, to)). by left. }
  destruct (visit x y); cbn [mbind result_bind]; [apply Ev|done].
Qed.

Lemma visit_base_rows fuel : ∀ base rest ov f t df dt, (length rest ≤ fuel)%nat → drop base R = rest → ov_ok ov →
  (base ≤ length R)%nat →
  decode_all (valid_from_bytes c) (length rest) f = Ok (froms rest, df) →
  decode_all (valid_to_bytes c) (length rest) t = Ok (tos rest, dt) →
  ∃ M ov', merges rest ov (M ++ flat ov') ∧
    ∀ x, visit_base c visit fuel base ov f t x = (x ← foldR visit x M; Ok (ov', df, dt, x)).
Proof using rep.
  induction fuel as [|fuel IH]; intros base rest ov f t df dt Lf D O Lb Hf Ht.
  all: destruct rest as [|y rest'].
  1,3: cbn in Hf, Ht; injection Hf as <-; injection Ht as <-; exists [], ov; split;
      [split; [by apply flat_by_entity|intros e; unfold merged_row; cbn [app]; by rewrite rows_of_flat]|];
      intros x; assert (entities c !! base = None) as Ln
        by (rewrite (rp_entities _ _ rep), list_lookup_fmap; apply lookup_ge_None_2 in D || idtac;
            rewrite (lookup_ge_None_2 R base); [done|]; apply (f_equal length) in D; rewrite length_drop in D; cbn in D; lia);
      cbn [visit_base]; rewrite Ln; done.
  { cbn in Lf. lia. }
  set (e := row_entity y). pose proof (rp_sorted _ _ rep) as So. rewrite <-(take_drop base R), D in So.
  apply by_entity_app in So as (_ & So & _). apply StronglySorted_inv in So as [So Fy]. rewrite Forall_forall in Fy.
  assert (entities c !! base = Some e) as Le.
  { rewrite (rp_entities _ _ rep), list_lookup_fmap, <-(Nat.add_0_r base), <-lookup_drop, D. done. }
  assert (drop (base + 1) (entities c) = row_entity <$> rest') as De.
  { rewrite (rp_entities _ _ rep), <-fmap_drop, <-drop_drop, D. done. }
  destruct (run_length_spec e rest' So Fy) as (Ln & Tk & Dr). set (n := run_length e (row_entity <$> rest')) in *.
  destruct (visit_before_rows e ov O) as (B & ov1 & -> & LB & Go & Eb).
  set (replaced := match ov1 with (oe, _) :: _ => oe =? e | [] => false end).
  set (G := y :: take n rest'). assert (y :: rest' = G ++ drop n rest') as Sp by (unfold G; cbn; by rewrite take_drop).
  rewrite Sp in *. assert (∀ x, x ∈ G → row_entity x = e) as EG by (intros x [->|X]%elem_of_cons; auto).
  assert (length G = Datatypes.S n) as LG by (unfold G; cbn; rewrite length_take; lia).
  destruct (visit_group_rows e replaced G base (drop n rest') f t df dt) as (f' & t' & Hf' & Ht' & Eg); [done..|].
  set (ov2 := match ov1 with (oe, _) :: ov' => if oe =? e then ov' else ov1 | [] => ov1 end).
  assert (ov_ok ov2) as O2.
  { apply ov_ok_app in O as (_ & O & _). subst ov2. destruct ov1 as [|[oe en] ov']; [done|]. destruct (oe =? e); [|done].
    unfold ov_ok in *. cbn in O. by apply StronglySorted_inv in O as []. }
  destruct (IH (base + 1 + n)%nat (drop n rest') ov2 f' t' df dt) as (M & ov' & Me & Ev); [| |done| |done..|].
  { rewrite length_app, LG in Lf. lia. }
  { rewrite <-drop_drop, <-drop_drop, D, <-Sp. cbn. by rewrite drop_0. }
  { apply (f_equal length) in D. rewrite length_drop, length_app, LG in D. lia. }
  set (here := match ov1 with (oe, en) :: _ => if oe =? e then tag e <$> en else G | [] => G end).
  exists (flat B ++ here ++ M), ov'. split.
  { rewrite <-!app_assoc. by apply (merges_round e B G (drop n rest') ov1 (M ++ flat ov')). }
  intros x. cbn [visit_base]. rewrite Le, De. fold n. rewrite Eb, foldR_app. destruct (foldR visit x (flat B)) as [x1|]; [|done].
  cbn [mbind result_bind]. fold replaced. replace (base + 1 + n - base)%nat with (length G) by lia. rewrite Eg, foldR_app.
  subst replaced here ov2. destruct ov1 as [|[oe en] ov1'].
  - destruct (foldR visit x1 G) as [x2|]; [|done]. cbn [mbind result_bind]. apply Ev.
  - destruct (Z.eqb_spec oe e) as [->|N].
    + cbn [foldR mbind result_bind]. rewrite visit_overlay_rows. destruct (foldR visit x1 (tag e <$> en)) as [x2|]; [|done].
      cbn [mbind result_bind]. apply Ev.
    + destruct (foldR visit x1 G) as [x2|]; [|done]. cbn [mbind result_bind]. apply Ev.
Qed.

Lemma visit_merged : strictly_ascending (overlay c) → ∃ M, merges R (overlay c) M ∧
  ∀ x, visit_merged_encoded c visit x = foldR visit x M.
Proof using rep.
  intros O%ov_ok_ascending. destruct (rp_from _ _ rep) as (df & Hf & Ff), (rp_to _ _ rep) as (dt & Ht & Ft).
  rewrite length_fmap in Hf, Ff, Ht, Ft. pose proof (rp_entities _ _ rep) as Ee.
  assert (length (entities c) = length R) as Le by (rewrite Ee; apply length_fmap).
  destruct (visit_base_rows (length R) 0 R (overlay c) decoder_new decoder_new df dt) as (M & ov' & Me & Ev);
    [done|by rewrite drop_0|done|lia|done..|].
  exists (M ++ flat ov'). split; [done|]. intros x. unfold visit_merged_encoded. rewrite Le, Ev, foldR_app.
  destruct (foldR visit x M) as [x1|]; [|done]. cbn [mbind result_bind]. rewrite Ff, Ft. cbn [mbind result_bind].
  apply visit_flat.
Qed.
End visiting.

(** The merged rows, as a function. *)
Lemma merges_unique R ov M N : merges R ov M → merges R ov N → M = N.
Proof. intros [SM EM] [SN EN]. apply by_entity_unique; [done..|]. intros e. by rewrite EM, EN. Qed.

(** * Building columns *)

Fixpoint offsets (n : Z) (R : list IntervalRow) : list Z :=
  match R with [] => [] | x :: R => n :: offsets (n + Z.of_nat (length (row_bytes x))) R end.
Definition payload (R : list IntervalRow) : bytes := flat_map (λ x : IntervalRow, row_bytes x) R.
Definition fits (R : list IntervalRow) : Prop := Z.of_nat (length (payload R)) ≤ u32_MAX.

Lemma payload_app R Q : payload (R ++ Q) = payload R ++ payload Q.
Proof. unfold payload. by rewrite !flat_map_concat_map, map_app, concat_app. Qed.
Lemma offsets_app n R Q : offsets n (R ++ Q) = offsets n R ++ offsets (n + Z.of_nat (length (payload R))) Q.
Proof.
  revert n; induction R as [|x R IH]; intros n; cbn; [by rewrite Z.add_0_r|]. by rewrite IH, length_app, Nat2Z.inj_add, Z.add_assoc.
Qed.
Lemma offsets_lookup R : ∀ n i x, R !! i = Some x →
  offsets n R !! i = Some (n + Z.of_nat (length (payload (take i R)))).
Proof.
  induction R as [|y R IH]; intros n i x L; [done|]. destruct i as [|i]; cbn [offsets take payload flat_map lookup list_lookup].
  - cbn. by rewrite Z.add_0_r.
  - rewrite (IH _ _ x L). f_equal. rewrite length_app. fold (payload (take i R)). lia.
Qed.

Record holds (b : CurrentProjectionBuilder) (R : list IntervalRow) : Prop := {
  hd_entities : pb_entities b = row_entity <$> R;
  hd_offsets : pb_value_offsets b = offsets 0 R;
  hd_bytes : pb_value_bytes b = payload R;
  hd_from : pb_from b = foldl column_push column_new ((λ x : IntervalRow, row_from x) <$> R);
  hd_to : pb_to b = foldl column_push column_new ((λ x : IntervalRow, row_to x) <$> R);
}.

Lemma append_row_holds b R e i : holds b R → fits R →
  ∃ b', append_row e b i = Ok b' ∧ holds b' (R ++ [tag e i]) ∧
    pb_floor b' = pb_floor b ∧ pb_current b' = pb_current b ∧ pb_intervals b' = pb_intervals b.
Proof.
  intros [He Ho Hb Hf Ht] F. unfold append_row, offset_of. rewrite Hb, (proj2 (Z.leb_le _ _) F). cbn [mbind result_bind].
  eexists. split; [done|]. split; [|done]. split; cbn.
  - by rewrite fmap_app, He.
  - by rewrite offsets_app, Ho.
  - rewrite payload_app. cbn. by rewrite app_nil_r.
  - by rewrite fmap_app, foldl_app, Hf.
  - by rewrite fmap_app, foldl_app, Ht.
Qed.
Lemma fits_app R Q : fits (R ++ Q) → fits R.
Proof. unfold fits. rewrite payload_app, length_app. lia. Qed.

Lemma append_rows_hold e l : ∀ b R, holds b R → fits (R ++ (tag e <$> l)) →
  ∃ b', foldR (append_row e) b l = Ok b' ∧ holds b' (R ++ (tag e <$> l)) ∧
    pb_floor b' = pb_floor b ∧ pb_current b' = pb_current b ∧ pb_intervals b' = pb_intervals b.
Proof.
  induction l as [|i l IH]; intros b R H F; [exists b; by rewrite app_nil_r|].
  destruct (append_row_holds b R e i H (fits_app _ _ F)) as (b1 & E & H1 & F1 & C1 & I1).
  cbn [fmap list_fmap] in F |- *. change (tag e i :: (tag e <$> l)) with ([tag e i] ++ (tag e <$> l)) in F |- *.
  rewrite app_assoc in F |- *. destruct (IH b1 _ H1 F) as (b2 & E2 & H2 & F2 & C2 & I2).
  exists b2. cbn [foldR]. rewrite E. cbn [mbind result_bind]. split_and!; [done|done|congruence..].
Qed.

(** The rows of a builder once its current entity is flushed. *)
Definition flushed (R : list IntervalRow) (b : CurrentProjectionBuilder) : list IntervalRow :=
  R ++ match pb_current b with Some e => tag e <$> sort_intervals (pb_intervals b) | None => [] end.
Lemma flush_holds b R : holds b R → fits (flushed R b) → (pb_current b = None → pb_intervals b = []) →
  ∃ b', builder_flush b = Ok b' ∧ holds b' (flushed R b) ∧ pb_floor b' = pb_floor b ∧
    pb_current b' = None ∧ pb_intervals b' = [].
Proof.
  unfold flushed, builder_flush. intros H F N. destruct (pb_current b) as [e|] eqn:C.
  - destruct (append_rows_hold e (sort_intervals (pb_intervals b)) (set_current b None []) R) as (b' & E & H' & Fl & Cu & In);
      [by destruct H|done|]. exists b'. by split_and!.
  - exists b. rewrite app_nil_r. split_and!; auto.
Qed.

(** What pushing the rows [given] builds. *)
Abbreviation PushedRow := (EntityId * Value * Z * Z)%type (only parsing).
Definition kept (floor : Z) (x : PushedRow) : bool := floor <? x.2.
Definition interval_row (x : PushedRow) : IntervalRow := let '(e, v, f, t) := x in (e, encode_value v, f, t).
Definition interval_of (x : PushedRow) : ProjectedInterval := let '(e, v, f, t) := x in interval_new v f t.
Definition push_row (b : CurrentProjectionBuilder) (x : PushedRow) : result CurrentProjectionBuilder :=
  let '(e, v, f, t) := x in builder_push b e v f t.

Lemma push_row_eq b x : push_row b x =
  if kept (pb_floor b) x then
    b ← (if match pb_current b with Some current => negb (current =? row_entity (interval_row x)) | None => false end
         then builder_flush b else Ok b);
    Ok (set_current b (Some (row_entity (interval_row x))) (pb_intervals b ++ [interval_of x]))
  else Ok b.
Proof.
  destruct x as [[[e v] f] t]. unfold push_row, builder_push, kept. cbn [snd]. rewrite Z.leb_antisym.
  by destruct (pb_floor b <? t).
Qed.

Definition built (floor : Z) (given : list PushedRow) (R : list IntervalRow) : Prop :=
  by_entity R ∧ ∀ e, rows_of e R =
    tag e <$> sort_intervals (interval_of <$> List.filter (λ x, kept floor x && of_e e (interval_row x)) given).

(** The rows the builder ends with, as a function of what it has and is given. *)
Abbreviation pushed_entity x := (row_entity (interval_row x)).
Definition current_rows (cur : option EntityId) (ivs : list ProjectedInterval) : list IntervalRow :=
  match cur with Some e => tag e <$> sort_intervals ivs | None => [] end.
Fixpoint gather_rows (floor : Z) (R : list IntervalRow) (cur : option EntityId) (ivs : list ProjectedInterval)
    (given : list PushedRow) : list IntervalRow :=
  match given with
  | [] => R ++ current_rows cur ivs
  | x :: given =>
    if kept floor x then
      if match cur with Some current => negb (current =? pushed_entity x) | None => false end
      then gather_rows floor (R ++ current_rows cur ivs) (Some (pushed_entity x)) [interval_of x] given
      else gather_rows floor R (Some (pushed_entity x)) (ivs ++ [interval_of x]) given
    else gather_rows floor R cur ivs given
  end.

Lemma gather_prefix floor given : ∀ R cur ivs, ∃ T, gather_rows floor R cur ivs given = R ++ T.
Proof.
  induction given as [|x given IH]; intros R cur ivs; cbn [gather_rows]; [by eexists|].
  destruct (kept floor x); [|apply IH]. destruct (match cur with Some _ => _ | None => _ end); [|apply IH].
  destruct (IH (R ++ current_rows cur ivs) (Some (pushed_entity x)) [interval_of x]) as [T ->].
  rewrite <-app_assoc. by eexists.
Qed.

Lemma push_rows_hold given : ∀ b R, holds b R → (pb_current b = None → pb_intervals b = []) →
  fits (gather_rows (pb_floor b) R (pb_current b) (pb_intervals b) given) →
  ∃ b' R', foldR push_row b given = Ok b' ∧ holds b' R' ∧ (pb_current b' = None → pb_intervals b' = []) ∧
    flushed R' b' = gather_rows (pb_floor b) R (pb_current b) (pb_intervals b) given.
Proof.
  induction given as [|x given IH]; intros b R H N F; [by exists b, R|]. cbn [foldR gather_rows] in *.
  rewrite push_row_eq. destruct (kept (pb_floor b) x) eqn:K; [|by apply IH].
  assert (∀ b1 R1, holds b1 R1 → pb_floor b1 = pb_floor b →
    holds (set_current b1 (Some (pushed_entity x)) (pb_intervals b1 ++ [interval_of x])) R1) as Hs by by intros b1 R1 [].
  destruct (match pb_current b with Some _ => _ | None => _ end).
  - destruct (gather_prefix (pb_floor b) given (R ++ current_rows (pb_current b) (pb_intervals b))
      (Some (pushed_entity x)) [interval_of x]) as [T E]. rewrite E in F.
    destruct (flush_holds b R H (fits_app _ _ F) N) as (b1 & -> & H1 & F1 & C1 & I1). cbn [mbind result_bind].
    destruct (IH _ _ (Hs b1 _ H1 F1)) as (b' & R' & E2 & H2 & N2 & E3); [done| |].
    { cbn. rewrite F1, I1. cbn [app]. change (flushed R b) with (R ++ current_rows (pb_current b) (pb_intervals b)). by rewrite E. }
    exists b', R'. cbn in E3. rewrite F1, I1 in E3. done.
  - cbn [mbind result_bind]. by apply (IH _ _ (Hs b R H eq_refl)).
Qed.

(** Rows given in entity order. *)
Definition pushed_in_order (given : list PushedRow) : Prop := StronglySorted (λ x y, pushed_entity x ≤ pushed_entity y) given.

Lemma rows_of_current e cur ivs : rows_of e (current_rows cur ivs) =
  if decide (cur = Some e) then tag e <$> sort_intervals ivs else [].
Proof.
  destruct cur as [e'|]; cbn [current_rows]; [|done]. case_decide as D.
  - injection D as ->. apply rows_of_all. by intros x (i & -> & _)%list_elem_of_fmap.
  - apply rows_of_none. intros x (i & -> & _)%list_elem_of_fmap. rewrite row_entity_tag. congruence.
Qed.

Lemma gather_rows_built floor given : ∀ R cur ivs, pushed_in_order given → by_entity R → (cur = None → R = [] ∧ ivs = []) →
  (∀ x e, x ∈ R → cur = Some e → row_entity x < e) → (∀ x e, x ∈ given → cur = Some e → e ≤ pushed_entity x) →
  by_entity (gather_rows floor R cur ivs given) ∧ ∀ e, rows_of e (gather_rows floor R cur ivs given) =
    rows_of e R ++ (tag e <$> sort_intervals ((if decide (cur = Some e) then ivs else []) ++
      (interval_of <$> List.filter (λ x, kept floor x && of_e e (interval_row x)) given))).
Proof.
  assert (∀ R cur ivs, by_entity R → (cur = None → R = [] ∧ ivs = []) → (∀ x e, x ∈ R → cur = Some e → row_entity x < e) →
    by_entity (R ++ current_rows cur ivs)) as Bc.
  { intros R cur ivs B N L. apply by_entity_app. split_and!; [done| |].
    - destruct cur as [e|]; [|constructor]. apply constant_by_entity with e. by intros x (i & -> & _)%list_elem_of_fmap.
    - intros x y X Y. destruct cur as [e|]; [|by apply elem_of_nil in Y]. apply list_elem_of_fmap in Y as (i & -> & _).
      specialize (L x e X eq_refl). rewrite row_entity_tag. lia. }
  induction given as [|x given IH]; intros R cur ivs S B N L G.
  { cbn [gather_rows]. split; [by apply Bc|]. intros e. rewrite List.filter_app, rows_of_current. f_equal.
    cbn. rewrite app_nil_r. by case_decide. }
  apply StronglySorted_inv in S as [S Fx]. rewrite Forall_forall in Fx. cbn [gather_rows List.filter].
  destruct (kept floor x) eqn:K; cbn [andb].
  2: { apply IH; [done..|]. intros y e Y. apply G. by right. }
  destruct cur as [e'|].
  - pose proof (G x e' ltac:(by left) eq_refl) as Ge. destruct (Z.eqb_spec e' (pushed_entity x)) as [->|Ne]; cbn [negb].
    + destruct (IH R (Some (pushed_entity x)) (ivs ++ [interval_of x])) as [B' E']; [done..| |].
      { intros y e Y [= <-]. by apply G; [right|]. }
      split; [done|]. intros e. rewrite E'. f_equal. unfold of_e at 2. cbn [fmap list_fmap].
      destruct (Z.eqb_spec (pushed_entity x) e) as [<-|Ne]; [|rewrite !decide_False by congruence; done].
      rewrite !decide_True by done. by rewrite <-app_assoc.
    + destruct (IH (R ++ current_rows (Some e') ivs) (Some (pushed_entity x)) [interval_of x]) as [B' E'];
        [done|by apply Bc|done| | |].
      { intros y e [Y|(i & -> & _)%list_elem_of_fmap]%elem_of_app [= <-]; [|rewrite row_entity_tag; lia].
        specialize (L y e' Y eq_refl). lia. }
      { intros y e Y [= <-]. by apply Fx. }
      split; [done|]. intros e. rewrite E', List.filter_app, rows_of_current, <-app_assoc. f_equal. unfold of_e at 2.
      destruct (Z.eqb_spec (pushed_entity x) e) as [<-|Nx].
      * rewrite (decide_True (P := Some (pushed_entity x) = Some (pushed_entity x))) by done.
        rewrite !(decide_False (P := Some e' = Some (pushed_entity x))) by congruence. done.
      * rewrite (decide_False (P := Some (pushed_entity x) = Some e)) by congruence. cbn [app]. case_decide as D; [|done].
        injection D as <-. assert (List.filter (λ x0, kept floor x0 && of_e e' (interval_row x0)) given = []) as ->; [|cbn; by rewrite !app_nil_r].
        apply elem_of_nil_inv. intros y [[_ Ey%Z.eqb_eq]%andb_prop Y]%elem_of_List_filter. specialize (Fx y Y). lia.
  - destruct (N eq_refl) as [-> ->]. cbn [app].
    destruct (IH [] (Some (pushed_entity x)) [interval_of x]) as [B' E']; [done|constructor|done|by intros ? ? ?%elem_of_nil| |].
    { intros y e Y [= <-]. by apply Fx. }
    split; [done|]. intros e. rewrite E'. cbn [List.filter app]. unfold of_e at 2.
    destruct (Z.eqb_spec (pushed_entity x) e) as [<-|Nx]; [by rewrite decide_True|by rewrite decide_False by congruence].
Qed.

(** Finished columns represent the rows. *)
Lemma column_holds_pushed vs : Forall i64_ok vs → column_holds (column_bytes (foldl column_push column_new vs)) vs.
Proof.
  intros F. destruct (decode_pushed vs column_new decoder_new in_step_new F) as (d & E & (Ep & _ & _) & Rn).
  exists d. split; [done|]. unfold decoder_finish. cbn in Rn. rewrite Rn, Nat.eqb_refl. cbn. by rewrite Ep, Nat.eqb_refl.
Qed.

Definition row_ok (x : IntervalRow) : Prop := i64_ok (row_from x) ∧ i64_ok (row_to x).

Lemma finish_holds b R : holds b R → fits R → by_entity R → Forall row_ok R →
  represents (mkCandidate (pb_attribute b) (pb_floor b) (pb_generation b) (pb_tx_count b) (pb_entities b)
    (pb_value_offsets b ++ [Z.of_nat (length (pb_value_bytes b))]) (pb_value_bytes b)
    (column_bytes (pb_from b)) (column_bytes (pb_to b)) []) R.
Proof.
  intros [He Ho Hb Hf Ht] F So O. split; cbn [entities valid_from_bytes valid_to_bytes]; [done|done| | |].
  - intros i x L. unfold base_value. cbn [value_offsets value_bytes]. rewrite Hb, Ho.
    assert (offsets 0 R ++ [Z.of_nat (length (payload R))] = offsets 0 (R ++ [(0, [], 0, 0)])) as -> by by rewrite offsets_app.
    assert (payload (take (S i) R) = payload (take i R) ++ row_bytes x) as Ps
      by (rewrite (take_S_r _ _ _ L), payload_app; cbn; by rewrite app_nil_r).
    rewrite (offsets_lookup _ 0 i x) by (by apply lookup_app_l_Some). cbn [ok_or mbind result_bind].
    pose proof (lookup_lt_Some _ _ _ L) as Lt.
    destruct (lookup_lt_is_Some_2 (R ++ [(0, [], 0, 0)]) (S i)) as [y Ly]; [rewrite length_app; cbn; lia|].
    rewrite (offsets_lookup _ 0 (S i) y Ly). cbn [ok_or mbind result_bind].
    rewrite !take_app_le, Ps by lia. rewrite !Z.add_0_l, !Nat2Z.id, length_app.
    rewrite <-(take_drop i R) at 1. rewrite (drop_S _ _ _ L), payload_app. cbn [payload flat_map].
    by rewrite get_range_app_mid.
  - rewrite Hf. apply column_holds_pushed. apply Forall_fmap. eapply Forall_impl; [exact O|]. by intros x [].
  - rewrite Ht. apply column_holds_pushed. apply Forall_fmap. eapply Forall_impl; [exact O|]. by intros x [].
Qed.

(** * Theorems *)

Definition build_projection (attribute : Attribute) (floor generation tx : Z) (given : list PushedRow)
    : result CurrentProjectionCandidate :=
  b ← foldR push_row (builder_new attribute floor generation tx) given;
  builder_finish b.

Definition projected_rows (floor : Z) (given : list PushedRow) : list IntervalRow := gather_rows floor [] None [] given.

Lemma projected_rows_built floor given : pushed_in_order given → built floor given (projected_rows floor given).
Proof.
  intros S. destruct (gather_rows_built floor given [] None [] S) as [B E];
    [constructor|done|by intros ? ? ?%elem_of_nil|done|]. split; [done|]. intros e. by rewrite E, decide_False.
Qed.

Lemma built_row_ok floor given R : built floor given R →
  Forall (λ x : PushedRow, i64_ok x.1.2 ∧ i64_ok x.2) given → Forall row_ok R.
Proof.
  intros [_ E] F. apply Forall_forall. intros x X.
  assert (x ∈ rows_of (row_entity x) R) as Y by (apply elem_of_List_filter; split; [apply Z.eqb_refl|done]).
  rewrite E in Y. apply list_elem_of_fmap in Y as (i & -> & I). unfold sort_intervals in I. rewrite merge_sort_Permutation in I.
  apply list_elem_of_fmap in I as ([[[e v] f] t] & -> & [_ J]%elem_of_List_filter). rewrite Forall_forall in F. by apply (F _ J).
Qed.

(** What identifies a projection. *)
Definition same_identity (b b' : CurrentProjectionBuilder) : Prop :=
  pb_attribute b' = pb_attribute b ∧ pb_floor b' = pb_floor b ∧ pb_generation b' = pb_generation b ∧ pb_tx_count b' = pb_tx_count b.
Lemma append_identity e l : ∀ b b', foldR (append_row e) b l = Ok b' → same_identity b b'.
Proof.
  induction l as [|i l IH]; intros b b'; cbn [foldR]; [by intros [= ->]|].
  destruct (append_row e b i) as [b1|] eqn:A; [|done]. unfold append_row in A.
  destruct (offset_of (pb_value_bytes b)); [|done]. injection A as <-. cbn [mbind result_bind]. intros E%IH. exact E.
Qed.
Lemma flush_identity b b' : builder_flush b = Ok b' → same_identity b b'.
Proof.
  unfold builder_flush. destruct (pb_current b); [|by intros [= ->]]. intros E%append_identity. exact E.
Qed.
Lemma push_identity given : ∀ b b', foldR push_row b given = Ok b' → same_identity b b'.
Proof.
  induction given as [|[[[e v] f] t] given IH]; intros b b'; cbn [foldR]; [by intros [= ->]|].
  change (push_row b (e, v, f, t)) with (builder_push b e v f t). unfold builder_push. destruct (t <=? pb_floor b); [apply IH|].
  destruct (match pb_current b with Some _ => _ | None => _ end); cbn [mbind result_bind]; [|intros E%IH; exact E].
  destruct (builder_flush b) as [b1|] eqn:E1; [|done]. cbn [mbind result_bind]. apply flush_identity in E1 as (? & ? & ? & ?).
  intros (? & ? & ? & ?)%IH. cbn in *. split_and!; congruence.
Qed.

Lemma build_represents attribute floor generation tx given :
  pushed_in_order given → Forall (λ x : PushedRow, i64_ok x.1.2 ∧ i64_ok x.2) given →
  fits (projected_rows floor given) →
  ∃ c, build_projection attribute floor generation tx given = Ok c ∧ represents c (projected_rows floor given) ∧
    overlay c = [] ∧ cp_attribute c = attribute ∧ valid_time_floor c = floor ∧ cp_generation c = generation ∧ cp_tx_count c = tx.
Proof.
  intros S F Fi. destruct (projected_rows_built floor given S) as [B Eb].
  assert (holds (builder_new attribute floor generation tx) []) as H0 by by split.
  destruct (push_rows_hold given _ [] H0 ltac:(done) Fi) as (b & R & E & H & N & Er). cbn in Er.
  destruct (flush_holds b R H) as (b' & Ef & H' & _); [by rewrite Er|done|]. rewrite Er in H'.
  fold (projected_rows floor given) in *. unfold build_projection, builder_finish. rewrite E. cbn [mbind result_bind].
  rewrite Ef. cbn [mbind result_bind]. unfold offset_of. rewrite (hd_bytes _ _ H'), (proj2 (Z.leb_le _ _) Fi).
  cbn [mbind result_bind]. apply push_identity in E as (? & ? & ? & ?). apply flush_identity in Ef as (? & ? & ? & ?).
  cbn in *. eexists. split; [done|]. split; [|cbn; split_and!; congruence]. rewrite <-(hd_bytes _ _ H').
  apply finish_holds; [done..|]. eapply built_row_ok; [by split|done].
Qed.

(** Replacing entities keeps what the columns hold. *)
Lemma replace_represents c R e l : represents c R → represents (replace_entity c e l) R.
Proof. by intros []. Qed.
Lemma replace_overlay_ok c e l : strictly_ascending (overlay c) → strictly_ascending (overlay (replace_entity c e l)).
Proof. apply bt_insert_ascending. Qed.

Definition replace_all (c : CurrentProjectionCandidate) (rs : list (EntityId * list ProjectedInterval)) : CurrentProjectionCandidate :=
  foldl (λ c '(e, l), replace_entity c e l) c rs.

Lemma replace_all_ok rs : ∀ c R, represents c R → strictly_ascending (overlay c) →
  represents (replace_all c rs) R ∧ strictly_ascending (overlay (replace_all c rs)).
Proof.
  induction rs as [|[e l] rs IH]; intros c R Re As; [done|]. apply IH; [by apply replace_represents|by apply replace_overlay_ok].
Qed.

(** The last replacement of an entity counts. *)
Definition latest (rs : list (EntityId * list ProjectedInterval)) (e : EntityId) : option (list ProjectedInterval) :=
  foldl (λ o '(e', l), if e' =? e then Some (sort_intervals l) else o) None rs.
Lemma replace_all_get rs e : ∀ c, bt_get e (overlay (replace_all c rs)) =
  match latest rs e with Some l => Some l | None => bt_get e (overlay c) end.
Proof.
  unfold latest. induction rs as [|[e' l] rs IH] using rev_ind; intros c; [done|].
  unfold replace_all in *. rewrite !foldl_app. cbn [foldl]. cbn [replace_entity overlay]. rewrite bt_get_insert, IH.
  destruct (Z.eqb_spec e' e) as [->|N]; [by rewrite cmp_refl|].
  destruct (cmp e e') eqn:C; [|done..]. by apply cmp_eq in C.
Qed.

(** C35: a projection built from rows in entity order and then updated entity by entity
    visits, in entity order, the rows of every entity's last replacement, and of every
    other entity the rows it was built from that end after the floor, in the order of
    value and window; whatever the visitor does.  Building fails only when the encoded
    values exceed the 32-bit offsets. *)
Theorem projection_visits_rows attribute floor generation tx given rs :
  pushed_in_order given → Forall (λ x : PushedRow, i64_ok x.1.2 ∧ i64_ok x.2) given →
  fits (projected_rows floor given) →
  ∃ c M, build_projection attribute floor generation tx given = Ok c ∧ by_entity M ∧
    (∀ e, rows_of e M = tag e <$> match latest rs e with
       | Some l => l
       | None => sort_intervals (interval_of <$> List.filter (λ x, kept floor x && of_e e (interval_row x)) given)
       end) ∧
    ∀ S (visit : S → IntervalRow → result S) x, visit_merged_encoded (replace_all c rs) visit x = foldR visit x M.
Proof.
  intros So F Fi. destruct (build_represents attribute floor generation tx given So F Fi) as (c & E & Re & Ov & _).
  destruct (replace_all_ok rs c _ Re) as [Re' As]; [rewrite Ov; constructor|].
  destruct (visit_merged (S := unit) (replace_all c rs) (λ _ _, Ok tt) _ Re' As) as (M & Me & _).
  exists c, M. split_and!; [done|apply Me| |].
  - intros e. destruct Me as [_ ->]. unfold merged_row. rewrite replace_all_get, Ov. cbn [bt_get].
    destruct (latest rs e) as [l|]; [done|]. apply projected_rows_built, So.
  - intros S visit x. destruct (visit_merged (replace_all c rs) visit _ Re' As) as (M' & Me' & ->).
    by rewrite (merges_unique _ _ _ _ Me Me').
Qed.

Lemma projection_visits_rows_witness :
  ∃ c, build_projection ":age" 100 1 1 [(1, VInteger 3, 0, 50); (1, VInteger 2, 0, 500); (2, VInteger 7, 0, 500)] = Ok c ∧
  visit_merged_encoded (replace_all c [(2, [interval_new (VInteger 8) 5 600])]) (λ l x, Ok (l ++ [x])) [] =
  Ok [(1, encode_value (VInteger 2), 0, 500); (2, encode_value (VInteger 8), 5, 600)].
Proof.
  destruct (projection_visits_rows ":age" 100 1 1
    [(1, VInteger 3, 0, 50); (1, VInteger 2, 0, 500); (2, VInteger 7, 0, 500)] [(2, [interval_new (VInteger 8) 5 600])])
    as (c & M & E & _ & _ & V).
  - repeat constructor; vm_compute; discriminate.
  - do 3 (apply Forall_cons; split; [split; cbn; ilia|]). by apply Forall_nil.
  - by vm_compute.
  - exists c. split; [done|]. rewrite V. specialize (V _ (λ l x, Ok (l ++ [x])) []).
    vm_compute in E. injection E as <-. rewrite <-V. by vm_compute.
Defined.

(** ** Validated columns *)

Lemma ascending_sorted l : ascending l = true → StronglySorted Z.le l.
Proof.
  intros A. apply Sorted_StronglySorted; [intros ???; lia|]. induction l as [|x l IH]; [constructor|].
  destruct l as [|y l]; [repeat constructor|]. cbn in A. apply andb_prop in A as [L A]. constructor; [by apply IH|].
  constructor. lia.
Qed.


(** The values between consecutive offsets. *)
Lemma validate_values_ranges bs offs n : validate_values bs offs = Ok tt → length offs = (n + 1)%nat → ∃ vs,
  length vs = n ∧ ∀ i v, vs !! i = Some v → validate_encoded_value v = Ok tt ∧
    ∃ a b, offs !! i = Some a ∧ offs !! S i = Some b ∧ get_range bs (Z.to_nat a) (Z.to_nat b) = Some v.
Proof.
  revert n; induction offs as [|a offs IH]; intros n V L; [cbn in L; lia|].
  destruct offs as [|b offs]; [exists []; split; [cbn in L |- *; lia|done]|].
  cbn [validate_values] in V. destruct (get_range bs (Z.to_nat a) (Z.to_nat b)) as [v|] eqn:G; [|done]. cbn [ok_or mbind result_bind] in V.
  destruct (validate_encoded_value v) as [[]|] eqn:Ve; [|done]. cbn [mbind result_bind] in V.
  destruct n as [|n]; [cbn in L; lia|]. destruct (IH n V) as (vs & Lv & Hv); [cbn in L |- *; lia|].
  exists (v :: vs). split; [cbn; lia|]. intros [|i] w Lw; cbn in Lw; [injection Lw as <-; eauto 10|].
  destruct (Hv i w Lw) as (H1 & a' & b' & H2 & H3 & H4). eauto 10.
Qed.

Lemma validate_rows_decode fb tb floor n : ∀ f t f' t', validate_rows fb tb floor n f t = Ok (f', t') → ∃ fs ts,
  length fs = n ∧ length ts = n ∧ decode_all fb n f = Ok (fs, f') ∧ decode_all tb n t = Ok (ts, t') ∧
  ∀ i a b, fs !! i = Some a → ts !! i = Some b → a < b ∧ floor < b.
Proof.
  induction n as [|n IH]; intros f t f' t' V; cbn [validate_rows decode_all] in *.
  { injection V as -> ->. by exists [], []. }
  destruct (decoder_next fb f) as [[a f1]|]; [|done]. cbn [mbind result_bind] in *.
  destruct (decoder_next tb t) as [[b t1]|]; [|done]. cbn [mbind result_bind] in *.
  unfold validate_temporal_row in V. destruct (Z.leb_spec b a); [done|]. destruct (Z.leb_spec b floor); [done|]. cbn [mbind result_bind] in V.
  destruct (IH f1 t1 f' t' V) as (fs & ts & Lf & Lt & -> & -> & H'). exists (a :: fs), (b :: ts). cbn.
  split_and!; [lia|lia|done|done|]. intros [|i] x y X Y; [|by eapply H']. cbn in X, Y. by simplify_eq.
Qed.

(** Four columns as rows. *)
Definition join_rows (es : list EntityId) (vs : list bytes) (fs ts : list Z) : list IntervalRow :=
  zip_with (λ '(e, v) '(f, t), (e, v, f, t)) (zip es vs) (zip fs ts).
Lemma join_rows_columns es : ∀ vs fs ts, length vs = length es → length fs = length es → length ts = length es →
  row_entity <$> join_rows es vs fs ts = es ∧ (λ x : IntervalRow, row_bytes x) <$> join_rows es vs fs ts = vs ∧
  (λ x : IntervalRow, row_from x) <$> join_rows es vs fs ts = fs ∧ (λ x : IntervalRow, row_to x) <$> join_rows es vs fs ts = ts.
Proof.
  induction es as [|e es IH]; intros [|v vs] [|f fs] [|t ts] Lv Lf Lt; try done.
  destruct (IH vs fs ts) as (E1 & E2 & E3 & E4); [by injection Lv|by injection Lf|by injection Lt|].
  unfold join_rows in *. cbn. rewrite E1, E2, E3, E4. done.
Qed.
Lemma fmap_lookup {A B} (g : A → B) (l : list A) k (i : nat) x : g <$> l = k → l !! i = Some x → k !! i = Some (g x).
Proof. intros <- L. by rewrite list_lookup_fmap, L. Qed.

(** Columns that pass validation can always be read.  When [from_encoded_columns]
    accepts them, every visit succeeds as far as the visitor does, and yields one row
    per entity in order, whose value is a well-formed encoding and whose window is not
    empty and ends after the floor; columns read back from disk cannot make a query
    fail later. *)
Theorem validated_columns_readable cols c : from_encoded_columns cols = Ok c →
  ∃ R, row_entity <$> R = ec_entities cols ∧
    Forall (λ x : IntervalRow, validate_encoded_value (row_bytes x) = Ok tt ∧ row_from x < row_to x ∧ ec_floor cols < row_to x) R ∧
    ∀ S (visit : S → IntervalRow → result S) x, visit_merged_encoded c visit x = foldR visit x R.
Proof.
  destruct cols as [attr floor gen tx es offs vb fb tb]. unfold from_encoded_columns. intros E.
  apply bind_Ok in E as ([] & As%ensure_Ok & E). apply bind_Ok in E as ([] & Lo%ensure_Ok & E).
  do 3 apply bind_Ok in E as ([] & _ & E).
  apply bind_Ok in E as ([] & Vv & E). apply bind_Ok in E as ([] & Vt & [= <-]). apply Nat.eqb_eq in Lo.
  destruct (validate_values_ranges vb offs _ Vv Lo) as (vs & Lv & Hv). unfold validate_temporal_columns in Vt.
  apply bind_Ok in Vt as ([f' t'] & Vr & Vt). apply bind_Ok in Vt as ([] & Ff & Ft).
  destruct (validate_rows_decode fb tb floor _ _ _ f' t' Vr) as (fs & ts & Lf & Lt & Df & Dt & Hw).
  destruct (join_rows_columns es vs fs ts Lv Lf Lt) as (Ee & Ev & Ef & Et). set (R := join_rows es vs fs ts) in *.
  set (c := mkCandidate attr floor gen tx es offs vb fb tb []). exists R.
  assert (represents c R) as Re.
  { split; [done| | | |].
    - apply ascending_sorted in As. rewrite <-Ee in As. clear -As. induction R as [|x l IH]; [constructor|].
      cbn in As. apply StronglySorted_inv in As as [As F]. constructor; [by apply IH|]. exact (proj1 (Forall_fmap row_entity _ l) F).
    - intros i x L. destruct (Hv i _ (fmap_lookup _ _ _ _ _ Ev L)) as (_ & a & b & La & Lb & G).
      unfold base_value. cbn [value_offsets value_bytes c]. rewrite La, Lb. cbn. by rewrite G.
    - exists f'. rewrite Ef, Lf. by split.
    - exists t'. rewrite Et, Lt. by split. }
  split_and!; [done| |].
  - apply Forall_lookup. intros i x L. destruct (Hv i _ (fmap_lookup _ _ _ _ _ Ev L)) as (Vx & _). split; [done|].
    exact (Hw i _ _ (fmap_lookup _ _ _ _ _ Ef L) (fmap_lookup _ _ _ _ _ Et L)).
  - intros S visit x. destruct (visit_merged c visit R Re) as (M & [Sm Em] & ->); [constructor|].
    by rewrite (by_entity_unique M R Sm (rp_sorted _ _ Re) Em).
Qed.

(** The columns of a candidate, as they are written out. *)
Definition columns_of (c : CurrentProjectionCandidate) : EncodedProjectionColumns :=
  mkColumns (cp_attribute c) (valid_time_floor c) (cp_generation c) (cp_tx_count c) (entities c) (value_offsets c)
    (value_bytes c) (valid_from_bytes c) (valid_to_bytes c).

Lemma validated_columns_readable_witness : ∃ c c',
  build_projection ":age" 100 1 1 [(1, VInteger 2, 0, 500); (2, VInteger 7, 0, 500)] = Ok c ∧
  from_encoded_columns (columns_of c) = Ok c' ∧
  ∃ R, row_entity <$> R = [1; 2] ∧ visit_merged_encoded c' (λ l x, Ok (l ++ [x])) [] = Ok R.
Proof.
  destruct (build_projection ":age" 100 1 1 [(1, VInteger 2, 0, 500); (2, VInteger 7, 0, 500)]) as [c|er] eqn:E; [|by vm_compute in E].
  destruct (from_encoded_columns (columns_of c)) as [c'|er] eqn:F; [|vm_compute in E; injection E as <-; by vm_compute in F].
  exists c, c'. split_and!; [done..|]. destruct (validated_columns_readable _ _ F) as (R & Ee & _ & V). exists R.
  rewrite V. rewrite foldR_collect. split; [|done]. rewrite Ee. vm_compute in E. injection E as <-. done.
Defined.

(** A window that is empty but ends after the floor is built into columns that
    validation then rejects. *)
Example inverted_window_rejected : ∃ c,
  build_projection ":age" 100 1 1 [(1, VInteger 2, 600, 500)] = Ok c ∧
  is_ok (from_encoded_columns (columns_of c)) = false.
Proof. eexists. split; [by vm_compute|by vm_compute]. Qed.
