(* ===== verification/ProjectionRefresh.v ===== *)
(** Building and refreshing current projections from the ledger
    (src/src/graph/storage.rs and src/src/graph/current_projection.rs): the full
    build through the attribute cursor, the refresh that recomputes the entities
    touched since the projection's transaction, and the resident tail overlay
    above a persisted projection with its one-entry cache.

    The theorems say that a refreshed projection has the rows of a rebuilt one. *)
From S2P Require Import Prelude Types ValueCodec NetView SortedRuns Index PendingOverlay FactStore Lookup MergeScan CurrentState IndexScan Cursors EntityCursors Columns Projection.

(** * Definitions *)

Definition current_projection_watermark (s : FactStorage) : Z * Z := (publication_generation s, current_tx_count s).

(** The ledger may be written to while a projection is computed from the view [s]:
    [later] is the watermark found afterwards. *)
Definition build_current_projection_candidate (s : FactStorage) (later : Z * Z) (attribute : Attribute)
    (valid_time_floor : Z) : result CurrentProjectionCandidate :=
  let '(generation, tx) := current_projection_watermark s in
  b ← visit_current_attribute_intervals s attribute (λ b '(e, v, valid_from, valid_to), builder_push b e v valid_from valid_to)
        (builder_new attribute valid_time_floor generation tx);
  if bool_decide (later = (generation, tx)) then builder_finish b
  else Err "current projection publication changed during rebuild".

(** [BTreeSet::insert] *)
Definition touch (touched : list (EntityId * unit)) (e : EntityId) : list (EntityId * unit) := bt_insert e tt touched.

Section with_order.
(** The iteration order of the windows of a value. *)
Context (window_order : gmap (Z * Z) (Z * CursorFactRef) → list ((Z * Z) * (Z * CursorFactRef))).

Definition push_interval (floor : Z) (l : list ProjectedInterval) (x : Value * Z * Z) : result (list ProjectedInterval) :=
  let '(v, valid_from, valid_to) := x in
  if floor <? valid_to then Ok (l ++ [interval_new v valid_from valid_to]) else Ok l.

(** The loop of unbounded steps; the first one completes. *)
Fixpoint entity_until_complete (fuel : nat) (s : FactStorage) (floor : Z) (c : CurrentEntityAttributeCursor)
    (l : list ProjectedInterval) : result (list ProjectedInterval) :=
  match fuel with
  | O => Err "fuel"
  | S fuel =>
    '(c, l, st) ← step_current_entity_attribute_interval_cursor s (push_interval floor) window_order c usize_MAX l;
    match st with Complete _ => Ok l | Yielded _ => entity_until_complete fuel s floor c l end
  end.

Definition entity_intervals (s : FactStorage) (attribute : Attribute) (floor : Z) (e : EntityId)
    : result (EntityId * list ProjectedInterval) :=
  c ← current_entity_attribute_cursor s e attribute None Any;
  l ← entity_until_complete 1 s floor (emit_each c) [];
  Ok (e, l).

Definition refresh_current_projection_candidate (s : FactStorage) (later1 later2 : Z * Z) (c : CurrentProjectionCandidate)
    : result CurrentProjectionCandidate :=
  let '(generation, tx) := current_projection_watermark s in
  if tx <? cp_tx_count c then Err "current projection transaction watermark is ahead of the ledger"
  else
    touched ← for_each_fact_since s (cp_tx_count c) (λ touched f,
      Ok (if bool_decide (attribute f = cp_attribute c) then touch touched (entity f) else touched)) [];
    _ ← ensure (bool_decide (later1 = (generation, tx))) "current projection publication changed while reading the ledger tail";
    replacements ← mapR (entity_intervals s (cp_attribute c) (valid_time_floor c)) touched.*1;
    _ ← ensure (bool_decide (later2 = (generation, tx))) "current projection publication changed during entity refresh";
    Ok (set_watermark (replace_all c replacements) generation tx).

Definition validate_current_projection_candidate (s : FactStorage) (c : CurrentProjectionCandidate) : result unit :=
  let '(generation, tx) := current_projection_watermark s in
  ensure ((cp_generation c =? generation) && (cp_tx_count c =? tx)) "current projection candidate is stale".

(** ** The resident tail *)

Definition CURRENT_PROJECTION_TAIL_MAX_FACTS : Z := 65536.
Definition CURRENT_PROJECTION_TAIL_MAX_HISTORY : Z := 65536.
Definition CURRENT_PROJECTION_TAIL_MAX_BYTES : Z := 8 * 1024 * 1024.
Definition CURRENT_PROJECTION_TAIL_MAX_REPLACEMENTS : Z := 65536.

Record ProjectionLedgerIdentity : Type := mkIdentity { base_generation : Z; manifest_generation : Z; id_tx_count : Z }.
#[export] Instance ProjectionLedgerIdentity_eq_dec : EqDecision ProjectionLedgerIdentity.
Proof using. solve_decision. Defined.

Record CurrentProjectionTailOverlay : Type := mkTail {
  t_identity : ProjectionLedgerIdentity;
  t_attribute : Attribute;
  t_floor : Z;
  t_tx_count : Z;
  t_replacements : list (EntityId * list ProjectedInterval);
  t_accounted_bytes : Z;
}.
Definition tail_new (identity : ProjectionLedgerIdentity) (attribute : Attribute) (floor : Z) : CurrentProjectionTailOverlay :=
  mkTail identity attribute floor (id_tx_count identity) [] (Z.of_nat (length (as_bytes attribute))).
Definition tail_matches (o : CurrentProjectionTailOverlay) (identity : ProjectionLedgerIdentity) (attribute : Attribute)
    (floor : Z) : bool :=
  bool_decide (t_identity o = identity) && bool_decide (t_attribute o = attribute) && (t_floor o =? floor).
Definition contains_entity (o : CurrentProjectionTailOverlay) (e : EntityId) : bool :=
  bool_decide (is_Some (bt_get e (t_replacements o))).
Definition replacement_rows (o : CurrentProjectionTailOverlay) : Z :=
  foldr (λ '(_, l) n, Z.of_nat (length l) + n) 0 (t_replacements o).

(** The bytes charged for a tail; they depend on what the allocator reserves. *)
Context (charged : Attribute → list (EntityId * list ProjectedInterval) → Z).

(** The flag says whether the replacements were admitted; a tail over its byte
    budget keeps the rows but not the transaction count. *)
Definition install (o : CurrentProjectionTailOverlay) (tx : Z) (replacements : list (EntityId * list ProjectedInterval))
    : CurrentProjectionTailOverlay * bool :=
  let next := foldl (λ m '(e, l), bt_insert e (sort_intervals l) m) [] replacements in
  let new_entities := Z.of_nat (length (List.filter (λ '(e, _), negb (contains_entity o e)) next)) in
  if CURRENT_PROJECTION_TAIL_MAX_REPLACEMENTS <? sat_add_u64 (Z.of_nat (length (t_replacements o))) new_entities
  then (o, false)
  else
    let merged := foldl (λ m '(e, l), bt_insert e l m) (t_replacements o) next in
    let bytes := charged (t_attribute o) merged in
    if CURRENT_PROJECTION_TAIL_MAX_BYTES <? bytes
    then (mkTail (t_identity o) (t_attribute o) (t_floor o) (t_tx_count o) merged (t_accounted_bytes o), false)
    else (mkTail (t_identity o) (t_attribute o) (t_floor o) tx merged bytes, true).

Definition visit_at {S} (o : CurrentProjectionTailOverlay) (valid_at : Z) (visit : S → EntityId * bytes → result S) (x : S)
    : result (S * Z) :=
  foldR (λ '(x, rows) '(e, entry),
    foldR (λ '(x, rows) i,
      x ← (if interval_contains (iv_from i) (iv_to i) valid_at then visit x (e, iv_value i) else Ok x);
      Ok (x, sat_add_u64 rows 1)) (x, rows) entry) (x, 0) (t_replacements o).

Inductive CurrentProjectionTailRefresh : Type :=
| Ready (tail_facts touched_entities history_entries : Z)
| OverBudget.

Definition TAIL_BUDGET : string := "current projection resident tail fact budget".
(** The visitor over the tail: facts counted and entities touched. *)
Definition visit_tail (attr : Attribute) (target : Z) (a : Z * list (EntityId * unit)) (f : Fact)
    : result (Z * list (EntityId * unit)) :=
  let '(tail_facts, touched) := a in
  if target <? tx_count f then Ok a
  else
    let tail_facts := sat_add_u64 tail_facts 1 in
    if CURRENT_PROJECTION_TAIL_MAX_FACTS <? tail_facts then Err TAIL_BUDGET
    else Ok (tail_facts, if bool_decide (attribute f = attr) then touch touched (entity f) else touched).

(** The steps of one entity within what is left of the history budget.  A step
    completes or uses up the budget, so two rounds are enough; [None] is over budget. *)
Fixpoint tail_entity_steps (fuel : nat) (s : FactStorage) (floor : Z) (c : CurrentEntityAttributeCursor)
    (l : list ProjectedInterval) (history : Z) : result (option (list ProjectedInterval * Z)) :=
  match fuel with
  | O => Ok None
  | S fuel =>
    let remaining := sat_sub_u64 CURRENT_PROJECTION_TAIL_MAX_HISTORY history in
    if remaining =? 0 then Ok None
    else
      '(c, l, st) ← step_current_entity_attribute_interval_cursor s (push_interval floor) window_order c remaining l;
      match st with
      | Complete n => Ok (Some (l, sat_add_u64 history n))
      | Yielded n => tail_entity_steps fuel s floor c l (sat_add_u64 history n)
      end
  end.

(** An error of the cursor other than its bound is passed on. *)
Definition tail_entity (s : FactStorage) (o : CurrentProjectionTailOverlay) (target : Z) (history : Z) (e : EntityId)
    : result (option (list ProjectedInterval * Z)) :=
  match current_entity_attribute_cursor s e (t_attribute o) (Some (AsOfCounter target)) Any with
  | Err error => if String.index 0 "history work exceeds" error is Some _ then Ok None else Err error
  | Ok c => tail_entity_steps 2 s (t_floor o) (emit_each c) [] history
  end.

Fixpoint tail_replacements (s : FactStorage) (o : CurrentProjectionTailOverlay) (target : Z) (history : Z)
    (touched : list EntityId) : result (option (list (EntityId * list ProjectedInterval) * Z)) :=
  match touched with
  | [] => Ok (Some ([], history))
  | e :: touched =>
    r ← tail_entity s o target history e;
    match r with
    | None => Ok None
    | Some (l, history) =>
      rest ← tail_replacements s o target history touched;
      Ok ('(rs, history) ← rest; Some ((e, l) :: rs, history))
    end
  end.

Definition refresh_current_projection_tail_overlay (s : FactStorage) (later1 later2 : Z * Z)
    (o : CurrentProjectionTailOverlay) (target : Z) : result (CurrentProjectionTailOverlay * CurrentProjectionTailRefresh) :=
  if target <? t_tx_count o then Err "current projection resident tail is ahead of the read view"
  else if t_tx_count o =? target then Ok (o, Ready 0 0 0)
  else
    let '(generation, tx) := current_projection_watermark s in
    if negb (target =? tx) then Err "current projection resident tail requires the current read watermark"
    else
      match for_each_fact_since s (t_tx_count o) (visit_tail (t_attribute o) target) (0, []) with
      | Err error => if bool_decide (error = TAIL_BUDGET) then Ok (o, OverBudget) else Err error
      | Ok (tail_facts, touched) =>
        _ ← ensure (bool_decide (later1 = (generation, tx)))
              "current projection publication changed while reading the resident tail";
        replaced ← tail_replacements s o target 0 touched.*1;
        match replaced with
        | None => Ok (o, OverBudget)
        | Some (replacements, history) =>
          _ ← ensure (bool_decide (later2 = (generation, tx)))
                "current projection publication changed during resident tail refresh";
          let '(o', admitted) := install o target replacements in
          Ok (o', if admitted : bool then Ready tail_facts (Z.of_nat (length touched)) history else OverBudget)
        end
      end.

(** ** The cache of one tail *)

Record CurrentProjectionTailCache : Type := mkCache {
  cached : option CurrentProjectionTailOverlay;
  rejected : option (ProjectionLedgerIdentity * Attribute * Z * Z);
}.
Definition cache_default : CurrentProjectionTailCache := mkCache None None.
Definition cache_clear (c : CurrentProjectionTailCache) : CurrentProjectionTailCache := mkCache None None.

(** [None] is [OverBudget]; a refresh error leaves the cache as it was. *)
Definition cache_prepare (c : CurrentProjectionTailCache) (s : FactStorage) (later1 later2 : Z * Z)
    (identity : ProjectionLedgerIdentity) (attribute : Attribute) (floor target : Z)
    : CurrentProjectionTailCache * result (option CurrentProjectionTailOverlay) :=
  if bool_decide (rejected c = Some (identity, attribute, floor, target)) then (c, Ok None)
  else
    let hit := match cached c with
               | Some o => if tail_matches o identity attribute floor && (t_tx_count o =? target) then Some o else None
               | None => None
               end in
    match hit with
    | Some o => (c, Ok (Some o))
    | None =>
      let next := match cached c with
                  | Some o => if tail_matches o identity attribute floor then o else tail_new identity attribute floor
                  | None => tail_new identity attribute floor
                  end in
      match refresh_current_projection_tail_overlay s later1 later2 next target with
      | Err error => (c, Err error)
      | Ok (next, Ready _ _ _) => (mkCache (Some next) None, Ok (Some next))
      | Ok (_, OverBudget) => (mkCache (cached c) (Some (identity, attribute, floor, target)), Ok None)
      end
    end.
End with_order.

(** * The projection of a ledger *)

Definition of_attribute (a : Attribute) (f : Fact) : bool := bool_decide (attribute f = a).
(** The net rows of the attribute that end after the floor. *)
Definition projection (floor : Z) (a : Attribute) (log : list Fact) : list IntervalRow :=
  interval_row <$> List.filter (kept floor) (net_rows Any (List.filter (of_attribute a) log)).

Definition value_entity (x : ValueRow) : EntityId := x.1.1.1.
Lemma value_entity_row f : value_entity (fact_row f) = entity f.
Proof. done. Qed.
Lemma pushed_value_entity x : pushed_entity x = value_entity x.
Proof. by destruct x as [[[? ?] ?] ?]. Qed.

Lemma visible_entity facts e f :
  visible (List.filter (λ g, entity g =? e) facts) f ↔ visible facts f ∧ entity f = e.
Proof.
  assert (∀ g, cancels g f = true → entity g = entity f) as C.
  { intros g. unfold cancels, window_key, eav_key. destruct (asserted g); [done|]. cbn.
    destruct (is_unscoped_window _ _); rewrite bool_decide_eq_true; by intros [=]. }
  unfold visible. setoid_rewrite elem_of_List_filter. setoid_rewrite Z.eqb_eq. split.
  - intros ([Ee I] & A & P & X). split_and!; [done..| |done]. intros g G Cg. apply X; [|done]. split; [|done].
    rewrite (C g Cg). done.
  - intros ((I & A & P & X) & Ee). split_and!; [done..|]. intros g [_ G]. by apply X.
Qed.

Lemma strictly_by_filter {A K} `{Ord K} (key : A → K) p l : strictly_by key l → strictly_by key (List.filter p l).
Proof. apply StronglySorted_filter_bool. Qed.

(** The net rows of one entity depend on its facts only. *)
Lemma net_rows_entity a vt facts e : plain_facts a facts →
  List.filter (λ x, value_entity x =? e) (net_rows vt facts) = net_rows vt (List.filter (λ f, entity f =? e) facts).
Proof.
  intros Pf. assert (plain_facts a (List.filter (λ f, entity f =? e) facts)) as Pe.
  { destruct Pf as [Pa Po Pp]. split; intros f [_ I]%elem_of_List_filter; auto. }
  apply (shows_net a); [done|]. destruct (net_rows_show a vt facts Pf) as [S M]. split; [by apply strictly_by_filter|].
  intros x. rewrite elem_of_List_filter, M, Z.eqb_eq. setoid_rewrite visible_entity. split.
  - intros (Ee & f & Vf & Vd & ->). exists f. by split_and!.
  - intros (f & (Vf & Ee) & Vd & ->). split; [done|]. by exists f.
Qed.

Lemma net_rows_in_order a vt facts : plain_facts a facts → pushed_in_order (net_rows vt facts).
Proof.
  intros Pf. destruct (net_rows_show a vt facts Pf) as [S _]. unfold strictly_by, pushed_in_order in *.
  eapply StronglySorted_weaken; [|exact S]. intros [[[e v] f] t] [[[e' v'] f'] t'] _ _ E.
  rewrite !pushed_value_entity. apply le_ord_Z.
  assert (le_ord (e, (encode_value v, (f, t))) (e', (encode_value v', (f', t')))) as L by (unfold le_ord; unfold row_key in E; by rewrite E).
  exact (le_ord_fst _ _ _ _ L).
Qed.

(** The rows of one entity are in the order of their intervals already. *)
Lemma sorted_intervals vt a facts p e : plain_facts a facts → (∀ f, f ∈ facts → entity f = e) →
  sort_intervals (interval_of <$> List.filter p (net_rows vt facts)) = interval_of <$> List.filter p (net_rows vt facts).
Proof.
  intros Pf Ee. destruct (net_rows_show a vt facts Pf) as [S M].
  assert (∀ x, x ∈ net_rows vt facts → value_entity x = e) as Ve by (intros x (f & [I _] & _ & ->)%M; by apply Ee).
  assert (strictly_by interval_key (interval_of <$> List.filter p (net_rows vt facts))) as So.
  { apply (strictly_by_filter row_key p) in S.
    assert (∀ x, x ∈ List.filter p (net_rows vt facts) → value_entity x = e) as Vf
      by (intros x [_ X]%elem_of_List_filter; auto).
    clear -S Vf. induction S as [|x l S IH F]; [constructor|]. cbn. constructor; [apply IH; set_solver|].
    apply Forall_fmap, Forall_forall. intros y Y. rewrite Forall_forall in F. specialize (F y Y).
    pose proof (Vf x ltac:(by left)) as Ex. pose proof (Vf y ltac:(by right)) as Ey.
    destruct x as [[[e1 v1] f1] t1], y as [[[e2 v2] f2] t2]. unfold value_entity in *. cbn [fst] in *. subst.
    unfold row_key in F. rewrite cmp_pair_same in F. exact F. }
  apply (strictly_unique interval_key); [|done|].
  - apply (sort_strict interval_key (interval_of <$> List.filter p (net_rows vt facts))); [apply merge_sort_Permutation| |].
    + apply StronglySorted_merge_sort; [intros ???; apply transitivity|intros x y; apply (total le_ord (interval_key x))].
    + clear -So. induction So as [|x l S IH F]; [constructor|]. cbn. constructor; [|done].
      intros (y & E & Y)%list_elem_of_fmap. rewrite Forall_forall in F. specialize (F y Y). by rewrite E, cmp_refl in F.
  - intros x. unfold sort_intervals. by rewrite merge_sort_Permutation.
Qed.

Section one_attribute.
Context (log : list Fact) (a : Attribute) (floor : Z).
Hypothesis Ok_log : Forall fact_ok log.
Hypothesis plain : ∀ f, f ∈ log → attribute f = a → not_nan (value f).

Lemma attribute_plain : plain_facts a (List.filter (of_attribute a) log).
Proof using Ok_log plain.
  rewrite Forall_forall in Ok_log. split; intros f [E%bool_decide_eq_true I]%elem_of_List_filter; auto.
Qed.

(** The intervals of one entity. *)
Definition entity_projection (e : EntityId) : list ProjectedInterval :=
  interval_of <$> List.filter (kept floor) (net_rows Any (List.filter (of_entity e a) log)).

Lemma of_entity_filter e : List.filter (λ f, entity f =? e) (List.filter (of_attribute a) log) = List.filter (of_entity e a) log.
Proof using. rewrite <-List_filter_filter. apply List_filter_ext. intros f _. done. Qed.

Lemma interval_row_tag e x : value_entity x = e → interval_row x = tag e (interval_of x).
Proof using. destruct x as [[[? ?] ?] ?]. by intros <-. Qed.

Lemma projection_rows e : rows_of e (projection floor a log) = tag e <$> entity_projection e.
Proof using Ok_log plain.
  unfold projection, entity_projection. rewrite List_filter_fmap, <-List_filter_filter.
  assert (List.filter (λ x, of_e e (interval_row x) && kept floor x) (net_rows Any (List.filter (of_attribute a) log)) =
    List.filter (kept floor) (List.filter (λ x, value_entity x =? e) (net_rows Any (List.filter (of_attribute a) log)))) as ->.
  { rewrite <-List_filter_filter. apply List_filter_ext. intros x _. unfold of_e. rewrite pushed_value_entity. apply andb_comm. }
  rewrite (net_rows_entity a), of_entity_filter by apply attribute_plain. rewrite <-list_fmap_compose.
  apply list_fmap_ext. intros i x L%list_elem_of_lookup_2. apply interval_row_tag.
  apply elem_of_List_filter in L as [_ L]. rewrite <-of_entity_filter, <-(net_rows_entity a) in L by apply attribute_plain.
  by apply elem_of_List_filter in L as [->%Z.eqb_eq _].
Qed.

Lemma projection_by_entity : by_entity (projection floor a log).
Proof using Ok_log plain.
  pose proof (net_rows_in_order a Any _ attribute_plain) as S. unfold projection, by_entity.
  apply (StronglySorted_filter_bool _ (kept floor)) in S.
  induction S as [|x l S IH F]; [constructor|]. cbn. constructor; [done|]. apply Forall_fmap. exact F.
Qed.

Lemma entity_plain e : plain_facts a (List.filter (of_entity e a) log).
Proof using Ok_log plain.
  rewrite Forall_forall in Ok_log. split; intros f [[_ E]%of_entity_spec I]%elem_of_List_filter; auto.
Qed.

Lemma entity_projection_sorted e : sort_intervals (entity_projection e) = entity_projection e.
Proof using Ok_log plain.
  apply (sorted_intervals Any a _ _ e (entity_plain e)). by intros f [[? _]%of_entity_spec _]%elem_of_List_filter.
Qed.

(** What the builder makes of the net rows. *)
Lemma projected_net_rows : projected_rows floor (net_rows Any (List.filter (of_attribute a) log)) = projection floor a log.
Proof using Ok_log plain.
  destruct (projected_rows_built floor _ (net_rows_in_order a Any _ attribute_plain)) as [B E].
  apply by_entity_unique; [done|apply projection_by_entity|]. intros e. rewrite E, projection_rows. f_equal.
  rewrite <-entity_projection_sorted. f_equal. unfold entity_projection. f_equal.
  rewrite <-of_entity_filter, <-(net_rows_entity a) by apply attribute_plain. rewrite <-List_filter_filter.
  apply List_filter_ext. intros x _. unfold of_e. by rewrite pushed_value_entity.
Qed.

(** A projection in step with the ledger. *)
Definition projects (c : CurrentProjectionCandidate) : Prop :=
  cp_attribute c = a ∧ valid_time_floor c = floor ∧ strictly_ascending (overlay c) ∧
  ∃ R, represents c R ∧ merges R (overlay c) (projection floor a log).

Lemma projects_visit c S (visit : S → IntervalRow → result S) x : projects c →
  visit_merged_encoded c visit x = foldR visit x (projection floor a log).
Proof using.
  intros (_ & _ & As & R & Re & Me). destruct (visit_merged c visit R Re As) as (M & Me' & ->).
  by rewrite (merges_unique _ _ _ _ Me Me').
Qed.
End one_attribute.

(** * Reading the ledger *)

Definition upto (n : Z) (log : list Fact) : list Fact := List.filter (λ f, tx_count f <=? n) log.

Lemma upto_all n log : (∀ f, f ∈ log → tx_count f ≤ n) → upto n log = log.
Proof. intros L. apply List_filter_id. intros f I. specialize (L f I). lia. Qed.
Lemma upto_elem n log f : f ∈ upto n log ↔ tx_count f ≤ n ∧ f ∈ log.
Proof. unfold upto. by rewrite elem_of_List_filter, Z.leb_le. Qed.

Lemma upto_ok n log : Forall fact_ok log → Forall fact_ok (upto n log).
Proof. rewrite !Forall_forall. intros F f [_ I]%upto_elem. auto. Qed.

Lemma touch_all (p : Fact → bool) l : ∀ t, strictly_ascending t →
  ∃ t', foldR (λ t f, Ok (if p f then touch t (entity f) else t)) t l = Ok t' ∧ strictly_ascending t' ∧
    ∀ e, e ∈ t'.*1 ↔ e ∈ t.*1 ∨ ∃ f, f ∈ l ∧ p f = true ∧ entity f = e.
Proof.
  induction l as [|f l IH]; intros t A; cbn [foldR].
  { exists t. split_and!; [done..|]. intros e. split; [by left|]. intros [?|(f & F & _)]; [done|]. by apply elem_of_nil in F. }
  destruct (IH (if p f then touch t (entity f) else t)) as (t' & E & A' & M).
  { destruct (p f); [by apply bt_insert_ascending|done]. }
  exists t'. split_and!; [done..|]. intros e. rewrite M. setoid_rewrite elem_of_cons.
  destruct (p f) eqn:P; [unfold touch; rewrite bt_insert_dom|].
  - split.
    + intros [[->|X]|(g & G & X)]; [right; by exists f; auto|by left|right; exists g; auto].
    + intros [X|(g & [->|G] & Pg & <-)]; [auto..|]. right. by exists g.
  - split.
    + intros [X|(g & G & X)]; [by left|right; exists g; auto].
    + intros [X|(g & [->|G] & Pg & <-)]; [by left|congruence|]. right. by exists g.
Qed.

Lemma push_intervals floor rows : ∀ l,
  foldR (push_interval floor) l (row_window <$> rows) = Ok (l ++ (interval_of <$> List.filter (kept floor) rows)).
Proof.
  induction rows as [|[[[e v] f] t] rows IH]; intros l; cbn [fmap list_fmap foldR List.filter]; [by rewrite app_nil_r|].
  change (push_interval floor l (row_window (e, v, f, t))) with
    (if floor <? t then Ok (l ++ [interval_new v f t]) else Ok l).
  change (kept floor (e, v, f, t)) with (floor <? t). destruct (floor <? t); cbn [mbind result_bind]; rewrite IH; [|done].
  by rewrite <-app_assoc.
Qed.

Lemma bound_error : String.index 0 "history work exceeds" "current_entities history work exceeds the bound" = Some 17%nat.
Proof. reflexivity. Qed.

Lemma seen_none (l : list Fact) : List.filter (seen None) l = l.
Proof. by apply List_filter_id. Qed.

Lemma visit_tail_touches a target l : ∀ n t n' t', strictly_ascending t →
  foldR (visit_tail a target) (n, t) l = Ok (n', t') →
  strictly_ascending t' ∧ ∀ e, e ∈ t'.*1 ↔ e ∈ t.*1 ∨ ∃ f, f ∈ l ∧ tx_count f ≤ target ∧ of_entity e a f = true.
Proof.
  induction l as [|f l IH]; intros n t n' t' A; cbn [foldR].
  { intros [= <- <-]. split; [done|]. intros e. split; [by left|]. intros [?|(g & G & _)]; [done|]. by apply elem_of_nil in G. }
  destruct (visit_tail a target (n, t) f) as [[n1 t1]|] eqn:V; [|done]. cbn [mbind result_bind]. unfold visit_tail in V.
  destruct (Z.ltb_spec target (tx_count f)) as [Lt|Lt].
  { injection V as <- <-. intros E. apply IH in E as [A' M]; [|done]. split; [done|]. intros e. rewrite M. setoid_rewrite elem_of_cons.
    split; (intros [X|(g & G & X)]; [by left|right; exists g]); [auto|]. destruct G as [->|G]; [lia|auto]. }
  destruct (CURRENT_PROJECTION_TAIL_MAX_FACTS <? _); [done|]. injection V as _ Et1. intros E. apply IH in E as [A' M].
  2: { subst t1. case_bool_decide; [by apply bt_insert_ascending|done]. }
  split; [done|]. intros e. rewrite M. setoid_rewrite elem_of_cons.
  assert (e ∈ t1.*1 ↔ e ∈ t.*1 ∨ of_entity e a f = true) as ->.
  { subst t1. rewrite of_entity_spec. case_bool_decide as D; [unfold touch; rewrite bt_insert_dom|]; intuition congruence. }
  split.
  - intros [[X|X]|(g & G & X)]; [by left|right; exists f; auto|right; exists g; auto].
  - intros [X|(g & [->|G] & Lg & X)]; [auto..|]. right. by exists g.
Qed.

Lemma latest_upto log a floor es e : Forall fact_ok log → (∀ f, f ∈ log → attribute f = a → not_nan (value f)) →
  latest ((λ e, (e, entity_projection log a floor e)) <$> es) e =
  if bool_decide (e ∈ es) then Some (entity_projection log a floor e) else None.
Proof.
  intros Ok_log plain. unfold latest. rewrite foldl_fmap. induction es as [|e' es IH] using rev_ind; [done|]. rewrite foldl_app. cbn [foldl].
  rewrite IH. destruct (Z.eqb_spec e' e) as [->|N].
  - rewrite bool_decide_true by (apply elem_of_app; right; by left). by rewrite entity_projection_sorted.
  - assert (e ∈ es ++ [e'] ↔ e ∈ es) as Q by (rewrite elem_of_app, list_elem_of_singleton; split; [intros [?|?]; [done|congruence]|by left]).
    by rewrite (bool_decide_ext _ _ Q).
Qed.

Section refreshing.
Context (hasher : EavtKey → Z) (s : FactStorage) (log : list Fact) (rows : list (Fact * FactRef)).
Hypothesis Ok_s : store_ok hasher s log.
Hypothesis Ok_log : Forall fact_ok log.
Hypothesis backed : backed_by s rows.
Hypothesis capacity : Z.of_nat (length log) < usize_MAX.
Context (window_order : gmap (Z * Z) (Z * CursorFactRef) → list ((Z * Z) * (Z * CursorFactRef))).
Hypothesis order_ok : ∀ m, window_order m ≡ₚ map_to_list m.
Context (a : Attribute) (floor : Z).
Hypothesis plain : ∀ f, f ∈ log → attribute f = a → not_nan (value f).

(** More pending facts of one entity and attribute than a cursor admits. *)
Definition too_many (e : EntityId) : bool :=
  CURRENT_ENTITIES_MAX_HISTORY_ENTRIES <? Z.of_nat (length (List.filter (of_entity e a) (overlay_facts (pending s)))).

Lemma unbounded_entity c l out :
  drive_entity s (push_interval floor) window_order c l [usize_MAX] = (v ← out; Ok (v, true)) →
  entity_until_complete window_order 1 s floor c l = out.
Proof using.
  unfold drive_entity. cbn [drive entity_until_complete].
  fold (step_current_entity_attribute_interval_cursor s (push_interval floor) window_order c usize_MAX l).
  intros E. destruct (step_current_entity_attribute_interval_cursor s (push_interval floor) window_order c usize_MAX l)
    as [[[c' v'] [n|n]]|er]; cbn [mbind result_bind] in *; destruct out as [w|e']; cbn in E; congruence.
Qed.

Lemma entity_intervals_read e : entity_intervals window_order s a floor e =
  if too_many e then Err "current_entities history work exceeds the bound" else Ok (e, entity_projection log a floor e).
Proof using All.
  unfold entity_intervals, too_many. rewrite (entity_cursor_created hasher s log Ok_s Ok_log e a None Any).
  destruct (CURRENT_ENTITIES_MAX_HISTORY_ENTRIES <? _); [done|]. cbn [mbind result_bind].
  destruct (entity_drives hasher s log rows Ok_s Ok_log backed e a ltac:(auto) capacity window_order order_ok None Any)
    as (n & Ln & D).
  destruct (D _ [usize_MAX] (@nil ProjectedInterval) ltac:(by repeat constructor)) as [_ D2].
  destruct (D2 (push_interval floor)) as [F _].
  change (emit_each (cursor_new s ?k ?k2 ?ids ?r None Any)) with (cursor_new s k k2 ids (mkEntityReduction ∅ true) None Any).
  rewrite (unbounded_entity _ _ _ (F (enough_max n ltac:(lia)))).
  unfold entity_facts. rewrite seen_none, push_intervals. done.
Qed.

Lemma replaced_entities es : if existsb too_many es then
    ∃ er, mapR (entity_intervals window_order s a floor) es = Err er
  else mapR (entity_intervals window_order s a floor) es = Ok ((λ e, (e, entity_projection log a floor e)) <$> es).
Proof using All.
  induction es as [|e es IH]; [done|]. cbn [existsb mapR]. rewrite entity_intervals_read.
  destruct (too_many e); cbn [orb mbind result_bind]; [by eexists|].
  destruct (existsb too_many es); [destruct IH as [er ->]; by eexists|]. by rewrite IH.
Qed.

Lemma latest_entities es e : latest ((λ e, (e, entity_projection log a floor e)) <$> es) e =
  if bool_decide (e ∈ es) then Some (entity_projection log a floor e) else None.
Proof using Ok_log plain. by apply latest_upto. Qed.

(** ** Building *)

Lemma fits_projection_rows_ok : Forall (λ x : PushedRow, i64_ok x.1.2 ∧ i64_ok x.2) (net_rows Any (List.filter (of_attribute a) log)).
Proof using Ok_log plain.
  pose proof (attribute_plain log a Ok_log plain) as Pf. destruct (net_rows_show a Any _ Pf) as [_ M].
  apply Forall_forall. intros x (f & [I _] & _ & ->)%M. cbn. by destruct (pf_ok _ _ Pf f I).
Qed.

Lemma build_projects : utf8_valid (as_bytes a) = true → (∀ f, f ∈ log → covered a (attribute f) → attribute f = a) →
  fits (projection floor a log) →
  ∃ c, build_current_projection_candidate s (current_projection_watermark s) a floor = Ok c ∧ projects log a floor c ∧
    validate_current_projection_candidate s c = Ok tt.
Proof using All.
  intros U Un Fi. unfold build_current_projection_candidate, visit_current_attribute_intervals.
  unfold current_projection_watermark. change (λ (b : CurrentProjectionBuilder) '(e, v, valid_from, valid_to),
    builder_push b e v valid_from valid_to) with push_row.
  destruct (attribute_cursor_drives hasher s log rows Ok_s Ok_log backed a 0 U Un plain capacity None Any) as (n & Ln & D).
  rewrite (unbounded_visit s _ _ _ (foldR push_row (builder_new a floor (publication_generation s) (current_tx_count s))
    (net_rows Any (List.filter (of_attribute a) log)))).
  2: { unfold current_attribute_cursor. rewrite D by (apply enough_max; lia). f_equal.
    f_equal. unfold cursor_facts. rewrite seen_none. f_equal. apply List_filter_ext. intros f I. unfold selected, of_attribute.
    rewrite Forall_forall in Ok_log. destruct (Ok_log f I). rewrite (proj2 (Z.leb_le 0 (entity f))) by ilia. apply andb_true_r. }
  destruct (build_represents a floor (publication_generation s) (current_tx_count s)
    (net_rows Any (List.filter (of_attribute a) log))) as (c & E & Re & Ov & Ea & Ef & Eg & Et).
  - apply (net_rows_in_order a), attribute_plain; done.
  - apply fits_projection_rows_ok.
  - by rewrite projected_net_rows.
  - unfold build_projection in E. exists c. split_and!.
    + destruct (foldR push_row _ _) as [b|]; [|done]. cbn [mbind result_bind] in *. by rewrite bool_decide_true.
    + split_and!; [done|done|rewrite Ov; constructor|]. rewrite projected_net_rows in Re by done. eexists. split; [done|].
      rewrite Ov. split; [by apply projection_by_entity|]. intros e. done.
    + unfold validate_current_projection_candidate, current_projection_watermark. by rewrite Eg, Et, !Z.eqb_refl.
Qed.

(** ** Refreshing *)

Lemma upto_untouched n l e : (∀ f, f ∈ l → n < tx_count f → of_entity e a f = false) →
  List.filter (of_entity e a) (upto n l) = List.filter (of_entity e a) l.
Proof using.
  intros N. unfold upto. rewrite <-List_filter_filter. apply List_filter_ext. intros f I.
  destruct (Z.leb_spec (tx_count f) n) as [L|L]; [by rewrite andb_true_r|]. by rewrite (N f I L).
Qed.

Lemma refresh_projects c : projects (upto (cp_tx_count c) log) a floor c → cp_tx_count c ≤ current_tx_count s →
  let w := current_projection_watermark s in
  match refresh_current_projection_candidate window_order s w w c with
  | Ok c' => projects log a floor c' ∧ validate_current_projection_candidate s c' = Ok tt
  | Err _ => ∃ e, too_many e = true
  end.
Proof using All.
  intros (Ea & Ef & As & R & Re & Me) Le w. unfold refresh_current_projection_candidate, w, current_projection_watermark.
  rewrite (proj2 (Z.ltb_ge _ _)) by done. rewrite (for_each_since_fold hasher s log) by done.
  destruct (touch_all (λ f, bool_decide (attribute f = cp_attribute c)) (List.filter (after_tx (cp_tx_count c)) log) []) as (t & -> & _ & Mt);
    [constructor|]. cbn [mbind result_bind]. rewrite !bool_decide_true by done. cbn [ensure mbind result_bind].
  rewrite Ea, Ef. pose proof (replaced_entities t.*1) as Rp. destruct (existsb too_many t.*1) eqn:Tm.
  { destruct Rp as [er ->]. apply existsb_exists in Tm as (e & _ & Te). by exists e. }
  rewrite Rp. cbn [mbind result_bind]. set (rs := (λ e, (e, entity_projection log a floor e)) <$> t.*1).
  destruct (replace_all_ok rs c R Re As) as [Re' As'].
  assert (∀ rs c, cp_attribute (replace_all c rs) = cp_attribute c ∧ valid_time_floor (replace_all c rs) = valid_time_floor c) as Ids.
  { intros rs'. induction rs' as [|[e l] rs' IH]; intros c0; [done|]. apply (IH (replace_entity c0 e l)). }
  split; [|unfold validate_current_projection_candidate, current_projection_watermark; cbn; by rewrite !Z.eqb_refl].
  split_and!; [cbn; by rewrite (proj1 (Ids rs c))|cbn; by rewrite (proj2 (Ids rs c))|done|].
  exists R. split; [by destruct Re'|]. split; [by apply projection_by_entity|]. intros e. rewrite projection_rows by done.
  unfold merged_row. cbn [overlay set_watermark]. rewrite replace_all_get. unfold rs. rewrite latest_entities.
  case_bool_decide as I; [done|]. destruct Me as [_ Me]. specialize (Me e). unfold merged_row in Me. rewrite <-Me.
  rewrite projection_rows; [|by apply upto_ok|by intros f [_ F]%upto_elem; apply plain].
  unfold entity_projection. do 4 f_equal. symmetry. apply upto_untouched. intros f If Lt.
  apply not_true_is_false. intros [Ee Fa]%of_entity_spec. apply I, Mt. right. exists f. split_and!; [|by rewrite Ea; apply bool_decide_eq_true|done].
  apply elem_of_List_filter. split; [by apply Z.ltb_lt|done].
Qed.

(** ** The resident tail *)

(** A completed run of steps is a drive of the cursor. *)
Lemma tail_steps_drive fuel : ∀ c l h l' h', tail_entity_steps window_order fuel s floor c l h = Ok (Some (l', h')) →
  ∃ budgets, Forall (λ b, 0 < b) budgets ∧ drive_entity s (push_interval floor) window_order c l budgets = Ok (l', true).
Proof using.
  induction fuel as [|fuel IH]; intros c l h l' h'; cbn [tail_entity_steps]; [done|].
  set (remaining := sat_sub_u64 CURRENT_PROJECTION_TAIL_MAX_HISTORY h). destruct (Z.eqb_spec remaining 0) as [|N]; [done|].
  assert (0 < remaining) as P by (clear -N; unfold remaining, sat_sub_u64 in *; lia).
  destruct (step_current_entity_attribute_interval_cursor s (push_interval floor) window_order c remaining l)
    as [[[c1 l1] st]|] eqn:E; [|done]. cbn [mbind result_bind]. destruct st as [m|m].
  - intros (bs & Pb & Db)%IH. exists (remaining :: bs). split; [by constructor|]. unfold drive_entity in *. cbn [drive].
    unfold step_current_entity_attribute_interval_cursor in E. rewrite E. cbn [mbind result_bind]. exact Db.
  - intros [= -> _]. exists [remaining]. split; [by constructor|]. unfold drive_entity. cbn [drive].
    unfold step_current_entity_attribute_interval_cursor in E. rewrite E. done.
Qed.

Lemma entity_facts_upto target e : entity_facts log e a (Some (AsOfCounter target)) = List.filter (of_entity e a) (upto target log).
Proof using.
  unfold entity_facts, upto. rewrite <-!List_filter_filter. apply List_filter_ext. intros f _. apply andb_comm.
Qed.

Lemma tail_entity_read o target h e l h' : t_attribute o = a → t_floor o = floor →
  tail_entity window_order s o target h e = Ok (Some (l, h')) → l = entity_projection (upto target log) a floor e.
Proof using All.
  intros Ea Ef. unfold tail_entity. rewrite Ea, Ef.
  rewrite (entity_cursor_created hasher s log Ok_s Ok_log e a (Some (AsOfCounter target)) Any).
  destruct (CURRENT_ENTITIES_MAX_HISTORY_ENTRIES <? _); [by rewrite bound_error|].
  intros (bs & Pb & Db)%tail_steps_drive.
  destruct (entity_drives hasher s log rows Ok_s Ok_log backed e a ltac:(auto) capacity window_order order_ok
    (Some (AsOfCounter target)) Any) as (n & _ & D).
  destruct (D _ bs (@nil ProjectedInterval) Pb) as [_ D2]. destruct (D2 (push_interval floor)) as [_ F].
  apply F in Db. rewrite entity_facts_upto, push_intervals in Db. by injection Db as <-.
Qed.

Lemma tail_replacements_read o target es : t_attribute o = a → t_floor o = floor → ∀ h rs h',
  tail_replacements window_order s o target h es = Ok (Some (rs, h')) →
  rs = (λ e, (e, entity_projection (upto target log) a floor e)) <$> es.
Proof using All.
  intros Ea Ef. induction es as [|e es IH]; intros h rs h'; cbn [tail_replacements]; [by intros [= <- _]|].
  destruct (tail_entity window_order s o target h e) as [[[l h1]|]|] eqn:E; [|done..]. cbn [mbind result_bind].
  destruct (tail_replacements window_order s o target h1 es) as [[[rs1 h2]|]|] eqn:Er; [|done..]. cbn.
  intros [= <- _]. apply tail_entity_read in E as ->; [|done..]. by apply IH in Er as ->.
Qed.
End refreshing.

(** ** Installing replacements *)

(** The last value of a key in a list of pairs. *)
Definition assoc_last {B} (rs : list (EntityId * B)) (e : EntityId) : option B :=
  foldl (λ o '(e', l), if e' =? e then Some l else o) None rs.
Lemma fold_insert_get {B} (rs : list (EntityId * B)) e : ∀ m,
  bt_get e (foldl (λ m '(e', l), bt_insert e' l m) m rs) =
  match assoc_last rs e with Some l => Some l | None => bt_get e m end.
Proof.
  unfold assoc_last. induction rs as [|[e' l] rs IH] using rev_ind; intros m; [done|].
  rewrite !foldl_app. cbn [foldl]. rewrite bt_get_insert, IH. destruct (Z.eqb_spec e' e) as [->|N]; [by rewrite cmp_refl|].
  destruct (cmp e e') eqn:C; [|done..]. by apply cmp_eq in C.
Qed.
Lemma assoc_last_ascending {B} (m : list (EntityId * B)) e : strictly_ascending m → assoc_last m e = bt_get e m.
Proof.
  unfold strictly_ascending. induction m as [|[e' l] m IH] using rev_ind; intros S; [done|].
  unfold assoc_last in *. rewrite foldl_app. cbn [foldl]. apply StronglySorted_app in S as (L & S & _).
  rewrite bt_get_app, IH by done. cbn [bt_get]. destruct (Z.eqb_spec e' e) as [->|N].
  - rewrite cmp_refl. destruct (bt_get e m) as [l'|] eqn:G; [|done]. apply bt_get_some in G.
    specialize (L (e, l') (e, l) G ltac:(by left)). cbn in L. by rewrite cmp_refl in L.
  - destruct (bt_get e m); [done|]. destruct (cmp e e') eqn:C; [|done..]. by apply cmp_eq in C.
Qed.
Lemma fold_insert_ascending {B} (rs : list (EntityId * B)) : ∀ m, strictly_ascending m →
  strictly_ascending (foldl (λ m '(e', l), bt_insert e' l m) m rs).
Proof. induction rs as [|[e l] rs IH]; intros m A; [done|]. by apply IH, bt_insert_ascending. Qed.

Lemma foldl_same {A B} (f g : A → B → A) l : (∀ m x, f m x = g m x) → ∀ m, foldl f m l = foldl g m l.
Proof. intros E. induction l as [|x l IH]; intros m; cbn; [done|]. by rewrite E, IH. Qed.

Lemma install_get charged o tx rs o' : strictly_ascending (t_replacements o) → install charged o tx rs = (o', true) →
  t_identity o' = t_identity o ∧ t_attribute o' = t_attribute o ∧ t_floor o' = t_floor o ∧ t_tx_count o' = tx ∧
  strictly_ascending (t_replacements o') ∧
  ∀ e, bt_get e (t_replacements o') = match latest rs e with Some l => Some l | None => bt_get e (t_replacements o) end.
Proof.
  intros A. unfold install.
  assert (foldl (λ m '(e, l), bt_insert e (sort_intervals l) m) [] rs =
    foldl (λ m '(e', l), bt_insert e' l m) [] (prod_map id sort_intervals <$> rs)) as ->.
  { rewrite foldl_fmap. apply foldl_same. by intros m [e l]. }
  set (next := foldl _ [] (prod_map id sort_intervals <$> rs)).
  assert (strictly_ascending next) as An by (apply fold_insert_ascending; constructor).
  destruct (CURRENT_PROJECTION_TAIL_MAX_REPLACEMENTS <? _); [done|].
  destruct (CURRENT_PROJECTION_TAIL_MAX_BYTES <? _); [done|]. intros [= <-]. cbn.
  split_and!; [done..|by apply fold_insert_ascending|]. intros e. rewrite fold_insert_get, assoc_last_ascending by done.
  unfold next. rewrite fold_insert_get. cbn [bt_get].
  assert (assoc_last (prod_map id sort_intervals <$> rs) e = latest rs e) as ->; [|by destruct (latest rs e)].
  unfold assoc_last, latest. rewrite foldl_fmap. apply foldl_same. by intros m' [e' l].
Qed.

(** * Theorems *)

Section projection_theorems.
Context (hasher : EavtKey → Z) (s : FactStorage) (log : list Fact) (rows : list (Fact * FactRef)).
Hypothesis Ok_s : store_ok hasher s log.
Hypothesis Ok_log : Forall fact_ok log.
Hypothesis backed : backed_by s rows.
Hypothesis capacity : Z.of_nat (length log) < usize_MAX.
Context (window_order : gmap (Z * Z) (Z * CursorFactRef) → list ((Z * Z) * (Z * CursorFactRef))).
Hypothesis order_ok : ∀ m, window_order m ≡ₚ map_to_list m.
Hypothesis plain : ∀ f, f ∈ log → not_nan (value f).
#[local] Abbreviation now := (current_projection_watermark s).

(** C16: refreshing a projection is as good as rebuilding it.  Over a ledger without NaN,
    a candidate whose rows are the net rows of its attribute up to its transaction count,
    refreshed, visits exactly the net rows of the whole ledger that end after its floor
    and is valid for the store; the refresh fails only when an entity has more pending
    facts than a cursor admits, and always when the store is written to meanwhile.  A
    projection built anew visits the same rows when the attribute is valid UTF-8, no
    stored attribute extends it and the rows fit: the cursor of the rebuild scans by
    prefix, the refresh reads the exact attribute. *)
Theorem refresh_equals_rebuild a floor c :
  projects (upto (cp_tx_count c) log) a floor c → cp_tx_count c ≤ current_tx_count s →
  (match refresh_current_projection_candidate window_order s now now c with
   | Err _ => ∃ e, too_many s a e = true
   | Ok c' => validate_current_projection_candidate s c' = Ok tt ∧ projects log a floor c' ∧
       ∀ S (visit : S → IntervalRow → result S) x, visit_merged_encoded c' visit x = foldR visit x (projection floor a log)
   end) ∧
  (∀ later1 later2, later1 ≠ now ∨ later2 ≠ now →
     is_ok (refresh_current_projection_candidate window_order s later1 later2 c) = false) ∧
  (utf8_valid (as_bytes a) = true → (∀ f, f ∈ log → covered a (attribute f) → attribute f = a) →
   fits (projection floor a log) →
   ∃ r, build_current_projection_candidate s now a floor = Ok r ∧
     ∀ S (visit : S → IntervalRow → result S) x, visit_merged_encoded r visit x = foldR visit x (projection floor a log)).
Proof using All.
  intros P Le. split_and!.
  - pose proof (refresh_projects hasher s log rows Ok_s Ok_log backed capacity window_order order_ok a floor ltac:(auto) c P Le) as H.
    cbv zeta in H. destruct (refresh_current_projection_candidate window_order s now now c) as [c'|]; [|done].
    destruct H as [H V]. split_and!; [done..|]. intros. by apply projects_visit.
  - intros l1 l2 D. unfold refresh_current_projection_candidate. destruct now as [g t] eqn:En. rewrite ?En in D.
    destruct (t <? cp_tx_count c); [done|]. destruct (for_each_fact_since _ _ _ _) as [touched|]; [|done]. cbn [mbind result_bind].
    destruct (bool_decide (l1 = (g, t))) eqn:B1; [apply bool_decide_eq_true in B1 as ->|done].
    cbn [ensure mbind result_bind]. destruct (mapR _ _) as [rs|]; [|done]. cbn [mbind result_bind].
    destruct D as [D|D]; [done|]. by rewrite bool_decide_false.
  - intros U Un Fi. destruct (build_projects hasher s log rows Ok_s Ok_log backed capacity window_order order_ok a floor
      ltac:(auto) U Un Fi) as (r & E & Pr & _). exists r. split; [done|]. intros. by apply projects_visit.
Qed.

(** The rows of a persisted projection at its identity, with a tail above it, are the
    rows at the tail's transaction count. *)
Definition tail_ok (o : CurrentProjectionTailOverlay) : Prop :=
  strictly_ascending (t_replacements o) ∧ id_tx_count (t_identity o) ≤ t_tx_count o ∧
  ∀ e, default (entity_projection (upto (id_tx_count (t_identity o)) log) (t_attribute o) (t_floor o) e)
         (bt_get e (t_replacements o)) =
       entity_projection (upto (t_tx_count o) log) (t_attribute o) (t_floor o) e.
Definition cache_ok (c : CurrentProjectionTailCache) : Prop := ∀ o, cached c = Some o → tail_ok o.

Lemma upto_upto n m l : n ≤ m → upto n (upto m l) = upto n l.
Proof using.
  intros L. unfold upto. rewrite <-List_filter_filter. apply List_filter_ext. intros f _.
  clear -L. destruct (Z.leb_spec (tx_count f) n), (Z.leb_spec (tx_count f) m); done || lia.
Qed.

Lemma tail_new_ok identity a floor : tail_ok (tail_new identity a floor).
Proof using. split_and!; [constructor|done|]. done. Qed.

Lemma refresh_tail_ok charged later1 later2 o target o' n1 n2 n3 : tail_ok o →
  refresh_current_projection_tail_overlay window_order charged s later1 later2 o target = Ok (o', Ready n1 n2 n3) →
  tail_ok o' ∧ t_tx_count o' = target ∧ t_identity o' = t_identity o ∧ t_attribute o' = t_attribute o ∧ t_floor o' = t_floor o.
Proof using All.
  intros To. unfold refresh_current_projection_tail_overlay. destruct (Z.ltb_spec target (t_tx_count o)) as [|Le]; [done|].
  destruct (Z.eqb_spec (t_tx_count o) target) as [Et|Nt]; [by intros [= <- _]|].
  destruct now as [g t]. destruct (negb (target =? t)); [done|]. rewrite (for_each_since_fold hasher s log) by done.
  destruct (foldR _ _ _) as [[tf touched]|er] eqn:Ef; [|by destruct (bool_decide _)].
  destruct (bool_decide (later1 = (g, t))); [|done]. cbn [ensure mbind result_bind].
  destruct (tail_replacements window_order s o target 0 touched.*1) as [[[rs h]|]|] eqn:Er; [|done..]. cbn [mbind result_bind].
  destruct (bool_decide (later2 = (g, t))); [|done]. cbn [ensure mbind result_bind].
  destruct (install charged o target rs) as [o1 adm] eqn:Ei. destruct adm; [|done]. intros [= <- _ _ _].
  destruct To as (A & Li & Cv). destruct (install_get charged o target rs o1 A Ei) as (I1 & I2 & I3 & I4 & I5 & G).
  split_and!; [|done..]. split_and!; [done|rewrite I1, I4; lia|]. rewrite I1, I2, I3, I4. intros e. rewrite G.
  destruct (visit_tail_touches (t_attribute o) target _ 0 [] tf touched ltac:(constructor) Ef) as [_ Mt].
  eapply (tail_replacements_read hasher s log rows Ok_s Ok_log backed capacity window_order order_ok) in Er; [|by auto|done..].
  rewrite Er, I2, I3, (latest_upto (upto target log) (t_attribute o) (t_floor o)).
  2: { by apply upto_ok. }
  2: { intros f [_ F]%upto_elem _. auto. }
  case_bool_decide as I; [done|]. rewrite Cv. unfold entity_projection. do 3 f_equal.
  rewrite <-(upto_upto (t_tx_count o) target log Le). apply upto_untouched. intros f [Lf If]%upto_elem Lt.
  apply not_true_is_false. intros Oe. apply I, Mt. right. exists f. split_and!; [|done..].
  apply elem_of_List_filter. split; [by apply Z.ltb_lt|done].
Qed.

(** C31: the tail cache serves the current rows.  A cached tail stays correct whatever is
    prepared next; a tail that [prepare] hands out belongs to the requested projection
    and transaction, and for every entity the persisted rows at the projection's identity,
    replaced by the tail's rows where it has the entity, are the net rows of the ledger at
    that transaction.  A rejected request is answered from memory, and an error leaves
    the cache unchanged. *)
Theorem tail_cache_current charged c later1 later2 identity a floor target : cache_ok c →
  let '(c', r) := cache_prepare window_order charged c s later1 later2 identity a floor target in
  cache_ok c' ∧
  match r with
  | Ok (Some o) => tail_matches o identity a floor = true ∧ t_tx_count o = target ∧
      ∀ e, default (entity_projection (upto (id_tx_count identity) log) a floor e) (bt_get e (t_replacements o)) =
           entity_projection (upto target log) a floor e
  | Ok None => rejected c' = Some (identity, a, floor, target)
  | Err _ => c' = c
  end.
Proof using All.
  intros Co. assert (∀ o, tail_ok o → tail_matches o identity a floor = true → ∀ e,
    default (entity_projection (upto (id_tx_count identity) log) a floor e) (bt_get e (t_replacements o)) =
    entity_projection (upto (t_tx_count o) log) a floor e) as Cv.
  { intros o (_ & _ & C) M e. specialize (C e). unfold tail_matches in M.
    apply andb_prop in M as [[E1%bool_decide_eq_true E2%bool_decide_eq_true]%andb_prop E3%Z.eqb_eq]. by rewrite E1, E2, E3 in C. }
  unfold cache_prepare. case_bool_decide as Rj; [done|].
  set (hit := match cached c with Some o => _ | None => None end).
  assert (∀ o, hit = Some o → cached c = Some o ∧ tail_matches o identity a floor = true ∧ t_tx_count o = target) as Hh.
  { intros o. subst hit. destruct (cached c) as [o'|]; [|done]. destruct (tail_matches o' identity a floor) eqn:M; [|done]. cbn.
    destruct (Z.eqb_spec (t_tx_count o') target); [|done]. by intros [= <-]. }
  destruct hit as [o|].
  { destruct (Hh o eq_refl) as (Eo & M & <-). split; [done|]. split_and!; [done..|]. apply Cv; [by apply Co|done]. }
  set (next := match cached c with Some o => _ | None => _ end).
  assert (tail_ok next ∧ tail_matches next identity a floor = true) as [Tn Mn].
  { assert (tail_matches (tail_new identity a floor) identity a floor = true) as Mnew.
    { unfold tail_matches. cbn. by rewrite !bool_decide_true, Z.eqb_refl. }
    subst next. destruct (cached c) as [o'|] eqn:Ec; [|split; [apply tail_new_ok|done]].
    destruct (tail_matches o' identity a floor) eqn:M; [|split; [apply tail_new_ok|done]]. split; [by apply Co|done]. }
  destruct (refresh_current_projection_tail_overlay window_order charged s later1 later2 next target) as [[o' [n1 n2 n3|]]|er] eqn:Er.
  - destruct (refresh_tail_ok charged later1 later2 next target o' n1 n2 n3 Tn Er) as (To & Et & Ei & Ea & Ef).
    assert (tail_matches o' identity a floor = true) as Mo by (unfold tail_matches in *; by rewrite Ei, Ea, Ef).
    split; [by intros o [= <-]|]. rewrite <-Et. split_and!; [done..|]. by apply Cv.
  - split; [exact Co|done].
  - done.
Qed.
End projection_theorems.

(** A projection of a ledger without facts. *)
Definition empty_candidate : CurrentProjectionCandidate := mkCandidate ":age2" 0 0 0 [] [0] [] [] [] [].
Lemma empty_projects : projects [] ":age2" 0 empty_candidate.
Proof.
  split_and!; [done|done|constructor|]. exists []. split.
  - split; [done|constructor|done|by exists decoder_new|by exists decoder_new].
  - split; [constructor|done].
Qed.
Lemma prefix_plain f : f ∈ prefix_log → not_nan (value f).
Proof. intros [->|[->|[]%elem_of_nil]%elem_of_cons]%elem_of_cons; done. Qed.

Lemma refresh_equals_rebuild_witness :
  ∃ c', refresh_current_projection_candidate map_to_list prefix_store
          (current_projection_watermark prefix_store) (current_projection_watermark prefix_store) empty_candidate = Ok c' ∧
    visit_merged_encoded c' (λ l x, Ok (l ++ [x])) [] = Ok [(1, encode_value (VInteger 99), 1000, VALID_TIME_FOREVER)].
Proof.
  destruct (refresh_equals_rebuild const_hasher prefix_store prefix_log [] prefix_store_ok prefix_log_ok
    ltac:(by right) ltac:(by vm_compute) map_to_list (λ m, reflexivity _) prefix_plain ":age2" 0 empty_candidate) as (H & _ & _).
  - exact empty_projects.
  - by vm_compute.
  - destruct (refresh_current_projection_candidate map_to_list prefix_store (current_projection_watermark prefix_store)
      (current_projection_watermark prefix_store) empty_candidate) as [c'|er] eqn:E; [|by vm_compute in E].
    destruct H as (_ & _ & V). exists c'. split; [done|]. rewrite V. by vm_compute.
Defined.

Lemma tail_cache_current_witness :
  let '(c', r) := cache_prepare map_to_list (λ _ _, 0) cache_default prefix_store
    (current_projection_watermark prefix_store) (current_projection_watermark prefix_store) (mkIdentity 1 1 0) ":age2" 0 1 in
  ∃ o, r = Ok (Some o) ∧ cached c' = Some o ∧ bt_get 1 (t_replacements o) = Some [interval_new (VInteger 99) 1000 VALID_TIME_FOREVER].
Proof.
  pose proof (tail_cache_current const_hasher prefix_store prefix_log [] prefix_store_ok prefix_log_ok
    ltac:(by right) ltac:(by vm_compute) map_to_list (λ m, reflexivity _) prefix_plain (λ _ _, 0) cache_default
    (current_projection_watermark prefix_store) (current_projection_watermark prefix_store) (mkIdentity 1 1 0) ":age2" 0 1
    ltac:(by intros o [=])) as H.
  destruct (cache_prepare _ _ _ _ _ _ _ _ _ _) as [c' r] eqn:E. destruct H as [_ H]. vm_compute in E.
  destruct r as [[o|]|er]; [|done..]. exists o. destruct H as (_ & _ & H). specialize (H 1). vm_compute in H.
  injection E as <- <-. by vm_compute.
Defined.
