(* ===== verification/Wal.v ===== *)
(** The write-ahead log (src/src/wal.rs) and its replay into the fact store
    ([replay_wal] of src/src/db.rs).

    A log file is its bytes; appending is writing at the end, a crash leaves
    any prefix of what was written.  postcard ([to_allocvec], [from_bytes]) and
    [crc32fast::hash] are parameters; the theorems use that postcard reads back
    what it wrote and that a hash is a [u32], and nothing about collisions.
    I/O errors of the operating system are not modelled. *)
From S2P Require Import Prelude Types ValueCodec NetView SortedRuns Index PendingOverlay FactStore.

Definition WAL_MAGIC : bytes := as_bytes "MWAL".
Definition WAL_VERSION : Z := 1.
Definition WAL_HEADER_SIZE : nat := 32.
(** [PAGE_SIZE - PACKED_HEADER_SIZE - 4] of src/src/storage/packed_pages.rs. *)
Definition MAX_FACT_BYTES : Z := 4096 - 12 - 4.
Definition MAX_FACTS_PER_ENTRY : Z := 1000000.
Definition MAX_FACT_SIZE : Z := 10 * 1024 * 1024.

Record WalEntry : Type := mkWalEntry { wal_tx_count : Z; wal_facts : list Fact }.

(** * The header *)

Definition wal_header : bytes := WAL_MAGIC ++ to_le_bytes 4 WAL_VERSION ++ replicate 24 (z2b 0).

Definition validate_wal_header (file : bytes) : result unit :=
  buf ← ok_or (get_range file 0 WAL_HEADER_SIZE) "failed to fill whole buffer";
  _ ← ensure (bool_decide (take 4 buf = WAL_MAGIC)) "Invalid WAL magic number: not a .wal file";
  ensure (from_le_bytes (take 4 (drop 4 buf)) =? WAL_VERSION) "Unsupported WAL version".

(** * Reading bytes *)

(** [read_exact] of [n] bytes: the bytes and the rest of the file, [None] at
    an unexpected end. *)
Definition read_exact (n : nat) (file : bytes) : option (bytes * bytes) :=
  if (n <=? length file)%nat then Some (take n file, drop n file) else None.

Section wal.
Context (to_allocvec : Fact → result bytes) (from_bytes : bytes → result Fact)
  (crc32 : bytes → Z).

(** ** Entries *)

Definition serialize_fact (fact : Fact) : result bytes :=
  fact_bytes ← to_allocvec fact;
  _ ← ensure (Z.of_nat (length fact_bytes) <=? MAX_FACT_BYTES) "Fact serialised size exceeds maximum";
  _ ← ensure (Z.of_nat (length fact_bytes) <=? u32_MAX) "fact serialised size exceeds u32 range";
  Ok (to_le_bytes 4 (Z.of_nat (length fact_bytes)) ++ fact_bytes).

Definition serialize_entry (tx_count : Z) (facts : list Fact) : result bytes :=
  records ← mapR serialize_fact facts;
  let payload :=
    to_le_bytes 8 tx_count ++ to_le_bytes 8 (Z.of_nat (length facts)) ++ concat records in
  Ok (to_le_bytes 4 (crc32 payload) ++ payload).

(** The [for] loop over the facts of an entry; [None] is [truncated]. *)
Fixpoint read_facts (num_facts : nat) (file payload : bytes) (facts : list Fact)
    : option (bytes * list Fact * bytes) :=
  match num_facts with
  | O => Some (payload, facts, file)
  | S n =>
      '(len_buf, file) ← read_exact 4 file;
      let fact_len := from_le_bytes len_buf in
      if MAX_FACT_SIZE <? fact_len then None
      else
        '(fact_bytes, file) ← read_exact (Z.to_nat fact_len) file;
        match from_bytes fact_bytes with
        | Ok f => read_facts n file (payload ++ len_buf ++ fact_bytes) (facts ++ [f])
        | Err _ => None
        end
  end.

(** One iteration of the loop of [visit_entries]: the entry read and the rest
    of the file, [None] for every way out of the loop. *)
Definition read_entry (file : bytes) : option (WalEntry * bytes) :=
  '(csum_buf, file) ← read_exact 4 file;
  '(tx_count_buf, file) ← read_exact 8 file;
  '(num_facts_buf, file) ← read_exact 8 file;
  let num_facts := from_le_bytes num_facts_buf in
  if MAX_FACTS_PER_ENTRY <? num_facts then None
  else
    '(payload, facts, file) ←
      read_facts (Z.to_nat num_facts) file (tx_count_buf ++ num_facts_buf) [];
    if negb (from_le_bytes csum_buf =? crc32 payload) then None
    else Some (mkWalEntry (from_le_bytes tx_count_buf) facts, file).

(** The loop; every entry takes at least 20 bytes, so the length of the file
    is enough fuel. *)
Fixpoint entries_loop (fuel : nat) (file : bytes) : list WalEntry :=
  match fuel with
  | O => []
  | S fuel =>
      match read_entry file with
      | Some (entry, file) => entry :: entries_loop fuel file
      | None => []
      end
  end.

Definition entries_of (body : bytes) : list WalEntry := entries_loop (length body) body.

Definition visit_entries {S} (file : bytes) (visit : S → WalEntry → result S) (s : S) : result S :=
  foldR visit s (entries_of (drop WAL_HEADER_SIZE file)).
Definition read_entries (file : bytes) : result (list WalEntry) :=
  visit_entries file (λ entries entry, Ok (entries ++ [entry])) [].

(** ** The writer and the reader *)

(** [WalWriter::open_or_create] on the file at the path, if any: the file
    after opening, positioned at its end. *)
Definition open_or_create (file : option bytes) : result bytes :=
  match file with
  | None => Ok wal_header
  | Some file =>
      if (length file <? WAL_HEADER_SIZE)%nat then Ok wal_header
      else _ ← validate_wal_header file; Ok file
  end.

Definition append_entry (file : bytes) (tx_count : Z) (facts : list Fact) : result bytes :=
  entry ← serialize_entry tx_count facts;
  Ok (file ++ entry).

Definition reader_open (file : bytes) : result bytes :=
  if (WAL_HEADER_SIZE <=? length file)%nat
  then _ ← validate_wal_header file; Ok file
  else Ok file.

(** ** Replay *)

Section replay.
Context (hasher : EavtKey → Z).

(** The visitor of [replay_wal]: load the facts of an entry newer than the
    checkpoint, count it. *)
Definition load_facts (s : FactStorage) (facts : list Fact) : result FactStorage :=
  foldR (λ s f, match load_fact hasher s f with
                | (s', Ok _) => Ok s'
                | (_, Err e) => Err e
                end) s facts.

Definition replay_entry (last_checkpointed : Z) (st : FactStorage * nat) (entry : WalEntry)
    : result (FactStorage * nat) :=
  let '(s, replayed) := st in
  if wal_tx_count entry <=? last_checkpointed then Ok (s, replayed)
  else s ← load_facts s (wal_facts entry); Ok (s, S replayed).

Definition replay_wal (file : option bytes) (s : FactStorage) (last_checkpointed : Z)
    : result (FactStorage * nat) :=
  match file with
  | None => Ok (s, 0%nat)
  | Some file =>
      file ← reader_open file;
      '(s, replayed) ← visit_entries file (replay_entry last_checkpointed) (s, 0%nat);
      let s := restore_tx_counter s in
      let s := if current_tx_count s <? last_checkpointed
               then restore_tx_counter_from s last_checkpointed else s in
      Ok (s, replayed)
  end.
End replay.
End wal.

(** * Replaying entries into the store *)

Section replay_store.
Context (hasher : EavtKey → Z).

Lemma accepted_app seen a b :
  accepted true seen (a ++ b) =
  accepted true seen a ++ accepted true (seen ++ (eavt_key_of <$> accepted true seen a)) b.
Proof.
  revert seen; induction a as [|f a IH]; intros seen; cbn; [by rewrite app_nil_r|].
  rewrite !andb_true_r. case_bool_decide; [apply IH|]. cbn. rewrite IH. by rewrite <-app_assoc.
Qed.

(** The fields replay leaves alone. *)
Definition same_readers (s s' : FactStorage) : Prop :=
  committed s' = committed s ∧ committed_index_reader s' = committed_index_reader s ∧
  tx_counter s' = tx_counter s.

Definition grows_by (s s' : FactStorage) (fs : list Fact) : Prop :=
  overlay_ok hasher (pending s') ∧
  records (pending s') = records (pending s) ++ (record_of <$> accepted true (identities (pending s)) fs) ∧
  same_readers s s'.

Lemma load_fact_spec s f :
  overlay_ok hasher (pending s) → fits s 1 →
  ∃ s' b, load_fact hasher s f = (s', Ok b) ∧ grows_by s s' [f].
Proof.
  intros O Fi. unfold load_fact.
  destruct (insert_batch_grows hasher (pending s) [f] true O Fi) as (p & E & R & O'). rewrite E.
  eexists _, _. split; [done|]. unfold grows_by, same_readers.
  by destruct (length (accepted true (identities (pending s)) [f]) =? 1)%nat.
Qed.

Lemma identities_grow s s' fs :
  grows_by s s' fs →
  identities (pending s') = identities (pending s) ++
    (eavt_key_of <$> accepted true (identities (pending s)) fs).
Proof. intros (_ & R & _). unfold identities. by rewrite R, fmap_app, <-list_fmap_compose. Qed.

Lemma grows_by_trans s1 s2 s3 a b :
  grows_by s1 s2 a → grows_by s2 s3 b → grows_by s1 s3 (a ++ b).
Proof.
  intros G1 G2. pose proof (identities_grow _ _ _ G1) as I.
  destruct G1 as (_ & R1 & C1 & I1 & T1), G2 as (O & R2 & C2 & I2 & T2). split_and!; [done| |].
  - rewrite R2, R1, accepted_app, fmap_app, I. by rewrite <-app_assoc.
  - split_and!; congruence.
Qed.

Lemma accepted_length seen fs : (length (accepted true seen fs) ≤ length fs)%nat.
Proof.
  revert seen; induction fs as [|f fs IH]; intros seen; cbn; [lia|].
  rewrite andb_true_r. case_bool_decide; cbn; [specialize (IH seen)|specialize (IH (seen ++ [eavt_key_of f]))]; lia.
Qed.

Lemma grows_by_fits s s' fs n :
  grows_by s s' fs → fits s (length fs + n) → fits s' n.
Proof.
  intros (_ & R & _). unfold fits. rewrite R, length_app, length_fmap.
  pose proof (accepted_length (identities (pending s)) fs). lia.
Qed.

Lemma grows_by_nil s : overlay_ok hasher (pending s) → grows_by s s [].
Proof. intros O. unfold grows_by, same_readers. cbn. by rewrite app_nil_r. Qed.

Lemma load_facts_spec fs : ∀ s,
  overlay_ok hasher (pending s) → fits s (length fs) →
  ∃ s', load_facts hasher s fs = Ok s' ∧ grows_by s s' fs.
Proof.
  induction fs as [|f fs IH]; intros s O Fi; [exists s; split; [done|by apply grows_by_nil]|].
  destruct (load_fact_spec s f O) as (s1 & b & E & G); [unfold fits in *; cbn in Fi; lia|].
  destruct (IH s1) as (s2 & E2 & G2); [apply G|by apply (grows_by_fits s s1 [f])|].
  exists s2. split; [|by apply (grows_by_trans s s1 s2 [f] fs)].
  unfold load_facts in *. cbn. by rewrite E.
Qed.

(** The entries newer than the checkpoint and their facts. *)
Definition newer (ck : Z) (es : list WalEntry) : list WalEntry :=
  List.filter (λ e, ck <? wal_tx_count e) es.

Lemma replay_entries ck es : ∀ s n,
  overlay_ok hasher (pending s) → fits s (length (concat (wal_facts <$> newer ck es))) →
  ∃ s', foldR (replay_entry hasher ck) (s, n) es = Ok (s', (n + length (newer ck es))%nat) ∧
    grows_by s s' (concat (wal_facts <$> newer ck es)).
Proof.
  induction es as [|e es IH]; intros s n O Fi.
  { exists s. cbn. rewrite Nat.add_0_r. split; [done|by apply grows_by_nil]. }
  cbn [foldR]. unfold newer in Fi |- *. cbn [List.filter] in *. rewrite Z.ltb_antisym in *.
  assert (replay_entry hasher ck (s, n) e = if wal_tx_count e <=? ck then Ok (s, n)
    else s ← load_facts hasher s (wal_facts e); Ok (s, S n)) as -> by done.
  destruct (wal_tx_count e <=? ck); cbn [negb] in *; [by apply IH|].
  cbn [fmap list_fmap concat length] in *. rewrite length_app in Fi.
  destruct (load_facts_spec (wal_facts e) s O) as (s1 & E1 & G1); [unfold fits in *; lia|].
  rewrite E1. cbn [mbind result_bind].
  destruct (IH s1 (S n)) as (s2 & E2 & G2); [apply G1|by apply (grows_by_fits s s1 (wal_facts e))|].
  exists s2. rewrite E2. split; [|by apply (grows_by_trans s s1)].
  by rewrite Nat.add_succ_comm.
Qed.

Lemma accepted_elem seen fs f : f ∈ accepted true seen fs → f ∈ fs.
Proof.
  revert seen; induction fs as [|g fs IH]; intros seen; cbn; [done|].
  rewrite andb_true_r, elem_of_cons. case_bool_decide; [right; by eapply IH|].
  intros [->|I]%elem_of_cons; [by left|right; by eapply IH].
Qed.

Lemma accepted_sorted seen fs : tx_sorted fs → tx_sorted (accepted true seen fs).
Proof.
  intros S. revert seen. induction S as [|f fs S IH F]; intros seen; cbn; [constructor|].
  rewrite andb_true_r. case_bool_decide; [apply IH|]. constructor; [apply IH|].
  rewrite Forall_forall in *. intros g G%accepted_elem. by apply F.
Qed.

Lemma foldl_max_ge l x : x ≤ foldl Z.max x l ∧ ∀ y, y ∈ l → y ≤ foldl Z.max x l.
Proof.
  revert x; induction l as [|z l IH]; intros x; cbn; [split; [lia|set_solver]|].
  destruct (IH (Z.max x z)) as [A B]. split; [lia|]. intros y [->|Y]%elem_of_cons; [lia|by apply B].
Qed.

(** Entries as the writer produces them: every fact carries the entry's
    counter, counters do not decrease. *)
Definition stamped (es : list WalEntry) : Prop :=
  (∀ e f, e ∈ es → f ∈ wal_facts e → tx_count f = wal_tx_count e) ∧
  StronglySorted (λ a b, wal_tx_count a ≤ wal_tx_count b) es.

Lemma stamped_sorted ck es :
  stamped es → tx_sorted (concat (wal_facts <$> newer ck es)) ∧
  ∀ f, f ∈ concat (wal_facts <$> newer ck es) → ck < tx_count f ∧ ∃ e, e ∈ es ∧ tx_count f = wal_tx_count e.
Proof.
  intros [T S]. induction S as [|e es S IH F]; [split; [constructor|set_solver]|].
  destruct IH as [IHs IHf]; [intros e' f E'; apply T; set_solver|].
  unfold newer in *. cbn. destruct (Z.ltb_spec ck (wal_tx_count e)); cbn.
  2: { split; [done|]. intros f Hf%IHf. set_solver. }
  assert (∀ f, f ∈ wal_facts e → tx_count f = wal_tx_count e) as Te by (intros; apply (T e); set_solver).
  split.
  - apply StronglySorted_app_2; [|by apply (tx_sorted_app [] _ (wal_tx_count e)); [constructor|set_solver|]|done].
    intros f g Hf Hg. rewrite (Te f Hf). apply IHf in Hg as (_ & e' & E' & ->).
    rewrite Forall_forall in F. by apply F.
  - intros f [Hf|Hf]%elem_of_app; [rewrite (Te f Hf); split; [done|]; exists e; set_solver|].
    apply IHf in Hf as (? & e' & ? & ?). split; [done|]. exists e'. set_solver.
Qed.

Lemma newer_length ck es :
  (length (concat (wal_facts <$> newer ck es)) ≤ length (concat (wal_facts <$> es)))%nat.
Proof.
  unfold newer. induction es as [|e es IH]; cbn; [lia|].
  destruct (ck <? wal_tx_count e); cbn; rewrite !length_app; lia.
Qed.

(** The counter [replay_wal] ends with. *)
Definition resync_counter (s : FactStorage) (ck : Z) : FactStorage :=
  let s := restore_tx_counter s in
  if current_tx_count s <? ck then restore_tx_counter_from s ck else s.

Lemma replayed_store s s1 log ck fs :
  store_ok hasher s log → records (pending s) = [] → (∀ f, f ∈ log → tx_count f ≤ ck) → 0 ≤ ck →
  grows_by s s1 fs → tx_sorted fs → (∀ f, f ∈ fs → ck < tx_count f) →
  store_ok hasher (resync_counter s1 ck) (log ++ accepted true [] fs) ∧
  ck ≤ tx_counter (resync_counter s1 ck).
Proof.
  intros [O (cf & C & ->) B P S] Em Bk Ck (O1 & R1 & C1 & I1 & T1) Sf Ff.
  unfold identities in R1. rewrite Em in R1. cbn in R1.
  set (new := accepted true [] fs) in *.
  assert (overlay_facts (pending s) = []) as Ov by (unfold overlay_facts; by rewrite Em).
  assert (overlay_facts (pending s1) = new) as Ov1.
  { unfold overlay_facts. rewrite R1, <-list_fmap_compose.
    rewrite (list_fmap_ext _ id); [apply list_fmap_id|]. intros; apply record_of_to_fact. }
  assert (∃ c, tx_counter (resync_counter s1 ck) = c ∧ ck ≤ c ∧ (∀ f, f ∈ new → tx_count f ≤ c) ∧
    pending (resync_counter s1 ck) = pending s1 ∧ committed (resync_counter s1 ck) = committed s1)
    as (c & Ec & Lc & Fc & Ep & Eco).
  { unfold resync_counter, restore_tx_counter, restore_tx_counter_from, current_tx_count. cbn.
    set (mx := foldl Z.max 0 _).
    assert (∀ f, f ∈ new → tx_count f ≤ mx) as Mx.
    { intros f Hf. apply (foldl_max_ge _ 0). rewrite R1, <-list_fmap_compose.
      apply list_elem_of_fmap. by exists f. }
    destruct (Z.ltb_spec mx ck); cbn; eexists; split_and!; try done; try lia.
    intros f Hf. apply Mx in Hf. lia. }
  split; [|lia]. rewrite Ov, app_nil_r in *. split.
  - by rewrite Ep.
  - exists cf. unfold committed_log in *. rewrite Eco, C1, Ep, Ov1. done.
  - intros f [Hf|Hf]%elem_of_app.
    + pose proof (Bk f Hf). apply B in Hf. lia.
    + pose proof (Fc f Hf). apply accepted_elem, Ff in Hf. lia.
  - lia.
  - apply StronglySorted_app_2; [|done|by apply accepted_sorted].
    intros f g Hf Hg. apply Bk in Hf. apply accepted_elem, Ff in Hg. lia.
Qed.
End replay_store.

(** * Reading back *)

Lemma read_exact_prefix n (p q a b : bytes) :
  p ++ q = a ++ b → length a = n →
  ((length p < n)%nat ∧ read_exact n p = None) ∨
  ∃ p', p = a ++ p' ∧ p' ++ q = b ∧ read_exact n p = Some (a, p').
Proof.
  intros E L. unfold read_exact. destruct (Nat.leb_spec n (length p)) as [H|H]; [right|by left].
  apply app_eq_inv in E as [(p' & -> & ->)|(k & -> & ->)].
  - exists p'. split; [done|]. split; [done|].
    by rewrite take_app_length', drop_app_length'.
  - rewrite length_app in L. assert (k = []) as -> by (apply nil_length_inv; lia).
    exists []. rewrite !app_nil_r in *. split; [done|]. split; [done|].
    by rewrite take_ge, drop_ge by lia.
Qed.

Lemma read_exact_app n a r : length a = n → read_exact n (a ++ r) = Some (a, r).
Proof.
  intros <-. unfold read_exact. rewrite (proj2 (Nat.leb_le _ _)) by (rewrite length_app; lia).
  by rewrite take_app_length, drop_app_length.
Qed.

Lemma read_exact_length n file a r : read_exact n file = Some (a, r) → length file = (n + length r)%nat.
Proof.
  unfold read_exact. destruct (Nat.leb_spec n (length file)); [|done]. intros [= <- <-].
  rewrite length_drop. lia.
Qed.

Section recovery.
Context (to_allocvec : Fact → result bytes) (from_bytes : bytes → result Fact)
  (crc32 : bytes → Z).
(** postcard reads back what it wrote; a hash is a [u32]. *)
Hypothesis codec_roundtrip : ∀ f bs, fact_ok f → to_allocvec f = Ok bs → from_bytes bs = Ok f.
Hypothesis crc_u32 : ∀ bs, u32_ok (crc32 bs).

Local Abbreviation serialize_fact := (serialize_fact to_allocvec).
Local Abbreviation serialize_entry := (serialize_entry to_allocvec crc32).
Local Abbreviation read_facts := (read_facts from_bytes).
Local Abbreviation read_entry := (read_entry from_bytes crc32).
Local Abbreviation entries_loop := (entries_loop from_bytes crc32).
Local Abbreviation entries_of := (entries_of from_bytes crc32).
Local Abbreviation read_entries := (read_entries from_bytes crc32).

Lemma serialize_fact_inv f r :
  serialize_fact f = Ok r →
  ∃ bs, to_allocvec f = Ok bs ∧ Z.of_nat (length bs) ≤ MAX_FACT_BYTES ∧
    r = to_le_bytes 4 (Z.of_nat (length bs)) ++ bs.
Proof using.
  unfold Wal.serialize_fact. intros H. inv_ok.
  eexists. split; [done|]. split; [by apply Z.leb_le|done].
Qed.

(** The facts of an entry are read back; a cut anywhere inside is noticed. *)
Lemma read_facts_prefix fs recs : ∀ file q rest payload acc,
  mapR serialize_fact fs = Ok recs → Forall fact_ok fs → file ++ q = concat recs ++ rest →
  (∃ file', file = concat recs ++ file' ∧
     read_facts (length fs) file payload acc = Some (payload ++ concat recs, acc ++ fs, file')) ∨
  ((length file < length (concat recs))%nat ∧ read_facts (length fs) file payload acc = None).
Proof using codec_roundtrip.
  revert recs. induction fs as [|f fs IH]; intros recs file q rest payload acc M F E; cbn in M; inv_ok.
  { left. exists file. cbn. by rewrite !app_nil_r. }
  match goal with H : Wal.serialize_fact _ f = Ok _ |- _ => apply serialize_fact_inv in H as (bs & T & L & ->) end.
  match goal with H : mapR _ fs = Ok ?x |- _ => rename H into M'; rename x into recs end.
  apply Forall_cons_1 in F as [Ff F]. cbn [concat] in *. rewrite <-!app_assoc in E.
  cbn [length Wal.read_facts].
  destruct (read_exact_prefix 4 _ _ _ _ E (length_to_le_bytes _ _)) as [[Hl ->]|(p & -> & E' & ->)].
  { right. split; [rewrite !length_app, length_to_le_bytes; lia|done]. }
  cbn [mbind option_bind]. rewrite from_to_le_bytes by (unfold MAX_FACT_BYTES in L; lia).
  rewrite (proj2 (Z.ltb_ge _ _)) by (unfold MAX_FACT_BYTES, MAX_FACT_SIZE in *; lia). rewrite Nat2Z.id.
  destruct (read_exact_prefix (length bs) _ _ _ _ E' eq_refl) as [[Hl ->]|(p' & -> & E'' & ->)].
  { right. split; [rewrite !length_app; lia|done]. }
  cbn [mbind option_bind]. rewrite (codec_roundtrip f bs Ff T).
  destruct (IH recs p' q rest (payload ++ to_le_bytes 4 (Z.of_nat (length bs)) ++ bs) (acc ++ [f]) M' F E'')
    as [(r & -> & R)|[Hl R]].
  - left. exists r. split; [by rewrite <-!app_assoc|]. rewrite R. by rewrite <-!app_assoc.
  - right. split; [rewrite !length_app; lia|done].
Qed.

(** What the writer accepts and the reader can represent. *)
Definition entry_ok (e : WalEntry) : Prop :=
  u64_ok (wal_tx_count e) ∧ Z.of_nat (length (wal_facts e)) ≤ MAX_FACTS_PER_ENTRY ∧
  Forall fact_ok (wal_facts e).
Definition entry_bytes (e : WalEntry) : result bytes :=
  serialize_entry (wal_tx_count e) (wal_facts e).

Lemma entry_bytes_length e bs : entry_bytes e = Ok bs → (20 ≤ length bs)%nat.
Proof using.
  unfold entry_bytes, Wal.serialize_entry. intros H. inv_ok.
  rewrite !length_app, !length_to_le_bytes. lia.
Qed.

Lemma read_entry_prefix e bs file q rest :
  entry_ok e → entry_bytes e = Ok bs → file ++ q = bs ++ rest →
  (∃ file', file = bs ++ file' ∧ read_entry file = Some (e, file')) ∨
  ((length file < length bs)%nat ∧ read_entry file = None).
Proof using codec_roundtrip crc_u32.
  intros (Ht & Hn & Hf) S E. unfold entry_bytes, Wal.serialize_entry in S. inv_ok.
  match goal with H : mapR _ _ = Ok ?x |- _ => rename H into M; rename x into recs end.
  set (payload := to_le_bytes 8 (wal_tx_count e) ++ to_le_bytes 8 (Z.of_nat (length (wal_facts e)))
                  ++ concat recs) in *.
  rewrite <-app_assoc in E. rewrite length_app, length_to_le_bytes. unfold Wal.read_entry.
  destruct (read_exact_prefix 4 _ _ _ _ E (length_to_le_bytes _ _)) as [[Hl ->]|(p & -> & E1 & ->)].
  { right. split; [lia|done]. }
  cbn [mbind option_bind]. unfold payload in E1. rewrite <-!app_assoc in E1.
  destruct (read_exact_prefix 8 _ _ _ _ E1 (length_to_le_bytes _ _)) as [[Hl ->]|(p1 & -> & E2 & ->)].
  { right. split; [|done]. unfold payload. rewrite !length_app, !length_to_le_bytes. lia. }
  cbn [mbind option_bind].
  destruct (read_exact_prefix 8 _ _ _ _ E2 (length_to_le_bytes _ _)) as [[Hl ->]|(p2 & -> & E3 & ->)].
  { right. split; [|done]. unfold payload. rewrite !length_app, !length_to_le_bytes. lia. }
  cbn [mbind option_bind]. unfold MAX_FACTS_PER_ENTRY in *. rewrite !from_to_le_bytes by (pose proof (crc_u32 payload); ilia).
  rewrite (proj2 (Z.ltb_ge _ _)) by lia. rewrite Nat2Z.id.
  destruct (read_facts_prefix _ _ _ _ _ (to_le_bytes 8 (wal_tx_count e) ++
    to_le_bytes 8 (Z.of_nat (length (wal_facts e)))) [] M Hf E3) as [(r & -> & ->)|[Hl ->]].
  - left. exists r. cbn [mbind option_bind]. rewrite <-app_assoc. fold payload.
    rewrite Z.eqb_refl. cbn [negb]. split; [unfold payload; by rewrite <-!app_assoc|].
    by destruct e.
  - right. split; [|done]. unfold payload. rewrite !length_app, !length_to_le_bytes. lia.
Qed.

(** ** Fuel *)

Lemma read_facts_shrinks n : ∀ file payload acc p fs rest,
  read_facts n file payload acc = Some (p, fs, rest) → (length rest ≤ length file)%nat.
Proof using.
  induction n as [|n IH]; intros file payload acc p fs rest; cbn [Wal.read_facts].
  - by intros [= <- <- <-].
  - intros H. apply bind_Some in H as ([len_buf f1] & R1 & H). apply read_exact_length in R1.
    destruct (MAX_FACT_SIZE <? from_le_bytes len_buf); [done|].
    apply bind_Some in H as ([fb f2] & R2 & H). apply read_exact_length in R2.
    destruct (from_bytes fb); [|done]. apply IH in H. lia.
Qed.

Lemma read_entry_shrinks file e rest :
  read_entry file = Some (e, rest) → (length rest + 20 ≤ length file)%nat.
Proof using.
  unfold Wal.read_entry. intros H.
  apply bind_Some in H as ([c f1] & R1 & H). apply read_exact_length in R1.
  apply bind_Some in H as ([t f2] & R2 & H). apply read_exact_length in R2.
  apply bind_Some in H as ([n f3] & R3 & H). apply read_exact_length in R3.
  destruct (MAX_FACTS_PER_ENTRY <? from_le_bytes n); [done|].
  apply bind_Some in H as ([[p fs] f4] & R4 & H). apply read_facts_shrinks in R4.
  destruct (negb _); [done|]. injection H as <- <-. lia.
Qed.

Lemma entries_fuel n file :
  (length file ≤ n)%nat → entries_loop n file = entries_of file.
Proof using.
  unfold Wal.entries_of.
  assert (∀ n m file, (length file ≤ n)%nat → (length file ≤ m)%nat →
    entries_loop n file = entries_loop m file) as H; [|by intros; apply H].
  clear. induction n as [|n IH]; intros m file Hn Hm.
  - destruct file; [|cbn in Hn; lia]. by destruct m.
  - destruct m as [|m]; [destruct file; [done|cbn in Hm; lia]|]. cbn.
    destruct (read_entry file) as [[e rest]|] eqn:R; [|done]. apply read_entry_shrinks in R.
    f_equal. apply IH; lia.
Qed.

Lemma entries_of_step file e rest :
  read_entry file = Some (e, rest) → entries_of file = e :: entries_of rest.
Proof using.
  intros R. apply read_entry_shrinks in R as L. unfold Wal.entries_of.
  destruct file as [|b file]; [cbn in L; lia|]. cbn [length Wal.entries_loop]. rewrite R.
  f_equal. apply entries_fuel. cbn in L. lia.
Qed.

Lemma entries_of_stop file : read_entry file = None → entries_of file = [].
Proof using.
  intros R. unfold Wal.entries_of. destruct file; [done|]. cbn [length Wal.entries_loop]. by rewrite R.
Qed.

Lemma read_entries_body file : read_entries file = Ok (entries_of (drop WAL_HEADER_SIZE file)).
Proof using. apply foldR_collect. Qed.

Lemma header_length : length wal_header = WAL_HEADER_SIZE.
Proof using. done. Qed.

(** ** What a log with well-formed entries reads as *)

Lemma entries_of_log es chunks junk :
  Forall entry_ok es → mapR entry_bytes es = Ok chunks →
  entries_of (concat chunks ++ junk) = es ++ entries_of junk.
Proof using codec_roundtrip crc_u32.
  intros F. revert chunks. induction F as [|e es Fe F IH]; intros chunks M; cbn in M; inv_ok; [done|].
  cbn [concat]. rewrite <-app_assoc.
  match goal with H : entry_bytes e = Ok ?bs, H' : mapR _ es = Ok ?cs |- _ =>
    destruct (read_entry_prefix e bs (bs ++ concat cs ++ junk) [] (concat cs ++ junk) Fe H
      ltac:(by rewrite app_nil_r)) as [(f & E & R)|[L _]] end.
  - apply app_inv_head in E as <-. rewrite (entries_of_step _ _ _ R). cbn. f_equal. by apply IH.
  - rewrite length_app in L. lia.
Qed.

(** Cutting a log anywhere leaves whole chunks and a proper part of the next. *)
Lemma cut_log (chunks : list bytes) j :
  ∃ n, (n ≤ length chunks)%nat ∧
    (length (concat (take n chunks)) ≤ j ∨ n = 0)%nat ∧
    ∃ part, take j (concat chunks) = concat (take n chunks) ++ part ∧
      match chunks !! n with
      | Some c => (length part < length c)%nat ∧ ∃ q, part ++ q = c
      | None => part = []
      end.
Proof using.
  revert j. induction chunks as [|c chunks IH]; intros j.
  - exists 0%nat. cbn. split; [lia|]. split; [by right|]. exists []. by rewrite take_nil.
  - destruct (decide (length c ≤ j)%nat) as [L|L].
    + destruct (IH (j - length c)%nat) as (n & Hn & Hl & part & E & P). exists (S n). cbn.
      split; [lia|]. split.
      { left. rewrite length_app. destruct Hl as [Hl| ->]; [lia|]. rewrite take_0. cbn. lia. }
      exists part. split; [|exact P]. rewrite take_app, take_ge by done.
      rewrite E. by rewrite app_assoc.
    + exists 0%nat. cbn. split; [lia|]. split; [by right|]. exists (take j c). cbn.
      split; [by rewrite take_app_le by lia|]. split; [rewrite length_take; lia|].
      exists (drop j c). apply take_drop.
Qed.

Lemma cut_entries es chunks j :
  Forall entry_ok es → mapR entry_bytes es = Ok chunks →
  ∃ n, entries_of (take j (concat chunks)) = take n es ∧ (n ≤ length es)%nat ∧
    (n = 0 ∨ 0 < length (concat (take n chunks)) ≤ j)%nat ∧
    (∀ c, chunks !! n = Some c → j < length (concat (take n chunks)) + length c)%nat.
Proof using codec_roundtrip crc_u32.
  intros F M. apply mapR_Forall2 in M. pose proof (Forall2_length _ _ _ M) as Len.
  destruct (cut_log chunks j) as (n & Hn & Hl & part & E & P). rewrite E.
  assert (mapR entry_bytes (take n es) = Ok (take n chunks)) as Mn.
  { by apply mapR_Forall2, Forall2_take. }
  exists n. rewrite (entries_of_log (take n es) (take n chunks) part); [|by apply Forall_take|done].
  assert (entries_of part = []) as ->.
  { destruct (chunks !! n) as [c|] eqn:C; [|by subst]. destruct P as [Lp [q Eq]].
    assert (∃ e, es !! n = Some e) as [e Ee].
    { apply lookup_lt_is_Some. rewrite Len. by eapply lookup_lt_Some. }
    assert (entry_bytes e = Ok c) as Be by (by eapply (Forall2_lookup_lr _ _ _ n e c M)).
    rewrite Forall_lookup in F. destruct (read_entry_prefix e c part q [] (F _ _ Ee) Be) as [(f & -> & _)|[_ R]].
    - by rewrite app_nil_r.
    - rewrite length_app in Lp. lia.
    - by apply entries_of_stop. }
  rewrite app_nil_r. split; [done|]. split; [lia|]. split.
  - destruct (decide (n = 0)%nat); [by left|right]. destruct Hl as [Hl|]; [|done]. split; [|done].
    destruct chunks as [|c chunks]; [cbn in Hn; lia|]. destruct n as [|n]; [done|].
    cbn. rewrite length_app. inversion M as [|e ? ? ? Be]; subst. apply entry_bytes_length in Be. lia.
  - intros c C. rewrite C in P. destruct P as [Lp _].
    assert (length (take j (concat chunks)) = length (concat (take n chunks)) + length part)%nat as El
      by (by rewrite E, length_app).
    assert (length (concat (take n chunks)) + length c ≤ length (concat chunks))%nat as Lc.
    { rewrite <-(take_drop_middle chunks n c C) at 2. rewrite concat_app. cbn. rewrite !length_app. lia. }
    rewrite length_take in El. lia.
Qed.

Lemma body_of_prefix k x :
  drop WAL_HEADER_SIZE (take k (wal_header ++ x)) = take (k - WAL_HEADER_SIZE) x.
Proof using. by rewrite skipn_firstn_comm. Qed.

(** Crash recovery.  However many bytes of a log of well-formed entries
    reached the disk, the reader returns exactly the entries that are there
    completely, in order: never a partial entry, never one out of order.  No
    property of the checksum is needed for this. *)
Theorem wal_prefix_recovery es chunks k :
  Forall entry_ok es → mapR entry_bytes es = Ok chunks →
  ∃ n, read_entries (take k (wal_header ++ concat chunks)) = Ok (take n es) ∧
    (n ≤ length es)%nat ∧
    (n = 0 ∨ WAL_HEADER_SIZE + length (concat (take n chunks)) ≤ k)%nat ∧
    (∀ c, chunks !! n = Some c →
       k < WAL_HEADER_SIZE + length (concat (take n chunks)) + length c)%nat.
Proof using codec_roundtrip crc_u32.
  intros F M. rewrite read_entries_body, body_of_prefix.
  destruct (cut_entries es chunks (k - WAL_HEADER_SIZE) F M) as (n & E & Hn & Hl & Hc).
  exists n. split; [by rewrite E|]. split; [done|]. split; [lia|].
  intros c C. specialize (Hc c C). lia.
Qed.

(** Whatever follows well-formed entries, they are read first and
    unchanged: a damaged, torn or foreign tail cannot affect earlier entries;
    in particular an entry appended to an undamaged log is read back. *)
Theorem earlier_entries_unaffected es chunks junk :
  Forall entry_ok es → mapR entry_bytes es = Ok chunks →
  ∃ more, read_entries (wal_header ++ concat chunks ++ junk) = Ok (es ++ more) ∧
    (∀ e bs rest, entry_ok e → entry_bytes e = Ok bs → junk = bs ++ rest → ∃ more', more = e :: more') ∧
    (junk = [] → more = []).
Proof using codec_roundtrip crc_u32.
  intros F M. exists (entries_of junk). split_and!.
  - rewrite read_entries_body. change (drop WAL_HEADER_SIZE (wal_header ++ ?x)) with x.
    f_equal. by apply entries_of_log.
  - intros e bs rest Fe Be ->. exists (entries_of rest).
    destruct (read_entry_prefix e bs (bs ++ rest) [] rest Fe Be ltac:(by rewrite app_nil_r))
      as [(f & E & R)|[L _]]; [|rewrite length_app in L; lia].
    apply app_inv_head in E as <-. by apply entries_of_step.
  - by intros ->.
Qed.

(** ** A torn tail *)

Lemma take4_le8 z : take 4 (to_le_bytes 8 z) = to_le_bytes 4 z.
Proof using. done. Qed.

Lemma from_le_bytes_app (a b : bytes) :
  from_le_bytes (a ++ b) = from_le_bytes a + from_le_bytes b * 2 ^ (8 * Z.of_nat (length a)).
Proof using.
  unfold from_le_bytes. rewrite le_combine_app.
  replace (Z.of_nat (length a) * 8) with (8 * Z.of_nat (length a)) by lia.
  apply lor_shiftl_add; [lia|]. apply le_combine_bound.
Qed.

Lemma entry_bytes_split tx facts bs :
  serialize_entry tx facts = Ok bs →
  ∃ c rest, u32_ok c ∧ bs = (to_le_bytes 4 c ++ to_le_bytes 4 tx) ++ rest.
Proof using crc_u32.
  unfold Wal.serialize_entry. intros H. inv_ok. eexists _, (drop 4 (to_le_bytes 8 tx) ++ _).
  split; [apply crc_u32|]. by rewrite <-take4_le8, <-!app_assoc.
Qed.

Lemma torn_entry_stops (torn : bytes) tx facts bs more :
  length torn = 12%nat → 0 < tx mod 2 ^ 32 → serialize_entry tx facts = Ok bs →
  read_entry (torn ++ bs ++ more) = None.
Proof using crc_u32.
  intros L T S. apply entry_bytes_split in S as (c & rest & C & ->).
  rewrite <-(take_drop 4 torn), <-!app_assoc. unfold Wal.read_entry.
  rewrite read_exact_app by (rewrite length_take; lia). cbn [mbind option_bind].
  rewrite read_exact_app by (rewrite length_drop; lia). cbn [mbind option_bind].
  rewrite (app_assoc (to_le_bytes 4 c)).
  rewrite read_exact_app by (by rewrite length_app, !length_to_le_bytes). cbn [mbind option_bind].
  rewrite from_le_bytes_app, length_to_le_bytes, from_to_le_bytes by ilia.
  assert (from_le_bytes (to_le_bytes 4 tx) = tx mod 2 ^ 32) as ->.
  { unfold from_le_bytes, to_le_bytes. by rewrite le_combine_split. }
  rewrite (proj2 (Z.ltb_lt _ _)); [done|]. unfold MAX_FACTS_PER_ENTRY. ilia.
Qed.

(** A torn tail is not removed when the log is opened for appending.  If a
    crash left exactly twelve bytes of an entry, every entry appended later
    (with a counter below 2^32, or not a multiple of it) is acknowledged but
    never read back: recovery returns only the entries before the tear,
    whatever the codec and the checksum are. *)
Theorem torn_tail_hides_appends es chunks torn :
  Forall entry_ok es → mapR entry_bytes es = Ok chunks → length torn = 12%nat →
  let file := wal_header ++ concat chunks ++ torn in
  open_or_create (Some file) = Ok file ∧
  ∀ tx facts file', 0 < tx mod 2 ^ 32 →
    append_entry to_allocvec crc32 file tx facts = Ok file' →
    ∀ more, read_entries (file' ++ more) = Ok es.
Proof using codec_roundtrip crc_u32.
  intros F M L file. split.
  - unfold open_or_create. assert ((length file <? WAL_HEADER_SIZE)%nat = false) as ->; [|done].
    apply Nat.ltb_ge. unfold file. rewrite length_app, header_length. lia.
  - intros tx facts file' T A more. unfold append_entry in A. inv_ok.
    match goal with H : Wal.serialize_entry _ _ _ _ = Ok ?e |- _ => rename H into S; rename e into bs end.
    rewrite read_entries_body. unfold file. rewrite <-!app_assoc.
    change (drop WAL_HEADER_SIZE (wal_header ++ ?x)) with x.
    rewrite (entries_of_log es chunks); [|done..].
    rewrite entries_of_stop; [by rewrite app_nil_r|]. by eapply torn_entry_stops.
Qed.

(** ** Replay *)

(** The writer has no bound on the facts of one entry but the reader stops
    at entries of more than 1,000,000: such an entry is acknowledged, and it and
    everything after it is lost on recovery. *)
Theorem oversized_entry_unreadable es chunks tx facts :
  Forall entry_ok es → mapR entry_bytes es = Ok chunks →
  MAX_FACTS_PER_ENTRY < Z.of_nat (length facts) < 2 ^ 64 →
  ∀ file', append_entry to_allocvec crc32 (wal_header ++ concat chunks) tx facts = Ok file' →
  ∀ more, read_entries (file' ++ more) = Ok es.
Proof using codec_roundtrip crc_u32.
  intros F M N file' A more. unfold append_entry in A. inv_ok.
  match goal with H : Wal.serialize_entry _ _ _ _ = Ok ?e |- _ => rename H into S; rename e into bs end.
  rewrite read_entries_body, <-!app_assoc.
  change (drop WAL_HEADER_SIZE (wal_header ++ ?x)) with x.
  rewrite (entries_of_log es chunks); [|done..].
  rewrite entries_of_stop; [by rewrite app_nil_r|].
  unfold Wal.serialize_entry in S. inv_ok. rewrite <-!app_assoc. unfold Wal.read_entry.
  do 3 (rewrite read_exact_app by (by rewrite length_to_le_bytes); cbn [mbind option_bind]).
  rewrite from_to_le_bytes by lia. by rewrite (proj2 (Z.ltb_lt _ _)) by lia.
Qed.

Section replay_after_crash.
Context (hasher : EavtKey → Z).

Lemma validate_header_ok x : validate_wal_header (wal_header ++ x) = Ok ().
Proof using.
  unfold validate_wal_header, get_range. rewrite decide_True; [done|].
  rewrite length_app, header_length. lia.
Qed.

Lemma reader_open_prefix k x :
  reader_open (take k (wal_header ++ x)) = Ok (take k (wal_header ++ x)).
Proof using.
  unfold reader_open. destruct (Nat.leb_spec WAL_HEADER_SIZE (length (take k (wal_header ++ x)))) as [L|L];
    [|done].
  rewrite length_take in L. rewrite take_app, take_ge by (rewrite header_length; lia).
  by rewrite validate_header_ok.
Qed.

(** Replaying a prefix of a log of well-formed entries. *)
Lemma replay_prefix s log ck es chunks k :
  store_ok hasher s log → records (pending s) = [] → (∀ f, f ∈ log → tx_count f ≤ ck) → 0 ≤ ck →
  Forall entry_ok es → mapR entry_bytes es = Ok chunks → stamped es →
  Z.of_nat (length (concat (wal_facts <$> es))) ≤ 2 ^ 32 →
  ∃ n s', (n ≤ length es)%nat ∧
    (∀ c, chunks !! n = Some c →
       k < WAL_HEADER_SIZE + length (concat (take n chunks)) + length c)%nat ∧
    (n = 0 ∨ WAL_HEADER_SIZE + length (concat (take n chunks)) ≤ k)%nat ∧
    let recovered := newer ck (take n es) in
    replay_wal from_bytes crc32 hasher (Some (take k (wal_header ++ concat chunks))) s ck
      = Ok (s', length recovered) ∧
    store_ok hasher s' (log ++ accepted true [] (concat (wal_facts <$> recovered))) ∧
    ck ≤ tx_counter s'.
Proof using codec_roundtrip crc_u32.
  intros OkS Em Bk Ck F M St Cap.
  destruct (cut_entries es chunks (k - WAL_HEADER_SIZE) F M) as (n & En & Hn & Hl & Hc).
  exists n. set (recovered := newer ck (take n es)).
  assert (stamped (take n es)) as Stn.
  { destruct St as [T S]. split.
    - intros e f (i & E & _)%elem_of_take. apply T. by eapply list_elem_of_lookup_2.
    - rewrite <-(take_drop n es) in S. by apply StronglySorted_app_1_l in S. }
  destruct (stamped_sorted ck _ Stn) as [Sn Fn]. fold recovered in Sn, Fn.
  assert (fits s (length (concat (wal_facts <$> recovered)))) as Fi.
  { unfold fits. rewrite Em. cbn. pose proof (newer_length ck (take n es)) as H1.
    rewrite <-(take_drop n es), fmap_app, concat_app, length_app in Cap. fold recovered in H1. lia. }
  destruct (replay_entries hasher ck (take n es) s 0 (so_overlay _ _ _ OkS) Fi) as (s1 & E1 & G1).
  fold recovered in E1, G1. rewrite Nat.add_0_l in E1.
  destruct (replayed_store hasher s s1 log ck (concat (wal_facts <$> recovered))) as [Ok1 C1]; [done..| | |].
  { done. }
  { intros f Hf. apply Fn in Hf as [Hf _]. done. }
  eexists. split; [done|]. split; [intros c C; specialize (Hc c C); lia|]. split; [lia|]. split; [|split; [exact Ok1|exact C1]].
  unfold replay_wal. rewrite reader_open_prefix. cbn [mbind result_bind]. unfold visit_entries.
  rewrite body_of_prefix. fold entries_of. rewrite En, E1. done.
Qed.

(** C4: replay after a crash.  A store holding the checkpointed ledger (all
    counters at most [ck]) replays a log of which the first [k] bytes reached
    the disk: it ends with the ledger followed by the new facts of exactly the
    entries that lie within those bytes and are above the checkpoint, each
    identity once, counters still sorted, and a transaction counter that is at
    least [ck] and at least every count of the ledger, so that the next count
    is above them all. *)
Theorem replay_recovers s log ck es chunks k :
  store_ok hasher s log → records (pending s) = [] → (∀ f, f ∈ log → tx_count f ≤ ck) → 0 ≤ ck →
  Forall entry_ok es → mapR entry_bytes es = Ok chunks → stamped es →
  Z.of_nat (length (concat (wal_facts <$> es))) ≤ 2 ^ 32 →
  ∃ n s', (n ≤ length es)%nat ∧
    (∀ c, chunks !! n = Some c →
       k < WAL_HEADER_SIZE + length (concat (take n chunks)) + length c)%nat ∧
    (n = 0 ∨ WAL_HEADER_SIZE + length (concat (take n chunks)) ≤ k)%nat ∧
    let recovered := newer ck (take n es) in
    let ledger := log ++ accepted true [] (concat (wal_facts <$> recovered)) in
    replay_wal from_bytes crc32 hasher (Some (take k (wal_header ++ concat chunks))) s ck
      = Ok (s', length recovered) ∧
    store_ok hasher s' ledger ∧
    ck ≤ tx_counter s' ∧ (∀ f, f ∈ ledger → tx_count f ≤ tx_counter s').
Proof using codec_roundtrip crc_u32.
  intros OkS Em Bk Ck F M St Cap.
  destruct (replay_prefix s log ck es chunks k OkS Em Bk Ck F M St Cap) as (n & s' & Hn & Hc & Hl & R & Ok' & C').
  exists n, s'. do 3 (split; [done|]). cbn zeta. split_and!; [done..|]. intros f I. apply (so_counts _ _ _ Ok' f I).
Qed.
End replay_after_crash.
End recovery.

(** * Witnesses: a codec for two facts and an additive checksum *)

Definition demo_fact (n : Z) : Fact := mkFact 7 ":name" (VInteger n) 1000 n 0 100 true.
Definition demo_encode (f : Fact) : result bytes :=
  if bool_decide (f = demo_fact 1) then Ok [z2b 1]
  else if bool_decide (f = demo_fact 2) then Ok [z2b 2; z2b 2]
  else Err "not in the demonstration set".
Definition demo_decode (bs : bytes) : result Fact :=
  if bool_decide (bs = [z2b 1]) then Ok (demo_fact 1)
  else if bool_decide (bs = [z2b 2; z2b 2]) then Ok (demo_fact 2)
  else Err "not in the demonstration set".
Definition demo_crc (bs : bytes) : Z := foldr (λ b acc, (b2z b + acc) mod 2 ^ 32) 0 bs.

Lemma demo_codec f bs : fact_ok f → demo_encode f = Ok bs → demo_decode bs = Ok f.
Proof.
  intros _. unfold demo_encode. case_bool_decide as E; [intros [= <-]; by subst|].
  case_bool_decide as E'; [intros [= <-]; by subst|done].
Qed.
Lemma demo_crc_u32 bs : u32_ok (demo_crc bs).
Proof.
  unfold u32_ok. destruct bs as [|b bs]; cbn; [lia|]. apply Z.mod_pos_bound. lia.
Qed.

Definition demo_log : list WalEntry := [mkWalEntry 1 [demo_fact 1]; mkWalEntry 2 [demo_fact 2]].
Definition demo_chunks : list bytes :=
  match mapR (entry_bytes demo_encode demo_crc) demo_log with Ok c => c | Err _ => [] end.

Lemma demo_log_ok : Forall entry_ok demo_log.
Proof. repeat (constructor; [split_and!; try done; constructor; [|constructor]; split; try done; cbn; ilia|]). constructor. Qed.
Lemma demo_chunks_ok : mapR (entry_bytes demo_encode demo_crc) demo_log = Ok demo_chunks.
Proof. by vm_compute. Qed.

(** Sixty bytes hold the first entry (25 bytes after the header) and three bytes
    of the second. *)
Lemma wal_prefix_recovery_witness :
  ∃ n, read_entries demo_decode demo_crc (take 60 (wal_header ++ concat demo_chunks))
         = Ok (take n demo_log) ∧
    (∀ c, demo_chunks !! n = Some c →
       60 < WAL_HEADER_SIZE + length (concat (take n demo_chunks)) + length c)%nat.
Proof.
  destruct (wal_prefix_recovery demo_encode demo_decode demo_crc demo_codec demo_crc_u32
    demo_log demo_chunks 60 demo_log_ok demo_chunks_ok) as (n & E & _ & _ & H).
  exists n. split; [exact E|exact H].
Defined.

Lemma earlier_entries_unaffected_witness :
  ∃ more, read_entries demo_decode demo_crc (wal_header ++ concat demo_chunks ++ [z2b 3; z2b 4])
          = Ok (demo_log ++ more).
Proof.
  destruct (earlier_entries_unaffected demo_encode demo_decode demo_crc demo_codec demo_crc_u32
    demo_log demo_chunks [z2b 3; z2b 4] demo_log_ok demo_chunks_ok) as (more & E & _).
  exists more. exact E.
Defined.

Lemma torn_tail_hides_appends_witness :
  ∃ file', append_entry demo_encode demo_crc
      (wal_header ++ concat (take 1 demo_chunks) ++ take 12 (default [] (demo_chunks !! 1%nat)))
      2 [demo_fact 2] = Ok file' ∧
    read_entries demo_decode demo_crc (file' ++ []) = Ok (take 1 demo_log).
Proof.
  destruct (torn_tail_hides_appends demo_encode demo_decode demo_crc demo_codec demo_crc_u32
    (take 1 demo_log) (take 1 demo_chunks) (take 12 (default [] (demo_chunks !! 1%nat)))
    (Forall_take _ 1 _ demo_log_ok) ltac:(by vm_compute) ltac:(by vm_compute)) as [_ H].
  eexists. split; [by vm_compute|]. apply (H 2 [demo_fact 2]); by vm_compute.
Defined.

Lemma oversized_entry_unreadable_witness :
  ∃ file', append_entry demo_encode demo_crc (wal_header ++ concat demo_chunks) 3
             (replicate (Z.to_nat 1000001) (demo_fact 1)) = Ok file' ∧
    read_entries demo_decode demo_crc (file' ++ []) = Ok demo_log.
Proof.
  assert (∀ n, mapR (serialize_fact demo_encode) (replicate n (demo_fact 1))
    = Ok (replicate n (to_le_bytes 4 1 ++ [z2b 1]))) as E.
  { intros n. apply mapR_Forall2. induction n; constructor; done. }
  unfold append_entry, serialize_entry. rewrite E. eexists. split; [reflexivity|].
  eapply (oversized_entry_unreadable demo_encode demo_decode demo_crc demo_codec demo_crc_u32
    demo_log demo_chunks 3 (replicate (Z.to_nat 1000001) (demo_fact 1)) demo_log_ok demo_chunks_ok).
  - rewrite length_replicate, Z2Nat.id by done. done.
  - unfold append_entry, serialize_entry. by rewrite E.
Defined.

(** The same sixty bytes: the first entry is replayed, the cut one is not. *)
Lemma replay_recovers_witness :
  ∃ s', replay_wal demo_decode demo_crc const_hasher
          (Some (take 60 (wal_header ++ concat demo_chunks))) storage_new 0 = Ok (s', 1%nat) ∧
    store_ok const_hasher s' [demo_fact 1] ∧ 1 ≤ tx_counter s'.
Proof.
  destruct (replay_recovers demo_encode demo_decode demo_crc demo_codec demo_crc_u32 const_hasher
    storage_new [] 0 demo_log demo_chunks 60 (storage_new_ok _) eq_refl ltac:(set_solver)
    ltac:(done) demo_log_ok demo_chunks_ok) as (n & s' & Hn & Hu & Hl & E & O & _ & C).
  - split; [|repeat constructor; by cbn].
    by intros e f [->|[->|[]%elem_of_nil]%elem_of_cons]%elem_of_cons [->|[]%elem_of_nil]%elem_of_cons.
  - by vm_compute.
  - exists s'. assert (n = 1%nat) as ->.
    { destruct n as [|[|[|n]]]; [|done| |cbn in Hn; lia].
      - specialize (Hu _ eq_refl). vm_compute in Hu. lia.
      - destruct Hl as [?|Hl]; [done|]. vm_compute in Hl. lia. }
    split; [exact E|]. split; [exact O|]. exact (C (demo_fact 1) ltac:(left)).
Defined.
