(* ===== verification/PackedPages.v ===== *)
(** Packed fact pages (src/src/storage/packed_pages.rs): the on-disk form of the
    committed ledger.  A page is its 4096 bytes; the record directory grows from
    the header up, the record data from the end of the page down.

    postcard is a parameter that reads back what it wrote; the storage backend
    is its [read_page] function.  [push] fails only by abandoning the packer, so
    it returns the new packer with the reference or an error. *)
From S2P Require Import Prelude Types ValueCodec Index Wal FactStore.

Definition PAGE_SIZE : nat := Z.to_nat 4096.
Definition PAGE_TYPE_PACKED : Z := 0x02.
Definition PACKED_HEADER_SIZE : nat := 12.

Lemma PAGE_SIZE_val : Z.of_nat PAGE_SIZE = 4096.
Proof. done. Qed.
#[global] Opaque PAGE_SIZE.

(** [page.get_mut(off..off+len)?.copy_from_slice(bs)]. *)
Definition write_at (page : bytes) (off : nat) (bs : bytes) : option bytes :=
  if (off + length bs <=? length page)%nat
  then Some (take off page ++ bs ++ drop (off + length bs) page) else None.

Definition new_packed_page : bytes := z2b PAGE_TYPE_PACKED :: replicate (PAGE_SIZE - 1) (z2b 0).
Definition write_record_count (page : bytes) (count : Z) : bytes :=
  default page (write_at page 2 (to_le_bytes 2 count)).

Record PackedFactPacker : Type := mkPacker {
  start_page_id : Z;
  completed_page_count : Z;
  pk_pages : list bytes;
  current_page : bytes;
  current_record_count : Z;
  dir_offset : nat;
  data_offset : nat;
}.
Definition packer_new (start : Z) : PackedFactPacker :=
  mkPacker start 0 [] new_packed_page 0 PACKED_HEADER_SIZE PAGE_SIZE.

Definition u16_try_from (n : nat) (e : string) : result Z :=
  if Z.of_nat n <=? u16_MAX then Ok (Z.of_nat n) else Err e.

(** Flush the current page and start a new one. *)
Definition flush_page (p : PackedFactPacker) : result PackedFactPacker :=
  completed ← ok_or (checked_add_u64 (completed_page_count p) 1) "packed fact page count overflow";
  Ok (mkPacker (start_page_id p) completed
        (pk_pages p ++ [write_record_count (current_page p) (current_record_count p)])
        new_packed_page 0 PACKED_HEADER_SIZE PAGE_SIZE).

(** Write one record onto the current page: data, directory entry, reference. *)
Definition write_slot (p : PackedFactPacker) (serialised : bytes) : result (PackedFactPacker * FactRef) :=
  let len := length serialised in
  let data_off := (data_offset p - len)%nat in
  page ← ok_or (write_at (current_page p) data_off serialised) "packed page too short";
  offset_u16 ← u16_try_from data_off "data_offset overflows u16";
  len_u16 ← u16_try_from len "serialised fact too large";
  page ← ok_or (write_at page (dir_offset p) (to_le_bytes 2 offset_u16)) "packed page dir out of bounds";
  page ← ok_or (write_at page (dir_offset p + 2) (to_le_bytes 2 len_u16)) "packed page dir out of bounds";
  page_id ← ok_or (checked_add_u64 (start_page_id p) (completed_page_count p))
              "packed fact page id overflow";
  Ok (mkPacker (start_page_id p) (completed_page_count p) (pk_pages p) page
        (Z.min (current_record_count p + 1) u16_MAX) (dir_offset p + 4) data_off,
      mkFactRef page_id (current_record_count p)).

Section packing.
Context (to_allocvec : Fact → result bytes).

Definition push (p : PackedFactPacker) (fact : Fact) : result (PackedFactPacker * FactRef) :=
  serialised ← to_allocvec fact;
  let len := length serialised in
  _ ← ensure (Z.of_nat len <=? MAX_FACT_BYTES) "Fact serialised size exceeds maximum slot size";
  let free := (data_offset p - (dir_offset p + 4))%nat in
  p ← (if (free <? len)%nat || (current_record_count p =? u16_MAX) then flush_page p else Ok p);
  write_slot p serialised.

Definition finish (p : PackedFactPacker) : list bytes :=
  pk_pages p ++ [write_record_count (current_page p) (current_record_count p)].

Definition take_completed_pages (p : PackedFactPacker) : PackedFactPacker * list bytes :=
  (mkPacker (start_page_id p) (completed_page_count p) [] (current_page p)
     (current_record_count p) (dir_offset p) (data_offset p), pk_pages p).

Definition pack_facts (facts : list Fact) (start : Z) : result (list bytes * list FactRef) :=
  '(p, fact_refs) ←
    foldR (λ '(p, refs) fact, '(p, r) ← push p fact; Ok (p, refs ++ [r])) (packer_new start, []) facts;
  Ok (finish p, fact_refs).
End packing.

(** * Reading *)

Definition page_byte (page : bytes) (i : nat) : Z :=
  match page !! i with Some b => b2z b | None => 0 end.
(** [u16::from_le_bytes([page[i], page[i+1]])]. *)
Definition page_u16 (page : bytes) (i : nat) : option Z :=
  b0 ← page !! i; b1 ← page !! (S i); Some (from_le_bytes [b0; b1]).

(** [u16::from_le_bytes([b2, b3])] with [page.get(i).copied().unwrap_or(0)]. *)
Definition record_count_or_zero (page : bytes) : Z :=
  from_le_bytes [default (z2b 0) (page !! 2%nat); default (z2b 0) (page !! 3%nat)].

Section reading.
Context (from_bytes : bytes → result Fact).

Definition read_slot (page : bytes) (slot : Z) : result Fact :=
  _ ← ensure (PAGE_SIZE <=? length page)%nat "Page too short";
  _ ← ensure (page_byte page 0 =? PAGE_TYPE_PACKED) "Expected packed page (0x02)";
  record_count ← ok_or (page_u16 page 2) "packed page too short for record_count";
  _ ← ensure (slot <? record_count) "Slot out of bounds";
  let dir_base := (PACKED_HEADER_SIZE + Z.to_nat slot * 4)%nat in
  offset ← ok_or (page_u16 page dir_base) "packed page dir entry out of bounds";
  length ← ok_or (page_u16 page (dir_base + 2)) "packed page dir entry out of bounds";
  _ ← ensure (offset + length <=? Z.of_nat PAGE_SIZE) "Record extends beyond page boundary";
  record ← ok_or (get_range page (Z.to_nat offset) (Z.to_nat offset + Z.to_nat length))
             "packed page record out of bounds";
  from_bytes record.

Definition last_tx_count (page : bytes) : result (option Z) :=
  if (length page <? PAGE_SIZE)%nat || negb (page_byte page 0 =? PAGE_TYPE_PACKED) then Ok None
  else
    let record_count := record_count_or_zero page in
    if record_count =? 0 then Ok None
    else f ← read_slot page (record_count - 1); Ok (Some (tx_count f)).

Section pages.
Context (read_page : Z → result bytes) {S : Type}.

(** The slots [0..record_count] of one page. *)
Definition visit_slots (page : bytes) (record_count : Z) (visit : S → nat → Fact → result S) (s : S)
    : result S :=
  foldR (λ s slot, f ← read_slot page (Z.of_nat slot); visit s slot f) s
    (seq 0 (Z.to_nat record_count)).

Definition visit_fact_refs_in_pages (start : Z) (page_count : nat)
    (visitor : S → Fact → FactRef → result S) (s : S) : result S :=
  foldR (λ s page_offset,
      page_id ← ok_or (checked_add_u64 start (Z.of_nat page_offset)) "fact page id overflow";
      page ← read_page page_id;
      record_count ← ok_or (page_u16 page 2) "packed page missing record count";
      visit_slots page record_count
        (λ s slot f, visitor s f (mkFactRef page_id (Z.of_nat slot))) s)
    s (seq 0 page_count).

Definition for_each_from_pages (first_page_id : Z) (num_pages : nat) (visit : S → Fact → result S)
    (s : S) : result S :=
  foldR (λ s i,
      page ← read_page (sat_add_u64 first_page_id (Z.of_nat i));
      _ ← ensure (length page =? PAGE_SIZE)%nat "Committed fact page has invalid length";
      _ ← ensure (page_byte page 0 =? PAGE_TYPE_PACKED) "Committed fact page has invalid page type";
      visit_slots page (record_count_or_zero page) (λ s _ f, visit s f) s)
    s (seq 0 num_pages).
End pages.

Definition read_all_from_pages (read_page : Z → result bytes) (first_page_id : Z) (num_pages : nat)
    : result (list Fact) :=
  for_each_from_pages read_page first_page_id num_pages (λ facts f, Ok (facts ++ [f])) [].
End reading.

(** * The layout of a page *)

(** The directory of the records: each offset is counted down from the end. *)
Fixpoint directory (data_end : Z) (rs : list bytes) : bytes :=
  match rs with
  | [] => []
  | r :: rs =>
      let off := data_end - Z.of_nat (length r) in
      to_le_bytes 2 off ++ to_le_bytes 2 (Z.of_nat (length r)) ++ directory off rs
  end.

Definition total (rs : list bytes) : nat := length (concat rs).
Definition gap (rs : list bytes) : nat := (PAGE_SIZE - PACKED_HEADER_SIZE - 4 * length rs - total rs)%nat.

Definition page_head (count : Z) : bytes :=
  [z2b PAGE_TYPE_PACKED; z2b 0] ++ to_le_bytes 2 count ++ replicate 8 (z2b 0).

Definition layout (count : Z) (rs : list bytes) : bytes :=
  page_head count ++ directory (Z.of_nat PAGE_SIZE) rs ++ replicate (gap rs) (z2b 0) ++ concat (rev rs).

(** The records fit. *)
Definition page_fits (rs : list bytes) : Prop :=
  (PACKED_HEADER_SIZE + 4 * length rs + total rs ≤ PAGE_SIZE)%nat.

Lemma total_app rs rs' : total (rs ++ rs') = (total rs + total rs')%nat.
Proof. unfold total. by rewrite concat_app, length_app. Qed.
Lemma total_one r : total [r] = length r.
Proof. unfold total. cbn. by rewrite app_nil_r. Qed.
Lemma total_cons r rs : total (r :: rs) = (length r + total rs)%nat.
Proof. change (r :: rs) with ([r] ++ rs). by rewrite total_app, total_one. Qed.
Lemma total_rev rs : total (rev rs) = total rs.
Proof.
  induction rs as [|r rs IH]; [done|]. cbn [rev]. rewrite total_app, IH, total_one, total_cons. lia.
Qed.

Lemma directory_length e rs : length (directory e rs) = (4 * length rs)%nat.
Proof.
  revert e; induction rs as [|r rs IH]; intros e; [done|]. cbn [directory length].
  rewrite !length_app, !length_to_le_bytes, IH. lia.
Qed.

Lemma directory_app e rs rs' :
  directory e (rs ++ rs') = directory e rs ++ directory (e - Z.of_nat (total rs)) rs'.
Proof.
  revert e; induction rs as [|r rs IH]; intros e; cbn [directory app].
  - unfold total. cbn. by rewrite Z.sub_0_r.
  - rewrite IH, <-!app_assoc. do 4 f_equal. unfold total. cbn. rewrite length_app. lia.
Qed.

Lemma page_head_length c : length (page_head c) = PACKED_HEADER_SIZE.
Proof. unfold page_head. lens. by rewrite length_replicate. Qed.

Lemma layout_length c rs : page_fits rs → length (layout c rs) = PAGE_SIZE.
Proof.
  unfold page_fits, layout, gap. intros F.
  rewrite !length_app, page_head_length, directory_length, length_replicate.
  fold (total (rev rs)). rewrite total_rev. lia.
Qed.

Lemma layout_new : new_packed_page = layout 0 [].
Proof.
  unfold new_packed_page. assert (PAGE_SIZE - 1 = 11 + gap [])%nat as ->.
  { pose proof PAGE_SIZE_val. unfold gap, PACKED_HEADER_SIZE, total. cbn. lia. }
  rewrite replicate_add. unfold layout. cbn [directory rev concat].
  by rewrite (app_nil_r (replicate (gap []) _)).
Qed.

Lemma write_at_mid (a b b' c : bytes) n :
  n = length a → length b' = length b → write_at (a ++ b ++ c) n b' = Some (a ++ b' ++ c).
Proof.
  intros -> L. unfold write_at. rewrite !length_app, L.
  rewrite (proj2 (Nat.leb_le _ _)) by lia. rewrite take_app_length.
  by rewrite (app_assoc a b c), (drop_app_length' (a ++ b)) by (by rewrite length_app).
Qed.

Lemma write_count_layout c rs : write_record_count (layout 0 rs) c = layout c rs.
Proof.
  unfold write_record_count, layout, page_head. rewrite <-!app_assoc.
  by rewrite write_at_mid by (by rewrite ?length_to_le_bytes).
Qed.

(** Writing a record: first the data, then its directory entry. *)
Lemma write_record rs r :
  page_fits (rs ++ [r]) →
  let off := (PAGE_SIZE - total rs - length r)%nat in
  let dir := (PACKED_HEADER_SIZE + 4 * length rs)%nat in
  ∃ p1 p2, write_at (layout 0 rs) off r = Some p1 ∧
    write_at p1 dir (to_le_bytes 2 (Z.of_nat off)) = Some p2 ∧
    write_at p2 (dir + 2) (to_le_bytes 2 (Z.of_nat (length r))) = Some (layout 0 (rs ++ [r])).
Proof.
  intros F off dir. unfold page_fits in F. rewrite length_app, total_app, total_one in F. cbn [length] in F.
  set (head := page_head 0 ++ directory (Z.of_nat PAGE_SIZE) rs).
  assert (length head = dir) as Lh.
  { unfold head. by rewrite length_app, page_head_length, directory_length. }
  set (g := (gap rs - 4 - length r)%nat).
  assert (gap rs = 2 + (2 + (g + length r)))%nat as Eg by (unfold g, gap in *; lia).
  set (z2 := replicate 2 (z2b 0)). set (tail := concat (rev rs)).
  exists (head ++ z2 ++ z2 ++ replicate g (z2b 0) ++ r ++ tail),
         (head ++ to_le_bytes 2 (Z.of_nat off) ++ z2 ++ replicate g (z2b 0) ++ r ++ tail).
  split_and!.
  - unfold layout. rewrite app_assoc. fold head tail. rewrite Eg, !replicate_add, <-!app_assoc. fold z2.
    rewrite (app_assoc head), (app_assoc (head ++ z2)), (app_assoc ((head ++ z2) ++ z2)).
    rewrite write_at_mid.
    + by rewrite <-!app_assoc.
    + rewrite !length_app, Lh. unfold z2. rewrite !length_replicate. unfold off, dir, gap in *. lia.
    + by rewrite length_replicate.
  - by rewrite write_at_mid by (by rewrite ?length_to_le_bytes).
  - rewrite (app_assoc head). rewrite write_at_mid.
    + unfold layout. rewrite directory_app, rev_app_distr. cbn [directory rev app concat].
      rewrite <-!app_assoc. fold tail. unfold head. rewrite <-!app_assoc. cbn [app].
      repeat f_equal; [unfold off; lia|]. unfold g, gap. rewrite length_app, total_app, total_one. cbn [length]. lia.
    + by rewrite length_app, length_to_le_bytes, Lh.
    + by rewrite length_to_le_bytes.
Qed.

(** * Reading a page *)

Lemma page_u16_at (a b : bytes) z n :
  n = length a → 0 ≤ z < 2 ^ 16 → page_u16 (a ++ to_le_bytes 2 z ++ b) n = Some z.
Proof.
  intros -> Hz. unfold page_u16.
  change (to_le_bytes 2 z ++ b) with (z2b z :: z2b (Z.shiftr z 8) :: b).
  rewrite !lookup_app_r, Nat.sub_diag by lia.
  replace (S (length a) - length a)%nat with 1%nat by lia. cbn [lookup list_lookup mbind option_bind].
  f_equal. change [z2b z; z2b (Z.shiftr z 8)] with (to_le_bytes 2 z). apply from_to_le_bytes. lia.
Qed.

Lemma page_count_layout c rs : 0 ≤ c < 2 ^ 16 → page_u16 (layout c rs) 2 = Some c.
Proof.
  intros H. unfold layout, page_head. rewrite <-!app_assoc. by apply page_u16_at.
Qed.

Lemma read_slot_layout (from_bytes : bytes → result Fact) c rs i r :
  page_fits rs → Z.of_nat (length rs) ≤ c < 2 ^ 16 → rs !! i = Some r →
  read_slot from_bytes (layout c rs) (Z.of_nat i) = from_bytes r.
Proof.
  intros F C L. unfold read_slot.
  assert (∃ rs1 rs2, rs = rs1 ++ r :: rs2 ∧ length rs1 = i) as (rs1 & rs2 & -> & Li).
  { exists (take i rs), (drop (S i) rs). split; [by rewrite take_drop_middle|].
    rewrite length_take. apply lookup_lt_Some in L. lia. }
  rewrite layout_length by done. rewrite (proj2 (Nat.leb_le _ _)) by lia. cbn [ensure mbind result_bind].
  change (page_byte (layout c (rs1 ++ r :: rs2)) 0) with PAGE_TYPE_PACKED.
  rewrite Z.eqb_refl. cbn [ensure mbind result_bind].
  rewrite page_count_layout by lia. cbn [ok_or mbind result_bind].
  rewrite length_app in C. cbn [length] in C.
  rewrite (proj2 (Z.ltb_lt _ _)) by lia. cbn [ensure mbind result_bind]. rewrite Nat2Z.id.
  unfold page_fits in F. rewrite length_app, total_app in F. cbn [length] in F.
  change (r :: rs2) with ([r] ++ rs2) in F. rewrite total_app, total_one in F.
  pose proof PAGE_SIZE_val as Ps.
  set (off := Z.of_nat PAGE_SIZE - Z.of_nat (total rs1) - Z.of_nat (length r)).
  assert (layout c (rs1 ++ r :: rs2) =
    (page_head c ++ directory (Z.of_nat PAGE_SIZE) rs1) ++ to_le_bytes 2 off ++
    to_le_bytes 2 (Z.of_nat (length r)) ++ directory off rs2 ++
    replicate (gap (rs1 ++ r :: rs2)) (z2b 0) ++ concat (rev (rs1 ++ r :: rs2))) as El.
  { unfold layout. rewrite directory_app. cbn [directory]. by rewrite <-!app_assoc. }
  rewrite El at 1. rewrite page_u16_at.
  2: { rewrite length_app, page_head_length, directory_length. lia. }
  2: { unfold off. lia. }
  cbn [ok_or mbind result_bind]. rewrite El at 1.
  rewrite (app_assoc (page_head c ++ _)), page_u16_at.
  2: { rewrite !length_app, page_head_length, directory_length, length_to_le_bytes. lia. }
  2: { lia. }
  cbn [ok_or mbind result_bind]. rewrite (proj2 (Z.leb_le _ _)) by (unfold off; lia).
  cbn [ensure mbind result_bind].
  assert (get_range (layout c (rs1 ++ r :: rs2)) (Z.to_nat off) (Z.to_nat off + Z.to_nat (Z.of_nat (length r)))
          = Some r) as ->; [|done].
  assert (∃ x, layout c (rs1 ++ r :: rs2) = x ++ r ++ concat (rev rs1)) as [x Ex].
  { unfold layout. rewrite rev_app_distr. cbn [rev]. rewrite !concat_app. cbn [concat]. rewrite app_nil_r.
    eexists. rewrite !app_assoc. reflexivity. }
  assert (length x = Z.to_nat off) as Lx.
  { pose proof (f_equal length Ex) as Le. rewrite layout_length in Le.
    - rewrite !length_app in Le. fold (total (rev rs1)) in Le. rewrite total_rev in Le. unfold off. lia.
    - unfold page_fits. rewrite length_app, total_app. change (r :: rs2) with ([r] ++ rs2).
      rewrite total_app, total_one. cbn [length app]. lia. }
  apply (get_range_at _ x r (concat (rev rs1))); [done|lia|lia].
Qed.

(** * Pages and the facts they hold *)

Section holding.
Context (from_bytes : bytes → result Fact).

Definition holds (page : bytes) (fs : list Fact) : Prop :=
  ∃ rs, page = layout (Z.of_nat (length rs)) rs ∧ page_fits rs ∧ Forall2 (λ f r, from_bytes r = Ok f) fs rs.

(** A page has room for at most 1021 records. *)
Lemma page_fits_count rs : page_fits rs → (length rs ≤ 1021)%nat.
Proof. unfold page_fits, PACKED_HEADER_SIZE. pose proof PAGE_SIZE_val. lia. Qed.

Lemma holds_length page fs : holds page fs → length page = PAGE_SIZE.
Proof. intros (rs & -> & F & _). by apply layout_length. Qed.
Lemma holds_bound page fs : holds page fs → Z.of_nat (length fs) < 2 ^ 16.
Proof. intros (rs & -> & F & H). apply Forall2_length in H. apply page_fits_count in F. lia. Qed.
Lemma holds_type page fs : holds page fs → page_byte page 0 = PAGE_TYPE_PACKED.
Proof. intros (rs & -> & _). done. Qed.

Lemma holds_count page fs : holds page fs → page_u16 page 2 = Some (Z.of_nat (length fs)).
Proof.
  intros H. pose proof (holds_bound _ _ H). destruct H as (rs & -> & F & H).
  apply Forall2_length in H as <-. apply page_count_layout. lia.
Qed.

Lemma holds_count_or_zero page fs : holds page fs → record_count_or_zero page = Z.of_nat (length fs).
Proof.
  intros H. apply holds_count in H. unfold page_u16, record_count_or_zero in *.
  destruct (page !! 2%nat), (page !! 3%nat); by simplify_eq/=.
Qed.

Lemma holds_slot page fs i f : holds page fs → fs !! i = Some f →
  read_slot from_bytes page (Z.of_nat i) = Ok f.
Proof.
  intros (rs & -> & F & H) L. destruct (Forall2_lookup_l _ _ _ _ _ H L) as (r & Lr & E).
  erewrite read_slot_layout; [exact E|done| |exact Lr]. apply page_fits_count in F. lia.
Qed.

Lemma last_tx_count_holds page fs : holds page fs → last_tx_count from_bytes page = Ok (tx_count <$> last fs).
Proof.
  intros H. unfold last_tx_count. rewrite (holds_length _ _ H), Nat.ltb_irrefl, (holds_type _ _ H).
  rewrite Z.eqb_refl, (holds_count_or_zero _ _ H). cbn [orb negb]. rewrite last_lookup.
  destruct (Z.eqb_spec (Z.of_nat (length fs)) 0) as [E|E]; [by destruct fs|].
  destruct (lookup_lt_is_Some_2 fs (pred (length fs))) as [f L]; [lia|].
  replace (Z.of_nat (length fs) - 1) with (Z.of_nat (pred (length fs))) by lia.
  by rewrite (holds_slot _ _ _ _ H L), L.
Qed.

Lemma visit_slots_holds {S} (visit : S → nat → Fact → result S) page fs s :
  holds page fs →
  visit_slots from_bytes page (Z.of_nat (length fs)) visit s
    = foldR (λ s '(i, f), visit s i f) s (imap pair fs).
Proof.
  intros H. unfold visit_slots. rewrite Nat2Z.id. apply foldR_seq. intros i f s' L.
  by rewrite (holds_slot _ _ _ _ H L).
Qed.

(** The references of the facts of consecutive pages. *)
Fixpoint refs_of (start : Z) (gs : list (list Fact)) : list FactRef :=
  match gs with
  | [] => []
  | fs :: gs => ((λ i, mkFactRef start (Z.of_nat i)) <$> seq 0 (length fs)) ++ refs_of (start + 1) gs
  end.

Lemma refs_of_length start gs : length (refs_of start gs) = length (concat gs).
Proof.
  revert start; induction gs as [|g gs IH]; intros start; [done|].
  cbn [refs_of concat]. by rewrite !length_app, length_fmap, length_seq, IH.
Qed.

(** The backend serves, from page [start] on, pages that hold the groups. *)
Definition serves_pages (read_page : Z → result bytes) (start : Z) (gs : list (list Fact)) : Prop :=
  ∀ k fs, gs !! k = Some fs → ∃ page, read_page (start + Z.of_nat k) = Ok page ∧ holds page fs.

Lemma serves_pages_drop read_page start gs n :
  serves_pages read_page start gs → serves_pages read_page (start + Z.of_nat n) (drop n gs).
Proof.
  intros H k fs L. rewrite lookup_drop in L. destruct (H _ _ L) as (page & E & Hp).
  exists page. split; [|done]. rewrite <-E. f_equal. lia.
Qed.

Lemma for_each_serves {S} read_page (visit : S → Fact → result S) start gs s :
  0 ≤ start → start + Z.of_nat (length gs) ≤ 2 ^ 64 → serves_pages read_page start gs →
  for_each_from_pages from_bytes read_page start (length gs) visit s = foldR visit s (concat gs).
Proof.
  intros S0 Sn H. unfold for_each_from_pages. rewrite <-foldR_concat. apply foldR_seq.
  intros k fs s' L. destruct (H k fs L) as (page & E & Hp). pose proof (lookup_lt_Some _ _ _ L).
  assert (sat_add_u64 start (Z.of_nat k) = start + Z.of_nat k) as -> by (unfold sat_add_u64; ilia).
  rewrite E. cbn [mbind result_bind]. rewrite (holds_length _ _ Hp), Nat.eqb_refl, (holds_type _ _ Hp).
  rewrite Z.eqb_refl. cbn [ensure mbind result_bind].
  rewrite (holds_count_or_zero _ _ Hp), visit_slots_holds by done.
  symmetry. by rewrite <-(foldR_imap (λ s f, visit s f)).
Qed.

Lemma visit_refs_serves {S} read_page (visitor : S → Fact → FactRef → result S) start gs s :
  0 ≤ start → start + Z.of_nat (length gs) ≤ 2 ^ 64 → serves_pages read_page start gs →
  visit_fact_refs_in_pages from_bytes read_page start (length gs) visitor s
    = foldR (λ s '(f, r), visitor s f r) s (zip (concat gs) (refs_of start gs)).
Proof.
  intros S0 Sn H. unfold visit_fact_refs_in_pages.
  erewrite (foldR_seq _ (λ s k fs, foldR (λ s '(i, f), visitor s f (mkFactRef (start + Z.of_nat k) (Z.of_nat i)))
    s (imap pair fs))).
  - clear. revert start s; induction gs as [|fs gs IH]; intros start s; [done|].
    cbn [imap foldR concat refs_of]. rewrite zip_with_app by (by rewrite length_fmap, length_seq).
    rewrite foldR_app, zip_seq, foldR_fmap, Z.add_0_r.
    match goal with |- _ ?x = _ ?y => assert (x = y) as -> by (apply foldR_ext; by intros ? []) end.
    destruct (foldR _ s (imap pair fs)) as [s'|e]; [|done]. cbn [mbind result_bind].
    rewrite <-IH, imap_pair_shift, foldR_fmap. apply foldR_ext. intros ? [k g]. apply foldR_ext.
    intros ? [i f]. do 2 f_equal. lia.
  - intros k fs s' L. destruct (H k fs L) as (page & E & Hp). pose proof (lookup_lt_Some _ _ _ L).
    unfold checked_add_u64. rewrite (proj2 (Z.leb_le _ _)) by ilia. cbn [ok_or mbind result_bind].
    rewrite E. cbn [mbind result_bind]. rewrite (holds_count _ _ Hp). cbn [ok_or mbind result_bind].
    by rewrite visit_slots_holds.
Qed.
End holding.

(** * Packing *)

Lemma refs_of_app start gs gs' :
  refs_of start (gs ++ gs') = refs_of start gs ++ refs_of (start + Z.of_nat (length gs)) gs'.
Proof.
  revert start; induction gs as [|g gs IH]; intros start; cbn [refs_of app length].
  - by rewrite Z.add_0_r.
  - rewrite IH, <-app_assoc. do 3 f_equal. lia.
Qed.
Lemma refs_of_snoc start gs cur f :
  refs_of start (gs ++ [cur ++ [f]])
    = refs_of start (gs ++ [cur]) ++ [mkFactRef (start + Z.of_nat (length gs)) (Z.of_nat (length cur))].
Proof.
  rewrite !refs_of_app. cbn [refs_of]. rewrite !app_nil_r, length_app. cbn [length].
  rewrite seq_app, fmap_app, <-app_assoc. done.
Qed.

Lemma refs_of_page_ge start gs r : r ∈ refs_of start gs → start ≤ page_id r.
Proof.
  revert start; induction gs as [|g gs IH]; intros start; cbn [refs_of]; [by intros []%not_elem_of_nil|].
  intros [(i & -> & _)%list_elem_of_fmap|H%IH]%elem_of_app; [done|lia].
Qed.
Lemma refs_of_NoDup start gs : NoDup (refs_of start gs).
Proof.
  revert start; induction gs as [|g gs IH]; intros start; cbn [refs_of]; [constructor|].
  apply NoDup_app. split_and!; [|intros r (i & -> & _)%list_elem_of_fmap H%refs_of_page_ge; cbn in H; lia|done].
  apply NoDup_fmap_2; [intros i j [= H]; lia|apply NoDup_seq].
Qed.
Lemma refs_of_lookup start gs j f : concat gs !! j = Some f →
  ∃ k i fs, gs !! k = Some fs ∧ fs !! i = Some f ∧
    refs_of start gs !! j = Some (mkFactRef (start + Z.of_nat k) (Z.of_nat i)).
Proof.
  revert start j; induction gs as [|g gs IH]; intros start j; [done|]. cbn [concat refs_of].
  intros [L|[Lg L]]%lookup_app_Some.
  - exists 0%nat, j, g. split_and!; [done..|]. rewrite lookup_app_l, list_lookup_fmap.
    + rewrite lookup_seq_lt by (by eapply lookup_lt_Some). cbn. by rewrite Z.add_0_r.
    + rewrite length_fmap, length_seq. by eapply lookup_lt_Some.
  - destruct (IH (start + 1) _ L) as (k & i & fs & Lk & Li & Lr). exists (S k), i, fs. split_and!; [done..|].
    rewrite lookup_app_r, length_fmap, length_seq by (by rewrite length_fmap, length_seq).
    rewrite Lr. do 2 f_equal. lia.
Qed.

Section packing_proofs.
Context (to_allocvec : Fact → result bytes) (from_bytes : bytes → result Fact).
(** postcard reads back what it wrote, and a fact is never zero bytes (its
    entity alone takes sixteen). *)
Hypothesis codec_roundtrip : ∀ f bs, fact_ok f → to_allocvec f = Ok bs → from_bytes bs = Ok f.
Hypothesis codec_nonempty : ∀ f bs, to_allocvec f = Ok bs → bs ≠ [].

Definition encodable (f : Fact) : Prop :=
  ∃ bs, to_allocvec f = Ok bs ∧ Z.of_nat (length bs) ≤ MAX_FACT_BYTES.
Definition enc (f : Fact) : bytes := match to_allocvec f with Ok bs => bs | Err _ => [] end.
Definition page_of (fs : list Fact) : bytes := layout (Z.of_nat (length fs)) (enc <$> fs).

(** The packer has closed the groups [gs] ([d] of their pages already taken by
    the caller) and holds [cur] on the current page. *)
Record packer_rep (d : nat) (start : Z) (p : PackedFactPacker) (gs : list (list Fact)) (cur : list Fact)
    : Prop := {
  pr_state : p = mkPacker start (Z.of_nat (length gs)) (drop d (page_of <$> gs))
      (layout 0 (enc <$> cur)) (Z.of_nat (length cur)) (PACKED_HEADER_SIZE + 4 * length cur)
      (PAGE_SIZE - total (enc <$> cur));
  pr_drained : (d ≤ length gs)%nat;
  pr_full : Forall (λ fs, fs ≠ [] ∧ page_fits (enc <$> fs)) gs;
  pr_fits : page_fits (enc <$> cur);
}.

Lemma packer_new_rep start : packer_rep 0 start (packer_new start) [] [].
Proof.
  split; [|done|constructor|].
  - unfold packer_new. rewrite layout_new. change (total (enc <$> [])) with 0%nat. by rewrite Nat.sub_0_r.
  - unfold page_fits, total, PACKED_HEADER_SIZE. cbn. pose proof PAGE_SIZE_val. lia.
Qed.

Lemma take_completed_rep d start p gs cur :
  packer_rep d start p gs cur →
  packer_rep (length gs) start (take_completed_pages p).1 gs cur ∧
  (take_completed_pages p).2 = drop d (page_of <$> gs).
Proof.
  intros [-> D F1 F2]. split; [|done]. split; [|done..].
  cbn. by rewrite drop_ge by (by rewrite length_fmap).
Qed.

Lemma finish_rep d start p gs cur :
  packer_rep d start p gs cur → finish p = drop d (page_of <$> gs ++ [cur]).
Proof.
  intros [-> D _ _]. unfold finish. cbn [pk_pages current_page current_record_count]. rewrite write_count_layout, fmap_app, drop_app_le; [done|].
  by rewrite length_fmap.
Qed.

(** Writing onto a page that has room. *)
Lemma write_slot_rep d start p gs cur f :
  packer_rep d start p gs cur → page_fits (enc <$> cur ++ [f]) → 0 ≤ start →
  start + Z.of_nat (length gs) < 2 ^ 64 →
  ∃ p', write_slot p (enc f) = Ok (p', mkFactRef (start + Z.of_nat (length gs)) (Z.of_nat (length cur))) ∧
    packer_rep d start p' gs (cur ++ [f]).
Proof.
  intros [-> D F1 F2] Fi S0 S1. unfold write_slot.
  cbn [current_page data_offset dir_offset start_page_id completed_page_count current_record_count pk_pages].
  rewrite fmap_app in Fi. change (enc <$> [f]) with [enc f] in Fi. pose proof (page_fits_count _ Fi) as Cn.
  destruct (write_record _ _ Fi) as (p1 & p2 & E1 & E2 & E3). rewrite length_fmap in *.
  pose proof PAGE_SIZE_val. unfold page_fits in Fi. rewrite length_app, length_fmap, total_app, total_one in Fi.
  rewrite length_app, length_fmap in Cn. cbn [length] in *.
  rewrite E1. cbn [ok_or mbind result_bind]. unfold u16_try_from.
  rewrite !(proj2 (Z.leb_le _ u16_MAX)) by ilia. cbn [mbind result_bind].
  rewrite E2. cbn [ok_or mbind result_bind]. rewrite E3. cbn [ok_or mbind result_bind].
  unfold checked_add_u64. rewrite (proj2 (Z.leb_le _ _)) by ilia. cbn [ok_or mbind result_bind].
  eexists. split; [done|]. split; [|done..|].
  - rewrite fmap_app, total_app, length_app. change (enc <$> [f]) with [enc f]. cbn [length]. rewrite total_one.
    f_equal; [ilia|lia..].
  - rewrite fmap_app. unfold page_fits. rewrite length_app, length_fmap, total_app. change (enc <$> [f]) with [enc f].
    rewrite total_one. cbn [length]. lia.
Qed.

Lemma flush_page_rep d start p gs cur :
  packer_rep d start p gs cur → cur ≠ [] → Z.of_nat (length gs) + 1 < 2 ^ 64 →
  ∃ p', flush_page p = Ok p' ∧ packer_rep d start p' (gs ++ [cur]) [].
Proof.
  intros R Hc Hg. pose proof (finish_rep _ _ _ _ _ R) as Fp. destruct R as [-> D F1 F2].
  unfold flush_page, checked_add_u64. cbn [completed_page_count]. rewrite (proj2 (Z.leb_le _ _)) by ilia.
  cbn [ok_or mbind result_bind]. eexists. split; [done|]. destruct (packer_new_rep start) as [_ _ _ N2].
  split; [| |apply Forall_app; split; [done|by constructor]|done].
  - rewrite layout_new. change (total (enc <$> [])) with 0%nat. rewrite Nat.sub_0_r.
    f_equal; [rewrite length_app; cbn; lia|exact Fp].
  - rewrite length_app. lia.
Qed.
Lemma encodable_enc f : encodable f →
  to_allocvec f = Ok (enc f) ∧ (0 < length (enc f))%nat ∧ Z.of_nat (length (enc f)) ≤ MAX_FACT_BYTES.
Proof using codec_nonempty.
  intros (bs & E & L). unfold enc. rewrite E. split_and!; [done| |done].
  apply codec_nonempty in E. destruct bs; [done|cbn; lia].
Qed.

Lemma push_rep d start p gs cur f :
  packer_rep d start p gs cur → encodable f → 0 ≤ start → start + Z.of_nat (length gs) + 1 < 2 ^ 64 →
  ∃ p' r gs' cur', push to_allocvec p f = Ok (p', r) ∧ packer_rep d start p' gs' cur' ∧
    concat gs' ++ cur' = (concat gs ++ cur) ++ [f] ∧
    refs_of start (gs' ++ [cur']) = refs_of start (gs ++ [cur]) ++ [r].
Proof using codec_nonempty.
  intros R (E & Lp & Lm)%encodable_enc S0 S1. unfold push. rewrite E. cbn [mbind result_bind].
  rewrite (proj2 (Z.leb_le _ _)) by done. cbn [ensure mbind result_bind].
  pose proof (page_fits_count _ (pr_fits _ _ _ _ _ R)) as Cn. rewrite length_fmap in Cn.
  pose proof PAGE_SIZE_val as Ps. pose proof (pr_fits _ _ _ _ _ R) as Fi.
  destruct (decide (page_fits (enc <$> cur ++ [f]))) as [Y|N].
  - destruct (write_slot_rep d start p gs cur f R Y S0 ltac:(lia)) as (p' & W & R').
    eexists p', _, gs, (cur ++ [f]). split_and!; [|exact R'|by rewrite app_assoc|apply refs_of_snoc].
    rewrite (pr_state _ _ _ _ _ R) in W |- *. cbn [data_offset dir_offset current_record_count].
    unfold page_fits in Y. rewrite fmap_app, length_app, length_fmap, total_app in Y.
    change (enc <$> [f]) with [enc f] in Y. rewrite total_one in Y. cbn [length] in Y.
    rewrite (proj2 (Nat.ltb_ge _ _)), (proj2 (Z.eqb_neq _ _)) by (lia || ilia). exact W.
  - assert (cur ≠ []) as Hc.
    { intros ->. apply N. unfold page_fits. cbn [app fmap list_fmap length]. rewrite total_one.
      unfold MAX_FACT_BYTES, PACKED_HEADER_SIZE in *. lia. }
    destruct (flush_page_rep d start p gs cur R Hc ltac:(lia)) as (p1 & F1 & R1).
    destruct (write_slot_rep d start p1 (gs ++ [cur]) [] f R1) as (p' & W & R'); [|done| |].
    { unfold page_fits. cbn [app fmap list_fmap length]. rewrite total_one.
      unfold MAX_FACT_BYTES, PACKED_HEADER_SIZE in *. lia. }
    { rewrite length_app. cbn [length]. lia. }
    eexists p', _, (gs ++ [cur]), [f]. split_and!; [|exact R'| |].
    3: { change [[f]] with [[] ++ [f]]. rewrite refs_of_snoc, (refs_of_app _ (gs ++ [cur])).
      cbn [refs_of length seq fmap list_fmap app]. rewrite !app_nil_r. reflexivity. }
    2: { rewrite concat_app. cbn [concat]. by rewrite app_nil_r. }
    rewrite (pr_state _ _ _ _ _ R) in F1 |- *. cbn [data_offset dir_offset current_record_count].
    rewrite (proj2 (Nat.ltb_lt _ _)).
    2: { unfold page_fits in N. rewrite fmap_app, length_app, length_fmap, total_app in N.
      change (enc <$> [f]) with [enc f] in N. rewrite total_one in N. cbn [length] in N. lia. }
    cbn [orb]. rewrite F1. exact W.
Qed.

Lemma groups_length d start p gs cur : packer_rep d start p gs cur → (length gs ≤ length (concat gs))%nat.
Proof.
  intros R. pose proof (pr_full _ _ _ _ _ R) as F. clear R. induction F as [|g gs [Hg _] _ IH]; [done|].
  cbn [concat length]. rewrite length_app. destruct g; [done|]. cbn. lia.
Qed.

Lemma push_facts d start facts : ∀ p refs gs cur,
  packer_rep d start p gs cur → Forall encodable facts → 0 ≤ start →
  start + Z.of_nat (length (concat gs ++ cur) + length facts) < 2 ^ 64 →
  ∃ p' refs' gs' cur',
    foldR (λ '(p, refs) fact, '(p, r) ← push to_allocvec p fact; Ok (p, refs ++ [r])) (p, refs) facts
      = Ok (p', refs ++ refs') ∧
    packer_rep d start p' gs' cur' ∧ concat gs' ++ cur' = (concat gs ++ cur) ++ facts ∧
    refs_of start (gs' ++ [cur']) = refs_of start (gs ++ [cur]) ++ refs'.
Proof using codec_nonempty.
  induction facts as [|f facts IH]; intros p refs gs cur R F S0 S1.
  - exists p, [], gs, cur. rewrite !app_nil_r. done.
  - apply Forall_cons in F as [Ff F]. cbn [length foldR] in *.
    pose proof (groups_length _ _ _ _ _ R). rewrite length_app in S1.
    destruct (push_rep d start p gs cur f R Ff S0 ltac:(lia)) as (p1 & r & gs1 & cur1 & E & R1 & C1 & Q1).
    rewrite E. cbn [mbind result_bind].
    destruct (IH p1 (refs ++ [r]) gs1 cur1 R1 F S0) as (p' & refs' & gs' & cur' & E' & R' & C' & Q').
    { rewrite C1, !length_app. cbn [length]. lia. }
    exists p', (r :: refs'), gs', cur'. rewrite E', C', C1, Q', Q1, <-!app_assoc. done.
Qed.

Lemma page_of_holds fs :
  Forall encodable fs → Forall fact_ok fs → page_fits (enc <$> fs) → holds from_bytes (page_of fs) fs.
Proof using codec_roundtrip codec_nonempty.
  intros F1 F2 Fi. exists (enc <$> fs). split_and!; [by unfold page_of; rewrite length_fmap|done|].
  apply Forall2_fmap_r, Forall_Forall2_diag, Forall_forall. rewrite Forall_forall in F1, F2.
  intros f Hf. apply codec_roundtrip; [by apply F2|]. by apply encodable_enc, F1.
Qed.

Lemma pack_facts_groups facts start :
  Forall encodable facts → Forall fact_ok facts → 0 ≤ start → start + Z.of_nat (length facts) < 2 ^ 64 →
  ∃ gs, pack_facts to_allocvec facts start = Ok (page_of <$> gs, refs_of start gs) ∧
    concat gs = facts ∧ (1 ≤ length gs ≤ S (length facts))%nat ∧
    Forall (λ fs, holds from_bytes (page_of fs) fs) gs.
Proof using codec_roundtrip codec_nonempty.
  intros F Fk S0 S1.
  destruct (push_facts 0 start facts _ [] [] [] (packer_new_rep start) F S0 S1) as (p & refs & gs & cur & E & R & C & Q).
  exists (gs ++ [cur]). unfold pack_facts. rewrite E. cbn [mbind result_bind]. cbn [app concat] in C, Q.
  rewrite (finish_rep _ _ _ _ _ R). cbn [refs_of length seq fmap list_fmap app] in Q. rewrite Q.
  split; [done|]. pose proof (groups_length _ _ _ _ _ R) as Lg.
  assert (concat (gs ++ [cur]) = facts) as Ec by (rewrite concat_app, <-C; cbn [concat]; by rewrite app_nil_r).
  split_and!; [done|rewrite length_app; cbn; lia|rewrite length_app, <-C, length_app; cbn; lia|].
  rewrite <-Ec in F, Fk. rewrite Forall_concat in F, Fk. rewrite Forall_forall in *.
  intros fs Hf. apply page_of_holds; [by apply F|by apply Fk|].
  apply elem_of_app in Hf as [Hf|Hf]; [|apply list_elem_of_singleton in Hf as ->; apply R].
  pose proof (pr_full _ _ _ _ _ R) as P. rewrite Forall_forall in P. by apply P.
Qed.

Lemma push_encodable p f x : push to_allocvec p f = Ok x → encodable f.
Proof. unfold push. intros H. inv_ok. eexists. split; [done|]. by apply Z.leb_le. Qed.

Lemma pack_facts_encodable facts start x : pack_facts to_allocvec facts start = Ok x → Forall encodable facts.
Proof.
  assert (∀ s y, foldR (λ '(p, refs) fact, '(p, r) ← push to_allocvec p fact; Ok (p, refs ++ [r])) s facts
    = Ok y → Forall encodable facts) as G.
  { clear. induction facts as [|f facts IH]; intros [p refs] y H; constructor; cbn in H; inv_ok.
    - by eapply push_encodable.
    - by eapply IH. }
  unfold pack_facts. intros H. inv_ok. by eapply G.
Qed.

(** Packing succeeds exactly when every fact encodes within the slot limit;
    then each page is exactly [PAGE_SIZE] bytes, the references are distinct,
    and each fact's reference resolves, through its page, to that fact. *)
Theorem pack_facts_resolves facts start :
  Forall fact_ok facts → 0 ≤ start → start + Z.of_nat (length facts) < 2 ^ 64 →
  ((∃ x, pack_facts to_allocvec facts start = Ok x) ↔ Forall encodable facts) ∧
  ∀ pages refs, pack_facts to_allocvec facts start = Ok (pages, refs) →
    (1 ≤ length pages ≤ S (length facts))%nat ∧ Forall (λ pg, length pg = PAGE_SIZE) pages ∧
    length refs = length facts ∧ NoDup refs ∧
    ∀ j f, facts !! j = Some f → ∃ r page, refs !! j = Some r ∧ start ≤ page_id r ∧
      pages !! Z.to_nat (page_id r - start) = Some page ∧ read_slot from_bytes page (slot_index r) = Ok f.
Proof using codec_roundtrip codec_nonempty.
  intros Fk S0 S1. split.
  { split; [intros [x H]; by eapply pack_facts_encodable|]. intros F.
    destruct (pack_facts_groups facts start F Fk S0 S1) as (gs & E & _). eauto. }
  intros pages refs E. pose proof (pack_facts_encodable _ _ _ E) as F.
  destruct (pack_facts_groups facts start F Fk S0 S1) as (gs & E' & C & L & H). rewrite E in E'. simplify_eq.
  rewrite length_fmap. rewrite Forall_forall in H. split_and!; [apply L..| | | |].
  - apply Forall_fmap, Forall_forall. intros fs Hf. eapply holds_length. by apply H.
  - apply refs_of_length.
  - apply refs_of_NoDup.
  - intros j f Lj. destruct (refs_of_lookup start gs j f Lj) as (k & i & fs & Lk & Li & Lr).
    eexists _, (page_of fs). split_and!; [exact Lr|cbn; lia| |].
    + cbn. rewrite list_lookup_fmap. replace (Z.to_nat _) with k by lia. by rewrite Lk.
    + cbn. eapply holds_slot; [apply H; by eapply list_elem_of_lookup_2|done].
Qed.

(** Reading the pages of a packed ledger from a backend that stores them
    visits exactly the packed facts, in order, with the references the packer
    returned. *)
Theorem packed_pages_read_back facts start pages refs (read_page : Z → result bytes) :
  Forall fact_ok facts → 0 ≤ start → start + Z.of_nat (length facts) < 2 ^ 64 →
  pack_facts to_allocvec facts start = Ok (pages, refs) →
  (∀ k pg, pages !! k = Some pg → read_page (start + Z.of_nat k) = Ok pg) →
  read_all_from_pages from_bytes read_page start (length pages) = Ok facts ∧
  ∀ S (visit : S → Fact → result S) (visitor : S → Fact → FactRef → result S) s,
    for_each_from_pages from_bytes read_page start (length pages) visit s = foldR visit s facts ∧
    visit_fact_refs_in_pages from_bytes read_page start (length pages) visitor s
      = foldR (λ s '(f, r), visitor s f r) s (zip facts refs).
Proof using codec_roundtrip codec_nonempty.
  intros Fk S0 S1 E B. pose proof (pack_facts_encodable _ _ _ E) as F.
  destruct (pack_facts_groups facts start F Fk S0 S1) as (gs & E' & C & L & H). rewrite E in E'. simplify_eq.
  assert (serves_pages from_bytes read_page start gs) as Sv.
  { intros k fs Lk. exists (page_of fs). split; [apply B; by rewrite list_lookup_fmap, Lk|].
    rewrite Forall_forall in H. apply H. by eapply list_elem_of_lookup_2. }
  rewrite length_fmap. split.
  - unfold read_all_from_pages. rewrite for_each_serves by (done || lia). apply foldR_collect.
  - intros S visit visitor s. by rewrite for_each_serves, visit_refs_serves by (done || lia).
Qed.
End packing_proofs.

(** * Witnesses *)

Definition demo_facts : list Fact := [demo_fact 1; demo_fact 2].
Lemma demo_nonempty f bs : demo_encode f = Ok bs → bs ≠ [].
Proof. unfold demo_encode. repeat case_bool_decide; by intros [= <-]. Qed.
Lemma demo_facts_ok : Forall fact_ok demo_facts.
Proof. repeat (constructor; [split; try done; cbn; ilia|]). constructor. Qed.
Lemma demo_encodable : Forall (encodable demo_encode) demo_facts.
Proof. repeat constructor; eexists; by split. Qed.

Lemma pack_facts_resolves_witness :
  ∃ pages refs, pack_facts demo_encode demo_facts 7 = Ok (pages, refs) ∧ length refs = 2%nat ∧
    ∃ r page, refs !! 1%nat = Some r ∧ pages !! Z.to_nat (page_id r - 7) = Some page ∧
      read_slot demo_decode page (slot_index r) = Ok (demo_fact 2).
Proof.
  destruct (pack_facts_resolves demo_encode demo_decode demo_codec demo_nonempty demo_facts 7
    demo_facts_ok ltac:(done) ltac:(done)) as [[_ H] G].
  destruct (H demo_encodable) as [[pages refs] E].
  destruct (G pages refs E) as (_ & _ & L & _ & R). exists pages, refs. split; [exact E|]. split; [exact L|].
  destruct (R 1%nat (demo_fact 2) eq_refl) as (r & page & L1 & _ & L2 & L3). exists r, page. split; [exact L1|].
  split; [exact L2|exact L3].
Defined.

Lemma packed_pages_read_back_witness :
  ∃ pages refs, pack_facts demo_encode demo_facts 7 = Ok (pages, refs) ∧
    read_all_from_pages demo_decode (λ id, ok_or (pages !! Z.to_nat (id - 7)) "no such page") 7 (length pages)
      = Ok demo_facts.
Proof.
  destruct (pack_facts_groups demo_encode demo_decode demo_codec demo_nonempty demo_facts 7
    demo_encodable demo_facts_ok ltac:(done) ltac:(done)) as (gs & E & _).
  eexists _, _. split; [exact E|].
  refine (proj1 (packed_pages_read_back demo_encode demo_decode demo_codec demo_nonempty demo_facts 7 _ _ _
    demo_facts_ok _ _ E _)); [done..|].
  intros k pg L. replace (Z.to_nat (7 + Z.of_nat k - 7)) with k by lia. by rewrite L.
Defined.
