(* ===== verification/Cache.v ===== *)
(** The page cache (src/src/storage/cache.rs): a bounded map from page ids to
    pages with an eviction queue.

    [entries] is the [HashMap], [order] the [VecDeque] (front first).  The
    [RwLock] makes three critical sections atomic: the probe of [get_or_load],
    its insertion after a miss, and each of the other operations.  Between probe
    and insertion no lock is held, so concurrent use is a step relation over
    those sections with the loads in flight as part of the state.  The backend
    is its [read_page] and [write_page] functions. *)
From S2P Require Import Prelude Types ValueCodec Index.

Record CacheEntry : Type := mkCacheEntry { data : bytes; dirty : bool }.
Record CacheInner : Type := mkCache {
  entries : gmap Z CacheEntry;
  order : list Z;
  capacity : nat;
}.

Definition position (page_id : Z) (l : list Z) : option nat := fst <$> list_find (λ id, id = page_id) l.

(** [VecDeque::remove(pos)]. *)
Definition remove_at (pos : nat) (l : list Z) : list Z := take pos l ++ drop (S pos) l.

Definition touch (c : CacheInner) (page_id : Z) : CacheInner :=
  match position page_id (order c) with
  | Some pos =>
      if bool_decide (last (order c) = Some page_id) then c
      else mkCache (entries c) (remove_at pos (order c) ++ [page_id]) (capacity c)
  | None => mkCache (entries c) (order c ++ [page_id]) (capacity c)
  end.

Definition cache_new (capacity : nat) : CacheInner := mkCache ∅ [] capacity.

(** [while entries.len() >= capacity && capacity > 0 { pop_front ... }]. *)
Fixpoint evict_loop (capacity : nat) (es : gmap Z CacheEntry) (queue : list Z)
    : gmap Z CacheEntry * list Z :=
  if (capacity <=? size es)%nat && (0 <? capacity)%nat
  then match queue with
       | id :: queue => evict_loop capacity (delete id es) queue
       | [] => (es, [])
       end
  else (es, queue).

Definition insert_entry (c : CacheInner) (page_id : Z) (e : CacheEntry) : CacheInner :=
  let '(es, queue) := evict_loop (capacity c) (entries c) (order c) in
  mkCache (<[page_id := e]> es) (queue ++ [page_id]) (capacity c).

(** The read-locked fast path. *)
Definition probe (c : CacheInner) (page_id : Z) : option bytes := data <$> (entries c !! page_id).

(** The write-locked second half, with the page read in between. *)
Definition commit_load (c : CacheInner) (page_id : Z) (page : bytes) : CacheInner * bytes :=
  match entries c !! page_id with
  | Some entry => (c, data entry)
  | None => (insert_entry c page_id (mkCacheEntry page false), page)
  end.

Definition get_or_load (read_page : Z → result bytes) (c : CacheInner) (page_id : Z)
    : result (CacheInner * bytes) :=
  match probe c page_id with
  | Some page => Ok (c, page)
  | None => page ← read_page page_id; Ok (commit_load c page_id page)
  end.

Definition put_dirty (c : CacheInner) (page_id : Z) (page : bytes) : CacheInner :=
  if bool_decide (is_Some (entries c !! page_id))
  then touch (mkCache (<[page_id := mkCacheEntry page true]> (entries c)) (order c) (capacity c)) page_id
  else insert_entry c page_id (mkCacheEntry page true).

(** The loop of [flush] over the entries in the iteration order [ids]; a failed
    write leaves the flags of the pages already written cleared. *)
Fixpoint flush_loop {B} (write_page : B → Z → bytes → B * result ()) (b : B) (es : gmap Z CacheEntry)
    (ids : list Z) : B * gmap Z CacheEntry * result () :=
  match ids with
  | [] => (b, es, Ok ())
  | id :: ids =>
      match es !! id with
      | Some (mkCacheEntry page true) =>
          match write_page b id page with
          | (b, Ok _) => flush_loop write_page b (<[id := mkCacheEntry page false]> es) ids
          | (b, Err e) => (b, es, Err e)
          end
      | _ => flush_loop write_page b es ids
      end
  end.
Definition flush {B} (write_page : B → Z → bytes → B * result ()) (ids : list Z) (c : CacheInner) (b : B)
    : CacheInner * B * result () :=
  let '(b, es, r) := flush_loop write_page b (entries c) ids in
  (mkCache es (order c) (capacity c), b, r).

Definition invalidate (c : CacheInner) (page_id : Z) : CacheInner :=
  mkCache (delete page_id (entries c)) (List.filter (λ id, negb (id =? page_id)) (order c)) (capacity c).

Definition invalidate_from (c : CacheInner) (from_page : Z) : CacheInner :=
  mkCache (filter (λ '(id, _), id < from_page) (entries c))
    (List.filter (λ id, id <? from_page) (order c)) (capacity c).

Definition cached_page_count (c : CacheInner) : nat := size (entries c).

(** * The invariant *)

Record cache_ok (c : CacheInner) : Prop := {
  co_nodup : NoDup (order c);
  co_order : ∀ id, id ∈ order c ↔ is_Some (entries c !! id);
  co_bound : (0 < capacity c)%nat → (size (entries c) ≤ capacity c)%nat;
}.

Lemma cache_new_ok n : cache_ok (cache_new n).
Proof.
  split; cbn; [constructor| |intros _; rewrite map_size_empty; lia].
  intros id. rewrite lookup_empty. split; [by intros []%not_elem_of_nil|by intros []].
Qed.

(** The queue lists the cached ids, each once. *)
Definition indexed (es : gmap Z CacheEntry) (queue : list Z) : Prop :=
  NoDup queue ∧ ∀ id, id ∈ queue ↔ is_Some (es !! id).

Lemma indexed_nil es : indexed es [] → es = ∅.
Proof.
  intros [_ H]. apply map_empty. intros id. apply eq_None_not_Some. intros S%H. by apply not_elem_of_nil in S.
Qed.
Lemma indexed_pop es id queue : indexed es (id :: queue) → indexed (delete id es) queue.
Proof.
  intros [[Ni N]%NoDup_cons H]. split; [done|]. intros j. specialize (H j). rewrite elem_of_cons in H.
  destruct (decide (j = id)) as [->|Hn]; [rewrite lookup_delete_eq|rewrite lookup_delete_ne by done].
  - split; [done|by intros []].
  - tauto.
Qed.
Lemma indexed_push es queue id e : indexed es queue → es !! id = None → indexed (<[id := e]> es) (queue ++ [id]).
Proof.
  intros [N H] Hn. split.
  - apply NoDup_app. split_and!; [done| |apply NoDup_singleton].
    intros j Hj ->%list_elem_of_singleton. apply H in Hj as []. congruence.
  - intros j. rewrite elem_of_app, list_elem_of_singleton, H.
    destruct (decide (j = id)) as [->|Hj]; [rewrite lookup_insert_eq|rewrite lookup_insert_ne by done].
    + split; [by eexists|by right].
    + naive_solver.
Qed.
Lemma indexed_filter es queue (p : Z → bool) :
  indexed es queue → indexed (filter (λ '(id, _), p id = true) es) (List.filter p queue).
Proof.
  intros [N H]. split; [by apply NoDup_List_filter|]. intros id. rewrite elem_of_List_filter, H.
  split.
  - intros [P [e E]]. exists e. by apply map_lookup_filter_Some.
  - intros [e [E P]%map_lookup_filter_Some]. by split; [|eexists].
Qed.

(** What the eviction loop leaves: room for one more page, and a suffix of the
    queue with its entries unchanged. *)
Lemma evict_loop_spec cap es queue : indexed es queue →
  let '(es', queue') := evict_loop cap es queue in
  indexed es' queue' ∧ queue' `suffix_of` queue ∧ es' ⊆ es ∧ (0 < cap → size es' < cap)%nat.
Proof.
  revert es; induction queue as [|id queue IH]; intros es I; cbn [evict_loop].
  - destruct ((cap <=? size es)%nat && (0 <? cap)%nat).
    all: split_and!; [done..|]; apply indexed_nil in I as ->; rewrite map_size_empty; lia.
  - destruct ((cap <=? size es)%nat && (0 <? cap)%nat) eqn:E.
    + specialize (IH _ (indexed_pop _ _ _ I)). destruct (evict_loop cap (delete id es) queue) as [es' queue'].
      destruct IH as (I' & S & M & R). split_and!; [done|by apply suffix_cons_r| |done].
      etrans; [exact M|apply delete_subseteq].
    + split_and!; [done..|]. intros C. apply andb_false_iff in E as [E|E]; [apply Nat.leb_gt in E|apply Nat.ltb_ge in E]; lia.
Qed.

Lemma cache_indexed c : cache_ok c → indexed (entries c) (order c).
Proof. intros [N O _]. done. Qed.

Lemma insert_entry_ok c id e : cache_ok c → entries c !! id = None →
  let c' := insert_entry c id e in
  cache_ok c' ∧ capacity c' = capacity c ∧ entries c' !! id = Some e ∧
  ∀ j e', j ≠ id → entries c' !! j = Some e' → entries c !! j = Some e'.
Proof.
  intros O Hn. pose proof (evict_loop_spec (capacity c) _ _ (cache_indexed _ O)) as H.
  unfold insert_entry. destruct (evict_loop (capacity c) (entries c) (order c)) as [es queue].
  destruct H as (I & _ & M & R).
  assert (es !! id = None) as En. { destruct (es !! id) eqn:X; [|done]. by rewrite (lookup_weaken _ _ _ _ X M) in Hn. }
  destruct (indexed_push es queue id e I En) as [I1 I2]. cbn. split_and!; [|done|by rewrite lookup_insert_eq|].
  - split; cbn; [done..|]. intros C. rewrite map_size_insert_None by done. specialize (R C). lia.
  - intros j e' Hj. rewrite lookup_insert_ne by done. intros E. by apply (lookup_weaken _ _ _ _ E M).
Qed.

Lemma position_Some id l pos : position id l = Some pos → l !! pos = Some id.
Proof. unfold position. intros ([p x] & (L & E & _)%list_find_Some & ->)%fmap_Some. cbn. congruence. Qed.
Lemma position_None id l : position id l = None → id ∉ l.
Proof.
  unfold position. rewrite fmap_None, list_find_None. intros F. rewrite Forall_forall in F. intros H. by apply (F id).
Qed.

(** Moving an id to the back permutes the queue. *)
Lemma touch_perm c id : id ∈ order c → order (touch c id) ≡ₚ order c ∧ entries (touch c id) = entries c ∧
  capacity (touch c id) = capacity c.
Proof.
  intros H. unfold touch. destruct (position id (order c)) as [pos|] eqn:P.
  2: by apply position_None in P.
  case_bool_decide; [done|]. cbn. split_and!; [|done..]. apply position_Some in P.
  unfold remove_at. rewrite <-app_assoc. 
  trans (take pos (order c) ++ id :: drop (S pos) (order c)); [|by rewrite (take_drop_middle _ _ _ P)].
  apply Permutation_app_head. by rewrite Permutation_app_comm.
Qed.

Lemma put_dirty_ok c id page : cache_ok c →
  cache_ok (put_dirty c id page) ∧ capacity (put_dirty c id page) = capacity c ∧
  entries (put_dirty c id page) !! id = Some (mkCacheEntry page true) ∧
  ∀ j e, j ≠ id → entries (put_dirty c id page) !! j = Some e → entries c !! j = Some e.
Proof.
  intros O. unfold put_dirty. case_bool_decide as B.
  2: { apply eq_None_not_Some in B. apply (insert_entry_ok c id (mkCacheEntry page true) O B). }
  set (c' := mkCache _ _ _). destruct (touch_perm c' id) as (P & E & C); [by apply (co_order _ O)|].
  rewrite E, C. cbn. split_and!; [|done|by rewrite lookup_insert_eq|by intros j e Hj; rewrite lookup_insert_ne].
  destruct O as [N D S]. split.
  - by rewrite P.
  - intros j. rewrite P, E. cbn. rewrite D. destruct (decide (j = id)) as [->|Hj].
    + rewrite lookup_insert_eq. naive_solver.
    + by rewrite lookup_insert_ne.
  - rewrite C, E. cbn. rewrite map_size_insert_Some by (by destruct B as [e ->]; eexists). done.
Qed.

Lemma filtered_ok c (p : Z → bool) : cache_ok c →
  cache_ok (mkCache (filter (λ '(id, _), p id = true) (entries c)) (List.filter p (order c)) (capacity c)).
Proof.
  intros O. destruct (indexed_filter _ _ p (cache_indexed _ O)) as [N D]. split; cbn; [done..|].
  intros C. etrans; [|by apply (co_bound _ O)]. apply map_size_filter.
Qed.

Lemma invalidate_as_filter c id : invalidate c id =
  mkCache (filter (λ '(j, _), negb (j =? id) = true) (entries c))
    (List.filter (λ j, negb (j =? id)) (order c)) (capacity c).
Proof.
  unfold invalidate. f_equal. apply map_eq. intros j. apply option_eq. intros e.
  rewrite lookup_delete_Some, map_lookup_filter_Some, negb_true_iff, Z.eqb_neq. naive_solver.
Qed.
Lemma invalidate_from_as_filter c from : invalidate_from c from =
  mkCache (filter (λ '(j, _), (j <? from) = true) (entries c)) (List.filter (λ j, j <? from) (order c)) (capacity c).
Proof.
  unfold invalidate_from. f_equal. apply map_filter_ext. intros j e _. by rewrite Z.ltb_lt.
Qed.

(** * Concurrent readers *)

Section concurrent.
Context (read_page : Z → result bytes).

(** The cache and the pages that threads have read from the backend but not yet
    inserted. *)
Record System : Type := mkSystem { sys_cache : CacheInner; in_flight : list (Z * bytes) }.

(** One critical section; the last argument is the page a reader is given.
    Writers are the checkpoint code: it invalidates pages, and caches a page
    after writing it to the backend. *)
Inductive cache_step : System → System → option (Z * bytes) → Prop :=
| StepHit c fl id page : probe c id = Some page → cache_step (mkSystem c fl) (mkSystem c fl) (Some (id, page))
| StepMiss c fl id page : probe c id = None → read_page id = Ok page →
    cache_step (mkSystem c fl) (mkSystem c ((id, page) :: fl)) None
| StepCommit c fl1 fl2 id page :
    cache_step (mkSystem c (fl1 ++ (id, page) :: fl2)) (mkSystem (commit_load c id page).1 (fl1 ++ fl2))
      (Some (id, (commit_load c id page).2))
| StepWriteThrough c fl id page : read_page id = Ok page →
    cache_step (mkSystem c fl) (mkSystem (put_dirty c id page) fl) None
| StepInvalidate c fl id : cache_step (mkSystem c fl) (mkSystem (invalidate c id) fl) None
| StepInvalidateFrom c fl from : cache_step (mkSystem c fl) (mkSystem (invalidate_from c from) fl) None.

Definition coherent (c : CacheInner) : Prop :=
  ∀ id e, entries c !! id = Some e → read_page id = Ok (data e).

Record system_ok (n : nat) (sys : System) : Prop := {
  sy_cache : cache_ok (sys_cache sys);
  sy_capacity : capacity (sys_cache sys) = n;
  sy_coherent : coherent (sys_cache sys);
  sy_flight : ∀ id page, (id, page) ∈ in_flight sys → read_page id = Ok page;
}.

Lemma commit_load_ok c id page : cache_ok c → coherent c → read_page id = Ok page →
  cache_ok (commit_load c id page).1 ∧ coherent (commit_load c id page).1 ∧
  capacity (commit_load c id page).1 = capacity c ∧ read_page id = Ok (commit_load c id page).2.
Proof.
  intros O C E. unfold commit_load. destruct (entries c !! id) as [e|] eqn:L; [by split_and!; [..|apply C]|].
  destruct (insert_entry_ok c id (mkCacheEntry page false) O L) as (O' & Cp & L' & M). split_and!; [done| |done|done].
  intros j e Le. destruct (decide (j = id)) as [->|Hj]; [|by eapply C, M].
  cbn in Le. rewrite L' in Le. by simplify_eq.
Qed.

(** A reader sees the backend through a coherent cache, and leaves it coherent. *)
Lemma get_or_load_ok c id : cache_ok c → coherent c →
  match get_or_load read_page c id with
  | Ok (c', page) => read_page id = Ok page ∧ cache_ok c' ∧ coherent c'
  | Err e => read_page id = Err e
  end.
Proof.
  intros O C. unfold get_or_load, probe. destruct (entries c !! id) as [e|] eqn:L; cbn.
  - split_and!; [by apply C|done..].
  - destruct (read_page id) as [page|e] eqn:R; cbn; [|done].
    destruct (commit_load_ok c id page O C R) as (O' & C' & _ & R').
    destruct (commit_load c id page) as [c' pg] eqn:X. cbn in *. rewrite R in R'. by simplify_eq.
Qed.

Lemma cache_step_ok n sys sys' out : system_ok n sys → cache_step sys sys' out →
  system_ok n sys' ∧ ∀ id page, out = Some (id, page) → read_page id = Ok page.
Proof.
  intros [O Cp C F] S. destruct S as [c fl id page P|c fl id page P R|c fl1 fl2 id page|c fl id page R|c fl id|c fl from];
    cbn in O, Cp, C, F.
  - split; [done|]. intros ? ? [= <- <-]. unfold probe in P. apply fmap_Some in P as (e & L & ->). by apply C.
  - split; [|done]. split; cbn; [done..|]. intros j pg [[= -> ->]|H]%elem_of_cons; [done|by apply F].
  - assert (read_page id = Ok page) as R by (apply F; set_solver).
    destruct (commit_load_ok c id page O C R) as (O' & C' & Cp' & R'). split; [|by intros ? ? [= <- <-]].
    split; cbn; [done|congruence|done|]. intros j pg H. apply F. set_solver.
  - destruct (put_dirty_ok c id page O) as (O' & Cp' & L & M). split; [|done]. split; cbn; [done|congruence| |done].
    intros j e Le. destruct (decide (j = id)) as [->|Hj]; [|by eapply C, M].
    rewrite L in Le. by simplify_eq.
  - split; [|done]. rewrite invalidate_as_filter. split; cbn; [by apply filtered_ok|done| |done].
    intros j e [Le _]%map_lookup_filter_Some. by apply C.
  - split; [|done]. rewrite invalidate_from_as_filter. split; cbn; [by apply filtered_ok|done| |done].
    intros j e [Le _]%map_lookup_filter_Some. by apply C.
Qed.

Lemma system_new_ok n : system_ok n (mkSystem (cache_new n) []).
Proof.
  split; cbn; [apply cache_new_ok|done|by intros id e H; cbn in H; rewrite lookup_empty in H|by intros ? ? []%not_elem_of_nil].
Qed.

(** Whatever the interleaving of readers, write-through stores and
    invalidations, every page the cache hands out is the page of the backend,
    the queue lists exactly the cached pages, and a positive capacity is never
    exceeded. *)
Theorem cache_transparent n sys :
  rtc (λ s s', ∃ out, cache_step s s' out) (mkSystem (cache_new n) []) sys →
  cache_ok (sys_cache sys) ∧ ((0 < n)%nat → (cached_page_count (sys_cache sys) ≤ n)%nat) ∧
  ∀ sys' id page, cache_step sys sys' (Some (id, page)) → read_page id = Ok page.
Proof.
  intros R. assert (system_ok n sys) as S.
  { assert (∀ s, system_ok n s → rtc (λ s s', ∃ out, cache_step s s' out) s sys → system_ok n sys) as G.
    { clear R. intros s Hs H. induction H as [s|s s1 s2 (out & St) _ IH]; [done|].
      apply IH. by apply (cache_step_ok n s s1 out Hs St). }
    apply (G _ (system_new_ok n) R). }
  split_and!; [apply S| |].
  - intros N. destruct S as [[_ _ B] E _ _]. rewrite <-E in N |- *. by apply B.
  - intros sys' id page St. by apply (cache_step_ok n sys sys' _ S St).
Qed.
End concurrent.

(** * Write-back *)

Section write_back.
(** A backend whose successful [write_page] replaces exactly the page written. *)
Context {B : Type} (write_page : B → Z → bytes → B * result ()) (stored : B → Z → option bytes).
Hypothesis write_page_stores : ∀ b id page b' u, write_page b id page = (b', Ok u) →
  ∀ j, stored b' j = if bool_decide (j = id) then Some page else stored b j.
Hypothesis write_page_fails : ∀ b id page b' e, write_page b id page = (b', Err e) →
  ∀ j, stored b' j = stored b j.

(** A page that is not dirty is what the backend stores. *)
Definition clean_agrees (es : gmap Z CacheEntry) (b : B) : Prop :=
  ∀ id page, es !! id = Some (mkCacheEntry page false) → stored b id = Some page.

Lemma flush_loop_spec ids : ∀ b es b' es' r,
  clean_agrees es b → flush_loop write_page b es ids = (b', es', r) →
  clean_agrees es' b' ∧ (∀ id, (data <$> (es' !! id)) = (data <$> (es !! id))) ∧
  (∀ id, es !! id = None → stored b' id = stored b id) ∧
  (r = Ok () → ∀ id page, es' !! id = Some (mkCacheEntry page true) → (id ∉ ids) ∧ es !! id = Some (mkCacheEntry page true)).
Proof using write_page_stores write_page_fails.
  induction ids as [|id ids IH]; intros b es b' es' r A E; cbn in E.
  { simplify_eq. split_and!; [done..|]. intros _ id page L. by split; [apply not_elem_of_nil|]. }
  destruct (es !! id) as [[page d]|] eqn:L; [destruct d|].
  - destruct (write_page b id page) as [b1 [u|e]] eqn:W.
    + destruct (IH b1 (<[id := mkCacheEntry page false]> es) b' es' r) as (A' & D & U & F); [|done|].
      { intros j pg Lj. rewrite (write_page_stores _ _ _ _ _ W). case_bool_decide as Ej.
        - subst. rewrite lookup_insert_eq in Lj. by simplify_eq.
        - rewrite lookup_insert_ne in Lj by done. by apply A. }
      split_and!; [done| | |].
      * intros j. rewrite D. destruct (decide (j = id)) as [->|Hj]; [by rewrite lookup_insert_eq, L|].
        by rewrite lookup_insert_ne.
      * intros j Lj. assert (j ≠ id) by congruence. rewrite U by (by rewrite lookup_insert_ne).
        rewrite (write_page_stores _ _ _ _ _ W). by rewrite bool_decide_false.
      * intros R j pg Lj. destruct (F R j pg Lj) as [Nj Ej]. destruct (decide (j = id)) as [->|Hj].
        { by rewrite lookup_insert_eq in Ej. }
        rewrite lookup_insert_ne in Ej by done. split; [|done]. by rewrite elem_of_cons; intros [->|?].
    + simplify_eq. split_and!; [|done| |done].
      * intros j pg Lj. rewrite (write_page_fails _ _ _ _ _ W). by apply A.
      * intros j Lj. by apply (write_page_fails _ _ _ _ _ W).
  - destruct (IH b es b' es' r A E) as (A' & D & U & F). split_and!; [done..|]. intros R j pg Lj.
    destruct (F R j pg Lj) as [Nj Ej]. split; [|done]. rewrite elem_of_cons. intros [->|?]; congruence.
  - destruct (IH b es b' es' r A E) as (A' & D & U & F). split_and!; [done..|]. intros R j pg Lj.
    destruct (F R j pg Lj) as [Nj Ej]. split; [|done]. rewrite elem_of_cons. intros [->|?]; congruence.
Qed.

(** [flush], in any iteration order, never touches a page that is not
    cached and never lets a clean page differ from the backend, whether or not
    a write fails; when it succeeds, no page is dirty and the backend stores
    every cached page. *)
Theorem flush_writes_back c b ids c' b' r :
  clean_agrees (entries c) b → (∀ id, is_Some (entries c !! id) → id ∈ ids) →
  flush write_page ids c b = (c', b', r) →
  clean_agrees (entries c') b' ∧ (∀ id, probe c' id = probe c id) ∧
  (∀ id, probe c id = None → stored b' id = stored b id) ∧
  (r = Ok () → ∀ id page, probe c id = Some page → stored b' id = Some page).
Proof using write_page_stores write_page_fails.
  intros A I. unfold flush. destruct (flush_loop write_page b (entries c) ids) as [[b1 es1] r1] eqn:E.
  intros [= <- <- <-]. destruct (flush_loop_spec ids _ _ _ _ _ A E) as (A' & D & U & F).
  unfold probe. cbn. split_and!; [done|done|intros id L; apply U; by apply fmap_None in L|].
  intros R id page L. specialize (D id). rewrite L in D. apply fmap_Some in D as ([pg d] & L1 & ->). cbn.
  destruct d; [|by apply A']. destruct (F R _ _ L1) as [N L0]. exfalso. apply N, I. by eexists.
Qed.

(** Eviction does not write back.  A dirty page at the front of a full
    cache is dropped by the next miss: it is neither cached nor ever stored by
    a later [flush]. *)
Theorem eviction_drops_dirty c id rest page other data' b ids :
  cache_ok c → (0 < capacity c)%nat → size (entries c) = capacity c → order c = id :: rest →
  entries c !! id = Some (mkCacheEntry page true) → entries c !! other = None →
  clean_agrees (entries (commit_load c other data').1) b →
  let c' := (commit_load c other data').1 in
  probe c' id = None ∧ stored (flush write_page ids c' b).1.2 id = stored b id.
Proof using write_page_stores write_page_fails.
  intros O C S Q L Lo A. cbn zeta.
  assert (probe (commit_load c other data').1 id = None) as P.
  { unfold probe, commit_load. rewrite Lo. cbn. unfold insert_entry. rewrite Q. cbn [evict_loop].
    rewrite (proj2 (Nat.leb_le _ _)), (proj2 (Nat.ltb_lt _ _)) by lia. cbn [andb].
    pose proof (cache_indexed _ O) as I. rewrite Q in I.
    pose proof (evict_loop_spec (capacity c) _ _ (indexed_pop _ _ _ I)) as H.
    destruct (evict_loop (capacity c) (delete id (entries c)) rest) as [es queue].
    destruct H as (_ & _ & M & _). cbn. assert (other ≠ id) as Ne by congruence. rewrite lookup_insert_ne by done.
    destruct (es !! id) as [e|] eqn:Le; [|done]. pose proof (lookup_weaken _ _ _ _ Le M) as X.
    by rewrite lookup_delete_eq in X. }
  split; [exact P|]. unfold flush. destruct (flush_loop write_page b _ ids) as [[b1 es1] r1] eqn:E.
  destruct (flush_loop_spec ids _ _ _ _ _ A E) as (_ & _ & U & _). cbn. apply U.
  unfold probe in P. by apply fmap_None in P.
Qed.
End write_back.

(** * Witnesses *)

Definition demo_page (id : Z) : result bytes := Ok [z2b id].

Lemma cache_transparent_witness :
  let sys := mkSystem (commit_load (cache_new 1) 5 [z2b 5]).1 [] in
  (cached_page_count (sys_cache sys) ≤ 1)%nat ∧
  ∀ sys' id page, cache_step demo_page sys sys' (Some (id, page)) → demo_page id = Ok page.
Proof.
  cbn zeta. destruct (cache_transparent demo_page 1 (mkSystem (commit_load (cache_new 1) 5 [z2b 5]).1 [])) as (_ & B & H).
  - eapply rtc_l; [exists None; by apply (StepMiss demo_page (cache_new 1) [] 5 [z2b 5])|].
    eapply rtc_l; [|apply rtc_refl].
    eexists. apply (StepCommit demo_page (cache_new 1) [] [] 5 [z2b 5]).
  - split; [by apply B; lia|exact H].
Defined.

Definition demo_write (b : gmap Z bytes) (id : Z) (page : bytes) : gmap Z bytes * result () :=
  (<[id := page]> b, Ok ()).
Lemma demo_write_stores b id page b' u : demo_write b id page = (b', Ok u) →
  ∀ j, b' !! j = if bool_decide (j = id) then Some page else b !! j.
Proof.
  intros [= <- _] j. case_bool_decide as E; [subst; by rewrite lookup_insert_eq|by rewrite lookup_insert_ne].
Qed.
Lemma demo_write_fails b id page b' e : demo_write b id page = (b', Err e) → ∀ j, b' !! j = b !! j.
Proof. done. Qed.

(** A cache with one dirty page, number 1. *)
Definition demo_cache : CacheInner := put_dirty (cache_new 1) 1 [z2b 7].

Lemma demo_cache_entries : entries demo_cache = {[ 1 := mkCacheEntry [z2b 7] true ]}.
Proof. by vm_compute. Qed.
Lemma demo_evicted_entries :
  entries (commit_load demo_cache 2 [z2b 9]).1 = {[ 2 := mkCacheEntry [z2b 9] false ]}.
Proof. by vm_compute. Qed.

Lemma flush_writes_back_witness :
  (flush demo_write [1] demo_cache ∅).1.2 !! 1 = Some [z2b 7].
Proof.
  destruct (flush demo_write [1] demo_cache ∅) as [[c' b'] r] eqn:E.
  destruct (flush_writes_back demo_write (λ b id, b !! id) demo_write_stores demo_write_fails
    demo_cache ∅ [1] c' b' r) as (_ & _ & _ & H).
  - intros id page. rewrite demo_cache_entries. by intros [_ [=]]%lookup_singleton_Some.
  - intros id [e L]. rewrite demo_cache_entries in L. apply lookup_singleton_Some in L as [<- _]. set_solver.
  - exact E.
  - apply (H ltac:(vm_compute in E; by simplify_eq)). by vm_compute.
Defined.

Lemma eviction_drops_dirty_witness :
  let c' := (commit_load demo_cache 2 [z2b 9]).1 in
  probe c' 1 = None ∧ (flush demo_write [1; 2] c' {[ 2 := [z2b 9] ]}).1.2 !! 1 = None.
Proof.
  cbn zeta. rewrite <-(lookup_singleton_ne 2 1 [z2b 9] ltac:(done) : ({[ 2 := [z2b 9] ]} : gmap Z bytes) !! 1 = None).
  apply (eviction_drops_dirty demo_write (λ b id, b !! id) demo_write_stores demo_write_fails
    demo_cache 1 [] [z2b 7] 2 [z2b 9] {[ 2 := [z2b 9] ]} [1; 2]); try by vm_compute.
  - apply put_dirty_ok, cache_new_ok.
  - intros id page. rewrite demo_evicted_entries. intros [<- [= <-]]%lookup_singleton_Some.
    by rewrite lookup_singleton_eq.
Defined.
