(* ===== verification/CommittedReaders.v ===== *)
(** The committed ledger readers (src/src/storage/persistent_facts.rs):
    [CommittedFactLoaderImpl] over packed pages, the page cache and the backend,
    and [LayeredFactLoaderImpl] with the resident delta facts on top.  Both are
    shown to keep the promise [ServesFacts] that the fact store relies on.

    The cache is mutable state behind a lock: the operations take it at the
    state in which they find it and the tail search threads it through its
    probes; the theorems hold for every coherent state of it. *)
From S2P Require Import Prelude Types ValueCodec NetView SortedRuns Index PendingOverlay FactStore Wal PackedPages Cache.

(** * The paged loader *)

Section loader.
Context (from_bytes : bytes → result Fact) (read_page : Z → result bytes).

Record CommittedFactLoaderImpl : Type := mkLoader {
  page_cache : CacheInner;
  committed_fact_pages : nat;
  committed_fact_page_start : Z;
}.

Definition loader_resolve (l : CommittedFactLoaderImpl) (r : FactRef) : result Fact :=
  '(_, page) ← get_or_load read_page (page_cache l) (page_id r);
  read_slot from_bytes page (slot_index r).

Definition loader_stream_all (l : CommittedFactLoaderImpl) : result (list Fact) :=
  read_all_from_pages from_bytes read_page (committed_fact_page_start l) (committed_fact_pages l).

Definition loader_for_each_fact {S} (l : CommittedFactLoaderImpl) (visit : S → Fact → result S) (s : S)
    : result S :=
  for_each_from_pages from_bytes read_page (committed_fact_page_start l) (committed_fact_pages l) visit s.

(** The binary search for the first page with a fact after [since]; [None] is
    the fallback to a full scan.  [fuel] bounds the iterations. *)
Fixpoint tail_search (fuel : nat) (first_fact_page since : Z) (cache : CacheInner) (lo hi : nat)
    : result (option nat) :=
  if (lo <? hi)%nat then
    match fuel with
    | O => Err "out of fuel"
    | S fuel =>
        let mid := (lo + (hi - lo) / 2)%nat in
        '(cache, page) ← get_or_load read_page cache (sat_add_u64 first_fact_page (Z.of_nat mid));
        m ← last_tx_count from_bytes page;
        match m with
        | Some max_tx =>
            if since <? max_tx then tail_search fuel first_fact_page since cache lo mid
            else tail_search fuel first_fact_page since cache (mid + 1) hi
        | None => Ok None
        end
    end
  else Ok (Some lo).

Definition loader_for_each_fact_since {S} (l : CommittedFactLoaderImpl) (since : Z)
    (visit : S → Fact → result S) (s : S) : result S :=
  let n := committed_fact_pages l in
  let first_fact_page := committed_fact_page_start l in
  let filtered s f := if since <? tx_count f then visit s f else Ok s in
  if (n =? 0)%nat then Ok s
  else
    found ← tail_search n first_fact_page since (page_cache l) 0 n;
    match found with
    | None => loader_for_each_fact l filtered s
    | Some lo =>
        if (n <=? lo)%nat then Ok s
        else for_each_from_pages from_bytes read_page (sat_add_u64 first_fact_page (Z.of_nat lo)) (n - lo)
               filtered s
    end.

Definition loader_reader (l : CommittedFactLoaderImpl) : CommittedFactReader := {|
  rd_resolve := loader_resolve l;
  rd_stream_all := loader_stream_all l;
  rd_for_each_fact S := @loader_for_each_fact S l;
  rd_for_each_fact_since S := @loader_for_each_fact_since S l;
  rd_committed_page_count := Z.of_nat (committed_fact_pages l) |}.
End loader.

(** * The delta layer *)

Definition ref_eqb (a b : FactRef) : bool := (page_id a =? page_id b) && (slot_index a =? slot_index b).

(** [delta_facts] is the [BTreeMap]: its entries in ascending key order. *)
Record LayeredFactLoaderImpl : Type := mkLayered {
  base : CommittedFactReader;
  delta_facts : list (FactRef * Fact);
}.
Definition layered_resolve (l : LayeredFactLoaderImpl) (r : FactRef) : result Fact :=
  match List.find (λ '(k, _), ref_eqb k r) (delta_facts l) with
  | Some (_, fact) => Ok fact
  | None => rd_resolve (base l) r
  end.
Definition layered_stream_all (l : LayeredFactLoaderImpl) : result (list Fact) :=
  facts ← rd_stream_all (base l); Ok (facts ++ (delta_facts l).*2).
Definition layered_for_each_fact {S} (l : LayeredFactLoaderImpl) (visit : S → Fact → result S) (s : S) : result S :=
  s ← rd_for_each_fact (base l) visit s;
  foldR visit s (delta_facts l).*2.
Definition layered_for_each_fact_since {S} (l : LayeredFactLoaderImpl) (since : Z) (visit : S → Fact → result S)
    (s : S) : result S :=
  s ← rd_for_each_fact_since (base l) since visit s;
  foldR (λ s f, if since <? tx_count f then visit s f else Ok s) s (delta_facts l).*2.

Definition layered_reader (l : LayeredFactLoaderImpl) : CommittedFactReader := {|
  rd_resolve := layered_resolve l;
  rd_stream_all := layered_stream_all l;
  rd_for_each_fact S := @layered_for_each_fact S l;
  rd_for_each_fact_since S := @layered_for_each_fact_since S l;
  rd_committed_page_count := rd_committed_page_count (base l) |}.

(** * The promise *)

#[export] Instance layered_serves base_rd delta facts :
  ServesFacts base_rd facts → ServesFacts (layered_reader (mkLayered base_rd delta)) (facts ++ delta.*2).
Proof.
  intros [A E Si]. split; cbn.
  - unfold layered_stream_all. cbn. by rewrite A.
  - intros S visit s. unfold layered_for_each_fact. cbn. by rewrite E, foldR_app.
  - intros S n visit s. unfold layered_for_each_fact_since. cbn. rewrite Si, List.filter_app, foldR_app.
    destruct (foldR visit s (List.filter (after_tx n) facts)) as [s'|e]; cbn; [|done].
    apply (foldR_guard (after_tx n)).
Qed.

Section paged.
Context (from_bytes : bytes → result Fact) (read_page : Z → result bytes).
Context (start : Z) (gs : list (list Fact)).
Hypothesis start_ok : 0 ≤ start ∧ start + Z.of_nat (length gs) ≤ 2 ^ 64.
Hypothesis pages_ok : serves_pages from_bytes read_page start gs.
Hypothesis ledger_sorted : tx_sorted (concat gs).

Lemma sorted_prefix_last since k fs f :
  gs !! k = Some fs → last fs = Some f → tx_count f ≤ since →
  ∀ g, g ∈ concat (take (S k) gs) → tx_count g ≤ since.
Proof.
  intros L Lf Hf g Hg. rewrite (take_S_r _ _ _ L), concat_app in Hg. cbn [concat] in Hg. rewrite app_nil_r in Hg.
  apply last_Some in Lf as [fs' ->]. rewrite app_assoc in Hg.
  apply elem_of_app in Hg as [Hg|Hg]; [|by apply list_elem_of_singleton in Hg as ->].
  pose proof ledger_sorted as So. unfold tx_sorted in So. rewrite <-(take_drop_middle _ _ _ L), concat_app in So.
  cbn [concat] in So. rewrite <-app_assoc, app_assoc in So.
  etrans; [|exact Hf]. by apply (StronglySorted_app_1_elem_of _ _ _ g f So Hg), list_elem_of_here.
Qed.

(** The search ends, within its fuel, before a point up to which no fact is newer. *)
Lemma tail_search_ok since fuel : ∀ cache lo hi,
  cache_ok cache → coherent read_page cache → (hi ≤ length gs)%nat → (hi - lo ≤ fuel)%nat →
  (∀ g, g ∈ concat (take lo gs) → tx_count g ≤ since) →
  ∃ found, tail_search from_bytes read_page fuel start since cache lo hi = Ok found ∧
    ∀ p, found = Some p → ∀ g, g ∈ concat (take p gs) → tx_count g ≤ since.
Proof using start_ok pages_ok ledger_sorted.
  induction fuel as [|fuel IH]; intros cache lo hi O C Hi F Inv; cbn [tail_search].
  all: destruct (Nat.ltb_spec lo hi) as [L|L]; [|eexists; split; [done|by intros ? [= <-]]].
  { lia. }
  set (mid := (lo + (hi - lo) / 2)%nat).
  assert (lo ≤ mid < hi)%nat as Hm.
  { unfold mid. pose proof (Nat.div_lt (hi - lo) 2). lia. }
  destruct (lookup_lt_is_Some_2 gs mid) as [fs Lf]; [lia|].
  destruct (pages_ok mid fs Lf) as (page & Rp & Hp).
  assert (sat_add_u64 start (Z.of_nat mid) = start + Z.of_nat mid) as -> by (unfold sat_add_u64; ilia).
  pose proof (get_or_load_ok read_page cache (start + Z.of_nat mid) O C) as G.
  destruct (get_or_load read_page cache (start + Z.of_nat mid)) as [[cache' pg]|e]; [|by rewrite Rp in G].
  destruct G as (Ep & O' & C'). rewrite Rp in Ep. simplify_eq. cbn [mbind result_bind].
  rewrite (last_tx_count_holds _ _ _ Hp). cbn [mbind result_bind].
  destruct (last fs) as [f|] eqn:Lt; cbn; [|by eexists; split; [done|]].
  destruct (Z.ltb_spec since (tx_count f)).
  - apply IH; [done..|lia|lia|done].
  - apply IH; [done..|lia|]. rewrite Nat.add_1_r. by eapply sorted_prefix_last.
Qed.

Lemma filter_none {A} (p : A → bool) l : (∀ x, x ∈ l → p x = false) → List.filter p l = [].
Proof.
  intros H. induction l as [|x l IH]; [done|]. cbn. rewrite (H x) by set_solver. apply IH. set_solver.
Qed.

Lemma since_scan {S} since lo (visit : S → Fact → result S) s :
  (∀ g, g ∈ concat (take lo gs) → tx_count g ≤ since) →
  foldR visit s (List.filter (after_tx since) (concat gs))
    = foldR (λ s f, if since <? tx_count f then visit s f else Ok s) s (concat (drop lo gs)).
Proof.
  intros H. rewrite (foldR_guard (after_tx since)). f_equal.
  rewrite <-(take_drop lo gs) at 1. rewrite concat_app, List.filter_app, filter_none; [done|].
  intros g Hg. unfold after_tx. apply Z.ltb_ge. by apply H.
Qed.

Lemma loader_serves cache : cache_ok cache → coherent read_page cache →
  ServesFacts (loader_reader from_bytes read_page (mkLoader cache (length gs) start)) (concat gs).
Proof using start_ok pages_ok ledger_sorted.
  intros O C. split; cbn [rd_stream_all rd_for_each_fact rd_for_each_fact_since loader_reader].
  - unfold loader_stream_all, read_all_from_pages. cbn [committed_fact_page_start committed_fact_pages]. rewrite for_each_serves by (done || lia).
    apply foldR_collect.
  - intros S visit s. unfold loader_for_each_fact. cbn [committed_fact_page_start committed_fact_pages]. apply for_each_serves; [lia..|done].
  - intros S since visit s. unfold loader_for_each_fact_since. cbn [committed_fact_pages page_cache committed_fact_page_start].
    destruct (Nat.eqb_spec (length gs) 0) as [E|E]; [by rewrite (nil_length_inv _ E)|].
    destruct (tail_search_ok since (length gs) cache 0 (length gs)) as (found & -> & F); [done..|lia|set_solver|].
    cbn [mbind result_bind]. destruct found as [lo|].
    + specialize (F lo eq_refl). rewrite (since_scan since lo) by done. destruct (Nat.leb_spec (length gs) lo) as [L|L].
      * by rewrite drop_ge.
      * assert (sat_add_u64 start (Z.of_nat lo) = start + Z.of_nat lo) as -> by (unfold sat_add_u64; ilia).
        rewrite <-length_drop. apply for_each_serves; [lia|rewrite length_drop; lia|by apply serves_pages_drop].
    + unfold loader_for_each_fact. cbn [committed_fact_page_start committed_fact_pages]. rewrite (since_scan since 0), drop_0 by set_solver.
      apply for_each_serves; [lia..|done].
Qed.

Lemma loader_resolves cache k i fs f : cache_ok cache → coherent read_page cache →
  gs !! k = Some fs → fs !! i = Some f →
  loader_resolve from_bytes read_page (mkLoader cache (length gs) start)
    (mkFactRef (start + Z.of_nat k) (Z.of_nat i)) = Ok f.
Proof using pages_ok.
  intros O C Lk Li. unfold loader_resolve. cbn. destruct (pages_ok k fs Lk) as (page & Rp & Hp).
  pose proof (get_or_load_ok read_page cache (start + Z.of_nat k) O C) as G.
  destruct (get_or_load read_page cache (start + Z.of_nat k)) as [[cache' pg]|e]; [|by rewrite Rp in G].
  destruct G as (Ep & _). rewrite Rp in Ep. simplify_eq. cbn. by eapply holds_slot.
Qed.
End paged.

Section published.
Context (to_allocvec : Fact → result bytes) (from_bytes : bytes → result Fact).
Hypothesis codec_roundtrip : ∀ f bs, fact_ok f → to_allocvec f = Ok bs → from_bytes bs = Ok f.
Hypothesis codec_nonempty : ∀ f bs, to_allocvec f = Ok bs → bs ≠ [].

(** C9: a ledger in transaction order, packed into pages that the backend
    stores, is served by the paged loader (through any coherent cache) and by
    the delta layer above it exactly as the fact store's contract requires:
    the whole ledger, the visit of it, and the facts after any transaction
    found by the binary search over pages; and each reference resolves. *)
Theorem published_ledger_served facts start pages refs (read_page : Z → result bytes) cache delta :
  Forall fact_ok facts → 0 ≤ start → start + Z.of_nat (length facts) < 2 ^ 64 → tx_sorted facts →
  pack_facts to_allocvec facts start = Ok (pages, refs) →
  (∀ k pg, pages !! k = Some pg → read_page (start + Z.of_nat k) = Ok pg) →
  cache_ok cache → coherent read_page cache →
  let rd := loader_reader from_bytes read_page (mkLoader cache (length pages) start) in
  ServesFacts rd facts ∧ ServesFacts (layered_reader (mkLayered rd delta)) (facts ++ delta.*2) ∧
  ∀ j f, facts !! j = Some f → ∃ r, refs !! j = Some r ∧ rd_resolve rd r = Ok f.
Proof using codec_roundtrip codec_nonempty.
  intros Fk S0 S1 So E B O C. pose proof (pack_facts_encodable _ _ _ _ E) as F.
  destruct (pack_facts_groups to_allocvec from_bytes codec_roundtrip codec_nonempty facts start F Fk S0 S1)
    as (gs & E' & Ec & L & H). rewrite E in E'. simplify_eq. rewrite length_fmap.
  assert (serves_pages from_bytes read_page start gs) as Sv.
  { intros k fs Lk. exists (page_of to_allocvec fs). split; [apply B; by rewrite list_lookup_fmap, Lk|].
    rewrite Forall_forall in H. apply H. by eapply list_elem_of_lookup_2. }
  assert (ServesFacts (loader_reader from_bytes read_page (mkLoader cache (length gs) start)) (concat gs)) as SF.
  { apply loader_serves; try done. lia. }
  split_and!; [exact SF|by apply layered_serves|].
  intros j f Lj. destruct (refs_of_lookup start gs j f Lj) as (k & i & fs & Lk & Li & Lr).
  eexists. split; [exact Lr|]. by eapply loader_resolves.
Qed.
End published.

Lemma published_ledger_served_witness :
  ∃ pages refs, pack_facts demo_encode demo_facts 7 = Ok (pages, refs) ∧
    ServesFacts (loader_reader demo_decode (λ id, ok_or (pages !! Z.to_nat (id - 7)) "no such page")
      (mkLoader (cache_new 256) (length pages) 7)) demo_facts.
Proof.
  destruct (pack_facts_groups demo_encode demo_decode demo_codec demo_nonempty demo_facts 7
    demo_encodable demo_facts_ok ltac:(done) ltac:(done)) as (gs & E & _).
  eexists _, _. split; [exact E|].
  refine (proj1 (published_ledger_served demo_encode demo_decode demo_codec demo_nonempty demo_facts 7 _ _ _
    (cache_new 256) [] demo_facts_ok _ _ _ E _ (cache_new_ok 256) _)); [done|done|repeat constructor; done| |].
  - intros k pg L. replace (Z.to_nat (7 + Z.of_nat k - 7)) with k by lia. by rewrite L.
  - intros id e L. cbn in L. by rewrite lookup_empty in L.
Defined.
