(* ===== verification/HeaderPage.v ===== *)
(** Page 0 of a .graph file: the 84-byte [FileHeader] (src/src/storage/mod.rs)
    and the [HeaderExtension] after it (src/src/storage/header_extension.rs)
    with its two delta-manifest slots, the base layout, the integrity descriptor
    and the two projection-catalog slots, and the checksum over the header
    (src/src/storage/persistent_facts.rs).

    crc32 is a parameter with a 32-bit result. *)
From S2P Require Import Prelude Types ValueCodec Index Wal FactStore PackedPages.

(** * Little-endian fields *)

Definition read_u32_le (bytes : bytes) (offset : nat) : result Z :=
  b ← ok_or (get_range bytes offset (offset + 4)) "out of bounds"; Ok (from_le_bytes b).
Definition read_u64_le (bytes : bytes) (offset : nat) : result Z :=
  b ← ok_or (get_range bytes offset (offset + 8)) "out of bounds"; Ok (from_le_bytes b).

(** [Vec::resize(n, 0)]. *)
Definition resize_zero (n : nat) (bs : bytes) : bytes := take n bs ++ replicate (n - length bs) (z2b 0).

Definition checked_mul_u64 (a b : Z) : option Z := if a * b <=? u64_MAX then Some (a * b) else None.

Definition MAGIC_NUMBER : bytes := as_bytes "MGRF".
Definition FORMAT_VERSION : Z := 12.
Definition MAX_READABLE_FORMAT_VERSION : Z := 13.
Definition FACT_PAGE_FORMAT_PACKED : Z := 2.

(** * The file header *)

Module FileHeader.
Record t : Type := mk {
  magic : bytes;
  version : Z;
  page_count : Z;
  node_count : Z;
  last_checkpointed_tx_count : Z;
  eavt_root_page : Z;
  aevt_root_page : Z;
  avet_root_page : Z;
  vaet_root_page : Z;
  index_checksum : Z;
  fact_page_format : Z;
  padding : bytes;
  fact_page_count : Z;
  header_checksum : Z;
}.

Definition new : t := mk MAGIC_NUMBER FORMAT_VERSION 1 0 0 0 0 0 0 0 FACT_PAGE_FORMAT_PACKED
  [z2b 0; z2b 0; z2b 0] 0 0.

Definition to_bytes (h : t) : bytes :=
  magic h ++ to_le_bytes 4 (version h) ++ to_le_bytes 8 (page_count h) ++ to_le_bytes 8 (node_count h) ++
  to_le_bytes 8 (last_checkpointed_tx_count h) ++ to_le_bytes 8 (eavt_root_page h) ++
  to_le_bytes 8 (aevt_root_page h) ++ to_le_bytes 8 (avet_root_page h) ++ to_le_bytes 8 (vaet_root_page h) ++
  to_le_bytes 4 (index_checksum h) ++ [z2b (fact_page_format h)] ++ padding h ++
  to_le_bytes 8 (fact_page_count h) ++ to_le_bytes 4 (header_checksum h).

Definition from_bytes (bytes : bytes) : result t :=
  _ ← ensure (64 <=? length bytes)%nat "Invalid header: too short";
  magic ← ok_or (get_range bytes 0 4) "header too short for magic bytes";
  _ ← ensure (bool_decide (magic = MAGIC_NUMBER)) "Invalid magic number: not a .graph file";
  version ← read_u32_le bytes 4;
  page_count ← read_u64_le bytes 8;
  node_count ← read_u64_le bytes 16;
  last_checkpointed_tx_count ← read_u64_le bytes 24;
  if version <=? 3
  then Ok (mk magic version page_count node_count last_checkpointed_tx_count 0 0 0 0 0 0
             [z2b 0; z2b 0; z2b 0] 0 0)
  else
    _ ← ensure (72 <=? length bytes)%nat "Invalid v4/v5/v6 header";
    fact_page_count ←
      (if 6 <=? version then _ ← ensure (80 <=? length bytes)%nat "Invalid v6 header"; read_u64_le bytes 72
       else Ok 0);
    header_checksum ←
      (if 7 <=? version then _ ← ensure (84 <=? length bytes)%nat "Invalid v7+ header"; read_u32_le bytes 80
       else Ok 0);
    eavt_root_page ← read_u64_le bytes 32;
    aevt_root_page ← read_u64_le bytes 40;
    avet_root_page ← read_u64_le bytes 48;
    vaet_root_page ← read_u64_le bytes 56;
    index_checksum ← read_u32_le bytes 64;
    fact_page_format ← ok_or (bytes !! 68%nat) "header too short for fact_page_format";
    p0 ← ok_or (bytes !! 69%nat) "header too short for padding[0]";
    p1 ← ok_or (bytes !! 70%nat) "header too short for padding[1]";
    p2 ← ok_or (bytes !! 71%nat) "header too short for padding[2]";
    Ok (mk magic version page_count node_count last_checkpointed_tx_count eavt_root_page aevt_root_page
          avet_root_page vaet_root_page index_checksum (b2z fact_page_format) [p0; p1; p2]
          fact_page_count header_checksum).

Definition validate (h : t) : result () :=
  _ ← ensure (bool_decide (magic h = MAGIC_NUMBER)) "Invalid magic number";
  _ ← ensure ((1 <=? version h) && (version h <=? MAX_READABLE_FORMAT_VERSION)) "Unsupported format version";
  _ ← ensure (negb (page_count h =? 0)) "page_count must be greater than 0";
  _ ← ensure ((eavt_root_page h =? 0) || (eavt_root_page h <? page_count h))
        "eavt_root_page must be less than page_count";
  ensure (fact_page_count h <=? page_count h) "fact_page_count cannot exceed page_count".

(** The widths of the fields. *)
Record ok (h : t) : Prop := {
  ok_magic : magic h = MAGIC_NUMBER;
  ok_version : u32_ok (version h);
  ok_page_count : u64_ok (page_count h);
  ok_node_count : u64_ok (node_count h);
  ok_last : u64_ok (last_checkpointed_tx_count h);
  ok_eavt : u64_ok (eavt_root_page h);
  ok_aevt : u64_ok (aevt_root_page h);
  ok_avet : u64_ok (avet_root_page h);
  ok_vaet : u64_ok (vaet_root_page h);
  ok_index : u32_ok (index_checksum h);
  ok_format : u8_ok (fact_page_format h);
  ok_padding : length (padding h) = 3%nat;
  ok_fact_pages : u64_ok (fact_page_count h);
  ok_checksum : u32_ok (header_checksum h);
}.
End FileHeader.

Section checksum.
Context (crc32 : bytes → Z).

(** Zeroing bytes 80 to 83 and hashing the first 80. *)
Definition zero_checksum (bs : bytes) : bytes :=
  foldl (λ bs i, <[i := z2b 0]> bs) bs [80; 81; 82; 83]%nat.

Definition compute_header_checksum (h : FileHeader.t) : Z :=
  crc32 (default [] (get_range (zero_checksum (FileHeader.to_bytes h)) 0 80)).
Definition compute_header_checksum_from_bytes (bytes : bytes) : Z :=
  let data := if (length bytes <? 84)%nat then resize_zero 84 bytes else bytes in
  crc32 (default [] (get_range (zero_checksum data) 0 80)).
End checksum.

(** * Slots *)

(** The 40 bytes of a slot. *)
Definition slot_bytes (generation page_start page_count len checksum slot_checksum : Z) : bytes :=
  to_le_bytes 8 generation ++ to_le_bytes 8 page_start ++ to_le_bytes 8 page_count ++ to_le_bytes 8 len ++
  to_le_bytes 4 checksum ++ to_le_bytes 4 slot_checksum.

Module HeaderManifestSlot.
Definition LEN : nat := 40.
Record t : Type := mk {
  generation : Z;
  manifest_page_start : Z;
  manifest_page_count : Z;
  manifest_len : Z;
  manifest_checksum : Z;
  slot_checksum : Z;
}.
#[export] Instance t_eq_dec : EqDecision t.
Proof. solve_decision. Defined.

Definition empty : t := mk 0 0 0 0 0 0.
Definition is_empty (s : t) : bool :=
  (generation s =? 0) && (manifest_page_start s =? 0) && (manifest_page_count s =? 0) &&
  (manifest_len s =? 0) && (manifest_checksum s =? 0) && (slot_checksum s =? 0).

Definition to_bytes (s : t) : bytes :=
  slot_bytes (generation s) (manifest_page_start s) (manifest_page_count s) (manifest_len s)
    (manifest_checksum s) (slot_checksum s).
Definition from_bytes (bytes : bytes) : result t :=
  _ ← ensure (length bytes =? LEN)%nat "Header manifest slot length is invalid";
  generation ← read_u64_le bytes 0;
  manifest_page_start ← read_u64_le bytes 8;
  manifest_page_count ← read_u64_le bytes 16;
  manifest_len ← read_u64_le bytes 24;
  manifest_checksum ← read_u32_le bytes 32;
  slot_checksum ← read_u32_le bytes 36;
  Ok (mk generation manifest_page_start manifest_page_count manifest_len manifest_checksum slot_checksum).

Definition checksum_payload (s : t) : bytes :=
  to_le_bytes 8 (generation s) ++ to_le_bytes 8 (manifest_page_start s) ++
  to_le_bytes 8 (manifest_page_count s) ++ to_le_bytes 8 (manifest_len s) ++ to_le_bytes 4 (manifest_checksum s).

Section crc.
Context (crc32 : bytes → Z).

Definition compute_checksum (s : t) : Z := crc32 (checksum_payload s).
Definition checksum_valid (s : t) : bool := is_empty s || (slot_checksum s =? compute_checksum s).

Definition new (generation manifest_page_start manifest_page_count manifest_len manifest_checksum : Z)
    : result t :=
  _ ← ensure (negb (generation =? 0)) "Header manifest slot generation must be non-zero";
  _ ← ensure (negb (manifest_page_start =? 0)) "Header manifest payload must not start on page 0";
  _ ← ensure (negb (manifest_page_count =? 0)) "Header manifest payload page count must be non-zero";
  _ ← ensure (negb (manifest_len =? 0)) "Header manifest payload length must be non-zero";
  _ ← ok_or (checked_add_u64 manifest_page_start manifest_page_count)
        "Header manifest payload page range overflow";
  let slot := mk generation manifest_page_start manifest_page_count manifest_len manifest_checksum 0 in
  Ok (mk generation manifest_page_start manifest_page_count manifest_len manifest_checksum
        (compute_checksum slot)).

Definition is_selectable (s : t) : bool :=
  negb (is_empty s) && checksum_valid s && (0 <? generation s) && (0 <? manifest_page_start s) &&
  (0 <? manifest_page_count s) && (0 <? manifest_len s) &&
  bool_decide (is_Some (checked_add_u64 (manifest_page_start s) (manifest_page_count s))).

Inductive state_t : Type := Empty | Valid (s : t) | Invalid.
Definition state (s : t) : state_t :=
  if is_empty s then Empty else if is_selectable s then Valid s else Invalid.
End crc.

Definition ok (s : t) : Prop :=
  u64_ok (generation s) ∧ u64_ok (manifest_page_start s) ∧ u64_ok (manifest_page_count s) ∧
  u64_ok (manifest_len s) ∧ u32_ok (manifest_checksum s) ∧ u32_ok (slot_checksum s).
End HeaderManifestSlot.

Module ProjectionCatalogSlot.
Definition LEN : nat := 40.
Record t : Type := mk {
  generation : Z;
  catalog_page_start : Z;
  catalog_page_count : Z;
  catalog_len : Z;
  catalog_checksum : Z;
  slot_checksum : Z;
}.
#[export] Instance t_eq_dec : EqDecision t.
Proof. solve_decision. Defined.

Definition empty : t := mk 0 0 0 0 0 0.
Definition is_empty (s : t) : bool := bool_decide (s = empty).

Definition to_bytes (s : t) : bytes :=
  slot_bytes (generation s) (catalog_page_start s) (catalog_page_count s) (catalog_len s)
    (catalog_checksum s) (slot_checksum s).
Definition from_bytes (bytes : bytes) : result t :=
  _ ← ensure (length bytes =? LEN)%nat "Projection catalog slot length is invalid";
  generation ← read_u64_le bytes 0;
  catalog_page_start ← read_u64_le bytes 8;
  catalog_page_count ← read_u64_le bytes 16;
  catalog_len ← read_u64_le bytes 24;
  catalog_checksum ← read_u32_le bytes 32;
  slot_checksum ← read_u32_le bytes 36;
  Ok (mk generation catalog_page_start catalog_page_count catalog_len catalog_checksum slot_checksum).

Section crc.
Context (crc32 : bytes → Z).

Definition compute_checksum (s : t) : Z := crc32 (take (LEN - 4) (to_bytes s)).

Definition new (generation catalog_page_start catalog_page_count catalog_len catalog_checksum : Z) : result t :=
  _ ← ensure (negb (generation =? 0)) "Projection catalog slot generation must be non-zero";
  _ ← ensure (negb ((catalog_page_start =? 0) || (catalog_page_count =? 0) || (catalog_len =? 0)))
        "Projection catalog slot range must be non-empty";
  capacity ← ok_or (checked_mul_u64 catalog_page_count (Z.of_nat PAGE_SIZE))
               "Projection catalog slot capacity overflow";
  minimum_len ← ok_or (checked_mul_u64 (sat_sub_u64 catalog_page_count 1) (Z.of_nat PAGE_SIZE))
                  "Projection catalog slot minimum length overflow";
  _ ← ensure (negb ((capacity <? catalog_len) || (catalog_len <=? minimum_len)))
        "Projection catalog slot length is not canonical for its page count";
  _ ← ok_or (checked_add_u64 catalog_page_start catalog_page_count) "Projection catalog slot page range overflow";
  let slot := mk generation catalog_page_start catalog_page_count catalog_len catalog_checksum 0 in
  Ok (mk generation catalog_page_start catalog_page_count catalog_len catalog_checksum (compute_checksum slot)).

Definition is_selectable (s : t) : bool :=
  negb (is_empty s) && (slot_checksum s =? compute_checksum s) && (0 <? catalog_page_start s) &&
  (0 <? catalog_page_count s) && (0 <? catalog_len s) &&
  bool_decide (is_Some (checked_add_u64 (catalog_page_start s) (catalog_page_count s))).
End crc.

Definition ok (s : t) : Prop :=
  u64_ok (generation s) ∧ u64_ok (catalog_page_start s) ∧ u64_ok (catalog_page_count s) ∧
  u64_ok (catalog_len s) ∧ u32_ok (catalog_checksum s) ∧ u32_ok (slot_checksum s).
End ProjectionCatalogSlot.

(** * The integrity descriptor *)

Module BasePageIntegrityDescriptor.
Definition LEN : nat := 8 * 6 + 4 * 2.
Record t : Type := mk {
  base_generation : Z;
  covered_page_start : Z;
  covered_page_count : Z;
  catalog_page_start : Z;
  catalog_page_count : Z;
  catalog_len : Z;
  catalog_checksum : Z;
  descriptor_checksum : Z;
}.
#[export] Instance t_eq_dec : EqDecision t.
Proof. solve_decision. Defined.

Definition empty : t := mk 0 0 0 0 0 0 0 0.
Definition is_empty (d : t) : bool := bool_decide (d = empty).

Definition covered_page_end (d : t) : result Z :=
  ok_or (checked_add_u64 (covered_page_start d) (covered_page_count d))
    "Base integrity covered page range overflow".
Definition catalog_page_end (d : t) : result Z :=
  ok_or (checked_add_u64 (catalog_page_start d) (catalog_page_count d))
    "Base integrity catalog page range overflow".

Definition validate_layout (d : t) : result () :=
  if is_empty d then Ok ()
  else
    _ ← ensure (negb (base_generation d =? 0)) "Base integrity descriptor generation must be non-zero";
    _ ← ensure (negb ((covered_page_start d =? 0) || (covered_page_count d =? 0)))
          "Base integrity descriptor must cover non-header pages";
    covered_end ← covered_page_end d;
    _ ← ensure (covered_end <=? catalog_page_start d) "Base integrity catalog must not overlap covered pages";
    _ ← ensure (negb ((catalog_page_count d =? 0) || (catalog_len d =? 0)))
          "Base integrity catalog page count and length must be non-zero";
    catalog_capacity ← ok_or (checked_mul_u64 (catalog_page_count d) (Z.of_nat PAGE_SIZE))
                         "Base integrity catalog capacity overflow";
    _ ← ensure (catalog_len d <=? catalog_capacity) "Base integrity catalog length exceeds its page capacity";
    minimum_len ← ok_or (checked_mul_u64 (sat_sub_u64 (catalog_page_count d) 1) (Z.of_nat PAGE_SIZE))
                    "Base integrity catalog minimum length overflow";
    _ ← ensure (minimum_len <? catalog_len d) "Base integrity catalog page count is not canonical for its length";
    _ ← catalog_page_end d;
    Ok ().

Definition to_bytes (d : t) : bytes :=
  to_le_bytes 8 (base_generation d) ++ to_le_bytes 8 (covered_page_start d) ++
  to_le_bytes 8 (covered_page_count d) ++ to_le_bytes 8 (catalog_page_start d) ++
  to_le_bytes 8 (catalog_page_count d) ++ to_le_bytes 8 (catalog_len d) ++
  to_le_bytes 4 (catalog_checksum d) ++ to_le_bytes 4 (descriptor_checksum d).

Section crc.
Context (crc32 : bytes → Z).

Definition compute_checksum (d : t) : Z := crc32 (take (LEN - 4) (to_bytes d)).
Definition checksum_valid (d : t) : bool := is_empty d || (descriptor_checksum d =? compute_checksum d).

Definition new (base_generation covered_page_start covered_page_count catalog_page_start catalog_page_count
    catalog_len catalog_checksum : Z) : result t :=
  let d := mk base_generation covered_page_start covered_page_count catalog_page_start catalog_page_count
             catalog_len catalog_checksum 0 in
  _ ← validate_layout d;
  Ok (mk base_generation covered_page_start covered_page_count catalog_page_start catalog_page_count
        catalog_len catalog_checksum (compute_checksum d)).

Definition from_bytes (bytes : bytes) : result t :=
  _ ← ensure (length bytes =? LEN)%nat "Base integrity descriptor length is invalid";
  base_generation ← read_u64_le bytes 0;
  covered_page_start ← read_u64_le bytes 8;
  covered_page_count ← read_u64_le bytes 16;
  catalog_page_start ← read_u64_le bytes 24;
  catalog_page_count ← read_u64_le bytes 32;
  catalog_len ← read_u64_le bytes 40;
  catalog_checksum ← read_u32_le bytes 48;
  descriptor_checksum ← read_u32_le bytes 52;
  let d := mk base_generation covered_page_start covered_page_count catalog_page_start catalog_page_count
             catalog_len catalog_checksum descriptor_checksum in
  if is_empty d then Ok d
  else
    _ ← validate_layout d;
    _ ← ensure (checksum_valid d) "Base integrity descriptor checksum mismatch";
    Ok d.
End crc.

Definition ok (d : t) : Prop :=
  u64_ok (base_generation d) ∧ u64_ok (covered_page_start d) ∧ u64_ok (covered_page_count d) ∧
  u64_ok (catalog_page_start d) ∧ u64_ok (catalog_page_count d) ∧ u64_ok (catalog_len d) ∧
  u32_ok (catalog_checksum d) ∧ u32_ok (descriptor_checksum d).
End BasePageIntegrityDescriptor.

(** * The extension *)

Definition HEADER_EXTENSION_OFFSET : nat := 84.
Definition LEGACY_HEADER_EXTENSION_LEN : nat := 12 + HeaderManifestSlot.LEN * 2 + 12.
Definition HEADER_EXTENSION_LEN : nat := LEGACY_HEADER_EXTENSION_LEN + BasePageIntegrityDescriptor.LEN.
Definition PROJECTION_HEADER_EXTENSION_LEN : nat := HEADER_EXTENSION_LEN + ProjectionCatalogSlot.LEN * 2.
Definition LEGACY_VERSION : Z := 10.
Definition INTEGRITY_VERSION : Z := 11.
Definition PREFIX_LEAF_VERSION : Z := 12.
Definition PROJECTION_VERSION : Z := 13.

(** The magic and the length of the extension of a format version. *)
Definition extension_format (version : Z) : option (bytes * nat) :=
  if version =? LEGACY_VERSION then Some (as_bytes "MGHEX001", LEGACY_HEADER_EXTENSION_LEN)
  else if (version =? INTEGRITY_VERSION) || (version =? PREFIX_LEAF_VERSION)
  then Some (as_bytes "MGHEX002", HEADER_EXTENSION_LEN)
  else if version =? PROJECTION_VERSION then Some (as_bytes "MGHEX003", PROJECTION_HEADER_EXTENSION_LEN)
  else None.

Module HeaderExtension.
Record t : Type := mk {
  primary : HeaderManifestSlot.t;
  secondary : HeaderManifestSlot.t;
  base_fact_page_start : Z;
  base_layout_checksum : Z;
  base_integrity : BasePageIntegrityDescriptor.t;
  projection_primary : ProjectionCatalogSlot.t;
  projection_secondary : ProjectionCatalogSlot.t;
}.
Definition PREFIX_LEN : nat := 12.

Section crc.
Context (crc32 : bytes → Z).

Definition compute_base_layout_checksum (base_fact_page_start : Z) : Z :=
  crc32 (to_le_bytes 8 base_fact_page_start).

Definition new (primary secondary : HeaderManifestSlot.t) : t :=
  mk primary secondary 1 (compute_base_layout_checksum 1) BasePageIntegrityDescriptor.empty
    ProjectionCatalogSlot.empty ProjectionCatalogSlot.empty.
Definition empty : t := new HeaderManifestSlot.empty HeaderManifestSlot.empty.

Definition with_projection_catalog_slots (e : t) (p s : ProjectionCatalogSlot.t) : result t :=
  _ ← ensure (negb ((negb (ProjectionCatalogSlot.is_empty p) && negb (ProjectionCatalogSlot.is_selectable crc32 p))
                 || (negb (ProjectionCatalogSlot.is_empty s) && negb (ProjectionCatalogSlot.is_selectable crc32 s))))
        "Projection catalog slot is invalid";
  Ok (mk (primary e) (secondary e) (base_fact_page_start e) (base_layout_checksum e) (base_integrity e) p s).

Definition with_base_fact_page_start (e : t) (start : Z) : result t :=
  _ ← ensure (negb (start =? 0)) "Base fact pages must not start on page 0";
  _ ← ensure (BasePageIntegrityDescriptor.is_empty (base_integrity e)
              || (BasePageIntegrityDescriptor.covered_page_start (base_integrity e) =? start))
        "Base integrity coverage must start at the base fact page";
  Ok (mk (primary e) (secondary e) start (compute_base_layout_checksum start) (base_integrity e)
        (projection_primary e) (projection_secondary e)).

Definition with_base_integrity (e : t) (d : BasePageIntegrityDescriptor.t) : result t :=
  _ ← (if BasePageIntegrityDescriptor.is_empty d then Ok ()
       else
         _ ← BasePageIntegrityDescriptor.validate_layout d;
         _ ← ensure (BasePageIntegrityDescriptor.checksum_valid crc32 d)
               "Base integrity descriptor checksum mismatch";
         ensure (BasePageIntegrityDescriptor.covered_page_start d =? base_fact_page_start e)
           "Base integrity coverage must start at the base fact page");
  Ok (mk (primary e) (secondary e) (base_fact_page_start e) (base_layout_checksum e) d
        (projection_primary e) (projection_secondary e)).

Definition to_bytes_for_version (e : t) (version : Z) : result bytes :=
  '(magic, _) ← ok_or (extension_format version) "Unsupported header extension file format version";
  let bytes := magic ++ to_le_bytes 4 version ++ HeaderManifestSlot.to_bytes (primary e) ++
    HeaderManifestSlot.to_bytes (secondary e) ++ to_le_bytes 8 (base_fact_page_start e) ++
    to_le_bytes 4 (base_layout_checksum e) in
  bytes ← (if INTEGRITY_VERSION <=? version
           then Ok (bytes ++ BasePageIntegrityDescriptor.to_bytes (base_integrity e))
           else if negb (BasePageIntegrityDescriptor.is_empty (base_integrity e))
           then Err "v10 header extension cannot encode v11 base integrity metadata" else Ok bytes);
  if PROJECTION_VERSION <=? version
  then Ok (bytes ++ ProjectionCatalogSlot.to_bytes (projection_primary e) ++
             ProjectionCatalogSlot.to_bytes (projection_secondary e))
  else if negb (ProjectionCatalogSlot.is_empty (projection_primary e))
       || negb (ProjectionCatalogSlot.is_empty (projection_secondary e))
  then Err "v12 header extension cannot encode projection catalog slots" else Ok bytes.

Definition write_to_page0_for_version (e : t) (version : Z) (page : bytes) : result bytes :=
  _ ← ensure (length page =? PAGE_SIZE)%nat "Header extension write requires a full page 0";
  bytes ← to_bytes_for_version e version;
  ok_or (write_at page HEADER_EXTENSION_OFFSET bytes) "Header extension does not fit in page 0".

Definition read_from_page0 (version : Z) (page : bytes) : result (option t) :=
  _ ← ensure (HEADER_EXTENSION_OFFSET <=? length page)%nat "Page 0 is too short for legacy header";
  if version <? LEGACY_VERSION then Ok None
  else
    '(expected_magic, extension_len) ← ok_or (extension_format version)
                                         "Unsupported header extension file format version";
    ext ← ok_or (get_range page HEADER_EXTENSION_OFFSET (HEADER_EXTENSION_OFFSET + extension_len))
            "Header extension is truncated";
    _ ← ensure (negb (forallb (λ b, b2z b =? 0) ext)) "Header extension is missing";
    magic ← ok_or (get_range ext 0 8) "Header extension missing magic";
    _ ← ensure (bool_decide (magic = expected_magic)) "Header extension magic mismatch";
    extension_version ← read_u32_le ext 8;
    _ ← ensure (extension_version =? version) "Unsupported header extension file format version";
    primary_bytes ← ok_or (get_range ext 12 52) "Header extension primary slot out of bounds";
    primary ← HeaderManifestSlot.from_bytes primary_bytes;
    secondary_bytes ← ok_or (get_range ext 52 92) "Header extension secondary slot out of bounds";
    secondary ← HeaderManifestSlot.from_bytes secondary_bytes;
    raw_start ← read_u64_le ext 92;
    raw_checksum ← read_u32_le ext 100;
    base_fact_page_start ←
      (if (raw_start =? 0) && (raw_checksum =? 0) then Ok 1
       else
         _ ← ensure (negb (raw_start =? 0)) "Header extension base fact page start must be non-zero";
         _ ← ensure (raw_checksum =? compute_base_layout_checksum raw_start)
               "Header extension base layout checksum mismatch";
         Ok raw_start);
    base_integrity ←
      (if INTEGRITY_VERSION <=? version
       then b ← ok_or (get_range ext LEGACY_HEADER_EXTENSION_LEN HEADER_EXTENSION_LEN)
                  "Base integrity descriptor is truncated";
            BasePageIntegrityDescriptor.from_bytes crc32 b
       else Ok BasePageIntegrityDescriptor.empty);
    _ ← ensure (BasePageIntegrityDescriptor.is_empty base_integrity
                || (BasePageIntegrityDescriptor.covered_page_start base_integrity =? base_fact_page_start))
          "Base integrity coverage does not match the base fact page start";
    '(projection_primary, projection_secondary) ←
      (if PROJECTION_VERSION <=? version
       then pb ← ok_or (get_range ext HEADER_EXTENSION_LEN (HEADER_EXTENSION_LEN + 40))
                   "Projection primary catalog slot is truncated";
            p ← ProjectionCatalogSlot.from_bytes pb;
            sb ← ok_or (get_range ext (HEADER_EXTENSION_LEN + 40) (HEADER_EXTENSION_LEN + 80))
                   "Projection secondary catalog slot is truncated";
            s ← ProjectionCatalogSlot.from_bytes sb;
            Ok (p, s)
       else Ok (ProjectionCatalogSlot.empty, ProjectionCatalogSlot.empty));
    Ok (Some (mk primary secondary base_fact_page_start (compute_base_layout_checksum base_fact_page_start)
                base_integrity projection_primary projection_secondary)).
End crc.
End HeaderExtension.

(** * Selection and construction of page 0 *)

Inductive SlotName : Type := Primary | Secondary.

Inductive HeaderManifestSlotSelection : Type :=
| NoDeltaManifest
| Use (slot : SlotName) (descriptor : HeaderManifestSlot.t)
| RecoveryRequired.

Inductive ProjectionCatalogSlotSelection : Type :=
| NoProjectionCatalog
| Candidates (newest : SlotName * ProjectionCatalogSlot.t) (previous : option (SlotName * ProjectionCatalogSlot.t))
| ProjectionRecoveryRequired.

Section page0.
Context (crc32 : bytes → Z).

Definition select_header_manifest_slot (e : HeaderExtension.t) : HeaderManifestSlotSelection :=
  match HeaderManifestSlot.state crc32 (HeaderExtension.primary e),
        HeaderManifestSlot.state crc32 (HeaderExtension.secondary e) with
  | HeaderManifestSlot.Valid p, HeaderManifestSlot.Valid s =>
      if HeaderManifestSlot.generation s <=? HeaderManifestSlot.generation p then Use Primary p else Use Secondary s
  | HeaderManifestSlot.Valid p, _ => Use Primary p
  | _, HeaderManifestSlot.Valid s => Use Secondary s
  | HeaderManifestSlot.Empty, HeaderManifestSlot.Empty => NoDeltaManifest
  | _, _ => RecoveryRequired
  end.

Definition select_header_manifest_slot_from_page0 (version : Z) (page : bytes)
    : result HeaderManifestSlotSelection :=
  e ← HeaderExtension.read_from_page0 crc32 version page;
  match e with
  | None => Ok NoDeltaManifest
  | Some e => Ok (select_header_manifest_slot e)
  end.

(** [sort_by_key] with [Reverse(generation)] is stable. *)
Fixpoint insert_by_generation (x : SlotName * ProjectionCatalogSlot.t)
    (l : list (SlotName * ProjectionCatalogSlot.t)) : list (SlotName * ProjectionCatalogSlot.t) :=
  match l with
  | [] => [x]
  | y :: l =>
      if ProjectionCatalogSlot.generation x.2 <? ProjectionCatalogSlot.generation y.2
      then y :: insert_by_generation x l else x :: y :: l
  end.

Definition select_projection_catalog_slots (e : HeaderExtension.t) : ProjectionCatalogSlotSelection :=
  let slots := [(Primary, HeaderExtension.projection_primary e);
                (Secondary, HeaderExtension.projection_secondary e)] in
  let has_invalid := existsb (λ '(_, s), negb (ProjectionCatalogSlot.is_empty s)
                                         && negb (ProjectionCatalogSlot.is_selectable crc32 s)) slots in
  let valid := foldr insert_by_generation []
                 (List.filter (λ '(_, s), ProjectionCatalogSlot.is_selectable crc32 s) slots) in
  match valid with
  | [] => if has_invalid then ProjectionRecoveryRequired else NoProjectionCatalog
  | newest :: previous => Candidates newest (head previous)
  end.

(** Page 0 before the extension is written. *)
Definition header_page (h : FileHeader.t) : result bytes :=
  let page := FileHeader.to_bytes h in
  _ ← ensure (length page <=? PAGE_SIZE)%nat "Header bytes exceed page size";
  Ok (resize_zero PAGE_SIZE page).

Definition build_header_page (h : FileHeader.t) : result bytes :=
  _ ← FileHeader.validate h;
  page ← header_page h;
  match extension_format (FileHeader.version h) with
  | Some _ => HeaderExtension.write_to_page0_for_version (HeaderExtension.empty crc32) (FileHeader.version h) page
  | None =>
      _ ← ensure (FileHeader.version h <=? PROJECTION_VERSION) "Unsupported header extension file format version";
      Ok page
  end.

Definition build_header_page_with_extension (h : FileHeader.t) (e : HeaderExtension.t) : result bytes :=
  _ ← FileHeader.validate h;
  _ ← ensure (bool_decide (is_Some (extension_format (FileHeader.version h))))
        "Header extension requires v10 through v13 file format";
  page ← header_page h;
  HeaderExtension.write_to_page0_for_version e (FileHeader.version h) page.
End page0.

(** * Reading fields back *)

Lemma get_range_skip {A} (x l : list A) a b :
  (length x ≤ a ≤ b)%nat → get_range (x ++ l) a b = get_range l (a - length x) (b - length x).
Proof.
  intros H. unfold get_range. rewrite length_app. destruct (decide (b ≤ length x + length l)%nat) as [Hb|Hb].
  - rewrite !decide_True by lia. f_equal. rewrite drop_app_ge by lia. f_equal. lia.
  - by rewrite !decide_False by lia.
Qed.

Lemma get_range_here {A} (x l : list A) n : n = length x → get_range (x ++ l) 0 n = Some x.
Proof. intros ->. by apply (get_range_at _ [] x l). Qed.
Lemma get_range_all {A} (x : list A) n : n = length x → get_range x 0 n = Some x.
Proof. intros E. rewrite <-(app_nil_r x) at 1. by apply get_range_here. Qed.

Lemma read_u64_skip x l k : (length x ≤ k)%nat → read_u64_le (x ++ l) k = read_u64_le l (k - length x).
Proof.
  intros H. unfold read_u64_le. rewrite get_range_skip by lia. by replace (k + 8 - length x)%nat with (k - length x + 8)%nat by lia.
Qed.
Lemma read_u32_skip x l k : (length x ≤ k)%nat → read_u32_le (x ++ l) k = read_u32_le l (k - length x).
Proof.
  intros H. unfold read_u32_le. rewrite get_range_skip by lia. by replace (k + 4 - length x)%nat with (k - length x + 4)%nat by lia.
Qed.
Lemma read_u64_here z l : u64_ok z → read_u64_le (to_le_bytes 8 z ++ l) 0 = Ok z.
Proof.
  intros H. unfold read_u64_le. rewrite get_range_here by (by rewrite length_to_le_bytes). cbn [ok_or mbind result_bind].
  by rewrite from_to_le_bytes.
Qed.
Lemma read_u32_here z l : u32_ok z → read_u32_le (to_le_bytes 4 z ++ l) 0 = Ok z.
Proof.
  intros H. unfold read_u32_le. rewrite get_range_here by (by rewrite length_to_le_bytes). cbn [ok_or mbind result_bind].
  by rewrite from_to_le_bytes.
Qed.
Lemma read_u32_end z : u32_ok z → read_u32_le (to_le_bytes 4 z) 0 = Ok z.
Proof. intros H. rewrite <-(app_nil_r (to_le_bytes 4 z)). by apply read_u32_here. Qed.

(** Walk over the fields of a layout: skip the ones before the offset, then read. *)
Ltac field_len := rewrite ?length_to_le_bytes; cbn [length]; lia.
Ltac norm_offset := rewrite ?length_to_le_bytes; cbn [length Nat.sub].
Ltac read_field :=
  first [ rewrite read_u64_skip by field_len; norm_offset
        | rewrite read_u32_skip by field_len; norm_offset
        | rewrite read_u64_here by done
        | rewrite read_u32_here by done
        | rewrite read_u32_end by done
        | rewrite lookup_app_r by field_len; norm_offset
        | rewrite lookup_app_l by field_len ];
  cbn [ok_or mbind result_bind].

Lemma slot_bytes_length g a b c d e : length (slot_bytes g a b c d e) = 40%nat.
Proof. unfold slot_bytes. by lens. Qed.

Lemma manifest_slot_roundtrip s : HeaderManifestSlot.ok s →
  HeaderManifestSlot.from_bytes (HeaderManifestSlot.to_bytes s) = Ok s.
Proof.
  intros (? & ? & ? & ? & ? & ?). unfold HeaderManifestSlot.from_bytes.
  assert (length (HeaderManifestSlot.to_bytes s) = 40%nat) as -> by apply slot_bytes_length. cbn [Nat.eqb HeaderManifestSlot.LEN ensure mbind result_bind].
  unfold HeaderManifestSlot.to_bytes, slot_bytes. repeat read_field. by destruct s.
Qed.

Lemma projection_slot_roundtrip s : ProjectionCatalogSlot.ok s →
  ProjectionCatalogSlot.from_bytes (ProjectionCatalogSlot.to_bytes s) = Ok s.
Proof.
  intros (? & ? & ? & ? & ? & ?). unfold ProjectionCatalogSlot.from_bytes.
  assert (length (ProjectionCatalogSlot.to_bytes s) = 40%nat) as -> by apply slot_bytes_length.
  cbn [Nat.eqb ProjectionCatalogSlot.LEN ensure mbind result_bind].
  unfold ProjectionCatalogSlot.to_bytes, slot_bytes. repeat read_field. by destruct s.
Qed.

Lemma file_header_length h : FileHeader.ok h → length (FileHeader.to_bytes h) = 84%nat.
Proof.
  intros O. unfold FileHeader.to_bytes. rewrite !length_app, !length_to_le_bytes, (FileHeader.ok_magic _ O), (FileHeader.ok_padding _ O).
  done.
Qed.

(** What a reader of a header of [h]'s version sees of [h]: the fields that its
    version does not have read as zero. *)
Definition visible (h : FileHeader.t) : FileHeader.t :=
  let v := FileHeader.version h in
  let z := [z2b 0; z2b 0; z2b 0] in
  let base := FileHeader.mk (FileHeader.magic h) v (FileHeader.page_count h) (FileHeader.node_count h)
                (FileHeader.last_checkpointed_tx_count h) in
  if v <=? 3 then base 0 0 0 0 0 0 z 0 0
  else base (FileHeader.eavt_root_page h) (FileHeader.aevt_root_page h) (FileHeader.avet_root_page h)
         (FileHeader.vaet_root_page h) (FileHeader.index_checksum h) (FileHeader.fact_page_format h)
         (FileHeader.padding h) (if 6 <=? v then FileHeader.fact_page_count h else 0)
         (if 7 <=? v then FileHeader.header_checksum h else 0).

Lemma file_header_read h tail : FileHeader.ok h →
  FileHeader.from_bytes (FileHeader.to_bytes h ++ tail) = Ok (visible h).
Proof.
  intros O. unfold FileHeader.from_bytes, visible. rewrite !length_app, (file_header_length h O).
  rewrite !(proj2 (Nat.leb_le _ _)) by lia. cbn [ensure mbind result_bind].
  destruct O as [Em ? ? ? ? ? ? ? ? ? Ef Ep ? ?].
  destruct (FileHeader.padding h) as [|p0 [|p1 [|p2 [|]]]] eqn:P; try done.
  unfold FileHeader.to_bytes. rewrite Em, P, <-!app_assoc, get_range_here by done. cbn [ok_or mbind result_bind].
  rewrite bool_decide_true by done. cbn [ensure mbind result_bind].
  assert (length MAGIC_NUMBER = 4%nat) as Lm by done. revert Lm. generalize MAGIC_NUMBER Em. intros m Em' Lm.
  repeat (rewrite ?Lm; read_field). cbn [lookup list_lookup ok_or mbind result_bind]. rewrite b2z_z2b by done.
  destruct (FileHeader.version h <=? 3), (6 <=? FileHeader.version h), (7 <=? FileHeader.version h); done.
Qed.

Lemma visible_current h : 7 ≤ FileHeader.version h → visible h = h.
Proof.
  intros V. unfold visible. rewrite (proj2 (Z.leb_gt (FileHeader.version h) 3)), !(proj2 (Z.leb_le _ (FileHeader.version h))) by lia.
  by destruct h.
Qed.

Lemma get_range_take {A} (l : list A) k a b : (b ≤ k)%nat → get_range (take k l) a b = get_range l a b ∨ (length l < b)%nat ∨ (b < a)%nat.
Proof.
  intros H. destruct (decide (a ≤ b ∧ b ≤ length l)%nat) as [D|D]; [left|lia]. unfold get_range.
  rewrite length_take, !decide_True by lia. f_equal. rewrite skipn_firstn_comm, take_take. f_equal. lia.
Qed.

(** The bytes a header of this version takes. *)
Definition header_size (version : Z) : nat :=
  if version <=? 3 then 64 else if version <=? 5 then 72 else if version <=? 6 then 80 else 84.

Lemma version_of_prefix h k : FileHeader.ok h → (64 ≤ k)%nat →
  read_u32_le (take k (FileHeader.to_bytes h)) 4 = Ok (FileHeader.version h).
Proof.
  intros O K. unfold read_u32_le.
  destruct (get_range_take (FileHeader.to_bytes h) k 4 (4 + 4)) as [->|[L|L]]; [lia| | |lia].
  2: { rewrite file_header_length in L by done. lia. }
  fold (read_u32_le (FileHeader.to_bytes h) 4). unfold FileHeader.to_bytes. rewrite (FileHeader.ok_magic _ O).
  rewrite read_u32_skip by done. apply read_u32_here, O.
Qed.

(** File headers of every version.  A reader sees every field that the
    header's version has and zeroes elsewhere (so from version 7 on the header
    itself), whatever follows it on the page; a truncated header is refused. *)
Theorem file_header_roundtrip h : FileHeader.ok h →
  (∀ tail, FileHeader.from_bytes (FileHeader.to_bytes h ++ tail) = Ok (visible h)) ∧
  (7 ≤ FileHeader.version h → visible h = h) ∧
  ∀ k, (k < header_size (FileHeader.version h))%nat →
    ∃ err, FileHeader.from_bytes (take k (FileHeader.to_bytes h)) = Err err.
Proof.
  intros O. split_and!; [intros tail; by apply file_header_read|apply visible_current|].
  intros k K. destruct (FileHeader.from_bytes (take k (FileHeader.to_bytes h))) as [x|err] eqn:E; [|by eexists].
  exfalso. unfold FileHeader.from_bytes in E. apply bind_Ok in E as (_ & H64%ensure_Ok%Nat.leb_le & E).
  rewrite length_take, (file_header_length h O) in H64.
  do 2 apply bind_Ok in E as (? & _ & E). rewrite version_of_prefix in E by (done || lia).
  cbn [mbind result_bind] in E. do 3 apply bind_Ok in E as (? & _ & E). unfold header_size in K.
  destruct (Z.leb_spec (FileHeader.version h) 3); [lia|]. apply bind_Ok in E as (_ & H72%ensure_Ok%Nat.leb_le & E).
  rewrite length_take, (file_header_length h O) in H72.
  destruct (Z.leb_spec (FileHeader.version h) 5); [lia|].
  rewrite (proj2 (Z.leb_le 6 _)) in E by lia.
  apply bind_Ok in E as (? & H80 & E). apply bind_Ok in H80 as (_ & H80%ensure_Ok%Nat.leb_le & _).
  rewrite length_take, (file_header_length h O) in H80.
  destruct (Z.leb_spec (FileHeader.version h) 6); [lia|].
  rewrite (proj2 (Z.leb_le 7 _)) in E by lia.
  apply bind_Ok in E as (? & H84 & _). apply bind_Ok in H84 as (_ & H84%ensure_Ok%Nat.leb_le & _).
  rewrite length_take, (file_header_length h O) in H84. lia.
Qed.

Lemma validate_version h : FileHeader.validate h = Ok () →
  1 ≤ FileHeader.version h ≤ 13 ∧ FileHeader.page_count h ≠ 0 ∧
  (FileHeader.eavt_root_page h = 0 ∨ FileHeader.eavt_root_page h < FileHeader.page_count h) ∧
  FileHeader.fact_page_count h ≤ FileHeader.page_count h.
Proof.
  unfold FileHeader.validate, MAX_READABLE_FORMAT_VERSION. intros H. inv_ok.
  repeat match goal with H : ensure _ _ = Ok _ |- _ => apply ensure_Ok in H end. lia.
Qed.

Module BPID := BasePageIntegrityDescriptor.

Section roundtrips.
Context (crc32 : bytes → Z).
Hypothesis crc_u32 : ∀ bs, u32_ok (crc32 bs).

Lemma descriptor_length d : length (BPID.to_bytes d) = BPID.LEN.
Proof using. unfold BPID.to_bytes. by lens. Qed.

Lemma descriptor_roundtrip d : BPID.ok d →
  (BPID.is_empty d = true ∨ BPID.validate_layout d = Ok () ∧ BPID.checksum_valid crc32 d = true) →
  BPID.from_bytes crc32 (BPID.to_bytes d) = Ok d.
Proof using.
  intros (? & ? & ? & ? & ? & ? & ? & ?) V. unfold BPID.from_bytes. rewrite descriptor_length, Nat.eqb_refl.
  cbn [ensure mbind result_bind]. unfold BPID.to_bytes at 1 2 3 4 5 6 7 8. repeat read_field.
  assert (BPID.mk (BPID.base_generation d) (BPID.covered_page_start d) (BPID.covered_page_count d)
    (BPID.catalog_page_start d) (BPID.catalog_page_count d) (BPID.catalog_len d) (BPID.catalog_checksum d)
    (BPID.descriptor_checksum d) = d) as -> by (by destruct d).
  destruct V as [->|[V C]]; [done|]. destruct (BPID.is_empty d); [done|]. by rewrite V, C.
Qed.

(** An extension as the constructors build it. *)
Record extension_ok (e : HeaderExtension.t) : Prop := {
  eo_primary : HeaderManifestSlot.ok (HeaderExtension.primary e);
  eo_secondary : HeaderManifestSlot.ok (HeaderExtension.secondary e);
  eo_start : u64_ok (HeaderExtension.base_fact_page_start e) ∧ HeaderExtension.base_fact_page_start e ≠ 0;
  eo_layout : HeaderExtension.base_layout_checksum e
    = HeaderExtension.compute_base_layout_checksum crc32 (HeaderExtension.base_fact_page_start e);
  eo_descriptor : BPID.ok (HeaderExtension.base_integrity e);
  eo_integrity : BPID.is_empty (HeaderExtension.base_integrity e) = true ∨
    BPID.validate_layout (HeaderExtension.base_integrity e) = Ok () ∧
    BPID.checksum_valid crc32 (HeaderExtension.base_integrity e) = true ∧
    BPID.covered_page_start (HeaderExtension.base_integrity e) = HeaderExtension.base_fact_page_start e;
  eo_projection : ProjectionCatalogSlot.ok (HeaderExtension.projection_primary e) ∧
    ProjectionCatalogSlot.ok (HeaderExtension.projection_secondary e);
}.

(** The part every version has, before the integrity descriptor. *)
Definition ext_prefix (magic : bytes) (version : Z) (e : HeaderExtension.t) : bytes :=
  magic ++ to_le_bytes 4 version ++ HeaderManifestSlot.to_bytes (HeaderExtension.primary e) ++
  HeaderManifestSlot.to_bytes (HeaderExtension.secondary e) ++
  to_le_bytes 8 (HeaderExtension.base_fact_page_start e) ++
  to_le_bytes 4 (HeaderExtension.base_layout_checksum e).
Definition ext_suffix (version : Z) (e : HeaderExtension.t) : bytes :=
  (if INTEGRITY_VERSION <=? version then BPID.to_bytes (HeaderExtension.base_integrity e) else []) ++
  (if PROJECTION_VERSION <=? version
   then ProjectionCatalogSlot.to_bytes (HeaderExtension.projection_primary e) ++
        ProjectionCatalogSlot.to_bytes (HeaderExtension.projection_secondary e) else []).

(** What a version cannot store must be empty. *)
Definition storable (version : Z) (e : HeaderExtension.t) : Prop :=
  (version < INTEGRITY_VERSION → HeaderExtension.base_integrity e = BPID.empty) ∧
  (version < PROJECTION_VERSION → HeaderExtension.projection_primary e = ProjectionCatalogSlot.empty ∧
    HeaderExtension.projection_secondary e = ProjectionCatalogSlot.empty).

Lemma extension_format_cases version magic len : extension_format version = Some (magic, len) →
  length magic = 8%nat ∧ 10 ≤ version ≤ 13 ∧ forallb (λ b, b2z b =? 0) magic = false ∧
  ∀ e, length (ext_prefix magic version e ++ ext_suffix version e) = len.
Proof using.
  unfold extension_format, LEGACY_VERSION, INTEGRITY_VERSION, PREFIX_LEAF_VERSION, PROJECTION_VERSION. intros H.
  assert (∀ e, length (ext_prefix magic version e) = (length magic + 96)%nat) as Lp.
  { intros e. unfold ext_prefix, HeaderManifestSlot.to_bytes. by rewrite !length_app, !length_to_le_bytes, !slot_bytes_length. }
  assert (∀ e, length (ext_suffix version e) = ((if (INTEGRITY_VERSION <=? version)%Z then BPID.LEN else 0) +
    (if (PROJECTION_VERSION <=? version)%Z then 80 else 0))%nat) as Ls.
  { clear H. intros e. unfold ext_suffix. rewrite length_app.
    f_equal; [case_match; [apply descriptor_length|done]|]. case_match; [|done]. unfold ProjectionCatalogSlot.to_bytes. by rewrite length_app, !slot_bytes_length. }
  destruct (Z.eqb_spec version 10) as [->|]; [|destruct (Z.eqb_spec version 11) as [->|];
    [|destruct (Z.eqb_spec version 12) as [->|]; [|destruct (Z.eqb_spec version 13) as [->|]]]]; cbn [orb] in H.
  all: try done. all: injection H as <- <-; split_and!; [done|lia..|done|intros e; by rewrite length_app, Lp, Ls].
Qed.

Lemma to_bytes_for_version_ok version e :
  (∃ bs, HeaderExtension.to_bytes_for_version e version = Ok bs) ↔
  is_Some (extension_format version) ∧ storable version e.
Proof using.
  unfold HeaderExtension.to_bytes_for_version, storable, BPID.is_empty, ProjectionCatalogSlot.is_empty.
  destruct (extension_format version) as [[magic len]|]; cbn [ok_or mbind result_bind].
  2: { split; [by intros []|by intros [[] _]]. }
  destruct (Z.leb_spec INTEGRITY_VERSION version), (Z.leb_spec PROJECTION_VERSION version); cbn [mbind result_bind].
  all: repeat case_bool_decide; cbn [negb orb mbind result_bind]; split; try (by intros []).
  all: try (intros _; split; [by eexists|split; intros ?; first [done|lia]]).
  all: intros (_ & S1 & S2); first [by eexists|by destruct S1|by destruct S2].
Qed.

Lemma to_bytes_for_version_eq version e magic len bs :
  extension_format version = Some (magic, len) →
  HeaderExtension.to_bytes_for_version e version = Ok bs → bs = ext_prefix magic version e ++ ext_suffix version e.
Proof using.
  intros F. unfold HeaderExtension.to_bytes_for_version, ext_suffix. rewrite F. cbn [ok_or mbind result_bind].
  fold (ext_prefix magic version e).
  destruct (INTEGRITY_VERSION <=? version), (PROJECTION_VERSION <=? version); cbn [mbind result_bind].
  all: repeat (case_match; cbn [mbind result_bind]); try done; intros [= <-].
  all: rewrite <-?app_assoc, ?app_nil_r; done.
Qed.

Lemma read_slots magic version e l : length magic = 8%nat →
  HeaderManifestSlot.ok (HeaderExtension.primary e) → HeaderManifestSlot.ok (HeaderExtension.secondary e) →
  get_range (ext_prefix magic version e ++ l) 12 52 = Some (HeaderManifestSlot.to_bytes (HeaderExtension.primary e)) ∧
  get_range (ext_prefix magic version e ++ l) 52 92 = Some (HeaderManifestSlot.to_bytes (HeaderExtension.secondary e)).
Proof using.
  intros Lm O1 O2. unfold ext_prefix. rewrite <-!app_assoc. rewrite (app_assoc magic). split.
  - eapply get_range_at; [done| |]; rewrite ?length_app, ?length_to_le_bytes, ?Lm;
      unfold HeaderManifestSlot.to_bytes; rewrite ?slot_bytes_length; done.
  - rewrite (app_assoc (magic ++ _)). eapply get_range_at; [done| |];
      rewrite ?length_app, ?length_to_le_bytes, ?Lm; unfold HeaderManifestSlot.to_bytes;
      rewrite ?slot_bytes_length; done.
Qed.

Lemma read_layout magic version e l : length magic = 8%nat → extension_ok e → u32_ok version →
  read_u32_le (ext_prefix magic version e ++ l) 8 = Ok version ∧
  read_u64_le (ext_prefix magic version e ++ l) 92 = Ok (HeaderExtension.base_fact_page_start e) ∧
  read_u32_le (ext_prefix magic version e ++ l) 100 = Ok (HeaderExtension.base_layout_checksum e).
Proof using crc_u32.
  intros Lm O V. unfold ext_prefix. rewrite <-!app_assoc. destruct (eo_start _ O) as [S _].
  assert (u32_ok (HeaderExtension.base_layout_checksum e)) by (rewrite (eo_layout _ O); apply crc_u32).
  assert (∀ s, length (HeaderManifestSlot.to_bytes s) = 40%nat) as Ls by (intros s; apply slot_bytes_length).
  split_and!; repeat (rewrite ?Lm, ?Ls; first [read_field | rewrite read_u64_skip by (rewrite Ls; lia); rewrite Ls; cbn [Nat.sub]
    | rewrite read_u32_skip by (rewrite Ls; lia); rewrite Ls; cbn [Nat.sub]
    | rewrite read_u64_skip by (rewrite Lm; lia); rewrite Lm; cbn [Nat.sub]
    | rewrite read_u32_skip by (rewrite Lm; lia); rewrite Lm; cbn [Nat.sub]]); done.
Qed.

Lemma ext_prefix_length magic version e : length magic = 8%nat → length (ext_prefix magic version e) = 104%nat.
Proof using.
  intros Lm. unfold ext_prefix, HeaderManifestSlot.to_bytes.
  by rewrite !length_app, !length_to_le_bytes, !slot_bytes_length, Lm.
Qed.

Lemma read_integrity magic version e : length magic = 8%nat → extension_ok e → storable version e →
  (if INTEGRITY_VERSION <=? version
   then b ← ok_or (get_range (ext_prefix magic version e ++ ext_suffix version e)
                     LEGACY_HEADER_EXTENSION_LEN HEADER_EXTENSION_LEN) "Base integrity descriptor is truncated";
        BPID.from_bytes crc32 b
   else Ok BPID.empty) = Ok (HeaderExtension.base_integrity e).
Proof using.
  intros Lm O [St _]. destruct (Z.leb_spec INTEGRITY_VERSION version) as [V|V]; [|by rewrite St].
  unfold ext_suffix. rewrite (proj2 (Z.leb_le _ _) V).
  rewrite (get_range_at _ (ext_prefix magic version e) (BPID.to_bytes (HeaderExtension.base_integrity e)) _ _ _ eq_refl);
    [|by rewrite ext_prefix_length|by rewrite ext_prefix_length, descriptor_length].
  cbn [ok_or mbind result_bind]. apply descriptor_roundtrip; [apply O|]. destruct (eo_integrity _ O); naive_solver.
Qed.

Lemma read_projections magic version e : length magic = 8%nat → extension_ok e → storable version e →
  (if PROJECTION_VERSION <=? version
   then pb ← ok_or (get_range (ext_prefix magic version e ++ ext_suffix version e)
                      HEADER_EXTENSION_LEN (HEADER_EXTENSION_LEN + 40)) "Projection primary catalog slot is truncated";
        p ← ProjectionCatalogSlot.from_bytes pb;
        sb ← ok_or (get_range (ext_prefix magic version e ++ ext_suffix version e)
                      (HEADER_EXTENSION_LEN + 40) (HEADER_EXTENSION_LEN + 80))
               "Projection secondary catalog slot is truncated";
        s ← ProjectionCatalogSlot.from_bytes sb;
        Ok (p, s)
   else Ok (ProjectionCatalogSlot.empty, ProjectionCatalogSlot.empty))
  = Ok (HeaderExtension.projection_primary e, HeaderExtension.projection_secondary e).
Proof using.
  intros Lm O [_ St]. destruct (Z.leb_spec PROJECTION_VERSION version) as [V|V].
  2: { by destruct (St V) as [-> ->]. }
  assert (INTEGRITY_VERSION ≤ version) as V' by (unfold INTEGRITY_VERSION, PROJECTION_VERSION in *; lia).
  unfold ext_suffix. rewrite (proj2 (Z.leb_le _ _) V), (proj2 (Z.leb_le _ _) V').
  set (p := HeaderExtension.projection_primary e). set (s := HeaderExtension.projection_secondary e).
  assert (∀ s, length (ProjectionCatalogSlot.to_bytes s) = 40%nat) as Ls by (intros s'; apply slot_bytes_length).
  rewrite (app_assoc (ext_prefix magic version e)). set (pre := ext_prefix _ _ _ ++ _).
  assert (length pre = HEADER_EXTENSION_LEN) as Lp.
  { unfold pre. by rewrite length_app, ext_prefix_length, descriptor_length. }
  rewrite (get_range_at _ pre (ProjectionCatalogSlot.to_bytes p) _ HEADER_EXTENSION_LEN (HEADER_EXTENSION_LEN + 40) eq_refl) by (by rewrite ?Ls, Lp).
  cbn [ok_or mbind result_bind]. rewrite projection_slot_roundtrip by apply O. cbn [mbind result_bind].
  rewrite (get_range_at _ (pre ++ ProjectionCatalogSlot.to_bytes p) (ProjectionCatalogSlot.to_bytes s) []);
    [|by rewrite <-app_assoc, app_nil_r|by rewrite length_app, Ls, Lp|by rewrite length_app, !Ls, Lp].
  cbn [ok_or mbind result_bind]. by rewrite projection_slot_roundtrip by apply O.
Qed.

Lemma read_from_page0_ok version e head magic len tail :
  extension_format version = Some (magic, len) → length head = 84%nat → extension_ok e → storable version e →
  HeaderExtension.read_from_page0 crc32 version
    (head ++ (ext_prefix magic version e ++ ext_suffix version e) ++ tail) = Ok (Some e).
Proof using crc_u32.
  intros F Lh O [St1 St2]. destruct (extension_format_cases _ _ _ F) as (Lm & V & Nz & Le). specialize (Le e).
  unfold HeaderExtension.read_from_page0. rewrite length_app, Lh.
  rewrite (proj2 (Nat.leb_le _ _)) by (unfold HEADER_EXTENSION_OFFSET; lia). cbn [ensure mbind result_bind].
  rewrite (proj2 (Z.ltb_ge version LEGACY_VERSION)) by (unfold LEGACY_VERSION; lia). rewrite F. cbn [ok_or mbind result_bind].
  rewrite (get_range_at _ head (ext_prefix magic version e ++ ext_suffix version e) tail);
    [|done|done|rewrite Le; unfold HEADER_EXTENSION_OFFSET; lia].
  cbn [ok_or mbind result_bind].
  assert (forallb (λ b, b2z b =? 0) (ext_prefix magic version e ++ ext_suffix version e) = false) as ->.
  { unfold ext_prefix. rewrite <-app_assoc, forallb_app. by rewrite Nz. }
  cbn [negb ensure mbind result_bind].
  assert (get_range (ext_prefix magic version e ++ ext_suffix version e) 0 8 = Some magic) as ->.
  { unfold ext_prefix. rewrite <-!app_assoc. by apply get_range_here. }
  cbn [ok_or mbind result_bind]. rewrite bool_decide_true by done. cbn [ensure mbind result_bind].
  destruct (read_layout magic version e (ext_suffix version e) Lm O) as (-> & -> & ->); [unfold_int; lia|].
  cbn [mbind result_bind]. rewrite Z.eqb_refl. cbn [ensure mbind result_bind].
  destruct (read_slots magic version e (ext_suffix version e) Lm (eo_primary _ O) (eo_secondary _ O)) as [-> ->].
  cbn [ok_or mbind result_bind]. rewrite !manifest_slot_roundtrip by apply O. cbn [mbind result_bind].
  destruct (eo_start _ O) as [_ S0]. rewrite (proj2 (Z.eqb_neq _ _) S0). cbn [andb negb ensure mbind result_bind].
  rewrite (eo_layout _ O) at 1. rewrite Z.eqb_refl. cbn [ensure mbind result_bind].
  rewrite read_integrity by done. cbn [mbind result_bind].
  assert (BPID.is_empty (HeaderExtension.base_integrity e)
    || (BPID.covered_page_start (HeaderExtension.base_integrity e) =? HeaderExtension.base_fact_page_start e) = true) as ->.
  { destruct (eo_integrity _ O) as [->|(_ & _ & ->)]; [done|]. rewrite Z.eqb_refl. apply orb_true_r. }
  cbn [ensure mbind result_bind]. rewrite read_projections by done. cbn [mbind result_bind].
  rewrite <-(eo_layout _ O). by destruct e.
Qed.

(** ** The whole page *)

Lemma header_page_ok h : FileHeader.ok h →
  header_page h = Ok (FileHeader.to_bytes h ++ replicate (PAGE_SIZE - 84) (z2b 0)).
Proof using.
  intros O. unfold header_page, resize_zero. rewrite (file_header_length h O). pose proof PAGE_SIZE_val.
  rewrite (proj2 (Nat.leb_le _ _)) by lia. cbn [ensure mbind result_bind].
  by rewrite take_ge by (rewrite (file_header_length h O); lia).
Qed.

Lemma extension_fits version magic len : extension_format version = Some (magic, len) → (84 + len ≤ PAGE_SIZE)%nat.
Proof using.
  pose proof PAGE_SIZE_val. unfold extension_format. intros Hf.
  repeat case_match; simplify_eq; unfold PROJECTION_HEADER_EXTENSION_LEN, HEADER_EXTENSION_LEN,
    LEGACY_HEADER_EXTENSION_LEN, BPID.LEN, HeaderManifestSlot.LEN, ProjectionCatalogSlot.LEN; lia.
Qed.

Definition page0 (h : FileHeader.t) (e : HeaderExtension.t) (magic : bytes) (len : nat) : bytes :=
  FileHeader.to_bytes h ++
  (ext_prefix magic (FileHeader.version h) e ++ ext_suffix (FileHeader.version h) e) ++
  replicate (PAGE_SIZE - 84 - len) (z2b 0).

Lemma write_extension_ok h e magic len : FileHeader.ok h →
  extension_format (FileHeader.version h) = Some (magic, len) → storable (FileHeader.version h) e →
  HeaderExtension.write_to_page0_for_version e (FileHeader.version h)
    (FileHeader.to_bytes h ++ replicate (PAGE_SIZE - 84) (z2b 0)) = Ok (page0 h e magic len).
Proof using.
  intros O F St. unfold HeaderExtension.write_to_page0_for_version.
  pose proof (extension_fits _ _ _ F) as Fi. destruct (extension_format_cases _ _ _ F) as (_ & _ & _ & Le).
  rewrite length_app, (file_header_length h O), length_replicate.
  replace (84 + (PAGE_SIZE - 84))%nat with PAGE_SIZE by lia. rewrite Nat.eqb_refl. cbn [ensure mbind result_bind].
  destruct (proj2 (to_bytes_for_version_ok (FileHeader.version h) e)) as [bs E]; [by split; [rewrite F|]|].
  rewrite E. cbn [mbind result_bind]. apply (to_bytes_for_version_eq _ _ _ _ _ F) in E as ->.
  replace (PAGE_SIZE - 84)%nat with (len + (PAGE_SIZE - 84 - len))%nat by lia. rewrite replicate_add.
  rewrite write_at_mid; [done|by rewrite file_header_length|by rewrite Le, length_replicate].
Qed.

Lemma build_page0 h e : FileHeader.ok h →
  ((∃ page, build_header_page_with_extension h e = Ok page) ↔
     FileHeader.validate h = Ok () ∧ is_Some (extension_format (FileHeader.version h)) ∧
     storable (FileHeader.version h) e) ∧
  ∀ page, build_header_page_with_extension h e = Ok page →
    ∃ magic len, extension_format (FileHeader.version h) = Some (magic, len) ∧
      storable (FileHeader.version h) e ∧ page = page0 h e magic len.
Proof using.
  intros O. unfold build_header_page_with_extension. rewrite (header_page_ok h O).
  assert (∀ page, (_ ← FileHeader.validate h;
    _ ← ensure (bool_decide (is_Some (extension_format (FileHeader.version h)))) "Header extension requires v10 through v13 file format";
    page ← Ok (FileHeader.to_bytes h ++ replicate (PAGE_SIZE - 84) (z2b 0));
    HeaderExtension.write_to_page0_for_version e (FileHeader.version h) page) = Ok page →
    FileHeader.validate h = Ok () ∧ ∃ magic len, extension_format (FileHeader.version h) = Some (magic, len) ∧
      storable (FileHeader.version h) e ∧ page = page0 h e magic len) as Inv.
  { intros page H. apply bind_Ok in H as ([] & Ev & H). split; [done|]. apply bind_Ok in H as ([] & Eb & H).
    apply ensure_Ok, bool_decide_eq_true in Eb as [[magic len] F]. exists magic, len. split; [done|].
    cbn [mbind result_bind] in H.
    assert (storable (FileHeader.version h) e) as St.
    { unfold HeaderExtension.write_to_page0_for_version in H. inv_ok. apply to_bytes_for_version_ok. by eexists. }
    split; [done|]. rewrite (write_extension_ok h e magic len O F St) in H. by simplify_eq. }
  split; [split|].
  - intros [page H]. destruct (Inv page H) as (V & magic & len & F & St & _). split_and!; [done|by rewrite F|done].
  - intros (V & [[magic len] F] & St). exists (page0 h e magic len). rewrite V. cbn [mbind result_bind].
    rewrite bool_decide_true by (by rewrite F). cbn [ensure mbind result_bind]. by apply write_extension_ok.
  - intros page H. by destruct (Inv page H) as (_ & R).
Qed.

Lemma checksum_prefix bs : (84 ≤ length bs)%nat → get_range (zero_checksum bs) 0 80 = Some (take 80 bs).
Proof using.
  intros L. unfold zero_checksum, get_range. cbn [foldl]. rewrite !length_insert, decide_True by lia.
  rewrite drop_0. by rewrite !take_insert_ge by lia.
Qed.

Lemma page0_checksum h tail : FileHeader.ok h →
  compute_header_checksum_from_bytes crc32 (FileHeader.to_bytes h ++ tail) = compute_header_checksum crc32 h.
Proof using.
  intros O. unfold compute_header_checksum_from_bytes, compute_header_checksum.
  rewrite length_app, (file_header_length h O), (proj2 (Nat.ltb_ge _ _)) by lia.
  rewrite !checksum_prefix by (rewrite ?length_app, file_header_length by done; lia).
  by rewrite take_app_le by (rewrite file_header_length by done; lia).
Qed.

(** Page 0 round trip.  A header page is built exactly when the header
    validates, its version is one of 10 to 13 and the extension holds nothing
    that version cannot store; the page is then [PAGE_SIZE] bytes and reading it
    returns the same header and the same extension, and the checksum over its
    bytes is the checksum of the header. *)
Theorem page0_roundtrip h e : FileHeader.ok h → extension_ok e →
  ((∃ page, build_header_page_with_extension h e = Ok page) ↔
     FileHeader.validate h = Ok () ∧ is_Some (extension_format (FileHeader.version h)) ∧
     storable (FileHeader.version h) e) ∧
  ∀ page, build_header_page_with_extension h e = Ok page →
    length page = PAGE_SIZE ∧ FileHeader.from_bytes page = Ok h ∧
    HeaderExtension.read_from_page0 crc32 (FileHeader.version h) page = Ok (Some e) ∧
    compute_header_checksum_from_bytes crc32 page = compute_header_checksum crc32 h.
Proof using crc_u32.
  intros O Oe. destruct (build_page0 h e O) as [B H]. split; [exact B|]. intros page E.
  destruct (H page E) as (magic & len & F & St & ->). unfold page0.
  destruct (extension_format_cases _ _ _ F) as (_ & V & _ & Le). split_and!.
  - rewrite !length_app, (file_header_length h O), length_replicate.
    specialize (Le e). rewrite length_app in Le. rewrite Le. pose proof (extension_fits _ _ _ F). lia.
  - rewrite file_header_read by done. rewrite visible_current by lia. done.
  - apply (read_from_page0_ok _ e _ magic len); [done|by apply file_header_length|done..].
  - by apply page0_checksum.
Qed.

(** The slots in which a damaged write may land. *)
Definition slot_offset (w : SlotName) : nat :=
  HEADER_EXTENSION_OFFSET + match w with Primary => 12 | Secondary => 52 end.
Definition slot_of (e : HeaderExtension.t) (w : SlotName) : HeaderManifestSlot.t :=
  match w with Primary => HeaderExtension.primary e | Secondary => HeaderExtension.secondary e end.
Definition with_slot (e : HeaderExtension.t) (w : SlotName) (s : HeaderManifestSlot.t) : HeaderExtension.t :=
  HeaderExtension.mk (match w with Primary => s | Secondary => HeaderExtension.primary e end)
    (match w with Primary => HeaderExtension.secondary e | Secondary => s end)
    (HeaderExtension.base_fact_page_start e) (HeaderExtension.base_layout_checksum e)
    (HeaderExtension.base_integrity e) (HeaderExtension.projection_primary e)
    (HeaderExtension.projection_secondary e).
Definition other (w : SlotName) : SlotName := match w with Primary => Secondary | Secondary => Primary end.

(** Any forty bytes are the bytes of some slot. *)
Lemma slot_of_bytes junk : length junk = 40%nat → ∃ s, HeaderManifestSlot.ok s ∧ HeaderManifestSlot.to_bytes s = junk.
Proof using.
  intros L.
  exists (HeaderManifestSlot.mk (from_le_bytes (take 8 junk)) (from_le_bytes (take 8 (drop 8 junk)))
    (from_le_bytes (take 8 (drop 16 junk))) (from_le_bytes (take 8 (drop 24 junk)))
    (from_le_bytes (take 4 (drop 32 junk))) (from_le_bytes (drop 36 junk))).
  assert (∀ n k, (k + n ≤ 40)%nat → length (take n (drop k junk)) = n) as Lt.
  { intros n k H. rewrite length_take, length_drop, L. lia. }
  assert (∀ n l, length l = n → 0 ≤ from_le_bytes l < 2 ^ (8 * Z.of_nat n)) as R.
  { intros n l <-. apply from_le_bytes_range. }
  assert (∀ n l, length l = n → to_le_bytes n (from_le_bytes l) = l) as I by (intros n l <-; apply to_from_le_bytes).
  pose proof (Lt 8%nat 0%nat ltac:(lia)) as L0. rewrite drop_0 in L0.
  split.
  - unfold HeaderManifestSlot.ok, u64_ok, u32_ok. cbn [HeaderManifestSlot.generation HeaderManifestSlot.manifest_page_start
      HeaderManifestSlot.manifest_page_count HeaderManifestSlot.manifest_len HeaderManifestSlot.manifest_checksum
      HeaderManifestSlot.slot_checksum].
    split_and!; first [apply (R 8%nat); first [exact L0 | by rewrite Lt by lia]
                      |apply (R 4%nat); first [by rewrite Lt by lia | by rewrite length_drop, L]].
  - unfold HeaderManifestSlot.to_bytes, slot_bytes. cbn [HeaderManifestSlot.generation HeaderManifestSlot.manifest_page_start
      HeaderManifestSlot.manifest_page_count HeaderManifestSlot.manifest_len HeaderManifestSlot.manifest_checksum
      HeaderManifestSlot.slot_checksum].
    rewrite !I by first [exact L0 | by rewrite Lt by lia | by rewrite length_drop, L].
    assert (∀ n k j, j = (k + n)%nat → take n (drop k junk) ++ drop j junk = drop k junk) as J.
    { intros n k j ->. by rewrite <-drop_drop, take_drop. }
    rewrite (J 4%nat 32%nat 36%nat), (J 8%nat 24%nat 32%nat), (J 8%nat 16%nat 24%nat), (J 8%nat 8%nat 16%nat) by done.
    apply take_drop.
Qed.

Lemma with_slot_ok e w s : extension_ok e → HeaderManifestSlot.ok s → extension_ok (with_slot e w s).
Proof using. intros [] Os. split; destruct w; done. Qed.

(** Overwriting a slot of the page is building the page with that slot. *)
Lemma write_slot_page h e magic len w s page' : FileHeader.ok h → length magic = 8%nat →
  write_at (page0 h e magic len) (slot_offset w) (HeaderManifestSlot.to_bytes s) = Some page' →
  page' = page0 h (with_slot e w s) magic len.
Proof using.
  intros O Lm H. unfold page0, ext_prefix in *. rewrite <-!app_assoc in H.
  assert (∀ s, length (HeaderManifestSlot.to_bytes s) = 40%nat) as Ls by (intros s'; apply slot_bytes_length).
  pose proof (file_header_length h O) as Lh.
  rewrite (app_assoc (FileHeader.to_bytes h)), (app_assoc (FileHeader.to_bytes h ++ magic)) in H.
  destruct w.
  - rewrite write_at_mid in H; [|by rewrite !length_app, Lh, Lm, length_to_le_bytes|by rewrite !Ls].
    simplify_eq. unfold with_slot, ext_suffix. cbn. by rewrite <-!app_assoc.
  - rewrite (app_assoc ((FileHeader.to_bytes h ++ magic) ++ _)) in H.
    rewrite write_at_mid in H; [|by rewrite !length_app, Lh, Lm, length_to_le_bytes, Ls|by rewrite !Ls].
    simplify_eq. unfold with_slot, ext_suffix. cbn. by rewrite <-!app_assoc.
Qed.

Lemma state_selectable s : HeaderManifestSlot.is_selectable crc32 s = true →
  HeaderManifestSlot.state crc32 s = HeaderManifestSlot.Valid s.
Proof using.
  intros H. unfold HeaderManifestSlot.state. rewrite H. unfold HeaderManifestSlot.is_selectable in H.
  by destruct (HeaderManifestSlot.is_empty s).
Qed.
Lemma state_cases s : HeaderManifestSlot.is_selectable crc32 s = false →
  HeaderManifestSlot.state crc32 s = if HeaderManifestSlot.is_empty s then HeaderManifestSlot.Empty else HeaderManifestSlot.Invalid.
Proof using. intros H. unfold HeaderManifestSlot.state. by rewrite H. Qed.

(** The rule: the selectable slot of the highest generation, the primary on a
    tie; without one, nothing if both slots are empty, recovery otherwise. *)
Lemma select_manifest_spec e :
  match select_header_manifest_slot crc32 e with
  | Use w d => d = slot_of e w ∧ HeaderManifestSlot.is_selectable crc32 d = true ∧
      ∀ w', HeaderManifestSlot.is_selectable crc32 (slot_of e w') = true →
        HeaderManifestSlot.generation (slot_of e w') ≤ HeaderManifestSlot.generation d
  | NoDeltaManifest => ∀ w, HeaderManifestSlot.is_empty (slot_of e w) = true
  | RecoveryRequired => (∀ w, HeaderManifestSlot.is_selectable crc32 (slot_of e w) = false) ∧
      ∃ w, HeaderManifestSlot.is_empty (slot_of e w) = false
  end.
Proof using.
  unfold select_header_manifest_slot.
  destruct (HeaderManifestSlot.is_selectable crc32 (HeaderExtension.primary e)) eqn:P,
    (HeaderManifestSlot.is_selectable crc32 (HeaderExtension.secondary e)) eqn:S.
  all: rewrite ?(state_selectable _ P), ?(state_selectable _ S), ?(state_cases _ P), ?(state_cases _ S).
  - destruct (Z.leb_spec (HeaderManifestSlot.generation (HeaderExtension.secondary e))
      (HeaderManifestSlot.generation (HeaderExtension.primary e))).
    all: split_and!; [done|done|]; intros []; cbn; lia.
  - destruct (HeaderManifestSlot.is_empty (HeaderExtension.secondary e)).
    all: split_and!; [done|done|]; intros []; cbn; [lia|congruence].
  - destruct (HeaderManifestSlot.is_empty (HeaderExtension.primary e)).
    all: split_and!; [done|done|]; intros []; cbn; [congruence|lia].
  - destruct (HeaderManifestSlot.is_empty (HeaderExtension.primary e)) eqn:Ep,
      (HeaderManifestSlot.is_empty (HeaderExtension.secondary e)) eqn:Es.
    + by intros [].
    + split; [by intros []|by exists Secondary].
    + split; [by intros []|by exists Primary].
    + split; [by intros []|by exists Primary].
Qed.

Definition projection_of (e : HeaderExtension.t) (w : SlotName) : ProjectionCatalogSlot.t :=
  match w with
  | Primary => HeaderExtension.projection_primary e
  | Secondary => HeaderExtension.projection_secondary e
  end.

(** Slot selection.  Both selectors return the selectable slot of the
    highest generation (the projection selector with the other selectable slot
    as its fallback); without one they report an empty database if both slots
    are empty and ask for recovery otherwise. *)
Theorem slot_selection e :
  match select_header_manifest_slot crc32 e with
  | Use w d => d = slot_of e w ∧ HeaderManifestSlot.is_selectable crc32 d = true ∧
      ∀ w', HeaderManifestSlot.is_selectable crc32 (slot_of e w') = true →
        HeaderManifestSlot.generation (slot_of e w') ≤ HeaderManifestSlot.generation d
  | NoDeltaManifest => ∀ w, HeaderManifestSlot.is_empty (slot_of e w) = true
  | RecoveryRequired => (∀ w, HeaderManifestSlot.is_selectable crc32 (slot_of e w) = false) ∧
      ∃ w, HeaderManifestSlot.is_empty (slot_of e w) = false
  end ∧
  match select_projection_catalog_slots crc32 e with
  | Candidates (w, d) previous => d = projection_of e w ∧ ProjectionCatalogSlot.is_selectable crc32 d = true ∧
      (∀ w', ProjectionCatalogSlot.is_selectable crc32 (projection_of e w') = true →
        ProjectionCatalogSlot.generation (projection_of e w') ≤ ProjectionCatalogSlot.generation d) ∧
      previous = if ProjectionCatalogSlot.is_selectable crc32 (projection_of e (other w))
                 then Some (other w, projection_of e (other w)) else None
  | NoProjectionCatalog => ∀ w, ProjectionCatalogSlot.is_empty (projection_of e w) = true
  | ProjectionRecoveryRequired => (∀ w, ProjectionCatalogSlot.is_selectable crc32 (projection_of e w) = false) ∧
      ∃ w, ProjectionCatalogSlot.is_empty (projection_of e w) = false
  end.
Proof using.
  split; [apply select_manifest_spec|]. unfold select_projection_catalog_slots. cbn [List.filter existsb].
  destruct (ProjectionCatalogSlot.is_selectable crc32 (HeaderExtension.projection_primary e)) eqn:P,
    (ProjectionCatalogSlot.is_selectable crc32 (HeaderExtension.projection_secondary e)) eqn:S; cbn [foldr insert_by_generation].
  - destruct (Z.ltb_spec (ProjectionCatalogSlot.generation (HeaderExtension.projection_primary e))
      (ProjectionCatalogSlot.generation (HeaderExtension.projection_secondary e))) as [G|G]; cbn in G |- *.
    all: rewrite ?(proj2 (Z.ltb_lt _ _) G), ?(proj2 (Z.ltb_ge _ _) G); cbn; rewrite ?P, ?S.
    all: split_and!; try done; intros [] _; cbn; lia.
  - cbn. rewrite S. split_and!; try done. intros [] Hs; cbn in *; [lia|congruence].
  - cbn. rewrite P. split_and!; try done. intros [] Hs; cbn in *; [congruence|lia].
  - destruct (ProjectionCatalogSlot.is_empty (HeaderExtension.projection_primary e)) eqn:Ep,
      (ProjectionCatalogSlot.is_empty (HeaderExtension.projection_secondary e)) eqn:Es; cbn.
    + by intros [].
    + split; [by intros []|by exists Secondary].
    + split; [by intros []|by exists Primary].
    + split; [by intros []|by exists Primary].
Qed.

(** C26: a damaged write of one manifest slot (any forty bytes in its place)
    never loses the published manifest: the file header still reads back, and
    selection uses a valid slot whose generation is at least that of the intact
    slot: the intact slot itself, or a complete newer one. *)
Theorem torn_slot_write h e page w junk page' : FileHeader.ok h → extension_ok e →
  build_header_page_with_extension h e = Ok page → length junk = HeaderManifestSlot.LEN →
  write_at page (slot_offset w) junk = Some page' →
  HeaderManifestSlot.is_selectable crc32 (slot_of e (other w)) = true →
  FileHeader.from_bytes page' = Ok h ∧
  ∃ w' d, select_header_manifest_slot_from_page0 crc32 (FileHeader.version h) page' = Ok (Use w' d) ∧
    HeaderManifestSlot.is_selectable crc32 d = true ∧
    HeaderManifestSlot.generation (slot_of e (other w)) ≤ HeaderManifestSlot.generation d ∧
    (d = slot_of e (other w) ∨ HeaderManifestSlot.to_bytes d = junk).
Proof using crc_u32.
  intros O Oe E Lj W Sel. destruct (proj2 (build_page0 h e O) page E) as (magic & len & F & St & ->).
  destruct (slot_of_bytes junk Lj) as (s & Os & <-). destruct (extension_format_cases _ _ _ F) as (Lm & V & _ & _).
  apply (write_slot_page h e magic len w s page' O Lm) in W as ->. unfold page0. split.
  { rewrite file_header_read by done. by rewrite visible_current by lia. }
  unfold select_header_manifest_slot_from_page0.
  rewrite (read_from_page0_ok _ (with_slot e w s) _ magic len _ F (file_header_length h O) (with_slot_ok _ _ _ Oe Os)) by (by destruct w).
  cbn [mbind result_bind]. pose proof (select_manifest_spec (with_slot e w s)) as Sp.
  assert (slot_of (with_slot e w s) (other w) = slot_of e (other w)) as Eo by (by destruct w).
  assert (slot_of (with_slot e w s) w = s) as Es by (by destruct w).
  destruct (select_header_manifest_slot crc32 (with_slot e w s)) as [|w' d|].
  - specialize (Sp (other w)). rewrite Eo in Sp. unfold HeaderManifestSlot.is_selectable in Sel. by rewrite Sp in Sel.
  - destruct Sp as (-> & Sd & Mx). eexists w', _. split_and!; [done|done| |].
    + specialize (Mx (other w)). rewrite Eo in Mx. by apply Mx.
    + destruct w, w'; cbn in *; auto.
  - destruct Sp as [Sp _]. specialize (Sp (other w)). rewrite Eo in Sp. congruence.
Qed.

(** ** The constructors build well-formed extensions *)

Lemma empty_slot_ok : HeaderManifestSlot.ok HeaderManifestSlot.empty.
Proof using. unfold HeaderManifestSlot.ok. cbn. split_and!; ilia. Qed.
Lemma extension_new_ok p s : HeaderManifestSlot.ok p → HeaderManifestSlot.ok s →
  extension_ok (HeaderExtension.new crc32 p s).
Proof using.
  intros Op Os. split; cbn; [done|done|done|done| |by left|].
  all: unfold BPID.ok, ProjectionCatalogSlot.ok; cbn; split_and!; ilia.
Qed.
Lemma with_start_ok e n e' : extension_ok e → u64_ok n →
  HeaderExtension.with_base_fact_page_start crc32 e n = Ok e' → extension_ok e'.
Proof using.
  intros [] Hn H. unfold HeaderExtension.with_base_fact_page_start in H. inv_ok.
  match goal with H : negb (n =? 0) = true |- _ => apply negb_true_iff, Z.eqb_neq in H end.
  match goal with H : _ || _ = true |- _ => apply orb_true_iff in H end.
  split; cbn; [done|done|done|done|done| |done].
  destruct eo_integrity0 as [|(? & ? & Ec)]; [by left|]. rewrite Z.eqb_eq in *. naive_solver.
Qed.
Lemma with_integrity_ok e d e' : extension_ok e → BPID.ok d →
  HeaderExtension.with_base_integrity crc32 e d = Ok e' → extension_ok e'.
Proof using.
  intros [] Od H. unfold HeaderExtension.with_base_integrity in H. inv_ok. split; cbn; [done..| |done].
  destruct (BPID.is_empty d); [by left|right]. inv_ok.
  repeat match goal with u : unit |- _ => destruct u end.
  split_and!; [done|done|by apply Z.eqb_eq].
Qed.
Lemma with_projection_ok e p s e' : extension_ok e → ProjectionCatalogSlot.ok p → ProjectionCatalogSlot.ok s →
  HeaderExtension.with_projection_catalog_slots crc32 e p s = Ok e' → extension_ok e'.
Proof using.
  intros [] Op Os H. unfold HeaderExtension.with_projection_catalog_slots in H. inv_ok. by split; cbn.
Qed.
Lemma manifest_slot_new_ok g a b c d s : u64_ok g → u64_ok a → u64_ok b → u64_ok c → u32_ok d →
  HeaderManifestSlot.new crc32 g a b c d = Ok s → HeaderManifestSlot.ok s ∧ HeaderManifestSlot.is_selectable crc32 s = true.
Proof using crc_u32.
  intros ? ? ? ? ? H. unfold HeaderManifestSlot.new in H. inv_ok.
  repeat match goal with H : negb (_ =? 0) = true |- _ => apply negb_true_iff, Z.eqb_neq in H end.
  split; [unfold HeaderManifestSlot.ok; cbn; split_and!; [done..|apply crc_u32]|].
  unfold HeaderManifestSlot.is_selectable, HeaderManifestSlot.checksum_valid, HeaderManifestSlot.is_empty,
    HeaderManifestSlot.compute_checksum. cbn.
  rewrite !(proj2 (Z.eqb_neq _ _)) by done. rewrite Z.eqb_refl, !(proj2 (Z.ltb_lt _ _)) by ilia.
  cbn [andb orb negb]. apply bool_decide_true. by eexists.
Qed.
End roundtrips.

(** * Witnesses *)

Definition demo_slot (g : Z) : HeaderManifestSlot.t :=
  match HeaderManifestSlot.new demo_crc g 20 1 100 7 with Ok s => s | Err _ => HeaderManifestSlot.empty end.
Definition demo_extension : HeaderExtension.t := HeaderExtension.new demo_crc (demo_slot 4) (demo_slot 5).

Lemma file_header_new_ok : FileHeader.ok FileHeader.new.
Proof. split; cbn; unfold FORMAT_VERSION, FACT_PAGE_FORMAT_PACKED; try done; ilia. Qed.
Lemma demo_slot_ok g : u64_ok g → HeaderManifestSlot.ok (demo_slot g).
Proof.
  intros G. unfold demo_slot. destruct (HeaderManifestSlot.new demo_crc g 20 1 100 7) as [s|e] eqn:E.
  - eapply (manifest_slot_new_ok demo_crc demo_crc_u32); [exact G|..|exact E]; ilia.
  - apply empty_slot_ok.
Qed.
Lemma demo_extension_ok : extension_ok demo_crc demo_extension.
Proof. apply extension_new_ok; apply demo_slot_ok; ilia. Qed.

Lemma file_header_roundtrip_witness :
  FileHeader.from_bytes (FileHeader.to_bytes FileHeader.new ++ [z2b 9]) = Ok FileHeader.new ∧
  ∃ err, FileHeader.from_bytes (take 83 (FileHeader.to_bytes FileHeader.new)) = Err err.
Proof.
  destruct (file_header_roundtrip FileHeader.new file_header_new_ok) as (R & V & T). split.
  - rewrite (R [z2b 9]), V; [reflexivity|]. by vm_compute.
  - apply T. vm_compute. lia.
Defined.

Lemma page0_roundtrip_witness :
  ∃ page, build_header_page_with_extension FileHeader.new demo_extension = Ok page ∧
    HeaderExtension.read_from_page0 demo_crc 12 page = Ok (Some demo_extension).
Proof.
  destruct (page0_roundtrip demo_crc demo_crc_u32 FileHeader.new demo_extension file_header_new_ok demo_extension_ok)
    as [[_ B] R].
  destruct B as [page E]; [by split_and!; vm_compute; eauto|]. exists page. split; [exact E|]. apply (R page E).
Defined.

Lemma torn_slot_write_witness :
  ∃ page page' w d, build_header_page_with_extension FileHeader.new demo_extension = Ok page ∧
    write_at page (slot_offset Secondary) (replicate 40 (z2b 255)) = Some page' ∧
    select_header_manifest_slot_from_page0 demo_crc 12 page' = Ok (Use w d) ∧
    4 ≤ HeaderManifestSlot.generation d.
Proof.
  destruct (proj2 (proj1 (build_page0 FileHeader.new demo_extension file_header_new_ok))) as [page E].
  { by split_and!; vm_compute; eauto. }
  destruct (write_at page (slot_offset Secondary) (replicate 40 (z2b 255))) as [page'|] eqn:W.
  - destruct (torn_slot_write demo_crc demo_crc_u32 FileHeader.new demo_extension page Secondary
      (replicate 40 (z2b 255)) page' file_header_new_ok demo_extension_ok E eq_refl W ltac:(by vm_compute)) as (_ & w & d & S & _ & G & _).
    exists page, page', w, d. split; [exact E|]. split; [done|]. split; [exact S|exact G].
  - exfalso. unfold write_at in W. destruct (Nat.leb_spec (slot_offset Secondary + length (replicate 40 (z2b 255))) (length page)) as [L|L];
      [done|]. destruct (proj2 (build_page0 FileHeader.new demo_extension file_header_new_ok) page E)
      as (magic & len & F & _ & ->). unfold page0 in L.
    rewrite !length_app, (file_header_length _ file_header_new_ok), ext_prefix_length, !length_replicate in L.
    + unfold slot_offset, HEADER_EXTENSION_OFFSET in L. lia.
    + exact (proj1 (extension_format_cases _ _ _ F)).
Defined.
