(* ===== verification/Floats.v ===== *)
(** Arithmetic of [f64] on bit patterns, as the query engine uses it.

    The operations are those of IEEE-754 binary64 with rounding to nearest even:
    the Standard Library's executable [SpecFloat] between the decoding of a
    pattern and its encoding.  A NaN result is given the canonical quiet pattern;
    Rust leaves the payload of a computed NaN unspecified, and the source only
    tests such a result with [is_nan] or compares it. *)
From S2P Require Import Prelude Types.
From Stdlib Require Import Floats.SpecFloat.

Module Float.
Definition PREC : Z := 53.
Definition EMAX : Z := 1024.
Definition FRAC : Z := 2 ^ 52.

Definition exponent_field (f : Z) : Z := F64.magnitude f / FRAC.
Definition fraction_field (f : Z) : Z := F64.magnitude f mod FRAC.

Definition decode (f : Z) : spec_float :=
  let s := F64.is_sign_negative f in
  let e := exponent_field f in
  let m := fraction_field f in
  if e =? 2047 then (if m =? 0 then S754_infinity s else S754_nan)
  else if e =? 0 then
    match m with Zpos p => S754_finite s p (-1074) | _ => S754_zero s end
  else match m + FRAC with Zpos p => S754_finite s p (e - 1075) | _ => S754_zero s end.

Definition with_sign (s : bool) (m : Z) : Z := if s then m + F64.SIGN else m.

Definition encode (x : spec_float) : Z :=
  match x with
  | S754_nan => F64.NAN
  | S754_zero s => with_sign s 0
  | S754_infinity s => with_sign s F64.INF
  | S754_finite s m e =>
    with_sign s (if Zpos m <? FRAC then Zpos m else (e + 1075) * FRAC + (Zpos m - FRAC))
  end.

Definition add (a b : Z) : Z := encode (SFadd PREC EMAX (decode a) (decode b)).
Definition sub (a b : Z) : Z := encode (SFsub PREC EMAX (decode a) (decode b)).
Definition mul (a b : Z) : Z := encode (SFmul PREC EMAX (decode a) (decode b)).
Definition div (a b : Z) : Z := encode (SFdiv PREC EMAX (decode a) (decode b)).
Definition abs (a : Z) : Z := F64.magnitude a.

Definition lt (a b : Z) : bool := match F64.partial_cmp a b with Some Lt => true | _ => false end.
Definition le (a b : Z) : bool := match F64.partial_cmp a b with Some (Lt | Eq) => true | _ => false end.
Definition gt (a b : Z) : bool := lt b a.
Definition ge (a b : Z) : bool := le b a.

(** [i as f64]. *)
Definition of_i64 (i : Z) : Z := encode (binary_normalize PREC EMAX i 0 false).

(** [f as i64]: towards zero, saturating, NaN to zero. *)
Definition truncate (s : bool) (m : positive) (e : Z) : Z :=
  let a := if e <? 0 then Z.shiftr (Zpos m) (- e) else Z.shiftl (Zpos m) e in
  if s then - a else a.
Definition to_i64 (f : Z) : Z :=
  match decode f with
  | S754_nan | S754_zero _ => 0
  | S754_infinity s => if s then i64_MIN else i64_MAX
  | S754_finite s m e => Z.max i64_MIN (Z.min i64_MAX (truncate s m e))
  end.

(** [f64::EPSILON], 2^-52. *)
Definition EPSILON : Z := 0x3CB0000000000000.

(** * The patterns and the numbers agree *)

Lemma fields f :
  F64.magnitude f = exponent_field f * FRAC + fraction_field f ∧
  0 ≤ fraction_field f < FRAC ∧ 0 ≤ exponent_field f < 2048.
Proof.
  unfold exponent_field, fraction_field.
  pose proof (F64.magnitude_range f) as [H1 H2].
  split; [rewrite Z.mul_comm; apply Z.div_mod; done|].
  split; [apply Z.mod_pos_bound; done|].
  split; [apply Z.div_pos; done|].
  apply Z.div_lt_upper_bound; [done|]. exact H2.
Qed.

Lemma is_nan_fields f : F64.is_nan f = (exponent_field f =? 2047) && negb (fraction_field f =? 0).
Proof.
  unfold F64.is_nan. destruct (fields f) as (E & Hm & He). rewrite E.
  unfold F64.INF, FRAC in *. apply iff_bool_eq.
  rewrite Z.ltb_lt, andb_true_iff, negb_true_iff, Z.eqb_eq, Z.eqb_neq. lia.
Qed.

(** How a pattern decodes, by its magnitude. *)
Inductive decoded (f : Z) : spec_float → Prop :=
| dec_nan : F64.is_nan f = true → decoded f S754_nan
| dec_inf : F64.magnitude f = F64.INF → decoded f (S754_infinity (F64.is_sign_negative f))
| dec_zero : F64.magnitude f = 0 → decoded f (S754_zero (F64.is_sign_negative f))
| dec_finite m e :
  0 < F64.magnitude f < F64.INF →
  F64.magnitude f = (e + 1074) * FRAC + Zpos m →
  Zpos m < 2 * FRAC → -1074 ≤ e →
  (e = -1074 ∨ FRAC ≤ Zpos m) →
  decoded f (S754_finite (F64.is_sign_negative f) m e).

Lemma decode_spec f : decoded f (decode f).
Proof.
  destruct (fields f) as (E & Hm & He). pose proof (is_nan_fields f) as N.
  unfold decode. set (e := exponent_field f) in *. set (m := fraction_field f) in *.
  unfold FRAC in *.
  destruct (Z.eqb_spec e 2047) as [e2|e2].
  - destruct (Z.eqb_spec m 0) as [m0|m0]; [apply dec_inf|by apply dec_nan].
    rewrite E, e2, m0. done.
  - destruct (Z.eqb_spec e 0) as [e0|e0].
    + destruct m as [|p|p] eqn:Em; [apply dec_zero; lia| |lia].
      apply dec_finite; unfold FRAC, F64.INF; lia.
    + destruct (m + 2 ^ 52) as [|p|p] eqn:Em; [lia| |lia].
      apply dec_finite; unfold FRAC, F64.INF; lia.
Qed.

(** The order of [F64] is the order of the numbers. *)
Lemma partial_cmp_decode a b : F64.partial_cmp a b = SFcompare (decode a) (decode b).
Proof.
  unfold F64.partial_cmp, F64.key.
  pose proof (decode_spec a) as Da. pose proof (decode_spec b) as Db.
  assert (∀ f, F64.is_nan f = false ↔ F64.magnitude f ≤ F64.INF) as N.
  { intros f. unfold F64.is_nan. apply Z.ltb_ge. }
  inversion Da as [Na EA|Ia EA|Za EA|ma ea Ra Ma La Ga Ca EA].
  { rewrite Na. by destruct (decode b). }
  all: assert (F64.is_nan a = false) as -> by (apply N; unfold F64.INF in *; lia).
  all: inversion Db as [Nb EB|Ib EB|Zb EB|mb eb Rb Mb Lb Gb Cb EB];
    [by rewrite Nb|..];
    assert (F64.is_nan b = false) as -> by (apply N; unfold F64.INF in *; lia); cbn;
    destruct (F64.is_sign_negative a), (F64.is_sign_negative b); f_equal;
    try solve [symmetry; (apply Z.compare_lt_iff || apply Z.compare_gt_iff || apply Z.compare_eq_iff);
               unfold F64.INF in *; lia];
    try solve [(apply Z.compare_lt_iff || apply Z.compare_gt_iff || apply Z.compare_eq_iff);
               unfold F64.INF in *; lia].
  all: rewrite ?Z.compare_opp; change (Pos.compare_cont Eq ma mb) with (ma ?= mb)%positive;
    change (ma ?= mb)%positive with (Zpos ma ?= Zpos mb); unfold FRAC in *;
    destruct (Z.compare_spec ea eb), (Z.compare_spec (Zpos ma) (Zpos mb)); cbn;
    (apply Z.compare_lt_iff || apply Z.compare_gt_iff || apply Z.compare_eq_iff); lia.
Qed.

(** A number less itself is zero; an infinity or NaN less itself is NaN. *)
Lemma sub_self_decode x :
  SFsub PREC EMAX x x =
  match x with S754_nan | S754_infinity _ => S754_nan | _ => S754_zero false end.
Proof.
  destruct x as [s|s| |s m e]; [by destruct s|by destruct s|done|].
  cbn. by rewrite Z.sub_diag.
Qed.

Lemma decode_finite f : F64.magnitude f < F64.INF →
  match decode f with S754_nan | S754_infinity _ => False | _ => True end.
Proof.
  intros H. destruct (decode_spec f) as [N|I|Z|m e]; try done.
  - unfold F64.is_nan in N. apply Z.ltb_lt in N. lia.
  - lia.
Qed.

Lemma decode_not_finite f : F64.INF ≤ F64.magnitude f →
  match decode f with S754_nan | S754_infinity _ => True | _ => False end.
Proof.
  intros H. destruct (decode_spec f) as [N|I|Z|m e]; try done; unfold F64.INF in *; lia.
Qed.

(** The test the matcher makes against a float constant. *)
Definition close (f g : Z) : bool := lt (abs (sub f g)) EPSILON.

Lemma close_refl f : close f f = (F64.magnitude f <? F64.INF).
Proof.
  unfold close, sub. rewrite sub_self_decode.
  destruct (Z.ltb_spec (F64.magnitude f) F64.INF) as [H|H].
  - apply decode_finite in H. by destruct (decode f).
  - apply decode_not_finite in H. by destruct (decode f).
Qed.

Lemma encode_decode f : u64_ok f → F64.is_nan f = false → encode (decode f) = f.
Proof.
  intros Hf Hn.
  assert (∀ m, F64.magnitude f = m → with_sign (F64.is_sign_negative f) m = f) as W.
  { intros m <-. unfold with_sign, F64.is_sign_negative.
    destruct (Z.leb_spec F64.SIGN f).
    - rewrite F64.magnitude_neg by ilia. lia.
    - rewrite F64.magnitude_pos; ilia. }
  destruct (decode_spec f) as [N|I|Z|m e R M L G C]; cbn; [congruence|by apply W..|].
  apply W. unfold FRAC in *. destruct (Z.ltb_spec (Zpos m) (2 ^ 52)); lia.
Qed.

(** * Integers below 2^53 are represented exactly *)

Lemma digits2_pos_bounds p : 2 ^ (Zpos (digits2_pos p) - 1) ≤ Zpos p < 2 ^ Zpos (digits2_pos p).
Proof.
  induction p as [p IH|p IH|]; cbn [digits2_pos]; [..|done];
    rewrite Pos2Z.inj_succ, Z.pow_succ_r by lia;
    replace (Z.succ (Zpos (digits2_pos p)) - 1) with (Z.succ (Zpos (digits2_pos p) - 1)) by lia;
    rewrite Z.pow_succ_r by lia; lia.
Qed.

Lemma digits2_pos_unique p d : 0 < d → 2 ^ (d - 1) ≤ Zpos p < 2 ^ d → Zpos (digits2_pos p) = d.
Proof.
  intros Hd [L U]. pose proof (digits2_pos_bounds p) as [L' U'].
  assert (d - 1 < Zpos (digits2_pos p)) by (apply (Z.pow_lt_mono_r_iff 2); lia).
  assert (Zpos (digits2_pos p) - 1 < d) by (apply (Z.pow_lt_mono_r_iff 2); lia). lia.
Qed.

Lemma iter_xO p d : Zpos (Pos.iter xO p d) = Zpos p * 2 ^ Zpos d.
Proof.
  induction d as [|d IH] using Pos.peano_ind; [cbn; lia|].
  rewrite Pos.iter_succ, Pos2Z.inj_succ, Z.pow_succ_r by lia.
  change (Zpos (xO (Pos.iter xO p d))) with (2 * Zpos (Pos.iter xO p d)). lia.
Qed.

(** Rounding a positive number of at most 53 bits only aligns it. *)
Lemma round_exact s p : Zpos p < 2 ^ 53 →
  ∃ m e, binary_round PREC EMAX s p 0 = S754_finite s m e ∧ -52 ≤ e ≤ 0 ∧
         Zpos m = Zpos p * 2 ^ (- e) ∧ FRAC ≤ Zpos m < 2 * FRAC.
Proof.
  intros Hp. set (d := Zpos (digits2_pos p)).
  assert (0 < d ≤ 53) as Hd.
  { pose proof (digits2_pos_bounds p) as [L _]. fold d in L. split; [done|].
    assert (d - 1 < 53) by (apply (Z.pow_lt_mono_r_iff 2); lia). lia. }
  set (m := if d =? 53 then p else Pos.iter xO p (Z.to_pos (53 - d))).
  assert (Zpos m = Zpos p * 2 ^ (53 - d)) as Em.
  { unfold m. destruct (Z.eqb_spec d 53) as [E|E].
    - rewrite E. cbn. lia.
    - rewrite iter_xO. rewrite Z2Pos.id by lia. done. }
  assert (FRAC ≤ Zpos m < 2 * FRAC) as Bm.
  { rewrite Em. pose proof (digits2_pos_bounds p) as [L U]. fold d in L, U. unfold FRAC.
    assert (2 ^ 52 = 2 ^ (d - 1) * 2 ^ (53 - d)) as -> by (rewrite <-Z.pow_add_r by lia; f_equal; lia).
    assert (2 * (2 ^ (d - 1) * 2 ^ (53 - d)) = 2 ^ d * 2 ^ (53 - d)) as ->.
    { rewrite Z.mul_assoc, <-Z.pow_succ_r by lia. f_equal. f_equal. lia. }
    split; [apply Z.mul_le_mono_nonneg_r; [lia|done]|apply Z.mul_lt_mono_pos_r; [lia|done]]. }
  exists m, (d - 53). split; [|split; [lia|split; [|done]]].
  2: { rewrite Em. f_equal. f_equal. lia. }
  unfold binary_round. rewrite Z.add_0_r. fold d.
  assert (fexp PREC EMAX d = d - 53) as F by (unfold fexp, emin, PREC, EMAX; lia).
  rewrite F.
  assert (shl_align p 0 (d - 53) = (m, d - 53)) as ->.
  { unfold shl_align, m. destruct (Z.eqb_spec d 53) as [->|E]; [done|].
    destruct (d - 53 - 0) as [|q|q] eqn:Q; [lia..|]. f_equal. f_equal. lia. }
  assert (Zpos (digits2_pos m) = 53) as Dm.
  { apply digits2_pos_unique; [lia|]. unfold FRAC in Bm. done. }
  assert (∀ l, shr_fexp PREC EMAX (Zpos m) (d - 53) l = (shr_record_of_loc (Zpos m) l, d - 53)) as S.
  { intros l. unfold shr_fexp. cbn [Zdigits2]. rewrite Dm.
    replace (53 + (d - 53)) with d by lia. rewrite F, Z.sub_diag. done. }
  unfold binary_round_aux. rewrite S. cbn. rewrite S. cbn.
  assert ((d - 53 <=? EMAX - PREC) = true) as ->; [|done].
  apply Z.leb_le. unfold EMAX, PREC. lia.
Qed.

(** The bit pattern of such an integer, and its order key. *)
Lemma of_i64_key i : - 2 ^ 53 < i < 2 ^ 53 →
  F64.is_nan (of_i64 i) = false ∧
  ∃ e m, F64.key (of_i64 i) = Z.sgn i * ((e + 1074) * FRAC + m) ∧
         (i = 0 ∨ (-52 ≤ e ≤ 0 ∧ m = Z.abs i * 2 ^ (- e) ∧ FRAC ≤ m < 2 * FRAC)).
Proof.
  intros Hi. unfold of_i64, binary_normalize. destruct i as [|p|p].
  - split; [done|]. exists 0, 0. split; [done|by left].
  - destruct (round_exact false p) as (m & e & E & He & Em & B); [lia|]. rewrite E. cbn [encode with_sign].
    rewrite (proj2 (Z.ltb_ge _ _)) by lia.
    set (b := (e + 1075) * FRAC + (Zpos m - FRAC)).
    assert (0 <= b < F64.INF) as R by (unfold b, FRAC, F64.INF in *; lia).
    assert (F64.magnitude b = b) as M by (apply F64.magnitude_pos; unfold F64.SIGN, F64.INF in *; lia).
    split.
    { unfold F64.is_nan. rewrite M. apply Z.ltb_ge. lia. }
    exists e, (Zpos m). unfold F64.key, F64.is_sign_negative. rewrite M.
    rewrite (proj2 (Z.leb_gt _ _)) by (unfold F64.SIGN, F64.INF in *; lia).
    split; [unfold b; cbn [Z.sgn]; lia|]. right. cbn [Z.abs]. lia.
  - destruct (round_exact true p) as (m & e & E & He & Em & B); [lia|]. rewrite E. cbn [encode with_sign].
    rewrite (proj2 (Z.ltb_ge _ _)) by lia.
    set (b := (e + 1075) * FRAC + (Zpos m - FRAC)).
    assert (0 <= b < F64.INF) as R by (unfold b, FRAC, F64.INF in *; lia).
    assert (F64.magnitude (b + F64.SIGN) = b) as M.
    { rewrite F64.magnitude_neg; unfold F64.SIGN, F64.INF in *; lia. }
    split.
    { unfold F64.is_nan. rewrite M. apply Z.ltb_ge. lia. }
    exists e, (Zpos m). unfold F64.key, F64.is_sign_negative. rewrite M.
    rewrite (proj2 (Z.leb_le _ _)) by lia.
    split; [unfold b; cbn [Z.sgn]; lia|]. right. cbn [Z.abs]. lia.
Qed.

Lemma aligned_mono e m e' m' : -52 ≤ e ≤ 0 → -52 ≤ e' ≤ 0 →
  FRAC ≤ m * 2 ^ (- e) < 2 * FRAC → FRAC ≤ m' * 2 ^ (- e') < 2 * FRAC → 0 < m < m' →
  (e + 1074) * FRAC + m * 2 ^ (- e) < (e' + 1074) * FRAC + m' * 2 ^ (- e').
Proof.
  intros He He' B B' L. destruct (Z.compare_spec e e') as [<-|E|E].
  - assert (m * 2 ^ (- e) < m' * 2 ^ (- e)) by (apply Z.mul_lt_mono_pos_r; lia). lia.
  - unfold FRAC in *. nia.
  - exfalso. assert (2 ^ (- e') = 2 ^ (- e) * 2 ^ (e - e')) as P.
    { rewrite <-Z.pow_add_r by lia. f_equal. lia. }
    assert (2 ≤ 2 ^ (e - e')) as T.
    { replace (e - e') with (Z.succ (e - e' - 1)) by lia. rewrite Z.pow_succ_r by lia. lia. }
    assert (0 < 2 ^ (- e)) by lia. rewrite P in B'. nia.
Qed.

(** Comparing two such integers as floats is comparing them. *)
Lemma of_i64_compare i j : - 2 ^ 53 < i < 2 ^ 53 → - 2 ^ 53 < j < 2 ^ 53 →
  F64.partial_cmp (of_i64 i) (of_i64 j) = Some (i ?= j).
Proof.
  intros Hi Hj. destruct (of_i64_key i Hi) as (Ni & e & m & Ki & Ci).
  destruct (of_i64_key j Hj) as (Nj & e' & m' & Kj & Cj).
  unfold F64.partial_cmp. rewrite Ni, Nj. cbn [orb]. f_equal.
  assert (∀ a b, - 2 ^ 53 < a < 2 ^ 53 → - 2 ^ 53 < b < 2 ^ 53 → a < b →
            F64.key (of_i64 a) < F64.key (of_i64 b)) as Mono.
  { clear. intros a b Ha Hb L.
    destruct (of_i64_key a Ha) as (_ & e & m & -> & Ca).
    destruct (of_i64_key b Hb) as (_ & e' & m' & -> & Cb).
    destruct Ca as [->|(E & M & B)], Cb as [->|(E' & M' & B')]; [lia| | |].
    - rewrite (Z.sgn_pos b) by lia. unfold FRAC in *. cbn [Z.sgn]. nia.
    - rewrite (Z.sgn_neg a) by lia. unfold FRAC in *. cbn [Z.sgn]. nia.
    - subst m m'. destruct (Z.ltb_spec 0 a).
      + rewrite !Z.sgn_pos, !Z.abs_eq in * by lia.
        pose proof (aligned_mono e a e' b E E' B B' ltac:(lia)). lia.
      + assert (a ≠ 0) by (intros ->; cbn in B; unfold FRAC in B; lia).
        assert (b ≠ 0) by (intros ->; cbn in B'; unfold FRAC in B'; lia).
        rewrite (Z.sgn_neg a) by lia. destruct (Z.ltb_spec 0 b).
        * rewrite (Z.sgn_pos b) by lia. unfold FRAC in *. lia.
        * rewrite (Z.sgn_neg b), !Z.abs_neq in * by lia.
          pose proof (aligned_mono e' (- b) e (- a) E' E B' B ltac:(lia)). lia. }
  destruct (Z.compare_spec i j) as [->|L|L].
  - apply Z.compare_refl.
  - by apply Z.compare_lt_iff, Mono.
  - by apply Z.compare_gt_iff, Mono.
Qed.
End Float.

Example float_arithmetic :
  Float.add (Float.of_i64 1) (Float.of_i64 2) = Float.of_i64 3 ∧
  Float.to_i64 (Float.div (Float.of_i64 7) (Float.of_i64 (-2))) = -3 ∧
  Float.to_i64 (Float.of_i64 (2 ^ 53 + 1)) = 2 ^ 53 ∧
  Float.of_i64 1 = 0x3FF0000000000000 ∧
  Float.div (Float.of_i64 1) (Float.of_i64 3) = 0x3FD5555555555555.
Proof. vm_compute. done. Qed.
