(* ===== verification/HashKeys.v ===== *)
(** Hash maps and sets keyed by values, as the query engine uses them.

    A [HashMap] finds an entry when the key is [==] and hashes alike; which is
    decided from what [Hash for Value] writes, a collision of the hasher on
    different input aside.  Iteration order is not observed by the code modelled
    here: entries are kept in an association list in the order of insertion. *)
From S2P Require Import Prelude Types.

#[export] Instance HashWrite_eq_dec : EqDecision HashWrite.
Proof. solve_decision. Defined.

Definition hash_key_eq (a b : Value) : bool := value_eq a b && bool_decide (value_hash a = value_hash b).

(** On values that are no NaN a key is found exactly at itself. *)
Lemma hash_key_eq_true a b : hash_key_eq a b = true → a = b.
Proof.
  unfold hash_key_eq. rewrite andb_true_iff, bool_decide_eq_true. intros [E H].
  destruct a as [s|i|f|x|x|s|], b as [t|j|g|y|y|t|]; try discriminate E; unfold value_hash in H; cbn in H, E;
    try (injection H as ->; done); try done.
  destruct (F64.is_nan f) eqn:Nf.
  { unfold F64.eqb, F64.partial_cmp in E. by rewrite Nf in E. }
  destruct (F64.is_nan g) eqn:Ng.
  { unfold F64.eqb, F64.partial_cmp in E. by rewrite Ng, orb_true_r in E. }
  destruct (F64.is_sign_negative f), (F64.is_sign_negative g); try discriminate; [|congruence].
  injection H as N. f_equal. unfold F64.neg in N.
  rewrite <-(Z.lxor_0_r f), <-(Z.lxor_nilpotent F64.SIGN), <-Z.lxor_assoc, N.
  by rewrite Z.lxor_assoc, Z.lxor_nilpotent, Z.lxor_0_r.
Qed.

Lemma value_eq_refl a : is_nan_value a = false → value_eq a a = true.
Proof.
  destruct a as [s|i|f|x|x|s|]; cbn; intros N; try done.
  - by apply bool_decide_eq_true.
  - apply Z.eqb_refl.
  - unfold F64.eqb, F64.partial_cmp. rewrite N. cbn. by rewrite Z.compare_refl.
  - apply eqb_reflx.
  - apply Z.eqb_refl.
  - by apply bool_decide_eq_true.
Qed.

Lemma hash_key_eq_refl a : is_nan_value a = false → hash_key_eq a a = true.
Proof. intros N. unfold hash_key_eq. by rewrite value_eq_refl, bool_decide_true. Qed.

Lemma hash_key_eq_spec a b : hash_key_eq a b = true ↔ a = b ∧ is_nan_value a = false.
Proof.
  split; [|intros [-> N]; by apply hash_key_eq_refl].
  intros E. pose proof (hash_key_eq_true a b E) as ->. split; [done|].
  destruct b as [s|i|f|x|x|s|]; try done. cbn. unfold hash_key_eq in E.
  apply andb_true_iff in E as [E _]. cbn in E. unfold F64.eqb, F64.partial_cmp in E.
  by destruct (F64.is_nan f).
Qed.

(** Keys that are options, pairs and vectors of values. *)
Definition option_key_eq (a b : option Value) : bool :=
  match a, b with Some x, Some y => hash_key_eq x y | None, None => true | _, _ => false end.
Definition entry_key_eq (a b : string * Value) : bool :=
  bool_decide (a.1 = b.1) && hash_key_eq a.2 b.2.
Fixpoint list_key_eq (l k : list (string * Value)) : bool :=
  match l, k with
  | [], [] => true
  | x :: l, y :: k => entry_key_eq x y && list_key_eq l k
  | _, _ => false
  end.

Lemma list_key_eq_true l k : list_key_eq l k = true → l = k.
Proof.
  revert k; induction l as [|[x v] l IH]; intros [|[y w] k]; cbn; try done.
  unfold entry_key_eq; cbn. rewrite !andb_true_iff, bool_decide_eq_true.
  intros [[-> E%hash_key_eq_true] L%IH]. by subst.
Qed.

Lemma list_key_eq_refl l : (∀ x v, (x, v) ∈ l → is_nan_value v = false) → list_key_eq l l = true.
Proof.
  induction l as [|[x v] l IH]; intros N; [done|]. cbn. unfold entry_key_eq; cbn.
  rewrite bool_decide_true, hash_key_eq_refl by (done || (eapply N; left)). cbn.
  apply IH. intros y w I. apply (N y). by right.
Qed.

(** * Maps from keys to vectors: [entry(key).or_default().push(x)] and [get] *)
Section hashmap.
Context {K V : Type} (keq : K → K → bool).

Fixpoint entry_push (m : list (K * list V)) (k : K) (v : V) : list (K * list V) :=
  match m with
  | [] => [(k, [v])]
  | (k', vs) :: m => if keq k k' then (k', vs ++ [v]) :: m else (k', vs) :: entry_push m k v
  end.
Fixpoint hm_get (m : list (K * list V)) (k : K) : option (list V) :=
  match m with
  | [] => None
  | (k', vs) :: m => if keq k k' then Some vs else hm_get m k
  end.
Definition group_by (key : V → K) (l : list V) : list (K * list V) :=
  foldl (λ m v, entry_push m (key v) v) [] l.

Hypothesis keq_eq : ∀ a b, keq a b = true → a = b.

Lemma hm_get_push m k v q :
  default [] (hm_get (entry_push m k v) q) = default [] (hm_get m q) ++ (if keq q k then [v] else []).
Proof using keq_eq.
  induction m as [|[k' vs] m IH]; cbn.
  - by destruct (keq q k).
  - destruct (keq k k') eqn:E; cbn.
    + pose proof (keq_eq _ _ E) as ->.
      destruct (keq q k') eqn:E'; cbn; [done|by rewrite app_nil_r].
    + destruct (keq q k') eqn:E'; cbn; [|done].
      pose proof (keq_eq _ _ E') as ->.
      destruct (keq k' k) eqn:E2; [|by rewrite app_nil_r].
      pose proof (keq_eq _ _ E2) as ->. congruence.
Qed.

(** What is found under a key is what was pushed under it, in order. *)
Lemma group_by_get key l q :
  default [] (hm_get (group_by key l) q) = List.filter (λ v, keq q (key v)) l.
Proof using keq_eq.
  unfold group_by.
  assert (∀ m, default [] (hm_get (foldl (λ m v, entry_push m (key v) v) m l) q)
               = default [] (hm_get m q) ++ List.filter (λ v, keq q (key v)) l) as G; [|by rewrite G].
  induction l as [|v l IH]; intros m; cbn; [by rewrite app_nil_r|].
  rewrite IH, hm_get_push, <-app_assoc. by destruct (keq q (key v)).
Qed.
End hashmap.
