(* ===== verification/QueryTypes.v ===== *)
(** The syntax of the query language (src/src/query/datalog/types.rs): EDN
    values, expressions, patterns, where clauses and rules.

    [EdnValue] equality is the derived one, with [==] of [f64] on floats.  The
    compiled regular expression of [Matches] is a value of another library
    and is determined by its pattern string, which is what is kept here. *)
From S2P Require Import Prelude Types NetView.

Inductive EdnValue : Type :=
| EKeyword (s : string)
| ESymbol (s : string)
| EString (s : string)
| EInteger (z : Z)
| EFloat (bits : Z)
| EBoolean (b : bool)
| EUuid (u : Z)
| EVector (l : list EdnValue)
| EList (l : list EdnValue)
| EMap (l : list (EdnValue * EdnValue))
| ENil
| EBindSlot (s : string).

Definition is_variable (v : EdnValue) : bool :=
  match v with ESymbol s => String.prefix "?" s | _ => false end.
Definition as_variable (v : EdnValue) : option string :=
  match v with ESymbol s => if String.prefix "?" s then Some s else None | _ => None end.

Definition is_keyword (v : EdnValue) : bool := match v with EKeyword _ => true | _ => false end.
Definition as_keyword_edn (v : EdnValue) : option string := match v with EKeyword k => Some k | _ => None end.
Definition is_vector (v : EdnValue) : bool := match v with EVector _ => true | _ => false end.
Definition as_vector (v : EdnValue) : option (list EdnValue) := match v with EVector l => Some l | _ => None end.
Definition is_list (v : EdnValue) : bool := match v with EList _ => true | _ => false end.
Definition as_list (v : EdnValue) : option (list EdnValue) := match v with EList l => Some l | _ => None end.
Definition is_map (v : EdnValue) : bool := match v with EMap _ => true | _ => false end.
Definition as_map (v : EdnValue) : option (list (EdnValue * EdnValue)) :=
  match v with EMap m => Some m | _ => None end.

(** [#[derive(PartialEq)]]. *)
Fixpoint edn_eq (a b : EdnValue) {struct a} : bool :=
  let eqs := fix eqs (l k : list EdnValue) {struct l} : bool :=
    match l, k with
    | [], [] => true
    | x :: l, y :: k => edn_eq x y && eqs l k
    | _, _ => false
    end in
  let eqm := fix eqm (l k : list (EdnValue * EdnValue)) {struct l} : bool :=
    match l, k with
    | [], [] => true
    | (x, x') :: l, (y, y') :: k => edn_eq x y && edn_eq x' y' && eqm l k
    | _, _ => false
    end in
  match a, b with
  | EKeyword s, EKeyword t | ESymbol s, ESymbol t | EString s, EString t | EBindSlot s, EBindSlot t =>
    bool_decide (s = t)
  | EInteger x, EInteger y | EUuid x, EUuid y => x =? y
  | EFloat x, EFloat y => F64.eqb x y
  | EBoolean x, EBoolean y => eqb x y
  | EVector l, EVector k | EList l, EList k => eqs l k
  | EMap l, EMap k => eqm l k
  | ENil, ENil => true
  | _, _ => false
  end.

Inductive WindowFunc : Type := WSum | WCount | WMin | WMax | WAvg | WRank | WRowNumber | WUdf (name : string).
Inductive Order : Type := Asc | Desc.
Record WindowSpec : Type := mkWindowSpec {
  win_func : WindowFunc;
  win_var : option string;
  partition_by : option string;
  order_by : string;
  win_order : Order;
}.
Definition func_name (ws : WindowSpec) : string :=
  match win_func ws with
  | WSum => "sum" | WCount => "count" | WMin => "min" | WMax => "max" | WAvg => "avg"
  | WRank => "rank" | WRowNumber => "row-number" | WUdf name => name
  end.

Inductive FindSpec : Type :=
| FVariable (v : string)
| FAggregate (func var : string)
| FWindow (ws : WindowSpec).

Definition display_name (f : FindSpec) : string :=
  match f with
  | FVariable v => v
  | FAggregate func var => "(" +:+ func +:+ " " +:+ var +:+ ")"
  | FWindow ws =>
    match win_var ws with
    | Some v => "(" +:+ func_name ws +:+ " " +:+ v +:+ " :over ...)"
    | None => "(" +:+ func_name ws +:+ " :over ...)"
    end
  end.
Definition find_var (f : FindSpec) : string :=
  match f with
  | FVariable v => v
  | FAggregate _ var => var
  | FWindow ws => default "__window_var" (win_var ws)
  end.

Inductive BinOp : Type :=
| OpLt | OpGt | OpLte | OpGte | OpEq | OpNeq
| OpAdd | OpSub | OpMul | OpDiv
| StartsWith | EndsWith | Contains
| Matches (pattern : string).

Inductive UnaryOp : Type :=
| StringQ | IntegerQ | FloatQ | BooleanQ | NilQ
| UdfQ (name : string).

Inductive Expr : Type :=
| Var (v : string)
| Lit (v : Value)
| Slot (s : string)
| Bin (op : BinOp) (l r : Expr)
| Unary (op : UnaryOp) (e : Expr).

Inductive PseudoAttr : Type := ValidFrom | ValidTo | TxCount | TxId | ValidAt.

Definition from_keyword (k : string) : option PseudoAttr :=
  if bool_decide (k = ":db/valid-from"%string) then Some ValidFrom
  else if bool_decide (k = ":db/valid-to"%string) then Some ValidTo
  else if bool_decide (k = ":db/tx-count"%string) then Some TxCount
  else if bool_decide (k = ":db/tx-id"%string) then Some TxId
  else if bool_decide (k = ":db/valid-at"%string) then Some ValidAt
  else None.
Definition pseudo_as_keyword (p : PseudoAttr) : string :=
  match p with
  | ValidFrom => ":db/valid-from"
  | ValidTo => ":db/valid-to"
  | TxCount => ":db/tx-count"
  | TxId => ":db/tx-id"
  | ValidAt => ":db/valid-at"
  end.
Definition is_per_fact (p : PseudoAttr) : bool := match p with ValidAt => false | _ => true end.

Inductive AttributeSpec : Type := Real (v : EdnValue) | Pseudo (p : PseudoAttr).

Record Pattern : Type := mkPattern {
  pat_entity : EdnValue;
  pat_attribute : AttributeSpec;
  pat_value : EdnValue;
  pat_valid_from : option Z;
  pat_valid_to : option Z;
}.

Definition pattern_new (entity attribute value : EdnValue) : Pattern :=
  mkPattern entity (Real attribute) value None None.
Definition pattern_pseudo (entity : EdnValue) (pseudo : PseudoAttr) (value : EdnValue) : Pattern :=
  mkPattern entity (Pseudo pseudo) value None None.
Definition pattern_with_valid_time (entity attribute value : EdnValue) (vf vt : option Z) : Pattern :=
  mkPattern entity (Real attribute) value vf vt.
Definition pattern_from_edn (vector : list EdnValue) : result Pattern :=
  match vector with
  | [e; a; v] => Ok (pattern_new e a v)
  | _ => Err "Pattern must have exactly 3 elements (E A V)"
  end.

Inductive WhereClause : Type :=
| CPattern (p : Pattern)
| RuleInvocation (predicate : string) (args : list EdnValue)
| Not (clauses : list WhereClause)
| NotJoin (join_vars : list string) (clauses : list WhereClause)
| CExpr (e : Expr) (binding : option string)
| Or (branches : list (list WhereClause))
| OrJoin (join_vars : list string) (branches : list (list WhereClause)).

Record Rule : Type := mkRule { rule_head : list EdnValue; rule_body : list WhereClause }.

(** Every rule invocation, also inside negations. *)
Fixpoint rule_invocations (c : WhereClause) : list string :=
  match c with
  | CPattern _ | CExpr _ _ => []
  | RuleInvocation predicate _ => [predicate]
  | Not clauses | NotJoin _ clauses => flat_map rule_invocations clauses
  | Or branches | OrJoin _ branches => flat_map (flat_map rule_invocations) branches
  end.

Definition is_invocation (c : WhereClause) : bool := match c with RuleInvocation _ _ => true | _ => false end.
Definition has_negated_invocation (c : WhereClause) : bool :=
  match c with
  | Not clauses | NotJoin _ clauses => existsb is_invocation clauses
  | _ => false
  end.

(** * Queries, transactions and commands *)

Record DatalogQuery : Type := mkQuery {
  q_find : list FindSpec;
  q_where : list WhereClause;
  q_as_of : option NetView.AsOf;
  q_valid_at : option NetView.ValidAt;
  q_with_vars : list string;
  q_max_derived_facts : option Z;
  q_max_results : option Z;
}.
Definition query_new (find : list FindSpec) (where_clauses : list WhereClause) : DatalogQuery :=
  mkQuery find where_clauses None None [] None None.
Definition from_patterns (find : list FindSpec) (patterns : list Pattern) : DatalogQuery :=
  query_new find (CPattern <$> patterns).
Definition get_patterns (q : DatalogQuery) : list Pattern :=
  omap (λ c, match c with CPattern p => Some p | _ => None end) (q_where q).
Definition is_aggregate (f : FindSpec) : bool := match f with FAggregate _ _ => true | _ => false end.
Definition is_window (f : FindSpec) : bool := match f with FWindow _ => true | _ => false end.
Definition has_binding_mechanism (q : DatalogQuery) : bool :=
  match q_where q with [] => existsb is_aggregate (q_find q) | _ => true end.

Fixpoint clause_invocations (c : WhereClause) : list (string * list EdnValue) :=
  match c with
  | CPattern _ | CExpr _ _ => []
  | RuleInvocation predicate args => [(predicate, args)]
  | Not clauses | NotJoin _ clauses => flat_map clause_invocations clauses
  | Or branches | OrJoin _ branches => flat_map (flat_map clause_invocations) branches
  end.
Definition get_rule_invocations (q : DatalogQuery) : list (string * list EdnValue) :=
  flat_map clause_invocations (q_where q).
Definition uses_rules (q : DatalogQuery) : bool :=
  existsb (λ c, match rule_invocations c with [] => false | _ => true end) (q_where q).

Record Transaction : Type := mkTransaction {
  tx_facts : list Pattern;
  tx_valid_from : option Z;
  tx_valid_to : option Z;
}.
Definition transaction_new (facts : list Pattern) : Transaction := mkTransaction facts None None.

Inductive ForgetSource : Type := ForgetQuery (q : DatalogQuery) | ForgetFacts (facts : list Pattern).
Record ForgetSpec : Type := mkForget { forget_source : ForgetSource; forget_valid_to : option Z }.
Inductive DatalogCommand : Type :=
| CmdQuery (q : DatalogQuery)
| CmdRule (r : Rule)
| CmdTransact (tx : Transaction)
| CmdRetract (tx : Transaction)
| CmdForget (f : ForgetSpec).

(** Induction that reaches the clauses inside bodies and branches. *)
Section where_ind.
Context (P : WhereClause → Prop).
Hypothesis HPattern : ∀ p, P (CPattern p).
Hypothesis HRule : ∀ q args, P (RuleInvocation q args).
Hypothesis HNot : ∀ cs, Forall P cs → P (Not cs).
Hypothesis HNotJoin : ∀ vs cs, Forall P cs → P (NotJoin vs cs).
Hypothesis HExpr : ∀ e b, P (CExpr e b).
Hypothesis HOr : ∀ bs, Forall (Forall P) bs → P (Or bs).
Hypothesis HOrJoin : ∀ vs bs, Forall (Forall P) bs → P (OrJoin vs bs).

Fixpoint where_ind (c : WhereClause) : P c :=
  let all := fix all (cs : list WhereClause) : Forall P cs :=
    match cs with [] => Forall_nil_2 P | c :: cs => Forall_cons_2 P c cs (where_ind c) (all cs) end in
  let alls := fix alls (bs : list (list WhereClause)) : Forall (Forall P) bs :=
    match bs with [] => Forall_nil_2 _ | b :: bs => Forall_cons_2 _ b bs (all b) (alls bs) end in
  match c with
  | CPattern p => HPattern p
  | RuleInvocation q args => HRule q args
  | Not cs => HNot cs (all cs)
  | NotJoin vs cs => HNotJoin vs cs (all cs)
  | CExpr e b => HExpr e b
  | Or bs => HOr bs (alls bs)
  | OrJoin vs bs => HOrJoin vs bs (alls bs)
  end.
End where_ind.
