(* ===== verification/Functions.v ===== *)
(** Built-in and user-defined functions of queries
    (src/src/query/datalog/functions.rs) and the streaming aggregation of the
    executor (src/src/query/datalog/executor.rs, [AggregateAccumulator]).

    The registry maps names to descriptors.  A user-defined function is Rust code
    of the embedding program: its accumulator is any type with pure operations.
    The state of a user-defined accumulator is kept next to its operations, where
    the source looks the operations up again by name in the same registry. *)
From S2P Require Import Prelude Types Floats.

(** * Ordered sets of values ([BTreeSet<Value>]) *)

(** [insert]: an element that compares equal to one present is dropped. *)
Fixpoint btree_insert (v : Value) (l : list Value) : list Value :=
  match l with
  | [] => [v]
  | x :: l' =>
    match value_cmp v x with
    | Lt => v :: l
    | Eq => l
    | Gt => x :: btree_insert v l'
    end
  end.
(** [collect]: a stable sort, then of neighbours equal under [==] the last stays. *)
Fixpoint sort_insert (v : Value) (l : list Value) : list Value :=
  match l with
  | [] => [v]
  | x :: l' => match value_cmp v x with Gt => x :: sort_insert v l' | _ => v :: l end
  end.
Definition sort_values (l : list Value) : list Value := foldr sort_insert [] l.
Fixpoint dedup_sorted (l : list Value) : list Value :=
  match l with
  | [] => []
  | x :: l' =>
    match l' with
    | y :: _ => if value_eq x y then dedup_sorted l' else x :: dedup_sorted l'
    | [] => [x]
    end
  end.
Definition btree_collect (l : list Value) : list Value := dedup_sorted (sort_values l).

(** * Comparisons across types *)

Module Fn.
Definition string_cmp (a b : string) : comparison := cmp (as_bytes a) (as_bytes b).

Definition value_lt (a b : Value) : bool :=
  match a, b with
  | VInteger x, VInteger y => x <? y
  | VFloat x, VFloat y => Float.lt x y
  | VInteger x, VFloat y => Float.lt (Float.of_i64 x) y
  | VFloat x, VInteger y => Float.lt x (Float.of_i64 y)
  | VString x, VString y => match string_cmp x y with Lt => true | _ => false end
  | _, _ => false
  end.

(** Incomparable values, NaN included, are [Equal]. *)
Definition value_cmp (a b : Value) : comparison :=
  match a, b with
  | VInteger x, VInteger y => x ?= y
  | VFloat x, VFloat y => default Eq (F64.partial_cmp x y)
  | VInteger x, VFloat y => default Eq (F64.partial_cmp (Float.of_i64 x) y)
  | VFloat x, VInteger y => default Eq (F64.partial_cmp x (Float.of_i64 y))
  | VString x, VString y => string_cmp x y
  | _, _ => Eq
  end.

Definition value_type_name (v : Value) : string :=
  match v with
  | VString _ => "String" | VInteger _ => "Integer" | VFloat _ => "Float"
  | VBoolean _ => "Boolean" | VRef _ => "Ref" | VKeyword _ => "Keyword" | VNull => "Null"
  end.
End Fn.

(** [i64::saturating_add]. *)
Definition sat_add_i64 (a b : Z) : Z := Z.max i64_MIN (Z.min i64_MAX (a + b)).

(** * Window accumulators *)

Inductive AggState : Type :=
| StSum (total : Z) (is_float : bool)
| StCount (n : Z)
| StMinMax (current : option Value)
| StAvg (sum count : Z).

Record WindowOps : Type := {
  win_init : AggState;
  win_step : AggState → Value → AggState;
  win_finalise : AggState → Value;
}.

Definition count_ops : WindowOps := {|
  win_init := StCount 0;
  win_step s v :=
    match v, s with
    | VNull, _ => s
    | _, StCount n => StCount (sat_add_i64 n 1)
    | _, _ => s
    end;
  win_finalise s := match s with StCount n => VInteger n | _ => VNull end |}.

Definition sum_ops : WindowOps := {|
  win_init := StSum 0 false;
  win_step s v :=
    match s, v with
    | StSum total is_float, VInteger i => StSum (Float.add total (Float.of_i64 i)) is_float
    | StSum total is_float, VFloat f => StSum (Float.add total f) true
    | _, _ => s
    end;
  win_finalise s :=
    match s with
    | StSum total is_float => if is_float then VFloat total else VInteger (Float.to_i64 total)
    | _ => VNull
    end |}.

Definition minmax_ops (replaces : Value → Value → bool) : WindowOps := {|
  win_init := StMinMax None;
  win_step s v :=
    match v, s with
    | VNull, _ => s
    | _, StMinMax None => StMinMax (Some v)
    | _, StMinMax (Some cur) => if replaces v cur then StMinMax (Some v) else s
    | _, _ => s
    end;
  win_finalise s := match s with StMinMax current => default VNull current | _ => VNull end |}.
Definition min_ops : WindowOps := minmax_ops (λ v cur, Fn.value_lt v cur).
Definition max_ops : WindowOps := minmax_ops (λ v cur, Fn.value_lt cur v).

Definition avg_ops : WindowOps := {|
  win_init := StAvg 0 0;
  win_step s v :=
    match s, v with
    | StAvg sum count, VInteger i => StAvg (Float.add sum (Float.of_i64 i)) (sat_add_u64 count 1)
    | StAvg sum count, VFloat f => StAvg (Float.add sum f) (sat_add_u64 count 1)
    | _, _ => s
    end;
  win_finalise s :=
    match s with
    | StAvg sum count => if count =? 0 then VNull else VFloat (Float.div sum (Float.of_i64 count))
    | _ => VNull
    end |}.

(** The distinct aggregates are not window functions: their entries do nothing. *)
Definition stub_ops : WindowOps := {|
  win_init := StCount 0; win_step s _ := s; win_finalise _ := VNull |}.

(** * The registry *)

Record UdfOps : Type := {
  udf_acc : Type;
  udf_init : udf_acc;
  udf_step : udf_acc → Value → udf_acc;
  udf_finalise : udf_acc → Z → Value;
}.
Inductive AggImpl : Type := Builtin (ops : WindowOps) | Udf (ops : UdfOps).
Record AggregateDesc : Type := { agg_impl : AggImpl; agg_is_builtin : bool }.
Record PredicateDesc : Type := { pred_f : Value → bool; pred_is_builtin : bool }.
Record FunctionRegistry : Type := {
  aggregates : gmap string AggregateDesc;
  predicates : gmap string PredicateDesc;
}.

Definition builtin (ops : WindowOps) : AggregateDesc := {| agg_impl := Builtin ops; agg_is_builtin := true |}.
Definition sentinel : PredicateDesc := {| pred_f _ := false; pred_is_builtin := true |}.
Definition builtin_predicates : list string :=
  ["string?"; "integer?"; "float?"; "boolean?"; "nil?"; "starts-with?"; "ends-with?"; "contains?"; "matches?"]%string.
Definition with_builtins : FunctionRegistry := {|
  aggregates := list_to_map [
    ("count", builtin count_ops); ("sum", builtin sum_ops); ("min", builtin min_ops);
    ("max", builtin max_ops); ("avg", builtin avg_ops);
    ("count-distinct", builtin stub_ops); ("sum-distinct", builtin stub_ops)]%string;
  predicates := list_to_map ((λ name, (name, sentinel)) <$> builtin_predicates) |}.

Definition registry_get (r : FunctionRegistry) (name : string) : option AggregateDesc := aggregates r !! name.
Definition is_known (r : FunctionRegistry) (name : string) : bool := bool_decide (is_Some (aggregates r !! name)).
Definition is_window_compatible (r : FunctionRegistry) (name : string) : bool :=
  if bool_decide (name = "count-distinct"%string) || bool_decide (name = "sum-distinct"%string)
  then false else is_known r name.
Definition register_aggregate_desc (r : FunctionRegistry) (name : string) (desc : AggregateDesc)
    : FunctionRegistry * result unit :=
  if is_known r name then (r, Err "aggregate function is already registered")
  else ({| aggregates := <[name := desc]> (aggregates r); predicates := predicates r |}, Ok ()).
Definition register_predicate_desc (r : FunctionRegistry) (name : string) (desc : PredicateDesc)
    : FunctionRegistry * result unit :=
  if bool_decide (is_Some (predicates r !! name)) then (r, Err "predicate is already registered")
  else ({| aggregates := aggregates r; predicates := <[name := desc]> (predicates r) |}, Ok ()).
Definition get_predicate (r : FunctionRegistry) (name : string) : option PredicateDesc :=
  match predicates r !! name with
  | Some d => if pred_is_builtin d then None else Some d
  | None => None
  end.

(** * Aggregates over a batch of non-null values *)

Definition is_float_value (v : Value) : bool := match v with VFloat _ => true | _ => false end.

Definition sum_floats (sum : Z) (v : Value) : result Z :=
  match v with
  | VFloat f => Ok (Float.add sum f)
  | VInteger i => Ok (Float.add sum (Float.of_i64 i))
  | other => Err ("sum: expected Integer, Float, or Null, got " +:+ Fn.value_type_name other)
  end.
Definition sum_integers (sum : Z) (v : Value) : result Z :=
  match v with
  | VInteger i => Ok (sat_add_i64 sum i)
  | other => Err ("sum: expected Integer, Float, or Null, got " +:+ Fn.value_type_name other)
  end.
Definition batch_sum (deduped : list Value) : result Value :=
  match deduped with
  | [] => Ok (VInteger 0)
  | _ =>
    if existsb is_float_value deduped
    then sum ← foldR sum_floats 0 deduped; Ok (VFloat sum)
    else sum ← foldR sum_integers 0 deduped; Ok (VInteger sum)
  end.

Definition same_variant (a b : Value) : bool := value_discriminant a =? value_discriminant b.
Definition minmax_ordering (name : string) (acc v : Value) : result comparison :=
  match acc, v with
  | VInteger a, VInteger b => Ok (a ?= b)
  | VFloat a, VFloat b => Ok (default Eq (F64.partial_cmp a b))
  | VString a, VString b => Ok (Fn.string_cmp a b)
  | _, other => Err (name +:+ ": expected Integer, Float, String, or Null, got " +:+ Fn.value_type_name other)
  end.
Definition minmax_fold (name : string) (minimum : bool) (acc v : Value) : result Value :=
  ordering ← minmax_ordering name acc v;
  let replace := if minimum then match ordering with Gt => true | _ => false end
                 else match ordering with Lt => true | _ => false end in
  Ok (if replace then v else acc).
Definition batch_minmax (name : string) (minimum : bool) (values : list Value) : result Value :=
  match values with
  | [] => Err "min/max: no non-null values in group"
  | first :: rest =>
    _ ← foldR (λ _ v, ensure (same_variant v first)
                 (name +:+ ": cannot compare " +:+ Fn.value_type_name first +:+ " and "
                    +:+ Fn.value_type_name v +:+ " values")) () rest;
    foldR (minmax_fold name minimum) first values
  end.

Definition avg_step (st : Z * Z) (v : Value) : Z * Z :=
  let '(sum, count) := st in
  match v with
  | VInteger i => (Float.add sum (Float.of_i64 i), sat_add_u64 count 1)
  | VFloat f => (Float.add sum f, sat_add_u64 count 1)
  | _ => st
  end.
Definition avg_result (st : Z * Z) : Value :=
  let '(sum, count) := st in if count =? 0 then VNull else VFloat (Float.div sum (Float.of_i64 count)).

Definition usize_to_i64 (n : nat) : Z := default i64_MAX (i64_try_from (Z.of_nat n)).

Definition apply_builtin_aggregate (name : string) (values : list Value) : result Value :=
  if bool_decide (name = "count"%string) then Ok (VInteger (usize_to_i64 (length values)))
  else if bool_decide (name = "count-distinct"%string) then
    Ok (VInteger (usize_to_i64 (length (btree_collect values))))
  else if bool_decide (name = "sum"%string) then batch_sum values
  else if bool_decide (name = "sum-distinct"%string) then batch_sum (btree_collect values)
  else if bool_decide (name = "min"%string) then batch_minmax name true values
  else if bool_decide (name = "max"%string) then batch_minmax name false values
  else if bool_decide (name = "avg"%string) then
    match values with [] => Ok VNull | _ => Ok (avg_result (foldl avg_step (0, 0) values)) end
  else Err ("unknown aggregate function: '" +:+ name +:+ "'").
