(* ===== verification/Expressions.v ===== *)
(** Expression clauses of queries (src/src/query/datalog/executor.rs, [eval_expr]
    and [apply_expr_clauses]; src/src/query/datalog/evaluator.rs,
    [apply_expr_clauses_in_evaluator]).

    Evaluation has three outcomes: [Ok (Some v)] for [Ok(v)], [Ok None] for
    [Err(())], which drops the row, and [Err] for a panic of the arithmetic, which
    ends the query.  The regular expression engine is the parameter [is_match]. *)
From S2P Require Import Prelude Types Floats QueryTypes Functions.
From Stdlib Require Import Floats.SpecFloat.

Abbreviation Bindings := (gmap string Value) (only parsing).

(** * String predicates *)

Fixpoint str_contains (needle s : string) : bool :=
  String.prefix needle s || match s with EmptyString => false | String.String _ s' => str_contains needle s' end.
Fixpoint ends_with (suffix s : string) : bool :=
  bool_decide (s = suffix) || match s with EmptyString => false | String.String _ s' => ends_with suffix s' end.

(** * Operators *)

Definition is_truthy (v : Value) : bool :=
  match v with
  | VBoolean b => b
  | VInteger i => negb (i =? 0)
  | VFloat f => negb (F64.eqb f 0)
  | _ => false
  end.

Definition to_float (v : Value) : option Z :=
  match v with VInteger i => Some (Float.of_i64 i) | VFloat f => Some f | _ => None end.
Definition to_float_pair (l r : Value) : option (Z * Z) :=
  lf ← to_float l; rf ← to_float r; Some (lf, rf).

(** [wrapping_add] and the like. *)
Definition wrap_i64 (z : Z) : Z := cast_signed (cast_unsigned z).

Definition DIV_PANIC : string := "attempt to divide with overflow".
(** [a / b] of [i64], [b] not zero. *)
Definition div_i64 (a b : Z) : result (option Value) :=
  if (a =? i64_MIN) && (b =? -1) then Err DIV_PANIC else Ok (Some (VInteger (Z.quot a b))).

Definition unless_nan (r : Z) : option Value := if F64.is_nan r then None else Some (VFloat r).

Definition eval_arith (op : BinOp) (l r : Value) : result (option Value) :=
  match l, r with
  | VInteger a, VInteger b =>
    match op with
    | OpAdd => Ok (Some (VInteger (wrap_i64 (a + b))))
    | OpSub => Ok (Some (VInteger (wrap_i64 (a - b))))
    | OpMul => Ok (Some (VInteger (wrap_i64 (a * b))))
    | _ => if b =? 0 then Ok None else div_i64 a b
    end
  | _, _ =>
    match to_float_pair l r with
    | None => Ok None
    | Some (lf, rf) =>
      Ok match op with
         | OpAdd => unless_nan (Float.add lf rf)
         | OpSub => unless_nan (Float.sub lf rf)
         | OpMul => unless_nan (Float.mul lf rf)
         | _ => if F64.eqb rf 0 || F64.is_nan rf then None else Some (VFloat (Float.div lf rf))
         end
    end
  end.

Definition eval_compare (test : Z → Z → bool) (l r : Value) : option Value :=
  '(lf, rf) ← to_float_pair l r; Some (VBoolean (test lf rf)).
Definition eval_string (test : string → string → bool) (l r : Value) : option Value :=
  match l, r with VString s, VString t => Some (VBoolean (test s t)) | _, _ => None end.

Section eval.
Context (is_match : string → string → bool).

Definition eval_binop (op : BinOp) (l r : Value) : result (option Value) :=
  match op with
  | OpEq => Ok (Some (VBoolean (value_eq l r)))
  | OpNeq => Ok (Some (VBoolean (negb (value_eq l r))))
  | OpLt => Ok (eval_compare Float.lt l r)
  | OpGt => Ok (eval_compare Float.gt l r)
  | OpLte => Ok (eval_compare Float.le l r)
  | OpGte => Ok (eval_compare Float.ge l r)
  | OpAdd | OpSub | OpMul | OpDiv => eval_arith op l r
  | StartsWith => Ok (eval_string (λ s p, String.prefix p s) l r)
  | EndsWith => Ok (eval_string (λ s x, ends_with x s) l r)
  | Contains => Ok (eval_string (λ s n, str_contains n s) l r)
  | Matches re => Ok (eval_string (λ s _, is_match re s) l r)
  end.

Definition eval_unary (registry : option FunctionRegistry) (op : UnaryOp) (v : Value) : option Value :=
  match op with
  | StringQ => Some (VBoolean match v with VString _ => true | _ => false end)
  | IntegerQ => Some (VBoolean match v with VInteger _ => true | _ => false end)
  | FloatQ => Some (VBoolean match v with VFloat _ => true | _ => false end)
  | BooleanQ => Some (VBoolean match v with VBoolean _ => true | _ => false end)
  | NilQ => Some (VBoolean match v with VNull => true | _ => false end)
  | UdfQ name => desc ← (r ← registry; get_predicate r name); Some (VBoolean (pred_f desc v))
  end.

Fixpoint eval_expr (e : Expr) (b : Bindings) (registry : option FunctionRegistry) : result (option Value) :=
  match e with
  | Var v => Ok (b !! v)
  | Lit v => Ok (Some v)
  | Slot _ => Ok None
  | Unary op arg =>
    v ← eval_expr arg b registry;
    Ok (x ← v; eval_unary registry op x)
  | Bin op lhs rhs =>
    l ← eval_expr lhs b registry;
    match l with
    | None => Ok None
    | Some l =>
      r ← eval_expr rhs b registry;
      match r with None => Ok None | Some r => eval_binop op l r end
    end
  end.

(** * Rows *)

(** [filter_map] whose function may panic. *)
Fixpoint omapR {A B} (f : A → result (option B)) (l : list A) : result (list B) :=
  match l with
  | [] => Ok []
  | x :: l => y ← f x; ys ← omapR f l; Ok (option_list y ++ ys)
  end.

(** One expression clause on one row. *)
Definition expr_row (registry : FunctionRegistry) (e : Expr) (out : option string) (b : Bindings)
    : result (option (gmap string Value)) :=
  v ← eval_expr e b (Some registry);
  Ok match v with
     | None => None
     | Some v =>
       match out with
       | Some var => Some (<[var := v]> b)
       | None => if is_truthy v then Some b else None
       end
     end.
Definition expr_step (registry : FunctionRegistry) (rows : list (gmap string Value)) (c : WhereClause)
    : result (list (gmap string Value)) :=
  match c with
  | CExpr e out => omapR (expr_row registry e out) rows
  | _ => Ok rows
  end.

(** A top-level user-defined predicate that is not registered. *)
Definition unknown_predicate (registry : FunctionRegistry) (c : WhereClause) : bool :=
  match c with
  | CExpr (Unary (UdfQ name) _) _ => match get_predicate registry name with None => true | _ => false end
  | _ => false
  end.
Definition validate_predicates (registry : FunctionRegistry) (clauses : list WhereClause) : result unit :=
  ensure (negb (existsb (unknown_predicate registry) clauses)) "unknown predicate".

Definition apply_expr_clauses (rows : list (gmap string Value)) (clauses : list WhereClause)
    (registry : FunctionRegistry) : result (list (gmap string Value)) :=
  _ ← validate_predicates registry clauses;
  foldR (expr_step registry) rows clauses.

(** All clauses on one row, in the evaluator's copy of the loop. *)
Fixpoint exprs_on_row (registry : FunctionRegistry) (clauses : list WhereClause) (b : Bindings)
    : result (option (gmap string Value)) :=
  match clauses with
  | [] => Ok (Some b)
  | CExpr e out :: clauses =>
    b' ← expr_row registry e out b;
    match b' with None => Ok None | Some b' => exprs_on_row registry clauses b' end
  | _ :: clauses => exprs_on_row registry clauses b
  end.
Definition apply_expr_clauses_in_evaluator (rows : list (gmap string Value)) (clauses : list WhereClause)
    (registry : FunctionRegistry) : result (list (gmap string Value)) :=
  omapR (exprs_on_row registry clauses) rows.

(** * The only panic *)

Lemma eval_binop_Err op l r e : eval_binop op l r = Err e →
  e = DIV_PANIC ∧ op = OpDiv ∧ l = VInteger i64_MIN ∧ r = VInteger (-1).
Proof.
  destruct op; try done; cbn; unfold eval_arith;
    destruct l as [s|a|f|x|i|k|], r as [s'|b|f'|x'|i'|k'|]; try done.
  cbn. destruct (b =? 0); [done|]. unfold div_i64. destruct (Z.eqb_spec a i64_MIN) as [->|]; [|done].
  destruct (Z.eqb_spec b (-1)) as [->|]; [|done]. cbn. by intros [= <-].
Qed.

Lemma eval_expr_Err e b registry m : eval_expr e b registry = Err m → m = DIV_PANIC.
Proof.
  induction e as [v|v|s|op l IHl r IHr|op a IHa]; cbn; try done.
  - destruct (eval_expr l b registry) as [[x|]|] eqn:E; cbn; [|done|intros [= <-]; by apply IHl].
    destruct (eval_expr r b registry) as [[y|]|] eqn:F; cbn; [|done|intros [= <-]; by apply IHr].
    by intros []%eval_binop_Err.
  - destruct (eval_expr a b registry) as [x|] eqn:E; cbn; [done|intros [= <-]; by apply IHa].
Qed.

Lemma expr_row_Err registry e out b m : expr_row registry e out b = Err m → m = DIV_PANIC.
Proof.
  unfold expr_row. destruct (eval_expr e b (Some registry)) as [x|] eqn:E; cbn; [done|].
  intros [= <-]. by apply eval_expr_Err in E.
Qed.

Lemma omapR_Err {A B} (f : A → result (option B)) l m :
  omapR f l = Err m → ∃ x, x ∈ l ∧ f x = Err m.
Proof.
  induction l as [|x l IH]; cbn; [done|]. destruct (f x) as [y|] eqn:E; cbn.
  - destruct (omapR f l); cbn; [done|]. intros H. destruct (IH H) as (z & I & F). exists z. split; [by right|done].
  - intros [= <-]. exists x. split; [left|done].
Qed.

Lemma exprs_on_row_Err registry clauses b m : exprs_on_row registry clauses b = Err m → m = DIV_PANIC.
Proof.
  revert b; induction clauses as [|c clauses IH]; intros b; cbn; [done|].
  destruct c as [| | | |e out| |]; try apply IH.
  destruct (expr_row registry e out b) as [[b'|]|] eqn:E; cbn; [apply IH|done|].
  intros [= <-]. by apply expr_row_Err in E.
Qed.

(** Rows through a composition, when every failure is the one panic. *)
Lemma omapR_compose {A B C} (f : A → result (option B)) (g : B → result (option C)) (h : A → result (option C)) p l :
  (∀ x, h x = (y ← f x; match y with None => Ok None | Some y => g y end)) →
  (∀ x m, f x = Err m → m = p) → (∀ y m, g y = Err m → m = p) →
  (rows ← omapR f l; omapR g rows) = omapR h l.
Proof.
  intros Hh Pf Pg.
  assert (∀ l m, omapR f l = Err m → m = p) as Pfl.
  { intros l' m H. apply omapR_Err in H as (x & _ & E). by apply Pf in E. }
  assert (∀ l m, omapR g l = Err m → m = p) as Pgl.
  { intros l' m H. apply omapR_Err in H as (x & _ & E). by apply Pg in E. }
  induction l as [|x l IH]; cbn; [done|]. rewrite Hh, <-IH.
  destruct (f x) as [[y|]|m] eqn:E; cbn.
  - destruct (omapR f l) as [ys|m'] eqn:F; cbn.
    + destruct (g y) as [[z|]|m'] eqn:G; cbn; [by destruct (omapR g ys)..|done].
    + apply Pfl in F as ->. destruct (g y) as [z|m'] eqn:G; cbn; [done|]. by apply Pg in G as ->.
  - by destruct (omapR f l) as [ys|m'] eqn:F; cbn; [destruct (omapR g ys)|].
  - done.
Qed.

Lemma omapR_Some {A} (l : list A) : omapR (λ x, Ok (Some x)) l = Ok l.
Proof. induction l as [|x l IH]; cbn; [done|]. by rewrite IH. Qed.

(** The rows the clauses leave, clause by clause or row by row. *)
Lemma expr_passes registry clauses rows :
  foldR (expr_step registry) rows clauses = omapR (exprs_on_row registry clauses) rows.
Proof.
  revert rows; induction clauses as [|c clauses IH]; intros rows; cbn; [by rewrite omapR_Some|].
  destruct c as [| | | |e out| |]; try apply IH. cbn [expr_step].
  etrans; [|apply (omapR_compose (expr_row registry e out) (exprs_on_row registry clauses)
                     (exprs_on_row registry (CExpr e out :: clauses)) DIV_PANIC rows)];
    [|done|intros ? ?; apply expr_row_Err|intros ? ?; apply exprs_on_row_Err].
  by destruct (omapR (expr_row registry e out) rows); cbn; [apply IH|].
Qed.
End eval.

(** * Properties *)

(** The two copies of the expression pass agree.  The executor runs each
    clause over all rows, the evaluator all clauses over each row; they return the
    same rows in the same order, and stop with the same panic, except that the
    executor first refuses a top-level predicate that is not registered. *)
Theorem expr_passes_agree is_match registry clauses rows :
  apply_expr_clauses is_match rows clauses registry =
  if existsb (unknown_predicate registry) clauses then Err "unknown predicate"
  else apply_expr_clauses_in_evaluator is_match rows clauses registry.
Proof.
  unfold apply_expr_clauses, validate_predicates, apply_expr_clauses_in_evaluator.
  destruct (existsb _ clauses); cbn; [done|]. apply expr_passes.
Qed.

(** Comparing integers goes through [f64] and is exact below 2^53 in
    magnitude; from 2^53 on it is not: 2^53 is not less than 2^53 + 1. *)
Theorem integer_comparison_exact is_match a b :
  (- 2 ^ 53 < a < 2 ^ 53 → - 2 ^ 53 < b < 2 ^ 53 →
   eval_binop is_match OpLt (VInteger a) (VInteger b) = Ok (Some (VBoolean (a <? b))) ∧
   eval_binop is_match OpGt (VInteger a) (VInteger b) = Ok (Some (VBoolean (b <? a))) ∧
   eval_binop is_match OpLte (VInteger a) (VInteger b) = Ok (Some (VBoolean (a <=? b))) ∧
   eval_binop is_match OpGte (VInteger a) (VInteger b) = Ok (Some (VBoolean (b <=? a)))) ∧
  eval_binop is_match OpLt (VInteger (2 ^ 53)) (VInteger (2 ^ 53 + 1)) = Ok (Some (VBoolean false)).
Proof.
  split; [|vm_compute; reflexivity]. intros Ha Hb.
  cbn. unfold Float.gt, Float.ge, Float.lt, Float.le. rewrite !Float.of_i64_compare by done.
  unfold Z.ltb, Z.leb. rewrite (Z.compare_antisym a b). destruct (a ?= b); cbn; done.
Qed.
Lemma integer_comparison_exact_witness :
  - 2 ^ 53 < -3 < 2 ^ 53 ∧
  eval_binop (λ _ _, false) OpLt (VInteger (-3)) (VInteger 7) = Ok (Some (VBoolean true)).
Proof. split; [done|]. apply (integer_comparison_exact (λ _ _, false) (-3) 7); done. Defined.

(** Integer arithmetic.  On [i64] operands a sum, difference or product is
    the integer result modulo 2^64 and stays in range, division truncates towards
    zero and drops the row on a zero divisor, and the only panic of any operator on
    any operands is dividing the least integer by minus one. *)
Theorem integer_arithmetic is_match :
  (∀ a b, i64_ok a → i64_ok b →
     (∀ op f, (op, f) ∈ [(OpAdd, Z.add); (OpSub, Z.sub); (OpMul, Z.mul)] →
        ∃ c, eval_binop is_match op (VInteger a) (VInteger b) = Ok (Some (VInteger c)) ∧
             i64_ok c ∧ c mod 2 ^ 64 = f a b mod 2 ^ 64) ∧
     (b = 0 → eval_binop is_match OpDiv (VInteger a) (VInteger b) = Ok None) ∧
     (b ≠ 0 → ¬ (a = i64_MIN ∧ b = -1) →
        eval_binop is_match OpDiv (VInteger a) (VInteger b) = Ok (Some (VInteger (Z.quot a b))))) ∧
  (∀ op l r, (∃ e, eval_binop is_match op l r = Err e) ↔
     op = OpDiv ∧ l = VInteger i64_MIN ∧ r = VInteger (-1)).
Proof.
  assert (∀ z, i64_ok (wrap_i64 z) ∧ wrap_i64 z mod 2 ^ 64 = z mod 2 ^ 64) as W.
  { intros z. unfold wrap_i64. pose proof (cast_unsigned_ok z) as C.
    split; [by apply cast_signed_ok|].
    transitivity (cast_unsigned (cast_signed (cast_unsigned z))); [done|].
    by rewrite cast_unsigned_signed. }
  split.
  - intros a b Ha Hb. split_and!.
    + intros op f H. rewrite !elem_of_cons, elem_of_nil in H.
      destruct H as [[= -> ->]|[[= -> ->]|[[= -> ->]|[]]]]; eexists; (split; [reflexivity|apply W]).
    + intros ->. done.
    + intros N P. cbn. rewrite (proj2 (Z.eqb_neq b 0)) by done. unfold div_i64.
      destruct (Z.eqb_spec a i64_MIN), (Z.eqb_spec b (-1)); try done. tauto.
  - intros op l r. split.
    + intros [e (_ & -> & -> & ->)%eval_binop_Err]. done.
    + intros (-> & -> & ->). by exists DIV_PANIC.
Qed.
