(* ===== verification/Matcher.v ===== *)
(** Pattern matching (src/src/query/datalog/matcher.rs).

    A row of bindings is a finite map from variable names to values.  The UUID
    library is a parameter: [parse_str] reads a UUID, [new_v5_oid] derives one from
    a name, [uuid_to_string] prints one.  A component that does not match makes the
    caller drop the row, so the bindings written until then are not kept. *)
From S2P Require Import Prelude Types Floats HashKeys NetView FactStore QueryTypes Functions Expressions.
Set Default Proof Using "Type".

Abbreviation Row := (gmap string Value) (only parsing).

Definition BINDING_LIMIT : string := "query binding work exceeds max-results; incomplete result rejected".

Fixpoint trim_start_colons (s : string) : string :=
  match s with
  | String.String _ s' => if String.prefix ":" s then trim_start_colons s' else s
  | EmptyString => EmptyString
  end.

(** [var.starts_with('?')], and the two kinds of wildcard. *)
Definition is_var (s : string) : bool := String.prefix "?" s.
Definition is_wildcard (s : string) : bool := bool_decide (s = "_"%string) || String.prefix "?_" s.
(** Metadata of the matched fact is kept under names no variable has. *)
Definition is_hidden (s : string) : bool := String.prefix "__f" s.

#[global] Arguments is_var : simpl never.
#[global] Arguments is_wildcard : simpl never.
#[global] Arguments is_hidden : simpl never.

Definition edn_to_value (e : EdnValue) : result Value :=
  match e with
  | EString s => Ok (VString s)
  | EInteger i => Ok (VInteger i)
  | EFloat f => Ok (VFloat f)
  | EBoolean b => Ok (VBoolean b)
  | EKeyword k => Ok (VKeyword k)
  | EUuid u => Ok (VRef u)
  | ENil => Ok VNull
  | ESymbol s => if is_var s then Err ("Cannot convert unbound variable " +:+ s +:+ " to value")
                 else Err "Cannot convert to Value"
  | _ => Err "Cannot convert to Value"
  end.

(** [PatternMatcher::value_to_edn]. *)
Definition matcher_value_to_edn (v : Value) : EdnValue :=
  match v with
  | VString s => EString s
  | VInteger i => EInteger i
  | VFloat f => EFloat f
  | VBoolean b => EBoolean b
  | VRef id => EUuid id
  | VKeyword k => EKeyword k
  | VNull => ENil
  end.

Definition push_row (max_results : Z) (rows : list (gmap string Value)) (row : Row)
    : result (list (gmap string Value)) :=
  if max_results <=? Z.of_nat (length rows) then Err BINDING_LIMIT else Ok (rows ++ [row]).

Inductive MatcherStorage : Type := Owned (s : FactStorage) | Slice (facts : list Fact).
Record PatternMatcher : Type := mkMatcher {
  m_storage : MatcherStorage;
  valid_at_value : Value;
  retain_fact_metadata : bool;
}.
Definition matcher_new (s : FactStorage) : PatternMatcher := mkMatcher (Owned s) VNull false.
Definition from_slice (facts : list Fact) : PatternMatcher := mkMatcher (Slice facts) VNull false.
Definition from_slice_with_valid_at_and_metadata (facts : list Fact) (valid_at : Value) (retain : bool)
    : PatternMatcher := mkMatcher (Slice facts) valid_at retain.
Definition get_facts (m : PatternMatcher) : list Fact :=
  match m_storage m with
  | Owned s => match get_asserted_facts s with Ok facts => facts | Err _ => [] end
  | Slice facts => facts
  end.

Section matcher.
Context (parse_str : string → option Z) (new_v5_oid : string → Z) (uuid_to_string : Z → string).

Definition keyword_id (k : string) : Z :=
  match parse_str (trim_start_colons k) with Some u => u | None => new_v5_oid k end.
Definition edn_to_entity_id (e : EdnValue) : result EntityId :=
  match e with
  | EKeyword k => Ok (keyword_id k)
  | EUuid u => Ok u
  | _ => Err "Expected keyword or UUID for entity"
  end.
Definition normalize_join_value (v : Value) : Value :=
  match v with VKeyword k => VRef (keyword_id k) | _ => v end.

(** * One fact against one pattern *)

(** A variable takes the value or must already have it. *)
Definition bind_var (var : string) (v : Value) (b : Row) : option (gmap string Value) :=
  match b !! var with
  | Some existing => if value_eq existing v then Some b else None
  | None => Some (<[var := v]> b)
  end.

(** Constants of a pattern. *)
Definition match_constant (c : EdnValue) (v : Value) : bool :=
  match c, v with
  | EKeyword k, VKeyword fk => bool_decide (k = fk)
  | EKeyword k, VRef id => keyword_id k =? id
  | EString s, VString fs => bool_decide (s = fs)
  | EInteger i, VInteger fi => i =? fi
  | EFloat f, VFloat ff => Float.close f ff
  | EBoolean x, VBoolean fb => eqb x fb
  | EUuid u, VRef id => u =? id
  | EUuid u, VKeyword k => u =? keyword_id k
  | ENil, VNull => true
  | _, _ => false
  end.

Definition match_component (c : EdnValue) (v : Value) (b : Row) : option (gmap string Value) :=
  match c with
  | ESymbol var =>
    if is_wildcard var then Some b else if is_var var then bind_var var v b else None
  | _ => if match_constant c v then Some b else None
  end.

Definition match_attribute_component (c : EdnValue) (attr : string) (b : Row) : option (gmap string Value) :=
  match c with
  | ESymbol var =>
    if is_wildcard var then Some b
    else if is_var var then
      match b !! var with
      | Some (VKeyword value) => if bool_decide (value = attr) then Some b else None
      | Some _ => None
      | None => Some (<[var := VKeyword attr]> b)
      end
    else None
  | EKeyword expected => if bool_decide (expected = attr) then Some b else None
  | _ => None
  end.

Definition hidden_key (p : PseudoAttr) (id : EntityId) : option string :=
  match p with
  | ValidFrom => Some ("__fvf_" +:+ uuid_to_string id)
  | ValidTo => Some ("__fvt_" +:+ uuid_to_string id)
  | TxCount => Some ("__ftc_" +:+ uuid_to_string id)
  | TxId => Some ("__fti_" +:+ uuid_to_string id)
  | QueryTypes.ValidAt => None
  end.
Definition pseudo_value (m : PatternMatcher) (p : PseudoAttr) (f : Fact) : Value :=
  match p with
  | ValidFrom => VInteger (valid_from f)
  | ValidTo => VInteger (valid_to f)
  | TxCount => VInteger (cast_signed (tx_count f))
  | TxId => VInteger (cast_signed (tx_id f))
  | QueryTypes.ValidAt => valid_at_value m
  end.
(** What a matched fact leaves behind for following pseudo-attribute patterns. *)
Definition retain_metadata (f : Fact) (b : Row) : gmap string Value :=
  let eid := uuid_to_string (entity f) in
  <["__fti_" +:+ eid := VInteger (cast_signed (tx_id f))]>
  (<["__ftc_" +:+ eid := VInteger (cast_signed (tx_count f))]>
  (<["__fvt_" +:+ eid := VInteger (valid_to f)]>
  (<["__fvf_" +:+ eid := VInteger (valid_from f)]> b))).

Definition match_fact_against_pattern (m : PatternMatcher) (f : Fact) (p : Pattern) : option (gmap string Value) :=
  b ← match_component (pat_entity p) (VRef (entity f)) ∅;
  match pat_attribute p with
  | Real attr =>
    b ← match_attribute_component attr (attribute f) b;
    b ← match_component (pat_value p) (value f) b;
    Some (if retain_fact_metadata m then retain_metadata f b else b)
  | Pseudo pseudo => match_component (pat_value p) (pseudo_value m pseudo f) b
  end.

Definition match_pattern (m : PatternMatcher) (p : Pattern) : list (gmap string Value) :=
  omap (λ f, match_fact_against_pattern m f p) (get_facts m).
Definition match_pattern_bounded (m : PatternMatcher) (p : Pattern) (max_results : Z)
    : result (list (gmap string Value)) :=
  foldR (λ rows f, match match_fact_against_pattern m f p with
                   | Some row => push_row max_results rows row
                   | None => Ok rows
                   end) [] (get_facts m).

(** * Joining a row with a pattern *)

Definition apply_binding_to_component (c : EdnValue) (b : Row) : EdnValue :=
  match c with
  | ESymbol var =>
    if is_var var then match b !! var with Some v => matcher_value_to_edn v | None => c end else c
  | _ => c
  end.
Definition apply_bindings_to_pattern (p : Pattern) (b : Row) : Pattern :=
  mkPattern (apply_binding_to_component (pat_entity p) b)
    match pat_attribute p with
    | Real edn => Real (apply_binding_to_component edn b)
    | Pseudo pseudo => Pseudo pseudo
    end
    (apply_binding_to_component (pat_value p) b) (pat_valid_from p) (pat_valid_to p).

(** Additional bindings agree with the row, hidden ones aside. *)
Definition consistent (existing additional : Row) : bool :=
  forallb (λ '(var, v), is_hidden var ||
             match existing !! var with Some e => value_eq e v | None => true end)
    (map_to_list additional).

Definition scan_fact (m : PatternMatcher) (p : Pattern) (existing : Row) (f : Fact) : option (gmap string Value) :=
  additional ← match_fact_against_pattern m f (apply_bindings_to_pattern p existing);
  if consistent existing additional then Some (additional ∪ existing) else None.
Definition match_pattern_with_bindings_scan (m : PatternMatcher) (p : Pattern) (existing : Row)
    : list (gmap string Value) := omap (scan_fact m p existing) (get_facts m).

Definition resolved_id (e : EdnValue) : option EntityId :=
  match e with EUuid u => Some u | EKeyword k => Some (keyword_id k) | _ => None end.

Definition match_pattern_with_bindings (m : PatternMatcher) (p : Pattern) (existing : Row)
    : list (gmap string Value) :=
  match pat_attribute p with
  | Pseudo pseudo =>
    match resolved_id (apply_binding_to_component (pat_entity p) existing) with
    | Some id =>
      match (key ← hidden_key pseudo id; existing !! key) with
      | Some stored => option_list (match_component (pat_value p) stored existing)
      | None => match_pattern_with_bindings_scan m p existing
      end
    | None => match_pattern_with_bindings_scan m p existing
    end
  | Real _ => match_pattern_with_bindings_scan m p existing
  end.
Definition match_pattern_with_bindings_bounded (m : PatternMatcher) (p : Pattern) (existing : Row)
    (max_results : Z) : result (list (gmap string Value)) :=
  let results := match_pattern_with_bindings m p existing in
  if max_results <? Z.of_nat (length results) then Err BINDING_LIMIT else Ok results.

(** The variable a hash join is keyed by. *)
Definition bound_component (first : option (gmap string Value)) (c : EdnValue) : option string :=
  match c with
  | ESymbol s =>
    if is_var s && match first with Some b => bool_decide (is_Some (b !! s)) | None => false end
    then Some s else None
  | _ => None
  end.
Definition join_var (rows : list (gmap string Value)) (p : Pattern) : option string :=
  match pat_attribute p with
  | Pseudo _ => None
  | Real _ =>
    match bound_component (head rows) (pat_entity p) with
    | Some s => Some s
    | None => bound_component (head rows) (pat_value p)
    end
  end.

(** The build side: candidates under the normalized value of the variable. *)
Definition build_side (jvar : string) (candidates : list (gmap string Value)) : list (Value * list (gmap string Value)) :=
  foldl (λ side b, match b !! jvar with
                   | Some v => entry_push hash_key_eq side (normalize_join_value v) b
                   | None => side
                   end) [] candidates.

Definition merge_entry (merged : option (gmap string Value)) (entry : string * Value) : option (gmap string Value) :=
  let '(var, v) := entry in
  row ← merged;
  if is_hidden var then Some (<[var := v]> row)
  else match row !! var with
       | Some mv => if value_eq (normalize_join_value mv) (normalize_join_value v) then Some row else None
       | None => Some (<[var := v]> row)
       end.
Definition merge_rows (existing candidate : Row) : option (gmap string Value) :=
  foldl merge_entry (Some existing) (map_to_list candidate).

Definition probe_row (m : PatternMatcher) (p : Pattern) (jvar : string)
    (side : list (Value * list (gmap string Value))) (existing : Row) : list (gmap string Value) :=
  match existing !! jvar with
  | None => match_pattern_with_bindings m p existing
  | Some probe =>
    omap (merge_rows existing) (default [] (hm_get hash_key_eq side (normalize_join_value probe)))
  end.

Definition join_with_pattern (m : PatternMatcher) (rows : list (gmap string Value)) (p : Pattern)
    : list (gmap string Value) :=
  match rows with
  | [] => []
  | _ =>
    match join_var rows p with
    | None => flat_map (match_pattern_with_bindings m p) rows
    | Some jvar => flat_map (probe_row m p jvar (build_side jvar (match_pattern m p))) rows
    end
  end.

(** Results of a nested loop are limited to what room is left. *)
Definition scan_bounded (m : PatternMatcher) (p : Pattern) (max_results : Z)
    (results : list (gmap string Value)) (existing : Row) : result (list (gmap string Value)) :=
  matches ← match_pattern_with_bindings_bounded m p existing
              (sat_sub_u64 max_results (Z.of_nat (length results)));
  foldR (push_row max_results) results matches.
Definition probe_bounded (m : PatternMatcher) (p : Pattern) (jvar : string)
    (side : list (Value * list (gmap string Value))) (max_results : Z)
    (results : list (gmap string Value)) (existing : Row) : result (list (gmap string Value)) :=
  match existing !! jvar with
  | None => scan_bounded m p max_results results existing
  | Some probe =>
    foldR (λ results candidate,
             match merge_rows existing candidate with
             | Some merged => push_row max_results results merged
             | None => Ok results
             end) results (default [] (hm_get hash_key_eq side (normalize_join_value probe)))
  end.
Definition join_with_pattern_bounded (m : PatternMatcher) (rows : list (gmap string Value)) (p : Pattern)
    (max_results : Z) : result (list (gmap string Value)) :=
  match rows with
  | [] => Ok []
  | _ =>
    match join_var rows p with
    | None => foldR (scan_bounded m p max_results) [] rows
    | Some jvar =>
      candidates ← match_pattern_bounded m p max_results;
      foldR (probe_bounded m p jvar (build_side jvar candidates) max_results) [] rows
    end
  end.

(** * Several patterns *)

Definition match_patterns (m : PatternMatcher) (ps : list Pattern) : list (gmap string Value) :=
  match ps with
  | [] => [∅]
  | first :: rest => foldl (join_with_pattern m) (match_pattern m first) rest
  end.
Definition match_patterns_seeded (m : PatternMatcher) (ps : list Pattern) (seed : list (gmap string Value))
    : list (gmap string Value) :=
  match seed with
  | [] => []
  | _ => foldl (join_with_pattern m) seed ps
  end.

Definition is_unit_seed (seed : list (gmap string Value)) : bool :=
  match seed with [b] => bool_decide (b = ∅) | _ => false end.
(** The planner's index hint is not used here. *)
Definition match_with_hint_seeded (m : PatternMatcher) (seed : list (gmap string Value)) (p : Pattern)
    : list (gmap string Value) :=
  match seed with
  | [] => []
  | _ => if is_unit_seed seed then match_pattern m p else join_with_pattern m seed p
  end.
Definition match_with_hint_seeded_bounded (m : PatternMatcher) (seed : list (gmap string Value)) (p : Pattern)
    (max_results : Z) : result (list (gmap string Value)) :=
  match seed with
  | [] => Ok []
  | _ =>
    if max_results <? Z.of_nat (length seed) then Err BINDING_LIMIT
    else if is_unit_seed seed then match_pattern_bounded m p max_results
    else join_with_pattern_bounded m seed p max_results
  end.
Definition match_patterns_bounded (m : PatternMatcher) (ps : list Pattern) (seed : list (gmap string Value))
    (max_results : Z) : result (list (gmap string Value)) :=
  if max_results <? Z.of_nat (length seed) then Err BINDING_LIMIT
  else foldR (λ seed p, join_with_pattern_bounded m seed p max_results) seed ps.

(** * Bounded matching is matching, or a refusal *)

Definition within {A} (max_results : Z) (rows : list A) : result (list A) :=
  if Z.of_nat (length rows) <=? max_results then Ok rows else Err BINDING_LIMIT.

Lemma push_rows max_results acc l : Z.of_nat (length acc) ≤ max_results →
  foldR (push_row max_results) acc l = within max_results (acc ++ l).
Proof.
  unfold within. revert acc; induction l as [|x l IH]; intros acc A; cbn.
  - by rewrite app_nil_r, (proj2 (Z.leb_le _ _)).
  - assert (push_row max_results acc x =
            if max_results <=? Z.of_nat (length acc) then Err BINDING_LIMIT else Ok (acc ++ [x])) as -> by done.
    destruct (Z.leb_spec max_results (Z.of_nat (length acc))); cbn.
    + rewrite length_app; cbn. rewrite (proj2 (Z.leb_gt _ _)); [done|lia].
    + rewrite IH by (rewrite length_app; cbn; lia). by rewrite <-app_assoc.
Qed.

Lemma push_omap {A} (f : A → option (gmap string Value)) max_results acc l :
  foldR (λ rows x, match f x with Some row => push_row max_results rows row | None => Ok rows end) acc l
  = foldR (push_row max_results) acc (omap f l).
Proof.
  revert acc; induction l as [|x l IH]; intros acc; cbn; [done|].
  destruct (f x); cbn; [|apply IH]. destruct (push_row _ _ _); cbn; [apply IH|done].
Qed.

Lemma match_pattern_bounded_spec m p max_results : 0 ≤ max_results →
  match_pattern_bounded m p max_results = within max_results (match_pattern m p).
Proof.
  intros P. unfold match_pattern_bounded. rewrite push_omap. by apply push_rows.
Qed.

(** A step that appends [g x], within the limit, appends all of them. *)
Lemma foldR_within {A} (step : list (gmap string Value) → A → result (list (gmap string Value)))
    (g : A → list (gmap string Value)) max_results l acc :
  (∀ acc x, Z.of_nat (length acc) ≤ max_results → step acc x = within max_results (acc ++ g x)) →
  Z.of_nat (length acc) ≤ max_results →
  foldR step acc l = within max_results (acc ++ flat_map g l).
Proof.
  intros S. revert acc; induction l as [|x l IH]; intros acc L; cbn.
  - unfold within. by rewrite app_nil_r, (proj2 (Z.leb_le _ _)).
  - rewrite S by done. unfold within at 1. destruct (Z.leb_spec (Z.of_nat (length (acc ++ g x))) max_results); cbn.
    + rewrite IH by done. by rewrite <-app_assoc.
    + unfold within. rewrite (proj2 (Z.leb_gt _ _)); [done|].
      rewrite !length_app in *. lia.
Qed.

Lemma scan_bounded_spec m p max_results acc b : Z.of_nat (length acc) ≤ max_results →
  scan_bounded m p max_results acc b = within max_results (acc ++ match_pattern_with_bindings m p b).
Proof.
  intros A. unfold scan_bounded, match_pattern_with_bindings_bounded, sat_sub_u64.
  rewrite Z.max_l by lia.
  destruct (Z.ltb_spec (max_results - Z.of_nat (length acc)) (Z.of_nat (length (match_pattern_with_bindings m p b)))); cbn.
  - unfold within. rewrite (proj2 (Z.leb_gt _ _)); [done|]. rewrite length_app. lia.
  - by apply push_rows.
Qed.

Lemma probe_bounded_spec m p jvar side max_results acc b : Z.of_nat (length acc) ≤ max_results →
  probe_bounded m p jvar side max_results acc b = within max_results (acc ++ probe_row m p jvar side b).
Proof.
  intros A. unfold probe_bounded, probe_row. destruct (b !! jvar); [|by apply scan_bounded_spec].
  rewrite push_omap. by apply push_rows.
Qed.

Lemma join_bounded_spec m rows p max_results : 0 ≤ max_results →
  join_with_pattern_bounded m rows p max_results =
  (_ ← match rows, join_var rows p with
       | _ :: _, Some _ => match_pattern_bounded m p max_results
       | _, _ => Ok []
       end;
   within max_results (join_with_pattern m rows p)).
Proof.
  intros P. unfold join_with_pattern_bounded, join_with_pattern.
  destruct rows as [|r rows]; [cbn; unfold within; by rewrite (proj2 (Z.leb_le _ _))|].
  destruct (join_var (r :: rows) p) as [jvar|].
  - rewrite match_pattern_bounded_spec by done. unfold within at 1 3.
    destruct (Z.of_nat (length (match_pattern m p)) <=? max_results); cbn [mbind result_bind]; [|done].
    rewrite (foldR_within _ (probe_row m p jvar (build_side jvar (match_pattern m p))) max_results); try done.
    intros; by apply probe_bounded_spec.
  - rewrite (foldR_within _ (match_pattern_with_bindings m p) max_results); try done.
    intros; by apply scan_bounded_spec.
Qed.

(** * Patterns without repeated variables *)

Definition component_vars (c : EdnValue) : list string :=
  match c with ESymbol s => if is_var s && negb (is_wildcard s) then [s] else [] | _ => [] end.
Definition pattern_vars (p : Pattern) : list string :=
  component_vars (pat_entity p) ++
  match pat_attribute p with Real a => component_vars a | Pseudo _ => [] end ++
  component_vars (pat_value p).

(** What a component binds by itself. *)
Definition component_binds (c : EdnValue) (v : Value) : option (gmap string Value) :=
  match c with
  | ESymbol s => if is_wildcard s then Some ∅ else if is_var s then Some {[s := v]} else None
  | _ => if match_constant c v then Some ∅ else None
  end.
Definition attribute_binds (c : EdnValue) (attr : string) : option (gmap string Value) :=
  match c with
  | ESymbol s => if is_wildcard s then Some ∅ else if is_var s then Some {[s := VKeyword attr]} else None
  | EKeyword k => if bool_decide (k = attr) then Some ∅ else None
  | _ => None
  end.
Definition fact_binds (p : Pattern) (f : Fact) : option (gmap string Value) :=
  match pat_attribute p with
  | Real a =>
    e ← component_binds (pat_entity p) (VRef (entity f));
    a ← attribute_binds a (attribute f);
    v ← component_binds (pat_value p) (value f);
    Some (v ∪ (a ∪ e))
  | Pseudo _ => None
  end.

Lemma match_component_fresh c v b : (∀ s, s ∈ component_vars c → b !! s = None) →
  match_component c v b = (λ d, d ∪ b) <$> component_binds c v.
Proof. clear uuid_to_string.
  intros F. destruct c as [k|s|s|i|f|x|u|l|l|l| |s]; unfold match_component, component_binds;
    try (destruct (match_constant _ _); cbn; by rewrite ?(left_id_L ∅ (∪))).
  unfold component_vars in F. destruct (is_wildcard s); cbn; [by rewrite (left_id_L ∅ (∪))|].
  destruct (is_var s); cbn; [|done]. unfold bind_var. rewrite F by (cbn; set_solver).
  by rewrite insert_union_singleton_l.
Qed.
Lemma match_attribute_fresh c attr b : (∀ s, s ∈ component_vars c → b !! s = None) →
  match_attribute_component c attr b = (λ d, d ∪ b) <$> attribute_binds c attr.
Proof. clear uuid_to_string parse_str new_v5_oid.
  intros F. destruct c as [k|s|s|i|f|x|u|l|l|l| |s]; cbn; try done.
  - case_bool_decide; cbn; by rewrite ?(left_id_L ∅ (∪)).
  - unfold component_vars in F. destruct (is_wildcard s); cbn; [by rewrite (left_id_L ∅ (∪))|].
    destruct (is_var s); cbn; [|done]. rewrite F by (cbn; set_solver).
    by rewrite insert_union_singleton_l.
Qed.

Lemma component_binds_dom c v d : component_binds c v = Some d → dom d = list_to_set (component_vars c).
Proof. clear uuid_to_string.
  destruct c as [k|s|s|i|f|x|u|l|l|l| |s]; unfold component_binds;
    try (destruct (match_constant _ _); [intros [= <-]; set_solver|done]).
  cbn.
  destruct (is_wildcard s) eqn:W; [intros [= <-]; rewrite andb_false_r; set_solver|].
  destruct (is_var s); [|done]. intros [= <-]. cbn. set_solver.
Qed.
Lemma attribute_binds_dom c a d : attribute_binds c a = Some d → dom d = list_to_set (component_vars c).
Proof. clear uuid_to_string parse_str new_v5_oid.
  destruct c as [k|s|s|i|f|x|u|l|l|l| |s]; cbn; try done.
  - case_bool_decide; [intros [= <-]; set_solver|done].
  - destruct (is_wildcard s) eqn:W; [intros [= <-]; rewrite andb_false_r; set_solver|].
    destruct (is_var s); [|done]. intros [= <-]. cbn. set_solver.
Qed.

(** The metadata of a fact, alone. *)
Definition hidden_part (m : PatternMatcher) (f : Fact) : gmap string Value :=
  if retain_fact_metadata m then retain_metadata f ∅ else ∅.
Lemma retain_metadata_union f b : retain_metadata f b = retain_metadata f ∅ ∪ b.
Proof. unfold retain_metadata. by rewrite <-!insert_union_l, (left_id_L ∅ (∪)). Qed.
Lemma hidden_part_hidden m f x : is_Some (hidden_part m f !! x) → is_hidden x = true.
Proof.
  unfold hidden_part. destruct (retain_fact_metadata m); [|by intros [? ?]].
  unfold retain_metadata. rewrite !lookup_insert_is_Some, lookup_empty.
  intros H. destruct H as [<-|[_ [<-|[_ [<-|[_ [<-|[_ [? [=]]]]]]]]]]; done.
Qed.

(** A pattern without repeated variables matches component by component. *)
Lemma match_fact_linear m f p a : pat_attribute p = Real a → NoDup (pattern_vars p) →
  match_fact_against_pattern m f p = (λ d, hidden_part m f ∪ d) <$> fact_binds p f.
Proof.
  intros R L. unfold match_fact_against_pattern, fact_binds, pattern_vars in *. rewrite R in *.
  apply NoDup_app in L as (Le & Da & (La & Dv & Lv)%NoDup_app).
  rewrite match_component_fresh by done.
  destruct (component_binds (pat_entity p) _) as [de|] eqn:Ee; cbn; [|done].
  apply component_binds_dom in Ee. rewrite (right_id_L ∅ (∪)).
  rewrite match_attribute_fresh.
  2: { intros s Hs. apply not_elem_of_dom. rewrite Ee. set_solver. }
  destruct (attribute_binds a _) as [da|] eqn:Ea; cbn; [|done].
  apply attribute_binds_dom in Ea.
  rewrite match_component_fresh.
  2: { intros s Hs. apply not_elem_of_dom. rewrite dom_union_L, Ee, Ea. set_solver. }
  destruct (component_binds (pat_value p) _) as [dv|] eqn:Ev; cbn; [|done].
  unfold hidden_part. destruct (retain_fact_metadata m); [by rewrite retain_metadata_union|].
  by rewrite (left_id_L ∅ (∪)).
Qed.

(** * Merging a candidate into a row *)

Definition agrees (b : Row) (entry : string * Value) : bool :=
  let '(x, v) := entry in
  is_hidden x ||
  match b !! x with
  | Some w => value_eq (normalize_join_value w) (normalize_join_value v)
  | None => true
  end.
(** Hidden entries of the candidate win, other entries of the row win. *)
Definition merged_lookup (b : Row) (x : string) (v : option Value) : option Value :=
  match v with
  | Some v => if is_hidden x then Some v else Some (default v (b !! x))
  | None => b !! x
  end.

Lemma merge_entries b l : NoDup l.*1 →
  foldl merge_entry (Some b) l =
  if forallb (agrees b) l
  then Some (list_to_map (List.filter (λ e, is_hidden e.1) l) ∪ (b ∪ list_to_map l)) else None.
Proof.
  assert (∀ l, foldl merge_entry None l = None) as N.
  { intros l'. induction l' as [|[x v] l' IH]; [done|]. cbn. done. }
  revert b; induction l as [|[x v] l IH]; intros b D; cbn.
  { by rewrite (left_id_L ∅ (∪)), (right_id_L ∅ (∪)). }
  rewrite fmap_cons in D. apply NoDup_cons in D as [D1 D2].
  assert (∀ w, forallb (agrees (<[x := w]> b)) l = forallb (agrees b) l) as A.
  { intros w. apply forallb_ext. intros [y u] I. cbn. rewrite lookup_insert_ne; [done|].
    intros ->. apply D1. by apply (list_elem_of_fmap_2 fst _ (y, u)) in I. }
  assert ((list_to_map (List.filter (λ e, is_hidden e.1) l) : gmap string Value) !! x = None) as Hx.
  { apply not_elem_of_list_to_map_1. intros (e & -> & [_ I]%elem_of_List_filter)%list_elem_of_fmap.
    apply D1. change (e.1 ∈ l.*1). by apply list_elem_of_fmap_2. }
  assert ((list_to_map l : gmap string Value) !! x = None) as Lx by by apply not_elem_of_list_to_map_1.
  destruct (is_hidden x) eqn:H; cbn.
  - rewrite IH, A by done. destruct (forallb (agrees b) l); [|done]. f_equal. apply map_eq. intros y.
    destruct (decide (y = x)) as [->|E].
    + rewrite lookup_union_r, lookup_union, lookup_insert_eq by done.
      rewrite lookup_union, lookup_insert_eq. by rewrite !union_Some_l.
    + rewrite !lookup_union, !lookup_insert_ne by done. done.
  - destruct (b !! x) as [w|] eqn:B; cbn.
    + destruct (value_eq _ _); cbn; [|by rewrite N]. rewrite IH by done.
      destruct (forallb (agrees b) l); [|done]. f_equal. apply map_eq. intros y.
      destruct (decide (y = x)) as [->|E]; rewrite !lookup_union.
      * rewrite lookup_insert_eq, B, Hx. by rewrite !(left_id_L None (∪)), !union_Some_l.
      * by rewrite lookup_insert_ne.
    + rewrite IH, A by done. destruct (forallb (agrees b) l); [|done]. f_equal. apply map_eq. intros y.
      destruct (decide (y = x)) as [->|E]; rewrite !lookup_union.
      * rewrite !lookup_insert_eq, B, Hx. by rewrite Lx.
      * by rewrite !lookup_insert_ne.
Qed.

Lemma merge_rows_lookup b c row x : merge_rows b c = Some row → row !! x = merged_lookup b x (c !! x).
Proof.
  unfold merge_rows. rewrite merge_entries by apply NoDup_fst_map_to_list.
  destruct (forallb _ _); [|done]. intros [= <-]. unfold merged_lookup.
  rewrite !lookup_union, list_to_map_to_list.
  assert ((list_to_map (List.filter (λ e, is_hidden e.1) (map_to_list c)) : gmap string Value) !! x
          = if is_hidden x then c !! x else None) as ->.
  { destruct (c !! x) as [v|] eqn:C.
    - destruct (is_hidden x) eqn:H.
      + apply elem_of_list_to_map_1'.
        * intros u [_ I]%elem_of_List_filter. apply elem_of_map_to_list in I. congruence.
        * apply elem_of_List_filter. split; [done|]. by apply elem_of_map_to_list.
      + apply not_elem_of_list_to_map_1. intros ([y u] & -> & [I _]%elem_of_List_filter)%list_elem_of_fmap.
        cbn in *. congruence.
    - destruct (is_hidden x); apply not_elem_of_list_to_map_1;
        intros ([y u] & -> & [_ I]%elem_of_List_filter)%list_elem_of_fmap; apply elem_of_map_to_list in I;
        cbn in C; congruence. }
  destruct (c !! x) as [v|], (is_hidden x), (b !! x); done.
Qed.

Lemma merge_rows_is_Some b c :
  is_Some (merge_rows b c) ↔ ∀ x v, c !! x = Some v → agrees b (x, v) = true.
Proof.
  unfold merge_rows. rewrite merge_entries by apply NoDup_fst_map_to_list.
  destruct (forallb (agrees b) (map_to_list c)) eqn:A.
  - split; [|by eauto]. intros _ x v C. rewrite forallb_elem in A. apply A. by apply elem_of_map_to_list.
  - split; [by intros []|]. intros H. exfalso. apply not_true_iff_false in A. apply A.
    apply forallb_elem. intros [x v] I%elem_of_map_to_list. by apply H.
Qed.

(** * The hash join and the nested loop *)

(** When a row may be joined by either: the attribute is not a variable of the
    row, wildcards are not bound, and the value position is bound to no float and
    to no keyword that shares its identity with another keyword of the facts. *)
Record join_ok (m : PatternMatcher) (p : Pattern) (b : Row) : Prop := {
  jo_linear : NoDup (pattern_vars p);
  jo_wild x : String.prefix "?_" x = true → b !! x = None;
  jo_attr s : pat_attribute p = Real (ESymbol s) → b !! s = None;
  jo_value s w : pat_value p = ESymbol s → b !! s = Some w →
    is_float_value w = false ∧
    ∀ f k k', f ∈ get_facts m → w = VKeyword k → value f = VKeyword k' →
      keyword_id k = keyword_id k' → k = k';
}.

Lemma value_eq_Ref x y : value_eq (VRef x) (VRef y) = (x =? y).
Proof. done. Qed.

(** A bound variable constrains the fact in the same way. *)
Lemma bound_entity w id : match_constant (matcher_value_to_edn w) (VRef id)
  = value_eq (normalize_join_value w) (VRef id).
Proof. by destruct w. Qed.
Lemma bound_value w v : is_float_value w = false →
  (∀ k k', w = VKeyword k → v = VKeyword k' → keyword_id k = keyword_id k' → k = k') →
  match_constant (matcher_value_to_edn w) v = value_eq (normalize_join_value w) (normalize_join_value v).
Proof.
  intros F I. destruct w as [s|i|f|x|x|k|], v as [t|j|g|y|y|k'|]; try done.
  cbn. apply iff_bool_eq. rewrite bool_decide_eq_true, Z.eqb_eq. split; [by intros ->|]. by apply I.
Qed.

Lemma hash_key_eq_value_eq w v : is_float_value w = false ∨ is_float_value v = false →
  hash_key_eq w v = value_eq w v.
Proof.
  intros F. unfold hash_key_eq. destruct (value_eq w v) eqn:E; [|done]. cbn. apply bool_decide_eq_true.
  destruct w as [s|i|f|x|x|k|], v as [t|j|g|y|y|k'|]; try discriminate E; cbn in E; destruct F; try discriminate;
    try apply bool_decide_eq_true in E as ->; try apply Z.eqb_eq in E as ->; try apply eqb_prop in E as ->; done.
Qed.

Definition all_agree (b d : Row) : bool := forallb (agrees b) (map_to_list d).
Definition fresh_part (b d : Row) : gmap string Value := filter (λ e, b !! e.1 = None) d.

Lemma all_agree_true b d : all_agree b d = true ↔ ∀ x v, d !! x = Some v → agrees b (x, v) = true.
Proof.
  unfold all_agree. rewrite forallb_elem. split.
  - intros H x v D. apply H. by apply elem_of_map_to_list.
  - intros H [x v] I%elem_of_map_to_list. by apply H.
Qed.
Lemma all_agree_empty b : all_agree b ∅ = true.
Proof. by apply all_agree_true. Qed.
Lemma all_agree_singleton b s v : all_agree b {[s := v]} = agrees b (s, v).
Proof. unfold all_agree. rewrite map_to_list_singleton. cbn [forallb]. by rewrite andb_true_r. Qed.
Lemma all_agree_union b d d' : d ##ₘ d' → all_agree b (d ∪ d') = all_agree b d && all_agree b d'.
Proof.
  intros D. apply iff_bool_eq. rewrite andb_true_iff, !all_agree_true. split.
  - intros H. split; intros x v L; apply H; [by apply lookup_union_Some_l|by apply lookup_union_Some_r].
  - intros [H H'] x v [L|L]%lookup_union_Some; [by apply H|by apply H'|done].
Qed.
Lemma fresh_part_lookup b d x : fresh_part b d !! x = match b !! x with Some _ => None | None => d !! x end.
Proof.
  unfold fresh_part. rewrite map_lookup_filter. destruct (d !! x) as [v|]; cbn; [|by destruct (b !! x)].
  case_guard as G; cbn in G; destruct (b !! x); done.
Qed.

Lemma var_not_hidden s : is_var s = true → is_hidden s = false.
Proof.
  unfold is_var, is_hidden. destruct s as [|c s]; [done|]. cbn. by repeat case_match; subst.
Qed.
Lemma component_vars_visible c x : x ∈ component_vars c → is_hidden x = false.
Proof.
  destruct c as [k|s|s|i|f|y|u|l|l|l| |s]; cbn; try by intros ?%elem_of_nil.
  destruct (is_var s) eqn:Vs, (is_wildcard s); cbn; try by intros ?%elem_of_nil.
  intros ->%list_elem_of_singleton. by apply var_not_hidden.
Qed.
Lemma wildcard_unbound (b : Row) s : (∀ x, String.prefix "?_" x = true → b !! x = None) →
  is_wildcard s = true → is_var s = true → b !! s = None.
Proof.
  intros W. unfold is_wildcard, is_var. rewrite orb_true_iff, bool_decide_eq_true.
  intros [->|P]; [done|]. intros _. by apply W.
Qed.
Lemma edn_of_value_constant w s : matcher_value_to_edn w ≠ ESymbol s.
Proof. by destruct w. Qed.
Lemma component_binds_constant w v :
  component_binds (matcher_value_to_edn w) v = if match_constant (matcher_value_to_edn w) v then Some ∅ else None.
Proof. by destruct w. Qed.

(** A component resolved by the row binds what is fresh, if the rest agrees. *)
Lemma component_resolved c v b :
  (∀ x, String.prefix "?_" x = true → b !! x = None) →
  (∀ s w, c = ESymbol s → b !! s = Some w →
     match_constant (matcher_value_to_edn w) v = value_eq (normalize_join_value w) (normalize_join_value v)) →
  component_binds (apply_binding_to_component c b) v =
  (d ← component_binds c v; if all_agree b d then Some (fresh_part b d) else None).
Proof.
  intros W T.
  assert (fresh_part b ∅ = ∅) as E by (apply map_filter_empty).
  destruct c as [k|s|s|i|f|x|u|l|l|l| |s]; cbn [apply_binding_to_component];
    try (unfold component_binds; destruct (match_constant _ _); cbn; [by rewrite all_agree_empty, E|done]).
  destruct (is_var s) eqn:V.
  - destruct (b !! s) as [w|] eqn:B.
    + rewrite component_binds_constant. unfold component_binds.
      destruct (is_wildcard s) eqn:Wc; [by rewrite (wildcard_unbound b s) in B|]. rewrite V. cbn.
      rewrite all_agree_singleton. unfold agrees. rewrite (var_not_hidden s V), B. cbn [orb].
      rewrite (T s w) by done. destruct (value_eq _ _); [|done]. f_equal. apply map_eq. intros x.
      rewrite fresh_part_lookup, lookup_empty. destruct (decide (x = s)) as [->|Ne]; [by rewrite B|].
      rewrite lookup_singleton_ne by done. by destruct (b !! x).
    + unfold component_binds. destruct (is_wildcard s); cbn; [by rewrite all_agree_empty, E|]. rewrite V. cbn.
      rewrite all_agree_singleton. unfold agrees. rewrite (var_not_hidden s V), B. cbn [orb]. f_equal.
      apply map_eq. intros x. rewrite fresh_part_lookup.
      destruct (decide (x = s)) as [->|Ne]; [by rewrite B|].
      rewrite lookup_singleton_ne by done. by destruct (b !! x).
  - unfold component_binds. destruct (is_wildcard s); cbn; [by rewrite all_agree_empty, E|]. by rewrite V.
Qed.

Lemma attribute_resolved c attr b : (∀ s, c = ESymbol s → b !! s = None) →
  attribute_binds (apply_binding_to_component c b) attr =
  (d ← attribute_binds c attr; if all_agree b d then Some (fresh_part b d) else None).
Proof.
  intros N. assert (fresh_part b ∅ = ∅) as E by (apply map_filter_empty).
  assert (apply_binding_to_component c b = c) as ->.
  { destruct c; try done. cbn. rewrite (N _ eq_refl). by destruct (is_var _). }
  destruct c as [k|s|s|i|f|x|u|l|l|l| |s]; try done.
  - cbn. case_bool_decide; cbn; [by rewrite all_agree_empty, E|done].
  - unfold attribute_binds. destruct (is_wildcard s); cbn; [by rewrite all_agree_empty, E|].
    destruct (is_var s) eqn:V; [|done]. cbn. rewrite all_agree_singleton. unfold agrees.
    rewrite (var_not_hidden s V), (N s eq_refl). cbn [orb]. f_equal. apply map_eq. intros x.
    rewrite fresh_part_lookup. destruct (decide (x = s)) as [->|Ne]; [by rewrite (N s eq_refl)|].
    rewrite lookup_singleton_ne by done. by destruct (b !! x).
Qed.

Lemma component_vars_resolved c b : component_vars (apply_binding_to_component c b) `sublist_of` component_vars c.
Proof.
  destruct c as [k|s|s|i|f|x|u|l|l|l| |s]; try done. cbn [apply_binding_to_component].
  destruct (is_var s); [|done]. destruct (b !! s) as [w|]; [|done].
  assert (component_vars (matcher_value_to_edn w) = []) as -> by by destruct w. apply sublist_nil_l.
Qed.

Lemma fact_binds_resolved m p a b f :
  pat_attribute p = Real a → join_ok m p b → f ∈ get_facts m →
  fact_binds (apply_bindings_to_pattern p b) f =
  (d ← fact_binds p f; if all_agree b d then Some (fresh_part b d) else None).
Proof.
  intros R [L W A V] F. unfold fact_binds, apply_bindings_to_pattern. cbn. rewrite R in *.
  assert (∀ s w, pat_value p = ESymbol s → b !! s = Some w →
            match_constant (matcher_value_to_edn w) (value f)
            = value_eq (normalize_join_value w) (normalize_join_value (value f))) as TV.
  { intros s w Hs B. destruct (V s w Hs B) as [Nf K]. apply bound_value; [done|]. intros k k'. by apply (K f). }
  rewrite (component_resolved (pat_entity p)); [|done|intros s w _ _; apply bound_entity].
  rewrite attribute_resolved by (intros s ->; by apply A).
  rewrite (component_resolved (pat_value p)) by done.
  unfold pattern_vars in L. rewrite R in L. apply NoDup_app in L as (_ & Dav & (_ & Dv & _)%NoDup_app).
  destruct (component_binds (pat_entity p) (VRef (entity f))) as [de|] eqn:Ee; cbn; [|done].
  destruct (attribute_binds a (attribute f)) as [da|] eqn:Ea; cbn; [|by destruct (all_agree b de)].
  destruct (component_binds (pat_value p) (value f)) as [dv|] eqn:Ev; cbn;
    [|by destruct (all_agree b de), (all_agree b da)].
  apply component_binds_dom in Ee, Ev. apply attribute_binds_dom in Ea.
  assert (da ##ₘ de) as D1 by (apply map_disjoint_dom; set_solver).
  assert (dv ##ₘ da ∪ de) as D2 by (apply map_disjoint_dom; rewrite dom_union_L; set_solver).
  rewrite !all_agree_union by done.
  destruct (all_agree b de), (all_agree b da), (all_agree b dv); cbn; try done.
  f_equal. apply map_eq. intros x. rewrite fresh_part_lookup, !lookup_union, !fresh_part_lookup.
  by destruct (b !! x).
Qed.

(** One fact against one row: the nested loop and the hash join agree. *)
Lemma scan_is_merge m p a b f :
  pat_attribute p = Real a → join_ok m p b → f ∈ get_facts m →
  scan_fact m p b f = (c ← match_fact_against_pattern m f p; merge_rows b c).
Proof.
  intros R J F. unfold scan_fact.
  assert (pat_attribute (apply_bindings_to_pattern p b) = Real (apply_binding_to_component a b)) as R'.
  { cbn. by rewrite R. }
  rewrite (match_fact_linear m f p a R (jo_linear _ _ _ J)).
  rewrite (match_fact_linear m f _ _ R').
  2: { apply (sublist_NoDup _ (pattern_vars p)); [apply J|]. unfold pattern_vars. rewrite R', R.
       repeat apply sublist_app; apply component_vars_resolved. }
  rewrite (fact_binds_resolved m p a) by done.
  destruct (fact_binds p f) as [d|] eqn:D; cbn; [|done].
  assert (∀ x, is_Some (d !! x) → is_hidden x = false) as H.
  { unfold fact_binds in D. rewrite R in D.
    destruct (component_binds (pat_entity p) _) as [de|] eqn:Ee; [|done].
    destruct (attribute_binds a _) as [da|] eqn:Ea; [|done].
    destruct (component_binds (pat_value p) _) as [dv|] eqn:Ev; [|done]. cbn in D. injection D as <-.
    intros x Hx. apply elem_of_dom in Hx. rewrite !dom_union_L in Hx.
    apply component_binds_dom in Ee, Ev. apply attribute_binds_dom in Ea. rewrite Ee, Ea, Ev in Hx.
    rewrite !elem_of_union, !elem_of_list_to_set in Hx.
    destruct Hx as [Hx|[Hx|Hx]]; by apply component_vars_visible in Hx. }
  assert (∀ x v, (hidden_part m f ∪ d) !! x = Some v →
            (is_hidden x = true ∧ hidden_part m f !! x = Some v) ∨ (is_hidden x = false ∧ d !! x = Some v)) as Split.
  { intros x v [L|[L1 L2]]%lookup_union_Some_raw.
    - left. split; [|done]. by apply (hidden_part_hidden m f); eexists.
    - right. split; [|done]. by apply H; eexists. }
  destruct (all_agree b d) eqn:A; cbn.
  - assert (consistent b (hidden_part m f ∪ fresh_part b d) = true) as ->.
    { unfold consistent. apply forallb_elem. intros [x v] I%elem_of_map_to_list. cbn.
      apply lookup_union_Some_raw in I as [L|[_ L]].
      - by rewrite (hidden_part_hidden m f x) by eauto.
      - rewrite fresh_part_lookup in L. destruct (b !! x); [done|]. by rewrite orb_true_r. }
    assert (is_Some (merge_rows b (hidden_part m f ∪ d))) as [row M].
    { apply merge_rows_is_Some. intros x v [[Hh _]|[Hh L]]%Split; cbn; [by rewrite Hh|].
      rewrite all_agree_true in A. by apply A. }
    rewrite M. f_equal. apply map_eq. intros x. rewrite (merge_rows_lookup _ _ _ _ M).
    rewrite !lookup_union, fresh_part_lookup. unfold merged_lookup.
    destruct (hidden_part m f !! x) as [v|] eqn:Hx.
    + rewrite union_Some_l. rewrite (hidden_part_hidden m f x) by eauto. by destruct (b !! x), (d !! x).
    + destruct (d !! x) as [v|] eqn:Dx; cbn.
      * rewrite (H x) by eauto. by destruct (b !! x).
      * by destruct (b !! x).
  - destruct (merge_rows b (hidden_part m f ∪ d)) as [row|] eqn:M; [|done]. exfalso.
    apply not_true_iff_false in A. apply A. apply all_agree_true. intros x v L.
    assert (is_Some (merge_rows b (hidden_part m f ∪ d))) as S by eauto.
    rewrite merge_rows_is_Some in S. apply S. apply lookup_union_Some_raw. right. split; [|done].
    destruct (hidden_part m f !! x) eqn:Hx; [|done].
    pose proof (hidden_part_hidden m f x) as P. rewrite H in P by eauto. discriminate P. eauto.
Qed.

Lemma build_side_get jvar cs q :
  default [] (hm_get hash_key_eq (build_side jvar cs) q) =
  List.filter (λ c, match (c : Row) !! jvar with
                    | Some v => hash_key_eq q (normalize_join_value v)
                    | None => false
                    end) cs.
Proof.
  unfold build_side.
  set (step := λ side (b : Row), _).
  assert (∀ side, default [] (hm_get hash_key_eq (foldl step side cs) q)
            = default [] (hm_get hash_key_eq side q) ++
              List.filter (λ c, match (c : Row) !! jvar with
                                | Some v => hash_key_eq q (normalize_join_value v)
                                | None => false
                                end) cs) as G; [|by rewrite G].
  induction cs as [|c cs IH]; intros side; cbn; [by rewrite app_nil_r|]. rewrite IH. unfold step.
  destruct (c !! jvar) as [v|]; [|done].
  rewrite (hm_get_push hash_key_eq hash_key_eq_true), <-app_assoc. by destruct (hash_key_eq q _).
Qed.

Lemma normalize_not_float v : is_float_value v = false → is_float_value (normalize_join_value v) = false.
Proof. by destruct v. Qed.

(** The join variable is bound by every candidate, to a value whose hash key
    decides what the merge checks. *)
Lemma join_var_bound m rows p a s b w f c :
  pat_attribute p = Real a → join_var rows p = Some s → join_ok m p b → b !! s = Some w →
  match_fact_against_pattern m f p = Some c →
  ∃ v, c !! s = Some v ∧ is_hidden s = false ∧
       hash_key_eq (normalize_join_value w) (normalize_join_value v)
       = value_eq (normalize_join_value w) (normalize_join_value v).
Proof.
  intros R V J B M.
  assert (is_var s = true ∧ (pat_entity p = ESymbol s ∨ pat_value p = ESymbol s)) as [Vs C].
  { unfold join_var in V. rewrite R in V. unfold bound_component in V.
    destruct (pat_entity p) as [k|e|e|i|x|y|u|l|l|l| |e] eqn:Ee.
    2: destruct (is_var e && _) eqn:Be; [injection V as ->; apply andb_true_iff in Be as [? _]; by eauto|].
    all: destruct (pat_value p) as [k'|e'|e'|i'|x'|y'|u'|l'|l'|l'| |e'] eqn:Ev; try discriminate V.
    all: destruct (is_var e' && _) eqn:Bv; [|discriminate V]; injection V as ->;
      apply andb_true_iff in Bv as [? _]; by eauto. }
  assert (is_wildcard s = false) as Ws.
  { destruct (is_wildcard s) eqn:Ws; [|done].
    rewrite (wildcard_unbound b s (jo_wild _ _ _ J) Ws Vs) in B. discriminate B. }
  pose proof (var_not_hidden s Vs) as Hs.
  rewrite (match_fact_linear m f p a R (jo_linear _ _ _ J)) in M.
  pose proof (jo_linear _ _ _ J) as L. unfold pattern_vars in L. unfold fact_binds in M. rewrite R in *.
  apply NoDup_app in L as (_ & Dav & (_ & Dv & _)%NoDup_app).
  destruct (component_binds (pat_entity p) (VRef (entity f))) as [de|] eqn:Ee; [|done]. cbn in M.
  destruct (attribute_binds a (attribute f)) as [da|] eqn:Ea; [|done]. cbn in M.
  destruct (component_binds (pat_value p) (value f)) as [dv|] eqn:Ev; [|done]. cbn in M. injection M as <-.
  assert (hidden_part m f !! s = None) as Hn.
  { destruct (hidden_part m f !! s) eqn:E; [|done]. rewrite (hidden_part_hidden m f s) in Hs by eauto. done. }
  pose proof (component_binds_dom _ _ _ Ev) as Dmv. pose proof (attribute_binds_dom _ _ _ Ea) as Dma.
  destruct C as [C|C].
  - rewrite C in Ee, Dav. unfold component_vars in Dav. unfold component_binds in Ee.
    rewrite Ws, Vs in *. injection Ee as <-. cbn in Dav.
    exists (VRef (entity f)). split_and!; [|done|].
    + rewrite lookup_union_r by done.
      rewrite lookup_union_r by (apply not_elem_of_dom; rewrite Dmv; set_solver).
      rewrite lookup_union_r by (apply not_elem_of_dom; rewrite Dma; set_solver). apply lookup_singleton_eq.
    + apply hash_key_eq_value_eq. by right.
  - pose proof Ev as Ev'. rewrite C in Ev'. unfold component_binds in Ev'. rewrite Ws, Vs in Ev'. injection Ev' as <-.
    exists (value f). split_and!; [|done|].
    + rewrite lookup_union_r by done. by rewrite lookup_union, lookup_singleton_eq, union_Some_l.
    + apply hash_key_eq_value_eq. left. apply normalize_not_float. by apply (jo_value _ _ _ J s w C).
Qed.

Lemma omap_filter_omap {A} (g : A → option (gmap string Value)) (h k : gmap string Value → option (gmap string Value))
    (test : gmap string Value → bool) (l : list A) :
  (∀ x c, x ∈ l → g x = Some c → test c = false → h c = None) →
  omap h (List.filter test (omap g l)) = omap (λ x, c ← g x; h c) l.
Proof.
  induction l as [|x l IH]; intros T; [done|]. cbn.
  assert (omap h (List.filter test (omap g l)) = omap (λ x, c ← g x; h c) l) as IH'.
  { apply IH. intros y c I. apply T. by right. }
  destruct (g x) as [c|] eqn:G; cbn; [|done]. destruct (test c) eqn:E; cbn; [by rewrite IH'|].
  rewrite (T x c) by (left || done). done.
Qed.

Lemma probe_row_scan m rows p s b : join_var rows p = Some s → join_ok m p b →
  probe_row m p s (build_side s (match_pattern m p)) b = match_pattern_with_bindings m p b.
Proof.
  intros V J. unfold probe_row. destruct (b !! s) as [w|] eqn:B; [|done].
  destruct (pat_attribute p) as [a|ps] eqn:R.
  2: { unfold join_var in V. by rewrite R in V. }
  rewrite build_side_get. unfold match_pattern_with_bindings. rewrite R. unfold match_pattern_with_bindings_scan, match_pattern.
  rewrite (omap_filter_omap (λ f, match_fact_against_pattern m f p) (merge_rows b) (merge_rows b)).
  - apply omap_ext_in. intros f F. symmetry. by apply (scan_is_merge m p a).
  - intros f c F M T. destruct (join_var_bound m rows p a s b w f c) as (v & Cs & Hs & E); try done.
    rewrite Cs, E in T. destruct (merge_rows b c) eqn:Mr; [|done]. exfalso.
    assert (is_Some (merge_rows b c)) as S by eauto. rewrite merge_rows_is_Some in S.
    specialize (S s v Cs). cbn in S. by rewrite Hs, B, T in S.
Qed.

Lemma join_is_nested_loop m rows p : (∀ b, b ∈ rows → join_ok m p b) →
  join_with_pattern m rows p = flat_map (match_pattern_with_bindings m p) rows.
Proof.
  intros J. unfold join_with_pattern. destruct rows as [|r rows]; [done|].
  destruct (join_var (r :: rows) p) as [s|] eqn:V; [|done].
  apply flat_map_ext_in. intros b I. apply (probe_row_scan m (r :: rows)); [done|by apply J].
Qed.

(** * Properties *)

(** C34: the hash join is the nested loop.  Joining rows with a pattern over the
    normalized value of the shared variable returns the same rows in the same order
    as trying every fact against every row, when no row binds a wildcard or the
    attribute's variable, the pattern repeats no variable, and the value position
    is bound to no float and to no keyword whose identity another keyword of the
    facts shares. *)
Theorem hash_join_is_nested_loop m rows p : (∀ b, b ∈ rows → join_ok m p b) →
  join_with_pattern m rows p = flat_map (match_pattern_with_bindings m p) rows.
Proof. apply join_is_nested_loop. Qed.

Lemma match_patterns_bounded_Ok m ps seed max_results rows : 0 ≤ max_results →
  match_patterns_bounded m ps seed max_results = Ok rows →
  rows = foldl (join_with_pattern m) seed ps ∧ Z.of_nat (length rows) ≤ max_results.
Proof.
  intros P. unfold match_patterns_bounded. destruct (Z.ltb_spec max_results (Z.of_nat (length seed))); [done|].
  revert seed H; induction ps as [|p ps IH]; intros seed H; cbn; [by intros [= <-]|].
  rewrite join_bounded_spec by done. intros (next & (? & _ & E)%bind_Ok & F)%bind_Ok. unfold within in E.
  destruct (Z.leb_spec (Z.of_nat (length (join_with_pattern m seed p))) max_results); [|done].
  injection E as <-. by apply IH.
Qed.
Lemma match_patterns_bounded_Err m ps seed max_results e : 0 ≤ max_results →
  match_patterns_bounded m ps seed max_results = Err e → e = BINDING_LIMIT.
Proof.
  intros P. unfold match_patterns_bounded. destruct (max_results <? _); [by intros [= <-]|].
  revert seed; induction ps as [|p ps IH]; intros seed; cbn [foldR]; [done|].
  destruct (join_with_pattern_bounded m seed p max_results) as [next|e'] eqn:J; cbn [mbind result_bind]; [apply IH|].
  intros [= ->]. rewrite join_bounded_spec in J by done.
  destruct seed as [|b seed]; cbn in J; [unfold within in J; destruct (_ <=? _); by simplify_eq|].
  destruct (join_var (b :: seed) p); [rewrite match_pattern_bounded_spec in J by done|]; unfold within in J; cbn in J;
    repeat (destruct (_ <=? max_results); cbn in J); by simplify_eq.
Qed.

(** A bounded match never returns an incomplete result.  It returns exactly
    the rows of the unbounded match, which are then within the limit, or it refuses;
    and one pattern or one join is refused only when its own result or, in a hash
    join, the pattern's candidates exceed the limit. *)
Theorem bounded_match_complete m max_results : 0 ≤ max_results →
  (∀ p, match_pattern_bounded m p max_results = within max_results (match_pattern m p)) ∧
  (∀ rows p, join_with_pattern_bounded m rows p max_results =
     (_ ← match rows, join_var rows p with
          | _ :: _, Some _ => within max_results (match_pattern m p)
          | _, _ => Ok []
          end;
      within max_results (join_with_pattern m rows p))) ∧
  (∀ ps seed rows, match_patterns_bounded m ps seed max_results = Ok rows →
     rows = foldl (join_with_pattern m) seed ps ∧ Z.of_nat (length rows) ≤ max_results).
Proof.
  intros P. split; [|split].
  - intros p. by apply match_pattern_bounded_spec.
  - intros rows p. rewrite join_bounded_spec by done.
    destruct rows as [|r rows]; [done|]. destruct (join_var (r :: rows) p); [|done].
    by rewrite match_pattern_bounded_spec.
  - intros ps seed rows. by apply match_patterns_bounded_Ok.
Qed.
End matcher.

(** Two people, one the friend of the other. *)
Definition sample_facts : list Fact := [
  mkFact 1 ":friend" (VRef 2) 0 1 0 100 true;
  mkFact 2 ":name" (VString "Bob") 0 2 0 100 true;
  mkFact 1 ":name" (VString "Alice") 0 2 0 100 true].
Definition friend_pattern : Pattern := pattern_new (ESymbol "?x") (EKeyword ":friend") (ESymbol "?y").
Definition name_pattern : Pattern := pattern_new (ESymbol "?y") (EKeyword ":name") (ESymbol "?n").
Definition no_uuid : string → option Z := λ _, None.
Definition v5_stub : string → Z := λ k, Z.of_nat (String.length k).
Definition print_stub : Z → string := λ _, ""%string.

Lemma hash_join_is_nested_loop_witness :
  let m := from_slice sample_facts in
  join_with_pattern no_uuid v5_stub print_stub m
    [<["?x" := VRef 1]> (<["?y" := VRef 2]> ∅)]%string name_pattern
  = [<["?n" := VString "Bob"]> (<["?x" := VRef 1]> (<["?y" := VRef 2]> ∅))]%string.
Proof.
  intros m. rewrite (hash_join_is_nested_loop no_uuid v5_stub print_stub m).
  - vm_compute. reflexivity.
  - intros b ->%list_elem_of_singleton. split.
    + apply (bool_decide_unpack _). vm_compute. exact I.
    + intros x Hx. rewrite !lookup_insert_ne; [done|intros <-; discriminate Hx..].
    + intros s [= <-].
    + intros s w [= <-]. by vm_compute.
Defined.
Lemma bounded_match_complete_witness :
  match_pattern_bounded no_uuid v5_stub print_stub (from_slice sample_facts) name_pattern 1 = Err BINDING_LIMIT.
Proof.
  rewrite (proj1 (bounded_match_complete no_uuid v5_stub print_stub (from_slice sample_facts) 1 ltac:(lia))).
  vm_compute. reflexivity.
Defined.
