(* ===== verification/AccessPlan.v ===== *)
(** Query access plans (src/src/query/datalog/access_plan.rs): which index
    ranges a query needs, and reading them as the source of the query.

    The theorem says that planning loses nothing: whatever a pattern of the
    query can match, under any bindings, is visible in the view of the selected
    facts exactly when it is visible in the view of the whole log. *)
From S2P Require Import Prelude Types ValueCodec NetView SortedRuns Index PendingOverlay FactStore Lookup CurrentState QueryTypes Floats HashKeys Functions Expressions Matcher.
Set Default Proof Using "Type".

Definition MAX_SELECTIVE_LOOKUPS : nat := 16.
Definition MAX_SELECTIVE_ENTITY_LOOKUPS : nat := 128.

Inductive QueryLookup : Type := LEntity (e : EntityId) | LAttribute (a : Attribute).
(** The derived order: entities first. *)
Definition lookup_rank (l : QueryLookup) : Z * (Z * string) :=
  match l with LEntity e => (0, (e, ""%string)) | LAttribute a => (1, (0, a)) end.
#[export] Instance QueryLookup_ord : Ord QueryLookup := cmp_on lookup_rank.
#[export] Instance QueryLookup_laws : OrdLaws QueryLookup.
Proof.
  assert (Inj (=) (=) lookup_rank) by (intros [] [] [=]; congruence).
  exact (cmp_on_laws lookup_rank).
Qed.

Inductive QueryAccessPlan : Type := FullScan | Selective (lookups : list QueryLookup).
Definition is_full_scan (p : QueryAccessPlan) : bool := match p with FullScan => true | _ => false end.
Definition is_entity_lookup (l : QueryLookup) : bool := match l with LEntity _ => true | _ => false end.
Definition browser_demand_batch_pages (p : QueryAccessPlan) : Z :=
  match p with
  | FullScan => 0
  | Selective lookups => if existsb (λ l, negb (is_entity_lookup l)) lookups then 64 else 8
  end.

(** A fold that stops at the first [None]. *)
Definition foldO {A S} (f : A → S → option S) : list A → S → option S :=
  fix go l s := match l with [] => Some s | x :: l => s ← f x s; go l s end.

Abbreviation LedgerIdentity := (Z * string * bytes * Z * Z * Z * Z * bool)%type (only parsing).

Section plan.
Context (parse_str : string → option Z) (new_v5_oid : string → Z).

Definition pattern_lookup (p : Pattern) : option (option QueryLookup) :=
  let bound_entity := match pat_entity p with
                      | EUuid e => Some e
                      | EKeyword k => Some (keyword_id parse_str new_v5_oid k)
                      | _ => None
                      end in
  match bound_entity with
  | Some e => Some (Some (LEntity e))
  | None => match pat_attribute p with
            | Real (EKeyword a) => Some (Some (LAttribute a))
            | Pseudo _ => Some None
            | Real _ => None
            end
  end.

(** [BTreeSet::insert]. *)
Definition set_insert (l : QueryLookup) (s : list (QueryLookup * unit)) : list (QueryLookup * unit) :=
  bt_insert l () s.

Fixpoint collect_clause (c : WhereClause) (lookups : list (QueryLookup * unit))
    : option (list (QueryLookup * unit)) :=
  match c with
  | CPattern p =>
    match pattern_lookup p with
    | Some (Some l) => Some (set_insert l lookups)
    | Some None => Some lookups
    | None => None
    end
  | Not inner | NotJoin _ inner => foldO collect_clause inner lookups
  | Or branches | OrJoin _ branches => foldO (foldO collect_clause) branches lookups
  | RuleInvocation _ _ => None
  | CExpr _ _ => Some lookups
  end.
Definition collect_lookups : list WhereClause → list (QueryLookup * unit) → option (list (QueryLookup * unit)) :=
  foldO collect_clause.

Definition for_query (q : DatalogQuery) : QueryAccessPlan :=
  if uses_rules q then FullScan
  else match collect_lookups (q_where q) [] with
       | None | Some [] => FullScan
       | Some set =>
         let lookups := set.*1 in
         let lookup_limit := if forallb is_entity_lookup lookups then MAX_SELECTIVE_ENTITY_LOOKUPS
                             else MAX_SELECTIVE_LOOKUPS in
         if (lookup_limit <? length lookups)%nat then FullScan else Selective lookups
       end.

(** * Reading the facts of a plan *)

Definition ledger_identity (f : Fact) : LedgerIdentity :=
  (entity f, attribute f, encode_value (value f), valid_from f, valid_to f, tx_count f, tx_id f, asserted f).

Definition lookup_bounded (s : FactStorage) (max_facts : Z) (l : QueryLookup) : result (list Fact) :=
  match l with
  | LEntity e => get_facts_by_entity_bounded s e max_facts
  | LAttribute a => get_facts_by_attribute_bounded s a max_facts
  end.
(** One candidate: kept unless its identity was seen; the first one past the
    bound is an error. *)
Definition admit_candidate (max_facts : Z) (st : gset LedgerIdentity * list Fact) (f : Fact)
    : result (gset LedgerIdentity * list Fact) :=
  let '(seen, facts) := st in
  if bool_decide (ledger_identity f ∈ seen) then Ok (seen, facts)
  else if max_facts <=? Z.of_nat (length facts) then Err TOO_MANY
  else Ok ({[ledger_identity f]} ∪ seen, facts ++ [f]).

Definition read_facts_bounded (p : QueryAccessPlan) (s : FactStorage) (max_facts : Z) : result (list Fact) :=
  match p with
  | FullScan => get_all_facts_bounded s max_facts
  | Selective [lookup] => lookup_bounded s max_facts lookup
  | Selective lookups =>
    '(_, facts) ← foldR (λ st l, candidates ← lookup_bounded s max_facts l;
                         foldR (admit_candidate max_facts) st candidates) (∅, []) lookups;
    Ok facts
  end.
Definition plan_read_facts (p : QueryAccessPlan) (s : FactStorage) : result (list Fact) :=
  read_facts_bounded p s u64_MAX.

(** * What a plan covers *)

(** Every pattern of a body, inside negations and branches too. *)
Fixpoint clause_patterns (c : WhereClause) : list Pattern :=
  match c with
  | CPattern p => [p]
  | RuleInvocation _ _ | CExpr _ _ => []
  | Not cs | NotJoin _ cs => flat_map clause_patterns cs
  | Or bs | OrJoin _ bs => flat_map (flat_map clause_patterns) bs
  end.
Definition query_patterns (q : DatalogQuery) : list Pattern := flat_map clause_patterns (q_where q).
Definition is_real (p : Pattern) : bool := match pat_attribute p with Real _ => true | _ => false end.

Definition admits (l : QueryLookup) (f : Fact) : bool :=
  match l with
  | LEntity e => entity f =? e
  | LAttribute a => bool_decide (attribute f = a)
  end.
(** The keys the index scans are exact for. *)
Definition lookup_ok (l : QueryLookup) : Prop :=
  match l with
  | LEntity e => u128_ok e ∧ e ≠ 2 ^ 128 - 1
  | LAttribute a => utf8_valid (as_bytes a) = true
  end.
Definition plan_ok (p : QueryAccessPlan) : Prop :=
  match p with FullScan => True | Selective lookups => Forall lookup_ok lookups end.

(** Both sets of lookups grow only. *)
Definition covers (p : Pattern) (set : list (QueryLookup * unit)) : Prop :=
  is_real p = true → ∃ l, pattern_lookup p = Some (Some l) ∧ l ∈ set.*1.

Lemma foldO_covers {A} (f : A → list (QueryLookup * unit) → option (list (QueryLookup * unit)))
    (pats : A → list Pattern) (l : list A) s t :
  Forall (λ x, ∀ s t, f x s = Some t → (∀ y, y ∈ s.*1 → y ∈ t.*1) ∧ ∀ p, p ∈ pats x → covers p t) l →
  foldO f l s = Some t → (∀ y, y ∈ s.*1 → y ∈ t.*1) ∧ ∀ p, p ∈ flat_map pats l → covers p t.
Proof.
  intros F; revert s. induction F as [|x l Hx F IH]; intros s E; cbn in E.
  - injection E as ->. split; [done|]. intros p P. by apply elem_of_nil in P.
  - apply bind_Some in E as (u & E1 & E2). destruct (Hx _ _ E1) as [G1 C1]. destruct (IH _ E2) as [G2 C2].
    split; [auto|]. intros p [P|P]%elem_of_app; [|auto]. intros R. destruct (C1 p P R) as (y & ? & ?). eauto.
Qed.

Lemma collect_clause_covers c s t : collect_clause c s = Some t →
  (∀ y, y ∈ s.*1 → y ∈ t.*1) ∧ ∀ p, p ∈ clause_patterns c → covers p t.
Proof.
  revert s t. induction c as [p|q args|cs IH|vs cs IH|e b|bs IH|vs bs IH] using where_ind; intros s t E; cbn in E.
  - destruct (pattern_lookup p) as [[l|]|] eqn:P; [| |done]; injection E as <-; cbn [clause_patterns].
    + split; [intros y Y; apply bt_insert_dom; auto|]. intros p' ->%list_elem_of_singleton _.
      exists l. split; [done|]. apply bt_insert_dom. auto.
    + split; [done|]. intros p' ->%list_elem_of_singleton R. unfold pattern_lookup in P. unfold is_real in R.
      repeat case_match; simplify_eq.
  - done.
  - eapply foldO_covers; [|exact E]. done.
  - eapply foldO_covers; [|exact E]. done.
  - injection E as <-. split; [done|]. intros p P. by apply elem_of_nil in P.
  - eapply foldO_covers; [|exact E]. eapply Forall_impl; [exact IH|]. intros b Hb u v Eb.
    eapply foldO_covers; [|exact Eb]. done.
  - eapply foldO_covers; [|exact E]. eapply Forall_impl; [exact IH|]. intros b Hb u v Eb.
    eapply foldO_covers; [|exact Eb]. done.
Qed.

Lemma for_query_covers q lookups p :
  for_query q = Selective lookups → p ∈ query_patterns q → is_real p = true →
  ∃ l, l ∈ lookups ∧ pattern_lookup p = Some (Some l).
Proof.
  unfold for_query. destruct (uses_rules q); [done|].
  destruct (collect_lookups (q_where q) []) as [set|] eqn:E; [|done]. intros H P R.
  assert (set.*1 = lookups) as <-.
  { destruct set as [|x set]; [done|]. by destruct (_ <? _)%nat; simplify_eq. }
  destruct (foldO_covers _ clause_patterns _ _ _ ltac:(apply Forall_forall; intros ????; by apply collect_clause_covers) E)
    as [_ C].
  destruct (C p P R) as (l & L & I). eauto.
Qed.

(** A fact that a real pattern matches under some bindings is in the range of
    the pattern's lookup. *)
Lemma matched_is_admitted uuid_to_string m p b f row l :
  scan_fact parse_str new_v5_oid uuid_to_string m p b f = Some row →
  is_real p = true → pattern_lookup p = Some (Some l) → admits l f = true.
Proof.
  intros E R L. unfold scan_fact in E. apply bind_Some in E as (d & E & _).
  unfold match_fact_against_pattern in E. apply bind_Some in E as (b1 & E1 & E).
  unfold is_real in R. destruct p as [pe pa pv vf vt]. cbn in *. destruct pa as [a|]; [|done].
  apply bind_Some in E as (b2 & E2 & _). unfold pattern_lookup in L. cbn in L.
  destruct pe; cbn in E1; simplify_eq/=; try (
    destruct a; simplify_eq/=; case_bool_decide; simplify_eq; by apply bool_decide_eq_true).
  - apply Z.eqb_eq. destruct (keyword_id _ _ _ =? _) eqn:K; [|done]. symmetry. by apply Z.eqb_eq.
  - apply Z.eqb_eq. destruct (u =? _) eqn:K; [|done]. symmetry. by apply Z.eqb_eq.
Qed.
End plan.

(** * The same class of facts gives the same view *)

(** Equal in everything the temporal filters look at. *)
Definition alike (g f : Fact) : Prop :=
  window_key g = window_key f ∧ tx_count g = tx_count f ∧ tx_id g = tx_id f ∧ asserted g = asserted f.
Definition same_class (c : Fact → bool) (l l' : list Fact) : Prop :=
  ∀ f, c f = true → (∃ g, g ∈ l ∧ alike g f) ↔ (∃ g, g ∈ l' ∧ alike g f).
Definition nonneg (l : list Fact) : Prop := ∀ g, g ∈ l → 0 ≤ tx_count g.

Lemma cancels_eav g f : cancels g f = true → entity g = entity f ∧ attribute g = attribute f.
Proof.
  unfold cancels. intros [_ C]%andb_prop.
  destruct (is_unscoped_window _ _); apply bool_decide_eq_true in C; unfold window_key, eav_key in C; by simplify_eq.
Qed.

Lemma cancels_window g f h : window_key g = window_key f → cancels h g = cancels h f.
Proof. intros [= E1 E2 E3 E4 E5]. unfold cancels, window_key, eav_key. by rewrite E1, E2, E3, E4, E5. Qed.
Lemma cancels_alike g g' f : window_key g = window_key g' → asserted g = asserted g' → cancels g f = cancels g' f.
Proof. intros [= E1 E2 E3 E4 E5] A. unfold cancels, window_key, eav_key. by rewrite E1, E2, E3, E4, E5, A. Qed.

Section views.
Context (c : Fact → bool).
Hypothesis c_eav : ∀ f g, entity g = entity f → attribute g = attribute f → c f = true → c g = true.

Lemma visible_class l l' f : same_class c l l' → c f = true → visible l f → ∃ g, visible l' g ∧ alike g f.
Proof using c_eav.
  intros E C (I & A & P & V). destruct (proj1 (E f C)) as (g & G & Wg & Tg & Xg & Ag); [by exists f|].
  exists g. split; [|done]. split_and!; [done|congruence|congruence|]. intros h H X.
  rewrite (cancels_window _ _ _ Wg) in X. destruct (cancels_eav _ _ X) as [Xe Xa].
  destruct (proj2 (E h (c_eav f h Xe Xa C))) as (k & K & Wk & Tk & _ & Ak); [by exists h|].
  rewrite Tg, <-Tk. apply V; [done|]. by rewrite (cancels_alike k h).
Qed.

Lemma net_class l l' f : nonneg l → nonneg l' → same_class c l l' → c f = true →
  f ∈ net_asserted_facts l → ∃ g, g ∈ net_asserted_facts l' ∧ window_key g = window_key f.
Proof using c_eav.
  intros N N' E C I. destruct (visible_class l l' f E C) as (g & G & W & _); [by apply net_visible|].
  destruct (visible_net l' g N' G) as (h & H & Wh). exists h. split; [done|congruence].
Qed.

Lemma filter_as_of_class l l' a : same_class c l l' →
  same_class c (filter_facts_as_of l a) (filter_facts_as_of l' a).
Proof using.
  intros E f C. unfold filter_facts_as_of.
  assert (∀ g, alike g f → fact_visible_as_of a g = fact_visible_as_of a f) as K.
  { intros g (_ & T & X & _). unfold fact_visible_as_of. by rewrite T, X. }
  destruct (fact_visible_as_of a f) eqn:F.
  - transitivity (∃ g, g ∈ l ∧ alike g f); [|rewrite (E f C)]; split; intros (g & G & Al); exists g;
      (split; [|done]); try (apply elem_of_List_filter in G; by destruct G);
      apply elem_of_List_filter; (split; [by rewrite K|done]).
  - split; intros (g & [G _]%elem_of_List_filter & Al); by rewrite K in G.
Qed.

Lemma as_of_class l l' (o : option AsOf) : same_class c l l' →
  same_class c (match o with Some a => filter_facts_as_of l a | None => l end)
               (match o with Some a => filter_facts_as_of l' a | None => l' end).
Proof using. destruct o; [apply filter_as_of_class|done]. Qed.
Lemma as_of_nonneg l (o : option AsOf) : nonneg l →
  nonneg (match o with Some a => filter_facts_as_of l a | None => l end).
Proof using. intros N g G. destruct o; [|by apply N]. apply filter_as_of_tx in G. by apply N. Qed.

Lemma point_view_class t n n' f :
  (∀ g, c g = true → g ∈ n → ∃ h, h ∈ n' ∧ window_key h = window_key g) → c f = true →
  eav_key f ∈ eav_key <$> coalesce_point_in_time_facts (List.filter (valid_at_test t) n) →
  eav_key f ∈ eav_key <$> coalesce_point_in_time_facts (List.filter (valid_at_test t) n').
Proof using c_eav.
  intros W C. destruct (coalesce_spec (List.filter (valid_at_test t) n)) as (_ & _ & ->).
  destruct (coalesce_spec (List.filter (valid_at_test t) n')) as (_ & _ & ->). rewrite !list_elem_of_fmap.
  intros (g & Eg & [T G]%elem_of_List_filter). pose proof Eg as [= E1 E2 _].
  destruct (W g (c_eav f g ltac:(done) ltac:(done) C) G) as (h & Hh & Eh). pose proof Eh as [= K1 K2 K3 K4 K5].
  exists h. split; [unfold eav_key in *; congruence|]. apply elem_of_List_filter. split; [|done].
  unfold valid_at_test in *. by rewrite K4, K5.
Qed.

(** The half of the comparison of two views that is proved for both orders. *)
Lemma view_class now o va l l' V V' f :
  nonneg l → nonneg l' → same_class c l l' → c f = true →
  filter_facts_for_query now o va l = Ok V → filter_facts_for_query now o va l' = Ok V' →
  (eav_key f ∈ eav_key <$> V → eav_key f ∈ eav_key <$> V') ∧
  (va = Some AnyValidTime → window_key f ∈ window_key <$> V → window_key f ∈ window_key <$> V').
Proof using c_eav.
  intros N N' E C. apply (as_of_class _ _ o) in E. apply (as_of_nonneg _ o) in N. apply (as_of_nonneg _ o) in N'.
  unfold filter_facts_for_query. revert N N' E.
  generalize (match o with Some a => filter_facts_as_of l a | None => l end).
  generalize (match o with Some a => filter_facts_as_of l' a | None => l' end). intros m' m N N' E Ev Ev'.
  assert (∀ g, c g = true → g ∈ net_asserted_facts m →
    ∃ h, h ∈ net_asserted_facts m' ∧ window_key h = window_key g) as W.
  { intros g Cg G. by apply (net_class m). }
  assert (∀ g, (c f = true → entity g = entity f → attribute g = attribute f → c g = true)) as Cf by (intros; by apply (c_eav f)).
  destruct va as [[t| |]|]; simplify_eq/=; (split; [|try done]); try by apply point_view_class.
  - rewrite !list_elem_of_fmap. intros (g & Eg & G). pose proof Eg as [= E1 E2 _].
    destruct (W g ltac:(by apply Cf) G) as (h & Hh & [= K1 K2 K3 K4 K5]). exists h. split; [|done].
    unfold eav_key in *. congruence.
  - intros _. rewrite !list_elem_of_fmap. intros (g & Eg & G). pose proof Eg as [= E1 E2 _ _ _].
    destruct (W g ltac:(by apply Cf) G) as (h & Hh & Eh). exists h. split; [congruence|done].
Qed.
End views.

(** * Reading the store *)

Lemma push_filtered mx a facts acc :
  Z.of_nat (length acc) ≤ mx →
  foldR (λ facts f, if bool_decide (attribute f = a) then push_bounded_query_fact mx facts f else Ok facts) acc facts =
  foldR (push_bounded_query_fact mx) acc (List.filter (λ f, bool_decide (attribute f = a)) facts).
Proof. intros _. apply foldR_guard. Qed.

Section store.
Context (hasher : EavtKey → Z) (s : FactStorage) (log : list Fact) (rows : list (Fact * FactRef)).
Hypothesis Ok_s : store_ok hasher s log.
Hypothesis Ok_log : Forall fact_ok log.
Hypothesis Backed : backed_by s rows.

(** What one lookup returns: part of the log with every fact it is asked for,
    or the error when the log is larger than the bound. *)
Definition lookup_result (mx : Z) (l : QueryLookup) (r : result (list Fact)) : Prop :=
  match r with
  | Ok fs => (∀ f, f ∈ fs → f ∈ log) ∧ (∀ f, f ∈ log → admits l f = true → f ∈ fs)
  | Err e => e = TOO_MANY ∧ mx < Z.of_nat (length log)
  end.

Lemma attribute_bounded mx a : utf8_valid (as_bytes a) = true → 0 ≤ mx →
  ∃ fs gs, fs ≡ₚ List.filter (λ f, coveredb a (attribute f)) (overlay_facts (pending s)) ∧
    gs ≡ₚ List.filter (λ f, coveredb a (attribute f)) rows.*1 ∧
    get_facts_by_attribute_bounded s a mx =
      if Z.of_nat (length fs + length gs) <=? mx
      then Ok (fs ++ List.filter (λ f, bool_decide (attribute f = a)) gs) else Err TOO_MANY.
Proof using All.
  intros U M. destruct (attribute_pending hasher s log Ok_s Ok_log a U) as (fs & E & P).
  unfold get_facts_by_attribute_bounded. rewrite (push_pending s _ _ _ M E).
  destruct Backed as [C|[[C I] ->]].
  - destruct (cr_index _ _ C) as (ix & Ei & Si). rewrite Ei.
    destruct (visits_aevt (rows := rows) (attribute_low a) (attribute_low <$> next_string_prefix a)
      (attribute_ordered a U)) as (l & Pl & _ & Ev).
    pose proof (attribute_committed s rows a C U) as Pr. rewrite <-Pl in Pr.
    destruct (resolved_rows s rows (λ f, coveredb a (attribute f)) _ C Pr) as (gs & Eg & Pg).
    exists fs, gs. split_and!; [done|by rewrite Pg|].
    rewrite <-fst_filter in Pg. apply Permutation_length in Pr, Pg. rewrite !length_fmap in Pr. rewrite length_fmap in Pg.
    destruct (Z.leb_spec (Z.of_nat (length fs)) mx); cbn [mbind result_bind].
    2: { by rewrite (proj2 (Z.leb_gt (Z.of_nat (length fs + length gs)) mx)) by lia. }
    rewrite Ev, collect_refs by (cbn; lia).
    rewrite length_fmap, Nat.add_0_r, Pr, <-Pg.
    destruct (Z.leb_spec (Z.of_nat (length fs + length gs)) mx); cbn [mbind result_bind]; [|done].
    rewrite <-list_fmap_compose. rewrite (foldR_mapR _ _ _ gs _ Eg), push_filtered, push_all by lia.
    rewrite (proj2 (Z.leb_le _ _)); [done|].
    pose proof (filter_length_le (λ f, bool_decide (attribute f = a)) gs). lia.
  - rewrite I, C. exists fs, []. split_and!; [done|done|]. rewrite Nat.add_0_r. cbn [List.filter]. rewrite app_nil_r.
    by destruct (Z.of_nat (length fs) <=? mx).
Qed.

Lemma lookup_bounded_result mx l : lookup_ok l → 0 ≤ mx → lookup_result mx l (lookup_bounded s mx l).
Proof using All.
  intros Lo M. pose proof (backed_log hasher s log Ok_s Ok_log rows Backed) as Lg. destruct l as [e|a]; cbn in Lo |- *.
  - destruct Lo as [U N].
    destruct (get_facts_by_entity_bounded_lemma hasher s log Ok_s Ok_log rows e mx Backed U N M) as (fs & P & ->).
    destruct (Z.leb_spec (Z.of_nat (length fs)) mx); cbn.
    + split; intros f; rewrite P, elem_of_List_filter; naive_solver.
    + split; [done|]. apply Permutation_length in P. pose proof (filter_length_le (λ f, entity f =? e) log). lia.
  - destruct (attribute_bounded mx a Lo M) as (fs & gs & P & Q & ->).
    destruct (Z.leb_spec (Z.of_nat (length fs + length gs)) mx); cbn.
    + split; intros f; rewrite Lg, !elem_of_app, P, ?elem_of_List_filter, Q, ?elem_of_List_filter; [naive_solver|].
      intros [I|I] A; [right|left]; [|by apply bool_decide_eq_true in A as <-; split; [apply coveredb_spec, covered_refl|]].
      split; [done|]. split; [|done]. apply bool_decide_eq_true in A as <-. apply coveredb_spec, covered_refl.
    + split; [done|]. apply Permutation_length in P, Q. rewrite Lg, length_app.
      pose proof (filter_length_le (λ f, coveredb a (attribute f)) rows.*1).
      pose proof (filter_length_le (λ f, coveredb a (attribute f)) (overlay_facts (pending s))). lia.
Qed.

(** No two facts of the log collide in their value encoding. *)
Definition encodings_distinct : Prop :=
  ∀ f g, f ∈ log → g ∈ log → encode_value (value f) = encode_value (value g) → canonical (value f) = canonical (value g).
Hypothesis Distinct : encodings_distinct.

Lemma identity_alike f g : f ∈ log → g ∈ log → ledger_identity f = ledger_identity g → alike f g.
Proof using Distinct.
  intros F G [= E1 E2 E3 E4 E5 E6 E7 E8]. split_and!; [|done..]. unfold window_key, eav_key.
  by rewrite E1, E2, E4, E5, (Distinct f g).
Qed.

(** The facts admitted so far: members of the log with pairwise different
    identities, which are the ones seen. *)
Record admitted_ok (mx : Z) (st : gset LedgerIdentity * list Fact) : Prop := {
  ad_log : ∀ f, f ∈ st.2 → f ∈ log;
  ad_nodup : NoDup (ledger_identity <$> st.2);
  ad_seen : ∀ i, i ∈ st.1 ↔ i ∈ ledger_identity <$> st.2;
}.
Definition holds_alike (fs : list Fact) (f : Fact) : Prop := ∃ g, g ∈ fs ∧ alike g f.

(** Pairwise different identities of the log are no more than its facts. *)
Lemma identities_bounded fs : NoDup (ledger_identity <$> fs) → (∀ f, f ∈ fs → f ∈ log) → (length fs ≤ length log)%nat.
Proof using.
  intros N I. rewrite <-(length_fmap ledger_identity fs), <-(length_fmap ledger_identity log).
  apply submseteq_length, NoDup_submseteq; [done|]. intros i (f & -> & F)%list_elem_of_fmap.
  apply list_elem_of_fmap_2, I, F.
Qed.

Lemma admit_candidates mx fs st : admitted_ok mx st → (∀ f, f ∈ fs → f ∈ log) →
  match foldR (admit_candidate mx) st fs with
  | Ok st' => admitted_ok mx st' ∧ (∀ f, f ∈ st.2 → f ∈ st'.2) ∧ (∀ f, f ∈ fs → holds_alike st'.2 f)
  | Err e => e = TOO_MANY ∧ mx < Z.of_nat (length log)
  end.
Proof using Distinct.
  revert st. induction fs as [|f fs IH]; intros [seen facts] A I; cbn [foldR].
  { split_and!; [done..|]. intros f F. by apply elem_of_nil in F. }
  assert (admit_candidate mx (seen, facts) f =
    if bool_decide (ledger_identity f ∈ seen) then Ok (seen, facts)
    else if mx <=? Z.of_nat (length facts) then Err TOO_MANY
    else Ok ({[ledger_identity f]} ∪ seen, facts ++ [f])) as -> by done.
  pose proof A as [Al An As]. cbn [fst snd] in Al, An, As.
  assert (f ∈ log) as Lf by (apply I; constructor).
  destruct (bool_decide (ledger_identity f ∈ seen)) eqn:D; [|destruct (Z.leb_spec mx (Z.of_nat (length facts))) as [B|B]].
  - apply bool_decide_eq_true in D. cbn [mbind result_bind].
    specialize (IH (seen, facts) A ltac:(intros; apply I; by constructor)). destruct (foldR _ _ fs); [|done].
    destruct IH as (A' & G & H). split_and!; [done..|]. intros g [->|Hg]%elem_of_cons; [|auto].
    apply As, list_elem_of_fmap in D as (h & Eh & Hh). exists h. split; [by apply G|]. apply identity_alike; auto.
  - split; [done|]. apply bool_decide_eq_false in D.
    assert (length (facts ++ [f]) ≤ length log)%nat as Q.
    { apply identities_bounded.
      - rewrite fmap_app. apply NoDup_app. split_and!; [done| |by apply NoDup_singleton].
        intros i Hi ->%list_elem_of_singleton. by apply D, As.
      - intros g [G| ->%list_elem_of_singleton]%elem_of_app; auto. }
    rewrite length_app in Q. cbn in Q. lia.
  - apply bool_decide_eq_false in D. cbn [mbind result_bind].
    assert (admitted_ok mx ({[ledger_identity f]} ∪ seen, facts ++ [f])) as A1.
    { split; cbn [fst snd].
      - intros g [G| ->%list_elem_of_singleton]%elem_of_app; auto.
      - rewrite fmap_app. apply NoDup_app. split_and!; [done| |by apply NoDup_singleton].
        intros i Hi ->%list_elem_of_singleton. by apply D, As.
      - intros i. rewrite fmap_app, elem_of_union, elem_of_app, elem_of_singleton, As. cbn [fmap list_fmap]. rewrite list_elem_of_singleton. tauto. }
    specialize (IH _ A1 ltac:(intros; apply I; by constructor)). destruct (foldR _ _ fs); [|done].
    destruct IH as (A' & G & H). split_and!; [done| |].
    + intros g Hg. apply G, elem_of_app. by left.
    + intros g [->|Hg]%elem_of_cons; [|auto]. exists f. split; [|done]. apply G, elem_of_app. right. by apply list_elem_of_singleton.
Qed.

Lemma admit_lookups mx ls st : 0 ≤ mx → Forall lookup_ok ls → admitted_ok mx st →
  match foldR (λ st l, candidates ← lookup_bounded s mx l; foldR (admit_candidate mx) st candidates) st ls with
  | Ok st' => admitted_ok mx st' ∧ (∀ f, f ∈ st.2 → f ∈ st'.2) ∧
              (∀ f l, f ∈ log → l ∈ ls → admits l f = true → holds_alike st'.2 f)
  | Err e => e = TOO_MANY ∧ mx < Z.of_nat (length log)
  end.
Proof using All.
  intros M F. revert st. induction F as [|l ls Hl F IH]; intros st A; cbn [foldR].
  { split_and!; [done..|]. intros f l _ H. by apply elem_of_nil in H. }
  pose proof (lookup_bounded_result mx l Hl M) as R. unfold lookup_result in R.
  destruct (lookup_bounded s mx l) as [fs|e]; cbn [mbind result_bind]; [|done].
  destruct R as [R1 R2]. pose proof (admit_candidates mx fs st A R1) as C.
  destruct (foldR (admit_candidate mx) st fs) as [st1|e]; cbn [mbind result_bind]; [|done].
  destruct C as (A1 & G1 & H1). specialize (IH st1 A1).
  destruct (foldR _ st1 ls) as [st2|e]; [|done]. destruct IH as (A2 & G2 & H2).
  split_and!; [done|auto|]. intros f l' Lf [->|I]%elem_of_cons Ad; [|by eapply H2].
  destruct (H1 f (R2 f Lf Ad)) as (g & Gg & Al). exists g. auto.
Qed.

(** The facts a plan reads. *)
Definition plan_admits (p : QueryAccessPlan) (f : Fact) : bool :=
  match p with FullScan => true | Selective ls => existsb (λ l, admits l f) ls end.

Lemma holds_alike_refl (fs : list Fact) f : f ∈ fs → holds_alike fs f.
Proof using. intros F. by exists f. Qed.

Lemma read_facts_result p mx : plan_ok p → 0 ≤ mx →
  match read_facts_bounded p s mx with
  | Ok fs => (∀ f, f ∈ fs → f ∈ log) ∧ (∀ f, f ∈ log → plan_admits p f = true → holds_alike fs f)
  | Err e => e = TOO_MANY ∧ mx < Z.of_nat (length log)
  end.
Proof using All.
  intros P M. destruct p as [|ls]; cbn [read_facts_bounded].
  { unfold get_all_facts_bounded. rewrite (for_each_fact_fold hasher s log _ _ Ok_s), push_all by (cbn; lia).
    cbn [length Nat.add]. destruct (Z.leb_spec (Z.of_nat (length log)) mx); [|done]. cbn.
    split; [done|]. intros. by apply holds_alike_refl. }
  assert (match ls with [l] => True | _ => False end ∨ match ls with [l] => False | _ => True end) as [One|Many]
    by (destruct ls as [|? []]; auto).
  - destruct ls as [|l []]; try done. apply Forall_inv in P. pose proof (lookup_bounded_result mx l P M) as R.
    cbn [read_facts_bounded]. unfold lookup_result in R. destruct (lookup_bounded s mx l); [|done].
    destruct R as [R1 R2]. split; [done|]. intros f F Ad. cbn in Ad. rewrite orb_false_r in Ad.
    apply holds_alike_refl. auto.
  - assert (read_facts_bounded (Selective ls) s mx =
      ('(_, facts) ← foldR (λ st l, candidates ← lookup_bounded s mx l;
                         foldR (admit_candidate mx) st candidates) (∅, []) ls; Ok facts)) as E
      by (destruct ls as [|? []]; done).
    cbn [read_facts_bounded] in E |- *. rewrite E. clear E.
    assert (admitted_ok mx (∅, [])) as A0.
    { split; cbn; [intros f F; by apply elem_of_nil in F|constructor|]. intros i. split; intros F; [set_solver|by apply elem_of_nil in F]. }
    pose proof (admit_lookups mx ls _ M P A0) as R. destruct (foldR _ _ ls) as [[seen fs]|e]; cbn [mbind result_bind]; [|done].
    destruct R as ([R1 _ _] & _ & R2). split; [done|]. intros f F (l & L & Ad)%existsb_exists.
    apply (R2 f l); [done|by apply list_elem_of_In|done].
Qed.
End store.

Lemma admits_eav l f g : entity g = entity f → attribute g = attribute f → admits l f = true → admits l g = true.
Proof. intros E A. destruct l; cbn; by rewrite ?E, ?A. Qed.
Lemma plan_admits_eav p f g :
  entity g = entity f → attribute g = attribute f → plan_admits p f = true → plan_admits p g = true.
Proof.
  intros E A. destruct p as [|ls]; cbn; [done|]. intros (l & I & H)%existsb_exists. apply existsb_exists.
  exists l. split; [done|]. by apply (admits_eav l f).
Qed.

Lemma read_same_class log fs c : (∀ f g, entity g = entity f → attribute g = attribute f → c f = true → c g = true) →
  (∀ f, f ∈ fs → f ∈ log) → (∀ f, f ∈ log → c f = true → holds_alike fs f) →
  same_class c fs log ∧ same_class c log fs.
Proof.
  intros Ce S H. assert (∀ f, c f = true → (∃ g, g ∈ fs ∧ alike g f) ↔ (∃ g, g ∈ log ∧ alike g f)) as K; [|split; [done|]].
  - intros f C. split; intros (g & G & Al); [exists g; auto|]. destruct (Al) as ([= E1 E2 _ _ _] & _).
    destruct (H g G (Ce f g E1 E2 C)) as (h & Hh & Al'). exists h. split; [done|].
    destruct Al as (? & ? & ? & ?), Al' as (? & ? & ? & ?). split_and!; congruence.
  - intros f C. symmetry. by apply K.
Qed.

(** C20: planning loses nothing.  The facts a plan reads belong to the log, reading
    fails only when the log itself exceeds the bound, and every triple that a
    pattern on a real attribute of the query (also inside a negation or a
    branch) matches under any bindings is in the view of the facts read
    exactly when it is in the view of the whole log; under [:any-valid-time] the
    same holds of its validity windows. *)
Theorem access_plan_complete parse_str new_v5_oid uuid_to_string hasher s log rows q mx :
  store_ok hasher s log → Forall fact_ok log → backed_by s rows → encodings_distinct log →
  plan_ok (for_query parse_str new_v5_oid q) → 0 ≤ mx →
  match read_facts_bounded (for_query parse_str new_v5_oid q) s mx with
  | Err e => e = TOO_MANY ∧ mx < Z.of_nat (length log)
  | Ok facts =>
    (∀ f, f ∈ facts → f ∈ log) ∧
    ∀ now as_of valid_at m p b f row V W,
      p ∈ query_patterns q → is_real p = true →
      scan_fact parse_str new_v5_oid uuid_to_string m p b f = Some row →
      filter_facts_for_query now as_of valid_at facts = Ok V →
      filter_facts_for_query now as_of valid_at log = Ok W →
      (eav_key f ∈ eav_key <$> V ↔ eav_key f ∈ eav_key <$> W) ∧
      (valid_at = Some AnyValidTime → window_key f ∈ window_key <$> V ↔ window_key f ∈ window_key <$> W)
  end.
Proof.
  intros Os Ol B D P M. pose proof (read_facts_result hasher s log rows Os Ol B D _ mx P M) as R.
  destruct (read_facts_bounded _ s mx) as [facts|e]; [|done]. destruct R as [Sub H]. split; [done|].
  intros now as_of va m p b f row V W Ip Rp Sc EV EW.
  assert (nonneg log) as Nl. { intros g G. rewrite Forall_forall in Ol. destruct (Ol g G). ilia. }
  assert (nonneg facts) as Nf by (intros g G; auto).
  assert (plan_admits (for_query parse_str new_v5_oid q) f = true) as C.
  { destruct (for_query parse_str new_v5_oid q) as [|ls] eqn:Q; [done|].
    destruct (for_query_covers _ _ _ _ _ Q Ip Rp) as (l & L & Pl). cbn. apply existsb_exists. exists l.
    split; [by apply list_elem_of_In|]. by eapply matched_is_admitted. }
  pose proof (plan_admits_eav (for_query parse_str new_v5_oid q)) as Ce.
  destruct (read_same_class log facts _ Ce Sub H) as [S1 S2].
  destruct (view_class _ Ce now as_of va _ _ V W f Nf Nl S1 C EV EW) as [A1 A2].
  destruct (view_class _ Ce now as_of va _ _ W V f Nl Nf S2 C EW EV) as [B1 B2].
  split; [by split|]. intros An. split; auto.
Qed.

(** A store with two entities, read for one attribute. *)
Definition plan_query : DatalogQuery :=
  query_new [FVariable "?v"] [CPattern (pattern_new (ESymbol "?e") (EKeyword ":age") (ESymbol "?v"))].
Lemma prefix_encodings : encodings_distinct prefix_log.
Proof.
  intros f g F G. repeat (apply elem_of_cons in F as [->|F]); try (by apply elem_of_nil in F);
    repeat (apply elem_of_cons in G as [->|G]); try (by apply elem_of_nil in G); by vm_compute.
Qed.
Lemma access_plan_complete_witness :
  ∃ facts, read_facts_bounded (for_query no_uuid v5_stub plan_query) prefix_store 10 = Ok facts ∧
    (∀ f, f ∈ facts → f ∈ prefix_log) ∧ length facts = 2%nat.
Proof.
  pose proof (access_plan_complete no_uuid v5_stub print_stub const_hasher prefix_store prefix_log [] plan_query 10
    prefix_store_ok prefix_log_ok ltac:(by right) prefix_encodings
    ltac:(repeat constructor) ltac:(lia)) as T.
  destruct (read_facts_bounded _ _ _) as [facts|e] eqn:E; [|destruct T as [_ T]; cbn in T; lia].
  exists facts. split; [done|]. split; [apply T|]. vm_compute in E. by injection E as <-.
Defined.

(** A pseudo-attribute pattern on an unbound entity adds no lookup, so it ranges
    over the facts the other patterns select: the whole log has a fact of
    transaction 2 that the facts read lack. *)
Definition pseudo_query : DatalogQuery :=
  query_new [FVariable "?x"; FVariable "?t"]
    [CPattern (pattern_new (ESymbol "?e") (EKeyword ":a") (ESymbol "?v"));
     CPattern (pattern_pseudo (ESymbol "?x") TxCount (ESymbol "?t"))].
Definition pseudo_store : FactStorage :=
  let s := (transact_batch const_hasher 1000 storage_new [(1, ":a"%string, VInteger 3, None)] None).1 in
  (transact_batch const_hasher 2000 s [(2, ":b"%string, VInteger 4, None)] None).1.
Example pseudo_pattern_narrowed :
  for_query no_uuid v5_stub pseudo_query = Selective [LAttribute ":a"] ∧
  length <$> (match plan_read_facts (Selective [LAttribute ":a"]) pseudo_store with Ok l => Some l | _ => None end) = Some 1%nat ∧
  length <$> (match plan_read_facts FullScan pseudo_store with Ok l => Some l | _ => None end) = Some 2%nat.
Proof. split_and!; by vm_compute. Qed.
