(* ===== verification/JoinOrder.v ===== *)
(** The meaning of a conjunction of patterns, whatever the order of its joins
    (on src/src/query/datalog/matcher.rs).

    An entity may be written as a reference or as a keyword; the join treats the
    two alike and keeps the spelling of whichever pattern came first.  Rows are
    therefore compared after every keyword is replaced by the reference it stands
    for ([spell]).  With constant attributes, joining is then adding what a fact
    binds to what is bound ([extend]), and extensions commute. *)
From S2P Require Import Prelude Types HashKeys NetView FactStore QueryTypes Functions Expressions Matcher.
Set Default Proof Using "Type".

Section order.
Context (parse_str : string → option Z) (new_v5_oid : string → Z) (uuid_to_string : Z → string).
#[local] Abbreviation normal := (normalize_join_value parse_str new_v5_oid).
#[local] Abbreviation kid := (keyword_id parse_str new_v5_oid).
#[local] Abbreviation binds := (fact_binds parse_str new_v5_oid).
#[local] Abbreviation join := (join_with_pattern parse_str new_v5_oid uuid_to_string).

Definition spell (b : Row) : gmap string Value := normal <$> b.

(** * Facts, patterns and rows of the theorem *)

(** No floats, and a keyword's identity is its own. *)
Record facts_ok (facts : list Fact) : Prop := {
  fo_float f : f ∈ facts → is_float_value (value f) = false;
  fo_keyword f g k k' : f ∈ facts → g ∈ facts → value f = VKeyword k → value g = VKeyword k' → kid k = kid k' → k = k';
}.
(** A constant attribute and no repeated variable. *)
Record pattern_ok (p : Pattern) : Prop := {
  po_attr : ∃ a, pat_attribute p = Real (EKeyword a);
  po_linear : NoDup (pattern_vars p);
}.
(** The rows that arise: values of facts and references, under variables. *)
Definition row_ok (facts : list Fact) (b : Row) : Prop :=
  ∀ x w, b !! x = Some w →
    (is_var x = true ∧ is_wildcard x = false) ∧ is_float_value w = false ∧
    (∀ k, w = VKeyword k → ∃ f, f ∈ facts ∧ value f = VKeyword k).

Definition compat (b d : Row) : bool :=
  forallb (λ '(x, v), match b !! x with Some w => bool_decide (w = v) | None => true end) (map_to_list d).
Lemma compat_true b d : compat b d = true ↔ ∀ x v w, b !! x = Some w → d !! x = Some v → w = v.
Proof.
  unfold compat. rewrite forallb_elem. split.
  - intros H x v w B D. specialize (H (x, v)). cbn in H. rewrite B in H. eapply bool_decide_eq_true, H. by apply elem_of_map_to_list.
  - intros H [x v] I%elem_of_map_to_list. destruct (b !! x) as [w|] eqn:B; [|done]. apply bool_decide_eq_true. by apply (H x).
Qed.

(** What a fact adds to a normalized row. *)
Definition extend (p : Pattern) (b : Row) (f : Fact) : option (gmap string Value) :=
  d ← binds p f; if compat b (spell d) then Some (spell d ∪ b) else None.

Lemma value_eq_plain w v : is_float_value w = false → value_eq w v = bool_decide (w = v).
Proof.
  intros F. apply iff_bool_eq. rewrite bool_decide_eq_true. split; [|intros ->; by apply value_eq_refl; destruct v].
  intros E. rewrite <-hash_key_eq_value_eq in E by auto. by apply hash_key_eq_true in E.
Qed.

Lemma spell_lookup b x : spell b !! x = normal <$> b !! x.
Proof. apply lookup_fmap. Qed.
Lemma dom_spell b : dom (spell b) = dom b.
Proof. apply dom_fmap_L. Qed.

Section facts.
Context (m : PatternMatcher) (no_metadata : retain_fact_metadata m = false) (Hfacts : facts_ok (get_facts m)).

Lemma binds_dom p f d : pattern_ok p → binds p f = Some d → dom d = list_to_set (pattern_vars p).
Proof using. clear uuid_to_string. clear no_metadata m Hfacts.
  intros [[a R] L] D. unfold fact_binds in D. unfold pattern_vars. rewrite R in *.
  destruct (component_binds _ _ (pat_entity p) _) as [de|] eqn:Ee; [|done]. cbn in D.
  case_bool_decide; [|done]. cbn in D.
  destruct (component_binds _ _ (pat_value p) _) as [dv|] eqn:Ev; [|done]. cbn in D. injection D as <-.
  apply component_binds_dom in Ee, Ev. rewrite !dom_union_L, Ee, Ev. cbn. set_solver.
Qed.

Lemma component_vars_ok c x : x ∈ component_vars c → is_var x = true ∧ is_wildcard x = false.
Proof using.
  destruct c as [k|s|s|i|f|y|u|l|l|l| |s]; cbn; try by intros ?%elem_of_nil.
  destruct (is_var s) eqn:V, (is_wildcard s) eqn:W; cbn; try by intros ?%elem_of_nil.
  by intros ->%list_elem_of_singleton.
Qed.
Lemma pattern_vars_ok p x : pattern_ok p → x ∈ pattern_vars p → is_var x = true ∧ is_wildcard x = false.
Proof using.
  intros [[a R] _]. unfold pattern_vars. rewrite R. cbn. rewrite elem_of_app.
  intros [H|H]; by apply component_vars_ok in H.
Qed.

Lemma component_binds_value c v d x w :
  component_binds parse_str new_v5_oid c v = Some d → d !! x = Some w → w = v.
Proof using.
  destruct c as [k|s|s|i|g|z|t|l|l|l| |s]; unfold component_binds;
    try (destruct (match_constant _ _ _ _); [by intros [= <-]|done]).
  destruct (is_wildcard s); [by intros [= <-]|]. destruct (is_var s); [|done].
  intros [= <-]. by intros [_ <-]%lookup_singleton_Some.
Qed.

(** What a pattern binds is fit for a row. *)
Lemma binds_row_ok p f d : pattern_ok p → f ∈ get_facts m → binds p f = Some d → row_ok (get_facts m) d.
Proof using Hfacts. clear no_metadata.
  intros P F D x w L. split.
  - apply (pattern_vars_ok p x P). apply (binds_dom p f d P) in D.
    assert (x ∈ dom d) as Hx by by apply elem_of_dom_2 in L. rewrite D in Hx. set_solver.
  - destruct P as [[a R] _]. unfold fact_binds in D. rewrite R in D.
    destruct (component_binds _ _ (pat_entity p) _) as [de|] eqn:Ee; [|done]. cbn in D.
    case_bool_decide; [|done]. cbn in D.
    destruct (component_binds _ _ (pat_value p) _) as [dv|] eqn:Ev; [|done]. cbn in D. injection D as <-.
    apply lookup_union_Some_raw in L as [L|[_ L]].
    + apply (component_binds_value _ _ _ _ _ Ev) in L as ->. split; [by apply (fo_float _ Hfacts)|]. intros k K. by exists f.
    + rewrite (left_id_L ∅ (∪)) in L. apply (component_binds_value _ _ _ _ _ Ee) in L as ->. done.
Qed.

Lemma row_ok_join_ok p b : pattern_ok p → row_ok (get_facts m) b → join_ok parse_str new_v5_oid m p b.
Proof using Hfacts.
  intros [[a R] L] B. split; [done|..].
  - intros x W. destruct (b !! x) as [w|] eqn:E; [|done]. apply B in E as [[_ N] _].
    unfold is_wildcard in N. by rewrite W, orb_true_r in N.
  - intros s R'. congruence.
  - intros s w V E. apply B in E as (_ & Fl & K). split; [done|].
    intros f k k' F -> Vf I. destruct (K k eq_refl) as (g & G & Vg). by apply (fo_keyword _ Hfacts g f).
Qed.

Lemma all_agree_compat b d : row_ok (get_facts m) b → row_ok (get_facts m) d →
  all_agree parse_str new_v5_oid b d = compat (spell b) (spell d).
Proof using.
  intros B D. apply iff_bool_eq. rewrite all_agree_true, compat_true. split.
  - intros A x v w. rewrite !spell_lookup. intros (w' & Bx & ->)%fmap_Some (v' & Dx & ->)%fmap_Some.
    specialize (A x v' Dx). cbn [agrees] in A. rewrite Bx in A.
    apply D in Dx as ([V _] & _). rewrite (var_not_hidden x V) in A. cbn [orb] in A.
    apply B in Bx as (_ & F & _). rewrite value_eq_plain in A by by apply normalize_not_float.
    by apply bool_decide_eq_true in A.
  - intros C x v Dx. cbn [agrees]. destruct (b !! x) as [w|] eqn:Bx; [|by rewrite orb_true_r].
    apply orb_true_iff. right. rewrite value_eq_plain.
    + apply bool_decide_eq_true. apply (C x); by rewrite spell_lookup, ?Bx, ?Dx.
    + apply normalize_not_float. by apply B in Bx as (_ & F & _).
Qed.

(** A join step, seen through the spelling. *)
Lemma scan_spell p b f : pattern_ok p → row_ok (get_facts m) b → f ∈ get_facts m →
  spell <$> scan_fact parse_str new_v5_oid uuid_to_string m p b f = extend p (spell b) f.
Proof using no_metadata Hfacts.
  intros P B F. pose proof P as [[a R] L]. pose proof (row_ok_join_ok p b P B) as J.
  rewrite (scan_is_merge parse_str new_v5_oid uuid_to_string m p (EKeyword a) b f R J F).
  rewrite (match_fact_linear parse_str new_v5_oid uuid_to_string m f p (EKeyword a) R L).
  unfold hidden_part. rewrite no_metadata. unfold extend.
  destruct (binds p f) as [d|] eqn:D; [|done]. cbn -[spell]. rewrite (left_id_L ∅ (∪)).
  assert (row_ok (get_facts m) d) as Do by by apply (binds_row_ok p f).
  pose proof (merge_rows_is_Some parse_str new_v5_oid b d) as M. rewrite <-all_agree_true in M.
  rewrite (all_agree_compat b d B Do) in M.
  destruct (merge_rows parse_str new_v5_oid b d) as [row|] eqn:Mr; cbn -[spell].
  - rewrite (proj1 M) by eauto. f_equal. apply map_eq. intros x.
    rewrite lookup_union, !spell_lookup, (merge_rows_lookup _ _ _ _ _ _ Mr). unfold merged_lookup.
    destruct (d !! x) as [v|] eqn:Dx; cbn; [|by destruct (b !! x)].
    destruct (Do x v Dx) as [[V _] _]. rewrite (var_not_hidden x V).
    destruct (b !! x) as [w|] eqn:Bx; cbn; [|done]. f_equal.
    assert (compat (spell b) (spell d) = true) as C by (apply M; eauto).
    rewrite compat_true in C. apply (C x); by rewrite spell_lookup, ?Bx, ?Dx.
  - destruct (compat (spell b) (spell d)); [|done]. destruct (proj2 M eq_refl) as [? [=]].
Qed.

Lemma scan_row_ok p b f b' : pattern_ok p → row_ok (get_facts m) b → f ∈ get_facts m →
  scan_fact parse_str new_v5_oid uuid_to_string m p b f = Some b' →
  row_ok (get_facts m) b' ∧ b ⊆ b' ∧ dom b' = dom b ∪ list_to_set (pattern_vars p).
Proof using no_metadata Hfacts.
  intros P B F. pose proof P as [[a R] L]. pose proof (row_ok_join_ok p b P B) as J.
  rewrite (scan_is_merge parse_str new_v5_oid uuid_to_string m p (EKeyword a) b f R J F).
  rewrite (match_fact_linear parse_str new_v5_oid uuid_to_string m f p (EKeyword a) R L).
  unfold hidden_part. rewrite no_metadata.
  destruct (binds p f) as [d|] eqn:D; [|done]. cbn. rewrite (left_id_L ∅ (∪)). intros M.
  assert (row_ok (get_facts m) d) as Do by by apply (binds_row_ok p f).
  assert (∀ x, b' !! x = match b !! x with Some w => Some w | None => d !! x end) as Lk.
  { intros x. rewrite (merge_rows_lookup _ _ _ _ _ _ M). unfold merged_lookup.
    destruct (d !! x) as [v|] eqn:Dx; [|by destruct (b !! x)].
    destruct (Do x v Dx) as [[V _] _]. rewrite (var_not_hidden x V). by destruct (b !! x). }
  split; [|split].
  - intros x w. rewrite Lk. destruct (b !! x) eqn:Bx; [intros [= <-]; by apply B|apply Do].
  - apply map_subseteq_spec. intros x w Bx. by rewrite Lk, Bx.
  - apply (binds_dom p f d P) in D. rewrite <-D. apply set_eq. intros x.
    rewrite elem_of_union, !elem_of_dom, Lk. destruct (b !! x); [naive_solver|].
    split; [naive_solver|]. intros [[? [=]]|?]; done.
Qed.
End facts.

(** * Extensions commute *)

Lemma extend_comm p q b f g :
  (b1 ← extend p b f; extend q b1 g) = (b2 ← extend q b g; extend p b2 f).
Proof.
  unfold extend. destruct (binds p f) as [d|], (binds q g) as [e|]; cbn -[spell]; try done;
    [|by destruct (compat b (spell d))|by destruct (compat b (spell e))].
  generalize (spell d) (spell e). clear d e. intros d e.
  assert (∀ d e, compat b d = true → compat (d ∪ b) e = compat d e && compat b e) as U.
  { clear. intros d e C. apply iff_bool_eq. rewrite andb_true_iff, !compat_true in *. split.
    - intros H. split; intros x v w Lx Ex.
      + apply (H x v w); [|done]. by apply lookup_union_Some_l.
      + apply (H x v w); [|done]. rewrite lookup_union, Lx. destruct (d !! x) as [u|] eqn:Dx; [|done].
        rewrite union_Some_l. f_equal. symmetry. by apply (C x).
    - intros [H1 H2] x v w Lx Ex. apply lookup_union_Some_raw in Lx as [Lx|[_ Lx]]; [by apply (H1 x)|by apply (H2 x)]. }
  assert (compat d e = compat e d) as S.
  { apply iff_bool_eq. rewrite !compat_true. split; intros H x v w Lx Ex; symmetry; by apply (H x). }
  destruct (compat b d) eqn:Cd, (compat b e) eqn:Ce; cbn; try done.
  - rewrite !U, Cd, Ce, S by done. destruct (compat e d) eqn:C; cbn; [|done]. f_equal.
    apply map_eq. intros x. rewrite !lookup_union. rewrite compat_true in C.
    destruct (d !! x) eqn:Dx, (e !! x) eqn:Ex; cbn; try by destruct (b !! x).
    rewrite (C x _ _ Ex Dx). by destruct (b !! x).
  - rewrite U, Ce by done. by rewrite andb_false_r.
  - rewrite U, Cd by done. by rewrite andb_false_r.
Qed.

(** * Reordering a conjunction *)

(** All rows a conjunction of patterns derives from a row. *)
Fixpoint solutions (facts : list Fact) (ps : list Pattern) (b : Row) : list (gmap string Value) :=
  match ps with
  | [] => [b]
  | p :: ps => flat_map (λ b', solutions facts ps b') (omap (extend p b) facts)
  end.

Lemma solutions_swap facts p q ps b :
  solutions facts (p :: q :: ps) b ≡ₚ solutions facts (q :: p :: ps) b.
Proof.
  cbn. rewrite !flat_map_omap.
  transitivity (flat_map (λ f, flat_map (λ g, match (b1 ← extend p b f; extend q b1 g) with
      | Some b' => solutions facts ps b' | None => [] end) facts) facts).
  { apply flat_map_perm. intros f. destruct (extend p b f) as [b1|]; cbn; [by rewrite flat_map_omap|by rewrite flat_map_nil]. }
  rewrite flat_map_swap. apply flat_map_perm. intros g.
  transitivity (flat_map (λ f, match (b2 ← extend q b g; extend p b2 f) with
      | Some b' => solutions facts ps b' | None => [] end) facts).
  { apply flat_map_perm. intros f. by rewrite extend_comm. }
  destruct (extend q b g) as [b2|]; cbn; [by rewrite flat_map_omap|by rewrite flat_map_nil].
Qed.

Lemma solutions_perm facts ps qs b : ps ≡ₚ qs → solutions facts ps b ≡ₚ solutions facts qs b.
Proof.
  intros H. revert b. induction H as [|p ps qs H IH|p q ps|ps qs rs H1 IH1 H2 IH2]; intros b.
  - done.
  - cbn. by apply flat_map_perm.
  - apply solutions_swap.
  - by rewrite IH1, IH2.
Qed.

Section facts2.
Context (m : PatternMatcher) (no_metadata : retain_fact_metadata m = false) (Hfacts : facts_ok (get_facts m)).

Lemma join_rows rows p : pattern_ok p → (∀ b, b ∈ rows → row_ok (get_facts m) b) →
  join m rows p = flat_map (λ b, omap (scan_fact parse_str new_v5_oid uuid_to_string m p b) (get_facts m)) rows.
Proof using no_metadata Hfacts.
  intros P B. rewrite join_is_nested_loop.
  2: { intros b I. apply row_ok_join_ok; [done..|by apply B]. }
  apply flat_map_ext_in. intros b _. unfold match_pattern_with_bindings. by destruct P as [[a ->] _].
Qed.

Lemma join_spells rows p : pattern_ok p → (∀ b, b ∈ rows → row_ok (get_facts m) b) →
  spell <$> join m rows p = flat_map (λ b, omap (extend p b) (get_facts m)) (spell <$> rows) ∧
  (∀ b', b' ∈ join m rows p → row_ok (get_facts m) b' ∧
     ∃ b, b ∈ rows ∧ b ⊆ b' ∧ dom b' = dom b ∪ list_to_set (pattern_vars p)).
Proof using no_metadata Hfacts.
  intros P B. rewrite join_rows by done. split.
  - induction rows as [|b rows IH]; [done|]. cbn -[spell]. rewrite fmap_app, IH by (intros; apply B; by right).
    f_equal. assert (∀ l, l ⊆ get_facts m →
      spell <$> omap (scan_fact parse_str new_v5_oid uuid_to_string m p b) l = omap (extend p (spell b)) l) as E; [|by apply E].
    intros l. induction l as [|f l IHl]; intros I; [done|]. cbn -[spell].
    rewrite <-(scan_spell m no_metadata Hfacts p b f) by (done || (apply B; left) || (apply I; left)).
    destruct (scan_fact _ _ _ _ _ _ f); cbn -[spell]; rewrite IHl by set_solver; done.
  - intros b' (b & Ib & (f & If & S)%list_elem_of_omap)%elem_of_flat_map.
    destruct (scan_row_ok m no_metadata Hfacts p b f b') as (O & Sub & Dm); try done; [by apply B|].
    split; [done|]. by exists b.
Qed.

Lemma joins_spell ps rows : (∀ p, p ∈ ps → pattern_ok p) → (∀ b, b ∈ rows → row_ok (get_facts m) b) →
  spell <$> foldl (join m) rows ps = flat_map (solutions (get_facts m) ps) (spell <$> rows) ∧
  (∀ b, b ∈ foldl (join m) rows ps → row_ok (get_facts m) b).
Proof using no_metadata Hfacts.
  revert rows. induction ps as [|p ps IH]; intros rows P B.
  - cbn. split; [|done]. generalize (spell <$> rows). intros l. induction l as [|x l IHl]; [done|].
    cbn. by rewrite <-IHl.
  - cbn [foldl]. destruct (join_spells rows p) as [J O]; [apply P; left|done|].
    destruct (IH (join m rows p)) as [E Ok]; [intros; apply P; by right|intros b' I; by apply O in I as [? _]|].
    split; [|done]. rewrite E, J. generalize (spell <$> rows). intros l.
    induction l as [|x l IHl]; [done|]. cbn. by rewrite flat_map_app, IHl.
Qed.
End facts2.

Lemma joins_permute m ps qs :
  retain_fact_metadata m = false → facts_ok (get_facts m) → (∀ p, p ∈ ps → pattern_ok p) → ps ≡ₚ qs →
  spell <$> foldl (join m) [∅] ps = solutions (get_facts m) ps ∅ ∧
  (spell <$> foldl (join m) [∅] qs) ≡ₚ (spell <$> foldl (join m) [∅] ps).
Proof.
  intros N F P H.
  assert (∀ b : Row, b ∈ [∅] → row_ok (get_facts m) b) as E by by intros b ->%list_elem_of_singleton.
  destruct (joins_spell m N F ps [∅] P E) as [-> _].
  destruct (joins_spell m N F qs [∅]) as [-> _]; [intros p I; apply P; by rewrite H|done|].
  assert (spell <$> [∅] = [∅]) as -> by (cbn -[spell]; f_equal; apply fmap_empty).
  cbn. rewrite !app_nil_r. split; [done|]. by apply solutions_perm.
Qed.

(** C25: the order of joins does not matter.  Over facts without floats in which a
    keyword's identity is its own, joining patterns with constant attributes and no
    repeated variables in any order yields the same rows up to order and up to
    spelling an entity as a keyword or as a reference; and they are exactly the
    rows obtained by choosing a fact for each pattern. *)
Theorem join_order_irrelevant m ps qs :
  retain_fact_metadata m = false → facts_ok (get_facts m) → (∀ p, p ∈ ps → pattern_ok p) → ps ≡ₚ qs →
  spell <$> foldl (join m) [∅] ps = solutions (get_facts m) ps ∅ ∧
  (spell <$> foldl (join m) [∅] qs) ≡ₚ (spell <$> foldl (join m) [∅] ps).
Proof. apply joins_permute. Qed.
End order.

Lemma sample_facts_ok : facts_ok no_uuid v5_stub sample_facts.
Proof.
  split; [intros f|intros f g k k']; unfold sample_facts; rewrite !elem_of_cons, elem_of_nil;
    intros [->|[->|[->|[]]]]; done.
Qed.
Lemma sample_patterns_ok p : p ∈ [friend_pattern; name_pattern] → pattern_ok p.
Proof.
  rewrite !elem_of_cons, elem_of_nil. intros [->|[->|[]]]; split; try by eexists.
  all: apply (bool_decide_unpack _); vm_compute; exact I.
Qed.

Lemma join_order_irrelevant_witness :
  (spell no_uuid v5_stub <$>
     foldl (join_with_pattern no_uuid v5_stub print_stub (from_slice sample_facts)) [∅] [name_pattern; friend_pattern])
  ≡ₚ [<["?x" := VRef 1]> (<["?y" := VRef 2]> (<["?n" := VString "Bob"]> ∅))]%string.
Proof.
  destruct (join_order_irrelevant no_uuid v5_stub print_stub (from_slice sample_facts)
              [friend_pattern; name_pattern] [name_pattern; friend_pattern] eq_refl sample_facts_ok
              sample_patterns_ok ltac:(constructor)) as [E P].
  rewrite P. vm_compute. reflexivity.
Defined.

(** Which spelling is kept does depend on the order: the same two patterns bind
    the friend to a keyword or to a reference. *)
Definition keyword_facts : list Fact := [
  mkFact 1 ":friend" (VKeyword ":bob") 0 1 0 100 true;
  mkFact 4 ":name" (VString "Bob") 0 2 0 100 true].
Example spelling_depends_on_order :
  let join := join_with_pattern no_uuid v5_stub print_stub (from_slice keyword_facts) in
  (lookup "?y"%string <$> foldl join [∅] [friend_pattern; name_pattern]) = [Some (VKeyword ":bob")] ∧
  (lookup "?y"%string <$> foldl join [∅] [name_pattern; friend_pattern]) = [Some (VRef 4)].
Proof. vm_compute. done. Qed.
