(* ===== verification/Optimizer.v ===== *)
(** The query planner (src/src/query/datalog/optimizer.rs): index hints, fact
    bundles, join order and the placement of expressions.  The build without the
    [wasm] feature is modelled, which sorts by selectivity; the sort is stable. *)
From S2P Require Import Prelude Types HashKeys NetView FactStore QueryTypes Functions Expressions Matcher JoinOrder.
Set Default Proof Using "Type".

Inductive IndexHint : Type := HintEavt | HintAevt | HintAvet | HintVaet.

(** [sort_by_key], a stable sort. *)
Fixpoint insert_by {A} (key : A → Z) (x : A) (l : list A) : list A :=
  match l with
  | [] => [x]
  | y :: l' => if key x <=? key y then x :: l else y :: insert_by key x l'
  end.
Definition sort_by_key {A} (key : A → Z) (l : list A) : list A := foldr (insert_by key) [] l.

Definition is_entity_literal (v : EdnValue) : bool := match v with EUuid _ => true | _ => false end.
Definition attr_is_index_bound (a : AttributeSpec) : bool :=
  match a with Real e => negb (is_variable e) | Pseudo _ => false end.
Definition bound_count (p : Pattern) : Z :=
  Z.b2z (negb (is_variable (pat_entity p))) + Z.b2z (attr_is_index_bound (pat_attribute p))
  + Z.b2z (negb (is_variable (pat_value p))).
Definition selectivity_score (p : Pattern) : Z := bound_count p.

Definition select_index (p : Pattern) : IndexHint :=
  let e_bound := negb (is_variable (pat_entity p)) in
  let a_bound := attr_is_index_bound (pat_attribute p) in
  let v_bound := negb (is_variable (pat_value p)) in
  if e_bound then HintEavt
  else if a_bound && v_bound then HintAvet
  else if a_bound then HintAevt
  else if v_bound && is_entity_literal (pat_value p) then HintVaet
  else HintEavt.

Fixpoint expr_vars (e : Expr) : list string :=
  match e with
  | Var s => [s]
  | Lit _ | Slot _ => []
  | Bin _ l r => expr_vars l ++ expr_vars r
  | Unary _ inner => expr_vars inner
  end.

Definition symbol_var (e : EdnValue) : list string := match as_variable e with Some s => [s] | None => [] end.
Definition pattern_bound_vars (p : Pattern) : list string :=
  symbol_var (pat_entity p)
  ++ match pat_attribute p with Real a => symbol_var a | Pseudo _ => [] end
  ++ symbol_var (pat_value p).

(** * Fact bundles *)

Record FactPatternBundle : Type := mkBundle {
  entries : list (WhereClause * IndexHint);
  fact_entity : option EdnValue;
}.
Definition bundle_new (clause : WhereClause) (hint : IndexHint) : FactPatternBundle :=
  mkBundle [(clause, hint)]
    match clause with
    | CPattern p => match pat_attribute p with Real _ => Some (pat_entity p) | Pseudo _ => None end
    | _ => None
    end.
Definition accepts_per_fact_pseudo (b : FactPatternBundle) (p : Pattern) : bool :=
  match pat_attribute p with
  | Pseudo pseudo =>
    is_per_fact pseudo && match fact_entity b with Some e => edn_eq e (pat_entity p) | None => false end
  | Real _ => false
  end.
Definition selectivity (b : FactPatternBundle) : Z :=
  match entries b with (CPattern p, _) :: _ => selectivity_score p | _ => 0 end.

Record PlanState : Type := mkPlan {
  bundles : list FactPatternBundle;
  plan_exprs : list WhereClause;
  open_fact_bundle : option nat;
}.
Definition plan_pattern (s : PlanState) (clause : WhereClause) (p : Pattern) : PlanState :=
  let hint := select_index p in
  match (i ← open_fact_bundle s; b ← bundles s !! i; if accepts_per_fact_pseudo b p then Some i else None) with
  | Some i =>
    mkPlan (alter (λ b, mkBundle (entries b ++ [(clause, hint)]) (fact_entity b)) i (bundles s))
      (plan_exprs s) (open_fact_bundle s)
  | None =>
    let b := bundle_new clause hint in
    mkPlan (bundles s ++ [b]) (plan_exprs s)
      match fact_entity b with Some _ => Some (length (bundles s)) | None => None end
  end.
Definition plan_clause (s : PlanState) (clause : WhereClause) : PlanState :=
  match clause with
  | CPattern p => plan_pattern s clause p
  | CExpr _ _ => mkPlan (bundles s) (plan_exprs s ++ [clause]) (open_fact_bundle s)
  | _ => mkPlan (bundles s) (plan_exprs s) None
  end.

(** * Placing expressions *)

Definition entry_vars (c : WhereClause) : list string :=
  match c with CPattern p => pattern_bound_vars p | _ => [] end.
(** The first entry after which the variables are bound. *)
Fixpoint entry_slot (vars bound : gset string) (es : list (WhereClause * IndexHint)) (i : nat)
    : gset string * option nat :=
  match es with
  | [] => (bound, None)
  | (c, _) :: es =>
    let bound := bound ∪ list_to_set (entry_vars c) in
    if bool_decide (vars ⊆ bound) then (bound, Some i) else entry_slot vars bound es (S i)
  end.
Fixpoint bundle_slot (vars bound : gset string) (bs : list FactPatternBundle) (i : nat) : option (nat * nat) :=
  match bs with
  | [] => None
  | b :: bs =>
    match entry_slot vars bound (entries b) 0 with
    | (_, Some j) => Some (i, j)
    | (bound, None) => bundle_slot vars bound bs (S i)
    end
  end.
Definition clause_expr_vars (c : WhereClause) : gset string :=
  match c with CExpr e _ => list_to_set (expr_vars e) | _ => ∅ end.

Record Schedule : Type := mkSchedule {
  exprs_after_entry : list (list (list WhereClause));
  trailing_exprs : list WhereClause;
}.
Definition schedule_expr (bs : list FactPatternBundle) (s : Schedule) (c : WhereClause) : Schedule :=
  let vars := clause_expr_vars c in
  match (if bool_decide (vars = ∅) then None else bundle_slot vars ∅ bs 0) with
  | Some (i, j) =>
    match (es ← exprs_after_entry s !! i; es !! j) with
    | Some _ => mkSchedule (alter (alter (λ l, l ++ [c]) j) i (exprs_after_entry s)) (trailing_exprs s)
    | None => mkSchedule (exprs_after_entry s) (trailing_exprs s ++ [c])
    end
  | None => mkSchedule (exprs_after_entry s) (trailing_exprs s ++ [c])
  end.
Definition empty_schedule (bs : list FactPatternBundle) : Schedule :=
  mkSchedule ((λ b, replicate (length (entries b)) []) <$> bs) [].

Definition planned_entry (e : WhereClause * IndexHint) (after : list WhereClause)
    : list (WhereClause * option IndexHint) :=
  (e.1, Some e.2) :: ((λ c, (c, None)) <$> after).
Definition planned_bundle (b : FactPatternBundle) (after : list (list WhereClause))
    : list (WhereClause * option IndexHint) :=
  mjoin (zip_with planned_entry (entries b) after).

Definition plan (clauses : list WhereClause) : list (WhereClause * option IndexHint) :=
  let s := foldl plan_clause (mkPlan [] [] None) clauses in
  let bs := sort_by_key (λ b, - selectivity b) (bundles s) in
  let sch := foldl (schedule_expr bs) (empty_schedule bs) (plan_exprs s) in
  mjoin (zip_with planned_bundle bs (exprs_after_entry sch)) ++ ((λ c, (c, None)) <$> trailing_exprs sch).

(** * Costs *)

Definition pattern_cost (p : Pattern) : Z :=
  let n := bound_count p in
  if n =? 3 then 1 else if n =? 2 then 10 else if n =? 1 then 100 else 10000.
Definition min_cost (costs : list Z) : Z :=
  match costs with [] => 0 | c :: cs => foldl Z.min c cs end.
Definition branch_cost (branch : list WhereClause) : Z :=
  min_cost (omap (λ c, match c with CPattern p => Some (pattern_cost p) | _ => None end) branch).
Definition clause_cost (c : WhereClause) : Z :=
  match c with
  | CPattern p => pattern_cost p
  | CExpr _ _ => 0
  | Not body | NotJoin _ body => branch_cost body
  | Or branches | OrJoin _ branches => foldl Z.add 0 (branch_cost <$> branches)
  | RuleInvocation _ _ => u64_MAX
  end.

(** * Running a plan *)

Section run.
Context (parse_str : string → option Z) (new_v5_oid : string → Z) (uuid_to_string : Z → string).
Context (is_match : string → string → bool).
#[local] Abbreviation join := (join_with_pattern parse_str new_v5_oid uuid_to_string).

(** The loop over the planned clauses, as in the evaluator and, bounded, in the
    executor. *)
Definition planned_step (m : PatternMatcher) (registry : FunctionRegistry) (rows : list (gmap string Value))
    (planned : WhereClause * option IndexHint) : result (list (gmap string Value)) :=
  match planned.1 with
  | CPattern p => Ok (match_with_hint_seeded parse_str new_v5_oid uuid_to_string m rows p)
  | c => expr_step is_match registry rows c
  end.
Definition run_planned (m : PatternMatcher) (registry : FunctionRegistry)
    (planned : list (WhereClause * option IndexHint)) : result (list (gmap string Value)) :=
  foldR (planned_step m registry) [∅] planned.
Definition planned_step_bounded (m : PatternMatcher) (registry : FunctionRegistry) (max_results : Z)
    (rows : list (gmap string Value)) (planned : WhereClause * option IndexHint) : result (list (gmap string Value)) :=
  match planned.1 with
  | CPattern p => match_with_hint_seeded_bounded parse_str new_v5_oid uuid_to_string m rows p max_results
  | c => expr_step is_match registry rows c
  end.
Definition run_planned_bounded (m : PatternMatcher) (registry : FunctionRegistry) (max_results : Z)
    (planned : list (WhereClause * option IndexHint)) : result (list (gmap string Value)) :=
  foldR (planned_step_bounded m registry max_results) [∅] planned.

Definition patterns_of (clauses : list WhereClause) : list Pattern :=
  omap (λ c, match c with CPattern p => Some p | _ => None end) clauses.
Definition is_expr (c : WhereClause) : bool := match c with CExpr _ _ => true | _ => false end.
Definition exprs_of (clauses : list WhereClause) : list WhereClause := List.filter is_expr clauses.

(** All patterns in their order, then all expressions. *)
Definition join_then_filter (m : PatternMatcher) (registry : FunctionRegistry) (clauses : list WhereClause)
    : result (list (gmap string Value)) :=
  foldR (expr_step is_match registry) (foldl (join m) [∅] (patterns_of clauses)) (exprs_of clauses).

(** The clauses in the order in which they are written. *)
Definition written_step (m : PatternMatcher) (registry : FunctionRegistry) (rows : list (gmap string Value))
    (c : WhereClause) : result (list (gmap string Value)) :=
  match c with
  | CPattern p => Ok (join m rows p)
  | c => expr_step is_match registry rows c
  end.
Definition run_as_written (m : PatternMatcher) (registry : FunctionRegistry) (clauses : list WhereClause)
    : result (list (gmap string Value)) :=
  foldR (written_step m registry) [∅] clauses.

(** * What the theorem is about *)

(** Every expression comes after patterns that bind its variables. *)
Fixpoint bound_before (bound : gset string) (clauses : list WhereClause) : bool :=
  match clauses with
  | [] => true
  | CPattern p :: clauses => bound_before (bound ∪ list_to_set (pattern_bound_vars p)) clauses
  | c :: clauses => bool_decide (clause_expr_vars c ⊆ bound) && bound_before bound clauses
  end.

Fixpoint no_division (e : Expr) : bool :=
  match e with
  | Bin OpDiv _ _ => false
  | Bin _ l r => no_division l && no_division r
  | Unary _ a => no_division a
  | _ => true
  end.
Definition clause_ok (c : WhereClause) : Prop :=
  match c with
  | CPattern p => pattern_ok p
  | CExpr e out => out = None ∧ no_division e = true
  | _ => False
  end.
Definition plain_value (v : Value) : bool := match v with VFloat _ | VKeyword _ => false | _ => true end.

(** Whether a filter keeps a row. *)
Definition keeps (registry : FunctionRegistry) (c : WhereClause) (b : Row) : bool :=
  match c with
  | CExpr e _ => match eval_expr is_match e b (Some registry) with Ok (Some v) => is_truthy v | _ => false end
  | _ => true
  end.

Lemma no_division_Ok registry e b : no_division e = true → ∃ v, eval_expr is_match e b registry = Ok v.
Proof.
  induction e as [v|v|s|op l IHl r IHr|op a IHa]; intros D; cbn; try by eexists.
  - assert (op ≠ OpDiv ∧ no_division l = true ∧ no_division r = true) as (N & Dl & Dr).
    { destruct op; cbn in D; try discriminate D; by apply andb_true_iff in D. }
    destruct (IHl Dl) as [[x|] ->]; cbn; [|by eexists]. destruct (IHr Dr) as [[y|] ->]; cbn; [|by eexists].
    destruct (eval_binop is_match op x y) as [v|m] eqn:E; [by eexists|]. by apply eval_binop_Err in E as (_ & ? & _).
  - destruct (IHa D) as [x ->]. cbn. by eexists.
Qed.

Lemma expr_step_filter registry rows c : clause_ok c → is_expr c = true →
  expr_step is_match registry rows c = Ok (List.filter (keeps registry c) rows).
Proof.
  intros O E. destruct c as [| | | |e out| |]; try done. destruct O as [-> D]. cbn.
  induction rows as [|b rows IH]; [done|]. cbn [omapR List.filter].
  assert (expr_row is_match registry e None b = Ok (if keeps registry (CExpr e None) b then Some b else None)) as ->.
  { unfold expr_row, keeps. destruct (no_division_Ok (Some registry) e b D) as [[v|] ->]; done. }
  cbn [mbind result_bind]. rewrite IH. cbn [mbind result_bind].
  by destruct (keeps registry (CExpr e None) b).
Qed.

Definition keeps_all (registry : FunctionRegistry) (cs : list WhereClause) (b : Row) : bool :=
  forallb (λ c, keeps registry c b) cs.

Lemma expr_steps_filter registry rows cs : (∀ c, c ∈ cs → clause_ok c ∧ is_expr c = true) →
  foldR (expr_step is_match registry) rows cs = Ok (List.filter (keeps_all registry cs) rows).
Proof.
  revert rows; induction cs as [|c cs IH]; intros rows O; cbn [foldR].
  - by rewrite List_filter_id.
  - destruct (O c) as [Oc Ec]; [left|]. rewrite expr_step_filter by done. cbn [mbind result_bind].
    rewrite IH by (intros; apply O; by right). f_equal. rewrite <-List_filter_filter.
    apply List_filter_ext. intros b _. cbn. apply andb_comm.
Qed.

(** An expression sees only its own variables. *)
Lemma eval_expr_ext e b b' registry : (∀ x, x ∈ expr_vars e → b !! x = b' !! x) →
  eval_expr is_match e b registry = eval_expr is_match e b' registry.
Proof.
  induction e as [v|v|s|op l IHl r IHr|op a IHa]; intros E; cbn; try done.
  - f_equal. apply E. cbn. by left.
  - rewrite IHl, IHr; [done|..]; intros x I; apply E; cbn; apply elem_of_app; auto.
  - by rewrite IHa.
Qed.

Lemma match_with_hint_is_join m rows p :
  match_with_hint_seeded parse_str new_v5_oid uuid_to_string m rows p = join m rows p.
Proof.
  unfold match_with_hint_seeded. destruct rows as [|b [|b' rows]]; [done| |done]. cbn [is_unit_seed].
  case_bool_decide as E; [|done]. subst b.
  unfold join_with_pattern.
  assert (join_var [∅] p = None) as ->.
  { unfold join_var, bound_component. cbn [head].
    destruct (pat_attribute p), (pat_entity p), (pat_value p); rewrite ?lookup_empty, ?andb_false_r; done. }
  cbn [flat_map]. rewrite app_nil_r. unfold match_pattern_with_bindings.
  assert (match_pattern parse_str new_v5_oid uuid_to_string m p
          = match_pattern_with_bindings_scan parse_str new_v5_oid uuid_to_string m p ∅) as ->.
  { unfold match_pattern, match_pattern_with_bindings_scan. apply omap_ext_in. intros f _. unfold scan_fact.
    assert (∀ c, apply_binding_to_component c ∅ = c) as A.
    { intros []; cbn; try done. rewrite lookup_empty. by destruct (is_var s). }
    assert (apply_bindings_to_pattern p ∅ = p) as ->.
    { destruct p as [e [a|a] v vf vt]; unfold apply_bindings_to_pattern; cbn; by rewrite !A. }
    destruct (match_fact_against_pattern _ _ _ m f p) as [d|]; [|done]. cbn.
    assert (consistent ∅ d = true) as ->.
    { apply forallb_elem. intros [x v] _. rewrite lookup_empty. apply orb_true_r. }
    by rewrite (right_id_L ∅ (∪)). }
  destruct (pat_attribute p) as [a|ps]; [done|].
  destruct (resolved_id _ _ _); [|done]. destruct (hidden_key _ ps _); cbn; [by rewrite lookup_empty|done].
Qed.

(** * The shape of a plan of plain patterns and filters *)

Definition bundle_of (p : Pattern) : FactPatternBundle :=
  mkBundle [(CPattern p, select_index p)] (Some (pat_entity p)).

Lemma collect_plan clauses : (∀ c, c ∈ clauses → clause_ok c) →
  bundles (foldl plan_clause (mkPlan [] [] None) clauses) = bundle_of <$> patterns_of clauses ∧
  plan_exprs (foldl plan_clause (mkPlan [] [] None) clauses) = exprs_of clauses.
Proof. clear uuid_to_string parse_str new_v5_oid is_match.
  induction clauses as [|c clauses IH] using rev_ind; intros O; [done|].
  destruct IH as [B E]; [intros; apply O; set_solver|].
  rewrite foldl_app. cbn [foldl]. unfold patterns_of, exprs_of in *. rewrite omap_app, List.filter_app, fmap_app.
  set (s := foldl plan_clause _ clauses) in *.
  specialize (O c). destruct c as [p| | | |e out| |]; try (destruct O; set_solver).
  - destruct O as [[a R] _]; [set_solver|]. cbn [plan_clause]. unfold plan_pattern.
    assert ((i ← open_fact_bundle s; b ← bundles s !! i; if accepts_per_fact_pseudo b p then Some i else None) = None) as ->.
    { destruct (open_fact_bundle s) as [i|]; [|done]. cbn. destruct (bundles s !! i); [|done]. cbn.
      unfold accepts_per_fact_pseudo. by rewrite R. }
    cbn. rewrite B, E, app_nil_r. split; [|done]. unfold bundle_new, bundle_of. by rewrite R.
  - cbn. by rewrite B, E, app_nil_r.
Qed.

Lemma insert_by_perm {A} (key : A → Z) x l : insert_by key x l ≡ₚ x :: l.
Proof.
  induction l as [|y l IH]; [done|]. cbn. destruct (key x <=? key y); [done|].
  etrans; [apply perm_skip, IH|]. apply perm_swap.
Qed.
Lemma sort_by_key_perm {A} (key : A → Z) l : sort_by_key key l ≡ₚ l.
Proof. induction l as [|x l IH]; [done|]. cbn. etrans; [apply insert_by_perm|]. by apply perm_skip. Qed.

(** The entry an expression is placed after, over singleton bundles. *)
Fixpoint slot_of (vars bound : gset string) (qs : list Pattern) : option nat :=
  match qs with
  | [] => None
  | q :: qs =>
    let bound := bound ∪ list_to_set (pattern_bound_vars q) in
    if bool_decide (vars ⊆ bound) then Some 0%nat else S <$> slot_of vars bound qs
  end.
Lemma bundle_slot_singletons vars bound qs i :
  bundle_slot vars bound (bundle_of <$> qs) i = (λ j, (i + j, 0)%nat) <$> slot_of vars bound qs.
Proof.
  revert bound i; induction qs as [|q qs IH]; intros bound i; [done|]. cbn.
  case_bool_decide; cbn; [by rewrite Nat.add_0_r|]. rewrite IH, <-option_fmap_compose.
  destruct (slot_of _ _ qs); cbn; [|done]. by rewrite Nat.add_succ_r.
Qed.
Lemma slot_of_spec vars bound qs i : slot_of vars bound qs = Some i →
  (i < length qs)%nat ∧ vars ⊆ bound ∪ list_to_set (flat_map pattern_bound_vars (take (S i) qs)).
Proof. clear uuid_to_string parse_str new_v5_oid is_match.
  revert bound i; induction qs as [|q qs IH]; intros bound i; [done|]. cbn [slot_of].
  case_bool_decide as S.
  - intros [= <-]. split; [cbn; lia|]. cbn. rewrite app_nil_r. done.
  - intros (j & E & ->)%fmap_Some. apply IH in E as [L V]. split; [cbn; lia|].
    cbn [take flat_map]. rewrite list_to_set_app_L. set_solver.
Qed.

(** A schedule over singleton bundles: the expressions after each pattern. *)
Definition schedule_of (ls : list (list WhereClause)) (tr : list WhereClause) : Schedule :=
  mkSchedule ((λ l, [l]) <$> ls) tr.

Lemma alter_singletons (g : list WhereClause → list WhereClause) (i : nat) (ls : list (list WhereClause)) :
  alter (alter g 0%nat) i ((λ l, [l]) <$> ls) = (λ l, [l]) <$> alter g i ls.
Proof. clear. revert i; induction ls as [|l ls IH]; intros [|i]; cbn; try done. by rewrite <-IH. Qed.

Lemma concat_alter (c : WhereClause) (i : nat) (ls : list (list WhereClause)) : (i < length ls)%nat →
  mjoin (alter (λ l, l ++ [c]) i ls) ≡ₚ c :: mjoin ls.
Proof.
  clear. revert i; induction ls as [|l ls IH]; intros i L; cbn in L; [lia|]. destruct i as [|i]; cbn.
  - rewrite <-app_assoc. symmetry. apply Permutation_middle.
  - etrans; [apply Permutation_app_head, IH; lia|]. symmetry. apply Permutation_middle.
Qed.

(** Where every expression of a schedule sits. *)
Record schedule_ok (qs : list Pattern) (cs : list WhereClause) (ls : list (list WhereClause)) (tr : list WhereClause) : Prop := {
  so_length : length ls = length qs;
  so_perm : mjoin ls ++ tr ≡ₚ cs;
  so_bound i l c : ls !! i = Some l → c ∈ l →
    clause_expr_vars c ⊆ list_to_set (flat_map pattern_bound_vars (take (S i) qs));
}.

Lemma schedule_expr_ok qs cs ls tr c : schedule_ok qs cs ls tr →
  ∃ ls' tr', schedule_expr (bundle_of <$> qs) (schedule_of ls tr) c = schedule_of ls' tr' ∧
             schedule_ok qs (cs ++ [c]) ls' tr'.
Proof.
  clear. intros [L P B]. unfold schedule_expr.
  set (slot := if bool_decide (clause_expr_vars c = ∅) then None else bundle_slot _ ∅ _ 0).
  assert (slot = None ∨ ∃ i, slot = Some (i, 0%nat) ∧ (i < length qs)%nat ∧
            clause_expr_vars c ⊆ list_to_set (flat_map pattern_bound_vars (take (S i) qs))) as S.
  { unfold slot. case_bool_decide; [by left|]. rewrite bundle_slot_singletons.
    destruct (slot_of _ ∅ qs) as [i|] eqn:E; [|by left]. right. exists i. apply slot_of_spec in E as [Li V].
    split; [done|]. split; [done|]. by rewrite (left_id_L ∅ (∪)) in V. }
  destruct S as [->|(i & -> & Li & V)].
  - exists ls, (tr ++ [c]). split; [done|]. split; [done| |done]. rewrite app_assoc. by rewrite P.
  - cbn [exprs_after_entry schedule_of trailing_exprs]. rewrite list_lookup_fmap.
    destruct (lookup_lt_is_Some_2 ls i) as [l El]; [lia|]. rewrite El. cbn.
    exists (alter (λ l, l ++ [c]) i ls), tr. split; [unfold schedule_of; by rewrite alter_singletons|].
    split; [by rewrite length_alter|..].
    + rewrite concat_alter by lia. cbn. rewrite <-P. rewrite <-app_assoc. symmetry.
      rewrite (Permutation_app_comm tr [c]). cbn. symmetry. apply Permutation_middle.
    + intros k l' c' E I. destruct (decide (k = i)) as [->|N].
      * rewrite list_lookup_alter_eq, El in E. injection E as <-.
        apply elem_of_app in I as [I|I]; [by apply (B i l)|]. by apply list_elem_of_singleton in I as ->.
      * rewrite list_lookup_alter_ne in E by done. by apply (B k l').
Qed.

Lemma schedule_all_ok qs cs : ∃ ls tr,
  foldl (schedule_expr (bundle_of <$> qs)) (empty_schedule (bundle_of <$> qs)) cs = schedule_of ls tr ∧
  schedule_ok qs cs ls tr.
Proof.
  clear. induction cs as [|c cs IH] using rev_ind.
  - exists (replicate (length qs) []), []. split.
    + cbn [foldl]. unfold empty_schedule, schedule_of. f_equal.
      induction qs as [|q qs IH]; [done|]. cbn. f_equal. exact IH.
    + split; [apply length_replicate|..].
      * rewrite app_nil_r. induction (length qs); [done|]. by cbn.
      * intros i l c [-> _]%lookup_replicate I. by apply elem_of_nil in I.
  - destruct IH as (ls & tr & E & O). rewrite foldl_app, E. cbn [foldl]. by apply schedule_expr_ok.
Qed.

(** The plan: patterns in a new order, filters once their variables are bound. *)
Lemma plan_shape clauses : (∀ c, c ∈ clauses → clause_ok c) →
  ∃ qs ls tr, qs ≡ₚ patterns_of clauses ∧ schedule_ok qs (exprs_of clauses) ls tr ∧
    plan clauses = mjoin (zip_with (λ q l, (CPattern q, Some (select_index q)) :: ((λ c, (c, None)) <$> l)) qs ls)
                   ++ ((λ c, (c, None)) <$> tr).
Proof.
  clear. intros O. destruct (collect_plan clauses O) as [B E]. unfold plan. rewrite B, E.
  assert (∃ qs, sort_by_key (λ b, - selectivity b) (bundle_of <$> patterns_of clauses) = bundle_of <$> qs ∧
                qs ≡ₚ patterns_of clauses) as (qs & -> & P).
  { pose proof (sort_by_key_perm (λ b, - selectivity b) (bundle_of <$> patterns_of clauses)) as P.
    apply Permutation_map_inv in P as (qs & E' & P). by exists qs. }
  destruct (schedule_all_ok qs (exprs_of clauses)) as (ls & tr & -> & S).
  exists qs, ls, tr. split; [done|]. split; [done|]. cbn [exprs_after_entry schedule_of trailing_exprs]. f_equal.
  f_equal. rewrite zip_with_fmap_l, zip_with_fmap_r. apply zip_with_ext; [|done..].
  intros q l. unfold planned_bundle, planned_entry. cbn. by rewrite app_nil_r.
Qed.

(** * Filters commute with joins *)

Section plain.
Context (m : PatternMatcher) (registry : FunctionRegistry).
Context (no_metadata : retain_fact_metadata m = false).
Context (Hplain : ∀ f, f ∈ get_facts m → plain_value (value f) = true).

Lemma plain_facts_ok : facts_ok parse_str new_v5_oid (get_facts m).
Proof using Hplain.
  split.
  - intros f F. apply Hplain in F. by destruct (value f).
  - intros f g k k' F _ Vf. apply Hplain in F. by rewrite Vf in F.
Qed.
Lemma plain_spell b : row_ok (get_facts m) b → spell parse_str new_v5_oid b = b.
Proof using Hplain.
  intros B. apply map_eq. intros x. rewrite spell_lookup. destruct (b !! x) as [w|] eqn:E; [|done]. cbn. f_equal.
  apply B in E as (_ & _ & K). destruct w as [s|i|f|y|y|k|]; try done.
  destruct (K k eq_refl) as (f & F & V). apply Hplain in F. by rewrite V in F.
Qed.

(** The rows of a stage: variables of [bound] that are no wildcards have a value. *)
Definition rows_bind (bound : gset string) (rows : list (gmap string Value)) : Prop :=
  ∀ b, b ∈ rows → row_ok (get_facts m) b ∧ ∀ x, x ∈ bound → is_wildcard x = false → is_Some (b !! x).

Lemma pattern_bound_vars_visible p x : pattern_ok p → x ∈ pattern_bound_vars p → is_wildcard x = false →
  x ∈ pattern_vars p.
Proof using.
  clear. intros [[a R] _]. unfold pattern_bound_vars, pattern_vars. rewrite R. cbn.
  assert (∀ c, x ∈ symbol_var c → is_wildcard x = false → x ∈ component_vars c) as C.
  { intros c. unfold symbol_var. destruct c as [k|s|s|i|f|y|u|l|l|l| |s]; cbn; try by intros ?%elem_of_nil.
    unfold is_var. destruct (String.prefix "?" s); cbn; [|by intros ?%elem_of_nil].
    intros ->%list_elem_of_singleton W. rewrite W. by left. }
  rewrite !elem_of_app. intros [H|H] W; [left|right]; by apply C.
Qed.

Lemma join_rows_bind bound rows p : pattern_ok p → rows_bind bound rows →
  rows_bind (bound ∪ list_to_set (pattern_bound_vars p)) (join m rows p).
Proof using no_metadata Hplain.
  intros P B b' I. destruct (join_spells parse_str new_v5_oid uuid_to_string m no_metadata plain_facts_ok rows p P)
    as [_ J]; [intros b Ib; by apply B|].
  destruct (J b' I) as (O & b & Ib & Sub & D). split; [done|]. intros x [Hx|Hx]%elem_of_union W.
  - destruct (proj2 (B b Ib) x Hx W) as [w E]. exists w. by apply (lookup_weaken b).
  - apply elem_of_list_to_set in Hx. apply elem_of_dom. rewrite D.
    apply elem_of_union. right. apply elem_of_list_to_set. by apply pattern_bound_vars_visible.
Qed.

(** A filter whose variables are bound decides alike on every extension. *)
Definition decided (bound : gset string) (K : gmap string Value → bool) : Prop :=
  ∀ b b' : gmap string Value, row_ok (get_facts m) b → row_ok (get_facts m) b' →
    (∀ x, x ∈ bound → is_wildcard x = false → is_Some (b !! x)) → b ⊆ b' → K b = K b'.

Lemma keeps_decided bound c : clause_expr_vars c ⊆ bound → decided bound (keeps registry c).
Proof using.
  clear. intros V b b' O O' B S. destruct c as [| | | |e out| |]; try done. cbn.
  rewrite (eval_expr_ext e b b'); [done|]. intros x Hx.
  destruct (b !! x) as [w|] eqn:E; [symmetry; by apply (lookup_weaken b)|].
  destruct (b' !! x) as [w'|] eqn:E'; [|done]. exfalso. destruct (O' x w' E') as [[_ W] _].
  destruct (B x) as [w Ew]; [|done|congruence]. apply V. cbn. by apply elem_of_list_to_set.
Qed.
Lemma keeps_all_decided bound cs : (∀ c, c ∈ cs → clause_expr_vars c ⊆ bound) → decided bound (keeps_all registry cs).
Proof using.
  clear. intros V b b' O O' B S. apply forallb_ext. intros c I. apply (keeps_decided bound c (V c I)); done.
Qed.

Lemma List_filter_flat_map {A B} (K : B → bool) (g : A → list B) l :
  List.filter K (flat_map g l) = flat_map (λ x, List.filter K (g x)) l.
Proof using. clear. induction l as [|x l IH]; [done|]. cbn. by rewrite List.filter_app, IH. Qed.
Lemma flat_map_List_filter {A B} (K : A → bool) (g : A → list B) l :
  flat_map g (List.filter K l) = flat_map (λ x, if K x then g x else []) l.
Proof using. clear. induction l as [|x l IH]; [done|]. cbn. destruct (K x); cbn; by rewrite IH. Qed.

Lemma join_filter bound rows p K : pattern_ok p → rows_bind bound rows → decided bound K →
  join m (List.filter K rows) p = List.filter K (join m rows p).
Proof using no_metadata Hplain.
  intros P B D.
  rewrite !(join_rows parse_str new_v5_oid uuid_to_string m no_metadata plain_facts_ok); try done.
  2: { intros b I. by apply B. }
  2: { intros b [_ I]%elem_of_List_filter. by apply B. }
  rewrite List_filter_flat_map, flat_map_List_filter. apply flat_map_ext_in. intros b Ib.
  assert (∀ b', b' ∈ omap (scan_fact parse_str new_v5_oid uuid_to_string m p b) (get_facts m) → K b' = K b) as E.
  { intros b' (f & F & S)%list_elem_of_omap. destruct (B b Ib) as [O V].
    destruct (scan_row_ok parse_str new_v5_oid uuid_to_string m no_metadata plain_facts_ok p b f b') as (O' & Sub & _); try done.
    symmetry. by apply D. }
  destruct (K b) eqn:Kb.
  - symmetry. apply List_filter_id. intros b' I. by rewrite E.
  - induction (omap _ _) as [|b' l IH]; [done|]. cbn. rewrite E by left. apply IH. intros b'' I. apply E. by right.
Qed.

Lemma joins_filter bound rows ps K : (∀ p, p ∈ ps → pattern_ok p) → rows_bind bound rows → decided bound K →
  foldl (join m) (List.filter K rows) ps = List.filter K (foldl (join m) rows ps).
Proof using no_metadata Hplain. clear is_match.
  revert bound rows. induction ps as [|p ps IH]; intros bound rows P B D; [done|]. cbn [foldl].
  rewrite (join_filter bound) by (done || (apply P; left)).
  apply (IH (bound ∪ list_to_set (pattern_bound_vars p))).
  - intros; apply P; by right.
  - apply join_rows_bind; [apply P; left|done].
  - intros b b' O O' V S. apply D; try done. intros x Hx. apply V. set_solver.
Qed.

Lemma rows_bind_filter bound K rows : rows_bind bound rows → rows_bind bound (List.filter K rows).
Proof using. clear. intros B b [_ I]%elem_of_List_filter. by apply B. Qed.

Lemma filters_run rows cs : (∀ c, c ∈ cs → clause_ok c ∧ is_expr c = true) →
  foldR (planned_step m registry) rows ((λ c, (c, None)) <$> cs) = Ok (List.filter (keeps_all registry cs) rows).
Proof using.
  intros O. rewrite foldR_fmap. rewrite <-(expr_steps_filter registry rows cs O).
  revert rows O. induction cs as [|c cs IH]; intros rows O; [done|]. cbn [foldR].
  destruct (O c) as [_ E]; [left|]. destruct c as [| | | |e out| |]; try done. cbn [planned_step fst].
  destruct (expr_step is_match registry rows (CExpr e out)); cbn; [|done]. apply IH. intros; apply O; by right.
Qed.

(** Running the body of a plan: join everything, filter at the end. *)
Lemma run_body bound qs ls rows : length ls = length qs → (∀ q, q ∈ qs → pattern_ok q) → rows_bind bound rows →
  (∀ l c, l ∈ ls → c ∈ l → clause_ok c ∧ is_expr c = true) →
  (∀ i l c, ls !! i = Some l → c ∈ l →
     clause_expr_vars c ⊆ bound ∪ list_to_set (flat_map pattern_bound_vars (take (S i) qs))) →
  foldR (planned_step m registry) rows
    (mjoin (zip_with (λ q l, (CPattern q, Some (select_index q)) :: ((λ c, (c, None)) <$> l)) qs ls))
  = Ok (List.filter (keeps_all registry (mjoin ls)) (foldl (join m) rows qs)).
Proof using no_metadata Hplain.
  revert bound ls rows. induction qs as [|q qs IH]; intros bound [|l ls] rows L P B O V; try done.
  { cbn. by rewrite List_filter_id. }
  cbn [zip_with mjoin list_join foldl]. rewrite <-app_comm_cons. cbn [foldR planned_step fst].
  rewrite match_with_hint_is_join. cbn [mbind result_bind].
  rewrite foldR_app, filters_run by (intros c Ic; apply (O l); [left|done]). cbn [mbind result_bind].
  set (bound' := bound ∪ list_to_set (pattern_bound_vars q)).
  assert (pattern_ok q) as Pq by (apply P; left).
  assert (rows_bind bound' (join m rows q)) as B' by by apply join_rows_bind.
  rewrite (IH bound').
  - f_equal. rewrite (joins_filter bound').
    + rewrite <-List_filter_filter. apply List_filter_ext. intros b _. unfold keeps_all.
      rewrite forallb_app. apply andb_comm.
    + intros; apply P; by right.
    + done.
    + apply keeps_all_decided. intros c Ic. specialize (V 0%nat l c eq_refl Ic). cbn in V.
      rewrite app_nil_r in V. done.
  - cbn in L. lia.
  - intros; apply P; by right.
  - by apply rows_bind_filter.
  - intros l' c Il. apply O. by right.
  - intros i l' c E I. specialize (V (S i) l' c E I). cbn [take flat_map] in V.
    rewrite list_to_set_app_L in V. unfold bound'. set_solver.
Qed.

(** Filters in the middle of the joins, once their variables are bound. *)
Lemma run_clauses bound clauses rows : (∀ c, c ∈ clauses → clause_ok c) → rows_bind bound rows →
  bound_before bound clauses = true →
  foldR (written_step m registry) rows clauses =
  Ok (List.filter (keeps_all registry (exprs_of clauses)) (foldl (join m) rows (patterns_of clauses))).
Proof using no_metadata Hplain.
  revert bound rows. induction clauses as [|c clauses IH]; intros bound rows O B V; [cbn; by rewrite List_filter_id|].
  assert (∀ p, p ∈ patterns_of clauses → pattern_ok p) as Op.
  { intros p (c' & I & X)%list_elem_of_omap. specialize (O c' ltac:(by right)). destruct c'; try done. by injection X as ->. }
  assert (clause_ok c) as Oc by (apply O; left). cbn [foldR].
  destruct c as [p| | | |e out| |]; try by destruct Oc.
  - cbn [written_step mbind result_bind]. apply (IH (bound ∪ list_to_set (pattern_bound_vars p))); [|by apply join_rows_bind|done].
    intros; apply O; by right.
  - cbn [bound_before] in V. apply andb_true_iff in V as [Ve V]. apply bool_decide_eq_true in Ve.
    unfold written_step at 2. rewrite expr_step_filter by done. cbn [mbind result_bind].
    rewrite (IH bound); [|intros; apply O; by right|by apply rows_bind_filter|done]. f_equal.
    rewrite (joins_filter bound) by (done || by apply keeps_decided).
    rewrite <-List_filter_filter. apply List_filter_ext. intros b _. unfold keeps_all, exprs_of. cbn. apply andb_comm.
Qed.
End plain.

(** The executor's bounded loop returns what the unbounded one does, or refuses. *)
Lemma run_planned_bounded_Ok m registry max_results planned rows : 0 ≤ max_results →
  run_planned_bounded m registry max_results planned = Ok rows → run_planned m registry planned = Ok rows.
Proof.
  intros P. unfold run_planned_bounded, run_planned. generalize ([∅] : list (gmap string Value)).
  induction planned as [|[c h] planned IH]; intros seed; [done|]. cbn [foldR].
  intros (next & E & F)%bind_Ok. apply IH in F.
  enough (planned_step m registry seed (c, h) = Ok next) as -> by done.
  unfold planned_step, planned_step_bounded in *. cbn [fst] in *. destruct c as [p| | | |e out| |]; try done.
  f_equal. rewrite match_with_hint_is_join. unfold match_with_hint_seeded_bounded in E.
  destruct seed as [|b seed]; [by injection E as <-|].
  destruct (max_results <? _); [done|]. destruct (is_unit_seed (b :: seed)) eqn:U.
  - rewrite match_pattern_bounded_spec in E by done. unfold within in E.
    destruct (_ <=? max_results); [|done]. injection E as <-.
    rewrite <-match_with_hint_is_join. unfold match_with_hint_seeded. by rewrite U.
  - rewrite join_bounded_spec in E by done. apply bind_Ok in E as (? & _ & E). unfold within in E.
    destruct (_ <=? max_results); [|done]. by injection E as <-.
Qed.

Lemma plan_preserves_lemma m registry clauses :
  retain_fact_metadata m = false →
  (∀ f, f ∈ get_facts m → plain_value (value f) = true) →
  (∀ c, c ∈ clauses → clause_ok c) →
  ∃ rows rows', run_planned m registry (plan clauses) = Ok rows ∧
    join_then_filter m registry clauses = Ok rows' ∧ rows ≡ₚ rows'.
Proof.
  intros N F O. destruct (plan_shape clauses O) as (qs & ls & tr & P & [L Pe B] & E).
  assert (∀ q, q ∈ qs → pattern_ok q) as Oq.
  { intros q Iq. rewrite P in Iq. apply list_elem_of_omap in Iq as (c & Ic & Ec).
    apply O in Ic. destruct c; try done. by injection Ec as ->. }
  assert (∀ c, c ∈ exprs_of clauses → clause_ok c ∧ is_expr c = true) as Oe.
  { intros c [Ec Ic]%elem_of_List_filter. split; [by apply O|done]. }
  assert (∀ c, c ∈ mjoin ls ++ tr → clause_ok c ∧ is_expr c = true) as Ol.
  { intros c Ic. apply Oe. by rewrite <-Pe. }
  assert (rows_bind m ∅ [∅]) as B0.
  { intros b ->%list_elem_of_singleton. split; [done|]. intros x []%elem_of_empty. }
  exists (List.filter (keeps_all registry (mjoin ls ++ tr)) (foldl (join m) [∅] qs)),
         (List.filter (keeps_all registry (exprs_of clauses)) (foldl (join m) [∅] (patterns_of clauses))).
  split; [|split].
  - unfold run_planned. rewrite E, foldR_app.
    rewrite (run_body m registry N F ∅ qs ls [∅] L Oq B0).
    + cbn [mbind result_bind]. rewrite filters_run by (intros c Ic; apply Ol, elem_of_app; by right).
      f_equal. rewrite <-List_filter_filter. apply List_filter_ext. intros b _. unfold keeps_all.
      rewrite forallb_app. apply andb_comm.
    + intros l c Il Ic. apply Ol, elem_of_app. left. apply list_elem_of_join. by exists l.
    + intros i l c El Ic. rewrite (left_id_L ∅ (∪)). by apply (B i l).
  - unfold join_then_filter. by apply expr_steps_filter.
  - assert (∀ b, keeps_all registry (mjoin ls ++ tr) b = keeps_all registry (exprs_of clauses) b) as K.
    { intros b. unfold keeps_all. apply iff_bool_eq. rewrite !forallb_elem.
      split; intros H c Ic; apply H; [by rewrite Pe|by rewrite <-Pe]. }
    rewrite (List_filter_ext _ (keeps_all registry (exprs_of clauses))) by (intros; apply K).
    apply List_filter_perm.
    assert (∀ ps, (∀ p, p ∈ ps → pattern_ok p) →
              spell parse_str new_v5_oid <$> foldl (join m) [∅] ps = foldl (join m) [∅] ps) as Sp.
    { intros ps Op. destruct (joins_spell parse_str new_v5_oid uuid_to_string m N (plain_facts_ok m F) ps [∅] Op)
        as [_ R]; [by intros b ->%list_elem_of_singleton|].
      rewrite <-list_fmap_id. apply list_fmap_ext. intros i b Eb. apply (plain_spell m F), R.
      by apply list_elem_of_lookup_2 in Eb. }
    destruct (joins_permute parse_str new_v5_oid uuid_to_string m qs (patterns_of clauses) N
                (plain_facts_ok m F) Oq P) as [_ J].
    rewrite (Sp qs Oq), (Sp (patterns_of clauses)) in J; [by symmetry|].
    intros p Ip. apply Oq. by rewrite P.
Qed.

(** The rows of a planned query, declaratively: a fact chosen for each pattern, then
    every filter. *)
Lemma plan_solutions m registry clauses :
  retain_fact_metadata m = false →
  (∀ f, f ∈ get_facts m → plain_value (value f) = true) →
  (∀ c, c ∈ clauses → clause_ok c) →
  ∃ rows, run_planned m registry (plan clauses) = Ok rows ∧
    rows ≡ₚ List.filter (keeps_all registry (exprs_of clauses))
              (solutions parse_str new_v5_oid (get_facts m) (patterns_of clauses) ∅).
Proof.
  intros N F O. destruct (plan_preserves_lemma m registry clauses N F O) as (rows & rows' & E & E' & P).
  exists rows. split; [done|]. rewrite P. unfold join_then_filter in E'.
  rewrite expr_steps_filter in E' by (intros c [X I]%elem_of_List_filter; split; [by apply O|done]).
  injection E' as <-.
  assert (∀ p, p ∈ patterns_of clauses → pattern_ok p) as Op.
  { intros p (c & I & X)%list_elem_of_omap. apply O in I. destruct c; try done. by injection X as ->. }
  destruct (joins_permute parse_str new_v5_oid uuid_to_string m _ _ N (plain_facts_ok m F) Op (reflexivity _)) as [<- _].
  destruct (joins_spell parse_str new_v5_oid uuid_to_string m N (plain_facts_ok m F) (patterns_of clauses) [∅] Op)
    as [_ R]; [by intros b ->%list_elem_of_singleton|].
  rewrite <-(list_fmap_id (foldl (join m) [∅] (patterns_of clauses))) at 1. apply List_filter_perm, reflexive_eq.
  symmetry. apply list_fmap_ext. intros i b Eb. apply (plain_spell m F), R. by apply list_elem_of_lookup_2 in Eb.
Qed.

Lemma plan_members clauses c h : (∀ c, c ∈ clauses → clause_ok c) → (c, h) ∈ plan clauses → clause_ok c.
Proof.
  clear. intros O. destruct (plan_shape clauses O) as (qs & ls & tr & P & [L Pe _] & ->).
  assert (∀ c, c ∈ mjoin ls ++ tr → clause_ok c) as Ol.
  { intros c'. rewrite Pe. intros [_ I]%elem_of_List_filter. by apply O. }
  intros [I|I]%elem_of_app.
  - apply list_elem_of_join in I as (l & Il & I). apply list_elem_of_lookup in I as [i Ei].
    apply lookup_zip_with_Some in Ei as (q & es & -> & Eq & Ee). apply elem_of_cons in Il as [[= -> _]|Il].
    + apply list_elem_of_lookup_2 in Eq. rewrite P in Eq. apply list_elem_of_omap in Eq as (c' & I' & X).
      destruct c'; try done. injection X as ->. by apply O in I'.
    + apply list_elem_of_fmap in Il as (c' & [= -> _] & I'). apply Ol, elem_of_app. left. apply list_elem_of_join.
      exists es. split; [done|]. by apply list_elem_of_lookup_2 in Ee.
  - apply list_elem_of_fmap in I as (c' & [= -> _] & I'). apply Ol, elem_of_app. by right.
Qed.

(** The bounded loop over plain clauses fails only at the binding limit. *)
Lemma run_planned_bounded_Err m registry max_results planned e : 0 ≤ max_results →
  (∀ c h, (c, h) ∈ planned → clause_ok c) →
  run_planned_bounded m registry max_results planned = Err e → e = BINDING_LIMIT.
Proof.
  intros P. unfold run_planned_bounded. generalize ([∅] : list (gmap string Value)).
  induction planned as [|[c h] planned IH]; intros seed O; [done|]. cbn [foldR].
  destruct (planned_step_bounded m registry max_results seed (c, h)) as [next|e'] eqn:S; cbn [mbind result_bind].
  - apply IH. intros c' h' I. apply (O c' h'). by right.
  - intros [= ->]. assert (clause_ok c) as Oc by (apply (O c h); left). unfold planned_step_bounded in S. cbn [fst] in S.
    destruct c as [p| | | |ex out| |]; try done.
    + unfold match_with_hint_seeded_bounded in S. destruct seed as [|b seed]; [done|].
      destruct (max_results <? _); [by injection S|]. destruct (is_unit_seed (b :: seed)).
      * rewrite match_pattern_bounded_spec in S by done. unfold within in S. destruct (_ <=? max_results); [done|by injection S].
      * rewrite join_bounded_spec in S by done.
        destruct (join_var (b :: seed) p); [rewrite match_pattern_bounded_spec in S by done|]; unfold within in S.
        -- repeat (destruct (_ <=? max_results); cbn in S); try done; by injection S.
        -- cbn in S. destruct (_ <=? max_results); [done|by injection S].
    + rewrite expr_step_filter in S by done. done.
Qed.

(** C15: planning does not change the answers.  For a query of patterns with
    constant attributes and no repeated variables, and of filter expressions
    without division, over facts whose values are neither floats nor keywords,
    matched without fact metadata: running the plan (patterns sorted by
    selectivity, each filter moved to the first place where its variables are
    bound) returns, up to their order, the rows obtained by choosing a fact for
    each pattern and keeping those that pass every filter; and where every
    expression is written after patterns that bind its variables, as the
    parser requires, running the clauses in the order in which they are written
    returns too, with the same rows up to their order. *)
Theorem plan_preserves_answers m registry clauses :
  retain_fact_metadata m = false →
  (∀ f, f ∈ get_facts m → plain_value (value f) = true) →
  (∀ c, c ∈ clauses → clause_ok c) →
  ∃ rows, run_planned m registry (plan clauses) = Ok rows ∧
    rows ≡ₚ List.filter (keeps_all registry (exprs_of clauses))
              (solutions parse_str new_v5_oid (get_facts m) (patterns_of clauses) ∅) ∧
    (bound_before ∅ clauses = true → ∃ rows', run_as_written m registry clauses = Ok rows' ∧ rows ≡ₚ rows').
Proof.
  intros N F O. destruct (plan_solutions m registry clauses N F O) as (rows & E & P). exists rows. split; [done|]. split; [done|].
  intros V. destruct (plan_preserves_lemma m registry clauses N F O) as (rows1 & rows' & E1 & E' & P').
  rewrite E in E1. injection E1 as <-. exists rows'. split; [|done]. rewrite <-E'. unfold run_as_written, join_then_filter.
  rewrite (run_clauses m registry N F ∅) by
    (done || (intros b ->%list_elem_of_singleton; split; [done|]; by intros x []%elem_of_empty)).
  rewrite expr_steps_filter; [done|]. intros c [Ec Ic]%elem_of_List_filter. split; [by apply O|done].
Qed.
End run.

Definition sample_query : list WhereClause := [
  CPattern friend_pattern;
  CPattern name_pattern;
  CExpr (Bin OpEq (Var "?n") (Lit (VString "Bob"))) None;
  CPattern (pattern_new (EUuid 1) (EKeyword ":name") (ESymbol "?own"))].

Lemma plan_preserves_answers_witness :
  ∃ rows rows', run_planned no_uuid v5_stub print_stub (λ _ _, false) (from_slice sample_facts) with_builtins (plan sample_query) = Ok rows ∧
    run_as_written no_uuid v5_stub print_stub (λ _ _, false) (from_slice sample_facts) with_builtins sample_query = Ok rows' ∧
    rows ≡ₚ rows' ∧ length rows = 1%nat ∧ (plan sample_query).*1 ≠ sample_query.
Proof.
  destruct (plan_preserves_answers no_uuid v5_stub print_stub (λ _ _, false) (from_slice sample_facts) with_builtins sample_query)
    as (rows & E & _ & W).
  - done.
  - intros f. cbn. unfold sample_facts. rewrite !elem_of_cons, elem_of_nil. intros [->|[->|[->|[]]]]; done.
  - intros c. unfold sample_query. rewrite !elem_of_cons, elem_of_nil. intros [->|[->|[->|[->|[]]]]]; cbn.
    1,2,4: split; [by eexists|apply (bool_decide_unpack _); vm_compute; exact I].
    done.
  - destruct W as (rows' & E' & P); [vm_compute; reflexivity|].
    exists rows, rows'. split; [done|]. split; [done|]. split; [done|]. split; [|done].
    vm_compute in E. by injection E as <-.
Defined.
