(* ===== verification/Branches.v ===== *)
(** Negation and disjunction in where clauses: the substitution of a row into a
    pattern and [not-join] (src/src/query/datalog/evaluator.rs), [not] bodies,
    [or] branches and [or-join] (src/src/query/datalog/executor.rs).

    An error of [apply_expr_clauses] that the source replaces by an empty result
    is replaced here as well; a panic is not.  The clock, read when a branch has no
    [:valid-at], is the argument [now].  A vector of a row's entries sorted by name
    is a canonical form of the row; the row itself is used in its place. *)
From S2P Require Import Prelude Types Floats HashKeys NetView FactStore QueryTypes Functions Expressions Matcher JoinOrder Optimizer.
Set Default Proof Using "Type".

(** * Substitution (evaluator.rs) *)

(** [value_to_edn] of the evaluator: [Null] becomes the symbol [nil]. *)
Definition value_to_edn (v : Value) : EdnValue :=
  match v with
  | VString s => EString s
  | VInteger i => EInteger i
  | VFloat f => EFloat f
  | VBoolean b => EBoolean b
  | VRef u => EUuid u
  | VKeyword k => EKeyword k
  | VNull => ESymbol "nil"
  end.
Definition substitute_value (e : EdnValue) (b : Row) : EdnValue :=
  match as_variable e with
  | Some var => match b !! var with Some v => value_to_edn v | None => e end
  | None => e
  end.
Definition substitute_pattern (p : Pattern) (b : Row) : Pattern :=
  mkPattern (substitute_value (pat_entity p) b)
    match pat_attribute p with Real e => Real (substitute_value e b) | Pseudo ps => Pseudo ps end
    (substitute_value (pat_value p) b) (pat_valid_from p) (pat_valid_to p).

Definition RULE_VALUE : EdnValue := ESymbol "?_rule_value".
Definition rule_invocation_to_pattern (predicate : string) (args : list EdnValue) : result Pattern :=
  match args with
  | [arg0] => Ok (pattern_new arg0 (EKeyword (":" +:+ predicate)) RULE_VALUE)
  | [arg0; arg1] => Ok (pattern_new arg0 (EKeyword (":" +:+ predicate)) arg1)
  | _ => Err ("Rule invocation '" +:+ predicate +:+ "' must have 1 or 2 arguments")
  end.
Definition ok_option {A} (r : result A) : option A := match r with Ok a => Some a | Err _ => None end.

(** * Helpers *)

(** [unwrap_or_default] on a result; a panic is not a result. *)
Definition unwrap_or_default {A} (r : result (list A)) : result (list A) :=
  match r with
  | Ok x => Ok x
  | Err e => if bool_decide (e = DIV_PANIC) then Err e else Ok []
  end.
Fixpoint filterR {A} (f : A → result bool) (l : list A) : result (list A) :=
  match l with
  | [] => Ok []
  | x :: l => keep ← f x; rest ← filterR f l; Ok (if keep : bool then x :: rest else rest)
  end.
(** A loop that stops at the first [true]. *)
Fixpoint anyR {A} (f : A → result bool) (l : list A) : result bool :=
  match l with
  | [] => Ok false
  | x :: l => hit ← f x; if hit : bool then Ok true else anyR f l
  end.

Fixpoint clause_uses_per_fact_pseudo_attr (c : WhereClause) : bool :=
  match c with
  | CPattern p => match pat_attribute p with Pseudo pa => is_per_fact pa | Real _ => false end
  | Not inner | NotJoin _ inner => existsb clause_uses_per_fact_pseudo_attr inner
  | Or branches | OrJoin _ branches => existsb (existsb clause_uses_per_fact_pseudo_attr) branches
  | RuleInvocation _ _ | CExpr _ _ => false
  end.
Definition clauses_use_per_fact_pseudo_attr (cs : list WhereClause) : bool :=
  existsb clause_uses_per_fact_pseudo_attr cs.

Definition not_bodies (cs : list WhereClause) : list (list WhereClause) :=
  omap (λ c, match c with Not inner => Some inner | _ => None end) cs.
Definition not_join_bodies (cs : list WhereClause) : list (list string * list WhereClause) :=
  omap (λ c, match c with NotJoin vars inner => Some (vars, inner) | _ => None end) cs.

Definition VALID_AT_SLOT : string := "internal: unsubstituted :valid-at bind slot reached the executor".
Definition valid_at_binding (now : Z) (valid_at : option NetView.ValidAt) : result Value :=
  match valid_at with
  | Some (ValidAtTimestamp t) => Ok (VInteger t)
  | Some AnyValidTime => Ok VNull
  | Some (ValidAtSlot _) => Err VALID_AT_SLOT
  | None => Ok (VInteger now)
  end.

(** Rows as keys of a hash set. *)
Definition row_key_eq (a b : Row) : bool :=
  bool_decide (dom a = dom b) &&
  forallb (λ '(x, v), match b !! x with Some w => hash_key_eq v w | None => false end) (map_to_list a).
(** The user-visible part of a row. *)
Definition is_internal (s : string) : bool := String.prefix "__" s.
Definition visible_part (b : Row) : gmap string Value := filter (λ e, is_internal e.1 = false) b.

(** Push a row unless its key was seen. *)
Definition push_new (max_results : Z) (key : Row → gmap string Value)
    (st : list (gmap string Value) * list (gmap string Value)) (b : Row)
    : result (list (gmap string Value) * list (gmap string Value)) :=
  let '(seen, rows) := st in
  if existsb (row_key_eq (key b)) seen then Ok st
  else if max_results <=? Z.of_nat (length rows) then Err BINDING_LIMIT
  else Ok (key b :: seen, rows ++ [b]).

Definition key_of (vars : list string) (b : Row) : list (string * Value) :=
  omap (λ v, (λ w, (v, w)) <$> b !! v) vars.
Definition all_vars (rows : list (gmap string Value)) : gset string := ⋃ (dom <$> rows).

(** Join two sets of rows on the key, the left row's entries first. *)
Definition join_on (max_results : Z) (vars : list string) (incoming branch : list (gmap string Value))
    : result (list (gmap string Value)) :=
  let branch_map := group_by list_key_eq (key_of vars) branch in
  st ← foldR (λ st b,
          foldR (push_new max_results id) st
            ((λ d, b ∪ d) <$> default [] (hm_get list_key_eq branch_map (key_of vars b)))) ([], []) incoming;
  Ok st.2.

Section branches.
Context (parse_str : string → option Z) (new_v5_oid : string → Z) (uuid_to_string : Z → string).
Context (is_match : string → string → bool).
#[local] Abbreviation matches m := (match_patterns parse_str new_v5_oid uuid_to_string m).

(** * [not] and [not-join] *)

Definition body_patterns (b : Row) (body : list WhereClause) : list Pattern :=
  omap (λ c, match c with CPattern p => Some (substitute_pattern p b) | _ => None end) body.

Definition not_body_matches (facts : list Fact) (valid_at : Value) (registry : FunctionRegistry)
    (not_body : list WhereClause) (outer : Row) : result bool :=
  let patterns := body_patterns outer not_body in
  let m := from_slice_with_valid_at_and_metadata facts valid_at (clauses_use_per_fact_pseudo_attr not_body) in
  let rows := match patterns with
              | [] => [outer]
              | _ => (λ nb, nb ∪ outer) <$> matches m patterns
              end in
  rows ← unwrap_or_default (apply_expr_clauses is_match rows not_body registry);
  Ok (match rows with [] => false | _ => true end).

Definition evaluate_not_join (facts : list Fact) (registry : FunctionRegistry)
    (join_vars : list string) (clauses : list WhereClause) (b : Row) : result bool :=
  let partial : gmap string Value := filter (λ e, e.1 ∈ join_vars) b in
  let substituted :=
    omap (λ c, match c with
               | CPattern p => Some (substitute_pattern p partial)
               | RuleInvocation predicate args =>
                 p ← ok_option (rule_invocation_to_pattern predicate args); Some (substitute_pattern p partial)
               | _ => None
               end) clauses in
  let rows := match substituted with
              | [] => [partial]
              | _ => (λ nb, nb ∪ partial) <$> matches (from_slice facts) substituted
              end in
  rows ← apply_expr_clauses_in_evaluator is_match rows (exprs_of clauses) registry;
  Ok (match rows with [] => false | _ => true end).

(** A row survives when no body holds. *)
Definition survives_negation (facts : list Fact) (valid_at : Value) (registry : FunctionRegistry)
    (clauses : list WhereClause) (b : Row) : result bool :=
  hit ← anyR (λ body, not_body_matches facts valid_at registry body b) (not_bodies clauses);
  if hit : bool then Ok false
  else hit ← anyR (λ '(vars, body), evaluate_not_join facts registry vars body b) (not_join_bodies clauses);
       Ok (negb hit).

(** * Branches *)

Definition branch_patterns (branch : list WhereClause) : list Pattern :=
  omap (λ c, match c with
             | CPattern p => Some p
             | RuleInvocation predicate args => ok_option (rule_invocation_to_pattern predicate args)
             | _ => None
             end) branch.

Section one_query.
Context (facts : list Fact) (now : Z) (valid_at : option NetView.ValidAt) (registry : FunctionRegistry).
Context (max_results : Z).

(** [evaluate_branch], with the nested disjunctions of the branch as an argument. *)
Definition evaluate_branch_with (nested : list (gmap string Value) → result (list (gmap string Value)))
    (branch : list WhereClause) (incoming : list (gmap string Value)) : result (list (gmap string Value)) :=
  match incoming with
  | [] => Ok []
  | _ =>
    va ← valid_at_binding now valid_at;
    let patterns := branch_patterns branch in
    let m := from_slice_with_valid_at_and_metadata facts va (clauses_use_per_fact_pseudo_attr branch) in
    rows ← match patterns with
           | [] => Ok incoming
           | _ => match_patterns_bounded parse_str new_v5_oid uuid_to_string m patterns incoming max_results
           end;
    match rows with
    | [] => Ok []
    | _ =>
      rows ← nested rows;
      match rows with
      | [] => Ok []
      | _ =>
        rows ← filterR (survives_negation facts va registry branch) rows;
        apply_expr_clauses is_match rows branch registry
      end
    end
  end.

Definition has_not (branch : list WhereClause) : bool :=
  existsb (λ c, match c with Not _ | NotJoin _ _ => true | _ => false end) branch.

(** The branches of a clause with what evaluates them, cheapest first. *)
Definition Branch : Type := list WhereClause * (list (gmap string Value) → result (list (gmap string Value))).
Definition sort_branches (branches : list Branch) : list Branch := sort_by_key (λ br, branch_cost br.1) branches.

(** The union of the branches, each run on the same seed. *)
Definition union_branches (branches : list Branch) (key : Row → gmap string Value)
    (post : gmap string Value → option (gmap string Value)) (seed : list (gmap string Value))
    : result (list (gmap string Value)) :=
  st ← foldR (λ st br, rows ← br.2 seed; foldR (push_new max_results key) st (omap post rows)) ([], []) branches;
  Ok st.2.

Definition or_clause (branches : list Branch) (rows : list (gmap string Value)) : result (list (gmap string Value)) :=
  let sorted := sort_branches branches in
  if existsb (λ br, has_not br.1) sorted then union_branches sorted visible_part Some rows
  else
    union ← union_branches sorted visible_part Some [∅];
    let branch_vars := filter (λ x, is_internal x = false) (all_vars union) in
    let shared := elements (filter (λ x, is_internal x = false) (all_vars rows) ∩ branch_vars) in
    match shared with
    | [] => Ok union
    | _ => join_on max_results shared rows union
    end.

Definition or_join_clause (join_vars : list string) (branches : list Branch) (rows : list (gmap string Value))
    : result (list (gmap string Value)) :=
  let sorted := sort_branches branches in
  let outer := all_vars rows in
  _ ← ensure (forallb (λ v, bool_decide (v ∈ outer)) join_vars) "or-join variable is not bound in the incoming scope";
  let project (b : gmap string Value) :=
    if forallb (λ v, bool_decide (is_Some (b !! v))) join_vars
    then Some (filter (λ e, e.1 ∈ outer) b) else None in
  projected ← union_branches sorted id project [∅];
  join_on max_results join_vars rows projected.

Fixpoint apply_or_clause (c : WhereClause) (rows : list (gmap string Value)) {struct c}
    : result (list (gmap string Value)) :=
  let branch br := (br, evaluate_branch_with (λ rows, foldR (λ rows c, apply_or_clause c rows) rows br) br) in
  match c with
  | Or branches => or_clause (List.map branch branches) rows
  | OrJoin vars branches => or_join_clause vars (List.map branch branches) rows
  | _ => Ok rows
  end.
Definition apply_or_clauses (cs : list WhereClause) (rows : list (gmap string Value))
    : result (list (gmap string Value)) := foldR (λ rows c, apply_or_clause c rows) rows cs.
Definition evaluate_branch (branch : list WhereClause) (incoming : list (gmap string Value))
    : result (list (gmap string Value)) := evaluate_branch_with (apply_or_clauses branch) branch incoming.

Definition as_branch (br : list WhereClause) : Branch := (br, evaluate_branch br).

Lemma apply_or_clause_eq c rows :
  apply_or_clause c rows =
  match c with
  | Or branches => or_clause (as_branch <$> branches) rows
  | OrJoin vars branches => or_join_clause vars (as_branch <$> branches) rows
  | _ => Ok rows
  end.
Proof. by destruct c. Qed.
End one_query.
End branches.
