(* ===== verification/Aggregation.v ===== *)
(** From bindings to result rows (src/src/query/datalog/executor.rs): streaming
    aggregation, window functions and projection.

    A [BTreeMap] is its entries in key order; a [BTreeSet] of values likewise.  The
    accumulator of a user-defined aggregate carries the operations it was created
    with, which the source looks up again in the same registry.  [sort_by] is a stable
    insertion sort: the order it yields when the comparator is a total preorder (Rust
    leaves the order open, or panics, when it is not).  Partitions of a window are
    visited in the order they first occur; they write disjoint rows. *)
From stdpp Require Import pretty.
From S2P Require Import Prelude Types Floats HashKeys NetView FactStore QueryTypes Functions Expressions Matcher JoinOrder.
Set Default Proof Using "Type*".

(** * Ordered maps *)

Section btree_map.
Context {K V : Type} `{Ord K}.
Fixpoint bm_get (k : K) (m : list (K * V)) : option V :=
  match m with
  | [] => None
  | (k', v) :: m => match cmp k k' with Lt => None | Eq => Some v | Gt => bm_get k m end
  end.
(** [insert]: a key that is present stays, its value is replaced. *)
Fixpoint bm_insert (k : K) (v : V) (m : list (K * V)) : list (K * V) :=
  match m with
  | [] => [(k, v)]
  | (k', v') :: m' =>
    match cmp k k' with
    | Lt => (k, v) :: m
    | Eq => (k', v) :: m'
    | Gt => (k', v') :: bm_insert k v m'
    end
  end.
End btree_map.

(** * Accumulators *)

Inductive AggregateAccumulator : Type :=
| AccCount (count : Z)
| AccCountDistinct (values : list Value)
| AccSum (integer floating : Z) (saw_float : bool)
| AccSumDistinct (values : list Value)
| AccMinMax (current : option Value) (minimum : bool)
| AccAvg (sum count : Z)
| AccUdf (ops : UdfOps) (state : udf_acc ops) (count : Z).

Definition unknown_aggregate (func : string) : string := "unknown aggregate function: '" +:+ func +:+ "'".
Definition accumulator_new (func : string) (registry : FunctionRegistry) : result AggregateAccumulator :=
  if bool_decide (func = "count"%string) then Ok (AccCount 0)
  else if bool_decide (func = "count-distinct"%string) then Ok (AccCountDistinct [])
  else if bool_decide (func = "sum"%string) then Ok (AccSum 0 0 false)
  else if bool_decide (func = "sum-distinct"%string) then Ok (AccSumDistinct [])
  else if bool_decide (func = "min"%string) then Ok (AccMinMax None true)
  else if bool_decide (func = "max"%string) then Ok (AccMinMax None false)
  else if bool_decide (func = "avg"%string) then Ok (AccAvg 0 0)
  else match registry_get registry func with
       | Some desc =>
         if agg_is_builtin desc then Err (unknown_aggregate func)
         else match agg_impl desc with
              | Udf ops => Ok (AccUdf ops (udf_init ops) 0)
              | Builtin _ => Err (unknown_aggregate func)
              end
       | None => Err (unknown_aggregate func)
       end.

Definition push_minmax (func : string) (current : option Value) (minimum : bool) (v : Value)
    : result AggregateAccumulator :=
  match v with
  | VInteger _ | VFloat _ | VString _ =>
    match current with
    | None => Ok (AccMinMax (Some v) minimum)
    | Some existing =>
      _ ← ensure (same_variant existing v)
            (func +:+ ": cannot compare " +:+ Fn.value_type_name existing +:+ " and "
               +:+ Fn.value_type_name v +:+ " values");
      let replace := match Fn.value_cmp v existing with
                     | Lt => minimum
                     | Gt => negb minimum
                     | Eq => false
                     end in
      Ok (AccMinMax (Some (if replace then v else existing)) minimum)
    end
  | other => Err (func +:+ ": expected Integer, Float, String, or Null, got " +:+ Fn.value_type_name other)
  end.
Definition push_value (func : string) (acc : AggregateAccumulator) (v : Value) : result AggregateAccumulator :=
  match acc with
  | AccCount count => Ok (AccCount (sat_add_i64 count 1))
  | AccCountDistinct values => Ok (AccCountDistinct (btree_insert v values))
  | AccSum integer floating saw_float =>
    match v with
    | VInteger i => Ok (AccSum (sat_add_i64 integer i) (Float.add floating (Float.of_i64 i)) saw_float)
    | VFloat f => Ok (AccSum integer (Float.add floating f) true)
    | other => Err ("sum: expected Integer, Float, or Null, got " +:+ Fn.value_type_name other)
    end
  | AccSumDistinct values => Ok (AccSumDistinct (btree_insert v values))
  | AccMinMax current minimum => push_minmax func current minimum v
  | AccAvg sum count =>
    match v with
    | VInteger i => Ok (AccAvg (Float.add sum (Float.of_i64 i)) (sat_add_u64 count 1))
    | VFloat f => Ok (AccAvg (Float.add sum f) (sat_add_u64 count 1))
    | _ => Ok acc
    end
  | AccUdf ops state count => Ok (AccUdf ops (udf_step ops state v) (sat_add_u64 count 1))
  end.
(** An unbound variable or a null leaves the accumulator alone. *)
Definition accumulator_push (func : string) (acc : AggregateAccumulator) (v : option Value)
    : result AggregateAccumulator :=
  match v with
  | None | Some VNull => Ok acc
  | Some v => push_value func acc v
  end.

Definition accumulator_finish (acc : AggregateAccumulator) : result (option Value) :=
  match acc with
  | AccCount count => Ok (Some (VInteger count))
  | AccCountDistinct values => Ok (Some (VInteger (usize_to_i64 (length values))))
  | AccSum integer floating saw_float => Ok (Some (if saw_float then VFloat floating else VInteger integer))
  | AccSumDistinct values => v ← apply_builtin_aggregate "sum-distinct" values; Ok (Some v)
  | AccMinMax current _ => Ok current
  | AccAvg sum count => Ok (Some (if count =? 0 then VNull else VFloat (Float.div sum (Float.of_i64 count))))
  | AccUdf ops state count => Ok (Some (if count =? 0 then VNull else udf_finalise ops state count))
  end.

(** * Groups *)

Definition AggregateGroup : Type := list (nat * string * AggregateAccumulator).
Record AggregationSink : Type := mkSink {
  sink_find_specs : list FindSpec;
  sink_registry : FunctionRegistry;
  group_var_names : list string;
  groups : list (list Value * AggregateGroup);
  global_group : option AggregateGroup;
  saw_binding : bool;
}.

Definition find_variables (specs : list FindSpec) : list string :=
  omap (λ s, match s with FVariable v => Some v | _ => None end) specs.
Definition sink_new (specs : list FindSpec) (with_vars : list string) (registry : FunctionRegistry) : AggregationSink :=
  mkSink specs registry
    (find_variables specs ++ (if existsb is_window specs then [] else with_vars)) [] None false.

Definition make_group (specs : list FindSpec) (registry : FunctionRegistry) : result AggregateGroup :=
  mapR (λ '(index, func), acc ← accumulator_new func registry; Ok (index, func, acc))
    (omap (λ '(index, s), match s with FAggregate func _ => Some (index, func) | _ => None end) (enumerate specs)).

Definition push_group (specs : list FindSpec) (value_for : string → option Value) (group : AggregateGroup)
    : result AggregateGroup :=
  mapR (λ '(index, func, acc),
          match specs !! index with
          | Some (FAggregate _ var) => acc ← accumulator_push func acc (value_for var); Ok (index, func, acc)
          | _ => Ok (index, func, acc)
          end) group.

Definition group_key (vars : list string) (value_for : string → option Value) : list Value :=
  (λ var, default VNull (value_for var)) <$> vars.

Definition push_values (sink : AggregationSink) (value_for : string → option Value) : result AggregationSink :=
  let specs := sink_find_specs sink in
  let registry := sink_registry sink in
  let vars := group_var_names sink in
  match vars with
  | [] =>
    group ← match global_group sink with Some g => Ok g | None => make_group specs registry end;
    group ← push_group specs value_for group;
    Ok (mkSink specs registry vars (groups sink) (Some group) true)
  | _ =>
    let key := group_key vars value_for in
    group ← match bm_get key (groups sink) with Some g => Ok g | None => make_group specs registry end;
    group ← push_group specs value_for group;
    Ok (mkSink specs registry vars (bm_insert key group (groups sink)) (global_group sink) true)
  end.
Definition sink_push (sink : AggregationSink) (b : Row) : result AggregationSink :=
  push_values sink (λ var, b !! var).

Definition agg_name (i : nat) : string := "__agg_" +:+ pretty i.
Definition win_name (i : nat) : string := "__win_" +:+ pretty i.

(** A group's row, or nothing when an accumulator has no value. *)
Fixpoint finish_accumulators (accs : AggregateGroup) (b : gmap string Value) : result (option (gmap string Value)) :=
  match accs with
  | [] => Ok (Some b)
  | (index, _, acc) :: accs =>
    v ← accumulator_finish acc;
    match v with
    | Some v => finish_accumulators accs (<[agg_name index := v]> b)
    | None => Ok None
    end
  end.
Definition key_row (variables : list string) (key : list Value) : gmap string Value :=
  foldl (λ b '(v, w), <[v := w]> b) ∅ (zip variables key).
Definition finish_group (specs : list FindSpec) (key : list Value) (group : AggregateGroup)
    : result (option (gmap string Value)) :=
  finish_accumulators group (key_row (find_variables specs) key).

Definition is_count (s : FindSpec) : bool :=
  match s with
  | FAggregate func _ => bool_decide (func = "count"%string) || bool_decide (func = "count-distinct"%string)
  | _ => false
  end.
Definition zero_counts (specs : list FindSpec) : gmap string Value :=
  foldl (λ b i, <[agg_name i := VInteger 0]> b) ∅ (seq 0 (length specs)).
Definition sink_finish (sink : AggregationSink) : result (list (gmap string Value)) :=
  let specs := sink_find_specs sink in
  if saw_binding sink then
    omapR (λ '(key, group), finish_group specs key group)
      (match global_group sink with Some g => bm_insert [] g (groups sink) | None => groups sink end)
  else
    if match find_variables specs with [] => true | _ => false end && forallb is_count specs
    then Ok [zero_counts specs] else Ok [].

Definition compute_aggregation (bindings : list (gmap string Value)) (specs : list FindSpec) (with_vars : list string)
    (registry : FunctionRegistry) : result (list (gmap string Value)) :=
  sink ← foldR sink_push (sink_new specs with_vars registry) bindings;
  sink_finish sink.

(** * Windows *)

Fixpoint insert_sorted {A} (lt : A → A → comparison) (x : A) (l : list A) : list A :=
  match l with
  | [] => [x]
  | y :: l' => match lt x y with Gt => y :: insert_sorted lt x l' | _ => x :: l end
  end.
Definition sort_by {A} (compare : A → A → comparison) (l : list A) : list A := foldr (insert_sorted compare) [] l.

Definition order_cmp (o : Order) (a b : Value * nat) : comparison :=
  match o with Asc => Fn.value_cmp a.1 b.1 | Desc => CompOpp (Fn.value_cmp a.1 b.1) end.

(** [prev != Some(key)]. *)
Definition same_rank (prev : option Value) (key : Value) : bool :=
  match prev with Some p => value_eq p key | None => false end.
Fixpoint ranks (row_num rank : Z) (prev : option Value) (keys : list Value) : list Value :=
  match keys with
  | [] => []
  | key :: keys =>
    let '(rank, prev) := if same_rank prev key then (rank, prev) else (row_num, Some key) in
    VInteger rank :: ranks (row_num + 1) rank prev keys
  end.
(** The running value of an accumulator after each row. *)
Fixpoint running {S} (step : S → Value → S) (finalise : S → Z → Value) (acc : S) (count : Z) (values : list Value)
    : list Value :=
  match values with
  | [] => []
  | v :: values => let acc := step acc v in finalise acc (count + 1) :: running step finalise acc (count + 1) values
  end.

Definition window_arg (ws : WindowSpec) (rows : list (gmap string Value)) (idx : nat) : Value :=
  default VNull (var ← win_var ws; b ← rows !! idx; b !! var).
Definition window_values (registry : FunctionRegistry) (ws : WindowSpec) (rows : list (gmap string Value))
    (keyed : list (Value * nat)) : result (list Value) :=
  match win_func ws with
  | WRowNumber =>
    mapR (λ pos, n ← ok_or (i64_try_from (Z.of_nat pos)) "row number overflow"; Ok (VInteger n)) (seq 1 (length keyed))
  | WRank => Ok (ranks 1 1 None keyed.*1)
  | _ =>
    desc ← ok_or (registry_get registry (func_name ws)) "unknown window function";
    let args := window_arg ws rows <$> keyed.*2 in
    match agg_impl desc with
    | Builtin ops => Ok (running (win_step ops) (λ acc _, win_finalise ops acc) (win_init ops) 0 args)
    | Udf ops => Ok (running (udf_step ops) (udf_finalise ops) (udf_init ops) 0 args)
    end
  end.

Definition partition_key (ws : WindowSpec) (b : Row) : option Value :=
  pv ← partition_by ws; b !! pv.
Definition partitions (ws : WindowSpec) (rows : list (gmap string Value)) : list (option Value * list nat) :=
  foldl (λ m '(i, b), entry_push option_key_eq m (partition_key ws b) i) [] (enumerate rows).
Definition keyed_rows (ws : WindowSpec) (rows : list (gmap string Value)) (indices : list nat) : list (Value * nat) :=
  sort_by (order_cmp (win_order ws))
    ((λ i, (default VNull (b ← rows !! i; b !! order_by ws), i)) <$> indices).
Definition write_window (key : string) (rows : list (gmap string Value)) (written : list (nat * Value))
    : list (gmap string Value) :=
  foldl (λ rows '(i, v), alter (insert key v) i rows) rows written.
Definition window_partition (registry : FunctionRegistry) (ws : WindowSpec) (key : string)
    (rows : list (gmap string Value)) (partition : option Value * list nat) : result (list (gmap string Value)) :=
  let keyed := keyed_rows ws rows partition.2 in
  values ← window_values registry ws rows keyed;
  Ok (write_window key rows (zip keyed.*2 values)).
Definition apply_window_functions (registry : FunctionRegistry) (rows : list (gmap string Value))
    (specs : list FindSpec) : result (list (gmap string Value)) :=
  foldR (λ rows '(i, spec),
           match spec with
           | FWindow ws => foldR (window_partition registry ws (win_name i)) rows (partitions ws rows)
           | _ => Ok rows
           end) rows (enumerate specs).

(** * Projection *)

Definition all_some {A} (l : list (option A)) : option (list A) := mapM id l.
Definition extract_row (specs : list FindSpec) (b : Row) : option (list Value) :=
  all_some ((λ s, b !! find_var s) <$> specs).
Definition extract_variables (bindings : list (gmap string Value)) (specs : list FindSpec) : list (list Value) :=
  omap (extract_row specs) bindings.
Definition project_row (specs : list FindSpec) (b : Row) : option (list Value) :=
  all_some ((λ '(i, s), match s with
                        | FVariable v => b !! v
                        | FAggregate _ _ => b !! agg_name i
                        | FWindow _ => b !! win_name i
                        end) <$> enumerate specs).
Definition project_find_specs (bindings : list (gmap string Value)) (specs : list FindSpec) : list (list Value) :=
  omap (project_row specs) bindings.

Definition RESULT_LIMIT : string := "query result exceeds result limit; incomplete result rejected".
Definition apply_post_processing_bounded (bindings : list (gmap string Value)) (specs : list FindSpec)
    (with_vars : list string) (registry : FunctionRegistry) (max_output_results : Z) : result (list (list Value)) :=
  let has_aggregates := existsb is_aggregate specs in
  let has_windows := existsb is_window specs in
  if negb has_aggregates && negb has_windows then
    _ ← ensure (Z.of_nat (length bindings) <=? max_output_results) RESULT_LIMIT;
    Ok (extract_variables bindings specs)
  else
    working ← if has_aggregates then compute_aggregation bindings specs with_vars registry else Ok bindings;
    working ← if has_windows then apply_window_functions registry working specs else Ok working;
    _ ← ensure (Z.of_nat (length working) <=? max_output_results) RESULT_LIMIT;
    Ok (project_find_specs working specs).

(** * Ordered maps keep their keys in order *)

#[export] Existing Instance value_pre_ord_laws.

Section btree_lemmas.
Context {K V : Type} `{PreOrdLaws K}.
Definition key_sorted (m : list (K * V)) : Prop := StronglySorted (λ a b, cmp a b = Lt) m.*1.

Lemma bm_insert_keys_Forall (P : K → Prop) k v (m : list (K * V)) : P k → Forall P m.*1 → Forall P (bm_insert k v m).*1.
Proof.
  intros Pk. induction m as [|[k' v'] m IH]; cbn; intros F; [by repeat constructor|].
  inversion_clear F. destruct (cmp k k'); cbn; repeat constructor; auto.
Qed.

Lemma bm_insert_sorted k v m : key_sorted m → key_sorted (bm_insert k v m).
Proof.
  unfold key_sorted. induction m as [|[k' v'] m IH]; cbn; intros S; [by repeat constructor|].
  inversion_clear S as [|? ? S' F]. destruct (cmp k k') eqn:E; cbn.
  - by constructor.
  - repeat constructor; [done..|]. eapply Forall_impl; [exact F|]. cbn. intros x. by apply cmp_trans.
  - constructor; [auto|]. apply bm_insert_keys_Forall; [|done]. by rewrite (cmp_opp k k'), E.
Qed.

Lemma bm_get_below k (m : list (K * V)) : Forall (λ x, cmp k x = Lt) m.*1 → bm_get k m = None.
Proof. destruct m as [|[k' v'] m]; cbn; [done|]. inversion_clear 1. cbn in *. by destruct (cmp k k'). Qed.

Lemma bm_get_insert k v m q : key_sorted m →
  bm_get q (bm_insert k v m) = match cmp q k with Eq => Some v | _ => bm_get q m end.
Proof.
  unfold key_sorted. induction m as [|[k' v'] m IH]; cbn; intros S; [by destruct (cmp q k)|].
  inversion_clear S as [|? ? S' F]. destruct (cmp k k') eqn:E; cbn.
  - rewrite (cmp_eq_r _ _ q E). by destruct (cmp q k').
  - destruct (cmp q k) eqn:Q; try done. by rewrite (cmp_trans Lt q k k').
  - rewrite (IH S'). destruct (cmp q k) eqn:Q; try done. by rewrite (cmp_eq_l _ _ _ Q), E.
Qed.

Lemma bm_insert_keys_alike {W} k v w (m : list (K * V)) (m' : list (K * W)) :
  m.*1 = m'.*1 → (bm_insert k v m).*1 = (bm_insert k w m').*1.
Proof.
  revert m'; induction m as [|[k' v'] m IH]; intros [|[k2 w'] m'] E; try done. cbn in E. injection E as -> E.
  cbn. destruct (cmp k k2); cbn; [by rewrite E|by rewrite E|by rewrite (IH m')].
Qed.

Lemma bm_insert_elem k v (m : list (K * V)) e : e ∈ bm_insert k v m →
  (cmp k e.1 = Eq ∧ e.2 = v) ∨ e ∈ m.
Proof.
  induction m as [|[k' v'] m IH]; cbn.
  - intros ->%list_elem_of_singleton. left. by rewrite cmp_refl.
  - destruct (cmp k k') eqn:E; rewrite ?elem_of_cons.
    + intros [->|I]; [by left|auto].
    + intros [->|I]; [left; by rewrite cmp_refl|auto].
    + intros [->|[?|?]%IH]; auto.
Qed.
(** The entry of a key after an insertion, wherever it was before. *)
Lemma bm_insert_has k v (m : list (K * V)) : ∃ k', cmp k k' = Eq ∧ (k', v) ∈ bm_insert k v m.
Proof.
  induction m as [|[k' v'] m (k2 & E2 & I)]; cbn.
  - exists k. split; [apply cmp_refl|]. by left.
  - destruct (cmp k k') eqn:E.
    + exists k'. split; [done|by left].
    + exists k. split; [apply cmp_refl|by left].
    + exists k2. split; [done|by right].
Qed.
Lemma bm_insert_keeps k v (m : list (K * V)) x : x ∈ m.*1 → x ∈ (bm_insert k v m).*1.
Proof.
  induction m as [|[k' v'] m IH]; cbn; [by intros ?%elem_of_nil|].
  destruct (cmp k k'); cbn; rewrite !elem_of_cons; naive_solver.
Qed.
Lemma bm_get_elem k v m : key_sorted m → (k, v) ∈ m → bm_get k m = Some v.
Proof.
  unfold key_sorted. induction m as [|[k' v'] m IH]; cbn; intros S I; [by apply elem_of_nil in I|].
  inversion_clear S as [|? ? S' F]. apply elem_of_cons in I as [[= -> ->]|I]; [by rewrite cmp_refl|].
  assert (cmp k' k = Lt) as L.
  { rewrite Forall_forall in F. apply F. apply list_elem_of_fmap. by exists (k, v). }
  rewrite (cmp_opp k' k), L. cbn. auto.
Qed.
Lemma bm_get_Some k v (m : list (K * V)) : bm_get k m = Some v → ∃ k', cmp k k' = Eq ∧ (k', v) ∈ m.
Proof.
  induction m as [|[k' v'] m IH]; cbn; [done|]. destruct (cmp k k') eqn:E; [intros [= ->]|done|].
  - exists k'. split; [done|by left].
  - intros (k2 & E2 & I)%IH. exists k2. split; [done|by right].
Qed.
Lemma bm_get_alike k k' (m : list (K * V)) : cmp k k' = Eq → bm_get k m = bm_get k' m.
Proof.
  intros E. induction m as [|[k2 v] m IH]; cbn; [done|]. by rewrite (cmp_eq_l _ _ _ E), IH.
Qed.
End btree_lemmas.

(** * Grouping *)

Section grouping.
Context (specs : list FindSpec) (registry : FunctionRegistry) (vars : list string).

Definition row_key (b : Row) : list Value := group_key vars (λ v, b !! v).
Definition same_key (k : list Value) (b : gmap string Value) : bool :=
  match cmp (row_key b) k with Eq => true | _ => false end.

(** The accumulators of a group's rows, from scratch. *)
Definition aggregate_rows (rows : list (gmap string Value)) : result AggregateGroup :=
  group ← make_group specs registry;
  foldR (λ group b, push_group specs (λ v, b !! v) group) group rows.
(** The distinct keys in order. *)
Definition group_keys (bs : list (gmap string Value)) : list (list Value) :=
  (foldl (λ m b, bm_insert (row_key b) () m) [] bs).*1.
(** One row per distinct key: aggregate the rows of that key. *)
Definition grouped (bs : list (gmap string Value)) : result (list (gmap string Value)) :=
  omapR (λ k, group ← aggregate_rows (List.filter (same_key k) bs); finish_group specs k group) (group_keys bs).

Definition all_groups (sink : AggregationSink) : list (list Value * AggregateGroup) :=
  match global_group sink with Some g => bm_insert [] g (groups sink) | None => groups sink end.

Record sink_ok (bs : list (gmap string Value)) (sink : AggregationSink) : Prop := {
  sk_specs : sink_find_specs sink = specs;
  sk_registry : sink_registry sink = registry;
  sk_vars : group_var_names sink = vars;
  sk_shape : match vars with [] => groups sink = [] | _ => global_group sink = None end;
  sk_saw : saw_binding sink = match bs with [] => false | _ => true end;
  sk_keys : (all_groups sink).*1 = group_keys bs;
  sk_groups k g : (k, g) ∈ all_groups sink → aggregate_rows (List.filter (same_key k) bs) = Ok g;
}.

(** Both kinds of groups are updated alike. *)
Lemma push_values_all sink b bs : sink_ok bs sink →
  sink_push sink b =
  (group ← match bm_get (row_key b) (all_groups sink) with Some g => Ok g | None => make_group specs registry end;
   group ← push_group specs (λ v, b !! v) group;
   Ok (match vars with
       | [] => mkSink specs registry vars (groups sink) (Some group) true
       | _ => mkSink specs registry vars (bm_insert (row_key b) group (groups sink)) (global_group sink) true
       end)).
Proof.
  intros [E1 E2 E3 Sh _ _ _]. unfold sink_push, push_values, all_groups, row_key. rewrite E1, E2, E3.
  destruct vars as [|v vs].
  - rewrite Sh. destruct (global_group sink); cbn; done.
  - rewrite Sh. done.
Qed.

Lemma group_keys_snoc bs b : group_keys (bs ++ [b]) = (bm_insert (row_key b) () (foldl (λ m b, bm_insert (row_key b) () m) [] bs)).*1.
Proof. unfold group_keys. by rewrite foldl_app. Qed.
Lemma group_keys_sorted bs : StronglySorted (λ a b, cmp a b = Lt) (group_keys bs).
Proof.
  induction bs as [|b bs IH] using rev_ind; [constructor|]. rewrite group_keys_snoc.
  apply (bm_insert_sorted (row_key b) () _ IH).
Qed.

Lemma same_key_eq k b : same_key k b = true ↔ cmp (row_key b) k = Eq.
Proof. unfold same_key. by destruct (cmp (row_key b) k). Qed.

Lemma filter_snoc {A} (p : A → bool) l x :
  List.filter p (l ++ [x]) = List.filter p l ++ (if p x then [x] else []).
Proof. rewrite List.filter_app. cbn. by destruct (p x). Qed.

Lemma aggregate_rows_snoc rows b :
  aggregate_rows (rows ++ [b]) = (g ← aggregate_rows rows; push_group specs (λ v, b !! v) g).
Proof.
  unfold aggregate_rows. destruct (make_group specs registry) as [g|]; cbn; [|done]. rewrite foldR_app.
  destruct (foldR _ g rows); cbn; [|done]. by destruct (push_group specs _ _).
Qed.

Lemma same_key_alike k k' bs : cmp k k' = Eq → List.filter (same_key k) bs = List.filter (same_key k') bs.
Proof.
  intros E. apply List_filter_ext. intros b _. unfold same_key. by rewrite (cmp_eq_r _ _ _ E).
Qed.
Lemma row_key_listed bs b : b ∈ bs → ∃ k, k ∈ group_keys bs ∧ cmp (row_key b) k = Eq.
Proof.
  induction bs as [|b' bs IH] using rev_ind; [by intros ?%elem_of_nil|]. rewrite group_keys_snoc.
  intros [I|I]%elem_of_app; [|apply list_elem_of_singleton in I as ->].
  - destruct (IH I) as (k & Ik & E). exists k. split; [|done]. by apply bm_insert_keeps.
  - destruct (bm_insert_has (row_key b') () (foldl (λ m b, bm_insert (row_key b) () m) [] bs)) as (k & E & I).
    exists k. split; [|done]. apply list_elem_of_fmap. by exists (k, ()).
Qed.

Section pushing.
Context (bs : list (gmap string Value)) (sink : AggregationSink) (Hs : sink_ok bs sink).

Lemma all_groups_sorted : key_sorted (all_groups sink).
Proof using Hs. unfold key_sorted. rewrite (sk_keys _ _ Hs). apply group_keys_sorted. Qed.

Lemma current_group k :
  match bm_get k (all_groups sink) with Some g => Ok g | None => make_group specs registry end
  = aggregate_rows (List.filter (same_key k) bs).
Proof using Hs.
  destruct (bm_get k (all_groups sink)) as [g|] eqn:G.
  - apply bm_get_Some in G as (k' & E & I). rewrite (same_key_alike _ _ bs E). symmetry. by apply (sk_groups _ _ Hs).
  - assert (List.filter (same_key k) bs = []) as ->.
    { destruct (List.filter (same_key k) bs) as [|b l] eqn:F; [done|]. exfalso.
      assert (b ∈ List.filter (same_key k) bs) as [Kb Ib]%elem_of_List_filter by (rewrite F; left).
      apply same_key_eq in Kb. destruct (row_key_listed bs b Ib) as (k' & Ik & E).
      rewrite <-(sk_keys _ _ Hs) in Ik. apply list_elem_of_fmap in Ik as ([k2 g] & -> & I). cbn in E.
      apply (bm_get_elem k2 g _ all_groups_sorted) in I.
      rewrite <-(bm_get_alike (row_key b) k2), (bm_get_alike (row_key b) k) in I by done. congruence. }
    unfold aggregate_rows. cbn. by destruct (make_group specs registry).
Qed.

Lemma sink_push_spec b :
  match sink_push sink b, aggregate_rows (List.filter (same_key (row_key b)) (bs ++ [b])) with
  | Ok sink', Ok _ => sink_ok (bs ++ [b]) sink'
  | Err _, Err _ => True
  | _, _ => False
  end.
Proof using Hs.
  rewrite (push_values_all sink b bs Hs), current_group, filter_snoc.
  rewrite (proj2 (same_key_eq _ _)) by apply cmp_refl. rewrite aggregate_rows_snoc.
  destruct (aggregate_rows (List.filter (same_key (row_key b)) bs)) as [g|e] eqn:G; cbn; [|done].
  destruct (push_group specs (λ v, b !! v) g) as [g'|e] eqn:P; cbn; [|done].
  match goal with |- sink_ok _ ?sk => set (sink' := sk) end.
  assert (all_groups sink' = bm_insert (row_key b) g' (all_groups sink)) as A.
  { unfold all_groups, sink'. pose proof (sk_shape _ _ Hs) as Sh. unfold row_key.
    destruct vars; cbn [global_group groups]; [|by rewrite Sh]. rewrite Sh. by destruct (global_group sink). }
  split; try (by unfold sink'; destruct vars).
  - unfold sink'. pose proof (sk_shape _ _ Hs) as Sh. by destruct vars.
  - unfold sink'. by destruct vars, bs.
  - rewrite A, group_keys_snoc. apply bm_insert_keys_alike. apply (sk_keys _ _ Hs).
  - intros k2 g2 I. rewrite A in I.
    apply (bm_get_elem k2 g2) in I; [|apply bm_insert_sorted, all_groups_sorted].
    rewrite (bm_get_insert _ _ _ _ all_groups_sorted) in I. rewrite filter_snoc.
    assert (same_key k2 b = match cmp k2 (row_key b) with Eq => true | _ => false end) as ->.
    { unfold same_key. rewrite (cmp_opp k2 (row_key b)). by destruct (cmp k2 (row_key b)). }
    destruct (cmp k2 (row_key b)) eqn:E.
    + injection I as <-. by rewrite aggregate_rows_snoc, (same_key_alike _ _ bs E), G.
    + rewrite app_nil_r. rewrite <-current_group, I. done.
    + rewrite app_nil_r. rewrite <-current_group, I. done.
Qed.
End pushing.

Lemma sink_pushes_spec sink bs : sink_ok [] sink →
  match foldR sink_push sink bs with
  | Ok sink' => sink_ok bs sink'
  | Err _ => ∃ k e, k ∈ group_keys bs ∧ aggregate_rows (List.filter (same_key k) bs) = Err e
  end.
Proof.
  intros H0. induction bs as [|b bs IH] using rev_ind; [done|]. rewrite foldR_app.
  destruct (foldR sink_push sink bs) as [s1|e1]; cbn [mbind result_bind foldR].
  - pose proof (sink_push_spec bs s1 IH b) as P.
    destruct (sink_push s1 b) as [s2|e2]; cbn [mbind result_bind];
      destruct (aggregate_rows (List.filter (same_key (row_key b)) (bs ++ [b]))) as [g|e3] eqn:G; try done.
    destruct (row_key_listed (bs ++ [b]) b) as (k & Ik & E); [apply elem_of_app; right; by left|].
    exists k, e3. split; [done|]. by rewrite <-(same_key_alike _ _ _ E).
  - destruct IH as (k & e & Ik & E). exists k, e. split; [rewrite group_keys_snoc; by apply bm_insert_keeps|].
    rewrite filter_snoc. destruct (same_key k b); [by rewrite aggregate_rows_snoc, E|by rewrite app_nil_r].
Qed.

Lemma finish_groups bs sink : sink_ok bs sink → bs ≠ [] → sink_finish sink = grouped bs.
Proof.
  intros Hs Ne. unfold sink_finish. rewrite (sk_saw _ _ Hs), (sk_specs _ _ Hs). destruct bs as [|b0 bs0] eqn:Eb; [done|].
  rewrite <-Eb in Hs |- *. clear Ne Eb b0 bs0. unfold grouped. rewrite <-(sk_keys _ _ Hs).
  fold (all_groups sink). pose proof (sk_groups _ _ Hs) as G. induction (all_groups sink) as [|[k g] m IH]; [done|].
  cbn [fmap list_fmap omapR fst]. rewrite (G k g) by left. cbn [mbind result_bind].
  rewrite IH; [done|]. intros k' g' I. apply G. by right.
Qed.
Lemma omapR_Ok_all {A B} (f : A → result (option B)) l k x : omapR f l = Ok k → x ∈ l → ∃ y, f x = Ok y.
Proof.
  revert k; induction l as [|a l IH]; intros k; cbn; [by intros _ ?%elem_of_nil|].
  intros H I. inv_ok. apply elem_of_cons in I as [->|I]; eauto.
Qed.
End grouping.


Definition salary (dept : string) (v : Value) : gmap string Value := <["?d" := VString dept]> {["?s" := v]}%string.
Definition salaries : list (gmap string Value) :=
  [salary "ops" (VInteger 3); salary "dev" (VInteger 5); salary "ops" (VInteger 4); salary "dev" VNull]%string.
Definition salary_specs : list FindSpec := [FVariable "?d"; FAggregate "sum" "?s"; FAggregate "count" "?s"].
Definition salary_rows : list (gmap string Value) :=
  [<["?d" := VString "dev"]> (<["__agg_1" := VInteger 5]> {["__agg_2" := VInteger 1]});
   <["?d" := VString "ops"]> (<["__agg_1" := VInteger 7]> {["__agg_2" := VInteger 2]})]%string.

(** * Streaming and batch aggregates *)

Definition non_null (vs : list (option Value)) : list Value :=
  omap (λ v, match v with Some VNull => None | _ => v end) vs.
(** A variable's values in a group, run through an accumulator. *)
Definition stream (registry : FunctionRegistry) (func : string) (vs : list (option Value)) : result (option Value) :=
  acc ← accumulator_new func registry;
  acc ← foldR (accumulator_push func) acc vs;
  accumulator_finish acc.

Lemma push_non_null func acc vs :
  foldR (accumulator_push func) acc vs = foldR (push_value func) acc (non_null vs).
Proof.
  revert acc; induction vs as [|[[]|] vs IH]; intros acc; cbn; try apply IH; try done.
  all: match goal with |- mbind _ ?r = _ => destruct r end; cbn; try done; apply IH.
Qed.

(** The variant is kept by every accumulator. *)
Lemma push_count func n l :
  foldR (push_value func) (AccCount n) l = Ok (AccCount (foldl (λ n _, sat_add_i64 n 1) n l)).
Proof. revert n; induction l as [|v l IH]; intros n; cbn; [done|]. apply IH. Qed.
Lemma count_saturates {A} n (l : list A) : 0 ≤ n ≤ i64_MAX →
  foldl (λ n _, sat_add_i64 n 1) n l = Z.min i64_MAX (n + Z.of_nat (length l)).
Proof.
  revert n; induction l as [|x l IH]; intros n N; cbn [foldl length]; [lia|].
  rewrite IH; unfold sat_add_i64; unfold i64_MIN, i64_MAX in *; lia.
Qed.

Definition int_add (n : Z) (v : Value) : Z := match v with VInteger i => sat_add_i64 n i | _ => n end.
Lemma push_sum func i f saw l :
  foldR (push_value func) (AccSum i f saw) l =
  (f' ← foldR sum_floats f l; Ok (AccSum (foldl int_add i l) f' (saw || existsb is_float_value l))).
Proof.
  revert i f saw; induction l as [|v l IH]; intros i f saw; cbn; [by rewrite orb_false_r|].
  destruct v; cbn; try done; rewrite IH; cbn; try done. by rewrite orb_true_r.
Qed.
Lemma sum_integers_floats f i l : existsb is_float_value l = false →
  foldR sum_integers i l = (_ ← foldR sum_floats f l; Ok (foldl int_add i l)).
Proof.
  revert f i; induction l as [|v l IH]; intros f i; cbn; [done|]. destruct v; cbn; try done. apply IH.
Qed.

Lemma push_avg func s c l :
  foldR (push_value func) (AccAvg s c) l = Ok (let '(s, c) := foldl avg_step (s, c) l in AccAvg s c).
Proof. revert s c; induction l as [|v l IH]; intros s c; cbn; [done|]. destruct v; cbn; apply IH. Qed.

Lemma partial_cmp_opp a b : F64.partial_cmp b a = CompOpp <$> F64.partial_cmp a b.
Proof.
  unfold F64.partial_cmp. rewrite orb_comm. destruct (_ || _); [done|]. cbn. f_equal. apply Z.compare_antisym.
Qed.
Definition comparable (v : Value) : bool := match v with VInteger _ | VFloat _ | VString _ => true | _ => false end.

(** One step of each, on a value of the running variant. *)
Lemma push_minmax_step func minimum cur v : comparable cur = true → same_variant cur v = true →
  ∃ next, push_minmax func (Some cur) minimum v = Ok (AccMinMax (Some next) minimum) ∧
    minmax_fold func minimum cur v = Ok next ∧ comparable next = true ∧
    ∀ w, same_variant next w = same_variant cur w.
Proof.
  intros C S. destruct cur as [s|i|f|x|u|k|], v as [t|j|g|y|w|k'|]; try done; cbn.
  - unfold Fn.string_cmp. rewrite (cmp_opp (as_bytes s) (as_bytes t)).
    unfold minmax_fold. cbn. unfold Fn.string_cmp.
    destruct (cmp (as_bytes s) (as_bytes t)), minimum; cbn; eauto.
  - rewrite (Z.compare_antisym i j). unfold minmax_fold. cbn.
    destruct (i ?= j), minimum; cbn; eauto.
  - rewrite (partial_cmp_opp f g). unfold minmax_fold. cbn.
    destruct (F64.partial_cmp f g) as [[]|], minimum; cbn; eauto.
Qed.

(** The two results agree, error texts aside. *)
Definition agree {A} (r : result (option A)) (r' : result A) : Prop :=
  match r, r' with
  | Ok (Some a), Ok b => a = b
  | Err _, Err _ => True
  | _, _ => False
  end.

Lemma push_minmax_bad func minimum cur v : same_variant cur v = false →
  ∃ e, push_minmax func (Some cur) minimum v = Err e.
Proof. intros S. destruct v; cbn; rewrite ?S; cbn; eauto. Qed.

Lemma push_minmax_all func minimum cur l : comparable cur = true →
  if forallb (same_variant cur) l
  then ∃ v, foldR (push_value func) (AccMinMax (Some cur) minimum) l = Ok (AccMinMax (Some v) minimum) ∧
            foldR (minmax_fold func minimum) cur l = Ok v
  else ∃ e, foldR (push_value func) (AccMinMax (Some cur) minimum) l = Err e.
Proof.
  revert cur; induction l as [|v l IH]; intros cur C; cbn [forallb foldR]; [eauto|].
  destruct (same_variant cur v) eqn:S; cbn [andb].
  - destruct (push_minmax_step func minimum cur v C S) as (next & P & M & Cn & Sn).
    cbn [push_value]. rewrite P, M. cbn [mbind result_bind]. specialize (IH next Cn).
    by rewrite (forallb_ext (same_variant next) (same_variant cur)) in IH.
  - destruct (push_minmax_bad func minimum cur v S) as [e E]. exists e. cbn [push_value]. by rewrite E.
Qed.

Lemma variant_check name first rest :
  foldR (λ _ v, ensure (same_variant v first)
           (name +:+ ": cannot compare " +:+ Fn.value_type_name first +:+ " and "
              +:+ Fn.value_type_name v +:+ " values")) () rest = Ok ()
  ↔ forallb (same_variant first) rest = true.
Proof.
  induction rest as [|v rest IH]; cbn [foldR forallb]; [done|].
  assert (same_variant v first = same_variant first v) as -> by apply Z.eqb_sym.
  destruct (same_variant first v); cbn; [apply IH|done].
Qed.

Lemma minmax_batch func minimum v l :
  agree (acc ← foldR (push_value func) (AccMinMax None minimum) (v :: l); accumulator_finish acc)
        (batch_minmax func minimum (v :: l)).
Proof.
  unfold batch_minmax. cbn [foldR push_value]. pose proof (variant_check func v l) as V.
  match goal with |- agree _ (mbind _ ?r) => destruct r as [[]|e] eqn:R end; cbn [mbind result_bind].
  - destruct (comparable v) eqn:C.
    + assert (push_minmax func None minimum v = Ok (AccMinMax (Some v) minimum)) as -> by by destruct v.
      destruct (push_minmax_step func minimum v v C) as (n & _ & M & _); [apply Z.eqb_refl|].
      assert (n = v) as ->.
      { unfold minmax_fold in M. destruct v; try done; cbn in M;
          match goal with H : Ok (if ?c then ?a else ?a) = Ok _ |- _ => by destruct c; injection H end. }
      rewrite M. cbn [mbind result_bind]. pose proof (push_minmax_all func minimum v l C) as P.
      rewrite (proj1 V eq_refl) in P. destruct P as (w & -> & ->). done.
    + by destruct v.
  - destruct (comparable v) eqn:C.
    + assert (push_minmax func None minimum v = Ok (AccMinMax (Some v) minimum)) as -> by by destruct v.
      cbn [mbind result_bind]. pose proof (push_minmax_all func minimum v l C) as P.
      destruct (forallb (same_variant v) l); [by specialize (proj2 V eq_refl)|]. by destruct P as (e' & ->).
    + by destruct v.
Qed.

(** ** Distinct values *)

Section distinct.
Context (l0 : list Value) (Hok : ∀ v, v ∈ l0 → value_ok v) (Hplain : ∀ v, v ∈ l0 → is_float_value v = false).
#[local] Abbreviation lt := (λ a b, value_cmp a b = Lt).

Lemma plain_cmp_Eq a b : a ∈ l0 → b ∈ l0 → value_cmp a b = Eq → a = b.
Proof using Hok Hplain.
  intros A B E. apply value_cmp_Eq in E; [|by apply Hok..]. apply Hplain in A.
  destruct E as [?|[(f & g & -> & _)|[[-> _]|[-> _]]]]; done.
Qed.

Lemma btree_insert_sorted v l : v ∈ l0 → l ⊆ l0 → StronglySorted lt l →
  StronglySorted lt (btree_insert v l) ∧ ∀ x, x ∈ btree_insert v l ↔ x = v ∨ x ∈ l.
Proof using Hok Hplain.
  intros V. induction l as [|y l IH]; intros Sub S; cbn.
  - split; [by repeat constructor|]. set_solver.
  - inversion_clear S as [|? ? S' F]. destruct (value_cmp v y) eqn:E.
    + apply plain_cmp_Eq in E as ->; [|done|apply Sub; left]. split; [by constructor|set_solver].
    + split; [|set_solver]. constructor; [by constructor|]. constructor; [done|].
      eapply Forall_impl; [exact F|]. intros z. by apply (cmp_trans (A := Value)).
    + destruct IH as [S2 M]; [set_solver|done|]. split; [|set_solver]. constructor; [done|].
      apply Forall_forall. intros x [->|I]%M.
      * pose proof (cmp_opp (A := Value) v y) as O. unfold cmp, Value_ord in O. by rewrite E in O.
      * by rewrite Forall_forall in F; apply F.
Qed.
Lemma btree_inserts l acc : l ⊆ l0 → acc ⊆ l0 → StronglySorted lt acc →
  StronglySorted lt (foldl (λ s v, btree_insert v s) acc l) ∧
  ∀ x, x ∈ foldl (λ s v, btree_insert v s) acc l ↔ x ∈ acc ∨ x ∈ l.
Proof using Hok Hplain.
  revert acc; induction l as [|v l IH]; intros acc L A S; cbn; [split; [done|set_solver]|].
  destruct (btree_insert_sorted v acc) as [S' M]; [set_solver|done|done|].
  destruct (IH (btree_insert v acc)) as [S2 M2]; [set_solver|intros x; rewrite M; set_solver|done|].
  split; [done|]. intros x. rewrite M2, M. set_solver.
Qed.

#[local] Abbreviation le := (λ a b, value_cmp a b ≠ Gt).
Lemma sort_values_sorted l : StronglySorted le (sort_values l) ∧ sort_values l ≡ₚ l.
Proof using.
  induction l as [|v l [S P]]; cbn; [split; [constructor|done]|].
  assert (∀ m, StronglySorted le m → StronglySorted le (sort_insert v m) ∧ sort_insert v m ≡ₚ v :: m) as X.
  { clear. intros m. induction m as [|y m IH]; intros S; cbn; [split; [by repeat constructor|done]|].
    inversion_clear S as [|? ? S' F]. destruct (IH S') as [S2 P2].
    destruct (value_cmp v y) eqn:E.
    1,2: split; [|done]; constructor; [by constructor|]; constructor; [by rewrite E|];
      eapply Forall_impl; [exact F|]; intros z Z;
      assert (le_ord v y) as L1 by (unfold le_ord, cmp, Value_ord; by rewrite E);
      exact (transitivity (R := le_ord) L1 Z).
    split; [|by rewrite P2; constructor]. constructor; [done|].
    rewrite P2. constructor; [|done].
    pose proof (cmp_opp (A := Value) v y) as O. unfold cmp, Value_ord in O. by rewrite O, E. }
  destruct (X _ S) as [S' P']. split; [done|]. by rewrite P', P.
Qed.

Lemma dedup_sorted_spec l : l ⊆ l0 → StronglySorted le l →
  StronglySorted lt (dedup_sorted l) ∧ ∀ x, x ∈ dedup_sorted l ↔ x ∈ l.
Proof using Hok Hplain.
  induction l as [|x l IH]; intros Sub S; cbn; [split; [constructor|done]|].
  inversion_clear S as [|? ? S' F]. destruct IH as [S2 M]; [set_solver|done|].
  destruct l as [|y l].
  - cbn. split; [by repeat constructor|done].
  - rewrite value_eq_plain by (apply Hplain, Sub; left). case_bool_decide as E.
    + subst y. split; [done|]. intros z. rewrite M. set_solver.
    + split; [|set_solver]. constructor; [done|]. apply Forall_forall. intros z Z%M.
      rewrite Forall_forall in F. destruct (value_cmp x z) eqn:C; [|done|by destruct (F z Z)].
      exfalso. apply plain_cmp_Eq in C as <-; [|apply Sub; left|apply Sub; by right].
      apply elem_of_cons in Z as [?|Z]; [done|].
      inversion_clear S' as [|? ? _ F']. rewrite Forall_forall in F'.
      specialize (F' x Z). pose proof (F y ltac:(left)) as Fy.
      pose proof (cmp_opp (A := Value) x y) as O. unfold cmp, Value_ord in O. rewrite O in F'.
      destruct (value_cmp x y) eqn:C; [|done|done].
      apply plain_cmp_Eq in C; [done|apply Sub; left|apply Sub; right; left].
Qed.

Lemma sorted_unique l k : StronglySorted lt l → StronglySorted lt k → (∀ x, x ∈ l ↔ x ∈ k) → l = k.
Proof using.
  assert (∀ m, StronglySorted lt m → NoDup m) as N.
  { induction 1 as [|x m S IH F]; constructor; [|done]. intros I. rewrite Forall_forall in F.
    specialize (F x I). pose proof (cmp_refl (A := Value) x) as R. unfold cmp, Value_ord in R. congruence. }
  intros L K E. apply (StronglySorted_unique_strong lt); [|done|done|apply NoDup_Permutation; auto].
  intros x y _ _ A B. pose proof (cmp_opp (A := Value) x y) as O. unfold cmp, Value_ord in O. by rewrite A, B in O.
Qed.

Lemma distinct_streams : foldl (λ s v, btree_insert v s) [] l0 = btree_collect l0.
Proof using Hok Hplain.
  destruct (btree_inserts l0 []) as [S M]; [done|set_solver|constructor|].
  destruct (sort_values_sorted l0) as [S' P].
  destruct (dedup_sorted_spec (sort_values l0)) as [S2 M2]; [by rewrite P|done|].
  apply sorted_unique; [done|done|]. intros x. unfold btree_collect. rewrite M, M2, P. set_solver.
Qed.
End distinct.

Lemma push_distinct func values l :
  foldR (push_value func) (AccCountDistinct values) l = Ok (AccCountDistinct (foldl (λ s v, btree_insert v s) values l)) ∧
  foldR (push_value func) (AccSumDistinct values) l = Ok (AccSumDistinct (foldl (λ s v, btree_insert v s) values l)).
Proof. revert values; induction l as [|v l IH]; intros values; cbn; [done|]. apply IH. Qed.

(** Collecting a set of values again changes nothing. *)
Lemma collect_collected l : (∀ v, v ∈ l → value_ok v) → (∀ v, v ∈ l → is_float_value v = false) →
  btree_collect (btree_collect l) = btree_collect l.
Proof.
  intros O P. destruct (sort_values_sorted l) as [S Pm].
  destruct (dedup_sorted_spec l O P (sort_values l)) as [S2 M2]; [by rewrite Pm|done|].
  fold (btree_collect l) in S2, M2. assert (∀ v, v ∈ btree_collect l → v ∈ l) as Sub by (intros v; by rewrite M2, Pm).
  rewrite <-(distinct_streams (btree_collect l)) by auto.
  destruct (btree_inserts l O P (btree_collect l) []) as [S3 M3]; [done|set_solver|constructor|].
  apply sorted_unique; [done|done|]. intros x. rewrite M3. set_solver.
Qed.

(** The streaming accumulators compute the batch aggregates.  Over the values of
    a variable in a group, unbound and null ones skipped: [count], [sum] and [avg]
    return what [apply_builtin_aggregate] returns on the list of values, errors
    included; [min] and [max] return nothing on no values, and otherwise the same
    value or an error in the same cases; the distinct aggregates agree on values that
    are not floats. *)
Theorem streaming_matches_batch registry vs :
  let values := non_null vs in
  (∀ func, func ∈ ["count"; "sum"; "avg"]%string →
     stream registry func vs = (v ← apply_builtin_aggregate func values; Ok (Some v))) ∧
  (∀ func, func ∈ ["min"; "max"]%string →
     match values with
     | [] => stream registry func vs = Ok None
     | _ => agree (stream registry func vs) (apply_builtin_aggregate func values)
     end) ∧
  ((∀ v, v ∈ values → value_ok v ∧ is_float_value v = false) →
   ∀ func, func ∈ ["count-distinct"; "sum-distinct"]%string →
     stream registry func vs = (v ← apply_builtin_aggregate func values; Ok (Some v))).
Proof.
  assert (∀ func, stream registry func vs =
    (acc ← accumulator_new func registry; acc ← foldR (push_value func) acc (non_null vs); accumulator_finish acc)) as E.
  { intros func. unfold stream. destruct (accumulator_new func registry); cbn; [|done]. by rewrite push_non_null. }
  revert E. generalize (non_null vs) as l. intros l E. split_and!.
  - intros func F. rewrite E. rewrite !elem_of_cons, elem_of_nil in F. destruct F as [->|[->|[->|[]]]].
    + change (accumulator_new "count" registry) with (Ok (AccCount 0)). cbn [mbind result_bind].
      rewrite push_count. cbn [mbind result_bind accumulator_finish]. rewrite count_saturates by done.
      change (apply_builtin_aggregate "count" l) with (Ok (VInteger (usize_to_i64 (length l)))). cbn [mbind result_bind].
      do 3 f_equal. unfold usize_to_i64, i64_try_from. destruct (Z.leb_spec (Z.of_nat (length l)) i64_MAX); cbn; lia.
    + change (accumulator_new "sum" registry) with (Ok (AccSum 0 0 false)). cbn [mbind result_bind].
      rewrite push_sum. change (apply_builtin_aggregate "sum" l) with (batch_sum l). unfold batch_sum. destruct l as [|v l]; [done|].
      destruct (existsb is_float_value (v :: l)) eqn:X.
      * by destruct (foldR sum_floats 0 (v :: l)).
      * rewrite (sum_integers_floats 0 0) by done. by destruct (foldR sum_floats 0 (v :: l)).
    + change (accumulator_new "avg" registry) with (Ok (AccAvg 0 0)). cbn [mbind result_bind].
      rewrite push_avg. destruct l as [|v l]; [done|].
      change (apply_builtin_aggregate "avg" (v :: l)) with (Ok (avg_result (foldl avg_step (0, 0) (v :: l)))).
      cbn [mbind result_bind]. unfold avg_result.
      by destruct (foldl avg_step (0, 0) (v :: l)).
  - intros func F. rewrite !E. destruct l as [|v l]; rewrite !elem_of_cons, elem_of_nil in F; destruct F as [->|[->|[]]]; try done.
    + apply (minmax_batch "min" true).
    + apply (minmax_batch "max" false).
  - intros O func F. rewrite E. assert (∀ v, v ∈ l → value_ok v) as O1 by apply O.
    assert (∀ v, v ∈ l → is_float_value v = false) as O2 by apply O.
    rewrite !elem_of_cons, elem_of_nil in F. destruct F as [->|[->|[]]].
    + change (accumulator_new "count-distinct" registry) with (Ok (AccCountDistinct [])). cbn [mbind result_bind].
      rewrite (proj1 (push_distinct _ _ _)). cbn. by rewrite distinct_streams.
    + change (accumulator_new "sum-distinct" registry) with (Ok (AccSumDistinct [])). cbn [mbind result_bind].
      rewrite (proj2 (push_distinct _ _ _)). cbn [mbind result_bind accumulator_finish].
      rewrite distinct_streams by done. unfold apply_builtin_aggregate at 1. cbn.
      rewrite collect_collected by done. done.
Qed.

(** * What a window writes *)

(** Rows without the annotation. *)
Definition off (key : string) (rows : list (gmap string Value)) : list (gmap string Value) := delete key <$> rows.
Definition cell (rows : list (gmap string Value)) (i : nat) (x : string) : option Value := b ← rows !! i; b !! x.

Lemma cell_off key rows i x : x ≠ key → cell (off key rows) i x = cell rows i x.
Proof.
  intros N. unfold cell, off. rewrite list_lookup_fmap. destruct (rows !! i) as [b|]; cbn; [|done].
  by rewrite lookup_delete_ne.
Qed.

Lemma write_window_spec key rows written : NoDup written.*1 → (∀ i, i ∈ written.*1 → (i < length rows)%nat) →
  let rows' := write_window key rows written in
  off key rows' = off key rows ∧ (∀ i, i ∉ written.*1 → rows' !! i = rows !! i) ∧
  (∀ i v, (i, v) ∈ written → cell rows' i key = Some v).
Proof.
  cbv zeta. revert rows. induction written as [|[i v] written IH]; intros rows N B.
  { split_and!; [done|done|]. by intros i v ?%elem_of_nil. }
  change (write_window key rows ((i, v) :: written)) with (write_window key (alter (insert key v) i rows) written).
  rewrite fmap_cons in N, B |- *. cbn [fst] in *. inversion_clear N as [|? ? Ni N']. destruct (IH (alter (insert key v) i rows)) as (O & Un & W); [done| |].
  { intros j J. rewrite length_alter. apply B. by right. }
  split_and!.
  - rewrite O. unfold off. apply list_eq. intros j. rewrite !list_lookup_fmap.
    destruct (decide (j = i)) as [->|]; [rewrite list_lookup_alter_eq|by rewrite list_lookup_alter_ne].
    destruct (rows !! i); cbn; [|done]. by rewrite delete_insert_eq.
  - intros j J. rewrite Un by set_solver. apply list_lookup_alter_ne. set_solver.
  - intros j w [[= -> ->]|I]%elem_of_cons; [|by apply W].
    unfold cell. rewrite Un by done. rewrite list_lookup_alter_eq.
    destruct (lookup_lt_is_Some_2 rows i) as [b ->]; [apply B; by left|]. cbn. apply lookup_insert_eq.
Qed.

Lemma sort_by_perm {A} (c : A → A → comparison) l : sort_by c l ≡ₚ l.
Proof.
  assert (∀ x m, insert_sorted c x m ≡ₚ x :: m) as I.
  { intros x m. induction m as [|y m IH]; cbn; [done|]. destruct (c x y); [done..|]. rewrite IH. constructor. }
  unfold sort_by. induction l as [|x l IH]; cbn; [done|]. by rewrite I, IH.
Qed.
Lemma keyed_rows_perm ws rows indices : (keyed_rows ws rows indices).*2 ≡ₚ indices.
Proof.
  unfold keyed_rows. rewrite sort_by_perm, <-list_fmap_compose. by rewrite (list_fmap_ext _ id), list_fmap_id.
Qed.

(** Only the annotated variable differs: the same order and the same values. *)
Lemma keyed_rows_off ws key rows rows' indices : order_by ws ≠ key → off key rows = off key rows' →
  keyed_rows ws rows indices = keyed_rows ws rows' indices.
Proof.
  intros N E. unfold keyed_rows. f_equal. apply list_fmap_ext. intros _ i _. f_equal.
  change (default VNull (cell rows i (order_by ws)) = default VNull (cell rows' i (order_by ws))).
  by rewrite <-(cell_off key rows), E, cell_off.
Qed.
Lemma window_values_off registry ws key rows rows' keyed : win_var ws ≠ Some key → off key rows = off key rows' →
  window_values registry ws rows keyed = window_values registry ws rows' keyed.
Proof.
  intros N E. assert (∀ i, window_arg ws rows i = window_arg ws rows' i) as A.
  { intros i. unfold window_arg. destruct (win_var ws) as [x|]; cbn; [|done].
    change (default VNull (cell rows i x) = default VNull (cell rows' i x)).
    by rewrite <-(cell_off key rows), E, cell_off by congruence. }
  unfold window_values.
  assert (window_arg ws rows <$> keyed.*2 = window_arg ws rows' <$> keyed.*2) as ->; [by apply list_fmap_ext; auto|done].
Qed.

Lemma ranks_length n r p ks : length (ranks n r p ks) = length ks.
Proof. revert n r p; induction ks as [|k ks IH]; intros n r p; cbn; [done|]. destruct (same_rank p k); cbn; by rewrite IH. Qed.
Lemma running_lookup {S} step (fin : S → Z → Value) acc c vs j : (j < length vs)%nat →
  running step fin acc c vs !! j = Some (fin (foldl step acc (take (Datatypes.S j) vs)) (c + Z.of_nat (Datatypes.S j))).
Proof.
  revert acc c j; induction vs as [|v vs IH]; intros acc c j L; cbn in L; [lia|]. destruct j as [|j]; cbn [running lookup list_lookup].
  - done.
  - rewrite IH by lia. cbn [take foldl]. do 2 f_equal. lia.
Qed.
Lemma running_length {S} step (fin : S → Z → Value) acc c vs : length (running step fin acc c vs) = length vs.
Proof. revert acc c; induction vs as [|v vs IH]; intros acc c; cbn; [done|]. by rewrite IH. Qed.

Definition window_known (registry : FunctionRegistry) (ws : WindowSpec) : Prop :=
  match win_func ws with WRank | WRowNumber => True | _ => is_Some (registry_get registry (func_name ws)) end.
Lemma window_values_total registry ws rows keyed : window_known registry ws → Z.of_nat (length keyed) ≤ i64_MAX →
  ∃ vs, window_values registry ws rows keyed = Ok vs ∧ length vs = length keyed.
Proof.
  unfold window_known, window_values. intros K L.
  assert (∀ n l, Z.of_nat (n + length l) ≤ i64_MAX → ∃ vs,
    mapR (λ pos, m ← ok_or (i64_try_from (Z.of_nat pos)) "row number overflow"%string; Ok (VInteger m)) (seq (Datatypes.S n) (length (l : list (Value * nat)))) = Ok vs
    ∧ length vs = length l) as R.
  { intros n l. revert n. induction l as [|x l IH]; intros n B; cbn [length seq mapR]; [by exists []|].
    cbn in B. destruct (IH (Datatypes.S n)) as (vs & E & Lv); [lia|].
    assert (i64_try_from (Z.of_nat (Datatypes.S n)) = Some (Z.of_nat (Datatypes.S n))) as ->.
    { unfold i64_try_from. by rewrite (proj2 (Z.leb_le _ _)) by lia. }
    cbn [ok_or mbind result_bind]. rewrite E. cbn. eexists. split; [done|]. cbn. by rewrite Lv. }
  destruct (win_func ws).
  6: { eexists. split; [done|]. by rewrite ranks_length, length_fmap. }
  6: { by apply (R 0%nat keyed). }
  all: destruct K as [desc ->]; cbn; destruct (agg_impl desc); (eexists; split; [done|]).
  all: by rewrite running_length, !length_fmap.
Qed.

Lemma entry_push_elem {K V} (keq : K → K → bool) m k (v : V) : concat (entry_push keq m k v).*2 ≡ₚ v :: concat m.*2.
Proof.
  induction m as [|[k' vs] m IH]; cbn; [done|]. destruct (keq k k'); cbn.
  - rewrite <-app_assoc. cbn. symmetry. apply Permutation_middle.
  - rewrite IH. symmetry. apply Permutation_middle.
Qed.
(** Every row is in exactly one partition. *)
Lemma partitions_cover ws rows : concat (partitions ws rows).*2 ≡ₚ seq 0 (length rows).
Proof.
  unfold partitions.
  assert (∀ l m, concat (foldl (λ m '(i, b), entry_push option_key_eq m (partition_key ws b) i) m l).*2
                 ≡ₚ concat m.*2 ++ (l : list (nat * gmap string Value)).*1) as X.
  { intros l. induction l as [|[i b] l IH]; intros m; cbn; [by rewrite app_nil_r|].
    rewrite IH, entry_push_elem. cbn. apply Permutation_middle. }
  rewrite X. cbn. apply reflexive_eq. unfold enumerate.
  assert (∀ n, (imap (λ i b, ((n + i)%nat, b)) rows).*1 = seq n (length rows)) as Y; [|apply (Y 0%nat)].
  induction rows as [|b rows IH]; intros n; cbn; [done|]. rewrite Nat.add_0_r. f_equal.
  rewrite <-(IH (Datatypes.S n)). f_equal. apply imap_ext. intros i x _. cbn. f_equal. lia.
Qed.

Section window.
Context (registry : FunctionRegistry) (ws : WindowSpec) (key : string) (rows : list (gmap string Value)).
Context (Hord : order_by ws ≠ key) (Hvar : win_var ws ≠ Some key) (Hknown : window_known registry ws).
Context (Hlen : Z.of_nat (length rows) ≤ i64_MAX).

(** What is written for a partition, from the rows as they were. *)
Definition written_for (indices : list nat) (rows' : list (gmap string Value)) : Prop :=
  let keyed := keyed_rows ws rows indices in
  ∃ vs, window_values registry ws rows keyed = Ok vs ∧
    ∀ j i, keyed.*2 !! j = Some i → is_Some (vs !! j) ∧ cell rows' i key = vs !! j.

Lemma window_partition_spec rows1 part : off key rows1 = off key rows → NoDup part.2 →
  (∀ i, i ∈ part.2 → (i < length rows)%nat) →
  ∃ rows2, window_partition registry ws key rows1 part = Ok rows2 ∧ off key rows2 = off key rows ∧
    (∀ i, i ∉ part.2 → rows2 !! i = rows1 !! i) ∧ written_for part.2 rows2.
Proof using Hord Hvar Hknown Hlen.
  intros O N B. unfold window_partition. rewrite (keyed_rows_off ws key rows1 rows) by done.
  set (keyed := keyed_rows ws rows part.2). pose proof (keyed_rows_perm ws rows part.2) as Pk. fold keyed in Pk.
  assert (length rows1 = length rows) as L1
    by (pose proof (f_equal length O) as O'; unfold off in O'; by rewrite !length_fmap in O').
  assert (length keyed = length part.2) as Lk by (apply Permutation_length in Pk; by rewrite length_fmap in Pk).
  assert (Z.of_nat (length keyed) ≤ i64_MAX) as Lb.
  { rewrite Lk. assert (length part.2 ≤ length rows)%nat; [|lia].
    transitivity (length (seq 0 (length rows))); [|by rewrite length_seq].
    apply submseteq_length, NoDup_submseteq; [done|]. intros i I. apply elem_of_seq. apply B in I. lia. }
  rewrite (window_values_off registry ws key rows1 rows) by done.
  destruct (window_values_total registry ws rows keyed Hknown Lb) as (vs & E & Lv). rewrite E. cbn [mbind result_bind].
  assert ((zip keyed.*2 vs).*1 = keyed.*2) as Z1 by (apply fst_zip; rewrite length_fmap; lia).
  destruct (write_window_spec key rows1 (zip keyed.*2 vs)) as (O2 & Un & W).
  - rewrite Z1. by rewrite Pk.
  - intros i I. rewrite Z1, Pk in I. rewrite L1. by apply B.
  - eexists. split; [done|]. split; [by rewrite O2|]. split.
    + intros i I. apply Un. by rewrite Z1, Pk.
    + exists vs. split; [done|]. intros j i J.
      assert (is_Some (vs !! j)) as [w Ew].
      { apply lookup_lt_is_Some_2. apply lookup_lt_Some in J. rewrite length_fmap in J. by rewrite Lv. }
      split; [eauto|]. rewrite Ew. apply W, list_elem_of_lookup. exists j. apply lookup_zip_Some. done.
Qed.

Lemma window_partitions_spec parts rows1 : off key rows1 = off key rows → NoDup (concat parts.*2) →
  (∀ i, i ∈ concat parts.*2 → (i < length rows)%nat) →
  ∃ rows2, foldR (window_partition registry ws key) rows1 parts = Ok rows2 ∧ off key rows2 = off key rows ∧
    (∀ i, i ∉ concat parts.*2 → rows2 !! i = rows1 !! i) ∧
    (∀ part, part ∈ parts → written_for part.2 rows2).
Proof using Hord Hvar Hknown Hlen.
  revert rows1; induction parts as [|part parts IH]; intros rows1 O N B.
  { exists rows1. split_and!; [done|done|done|]. by intros ? ?%elem_of_nil. }
  rewrite fmap_cons in N, B |- *. cbn [concat] in *. apply NoDup_app in N as (N1 & D & N2).
  destruct (window_partition_spec rows1 part O N1) as (rows2 & E & O2 & Un & W).
  { intros i I. apply B, elem_of_app. by left. }
  destruct (IH rows2 O2 N2) as (rows3 & E3 & O3 & Un3 & W3).
  { intros i I. apply B, elem_of_app. by right. }
  exists rows3. cbn [foldR]. rewrite E. cbn [mbind result_bind]. split; [done|]. split; [done|]. split.
  - intros i I. rewrite elem_of_app in I. rewrite Un3, Un by tauto. done.
  - intros p [->|I]%elem_of_cons; [|by apply W3].
    destruct W as (vs & Ev & W). exists vs. split; [done|]. intros j i J. destruct (W j i J) as [S C].
    split; [done|]. rewrite <-C. unfold cell. rewrite Un3; [done|]. apply D.
    rewrite <-(keyed_rows_perm ws rows part.2). by apply list_elem_of_lookup_2 in J.
Qed.
End window.

(** A window function annotates rows.  With a registered function and an
    annotation that is not one of its own arguments, the pass over the partitions
    succeeds, changes nothing but the annotation, visits every row in exactly one
    partition, and writes to the row at position [j] of its partition's order the
    [j]-th window value computed from the rows as they were; for an accumulator
    that value is the accumulator run over the rows of the partition up to and
    including this one. *)
Theorem window_annotates registry ws key rows :
  order_by ws ≠ key → win_var ws ≠ Some key → window_known registry ws → Z.of_nat (length rows) ≤ i64_MAX →
  ∃ rows', foldR (window_partition registry ws key) rows (partitions ws rows) = Ok rows' ∧
    delete key <$> rows' = delete key <$> rows ∧
    concat (partitions ws rows).*2 ≡ₚ seq 0 (length rows) ∧
    ∀ part, part ∈ partitions ws rows →
      (keyed_rows ws rows part.2).*2 ≡ₚ part.2 ∧
      written_for registry ws key rows part.2 rows' ∧
      ∀ desc ops, win_func ws ≠ WRank → win_func ws ≠ WRowNumber →
        registry_get registry (func_name ws) = Some desc → agg_impl desc = Builtin ops →
        ∀ j i, (keyed_rows ws rows part.2).*2 !! j = Some i →
          cell rows' i key = Some (win_finalise ops (foldl (win_step ops) (win_init ops)
            (take (S j) (window_arg ws rows <$> (keyed_rows ws rows part.2).*2)))).
Proof.
  intros Hord Hvar Hknown Hlen. pose proof (partitions_cover ws rows) as P.
  destruct (window_partitions_spec registry ws key rows Hord Hvar Hknown Hlen (partitions ws rows) rows eq_refl)
    as (rows' & E & O & _ & W).
  { rewrite P. apply NoDup_seq. }
  { intros i I. rewrite P in I. apply elem_of_seq in I. lia. }
  exists rows'. split; [done|]. split; [done|]. split; [done|]. intros part I.
  split; [apply keyed_rows_perm|]. split; [by apply W|].
  intros desc ops NR NN Ed Ei j i J. destruct (W part I) as (vs & Ev & Wj). destruct (Wj j i J) as [_ ->].
  assert (vs = running (win_step ops) (λ acc _, win_finalise ops acc) (win_init ops) 0
            (window_arg ws rows <$> (keyed_rows ws rows part.2).*2)) as ->.
  { unfold window_values in Ev. rewrite Ed in Ev. cbn in Ev. rewrite Ei in Ev. by destruct (win_func ws); simplify_eq. }
  rewrite running_lookup; [done|]. rewrite length_fmap. by apply lookup_lt_Some in J.
Qed.

Definition count_window : WindowSpec := mkWindowSpec WCount (Some "?s"%string) (Some "?d"%string) "?s" Asc.
Lemma window_annotates_witness :
  ∃ rows', foldR (window_partition with_builtins count_window "__win_0") salaries (partitions count_window salaries) = Ok rows' ∧
    (λ b, b !! "__win_0"%string) <$> rows' = [Some (VInteger 1); Some (VInteger 1); Some (VInteger 2); Some (VInteger 1)] ∧
    delete "__win_0"%string <$> rows' = delete "__win_0"%string <$> salaries.
Proof.
  destruct (window_annotates with_builtins count_window "__win_0" salaries) as (rows' & E & O & _);
    [done|done|by eexists|done|].
  exists rows'. split; [done|]. split; [|done].
  assert (foldR (window_partition with_builtins count_window "__win_0") salaries (partitions count_window salaries)
          = Ok ((λ '(b, n), <["__win_0"%string := VInteger n]> b) <$> zip salaries [1; 1; 2; 1])) as E'
    by (vm_compute; reflexivity).
  rewrite E in E'. injection E' as ->. vm_compute. reflexivity.
Defined.

(** The window sum of integers is kept in an [f64]: it loses what the aggregate
    keeps. *)
Example window_sum_rounds :
  stream with_builtins "sum" [Some (VInteger (2 ^ 53)); Some (VInteger 1)] = Ok (Some (VInteger (2 ^ 53 + 1))) ∧
  running (win_step sum_ops) (λ acc _, win_finalise sum_ops acc) (win_init sum_ops) 0 [VInteger (2 ^ 53); VInteger 1]
  = [VInteger (2 ^ 53); VInteger (2 ^ 53)].
Proof. vm_compute. done. Qed.

(** The comparator of the window order is not transitive on integers and floats
    together: two integers that differ both equal the float between them. *)
Example window_order_not_transitive :
  Fn.value_cmp (VInteger (2 ^ 53)) (VFloat (Float.of_i64 (2 ^ 53))) = Eq ∧
  Fn.value_cmp (VFloat (Float.of_i64 (2 ^ 53))) (VInteger (2 ^ 53 + 1)) = Eq ∧
  Fn.value_cmp (VInteger (2 ^ 53)) (VInteger (2 ^ 53 + 1)) = Lt.
Proof. vm_compute. done. Qed.
