(* ===== verification/Stratification.v ===== *)
(** Rules and stratification (src/src/query/datalog/stratification.rs and
    rules.rs): the dependency graph of a rule registry, the constraint
    propagation that assigns a stratum to every predicate, and registration
    with rollback.

    A [HashMap] is a finite map; the order in which one is iterated is a
    parameter, any list that permutes its entries.  The propagation loop carries
    fuel; [stratify] gives it the square of the number of predicates plus one
    rounds, which is shown to be enough. *)
From S2P Require Import Prelude Types QueryTypes.

(** * Dependencies *)

(** The direct invocations of a negated body. *)
Definition negated (inner : list WhereClause) : list (string * bool) :=
  omap (λ c, match c with RuleInvocation predicate _ => Some (predicate, true) | _ => None end) inner.

Fixpoint collect_clause_deps (c : WhereClause) : list (string * bool) :=
  match c with
  | RuleInvocation predicate _ => [(predicate, false)]
  | Not inner => negated inner
  | NotJoin _ inner => negated inner
  | Or branches | OrJoin _ branches => flat_map (flat_map collect_clause_deps) branches
  | CPattern _ => []
  | CExpr _ _ => []
  end.

(** [edges.entry(head).or_default()] followed by the pushes of one rule. *)
Definition add_rule_edges (head : string) (edges : gmap string (list (string * bool))) (rule : Rule)
    : gmap string (list (string * bool)) :=
  <[head := default [] (edges !! head) ++ flat_map collect_clause_deps (rule_body rule)]> edges.

Definition from_rules (all_rules : list (string * list Rule)) : gmap string (list (string * bool)) :=
  foldl (λ edges '(head, rules), foldl (add_rule_edges head) edges rules) ∅ all_rules.

(** * Strata *)

Definition all_predicates (edges : list (string * list (string * bool))) : gset string :=
  list_to_set (edges.*1 ++ flat_map (λ '(_, deps), deps.*1) edges).

Definition stratum (strata : gmap string Z) (p : string) : Z := default 0 (strata !! p).

(** The body of the inner loop. *)
Definition relax (n : Z) (head : string) (st : gmap string Z * bool) (edge : string * bool)
    : result (gmap string Z * bool) :=
  let '(strata, changed) := st in
  let '(dep, is_negative) := edge in
  let dep_stratum := stratum strata dep in
  let required := if is_negative : bool then sat_add_u64 dep_stratum 1 else dep_stratum in
  let head_stratum := stratum strata head in
  let strata := <[head := head_stratum]> strata in
  let '(strata, changed) :=
    if head_stratum <? required then (<[head := required]> strata, true) else (strata, changed) in
  if n <=? stratum strata head then Err "unstratifiable" else Ok (strata, changed).

(** One pass over the edges. *)
Definition round (n : Z) (edges : list (string * list (string * bool))) (strata : gmap string Z)
    : result (gmap string Z * bool) :=
  foldR (λ st '(head, deps), foldR (relax n head) st deps) (strata, false) edges.

(** [while changed]. *)
Fixpoint propagate (fuel : nat) (n : Z) (edges : list (string * list (string * bool)))
    (strata : gmap string Z) : result (gmap string Z) :=
  match fuel with
  | O => Err "out of fuel"
  | S fuel =>
      '(strata, changed) ← round n edges strata;
      if changed : bool then propagate fuel n edges strata else Ok strata
  end.

Definition stratify (edges : list (string * list (string * bool))) : result (gmap string Z) :=
  let predicates := all_predicates edges in
  let n := size predicates in
  propagate (S (n * n)) (Z.of_nat n) edges (gset_to_gmap 0 predicates).

(** * The registry *)

Notation RuleRegistry := (gmap string (list Rule)).

Definition registry_new : RuleRegistry := ∅.
Definition register_rule_unchecked (r : RuleRegistry) (predicate : string) (rule : Rule) : RuleRegistry :=
  <[predicate := default [] (r !! predicate) ++ [rule]]> r.

Section registry.
(** The iteration orders of the two maps. *)
Context (rule_order : RuleRegistry → list (string * list Rule))
        (edge_order : gmap string (list (string * bool)) → list (string * list (string * bool))).

Definition register_rule (r : RuleRegistry) (predicate : string) (rule : Rule) : RuleRegistry * result () :=
  let r' := register_rule_unchecked r predicate rule in
  match stratify (edge_order (from_rules (rule_order r'))) with
  | Ok _ => (r', Ok ())
  | Err e =>
      match r' !! predicate with
      | None => (r', Err "rule predicate disappeared during rollback")
      | Some rules =>
          let rules := removelast rules in
          if bool_decide (rules = []) then (delete predicate r', Err e)
          else (<[predicate := rules]> r', Err e)
      end
  end.
End registry.

Definition get_rules (r : RuleRegistry) (predicate : string) : list Rule := default [] (r !! predicate).
Definition has_rule (r : RuleRegistry) (predicate : string) : bool := bool_decide (is_Some (r !! predicate)).
Definition rule_count (r : RuleRegistry) : nat := sum_list_with (λ '(_, v), length v) (map_to_list r).
Definition predicate_count (r : RuleRegistry) : nat := size r.

(** * What the graph records *)

(** [predicate] is invoked in the clause, under a negation or not. *)
Inductive occurs (q : string) : bool → WhereClause → Prop :=
| OccInvocation args : occurs q false (RuleInvocation q args)
| OccNot neg c cs : c ∈ cs → occurs q neg c → occurs q true (Not cs)
| OccNotJoin neg vs c cs : c ∈ cs → occurs q neg c → occurs q true (NotJoin vs cs)
| OccOr neg c b bs : b ∈ bs → c ∈ b → occurs q neg c → occurs q neg (Or bs)
| OccOrJoin neg vs c b bs : b ∈ bs → c ∈ b → occurs q neg c → occurs q neg (OrJoin vs bs).

(** The nesting the parser admits: a negated body holds no negation and no
    disjunction. *)
Definition is_leaf (c : WhereClause) : bool :=
  match c with CPattern _ | RuleInvocation _ _ | CExpr _ _ => true | _ => false end.
Fixpoint well_nested (c : WhereClause) : bool :=
  match c with
  | CPattern _ | RuleInvocation _ _ | CExpr _ _ => true
  | Not cs | NotJoin _ cs => forallb is_leaf cs
  | Or bs | OrJoin _ bs => forallb (forallb well_nested) bs
  end.

Lemma forallb_Forall {A} (p : A → bool) l : forallb p l = true ↔ ∀ x, x ∈ l → p x = true.
Proof. rewrite forallb_forall. by setoid_rewrite list_elem_of_In. Qed.

Lemma negated_spec cs q neg : (∀ c, c ∈ cs → is_leaf c = true) →
  (q, neg) ∈ negated cs ↔ neg = true ∧ ∃ c b, c ∈ cs ∧ occurs q b c.
Proof.
  intros L. unfold negated. rewrite list_elem_of_omap. split.
  - intros (c & Hc & E). destruct c; simplify_eq. split; [done|]. eexists _, _. split; [exact Hc|constructor].
  - intros [-> (c & b & Hc & O)]. exists c. split; [done|]. specialize (L c Hc).
    destruct O; done.
Qed.

Lemma collect_clause_deps_spec q neg c : well_nested c = true →
  (q, neg) ∈ collect_clause_deps c ↔ occurs q neg c.
Proof.
  revert neg. induction c as [p|p args|cs _|vs cs _|e b|bs IH|vs bs IH] using where_ind; intros neg W; cbn in W |- *.
  - split; [by intros []%not_elem_of_nil|inversion 1].
  - rewrite list_elem_of_singleton. split; [intros [= -> ->]; constructor|by inversion 1].
  - rewrite forallb_Forall in W. rewrite negated_spec by done. split.
    + intros [-> (c & b & Hc & O)]. by econstructor.
    + inversion 1; subst. split; [done|]. by eexists _, _.
  - rewrite forallb_Forall in W. rewrite negated_spec by done. split.
    + intros [-> (c & b & Hc & O)]. by econstructor.
    + inversion 1; subst. split; [done|]. by eexists _, _.
  - split; [by intros []%not_elem_of_nil|inversion 1].
  - rewrite elem_of_flat_map. setoid_rewrite elem_of_flat_map.
    rewrite forallb_Forall in W. rewrite Forall_forall in IH. split.
    + intros (b & Hb & c & Hc & H). specialize (W b Hb). rewrite forallb_Forall in W.
      specialize (IH b Hb). rewrite Forall_forall in IH. econstructor; [done..|]. by apply IH; [..|apply W|].
    + inversion 1 as [| | |? c b ? Hb Hc O|]; subst. exists b. split; [done|]. exists c. split; [done|].
      specialize (W b Hb). rewrite forallb_Forall in W. specialize (IH b Hb). rewrite Forall_forall in IH.
      by apply IH; [..|apply W|].
  - rewrite elem_of_flat_map. setoid_rewrite elem_of_flat_map.
    rewrite forallb_Forall in W. rewrite Forall_forall in IH. split.
    + intros (b & Hb & c & Hc & H). specialize (W b Hb). rewrite forallb_Forall in W.
      specialize (IH b Hb). rewrite Forall_forall in IH. econstructor; [done..|]. by apply IH; [..|apply W|].
    + inversion 1 as [| | | |? ? c b ? Hb Hc O]; subst. exists b. split; [done|]. exists c. split; [done|].
      specialize (W b Hb). rewrite forallb_Forall in W. specialize (IH b Hb). rewrite Forall_forall in IH.
      by apply IH; [..|apply W|].
Qed.

Lemma add_rules_lookup head rules edges p :
  foldl (add_rule_edges head) edges rules !! p =
  if bool_decide (p = head ∧ rules ≠ [])
  then Some (default [] (edges !! head) ++ flat_map collect_clause_deps (flat_map rule_body rules)) else edges !! p.
Proof.
  revert edges; induction rules as [|r rules IH]; intros edges; cbn [foldl].
  { by rewrite bool_decide_false by naive_solver. }
  rewrite IH. unfold add_rule_edges at 1. destruct (decide (p = head)) as [->|Hp].
  - rewrite (bool_decide_true (head = head ∧ r :: rules ≠ [])) by done. destruct rules as [|r' rules].
    + rewrite bool_decide_false by naive_solver. unfold add_rule_edges. rewrite lookup_insert_eq. cbn.
      by rewrite app_nil_r.
    + rewrite bool_decide_true by done. unfold add_rule_edges. rewrite lookup_insert_eq.
      change (flat_map rule_body (r :: r' :: rules)) with (rule_body r ++ flat_map rule_body (r' :: rules)).
      rewrite flat_map_app, app_assoc. done.
  - rewrite !bool_decide_false by naive_solver. unfold add_rule_edges. by rewrite lookup_insert_ne.
Qed.

Definition rules_deps (rules : list Rule) : list (string * bool) :=
  flat_map collect_clause_deps (flat_map rule_body rules).

Lemma from_rules_lookup l p : NoDup l.*1 →
  from_rules l !! p = (rules ← (list_to_map l : gmap string (list Rule)) !! p;
                       if bool_decide (rules = []) then None else Some (rules_deps rules)).
Proof.
  intros N. unfold from_rules.
  assert (∀ (edges : gmap string (list (string * bool))), (∀ h, h ∈ l.*1 → edges !! h = None) →
    foldl (λ edges '(head, rules), foldl (add_rule_edges head) edges rules) edges l !! p =
    match (list_to_map l : gmap string (list Rule)) !! p with
    | Some rules => if bool_decide (rules = []) then None else Some (rules_deps rules)
    | None => edges !! p
    end) as G.
  { induction l as [|[h rules] l IH]; intros edges D; cbn [foldl]; [done|].
    apply NoDup_cons in N as [Nh N]. rewrite IH; [|done|].
    2: { intros h' Hh'. rewrite add_rules_lookup, bool_decide_false by (intros [-> _]; done). apply D. set_solver. }
    rewrite list_to_map_cons. destruct (decide (p = h)) as [->|Hp].
    - rewrite lookup_insert_eq. rewrite not_elem_of_list_to_map_1 by done. rewrite add_rules_lookup.
      rewrite (D h) by set_solver. repeat case_bool_decide; naive_solver.
    - rewrite lookup_insert_ne by done. destruct (list_to_map l !! p); [done|].
      rewrite add_rules_lookup, bool_decide_false by (intros [? _]; done). done. }
  rewrite G by (intros; apply lookup_empty). rewrite lookup_empty. by destruct (list_to_map l !! p).
Qed.

(** * The propagation *)

(** The constraint of one edge: the head is at least as high as what it depends
    on, and higher across a negation. *)
Definition edge_ok (σ : string → Z) (e : string * (string * bool)) : Prop :=
  let '(h, (d, neg)) := e in σ d + (if neg : bool then 1 else 0) ≤ σ h.
Definition flatten (edges : list (string * list (string * bool))) : list (string * (string * bool)) :=
  flat_map (λ '(h, deps), pair h <$> deps) edges.
Definition stratifies (σ : string → Z) (edges : list (string * list (string * bool))) : Prop :=
  (∀ p, 0 ≤ σ p) ∧ ∀ e, e ∈ flatten edges → edge_ok σ e.

Lemma round_flatten n edges strata :
  round n edges strata = foldR (λ st '(h, e), relax n h st e) (strata, false) (flatten edges).
Proof.
  unfold round, flatten. generalize (strata, false). induction edges as [|[h deps] edges IH]; intros st; [done|].
  cbn [foldR flat_map]. rewrite foldR_app, foldR_fmap.
  match goal with |- _ = mbind _ ?x => assert (x = foldR (relax n h) st deps) as -> by (by apply foldR_ext) end.
  destruct (foldR (relax n h) st deps) as [st'|err]; cbn [mbind result_bind]; [apply IH|done].
Qed.

(** Strata within range: what the loop maintains. *)
Definition in_range (n : Z) (s : gmap string Z) : Prop := ∀ p, 0 ≤ stratum s p < n.

Lemma stratum_insert s h v p : stratum (<[h := v]> s) p = if decide (p = h) then v else stratum s p.
Proof.
  unfold stratum. destruct (decide (p = h)) as [->|Hp]; [by rewrite lookup_insert_eq|by rewrite lookup_insert_ne].
Qed.

(** One edge: the head rises to what the edge requires, or the graph is refused. *)
Lemma relax_spec n h s ch d neg : n ≤ u64_MAX → in_range n s →
  let required := stratum s d + (if neg : bool then 1 else 0) in
  (required ≤ stratum s h ∧ ∃ s', relax n h (s, ch) (d, neg) = Ok (s', ch) ∧
     (∀ p, stratum s' p = stratum s p) ∧ dom s' = {[ h ]} ∪ dom s) ∨
  (stratum s h < required < n ∧ ∃ s', relax n h (s, ch) (d, neg) = Ok (s', true) ∧
     (∀ p, stratum s' p = if decide (p = h) then required else stratum s p) ∧ dom s' = {[ h ]} ∪ dom s) ∨
  (stratum s h < required ∧ n ≤ required ∧ relax n h (s, ch) (d, neg) = Err "unstratifiable").
Proof.
  intros N R. cbn zeta. unfold relax. pose proof (R d) as Rd. pose proof (R h) as Rh.
  assert ((if neg : bool then sat_add_u64 (stratum s d) 1 else stratum s d)
    = stratum s d + (if neg : bool then 1 else 0)) as ->.
  { destruct neg; [unfold sat_add_u64; lia|lia]. }
  set (req := stratum s d + _). destruct (Z.ltb_spec (stratum s h) req) as [L|L].
  - right. rewrite stratum_insert, decide_True by done. destruct (Z.leb_spec n req) as [G|G].
    + right. by split_and!.
    + left. split; [done|]. eexists. split; [done|]. split; [|by rewrite !dom_insert_L; set_solver].
      intros p. rewrite !stratum_insert. by destruct (decide (p = h)).
  - left. split; [done|]. rewrite stratum_insert, decide_True by done. rewrite (proj2 (Z.leb_gt _ _)) by lia.
    eexists. split; [done|]. split; [|by rewrite dom_insert_L].
    intros p. rewrite stratum_insert. destruct (decide (p = h)); by subst.
Qed.

Definition total_strata (ps : list string) (s : gmap string Z) : nat :=
  sum_list_with (λ p, Z.to_nat (stratum s p)) ps.

Lemma total_strata_le ps s s' : (∀ p, stratum s p ≤ stratum s' p) → (total_strata ps s ≤ total_strata ps s')%nat.
Proof. intros H. unfold total_strata. induction ps as [|p ps IH]; cbn; [done|]. specialize (H p). lia. Qed.
Lemma total_strata_lt ps s s' h : (∀ p, 0 ≤ stratum s p ≤ stratum s' p) → h ∈ ps → stratum s h < stratum s' h →
  (total_strata ps s < total_strata ps s')%nat.
Proof.
  intros H Hh L. induction ps as [|p ps IH]; [by apply not_elem_of_nil in Hh|].
  unfold total_strata in *. cbn. pose proof (H p). apply elem_of_cons in Hh as [->|Hh].
  - pose proof (total_strata_le ps s s'). unfold total_strata in *.
    assert (∀ p, stratum s p ≤ stratum s' p) as M by (intros q; specialize (H q); lia). specialize (H1 M). lia.
  - specialize (IH Hh). lia.
Qed.
Lemma total_strata_bound ps s n : in_range n s → (total_strata ps s ≤ length ps * Z.to_nat n)%nat.
Proof. intros R. unfold total_strata. induction ps as [|p ps IH]; cbn; [done|]. specialize (R p). lia. Qed.

(** A pass over the edges from a state within range. *)
Lemma pass_spec n ps es : n ≤ u64_MAX → (∀ e, e ∈ es → e.1 ∈ ps) → ∀ s ch, in_range n s →
  match foldR (λ st '(h, e), relax n h st e) (s, ch) es with
  | Ok (s', ch') =>
      in_range n s' ∧ (∀ p, stratum s p ≤ stratum s' p) ∧ dom s' = list_to_set es.*1 ∪ dom s ∧
      (∀ σ, (∀ e, e ∈ es → edge_ok σ e) → (∀ p, stratum s p ≤ σ p) → ∀ p, stratum s' p ≤ σ p) ∧
      ((ch' = ch ∧ (∀ p, stratum s' p = stratum s p) ∧ ∀ e, e ∈ es → edge_ok (stratum s) e) ∨
       (ch' = true ∧ (total_strata ps s < total_strata ps s')%nat))
  | Err err => err = "unstratifiable" ∧
      ∀ σ, (∀ e, e ∈ es → edge_ok σ e) → (∀ p, stratum s p ≤ σ p) → ∃ e, e ∈ es ∧ n ≤ σ e.1
  end.
Proof.
  intros N. induction es as [|[h [d neg]] es IH]; intros Hps s ch R; cbn [foldR].
  { split_and!; [done|done| |done|by left; split_and!; [..|intros ? []%not_elem_of_nil]]. cbn. set_solver. }
  assert (∀ e, e ∈ es → e.1 ∈ ps) as Hps' by set_solver.
  destruct (relax_spec n h s ch d neg N R) as [(L & s1 & E & V & D)|[(L & s1 & E & V & D)|(L & G & E)]].
  - rewrite E. cbn [mbind result_bind]. assert (in_range n s1) as R1 by (intros p; rewrite V; apply R).
    specialize (IH Hps' s1 ch R1). destruct (foldR _ (s1, ch) es) as [[s' ch']|err].
    + destruct IH as (R' & M & D' & Le & C). split_and!; [done|by intros p; rewrite <-V| | |].
      * rewrite D', D. cbn. set_solver.
      * intros σ Hσ Hs. apply Le; [set_solver|]. intros p. by rewrite V.
      * destruct C as [(-> & V' & Ok')|(-> & T)]; [left|right].
        { split_and!; [done|by intros p; rewrite V', V|]. intros e [->|He]%elem_of_cons.
          - unfold edge_ok. lia.
          - specialize (Ok' e He). unfold edge_ok in *. destruct e as [h' [d' neg']]. by rewrite !V in Ok'. }
        { split; [done|]. pose proof (total_strata_le ps s s1). assert (∀ p, stratum s p ≤ stratum s1 p) by (intros p; by rewrite V).
          intuition lia. }
    + destruct IH as [-> IH]. split; [done|]. intros σ Hσ Hs.
      destruct (IH σ) as (e & He & G); [set_solver|intros p; by rewrite V|]. exists e. set_solver.
  - rewrite E. cbn [mbind result_bind].
    assert (∀ p, 0 ≤ stratum s p ≤ stratum s1 p) as M1.
    { intros p. rewrite V. specialize (R p). destruct (decide (p = h)) as [->|]; lia. }
    assert (total_strata ps s < total_strata ps s1)%nat as T1.
    { apply (total_strata_lt ps s s1 h M1); [set_solver|]. rewrite V, decide_True by done. lia. }
    assert (in_range n s1) as R1.
    { intros p. rewrite V. pose proof (R p). pose proof (R d). destruct (decide (p = h)); [destruct neg; lia|done]. }
    assert (∀ σ, edge_ok σ (h, (d, neg)) → (∀ p, stratum s p ≤ σ p) → ∀ p, stratum s1 p ≤ σ p) as Le1.
    { intros σ Ho Hs p. rewrite V. destruct (decide (p = h)) as [->|]; [|done]. unfold edge_ok in Ho. specialize (Hs d). lia. }
    specialize (IH Hps' s1 true R1). destruct (foldR _ (s1, true) es) as [[s' ch']|err].
    + destruct IH as (R' & M & D' & Le & C). split_and!; [done| | | |right].
      * intros p. specialize (M1 p). specialize (M p). lia.
      * rewrite D', D. cbn. set_solver.
      * intros σ Hσ Hs. apply Le; [set_solver|]. apply Le1; [apply Hσ; set_solver|done].
      * split; [by destruct C as [(-> & _)|(-> & _)]|]. pose proof (total_strata_le ps s1 s' M). lia.
    + destruct IH as [-> IH]. split; [done|]. intros σ Hσ Hs.
      destruct (IH σ) as (e & He & G); [set_solver|apply Le1; [apply Hσ; set_solver|done]|].
      exists e. set_solver.
  - rewrite E. cbn [mbind result_bind]. split; [done|]. intros σ Hσ Hs. exists (h, (d, neg)). split; [set_solver|]. cbn.
    specialize (Hσ (h, (d, neg))). unfold edge_ok in Hσ. specialize (Hs d).
    assert (σ d + (if neg : bool then 1 else 0) ≤ σ h) by (apply Hσ; set_solver). lia.
Qed.

(** * Stratifications, compressed *)

(** The number of distinct strata below that of [p]. *)
Definition rank (σ : string → Z) (ps : gset string) (p : string) : Z :=
  Z.of_nat (size (filter (λ v, v < σ p) (set_map σ ps : gset Z))).

Lemma rank_mono σ ps p q : σ p ≤ σ q → rank σ ps p ≤ rank σ ps q.
Proof. intros H. unfold rank. apply inj_le, subseteq_size. intros v. rewrite !elem_of_filter. intros [? ?]. split; [lia|done]. Qed.
Lemma rank_strict σ ps p q : p ∈ ps → σ p < σ q → rank σ ps p < rank σ ps q.
Proof.
  intros Hp H. unfold rank. apply inj_lt, subset_size. split.
  - intros v. rewrite !elem_of_filter. intros [? ?]. split; [lia|done].
  - intros F. specialize (F (σ p)). rewrite !elem_of_filter in F.
    destruct F as [F _]; [split; [done|]; by apply elem_of_map_2|lia].
Qed.
Lemma size_list_to_set_le (l : list Z) : (size (list_to_set l : gset Z) ≤ length l)%nat.
Proof.
  induction l as [|x l IH]; cbn; [by rewrite size_empty|]. rewrite size_union_alt, size_singleton.
  assert (size ((list_to_set l : gset Z) ∖ {[x]}) ≤ size (list_to_set l : gset Z))%nat
    by (apply subseteq_size; set_solver). lia.
Qed.
Lemma rank_bound σ ps p : p ∈ ps → rank σ ps p < Z.of_nat (size ps).
Proof.
  intros Hp. unfold rank. apply inj_lt.
  apply Nat.lt_le_trans with (size (set_map σ ps : gset Z)).
  - apply subset_size. split; [intros v; rewrite elem_of_filter; tauto|].
    intros F. specialize (F (σ p)). rewrite elem_of_filter in F. destruct F as [F _]; [by apply elem_of_map_2|lia].
  - unfold set_map. etrans; [apply size_list_to_set_le|]. by rewrite length_fmap.
Qed.

(** * Correctness *)

Lemma flatten_predicates edges e : e ∈ flatten edges → e.1 ∈ all_predicates edges ∧ e.2.1 ∈ all_predicates edges.
Proof.
  unfold flatten, all_predicates. intros ([h deps] & He & (d & -> & Hd)%list_elem_of_fmap)%elem_of_flat_map.
  cbn. rewrite !elem_of_list_to_set, !elem_of_app. split; [left|right].
  - apply list_elem_of_fmap. by exists (h, deps).
  - apply elem_of_flat_map. exists (h, deps). split; [done|]. apply list_elem_of_fmap. by exists d.
Qed.

Lemma all_predicates_perm edges edges' : edges' ≡ₚ edges → all_predicates edges' = all_predicates edges.
Proof. intros P. unfold all_predicates. apply set_eq. intros p. by rewrite !elem_of_list_to_set, P. Qed.
Lemma stratifies_perm edges edges' σ : edges' ≡ₚ edges → stratifies σ edges ↔ stratifies σ edges'.
Proof. intros P. unfold stratifies, flatten. by setoid_rewrite P. Qed.

(** Maps with the same domain and the same strata are equal. *)
Lemma map_eq_dom (s s' : gmap string Z) : dom s = dom s' → (∀ p, stratum s p = stratum s' p) → s = s'.
Proof.
  intros D H. apply map_eq. intros p. specialize (H p). unfold stratum in H.
  destruct (s !! p) eqn:E, (s' !! p) eqn:E'; cbn in H; try congruence.
  - apply elem_of_dom_2 in E. rewrite D in E. by apply not_elem_of_dom in E'.
  - apply elem_of_dom_2 in E'. rewrite <-D in E'. by apply not_elem_of_dom in E.
Qed.

Section graph.
Context (edges : list (string * list (string * bool))).
Definition graph_size : nat := size (all_predicates edges).
Hypothesis size_ok : Z.of_nat graph_size ≤ u64_MAX.

Lemma propagate_spec fuel : ∀ s, in_range (Z.of_nat graph_size) s → dom s = all_predicates edges →
  (graph_size * graph_size < fuel + total_strata (elements (all_predicates edges)) s)%nat →
  match propagate fuel (Z.of_nat graph_size) edges s with
  | Ok s' => dom s' = all_predicates edges ∧ stratifies (stratum s') edges ∧
      ∀ σ, stratifies σ edges → (∀ p, stratum s p ≤ σ p) → ∀ p, stratum s' p ≤ σ p
  | Err err => err = "unstratifiable" ∧ ∀ σ, stratifies σ edges → (∀ p, stratum s p ≤ σ p) →
      ∃ p, p ∈ all_predicates edges ∧ Z.of_nat graph_size ≤ σ p
  end.
Proof using size_ok.
  induction fuel as [|fuel IH]; intros s R D F.
  { pose proof (total_strata_bound (elements (all_predicates edges)) s _ R) as B.
    unfold graph_size in *. rewrite Nat2Z.id in B. change (length (elements ?x)) with (size x) in B. lia. }
  cbn [propagate]. rewrite round_flatten.
  pose proof (pass_spec (Z.of_nat graph_size) (elements (all_predicates edges)) (flatten edges) size_ok) as P.
  specialize (P ltac:(intros e He; apply elem_of_elements; by apply flatten_predicates) s false R).
  destruct (foldR _ (s, false) (flatten edges)) as [[s' ch]|err]; cbn [mbind result_bind].
  - destruct P as (R' & M & D' & Le & C).
    assert (dom s' = all_predicates edges) as Ds.
    { rewrite D', D. apply subseteq_union_1_L. intros h. rewrite elem_of_list_to_set, list_elem_of_fmap.
      intros (e & -> & He). by apply flatten_predicates. }
    destruct C as [(-> & V & O)|(-> & T)].
    + split_and!; [done| |intros σ [? Hσ] Hs; by apply Le]. split; [intros p; apply R'|].
      intros e He. specialize (O e He). destruct e as [h [d neg]]. unfold edge_ok in *. by rewrite !V.
    + specialize (IH s' R' Ds ltac:(lia)). destruct (propagate fuel _ edges s') as [s2|err].
      * destruct IH as (D2 & S2 & L2). split_and!; [done..|]. intros σ Hσ Hs. apply L2; [done|]. apply Le; [apply Hσ|done].
      * destruct IH as [-> IH]. split; [done|]. intros σ Hσ Hs. apply IH; [done|]. apply Le; [apply Hσ|done].
  - destruct P as [-> P]. split; [done|]. intros σ [Hn Hσ] Hs. destruct (P σ Hσ Hs) as (e & He & G). exists e.1. split; [|done]. by apply flatten_predicates.
Qed.

Lemma stratum_zero ps p : stratum (gset_to_gmap 0 ps) p = 0.
Proof using. unfold stratum. rewrite lookup_gset_to_gmap. by case_guard. Qed.

Lemma rank_stratifies σ : stratifies σ edges →
  stratifies (λ p, rank σ (all_predicates edges) p) edges.
Proof using.
  intros [Hn Hσ]. split; [intros p; unfold rank; lia|]. intros [h [d neg]] He. specialize (Hσ _ He) as Ho.
  unfold edge_ok in *. apply flatten_predicates in He as [Hh Hd]. cbn in Hd. destruct neg.
  - pose proof (rank_strict σ (all_predicates edges) d h Hd). lia.
  - pose proof (rank_mono σ (all_predicates edges) d h). lia.
Qed.

Lemma stratify_spec :
  ((∃ s, stratify edges = Ok s) ↔ ∃ σ, stratifies σ edges) ∧
  (stratify edges = Err "unstratifiable" ↔ ¬ ∃ σ, stratifies σ edges) ∧
  ∀ s, stratify edges = Ok s →
    dom s = all_predicates edges ∧ stratifies (stratum s) edges ∧
    ∀ σ, stratifies σ edges → ∀ p, stratum s p ≤ σ p.
Proof using size_ok.
  destruct (decide (all_predicates edges = ∅)) as [Z|Nz].
  { assert (edges = []) as E.
    { destruct edges as [|[h deps] l]; [done|]. exfalso.
      assert (h ∈ all_predicates ((h, deps) :: l)) as H by (unfold all_predicates; cbn; set_solver). set_solver. }
    rewrite E. assert (stratify [] = Ok ∅) as St by (by vm_compute).
    assert (stratifies (λ _, 0) []) as S0 by (split; [done|by intros e []%not_elem_of_nil]).
    split; [by split; [exists (λ _, 0)|exists ∅]|]. rewrite St. split; [split; [done|intros []; by exists (λ _, 0)]|].
    intros s [= <-].
    split_and!; [by vm_compute|exact S0|intros σ [Hn _] p; apply Hn]. }
  assert (in_range (Z.of_nat graph_size) (gset_to_gmap 0 (all_predicates edges))) as R.
  { intros p. rewrite stratum_zero. apply set_choose_L in Nz as [x Hx].
    assert (size (all_predicates edges) ≠ 0)%nat by (intros E%size_empty_inv; set_solver). unfold graph_size. lia. }
  pose proof (propagate_spec (S (graph_size * graph_size)) _ R (dom_gset_to_gmap _ _) ltac:(lia)) as P.
  unfold stratify. fold graph_size. destruct (propagate _ _ edges _) as [s|err].
  - destruct P as (D & S & L). split; [by split; [exists (stratum s)|exists s]|].
    split; [split; [done|intros []; by exists (stratum s)]|]. intros ? [= <-]. split_and!; [done..|].
    intros σ Hσ p. apply L; [done|]. intros q. rewrite stratum_zero. apply Hσ.
  - destruct P as [-> P]. assert (No : ¬ ∃ σ, stratifies σ edges); [|split_and!; by naive_solver].
    intros [σ Hσ]. destruct (P _ (rank_stratifies σ Hσ)) as (p & Hp & G).
    { intros q. rewrite stratum_zero. unfold rank. lia. }
    pose proof (rank_bound σ _ p Hp). unfold graph_size in G. lia.
Qed.
End graph.

(** C24: stratification is sound, complete and minimal.  It succeeds exactly when
    some assignment of strata satisfies every dependency, and refuses the
    program as unstratifiable exactly when none does: the propagation loop ends
    either way, since running out of fuel is neither of the two.  The result assigns a stratum to every predicate, satisfies
    every dependency, and is below every assignment that does, so it does not
    depend on the order in which the edges are visited. *)
Theorem stratify_correct edges : Z.of_nat (graph_size edges) ≤ u64_MAX →
  ((∃ s, stratify edges = Ok s) ↔ ∃ σ, stratifies σ edges) ∧
  (stratify edges = Err "unstratifiable" ↔ ¬ ∃ σ, stratifies σ edges) ∧
  ∀ s, stratify edges = Ok s →
    dom s = all_predicates edges ∧ stratifies (stratum s) edges ∧
    (∀ σ, stratifies σ edges → ∀ p, stratum s p ≤ σ p) ∧
    ∀ edges' s', edges' ≡ₚ edges → stratify edges' = Ok s' → s' = s.
Proof.
  intros Sz. destruct (stratify_spec edges Sz) as (I & R & H). split; [exact I|]. split; [exact R|]. intros s E.
  destruct (H s E) as (D & St & L). split_and!; [done..|]. intros edges' s' P E'.
  assert (all_predicates edges' = all_predicates edges) as Ep by (by apply all_predicates_perm).
  assert (Z.of_nat (graph_size edges') ≤ u64_MAX) as Sz' by (unfold graph_size in *; by rewrite Ep).
  destruct (proj2 (proj2 (stratify_spec edges' Sz')) s' E') as (D' & St' & L'). apply map_eq_dom; [congruence|].
  intros p. apply Z.le_antisymm; [apply L'|apply L]; by apply (stratifies_perm edges edges').
Qed.

(** * Registration *)

(** Strata for the rules themselves: a rule's predicate is at least as high as
    every predicate it invokes, and higher than those it invokes negated. *)
Definition registry_stratified (σ : string → Z) (r : RuleRegistry) : Prop :=
  (∀ p, 0 ≤ σ p) ∧
  ∀ h rules rule c q neg, r !! h = Some rules → rule ∈ rules → c ∈ rule_body rule → occurs q neg c →
    σ q + (if neg : bool then 1 else 0) ≤ σ h.
Definition parsed_rules (r : RuleRegistry) : Prop :=
  ∀ h rules rule c, r !! h = Some rules → rule ∈ rules → c ∈ rule_body rule → well_nested c = true.
Definition registry_ok (r : RuleRegistry) : Prop := ∀ h rules, r !! h = Some rules → rules ≠ [].

Section registration.
Context (rule_order : RuleRegistry → list (string * list Rule))
        (edge_order : gmap string (list (string * bool)) → list (string * list (string * bool))).
Hypothesis rule_order_perm : ∀ r, rule_order r ≡ₚ map_to_list r.
Hypothesis edge_order_perm : ∀ e, edge_order e ≡ₚ map_to_list e.

Definition graph_of (r : RuleRegistry) : list (string * list (string * bool)) :=
  edge_order (from_rules (rule_order r)).

Lemma graph_edge r h d neg :
  (h, (d, neg)) ∈ flatten (graph_of r) ↔ ∃ rules, r !! h = Some rules ∧ (d, neg) ∈ rules_deps rules.
Proof using rule_order_perm edge_order_perm.
  unfold flatten, graph_of. rewrite elem_of_flat_map. setoid_rewrite edge_order_perm.
  assert (NoDup (rule_order r).*1) as N by (rewrite rule_order_perm; apply NoDup_fst_map_to_list).
  assert ((list_to_map (rule_order r) : gmap string (list Rule)) = r) as E.
  { etrans; [|apply list_to_map_to_list]. by apply list_to_map_proper. }
  split.
  - intros ([h' deps] & H%elem_of_map_to_list & (x & [= <- <-] & Hd)%list_elem_of_fmap).
    rewrite from_rules_lookup, E in H by done. apply bind_Some in H as (rules & L & H).
    exists rules. split; [done|]. case_bool_decide; by simplify_eq.
  - intros (rules & L & Hd). exists (h, rules_deps rules). split; [|by apply list_elem_of_fmap_2].
    apply elem_of_map_to_list. rewrite from_rules_lookup, E by done. apply bind_Some. exists rules. split; [done|].
    rewrite bool_decide_false; [done|]. intros ->. by apply not_elem_of_nil in Hd.
Qed.

Lemma rules_deps_spec rules d neg : (∀ rule c, rule ∈ rules → c ∈ rule_body rule → well_nested c = true) →
  (d, neg) ∈ rules_deps rules ↔ ∃ rule c, rule ∈ rules ∧ c ∈ rule_body rule ∧ occurs d neg c.
Proof using.
  intros W. unfold rules_deps. rewrite elem_of_flat_map. split.
  - intros (c & (rule & Hr & Hc)%elem_of_flat_map & H). exists rule, c. split_and!; [done..|].
    apply collect_clause_deps_spec; [by eapply W|done].
  - intros (rule & c & Hr & Hc & O). exists c. split; [apply elem_of_flat_map; by exists rule|].
    apply collect_clause_deps_spec; [by eapply W|done].
Qed.

(** The graph's constraints are the rules'. *)
Lemma graph_stratifies σ r : parsed_rules r → stratifies σ (graph_of r) ↔ registry_stratified σ r.
Proof using rule_order_perm edge_order_perm.
  intros W. unfold stratifies, registry_stratified. apply and_iff_compat_l. split.
  - intros H h rules rule c q neg L Hr Hc O. apply (H (h, (q, neg))). apply graph_edge. exists rules. split; [done|].
    apply rules_deps_spec; [intros ? ? ? ?; by eapply W|]. by exists rule, c.
  - intros H [h [d neg]] (rules & L & Hd)%graph_edge. apply rules_deps_spec in Hd as (rule & c & Hr & Hc & O);
      [|intros ? ? ? ?; by eapply W]. by eapply H.
Qed.

Lemma unchecked_ok r p rule : registry_ok r → registry_ok (register_rule_unchecked r p rule).
Proof using.
  intros O h rules. unfold register_rule_unchecked. intros [[<- <-]|[_ L]]%lookup_insert_Some; [|by eapply O].
  by destruct (default [] (r !! p)).
Qed.

(** Registering a rule adds it and leaves rules that can be stratified, or
    fails and leaves the registry exactly as it was; it fails only when the
    rules with the new one cannot be stratified.  This holds for every iteration
    order of the maps, for rules nested as the parser nests them. *)
Theorem register_rule_correct r p rule : registry_ok r →
  parsed_rules (register_rule_unchecked r p rule) →
  Z.of_nat (graph_size (graph_of (register_rule_unchecked r p rule))) ≤ u64_MAX →
  let '(r', res) := register_rule rule_order edge_order r p rule in
  registry_ok r' ∧
  match res with
  | Ok _ => r' = register_rule_unchecked r p rule ∧ get_rules r' p = get_rules r p ++ [rule] ∧
      ∃ σ, registry_stratified σ r'
  | Err _ => r' = r ∧ ¬ ∃ σ, registry_stratified σ (register_rule_unchecked r p rule)
  end.
Proof using rule_order_perm edge_order_perm.
  intros O W Sz. unfold register_rule. fold (graph_of (register_rule_unchecked r p rule)).
  destruct (stratify_spec _ Sz) as (I & _ & H).
  destruct (stratify (graph_of (register_rule_unchecked r p rule))) as [s|err].
  - split; [by apply unchecked_ok|]. split_and!; [done| |].
    + unfold get_rules, register_rule_unchecked. by rewrite lookup_insert_eq.
    + destruct (H s eq_refl) as (_ & St & _). exists (stratum s). by apply graph_stratifies.
  - assert (¬ ∃ σ, registry_stratified σ (register_rule_unchecked r p rule)) as Ns.
    { intros [σ Hσ]. destruct (proj2 I) as [s [=]]. exists σ. by apply graph_stratifies. }
    assert (register_rule_unchecked r p rule !! p = Some (default [] (r !! p) ++ [rule])) as ->
      by apply lookup_insert_eq.
    rewrite removelast_last. destruct (r !! p) as [rules|] eqn:L; cbn [default from_option id].
    + assert (rules ≠ []) as Nr by (by eapply O). rewrite bool_decide_false by done.
      assert (<[p := rules]> (register_rule_unchecked r p rule) = r) as ->; [|done].
      unfold register_rule_unchecked. by rewrite insert_insert_eq, insert_id.
    + rewrite bool_decide_true by done.
      assert (delete p (register_rule_unchecked r p rule) = r) as ->; [|done].
      unfold register_rule_unchecked. by rewrite delete_insert_id.
Qed.
End registration.

(** * Witnesses *)

Definition demo_edges : list (string * list (string * bool)) :=
  [("eligible", [("rejected", true)]); ("rejected", [("base", false)])]%string.
Lemma stratify_correct_witness : ∃ s, stratify demo_edges = Ok s ∧ stratum s "eligible" = 1.
Proof.
  destruct (stratify_correct demo_edges ltac:(by vm_compute)) as [[_ I] _]. destruct I as [s E].
  - exists (λ p, if bool_decide (p = "eligible"%string) then 1 else 0). split; [intros p; case_bool_decide; lia|].
    intros e He. vm_compute in He. repeat (apply elem_of_cons in He as [->|He]; [by vm_compute|]). by apply not_elem_of_nil in He.
  - exists s. split; [exact E|].
    assert (match stratify demo_edges with Ok s => stratum s "eligible" | Err _ => 0 end = 1) as V by (by vm_compute).
    by rewrite E in V.
Defined.

(** [(p ?x) :- (not (p ?x))] is refused and the registry left empty. *)
Definition self_negation : Rule := mkRule [ESymbol "p"; ESymbol "?x"] [Not [RuleInvocation "p" [ESymbol "?x"]]].
Lemma register_rule_correct_witness :
  let '(r', res) := register_rule map_to_list map_to_list ∅ "p" self_negation in
  r' = ∅ ∧ ¬ ∃ σ, registry_stratified σ (register_rule_unchecked ∅ "p" self_negation).
Proof.
  pose proof (register_rule_correct map_to_list map_to_list (λ r, Permutation_refl _) (λ e, Permutation_refl _)
    ∅ "p" self_negation) as H.
  assert (registry_ok ∅) as O by (by intros h rules; rewrite lookup_empty).
  assert (parsed_rules (register_rule_unchecked ∅ "p" self_negation)) as W.
  { intros h rules rule c. unfold register_rule_unchecked. intros [[<- <-]|[_ L]]%lookup_insert_Some; [|by rewrite lookup_empty in L].
    intros ->%list_elem_of_singleton ->%list_elem_of_singleton. done. }
  specialize (H O W ltac:(by vm_compute)).
  assert (register_rule map_to_list map_to_list ∅ "p" self_negation = (∅, Err "unstratifiable")) as E by (by vm_compute).
  rewrite E in H |- *. apply H.
Defined.
