(* ===== verification/Evaluator.v ===== *)
(** Rule evaluation (src/src/query/datalog/evaluator.rs): the fixed-point
    iteration for positive rules and the stratified evaluation around it.

    The evaluator accumulates derived facts in a [FactStorage] of its own; the wall
    clock at a write is a function of the store written to.  Both loops of the
    source are bounded here by what bounds them there: the iteration by
    [max_iterations], the search for dependencies by the invocations that occur in
    the registry. *)
From S2P Require Import Prelude Types ValueCodec Floats HashKeys NetView Index PendingOverlay FactStore QueryTypes Functions Expressions Matcher JoinOrder Optimizer Branches Stratification.
Set Default Proof Using "Type".

Abbreviation FactKey := (EntityId * string * bytes)%type (only parsing).
Definition fact_key (f : Fact) : FactKey := (entity f, attribute f, encode_value (value f)).

Record Limits : Type := mkLimits { max_iterations : Z; max_derived_facts : Z; max_results : Z }.

(** * Dependencies *)

Definition rule_deps (rules : gmap string (list Rule)) (p : string) : list string :=
  flat_map (λ rule, flat_map rule_invocations (rule_body rule)) (get_rules rules p).
Definition push_pred (preds : list string) (p : string) : list string :=
  if bool_decide (p ∈ preds) then preds else preds ++ [p].
(** The worklist: [i] predicates are done. *)
Fixpoint dependency_loop (rules : gmap string (list Rule)) (fuel i : nat) (preds : list string) : list string :=
  match fuel with
  | O => preds
  | S fuel =>
    match preds !! i with
    | None => preds
    | Some p => dependency_loop rules fuel (S i) (foldl push_pred preds (rule_deps rules p))
    end
  end.
Definition dependency_fuel (rules : gmap string (list Rule)) (predicates : list string) : nat :=
  length predicates + length (flat_map (λ e, rule_deps rules e.1) (map_to_list rules)).
Definition transitive_predicates (rules : gmap string (list Rule)) (predicates : list string) : list string :=
  dependency_loop rules (dependency_fuel rules predicates) 0 predicates.

(** ** The search for dependencies reaches exactly the predicates in question *)

Section dependencies.
Context (rules : gmap string (list Rule)).
#[local] Abbreviation depends := (λ p q, q ∈ rule_deps rules p).
#[local] Abbreviation all_deps := (flat_map (λ e, rule_deps rules e.1) (map_to_list rules)).

Lemma rule_deps_all p q : q ∈ rule_deps rules p → q ∈ all_deps.
Proof.
  intros H. apply elem_of_flat_map.
  destruct (rules !! p) as [l|] eqn:El.
  - exists (p, l). by rewrite elem_of_map_to_list.
  - unfold rule_deps, get_rules in H. rewrite El in H. by apply elem_of_nil in H.
Qed.

(** What a step of the worklist keeps: the seeds, then distinct predicates reached. *)
Record worklist (seeds preds : list string) : Prop := {
  wl_ext : ∃ ext, preds = seeds ++ ext ∧ NoDup ext ∧ ext ⊆ all_deps;
  wl_reached : ∀ q, q ∈ preds → ∃ p, p ∈ seeds ∧ rtc depends p q;
}.

Lemma worklist_push seeds preds p q :
  worklist seeds preds → p ∈ preds → q ∈ rule_deps rules p →
  worklist seeds (push_pred preds q) ∧ q ∈ push_pred preds q ∧ preds `prefix_of` push_pred preds q.
Proof.
  intros [(ext & -> & Hnd & Hsub) Hr] Hp Hq. unfold push_pred.
  case_bool_decide as Hin; [split_and!; [split; eauto|done|done]|].
  split_and!; [split|set_solver|by eexists].
  - exists (ext ++ [q]). split_and!.
    + by rewrite app_assoc.
    + apply NoDup_app. split_and!; [done| |apply NoDup_singleton]. set_solver.
    + intros x [?|<-%list_elem_of_singleton]%elem_of_app; [by apply Hsub|by eapply rule_deps_all].
  - intros x [Hx|<-%list_elem_of_singleton]%elem_of_app; [by apply Hr|].
    destruct (Hr _ Hp) as (p0 & H0 & Hpath). exists p0. split; [done|]. by eapply rtc_r.
Qed.

Lemma worklist_pushes seeds p qs preds :
  worklist seeds preds → p ∈ preds → qs ⊆ rule_deps rules p →
  worklist seeds (foldl push_pred preds qs) ∧ qs ⊆ foldl push_pred preds qs ∧
  preds `prefix_of` foldl push_pred preds qs.
Proof.
  revert preds. induction qs as [|q qs IH]; intros preds Hw Hp Hqs; cbn; [split_and!; [done|set_solver|done]|].
  destruct (worklist_push _ _ _ q Hw Hp) as (Hw' & Hq & Hpre); [by apply Hqs; left|].
  destruct (IH (push_pred preds q) Hw') as (Hw'' & Hsub & Hpre').
  - destruct Hpre as [k ->]. set_solver.
  - set_solver.
  - split_and!; [done| |by trans (push_pred preds q)].
    destruct Hpre' as [k Ek]. rewrite Ek in Hsub |- *. set_solver.
Qed.

Definition closed_below (i : nat) (preds : list string) : Prop :=
  ∀ j p, (j < i)%nat → preds !! j = Some p → rule_deps rules p ⊆ preds.

Lemma worklist_length seeds preds : worklist seeds preds → (length preds <= dependency_fuel rules seeds)%nat.
Proof.
  intros [(ext & -> & Hnd & Hsub) _]. unfold dependency_fuel. rewrite length_app.
  apply Nat.add_le_mono_l. by apply submseteq_length, NoDup_submseteq.
Qed.

Lemma dependency_loop_spec fuel seeds i preds :
  worklist seeds preds → closed_below i preds → (i <= length preds)%nat →
  (dependency_fuel rules seeds <= fuel + i)%nat →
  let result := dependency_loop rules fuel i preds in
  worklist seeds result ∧ closed_below (length result) result ∧ preds `prefix_of` result.
Proof.
  revert i preds. induction fuel as [|fuel IH]; intros i preds Hw Hc Hi Hf; cbn.
  - pose proof (worklist_length _ _ Hw).
    replace (length preds) with i by lia. done.
  - destruct (preds !! i) as [p|] eqn:Ep.
    + destruct (worklist_pushes seeds p (rule_deps rules p) preds Hw) as (Hw' & Hsub & Hpre);
        [by eapply list_elem_of_lookup_2|done|].
      destruct (IH (S i) (foldl push_pred preds (rule_deps rules p))) as (? & ? & ?); [done| | |lia|].
      * destruct Hpre as [k Ek]. rewrite Ek in Hsub |- *. intros j q Hj Hq.
        destruct (decide (j = i)) as [->|].
        { rewrite lookup_app_l in Hq by (by eapply lookup_lt_Some). by simplify_eq. }
        apply lookup_lt_Some in Ep. rewrite lookup_app_l in Hq by lia.
        specialize (Hc j q ltac:(lia) Hq). set_solver.
      * apply lookup_lt_Some in Ep. destruct Hpre as [k ->]. rewrite length_app. lia.
      * split_and!; [done..|]. by etrans.
    + apply lookup_ge_None in Ep. replace (length preds) with i by lia. done.
Qed.
End dependencies.

(** The worklist that collects the predicates to evaluate terminates with
    exactly the predicates reachable from the requested ones through rule bodies,
    negations and branches included: [dependency_fuel], the number of requested
    predicates and of invocations in the registry, bounds its length, so every entry
    has been processed when it stops. *)
Theorem transitive_predicates_complete rules predicates p :
  p ∈ transitive_predicates rules predicates ↔
  ∃ p0, p0 ∈ predicates ∧ rtc (λ a b, b ∈ rule_deps rules a) p0 p.
Proof.
  destruct (dependency_loop_spec rules (dependency_fuel rules predicates) predicates 0 predicates)
    as ([Hext Hr] & Hc & Hpre); [|intros ???; lia|lia|lia|].
  { split; [exists []; rewrite app_nil_r; repeat split; [constructor|set_solver]|].
    intros q Hq. exists q. by split; [|reflexivity]. }
  split; [apply Hr|]. intros (p0 & H0 & Hpath). unfold transitive_predicates.
  revert Hpath. apply (rtc_ind_r (λ q, q ∈ _)).
  - destruct Hpre as [k ->]. set_solver.
  - intros q r _ Hqr [j Hj]%list_elem_of_lookup. by apply (Hc j q); [eapply lookup_lt_Some|..].
Qed.

Section evaluator.
Context (parse_str : string → option Z) (new_v5_oid : string → Z) (uuid_to_string : Z → string).
Context (is_match : string → string → bool).
Context (hasher : EavtKey → Z) (clock : FactStorage → Z).

(** * Heads *)

Definition substitute_variable (e : EdnValue) (b : Row) : result EdnValue :=
  match e with
  | ESymbol s =>
    if is_var s then
      match b !! s with
      | Some v => Ok (value_to_edn v)
      | None => Err ("Unbound variable in rule head: " +:+ s)
      end
    else Ok e
  | _ => Ok e
  end.

Definition instantiate_head (head : list EdnValue) (b : Row) : result Fact :=
  match head with
  | ESymbol predicate :: head_1 :: rest =>
    entity_edn ← substitute_variable head_1 b;
    entity ← edn_to_entity_id parse_str new_v5_oid entity_edn;
    value ← match rest with
            | head_2 :: _ => value_edn ← substitute_variable head_2 b; edn_to_value value_edn
            | [] => Ok (VBoolean true)
            end;
    Ok (fact_new entity (":" +:+ predicate) value 0)
  | _ :: _ :: _ => Err "Rule head must start with predicate name (symbol)"
  | _ => Err "Rule head must have at least 2 elements: (predicate ?arg1)"
  end.

(** * Positive rules *)

(** The patterns of a body; negation and disjunction are not for this evaluator. *)
Fixpoint positive_patterns (body : list WhereClause) : result (list Pattern) :=
  match body with
  | [] => Ok []
  | CPattern p :: body => ps ← positive_patterns body; Ok (p :: ps)
  | RuleInvocation predicate args :: body =>
    p ← rule_invocation_to_pattern predicate args; ps ← positive_patterns body; Ok (p :: ps)
  | CExpr _ _ :: body => positive_patterns body
  | _ :: _ => Err "negation and disjunction need the StratifiedEvaluator"
  end.

Definition evaluate_rule (registry : FunctionRegistry) (rule : Rule) (current : FactStorage) : result (list Fact) :=
  patterns ← positive_patterns (rule_body rule);
  let exprs := exprs_of (rule_body rule) in
  match patterns, exprs with
  | [], [] => Ok []
  | _, _ =>
    let rows := match patterns with
                | [] => [∅]
                | _ => match_patterns parse_str new_v5_oid uuid_to_string (matcher_new current) patterns
                end in
    rows ← apply_expr_clauses_in_evaluator is_match rows exprs registry;
    mapR (instantiate_head (rule_head rule)) rows
  end.

Definition evaluate_iteration (rules : gmap string (list Rule)) (registry : FunctionRegistry)
    (predicates : list string) (current : FactStorage) : result (list Fact) :=
  foldR (λ new_facts rule, derived ← evaluate_rule registry rule current; Ok (new_facts ++ derived)) []
    (flat_map (get_rules rules) predicates).

(** [derived.transact(...)?]. *)
Definition transact_fact (s : FactStorage) (f : Fact) : result FactStorage :=
  match transact hasher (clock s) s [(entity f, attribute f, value f)] None with
  | (s, Ok _) => Ok s
  | (_, Err e) => Err e
  end.

Definition add_delta (limits : Limits) (st : gset FactKey * list Fact) (f : Fact) : result (gset FactKey * list Fact) :=
  let '(seen, delta) := st in
  if bool_decide (fact_key f ∈ seen) then Ok st
  else if max_results limits <=? Z.of_nat (size seen) then Err "Max query results exceeded."
  else Ok ({[fact_key f]} ∪ seen, delta ++ [f]).

Fixpoint fixed_point (rules : gmap string (list Rule)) (registry : FunctionRegistry) (predicates : list string)
    (limits : Limits) (fuel : nat) (seen : gset FactKey) (derived : FactStorage) : result FactStorage :=
  match fuel with
  | O => Err "Max iterations exceeded. Possible infinite recursion or cycle in rules."
  | S fuel =>
    new_facts ← evaluate_iteration rules registry predicates derived;
    _ ← ensure (Z.of_nat (length new_facts) <=? max_derived_facts limits) "Max derived facts per iteration exceeded.";
    '(seen, delta) ← foldR (add_delta limits) (seen, []) new_facts;
    match delta with
    | [] => Ok derived
    | _ =>
      derived ← foldR transact_fact derived delta;
      fixed_point rules registry predicates limits fuel seen derived
    end
  end.

Definition evaluate_recursive_rules (rules : gmap string (list Rule)) (registry : FunctionRegistry)
    (limits : Limits) (storage : FactStorage) (predicates : list string) : result FactStorage :=
  base_facts ← get_asserted_facts storage;
  derived ← foldR transact_fact storage_new base_facts;
  fixed_point rules registry predicates limits (Z.to_nat (max_iterations limits))
    (list_to_set (fact_key <$> base_facts)) derived.

(** * Mixed rules *)

Definition is_mixed (rule : Rule) : bool :=
  existsb (λ c, match c with Not _ | NotJoin _ _ | Or _ | OrJoin _ _ => true | _ => false end) (rule_body rule).

Definition mixed_plan_clauses (body : list WhereClause) : list WhereClause :=
  omap (λ c, match c with
             | CPattern _ | CExpr _ _ => Some c
             | RuleInvocation predicate args => CPattern <$> ok_option (rule_invocation_to_pattern predicate args)
             | _ => None
             end) body.
Definition sorted_not_bodies (body : list WhereClause) : list (list WhereClause) :=
  sort_by_key (λ inner, clause_cost (Not inner)) (not_bodies body).
Definition sorted_not_join_bodies (body : list WhereClause) : list (list string * list WhereClause) :=
  sort_by_key (λ e, clause_cost (NotJoin e.1 e.2)) (not_join_bodies body).

Definition rule_not_patterns (b : Row) (not_body : list WhereClause) : list Pattern :=
  omap (λ c, match c with
             | CPattern p => Some (substitute_pattern p b)
             | RuleInvocation predicate args =>
               ok_option (rule_invocation_to_pattern predicate ((λ a, substitute_value a b) <$> args))
             | _ => None
             end) not_body.
Definition rule_not_holds (facts : list Fact) (registry : FunctionRegistry) (b : Row) (not_body : list WhereClause)
    : result bool :=
  let rows := match rule_not_patterns b not_body with
              | [] => [b]
              | patterns =>
                (λ nb, nb ∪ b) <$> match_patterns parse_str new_v5_oid uuid_to_string (from_slice facts) patterns
              end in
  rows ← apply_expr_clauses_in_evaluator is_match rows (exprs_of not_body) registry;
  Ok (match rows with [] => false | _ => true end).

(** One candidate row of a mixed rule: derive its head unless a negation holds;
    a head that cannot be instantiated is skipped, as is a failed write. *)
Definition derive_row (facts : list Fact) (registry : FunctionRegistry) (rule : Rule) (s : FactStorage) (b : Row)
    : result FactStorage :=
  hit ← anyR (rule_not_holds facts registry b) (sorted_not_bodies (rule_body rule));
  if hit : bool then Ok s else
  hit ← anyR (λ '(vars, body), evaluate_not_join parse_str new_v5_oid uuid_to_string is_match facts registry vars body b)
          (sorted_not_join_bodies (rule_body rule));
  if hit : bool then Ok s else
  match instantiate_head (rule_head rule) b with
  | Ok f => Ok (transact hasher (clock s) s [(entity f, attribute f, value f)] None).1
  | Err _ => Ok s
  end.

Definition evaluate_mixed_rule (registry : FunctionRegistry) (limits : Limits) (now : Z) (s : FactStorage) (rule : Rule)
    : result FactStorage :=
  facts ← get_asserted_facts s;
  candidates ← run_planned parse_str new_v5_oid uuid_to_string is_match (from_slice facts) registry
                 (plan (mixed_plan_clauses (rule_body rule)));
  candidates ← apply_or_clauses parse_str new_v5_oid uuid_to_string is_match facts now None with_builtins
                 (max_results limits) (rule_body rule) candidates;
  foldR (derive_row facts registry rule) s candidates.

(** * Strata *)

Definition load_new_fact (existing : gset FactKey) (s : FactStorage) (f : Fact) : FactStorage :=
  if bool_decide (fact_key f ∈ existing) then s else (load_fact hasher s f).1.

Definition evaluate_positive (positive : list (string * Rule)) (registry : FunctionRegistry) (limits : Limits)
    (stratum_preds : list string) (accumulated : FactStorage) : result FactStorage :=
  match positive with
  | [] => Ok accumulated
  | _ =>
    let sub := foldl (λ r '(p, rule), register_rule_unchecked r p rule) registry_new positive in
    derived ← evaluate_recursive_rules sub registry limits accumulated stratum_preds;
    existing ← get_asserted_facts accumulated;
    facts ← get_asserted_facts derived;
    Ok (restore_tx_counter (foldl (load_new_fact (list_to_set (fact_key <$> existing))) accumulated facts))
  end.

Definition evaluate_stratum (rules : gmap string (list Rule)) (registry : FunctionRegistry) (limits : Limits) (now : Z)
    (strata : gmap string Z) (all_preds : list string) (accumulated : FactStorage) (level : Z) : result FactStorage :=
  let stratum_preds := List.filter (λ p, stratum strata p =? level) all_preds in
  match stratum_preds with
  | [] => Ok accumulated
  | _ =>
    let all_rules := flat_map (λ p, (λ rule, (p, rule)) <$> get_rules rules p) stratum_preds in
    let positive := List.filter (λ e, negb (is_mixed e.2)) all_rules in
    let mixed := List.filter (λ e, is_mixed e.2) all_rules in
    accumulated ← evaluate_positive positive registry limits stratum_preds accumulated;
    foldR (λ s e, evaluate_mixed_rule registry limits now s e.2) accumulated mixed
  end.

Section stratified.
Context (rule_order : gmap string (list Rule) → list (string * list Rule))
        (edge_order : gmap string (list (string * bool)) → list (string * list (string * bool))).

Definition evaluate (rules : gmap string (list Rule)) (registry : FunctionRegistry) (limits : Limits) (now : Z)
    (storage : FactStorage) (predicates : list string) : result FactStorage :=
  strata ← stratify (edge_order (from_rules (rule_order rules)));
  let all_preds := transitive_predicates rules predicates in
  let max_stratum := foldl Z.max 0 (stratum strata <$> all_preds) in
  foldR (evaluate_stratum rules registry limits now strata all_preds) storage
    (Z.of_nat <$> seq 0 (S (Z.to_nat max_stratum))).
End stratified.
End evaluator.
