(* ===== verification/LeastModel.v ===== *)
(** The fixed point of positive rules is their least model (on
    src/src/query/datalog/evaluator.rs, [RecursiveEvaluator]).

    A set of facts is read as a set of tuples (entity, attribute, value).  A rule
    derives a tuple from a set when some choice of a tuple for each pattern of its
    body, tried in the order of the body, satisfies its expressions and instantiates
    its head ([derives]).  A model of the rules over the base facts contains them and
    is closed under derivation. *)
From S2P Require Import Prelude Types ValueCodec Floats HashKeys NetView Index PendingOverlay FactStore QueryTypes Functions Expressions Matcher JoinOrder Optimizer Branches Stratification Evaluator.
Set Default Proof Using "Type".

Abbreviation Tuple := (EntityId * string * Value)%type (only parsing).
Definition tuple (f : Fact) : Tuple := (entity f, attribute f, value f).
Definition fact_of (t : Tuple) : Fact := fact_new t.1.1 t.1.2 t.2 0.
Definition tuples (facts : list Fact) (t : Tuple) : Prop := t ∈ tuple <$> facts.

(** * The new facts of an iteration *)

Definition keys (facts : list Fact) : gset (EntityId * string * bytes) := list_to_set (fact_key <$> facts).
Lemma keys_app l k : keys (l ++ k) = keys l ∪ keys k.
Proof.
  unfold keys. by rewrite fmap_app, list_to_set_app_L. Qed.
Lemma keys_cons f l : keys (f :: l) = {[fact_key f]} ∪ keys l.
Proof. done. Qed.
Lemma elem_of_keys x l : x ∈ keys l ↔ x ∈ fact_key <$> l.
Proof. apply elem_of_list_to_set. Qed.

Lemma fact_key_tuple f g : tuple f = tuple g → fact_key f = fact_key g.
Proof. unfold tuple, fact_key. by intros [= -> -> ->]. Qed.
Lemma fact_keys_tuples (l k : list Fact) : tuple <$> l = tuple <$> k → fact_key <$> l = fact_key <$> k.
Proof.
  revert k; induction l as [|f l IH]; intros [|g k] E; try done. injection E as E1 E2 E3 E4. cbn. f_equal; [|by apply IH].
  apply fact_key_tuple. unfold tuple. congruence.
Qed.

Lemma add_delta_spec limits new seen delta :
  match foldR (add_delta limits) (seen, delta) new with
  | Ok (seen', delta') => ∃ d, delta' = delta ++ d ∧ d ⊆ new ∧ NoDup (fact_key <$> d) ∧
      (∀ f, f ∈ d → fact_key f ∉ seen) ∧ seen' = seen ∪ keys d ∧ keys new ⊆ seen' ∧
      Z.of_nat (size seen') ≤ Z.max (max_results limits) (Z.of_nat (size seen))
  | Err e => e = "Max query results exceeded."%string ∧ max_results limits < Z.of_nat (size (seen ∪ keys new))
  end.
Proof.
  revert seen delta; induction new as [|f new IH]; intros seen delta; cbn [foldR].
  - exists []. rewrite app_nil_r. cbn. split_and!; [done|set_solver|constructor|set_solver|set_solver|set_solver|lia].
  - assert (add_delta limits (seen, delta) f =
            if bool_decide (fact_key f ∈ seen) then Ok (seen, delta)
            else if max_results limits <=? Z.of_nat (size seen) then Err "Max query results exceeded."%string
            else Ok ({[fact_key f]} ∪ seen, delta ++ [f])) as -> by done.
    case_bool_decide as K; cbn [mbind result_bind].
    + specialize (IH seen delta). destruct (foldR _ _ new) as [[seen' delta']|e]; cbv beta iota in IH |- *.
      * destruct IH as (d & -> & Hd & N & F & -> & Ks & Sz). exists d. split_and!; try done; [set_solver|].
        rewrite keys_cons. set_solver.
      * destruct IH as [-> L]. split; [done|]. eapply Z.lt_le_trans; [exact L|]. apply inj_le, subseteq_size. rewrite keys_cons. set_solver.
    + destruct (Z.leb_spec (max_results limits) (Z.of_nat (size seen))) as [Le|Gt]; cbn [mbind result_bind].
      * split; [done|]. rewrite keys_cons.
        assert (size (seen ∪ {[fact_key f]}) ≤ size (seen ∪ ({[fact_key f]} ∪ keys new)))%nat as L2.
        { apply subseteq_size. set_solver. }
        rewrite size_union, size_singleton in L2 by set_solver. lia.
      * specialize (IH ({[fact_key f]} ∪ seen) (delta ++ [f])).
        assert (size ({[fact_key f]} ∪ seen) = S (size seen)) as S1 by (rewrite size_union, size_singleton; set_solver).
        rewrite keys_cons.
        destruct (foldR _ _ new) as [[seen' delta']|e]; cbv beta iota in IH |- *.
        -- destruct IH as (d & -> & Hd & N & F & -> & Ks & Sz). exists (f :: d). rewrite keys_cons, <-app_assoc.
           split_and!; [done|set_solver| | |set_solver|set_solver|].
           ++ cbn. constructor; [|done]. rewrite <-elem_of_keys. intros I%elem_of_keys.
              apply list_elem_of_fmap in I as (g & Eg & Ig). apply (F g Ig). rewrite <-Eg. set_solver.
           ++ intros g [->|Ig]%elem_of_cons; [done|]. apply F in Ig. set_solver.
           ++ lia.
        -- destruct IH as [-> L]. split; [done|]. replace (seen ∪ ({[fact_key f]} ∪ keys new))
             with ({[fact_key f]} ∪ seen ∪ keys new) by set_solver. done.
Qed.
Section model.
Context (parse_str : string → option Z) (new_v5_oid : string → Z) (uuid_to_string : Z → string).
Context (is_match : string → string → bool) (registry : FunctionRegistry).
#[local] Abbreviation join := (join_with_pattern parse_str new_v5_oid uuid_to_string).
#[local] Abbreviation kid := (keyword_id parse_str new_v5_oid).

(** A row extended by what a tuple binds. *)
Definition match_tuple (p : Pattern) (b : Row) (t : Tuple) : option (gmap string Value) :=
  d ← fact_binds parse_str new_v5_oid p (fact_of t); merge_rows parse_str new_v5_oid b d.

(** A tuple chosen for each pattern. *)
Inductive choice (I : Tuple → Prop) : list Pattern → Row → Row → Prop :=
| choice_nil b : choice I [] b b
| choice_cons p ps b t b1 b2 :
    I t → match_tuple p b t = Some b1 → choice I ps b1 b2 → choice I (p :: ps) b b2.

Definition derives (I : Tuple → Prop) (rule : Rule) (t : Tuple) : Prop :=
  ∃ ps b b' f, positive_patterns (rule_body rule) = Ok ps ∧ choice I ps ∅ b ∧
    exprs_on_row is_match registry (exprs_of (rule_body rule)) b = Ok (Some b') ∧
    instantiate_head parse_str new_v5_oid (rule_head rule) b' = Ok f ∧ tuple f = t.

Record is_model (rules : list Rule) (base : list Fact) (I : Tuple → Prop) : Prop := {
  model_base t : tuples base t → I t;
  model_closed rule t : rule ∈ rules → derives I rule t → I t;
}.

Lemma choice_mono (I J : Tuple → Prop) ps b b' : (∀ t, I t → J t) → choice I ps b b' → choice J ps b b'.
Proof. intros H. induction 1; econstructor; eauto. Qed.
Lemma derives_mono (I J : Tuple → Prop) rule t : (∀ t, I t → J t) → derives I rule t → derives J rule t.
Proof.
  intros H (ps & b & b' & f & P & C & E & X). exists ps, b, b', f. split; [done|]. split; [|done].
  by eapply choice_mono.
Qed.

(** * The values rules range over *)

(** Storable values, none a float, in which keywords have identities of their own. *)
Record universe (U : Value → Prop) : Prop := {
  un_ok v : U v → value_ok v;
  un_float v : U v → is_float_value v = false;
  un_keyword k k' : U (VKeyword k) → U (VKeyword k') → kid k = kid k' → k = k';
}.
Definition tuple_in (U : Value → Prop) (t : Tuple) : Prop := U (VRef t.1.1) ∧ U t.2.
Definition facts_in (U : Value → Prop) (facts : list Fact) : Prop := ∀ t, tuples facts t → tuple_in U t.
Lemma facts_in_value U facts f : facts_in U facts → f ∈ facts → U (value f).
Proof. intros H I. by apply (H (tuple f)), list_elem_of_fmap_2. Qed.

(** What a rule must be: a body that is not empty, of patterns with constant
    attributes and linear variables, and heads that stay among the values. *)
Record rule_ok (U : Value → Prop) (rule : Rule) : Prop := {
  ro_body : rule_body rule ≠ [];
  ro_patterns : ∃ ps, positive_patterns (rule_body rule) = Ok ps ∧ ∀ p, p ∈ ps → pattern_ok p;
  ro_head facts t : facts_in U facts → derives (tuples facts) rule t → tuple_in U t;
}.

Lemma facts_in_ok U facts : universe U → facts_in U facts → facts_ok parse_str new_v5_oid facts.
Proof.
  intros [_ F K] H. split.
  - intros f I. by apply F, (facts_in_value U facts).
  - intros f g k k' If Ig Vf Vg. apply K; [rewrite <-Vf|rewrite <-Vg]; by apply (facts_in_value U facts).
Qed.

(** A syntactic condition for the last field: expressions only filter, and constants
    of the head are among the values. *)
Definition head_arg_ok (U : Value → Prop) (h : EdnValue) : Prop :=
  (∀ id, edn_to_entity_id parse_str new_v5_oid h = Ok id → U (VRef id)) ∧ (∀ v, edn_to_value h = Ok v → U v).
Definition filters (body : list WhereClause) : Prop := ∀ e out, CExpr e out ∈ body → out = None.

Lemma choice_values U facts ps b b' : (∀ p, p ∈ ps → pattern_ok p) → facts_in U facts →
  choice (tuples facts) ps b b' → (∀ x w, b !! x = Some w → U w) → ∀ x w, b' !! x = Some w → U w.
Proof. clear uuid_to_string is_match registry.
  intros P F C. induction C as [|p ps b t b1 b2 It M C IH]; intros B; [done|].
  apply IH; [intros; apply P; by right|]. intros x w. destruct (P p ltac:(left)) as [[a R] _].
  unfold match_tuple, fact_binds in M. rewrite R in M.
  destruct (component_binds _ _ (pat_entity p) _) as [de|] eqn:Ee; [|done]. cbn in M.
  case_bool_decide; [|done]. cbn in M.
  destruct (component_binds _ _ (pat_value p) _) as [dv|] eqn:Ev; [|done]. cbn in M.
  rewrite (merge_rows_lookup _ _ _ _ _ _ M). unfold merged_lookup. rewrite (left_id_L ∅ (∪)).
  assert (∀ v, (dv ∪ de) !! x = Some v → U v) as D.
  { intros v [L|[_ L]]%lookup_union_Some_raw.
    - apply (component_binds_value _ _ _ _ _ _ _ Ev) in L as ->. by apply (F t).
    - apply (component_binds_value _ _ _ _ _ _ _ Ee) in L as ->. by apply (F t). }
  destruct ((dv ∪ de) !! x) as [v|] eqn:L; [|apply B].
  destruct (is_hidden x); [intros [= <-]; by apply D|].
  destruct (b !! x) as [u|] eqn:Bx; [intros [= <-]; by apply (B x)|intros [= <-]; by apply D].
Qed.

Lemma exprs_filter cs b b' : filters cs → exprs_on_row is_match registry cs b = Ok (Some b') → b' = b.
Proof. clear uuid_to_string parse_str new_v5_oid.
  intros F. induction cs as [|c cs IH]; cbn; [by intros [= <-]|].
  assert (filters cs) as F' by (intros e out I; apply (F e); by right).
  destruct c as [| | | |e out| |]; auto.
  destruct (expr_row is_match registry e out b) as [[b1|]|] eqn:E; cbn; try done.
  assert (out = None) as -> by (apply (F e); left). unfold expr_row in E.
  destruct (eval_expr _ _ _ _) as [[v|]|]; cbn in E; try done. destruct (is_truthy v); [|done].
  injection E as <-. auto.
Qed.

Lemma head_arg_instance U h b e : (∀ k, U (VKeyword k) → U (VRef (kid k))) → head_arg_ok U h →
  (∀ x w, b !! x = Some w → U w) → substitute_variable h b = Ok e → head_arg_ok U e.
Proof. clear uuid_to_string is_match registry.
  intros K H B E. destruct h as [k|s|s|i|g|z|t|l|l|l| |s]; cbn in E; try (by injection E as <-).
  destruct (is_var s); [|by injection E as <-]. destruct (b !! s) as [w|] eqn:Bs; [|done]. injection E as <-.
  apply B in Bs. destruct w as [x|x|x|x|x|x|]; split; cbn; try done.
  all: intros v [= <-]; auto.
Qed.

Lemma plain_rule_ok U rule ps : universe U → (∀ k, U (VKeyword k) → U (VRef (kid k))) → U (VBoolean true) →
  rule_body rule ≠ [] → positive_patterns (rule_body rule) = Ok ps → (∀ p, p ∈ ps → pattern_ok p) →
  filters (rule_body rule) → (∀ h, h ∈ tail (rule_head rule) → head_arg_ok U h) → rule_ok U rule.
Proof.
  intros HU K T Bd Eps Pok Fl Hd. split; [done|by exists ps|].
  intros facts t F (ps' & b & b' & f & Eps' & C & X & Hf & <-). rewrite Eps in Eps'. injection Eps' as <-.
  assert (filters (exprs_of (rule_body rule))) as Fl'.
  { intros e out [_ I]%elem_of_List_filter. by apply (Fl e). }
  apply exprs_filter in X as ->; [|done].
  assert (∀ x w, b !! x = Some w → U w) as B.
  { apply (choice_values U facts ps ∅ b); [done..|]. intros x w. by rewrite lookup_empty. }
  unfold instantiate_head in Hf. destruct (rule_head rule) as [|h0 [|h1 rest]]; [done|by destruct h0|].
  destruct h0; try done. inv_ok.
  match goal with H : substitute_variable h1 b = Ok ?e |- _ =>
    apply (head_arg_instance U h1 b e K) in H as [He _]; [|apply Hd; left|done] end.
  split; cbn; [by apply He|].
  destruct rest as [|h2 rest]; inv_ok; [done|].
  match goal with H : substitute_variable h2 b = Ok ?e |- _ =>
    apply (head_arg_instance U h2 b e K) in H as [_ Hv]; [|apply Hd; by right; left|done] end.
  by apply Hv.
Qed.

(** * Matching chooses tuples *)

Section matching.
Context (m : PatternMatcher) (no_metadata : retain_fact_metadata m = false)
        (Hfacts : facts_ok parse_str new_v5_oid (get_facts m)).

Lemma scan_match_tuple p b f : pattern_ok p → row_ok (get_facts m) b → f ∈ get_facts m →
  scan_fact parse_str new_v5_oid uuid_to_string m p b f = match_tuple p b (tuple f).
Proof using no_metadata Hfacts. clear is_match registry.
  intros P B F. pose proof P as [[a R] L].
  rewrite (scan_is_merge parse_str new_v5_oid uuid_to_string m p (EKeyword a) b f R
             (row_ok_join_ok parse_str new_v5_oid m Hfacts p b P B) F).
  rewrite (match_fact_linear parse_str new_v5_oid uuid_to_string m f p (EKeyword a) R L).
  unfold hidden_part. rewrite no_metadata. unfold match_tuple.
  assert (fact_binds parse_str new_v5_oid p (fact_of (tuple f)) = fact_binds parse_str new_v5_oid p f) as -> by done.
  destruct (fact_binds _ _ p f); cbn; [|done]. by rewrite (left_id_L ∅ (∪)).
Qed.

Lemma joins_choice ps rows b' : (∀ p, p ∈ ps → pattern_ok p) → (∀ b, b ∈ rows → row_ok (get_facts m) b) →
  b' ∈ foldl (join m) rows ps ↔ ∃ b, b ∈ rows ∧ choice (tuples (get_facts m)) ps b b'.
Proof using no_metadata Hfacts. clear is_match registry.
  revert rows. induction ps as [|p ps IH]; intros rows P B; cbn [foldl].
  - split; [intros H; exists b'; split; [done|constructor]|].
    intros (b & Ib & C). by inversion C; subst.
  - rewrite IH; [|intros; apply P; by right|].
    2: { intros b I. apply (join_spells parse_str new_v5_oid uuid_to_string m no_metadata Hfacts) in I;
           [by destruct I|apply P; left|done]. }
    rewrite (join_rows parse_str new_v5_oid uuid_to_string m no_metadata Hfacts) by (done || apply P; left).
    split.
    + intros (b1 & (b & Ib & (f & If & S)%list_elem_of_omap)%elem_of_flat_map & C). exists b. split; [done|].
      rewrite scan_match_tuple in S by (done || (apply P; left) || by apply B).
      econstructor; [|exact S|exact C]. by apply list_elem_of_fmap_2.
    + intros (b & Ib & C). inversion C as [|? ? ? t b1 ? It S C']; subst.
      apply list_elem_of_fmap in It as (f & -> & If). exists b1. split; [|done].
      apply elem_of_flat_map. exists b. split; [done|]. apply list_elem_of_omap. exists f. split; [done|].
      rewrite scan_match_tuple by (done || (apply P; left) || by apply B). done.
Qed.

Lemma join_unit p : join m [∅] p = match_pattern parse_str new_v5_oid uuid_to_string m p.
Proof using. clear is_match registry.
  by rewrite <-(match_with_hint_is_join parse_str new_v5_oid uuid_to_string m [∅] p).
Qed.

Lemma match_patterns_choice ps b : (∀ p, p ∈ ps → pattern_ok p) →
  b ∈ match_patterns parse_str new_v5_oid uuid_to_string m ps ↔ choice (tuples (get_facts m)) ps ∅ b.
Proof using no_metadata Hfacts. clear is_match registry.
  intros P. assert (match_patterns parse_str new_v5_oid uuid_to_string m ps = foldl (join m) [∅] ps) as ->.
  { destruct ps as [|p ps]; [done|]. cbn [match_patterns foldl]. by rewrite join_unit. }
  rewrite joins_choice; [|done|by intros ? ->%list_elem_of_singleton]. set_solver.
Qed.
End matching.

(** * One iteration derives what the rules derive *)

Lemma omapR_elem {A B} (f : A → result (option B)) l k y : omapR f l = Ok k →
  y ∈ k ↔ ∃ x, x ∈ l ∧ f x = Ok (Some y).
Proof.
  revert k; induction l as [|x l IH]; intros k; cbn; intros H; inv_ok; [rewrite elem_of_nil; naive_solver (by eapply not_elem_of_nil)|].
  rewrite elem_of_app, (IH _ ltac:(eassumption)). setoid_rewrite elem_of_cons.
  split.
  - intros [Y|(x' & I & E)]; [|eauto]. exists x. split; [by left|].
    destruct x0 as [z|]; cbn in Y; [by apply list_elem_of_singleton in Y as ->|by apply elem_of_nil in Y].
  - intros (x' & [->|I] & E); [left|eauto]. rewrite E in H0. injection H0 as <-. by apply list_elem_of_singleton.
Qed.
Lemma mapR_elem {A B} (f : A → result B) l k y : mapR f l = Ok k → y ∈ k ↔ ∃ x, x ∈ l ∧ f x = Ok y.
Proof.
  revert k; induction l as [|x l IH]; intros k; cbn; intros H; inv_ok; [rewrite elem_of_nil; naive_solver (by eapply not_elem_of_nil)|].
  rewrite elem_of_cons, (IH _ ltac:(eassumption)). setoid_rewrite elem_of_cons. split.
  - intros [->|(x' & I & E)]; eauto.
  - intros (x' & [->|I] & E); [left; congruence|eauto].
Qed.

Section iteration.
Context (U : Value → Prop) (HU : universe U).
Context (s : FactStorage) (facts : list Fact) (Hs : get_asserted_facts s = Ok facts) (Hin : facts_in U facts).
#[local] Abbreviation eval_rule := (evaluate_rule parse_str new_v5_oid uuid_to_string is_match registry).

Lemma evaluate_rule_derives rule fs : rule_ok U rule → eval_rule rule s = Ok fs →
  ∀ t, t ∈ tuple <$> fs ↔ derives (tuples facts) rule t.
Proof using Hs Hin HU.
  intros [Bd (ps & Eps & Pok) _] E t. unfold evaluate_rule in E. rewrite Eps in E. cbn [mbind result_bind] in E.
  assert (get_facts (matcher_new s) = facts) as Gf by (unfold get_facts; cbn; by rewrite Hs).
  assert (∀ b, b ∈ match ps with [] => [∅] | _ => match_patterns parse_str new_v5_oid uuid_to_string (matcher_new s) ps end
            ↔ choice (tuples facts) ps ∅ b) as Rows.
  { intros b. rewrite <-Gf, <-(match_patterns_choice (matcher_new s)); [by destruct ps|done| |done].
    rewrite Gf. by apply (facts_in_ok U). }
  revert Rows E. generalize (match ps with [] => [∅] | _ => match_patterns parse_str new_v5_oid uuid_to_string (matcher_new s) ps end).
  intros rows Rows E.
  assert ((rows' ← apply_expr_clauses_in_evaluator is_match rows (exprs_of (rule_body rule)) registry;
           mapR (instantiate_head parse_str new_v5_oid (rule_head rule)) rows') = Ok fs) as E'.
  { destruct ps; [|done]. destruct (exprs_of (rule_body rule)) eqn:X; [|done]. exfalso. apply Bd.
    destruct (rule_body rule) as [|[]]; cbn in *; try done; inv_ok; by try congruence. }
  clear E. apply bind_Ok in E' as (rows' & Er & Eh). unfold apply_expr_clauses_in_evaluator in Er.
  rewrite list_elem_of_fmap. setoid_rewrite (mapR_elem _ _ _ _ Eh). setoid_rewrite (omapR_elem _ _ _ _ Er).
  setoid_rewrite Rows. unfold derives. rewrite Eps. split.
  - intros (f & -> & b' & (b & C & X) & H). by exists ps, b, b', f.
  - intros (ps' & b & b' & f & [= <-] & C & X & H & <-). exists f. split; [done|]. exists b'. eauto.
Qed.

Lemma evaluate_iteration_derives rules predicates new :
  (∀ rule, rule ∈ flat_map (get_rules rules) predicates → rule_ok U rule) →
  evaluate_iteration parse_str new_v5_oid uuid_to_string is_match rules registry predicates s = Ok new →
  ∀ t, t ∈ tuple <$> new ↔ ∃ rule, rule ∈ flat_map (get_rules rules) predicates ∧ derives (tuples facts) rule t.
Proof using Hs Hin HU.
  unfold evaluate_iteration. generalize (flat_map (get_rules rules) predicates). intros l O.
  assert (∀ acc, foldR (λ new_facts rule, derived ← eval_rule rule s; Ok (new_facts ++ derived)) acc l = Ok new →
    ∀ t, t ∈ tuple <$> new ↔ t ∈ tuple <$> acc ∨ ∃ rule, rule ∈ l ∧ derives (tuples facts) rule t) as X.
  2: { intros E t. rewrite (X [] E). set_solver. }
  induction l as [|rule l IH]; intros acc E t; cbn in E; inv_ok; [set_solver|].
  match goal with H : eval_rule rule s = Ok ?d |- _ =>
    pose proof (evaluate_rule_derives rule d (O rule ltac:(left)) H t) as D end.
  rewrite (IH ltac:(intros; apply O; by right) _ E). rewrite fmap_app, elem_of_app, D.
  setoid_rewrite elem_of_cons. naive_solver.
Qed.
End iteration.

(** * Writing derived facts *)

Section writing.
Context (hasher : EavtKey → Z) (clock : FactStorage → Z).

(** A store that holds a log of assertions, written one at a time. *)
Record holds (s : FactStorage) (log : list Fact) : Prop := {
  ho_store : store_ok hasher s log;
  ho_asserted f : f ∈ log → asserted f = true;
  ho_counter : tx_counter s = Z.of_nat (length log);
}.

Lemma holds_facts s log : holds s log → get_asserted_facts s = Ok log.
Proof using. clear parse_str new_v5_oid uuid_to_string is_match registry.
  intros [S A _]. unfold get_asserted_facts. rewrite (get_all_facts_ok hasher s log S). cbn. f_equal.
  apply List_filter_id. exact A.
Qed.

Lemma transact_fact_holds s log f : holds s log → Z.of_nat (length log) < 2 ^ 32 →
  ∃ s' g, transact_fact hasher clock s f = Ok s' ∧ tuple g = tuple f ∧ holds s' (log ++ [g]).
Proof using. clear parse_str new_v5_oid uuid_to_string is_match registry.
  intros [S A C] L. unfold transact_fact, transact.
  set (mk := λ count, assertion_of (clock s) count default_opts <$> [tuple f]).
  destruct (write_spec hasher s log mk S) as (s' & E & S' & C').
  - rewrite C. ilia.
  - unfold fits. destruct S as [_ (cf & _ & ->) _ _ _]. rewrite length_app in L. unfold overlay_facts in L.
    rewrite length_fmap in L. cbn. lia.
  - intros g ->%list_elem_of_singleton. apply assertion_of_spec.
  - destruct (allocate_tx_count s) as [s1 count] eqn:Ea. cbn in E.
    exists s', (assertion_of (clock s) (tx_counter s + 1) default_opts (tuple f)).
    split; [|split].
    + cbn. unfold mk, tuple in E. cbn in E. by rewrite E.
    + done.
    + split; [done| |rewrite C', length_app, C; cbn; lia].
      intros g [I|E1]%elem_of_app; [by apply A|]. apply list_elem_of_singleton in E1 as ->. apply assertion_of_spec.
Qed.

Lemma transact_facts_holds l s log : holds s log → Z.of_nat (length log + length l) ≤ 2 ^ 32 →
  ∃ s' new, foldR (transact_fact hasher clock) s l = Ok s' ∧ tuple <$> new = tuple <$> l ∧ holds s' (log ++ new).
Proof using. clear parse_str new_v5_oid uuid_to_string is_match registry.
  revert s log; induction l as [|f l IH]; intros s log H L; cbn [foldR].
  - exists s, []. rewrite app_nil_r. done.
  - cbn in L. destruct (transact_fact_holds s log f H) as (s1 & g & -> & Tg & H1); [lia|]. cbn [mbind result_bind].
    destruct (IH s1 (log ++ [g]) H1) as (s' & new & E & Tn & H'); [rewrite length_app; cbn; lia|].
    exists s', (g :: new). split; [done|]. split; [by rewrite !fmap_cons, Tg, Tn|]. by rewrite <-app_assoc in H'.
Qed.

(** * The iteration *)

Section fixpoint.
Context (U : Value → Prop) (HU : universe U).
Context (rules : gmap string (list Rule)) (predicates : list string) (limits : Limits) (base : list Fact).
#[local] Abbreviation program := (flat_map (get_rules rules) predicates).
Context (Hrules : ∀ rule, rule ∈ program → rule_ok U rule).
Context (Hlimit : 0 ≤ max_results limits) (Hroom : Z.of_nat (length base) + max_results limits ≤ 2 ^ 32).
#[local] Abbreviation eval_rule := (evaluate_rule parse_str new_v5_oid uuid_to_string is_match registry).
#[local] Abbreviation iteration :=
  (evaluate_iteration parse_str new_v5_oid uuid_to_string is_match rules registry predicates).
#[local] Abbreviation fixpoint :=
  (fixed_point parse_str new_v5_oid uuid_to_string is_match hasher clock rules registry predicates limits).

(** Facts every model has. *)
Definition in_every_model (facts : list Fact) : Prop :=
  ∀ I, is_model program base I → ∀ t, tuples facts t → I t.

Record evaluating (seen : gset (EntityId * string * bytes)) (s : FactStorage) (log : list Fact) : Prop := {
  ev_holds : holds s log;
  ev_in : facts_in U log;
  ev_seen : seen = keys log;
  ev_base t : tuples base t → tuples log t;
  ev_sound : in_every_model log;
  ev_count : (length log + size (keys base) = length base + size seen)%nat;
  ev_size : Z.of_nat (size seen) ≤ Z.max (max_results limits) (Z.of_nat (size (keys base)));
}.

Lemma key_tuple_inj f g : U (value f) → U (value g) → fact_key f = fact_key g → tuple f = tuple g.
Proof using HU.
  intros F G. unfold fact_key, tuple. intros [= -> -> E].
  apply encode_value_inj_exact in E as ->; [done|by apply (un_ok U HU)..|].
  apply (un_float U HU) in F. by destruct (value f).
Qed.

Lemma tuples_app l k t : tuples (l ++ k) t ↔ tuples l t ∨ tuples k t.
Proof using. unfold tuples. by rewrite fmap_app, elem_of_app. Qed.

(** What one iteration finds is new, derived and all there is. *)
Lemma iteration_new s log new : holds s log → facts_in U log → iteration s = Ok new →
  facts_in U new ∧ ∀ t, tuples new t ↔ ∃ rule, rule ∈ program ∧ derives (tuples log) rule t.
Proof using HU Hrules.
  intros H Hin E.
  pose proof (evaluate_iteration_derives U HU s log (holds_facts s log H) Hin rules predicates new Hrules E) as D.
  split; [|exact D]. intros t (rule & Ir & Dr)%D. by apply (ro_head U rule (Hrules rule Ir) log).
Qed.

Lemma iteration_step seen s log new d : evaluating seen s log → iteration s = Ok new →
  d ⊆ new → NoDup (fact_key <$> d) → (∀ f, f ∈ d → fact_key f ∉ seen) →
  Z.of_nat (size (seen ∪ keys d)) ≤ Z.max (max_results limits) (Z.of_nat (size seen)) →
  ∃ s' added, foldR (transact_fact hasher clock) s d = Ok s' ∧ length added = length d ∧
    evaluating (seen ∪ keys d) s' (log ++ added).
Proof using HU Hrules Hlimit Hroom.
  intros [H Hin Hs Hb So Ct Sz] E Dn Nd Fr Sz'.
  destruct (iteration_new s log new H Hin E) as [Nin D].
  assert (size (seen ∪ keys d) = size seen + length d)%nat as Sd.
  { rewrite size_union.
    - unfold keys. rewrite size_list_to_set by done. by rewrite length_fmap.
    - intros x Ix Jx. apply elem_of_keys, list_elem_of_fmap in Jx as (f & -> & If). by apply (Fr f). }
  destruct (transact_facts_holds d s log H) as (s' & added & Es & Ta & H'); [lia|].
  exists s', added. split; [done|]. assert (length added = length d) as La.
  { apply (f_equal length) in Ta. by rewrite !length_fmap in Ta. }
  assert (∀ t, tuples added t → tuples new t) as Td.
  { intros t It. unfold tuples in It |- *. rewrite Ta in It. apply list_elem_of_fmap in It as (g & -> & Ig).
    apply list_elem_of_fmap_2. by apply Dn. }
  split; [done|]. split.
  - done.
  - intros t [It|It]%tuples_app; [by apply Hin|by apply Nin, Td].
  - rewrite keys_app, Hs. f_equal. unfold keys. by rewrite (fact_keys_tuples _ _ Ta).
  - intros t It. apply tuples_app. left. by apply Hb.
  - intros I M t [It|It]%tuples_app; [by apply So|].
    apply Td, D in It as (rule & Ir & Dr). apply (model_closed _ _ _ M rule t Ir).
    eapply derives_mono; [|exact Dr]. by apply So.
  - rewrite length_app, La, Sd. lia.
  - lia.
Qed.

(** No new key: the facts are closed. *)
Lemma iteration_closed seen s log new : evaluating seen s log → iteration s = Ok new → keys new ⊆ seen →
  is_model program base (tuples log).
Proof using HU Hrules.
  intros [H Hin Hs Hb So Ct Sz] E Sub. destruct (iteration_new s log new H Hin E) as [Nin D].
  split; [exact Hb|]. intros rule t Ir Dr.
  assert (tuples new t) as (f & -> & If)%list_elem_of_fmap by (apply D; eauto).
  assert (fact_key f ∈ keys log) as K.
  { rewrite <-Hs. apply Sub, elem_of_keys. by apply list_elem_of_fmap_2. }
  apply elem_of_keys, list_elem_of_fmap in K as (g & Eg & Ig).
  unfold tuples. rewrite (key_tuple_inj f g); 
    [by apply list_elem_of_fmap_2|by apply (facts_in_value U new)|by apply (facts_in_value U log)|done].
Qed.

(** Why an evaluation that had reached [facts] stops with an error: a rule fails on
    them, a limit on derivations or on distinct facts is exceeded, or as many facts
    have been derived as there are iterations. *)
Definition stuck (e : string) (facts : list Fact) : Prop :=
  ∃ s, get_asserted_facts s = Ok facts ∧
    ((∃ rule, rule ∈ program ∧ eval_rule rule s = Err e) ∨
     (∃ new, iteration s = Ok new ∧
        (max_derived_facts limits < Z.of_nat (length new) ∨
         max_results limits < Z.of_nat (size (keys (facts ++ new))))) ∨
     max_iterations limits ≤ Z.of_nat (size (keys facts)) - Z.of_nat (size (keys base))).

Lemma iteration_Err s e : iteration s = Err e → ∃ rule, rule ∈ program ∧ eval_rule rule s = Err e.
Proof using.
  unfold evaluate_iteration. generalize program ([] : list Fact). intros l.
  induction l as [|rule l IH]; intros acc; cbn [foldR]; [done|].
  destruct (eval_rule rule s) as [d|e'] eqn:E; cbn [mbind result_bind].
  - intros (r & I & F)%IH. exists r. split; [by right|done].
  - intros [= <-]. exists rule. split; [left|done].
Qed.

Lemma fixed_point_spec fuel seen s log : evaluating seen s log →
  max_iterations limits ≤ Z.of_nat fuel + (Z.of_nat (length log) - Z.of_nat (length base)) →
  match fixpoint fuel seen s with
  | Ok s' => ∃ facts, get_asserted_facts s' = Ok facts ∧ is_model program base (tuples facts) ∧ in_every_model facts
  | Err e => ∃ facts, in_every_model facts ∧ stuck e facts
  end.
Proof using HU Hrules Hlimit Hroom.
  revert seen s log; induction fuel as [|fuel IH]; intros seen s log Ev Fu; cbn [fixed_point].
  { destruct Ev as [H Hin Hs Hb So Ct Sz]. exists log. split; [done|]. exists s.
    split; [by apply holds_facts|]. right; right. rewrite <-Hs. lia. }
  assert (get_asserted_facts s = Ok log) as Hf by by apply holds_facts, (ev_holds _ _ _ Ev).
  destruct (iteration s) as [new|e] eqn:E; cbn [mbind result_bind].
  2: { exists log. split; [by apply (ev_sound _ _ _ Ev)|]. exists s. split; [done|]. left. by apply iteration_Err. }
  destruct (Z.leb_spec (Z.of_nat (length new)) (max_derived_facts limits)) as [Le|Gt]; cbn [ensure mbind result_bind].
  2: { exists log. split; [by apply (ev_sound _ _ _ Ev)|]. exists s. split; [done|]. right; left. eauto. }
  pose proof (add_delta_spec limits new seen []) as A.
  destruct (foldR (add_delta limits) (seen, []) new) as [[seen' delta]|e]; cbn [mbind result_bind].
  2: { destruct A as [-> A]. exists log. split; [by apply (ev_sound _ _ _ Ev)|]. exists s. split; [done|].
       right; left. exists new. split; [done|]. right. by rewrite keys_app, <-(ev_seen _ _ _ Ev). }
  destruct A as (d & -> & Dn & Nd & Fr & -> & Ks & Sz). cbn [app].
  destruct d as [|f d].
  - exists log. split; [done|]. split; [|by apply (ev_sound _ _ _ Ev)].
    apply (iteration_closed seen s log new Ev E). assert (keys [] = ∅) as K0 by done. rewrite K0 in Ks. set_solver.
  - destruct (iteration_step seen s log new (f :: d) Ev E Dn Nd Fr Sz) as (s' & added & Es & La & Ev').
    rewrite Es. cbn [mbind result_bind]. apply (IH _ _ _ Ev'). rewrite length_app, La. cbn [length]. lia.
Qed.

Lemma evaluation_start : facts_in U base →
  ∃ s log, foldR (transact_fact hasher clock) storage_new base = Ok s ∧ evaluating (keys base) s log ∧
    length log = length base.
Proof using Hlimit Hroom.
  intros Hin. assert (holds storage_new []) as H0.
  { split; [apply storage_new_ok|by intros f ?%elem_of_nil|done]. }
  destruct (transact_facts_holds base storage_new [] H0) as (s & log & E & T & H); [cbn; lia|].
  assert (length log = length base) as L by (apply (f_equal length) in T; by rewrite !length_fmap in T).
  assert (∀ t, tuples log t ↔ tuples base t) as TT by (intros t; unfold tuples; by rewrite T).
  exists s, log. split; [done|]. split; [|done]. split.
  - done.
  - intros t It%TT. by apply Hin.
  - unfold keys. by rewrite (fact_keys_tuples _ _ T).
  - intros t. by rewrite TT.
  - intros I M t It%TT. by apply (model_base _ _ _ M).
  - lia.
  - lia.
Qed.
End fixpoint.

Lemma least_model_lemma U rules predicates limits storage base :
  universe U → (∀ rule, rule ∈ flat_map (get_rules rules) predicates → rule_ok U rule) →
  0 ≤ max_results limits → Z.of_nat (length base) + max_results limits ≤ 2 ^ 32 →
  get_asserted_facts storage = Ok base → facts_in U base →
  match evaluate_recursive_rules parse_str new_v5_oid uuid_to_string is_match hasher clock
          rules registry limits storage predicates with
  | Ok s => ∃ facts, get_asserted_facts s = Ok facts ∧
      is_model (flat_map (get_rules rules) predicates) base (tuples facts) ∧
      ∀ I, is_model (flat_map (get_rules rules) predicates) base I → ∀ t, tuples facts t → I t
  | Err e => ∃ facts, in_every_model rules predicates base facts ∧ stuck rules predicates limits base e facts
  end.
Proof.
  intros HU Hrules Hlimit Hroom Hb Hin. unfold evaluate_recursive_rules. rewrite Hb. cbn [mbind result_bind].
  destruct (evaluation_start U rules predicates limits base Hlimit Hroom Hin) as (s & log & -> & Ev & L).
  cbn [mbind result_bind].
  apply (fixed_point_spec U HU rules predicates limits base Hrules Hlimit Hroom _ _ _ log Ev). rewrite L. lia.
Qed.

(** C5: bottom-up evaluation computes the least model.  For rules over values that
    can be told apart (no floats, distinct keywords with distinct identities), bodies
    of patterns with constant attributes and no repeated variables and expressions,
    and room in the store for the facts and the result limit: when [evaluate_recursive_rules] returns, the
    facts it returns contain the base facts, are closed under the rules and are in
    every set with these two properties.  It fails only on facts that are in every
    such set, and only because a rule fails on them (a head that cannot be
    instantiated, a panicking expression) or because they show that a limit is
    exceeded: more derivations than allowed in an iteration, more distinct facts than
    allowed, or no fewer derived facts than iterations. *)
Theorem least_model_computed U rules predicates limits storage base :
  universe U → (∀ rule, rule ∈ flat_map (get_rules rules) predicates → rule_ok U rule) →
  0 ≤ max_results limits → Z.of_nat (length base) + max_results limits ≤ 2 ^ 32 →
  get_asserted_facts storage = Ok base → facts_in U base →
  match evaluate_recursive_rules parse_str new_v5_oid uuid_to_string is_match hasher clock
          rules registry limits storage predicates with
  | Ok s => ∃ facts, get_asserted_facts s = Ok facts ∧
      is_model (flat_map (get_rules rules) predicates) base (tuples facts) ∧
      ∀ I, is_model (flat_map (get_rules rules) predicates) base I → ∀ t, tuples facts t → I t
  | Err e => ∃ facts, in_every_model rules predicates base facts ∧ stuck rules predicates limits base e facts
  end.
Proof. apply least_model_lemma. Qed.
End writing.
End model.

(** * Reachability over two edges *)

Definition edge_rule : Rule := mkRule
  [ESymbol "reach"; ESymbol "?x"; ESymbol "?y"]
  [CPattern (pattern_new (ESymbol "?x") (EKeyword ":edge") (ESymbol "?y"))].
Definition path_rule : Rule := mkRule
  [ESymbol "reach"; ESymbol "?x"; ESymbol "?z"]
  [CPattern (pattern_new (ESymbol "?x") (EKeyword ":edge") (ESymbol "?y"));
   RuleInvocation "reach" [ESymbol "?y"; ESymbol "?z"]].
Definition reach_rules : gmap string (list Rule) := {["reach"%string := [edge_rule; path_rule]]}.
Definition edges_store : FactStorage :=
  (transact const_hasher 5 storage_new [(1, ":edge"%string, VRef 2); (2, ":edge"%string, VRef 3)] None).1.
Definition edge_facts : list Fact :=
  [fact_with_valid_time 1 ":edge" (VRef 2) 5 1 5 VALID_TIME_FOREVER;
   fact_with_valid_time 2 ":edge" (VRef 3) 5 1 5 VALID_TIME_FOREVER].
Definition sample_limits : Limits := mkLimits 10 10 10.
Definition plain (v : Value) : Prop := match v with VRef u => u128_ok u | VBoolean _ => True | _ => False end.

Lemma plain_universe : universe no_uuid v5_stub plain.
Proof. split; [by intros []|by intros []|done]. Qed.
Lemma reach_rule_ok rule : rule ∈ flat_map (get_rules reach_rules) ["reach"%string] →
  rule_ok no_uuid v5_stub (λ _ _, false) with_builtins plain rule.
Proof.
  intros I. assert (rule ∈ [edge_rule; path_rule]) as I' by by vm_compute in I |- *.
  rewrite !elem_of_cons, elem_of_nil in I'. clear I. destruct I' as [->|[->|[]]].
  all: eapply plain_rule_ok; [apply plain_universe|done|done|done|reflexivity|..].
  all: try by (intros e out; cbn; rewrite !elem_of_cons, elem_of_nil; naive_solver).
  all: try by (intros h; cbn; rewrite !elem_of_cons, elem_of_nil; intros [->|[->|[]]]; split; by cbn).
  all: intros p; rewrite !elem_of_cons, elem_of_nil; intuition subst.
  all: split; [by eexists|apply (bool_decide_unpack _); vm_compute; exact I].
Qed.

Definition reached_tuples : result (list (EntityId * string * Value)) :=
  s ← evaluate_recursive_rules no_uuid v5_stub print_stub (λ _ _, false) const_hasher (λ _, 7)
        reach_rules with_builtins sample_limits edges_store ["reach"%string];
  facts ← get_asserted_facts s;
  Ok (List.map tuple facts).
Lemma reached : reached_tuples =
  Ok [(1, ":edge", VRef 2); (2, ":edge", VRef 3);
      (1, ":reach", VRef 2); (2, ":reach", VRef 3); (1, ":reach", VRef 3)]%string.
Proof. vm_compute. reflexivity. Qed.

Lemma least_model_computed_witness :
  ∃ s facts,
    evaluate_recursive_rules no_uuid v5_stub print_stub (λ _ _, false) const_hasher (λ _, 7)
      reach_rules with_builtins sample_limits edges_store ["reach"%string] = Ok s ∧
    get_asserted_facts s = Ok facts ∧
    tuple <$> facts = [(1, ":edge", VRef 2); (2, ":edge", VRef 3);
                       (1, ":reach", VRef 2); (2, ":reach", VRef 3); (1, ":reach", VRef 3)]%string ∧
    is_model no_uuid v5_stub (λ _ _, false) with_builtins
      (flat_map (get_rules reach_rules) ["reach"%string]) edge_facts (tuples facts).
Proof.
  pose proof (least_model_computed no_uuid v5_stub print_stub (λ _ _, false) with_builtins const_hasher (λ _, 7)
    plain reach_rules ["reach"%string] sample_limits edges_store edge_facts plain_universe reach_rule_ok) as H.
  pose proof reached as X. unfold reached_tuples in X.
  revert H X. destruct (evaluate_recursive_rules _ _ _ _ _ _ _ _ _ _ _) as [s|e]; [|by intros ? [=]].
  intros H X. destruct H as (facts & G & M & _); [done|done|by vm_compute| |].
  { intros t. unfold tuples. cbn. rewrite !elem_of_cons, elem_of_nil. by intros [->|[->|[]]]. }
  cbn [mbind result_bind] in X. rewrite G in X. injection X as X.
  exists s, facts. by split_and!.
Defined.

(** * What the stratified evaluation misses *)

(** [(q ?x) <- [?x :edge ?y] (not [?x :hidden true])] and [(p ?x) <- (q ?x)] have the
    same stratum; the positive rule runs first and only once, so [p] stays empty
    although [q] holds. *)
Definition visible_rules : gmap string (list Rule) :=
  <["q"%string := [mkRule [ESymbol "q"; ESymbol "?x"]
      [CPattern (pattern_new (ESymbol "?x") (EKeyword ":edge") (ESymbol "?y"));
       Not [CPattern (pattern_new (ESymbol "?x") (EKeyword ":hidden") (EBoolean true))]]]]>
  {["p"%string := [mkRule [ESymbol "p"; ESymbol "?x"] [RuleInvocation "q" [ESymbol "?x"]]]]}.
Definition stratified_tuples (rules : gmap string (list Rule)) (predicate : string)
    : result (list (EntityId * string * Value)) :=
  s ← evaluate no_uuid v5_stub print_stub (λ _ _, false) const_hasher (λ _, 7) map_to_list map_to_list
        rules with_builtins sample_limits 9 edges_store [predicate];
  facts ← get_asserted_facts s;
  Ok (List.map tuple facts).

Example positive_before_mixed :
  stratified_tuples visible_rules "p" =
  Ok [(1, ":edge", VRef 2); (2, ":edge", VRef 3); (1, ":q", VBoolean true); (2, ":q", VBoolean true)]%string.
Proof. vm_compute. reflexivity. Qed.

(** A recursive rule with an [or] in its body runs once: the second step is missing. *)
Definition or_reach_rules : gmap string (list Rule) := {["reach"%string := [mkRule
  [ESymbol "reach"; ESymbol "?x"; ESymbol "?z"]
  [CPattern (pattern_new (ESymbol "?x") (EKeyword ":edge") (ESymbol "?y"));
   Or [[CPattern (pattern_new (ESymbol "?x") (EKeyword ":edge") (ESymbol "?z"))];
       [RuleInvocation "reach" [ESymbol "?y"; ESymbol "?z"]]]]]]}.
Example recursion_through_or_stops :
  stratified_tuples or_reach_rules "reach" =
  Ok [(1, ":edge", VRef 2); (2, ":edge", VRef 3); (1, ":reach", VRef 2); (2, ":reach", VRef 3)]%string.
Proof. vm_compute. reflexivity. Qed.
