(* ===== verification/MagicSets.v ===== *)
(** The demand-driven rewrite of rules (src/src/query/datalog/magic_sets.rs).

    An adornment is a list of the characters [b] (bound) and [f] (free).  The
    iteration orders of the hash maps and the source of fresh UUIDs are
    parameters.  The theorems: adornments reach a fixed point, and the rewritten
    rules derive nothing that the original rules do not; the examples show where
    they derive less. *)
From S2P Require Import Prelude Types ValueCodec Floats HashKeys NetView Index PendingOverlay FactStore QueryTypes Functions Expressions Matcher JoinOrder Optimizer Branches Stratification Evaluator LeastModel.
Set Default Proof Using "Type".

Abbreviation Adornment := (list Ascii.ascii) (only parsing).
Abbreviation Adornments := (gmap string (list Ascii.ascii)) (only parsing).
Definition BOUND : Ascii.ascii := Ascii.ascii_of_nat 98.
Definition FREE : Ascii.ascii := Ascii.ascii_of_nat 102.

(** * Adornments *)

Definition ground_pattern (grounded : gset string) (p : Pattern) : gset string :=
  list_to_set (option_list (as_variable (pat_value p))) ∪
  (list_to_set (option_list (as_variable (pat_entity p))) ∪ grounded).
Definition adorn_args (grounded : gset string) (args : list EdnValue) : list Ascii.ascii :=
  (λ a, match as_variable a with
        | Some v => if bool_decide (v ∈ grounded) then BOUND else FREE
        | None => BOUND
        end) <$> args.
(** [entry(k).or_insert(v)]. *)
Definition or_insert (k : string) (v : list Ascii.ascii) (m : gmap string (list Ascii.ascii)) : gmap string (list Ascii.ascii) :=
  match m !! k with Some _ => m | None => <[k := v]> m end.

Definition adorn_clause (st : gset string * gmap string (list Ascii.ascii)) (c : WhereClause)
    : gset string * gmap string (list Ascii.ascii) :=
  let '(grounded, adornments) := st in
  match c with
  | CPattern p => (ground_pattern grounded p, adornments)
  | RuleInvocation predicate args => (grounded, or_insert predicate (adorn_args grounded args) adornments)
  | _ => st
  end.
Definition compute_query_adornments (where_clauses : list WhereClause) : gmap string (list Ascii.ascii) :=
  (foldl adorn_clause (∅, ∅) where_clauses).2.

Definition has_bound_arg (ad : list Ascii.ascii) : bool := bool_decide (BOUND ∈ ad).
Definition adornment_string (ad : list Ascii.ascii) : string := foldr String.String EmptyString ad.
Definition magic_pred_name (pred : string) (ad : list Ascii.ascii) : string :=
  "__magic_" +:+ pred +:+ "_" +:+ adornment_string ad.

(** The arguments at the bound positions of an adornment. *)
Definition bound_args (ad : list Ascii.ascii) (args : list EdnValue) : list EdnValue :=
  omap (λ '(i, c), if bool_decide (c = BOUND) then args !! i else None) (enumerate ad).

Definition has_negation (rule : Rule) : bool :=
  existsb (λ c, match c with Not _ | NotJoin _ _ => true | _ => false end) (rule_body rule).

(** * Rewritten rules *)

Definition magic_guard (rule : Rule) (predicate : string) (ad : list Ascii.ascii) : WhereClause :=
  RuleInvocation (magic_pred_name predicate ad) (bound_args ad (tail (rule_head rule))).
Definition inject_magic_guard (rule : Rule) (predicate : string) (ad : list Ascii.ascii) : Rule :=
  if has_negation rule then rule
  else mkRule (rule_head rule) (magic_guard rule predicate ad :: rule_body rule).

Definition is_rule_invocation (c : WhereClause) : bool := match c with RuleInvocation _ _ => true | _ => false end.
Definition propagation_rule (guard : WhereClause) (body : list WhereClause) (adorned : gmap string (list Ascii.ascii))
    (row : nat * WhereClause) : option (string * Rule) :=
  let '(i, c) := row in
  match c with
  | RuleInvocation called called_args =>
    ad ← adorned !! called;
    if has_bound_arg ad then
      let name := magic_pred_name called ad in
      Some (name, mkRule (ESymbol name :: bound_args ad called_args)
                    (guard :: List.filter (λ c, negb (is_rule_invocation c)) (take i body)))
    else None
  | _ => None
  end.
Definition build_propagation_rules (rule : Rule) (predicate : string) (adorned : gmap string (list Ascii.ascii))
    : list (string * Rule) :=
  if has_negation rule then []
  else match adorned !! predicate with
       | None => []
       | Some ad =>
         omap (propagation_rule (magic_guard rule predicate ad) (rule_body rule) adorned) (enumerate (rule_body rule))
       end.

Definition head_grounded (ad : list Ascii.ascii) (rule : Rule) : gset string :=
  list_to_set (omap as_variable (bound_args ad (tail (rule_head rule)))).
Record Propagation : Type := mkPropagation {
  pr_grounded : gset string; pr_adorned : gmap string (list Ascii.ascii); pr_changed : bool }.
Definition propagate_clause (st : Propagation) (c : WhereClause) : Propagation :=
  match c with
  | CPattern p => mkPropagation (ground_pattern (pr_grounded st) p) (pr_adorned st) (pr_changed st)
  | RuleInvocation called args =>
    let call_adornment := adorn_args (pr_grounded st) args in
    let grounded := list_to_set (omap as_variable args) ∪ pr_grounded st in
    if has_bound_arg call_adornment && bool_decide (pr_adorned st !! called = None)
    then mkPropagation grounded (<[called := call_adornment]> (pr_adorned st)) true
    else mkPropagation grounded (pr_adorned st) (pr_changed st)
  | _ => st
  end.
Definition propagate_rule (ad : list Ascii.ascii) (st : gmap string (list Ascii.ascii) * bool) (rule : Rule)
    : gmap string (list Ascii.ascii) * bool :=
  if has_negation rule then st
  else let r := foldl propagate_clause (mkPropagation (head_grounded ad rule) st.1 st.2) (rule_body rule) in
       (pr_adorned r, pr_changed r).

Section orders.
Context (adornment_order : gmap string (list Ascii.ascii) → list (string * list Ascii.ascii)).
Context (rule_order : gmap string (list Rule) → list (string * list Rule)).

Definition propagate_round (rules : gmap string (list Rule)) (adorned : gmap string (list Ascii.ascii))
    : gmap string (list Ascii.ascii) * bool :=
  foldl (λ st '(pred, ad), foldl (propagate_rule ad) st (get_rules rules pred)) (adorned, false)
    (adornment_order adorned).
(** [while changed], [None] when the fuel runs out. *)
Fixpoint propagate_loop (rules : gmap string (list Rule)) (fuel : nat) (adorned : gmap string (list Ascii.ascii))
    : option (gmap string (list Ascii.ascii)) :=
  match fuel with
  | O => None
  | S fuel =>
    let '(adorned, changed) := propagate_round rules adorned in
    if changed : bool then propagate_loop rules fuel adorned else Some adorned
  end.
(** Each round that changes something adorns one more predicate that a rule calls. *)
Definition called_predicates (rules : gmap string (list Rule)) : gset string :=
  list_to_set (flat_map (λ e, flat_map (λ r, flat_map rule_invocations (rule_body r)) e.2) (map_to_list rules)).
Definition propagate_adornments (initial : gmap string (list Ascii.ascii)) (rules : gmap string (list Rule))
    : option (gmap string (list Ascii.ascii)) :=
  propagate_loop rules (S (size (called_predicates rules))) initial.

Definition rewritten_rules (rules : gmap string (list Rule)) (adorned : gmap string (list Ascii.ascii))
    : list (string * Rule) :=
  flat_map (λ '(pred, rs),
      (λ rule, (pred, match adorned !! pred with
                      | Some ad => inject_magic_guard rule pred ad
                      | None => rule
                      end)) <$> rs) (rule_order rules).
Definition propagation_rules (rules : gmap string (list Rule)) (adorned : gmap string (list Ascii.ascii))
    : list (string * Rule) :=
  flat_map (λ '(pred, rs),
      match adorned !! pred with
      | Some _ => flat_map (λ rule, build_propagation_rules rule pred adorned) rs
      | None => []
      end) (rule_order rules).
Definition build_rewritten_registry (rules : gmap string (list Rule)) (adorned : gmap string (list Ascii.ascii))
    : gmap string (list Rule) :=
  foldl (λ r '(p, rule), register_rule_unchecked r p rule) registry_new
    (rewritten_rules rules adorned ++ propagation_rules rules adorned).

Section seeds.
Context (parse_str : string → option Z) (new_v5_oid : string → Z) (new_v4 : nat → EntityId).

Definition seed_fact (adorned : gmap string (list Ascii.ascii)) (row : nat * WhereClause)
    : option (EntityId * string * Value) :=
  let '(i, c) := row in
  match c with
  | RuleInvocation predicate args =>
    ad ← adorned !! predicate;
    if has_bound_arg ad then
      let magic_attr := ":" +:+ magic_pred_name predicate ad in
      if bool_decide (ad !! 0%nat = Some BOUND) then
        arg0 ← args !! 0%nat;
        e ← ok_option (edn_to_entity_id parse_str new_v5_oid arg0);
        Some (e, magic_attr, VBoolean true)
      else if bool_decide (ad !! 1%nat = Some BOUND) then
        arg1 ← args !! 1%nat;
        v ← ok_option (edn_to_value arg1);
        Some (new_v4 i, magic_attr, v)
      else None
    else None
  | _ => None
  end.
Definition build_seed_facts (where_clauses : list WhereClause) (adorned : gmap string (list Ascii.ascii))
    : list (EntityId * string * Value) := omap (seed_fact adorned) (enumerate where_clauses).

Definition rewrite (q : DatalogQuery) (rules : gmap string (list Rule))
    : option (gmap string (list Rule) * list (EntityId * string * Value)) :=
  let initial_bound := filter (λ e, has_bound_arg e.2 = true) (compute_query_adornments (q_where q)) in
  if bool_decide (initial_bound = ∅) then None
  else if negb (existsb (λ e, bool_decide (FREE ∈ e.2)) (map_to_list initial_bound)) then None
  else
    adorned ← propagate_adornments initial_bound rules;
    match build_seed_facts (q_where q) adorned with
    | [] => None
    | seeds => Some (build_rewritten_registry rules adorned, seeds)
    end.
End seeds.
End orders.

(** * Adornments reach a fixed point *)

Section termination.
Context (rules : gmap string (list Rule)).

(** What a pass may do to the adornments: add called predicates, and only then
    report a change. *)
Record grows (old new : gmap string (list Ascii.ascii)) (changed : bool) : Prop := {
  gr_sub : old ⊆ new;
  gr_called : dom new ⊆ dom old ∪ called_predicates rules;
  gr_changed : changed = true → dom old ≠ dom new;
  gr_same : changed = false → old = new;
}.
Lemma grows_refl m : grows m m false.
Proof. split; [done|set_solver|done|done]. Qed.

Lemma grows_clause old st c : grows old (pr_adorned st) (pr_changed st) →
  list_to_set (rule_invocations c) ⊆ called_predicates rules →
  grows old (pr_adorned (propagate_clause st c)) (pr_changed (propagate_clause st c)).
Proof.
  intros G C. destruct c as [p|called args| | | | |]; try done. cbn [propagate_clause].
  destruct (has_bound_arg _ && _) eqn:E; [|done]. apply andb_prop in E as [_ E]. apply bool_decide_eq_true in E.
  destruct G as [S D Ch Sm]. cbn [pr_adorned pr_changed]. split.
  - etrans; [exact S|]. by apply insert_subseteq.
  - rewrite dom_insert_L. cbn in C. set_solver.
  - intros _ X. rewrite dom_insert_L in X. apply not_elem_of_dom in E. apply E.
    apply subseteq_dom in S. set_solver.
  - done.
Qed.

Lemma grows_body old cs st : grows old (pr_adorned st) (pr_changed st) →
  list_to_set (flat_map rule_invocations cs) ⊆ called_predicates rules →
  grows old (pr_adorned (foldl propagate_clause st cs)) (pr_changed (foldl propagate_clause st cs)).
Proof.
  revert st; induction cs as [|c cs IH]; intros st G C; [done|]. cbn in C |- *. rewrite list_to_set_app_L in C.
  apply IH; [apply grows_clause; [done|]|]; set_solver.
Qed.

Lemma called_rule pred rule : rule ∈ get_rules rules pred →
  list_to_set (flat_map rule_invocations (rule_body rule)) ⊆ called_predicates rules.
Proof.
  unfold get_rules. destruct (rules !! pred) as [rs|] eqn:E; cbn; [|by intros I%elem_of_nil].
  intros I x. unfold called_predicates. rewrite !elem_of_list_to_set. intros X.
  apply elem_of_flat_map. exists (pred, rs). split; [by apply elem_of_map_to_list|]. cbn.
  apply elem_of_flat_map. by exists rule.
Qed.

Context (adornment_order : gmap string (list Ascii.ascii) → list (string * list Ascii.ascii)).
Lemma grows_round m : grows m (propagate_round adornment_order rules m).1 (propagate_round adornment_order rules m).2.
Proof.
  unfold propagate_round. generalize (adornment_order m). intros l.
  assert (∀ st, grows m st.1 st.2 →
    grows m (foldl (λ st '(pred, ad), foldl (propagate_rule ad) st (get_rules rules pred)) st l).1
            (foldl (λ st '(pred, ad), foldl (propagate_rule ad) st (get_rules rules pred)) st l).2) as H.
  2: { apply H, grows_refl. }
  induction l as [|[pred ad] l IH]; intros st G; [done|]. cbn [foldl]. apply IH. clear IH l.
  pose proof (called_rule pred) as C. induction (get_rules rules pred) as [|rule rs IH] in st, G, C |- *; [done|].
  cbn [foldl]. apply IH; [|intros r I; apply C; by right]. unfold propagate_rule. destruct (has_negation rule); [done|].
  apply grows_body; [done|]. apply C. left.
Qed.

Lemma propagate_loop_some fuel m : (size (called_predicates rules ∖ dom m) < fuel)%nat →
  ∃ adorned, propagate_loop adornment_order rules fuel m = Some adorned ∧ m ⊆ adorned ∧
    propagate_round adornment_order rules adorned = (adorned, false).
Proof.
  revert m; induction fuel as [|fuel IH]; intros m L; [lia|]. cbn [propagate_loop].
  pose proof (grows_round m) as G. destruct (propagate_round adornment_order rules m) as [m1 ch] eqn:E.
  cbn [fst snd] in G. destruct G as [S D Ch Sm]. destruct ch.
  - destruct (IH m1) as (a & Ea & Sa & Fa).
    + specialize (Ch eq_refl). apply subseteq_dom in S.
      assert (called_predicates rules ∖ dom m1 ⊂ called_predicates rules ∖ dom m) as P.
      { split; [set_solver|]. intros X. apply Ch. apply set_eq. intros x. split; [set_solver|]. intros I1.
        destruct (decide (x ∈ dom m)); [done|]. set_solver. }
      apply subset_size in P. lia.
    + exists a. split; [done|]. split; [by etrans|done].
  - rewrite <-(Sm eq_refl) in E |- *. by exists m.
Qed.

(** The [while] loop over the adornments terminates with every predicate adorned
    that it started with, at a point where another pass changes nothing. *)
Lemma propagate_adornments_total initial :
  ∃ adorned, propagate_adornments adornment_order initial rules = Some adorned ∧ initial ⊆ adorned ∧
    propagate_round adornment_order rules adorned = (adorned, false).
Proof.
  apply propagate_loop_some.
  assert (called_predicates rules ∖ dom initial ⊆ called_predicates rules) as Sub%subseteq_size by set_solver. lia.
Qed.
End termination.

(** * The rewritten rules derive nothing new *)

Definition is_magic (a : string) : bool := String.prefix ":__magic_" a.
(** A body that a guard cannot influence: constant attributes outside the magic
    ones, expressions that only filter, no float and no keyword in arguments. *)
Definition arg_plain (e : EdnValue) : Prop := ∀ v, edn_to_value e = Ok v → plain_value v = true.
Definition clause_plain (c : WhereClause) : Prop :=
  match c with
  | CPattern p => ∃ k, pat_attribute p = Real (EKeyword k) ∧ is_magic k = false
  | RuleInvocation q args => is_magic (":" +:+ q) = false ∧ ∀ a, a ∈ args → arg_plain a
  | CExpr _ out => out = None
  | _ => True
  end.
(** The variables of the head occur in the patterns of the body. *)
Record rule_plain (rule : Rule) : Prop := {
  rp_body c : c ∈ rule_body rule → clause_plain c;
  rp_safe ps h x : positive_patterns (rule_body rule) = Ok ps → h ∈ tail (rule_head rule) →
    x ∈ component_vars h → ∃ p, p ∈ ps ∧ x ∈ component_vars (pat_entity p) ++ component_vars (pat_value p);
}.

Lemma positive_elem body ps p : positive_patterns body = Ok ps → p ∈ ps →
  CPattern p ∈ body ∨ ∃ q args, RuleInvocation q args ∈ body ∧ rule_invocation_to_pattern q args = Ok p.
Proof.
  revert ps; induction body as [|c body IH]; intros ps E I; cbn in E; [injection E as <-; by apply elem_of_nil in I|].
  destruct c as [p0|q args| | |e out| |]; try done; inv_ok.
  - apply elem_of_cons in I as [->|I]; [left; left|].
    destruct (IH _ ltac:(eassumption) I) as [?|(q & args & ? & ?)]; [left; by right|right; exists q, args; split; [by right|done]].
  - apply elem_of_cons in I as [->|I]; [right; exists q, args; split; [left|done]|].
    destruct (IH _ ltac:(eassumption) I) as [?|(q' & args' & ? & ?)]; [left; by right|right; exists q', args'; split; [by right|done]].
  - destruct (IH _ E I) as [?|(q & args & ? & ?)]; [left; by right|right; exists q, args; split; [by right|done]].
Qed.

Section soundness.
Context (parse_str : string → option Z) (new_v5_oid : string → Z).
#[local] Abbreviation bind_tuple := (match_tuple parse_str new_v5_oid).
#[local] Abbreviation chosen := (choice parse_str new_v5_oid).

Definition plain_row (b : gmap string Value) : Prop :=
  ∀ x v, b !! x = Some v → plain_value v = true ∧ is_hidden x = false.
Definition plain_set (I : EntityId * string * Value → Prop) : Prop := ∀ t, I t → plain_value t.2 = true.

Lemma fact_binds_plain p f d k : pat_attribute p = Real (EKeyword k) → plain_value (value f) = true →
  fact_binds parse_str new_v5_oid p f = Some d →
  plain_row d ∧ attribute f = k ∧ dom d = list_to_set (component_vars (pat_entity p) ++ component_vars (pat_value p)).
Proof.
  intros A V. unfold fact_binds. rewrite A. intros (e & Ee & X)%bind_Some. apply bind_Some in X as (a & Ea & X).
  apply bind_Some in X as (v & Ev & [= <-]). cbn in Ea. case_bool_decide as K; [|done]. injection Ea as <-.
  rewrite (left_id_L ∅ (∪)). split_and!.
  - intros x w [L|[_ L]]%lookup_union_Some_raw.
    + split; [apply (component_binds_value _ _ _ _ _ _ _ Ev) in L as ->; done|].
      apply component_binds_dom in Ev. apply elem_of_dom_2 in L. rewrite Ev in L.
      apply elem_of_list_to_set, component_vars_visible in L. done.
    + split; [apply (component_binds_value _ _ _ _ _ _ _ Ee) in L as ->; done|].
      apply component_binds_dom in Ee. apply elem_of_dom_2 in L. rewrite Ee in L.
      apply elem_of_list_to_set, component_vars_visible in L. done.
  - done.
  - rewrite dom_union_L, (component_binds_dom _ _ _ _ _ Ev), (component_binds_dom _ _ _ _ _ Ee).
    rewrite list_to_set_app_L. set_solver.
Qed.

Lemma plain_normal v : plain_value v = true → normalize_join_value parse_str new_v5_oid v = v.
Proof. by destruct v. Qed.
Lemma plain_not_float v : plain_value v = true → is_float_value v = false.
Proof. by destruct v. Qed.

(** On plain rows a merge is the union of rows that agree. *)
Lemma merge_plain b d r : plain_row b → plain_row d →
  merge_rows parse_str new_v5_oid b d = Some r ↔ r = b ∪ d ∧ map_agree b d.
Proof.
  intros Pb Pd. assert (∀ x v, d !! x = Some v → agrees parse_str new_v5_oid b (x, v) = true ↔
    (∀ w, b !! x = Some w → w = v)) as A.
  { intros x v D. destruct (Pd x v D) as [Vp Hx]. unfold agrees. rewrite Hx. cbn [orb].
    destruct (b !! x) as [w|] eqn:B; [|split; done]. destruct (Pb x w B) as [Wp _].
    rewrite !plain_normal, value_eq_plain, bool_decide_eq_true by (try done; by apply plain_not_float).
    split; [by intros -> ? [= ->]|auto]. }
  split.
  - intros M. split.
    + apply map_eq. intros x. rewrite (merge_rows_lookup _ _ _ _ _ _ M). unfold merged_lookup.
      destruct (d !! x) as [v|] eqn:D.
      * destruct (Pd x v D) as [_ ->]. rewrite lookup_union, D. by destruct (b !! x).
      * rewrite lookup_union, D. by destruct (b !! x).
    + apply map_agree_spec. intros x w v B D. pose proof (mk_is_Some _ _ M) as S.
      apply merge_rows_is_Some with (x := x) (v := v) in S; [|done]. by apply (proj1 (A x v D) S).
  - intros [-> Ag]. destruct (merge_rows parse_str new_v5_oid b d) as [r|] eqn:M.
    + f_equal. apply map_eq. intros x. rewrite (merge_rows_lookup _ _ _ _ _ _ M). unfold merged_lookup.
      destruct (d !! x) as [v|] eqn:D.
      * destruct (Pd x v D) as [_ ->]. rewrite lookup_union, D. by destruct (b !! x).
      * rewrite lookup_union, D. by destruct (b !! x).
    + exfalso. assert (is_Some (merge_rows parse_str new_v5_oid b d)) as [? S]; [|congruence].
      apply merge_rows_is_Some. intros x v D. apply A; [done|]. intros w B. rewrite map_agree_spec in Ag. by eapply Ag.
Qed.

Definition keyed (ps : list Pattern) : Prop := ∀ p, p ∈ ps → ∃ k, pat_attribute p = Real (EKeyword k).
Definition body_vars (ps : list Pattern) : gset string :=
  list_to_set (flat_map (λ p, component_vars (pat_entity p) ++ component_vars (pat_value p)) ps).

Lemma plain_row_union b d : plain_row b → plain_row d → plain_row (b ∪ d).
Proof. intros Pb Pd x v [L|[_ L]]%lookup_union_Some_raw; eauto. Qed.
Lemma plain_row_empty : plain_row ∅.
Proof. intros x v. by rewrite lookup_empty. Qed.

(** One step of a choice on plain rows. *)
Lemma match_tuple_plain p k b t b1 : pat_attribute p = Real (EKeyword k) → plain_value t.2 = true → plain_row b →
  bind_tuple p b t = Some b1 →
  ∃ d, fact_binds parse_str new_v5_oid p (fact_of t) = Some d ∧ plain_row d ∧ t.1.2 = k ∧ dom d = body_vars [p] ∧
    b1 = b ∪ d ∧ map_agree b d.
Proof.
  intros A V Pb (d & Fd & M)%bind_Some. destruct (fact_binds_plain p (fact_of t) d k A V Fd) as (Pd & Kt & Dd).
  apply (merge_plain b d) in M as [-> Ag]; [|done|done]. exists d. unfold body_vars. cbn [flat_map].
  rewrite app_nil_r. split_and!; done.
Qed.

(** A choice may start from a smaller row. *)
Lemma choice_shrink I ps b1 b2 b0 : plain_set I → keyed ps → plain_row b1 → b0 ⊆ b1 → chosen I ps b1 b2 →
  plain_row b2 ∧ dom b2 = dom b1 ∪ body_vars ps ∧ ∃ b', chosen I ps b0 b' ∧ b' ⊆ b2 ∧ dom b' = dom b0 ∪ body_vars ps.
Proof.
  intros PI K P1 S C. revert b0 K P1 S. induction C as [|p ps b1 t b1' b2 It M C IH]; intros b0 K P1 S.
  { assert (∀ X : gset string, X ∪ body_vars [] = X) as E by (intros X; apply (right_id_L ∅ (∪))).
    split; [done|]. split; [by rewrite E|]. exists b0. split; [constructor|]. split; [done|]. by rewrite E. }
  destruct (K p) as [k Ak]; [left|].
  destruct (match_tuple_plain p k b1 t b1' Ak (PI t It) P1 M) as (d & Fd & Pd & _ & Dd & -> & Ag).
  assert (plain_row b0) as P0 by (intros x v L; apply (P1 x), (lookup_weaken _ _ _ _ L S)).
  assert (map_agree b0 d) as Ag0.
  { rewrite map_agree_spec in Ag |- *. intros x v w L. apply (Ag x). by eapply lookup_weaken. }
  destruct (IH (b0 ∪ d)) as (P2 & D2 & b' & C' & S' & D').
  - intros q Iq. apply K. by right.
  - by apply plain_row_union.
  - apply map_subseteq_spec. intros x v [L|[N L]]%lookup_union_Some_raw; apply lookup_union_Some_raw.
    + left. by eapply lookup_weaken.
    + destruct (b1 !! x) as [w|] eqn:B; [left|by right]. f_equal. rewrite map_agree_spec in Ag. by eapply Ag.
  - split; [done|]. assert (body_vars (p :: ps) = body_vars [p] ∪ body_vars ps) as ->.
    { unfold body_vars. cbn [flat_map]. by rewrite app_nil_r, list_to_set_app_L. }
    rewrite <-Dd. split; [rewrite D2, dom_union_L; set_solver|]. exists b'. split; [|split; [done|rewrite D', dom_union_L; set_solver]].
    econstructor; [exact It| |exact C']. unfold match_tuple. rewrite Fd. cbn. by apply merge_plain.
Qed.

(** Choices for patterns outside the magic attributes use no magic tuple. *)
Definition with_magic (I : EntityId * string * Value → Prop) (t : EntityId * string * Value) : Prop :=
  I t ∨ is_magic t.1.2 = true ∧ plain_value t.2 = true.
Lemma with_magic_plain I : plain_set I → plain_set (with_magic I).
Proof. intros P t [?|[_ ?]]; auto. Qed.
Definition unmagic (ps : list Pattern) : Prop := ∀ p, p ∈ ps → ∃ k, pat_attribute p = Real (EKeyword k) ∧ is_magic k = false.
Lemma choice_unmagic I ps b b' : plain_set I → unmagic ps → plain_row b → chosen (with_magic I) ps b b' → chosen I ps b b'.
Proof.
  intros PI U Pb C. induction C as [|p ps b t b1 b2 It M C IH]; [constructor|].
  destruct (U p) as (k & Ak & Nk); [left|].
  destruct (match_tuple_plain p k b t b1 Ak (with_magic_plain I PI t It) Pb M) as (d & _ & Pd & Kt & _ & -> & _).
  econstructor; [|exact M|].
  - destruct It as [?|[X _]]; [done|]. congruence.
  - apply IH; [intros q Iq; apply U; by right|by apply plain_row_union].
Qed.
Context (is_match : string → string → bool) (registry : FunctionRegistry).
#[local] Abbreviation derived := (derives parse_str new_v5_oid is_match registry).
#[local] Abbreviation model := (is_model parse_str new_v5_oid is_match registry).

Lemma positive_plain rule ps : rule_plain rule → positive_patterns (rule_body rule) = Ok ps → unmagic ps.
Proof.
  intros [B _] E p Ip. pose proof (positive_elem _ _ _ E Ip) as [I|(q & args & I & Q)].
  - by apply B in I.
  - apply B in I as [N _]. exists (":" +:+ q). split; [|done].
    destruct args as [|a0 [|a1 [|]]]; cbn in Q; try done; by injection Q as <-.
Qed.

Lemma bound_args_elem ad args h : h ∈ bound_args ad args → h ∈ args.
Proof.
  unfold bound_args. intros ([i c] & _ & E)%list_elem_of_omap. case_bool_decide; [|done].
  by apply list_elem_of_lookup_2 in E.
Qed.

(** The pattern of a guard binds only variables of the bound arguments. *)
Lemma guard_pattern name args p : rule_invocation_to_pattern name args = Ok p →
  pat_attribute p = Real (EKeyword (":" +:+ name)) ∧
  ∀ x, x ∈ component_vars (pat_entity p) ++ component_vars (pat_value p) → ∃ h, h ∈ args ∧ x ∈ component_vars h.
Proof.
  destruct args as [|a0 [|a1 [|]]]; cbn; intros E; try done; injection E as <-; (split; [done|]); cbn.
  - intros x X. rewrite app_nil_r in X. exists a0. split; [left|done].
  - intros x [X|X]%elem_of_app; [exists a0|exists a1]; (split; [|done]); [left|right; left].
Qed.
Lemma prefix_append p s : String.prefix p (p +:+ s) = true.
Proof.
  clear. induction p as [|c p IH]; [by destruct s|]. change (String c p +:+ s) with (String c (p +:+ s)). cbn.
  destruct (Ascii.ascii_dec c c); [done|congruence].
Qed.
Lemma magic_name_magic pred ad : is_magic (":" +:+ magic_pred_name pred ad) = true.
Proof. exact (prefix_append ":__magic_" (pred +:+ "_" +:+ adornment_string ad)). Qed.

Lemma exprs_of_filters rule : rule_plain rule → filters (exprs_of (rule_body rule)).
Proof. intros [B _] e out [_ I]%elem_of_List_filter. by apply B in I. Qed.

(** The guarded rule derives what the rule derives. *)
Lemma guarded_sound I rule pred ad t : plain_set I → rule_plain rule →
  derived (with_magic I) (inject_magic_guard rule pred ad) t → derived I rule t.
Proof.
  intros PI Rp. unfold inject_magic_guard. destruct (has_negation rule) eqn:Ng; cycle 1.
  - intros (ps & b & b' & f & Ep & C & X & Hf & <-). cbn [rule_body rule_head positive_patterns magic_guard] in *.
    apply bind_Ok in Ep as (pg & Eg & (qs & Eq & [= <-])%bind_Ok).
    destruct (guard_pattern _ _ _ Eg) as [Ag Vg]. inversion C as [|? ? ? t0 b1 ? It M C1]; subst.
    destruct (match_tuple_plain pg _ ∅ t0 b1 Ag (with_magic_plain I PI t0 It) plain_row_empty M)
      as (d & _ & Pd & _ & Dd & -> & _). rewrite (left_id_L ∅ (∪)) in C1.
    assert (unmagic qs) as U by by eapply positive_plain.
    assert (keyed qs) as K by (intros q Iq; destruct (U q Iq) as (k & ? & _); eauto).
    destruct (choice_shrink _ qs d b ∅ (with_magic_plain I PI) K Pd (map_empty_subseteq _) C1)
      as (Pb & Db & b0 & C0 & S0 & D0).
    assert (b0 = b) as ->.
    { apply (anti_symm (⊆)); [done|]. apply map_subseteq_spec. intros x v L.
      assert (x ∈ dom b0) as [w W]%elem_of_dom.
      { apply elem_of_dom_2 in L. rewrite Db, Dd in L. rewrite D0, dom_empty_L. apply elem_of_union in L as [L|L]; [|set_solver].
        unfold body_vars in L. cbn [flat_map] in L. rewrite app_nil_r in L. apply elem_of_list_to_set, Vg in L as (h & Hh & Hx).
        destruct (rp_safe rule Rp qs h x Eq (bound_args_elem _ _ _ Hh) Hx) as (p & Ip & Xp).
        apply elem_of_union. right. unfold body_vars. apply elem_of_list_to_set, elem_of_flat_map. by exists p. }
      pose proof (lookup_weaken _ _ _ _ W S0). congruence. }
    exists qs, b, b', f. split_and!; try done. by apply choice_unmagic.
  - intros (ps & b & b' & f & Ep & C & X). exists ps, b, b', f. split; [done|]. split; [|done].
    apply choice_unmagic; [done|by eapply positive_plain|apply plain_row_empty|done].
Qed.
Lemma plain_sound I rule t : plain_set I → rule_plain rule → derived (with_magic I) rule t → derived I rule t.
Proof.
  intros PI Rp (ps & b & b' & f & Ep & C & X). exists ps, b, b', f. split; [done|]. split; [|done].
  apply choice_unmagic; [done|by eapply positive_plain|apply plain_row_empty|done].
Qed.

Lemma choice_plain J ps b b' : plain_set J → keyed ps → plain_row b → chosen J ps b b' → plain_row b'.
Proof. intros PJ K Pb C. by destruct (choice_shrink J ps b b' b PJ K Pb (reflexivity b) C) as [? _]. Qed.

(** What a head instantiates to: its predicate, and a plain value. *)
Lemma head_instance name args b f : plain_row b → (∀ a, a ∈ args → arg_plain a) →
  instantiate_head parse_str new_v5_oid (ESymbol name :: args) b = Ok f →
  attribute f = ":" +:+ name ∧ plain_value (value f) = true.
Proof.
  intros Pb Pa. unfold instantiate_head. destruct args as [|h1 rest]; [done|].
  intros E. apply bind_Ok in E as (e1 & _ & E). apply bind_Ok in E as (e & _ & E). apply bind_Ok in E as (v & Ev & E).
  injection E as <-. split; [done|]. cbn [value fact_new]. destruct rest as [|h2 rest]; [by injection Ev as <-|].
  apply bind_Ok in Ev as (e2 & E2 & Ev). assert (h2 ∈ h1 :: h2 :: rest) as I2 by (right; left).
  destruct h2 as [k|x|x|i|g|z|u|l|l|l| |x]; cbn in E2; try (injection E2 as <-; by apply (Pa _ I2)).
  destruct (is_var x); [|injection E2 as <-; by apply (Pa _ I2)].
  destruct (b !! x) as [w|] eqn:W; [|done]. injection E2 as <-. apply Pb in W as [W _]. destruct w; cbn in Ev; by simplify_eq.
Qed.

Lemma propagation_sound J rule pred adorned name prule t : plain_set J → rule_plain rule →
  (name, prule) ∈ build_propagation_rules rule pred adorned → derived J prule t →
  is_magic t.1.2 = true ∧ plain_value t.2 = true.
Proof.
  intros PJ Rp. unfold build_propagation_rules. destruct (has_negation rule); [by intros I%elem_of_nil|].
  destruct (adorned !! pred) as [ad|]; [|by intros I%elem_of_nil].
  intros ([i c] & Ic & E)%list_elem_of_omap. apply elem_of_enumerate in Ic. unfold propagation_rule in E.
  destruct c as [|called args| | | | |]; try done. apply bind_Some in E as (ad' & _ & E).
  destruct (has_bound_arg ad'); [|done]. injection E as <- <-.
  intros (ps & b & b' & f & Ep & C & X & Hf & <-). cbn [rule_body rule_head] in *.
  apply bind_Ok in Ep as (pg & Eg & (qs & Eq & [= <-])%bind_Ok).
  assert (∀ c, c ∈ List.filter (λ c, negb (is_rule_invocation c)) (take i (rule_body rule)) → c ∈ rule_body rule) as Sub.
  { intros c [_ I]%elem_of_List_filter. apply list_elem_of_lookup in I as [j L]. apply lookup_take_Some in L as [L _]. by apply list_elem_of_lookup_2 in L. }
  assert (keyed (pg :: qs)) as K.
  { intros q [->|Iq]%elem_of_cons; [destruct (guard_pattern _ _ _ Eg) as [-> _]; eauto|].
    destruct (positive_elem _ _ _ Eq Iq) as [I|(r & rargs & I & _)].
    - apply Sub, (rp_body rule Rp) in I as (k & ? & _). eauto.
    - apply elem_of_List_filter in I as [N _]. done. }
  pose proof (choice_plain J _ ∅ b PJ K plain_row_empty C) as Pb.
  apply exprs_filter in X as ->.
  2: { intros e out I. cbn in I. apply elem_of_List_filter in I as [_ I]. by apply Sub, (rp_body rule Rp) in I. }
  apply list_elem_of_lookup_2, (rp_body rule Rp) in Ic as [_ Pa].
  apply head_instance in Hf as [Ha Hv]; [|done|].
  { unfold tuple. cbn [fst snd]. rewrite Ha. split; [apply magic_name_magic|done]. }
  intros a Ia%bound_args_elem. by apply Pa.
Qed.

(** Rules registered one after the other. *)
Lemma registered l r0 p rule : rule ∈ get_rules (foldl (λ r '(p, rule), register_rule_unchecked r p rule) r0 l) p →
  rule ∈ get_rules r0 p ∨ (p, rule) ∈ l.
Proof.
  clear. revert r0; induction l as [|[q r] l IH]; intros r0 I; [by left|]. cbn [foldl] in I.
  apply IH in I as [I|I]; [|right; by right]. unfold get_rules, register_rule_unchecked in I.
  destruct (decide (q = p)) as [->|N].
  - rewrite lookup_insert_eq in I. cbn in I. apply elem_of_app in I as [I| ->%list_elem_of_singleton]; [by left|].
    right. left.
  - rewrite lookup_insert_ne in I by done. by left.
Qed.

Definition all_rules (rules : gmap string (list Rule)) : list Rule := flat_map snd (map_to_list rules).
Lemma all_rules_elem rules rule : rule ∈ all_rules rules ↔ ∃ p, rule ∈ get_rules rules p.
Proof.
  clear. unfold all_rules, get_rules. rewrite elem_of_flat_map. split.
  - intros ([p rs] & E%elem_of_map_to_list & I). exists p. by rewrite E.
  - intros (p & I). destruct (rules !! p) as [rs|] eqn:E; [|by apply elem_of_nil in I].
    exists (p, rs). split; [by apply elem_of_map_to_list|done].
Qed.

Section registries.
Context (rule_order : gmap string (list Rule) → list (string * list Rule)).
Context (rule_order_perm : ∀ m, rule_order m ≡ₚ map_to_list m).

Lemma rewritten_model rules adorned base seeds I :
  (∀ rule, rule ∈ all_rules rules → rule_plain rule) → plain_set I → model (all_rules rules) base I →
  (∀ t, t ∈ tuple <$> seeds → is_magic t.1.2 = true ∧ plain_value t.2 = true) →
  model (all_rules (build_rewritten_registry rule_order rules adorned)) (base ++ seeds) (with_magic I).
Proof using rule_order_perm.
  intros Rp PI [Mb Mc] Sd. split.
  - intros t T. unfold tuples in T. rewrite fmap_app in T. apply elem_of_app in T as [T|T]; [left|right]; auto.
  - intros rule t (p & Ir)%all_rules_elem D. apply registered in Ir as [Ir|[Ir|Ir]%elem_of_app].
    + unfold get_rules, registry_new in Ir. rewrite lookup_empty in Ir. by apply elem_of_nil in Ir.
    + left. apply elem_of_flat_map in Ir as ([q rs] & Iq & Ir). rewrite rule_order_perm in Iq.
      apply list_elem_of_fmap in Ir as (r & E & Ir). injection E as <- ->.
      assert (r ∈ all_rules rules) as Ar by (apply elem_of_flat_map; by exists (p, rs)).
      apply (Mc r); [done|]. destruct (adorned !! p) as [ad|].
      * by apply (guarded_sound I r p ad), D; [|apply Rp].
      * apply plain_sound; [done|by apply Rp|done].
    + right. apply elem_of_flat_map in Ir as ([q rs] & Iq & Ir). rewrite rule_order_perm in Iq.
      destruct (adorned !! q); [|by apply elem_of_nil in Ir]. apply elem_of_flat_map in Ir as (r & Irs & Ir).
      assert (r ∈ all_rules rules) as Ar by (apply elem_of_flat_map; by exists (q, rs)).
      eapply (propagation_sound (with_magic I) r); [by apply with_magic_plain|by apply Rp|exact Ir|exact D].
Qed.
End registries.
End soundness.

Definition seed_facts (seeds : list (EntityId * string * Value)) : list Fact :=
  (λ '(e, a, v), fact_new e a v 0) <$> seeds.

Lemma seeds_magic parse_str new_v5_oid new_v4 clauses adorned t :
  (∀ pred args a, RuleInvocation pred args ∈ clauses → a ∈ args → arg_plain a) →
  t ∈ tuple <$> seed_facts (build_seed_facts parse_str new_v5_oid new_v4 clauses adorned) →
  is_magic t.1.2 = true ∧ plain_value t.2 = true.
Proof.
  intros Pa. unfold seed_facts. rewrite <-list_fmap_compose. intros ([[e a] v] & -> & I)%list_elem_of_fmap.
  unfold build_seed_facts in I. apply list_elem_of_omap in I as ([i c] & Ic & E). unfold seed_fact in E.
  apply elem_of_enumerate, list_elem_of_lookup_2 in Ic.
  destruct c as [|pred args| | | | |]; try done. apply bind_Some in E as (ad & _ & E).
  destruct (has_bound_arg ad); [|done]. repeat case_bool_decide; try done.
  - apply bind_Some in E as (a0 & _ & E). apply bind_Some in E as (u & _ & E). injection E as <- <- <-.
    split; [apply magic_name_magic|done].
  - apply bind_Some in E as (a1 & L & E). apply bind_Some in E as (w & W & E). injection E as <- <- <-.
    split; [apply magic_name_magic|]. cbn. apply (Pa pred args a1); [done|by apply list_elem_of_lookup_2 in L|].
    by destruct (edn_to_value a1); simplify_eq/=.
Qed.

(** The magic-sets rewrite adds no answer.  For rules whose bodies are patterns
    with constant attributes, invocations and filters, whose head variables occur
    in the body, over values that are neither floats nor keywords: evaluating
    the rewritten rules with the seed facts derives, apart from the magic
    predicates themselves, only facts that are in every model of the original
    rules. *)
Theorem magic_sets_sound parse_str new_v5_oid uuid_to_string is_match registry hasher clock
    adornment_order rule_order new_v4 q rules rules' seeds base I U limits storage predicates s :
  (∀ m, rule_order m ≡ₚ map_to_list m) →
  rewrite adornment_order rule_order parse_str new_v5_oid new_v4 q rules = Some (rules', seeds) →
  (∀ rule, rule ∈ all_rules rules → rule_plain rule) →
  (∀ pred args a, RuleInvocation pred args ∈ q_where q → a ∈ args → arg_plain a) →
  is_model parse_str new_v5_oid is_match registry (all_rules rules) base I → plain_set I →
  universe parse_str new_v5_oid U →
  (∀ rule, rule ∈ flat_map (get_rules rules') predicates → rule_ok parse_str new_v5_oid is_match registry U rule) →
  0 ≤ max_results limits →
  Z.of_nat (length (base ++ seed_facts seeds)) + max_results limits ≤ 2 ^ 32 →
  get_asserted_facts storage = Ok (base ++ seed_facts seeds) → facts_in U (base ++ seed_facts seeds) →
  evaluate_recursive_rules parse_str new_v5_oid uuid_to_string is_match hasher clock rules' registry limits
    storage predicates = Ok s →
  ∃ facts, get_asserted_facts s = Ok facts ∧ ∀ t, tuples facts t → is_magic t.1.2 = false → I t.
Proof.
  intros Ro Rw Rp Pa M PI HU Hok Hl Hroom Hs Hin Ev.
  pose proof (least_model_lemma parse_str new_v5_oid uuid_to_string is_match registry hasher clock U rules'
    predicates limits storage _ HU Hok Hl Hroom Hs Hin) as L. rewrite Ev in L.
  destruct L as (facts & G & _ & Least). exists facts. split; [done|]. intros t T N.
  assert (with_magic I t) as [?|[X _]]; [|done|congruence]. apply (Least (with_magic I)); [|done].
  unfold rewrite in Rw. case_bool_decide; [done|]. destruct (negb _); [done|].
  apply bind_Some in Rw as (adorned & _ & Rw).
  assert (rules' = build_rewritten_registry rule_order rules adorned ∧
          seeds = build_seed_facts parse_str new_v5_oid new_v4 (q_where q) adorned) as [-> ->].
  { destruct (build_seed_facts parse_str new_v5_oid new_v4 (q_where q) adorned); [done|]. by injection Rw as <- <-. }
  destruct (rewritten_model parse_str new_v5_oid is_match registry rule_order Ro rules adorned base
    (seed_facts (build_seed_facts parse_str new_v5_oid new_v4 (q_where q) adorned)) I Rp PI M) as [Mb Mc].
  { intros t'. by apply seeds_magic. }
  split; [done|]. intros rule t' (p & _ & Ip)%elem_of_flat_map. apply Mc, all_rules_elem. by exists p.
Qed.

(** * Reachability from one node *)

Definition from_one : DatalogQuery :=
  query_new [FVariable "?x"] [RuleInvocation "reach" [EUuid 1; ESymbol "?x"]].
Definition rewritten (q : DatalogQuery) (rules : gmap string (list Rule))
    : option (gmap string (list Rule) * list (EntityId * string * Value)) :=
  rewrite map_to_list map_to_list no_uuid v5_stub (λ i, 100 + Z.of_nat i) q rules.
Definition load_seeds (s : FactStorage) (seeds : list (EntityId * string * Value)) : FactStorage :=
  foldl (λ s f, (load_fact const_hasher s f).1) s (seed_facts seeds).
Definition guard_rule (rule : Rule) : Rule :=
  mkRule (rule_head rule) (RuleInvocation "__magic_reach_bf" [ESymbol "?x"] :: rule_body rule).
Definition demand_rule : Rule := mkRule
  [ESymbol "__magic_reach_bf"; ESymbol "?y"]
  [RuleInvocation "__magic_reach_bf" [ESymbol "?x"];
   CPattern (pattern_new (ESymbol "?x") (EKeyword ":edge") (ESymbol "?y"))].
Definition demand_rules : gmap string (list Rule) :=
  <["__magic_reach_bf"%string := [demand_rule]]> {["reach"%string := [guard_rule edge_rule; guard_rule path_rule]]}.
Lemma reach_rewritten :
  rewritten from_one reach_rules = Some (demand_rules, [(1, ":__magic_reach_bf"%string, VBoolean true)]).
Proof. vm_compute. reflexivity. Qed.

Definition demand_preds : list string := ["reach"; "__magic_reach_bf"]%string.
Lemma demand_rule_ok rule : rule ∈ flat_map (get_rules demand_rules) demand_preds →
  rule_ok no_uuid v5_stub (λ _ _, false) with_builtins plain rule.
Proof.
  intros I. assert (rule ∈ [guard_rule edge_rule; guard_rule path_rule; demand_rule]) as I' by by vm_compute in I |- *.
  rewrite !elem_of_cons, elem_of_nil in I'. clear I. destruct I' as [->|[->|[->|[]]]].
  all: eapply plain_rule_ok; [apply plain_universe|done|done|done|reflexivity|..].
  all: try by (intros e out; cbn; rewrite !elem_of_cons, elem_of_nil; naive_solver).
  all: try by (intros h; cbn; rewrite !elem_of_cons, elem_of_nil; intros [->|[->|[]]]; split; by cbn).
  all: try by (intros h; cbn; rewrite !elem_of_cons, elem_of_nil; intros [->|[]]; split; by cbn).
  all: intros p; rewrite !elem_of_cons, elem_of_nil; intuition subst.
  all: split; [by eexists|apply (bool_decide_unpack _); vm_compute; exact I].
Qed.
Lemma reach_rule_plain rule : rule ∈ all_rules reach_rules → rule_plain rule.
Proof.
  intros I. assert (rule ∈ [edge_rule; path_rule]) as I' by by vm_compute in I |- *.
  rewrite !elem_of_cons, elem_of_nil in I'. clear I. destruct I' as [->|[->|[]]]; split.
  - intros c ->%list_elem_of_singleton. by exists ":edge"%string.
  - intros ps h x [= <-] Ih X. eexists. split; [left|]. cbn in Ih. rewrite !elem_of_cons, elem_of_nil in Ih.
    destruct Ih as [->|[->|[]]]; apply list_elem_of_singleton in X as ->; apply list_elem_of_In; vm_compute; auto.
  - intros c. cbn. rewrite !elem_of_cons, elem_of_nil. intros [->|[->|[]]]; [by exists ":edge"%string|].
    split; [done|]. intros a. rewrite !elem_of_cons, elem_of_nil. intros [->|[->|[]]]; intros v [=].
  - intros ps h x [= <-] Ih X. cbn in Ih. rewrite !elem_of_cons, elem_of_nil in Ih.
    destruct Ih as [->|[->|[]]]; apply list_elem_of_singleton in X as ->.
    + eexists. split; [left|]. apply list_elem_of_In; vm_compute; auto.
    + eexists. split; [right; left|]. apply list_elem_of_In; vm_compute; auto.
Qed.

Definition run_demand : result (list (EntityId * string * Value)) :=
  s ← evaluate_recursive_rules no_uuid v5_stub print_stub (λ _ _, false) const_hasher (λ _, 7)
        demand_rules with_builtins sample_limits (load_seeds edges_store [(1, ":__magic_reach_bf"%string, VBoolean true)])
        demand_preds;
  facts ← get_asserted_facts s;
  Ok (List.map tuple facts).
Lemma demanded : run_demand =
  Ok [(1, ":edge", VRef 2); (2, ":edge", VRef 3); (1, ":__magic_reach_bf", VBoolean true);
      (1, ":reach", VRef 2); (2, ":__magic_reach_bf", VBoolean true); (2, ":reach", VRef 3);
      (3, ":__magic_reach_bf", VBoolean true); (1, ":reach", VRef 3)]%string.
Proof. vm_compute. reflexivity. Qed.

(** The two edges with what they reach are a model of the original rules. *)
Lemma reach_model : ∃ facts,
  is_model no_uuid v5_stub (λ _ _, false) with_builtins (all_rules reach_rules) edge_facts (tuples facts) ∧
  plain_set (tuples facts).
Proof.
  pose proof (least_model_lemma no_uuid v5_stub print_stub (λ _ _, false) with_builtins const_hasher (λ _, 7)
    plain reach_rules ["reach"%string] sample_limits edges_store edge_facts plain_universe reach_rule_ok) as H.
  pose proof reached as X. unfold reached_tuples in X.
  revert H X. destruct (evaluate_recursive_rules _ _ _ _ _ _ _ _ _ _ _) as [s|e]; [|by intros ? [=]].
  intros H X. destruct H as (facts & G & M & _); [done|done|by vm_compute| |].
  { intros t. unfold tuples. cbn. rewrite !elem_of_cons, elem_of_nil. by intros [->|[->|[]]]. }
  cbn [mbind result_bind] in X. rewrite G in X. injection X as X. exists facts. split; [exact M|].
  intros t T. unfold tuples in T. change (t ∈ List.map tuple facts) in T. rewrite X in T.
  rewrite !elem_of_cons, elem_of_nil in T. naive_solver.
Qed.

Lemma seeded_in : facts_in plain (edge_facts ++ seed_facts [(1, ":__magic_reach_bf"%string, VBoolean true)]).
Proof. intros t. unfold tuples. cbn. rewrite !elem_of_cons, elem_of_nil. by intros [->|[->|[->|[]]]]. Qed.

Lemma magic_sets_sound_witness :
  ∃ s facts I,
    evaluate_recursive_rules no_uuid v5_stub print_stub (λ _ _, false) const_hasher (λ _, 7)
      demand_rules with_builtins sample_limits (load_seeds edges_store [(1, ":__magic_reach_bf"%string, VBoolean true)])
      demand_preds = Ok s ∧
    get_asserted_facts s = Ok facts ∧ length facts = 8%nat ∧
    is_model no_uuid v5_stub (λ _ _, false) with_builtins (all_rules reach_rules) edge_facts I ∧
    ∀ t, tuples facts t → is_magic t.1.2 = false → I t.
Proof.
  destruct reach_model as (known & M & PI).
  pose proof demanded as X. unfold run_demand in X. apply bind_Ok in X as (s & Ev & X).
  destruct (magic_sets_sound no_uuid v5_stub print_stub (λ _ _, false) with_builtins const_hasher (λ _, 7)
    map_to_list map_to_list (λ i, 100 + Z.of_nat i) from_one reach_rules demand_rules
    [(1, ":__magic_reach_bf"%string, VBoolean true)] edge_facts (tuples known) plain sample_limits
    (load_seeds edges_store [(1, ":__magic_reach_bf"%string, VBoolean true)]) demand_preds s)
    as (facts & G & T).
  - intros m. reflexivity.
  - exact reach_rewritten.
  - exact reach_rule_plain.
  - intros pred args a [= -> ->]%list_elem_of_singleton. rewrite !elem_of_cons, elem_of_nil.
    intros [->|[->|[]]]; intros v [=]; by subst.
  - exact M.
  - exact PI.
  - exact plain_universe.
  - exact demand_rule_ok.
  - cbn. lia.
  - vm_compute. discriminate.
  - vm_compute. reflexivity.
  - exact seeded_in.
  - exact Ev.
  - exists s, facts, (tuples known). split; [exact Ev|]. split; [exact G|]. split; [|split; [exact M|exact T]].
    rewrite G in X. injection X as X.
    apply (f_equal length) in X. by rewrite length_map in X.
Defined.

(** * Where the rewrite loses answers *)

Definition evaluate_rewritten (q : DatalogQuery) (rules : gmap string (list Rule))
    : result (list (EntityId * string * Value)) :=
  match rewritten q rules with
  | None => Err "not rewritten"
  | Some (rules', seeds) =>
    s ← evaluate no_uuid v5_stub print_stub (λ _ _, false) const_hasher (λ _, 7) map_to_list map_to_list
          rules' with_builtins sample_limits 9 (load_seeds edges_store seeds)
          ((λ i, i.1) <$> get_rule_invocations q);
    facts ← get_asserted_facts s;
    Ok (List.filter (λ t, negb (is_magic t.1.2)) (List.map tuple facts))
  end.

(** Two invocations of one predicate, the first bound at its first argument and the
    second at its last: only the first one is seeded, and [(reach 2 3)] is missing. *)
Definition both_ends : DatalogQuery :=
  query_new [FVariable "?x"; FVariable "?y"]
    [RuleInvocation "reach" [EUuid 1; ESymbol "?x"]; RuleInvocation "reach" [ESymbol "?y"; EUuid 3]].
Definition left_reach : gmap string (list Rule) :=
  {["reach"%string := [edge_rule; mkRule [ESymbol "reach"; ESymbol "?x"; ESymbol "?z"]
     [RuleInvocation "reach" [ESymbol "?x"; ESymbol "?y"];
      CPattern (pattern_new (ESymbol "?y") (EKeyword ":edge") (ESymbol "?z"))]]]}.
Example second_invocation_unseeded :
  stratified_tuples left_reach "reach" =
    Ok [(1, ":edge", VRef 2); (2, ":edge", VRef 3);
        (1, ":reach", VRef 2); (2, ":reach", VRef 3); (1, ":reach", VRef 3)]%string ∧
  evaluate_rewritten both_ends left_reach =
    Ok [(1, ":edge", VRef 2); (2, ":edge", VRef 3); (1, ":reach", VRef 2); (1, ":reach", VRef 3)]%string.
Proof. split; vm_compute; reflexivity. Qed.

(** A rule that calls its own predicate twice: the demand for the second call
    depends on the first, which the propagation rule leaves out; its head variable is
    unbound and the query fails. *)
Definition doubling_reach : gmap string (list Rule) :=
  {["reach"%string := [edge_rule; mkRule [ESymbol "reach"; ESymbol "?x"; ESymbol "?z"]
     [RuleInvocation "reach" [ESymbol "?x"; ESymbol "?y"]; RuleInvocation "reach" [ESymbol "?y"; ESymbol "?z"]]]]}.
Example propagation_unbound :
  stratified_tuples doubling_reach "reach" =
    Ok [(1, ":edge", VRef 2); (2, ":edge", VRef 3);
        (1, ":reach", VRef 2); (2, ":reach", VRef 3); (1, ":reach", VRef 3)]%string ∧
  evaluate_rewritten from_one doubling_reach = Err "Unbound variable in rule head: ?y".
Proof. split; vm_compute; reflexivity. Qed.
