(* ===== verification/Executor.v ===== *)
(** Executing commands (src/src/query/datalog/executor.rs): the executor with its
    limits, [transact] and [retract] commands, queries with and without rules, and
    rule registration.

    The executor owns a fact store and the two registries; a command returns the
    executor after it.  The empty planning indexes the source carries are left out.
    [clock i] is the [i]-th reading of the wall clock during a command; the orders
    in which hash maps and sets are iterated are parameters.  A key of an exclusion
    set, a vector of a row's entries sorted by name, is the row itself. *)
From S2P Require Import Prelude Types ValueCodec Floats HashKeys NetView SortedRuns Index PendingOverlay FactStore Lookup MergeScan CurrentState IndexScan Cursors QueryTypes Functions Expressions Matcher AccessPlan JoinOrder Optimizer Branches Aggregation Stratification Evaluator LeastModel MagicSets.
Set Default Proof Using "Type".

Inductive QueryResult : Type :=
| Transacted (tx : Types.TxId)
| Retracted (tx : Types.TxId)
| Forgotten (tx : option Types.TxId) (count : Z)
| QueryResults (vars : list string) (results : list (list Value))
| ROk.

Definition DEFAULT_MAX_DERIVED_FACTS : Z := 1000000.
Definition DEFAULT_MAX_RESULTS : Z := 1000000.

Record DatalogExecutor : Type := mkExecutor {
  ex_storage : FactStorage;
  facts_override : option (list Fact);
  read_now_floor : option Z;
  ex_rules : gmap string (list Rule);
  functions : FunctionRegistry;
  ex_max_derived_facts : Z;
  ex_max_results : Z;
  max_output_results : Z;
}.
Definition executor_new_with_rules_and_functions (s : FactStorage) (rules : gmap string (list Rule))
    (fns : FunctionRegistry) : DatalogExecutor :=
  mkExecutor s None None rules fns DEFAULT_MAX_DERIVED_FACTS DEFAULT_MAX_RESULTS DEFAULT_MAX_RESULTS.
Definition executor_new (s : FactStorage) : DatalogExecutor :=
  executor_new_with_rules_and_functions s registry_new with_builtins.
Definition executor_new_with_rules (s : FactStorage) (rules : gmap string (list Rule)) : DatalogExecutor :=
  executor_new_with_rules_and_functions s rules with_builtins.
Definition new_from_facts_with_rules_and_functions (facts : list Fact) (floor : option Z)
    (rules : gmap string (list Rule)) (fns : FunctionRegistry) : DatalogExecutor :=
  mkExecutor storage_new (Some facts) floor rules fns DEFAULT_MAX_DERIVED_FACTS DEFAULT_MAX_RESULTS DEFAULT_MAX_RESULTS.
Definition new_with_limits (s : FactStorage) (rules : gmap string (list Rule)) (fns : FunctionRegistry)
    (max_derived max_res : Z) : DatalogExecutor :=
  mkExecutor s None None rules fns max_derived max_res max_res.
Definition set_limits (ex : DatalogExecutor) (max_derived max_res : Z) : DatalogExecutor :=
  mkExecutor (ex_storage ex) (facts_override ex) (read_now_floor ex) (ex_rules ex) (functions ex)
    max_derived max_res max_res.
Definition set_output_limit (ex : DatalogExecutor) (max_output : Z) : DatalogExecutor :=
  mkExecutor (ex_storage ex) (facts_override ex) (read_now_floor ex) (ex_rules ex) (functions ex)
    (ex_max_derived_facts ex) (ex_max_results ex) max_output.
Definition with_storage (ex : DatalogExecutor) (s : FactStorage) : DatalogExecutor :=
  mkExecutor s (facts_override ex) (read_now_floor ex) (ex_rules ex) (functions ex)
    (ex_max_derived_facts ex) (ex_max_results ex) (max_output_results ex).
Definition with_rules (ex : DatalogExecutor) (rules : gmap string (list Rule)) : DatalogExecutor :=
  mkExecutor (ex_storage ex) (facts_override ex) (read_now_floor ex) rules (functions ex)
    (ex_max_derived_facts ex) (ex_max_results ex) (max_output_results ex).

(** The clock, not below the newest staged fact of an overlay. *)
Definition read_now (ex : DatalogExecutor) (tx_id_now : Z) : Z :=
  let now := cast_signed tx_id_now in
  match read_now_floor ex with Some floor => Z.max now floor | None => now end.

Definition query_uses_per_fact_pseudo_attr (q : DatalogQuery) : bool := clauses_use_per_fact_pseudo_attr (q_where q).

Definition effective_max_results (ex : DatalogExecutor) (q : DatalogQuery) : Z :=
  default (ex_max_results ex) (q_max_results q).
Definition effective_max_output_results (ex : DatalogExecutor) (q : DatalogQuery) : Z :=
  Z.min (effective_max_results ex q) (max_output_results ex).

Definition PSEUDO_NEEDS_ANY : string :=
  "temporal pseudo-attributes :db/valid-from, :db/valid-to, :db/tx-count, and :db/tx-id require :any-valid-time; add :any-valid-time to your query".
Definition NO_BINDING : string :=
  "query has no :where clause, rules, or aggregates — nothing binds the variables. Add a :where clause (e.g., [:find ?e ?a ?v :where [?e ?a ?v]]) or use an aggregate.".
Definition is_any_valid_time (v : option NetView.ValidAt) : bool :=
  match v with Some AnyValidTime => true | _ => false end.

(** The value of [:db/valid-at], and the demand of per-fact pseudo-attributes. *)
Definition query_time (q : DatalogQuery) (now : Z) : result Value :=
  valid_at_value ← valid_at_binding now (q_valid_at q);
  _ ← ensure (negb (query_uses_per_fact_pseudo_attr q && negb (is_any_valid_time (q_valid_at q)))) PSEUDO_NEEDS_ANY;
  Ok valid_at_value.

(** * Aggregates over one attribute *)

Definition component_var (c : EdnValue) : option string :=
  match c with
  | ESymbol var => if String.prefix "?" var && negb (String.prefix "?_" var) then Some var else None
  | _ => None
  end.
Definition unconstrained (c : EdnValue) : bool :=
  match c with ESymbol var => bool_decide (var = "_"%string) || String.prefix "?" var | _ => false end.

Definition owned_attribute_aggregate (q : DatalogQuery) : option (string * option string * option string) :=
  match q_where q with
  | [CPattern p] =>
    if existsb is_window (q_find q) || negb (existsb is_aggregate (q_find q)) then None
    else match pat_attribute p with
         | Real (EKeyword attribute) =>
           if negb (unconstrained (pat_entity p)) || negb (unconstrained (pat_value p)) then None
           else
             let entity_var := component_var (pat_entity p) in
             let value_var := component_var (pat_value p) in
             if forallb (λ var, bool_decide (Some var = entity_var) || bool_decide (Some var = value_var))
                  ((find_var <$> q_find q) ++ q_with_vars q)
             then Some (attribute, entity_var, value_var) else None
         | _ => None
         end
  | _ => None
  end.

Definition current_valid_time (q : DatalogQuery) (now : Z) : CurrentValidTime :=
  match q_valid_at q with
  | Some AnyValidTime => Any
  | Some (ValidAtTimestamp t) => At t
  | _ => At now
  end.

(** The visitor: count the rows, skip a row whose two positions must agree and do
    not, feed the rest to the sink. *)
Definition push_visited (entity_var value_var : option string) (sink : AggregationSink) (e : EntityId) (v : Value)
    : result AggregationSink :=
  if bool_decide (entity_var = value_var) && negb (value_eq (VRef e) v) then Ok sink
  else push_values sink (λ var, if bool_decide (Some var = entity_var) then Some (VRef e)
                                else if bool_decide (Some var = value_var) then Some v else None).
Definition visit_aggregate (max_res : Z) (entity_var value_var : option string)
    (st : Z * AggregationSink) (row : EntityId * Value) : result (Z * AggregationSink) :=
  let '(visited, sink) := st in
  let visited := sat_add_u64 visited 1 in
  if max_res <? visited then Err TOO_MANY
  else sink ← push_visited entity_var value_var sink row.1 row.2; Ok (visited, sink).

Definition execute_owned_aggregate (ex : DatalogExecutor) (q : DatalogQuery) (now : Z)
    (attribute : string) (entity_var value_var : option string) : result QueryResult :=
  let sink := sink_new (q_find q) (q_with_vars q) (functions ex) in
  '(_, sink) ← visit_current_attribute_values (ex_storage ex) attribute (q_as_of q) (current_valid_time q now)
                 (visit_aggregate (effective_max_results ex q) entity_var value_var) (0, sink);
  finished ← sink_finish sink;
  _ ← ensure (Z.of_nat (length finished) <=? effective_max_output_results ex q) RESULT_LIMIT;
  Ok (QueryResults (display_name <$> q_find q) (project_find_specs finished (q_find q))).

Section executor.
Context (parse_str : string → option Z) (new_v5_oid : string → Z) (uuid_to_string : Z → string).
Context (is_match : string → string → bool).

(** * Transactions *)

Definition opts_of (valid_from valid_to : option Z) : option TransactOptions :=
  match valid_from, valid_to with
  | None, None => None
  | _, _ => Some {| opt_valid_from := valid_from; opt_valid_to := valid_to |}
  end.
Definition map_err {A} (r : result A) (context : string) : result A :=
  match r with Ok a => Ok a | Err e => Err (context +:+ e) end.
Definition command_tuple (p : Pattern) : result (EntityId * Attribute * Value * option TransactOptions) :=
  entity_id ← map_err (edn_to_entity_id parse_str new_v5_oid (pat_entity p)) "Invalid entity: ";
  attribute ← match pat_attribute p with
              | Real (EKeyword k) => Ok k
              | Real _ => Err "Attribute must be a keyword"
              | Pseudo _ => Err "Cannot transact a pseudo-attribute"
              end;
  value ← map_err (edn_to_value (pat_value p)) "Invalid value: ";
  Ok (entity_id, attribute, value, opts_of (pat_valid_from p) (pat_valid_to p)).

Section writes.
Context (hasher : EavtKey → Z).
Definition execute_transact (ex : DatalogExecutor) (tx_id_now : Types.TxId) (tx : Transaction)
    : DatalogExecutor * result QueryResult :=
  match mapR command_tuple (tx_facts tx) with
  | Err e => (ex, Err e)
  | Ok fact_tuples =>
    match transact_batch hasher tx_id_now (ex_storage ex) fact_tuples (opts_of (tx_valid_from tx) (tx_valid_to tx)) with
    | (s, Ok (tx_id, _)) => (with_storage ex s, Ok (Transacted tx_id))
    | (s, Err e) => (with_storage ex s, Err ("Transaction failed: " +:+ e))
    end
  end.
Definition execute_retract (ex : DatalogExecutor) (tx_id_now : Types.TxId) (tx : Transaction)
    : DatalogExecutor * result QueryResult :=
  match mapR command_tuple (tx_facts tx) with
  | Err e => (ex, Err e)
  | Ok fact_tuples =>
    match retract_batch hasher tx_id_now (ex_storage ex) fact_tuples (opts_of (tx_valid_from tx) (tx_valid_to tx)) with
    | (s, Ok (tx_id, _)) => (with_storage ex s, Ok (Retracted tx_id))
    | (s, Err e) => (with_storage ex s, Err ("Retraction failed: " +:+ e))
    end
  end.
End writes.

(** * The facts of a query *)

Definition query_source (ex : DatalogExecutor) (q : DatalogQuery) (max_res : Z) : result (list Fact) :=
  match facts_override ex with
  | Some facts => if max_res <? Z.of_nat (length facts) then Err TOO_MANY else Ok facts
  | None => read_facts_bounded (for_query parse_str new_v5_oid q) (ex_storage ex) max_res
  end.
Definition query_facts (ex : DatalogExecutor) (q : DatalogQuery) (max_res now : Z) : result (list Fact) :=
  source ← query_source ex q max_res;
  filter_facts_for_query now (q_as_of q) (q_valid_at q) source.

(** * Negation in the body of a query *)

Section negation.
(** The iteration order of a hash set of rows. *)
Context (set_order : list (gmap string Value) → list (gmap string Value)).
Context (facts : list Fact) (valid_at_value : Value) (registry : FunctionRegistry) (max_res : Z).

Definition has_expr (body : list WhereClause) : bool := existsb is_expr body.
Definition normal_row (b : gmap string Value) : gmap string Value := normalize_join_value parse_str new_v5_oid <$> b.

(** The rows of a body without the incoming bindings; [None] for a body of
    expressions only. *)
Definition body_rows (body : list WhereClause) : result (option (list (gmap string Value))) :=
  match patterns_of body with
  | [] => Ok None
  | patterns =>
    rows ← match_patterns_bounded parse_str new_v5_oid uuid_to_string
             (from_slice_with_valid_at_and_metadata facts valid_at_value (clauses_use_per_fact_pseudo_attr body))
             patterns [∅] max_res;
    Ok (Some rows)
  end.

Definition NotExclusionEntry : Type := option (bool * list (gmap string Value)).
Definition not_exclusion (body : list WhereClause) : result NotExclusionEntry :=
  rows ← body_rows body;
  Ok match rows with
     | None => None
     | Some rows => Some (has_expr body, List.map (λ b : gmap string Value, normal_row (filter (λ e, is_hidden e.1 = false) b)) rows)
     end.
Definition NotJoinExclusionEntry : Type := option (bool * list string * list (gmap string Value)).
Definition not_join_exclusion (join_vars : list string) (body : list WhereClause) : result NotJoinExclusionEntry :=
  rows ← body_rows body;
  Ok match rows with
     | None => None
     | Some [] => Some (has_expr body, join_vars, [])
     | Some rows =>
       let key_vars := List.filter (λ v, forallb (λ b, bool_decide (is_Some (b !! v))) rows) join_vars in
       Some (has_expr body, key_vars, List.map (λ b : gmap string Value, normal_row (filter (λ e, e.1 ∈ key_vars) b)) rows)
     end.

Definition contains_key (set : list (gmap string Value)) (key : gmap string Value) : bool :=
  existsb (row_key_eq key) set.

(** Whether a [not] body excludes a row. *)
Definition not_excludes (b : gmap string Value) (body : list WhereClause) (entry : NotExclusionEntry) : result bool :=
  let slow := not_body_matches parse_str new_v5_oid uuid_to_string is_match facts valid_at_value registry body b in
  match entry with
  | None => slow
  | Some (has_expr, set) =>
    if has_expr then slow
    else match set_order set with
         | [] => Ok false
         | sample :: _ =>
           let key := normal_row (filter (λ e, e.1 ∈ dom sample) b) in
           if bool_decide (dom key = dom sample) then Ok (contains_key set key) else slow
         end
  end.
Definition not_join_excludes (b : gmap string Value) (join_vars : list string) (body : list WhereClause)
    (entry : NotJoinExclusionEntry) : result bool :=
  let slow := evaluate_not_join parse_str new_v5_oid uuid_to_string is_match facts registry join_vars body b in
  match entry with
  | None => slow
  | Some (has_expr, key_vars, set) =>
    if has_expr then slow
    else match key_vars with
         | [] => Ok (negb (bool_decide (set = [])))
         | _ =>
           if forallb (λ v, bool_decide (is_Some (b !! v))) key_vars
           then Ok (contains_key set (normal_row (filter (λ e, e.1 ∈ key_vars) b)))
           else slow
         end
  end.

Definition apply_negation (clauses : list WhereClause) (rows : list (gmap string Value))
    : result (list (gmap string Value)) :=
  let nots := sorted_not_bodies clauses in
  let not_joins := sorted_not_join_bodies clauses in
  match nots, not_joins with
  | [], [] => Ok rows
  | _, _ =>
    not_sets ← mapR not_exclusion nots;
    not_join_sets ← mapR (λ '(vars, body), not_join_exclusion vars body) not_joins;
    filterR (λ b,
      hit ← anyR (λ '(body, entry), not_excludes b body entry) (zip nots not_sets);
      if hit : bool then Ok false
      else
        hit ← anyR (λ '((vars, body), entry), not_join_excludes b vars body entry) (zip not_joins not_join_sets);
        Ok (negb hit)) rows
  end.
End negation.

(** * Queries *)

Definition plan_clauses (q : DatalogQuery) : list WhereClause :=
  List.filter (λ c, match c with CPattern _ | CExpr _ _ => true | _ => false end) (q_where q).

(** Everything after the facts: planned clauses, disjunctions, then [negate], then
    the projection. *)
Definition run_query (ex : DatalogExecutor) (q : DatalogQuery) (now : Z) (valid_at_value : Value) (facts : list Fact)
    (planned : list (WhereClause * option IndexHint))
    (negate : list (gmap string Value) → result (list (gmap string Value))) : result QueryResult :=
  let max_res := effective_max_results ex q in
  let m := from_slice_with_valid_at_and_metadata facts valid_at_value (query_uses_per_fact_pseudo_attr q) in
  rows ← run_planned_bounded parse_str new_v5_oid uuid_to_string is_match m (functions ex) max_res planned;
  rows ← apply_or_clauses parse_str new_v5_oid uuid_to_string is_match facts now (q_valid_at q) (functions ex) max_res
           (q_where q) rows;
  rows ← negate rows;
  results ← apply_post_processing_bounded rows (q_find q) (q_with_vars q) (functions ex)
              (effective_max_output_results ex q);
  Ok (QueryResults (display_name <$> q_find q) results).

Section queries.
Context (set_order : list (gmap string Value) → list (gmap string Value)).
Context (clock : nat → Z).

Definition execute_plain_query (ex : DatalogExecutor) (q : DatalogQuery) : result QueryResult :=
  _ ← ensure (has_binding_mechanism q) NO_BINDING;
  let now := read_now ex (clock 0) in
  valid_at_value ← query_time q now;
  match owned_attribute_aggregate q with
  | Some (attribute, entity_var, value_var) => execute_owned_aggregate ex q now attribute entity_var value_var
  | None =>
    let max_res := effective_max_results ex q in
    facts ← query_facts ex q max_res (read_now ex (clock 1));
    _ ← validate_predicates (functions ex) (q_where q);
    run_query ex q (clock 2) valid_at_value facts (plan (plan_clauses q))
      (apply_negation set_order facts valid_at_value (functions ex) max_res (q_where q))
  end.

(** ** With rules *)

Fixpoint rule_plan_clauses (clauses : list WhereClause) : result (list WhereClause) :=
  match clauses with
  | [] => Ok []
  | c :: clauses =>
    head ← match c with
           | CPattern _ | CExpr _ _ => Ok [c]
           | RuleInvocation predicate args =>
             p ← rule_invocation_to_pattern predicate args; Ok [CPattern p]
           | _ => Ok []
           end;
    rest ← rule_plan_clauses clauses;
    Ok (head ++ rest)
  end.

(** The patterns of a [not] body next to rules. *)
Definition rule_query_not_pattern (b : gmap string Value) (c : WhereClause) : option Pattern :=
  match c with
  | CPattern p => Some (substitute_pattern p b)
  | RuleInvocation predicate args =>
    let resolved :=
      (λ a, match a with
            | ESymbol s => if is_var s then match b !! s with Some v => matcher_value_to_edn v | None => a end else a
            | _ => a
            end) <$> args in
    p ← ok_option (rule_invocation_to_pattern predicate resolved);
    Some (substitute_pattern p b)
  | _ => None
  end.
Definition is_per_fact_pattern (p : Pattern) : bool :=
  match pat_attribute p with Pseudo ps => is_per_fact ps | Real _ => false end.
Definition rule_query_not_matches (facts : list Fact) (valid_at_value : Value) (registry : FunctionRegistry)
    (b : gmap string Value) (body : list WhereClause) : result bool :=
  let substituted := omap (rule_query_not_pattern b) body in
  let m := from_slice_with_valid_at_and_metadata facts valid_at_value (existsb is_per_fact_pattern substituted) in
  let rows := match substituted with
              | [] => [b]
              | _ => (λ nb, nb ∪ b) <$> match_patterns parse_str new_v5_oid uuid_to_string m substituted
              end in
  rows ← unwrap_or_default (apply_expr_clauses is_match rows body registry);
  Ok (match rows with [] => false | _ => true end).
Definition apply_rule_negation (facts : list Fact) (valid_at_value : Value) (registry : FunctionRegistry)
    (clauses : list WhereClause) (rows : list (gmap string Value)) : result (list (gmap string Value)) :=
  let nots := sorted_not_bodies clauses in
  let not_joins := sorted_not_join_bodies clauses in
  match nots, not_joins with
  | [], [] => Ok rows
  | _, _ =>
    filterR (λ b,
      hit ← anyR (rule_query_not_matches facts valid_at_value registry b) nots;
      if hit : bool then Ok false
      else
        hit ← anyR (λ '(vars, body),
                 evaluate_not_join parse_str new_v5_oid uuid_to_string is_match facts registry vars body b) not_joins;
        Ok (negb hit)) rows
  end.

Context (hasher : EavtKey → Z) (write_clock : FactStorage → Z).
Context (adornment_order : gmap string (list Ascii.ascii) → list (string * list Ascii.ascii)).
Context (rule_order : gmap string (list Rule) → list (string * list Rule)).
Context (edge_order : gmap string (list (string * bool)) → list (string * list (string * bool))).
Context (new_v4 : nat → EntityId).

(** [storage.load_fact(fact)?] in a loop. *)
Definition load_filtered (s : FactStorage) (facts : list Fact) : result FactStorage :=
  foldR (λ s f, match load_fact hasher s f with (s, Ok _) => Ok s | (_, Err e) => Err e end) s facts.

Definition execute_query_with_rules (ex : DatalogExecutor) (q : DatalogQuery) : result QueryResult :=
  let predicates := fst <$> get_rule_invocations q in
  valid_at_value ← query_time q (read_now ex (clock 0));
  let max_res := effective_max_results ex q in
  filtered_facts ← query_facts ex q max_res (read_now ex (clock 1));
  filtered_storage ← load_filtered storage_new filtered_facts;
  let '(eval_rules, seeds) :=
    match rewrite adornment_order rule_order parse_str new_v5_oid new_v4 q (ex_rules ex) with
    | Some (rules, seeds) => (rules, seeds)
    | None => (ex_rules ex, [])
    end in
  filtered_storage ← load_filtered filtered_storage (seed_facts seeds);
  let limits := mkLimits 1000 (default (ex_max_derived_facts ex) (q_max_derived_facts q)) max_res in
  derived_storage ← evaluate parse_str new_v5_oid uuid_to_string is_match hasher write_clock rule_order edge_order
                      eval_rules (functions ex) limits (clock 2) filtered_storage predicates;
  let derived_facts := match get_asserted_facts derived_storage with Ok facts => facts | Err _ => [] end in
  _ ← validate_predicates (functions ex) (q_where q);
  planned ← rule_plan_clauses (q_where q);
  run_query ex q (clock 3) valid_at_value derived_facts (plan planned)
    (apply_rule_negation derived_facts valid_at_value (functions ex) (q_where q)).

Definition execute_query (ex : DatalogExecutor) (q : DatalogQuery) : result QueryResult :=
  if uses_rules q then execute_query_with_rules ex q else execute_plain_query ex q.

(** * Rules and commands *)

Definition extract_predicate (rule : Rule) : result string :=
  match rule_head rule with
  | [] => Err "Rule head cannot be empty"
  | ESymbol s :: _ => Ok s
  | _ => Err "Rule head must start with a symbol (predicate name)"
  end.
Definition execute_rule (ex : DatalogExecutor) (rule : Rule) : DatalogExecutor * result QueryResult :=
  match extract_predicate rule with
  | Err e => (ex, Err e)
  | Ok predicate =>
    match register_rule rule_order edge_order (ex_rules ex) predicate rule with
    | (rules, Ok _) => (with_rules ex rules, Ok ROk)
    | (rules, Err e) => (with_rules ex rules, Err e)
    end
  end.
Definition execute (ex : DatalogExecutor) (command : DatalogCommand) : DatalogExecutor * result QueryResult :=
  match command with
  | CmdTransact tx => execute_transact hasher ex (clock 0) tx
  | CmdRetract tx => execute_retract hasher ex (clock 0) tx
  | CmdQuery q => (ex, execute_query ex q)
  | CmdRule rule => execute_rule ex rule
  | CmdForget _ => (ex, Err "(forget ...) must run via ViciaDb::execute")
  end.
End queries.
End executor.
