(* ===== verification/Negation.v ===== *)
(** Negation in the body of a query (on src/src/query/datalog/executor.rs): the
    exclusion sets that are computed once per body and the evaluation of a body
    for each row decide alike, and both decide whether the body has a solution
    compatible with the row. *)
From S2P Require Import Prelude Types ValueCodec Floats HashKeys NetView SortedRuns Index PendingOverlay FactStore Lookup MergeScan CurrentState IndexScan Cursors QueryTypes Functions Expressions Matcher AccessPlan JoinOrder Optimizer Branches Aggregation Stratification Evaluator LeastModel MagicSets Executor.
Set Default Proof Using "Type".

(** Values that are found again after substitution: no float, no keyword, no null. *)
Definition firm (v : Value) : bool := match v with VFloat _ | VKeyword _ | VNull => false | _ => true end.
Definition firm_row (b : gmap string Value) : Prop :=
  ∀ x v, b !! x = Some v → firm v = true ∧ is_var x = true ∧ is_wildcard x = false.
Lemma firm_plain v : firm v = true → plain_value v = true.
Proof. by destruct v. Qed.


Lemma compat_empty b : compat b ∅ = true.
Proof. done. Qed.
Lemma compat_singleton b x v : compat b {[x := v]} = match b !! x with Some w => bool_decide (w = v) | None => true end.
Proof. unfold compat. rewrite map_to_list_singleton. cbn. apply andb_true_r. Qed.
Lemma compat_union b d e : d ##ₘ e → compat b (d ∪ e) = compat b d && compat b e.
Proof.
  intros D. apply iff_bool_eq. rewrite andb_true_iff, !compat_true. split.
  - intros H. split; intros x v w B L; apply (H x); try done; apply lookup_union_Some; auto.
  - intros [H1 H2] x v w B [L|L]%lookup_union_Some; eauto.
Qed.
Lemma compat_mono b d d' : d ⊆ d' → compat b d' = true → compat b d = true.
Proof. rewrite !compat_true. intros S H x v w B D. apply (H x); [done|]. by eapply lookup_weaken. Qed.

Lemma List_filter_none {A} (p : A → bool) l : (∀ x, x ∈ l → p x = false) → List.filter p l = [].
Proof. induction l as [|x l IH]; intros H; [done|]. cbn. rewrite (H x) by left. apply IH. intros; apply H; by right. Qed.

Section substitution.
Context (parse_str : string → option Z) (new_v5_oid : string → Z).
#[local] Abbreviation cbinds := (component_binds parse_str new_v5_oid).
#[local] Abbreviation binds := (fact_binds parse_str new_v5_oid).
#[local] Abbreviation sols := (solutions parse_str new_v5_oid).
#[local] Abbreviation ext := (extend parse_str new_v5_oid).

Lemma constant_firm w v : firm w = true → plain_value v = true →
  match_constant parse_str new_v5_oid (value_to_edn w) v = bool_decide (w = v).
Proof.
  intros F P. destruct w as [s|i|f|x|x|s|], v as [t|j|g|y|y|t|]; try done; cbn; symmetry;
    first [by apply bool_decide_eq_false|idtac].
  - apply bool_decide_ext. naive_solver.
  - destruct (Z.eqb_spec i j); [apply bool_decide_eq_true|apply bool_decide_eq_false]; congruence.
  - destruct x, y; done.
  - destruct (Z.eqb_spec x y); [apply bool_decide_eq_true|apply bool_decide_eq_false]; congruence.
Qed.
Lemma value_to_edn_constant w v : firm w = true →
  cbinds (value_to_edn w) v = if match_constant parse_str new_v5_oid (value_to_edn w) v then Some ∅ else None.
Proof. by destruct w. Qed.

(** Substituting a row keeps of a component what the row does not bind. *)
Lemma component_substituted c v b : firm_row b → plain_value v = true →
  cbinds (substitute_value c b) v = (d ← cbinds c v; if compat b d then Some (d ∖ b) else None).
Proof.
  intros B P.
  assert (∀ o : option (gmap string Value), (∀ d, o = Some d → d = ∅) →
            o = (d ← o; if compat b d then Some (d ∖ b) else None)) as Const.
  { intros [d|] H; [|done]. rewrite (H d eq_refl). cbn [mbind option_bind]. rewrite compat_empty.
    f_equal. apply map_eq. intros x. rewrite lookup_empty. symmetry. apply lookup_difference_None. left. apply lookup_empty. }
  assert (∀ e, as_variable e = None → cbinds e v = (if match_constant parse_str new_v5_oid e v then Some ∅ else None) →
            cbinds (substitute_value e b) v = (d ← cbinds e v; if compat b d then Some (d ∖ b) else None)) as Kst.
  { intros e N E. unfold substitute_value. rewrite N, E. apply Const. intros d. by destruct (match_constant _ _ _ _); intros [= <-]. }
  destruct c as [k|s|s|i|f|x|u|l|l|l| |s]; try (apply Kst; done).
  unfold substitute_value. cbn [as_variable]. fold (is_var s).
  destruct (is_var s) eqn:Vs; [destruct (b !! s) as [w|] eqn:Bs|].
  - destruct (B s w Bs) as (Fw & _ & Ws). rewrite value_to_edn_constant, constant_firm by done.
    cbn [component_binds]. rewrite Ws, Vs. cbn [mbind option_bind]. rewrite compat_singleton, Bs.
    case_bool_decide as E; [|done]. f_equal. symmetry. apply map_eq. intros y. rewrite lookup_empty.
    apply lookup_difference_None. destruct (decide (y = s)) as [->|N]; [right; by rewrite Bs|left; by rewrite lookup_singleton_ne].
  - cbn [component_binds]. destruct (is_wildcard s); [by apply Const; intros d [= <-]|]. rewrite Vs.
    cbn [mbind option_bind]. rewrite compat_singleton, Bs. f_equal. symmetry. apply map_eq. intros y.
    destruct (decide (y = s)) as [->|N].
    + rewrite lookup_singleton_eq. apply lookup_difference_Some. by rewrite lookup_singleton_eq.
    + rewrite lookup_singleton_ne by done. apply lookup_difference_None. left. by rewrite lookup_singleton_ne.
  - cbn [component_binds]. destruct (is_wildcard s); [by apply Const; intros d [= <-]|]. by rewrite Vs.
Qed.

Lemma component_binds_disjoint p a f de dv : pat_attribute p = Real (EKeyword a) → NoDup (pattern_vars p) →
  cbinds (pat_entity p) (VRef (entity f)) = Some de → cbinds (pat_value p) (value f) = Some dv → dv ##ₘ de.
Proof.
  intros R L Ee Ev. apply component_binds_dom in Ee, Ev. apply map_disjoint_dom. rewrite Ee, Ev.
  unfold pattern_vars in L. rewrite R in L. cbn in L. apply NoDup_app in L as (_ & H & _). set_solver.
Qed.

Lemma binds_substituted p f b : pattern_ok p → firm_row b → plain_value (value f) = true →
  binds (substitute_pattern p b) f = (d ← binds p f; if compat b d then Some (d ∖ b) else None).
Proof.
  intros [[a R] L] B P. unfold fact_binds, substitute_pattern. cbn [pat_attribute pat_entity pat_value]. rewrite R.
  cbn [substitute_value as_variable]. rewrite !component_substituted by done.
  destruct (cbinds (pat_entity p) (VRef (entity f))) as [de|] eqn:Ee; [|done]. cbn [mbind option_bind].
  cbn [attribute_binds]. case_bool_decide; cbn [mbind option_bind]; [|by destruct (compat b de)].
  destruct (cbinds (pat_value p) (value f)) as [dv|] eqn:Ev; cbn [mbind option_bind]; [|by destruct (compat b de)].
  pose proof (component_binds_disjoint p a f de dv R L Ee Ev) as D. rewrite !(left_id_L ∅ (∪)).
  rewrite compat_union by done. destruct (compat b de), (compat b dv); cbn; try done.
  f_equal. rewrite (left_id_L ∅ (∪)). apply map_eq. intros x. rewrite lookup_union, !lookup_difference, lookup_union.
  destruct (b !! x); cbn; [done|]. done.
Qed.

(** * Bodies under a row *)

Lemma pattern_ok_substituted p b : pattern_ok p → firm_row b → pattern_ok (substitute_pattern p b).
Proof.
  intros [[a R] L] B. split; [exists a; unfold substitute_pattern; cbn; by rewrite R|].
  assert (∀ c, component_vars (substitute_value c b) `sublist_of` component_vars c) as Sub.
  { intros c. unfold substitute_value. destruct (as_variable c) as [x|]; [|done].
    destruct (b !! x) as [w|] eqn:E; [|done]. destruct (B x w E) as [F _]. destruct w; try done; apply sublist_nil_l. }
  revert L. unfold pattern_vars, substitute_pattern. cbn. rewrite R. cbn. intros L. eapply sublist_NoDup; [exact L|]. by apply sublist_app.
Qed.

Definition firm_facts (facts : list Fact) : Prop := ∀ f, f ∈ facts → firm (value f) = true.
Lemma firm_normal v : firm v = true → normalize_join_value parse_str new_v5_oid v = v.
Proof. by destruct v. Qed.
Lemma firm_spell b : (∀ x v, b !! x = Some v → firm v = true) → spell parse_str new_v5_oid b = b.
Proof.
  intros F. apply map_eq. intros x. rewrite spell_lookup. destruct (b !! x) as [v|] eqn:E; [|done]. cbn.
  by rewrite firm_normal by eauto.
Qed.
Lemma firm_row_spell b : firm_row b → spell parse_str new_v5_oid b = b.
Proof. intros F. apply firm_spell. intros x v E. by apply F in E as []. Qed.
Lemma binds_firm p f d : pattern_ok p → firm (value f) = true → binds p f = Some d → firm_row d.
Proof.
  intros [[a R] L] F D x v E. assert (pattern_ok p) as P by (split; eauto).
  assert (x ∈ pattern_vars p) as I.
  { apply (elem_of_list_to_set (C := gset string)). rewrite <-(binds_dom parse_str new_v5_oid p f d P D). by apply elem_of_dom. }
  split; [|by apply (pattern_vars_ok p)]. unfold fact_binds in D. rewrite R in D.
  apply bind_Some in D as (de & De & D). apply bind_Some in D as (da & Da & D). apply bind_Some in D as (dv & Dv & D).
  injection D as <-. cbn in Da. case_bool_decide; simplify_eq.
  apply lookup_union_Some_raw in E as [E|[_ E]]; [|apply lookup_union_Some_raw in E as [E|[_ E]]].
  all: try (by rewrite lookup_empty in E).
  all: first [by rewrite (component_binds_value _ _ _ _ _ _ _ Dv E)|by rewrite (component_binds_value _ _ _ _ _ _ _ De E)].
Qed.
Lemma extend_firm p b f : pattern_ok p → firm (value f) = true →
  ext p b f = (d ← binds p f; if compat b d then Some (d ∪ b) else None).
Proof.
  intros P F. unfold extend. destruct (binds p f) as [d|] eqn:D; [|done]. cbn.
  by rewrite firm_row_spell by by eapply binds_firm.
Qed.
Lemma firm_row_union d b : firm_row d → firm_row b → firm_row (d ∪ b).
Proof. intros D B x v [E|[_ E]]%lookup_union_Some_raw; eauto. Qed.

(** Solutions extend their row and bind the variables of the patterns. *)
Lemma solutions_extend facts ps a r : firm_facts facts → (∀ p, p ∈ ps → pattern_ok p) → firm_row a → r ∈ sols facts ps a →
  a ⊆ r ∧ firm_row r ∧ dom r = dom a ∪ list_to_set (flat_map pattern_vars ps).
Proof.
  intros F. revert a. induction ps as [|p ps IH]; intros a P A; cbn [solutions].
  - intros ->%list_elem_of_singleton. split_and!; [done..|set_solver].
  - intros (a' & (f & If & E)%list_elem_of_omap & R)%elem_of_flat_map.
    assert (pattern_ok p) as Pp by (apply P; left). rewrite extend_firm in E by auto.
    apply bind_Some in E as (d & D & E). destruct (compat a d) eqn:C; [|done]. injection E as <-.
    assert (firm_row d) as Fd by (eapply binds_firm; eauto).
    destruct (IH (d ∪ a)) as (S & Fr & Dm); [intros; apply P; by right|by apply firm_row_union|done|].
    split; [|split; [done|]].
    + etrans; [|exact S]. apply map_subseteq_spec. intros x v E. apply lookup_union_Some_raw.
      destruct (d !! x) as [w|] eqn:Dx; [left|by right]. f_equal. symmetry. by apply (proj1 (compat_true a d) C x w v).
    + rewrite Dm, dom_union_L, (binds_dom parse_str new_v5_oid p f d) by done. cbn. rewrite list_to_set_app_L. set_solver.
Qed.

Lemma difference_compat c a d : compat c a = true → compat c d = true → compat (a ∖ c) (d ∖ c) = compat a d.
Proof.
  intros A D. apply iff_bool_eq. rewrite !compat_true in *. split.
  - intros H x v w Ea Ed. destruct (c !! x) as [u|] eqn:Ec; [|apply (H x); by apply lookup_difference_Some].
    transitivity u; [symmetry|]; eauto.
  - intros H x v w [Ea _]%lookup_difference_Some [Ed _]%lookup_difference_Some. eauto.
Qed.
Lemma compat_union_r c d a : compat c a = true → compat a d = true → compat c (d ∪ a) = compat c d.
Proof.
  intros A D. apply iff_bool_eq. rewrite !compat_true in *. split.
  - intros H x v w Ec Ed. apply (H x); [done|]. apply lookup_union_Some_raw. by left.
  - intros H x v w Ec [Ed|[_ Ea]]%lookup_union_Some_raw; eauto.
Qed.

(** The solutions of the substituted patterns are the compatible solutions, without
    what the row binds. *)
Lemma solutions_substituted facts ps c a : firm_facts facts → (∀ p, p ∈ ps → pattern_ok p) → firm_row c → firm_row a →
  compat c a = true →
  sols facts ((λ p, substitute_pattern p c) <$> ps) (a ∖ c) = (λ r, r ∖ c) <$> List.filter (compat c) (sols facts ps a).
Proof.
  intros F P C. revert a P. induction ps as [|p ps IH]; intros a P A Ca; [cbn; by rewrite Ca|].
  cbn [solutions fmap list_fmap]. assert (pattern_ok p) as Pp by (apply P; left).
  assert (∀ l, l ⊆ facts → flat_map (sols facts ((λ p, substitute_pattern p c) <$> ps)) (omap (ext (substitute_pattern p c) (a ∖ c)) l) =
     (λ r, r ∖ c) <$> List.filter (compat c) (flat_map (sols facts ps) (omap (ext p a) l))) as H; [|by apply H].
  intros l. induction l as [|f l IHl]; intros S; [done|]. assert (firm (value f) = true) as Ff by (apply F, S; left).
  assert (∀ (g : Fact → option (gmap string Value)) k, omap g (f :: k) = match g f with Some r => r :: omap g k | None => omap g k end) as O by done.
  rewrite !O,  !extend_firm by auto using pattern_ok_substituted.
  rewrite binds_substituted by auto using firm_plain. destruct (binds p f) as [d|] eqn:D; cbn [mbind option_bind]; [|apply IHl; set_solver].
  specialize (IHl ltac:(set_solver)). destruct (compat c d) eqn:Cd; cbn [mbind option_bind].
  - rewrite difference_compat by done. destruct (compat a d) eqn:Ad; [|done]. cbn [flat_map].
    rewrite List.filter_app, fmap_app, <-IHl. f_equal. rewrite <-IH; [|intros; apply P; by right|..].
    + f_equal. apply map_eq. intros x. rewrite lookup_union, !lookup_difference, lookup_union. by destruct (c !! x).
    + apply firm_row_union; [by eapply binds_firm|done].
    + by rewrite compat_union_r.
  - destruct (compat a d) eqn:Ad; [|done]. cbn [flat_map]. rewrite List.filter_app, fmap_app, <-IHl.
    assert (List.filter (compat c) (sols facts ps (d ∪ a)) = []) as ->; [|done].
    apply List_filter_none. intros r R. destruct (solutions_extend facts ps (d ∪ a) r) as (Sr & _); [done|intros; apply P; by right| |done|].
    + apply firm_row_union; [by eapply binds_firm|done].
    + apply not_true_iff_false. intros X. apply (compat_mono c (d ∪ a)) in X; [|done]. rewrite compat_union_r in X by done. congruence.
Qed.
End substitution.

(** * What decides a body *)

Section decision.
Context (parse_str : string → option Z) (new_v5_oid : string → Z) (uuid_to_string : Z → string).
Context (is_match : string → string → bool).
Context (facts : list Fact) (valid_at_value : Value) (registry : FunctionRegistry).
Hypothesis Firm : firm_facts facts.
#[local] Abbreviation sols := (solutions parse_str new_v5_oid).

(** A body of patterns with constant attributes and linear variables. *)
Record body_ok (body : list WhereClause) : Prop := {
  bo_some : body ≠ [];
  bo_patterns c : c ∈ body → ∃ p, c = CPattern p ∧ pattern_ok p;
}.
Lemma body_patterns_eq body : body_ok body → ∃ ps, ps ≠ [] ∧ body = CPattern <$> ps ∧ ∀ p, p ∈ ps → pattern_ok p.
Proof using.
  intros [N P]. assert (∃ ps, body = CPattern <$> ps ∧ ∀ p, p ∈ ps → pattern_ok p) as (ps & E & O).
  { clear N. induction body as [|c body IH]; [by exists []; split; [|intros p ?%elem_of_nil]|].
    destruct (P c) as (p & -> & Op); [left|]. destruct IH as (ps & -> & O); [intros; apply P; by right|].
    exists (p :: ps). split; [done|]. by intros q [->|I]%elem_of_cons; [|apply O]. }
  exists ps. split_and!; try done. intros ->. by subst.
Qed.
Lemma patterns_of_patterns ps : patterns_of (CPattern <$> ps) = ps.
Proof using. induction ps as [|p ps IH]; [done|]. cbn. by f_equal. Qed.
Lemma exprs_of_patterns ps : exprs_of (CPattern <$> ps) = [].
Proof using. by induction ps. Qed.
Lemma has_expr_patterns ps : has_expr (CPattern <$> ps) = false.
Proof using. by induction ps. Qed.
Lemma no_pseudo_patterns ps : (∀ p, p ∈ ps → pattern_ok p) → clauses_use_per_fact_pseudo_attr (CPattern <$> ps) = false.
Proof using.
  intros O. apply not_true_iff_false. intros (c & I & E)%existsb_exists. apply list_elem_of_In, list_elem_of_fmap in I as (p & -> & I).
  destruct (O p I) as [[a R] _]. cbn in E. by rewrite R in E.
Qed.

(** Whether the body has a solution compatible with the row. *)
Definition body_holds (body : list WhereClause) (b : gmap string Value) : bool :=
  existsb (compat b) (sols facts (patterns_of body) ∅).

Lemma firm_row_empty : firm_row ∅.
Proof using. intros x v E. by rewrite lookup_empty in E. Qed.
Lemma joined_solutions m ps : get_facts m = facts → retain_fact_metadata m = false → (∀ p, p ∈ ps → pattern_ok p) →
  foldl (join_with_pattern parse_str new_v5_oid uuid_to_string m) [∅] ps = sols facts ps ∅.
Proof using Firm.
  intros G N O. assert (∀ f, f ∈ get_facts m → plain_value (value f) = true) as F.
  { intros f. rewrite G. intros I. by apply firm_plain, Firm. }
  destruct (joins_permute parse_str new_v5_oid uuid_to_string m ps ps N (plain_facts_ok parse_str new_v5_oid m F) O (reflexivity _)) as [E _].
  rewrite <-G, <-E. destruct (joins_spell parse_str new_v5_oid uuid_to_string m N (plain_facts_ok parse_str new_v5_oid m F) ps [∅] O)
    as [_ R]; [by intros b ->%list_elem_of_singleton|].
  rewrite <-list_fmap_id at 1. symmetry. apply list_fmap_ext. intros i b Eb.
  apply (plain_spell parse_str new_v5_oid m F), R. by apply list_elem_of_lookup_2 in Eb.
Qed.
Lemma matched_solutions m ps : get_facts m = facts → retain_fact_metadata m = false → (∀ p, p ∈ ps → pattern_ok p) →
  match_patterns parse_str new_v5_oid uuid_to_string m ps = sols facts ps ∅.
Proof using Firm.
  intros G N O. rewrite <-(joined_solutions m) by done. destruct ps as [|p ps]; [done|]. cbn [match_patterns foldl].
  by rewrite join_unit.
Qed.

(** The substituted patterns match exactly when the body holds. *)
Lemma substituted_holds ps b : (∀ p, p ∈ ps → pattern_ok p) → firm_row b →
  negb (bool_decide (sols facts ((λ p, substitute_pattern p b) <$> ps) ∅ = [])) = existsb (compat b) (sols facts ps ∅).
Proof using Firm.
  intros O B. pose proof (solutions_substituted parse_str new_v5_oid facts ps b ∅ Firm O B firm_row_empty (compat_empty b)) as E.
  assert (∅ ∖ b = ∅) as D by (apply map_eq; intros x; rewrite lookup_empty; apply lookup_difference_None; left; apply lookup_empty).
  rewrite D in E. rewrite E. clear E. induction (sols facts ps ∅) as [|r l IH]; [done|]. cbn.
  destruct (compat b r); [done|]. exact IH.
Qed.
Lemma solutions_case {A} (l : list A) : match l with [] => false | _ => true end = negb (bool_decide (l = [])).
Proof using. by destruct l. Qed.

Lemma not_slow_holds body b : body_ok body → firm_row b →
  not_body_matches parse_str new_v5_oid uuid_to_string is_match facts valid_at_value registry body b = Ok (body_holds body b).
Proof using Firm.
  intros (ps & Np & -> & O)%body_patterns_eq B. unfold not_body_matches, body_holds. rewrite patterns_of_patterns.
  assert (body_patterns b (CPattern <$> ps) = (λ p, substitute_pattern p b) <$> ps) as E.
  { unfold body_patterns. clear. induction ps as [|p ps IH]; [done|]. cbn. by f_equal. }
  rewrite E, no_pseudo_patterns by done. cbn zeta. rewrite <-substituted_holds by done.
  rewrite matched_solutions; [|done..|intros q (p & -> & I)%list_elem_of_fmap; auto using pattern_ok_substituted].
  destruct ps as [|p ps]; [done|]. cbn [fmap list_fmap]. set (l := sols _ _ _).
  assert (∀ rs, apply_expr_clauses is_match rs (CPattern p :: (CPattern <$> ps)) registry = Ok rs) as A.
  { intros rs. rewrite <-(fmap_cons CPattern p ps). clear. unfold apply_expr_clauses.
    assert (validate_predicates registry (CPattern <$> p :: ps) = Ok tt) as ->.
    { unfold validate_predicates. generalize (p :: ps). intros l. by induction l. }
    cbn [mbind result_bind]. revert rs. generalize (p :: ps). intros l. induction l as [|q l IH]; intros rs; [done|]. apply IH. }
  rewrite A. cbn [unwrap_or_default mbind result_bind]. rewrite solutions_case. do 2 f_equal.
  apply bool_decide_ext. by destruct l.
Qed.

Lemma firm_row_filter (P : string * Value → Prop) `{!∀ e, Decision (P e)} b : firm_row b → firm_row (filter P b).
Proof using. intros B x v [E _]%map_lookup_filter_Some. eauto. Qed.

(** The row a [not-join] sees. *)
Definition joined_part (vars : list string) (b : gmap string Value) : gmap string Value := filter (λ e, e.1 ∈ vars) b.
Lemma not_join_slow_holds vars body b : body_ok body → firm_row b →
  evaluate_not_join parse_str new_v5_oid uuid_to_string is_match facts registry vars body b
    = Ok (body_holds body (joined_part vars b)).
Proof using Firm.
  intros (ps & Np & -> & O)%body_patterns_eq B. unfold evaluate_not_join, body_holds. rewrite patterns_of_patterns.
  fold (joined_part vars b). set (c := joined_part vars b). assert (firm_row c) as C by by apply firm_row_filter.
  assert (omap (λ cl, match cl with
               | CPattern p => Some (substitute_pattern p c)
               | RuleInvocation predicate args =>
                 p ← ok_option (rule_invocation_to_pattern predicate args); Some (substitute_pattern p c)
               | _ => None
               end) (CPattern <$> ps) = (λ p, substitute_pattern p c) <$> ps) as E.
  { clear. induction ps as [|p ps IH]; [done|]. cbn. by f_equal. }
  rewrite E, exprs_of_patterns. cbn zeta. rewrite <-substituted_holds by done.
  rewrite matched_solutions; [|done..|intros q (p & -> & I)%list_elem_of_fmap; auto using pattern_ok_substituted].
  destruct ps as [|p ps]; [done|]. cbn [fmap list_fmap]. set (l := sols _ _ _).
  assert (∀ rs, apply_expr_clauses_in_evaluator is_match rs [] registry = Ok rs) as A.
  { intros rs. unfold apply_expr_clauses_in_evaluator. induction rs as [|r rs IH]; [done|]. cbn. cbn in IH. by rewrite IH. }
  rewrite A. cbn [mbind result_bind]. rewrite solutions_case. do 2 f_equal. apply bool_decide_ext. by destruct l.
Qed.

(** * The exclusion sets *)

Lemma firm_normal_row b : firm_row b → normal_row parse_str new_v5_oid b = b.
Proof using. apply firm_row_spell. Qed.
Lemma firm_visible b : firm_row b → filter (λ e : string * Value, is_hidden e.1 = false) b = b.
Proof using. intros B. apply map_filter_id. intros x v E. destruct (B x v E) as (_ & V & _). by apply var_not_hidden. Qed.
Lemma firm_key_eq v : firm v = true → hash_key_eq v v = true.
Proof using. intros F. rewrite hash_key_eq_value_eq by (left; by destruct v). apply value_eq_refl. by destruct v. Qed.
Lemma row_key_eq_firm a b : firm_row a → firm_row b → row_key_eq a b = bool_decide (a = b).
Proof using.
  intros A B. apply iff_bool_eq. unfold row_key_eq. rewrite andb_true_iff, !bool_decide_eq_true, forallb_elem. split.
  - intros [D H]. apply map_eq. intros x. destruct (a !! x) as [v|] eqn:E.
    + specialize (H (x, v)). cbn in H. destruct (b !! x) as [w|]; [|by discriminate H; apply elem_of_map_to_list].
      f_equal. apply hash_key_eq_true, H. by apply elem_of_map_to_list.
    + symmetry. apply not_elem_of_dom. rewrite <-D. by apply not_elem_of_dom.
  - intros ->. split; [done|]. intros [x v] E%elem_of_map_to_list. rewrite E. apply B in E as [F _]. apply firm_key_eq, F.
Qed.
Lemma solutions_rows ps r : (∀ p, p ∈ ps → pattern_ok p) → r ∈ sols facts ps ∅ →
  firm_row r ∧ dom r = list_to_set (flat_map pattern_vars ps).
Proof using Firm.
  intros O I. destruct (solutions_extend parse_str new_v5_oid facts ps ∅ r Firm O firm_row_empty I) as (_ & F & D).
  split; [done|]. by rewrite D, dom_empty_L, (left_id_L ∅ (∪)).
Qed.
Lemma compat_restrict (b r : gmap string Value) : dom r ⊆ dom b → compat b r = bool_decide (filter (λ e, e.1 ∈ dom r) b = r).
Proof using.
  intros S. apply iff_bool_eq. rewrite compat_true, bool_decide_eq_true. split.
  - intros H. apply map_eq. intros x. destruct (r !! x) as [v|] eqn:E.
    + apply map_lookup_filter_Some. assert (x ∈ dom r) as I by (by apply elem_of_dom). split; [|done].
      apply S, elem_of_dom in I as [w I]. rewrite I. f_equal. by apply (H x).
    + apply map_lookup_filter_None. right. intros v _. cbn. by apply not_elem_of_dom.
  - intros E x v w B R. rewrite <-E in R. apply map_lookup_filter_Some in R as [R _]. congruence.
Qed.

Section sets.
Context (set_order : list (gmap string Value) → list (gmap string Value)) (max_res : Z).
Hypothesis Order : ∀ l r, r ∈ set_order l ↔ r ∈ l.
Hypothesis Max : 0 ≤ max_res.

Lemma body_rows_spec ps : ps ≠ [] → (∀ p, p ∈ ps → pattern_ok p) →
  match body_rows parse_str new_v5_oid uuid_to_string facts valid_at_value max_res (CPattern <$> ps) with
  | Ok rows => rows = Some (sols facts ps ∅)
  | Err e => e = BINDING_LIMIT
  end.
Proof using Firm Max.
  intros N O. unfold body_rows. rewrite patterns_of_patterns, no_pseudo_patterns by done. destruct ps as [|p ps]; [done|].
  destruct (match_patterns_bounded _ _ _ _ _ _ _) as [rows|e] eqn:E; cbn.
  - apply match_patterns_bounded_Ok in E as [-> _]; [|done]. by rewrite joined_solutions.
  - by apply match_patterns_bounded_Err in E.
Qed.

Lemma contains_key_spec (set : list (gmap string Value)) key : (∀ r, r ∈ set → firm_row r) → firm_row key →
  contains_key set key = existsb (λ r, bool_decide (key = r)) set.
Proof using.
  intros S K. unfold contains_key. induction set as [|r set IH]; [done|]. cbn.
  rewrite row_key_eq_firm by (done || (apply S; left)). f_equal. apply IH. intros; apply S; by right.
Qed.
Lemma existsb_cong {A} (f g : A → bool) l : (∀ x, x ∈ l → f x = g x) → existsb f l = existsb g l.
Proof using. induction l as [|x l IH]; intros H; [done|]. cbn. rewrite (H x) by left. f_equal. apply IH. intros; apply H; by right. Qed.

Lemma existsb_map {A B} (g : A → B) (f : B → bool) l : existsb f (List.map g l) = existsb (λ x, f (g x)) l.
Proof using. induction l as [|x l IH]; [done|]. cbn. by rewrite IH. Qed.

Lemma not_excludes_spec body b : body_ok body → firm_row b →
  match not_exclusion parse_str new_v5_oid uuid_to_string facts valid_at_value max_res body with
  | Ok entry => not_excludes parse_str new_v5_oid uuid_to_string is_match set_order facts valid_at_value registry b body entry
                = Ok (body_holds body b)
  | Err e => e = BINDING_LIMIT
  end.
Proof using Firm Max Order.
  intros Bo B. pose proof (body_patterns_eq body Bo) as (ps & Np & -> & O). unfold not_exclusion.
  pose proof (body_rows_spec ps Np O) as R. destruct (body_rows _ _ _ _ _ _ _) as [rows|e]; cbn; [subst rows|done].
  unfold not_excludes. rewrite has_expr_patterns, not_slow_holds by done.
  assert (List.map (λ r : gmap string Value, normal_row parse_str new_v5_oid (filter (λ e, is_hidden e.1 = false) r)) (sols facts ps ∅)
            = sols facts ps ∅) as ->.
  { rewrite <-List.map_id. apply List.map_ext_in. intros r I%list_elem_of_In. apply solutions_rows in I as [F _]; [|done].
    by rewrite firm_visible, firm_normal_row. }
  unfold body_holds. rewrite patterns_of_patterns. destruct (set_order _) as [|sample l] eqn:S.
  { destruct (sols facts ps ∅) as [|r k]; [done|]. exfalso. assert (r ∈ set_order (r :: k)) as I by (apply Order; left).
    rewrite S in I. by apply elem_of_nil in I. }
  assert (sample ∈ sols facts ps ∅) as Is by (apply Order; rewrite S; left).
  destruct (solutions_rows ps sample O Is) as [Fs Ds]. rewrite firm_normal_row by by apply firm_row_filter.
  case_bool_decide as E; [|done]. f_equal.
  rewrite contains_key_spec; [|intros r I; by apply solutions_rows in I as [? _]|by apply firm_row_filter].
  apply existsb_cong. intros r I. apply solutions_rows in I as [_ Dr]; [|done].
  assert (dom r = dom sample) as D by by rewrite Dr. symmetry. rewrite compat_restrict; [by rewrite D|].
  rewrite D, <-E. apply dom_filter_subseteq.
Qed.

Lemma compat_joined (vars keys : list string) (b r : gmap string Value) :
  (∀ x, x ∈ keys ↔ x ∈ vars ∧ x ∈ dom r) → (∀ x, x ∈ keys → x ∈ dom b) →
  compat (joined_part vars b) r = bool_decide (filter (λ e, e.1 ∈ keys) b = filter (λ e, e.1 ∈ keys) r).
Proof using.
  intros K Kb. apply iff_bool_eq. rewrite compat_true, bool_decide_eq_true. split.
  - intros H. apply map_eq. intros x. destruct (decide (x ∈ keys)) as [I|I].
    2: { transitivity (@None Value); [|symmetry]; apply map_lookup_filter_None; right; intros; done. }
    pose proof (proj1 (K x) I) as [Iv Ir]. apply elem_of_dom in Ir as [v Ev]. destruct (proj1 (elem_of_dom _ _) (Kb x I)) as [w Ew].
    assert (w = v) as ->. { apply (H x); [|done]. apply map_lookup_filter_Some. by split. }
    transitivity (Some v); [|symmetry]; by apply map_lookup_filter_Some.
  - intros E x v w [Ew Iv]%map_lookup_filter_Some Ev. assert (x ∈ keys) as I by (apply K; split; [done|by apply elem_of_dom]).
    assert (filter (λ e, e.1 ∈ keys) b !! x = Some w) as X by by apply map_lookup_filter_Some.
    rewrite E in X. apply map_lookup_filter_Some in X as [X _]. congruence.
Qed.

Lemma not_join_excludes_spec vars body b : body_ok body → firm_row b →
  match not_join_exclusion parse_str new_v5_oid uuid_to_string facts valid_at_value max_res vars body with
  | Ok entry => not_join_excludes parse_str new_v5_oid uuid_to_string is_match facts registry b vars body entry
                = Ok (body_holds body (joined_part vars b))
  | Err e => e = BINDING_LIMIT
  end.
Proof using Firm Max.
  intros Bo B. pose proof (body_patterns_eq body Bo) as (ps & Np & -> & O). unfold not_join_exclusion.
  pose proof (body_rows_spec ps Np O) as R. destruct (body_rows _ _ _ _ _ _ _) as [rows|e]; cbn [mbind result_bind]; [subst rows|done].
  unfold not_join_excludes. rewrite not_join_slow_holds by done. unfold body_holds. rewrite patterns_of_patterns.
  pose proof (solutions_rows ps) as Rows. destruct (sols facts ps ∅) as [|r0 l] eqn:S.
  { rewrite has_expr_patterns. destruct vars; [done|]. by destruct (forallb _ _). }
  rewrite has_expr_patterns. rewrite <-S in *. set (keys := List.filter _ vars).
  assert (∀ x, x ∈ keys ↔ x ∈ vars ∧ x ∈ (list_to_set (flat_map pattern_vars ps) : gset string)) as K.
  { intros x. unfold keys. rewrite elem_of_List_filter, forallb_elem. split.
    - intros [H I]. split; [done|]. specialize (H r0 ltac:(rewrite S; left)). apply bool_decide_eq_true in H.
      destruct (Rows r0 O) as [_ <-]; [rewrite S; left|]. by apply elem_of_dom.
    - intros [I D]. split; [|done]. intros r Ir. apply bool_decide_eq_true, elem_of_dom. by destruct (Rows r O Ir) as [_ ->]. }
  assert (∀ r, r ∈ sols facts ps ∅ → ∀ x, x ∈ keys ↔ x ∈ vars ∧ x ∈ dom r) as Kr.
  { intros r Ir x. rewrite K. by destruct (Rows r O Ir) as [_ ->]. }
  destruct keys as [|k ks] eqn:Ek.
  { f_equal. assert (compat (joined_part vars b) r0 = true) as C.
    { apply compat_true. intros x v w [_ Iv]%map_lookup_filter_Some E.
      assert (x ∈ ([] : list string)) as I; [|by apply elem_of_nil in I].
      apply (Kr r0); [rewrite S; left|]. split; [done|by apply elem_of_dom]. }
    rewrite S. cbn. by rewrite C. }
  rewrite <-Ek in *. destruct (forallb _ keys) eqn:Kb; [|done]. rewrite forallb_elem in Kb. f_equal.
  rewrite firm_normal_row by by apply firm_row_filter. rewrite contains_key_spec.
  - rewrite existsb_map. apply existsb_cong. intros r Ir. destruct (Rows r O Ir) as [Fr _].
    rewrite firm_normal_row by by apply firm_row_filter. symmetry. apply compat_joined; [by apply Kr|].
    intros x Ix. apply elem_of_dom. by apply Kb, bool_decide_eq_true in Ix.
  - intros r (r' & -> & I)%list_elem_of_fmap. destruct (Rows r' O I) as [Fr _].
    rewrite firm_normal_row by by apply firm_row_filter. by apply firm_row_filter.
  - by apply firm_row_filter.
Qed.

(** * The filter of a query *)

(** A row survives when no body holds. *)
Definition survives (clauses : list WhereClause) (b : gmap string Value) : bool :=
  forallb (λ body, negb (body_holds body b)) (not_bodies clauses) &&
  forallb (λ e, negb (body_holds e.2 (joined_part e.1 b))) (not_join_bodies clauses).
(** Negations whose bodies are patterns. *)
Definition negations_ok (clauses : list WhereClause) : Prop :=
  (∀ body, body ∈ not_bodies clauses → body_ok body) ∧
  (∀ vars body, (vars, body) ∈ not_join_bodies clauses → body_ok body).

Lemma anyR_zip {A B} (prepare : A → result B) (decide : A * B → result bool) (f : A → bool) l sets :
  mapR prepare l = Ok sets → (∀ x, x ∈ l → match prepare x with Ok e => decide (x, e) = Ok (f x) | Err _ => True end) →
  anyR decide (zip l sets) = Ok (existsb f l).
Proof using.
  revert sets. induction l as [|x l IH]; intros sets E H; [by injection E as <-|].
  cbn [mapR] in E. apply bind_Ok in E as (e & Pe & E). apply bind_Ok in E as (sets' & Ps & E). injection E as <-.
  cbn [zip zip_with anyR existsb]. specialize (H x ltac:(left)) as Hx. rewrite Pe in Hx. rewrite Hx. cbn [mbind result_bind].
  destruct (f x); [done|]. cbn. apply IH; [done|]. intros y I. apply H. by right.
Qed.
Lemma filterR_Ok {A} (g : A → result bool) (f : A → bool) l : (∀ x, x ∈ l → g x = Ok (f x)) → filterR g l = Ok (List.filter f l).
Proof using.
  induction l as [|x l IH]; intros H; [done|]. cbn [filterR List.filter]. rewrite (H x) by left. cbn [mbind result_bind].
  rewrite IH by (intros; apply H; by right). cbn. by destruct (f x).
Qed.
Lemma mapR_Err {A B} (g : A → result B) (P : string → Prop) l e : (∀ x e, x ∈ l → g x = Err e → P e) → mapR g l = Err e → P e.
Proof using.
  induction l as [|x l IH]; intros H E; [done|]. cbn [mapR] in E. destruct (g x) as [y|e'] eqn:G; cbn [mbind result_bind] in E.
  - destruct (mapR g l) as [ys|e'] eqn:M; cbn in E; [done|]. injection E as ->. apply IH; [|done]. intros z e' I. apply H. by right.
  - injection E as ->. apply (H x); [left|done].
Qed.
Lemma existsb_perm {A} (f : A → bool) l k : l ≡ₚ k → existsb f l = existsb f k.
Proof using. induction 1; cbn; [done|by f_equal|by destruct (f x), (f y)|congruence]. Qed.
Lemma forallb_negb {A} (f : A → bool) l : forallb (λ x, negb (f x)) l = negb (existsb f l).
Proof using. induction l as [|x l IH]; [done|]. cbn. rewrite IH. by destruct (f x). Qed.

Lemma negation_decides clauses rows : negations_ok clauses → (∀ b, b ∈ rows → firm_row b) →
  match apply_negation parse_str new_v5_oid uuid_to_string is_match set_order facts valid_at_value registry max_res clauses rows with
  | Ok kept => kept = List.filter (survives clauses) rows
  | Err e => e = BINDING_LIMIT
  end.
Proof using Firm Max Order.
  intros [On Oj] B. unfold apply_negation.
  assert (sorted_not_bodies clauses ≡ₚ not_bodies clauses) as Pn by apply sort_by_key_perm.
  assert (sorted_not_join_bodies clauses ≡ₚ not_join_bodies clauses) as Pj by apply sort_by_key_perm.
  assert (∀ b, survives clauses b =
    negb (existsb (λ body, body_holds body b) (sorted_not_bodies clauses)) &&
    negb (existsb (λ e, body_holds e.2 (joined_part e.1 b)) (sorted_not_join_bodies clauses))) as Sv.
  { intros b. unfold survives. by rewrite !forallb_negb, (existsb_perm _ _ _ Pn), (existsb_perm _ _ _ Pj). }
  assert (∀ body, body ∈ sorted_not_bodies clauses → body_ok body) as On' by (intros body; rewrite Pn; apply On).
  assert (∀ e, e ∈ sorted_not_join_bodies clauses → body_ok e.2) as Oj' by (intros [vars body]; rewrite Pj; apply Oj).
  revert Sv On' Oj'. clear Pn Pj On Oj. generalize (sorted_not_bodies clauses) (sorted_not_join_bodies clauses).
  intros nots njs Sv On Oj. destruct (decide (nots = [] ∧ njs = [])) as [[-> ->]|N].
  { symmetry. apply List_filter_id. intros b _. by rewrite Sv. }
  assert (∀ (X Y : result (list (gmap string Value))), match nots, njs with [], [] => X | _, _ => Y end = Y) as -> by (destruct nots, njs; naive_solver).
  assert (∀ body e, body ∈ nots → not_exclusion parse_str new_v5_oid uuid_to_string facts valid_at_value max_res body = Err e → e = BINDING_LIMIT) as En.
  { intros body e I E. pose proof (not_excludes_spec body ∅ (On body I) firm_row_empty) as X. by rewrite E in X. }
  assert (∀ x e, x ∈ njs → (λ '(vars, body), not_join_exclusion parse_str new_v5_oid uuid_to_string facts valid_at_value max_res vars body) x = Err e → e = BINDING_LIMIT) as Ej.
  { intros [vars body] e I E. pose proof (not_join_excludes_spec vars body ∅ (Oj _ I) firm_row_empty) as X. by rewrite E in X. }
  destruct (mapR _ nots) as [ns|e] eqn:Mn; cbn [mbind result_bind]; [|by eapply (mapR_Err _ (λ e, e = BINDING_LIMIT)); [|exact Mn]].
  destruct (mapR _ njs) as [js|e] eqn:Mj; cbn [mbind result_bind]; [|by eapply (mapR_Err _ (λ e, e = BINDING_LIMIT)); [|exact Mj]].
  rewrite (filterR_Ok _ (survives clauses)); [done|]. intros b Ib. specialize (B b Ib). rewrite Sv.
  erewrite (anyR_zip _ _ (λ body, body_holds body b) _ _ Mn).
  2: { intros body I. pose proof (not_excludes_spec body b (On body I) B) as X. by destruct (not_exclusion _ _ _ _ _ _ _). }
  cbn [mbind result_bind]. destruct (existsb _ nots); [done|].
  erewrite (anyR_zip _ _ (λ e, body_holds e.2 (joined_part e.1 b)) _ _ Mj).
  2: { intros [vars body] I. pose proof (not_join_excludes_spec vars body b (Oj _ I) B) as X.
       by destruct (not_join_exclusion _ _ _ _ _ _ _ _). }
  done.
Qed.
End sets.
End decision.
