(* ===== verification/QueryAnswers.v ===== *)
(** What a query returns (on src/src/query/datalog/executor.rs): the composition of
    the access plan, the temporal view, the clause planner, the joins and the
    projection computes the declarative answers over the whole log. *)
From S2P Require Import Prelude Types ValueCodec Floats HashKeys NetView SortedRuns Index PendingOverlay FactStore Lookup MergeScan CurrentState IndexScan Cursors QueryTypes Functions Expressions Matcher AccessPlan JoinOrder Optimizer Branches Aggregation Stratification Evaluator LeastModel MagicSets Executor Negation.
Set Default Proof Using "Type".

(** * Views are part of their source *)

Lemma coalesce_subset l f : f ∈ coalesce_point_in_time_facts l → f ∈ l.
Proof. rewrite coalesce_select. intros (i & L & _)%elem_of_select. by apply list_elem_of_lookup_2 in L. Qed.
Lemma view_subset now o va l V f : nonneg l → filter_facts_for_query now o va l = Ok V → f ∈ V → f ∈ l.
Proof.
  intros N E. assert (∀ g, g ∈ net_asserted_facts (match o with Some a => filter_facts_as_of l a | None => l end) → g ∈ l) as S.
  { intros g G. apply net_elem in G; [|by apply as_of_nonneg]. destruct o; [by eapply filter_as_of_tx|done]. }
  unfold filter_facts_for_query in E.
  destruct va as [[t| |]|]; simplify_eq/=; auto; intros F%coalesce_subset; apply elem_of_List_filter in F as [_ F]; auto.
Qed.

(** The key under which a view holds a triple once. *)
Definition view_distinct (va : option NetView.ValidAt) (V : list Fact) : Prop :=
  if is_any_valid_time va then NoDup (window_key <$> V) else NoDup (eav_key <$> V).
Lemma view_keys now o va l V : nonneg l → filter_facts_for_query now o va l = Ok V → view_distinct va V.
Proof.
  intros N E. unfold filter_facts_for_query in E. unfold view_distinct.
  destruct va as [[t| |]|]; simplify_eq/=; try apply coalesce_spec. by apply net_windows_distinct, as_of_nonneg.
Qed.

(** * Solutions depend on the matching triples *)

Lemma NoDup_fmap_filter {A B} (f : A → B) (r : A → bool) l : NoDup (f <$> l) → NoDup (f <$> List.filter r l).
Proof.
  induction l as [|x l IH]; [done|]. intros [N1 N2]%NoDup_cons. cbn [List.filter]. destruct (r x); [|auto].
  constructor; [|auto]. intros (y & E & [_ Y]%elem_of_List_filter)%list_elem_of_fmap. apply N1.
  change (f x ∈ f <$> l). rewrite E. by apply list_elem_of_fmap_2.
Qed.

Section answers.
Context (parse_str : string → option Z) (new_v5_oid : string → Z) (uuid_to_string : Z → string).
Context (is_match : string → string → bool).
#[local] Abbreviation kid := (keyword_id parse_str new_v5_oid).
#[local] Abbreviation sols := (solutions parse_str new_v5_oid).
#[local] Abbreviation ext := (extend parse_str new_v5_oid).

Lemma extend_tuple p b f : ext p b f = ext p b (fact_of (tuple f)).
Proof. done. Qed.
Lemma extend_admitted p b f b' l : ext p b f = Some b' → is_real p = true →
  pattern_lookup parse_str new_v5_oid p = Some (Some l) → admits l f = true.
Proof.
  unfold extend. intros (d & D & _)%bind_Some R L. unfold fact_binds in D. unfold is_real in R.
  destruct (pat_attribute p) as [a|] eqn:A; [|done]. apply bind_Some in D as (e & De & D). apply bind_Some in D as (a' & Da & _).
  unfold pattern_lookup in L. rewrite A in L. destruct (pat_entity p) as [k|s|s|i|g|z|u|x|x|x| |s]; cbn in De; simplify_eq/=;
    try (destruct a; simplify_eq/=; case_bool_decide; simplify_eq; by apply bool_decide_eq_true).
  - apply Z.eqb_eq. destruct (Z.eqb_spec (kid k) (entity f)); [done|]. done.
  - apply Z.eqb_eq. destruct (Z.eqb_spec u (entity f)); done.
Qed.

Lemma solutions_relevant (r : Fact → bool) facts ps b :
  (∀ p b f b', p ∈ ps → ext p b f = Some b' → r f = true) → sols facts ps b = sols (List.filter r facts) ps b.
Proof.
  revert b. induction ps as [|p ps IH]; intros b H; [done|]. cbn.
  assert (omap (ext p b) facts = omap (ext p b) (List.filter r facts)) as <-.
  { assert (∀ f b', ext p b f = Some b' → r f = true) as Hp by (intros f b'; apply H; left). clear -Hp.
    induction facts as [|f facts IHf]; [done|]. cbn. destruct (r f) eqn:R; cbn.
    - destruct (ext p b f); [by f_equal|done].
    - destruct (ext p b f) eqn:E; [|done]. apply Hp in E. congruence. }
  apply flat_map_ext_in. intros b' _. apply IH. intros q b1 f b2 Iq. apply H. by right.
Qed.

Lemma solutions_tuples l l' ps b : (tuple <$> l) ≡ₚ (tuple <$> l') → sols l ps b ≡ₚ sols l' ps b.
Proof.
  intros P. revert b. induction ps as [|p ps IH]; intros b; [done|]. cbn.
  assert (∀ k : list Fact, omap (ext p b) k = omap (λ t, ext p b (fact_of t)) (tuple <$> k : list (EntityId * string * Value))) as T.
  { intros k. induction k as [|f k IHk]; [done|]. cbn. rewrite <-extend_tuple. destruct (ext p b f); [by f_equal|done]. }
  rewrite !T. etrans; [apply flat_map_perm; intros b'; apply IH|].
  assert (omap (λ t, ext p b (fact_of t)) (tuple <$> l) ≡ₚ omap (λ t, ext p b (fact_of t)) (tuple <$> l')) as Q by by rewrite P.
  clear -Q. induction Q as [|x k k' Q IH|x y k|k k1 k2 Q1 IH1 Q2 IH2]; cbn; [done|by rewrite IH| |by etrans].
  rewrite !app_assoc. f_equiv. apply Permutation_app_comm.
Qed.

(** Lists that hold each key once and the same keys of a class hold the same
    triples of the class. *)
Lemma tuples_of_keys {K} (key : Fact → K) (h : K → EntityId * string * Value) (r : Fact → bool) V W :
  (∀ f, f ∈ V ∨ f ∈ W → tuple f = h (key f)) → NoDup (key <$> V) → NoDup (key <$> W) →
  (∀ f g, key f = key g → r f = r g) → (∀ f, r f = true → key f ∈ key <$> V ↔ key f ∈ key <$> W) →
  (tuple <$> List.filter r V) ≡ₚ (tuple <$> List.filter r W).
Proof.
  intros T NV NW R M.
  assert ((key <$> List.filter r V) ≡ₚ (key <$> List.filter r W)) as P.
  { assert (∀ l l' : list Fact, (∀ f, r f = true → key f ∈ key <$> l → key f ∈ key <$> l') →
      ∀ k, k ∈ key <$> List.filter r l → k ∈ key <$> List.filter r l') as Half.
    { intros l l' H k (f & -> & [Rf If]%elem_of_List_filter)%list_elem_of_fmap.
      destruct (proj1 (list_elem_of_fmap _ _ _) (H f Rf (list_elem_of_fmap_2 key _ _ If))) as (g & Eg & Ig).
      rewrite Eg. apply list_elem_of_fmap_2, elem_of_List_filter. split; [|done]. by rewrite <-(R f g Eg). }
    apply NoDup_Permutation.
    - by apply NoDup_fmap_filter.
    - by apply NoDup_fmap_filter.
    - intros k. split; apply Half; intros f Rf; by apply M. }
  assert (∀ l : list Fact, (∀ f, f ∈ l → tuple f = h (key f)) → tuple <$> l = h <$> (key <$> l)) as E.
  { intros l Hl. rewrite <-list_fmap_compose. apply list_fmap_ext. intros i f L. apply Hl. by apply list_elem_of_lookup_2 in L. }
  rewrite !E; [by rewrite P|..]; intros f [_ I]%elem_of_List_filter; auto.
Qed.

(** The declarative answers: a fact of the view for each pattern, every filter, no
    negated body that holds, the variables of the find clause. *)
Definition answers (registry : FunctionRegistry) (facts : list Fact) (q : DatalogQuery) : list (list Value) :=
  extract_variables
    (List.filter (survives parse_str new_v5_oid facts (q_where q))
       (List.filter (keeps_all is_match registry (exprs_of (q_where q)))
          (solutions parse_str new_v5_oid facts (patterns_of (q_where q)) ∅))) (q_find q).

(** A query of the theorem: patterns with constant attributes and linear variables,
    filters without division, negations of such patterns, plain variables in the
    find clause. *)
Definition query_clause_ok (c : WhereClause) : Prop :=
  match c with Not body | NotJoin _ body => body_ok body | _ => clause_ok c end.
Record plain_query (q : DatalogQuery) : Prop := {
  pq_clauses c : c ∈ q_where q → query_clause_ok c;
  pq_where : q_where q ≠ [];
  pq_find f : f ∈ q_find q → ∃ x, f = FVariable x;
  pq_time x : q_valid_at q ≠ Some (ValidAtSlot x);
}.
Definition is_negation (c : WhereClause) : bool := match c with Not _ | NotJoin _ _ => true | _ => false end.
Definition negated (q : DatalogQuery) : bool := existsb is_negation (q_where q).

(** The patterns and filters, which the planner sees, are the other clauses. *)
Lemma plan_clauses_ok q c : plain_query q → c ∈ plan_clauses q → clause_ok c.
Proof. intros [O _ _ _] [E I]%elem_of_List_filter. apply O in I. by destruct c. Qed.
Lemma plan_clauses_patterns q : patterns_of (plan_clauses q) = patterns_of (q_where q).
Proof. unfold plan_clauses, patterns_of. induction (q_where q) as [|c cs IH]; [done|]. destruct c; cbn; first [exact IH|f_equal; exact IH]. Qed.
Lemma plan_clauses_exprs q : exprs_of (plan_clauses q) = exprs_of (q_where q).
Proof. unfold plan_clauses, exprs_of. induction (q_where q) as [|c cs IH]; [done|]. destruct c; cbn; first [exact IH|f_equal; exact IH]. Qed.
Lemma plain_negations q : plain_query q → negations_ok (q_where q).
Proof.
  intros [O _ _ _]. split; [intros body|intros vars body]; intros (c & I & E)%list_elem_of_omap; apply O in I;
    destruct c; try done; by injection E; intros; subst.
Qed.
Lemma plain_query_patterns q p : plain_query q → p ∈ patterns_of (q_where q) → p ∈ query_patterns q ∧ pattern_ok p.
Proof.
  intros [O _ _ _] (c & I & E)%list_elem_of_omap. destruct c as [p0| | | | | |]; try done. injection E as ->. split.
  - apply elem_of_flat_map. exists (CPattern p). split; [done|]. left.
  - by apply O in I.
Qed.
Lemma body_query_patterns body p : body_ok body → p ∈ patterns_of body → p ∈ flat_map clause_patterns body ∧ pattern_ok p.
Proof.
  intros B (c & I & E)%list_elem_of_omap. destruct (bo_patterns _ B c I) as (p' & -> & P). injection E as ->.
  split; [|done]. apply elem_of_flat_map. exists (CPattern p). split; [done|]. left.
Qed.
(** The bodies of negations, as rows see them. *)
Lemma negated_patterns q body p : plain_query q →
  body ∈ not_bodies (q_where q) ∨ (∃ vars, (vars, body) ∈ not_join_bodies (q_where q)) →
  p ∈ patterns_of body → p ∈ query_patterns q ∧ pattern_ok p.
Proof.
  intros Pq B Ip. assert (∃ c, c ∈ q_where q ∧ clause_patterns c = flat_map clause_patterns body ∧ body_ok body) as (c & Ic & Ec & Ob).
  { destruct B as [B|[vars B]]; apply list_elem_of_omap in B as (c & I & E); exists c; split; try done;
      apply (pq_clauses q Pq) in I; destruct c; try done; injection E; intros; by subst. }
  destruct (body_query_patterns body p Ob Ip) as [I P]. split; [|done]. apply elem_of_flat_map. exists c. by rewrite Ec.
Qed.
Lemma plain_no_rules q : plain_query q → uses_rules q = false.
Proof.
  intros [O _ _ _]. unfold uses_rules. apply not_true_iff_false. intros (c & I & E)%existsb_exists.
  apply list_elem_of_In, O in I. revert E.
  assert (∀ body, body_ok body → flat_map rule_invocations body = []) as B.
  { intros body (ps & _ & -> & _)%body_patterns_eq. by induction ps. }
  destruct c; try done; cbn; by rewrite B.
Qed.
Lemma plain_no_pseudo q : plain_query q → query_uses_per_fact_pseudo_attr q = false.
Proof.
  intros [O _ _ _]. apply not_true_iff_false. intros (c & I & E)%existsb_exists. apply list_elem_of_In, O in I.
  destruct c as [p| |inner|vars inner| | |]; try done.
  - destruct I as [[a R] _]. cbn in E. by rewrite R in E.
  - apply body_patterns_eq in I as (ps & _ & -> & P). cbn in E. pose proof (no_pseudo_patterns ps P). unfold clauses_use_per_fact_pseudo_attr in *. congruence.
  - apply body_patterns_eq in I as (ps & _ & -> & P). cbn in E. pose proof (no_pseudo_patterns ps P). unfold clauses_use_per_fact_pseudo_attr in *. congruence.
Qed.
Lemma plain_no_aggregate q : plain_query q → existsb is_aggregate (q_find q) = false ∧ existsb is_window (q_find q) = false.
Proof.
  intros [_ _ F _]. split; apply not_true_iff_false; intros (f & I & E)%existsb_exists;
    apply list_elem_of_In, F in I as [x ->]; done.
Qed.
Lemma plain_or facts now va registry mx cs rows : (∀ c, c ∈ cs → query_clause_ok c) →
  apply_or_clauses parse_str new_v5_oid uuid_to_string is_match facts now va registry mx cs rows = Ok rows.
Proof.
  unfold apply_or_clauses. induction cs as [|c cs IH]; intros O; [done|]. cbn [foldR].
  assert (query_clause_ok c) as Oc by (apply O; left). rewrite apply_or_clause_eq.
  destruct c; try done; cbn [mbind result_bind]; apply IH; intros; apply O; by right.
Qed.
Lemma unnegated_bodies q : negated q = false → not_bodies (q_where q) = [] ∧ not_join_bodies (q_where q) = [].
Proof.
  unfold negated. induction (q_where q) as [|c cs IH]; [done|]. cbn [existsb]. intros [N E]%orb_false_iff.
  destruct (IH E) as [E1 E2]. by destruct c.
Qed.

(** The negations of a query keep the rows that survive. *)
Lemma query_negation set_order facts v registry mx q rows :
  (∀ l r, r ∈ set_order l ↔ r ∈ l) → 0 ≤ mx → plain_query q →
  (negated q = true → firm_facts facts) → (negated q = true → ∀ b, b ∈ rows → firm_row b) →
  match apply_negation parse_str new_v5_oid uuid_to_string is_match set_order facts v registry mx (q_where q) rows with
  | Ok kept => kept = List.filter (survives parse_str new_v5_oid facts (q_where q)) rows
  | Err e => e = BINDING_LIMIT
  end.
Proof.
  intros So Mx Pq F B. destruct (negated q) eqn:N.
  - apply negation_decides; auto using plain_negations.
  - destruct (unnegated_bodies q N) as [E1 E2]. unfold apply_negation, sorted_not_bodies, sorted_not_join_bodies.
    rewrite E1, E2. cbn. symmetry. apply List_filter_id. intros b _. unfold survives. by rewrite E1, E2.
Qed.
(** Whether a row survives depends on the triples of the bodies' patterns. *)
Lemma survives_relevant (r : Fact → bool) V W q b : plain_query q →
  (∀ p b f b', p ∈ query_patterns q → pattern_ok p → ext p b f = Some b' → r f = true) →
  (tuple <$> List.filter r V) ≡ₚ (tuple <$> List.filter r W) →
  survives parse_str new_v5_oid V (q_where q) b = survives parse_str new_v5_oid W (q_where q) b.
Proof.
  intros Pq Rel T.
  assert (∀ body c, body ∈ not_bodies (q_where q) ∨ (∃ vars, (vars, body) ∈ not_join_bodies (q_where q)) →
    body_holds parse_str new_v5_oid V body c = body_holds parse_str new_v5_oid W body c) as H.
  { intros body c Ib. unfold body_holds. apply existsb_perm.
    assert (∀ p b f b', p ∈ patterns_of body → ext p b f = Some b' → r f = true) as Rb.
    { intros p b1 f b2 Ip. destruct (negated_patterns q body p Pq Ib Ip). eauto. }
    rewrite (solutions_relevant _ V _ _ Rb), (solutions_relevant _ W _ _ Rb). by apply solutions_tuples. }
  unfold survives. f_equal; rewrite !forallb_negb; f_equal; apply existsb_cong.
  - intros body I. apply H. by left.
  - intros [vars body] I. apply H. eauto.
Qed.
End answers.

Lemma plain_canonical v : plain_value v = true → canonical v = v.
Proof. by destruct v. Qed.
Lemma plain_log_distinct log : (∀ f, f ∈ log → plain_value (value f) = true) → Forall fact_ok log → encodings_distinct log.
Proof.
  intros P O f g F G E. rewrite Forall_forall in O.
  destruct (proj1 (encode_value_identity _ _ (ok_value _ (O f F)) (ok_value _ (O g G))) E) as [X|[[N _]|[N _]]].
  - by apply canonical_eq_iff in X.
  - apply P in F. destruct N as (x & N & _). by rewrite N in F.
  - apply P in F. by rewrite N in F.
Qed.

Section end_to_end.
Context (hasher : EavtKey → Z) (s : FactStorage) (log : list Fact) (rows : list (Fact * FactRef)).
Hypothesis Ok_s : store_ok hasher s log.
Hypothesis Ok_log : Forall fact_ok log.
Hypothesis Backed : backed_by s rows.
Hypothesis Plain : ∀ f, f ∈ log → plain_value (value f) = true.

Lemma log_nonneg : nonneg log.
Proof using Ok_log. intros g G. rewrite Forall_forall in Ok_log. destruct (Ok_log g G). ilia. Qed.

(** The plan reads a part of the log with the same triples of its ranges in view. *)
Lemma plan_view plan mx facts now o va V W : plan_ok plan → 0 ≤ mx → read_facts_bounded plan s mx = Ok facts →
  filter_facts_for_query now o va facts = Ok V → filter_facts_for_query now o va log = Ok W →
  (∀ f, f ∈ V → f ∈ log) ∧
  (tuple <$> List.filter (plan_admits plan) V) ≡ₚ (tuple <$> List.filter (plan_admits plan) W).
Proof using All.
  intros P M R EV EW.
  pose proof (read_facts_result hasher s log rows Ok_s Ok_log Backed (plain_log_distinct log Plain Ok_log) plan mx P M) as Rf.
  rewrite R in Rf. destruct Rf as [Sub H]. pose proof log_nonneg as Nl.
  assert (nonneg facts) as Nf by (intros g G; auto).
  assert (∀ f, f ∈ V → f ∈ log) as SV by (intros f F; apply Sub; by apply (view_subset now o va facts V f)).
  split; [done|]. pose proof (plan_admits_eav plan) as Ce.
  destruct (read_same_class log facts _ Ce Sub H) as [S1 S2].
  assert (∀ f, f ∈ V ∨ f ∈ W → plain_value (value f) = true) as Pl.
  { intros f [F|F]; apply Plain; [auto|]. by apply (view_subset now o va log W f). }
  pose proof (view_keys now o va facts V Nf EV) as KV. pose proof (view_keys now o va log W Nl EW) as KW.
  unfold view_distinct in KV, KW. destruct (is_any_valid_time va) eqn:A.
  - assert (va = Some AnyValidTime) as -> by (destruct va as [[]|]; done).
    apply (tuples_of_keys window_key fst); [|done|done| |].
    + intros f F. unfold tuple, window_key, eav_key. cbn. by rewrite plain_canonical by auto.
    + intros f g [= E1 E2 _ _ _]. apply iff_bool_eq. split; apply Ce; congruence.
    + intros f C. split; [eapply (view_class _ Ce); [exact Nf|exact Nl|exact S1|exact C|exact EV|exact EW|done]|
                          eapply (view_class _ Ce); [exact Nl|exact Nf|exact S2|exact C|exact EW|exact EV|done]].
  - apply (tuples_of_keys eav_key id); [|done|done| |].
    + intros f F. unfold tuple, eav_key. cbn. by rewrite plain_canonical by auto.
    + intros f g [= E1 E2 _]. apply iff_bool_eq. split; apply Ce; congruence.
    + intros f C. split; [eapply (view_class _ Ce); [exact Nf|exact Nl|exact S1|exact C|exact EV|exact EW]|
                          eapply (view_class _ Ce); [exact Nl|exact Nf|exact S2|exact C|exact EW|exact EV]].
Qed.
End end_to_end.

Definition query_errors : list string :=
  [TOO_MANY; "unknown predicate"%string; BINDING_LIMIT; RESULT_LIMIT].


(** * Two steps along edges *)

Definition edge_tuples : list (EntityId * Attribute * Value * option TransactOptions) :=
  [ (1, ":edge"%string, VRef 2, None); (2, ":edge"%string, VRef 3, None); (3, ":name"%string, VString "c", None) ].
Definition edge_store : FactStorage := (transact_batch const_hasher 1000 storage_new edge_tuples None).1.
Definition edge_log : list Fact :=
  [ mkFact 1 ":edge" (VRef 2) 1000 1 1000 VALID_TIME_FOREVER true;
    mkFact 2 ":edge" (VRef 3) 1000 1 1000 VALID_TIME_FOREVER true;
    mkFact 3 ":name" (VString "c") 1000 1 1000 VALID_TIME_FOREVER true ].
Lemma edge_store_ok : store_ok const_hasher edge_store edge_log.
Proof.
  assert (store_step const_hasher storage_new edge_store) as St.
  { eapply (StepTransactBatch _ _ 1000 edge_tuples None); by vm_compute. }
  destruct (store_step_ok const_hasher _ _ _ (storage_new_ok _) St) as ((n & Ok & _) & _).
  assert (edge_log = n) as ->; [|exact Ok].
  pose proof (get_all_facts_ok _ _ _ Ok) as E. vm_compute in E. by injection E.
Qed.
Lemma edge_log_ok : Forall fact_ok edge_log.
Proof. repeat (constructor; [split; try done; cbn; ilia|]). constructor. Qed.
Lemma edge_log_firm : firm_facts edge_log.
Proof. intros f. unfold edge_log. rewrite !elem_of_cons, elem_of_nil. by intros [->|[->|[->|[]]]]. Qed.
Definition two_steps : DatalogQuery :=
  query_new [FVariable "?x"; FVariable "?n"]
    [CPattern (pattern_new (ESymbol "?x") (EKeyword ":edge") (ESymbol "?y"));
     CExpr (Bin OpEq (Var "?n") (Lit (VString "c"))) None;
     CPattern (pattern_new (ESymbol "?y") (EKeyword ":edge") (ESymbol "?z"));
     CPattern (pattern_new (ESymbol "?z") (EKeyword ":name") (ESymbol "?n"));
     Not [CPattern (pattern_new (ESymbol "?x") (EKeyword ":name") (ESymbol "?m"))]].
Definition run_two_steps : result QueryResult :=
  execute_query no_uuid v5_stub print_stub (λ _ _, false) id (λ _, 2000) const_hasher (λ _, 7)
    map_to_list map_to_list map_to_list Z.of_nat (executor_new edge_store) two_steps.
Lemma two_steps_plain : plain_query two_steps.
Proof.
  split.
  - intros c. cbn. rewrite !elem_of_cons, elem_of_nil. intros [->|[->|[->|[->|[->|[]]]]]]; cbn; [| done| | |split; [done|]];
      [..|intros c' ->%list_elem_of_singleton; eexists; split; [reflexivity|]];
      (split; [by eexists|apply (bool_decide_unpack _); vm_compute; exact I]).
  - done.
  - intros f. cbn. rewrite !elem_of_cons, elem_of_nil. intros [->|[->|[]]]; by eexists.
  - done.
Qed.

(** * Commands *)

Section commands.
Context (parse_str : string → option Z) (new_v5_oid : string → Z) (hasher : EavtKey → Z).
#[local] Abbreviation transact_command := (execute_transact parse_str new_v5_oid hasher).
#[local] Abbreviation retract_command := (execute_retract parse_str new_v5_oid hasher).
Context (ex : DatalogExecutor) (log : list Fact) (now : Z) (tx : Transaction).
Hypothesis Ok_ex : store_ok hasher (ex_storage ex) log.
Hypothesis Counter : tx_counter (ex_storage ex) < u64_MAX.
Hypothesis Room : fits (ex_storage ex) (length (tx_facts tx)).

Lemma old_counts f : f ∈ log → tx_count f < tx_counter (ex_storage ex) + 1.
Proof using Ok_ex. intros F. apply (so_counts _ _ _ Ok_ex) in F. lia. Qed.

Lemma transact_writes tuples : mapR (command_tuple parse_str new_v5_oid) (tx_facts tx) = Ok tuples →
  let new := (λ '(t, o), assertion_of now (tx_counter (ex_storage ex) + 1)
                (default (default default_opts (opts_of (tx_valid_from tx) (tx_valid_to tx))) o) t) <$> tuples in
  ∃ s', transact_command ex now tx = (with_storage ex s', Ok (Transacted now)) ∧ store_ok hasher s' (log ++ new).
Proof using All.
  intros E new. destruct (write_spec hasher (ex_storage ex) log (λ c, (λ '(t, o), assertion_of now c
    (default (default default_opts (opts_of (tx_valid_from tx) (tx_valid_to tx))) o) t) <$> tuples) Ok_ex Counter) as (s' & W & Ok' & C).
  { rewrite length_fmap. apply mapR_Forall2, Forall2_length in E. by rewrite <-E. }
  { intros f ([t o] & -> & _)%list_elem_of_fmap. apply assertion_of_spec. }
  exists s'. split; [|done]. unfold execute_transact. rewrite E. unfold transact_batch.
  destruct (allocate_spec hasher (ex_storage ex) log Ok_ex Counter) as (_ & A & _ & _).
  destruct (allocate_tx_count (ex_storage ex)) as [s0 c0]. cbn in *. by rewrite W.
Qed.
Lemma retract_writes tuples : mapR (command_tuple parse_str new_v5_oid) (tx_facts tx) = Ok tuples →
  let new := retraction_of now (tx_counter (ex_storage ex) + 1) (opts_of (tx_valid_from tx) (tx_valid_to tx)) <$> tuples in
  ∃ s', retract_command ex now tx = (with_storage ex s', Ok (Retracted now)) ∧ store_ok hasher s' (log ++ new).
Proof using All.
  intros E new. destruct (write_spec hasher (ex_storage ex) log (λ c, retraction_of now c
    (opts_of (tx_valid_from tx) (tx_valid_to tx)) <$> tuples) Ok_ex Counter) as (s' & W & Ok' & C).
  { rewrite length_fmap. apply mapR_Forall2, Forall2_length in E. by rewrite <-E. }
  { intros f (t & -> & _)%list_elem_of_fmap. apply retraction_of_spec. }
  exists s'. split; [|done]. unfold execute_retract. rewrite E. unfold retract_batch.
  destruct (allocate_spec hasher (ex_storage ex) log Ok_ex Counter) as (_ & A & _ & _).
  destruct (allocate_tx_count (ex_storage ex)) as [s0 c0]. cbn in *. by rewrite W.
Qed.

(** C17: a command is all or nothing and takes effect.  A [transact] or [retract] with
    an entity, attribute or value that cannot be stored is an error and leaves the
    executor as it was.  Otherwise it succeeds, appends one record per fact in one
    transaction, and then every transacted triple is in the net view, and no
    triple retracted without a valid time is. *)
Theorem commands_take_effect :
  match mapR (command_tuple parse_str new_v5_oid) (tx_facts tx) with
  | Err e => transact_command ex now tx = (ex, Err e) ∧ retract_command ex now tx = (ex, Err e)
  | Ok tuples =>
    (∃ s' new, transact_command ex now tx = (with_storage ex s', Ok (Transacted now)) ∧
       store_ok hasher s' (log ++ new) ∧ length new = length (tx_facts tx) ∧
       ∀ e a v o, (e, a, v, o) ∈ tuples → (e, a, canonical v) ∈ eav_key <$> net_asserted_facts (log ++ new)) ∧
    (∃ s' new, retract_command ex now tx = (with_storage ex s', Ok (Retracted now)) ∧
       store_ok hasher s' (log ++ new) ∧ length new = length (tx_facts tx) ∧
       ∀ e a v, opts_of (tx_valid_from tx) (tx_valid_to tx) = None → (e, a, v, None) ∈ tuples →
         (e, a, canonical v) ∉ eav_key <$> net_asserted_facts (log ++ new))
  end.
Proof using All.
  destruct (mapR _ (tx_facts tx)) as [tuples|e] eqn:E.
  2: { unfold execute_transact, execute_retract. by rewrite E. }
  pose proof (so_counter _ _ _ Ok_ex) as C0. pose proof old_counts as Old.
  pose proof E as L. apply mapR_Forall2, Forall2_length in L. split.
  - destruct (transact_writes tuples E) as (s' & T & Ok'). eexists s', _. split; [exact T|]. split; [exact Ok'|].
    rewrite length_fmap. split; [done|]. intros e a v o I.
    match goal with |- context [log ++ ?new] => set (n := new) end.
    assert (∀ f, f ∈ n → asserted f = true ∧ tx_count f = tx_counter (ex_storage ex) + 1) as Hn.
    { intros f ([t o'] & -> & _)%list_elem_of_fmap. apply assertion_of_spec. }
    assert (∀ g, g ∈ log ++ n → 0 ≤ tx_count g) as Nn.
    { intros g [G|G]%elem_of_app; [apply (so_counts _ _ _ Ok_ex) in G; lia|]. apply Hn in G as [_ ->]. lia. }
    pose proof (list_elem_of_fmap_2 (λ '(t, o), assertion_of now (tx_counter (ex_storage ex) + 1)
      (default (default default_opts (opts_of (tx_valid_from tx) (tx_valid_to tx))) o) t) _ _ I) as In. cbn in In.
    match type of In with ?f ∈ _ => set (fct := f) in * end.
    destruct (visible_net (log ++ n) fct Nn) as (g & G & W).
    + split; [apply elem_of_app; by right|]. destruct (Hn fct In) as [A Cf]. split; [done|]. rewrite Cf. split; [lia|].
      intros g [G|G]%elem_of_app X; [by apply Old|]. apply Hn in G as [Ag _]. unfold cancels in X. by rewrite Ag in X.
    + apply list_elem_of_fmap. exists g. split; [|done]. injection W as W1 W2 W3 _ _. unfold eav_key. by rewrite W1, W2, W3.
  - destruct (retract_writes tuples E) as (s' & T & Ok'). eexists s', _. split; [exact T|]. split; [exact Ok'|].
    rewrite length_fmap. split; [done|]. intros e a v O I (f & Ef & F)%list_elem_of_fmap.
    rewrite (net_append_retractions log _ (tx_counter (ex_storage ex) + 1)) in F.
    + apply elem_of_List_filter in F as [X _]. apply negb_true_iff in X. apply not_true_iff_false in X. apply X.
      apply existsb_exists. eexists. split; [apply list_elem_of_In, (list_elem_of_fmap_2 _ _ _ I)|].
      unfold retraction_of. rewrite O. unfold cancels. cbn. apply bool_decide_eq_true. exact Ef.
    + intros g Hg. apply (so_counts _ _ _ Ok_ex) in Hg. lia.
    + lia.
    + intros f' (t & -> & _)%list_elem_of_fmap. apply retraction_of_spec.
Qed.
End commands.

Definition name_command : Transaction :=
  transaction_new [pattern_new (EUuid 7) (EKeyword ":name") (EString "g")].
Lemma commands_take_effect_witness :
  ∃ s' new, execute_transact no_uuid v5_stub const_hasher (executor_new edge_store) 3000 name_command
      = (with_storage (executor_new edge_store) s', Ok (Transacted 3000)) ∧
    store_ok const_hasher s' (edge_log ++ new) ∧
    (7, ":name"%string, VString "g") ∈ eav_key <$> net_asserted_facts (edge_log ++ new).
Proof.
  pose proof (commands_take_effect no_uuid v5_stub const_hasher (executor_new edge_store) edge_log 3000 name_command
    edge_store_ok ltac:(by vm_compute) ltac:(by vm_compute)) as T.
  cbn in T. destruct T as [(s' & new & T & Ok' & _ & N) _]. exists s', new. split; [exact T|]. split; [exact Ok'|].
  apply (N 7 ":name"%string (VString "g") None). left.
Defined.
