(* ===== verification/Database.v ===== *)
(** The database handle (src/src/db.rs): write commands applied WAL first, explicit
    write transactions with read-your-own-writes, [forget], checkpoints, opening and
    the export of the log.

    A handle is a value that the operations return changed; the write lock makes the
    operations of one handle a sequence.  Commands arrive parsed.  [clock i] is the
    [i]-th reading of the wall clock during an operation.  The paged file behind
    a checkpoint is used through [CheckpointStore]. *)
From S2P Require Import Prelude Types ValueCodec Floats HashKeys NetView SortedRuns Index PendingOverlay FactStore Lookup MergeScan CurrentState IndexScan Cursors Wal QueryTypes Functions Expressions Matcher AccessPlan JoinOrder Optimizer Branches Aggregation Stratification Evaluator LeastModel MagicSets Executor Negation.
Set Default Proof Using "Type".

Definition VALID_FROM_USE_TX_TIME : Z := i64_MIN.

Record OpenOptions : Type := mkOptions {
  wal_checkpoint_threshold : Z;
  page_cache_size : Z;
  opt_max_derived_facts : Z;
  opt_max_results : Z;
}.
Definition default_options : OpenOptions :=
  mkOptions 1000 256 DEFAULT_MAX_DERIVED_FACTS DEFAULT_MAX_RESULTS.

Inductive CheckpointPolicy : Type := Automatic | ExplicitMaintenance.
Definition permits_automatic (p : CheckpointPolicy) : bool :=
  match p with Automatic => true | ExplicitMaintenance => false end.

Inductive CheckpointOutcome : Type := Noop | FullRebuild | FullRebuildFromVisibleDelta | DeltaSegment.
Definition permits_wal_retire (o : CheckpointOutcome) : bool := match o with Noop => false | _ => true end.

(** What the handle uses of [PersistentFactStorage]: the store a file opens with, its
    checkpointed counter, and saving the store's pending facts into it. *)
Class CheckpointStore (Pfs : Type) : Type := {
  pfs_storage : Pfs → FactStorage;
  last_checkpointed_tx_count : Pfs → Z;
  pfs_save : Pfs → FactStorage → Pfs * FactStorage * result CheckpointOutcome;
}.

(** * Facts of a command *)

Section materialize.
Context (parse_str : string → option Z) (new_v5_oid : string → Z).

Definition fact_parts (pseudo_error : string) (p : Pattern) : result (EntityId * Attribute * Value) :=
  entity ← map_err (edn_to_entity_id parse_str new_v5_oid (pat_entity p)) "invalid entity: ";
  attr ← match pat_attribute p with
         | Real (EKeyword k) => Ok k
         | Real _ => Err "attribute must be a keyword"
         | Pseudo _ => Err pseudo_error
         end;
  value ← map_err (edn_to_value (pat_value p)) "invalid value: ";
  Ok (entity, attr, value).
Definition or_else {A} (a b : option A) : option A := match a with Some _ => a | None => b end.

Definition materialize_assertion (tx : Transaction) (p : Pattern) : result Fact :=
  '(e, a, v) ← fact_parts "cannot transact a pseudo-attribute" p;
  Ok (fact_with_valid_time e a v 0 0
        (default VALID_FROM_USE_TX_TIME (or_else (pat_valid_from p) (tx_valid_from tx)))
        (default VALID_TIME_FOREVER (or_else (pat_valid_to p) (tx_valid_to tx)))).
Definition materialize_transaction (tx : Transaction) : result (list Fact) :=
  mapR (materialize_assertion tx) (tx_facts tx).

Definition materialize_retraction_fact (tx : Transaction) (p : Pattern) : result Fact :=
  '(e, a, v) ← fact_parts "cannot transact a pseudo-attribute" p;
  Ok match or_else (pat_valid_from p) (tx_valid_from tx), or_else (pat_valid_to p) (tx_valid_to tx) with
     | None, None => set_tx_count (fact_retract e a v 0) 0
     | vf, vt => fact_retract_with_valid_time e a v 0 0 (default VALID_FROM_USE_TX_TIME vf) (default VALID_TIME_FOREVER vt)
     end.
Definition materialize_retraction (tx : Transaction) : result (list Fact) :=
  mapR (materialize_retraction_fact tx) (tx_facts tx).

(** Stamping at commit: one id, one counter, and the sentinel start resolved. *)
Definition use_tx_time (f : Fact) : Fact :=
  if valid_from f =? VALID_FROM_USE_TX_TIME
  then mkFact (entity f) (attribute f) (value f) (tx_id f) (tx_count f) (cast_signed (tx_id f)) (valid_to f) (asserted f)
  else f.
Definition stamp (tx count : Z) (f : Fact) : Fact :=
  mkFact (entity f) (attribute f) (value f) tx count (valid_from f) (valid_to f) (asserted f).
Definition stamp_commit (tx count : Z) (f : Fact) : Fact := use_tx_time (stamp tx count f).

(** * Closing windows *)

Definition Triple : Type := EntityId * Attribute * Value.
(** Push a triple unless its encoding was seen. *)
Definition push_triple (st : gset (EntityId * Attribute * bytes) * list Triple) (t : Triple)
    : gset (EntityId * Attribute * bytes) * list Triple :=
  let '(seen, triples) := st in
  let key := (t.1.1, t.1.2, encode_value t.2) in
  if bool_decide (key ∈ seen) then st else ({[key]} ∪ seen, triples ++ [t]).

Definition forget_row (row : list Value) : result Triple :=
  match row with
  | e :: a :: v :: _ =>
    match e with
    | VRef entity =>
      match a with
      | VKeyword attr => Ok (entity, attr, v)
      | _ => Err "forget query second :find variable must bind attributes (attribute position in :where), got a non-keyword value"
      end
    | _ => Err "forget query first :find variable must bind entities (entity position in :where), got a non-entity value"
    end
  | _ => Err "internal error: forget query row does not have 3 columns"
  end.
Definition set_valid_at (q : DatalogQuery) (t : Z) : DatalogQuery :=
  mkQuery (q_find q) (q_where q) (q_as_of q) (Some (ValidAtTimestamp t)) (q_with_vars q)
    (q_max_derived_facts q) (q_max_results q).
(** [run] is the executor's [execute] on a query. *)
Definition resolve_forget_triples (run : DatalogQuery → result QueryResult) (spec : ForgetSpec) (closure_time : Z)
    : result (list Triple) :=
  named ← match forget_source spec with
          | ForgetQuery q =>
            r ← run (set_valid_at q closure_time);
            match r with
            | QueryResults _ results => mapR forget_row results
            | _ => Err "internal error: forget query did not return query results"
            end
          | ForgetFacts patterns => mapR (fact_parts "cannot forget a pseudo-attribute") patterns
          end;
  Ok (foldl push_triple (∅, []) named).2.
End materialize.

Definition contains_time (t : Z) (f : Fact) : bool := (valid_from f <=? t) && (t <? valid_to f).
(** One window of a triple: a scoped retraction, and the part before the closure
    once per start. *)
Definition close_window (t : Triple) (closure_time : Z) (st : gset Z * list Fact) (window : Fact) : gset Z * list Fact :=
  let '(starts, facts) := st in
  let '(e, a, v) := t in
  let facts := facts ++ [fact_retract_with_valid_time e a v 0 0 (valid_from window) (valid_to window)] in
  if (valid_from window <? closure_time) && negb (bool_decide (valid_from window ∈ starts))
  then ({[valid_from window]} ∪ starts, facts ++ [fact_with_valid_time e a v 0 0 (valid_from window) closure_time])
  else (starts, facts).
Definition close_windows (t : Triple) (closure_time : Z) (windows : list Fact) : list Fact :=
  (foldl (close_window t closure_time) (∅, []) (List.filter (contains_time closure_time) windows)).2.
Definition close_triple (s : FactStorage) (closure_time : Z) (st : list Fact * Z) (t : Triple) : result (list Fact * Z) :=
  let '(facts, closed) := st in
  history ← facts_for_triple s t.1.1 t.1.2 t.2;
  let new := close_windows t closure_time (net_asserted_facts history) in
  Ok (facts ++ new, if existsb (contains_time closure_time) (net_asserted_facts history)
                    then sat_add_u64 closed 1 else closed).
Definition materialize_closure (s : FactStorage) (triples : list Triple) (closure_time : Z) : result (list Fact * Z) :=
  foldR (close_triple s closure_time) ([], 0) triples.

(** * The write context *)

Section database.
Context (parse_str : string → option Z) (new_v5_oid : string → Z) (uuid_to_string : Z → string).
Context (is_match : string → string → bool).
Context (to_allocvec : Fact → result bytes) (from_bytes : bytes → result Fact) (crc32 : bytes → Z).
Context (hasher : EavtKey → Z).
Context {Pfs : Type} `{CheckpointStore Pfs}.

(** [wal_open] says whether the writer is there; [wal_file] is the sidecar on disk. *)
Record FileContext : Type := mkFileContext {
  pfs : Pfs;
  pfs_dirty : bool;
  wal_open : bool;
  wal_file : option bytes;
  wal_entry_count : Z;
}.
Inductive WriteContext : Type := Memory | File (c : FileContext).

Definition wal_write_stamped_batch (ctx : WriteContext) (opts : OpenOptions) (policy : CheckpointPolicy)
    (tx_count : Z) (facts : list Fact) : WriteContext * result bool :=
  match ctx with
  | Memory => (ctx, Ok false)
  | File c =>
    match (if wal_open c then from_option Ok (Err "WAL not initialized") (wal_file c) else open_or_create (wal_file c)) with
    | Err e => (ctx, Err e)
    | Ok file =>
      match append_entry to_allocvec crc32 file tx_count facts with
      | Err e => (File (mkFileContext (pfs c) (pfs_dirty c) true (Some file) (wal_entry_count c)), Err e)
      | Ok file =>
        let count := sat_add_u64 (wal_entry_count c) 1 in
        (File (mkFileContext (pfs c) true true (Some file) count),
         Ok (permits_automatic policy && (wal_checkpoint_threshold opts <=? count)))
      end
    end
  end.

Definition NO_PUBLISH : string := "Checkpoint produced no durable publish while WAL entries remain".
Definition do_checkpoint (s : FactStorage) (ctx : WriteContext) : FactStorage * WriteContext * result CheckpointOutcome :=
  match ctx with
  | Memory => (s, ctx, Ok Noop)
  | File c =>
    if (wal_entry_count c =? 0) && negb (pfs_dirty c) then (s, ctx, Ok Noop)
    else match pfs_save (pfs c) s with
         | (p, s, Err e) => (s, File (mkFileContext p true (wal_open c) (wal_file c) (wal_entry_count c)), Err e)
         | (p, s, Ok outcome) =>
           if (0 <? wal_entry_count c) && negb (permits_wal_retire outcome)
           then (s, File (mkFileContext p false (wal_open c) (wal_file c) (wal_entry_count c)), Err NO_PUBLISH)
           else (s, File (mkFileContext p false false None 0), Ok outcome)
         end
  end.

(** * The handle *)

Record ViciaDb : Type := mkDb {
  db_storage : FactStorage;
  db_rules : gmap string (list Rule);
  db_functions : FunctionRegistry;
  write_context : WriteContext;
  db_options : OpenOptions;
  checkpoint_policy : CheckpointPolicy;
}.
Definition with_store (db : ViciaDb) (s : FactStorage) : ViciaDb :=
  mkDb s (db_rules db) (db_functions db) (write_context db) (db_options db) (checkpoint_policy db).
Definition with_context (db : ViciaDb) (ctx : WriteContext) : ViciaDb :=
  mkDb (db_storage db) (db_rules db) (db_functions db) ctx (db_options db) (checkpoint_policy db).

Definition in_memory_with_checkpoint_policy (opts : OpenOptions) (policy : CheckpointPolicy) : ViciaDb :=
  mkDb storage_new registry_new with_builtins Memory opts policy.
(** Opening: the store of the file, the sidecar replayed into it, the writer opened
    when the sidecar exists. *)
Definition open_with_options_and_checkpoint_policy (p : Pfs) (wal : option bytes) (opts : OpenOptions)
    (policy : CheckpointPolicy) : result ViciaDb :=
  '(s, replayed) ← replay_wal from_bytes crc32 hasher wal (pfs_storage p) (last_checkpointed_tx_count p);
  file ← match wal with None => Ok None | Some _ => file ← open_or_create wal; Ok (Some file) end;
  Ok (mkDb s registry_new with_builtins
        (File (mkFileContext p false (bool_decide (is_Some file)) file (Z.of_nat replayed))) opts policy).

Definition set_db_limits (db : ViciaDb) : DatalogExecutor :=
  set_limits (executor_new_with_rules_and_functions (db_storage db) (db_rules db) (db_functions db))
    (opt_max_derived_facts (db_options db)) (opt_max_results (db_options db)).

(** [for fact in &stamped { load_fact(fact)? }]: on an error the facts before it stay. *)
Fixpoint apply_facts (s : FactStorage) (facts : list Fact) : FactStorage * result unit :=
  match facts with
  | [] => (s, Ok tt)
  | f :: facts =>
    match load_fact hasher s f with
    | (s, Ok _) => apply_facts s facts
    | (s, Err e) => (s, Err e)
    end
  end.

(** Log the stamped batch, apply it, checkpoint when due. *)
Definition write_batch (db : ViciaDb) (tx_count : Z) (stamped : list Fact) : ViciaDb * result unit :=
  match wal_write_stamped_batch (write_context db) (db_options db) (checkpoint_policy db) tx_count stamped with
  | (ctx, Err e) => (with_context db ctx, Err e)
  | (ctx, Ok should_checkpoint) =>
    let db := with_context db ctx in
    match apply_facts (db_storage db) stamped with
    | (s, Err e) => (with_store db s, Err e)
    | (s, Ok _) =>
      if should_checkpoint : bool then
        match do_checkpoint s ctx with
        | (s, ctx, Err e) => (with_context (with_store db s) ctx, Err e)
        | (s, ctx, Ok _) => (with_context (with_store db s) ctx, Ok tt)
        end
      else (with_store db s, Ok tt)
    end
  end.

(** ** Commands *)

Context (set_order : list (gmap string Value) → list (gmap string Value)) (clock : nat → Z).
Context (write_clock : FactStorage → Z).
Context (adornment_order : gmap string (list Ascii.ascii) → list (string * list Ascii.ascii)).
Context (rule_order : gmap string (list Rule) → list (string * list Rule)).
Context (edge_order : gmap string (list (string * bool)) → list (string * list (string * bool))).
Context (new_v4 : nat → EntityId).
#[local] Abbreviation run ex q := (execute_query parse_str new_v5_oid uuid_to_string is_match set_order clock hasher write_clock
  adornment_order rule_order edge_order new_v4 ex q).
#[local] Abbreviation run_rule ex r := (execute_rule rule_order edge_order ex r).

Definition execute_forget_locked (db : ViciaDb) (now : Z) (spec : ForgetSpec) : ViciaDb * result QueryResult :=
  let closure_time := default (cast_signed now) (forget_valid_to spec) in
  match (triples ← resolve_forget_triples parse_str new_v5_oid (λ q, run (set_db_limits db) q) spec closure_time;
         materialize_closure (db_storage db) triples closure_time) with
  | Err e => (db, Err e)
  | Ok ([], _) => (db, Ok (Forgotten None 0))
  | Ok (facts, count) =>
    let '(s, tx_count) := allocate_tx_count (db_storage db) in
    match write_batch (with_store db s) tx_count (stamp now tx_count <$> facts) with
    | (db, Ok _) => (db, Ok (Forgotten (Some now) count))
    | (db, Err e) => (db, Err e)
    end
  end.

(** A batch of unstamped facts as one transaction. *)
Definition commit_facts (db : ViciaDb) (tx_id_now : Z) (facts : list Fact) : ViciaDb * result unit :=
  let '(s, tx_count) := allocate_tx_count (db_storage db) in
  write_batch (with_store db s) tx_count (stamp_commit tx_id_now tx_count <$> facts).

Definition WRITE_ACTIVE : string :=
  "a WriteTransaction is already in progress on this thread; use tx.execute() instead".
(** [write_tx_active] is the flag of the calling thread. *)
Definition db_execute (write_tx_active : bool) (db : ViciaDb) (now : Z) (cmd : DatalogCommand)
    : ViciaDb * result QueryResult :=
  if write_tx_active then (db, Err WRITE_ACTIVE)
  else match cmd with
  | CmdForget spec => execute_forget_locked db now spec
  | CmdTransact tx =>
    match materialize_transaction parse_str new_v5_oid tx with
    | Err e => (db, Err e)
    | Ok facts =>
      match commit_facts db now facts with
      | (db, Ok _) => (db, Ok (Transacted now))
      | (db, Err e) => (db, Err e)
      end
    end
  | CmdRetract tx =>
    match materialize_retraction parse_str new_v5_oid tx with
    | Err e => (db, Err e)
    | Ok facts =>
      match commit_facts db now facts with
      | (db, Ok _) => (db, Ok (Retracted now))
      | (db, Err e) => (db, Err e)
      end
    end
  | CmdRule r =>
    let '(ex, res) := run_rule (executor_new_with_rules_and_functions (db_storage db) (db_rules db) (db_functions db)) r in
    (mkDb (db_storage db) (ex_rules ex) (db_functions db) (write_context db) (db_options db) (checkpoint_policy db), res)
  | CmdQuery q => (db, run (set_db_limits db) q)
  end.

Definition checkpoint (db : ViciaDb) : ViciaDb * result CheckpointOutcome :=
  let '(s, ctx, r) := do_checkpoint (db_storage db) (write_context db) in
  (with_context (with_store db s) ctx, r).

(** ** Explicit transactions *)

Record WriteTransaction : Type := mkWriteTransaction {
  pending_facts : list Fact;
  next_pending_tx_count : Z;
  next_pending_tx_id : Z;
}.
Definition begin_write (write_tx_active : bool) (db : ViciaDb) (now : Z) : result WriteTransaction :=
  _ ← ensure (negb write_tx_active) WRITE_ACTIVE;
  Ok (mkWriteTransaction [] (sat_add_u64 (current_tx_count (db_storage db)) 1) now).

Definition stage_pending_facts (t : WriteTransaction) (now : Z) (facts : list Fact) : WriteTransaction :=
  let staged_tx_id := Z.max now (next_pending_tx_id t) in
  mkWriteTransaction (pending_facts t ++ (stamp staged_tx_id (next_pending_tx_count t) <$> facts))
    (sat_add_u64 (next_pending_tx_count t) 1) (sat_add_u64 staged_tx_id 1).

Definition merged_query_facts (db : ViciaDb) (t : WriteTransaction) : result (list Fact) :=
  committed ← get_all_facts (db_storage db);
  Ok (committed ++ (use_tx_time <$> pending_facts t)).
Definition pending_read_now_floor (t : WriteTransaction) : option Z :=
  match (λ f, cast_signed (tx_id f)) <$> pending_facts t with
  | [] => None
  | x :: xs => Some (foldl Z.max x xs)
  end.
Definition execute_read_command (db : ViciaDb) (t : WriteTransaction) (q : DatalogQuery) : result QueryResult :=
  match pending_facts t with
  | [] => run (set_db_limits db) q
  | _ =>
    merged ← merged_query_facts db t;
    run (set_limits (new_from_facts_with_rules_and_functions merged (pending_read_now_floor t) (db_rules db) (db_functions db))
           (opt_max_derived_facts (db_options db)) (opt_max_results (db_options db))) q
  end.
Definition tx_execute (db : ViciaDb) (t : WriteTransaction) (now : Z) (cmd : DatalogCommand)
    : ViciaDb * WriteTransaction * result QueryResult :=
  match cmd with
  | CmdTransact tx =>
    match materialize_transaction parse_str new_v5_oid tx with
    | Ok facts => (db, stage_pending_facts t now facts, Ok ROk)
    | Err e => (db, t, Err e)
    end
  | CmdRetract tx =>
    match materialize_retraction parse_str new_v5_oid tx with
    | Ok facts => (db, stage_pending_facts t now facts, Ok ROk)
    | Err e => (db, t, Err e)
    end
  | CmdQuery q => (db, t, execute_read_command db t q)
  | CmdRule r =>
    let '(ex, res) := run_rule (set_db_limits db) r in
    (mkDb (db_storage db) (ex_rules ex) (db_functions db) (write_context db) (db_options db) (checkpoint_policy db), t, res)
  | CmdForget _ => (db, t, Err "(forget ...) is not supported inside an explicit WriteTransaction; use ViciaDb::execute")
  end.
Definition commit (db : ViciaDb) (t : WriteTransaction) (now : Z) : ViciaDb * result unit :=
  match pending_facts t with
  | [] => (db, Ok tt)
  | facts => commit_facts db now facts
  end.
Definition rollback (db : ViciaDb) (t : WriteTransaction) : ViciaDb := db.

(** ** The log *)

Definition export_fact_log (db : ViciaDb) : result (list FactRecord) :=
  for_each_fact (db_storage db) (λ records f, Ok (records ++ [from_fact f])) [].
Definition export_fact_log_since (db : ViciaDb) (since : Z) : result (list FactRecord) :=
  for_each_fact_since (db_storage db) since (λ records f, Ok (records ++ [from_fact f])) [].
End database.
Arguments FileContext : clear implicits.
Arguments WriteContext : clear implicits.
Arguments ViciaDb : clear implicits.
