(* ===== verification/Durability.v ===== *)
(** Crash safety of the database handle (on src/src/db.rs and src/src/wal.rs).

    [db_inv db log] says that the handle holds the log and that its files, read
    back now, hold it too; its sidecar then holds exactly complete entries.  Every
    write keeps it, and the files a crash can leave in the middle of a write recover
    to the log before or after the write.  An operation that checkpoints needs the
    promise [CheckpointLaws] of the save; the others need nothing of it. *)
From S2P Require Import Prelude Types ValueCodec NetView SortedRuns Index PendingOverlay FactStore Lookup Wal QueryTypes Functions Matcher Branches Stratification Executor Database.
Set Default Proof Using "Type".

(** * Facts with a fresh counter *)

Lemma accepted_fresh seen fs : (∀ k f, k ∈ seen → f ∈ fs → k ≠ eavt_key_of f) → accepted true seen fs = accepted true [] fs.
Proof.
  intros H. rewrite <-(app_nil_r seen) at 1. generalize (@nil EavtKey). intros more. assert (∀ f, f ∈ fs → eavt_key_of f ∈ seen ++ more ↔ eavt_key_of f ∈ more) as E.
  { intros f F. rewrite elem_of_app. split; [intros [S|S]; [by destruct (H _ f S F)|done]|by right]. }
  clear H. revert more E. induction fs as [|f fs IH]; intros more E; [done|]. cbn. rewrite !andb_true_r.
  rewrite (bool_decide_ext (eavt_key_of f ∈ seen ++ more) (eavt_key_of f ∈ more)) by (apply E; left). case_bool_decide.
  - apply IH. intros g G. apply E. by right.
  - f_equal. rewrite <-app_assoc. apply IH. intros g G. rewrite app_assoc, !(elem_of_app _ [_]), E by by right. done.
Qed.
Lemma accepted_key seen fs f : f ∈ fs → eavt_key_of f ∈ seen ∨ ∃ g, g ∈ accepted true seen fs ∧ eavt_key_of g = eavt_key_of f.
Proof.
  revert seen. induction fs as [|g fs IH]; intros seen I; [by apply elem_of_nil in I|]. cbn. rewrite andb_true_r.
  apply elem_of_cons in I as [->|I]; case_bool_decide as S; [by left|right; exists g; split; [left|done]|by apply IH|].
  destruct (IH (seen ++ [eavt_key_of g]) I) as [T|(h & Ih & Eh)]; [apply elem_of_app in T as [T|T]; [by left|apply list_elem_of_singleton in T]|].
  - right. exists g. split; [left|by rewrite T].
  - right. exists h. split; [by right|done].
Qed.
Lemma accepted_disjoint fs gs : (∀ f g, f ∈ fs → g ∈ gs → tx_count f ≠ tx_count g) →
  accepted true [] (fs ++ gs) = accepted true [] fs ++ accepted true [] gs.
Proof.
  intros H. rewrite accepted_app. f_equal. apply accepted_fresh. intros k g K G ->.
  cbn in K. apply list_elem_of_fmap in K as (f & E & F%accepted_elem). apply (H f g F G). by injection E.
Qed.

Lemma mapR_app {A B} (f : A → result B) l k : mapR f (l ++ k) = (a ← mapR f l; b ← mapR f k; Ok (a ++ b)).
Proof.
  induction l as [|x l IH]; cbn [mapR app]; [by cbn; destruct (mapR f k)|]. destruct (f x); [|done]. cbn [mbind result_bind].
  rewrite IH. destruct (mapR f l); [|done]. cbn. by destruct (mapR f k).
Qed.

(** * Applying a batch with a fresh counter *)

Lemma apply_facts_load hasher s s' fs : load_facts hasher s fs = Ok s' → apply_facts hasher s fs = (s', Ok tt).
Proof.
  revert s. induction fs as [|f fs IH]; intros s; cbn; [by intros [= ->]|].
  destruct (load_fact hasher s f) as [s1 [b|e]]; [|done]. apply IH.
Qed.
Lemma apply_fresh_batch hasher s log batch : store_ok hasher s log → tx_counter s < u64_MAX → fits s (length batch) →
  (∀ f, f ∈ batch → tx_count f = tx_counter s + 1) →
  ∃ s', apply_facts hasher (allocate_tx_count s).1 batch = (s', Ok tt) ∧
    store_ok hasher s' (log ++ accepted true [] batch) ∧ tx_counter s' = tx_counter s + 1.
Proof.
  intros Ok M Fi St. destruct (allocate_spec hasher s log Ok M) as (Ok0 & _ & C0 & P0).
  assert (fits (allocate_tx_count s).1 (length batch)) as Fi0 by (unfold fits; by rewrite P0).
  destruct (load_facts_spec hasher batch _ (so_overlay _ _ _ Ok0) Fi0) as (s' & L & G).
  exists s'. split; [by apply apply_facts_load|]. destruct G as (Ov & R & Cm & _ & Tc). rewrite C0 in Tc. split; [|done].
  destruct Ok0 as [O (cf & C & El) B Pz S].
  assert (accepted true (identities (pending (allocate_tx_count s).1)) batch = accepted true [] batch) as En.
  { apply accepted_fresh. intros k f K F ->. unfold identities in K. apply list_elem_of_fmap in K as (r & E & Ir).
    assert (PendingFactRecord.to_fact r ∈ log) as Il.
    { rewrite El. apply elem_of_app. right. unfold overlay_facts. by apply list_elem_of_fmap_2. }
    apply (so_counts _ _ _ Ok) in Il. apply (f_equal ek_tx_count) in E. cbn in E, Il. pose proof (St f F). lia. }
  rewrite En in R.
  assert (overlay_facts (pending s') = overlay_facts (pending (allocate_tx_count s).1) ++ accepted true [] batch) as Eo.
  { unfold overlay_facts. rewrite R, fmap_app. f_equal. rewrite <-list_fmap_compose.
    rewrite (list_fmap_ext _ id); [apply list_fmap_id|]. intros; apply record_of_to_fact. }
  assert (∀ f, f ∈ accepted true [] batch → tx_count f = tx_counter s + 1) as Hn by (intros f F%accepted_elem; by apply St).
  pose proof (so_counter _ _ _ Ok) as Z0. split.
  - done.
  - exists cf. unfold committed_log in *. rewrite Cm. split; [done|]. by rewrite Eo, El, app_assoc.
  - intros f [F|F]%elem_of_app; [apply (so_counts _ _ _ Ok) in F; lia|]. rewrite Hn by done. lia.
  - lia.
  - apply (tx_sorted_app _ _ (tx_counter s + 1)); [done| |done]. intros f F. apply (so_counts _ _ _ Ok) in F. lia.
Qed.

Section durability.
Context (to_allocvec : Fact → result bytes) (from_bytes : bytes → result Fact) (crc32 : bytes → Z).
Hypothesis codec_roundtrip : ∀ f bs, fact_ok f → to_allocvec f = Ok bs → from_bytes bs = Ok f.
Hypothesis crc_u32 : ∀ bs, u32_ok (crc32 bs).
Context (hasher : EavtKey → Z).
Context {Pfs : Type} `{CheckpointStore Pfs}.

(** The file holds a log: opening it gives a store with this log and no pending
    facts, under a counter that bounds the log. *)
Record saved (p : Pfs) (log : list Fact) : Prop := {
  sv_store : store_ok hasher (pfs_storage p) log;
  sv_empty : records (pending (pfs_storage p)) = [];
  sv_bound f : f ∈ log → tx_count f ≤ last_checkpointed_tx_count p;
  sv_counter : 0 ≤ last_checkpointed_tx_count p ≤ tx_counter (pfs_storage p);
}.
(** What a save has to promise for the log to survive a checkpoint: when it publishes, the file holds the store's log up
    to its counter and the store holds it without pending facts; otherwise the store is as it was, and
    the file holds what it held or, when it fails late, the store's log. *)
Class CheckpointLaws : Prop := {
  save_spec p s base log : saved p base → store_ok hasher s log → last_checkpointed_tx_count p ≤ tx_counter s →
    match pfs_save p s with
    | (p', s', Ok o) => if permits_wal_retire o
        then saved p' log ∧ store_ok hasher s' log ∧ records (pending s') = [] ∧
             last_checkpointed_tx_count p' = tx_counter s ∧ tx_counter s' = tx_counter s
        else p' = p ∧ s' = s
    | (p', s', Err _) => s' = s ∧ (p' = p ∨ saved p' log ∧ last_checkpointed_tx_count p' = tx_counter s)
    end;
}.
(** Whether the next entry makes a checkpoint due. *)
Definition checkpoint_due (db : ViciaDb Pfs) (c : FileContext Pfs) : bool :=
  permits_automatic (checkpoint_policy db) && (wal_checkpoint_threshold (db_options db) <=? sat_add_u64 (wal_entry_count c) 1).

(** The sidecar holds complete entries. *)
Record wal_holds (wal : option bytes) (es : list WalEntry) : Prop := {
  wh_entries : Forall entry_ok es;
  wh_stamped : stamped es;
  wh_some e : e ∈ es → wal_facts e ≠ [];
  wh_room : Z.of_nat (length (concat (wal_facts <$> es))) ≤ 2 ^ 32;
  wh_bytes : match wal with
             | None => es = []
             | Some file => ∃ chunks, mapR (entry_bytes to_allocvec crc32) es = Ok chunks ∧ file = wal_header ++ concat chunks
             end;
}.
Definition wal_log (p : Pfs) (es : list WalEntry) : list Fact :=
  accepted true [] (concat (wal_facts <$> newer (last_checkpointed_tx_count p) es)).
(** The files hold a log. *)
Definition disk_holds (p : Pfs) (wal : option bytes) (log : list Fact) : Prop :=
  ∃ base es, saved p base ∧ wal_holds wal es ∧ log = base ++ wal_log p es.

(** The handle holds a log and so do its files. *)
Record db_inv (db : ViciaDb Pfs) (log : list Fact) : Prop := {
  di_store : store_ok hasher (db_storage db) log;
  di_files : ∃ c base es, write_context db = File c ∧ saved (pfs c) base ∧ wal_holds (wal_file c) es ∧
    log = base ++ wal_log (pfs c) es ∧ (wal_open c = true → is_Some (wal_file c)) ∧
    last_checkpointed_tx_count (pfs c) ≤ tx_counter (db_storage db) ∧
    (∀ e, e ∈ es → wal_tx_count e ≤ tx_counter (db_storage db)) ∧
    0 ≤ wal_entry_count c ∧ (wal_entry_count c = 0 → newer (last_checkpointed_tx_count (pfs c)) es = []);
}.

(** ** Reading the files back *)

Lemma replay_part p base es chunks k : saved p base → Forall entry_ok es → stamped es →
  Z.of_nat (length (concat (wal_facts <$> es))) ≤ 2 ^ 32 → mapR (entry_bytes to_allocvec crc32) es = Ok chunks →
  ∃ n s, (n ≤ length es)%nat ∧
    (∀ c, chunks !! n = Some c → k < WAL_HEADER_SIZE + length (concat (take n chunks)) + length c)%nat ∧
    (n = 0 ∨ WAL_HEADER_SIZE + length (concat (take n chunks)) ≤ k)%nat ∧
    replay_wal from_bytes crc32 hasher (Some (take k (wal_header ++ concat chunks))) (pfs_storage p)
      (last_checkpointed_tx_count p) = Ok (s, length (newer (last_checkpointed_tx_count p) (take n es))) ∧
    store_ok hasher s (base ++ wal_log p (take n es)) ∧ last_checkpointed_tx_count p ≤ tx_counter s.
Proof using codec_roundtrip crc_u32.
  intros [So Em Bd [Nn _]] Fe St Rm M.
  destruct (replay_prefix to_allocvec from_bytes crc32 codec_roundtrip crc_u32 hasher (pfs_storage p) base
    (last_checkpointed_tx_count p) es chunks k So Em Bd Nn Fe M St Rm) as (n & s & Hn & Hc & Hl & R & Ok' & C').
  by exists n, s.
Qed.

Lemma entry_counted p base es s e : stamped es → (∀ e, e ∈ es → wal_facts e ≠ []) → store_ok hasher s (base ++ wal_log p es) →
  last_checkpointed_tx_count p ≤ tx_counter s → e ∈ es → wal_tx_count e ≤ tx_counter s.
Proof using.
  intros [T _] So Ok' C Ie. destruct (Z.le_gt_cases (wal_tx_count e) (last_checkpointed_tx_count p)) as [|N]; [lia|].
  destruct (wal_facts e) as [|f fs] eqn:Ef; [by destruct (So e Ie)|].
  assert (f ∈ wal_facts e) as If by (rewrite Ef; left).
  assert (f ∈ concat (wal_facts <$> newer (last_checkpointed_tx_count p) es)) as I.
  { apply list_elem_of_In, in_concat. exists (wal_facts e). split; [|by apply list_elem_of_In].
    apply list_elem_of_In, list_elem_of_fmap_2, elem_of_List_filter. split; [by apply Z.ltb_lt|done]. }
  destruct (accepted_key [] _ f I) as [?%elem_of_nil|(g & Ig & Eg)]; [done|].
  rewrite <-(T e f Ie If). replace (tx_count f) with (tx_count g) by (by injection Eg).
  apply (so_counts _ _ _ Ok'), elem_of_app. by right.
Qed.

(** Files that hold a log open to a handle that holds it. *)
Lemma open_holds p wal base es opts policy : saved p base → wal_holds wal es →
  ∃ db, open_with_options_and_checkpoint_policy from_bytes crc32 hasher p wal opts policy = Ok db ∧
    db_inv db (base ++ wal_log p es).
Proof using codec_roundtrip crc_u32.
  intros Sv [Fe St So Rm By]. unfold open_with_options_and_checkpoint_policy. destruct wal as [file|].
  - destruct By as (chunks & M & ->).
    destruct (replay_part p base es chunks (length (wal_header ++ concat chunks)) Sv Fe St Rm M) as (n & s & Hn & Hc & Hl & R & Ok' & C').
    rewrite take_ge in R by done. rewrite R. cbn [mbind result_bind].
    assert (n = length es) as ->.
    { destruct (decide (n = length es)) as [|N]; [done|]. pose proof M as M'. apply mapR_Forall2, Forall2_length in M'.
      destruct (lookup_lt_is_Some_2 chunks n ltac:(lia)) as [c C]. specialize (Hc c C).
      rewrite length_app, header_length in Hc.
      assert (length (concat chunks) = length (concat (take n chunks)) + length (concat (drop n chunks)))%nat as L.
      { by rewrite <-length_app, <-concat_app, take_drop. }
      rewrite (drop_S _ _ _ C) in L. cbn [concat] in L. rewrite length_app in L. lia. }
    rewrite take_ge in R, Ok' |- * by done. unfold open_or_create.
    assert ((length (wal_header ++ concat chunks) <? WAL_HEADER_SIZE)%nat = false) as ->
      by (apply Nat.ltb_ge; rewrite length_app, header_length; lia).
    rewrite validate_header_ok. cbn [mbind result_bind]. eexists. split; [done|]. split; [done|].
    eexists _, base, es. cbn [write_context db_storage pfs wal_file wal_open wal_entry_count]. split_and!; try done.
    + split; try done. by exists chunks.
    + intros e Ie. by apply (entry_counted p base es).
    + cbn. lia.
    + cbn. intros E. apply nil_length_inv. lia.
  - subst es. cbn [replay_wal mbind result_bind]. eexists. split; [done|].
    assert (wal_log p [] = []) as Ew by done. split; [rewrite Ew, app_nil_r; apply Sv|].
    eexists _, base, []. cbn [write_context db_storage pfs wal_file wal_open wal_entry_count]. split_and!; try done.
    + apply Sv.
    + by intros e ?%elem_of_nil.
Qed.
Lemma inv_reopens db log c opts policy : db_inv db log → write_context db = File c →
  ∃ db', open_with_options_and_checkpoint_policy from_bytes crc32 hasher (pfs c) (wal_file c) opts policy = Ok db' ∧ db_inv db' log.
Proof using codec_roundtrip crc_u32.
  intros [_ (c' & base & es & E & Sv & Wh & -> & _)] Ec. rewrite Ec in E. injection E as <-. by apply open_holds.
Qed.

(** ** Checkpoints *)

Lemma newer_none ck es : (∀ e, e ∈ es → wal_tx_count e ≤ ck) → newer ck es = [].
Proof using.
  intros B. unfold newer. induction es as [|e es IH]; [done|]. cbn. rewrite (proj2 (Z.ltb_ge _ _)) by (apply B; left).
  apply IH. intros; apply B; by right.
Qed.
Lemma wal_log_none p es : newer (last_checkpointed_tx_count p) es = [] → wal_log p es = [].
Proof using. unfold wal_log. by intros ->. Qed.
Lemma no_wal : wal_holds None [].
Proof using. split; try done. - split; [by intros e f ?%elem_of_nil|constructor]. - by intros e ?%elem_of_nil. Qed.

(** A checkpoint keeps the log, whether it succeeds or fails. *)
Lemma checkpoint_inv db log s' ctx' r : CheckpointLaws → db_inv db log → do_checkpoint (db_storage db) (write_context db) = (s', ctx', r) →
  db_inv (with_context (with_store db s') ctx') log.
Proof using.
  intros Laws [Os (c & base & es & Ec & Sv & Wh & El & Wo & Ck & Ce & Wc & Wz)]. rewrite Ec. unfold do_checkpoint.
  assert (∀ ctx, ctx = File c → db_inv (with_context (with_store db (db_storage db)) ctx) log) as Same.
  { intros ctx ->. split; [done|]. exists c, base, es. by split_and!. }
  destruct ((wal_entry_count c =? 0) && negb (pfs_dirty c)); [intros [= <- <- <-]; by apply Same|].
  pose proof (save_spec (pfs c) (db_storage db) base log Sv Os Ck) as Sp.
  destruct (pfs_save (pfs c) (db_storage db)) as [[p1 s1] [o|e]].
  - destruct (permits_wal_retire o) eqn:Pr; cbn [negb]; rewrite ?andb_false_r, ?andb_true_r.
    + intros [= <- <- <-]. destruct Sp as (Sv' & Os' & _ & C1 & C2). split; [done|]. eexists _, log, []. split; [done|].
      cbn [pfs wal_file wal_open wal_entry_count db_storage with_store with_context]. split_and!; try done; try lia.
      * apply no_wal.
      * by rewrite wal_log_none, app_nil_r.
      * by intros e ?%elem_of_nil.
    + destruct Sp as [-> ->]. destruct (Z.ltb_spec 0 (wal_entry_count c)).
      * intros [= <- <- <-]. split; [done|]. eexists _, base, es. split; [done|].
        cbn [pfs wal_file wal_open wal_entry_count db_storage with_store with_context]. by split_and!.
      * intros [= <- <- <-]. split; [done|]. eexists _, base, []. split; [done|].
        cbn [pfs wal_file wal_open wal_entry_count db_storage with_store with_context]. split_and!; try done; try lia.
        -- apply no_wal.
        -- rewrite El. f_equal. rewrite !wal_log_none; [done|done|apply Wz; lia].
        -- by intros e ?%elem_of_nil.
  - intros [= <- <- <-]. destruct Sp as [-> [->|[Sv' C1]]]; (split; [done|]).
    + eexists _, base, es. split; [done|].
      cbn [pfs wal_file wal_open wal_entry_count db_storage with_store with_context]. by split_and!.
    + assert (newer (last_checkpointed_tx_count p1) es = []) as Nn by (apply newer_none; by rewrite C1).
      eexists _, log, es. split; [done|].
      cbn [pfs wal_file wal_open wal_entry_count db_storage with_store with_context]. split_and!; try done; try lia.
      by rewrite wal_log_none, app_nil_r.
Qed.

(** ** One batch *)

Lemma entry_bytes_room e bs : entry_bytes to_allocvec crc32 e = Ok bs → (4 * length (wal_facts e) ≤ length bs)%nat.
Proof using.
  unfold entry_bytes, serialize_entry. intros E. inv_ok. match goal with H : mapR _ _ = Ok ?x |- _ => rename H into M; rename x into recs end.
  rewrite !length_app, !length_to_le_bytes. apply mapR_Forall2 in M.
  assert (4 * length (wal_facts e) ≤ length (concat recs))%nat; [|lia].
  induction M as [|f r fs rs R M IH]; cbn; [lia|]. apply serialize_fact_inv in R as (b & _ & _ & ->).
  rewrite !length_app, length_to_le_bytes. lia.
Qed.
Lemma chunks_room es chunks : mapR (entry_bytes to_allocvec crc32) es = Ok chunks →
  (4 * length (concat (wal_facts <$> es)) ≤ length (concat chunks))%nat.
Proof using.
  intros M. apply mapR_Forall2 in M. induction M as [|e b es bs E M IH]; cbn; [lia|].
  apply entry_bytes_room in E. rewrite !length_app. lia.
Qed.

(** The writer's file when a batch arrives. *)
Definition opened (c : FileContext Pfs) : result bytes :=
  if wal_open c then from_option Ok (Err "WAL not initialized") (wal_file c) else open_or_create (wal_file c).
Definition wal_bytes (c : FileContext Pfs) : nat := from_option length 0%nat (wal_file c).

Lemma opened_holds c es : wal_holds (wal_file c) es → (wal_open c = true → is_Some (wal_file c)) →
  ∃ chunks, mapR (entry_bytes to_allocvec crc32) es = Ok chunks ∧ opened c = Ok (wal_header ++ concat chunks) ∧
    (length (wal_header ++ concat chunks) ≤ WAL_HEADER_SIZE + wal_bytes c)%nat.
Proof using.
  intros [_ _ _ _ By] O. unfold opened, wal_bytes. destruct (wal_file c) as [file|] eqn:W.
  - destruct By as (chunks & M & ->). exists chunks. split; [done|]. cbn [from_option]. split; [|lia].
    destruct (wal_open c); [done|]. unfold open_or_create.
    assert ((length (wal_header ++ concat chunks) <? WAL_HEADER_SIZE)%nat = false) as ->
      by (apply Nat.ltb_ge; rewrite length_app, header_length; lia).
    by rewrite validate_header_ok.
  - subst es. exists []. destruct (wal_open c); [by destruct (O eq_refl)|]. cbn [from_option concat]. rewrite app_nil_r, header_length. split_and!; [done|done|unfold from_option; lia].
Qed.

#[local] Opaque wal_header allocate_tx_count.
Section batch.
Context (db : ViciaDb Pfs) (log : list Fact) (c : FileContext Pfs) (batch : list Fact).
Hypothesis Inv : db_inv db log.
Hypothesis Ctx : write_context db = File c.
#[local] Abbreviation count := (tx_counter (db_storage db) + 1).

(** Room in the machine's counters for the batch. *)
Record batch_ok : Prop := {
  bk_some : batch ≠ [];
  bk_counter : tx_counter (db_storage db) < u64_MAX;
  bk_stamped f : f ∈ batch → tx_count f = count;
  bk_facts : Forall fact_ok batch;
  bk_length : Z.of_nat (length batch) ≤ MAX_FACTS_PER_ENTRY;
  bk_pending : fits (db_storage db) (length batch);
  bk_wal : Z.of_nat (wal_bytes c) + 4 * Z.of_nat (length batch) ≤ 2 ^ 34;
}.
Hypothesis Bok : batch_ok.
#[local] Abbreviation entry := (mkWalEntry count batch).
#[local] Abbreviation new := (accepted true [] batch).

Lemma extend_wal es chunks bs : wal_holds (wal_file c) es →
  mapR (entry_bytes to_allocvec crc32) es = Ok chunks → entry_bytes to_allocvec crc32 entry = Ok bs →
  (length (wal_header ++ concat chunks) ≤ WAL_HEADER_SIZE + wal_bytes c)%nat →
  (∀ e, e ∈ es → wal_tx_count e ≤ tx_counter (db_storage db)) →
  wal_holds (Some ((wal_header ++ concat chunks) ++ bs)) (es ++ [entry]).
Proof using Inv Bok.
  intros [Fe St So Rm _] M B L Ce. pose proof (so_counter _ _ _ (di_store _ _ Inv)) as C0. split.
  - apply Forall_app. split; [done|]. constructor; [|done]. split_and!; [|apply Bok|apply Bok]. cbn. pose proof (bk_counter Bok). ilia.
  - destruct St as [T S]. split.
    + intros e f [Ie| ->%list_elem_of_singleton]%elem_of_app; [by apply T|]. by apply (bk_stamped Bok).
    + apply StronglySorted_app_2; [|done|by repeat constructor].
      intros e e' Ie ->%list_elem_of_singleton. cbn. apply Ce in Ie. lia.
  - intros e [Ie| ->%list_elem_of_singleton]%elem_of_app; [by apply So|]. apply Bok.
  - rewrite fmap_app, concat_app, length_app. cbn. rewrite app_nil_r. pose proof (chunks_room es chunks M) as Cr.
    rewrite length_app, header_length in L. pose proof (bk_wal Bok). lia.
  - exists (chunks ++ [bs]). split.
    + rewrite mapR_app, M. cbn [mapR mbind result_bind]. by rewrite B.
    + rewrite concat_app. cbn. by rewrite app_nil_r, app_assoc.
Qed.

Lemma extend_log p es : last_checkpointed_tx_count p ≤ tx_counter (db_storage db) →
  (∀ e, e ∈ es → wal_tx_count e ≤ tx_counter (db_storage db)) → stamped es → wal_log p (es ++ [entry]) = wal_log p es ++ new.
Proof using Bok.
  intros Ck Ce [T _]. unfold wal_log, newer. rewrite List.filter_app. cbn [List.filter wal_tx_count].
  rewrite (proj2 (Z.ltb_lt _ _)) by lia. rewrite fmap_app, concat_app. cbn. rewrite app_nil_r.
  apply accepted_disjoint. intros f g If Ig. apply list_elem_of_In, in_concat in If as (l & Il & If).
  apply list_elem_of_In, list_elem_of_fmap in Il as (e & -> & [_ Ie]%elem_of_List_filter).
  rewrite (T e f Ie) by by apply list_elem_of_In. rewrite (bk_stamped Bok g Ig). apply Ce in Ie. lia.
Qed.

(** Applying the batch appends its new facts. *)
Lemma apply_batch : ∃ s, apply_facts hasher (allocate_tx_count (db_storage db)).1 batch = (s, Ok tt) ∧
  store_ok hasher s (log ++ new) ∧ tx_counter s = count.
Proof using Inv Bok. apply apply_fresh_batch; [apply Inv|apply Bok..]. Qed.

(** Logging the batch: the file grows by its entry, or stays. *)
Lemma log_batch opts policy : ∃ file, opened c = Ok file ∧
  match entry_bytes to_allocvec crc32 entry with
  | Ok bs => append_entry to_allocvec crc32 file count batch = Ok (file ++ bs)
  | Err e => append_entry to_allocvec crc32 file count batch = Err e
  end ∧
  wal_write_stamped_batch to_allocvec crc32 (write_context db) opts policy count batch =
    match entry_bytes to_allocvec crc32 entry with
    | Ok bs => (File (mkFileContext (pfs c) true true (Some (file ++ bs)) (sat_add_u64 (wal_entry_count c) 1)),
                Ok (permits_automatic policy && (wal_checkpoint_threshold opts <=? sat_add_u64 (wal_entry_count c) 1)))
    | Err e => (File (mkFileContext (pfs c) (pfs_dirty c) true (Some file) (wal_entry_count c)), Err e)
    end.
Proof using Inv Ctx.
  destruct Inv as [_ (c' & base & es & Ec & _ & Wh & _ & Wo & _)]. rewrite Ctx in Ec. injection Ec as <-.
  destruct (opened_holds c es Wh Wo) as (chunks & _ & Eo & _). exists (wal_header ++ concat chunks). split; [done|].
  assert (append_entry to_allocvec crc32 (wal_header ++ concat chunks) count batch =
    (b ← entry_bytes to_allocvec crc32 entry; Ok ((wal_header ++ concat chunks) ++ b))) as Ea by done.
  split; [rewrite Ea; by destruct (entry_bytes _ _ _)|].
  unfold wal_write_stamped_batch. rewrite Ctx. fold (opened c). rewrite Eo, Ea. by destruct (entry_bytes _ _ _).
Qed.

Lemma write_durable db' r : (checkpoint_due db c = true → CheckpointLaws) →
  write_batch to_allocvec crc32 hasher (with_store db (allocate_tx_count (db_storage db)).1)
    (allocate_tx_count (db_storage db)).2 batch = (db', r) →
  (∃ v, r = Ok v ∧ db_inv db' (log ++ new)) ∨ (∃ e, r = Err e ∧ (db_inv db' log ∨ checkpoint_due db c = true ∧ db_inv db' (log ++ new))).
Proof using Inv Ctx Bok.
  intros Due. destruct (allocate_spec hasher (db_storage db) log (di_store _ _ Inv) (bk_counter Bok)) as (Ok0 & -> & C0 & P0).
  unfold write_batch. cbn [write_context db_options checkpoint_policy with_store].
  destruct (log_batch (db_options db) (checkpoint_policy db)) as (file & Eo & _ & ->).
  pose proof Inv as [_ (c' & base & es & Ec & Sv & Wh & El & Wo & Ck & Ce & Wc & Wz)]. rewrite Ctx in Ec. injection Ec as <-.
  destruct (opened_holds c es Wh Wo) as (chunks & M & Eo' & Lf). rewrite Eo' in Eo. injection Eo as <-.
  destruct (entry_bytes to_allocvec crc32 entry) as [bs|e] eqn:Eb.
  2: { intros [= <- <-]. right. exists e. split; [done|]. left. split; [done|]. eexists _, base, es. split; [done|].
       cbn [pfs wal_file wal_open wal_entry_count db_storage with_store with_context]. split_and!; try done; try lia.
       - destruct Wh. split; try done. by exists chunks.
       - intros e' Ie. apply Ce in Ie. lia. }
  cbn [db_storage with_context with_store]. destruct apply_batch as (s1 & -> & Ok1 & C1).
  assert (∀ n, 1 ≤ n → db_inv (with_context (with_store db s1)
    (File (mkFileContext (pfs c) true true (Some ((wal_header ++ concat chunks) ++ bs)) n))) (log ++ new)) as Logged.
  { intros n Hn. split; [done|]. eexists _, base, (es ++ [entry]). split; [done|].
    cbn [pfs wal_file wal_open wal_entry_count db_storage with_store with_context]. split_and!; try done; try lia.
    - by apply extend_wal.
    - rewrite El, <-app_assoc. f_equal. symmetry. apply extend_log; [done|done|apply Wh].
    - intros e [Ie| ->%list_elem_of_singleton]%elem_of_app; [apply Ce in Ie; lia|cbn; lia]. }
  assert (1 ≤ sat_add_u64 (wal_entry_count c) 1) as N1 by (unfold sat_add_u64; ilia).
  fold (checkpoint_due db c). destruct (checkpoint_due db c) eqn:Du.
  2: { intros [= <- <-]. left. exists tt. split; [done|]. by apply Logged. }
  specialize (Logged _ N1).
  match type of Logged with db_inv (with_context _ ?ctx) _ => set (ctx1 := ctx) in * end.
  destruct (do_checkpoint s1 ctx1) as [[s2 ctx2] [o|e]] eqn:D; intros [= <- <-];
    pose proof (checkpoint_inv _ _ s2 ctx2 _ (Due eq_refl) Logged D) as Fin; [left; exists tt|right; exists e]; split; auto.
Qed.
End batch.

(** ** Crashes *)

(** What the files can be when a crash interrupts the write of a batch: the sidecar
    cut anywhere in the new entry (or in the header of a new sidecar), or, when the
    entry makes a checkpoint due, the paged file saved and the sidecar not yet, or
    already, removed. *)
Inductive crash_disk (db : ViciaDb Pfs) (batch : list Fact) : Pfs → option bytes → Prop :=
| CrashBefore c : write_context db = File c → crash_disk db batch (pfs c) (wal_file c)
| CrashAppend c file file' k : write_context db = File c → opened c = Ok file →
    append_entry to_allocvec crc32 file (tx_counter (db_storage db) + 1) batch = Ok file' →
    (length file ≤ k)%nat ∨ wal_file c = None → crash_disk db batch (pfs c) (Some (take k file'))
| CrashSave c file file' s p s' r : write_context db = File c → checkpoint_due db c = true → opened c = Ok file →
    append_entry to_allocvec crc32 file (tx_counter (db_storage db) + 1) batch = Ok file' →
    apply_facts hasher (allocate_tx_count (db_storage db)).1 batch = (s, Ok tt) →
    pfs_save (pfs c) s = (p, s', r) → crash_disk db batch p (Some file')
| CrashRetired c file file' s p s' o : write_context db = File c → checkpoint_due db c = true → opened c = Ok file →
    append_entry to_allocvec crc32 file (tx_counter (db_storage db) + 1) batch = Ok file' →
    apply_facts hasher (allocate_tx_count (db_storage db)).1 batch = (s, Ok tt) →
    pfs_save (pfs c) s = (p, s', Ok o) → permits_wal_retire o = true → crash_disk db batch p None.
(** Opening the files gives a handle with the log. *)
Definition reopens (p : Pfs) (wal : option bytes) (log : list Fact) : Prop :=
  ∀ opts policy, ∃ db, open_with_options_and_checkpoint_policy from_bytes crc32 hasher p wal opts policy = Ok db ∧
    store_ok hasher (db_storage db) log.

Lemma holds_reopens p wal base es : saved p base → wal_holds wal es → reopens p wal (base ++ wal_log p es).
Proof using codec_roundtrip crc_u32.
  intros Sv Wh opts policy. destruct (open_holds p wal base es opts policy Sv Wh) as (db & E & I). exists db. split; [done|apply I].
Qed.
Lemma torn_opens k chunks : open_or_create (Some (take k (wal_header ++ concat chunks))) =
  Ok (if (k <? WAL_HEADER_SIZE)%nat then wal_header else take k (wal_header ++ concat chunks)).
Proof using.
  unfold open_or_create. rewrite length_take. destruct (Nat.ltb_spec k WAL_HEADER_SIZE) as [L|L].
  - by rewrite (proj2 (Nat.ltb_lt _ _)) by lia.
  - assert ((k `min` length (wal_header ++ concat chunks) <? WAL_HEADER_SIZE)%nat = false) as ->
      by (apply Nat.ltb_ge; rewrite length_app, header_length; lia).
    rewrite take_app, (take_ge wal_header) by (rewrite header_length; lia). by rewrite validate_header_ok.
Qed.
(** A sidecar cut in its last entry reopens with or without it. *)
Lemma torn_reopens p base es e wal k chunks bs : saved p base → wal_holds wal (es ++ [e]) →
  mapR (entry_bytes to_allocvec crc32) es = Ok chunks → entry_bytes to_allocvec crc32 e = Ok bs →
  (length (wal_header ++ concat chunks) ≤ k)%nat ∨ es = [] →
  let file := take k ((wal_header ++ concat chunks) ++ bs) in
  reopens p (Some file) (base ++ wal_log p es) ∨ reopens p (Some file) (base ++ wal_log p (es ++ [e])).
Proof using codec_roundtrip crc_u32.
  intros Sv [Fe St So Rm _] M Eb Hk file.
  assert (mapR (entry_bytes to_allocvec crc32) (es ++ [e]) = Ok (chunks ++ [bs])) as M'.
  { rewrite mapR_app, M. cbn [mapR mbind result_bind]. by rewrite Eb. }
  assert (file = take k (wal_header ++ concat (chunks ++ [bs]))) as ->.
  { unfold file. rewrite concat_app. cbn [concat]. by rewrite app_nil_r, app_assoc. }
  pose proof M as Lc. apply mapR_Forall2, Forall2_length in Lc.
  destruct (replay_part p base (es ++ [e]) (chunks ++ [bs]) k Sv Fe St Rm M') as (n & s & Hn & Hc & _ & R & Ok' & C').
  assert (∀ l, store_ok hasher s l → reopens p (Some (take k (wal_header ++ concat (chunks ++ [bs])))) l) as Op.
  { intros l Ol opts policy. unfold open_with_options_and_checkpoint_policy. rewrite R. cbn [mbind result_bind].
    rewrite torn_opens. cbn [mbind result_bind]. eexists. split; [done|]. done. }
  rewrite length_app in Hn. cbn in Hn. destruct (decide (n = length es + 1)%nat) as [->|N].
  { right. apply Op. rewrite take_ge in Ok' by (rewrite length_app; cbn; lia). done. }
  left. apply Op. destruct (decide (n = length es)) as [->|N2].
  { rewrite take_app_length in Ok'. done. }
  exfalso. destruct Hk as [Hk| ->]; [|cbn in *; lia].
  destruct (lookup_lt_is_Some_2 (chunks ++ [bs]) n ltac:(rewrite length_app; cbn; lia)) as [b B]. specialize (Hc b B).
  assert (n < length chunks)%nat as Ln by lia. rewrite lookup_app_l in B by done. rewrite take_app_le in Hc by lia.
  rewrite length_app, header_length in Hk.
  assert (length (concat chunks) = length (concat (take n chunks)) + length (concat (drop n chunks)))%nat as L.
  { by rewrite <-length_app, <-concat_app, take_drop. }
  rewrite (drop_S _ _ _ B) in L. cbn [concat] in L. rewrite length_app in L. lia.
Qed.

Lemma crash_recovers db log c batch p wal : db_inv db log → write_context db = File c → batch_ok db c batch →
  (checkpoint_due db c = true → CheckpointLaws) → crash_disk db batch p wal → reopens p wal log ∨ reopens p wal (log ++ accepted true [] batch).
Proof using codec_roundtrip crc_u32.
  intros Inv Ctx Bok Due. pose proof Inv as [_ (c0 & base & es & Ec & Sv & Wh & El & Wo & Ck & Ce & Wc & Wz)].
  rewrite Ctx in Ec. injection Ec as <-. set (e := mkWalEntry (tx_counter (db_storage db) + 1) batch).
  destruct (opened_holds c es Wh Wo) as (chunks & M & Eo & Lf).
  assert (base ++ wal_log (pfs c) (es ++ [e]) = log ++ accepted true [] batch) as En.
  { rewrite El, <-app_assoc. f_equal. apply (extend_log db c batch Bok); [done|done|apply Wh]. }
  assert (∀ file', append_entry to_allocvec crc32 (wal_header ++ concat chunks) (tx_counter (db_storage db) + 1) batch = Ok file' →
    ∃ bs, entry_bytes to_allocvec crc32 e = Ok bs ∧ file' = (wal_header ++ concat chunks) ++ bs ∧
      wal_holds (Some file') (es ++ [e])) as Ap.
  { intros file' A. unfold append_entry in A. apply bind_Ok in A as (bs & B & A). apply Ok_inj in A as <-.
    exists bs. split; [exact B|]. split; [done|]. by apply (extend_wal db log c batch Inv Bok). }
  intros Cr. destruct Cr as [c1 C1|c1 file file' k C1 O1 A1 K|c1 file file' s p s' r C1 Du O1 A1 Af Sp|c1 file file' s p s' o C1 Du O1 A1 Af Sp Pr];
    rewrite Ctx in C1; injection C1 as <-.
  - left. rewrite El. by apply holds_reopens.
  - rewrite Eo in O1. apply Ok_inj in O1 as <-. destruct (Ap file' A1) as (bs & B & -> & W').
    assert ((length (wal_header ++ concat chunks) ≤ k)%nat ∨ es = []) as K'.
    { destruct K as [K|K]; [by left|right]. destruct Wh as [_ _ _ _ By]. by rewrite K in By. }
    destruct (torn_reopens (pfs c) base es e _ k chunks bs Sv W' M B K') as [X|X]; rewrite ?En, <-?El in X; [by left|by right].
  - specialize (Due Du). right. rewrite Eo in O1. apply Ok_inj in O1 as <-. destruct (Ap file' A1) as (bs & B & -> & W').
    destruct (apply_batch db log c batch Inv Bok) as (s1 & Af' & Ok1 & Cn). rewrite Af in Af'. injection Af' as <-.
    pose proof (save_spec (pfs c) s base (log ++ accepted true [] batch) Sv Ok1 ltac:(lia)) as L. rewrite Sp in L.
    assert (∀ q, saved q (log ++ accepted true [] batch) → last_checkpointed_tx_count q = tx_counter s →
      reopens q (Some ((wal_header ++ concat chunks) ++ bs)) (log ++ accepted true [] batch)) as Late.
    { intros q Sq Cq. pose proof (holds_reopens q _ _ _ Sq W') as X. rewrite wal_log_none, app_nil_r in X; [done|].
      apply newer_none. intros e' [Ie| ->%list_elem_of_singleton]%elem_of_app; rewrite Cq, Cn; [apply Ce in Ie; lia|done]. }
    destruct r as [o|er].
    + destruct (permits_wal_retire o); [destruct L as (Sq & _ & _ & Cq & _); by apply Late|]. destruct L as [-> _].
      rewrite <-En. by apply holds_reopens.
    + destruct L as [_ [->|[Sq Cq]]]; [rewrite <-En; by apply holds_reopens|by apply Late].
  - specialize (Due Du). right. destruct (apply_batch db log c batch Inv Bok) as (s1 & Af' & Ok1 & Cn). rewrite Af in Af'. injection Af' as <-.
    pose proof (save_spec (pfs c) s base (log ++ accepted true [] batch) Sv Ok1 ltac:(lia)) as L. rewrite Sp, Pr in L.
    destruct L as (Sq & _). pose proof (holds_reopens p None _ [] Sq no_wal) as X. by rewrite wal_log_none, app_nil_r in X.
Qed.

(** * Operations of a handle *)

Inductive db_event : Type :=
| EvExecute (cmd : DatalogCommand)
| EvCommit (t : WriteTransaction)
| EvCheckpoint.

Section events.
Context (parse_str : string → option Z) (new_v5_oid : string → Z) (uuid_to_string : Z → string).
Context (is_match : string → string → bool).
Context (set_order : list (gmap string Value) → list (gmap string Value)) (clock : nat → Z).
Context (write_clock : FactStorage → Z).
Context (adornment_order : gmap string (list Ascii.ascii) → list (string * list Ascii.ascii)).
Context (rule_order : gmap string (list Rule) → list (string * list Rule)).
Context (edge_order : gmap string (list (string * bool)) → list (string * list (string * bool))).
Context (new_v4 : nat → EntityId).
#[local] Abbreviation do_execute db now cmd := (db_execute parse_str new_v5_oid uuid_to_string is_match to_allocvec crc32 hasher
  set_order clock write_clock adornment_order rule_order edge_order new_v4 false db now cmd).
#[local] Abbreviation run db q := (execute_query parse_str new_v5_oid uuid_to_string is_match set_order clock hasher write_clock
  adornment_order rule_order edge_order new_v4 (set_db_limits db) q).

(** The handle after an operation, and whether it was acknowledged. *)
Definition perform (db : ViciaDb Pfs) (now : Z) (ev : db_event) : ViciaDb Pfs * bool :=
  match ev with
  | EvExecute cmd => let '(db, r) := do_execute db now cmd in (db, is_ok r)
  | EvCommit t => let '(db, r) := commit to_allocvec crc32 hasher db t now in (db, is_ok r)
  | EvCheckpoint => let '(db, r) := checkpoint db in (db, is_ok r)
  end.
(** The batch an operation writes, if it writes one. *)
Definition stamp_batch (now count : Z) (facts : list Fact) : list Fact := stamp_commit now count <$> facts.
Definition forget_facts (db : ViciaDb Pfs) (now : Z) (spec : ForgetSpec) : result (list Fact * Z) :=
  let t := default (cast_signed now) (forget_valid_to spec) in
  triples ← resolve_forget_triples parse_str new_v5_oid (λ q, run db q) spec t;
  materialize_closure (db_storage db) triples t.
Definition event_batch (db : ViciaDb Pfs) (now : Z) (ev : db_event) : option (list Fact) :=
  let count := tx_counter (db_storage db) + 1 in
  match ev with
  | EvExecute (CmdTransact tx) =>
    match materialize_transaction parse_str new_v5_oid tx with Ok facts => Some (stamp_batch now count facts) | Err _ => None end
  | EvExecute (CmdRetract tx) =>
    match materialize_retraction parse_str new_v5_oid tx with Ok facts => Some (stamp_batch now count facts) | Err _ => None end
  | EvExecute (CmdForget spec) =>
    match forget_facts db now spec with
    | Ok ((f :: facts) as all, _) => Some ((λ f, stamp now count f) <$> all)
    | _ => None
    end
  | EvCommit t => match pending_facts t with [] => None | facts => Some (stamp_batch now count facts) end
  | _ => None
  end.

Lemma same_files_inv db db' log : db_inv db log → db_storage db' = db_storage db → write_context db' = write_context db → db_inv db' log.
Proof using. intros [So F] Es Ec. split; rewrite Es, ?Ec; done. Qed.

Lemma allocated db log : db_inv db log → tx_counter (db_storage db) < u64_MAX →
  allocate_tx_count (db_storage db) = ((allocate_tx_count (db_storage db)).1, tx_counter (db_storage db) + 1).
Proof using.
  intros I M. destruct (allocate_spec hasher (db_storage db) log (di_store _ _ I) M) as (_ & E & _).
  rewrite <-E. by destruct (allocate_tx_count (db_storage db)).
Qed.

(** An operation that writes a batch is the write of the batch. *)
Lemma perform_writes db log now ev batch : db_inv db log → tx_counter (db_storage db) < u64_MAX → event_batch db now ev = Some batch →
  let '(db', r) := write_batch to_allocvec crc32 hasher (with_store db (allocate_tx_count (db_storage db)).1)
                     (allocate_tx_count (db_storage db)).2 batch in
  perform db now ev = (db', is_ok r).
Proof using.
  intros I M. pose proof (allocated db log I M) as A. destruct ev as [[q|r|tx|tx|spec]|t|]; cbn [event_batch]; try done.
  - unfold perform, db_execute, commit_facts. destruct (materialize_transaction _ _ tx) as [facts|]; [|done].
    intros [= <-]. rewrite A. cbn [fst snd]. by destruct (write_batch _ _ _ _ _ _) as [db' []].
  - unfold perform, db_execute, commit_facts. destruct (materialize_retraction _ _ tx) as [facts|]; [|done].
    intros [= <-]. rewrite A. cbn [fst snd]. by destruct (write_batch _ _ _ _ _ _) as [db' []].
  - unfold perform, db_execute, execute_forget_locked, forget_facts. cbn zeta. destruct (resolve_forget_triples _ _ _ _ _ ≫= _) as [[[|f facts] n]|]; try done.
    intros [= <-]. rewrite A. cbn [fst snd]. by destruct (write_batch _ _ _ _ _ _) as [db' []].
  - unfold perform, commit, commit_facts. destruct (pending_facts t) as [|f facts]; [done|].
    intros [= <-]. rewrite A. cbn [fst snd]. by destruct (write_batch _ _ _ _ _ _) as [db' []].
Qed.
(** Any other operation keeps the log. *)
Lemma perform_other db log now ev : (ev = EvCheckpoint → CheckpointLaws) → db_inv db log → event_batch db now ev = None → db_inv (perform db now ev).1 log.
Proof using.
  intros Cl I. destruct ev as [[q|r|tx|tx|spec]|t|]; cbn [event_batch perform]; try done.
  - intros _. unfold db_execute. destruct (execute_rule _ _ _ _) as [ex res]. by apply (same_files_inv db).
  - unfold db_execute. by destruct (materialize_transaction _ _ tx).
  - unfold db_execute. by destruct (materialize_retraction _ _ tx).
  - unfold db_execute, execute_forget_locked, forget_facts. cbn zeta. by destruct (resolve_forget_triples _ _ _ _ _ ≫= _) as [[[|f facts] n]|].
  - unfold commit. by destruct (pending_facts t).
  - intros _. unfold checkpoint. destruct (do_checkpoint _ _) as [[s ctx] r] eqn:D. by apply (checkpoint_inv db log s ctx r (Cl eq_refl)).
Qed.

(** One operation, with the promise of a save where the operation saves. *)
Lemma event_durable db log c now ev : (ev = EvCheckpoint ∨ checkpoint_due db c = true → CheckpointLaws) →
  db_inv db log → write_context db = File c →
  (∀ batch, event_batch db now ev = Some batch → batch_ok db c batch) →
  match event_batch db now ev with
  | None => db_inv (perform db now ev).1 log
  | Some batch =>
    let log' := log ++ accepted true [] batch in
    (if (perform db now ev).2 then db_inv (perform db now ev).1 log'
     else db_inv (perform db now ev).1 log ∨ checkpoint_due db c = true ∧ db_inv (perform db now ev).1 log') ∧
    (∀ p wal, crash_disk db batch p wal → reopens p wal log ∨ reopens p wal log')
  end ∧
  (∀ l c', db_inv (perform db now ev).1 l → write_context (perform db now ev).1 = File c' → reopens (pfs c') (wal_file c') l).
Proof using codec_roundtrip crc_u32.
  intros Cl I Ctx Bk. split.
  - destruct (event_batch db now ev) as [batch|] eqn:E; [|by apply perform_other; auto].
    specialize (Bk batch eq_refl). cbn zeta. split; [|intros p wal; by apply (crash_recovers db log c); auto].
    pose proof (perform_writes db log now ev batch I (bk_counter _ _ _ Bk) E) as W.
    destruct (write_batch _ _ _ _ _ _) as [db' r] eqn:Wb. rewrite W. cbn [fst snd].
    destruct (write_durable db log c batch I Ctx Bk db' r ltac:(auto) Wb) as [(v & -> & D)|(e & -> & D)]; done.
  - intros l c' I' C' opts policy. destruct (inv_reopens _ l c' opts policy I' C') as (db' & O & D). exists db'. split; [done|apply D].
Qed.

(** With a save that keeps its promise, an operation may save as well. *)
Theorem checkpointed_writes_survive db log c now ev : CheckpointLaws → db_inv db log → write_context db = File c →
  (∀ batch, event_batch db now ev = Some batch → batch_ok db c batch) →
  match event_batch db now ev with
  | None => db_inv (perform db now ev).1 log
  | Some batch =>
    let log' := log ++ accepted true [] batch in
    (if (perform db now ev).2 then db_inv (perform db now ev).1 log'
     else db_inv (perform db now ev).1 log ∨ checkpoint_due db c = true ∧ db_inv (perform db now ev).1 log') ∧
    (∀ p wal, crash_disk db batch p wal → reopens p wal log ∨ reopens p wal log')
  end.
Proof using codec_roundtrip crc_u32. intros Cl I Ctx Bk. by apply (event_durable db log c now ev). Qed.

(** C1: between checkpoints, acknowledged writes survive a crash and a write is all or
    nothing.  Let a handle hold a log, let its paged file open to the checkpointed part
    of it, and let its sidecar hold exactly complete entries for the rest; a handle
    opened over a torn tail is not one.  Let the next entry not make a checkpoint due.
    After any command or commit (with room for the batch) handle and files hold a log
    again, so that reopening returns it: the same log when nothing is written or the
    entry is refused, the log with the batch's new facts appended exactly when the
    operation is acknowledged.  A crash in the middle of the write leaves the sidecar cut
    at any byte of the new entry, and reopens with the log before or after the write. *)
Theorem acknowledged_writes_survive db log c now ev :
  db_inv db log → write_context db = File c → ev ≠ EvCheckpoint → checkpoint_due db c = false →
  (∀ batch, event_batch db now ev = Some batch → batch_ok db c batch) →
  match event_batch db now ev with
  | None => db_inv (perform db now ev).1 log
  | Some batch =>
    let log' := log ++ accepted true [] batch in
    db_inv (perform db now ev).1 (if (perform db now ev).2 then log' else log) ∧
    (∀ p wal, crash_disk db batch p wal → reopens p wal log ∨ reopens p wal log')
  end ∧
  (∀ l c', db_inv (perform db now ev).1 l → write_context (perform db now ev).1 = File c' → reopens (pfs c') (wal_file c') l).
Proof using codec_roundtrip crc_u32.
  intros I Ctx Ne Du Bk. destruct (event_durable db log c now ev) as [D R]; [intros [?|?]; congruence|done..|]. split; [|done].
  destruct (event_batch db now ev) as [batch|]; [|done]. destruct D as [D Cr]. split; [|done].
  destruct (perform db now ev).2; [done|]. destruct D as [D|[D _]]; [done|congruence].
Qed.
End events.
End durability.

(** * A file that keeps its log in memory *)

Definition MemFile : Type := list Fact * Z.
Definition mem_store (p : MemFile) : FactStorage := {|
  pending := overlay_new; committed := Some (default_reader (λ _, Err "no page") p.1 0);
  committed_index_reader := None; publication_generation := 0; tx_counter := p.2 |}.
#[export] Instance mem_checkpoint : CheckpointStore MemFile := {
  pfs_storage := mem_store;
  last_checkpointed_tx_count := snd;
  pfs_save p s := match get_all_facts s with
                  | Ok all => ((all, tx_counter s), mem_store (all, tx_counter s), Ok FullRebuild)
                  | Err e => (p, s, Err e)
                  end;
}.
Lemma mem_store_ok hasher s log : store_ok hasher s log → store_ok hasher (mem_store (log, tx_counter s)) log.
Proof.
  intros [_ _ B P S]. split; cbn; try done.
  - apply (so_overlay _ _ _ (storage_new_ok hasher)).
  - exists log. split; [apply default_reader_serves|]. by rewrite app_nil_r.
Qed.
Lemma mem_saved hasher s log : store_ok hasher s log → saved hasher (Pfs := MemFile) (log, tx_counter s) log.
Proof.
  intros So. split; cbn; [by apply mem_store_ok|done| |].
  - intros f F. by apply (so_counts _ _ _ So).
  - split; [apply (so_counter _ _ _ So)|done].
Qed.
#[export] Instance mem_laws hasher : CheckpointLaws hasher (Pfs := MemFile).
Proof.
  split. intros p s base log Sv So Ck. cbn. rewrite (get_all_facts_ok _ _ _ So). cbn. split_and!; try done.
  - by apply mem_saved.
  - by apply mem_store_ok.
Qed.

Definition empty_file : MemFile := ([], 0).
Definition empty_db : ViciaDb MemFile :=
  mkDb (mem_store empty_file) registry_new with_builtins (File (mkFileContext empty_file false false None 0)) default_options Automatic.
Lemma empty_db_inv : db_inv demo_encode demo_crc const_hasher empty_db [].
Proof.
  pose proof (mem_saved const_hasher storage_new [] (storage_new_ok _)) as Sv. split; [apply Sv|].
  eexists _, [], []. split_and!; try done. - apply no_wal. - by intros e ?%elem_of_nil.
Qed.
Definition demo_command : DatalogCommand :=
  CmdTransact (mkTransaction [pattern_new (EUuid 7) (EKeyword ":name") (EInteger 1)] (Some 0) (Some 100)).
#[local] Abbreviation demo_perform := (perform demo_encode demo_crc const_hasher no_uuid v5_stub print_stub (λ _ _, false) id
  (λ _, 0) (λ _, 0) map_to_list map_to_list map_to_list Z.of_nat empty_db 1000 (EvExecute demo_command)).
Lemma acknowledged_writes_survive_witness :
  demo_perform.2 = true ∧ db_inv demo_encode demo_crc const_hasher demo_perform.1 [demo_fact 1] ∧
  ∀ p wal, crash_disk demo_encode demo_crc const_hasher empty_db [demo_fact 1] p wal →
    reopens demo_decode demo_crc const_hasher p wal [] ∨ reopens demo_decode demo_crc const_hasher p wal [demo_fact 1].
Proof.
  pose proof (acknowledged_writes_survive demo_encode demo_decode demo_crc demo_codec demo_crc_u32 const_hasher
    no_uuid v5_stub print_stub (λ _ _, false) id (λ _, 0) (λ _, 0) map_to_list map_to_list map_to_list Z.of_nat
    empty_db [] (mkFileContext empty_file false false None 0) 1000 (EvExecute demo_command) empty_db_inv eq_refl
    ltac:(discriminate) ltac:(reflexivity)) as T.
  cbv [event_batch] in T.
  assert (materialize_transaction no_uuid v5_stub (mkTransaction [pattern_new (EUuid 7) (EKeyword ":name") (EInteger 1)] (Some 0) (Some 100))
    = Ok [mkFact 7 ":name" (VInteger 1) 0 0 0 100 true]) as E by (vm_compute; reflexivity).
  cbv [demo_command] in T. rewrite E in T.
  assert (stamp_batch 1000 (tx_counter (db_storage empty_db) + 1) [mkFact 7 ":name" (VInteger 1) 0 0 0 100 true] = [demo_fact 1]) as Es by reflexivity.
  rewrite Es in T. destruct T as [[D C] _].
  - intros batch [= <-]. split; cbn; try done.
    + by intros f ->%list_elem_of_singleton.
    + constructor; [|done]. split; try done; cbn; ilia.
  - assert (demo_perform.2 = true) as Ack by (vm_compute; reflexivity).
    split; [exact Ack|]. unfold demo_command in Ack |- *. rewrite Ack in D. split; [exact D|exact C].
Defined.
