(* ===== verification/Forget.v ===== *)
(** Closing validity windows with [forget] (on src/src/db.rs): which instants a
    triple covers after the closure, over the whole log. *)
From S2P Require Import Prelude Types ValueCodec NetView SortedRuns Index PendingOverlay FactStore Lookup MergeScan CurrentState IndexScan Cursors QueryTypes Executor Database.
Set Default Proof Using "Type".

(** A triple is known by entity, attribute and canonical value. *)
Definition TripleKey : Type := EntityId * Attribute * Value.
Definition key_of (t : Triple) : TripleKey := (t.1.1, t.1.2, canonical t.2).
(** An instant at which the triple holds in the net view of a log. *)
Definition covered (log : list Fact) (k : TripleKey) (t : Z) : Prop :=
  ∃ f, visible log f ∧ eav_key f = k ∧ valid_from f ≤ t < valid_to f.

(** * Windows and what closes them *)

Lemma contains_time_spec t f : contains_time t f = true ↔ valid_from f ≤ t < valid_to f.
Proof. unfold contains_time. rewrite andb_true_iff, Z.leb_le, Z.ltb_lt. done. Qed.

Definition closing (t : Triple) (w : Fact) : Fact :=
  fact_retract_with_valid_time t.1.1 t.1.2 t.2 0 0 (valid_from w) (valid_to w).
Definition truncated (t : Triple) (closure_time vf : Z) : Fact := fact_with_valid_time t.1.1 t.1.2 t.2 0 0 vf closure_time.

Lemma close_windows_elem t ct ws f : f ∈ close_windows t ct ws ↔
  (∃ w, w ∈ ws ∧ contains_time ct w = true ∧ f = closing t w) ∨
  (∃ w, w ∈ ws ∧ contains_time ct w = true ∧ valid_from w < ct ∧ f = truncated t ct (valid_from w)).
Proof.
  unfold close_windows. destruct t as [[e a] v].
  assert (∀ l starts facts, let '(starts', facts') := foldl (close_window (e, a, v) ct) (starts, facts) l in
    (∀ x, x ∈ starts' ↔ x ∈ starts ∨ ∃ w, w ∈ l ∧ valid_from w < ct ∧ x = valid_from w) ∧
    (f ∈ facts' ↔ f ∈ facts ∨ (∃ w, w ∈ l ∧ f = closing (e, a, v) w) ∨
       (∃ w, w ∈ l ∧ valid_from w < ct ∧ (valid_from w ∉ starts) ∧ f = truncated (e, a, v) ct (valid_from w)))) as H.
  { intros l. induction l as [|w l IH]; intros starts facts; cbn [foldl]; [set_solver|].
    unfold close_window at 2. cbn zeta beta iota.
    set (facts1 := facts ++ [fact_retract_with_valid_time e a v 0 0 (valid_from w) (valid_to w)]).
    destruct ((valid_from w <? ct) && negb (bool_decide (valid_from w ∈ starts))) eqn:C.
    - apply andb_prop in C as [L%Z.ltb_lt N%negb_true_iff%bool_decide_eq_false].
      specialize (IH ({[valid_from w]} ∪ starts) (facts1 ++ [fact_with_valid_time e a v 0 0 (valid_from w) ct])).
      destruct (foldl _ _ l) as [starts' facts']. destruct IH as [I1 I2]. split; [set_solver|].
      rewrite I2. unfold facts1. rewrite !elem_of_app, !list_elem_of_singleton. split.
      + intros [[[F| ->]| ->]|[(w' & I & ->)|(w' & I & Lw & Nw & ->)]].
        * by left.
        * right. left. exists w. split; [left|done].
        * right. right. exists w. split; [left|done].
        * right. left. exists w'. split; [by right|done].
        * right. right. exists w'. split; [by right|]. set_solver.
      + intros [F|[(w' & [->|I]%elem_of_cons & ->)|(w' & [->|I]%elem_of_cons & Lw & Nw & ->)]]; [by auto|by auto| |by auto|].
        * right. left. by exists w'.
        * destruct (decide (valid_from w' = valid_from w)) as [E|E]; [left; right; unfold truncated; cbn; by rewrite E|].
          right. right. exists w'. split_and!; try done. set_solver.
    - specialize (IH starts facts1). destruct (foldl _ _ l) as [starts' facts']. destruct IH as [I1 I2].
      assert (¬ (valid_from w < ct ∧ valid_from w ∉ starts)) as Nc.
      { intros [L N]. rewrite (proj2 (Z.ltb_lt _ _) L), bool_decide_false in C by done. done. }
      split.
      + intros x. rewrite I1. split; [intros [?|(w' & ? & ?)]; [by left|right; exists w'; split; [by right|done]]|].
        intros [?|(w' & [->|I]%elem_of_cons & L & ->)]; [by left| |right; by exists w'].
        left. destruct (decide (valid_from w ∈ starts)); [done|]. by destruct Nc.
      + rewrite I2. unfold facts1. rewrite elem_of_app, list_elem_of_singleton. split.
        * intros [[F| ->]|[(w' & I & ->)|(w' & I & Lw & Nw & ->)]]; [by left|..].
          -- right. left. exists w. split; [left|done].
          -- right. left. exists w'. split; [by right|done].
          -- right. right. exists w'. split; [by right|done].
        * intros [F|[(w' & [->|I]%elem_of_cons & ->)|(w' & [->|I]%elem_of_cons & Lw & Nw & ->)]]; [by auto|by auto| | |].
          -- right. left. by exists w'.
          -- by destruct Nc.
          -- right. right. by exists w'. }
  specialize (H (List.filter (contains_time ct) ws) ∅ []). destruct (foldl _ _ _) as [starts facts]. cbn.
  destruct H as [_ ->]. rewrite elem_of_nil. setoid_rewrite elem_of_List_filter. set_solver.
Qed.

(** * The facts of a closure *)

Section closure.
Context (hasher : EavtKey → Z) (s : FactStorage) (log : list Fact) (rows : list (Fact * FactRef)).
Hypothesis Ok_s : store_ok hasher s log.
Hypothesis Ok_log : Forall fact_ok log.
Hypothesis Backed : backed_by s rows.
(** No assertion uses the window that marks an unscoped retraction. *)
Hypothesis Windows : ∀ f, f ∈ log → asserted f = true → is_unscoped_window (valid_from f) (valid_to f) = false.

(** A triple the lookups can find. *)
Record triple_ok (t : Triple) : Prop := {
  tk_entity : u128_ok t.1.1;
  tk_last : t.1.1 ≠ 2 ^ 128 - 1;
  tk_value : value_ok t.2;
  tk_nan f : f ∈ log → ¬ nan_collision (value f) t.2;
}.

Lemma closure_nonneg f : f ∈ log → 0 ≤ tx_count f.
Proof using Ok_s. intros F. apply (so_counts _ _ _ Ok_s) in F. lia. Qed.

Lemma triple_history t : triple_ok t →
  ∃ history, facts_for_triple s t.1.1 t.1.2 t.2 = Ok history ∧ ∀ f, f ∈ history ↔ f ∈ log ∧ eav_key f = key_of t.
Proof using All. clear Windows.
  intros [U L V N]. destruct (get_facts_by_entity_lemma hasher s log Ok_s Ok_log rows t.1.1 Backed U L) as (fs & E & P).
  unfold facts_for_triple. rewrite E. eexists. split; [done|]. intros f.
  rewrite elem_of_List_filter, P, elem_of_List_filter, andb_true_iff, !bool_decide_eq_true, Z.eqb_eq.
  assert (f ∈ log → encode_value (value f) = encode_value t.2 ↔ canonical (value f) = canonical t.2) as Id.
  { intros I. rewrite Forall_forall in Ok_log. rewrite encode_value_identity by (done || apply (ok_value _ (Ok_log f I))).
    rewrite canonical_eq_iff. split; [intros [X|X]; [done|by destruct (N f I)]|by left]. }
  unfold eav_key, key_of. split.
  - intros ([A Ev] & Ee & I). split; [done|]. apply Id in Ev; [|done]. congruence.
  - intros [I [= Ee A C]]. split_and!; try done. by apply Id.
Qed.
Lemma history_visible t history f : (∀ f, f ∈ history ↔ f ∈ log ∧ eav_key f = key_of t) →
  visible history f ↔ visible log f ∧ eav_key f = key_of t.
Proof using. clear.
  intros H. split.
  - intros (I & A & P & C). apply H in I as [I K]. split; [|done]. split_and!; try done. intros g G X. apply C; [|done].
    apply H. split; [done|]. rewrite <-K. unfold cancels in X. apply andb_prop in X as [_ X].
    destruct (is_unscoped_window _ _); apply bool_decide_eq_true in X; [done|by apply (f_equal fst) in X].
  - intros [(I & A & P & C) K]. split_and!; [by apply H|done..|]. intros g G X. apply H in G as [G _]. by apply C.
Qed.

(** What a closure writes: for each window of a triple that contains the closure
    time, its retraction and its part before the closure. *)
Lemma closure_facts triples ct : (∀ t, t ∈ triples → triple_ok t) →
  ∃ facts n, materialize_closure s triples ct = Ok (facts, n) ∧
    ∀ f, f ∈ facts ↔ ∃ t w, t ∈ triples ∧ visible log w ∧ eav_key w = key_of t ∧ valid_from w ≤ ct < valid_to w ∧
      (f = closing t w ∨ valid_from w < ct ∧ f = truncated t ct (valid_from w)).
Proof using All.
  intros T. unfold materialize_closure.
  assert (∀ l acc n, (∀ t, t ∈ l → triple_ok t) → ∃ facts m, foldR (close_triple s ct) (acc, n) l = Ok (facts, m) ∧
    ∀ f, f ∈ facts ↔ f ∈ acc ∨ ∃ t w, t ∈ l ∧ visible log w ∧ eav_key w = key_of t ∧ valid_from w ≤ ct < valid_to w ∧
      (f = closing t w ∨ valid_from w < ct ∧ f = truncated t ct (valid_from w))) as H.
  { intros l. induction l as [|t l IH]; intros acc n Tl; cbn [foldR].
    { exists acc, n. split; [done|]. intros f. split; [intros; by left|]. intros [?|(t & w & ?%elem_of_nil & _)]; done. }
    destruct (triple_history t) as (history & Eh & Hh); [apply Tl; left|]. unfold close_triple at 2. rewrite Eh. cbn [mbind result_bind].
    match goal with |- context [foldR _ (?a, ?m) l] => destruct (IH a m) as (facts & m' & E & M) end; [intros; apply Tl; by right|].
    exists facts, m'. split; [exact E|]. intros f. rewrite M, elem_of_app, close_windows_elem.
    assert (∀ g, g ∈ history → 0 ≤ tx_count g) as Nh by (intros g G; apply closure_nonneg; by apply Hh).
    assert (∀ P : Z → Z → Prop, (∃ w, w ∈ net_asserted_facts history ∧ contains_time ct w = true ∧ P (valid_from w) (valid_to w)) ↔
       (∃ w, visible log w ∧ eav_key w = key_of t ∧ valid_from w ≤ ct < valid_to w ∧ P (valid_from w) (valid_to w))) as W.
    { intros P. split.
      - intros (w & I & C & Pw). apply net_visible, (history_visible t) in I as [V K]; [|done..]. exists w.
        by apply contains_time_spec in C.
      - intros (w & V & K & C & Pw). destruct (visible_net history w Nh) as (g & G & Wg); [by apply (history_visible t)|].
        injection Wg as _ _ _ E1 E2. exists g. rewrite contains_time_spec, E1, E2. split; [done|]. split; [exact C|exact Pw]. }
    pose proof (W (λ vf vt, f = closing t (mkFact 0 "" VNull 0 0 vf vt true))) as W1.
    pose proof (W (λ vf vt, vf < ct ∧ f = truncated t ct vf)) as W2.
    assert (∀ w, closing t (mkFact 0 "" VNull 0 0 (valid_from w) (valid_to w) true) = closing t w) as Cw by done.
    split.
    - intros [[F|[F|F]]|(t' & w & I & R)]; [by left| | |right; exists t', w; split; [by right|done]].
      + apply W1 in F as (w & V & K & C & ->). right. exists t, w. split; [left|]. split; [exact V|]. split; [exact K|]. split; [exact C|by left].
      + apply W2 in F as (w & V & K & C & L & ->). right. exists t, w. split; [left|]. split; [exact V|]. split; [exact K|]. split; [exact C|by right].
    - intros [F|(t' & w & [->|I]%elem_of_cons & V & K & C & [->|[L ->]])]; [by auto|..].
      + left. right. left. apply W1. by exists w.
      + left. right. right. apply W2. by exists w.
      + right. exists t', w. split; [done|]. split; [exact V|]. split; [exact K|]. split; [exact C|by left].
      + right. exists t', w. split; [done|]. split; [exact V|]. split; [exact K|]. split; [exact C|by right]. }
  destruct (H triples [] 0 T) as (facts & n & E & M). exists facts, n. split; [exact E|]. intros f. rewrite M. set_solver.
Qed.

(** The instants a triple covers after a closure: what its windows without the closure
    time cover, and the parts before the closure of the others. *)
Lemma covered_after (triples : list Triple) ct (facts : list Fact) now count k i :
  (∀ f, f ∈ facts ↔ ∃ t w, t ∈ triples ∧ visible log w ∧ eav_key w = key_of t ∧ valid_from w ≤ ct < valid_to w ∧
      (f = closing t w ∨ valid_from w < ct ∧ f = truncated t ct (valid_from w))) →
  0 < count → (∀ f, f ∈ log → tx_count f < count) →
  covered (log ++ (stamp now count <$> facts)) k i ↔
  (∃ f, visible log f ∧ eav_key f = k ∧ valid_from f ≤ i < valid_to f ∧
        (k ∈ key_of <$> triples → ¬ valid_from f ≤ ct < valid_to f)) ∨
  (k ∈ key_of <$> triples ∧ ∃ w, visible log w ∧ eav_key w = k ∧ valid_from w ≤ ct < valid_to w ∧ valid_from w ≤ i < ct).
Proof using Windows.
  intros M C0 Cn. set (batch := stamp now count <$> facts).
  assert (∀ t w f, t ∈ triples → visible log w → eav_key w = key_of t → valid_from w ≤ ct < valid_to w →
    cancels (stamp now count (closing t w)) f = true ↔ window_key f = window_key w) as Cc.
  { intros t w f It (Iw & Aw & _) K _. unfold cancels. cbn [asserted stamp closing fact_retract_with_valid_time valid_from valid_to].
    rewrite (Windows w Iw Aw). cbn [negb andb]. rewrite bool_decide_eq_true.
    assert (window_key (stamp now count (closing t w)) = window_key w) as ->; [|done].
    unfold window_key, eav_key, key_of in *. cbn. destruct t as [[e a] v]. cbn in *. congruence. }
  split.
  - intros (f & (I & A & P & C) & K & Ti). apply elem_of_app in I as [I|I].
    + left. exists f. assert (visible log f) as V.
      { split_and!; try done. intros g G. apply C, elem_of_app. by left. }
      split; [exact V|]. split; [exact K|]. split; [exact Ti|]. intros (t & Et & It)%list_elem_of_fmap Cf.
      assert (stamp now count (closing t f) ∈ log ++ batch) as Ib.
      { apply elem_of_app. right. apply list_elem_of_fmap_2, M. exists t, f. split; [done|]. split; [done|].
        split; [congruence|]. split; [exact Cf|by left]. }
      specialize (C _ Ib). cbn in C. rewrite (Cc t f f It V ltac:(congruence) Cf) in C. specialize (C eq_refl).
      apply Cn in I. lia.
    + apply list_elem_of_fmap in I as (g & -> & Ig). apply M in Ig as (t & w & It & V & Kw & Cw & [->|[L ->]]); [done|].
      right. cbn in K, Ti. split; [apply list_elem_of_fmap; exists t; split; [by rewrite <-K|done]|].
      exists w. split; [exact V|]. split; [by rewrite Kw|]. split; [exact Cw|exact Ti].
  - intros [(f & V & K & Ti & Nc)|[(t & Et & It)%list_elem_of_fmap (w & V & K & Cw & Ti)]].
    + exists f. split; [|split; [exact K|exact Ti]]. destruct V as (I & A & P & C). split_and!; [apply elem_of_app; by left|done..|].
      intros g [G|G]%elem_of_app X; [by apply C|]. exfalso.
      apply list_elem_of_fmap in G as (g' & -> & Ig). apply M in Ig as (t & w & It & Vw & Kw & Cw & [->|[L ->]]); [|done].
      apply (Cc t w f It Vw Kw Cw) in X. injection X as X1 X2 X3 X4 X5. apply Nc.
      * apply list_elem_of_fmap. exists t. split; [|done]. rewrite <-K, <-Kw. unfold eav_key. congruence.
      * rewrite X4, X5. exact Cw.
    + exists (stamp now count (truncated t ct (valid_from w))). split; [|split; [by rewrite Et|exact Ti]]. split_and!.
      * apply elem_of_app. right. apply list_elem_of_fmap_2, M. exists t, w. split; [done|]. split; [done|].
        split; [congruence|]. split; [exact Cw|right; split; [lia|done]].
      * done.
      * done.
      * intros g [G|G]%elem_of_app X; [by apply Cn|]. exfalso.
        apply list_elem_of_fmap in G as (g' & -> & Ig). apply M in Ig as (t' & w' & It' & Vw & Kw & Cw' & [->|[L ->]]); [|done].
        apply (Cc t' w' _ It' Vw Kw Cw') in X. injection X as _ _ _ _ X5. cbn in X5. lia.
Qed.

(** C18: [forget] closes exactly the windows that contain the closure time.  The facts
    materialized for a list of triples, appended to the log as one transaction,
    leave no named triple covered at the closure time or by a window through
    it later; every named triple covers the same instants before the closure as it
    did; windows that begin after it stay; and triples that are not named cover
    what they covered.  Nothing is written exactly when no named triple is covered
    at the closure time. *)
Theorem forget_closes (triples : list Triple) ct : (∀ t, t ∈ triples → triple_ok t) →
  ∃ facts n, materialize_closure s triples ct = Ok (facts, n) ∧
    (facts = [] ↔ ∀ t, t ∈ triples → ¬ covered log (key_of t) ct) ∧
    ∀ now count, 0 < count → (∀ f, f ∈ log → tx_count f < count) →
      let log' := log ++ (stamp now count <$> facts) in
      (∀ t, t ∈ triples → ¬ covered log' (key_of t) ct ∧
         (∀ i, i < ct → covered log' (key_of t) i ↔ covered log (key_of t) i) ∧
         (∀ i, ct < i → covered log' (key_of t) i ↔
            ∃ f, visible log f ∧ eav_key f = key_of t ∧ ct < valid_from f ∧ valid_from f ≤ i < valid_to f)) ∧
      (∀ k i, k ∉ key_of <$> triples → covered log' k i ↔ covered log k i).
Proof using All.
  intros T. destruct (closure_facts triples ct T) as (facts & n & E & M). exists facts, n. split; [exact E|]. split.
  { split.
    - intros -> t It (f & V & K & C). assert (closing t f ∈ ([] : list Fact)) as I; [|by apply elem_of_nil in I].
      apply M. exists t, f. split; [done|]. split; [done|]. split; [done|]. split; [exact C|by left].
    - intros N. apply elem_of_nil_inv. intros f (t & w & It & V & K & C & _)%M. apply (N t It). by exists w. }
  intros now count C0 Cn log'. split.
  - intros t It. assert (key_of t ∈ key_of <$> triples) as Ik by by apply list_elem_of_fmap_2.
    pose proof (λ i, covered_after triples ct facts now count (key_of t) i M C0 Cn) as Cv. fold log' in Cv. split_and!.
    + rewrite Cv. intros [(f & _ & _ & C & N)|(_ & w & _ & _ & _ & C)]; [by apply N|lia].
    + intros i L. rewrite Cv. split.
      * intros [(f & V & K & C & _)|(_ & w & V & K & Cw & C)]; [by exists f|exists w; split; [done|]; split; [done|lia]].
      * intros (f & V & K & C). destruct (decide (valid_from f ≤ ct < valid_to f)) as [D|D].
        -- right. split; [done|]. exists f. split; [done|]. split; [done|]. split; [exact D|lia].
        -- left. exists f. split; [done|]. split; [done|]. split; [exact C|done].
    + intros i L. rewrite Cv. split.
      * intros [(f & V & K & C & N)|(_ & w & V & K & Cw & C)]; [|lia]. specialize (N Ik).
        exists f. split; [done|]. split; [done|]. split; [lia|exact C].
      * intros (f & V & K & Af & C). left. exists f. split; [done|]. split; [done|]. split; [exact C|]. intros _. lia.
  - intros k i Nk. unfold log'. rewrite (covered_after triples ct facts now count k i M C0 Cn). split.
    + intros [(f & V & K & C & _)|[Ik _]]; [by exists f|done].
    + intros (f & V & K & C). left. exists f. split; [done|]. split; [done|]. split; [exact C|]. intros Ik. by destruct Nk.
Qed.
End closure.

(** Closing a window at 2000. *)
Definition age_triple : Triple := (1, ":age"%string, VInteger 3).
Lemma forget_closes_witness :
  ∃ facts n, materialize_closure prefix_store [age_triple] 2000 = Ok (facts, n) ∧
    ¬ covered (prefix_log ++ (stamp 5 2 <$> facts)) (key_of age_triple) 2000 ∧
    facts = [fact_retract_with_valid_time 1 ":age" (VInteger 3) 0 0 1000 VALID_TIME_FOREVER;
             fact_with_valid_time 1 ":age" (VInteger 3) 0 0 1000 2000].
Proof.
  destruct (forget_closes const_hasher prefix_store prefix_log [] prefix_store_ok prefix_log_ok ltac:(by right)
    ltac:(intros f; unfold prefix_log; rewrite !elem_of_cons, elem_of_nil; by intros [->|[->|[]]])
    [age_triple] 2000) as (facts & n & E & _ & H).
  - intros t ->%list_elem_of_singleton. split; [done|done|done|].
    intros f. unfold prefix_log. rewrite !elem_of_cons, elem_of_nil. intros [->|[->|[]]]; by intros [[(x & ? & _) _]|[? _]].
  - exists facts, n. split; [exact E|]. split.
    + destruct (H 5 2 ltac:(done)) as [Hn _].
      * intros f. unfold prefix_log. rewrite !elem_of_cons, elem_of_nil. by intros [->|[->|[]]].
      * destruct (Hn age_triple ltac:(left)) as [X _]. exact X.
    + assert (materialize_closure prefix_store [age_triple] 2000 = Ok ([fact_retract_with_valid_time 1 ":age" (VInteger 3) 0 0 1000 VALID_TIME_FOREVER;
             fact_with_valid_time 1 ":age" (VInteger 3) 0 0 1000 2000], 1)) as E' by (vm_compute; reflexivity).
      rewrite E in E'. by injection E'.
Defined.
