(* ===== verification/Transactions.v ===== *)
(** Explicit write transactions (on src/src/db.rs): what reads inside a transaction see and
    what is there after its commit. *)
From S2P Require Import Prelude Types ValueCodec NetView SortedRuns Index PendingOverlay FactStore Lookup MergeScan CurrentState IndexScan Cursors Wal QueryTypes Functions Matcher Branches Aggregation Stratification AccessPlan Executor Database Durability.
Set Default Proof Using "Type".

(** Transactions in progress over a store. *)
Inductive in_progress (s : FactStorage) : WriteTransaction → Prop :=
| Begun now : in_progress s (mkWriteTransaction [] (sat_add_u64 (current_tx_count s) 1) now)
| Staged t now facts : in_progress s t → in_progress s (stage_pending_facts t now facts).

Lemma stage_eq t now facts : pending_facts (stage_pending_facts t now facts) =
  pending_facts t ++ (stamp (Z.max now (next_pending_tx_id t)) (next_pending_tx_count t) <$> facts).
Proof. done. Qed.
Lemma in_progress_counts s t : 0 ≤ tx_counter s < u64_MAX → in_progress s t →
  tx_counter s < next_pending_tx_count t ≤ u64_MAX ∧ ∀ f, f ∈ pending_facts t → tx_counter s < tx_count f.
Proof.
  intros C P. induction P as [now|t now facts P [IH1 IH2]].
  - split; [cbn; unfold sat_add_u64, current_tx_count; ilia|]. intros f ?%elem_of_nil. done.
  - split; [cbn; unfold sat_add_u64; ilia|]. intros f. rewrite stage_eq, elem_of_app, list_elem_of_fmap.
    intros [F|(g & -> & _)]; [by apply IH2|]. cbn. lia.
Qed.

(** Staging order does not matter: no retraction of the transaction names a triple
    it also asserts, and each retraction names its window. *)
Definition order_free (facts : list Fact) : Prop :=
  (∀ f g, f ∈ facts → g ∈ facts → asserted f = true → asserted g = false → eav_key f ≠ eav_key g) ∧
  (∀ g, g ∈ facts → asserted g = false → valid_from g ≠ VALID_FROM_USE_TX_TIME).

Lemma use_tx_time_eav f : eav_key (use_tx_time f) = eav_key f ∧ asserted (use_tx_time f) = asserted f ∧ tx_count (use_tx_time f) = tx_count f.
Proof. unfold use_tx_time. by destruct (_ =? _). Qed.
Lemma use_tx_time_id f : valid_from f ≠ VALID_FROM_USE_TX_TIME → use_tx_time f = f.
Proof. intros N. unfold use_tx_time. by rewrite (proj2 (Z.eqb_neq _ _) N). Qed.
Lemma cancels_asserted g f : cancels g f = true → asserted g = false ∧ eav_key g = eav_key f.
Proof.
  unfold cancels. intros [A X]%andb_prop. apply negb_true_iff in A. split; [done|].
  destruct (is_unscoped_window _ _); apply bool_decide_eq_true in X; [done|by apply (f_equal fst) in X].
Qed.

(** Triples in view after newer facts that name each triple with one sign. *)
Lemma visible_appended log new k :
  (∀ f, f ∈ log → 0 ≤ tx_count f) → (∀ f g, f ∈ log → g ∈ new → tx_count f < tx_count g) →
  (∀ f g, f ∈ new → g ∈ new → asserted f = true → asserted g = false → eav_key f ≠ eav_key g) →
  (∀ f, f ∈ new → 0 < tx_count f) →
  (∃ f, visible (log ++ new) f ∧ eav_key f = k) ↔
  (∃ f, f ∈ new ∧ asserted f = true ∧ eav_key f = k) ∨
  (∃ f, visible log f ∧ eav_key f = k ∧ ∀ g, g ∈ new → cancels g f = false).
Proof.
  intros N L O P. split.
  - intros (f & (I & A & Pf & C) & K). apply elem_of_app in I as [I|I]; [right|left; by exists f].
    exists f. split; [split_and!; try done; intros g G; apply C, elem_of_app; by left|]. split; [done|].
    intros g G. apply not_true_iff_false. intros X. specialize (C g ltac:(apply elem_of_app; by right) X). specialize (L f g I G). lia.
  - intros [(f & I & A & K)|(f & (I & A & Pf & C) & K & Nc)]; exists f; (split; [|done]).
    + split_and!; [apply elem_of_app; by right|done|by apply P|]. intros g [G|G]%elem_of_app X; [by apply L|].
      apply cancels_asserted in X as [Ag E]. by destruct (O f g I G A Ag).
    + split_and!; [apply elem_of_app; by left|done..|]. intros g [G|G]%elem_of_app X; [by apply C|]. by rewrite Nc in X.
Qed.
Lemma net_keys l k : (∀ f, f ∈ l → 0 ≤ tx_count f) → k ∈ eav_key <$> net_asserted_facts l ↔ ∃ f, visible l f ∧ eav_key f = k.
Proof.
  intros N. rewrite list_elem_of_fmap. split.
  - intros (f & -> & I). exists f. split; [by apply net_visible|done].
  - intros (f & V & <-). destruct (visible_net l f N V) as (g & G & W). exists g. split; [|done]. by apply (f_equal fst) in W.
Qed.

Lemma stamp_commit_eav now count f :
  eav_key (stamp_commit now count f) = eav_key f ∧ asserted (stamp_commit now count f) = asserted f ∧ tx_count (stamp_commit now count f) = count.
Proof. unfold stamp_commit. destruct (use_tx_time_eav (stamp now count f)) as (-> & -> & ->). done. Qed.
Lemma staged_cancels now count g f : asserted g = false → valid_from g ≠ VALID_FROM_USE_TX_TIME →
  cancels (stamp_commit now count g) f = cancels (use_tx_time g) f.
Proof. intros A N. unfold stamp_commit. by rewrite !use_tx_time_id. Qed.
Lemma assertion_cancels g f : asserted g = true → cancels g f = false.
Proof. intros A. unfold cancels. by rewrite A. Qed.

(** Deduplication keeps a fact for each key, sign and window. *)
Lemma accepted_represents batch f :
  (∀ f g, f ∈ batch → g ∈ batch → value_ok (value f) ∧ ¬ nan_collision (value f) (value g)) → f ∈ batch →
  ∃ g, g ∈ accepted true [] batch ∧ eav_key g = eav_key f ∧ asserted g = asserted f ∧ valid_from g = valid_from f ∧ valid_to g = valid_to f.
Proof.
  intros Nn F. destruct (accepted_key [] batch f F) as [?%elem_of_nil|(g & G & Eg)]; [done|]. exists g. split; [done|].
  injection Eg as E1 E2 E3 E4 E5 E6 E7 E8. split_and!; try done. unfold eav_key. rewrite E1, E2. f_equal.
  apply accepted_elem in G. destruct (Nn g f G F) as [Vg Nc]. destruct (Nn f g F G) as [Vf _].
  apply encode_value_identity in E6 as [X|X]; [by apply canonical_eq_iff|by destruct Nc|done|done].
Qed.

(** Staged and committed forms of the same facts. *)
Section forms.
Context (now count : Z) (facts : list Fact).
Hypothesis Rw : ∀ g, g ∈ facts → asserted g = false → valid_from g ≠ VALID_FROM_USE_TX_TIME.
Hypothesis Nn : ∀ f g, f ∈ facts → g ∈ facts → value_ok (value f) ∧ ¬ nan_collision (value f) (value g).
#[local] Abbreviation batch := (accepted true [] (stamp_commit now count <$> facts)).
#[local] Abbreviation staged := (use_tx_time <$> facts).

Lemma stamp_commit_value f : value (stamp_commit now count f) = value f.
Proof. unfold stamp_commit, use_tx_time. by destruct (_ =? _). Qed.
Lemma batch_represents f : f ∈ facts → ∃ g, g ∈ batch ∧ eav_key g = eav_key f ∧ asserted g = asserted f ∧
  valid_from g = valid_from (stamp_commit now count f) ∧ valid_to g = valid_to (stamp_commit now count f).
Proof using Nn.
  intros F. destruct (accepted_represents (stamp_commit now count <$> facts) (stamp_commit now count f)) as (g & G & E & A & W).
  - intros f1 g1 (f0 & -> & F0)%list_elem_of_fmap (g0 & -> & G0)%list_elem_of_fmap. rewrite !stamp_commit_value. by apply Nn.
  - by apply list_elem_of_fmap_2.
  - exists g. destruct (stamp_commit_eav now count f) as (E' & A' & _). rewrite E, A, E', A'. done.
Qed.
Lemma same_assertions k : (∃ f, f ∈ staged ∧ asserted f = true ∧ eav_key f = k) ↔ (∃ f, f ∈ batch ∧ asserted f = true ∧ eav_key f = k).
Proof using Nn.
  split.
  - intros (f & (g & -> & G)%list_elem_of_fmap & A & K). destruct (use_tx_time_eav g) as (E1 & E2 & _).
    destruct (batch_represents g G) as (h & Hh & Eh & Ah & _). exists h. split_and!; [done|congruence..].
  - intros (f & (g & -> & G)%accepted_elem%list_elem_of_fmap & A & K). destruct (stamp_commit_eav now count g) as (E3 & E4 & _).
    destruct (use_tx_time_eav g) as (E1 & E2 & _). exists (use_tx_time g). split_and!; [by apply list_elem_of_fmap_2|congruence..].
Qed.
Lemma same_cancellations f : (∀ g, g ∈ staged → cancels g f = false) ↔ (∀ g, g ∈ batch → cancels g f = false).
Proof using Rw Nn.
  split.
  - intros Hs g (g0 & -> & G0)%accepted_elem%list_elem_of_fmap. destruct (stamp_commit_eav now count g0) as (_ & Ag & _).
    destruct (asserted g0) eqn:A0; [by apply assertion_cancels|]. rewrite staged_cancels; [|done|by apply Rw].
    apply Hs. by apply list_elem_of_fmap_2.
  - intros Hb g (g0 & -> & G0)%list_elem_of_fmap. destruct (use_tx_time_eav g0) as (_ & Ag & _).
    destruct (asserted g0) eqn:A0; [by apply assertion_cancels|]. rewrite <-(staged_cancels now count g0 f); [|done|by apply Rw].
    destruct (batch_represents g0 G0) as (h & Hh & Eh & Ah & Ef & Et). destruct (stamp_commit_eav now count g0) as (E3 & E4 & _).
    rewrite <-(Hb h Hh). unfold cancels, window_key. by rewrite Eh, Ah, Ef, Et, E3, E4.
Qed.
End forms.

Section commits.
Context (to_allocvec : Fact → result bytes) (crc32 : bytes → Z) (hasher : EavtKey → Z).
Context {Pfs : Type} `{CheckpointStore Pfs}.

(** A commit of an in-memory handle appends the stamped facts. *)
Lemma commit_memory (db : ViciaDb Pfs) log t now :
  store_ok hasher (db_storage db) log → tx_counter (db_storage db) < u64_MAX →
  fits (db_storage db) (length (pending_facts t)) → write_context db = Memory →
  ∃ db', commit to_allocvec crc32 hasher db t now = (db', Ok tt) ∧
    store_ok hasher (db_storage db') (log ++ accepted true [] (stamp_commit now (tx_counter (db_storage db) + 1) <$> pending_facts t)).
Proof.
  intros So M Fi Mem. unfold commit. destruct (pending_facts t) as [|f fs]; [exists db; split; [done|by rewrite app_nil_r]|].
  destruct (apply_fresh_batch hasher (db_storage db) log (stamp_commit now (tx_counter (db_storage db) + 1) <$> f :: fs) So M) as (s' & Ea & So' & _).
  { by rewrite length_fmap. }
  { intros g (g0 & -> & _)%list_elem_of_fmap. apply stamp_commit_eav. }
  unfold commit_facts. destruct (allocate_spec hasher (db_storage db) log So M) as (_ & E2 & _).
  destruct (allocate_tx_count (db_storage db)) as [s0 c0]. cbn [fst snd] in *. subst c0.
  unfold write_batch. cbn [write_context with_store db_options checkpoint_policy]. rewrite Mem.
  cbn [wal_write_stamped_batch db_storage with_context with_store]. rewrite Ea. by eexists.
Qed.

End commits.

(** * A transaction over an empty database *)

Definition memory_db : ViciaDb MemFile := in_memory_with_checkpoint_policy default_options Automatic.
Definition name_assertion : Fact := fact_with_valid_time 1 ":name" (VString "a") 0 0 VALID_FROM_USE_TX_TIME VALID_TIME_FOREVER.
Definition name_retraction : Fact := fact_retract 1 ":name" (VString "a") 0.
Definition one_write : WriteTransaction := stage_pending_facts (mkWriteTransaction [] 1 500) 600 [name_assertion].

(** Retracting and then asserting a triple in one transaction: queries inside it see
    the triple, the commit gives both records one counter and hides it. *)
Definition replace_write : WriteTransaction := stage_pending_facts (stage_pending_facts (mkWriteTransaction [] 1 500) 600 [name_retraction]) 600 [name_assertion].
Example reassertion_lost_at_commit :
  (merged ← merged_query_facts memory_db replace_write; Ok (eav_key <$> net_asserted_facts merged)) = Ok [(1, ":name"%string, VString "a")] ∧
  (let db' := (commit demo_encode demo_crc const_hasher memory_db replace_write 700).1 in
   all ← get_all_facts (db_storage db'); Ok (eav_key <$> net_asserted_facts all)) = Ok [].
Proof. split; vm_compute; reflexivity. Qed.

(** A count over an attribute with a staged fact counts nothing. *)
Definition count_names : DatalogQuery :=
  query_new [FAggregate "count" "?v"] [CPattern (pattern_new (ESymbol "?e") (EKeyword ":name") (ESymbol "?v"))].
Definition find_names : DatalogQuery :=
  query_new [FVariable "?v"] [CPattern (pattern_new (ESymbol "?e") (EKeyword ":name") (ESymbol "?v"))].
Definition read_in_tx (q : DatalogQuery) : result QueryResult :=
  execute_read_command no_uuid v5_stub print_stub (λ _ _, false) const_hasher id (λ _, 1000) (λ _, 7)
    map_to_list map_to_list map_to_list Z.of_nat memory_db one_write q.
Example staged_facts_not_counted :
  read_in_tx find_names = Ok (QueryResults ["?v"%string] [[VString "a"]]) ∧
  match read_in_tx count_names with Ok (QueryResults _ rows) => negb (bool_decide (rows = [[VInteger 1]])) | _ => false end = true.
Proof. split; vm_compute; reflexivity. Qed.
