(* ===== verification/BTreePages.v ===== *)
(** The pages of the on-disk B+trees (src/src/storage/btree_v6.rs): the two leaf
    layouts and the internal layout, how they are written and how one record is
    read back.

    A page is its 4096 bytes.  A slot directory of (offset, length) pairs grows
    from the header up and the records grow from the end of the page down.  A
    leaf stores its entries raw, or each as the length of the prefix it shares
    with the entry before it and the remaining bytes, starting afresh every
    sixteenth entry.  Offsets and lengths are [nat]; slicing out of range and
    subtraction below zero panic in the source and are [Err panicked] here. *)
From S2P Require Import Prelude Types ValueCodec Index Wal FactStore PackedPages.

(** * Definitions *)

Definition PAGE_TYPE_LEAF : Z := 0x21.
Definition PAGE_TYPE_INTERNAL : Z := 0x22.
Definition PAGE_TYPE_PREFIX_LEAF : Z := 0x23.
Definition LEAF_HEADER_SIZE : nat := 12.
Definition INTERNAL_HEADER_SIZE : nat := 12.
Definition SLOT_SIZE : nat := 4.
Definition PREFIX_RESTART_INTERVAL : nat := 16.
Definition PREFIX_RECORD_HEADER_SIZE : nat := 4.
Definition DEFAULT_BTREE_FILL_PERCENT : Z := 90.

Record BtreeBuildOptions : Type := mkBuildOptions { fill_percent : Z }.
Definition build_options_new (fill_percent : Z) : result BtreeBuildOptions :=
  if (50 <=? fill_percent) && (fill_percent <=? 100) then Ok (mkBuildOptions fill_percent)
  else Err "B-tree fill percent must be between 50 and 100".
Definition fill_bytes (o : BtreeBuildOptions) : nat :=
  Z.to_nat (Z.of_nat PAGE_SIZE * fill_percent o / 100).
Definition build_options_default : BtreeBuildOptions := mkBuildOptions DEFAULT_BTREE_FILL_PERCENT.

Definition read_u16_at (page : bytes) (offset : nat) : result nat :=
  bs ← ok_or (get_range page offset (offset + 2)) "out of bounds: read_u16";
  Ok (Z.to_nat (from_le_bytes bs)).
Definition read_u64_at (page : bytes) (offset : nat) : result Z :=
  bs ← ok_or (get_range page offset (offset + 8)) "out of bounds: read_u64";
  Ok (from_le_bytes bs).

Definition is_leaf_page_type (page_type : Z) : bool :=
  (page_type =? PAGE_TYPE_LEAF) || (page_type =? PAGE_TYPE_PREFIX_LEAF).

(** [zip], [take_while] equal, [count]. *)
Fixpoint shared_count (xs ys : bytes) : nat :=
  match xs, ys with
  | x :: xs, y :: ys => if bool_decide (x = y) then S (shared_count xs ys) else O
  | _, _ => O
  end.

Definition is_restart (index : nat) : bool := (index mod PREFIX_RESTART_INTERVAL =? 0)%nat.

Definition prefix_record_layout (previous : option bytes) (index : nat) (entry : bytes)
    : result (nat * nat * nat) :=
  let shared := if is_restart index then O else shared_count (default [] previous) entry in
  _ ← u16_try_from shared "leaf prefix exceeds u16";
  _ ← u16_try_from (length entry) "leaf entry length exceeds u16";
  Ok (shared, length entry, PREFIX_RECORD_HEADER_SIZE + (length entry - shared))%nat.

Definition panicked : string := "slice index out of range".
(** [page[off..off + bs.len()].copy_from_slice(bs)]. *)
Definition put (page : bytes) (off : nat) (bs : bytes) : result bytes :=
  ok_or (write_at page off bs) panicked.
(** [write_pos -= len]. *)
Definition sub_pos (write_pos len : nat) : result nat :=
  if (len <=? write_pos)%nat then Ok (write_pos - len)%nat else Err panicked.

(** The sizes [write_leaf_page] adds up to choose the layout. *)
Fixpoint compressed_size (previous : option bytes) (index : nat) (entries : list bytes) : result nat :=
  match entries with
  | [] => Ok O
  | entry :: entries =>
      '(_, _, stored_len) ← prefix_record_layout previous index entry;
      rest ← compressed_size (Some entry) (S index) entries;
      Ok (stored_len + rest)%nat
  end.
Definition raw_size (entries : list bytes) : nat := sum_list (length <$> entries).

(** One slot of the directory. *)
Definition write_slot_entry (page : bytes) (slot_off write_pos len : nat) : result bytes :=
  write_pos_u16 ← u16_try_from write_pos "write_pos exceeds u16";
  len_u16 ← u16_try_from len "entry len exceeds u16";
  page ← put page slot_off (to_le_bytes 2 write_pos_u16);
  put page (slot_off + 2) (to_le_bytes 2 len_u16).

(** The loop of [write_leaf_page]. *)
Fixpoint write_leaf_entries (prefixed : bool) (i write_pos : nat) (previous : option bytes) (page : bytes)
    (entries : list bytes) : result bytes :=
  match entries with
  | [] => Ok page
  | entry :: entries =>
      '(page, write_pos, stored_len) ←
        (if prefixed then
           '(shared, decoded_len, stored_len) ← prefix_record_layout previous i entry;
           write_pos ← sub_pos write_pos stored_len;
           page ← put page write_pos (to_le_bytes 2 (Z.of_nat shared));
           page ← put page (write_pos + 2) (to_le_bytes 2 (Z.of_nat decoded_len));
           suffix ← ok_or (get_range entry shared (length entry)) "leaf prefix exceeds entry length";
           page ← put page (write_pos + PREFIX_RECORD_HEADER_SIZE) suffix;
           Ok (page, write_pos, stored_len)
         else
           write_pos ← sub_pos write_pos (length entry);
           page ← put page write_pos entry;
           Ok (page, write_pos, length entry));
      page ← write_slot_entry page (LEAF_HEADER_SIZE + i * SLOT_SIZE) write_pos stored_len;
      write_leaf_entries prefixed (S i) write_pos (Some entry) page entries
  end.

Definition empty_page : bytes := replicate PAGE_SIZE (z2b 0).

(** The page [write_leaf_page] writes. *)
Definition leaf_page (entries : list bytes) (next_leaf : Z) : result bytes :=
  compressed_bytes ← compressed_size None 0 entries;
  let prefixed := (compressed_bytes <? raw_size entries)%nat in
  entry_count ← u16_try_from (length entries) "too many entries";
  page ← put empty_page 0 [z2b (if prefixed then PAGE_TYPE_PREFIX_LEAF else PAGE_TYPE_LEAF)];
  page ← put page 1 [z2b (if prefixed then Z.of_nat PREFIX_RESTART_INTERVAL else 0)];
  page ← put page 2 (to_le_bytes 2 entry_count);
  page ← put page 4 (to_le_bytes 8 next_leaf);
  write_leaf_entries prefixed 0 PAGE_SIZE None page entries.

(** The two loops of [write_internal_page]. *)
Fixpoint write_children (i : nat) (page : bytes) (child_ids : list Z) : result bytes :=
  match child_ids with
  | [] => Ok page
  | cid :: child_ids =>
      page ← put page (INTERNAL_HEADER_SIZE + i * 8) (to_le_bytes 8 cid);
      write_children (S i) page child_ids
  end.
Fixpoint write_separators (slot_dir_start i write_pos : nat) (page : bytes) (sep_bytes : list bytes)
    : result bytes :=
  match sep_bytes with
  | [] => Ok page
  | sep :: sep_bytes =>
      write_pos ← sub_pos write_pos (length sep);
      page ← put page write_pos sep;
      page ← write_slot_entry page (slot_dir_start + i * SLOT_SIZE) write_pos (length sep);
      write_separators slot_dir_start (S i) write_pos page sep_bytes
  end.

(** The page [write_internal_page] writes. *)
Definition internal_page (child_ids : list Z) (sep_bytes : list bytes) : result bytes :=
  rightmost_child ← ok_or (last child_ids) "internal page has no children";
  key_count ← u16_try_from (length sep_bytes) "too many sep keys";
  page ← put empty_page 0 [z2b PAGE_TYPE_INTERNAL];
  page ← put page 1 [z2b 0];
  page ← put page 2 (to_le_bytes 2 key_count);
  page ← put page 4 (to_le_bytes 8 rightmost_child);
  page ← write_children 0 page (take (length child_ids - 1) child_ids);
  write_separators (INTERNAL_HEADER_SIZE + length sep_bytes * 8) 0 PAGE_SIZE page sep_bytes.

(** One slot read back ([stored_entry], [leaf_entry_slice]). *)
Definition slot_slice (page : bytes) (slot_offset : nat) : result bytes :=
  offset ← read_u16_at page slot_offset;
  len ← read_u16_at page (slot_offset + 2);
  ok_or (get_range page offset (offset + len)) "entry slice out of bounds".
Definition leaf_entry_slice (page : bytes) (entry_count slot : nat) : result bytes :=
  _ ← ensure (slot <? entry_count)%nat "leaf slot exceeds entry count";
  slot_slice page (LEAF_HEADER_SIZE + slot * SLOT_SIZE).

(** A compressed record applied to the entry before it. *)
Definition reconstruct_prefix_entry (page : bytes) (entry_count slot : nat) (previous : bytes)
    : result bytes :=
  stored ← leaf_entry_slice page entry_count slot;
  _ ← ensure (PREFIX_RECORD_HEADER_SIZE <=? length stored)%nat "compressed leaf record is truncated";
  shared ← read_u16_at stored 0;
  decoded_len ← read_u16_at stored 2;
  _ ← ensure (negb (is_restart slot && negb (shared =? 0)%nat)) "compressed leaf restart record has a prefix";
  _ ← ensure (negb ((length previous <? shared)%nat || (decoded_len <? shared)%nat))
        "compressed leaf prefix is out of bounds";
  suffix ← ok_or (get_range stored PREFIX_RECORD_HEADER_SIZE (length stored))
             "compressed leaf record is truncated";
  _ ← ensure (shared + length suffix =? decoded_len)%nat "compressed leaf decoded length mismatch";
  Ok (take shared previous ++ suffix).

(** * Bytes at a place of a page *)

Definition holds (page : bytes) (off : nat) (bs : bytes) : Prop :=
  get_range page off (off + length bs) = Some bs.

Lemma holds_lookup page off bs :
  holds page off bs ↔
  (off + length bs ≤ length page)%nat ∧ ∀ i, (i < length bs)%nat → page !! (off + i)%nat = bs !! i.
Proof.
  unfold holds. rewrite get_range_Some.
  replace (off + length bs - off)%nat with (length bs) by lia. split.
  - intros (_ & L & E). split; [done|]. intros i Hi.
    transitivity (take (length bs) (drop off page) !! i); [|by rewrite <-E].
    by rewrite lookup_take_lt, lookup_drop by done.
  - intros (L & E). split_and!; [lia|done|]. apply list_eq. intros i.
    destruct (decide (i < length bs)%nat) as [Hi|Hi].
    + by rewrite lookup_take_lt, lookup_drop, E by done.
    + by rewrite lookup_take_ge, lookup_ge_None_2 by lia.
Qed.

Lemma put_ok page off bs : (off + length bs ≤ length page)%nat →
  ∃ page', put page off bs = Ok page' ∧ length page' = length page ∧ holds page' off bs ∧
    ∀ off2 bs2, holds page off2 bs2 →
      (off2 + length bs2 ≤ off ∨ off + length bs ≤ off2)%nat → holds page' off2 bs2.
Proof.
  intros L. unfold put, write_at. rewrite (proj2 (Nat.leb_le _ _) L). cbn [ok_or].
  eexists; split; [done|].
  assert (Len : length (take off page ++ bs ++ drop (off + length bs) page) = length page).
  { rewrite !length_app, length_take, length_drop. lia. }
  split; [done|]. split.
  - apply holds_lookup. rewrite Len. split; [done|]. intros i Hi.
    rewrite lookup_app_r by (rewrite length_take; lia). rewrite length_take, Nat.min_l by lia.
    rewrite lookup_app_l by lia. f_equal. lia.
  - intros off2 bs2 (L2 & E)%holds_lookup D. apply holds_lookup. rewrite Len. split; [done|].
    intros i Hi. rewrite <-E by done. destruct D as [D|D].
    + rewrite lookup_app_l by (rewrite length_take; lia). by rewrite lookup_take_lt by lia.
    + rewrite lookup_app_r by (rewrite length_take; lia). rewrite length_take, Nat.min_l by lia.
      rewrite lookup_app_r by lia. rewrite lookup_drop. f_equal. lia.
Qed.

Lemma holds_app page off a b : holds page off (a ++ b) ↔ holds page off a ∧ holds page (off + length a) b.
Proof.
  rewrite !holds_lookup, length_app. split.
  - intros (L & E). split; (split; [lia|]); intros i Hi.
    + by rewrite E, lookup_app_l by lia.
    + rewrite <-Nat.add_assoc, E by lia. rewrite lookup_app_r by lia. f_equal. lia.
  - intros ((L1 & E1) & (L2 & E2)). split; [lia|]. intros i Hi.
    destruct (decide (i < length a)%nat).
    + by rewrite lookup_app_l, E1 by lia.
    + rewrite lookup_app_r by lia. rewrite <-E2 by lia. f_equal. lia.
Qed.

Lemma page_holds_length page off bs : holds page off bs → (off + length bs ≤ length page)%nat.
Proof. by intros (? & _)%holds_lookup. Qed.

Lemma holds_u16 page off z : u16_ok z → holds page off (to_le_bytes 2 z) → read_u16_at page off = Ok (Z.to_nat z).
Proof.
  unfold holds, read_u16_at. rewrite length_to_le_bytes. intros U ->. cbn.
  by rewrite from_to_le_bytes by (unfold u16_ok in U; cbn; lia).
Qed.
Lemma holds_u64 page off z : u64_ok z → holds page off (to_le_bytes 8 z) → read_u64_at page off = Ok z.
Proof.
  unfold holds, read_u64_at. rewrite length_to_le_bytes. intros U ->. cbn.
  by rewrite from_to_le_bytes by (unfold u64_ok in U; cbn; lia).
Qed.

(** * The slot directory *)

(** Record [r] is stored behind slot [i] of a directory that starts at [base];
    records lie from [floor] up. *)
Definition slot_holds (page : bytes) (base floor i : nat) (r : bytes) : Prop :=
  ∃ off, holds page (base + i * SLOT_SIZE) (to_le_bytes 2 (Z.of_nat off) ++ to_le_bytes 2 (Z.of_nat (length r))) ∧
    holds page off r ∧ (floor ≤ off)%nat ∧ (off + length r ≤ PAGE_SIZE)%nat.

Lemma slot_holds_slice page base floor i r :
  slot_holds page base floor i r → slot_slice page (base + i * SLOT_SIZE) = Ok r.
Proof.
  intros (off & [H1 H2]%holds_app & H3 & _ & B). rewrite length_to_le_bytes in H2.
  pose proof PAGE_SIZE_val. unfold slot_slice.
  apply holds_u16 in H1; [|unfold u16_ok; lia]. apply holds_u16 in H2; [|unfold u16_ok; lia].
  rewrite H1. cbn [mbind result_bind]. rewrite H2. cbn [mbind result_bind].
  rewrite !Nat2Z.id. unfold holds in H3. by rewrite H3.
Qed.

(** The frame of everything below: what a page keeps when bytes between [lo]
    and [hi] change. *)
Definition same_outside (lo hi : nat) (page page' : bytes) : Prop :=
  length page' = length page ∧
  ∀ off bs, holds page off bs → (off + length bs ≤ lo ∨ hi ≤ off)%nat → holds page' off bs.

Lemma same_outside_refl lo hi page : same_outside lo hi page page.
Proof. by split. Qed.
Lemma same_outside_trans lo hi p1 p2 p3 :
  same_outside lo hi p1 p2 → same_outside lo hi p2 p3 → same_outside lo hi p1 p3.
Proof. intros [L1 H1] [L2 H2]. split; [congruence|]. intros off bs H D. apply H2; [by apply H1|done]. Qed.
Lemma same_outside_weaken lo hi lo' hi' p1 p2 :
  (lo' ≤ lo)%nat → (hi ≤ hi')%nat → same_outside lo hi p1 p2 → same_outside lo' hi' p1 p2.
Proof. intros A B [L H]. split; [done|]. intros off bs Hh D. apply H; [done|]. destruct D; [left|right]; lia. Qed.

Lemma put_outside page off bs page' : put page off bs = Ok page' →
  same_outside off (off + length bs) page page' ∧ holds page' off bs.
Proof.
  intros E. assert (L : (off + length bs ≤ length page)%nat).
  { unfold put, write_at in E. case_match eqn:C; [|done]. by apply Nat.leb_le in C. }
  destruct (put_ok page off bs L) as (p & E' & Len & H & F). rewrite E in E'. apply Ok_inj in E' as <-.
  by split.
Qed.

Lemma slot_holds_frame page page' lo hi base floor i r :
  same_outside lo hi page page' →
  (base + i * SLOT_SIZE + SLOT_SIZE ≤ lo ∨ hi ≤ base + i * SLOT_SIZE)%nat → (hi ≤ floor)%nat →
  slot_holds page base floor i r → slot_holds page' base floor i r.
Proof.
  intros [L F] D1 D2 (off & H1 & H2 & B1 & B2). exists off.
  split; [apply F; [done|rewrite length_app, !length_to_le_bytes; unfold SLOT_SIZE in *; lia]|].
  split; [apply F; [done|right; lia]|done].
Qed.

Lemma put_page page off bs : length page = PAGE_SIZE → (off + length bs ≤ PAGE_SIZE)%nat →
  ∃ page', put page off bs = Ok page' ∧ length page' = PAGE_SIZE ∧ same_outside off (off + length bs) page page' ∧
    holds page' off bs.
Proof.
  intros L B. destruct (put_ok page off bs ltac:(lia)) as (p & E & Len & H & F).
  exists p. split_and!; [done|lia|by split|done].
Qed.

Lemma u16_of_page n e : (n ≤ PAGE_SIZE)%nat → u16_try_from n e = Ok (Z.of_nat n).
Proof.
  pose proof PAGE_SIZE_val. intros B. unfold u16_try_from, u16_MAX.
  by rewrite (proj2 (Z.leb_le _ _)) by lia.
Qed.

Lemma write_slot_entry_ok page slot_off pos len :
  length page = PAGE_SIZE → (slot_off + SLOT_SIZE ≤ PAGE_SIZE)%nat → (pos + len ≤ PAGE_SIZE)%nat →
  ∃ page', write_slot_entry page slot_off pos len = Ok page' ∧ length page' = PAGE_SIZE ∧
    same_outside slot_off (slot_off + SLOT_SIZE) page page' ∧
    holds page' slot_off (to_le_bytes 2 (Z.of_nat pos) ++ to_le_bytes 2 (Z.of_nat len)).
Proof.
  intros L B1 B2. unfold write_slot_entry, SLOT_SIZE in *. rewrite !u16_of_page by lia. cbn [mbind result_bind].
  destruct (put_page page slot_off (to_le_bytes 2 (Z.of_nat pos)) L) as (p1 & -> & L1 & S1 & H1);
    [rewrite length_to_le_bytes; lia|]. cbn [mbind result_bind].
  destruct (put_page p1 (slot_off + 2) (to_le_bytes 2 (Z.of_nat len)) L1) as (p2 & -> & L2 & S2 & H2);
    [rewrite length_to_le_bytes; lia|].
  rewrite !length_to_le_bytes in *. exists p2. split_and!; [done|done| |].
  - eapply same_outside_trans; eapply same_outside_weaken; [| |exact S1| | |exact S2]; lia.
  - apply holds_app. rewrite length_to_le_bytes. split; [|done]. apply S2; [done|]. rewrite length_to_le_bytes. lia.
Qed.

(** Placing records fills the directory from slot [i] on and leaves the rest of
    the page alone, as long as directory and records do not meet. *)
Lemma write_separators_ok base floor seps : ∀ i pos page,
  length page = PAGE_SIZE → (base + (i + length seps) * SLOT_SIZE ≤ floor)%nat →
  (floor + raw_size seps ≤ pos)%nat → (pos ≤ PAGE_SIZE)%nat →
  ∃ page', write_separators base i pos page seps = Ok page' ∧ length page' = PAGE_SIZE ∧
    same_outside (base + i * SLOT_SIZE) pos page page' ∧
    ∀ j r, seps !! j = Some r → slot_holds page' base floor (i + j) r.
Proof.
  unfold raw_size. induction seps as [|sep seps IH]; intros i pos page L D F P;
    cbn -[Nat.mul SLOT_SIZE] in *; unfold SLOT_SIZE in *.
  { exists page. split_and!; [done..|apply same_outside_refl|done]. }
  unfold sub_pos. rewrite (proj2 (Nat.leb_le _ _)) by lia. cbn [mbind result_bind].
  destruct (put_page page (pos - length sep) sep L) as (p1 & -> & L1 & S1 & H1); [lia|]. cbn [mbind result_bind].
  destruct (write_slot_entry_ok p1 (base + i * 4) (pos - length sep) (length sep) L1)
    as (p2 & -> & L2 & S2 & H2); [unfold SLOT_SIZE; lia|lia|]. cbn [mbind result_bind]. unfold SLOT_SIZE in S2.
  replace (pos - length sep + length sep)%nat with pos in * by lia.
  assert (H1' : holds p2 (pos - length sep) sep) by (apply S2; [done|lia]).
  destruct (IH (S i) (pos - length sep)%nat p2 L2) as (p3 & E & L3 & S3 & H3); [lia..|].
  exists p3. split_and!; [done|done| |].
  - eapply same_outside_trans; [|eapply same_outside_trans].
    + eapply same_outside_weaken; [| |exact S1]; lia.
    + eapply same_outside_weaken; [| |exact S2]; lia.
    + eapply same_outside_weaken; [| |exact S3]; lia.
  - intros [|j] r Hr; cbn in Hr.
    + simplify_eq. exists (pos - length r)%nat. unfold SLOT_SIZE. rewrite Nat.add_0_r.
      split; [apply S3; [done|rewrite length_app, !length_to_le_bytes; lia]|].
      split; [apply S3; [done|lia]|lia].
    + rewrite Nat.add_succ_r. by apply H3.
Qed.

(** * Leaf records *)

Definition shared_with (previous : option bytes) (i : nat) (entry : bytes) : nat :=
  if is_restart i then O else shared_count (default [] previous) entry.

(** The bytes stored for an entry. *)
Definition record_of (prefixed : bool) (previous : option bytes) (i : nat) (entry : bytes) : bytes :=
  if prefixed then
    to_le_bytes 2 (Z.of_nat (shared_with previous i entry)) ++ to_le_bytes 2 (Z.of_nat (length entry))
      ++ drop (shared_with previous i entry) entry
  else entry.

Fixpoint records (prefixed : bool) (previous : option bytes) (i : nat) (entries : list bytes) : list bytes :=
  match entries with
  | [] => []
  | entry :: entries => record_of prefixed previous i entry :: records prefixed (Some entry) (S i) entries
  end.

Lemma shared_count_le xs ys : (shared_count xs ys ≤ length xs)%nat ∧ (shared_count xs ys ≤ length ys)%nat ∧
  take (shared_count xs ys) xs = take (shared_count xs ys) ys.
Proof.
  revert ys. induction xs as [|x xs IH]; intros [|y ys]; cbn; [split_and!; (lia || done)..|].
  case_bool_decide as E; cbn; [|split_and!; (lia || done)]. subst.
  destruct (IH ys) as (? & ? & ->). split_and!; [lia..|done].
Qed.

Lemma shared_with_le previous i entry : (shared_with previous i entry ≤ length entry)%nat.
Proof. unfold shared_with. case_match; [lia|]. apply shared_count_le. Qed.

Definition small (entry : bytes) : Prop := (length entry ≤ PAGE_SIZE)%nat.

Lemma prefix_record_layout_ok previous i entry : small entry →
  prefix_record_layout previous i entry =
    Ok (shared_with previous i entry, length entry,
        PREFIX_RECORD_HEADER_SIZE + (length entry - shared_with previous i entry))%nat.
Proof.
  intros S. unfold prefix_record_layout. fold (shared_with previous i entry).
  pose proof (shared_with_le previous i entry). unfold small in S. by rewrite !u16_of_page by lia.
Qed.

Lemma length_record prefixed previous i entry :
  length (record_of prefixed previous i entry) =
  if prefixed then (PREFIX_RECORD_HEADER_SIZE + (length entry - shared_with previous i entry))%nat else length entry.
Proof. destruct prefixed; [|done]. cbn. rewrite !length_app, !length_to_le_bytes, length_drop. done. Qed.

Lemma length_records prefixed previous i entries : length (records prefixed previous i entries) = length entries.
Proof. revert previous i; induction entries as [|e es IH]; intros; cbn; [done|]. by rewrite IH. Qed.

Lemma raw_size_cons r rs : raw_size (r :: rs) = (length r + raw_size rs)%nat.
Proof. done. Qed.

Lemma compressed_size_ok previous i entries : Forall small entries →
  compressed_size previous i entries = Ok (raw_size (records true previous i entries)).
Proof.
  intros F. revert previous i. induction F as [|e es S F IH]; intros; [done|].
  cbn [compressed_size records]. rewrite prefix_record_layout_ok by done.
  cbn [mbind result_bind]. rewrite IH. cbn [mbind result_bind]. by rewrite raw_size_cons, length_record.
Qed.

Lemma write_at_app page off a b page1 page2 :
  put page off a = Ok page1 → put page1 (off + length a) b = Ok page2 → put page off (a ++ b) = Ok page2.
Proof.
  unfold put, write_at. intros E1 E2. destruct (off + length a <=? length page)%nat eqn:C1; [|done].
  apply Nat.leb_le in C1. cbn in E1. apply Ok_inj in E1 as <-.
  rewrite !length_app, length_take, length_drop in E2.
  destruct (off + length a + length b <=? _)%nat eqn:C2 in E2; [|done]. apply Nat.leb_le in C2.
  cbn in E2. apply Ok_inj in E2 as <-. rewrite length_app. rewrite (proj2 (Nat.leb_le _ _)) by lia. cbn. f_equal.
  set (t := take off page ++ a). assert (Lt : length t = (off + length a)%nat).
  { unfold t. rewrite length_app, length_take. lia. }
  assert (T : take (off + length a) (t ++ drop (off + length a) page) = t) by (by apply take_app_length').
  assert (D : drop (off + length a + length b) (t ++ drop (off + length a) page) =
              drop (off + (length a + length b)) page).
  { rewrite drop_app_ge by lia. rewrite drop_drop, Lt. f_equal. lia. }
  unfold t in T, D. rewrite <-app_assoc in T, D. by rewrite T, D, <-!app_assoc.
Qed.

(** The loop of the leaf writer places the records of its entries. *)
Lemma write_leaf_entries_place prefixed entries : ∀ i pos previous page,
  Forall small entries → length page = PAGE_SIZE → (pos ≤ PAGE_SIZE)%nat →
  (raw_size (records prefixed previous i entries) ≤ pos)%nat →
  write_leaf_entries prefixed i pos previous page entries =
  write_separators LEAF_HEADER_SIZE i pos page (records prefixed previous i entries).
Proof.
  induction entries as [|e es IH]; intros i pos previous page F L P B; [done|].
  apply Forall_cons in F as [S F]. cbn [records] in *. rewrite raw_size_cons in B.
  cbn [write_leaf_entries write_separators]. rewrite length_record in *.
  assert (K : ∀ page' pos' len, length page' = PAGE_SIZE → (pos' ≤ PAGE_SIZE)%nat →
    (raw_size (records prefixed (Some e) (i + 1) es) ≤ pos')%nat →
    (page ← write_slot_entry page' (LEAF_HEADER_SIZE + i * SLOT_SIZE) pos' len;
     write_leaf_entries prefixed (i + 1) pos' (Some e) page es) =
    (page ← write_slot_entry page' (LEAF_HEADER_SIZE + i * SLOT_SIZE) pos' len;
     write_separators LEAF_HEADER_SIZE (i + 1) pos' page (records prefixed (Some e) (i + 1) es))).
  { intros page' pos' len L' P' B'. destruct (write_slot_entry _ _ _ _) as [p|x] eqn:W; [|done].
    cbn [mbind result_bind]. apply IH; [done| |done..].
    unfold write_slot_entry in W. inv_ok.
    repeat match goal with H : put _ _ _ = Ok _ |- _ => apply put_outside in H as [[? _] _] end. congruence. }
  rewrite Nat.add_1_r in K. destruct prefixed.
  - rewrite prefix_record_layout_ok by done. cbn [mbind result_bind].
    unfold sub_pos. rewrite (proj2 (Nat.leb_le _ _)) by lia. cbn [mbind result_bind].
    set (sh := shared_with previous i e) in *. set (q := (pos - _)%nat).
    pose proof (shared_with_le previous i e). fold sh in H.
    destruct (put_page page q (to_le_bytes 2 (Z.of_nat sh)) L) as (p1 & E1 & L1 & _);
      [rewrite length_to_le_bytes; unfold q, PREFIX_RECORD_HEADER_SIZE in *; lia|].
    rewrite E1. cbn [mbind result_bind].
    destruct (put_page p1 (q + 2) (to_le_bytes 2 (Z.of_nat (length e))) L1) as (p2 & E2 & L2 & _);
      [rewrite length_to_le_bytes; unfold q, PREFIX_RECORD_HEADER_SIZE in *; lia|].
    rewrite E2. cbn [mbind result_bind].
    assert (G : get_range e sh (length e) = Some (drop sh e)).
    { apply get_range_Some. split_and!; [done..|]. by rewrite take_ge by (rewrite length_drop; lia). }
    rewrite G. cbn [ok_or mbind result_bind].
    destruct (put_page p2 (q + PREFIX_RECORD_HEADER_SIZE) (drop sh e) L2) as (p3 & E3 & L3 & _);
      [rewrite length_drop; unfold q, PREFIX_RECORD_HEADER_SIZE in *; lia|].
    rewrite E3. cbn [mbind result_bind]. unfold record_of. fold sh.
    rewrite (write_at_app page q (to_le_bytes 2 (Z.of_nat sh)) _ p1 p3 E1).
    + cbn [mbind result_bind]. apply K; [done|unfold q; lia..].
    + rewrite length_to_le_bytes. eapply write_at_app; [exact E2|]. rewrite length_to_le_bytes.
      by replace (q + 2 + 2)%nat with (q + PREFIX_RECORD_HEADER_SIZE)%nat by (unfold PREFIX_RECORD_HEADER_SIZE; lia).
  - unfold sub_pos. rewrite (proj2 (Nat.leb_le _ _)) by lia. cbn [mbind result_bind record_of].
    destruct (put_page page (pos - length e) e L) as (p1 & E1 & L1 & _); [lia|].
    rewrite E1. cbn [mbind result_bind]. apply K; [done|lia..].
Qed.

Lemma records_lookup prefixed entries : ∀ previous i j,
  records prefixed previous i entries !! j =
  record_of prefixed (match j with O => previous | S j => entries !! j end) (i + j) <$> entries !! j.
Proof.
  induction entries as [|e es IH]; intros previous i [|j]; cbn; [done..|by rewrite Nat.add_0_r|].
  rewrite IH, Nat.add_succ_r. by destruct j.
Qed.

Lemma holds_head page off b : holds page off [b] ↔ page !! off = Some b.
Proof.
  rewrite holds_lookup. cbn. split.
  - intros (L & E). rewrite <-(Nat.add_0_r off). by apply (E O); lia.
  - intros E. pose proof (lookup_lt_Some _ _ _ E). split; [lia|]. intros [|i] Hi; [by rewrite Nat.add_0_r|lia].
Qed.

(** * What a written leaf holds *)

Definition leaf_type (prefixed : bool) : Z := if prefixed then PAGE_TYPE_PREFIX_LEAF else PAGE_TYPE_LEAF.

Record leaf_at (prefixed : bool) (page : bytes) (entries : list bytes) (next : Z) : Prop := {
  la_len : length page = PAGE_SIZE;
  la_type : holds page 0 [z2b (leaf_type prefixed)];
  la_interval : holds page 1 [z2b (if prefixed then Z.of_nat PREFIX_RESTART_INTERVAL else 0)];
  la_count : holds page 2 (to_le_bytes 2 (Z.of_nat (length entries)));
  la_next : holds page 4 (to_le_bytes 8 next);
  la_slots : ∀ i r, records prefixed None 0 entries !! i = Some r →
    slot_holds page LEAF_HEADER_SIZE (LEAF_HEADER_SIZE + length entries * SLOT_SIZE) i r;
  la_small : Forall small entries;
  la_dir : (LEAF_HEADER_SIZE + length entries * SLOT_SIZE ≤ PAGE_SIZE)%nat;
}.

(** The test of the builder: the entries fit in one of the two layouts. *)
Definition leaf_fits (entries : list bytes) : Prop :=
  (LEAF_HEADER_SIZE + length entries * SLOT_SIZE
     + raw_size entries `min` raw_size (records true None 0 entries) ≤ PAGE_SIZE)%nat.

Lemma records_raw previous i entries : records false previous i entries = entries.
Proof. revert previous i; induction entries as [|e es IH]; intros; cbn; [done|]. by rewrite IH. Qed.

(** The header bytes, written one field after the other. *)
Lemma header_ok t r count next : ∃ p1 p2 p3 p4,
  put empty_page 0 [z2b t] = Ok p1 ∧ put p1 1 [z2b r] = Ok p2 ∧ put p2 2 (to_le_bytes 2 count) = Ok p3 ∧
  put p3 4 (to_le_bytes 8 next) = Ok p4 ∧ length p4 = PAGE_SIZE ∧
  holds p4 0 [z2b t] ∧ holds p4 1 [z2b r] ∧ holds p4 2 (to_le_bytes 2 count) ∧ holds p4 4 (to_le_bytes 8 next).
Proof.
  pose proof PAGE_SIZE_val.
  assert (L0 : length empty_page = PAGE_SIZE) by apply length_replicate.
  destruct (put_page empty_page 0 [z2b t] L0) as (p1 & E1 & L1 & S1 & H1); [cbn; lia|].
  destruct (put_page p1 1 [z2b r] L1) as (p2 & E2 & L2 & S2 & H2); [cbn; lia|].
  destruct (put_page p2 2 (to_le_bytes 2 count) L2) as (p3 & E3 & L3 & S3 & H3);
    [rewrite length_to_le_bytes; lia|].
  destruct (put_page p3 4 (to_le_bytes 8 next) L3) as (p4 & E4 & L4 & S4 & H4);
    [rewrite length_to_le_bytes; lia|].
  rewrite length_to_le_bytes in S3, S4.
  exists p1, p2, p3, p4. do 5 (split; [done|]). split; [|split; [|split; [|done]]].
  - apply S4; [|cbn; lia]. apply S3; [|cbn; lia]. by apply S2; [|cbn; lia].
  - apply S4; [|cbn; lia]. by apply S3; [|cbn; lia].
  - apply S4; [done|]. rewrite length_to_le_bytes. lia.
Qed.

Lemma leaf_page_ok entries next : Forall small entries → leaf_fits entries →
  ∃ page prefixed, leaf_page entries next = Ok page ∧ leaf_at prefixed page entries next.
Proof.
  intros F B. pose proof PAGE_SIZE_val. unfold leaf_page. rewrite compressed_size_ok by done.
  cbn [mbind result_bind]. unfold leaf_fits, LEAF_HEADER_SIZE, SLOT_SIZE in B.
  set (prefixed := (_ <? _)%nat). rewrite u16_of_page by lia. cbn [mbind result_bind].
  assert (R : (raw_size (records prefixed None 0 entries)
               ≤ raw_size entries `min` raw_size (records true None 0 entries))%nat).
  { unfold prefixed. destruct (_ <? _)%nat eqn:C; rewrite ?records_raw; [apply Nat.ltb_lt in C|apply Nat.ltb_ge in C]; lia. }
  clearbody prefixed.
  destruct (header_ok (leaf_type prefixed) (if prefixed then Z.of_nat PREFIX_RESTART_INTERVAL else 0)
              (Z.of_nat (length entries)) next)
    as (p1 & p2 & p3 & p4 & E1 & E2 & E3 & E4 & L & H0 & H1 & H2 & H3).
  unfold leaf_type in E1. rewrite E1. cbn [mbind result_bind]. rewrite E2. cbn [mbind result_bind].
  rewrite E3. cbn [mbind result_bind]. rewrite E4. cbn [mbind result_bind].
  rewrite write_leaf_entries_place by (done || lia).
  destruct (write_separators_ok LEAF_HEADER_SIZE (LEAF_HEADER_SIZE + length entries * SLOT_SIZE)
              (records prefixed None 0 entries) 0 PAGE_SIZE p4 L)
    as (p & E & Lp & S & W); [rewrite length_records; lia|unfold LEAF_HEADER_SIZE, SLOT_SIZE; lia|lia|].
  exists p, prefixed. split; [done|]. destruct S as [_ S]. unfold LEAF_HEADER_SIZE in S.
  split; [done| | | | |done|done|unfold LEAF_HEADER_SIZE, SLOT_SIZE; lia];
    (apply S; [done|]); rewrite ?length_to_le_bytes; cbn; lia.
Qed.

Lemma leaf_patch prefixed page entries next next' : leaf_at prefixed page entries next →
  ∃ page', put page 4 (to_le_bytes 8 next') = Ok page' ∧ leaf_at prefixed page' entries next'.
Proof.
  pose proof PAGE_SIZE_val. intros [L T I C N S Sm D].
  destruct (put_page page 4 (to_le_bytes 8 next') L) as (p & E & Lp & F & H0); [rewrite length_to_le_bytes; lia|].
  rewrite length_to_le_bytes in F. exists p. split; [done|]. split; [done| | | |done| |done|done].
  - apply F; [done|cbn; lia].
  - apply F; [done|cbn; lia].
  - apply F; [done|rewrite length_to_le_bytes; lia].
  - intros i r Hr. eapply slot_holds_frame; [exact F| | |by apply S]; unfold LEAF_HEADER_SIZE; lia.
Qed.

(** Reading the records of a leaf back. *)
Lemma leaf_count prefixed page entries next : leaf_at prefixed page entries next →
  read_u16_at page 2 = Ok (length entries).
Proof.
  intros [L T I C N S Sm D]. pose proof PAGE_SIZE_val. unfold LEAF_HEADER_SIZE, SLOT_SIZE in D.
  apply holds_u16 in C; [|unfold u16_ok; lia]. by rewrite Nat2Z.id in C.
Qed.

Lemma leaf_slice prefixed page entries next i e : leaf_at prefixed page entries next → entries !! i = Some e →
  leaf_entry_slice page (length entries) i =
    Ok (record_of prefixed (match i with O => None | S j => entries !! j end) i e).
Proof.
  intros A E. unfold leaf_entry_slice. pose proof (lookup_lt_Some _ _ _ E).
  rewrite (proj2 (Nat.ltb_lt _ _)) by done. cbn [ensure mbind result_bind].
  eapply slot_holds_slice, (la_slots _ _ _ _ A). by rewrite records_lookup, E.
Qed.

(** The buffer a compressed record is applied to: the entry before it, or
    anything at a restart. *)
Definition resumes (entries : list bytes) (i : nat) (previous : bytes) : Prop :=
  is_restart i = true ∨ ∃ j, i = S j ∧ entries !! j = Some previous.

Lemma reconstruct_ok page entries next i e previous :
  leaf_at true page entries next → entries !! i = Some e → resumes entries i previous →
  reconstruct_prefix_entry page (length entries) i previous = Ok e.
Proof.
  intros A E R. pose proof PAGE_SIZE_val.
  assert (Sm : small e) by (eapply Forall_lookup_1; [apply (la_small _ _ _ _ A)|done]). unfold small in Sm.
  unfold reconstruct_prefix_entry. rewrite (leaf_slice true page entries next i e A E). cbn [mbind result_bind record_of].
  set (pv := match i with O => None | S j => entries !! j end). set (sh := shared_with pv i e).
  pose proof (shared_with_le pv i e) as B. fold sh in B.
  set (r := to_le_bytes 2 (Z.of_nat sh) ++ _ ++ _).
  assert (Lr : length r = (4 + (length e - sh))%nat)
    by (unfold r; rewrite !length_app, !length_to_le_bytes, length_drop; lia).
  rewrite (proj2 (Nat.leb_le _ _)) by (rewrite Lr; unfold PREFIX_RECORD_HEADER_SIZE; lia).
  assert (Hr : holds r 0 r) by (by apply holds_lookup; split).
  unfold r in Hr at 2. apply holds_app in Hr as [Hs [Hd Hx]%holds_app]. rewrite !length_to_le_bytes in Hd.
  rewrite !length_to_le_bytes in Hx.
  cbn [Nat.add] in Hd, Hx. apply holds_u16 in Hs; [|unfold u16_ok; lia]. apply holds_u16 in Hd; [|unfold u16_ok; lia].
  rewrite !Nat2Z.id in *. cbn [ensure mbind result_bind]. rewrite Hs. cbn [mbind result_bind].
  rewrite Hd. cbn [mbind result_bind].
  assert (X : (is_restart i && negb (sh =? 0)%nat) = false ∧ (sh ≤ length previous)%nat ∧
              take sh previous = take sh e).
  { unfold sh, shared_with. destruct (is_restart i) eqn:Q; cbn; [split_and!; [done|lia|done]|].
    destruct R as [R|(j & -> & Ej)]; [by rewrite Q in R|]. unfold pv. rewrite Ej. cbn.
    destruct (shared_count_le previous e) as (? & ? & ?). by split_and!. }
  destruct X as (X1 & X2 & X3). rewrite X1. cbn [negb ensure mbind result_bind].
  rewrite (proj2 (Nat.ltb_ge _ _) X2), (proj2 (Nat.ltb_ge _ _) B). cbn [orb negb ensure mbind result_bind].
  unfold holds in Hx. rewrite length_drop in Hx. rewrite Lr.
  unfold PREFIX_RECORD_HEADER_SIZE. cbn [Nat.add] in Hx |- *. rewrite Hx. cbn [ok_or mbind result_bind].
  rewrite length_drop. rewrite (proj2 (Nat.eqb_eq _ _)) by lia. cbn [ensure mbind result_bind].
  by rewrite X3, take_drop.
Qed.

(** * Internal pages *)

Record internal_at (page : bytes) (children : list Z) (seps : list bytes) : Prop := {
  ia_len : length page = PAGE_SIZE;
  ia_type : holds page 0 [z2b PAGE_TYPE_INTERNAL];
  ia_count : holds page 2 (to_le_bytes 2 (Z.of_nat (length seps)));
  ia_right : ∃ right, last children = Some right ∧ holds page 4 (to_le_bytes 8 right);
  ia_children : ∀ i c, (i < length seps)%nat → children !! i = Some c →
    holds page (INTERNAL_HEADER_SIZE + i * 8) (to_le_bytes 8 c);
  ia_slots : ∀ i r, seps !! i = Some r →
    slot_holds page (INTERNAL_HEADER_SIZE + length seps * 8) (INTERNAL_HEADER_SIZE + length seps * (8 + SLOT_SIZE)) i r;
  ia_width : length children = S (length seps);
  ia_dir : (INTERNAL_HEADER_SIZE + length seps * (8 + SLOT_SIZE) ≤ PAGE_SIZE)%nat;
}.

Definition internal_fits (seps : list bytes) : Prop :=
  (INTERNAL_HEADER_SIZE + length seps * (8 + SLOT_SIZE) + raw_size seps ≤ PAGE_SIZE)%nat.

Lemma write_children_ok cs : ∀ i page, length page = PAGE_SIZE →
  (INTERNAL_HEADER_SIZE + (i + length cs) * 8 ≤ PAGE_SIZE)%nat →
  ∃ page', write_children i page cs = Ok page' ∧ length page' = PAGE_SIZE ∧
    same_outside (INTERNAL_HEADER_SIZE + i * 8) PAGE_SIZE page page' ∧
    ∀ j c, cs !! j = Some c → holds page' (INTERNAL_HEADER_SIZE + (i + j) * 8) (to_le_bytes 8 c).
Proof.
  induction cs as [|c cs IH]; intros i page L B; cbn -[Nat.mul INTERNAL_HEADER_SIZE] in *.
  { exists page. split_and!; [done..|apply same_outside_refl|done]. }
  destruct (put_page page (INTERNAL_HEADER_SIZE + i * 8) (to_le_bytes 8 c) L) as (p1 & -> & L1 & S1 & H1);
    [rewrite length_to_le_bytes; lia|]. cbn [mbind result_bind]. rewrite length_to_le_bytes in S1.
  destruct (IH (S i) p1 L1) as (p2 & -> & L2 & S2 & H2); [lia|].
  exists p2. split_and!; [done|done| |].
  - eapply same_outside_trans; eapply same_outside_weaken; [| |exact S1| | |exact S2]; lia.
  - intros [|j] c' Hc; cbn in Hc; [|by rewrite Nat.add_succ_r; apply H2].
    simplify_eq. rewrite Nat.add_0_r. apply S2; [done|]. rewrite length_to_le_bytes. lia.
Qed.

Lemma internal_page_ok children seps : length children = S (length seps) → internal_fits seps →
  ∃ page, internal_page children seps = Ok page ∧ internal_at page children seps.
Proof.
  intros W B. pose proof PAGE_SIZE_val. unfold internal_fits, INTERNAL_HEADER_SIZE, SLOT_SIZE in B.
  destruct (last children) as [right|] eqn:La.
  2: { apply last_None in La as ->. done. }
  unfold internal_page. rewrite La. cbn [ok_or mbind result_bind]. rewrite u16_of_page by lia.
  destruct (header_ok PAGE_TYPE_INTERNAL 0 (Z.of_nat (length seps)) right)
    as (p1 & p2 & p3 & p4 & E1 & E2 & E3 & E4 & L & H0 & H1 & H2 & H3).
  cbn [mbind result_bind]. rewrite E1. cbn [mbind result_bind]. rewrite E2. cbn [mbind result_bind].
  rewrite E3. cbn [mbind result_bind]. rewrite E4. cbn [mbind result_bind].
  destruct (write_children_ok (take (length children - 1) children) 0 p4 L) as (p5 & -> & L5 & [_ S5] & H5);
    [rewrite length_take; unfold INTERNAL_HEADER_SIZE; lia|]. cbn [mbind result_bind].
  destruct (write_separators_ok (INTERNAL_HEADER_SIZE + length seps * 8)
              (INTERNAL_HEADER_SIZE + length seps * (8 + SLOT_SIZE)) seps 0 PAGE_SIZE p5 L5)
    as (p6 & E6 & L6 & [_ S6] & H6); [unfold INTERNAL_HEADER_SIZE, SLOT_SIZE; lia..|].
  unfold INTERNAL_HEADER_SIZE in S5, S6. exists p6. split; [done|].
  split; [done| | | | |done|done|unfold INTERNAL_HEADER_SIZE, SLOT_SIZE; lia].
  - apply S6; [|cbn; lia]. by apply S5; [|cbn; lia].
  - apply S6; [apply S5; [done|]|]; rewrite length_to_le_bytes; lia.
  - exists right. split; [done|]. apply S6; [apply S5; [done|]|]; rewrite length_to_le_bytes; lia.
  - intros i c Hi Hc. apply S6; [|rewrite length_to_le_bytes; unfold INTERNAL_HEADER_SIZE; lia].
    apply (H5 i). rewrite lookup_take_lt by lia. done.
Qed.
