(* ===== verification/BTreeScan.v ===== *)
(** Reading the on-disk B+trees (src/src/storage/btree_v6.rs): the descent to a
    leaf, the cursor over one leaf, and the scans along the chain of leaves.

    [load] is [cache.get_or_load(page_id, backend)]; [de_key] and [de_entry] are
    postcard.  The five binary searches of the source are one loop, [bisect],
    with the test each makes.  Descent and scans carry fuel: the theorems give
    it the height of the tree and the number of its leaves. *)
From S2P Require Import Prelude Types ValueCodec Index Wal FactStore PackedPages BTreePages Lookup.

(** * Definitions *)

(** [while low < high] with the midpoint; [probe middle] says to go right. *)
Fixpoint bisect (fuel : nat) (probe : nat → result bool) (low high : nat) : result nat :=
  if (low <? high)%nat then
    match fuel with
    | O => Err "out of fuel"
    | S fuel =>
        let middle := (low + (high - low) / 2)%nat in
        right ← probe middle;
        if right : bool then bisect fuel probe (S middle) high else bisect fuel probe low middle
    end
  else Ok low.

Definition first_byte (page : bytes) (e : string) : result Z := b ← ok_or (page !! O) e; Ok (b2z b).

Section reading.
Context {K : Type} `{Ord K}.
Context (load : Z → result bytes) (de_key : bytes → result K) (de_entry : bytes → result (K * FactRef)).

Fixpoint find_leftmost_leaf (fuel : nat) (page_id : Z) : result Z :=
  match fuel with
  | O => Err "out of fuel"
  | S fuel =>
      page ← load page_id;
      page_type ← first_byte page "empty page";
      if is_leaf_page_type page_type then Ok page_id
      else if page_type =? PAGE_TYPE_INTERNAL then
        key_count ← read_u16_at page 2;
        child ← (if (key_count =? 0)%nat then read_u64_at page 4 else read_u64_at page INTERNAL_HEADER_SIZE);
        find_leftmost_leaf fuel child
      else Err "find_leftmost_leaf: unexpected page type"
  end.

(** The child of an internal page to descend to. *)
Definition child_for_key (page : bytes) (key : K) : result Z :=
  key_count ← read_u16_at page 2;
  rightmost_child ← read_u64_at page 4;
  let slot_dir_start := (INTERNAL_HEADER_SIZE + key_count * 8)%nat in
  low ← bisect key_count (λ middle,
          sep_slice ← slot_slice page (slot_dir_start + middle * SLOT_SIZE);
          sep_key ← de_key sep_slice;
          Ok (negb (ltb_ord key sep_key))) 0 key_count;
  if (low <? key_count)%nat then read_u64_at page (INTERNAL_HEADER_SIZE + low * 8) else Ok rightmost_child.

Fixpoint find_leaf_for_key (fuel : nat) (page_id : Z) (key : K) : result Z :=
  match fuel with
  | O => Err "out of fuel"
  | S fuel =>
      page ← load page_id;
      page_type ← first_byte page "empty page";
      if is_leaf_page_type page_type then Ok page_id
      else if page_type =? PAGE_TYPE_INTERNAL then
        child ← child_for_key page key;
        find_leaf_for_key fuel child key
      else Err "find_leaf_for_key: unexpected page type"
  end.

(** ** The cursor over one leaf *)

Record LeafEntryCursor : Type := mkLeafCursor {
  lc_page : bytes;
  lc_page_type : Z;
  lc_entry_count : nat;
  lc_slot : nat;
  lc_previous : bytes;
  lc_buffered : option (K * FactRef);
}.

(** The checks on a leaf page, shared with the projected visitors. *)
Definition leaf_header (page : bytes) : result (Z * nat) :=
  page_type ← first_byte page "empty leaf page";
  _ ← ensure (is_leaf_page_type page_type) "expected leaf page";
  _ ← ensure (negb ((page_type =? PAGE_TYPE_PREFIX_LEAF) &&
                    negb (bool_decide (page !! 1%nat = Some (z2b (Z.of_nat PREFIX_RESTART_INTERVAL))))))
        "unsupported prefix leaf restart interval";
  entry_count ← read_u16_at page 2;
  _ ← ensure (LEAF_HEADER_SIZE + entry_count * SLOT_SIZE <=? length page)%nat
        "leaf slot directory is truncated";
  Ok (page_type, entry_count).

Definition leaf_cursor_new (page : bytes) : result LeafEntryCursor :=
  '(page_type, entry_count) ← leaf_header page;
  Ok (mkLeafCursor page page_type entry_count 0 [] None).

Definition decode_raw (c : LeafEntryCursor) (slot : nat) : result (K * FactRef) :=
  stored ← leaf_entry_slice (lc_page c) (lc_entry_count c) slot;
  de_entry stored.

Definition decode_prefix_at (c : LeafEntryCursor) (slot : nat) : result (LeafEntryCursor * (K * FactRef)) :=
  previous ← reconstruct_prefix_entry (lc_page c) (lc_entry_count c) slot (lc_previous c);
  entry ← de_entry previous;
  Ok (mkLeafCursor (lc_page c) (lc_page_type c) (lc_entry_count c) (lc_slot c) previous (lc_buffered c), entry).

Definition at_slot (c : LeafEntryCursor) (slot : nat) (previous : bytes) (buffered : option (K * FactRef))
    : LeafEntryCursor :=
  mkLeafCursor (lc_page c) (lc_page_type c) (lc_entry_count c) slot previous buffered.

Definition decode_prefix_restart (c : LeafEntryCursor) (slot : nat) : result (LeafEntryCursor * (K * FactRef)) :=
  decode_prefix_at (at_slot c (lc_slot c) [] (lc_buffered c)) slot.

Definition decode_prefix_next (c : LeafEntryCursor) : result (LeafEntryCursor * (K * FactRef)) :=
  '(c, entry) ← decode_prefix_at c (lc_slot c);
  Ok (at_slot c (S (lc_slot c)) (lc_previous c) (lc_buffered c), entry).

Definition seek_raw_lower_bound (c : LeafEntryCursor) (start : K) : result LeafEntryCursor :=
  low ← bisect (lc_entry_count c) (λ middle,
          '(key, _) ← decode_raw c middle; Ok (ltb_ord key start)) 0 (lc_entry_count c);
  if (low <? lc_entry_count c)%nat then
    entry ← decode_raw c low;
    Ok (at_slot c (S low) (lc_previous c) (Some entry))
  else Ok (at_slot c low (lc_previous c) (lc_buffered c)).

(** The scan of one restart block. *)
Fixpoint prefix_linear (fuel : nat) (c : LeafEntryCursor) (start : K) : result LeafEntryCursor :=
  if (lc_slot c <? lc_entry_count c)%nat then
    match fuel with
    | O => Err "out of fuel"
    | S fuel =>
        let entry_slot := lc_slot c in
        '(c, entry) ← decode_prefix_next c;
        if negb (ltb_ord entry.1 start) then Ok (at_slot c (lc_slot c) (lc_previous c) (Some entry))
        else if is_restart (S entry_slot) then Ok c
        else prefix_linear fuel c start
    end
  else Ok c.

Definition seek_prefix_lower_bound (c : LeafEntryCursor) (start : K) : result LeafEntryCursor :=
  if (lc_entry_count c =? 0)%nat then Ok c
  else
    let restart_count := ((lc_entry_count c + PREFIX_RESTART_INTERVAL - 1) / PREFIX_RESTART_INTERVAL)%nat in
    low ← bisect restart_count (λ middle,
            '(_, (key, _)) ← decode_prefix_restart c (middle * PREFIX_RESTART_INTERVAL);
            Ok (negb (ltb_ord start key))) 0 restart_count;
    let block_start := ((low - 1) * PREFIX_RESTART_INTERVAL)%nat in
    prefix_linear (lc_entry_count c) (at_slot c block_start [] (lc_buffered c)) start.

Definition seek_lower_bound (c : LeafEntryCursor) (start : K) : result LeafEntryCursor :=
  if lc_page_type c =? PAGE_TYPE_PREFIX_LEAF then seek_prefix_lower_bound c start
  else seek_raw_lower_bound c start.

Definition next_entry (c : LeafEntryCursor) : result (LeafEntryCursor * option (K * FactRef)) :=
  match lc_buffered c with
  | Some entry => Ok (at_slot c (lc_slot c) (lc_previous c) None, Some entry)
  | None =>
      if (lc_entry_count c <=? lc_slot c)%nat then Ok (c, None)
      else if lc_page_type c =? PAGE_TYPE_PREFIX_LEAF then
        '(c, entry) ← decode_prefix_next c; Ok (c, Some entry)
      else
        entry ← decode_raw c (lc_slot c);
        Ok (at_slot c (S (lc_slot c)) (lc_previous c) None, Some entry)
  end.

(** ** Scans *)

(** [while let Some(entry) = cursor.next_entry()?], with a body that returns
    the new state and whether to go on with the leaf. *)
Fixpoint drain_leaf {S'} (fuel : nat) (body : S' → K * FactRef → result (S' * bool)) (c : LeafEntryCursor) (s : S')
    : result (S' * bool) :=
  match fuel with
  | O => Err "out of fuel"
  | S fuel =>
      '(c, entry) ← next_entry c;
      match entry with
      | None => Ok (s, true)
      | Some entry =>
          '(s, go) ← body s entry;
          if go : bool then drain_leaf fuel body c s else Ok (s, false)
      end
  end.

Fixpoint stream_leaves (fuel : nat) (leaf_id : Z) (result_ : list (K * FactRef)) : result (list (K * FactRef)) :=
  match fuel with
  | O => Err "out of fuel"
  | S fuel =>
      page ← load leaf_id;
      page_type ← first_byte page "empty page";
      _ ← ensure (is_leaf_page_type page_type) "stream_all_entries: expected leaf page";
      next_leaf ← read_u64_at page 4;
      cursor ← leaf_cursor_new page;
      '(result_, _) ← drain_leaf (S (S (lc_entry_count cursor))) (λ r entry, Ok (r ++ [entry], true)) cursor result_;
      if next_leaf =? 0 then Ok result_ else stream_leaves fuel next_leaf result_
  end.
Definition stream_all_entries (fuel : nat) (root_page_id : Z) : result (list (K * FactRef)) :=
  first_leaf ← find_leftmost_leaf fuel root_page_id;
  stream_leaves fuel first_leaf [].

(** What a visitor's body said last: [Past] the end of the range, [Halted] by
    the visitor, or ready for the next leaf. *)
Inductive Outcome : Type := Running | Past | Halted.

(** One leaf of a range scan and the step to the next one. *)
Fixpoint visit_leaves {S'} (fuel : nat) (start_leaf leaf_id : Z) (start : K) (stop : option K)
    (visit : S' → K * FactRef → result (S' * bool)) (s : S') : result (S' * bool) :=
  match fuel with
  | O => Err "out of fuel"
  | S fuel =>
      page ← load leaf_id;
      page_type ← first_byte page "empty page";
      _ ← ensure (is_leaf_page_type page_type) "range_scan: expected leaf";
      next_leaf ← read_u64_at page 4;
      cursor ← leaf_cursor_new page;
      cursor ← (if leaf_id =? start_leaf then seek_lower_bound cursor start else Ok cursor);
      '((s, outcome), _) ← drain_leaf (S (S (lc_entry_count cursor))) (λ '(s, _) entry,
          if match stop with Some e => negb (ltb_ord entry.1 e) | None => false end
          then Ok ((s, Past), false)
          else '(s, go) ← visit s entry;
               if go : bool then Ok ((s, Running), true) else Ok ((s, Halted), false)) cursor (s, Running);
      match outcome with
      | Past => Ok (s, true)
      | Halted => Ok (s, false)
      | Running =>
          if next_leaf =? 0 then Ok (s, true)
          else visit_leaves fuel start_leaf next_leaf start stop visit s
      end
  end.
Definition visit_range_entries {S'} (fuel : nat) (root_page_id : Z) (start : K) (stop : option K)
    (visit : S' → K * FactRef → result (S' * bool)) (s : S') : result (S' * bool) :=
  start_leaf ← find_leaf_for_key fuel root_page_id start;
  visit_leaves fuel start_leaf start_leaf start stop visit s.

(** [range_scan_entries] is the same loop with a body that pushes. *)
Definition range_scan_entries (fuel : nat) (root_page_id : Z) (start : K) (stop : option K)
    : result (list (K * FactRef)) :=
  start_leaf ← find_leaf_for_key fuel root_page_id start;
  '(result_, _) ← visit_leaves fuel start_leaf start_leaf start stop
                    (λ r entry, Ok (r ++ [entry], true)) [];
  Ok result_.
Definition range_scan (fuel : nat) (root_page_id : Z) (start : K) (stop : option K) : result (list FactRef) :=
  entries ← range_scan_entries fuel root_page_id start stop;
  Ok (entries.*2).
End reading.
Arguments LeafEntryCursor : clear implicits.
Arguments mkLeafCursor {K}.
Arguments lc_page {K}.
Arguments lc_page_type {K}.
Arguments lc_entry_count {K}.
Arguments lc_slot {K}.
Arguments lc_previous {K}.
Arguments lc_buffered {K}.

(** ** The projected visitors *)

Section projected.
Context {K Entry : Type} `{Ord K}.
Context (load : Z → result bytes) (de_key : bytes → result K).
(** [decode_projected_*], [wire.cmp_owned] and [wire.project]. *)
Context (decode : bytes → result (K * FactRef)) (cmp_owned : K → K → comparison) (project : K → Entry).

Definition is_lt (c : comparison) : bool := match c with Lt => true | _ => false end.

Definition projected_seek (page : bytes) (page_type : Z) (entry_count : nat) (start : K) : result nat :=
  if page_type =? PAGE_TYPE_PREFIX_LEAF then
    let restart_count := ((entry_count + PREFIX_RESTART_INTERVAL - 1) / PREFIX_RESTART_INTERVAL)%nat in
    low ← bisect restart_count (λ middle,
            previous ← reconstruct_prefix_entry page entry_count (middle * PREFIX_RESTART_INTERVAL) [];
            '(wire, _) ← decode previous;
            Ok (is_lt (cmp_owned wire start))) 0 restart_count;
    Ok ((low - 1) * PREFIX_RESTART_INTERVAL)%nat
  else
    bisect entry_count (λ middle,
      slice ← leaf_entry_slice page entry_count middle;
      '(wire, _) ← decode slice;
      Ok (is_lt (cmp_owned wire start))) 0 entry_count.

(** [while slot < entry_count]. *)
Fixpoint projected_entries {S'} (todo slot : nat) (page : bytes) (page_type : Z) (entry_count : nat)
    (on_start : bool) (start : K) (stop : option K) (previous : bytes)
    (visit : S' → Entry * FactRef → result (S' * bool)) (s : S') : result (S' * Outcome) :=
  match todo with
  | O => Ok (s, Running)
  | S todo =>
      '(bytes_, previous) ←
        (if page_type =? PAGE_TYPE_PREFIX_LEAF then
           previous ← reconstruct_prefix_entry page entry_count slot previous;
           Ok (previous, previous)
         else slice ← leaf_entry_slice page entry_count slot; Ok (slice, previous));
      '(wire, fact_ref) ← decode bytes_;
      if on_start && is_lt (cmp_owned wire start) then
        projected_entries todo (S slot) page page_type entry_count on_start start stop previous visit s
      else if match stop with Some bound => negb (is_lt (cmp_owned wire bound)) | None => false end
      then Ok (s, Past)
      else
        '(s, go) ← visit s (project wire, fact_ref);
        if go : bool then
          projected_entries todo (S slot) page page_type entry_count on_start start stop previous visit s
        else Ok (s, Halted)
  end.

Fixpoint projected_leaves {S'} (fuel : nat) (start_leaf leaf_id : Z) (start : K) (stop : option K)
    (visit : S' → Entry * FactRef → result (S' * bool)) (s : S') : result (S' * bool) :=
  match fuel with
  | O => Err "out of fuel"
  | S fuel =>
      page ← load leaf_id;
      '(page_type, entry_count) ← leaf_header page;
      next_leaf ← read_u64_at page 4;
      slot ← (if (leaf_id =? start_leaf) && negb (entry_count =? 0)%nat
              then projected_seek page page_type entry_count start else Ok O);
      '(s, outcome) ← projected_entries (entry_count - slot) slot page page_type entry_count
                        (leaf_id =? start_leaf) start stop [] visit s;
      match outcome with
      | Past => Ok (s, true)
      | Halted => Ok (s, false)
      | Running =>
          if next_leaf =? 0 then Ok (s, true)
          else projected_leaves fuel start_leaf next_leaf start stop visit s
      end
  end.

Definition visit_current_range {S'} (fuel : nat) (root_page_id : Z) (start : K) (stop : option K)
    (visit : S' → Entry * FactRef → result (S' * bool)) (s : S') : result (S' * bool) :=
  start_leaf ← find_leaf_for_key load de_key fuel root_page_id start;
  projected_leaves fuel start_leaf start_leaf start stop visit s.
End projected.

(** * Binary search *)

Lemma bisect_ok (probe : nat → result bool) (p : nat → bool) n fuel : ∀ low high,
  (high - low ≤ fuel)%nat → (low ≤ high ≤ n)%nat →
  (∀ i, (i < n)%nat → probe i = Ok (p i)) →
  (∀ i j, (i ≤ j < n)%nat → p j = true → p i = true) →
  (∀ i, (i < low)%nat → p i = true) → (∀ i, (high ≤ i < n)%nat → p i = false) →
  ∃ k, bisect fuel probe low high = Ok k ∧ (low ≤ k ≤ high)%nat ∧
    (∀ i, (i < k)%nat → p i = true) ∧ (∀ i, (k ≤ i < n)%nat → p i = false).
Proof.
  induction fuel as [|fuel IH]; intros low high F B P M Lo Hi; cbn [bisect].
  all: destruct (low <? high)%nat eqn:C; [apply Nat.ltb_lt in C|apply Nat.ltb_ge in C].
  2,4: exists low; split_and!; [done|lia..|done|intros i Hl; apply Hi; lia].
  { lia. }
  set (mid := (low + (high - low) / 2)%nat).
  assert (Bm : (low ≤ mid < high)%nat).
  { unfold mid. pose proof (Nat.div_lt (high - low) 2). lia. }
  rewrite (P mid) by lia. cbn [mbind result_bind]. destruct (p mid) eqn:E.
  - destruct (IH (S mid) high) as (k & -> & Bk & T1 & T2); [lia..|done|done| |done|].
    + intros i Hl. apply (M i mid); [lia|done].
    + exists k. split_and!; [done|lia..|done|done].
  - destruct (IH low mid) as (k & -> & Bk & T1 & T2); [lia..|done|done|done| |].
    + intros i Hl. destruct (p i) eqn:Q; [|done]. rewrite (M mid i) in E; [done|lia|done].
    + exists k. split_and!; [done|lia..|done|done].
Qed.

(** From the whole range. *)
Lemma bisect_whole (probe : nat → result bool) (p : nat → bool) n :
  (∀ i, (i < n)%nat → probe i = Ok (p i)) →
  (∀ i j, (i ≤ j < n)%nat → p j = true → p i = true) →
  ∃ k, bisect n probe 0 n = Ok k ∧ (k ≤ n)%nat ∧
    (∀ i, (i < k)%nat → p i = true) ∧ (∀ i, (k ≤ i < n)%nat → p i = false).
Proof.
  intros P M. destruct (bisect_ok probe p n n 0 n) as (k & E & B & T); [lia..|done|done|lia|lia|].
  exists k. split; [done|]. split; [lia|done].
Qed.

(** * Ascending entries *)

Section ascending.
Context {K : Type} `{OrdLaws K}.
Implicit Types es : list (K * FactRef).

Lemma ltb_ord_true (x y : K) : ltb_ord x y = true ↔ cmp x y = Lt.
Proof. unfold ltb_ord. by destruct (cmp x y). Qed.
Lemma ltb_ord_false (x y : K) : ltb_ord x y = false ↔ cmp x y ≠ Lt.
Proof. unfold ltb_ord. by destruct (cmp x y). Qed.

Lemma cmp_lt_ge (x y z : K) : cmp x y = Lt → cmp z y ≠ Lt → cmp x z = Lt.
Proof.
  intros A B. destruct (cmp z y) eqn:E; [|done|].
  - apply cmp_eq in E as ->. done.
  - apply cmp_trans with y; [done|]. by rewrite (cmp_opp z y), E.
Qed.

Lemma ascending_lookup es i j x y : strictly_ascending es → es !! i = Some x → es !! j = Some y →
  (i < j)%nat → cmp x.1 y.1 = Lt.
Proof. intros S X Y L. exact (StronglySorted_lookup _ _ _ _ _ _ S L X Y). Qed.

Lemma ascending_app es es' : strictly_ascending (es ++ es') →
  strictly_ascending es ∧ strictly_ascending es' ∧ ∀ x y, x ∈ es → y ∈ es' → cmp x.1 y.1 = Lt.
Proof.
  unfold strictly_ascending. induction es as [|e es IH]; cbn.
  { intros S. split_and!; [constructor|done|]. intros x y X. by apply elem_of_nil in X. }
  intros [S F]%StronglySorted_inv. destruct (IH S) as (S1 & S2 & D). rewrite Forall_forall in F.
  split_and!; [constructor; [done|]; apply Forall_forall; intros; apply F; set_solver|done|].
  intros x y [->|X]%elem_of_cons Y; [apply F; set_solver|by apply D].
Qed.

(** A range of an ascending list is a suffix cut at its end. *)
Definition before (stop : option K) (k : K) : bool :=
  match stop with Some e => ltb_ord k e | None => true end.
Fixpoint until (stop : option K) es : list (K * FactRef) :=
  match es with
  | [] => []
  | e :: es => if before stop e.1 then e :: until stop es else []
  end.

Lemma until_filter stop es : strictly_ascending es → until stop es = List.filter (λ e, before stop e.1) es.
Proof.
  unfold strictly_ascending. induction 1 as [|e es S IH F]; cbn; [done|].
  destruct (before stop e.1) eqn:B; [by rewrite IH|]. symmetry. rewrite Forall_forall in F.
  destruct stop as [k|]; [|done]. cbn in *. apply ltb_ord_false in B.
  assert (X : ∀ x, x ∈ es → ltb_ord x.1 k = false).
  { intros x Hx. apply ltb_ord_false. intros Q. apply B.
    apply cmp_trans with x.1; [by apply F|done]. }
  clear F S IH. induction es as [|x es IH]; cbn; [done|]. rewrite X by set_solver. apply IH. set_solver.
Qed.

Lemma bt_from_suffix start stop (es es' : list (K * FactRef)) : strictly_ascending (es ++ es') →
  (∀ e, e ∈ es → cmp e.1 start = Lt) → (∀ e, e ∈ es' → cmp e.1 start ≠ Lt) →
  bt_from start stop (es ++ es') = until stop es'.
Proof.
  intros (_ & S & _)%ascending_app A B. unfold bt_from. rewrite List.filter_app.
  assert (E : List.filter (λ '(k, _), negb (ltb_ord k start) &&
               match stop with Some k' => ltb_ord k k' | None => true end) es = []).
  { induction es as [|[k r] es IH]; cbn; [done|].
    rewrite (proj2 (ltb_ord_true k start)) by (apply (A (k, r)); set_solver). cbn. apply IH. set_solver. }
  rewrite E. cbn. rewrite until_filter by done. apply List_filter_ext. intros [k r] X.
  by rewrite (proj2 (ltb_ord_false k start)) by (by apply (B (k, r))).
Qed.
End ascending.

(** * Visiting a range leaf by leaf *)

Section visiting.
Context {K Entry S' : Type} `{Ord K}.
Context (visit : S' → Entry * FactRef → result (S' * bool)) (stop : option K) (project : K → Entry).
Implicit Types es : list (K * FactRef).

Definition projected_until es : list (Entry * FactRef) := prod_map project id <$> until stop es.
Definition all_before es : bool := forallb (λ e, before stop e.1) es.

(** What the part of a range that lies in one leaf comes to. *)
Definition leaf_outcome es (s : S') : result (S' * Outcome) :=
  '(s, go) ← visitR visit s (projected_until es);
  Ok (s, if go : bool then (if all_before es then Running else Past) else Halted).

Lemma visitR_app {A} (v : S' → A → result (S' * bool)) l1 l2 s :
  visitR v s (l1 ++ l2) = ('(s, go) ← visitR v s l1; if go : bool then visitR v s l2 else Ok (s, false)).
Proof.
  revert s. induction l1 as [|x l1 IH]; intros s; cbn [app visitR mbind result_bind]; [done|].
  destruct (v s x) as [[s' [] ]|e]; cbn [mbind result_bind]; [apply IH|done..].
Qed.

Lemma projected_until_app es es' :
  projected_until (es ++ es') =
  if all_before es then projected_until es ++ projected_until es' else projected_until es.
Proof.
  unfold projected_until, all_before. induction es as [|e es IH]; cbn; [done|].
  destruct (before stop e.1); cbn; [|done]. rewrite IH. by destruct (forallb _ _).
Qed.

(** A leaf and then the leaves after it. *)
Lemma leaf_then es es' s :
  visitR visit s (projected_until (es ++ es')) =
  ('(s, outcome) ← leaf_outcome es s;
   match outcome with
   | Past => Ok (s, true)
   | Halted => Ok (s, false)
   | Running => visitR visit s (projected_until es')
   end).
Proof.
  unfold leaf_outcome. rewrite projected_until_app. destruct (all_before es).
  - rewrite visitR_app. by destruct (visitR visit s _) as [[s' [] ]|x].
  - by destruct (visitR visit s _) as [[s' [] ]|x].
Qed.

(** One entry at a time. *)
Lemma leaf_outcome_nil s : leaf_outcome [] s = Ok (s, Running).
Proof. done. Qed.
Lemma leaf_outcome_cons k r es s :
  leaf_outcome ((k, r) :: es) s =
  if before stop k then
    '(s, go) ← visit s (project k, r);
    if go : bool then leaf_outcome es s else Ok (s, Halted)
  else Ok (s, Past).
Proof.
  unfold leaf_outcome, projected_until, all_before. cbn [until fst]. destruct (before stop k) eqn:B.
  - cbn [fmap list_fmap visitR]. cbn -[before visitR fmap]. rewrite B. unfold prod_map at 1. cbn -[visitR fmap until].
    destruct (visit s _) as [[s' [] ]|x]; cbn [mbind result_bind andb]; [|done..]. done.
  - cbn. by rewrite B.
Qed.
End visiting.

(** * The cursor over a written leaf *)

Lemma restart_blocks n i :
  (i < (n + PREFIX_RESTART_INTERVAL - 1) / PREFIX_RESTART_INTERVAL ↔ i * PREFIX_RESTART_INTERVAL < n)%nat.
Proof.
  unfold PREFIX_RESTART_INTERVAL.
  pose proof (Nat.div_mod_eq (n + 16 - 1) 16). pose proof (Nat.mod_upper_bound (n + 16 - 1) 16). lia.
Qed.
Lemma is_restart_iff t : is_restart t = true ↔ ∃ j, t = (j * PREFIX_RESTART_INTERVAL)%nat.
Proof.
  unfold is_restart, PREFIX_RESTART_INTERVAL. rewrite Nat.eqb_eq. split.
  - intros E. exists (t / 16)%nat. pose proof (Nat.div_mod_eq t 16). lia.
  - intros (j & ->). by apply Nat.Div0.mod_mul.
Qed.

Lemma b2z_leaf_type prefixed : b2z (z2b (leaf_type prefixed)) = leaf_type prefixed.
Proof. by destruct prefixed. Qed.
Lemma leaf_type_prefix prefixed : (leaf_type prefixed =? PAGE_TYPE_PREFIX_LEAF) = prefixed.
Proof. by destruct prefixed. Qed.
Lemma leaf_type_is_leaf prefixed : is_leaf_page_type (leaf_type prefixed) = true.
Proof. by destruct prefixed. Qed.

Section leaf.
Context {K : Type} `{OL : OrdLaws K}.
Context (de_entry : bytes → result (K * FactRef)).
Context (prefixed : bool) (page : bytes) (bs : list bytes) (next : Z) (es : list (K * FactRef)).
Hypothesis page_at : leaf_at prefixed page bs next.
Hypothesis decodes : Forall2 (λ e b, de_entry b = Ok e) es bs.
Hypothesis ascending : strictly_ascending es.

Lemma leaf_length : length bs = length es.
Proof using decodes. symmetry. by eapply Forall2_length. Qed.

Lemma entry_bytes i e : es !! i = Some e → ∃ b, bs !! i = Some b ∧ de_entry b = Ok e.
Proof using decodes. intros E. by apply (Forall2_lookup_l _ _ _ _ _ decodes E). Qed.

Lemma leaf_first_byte msg : first_byte page msg = Ok (leaf_type prefixed).
Proof using page_at.
  unfold first_byte. rewrite (proj1 (holds_head _ _ _) (la_type _ _ _ _ page_at)). cbn.
  by rewrite b2z_leaf_type.
Qed.

Lemma leaf_header_ok : leaf_header page = Ok (leaf_type prefixed, length es).
Proof using page_at decodes.
  unfold leaf_header. rewrite leaf_first_byte. cbn [mbind result_bind].
  rewrite leaf_type_is_leaf, leaf_type_prefix. cbn [ensure mbind result_bind].
  rewrite (proj1 (holds_head _ _ _) (la_interval _ _ _ _ page_at)).
  replace (negb (prefixed && _)) with true by (by destruct prefixed; [rewrite bool_decide_true|]).
  cbn [ensure mbind result_bind]. rewrite (leaf_count _ _ _ _ page_at). cbn [mbind result_bind].
  rewrite (proj2 (Nat.leb_le _ _)) by (rewrite (la_len _ _ _ _ page_at); apply (la_dir _ _ _ _ page_at)).
  cbn [ensure mbind result_bind]. by rewrite leaf_length.
Qed.

(** The cursor stands in this leaf, ready to decode its next slot. *)
Record cursor_in (c : LeafEntryCursor K) : Prop := {
  ci_page : lc_page c = page;
  ci_type : lc_page_type c = leaf_type prefixed;
  ci_count : lc_entry_count c = length es;
  ci_slot : (lc_slot c ≤ length es)%nat;
  ci_previous : prefixed = true → resumes bs (lc_slot c) (lc_previous c);
}.
Definition remaining (c : LeafEntryCursor K) : list (K * FactRef) :=
  match lc_buffered c with Some e => [e] | None => [] end ++ drop (lc_slot c) es.

Lemma leaf_cursor_new_ok : ∃ c : LeafEntryCursor K, leaf_cursor_new page = Ok c ∧ cursor_in c ∧
  lc_slot c = O ∧ lc_buffered c = None.
Proof using page_at decodes.
  unfold leaf_cursor_new. rewrite leaf_header_ok. cbn [mbind result_bind]. eexists; split; [done|].
  split; [|done]. split; cbn; [done..|lia|]. intros _. by left.
Qed.

Lemma decode_raw_ok c i e : cursor_in c → prefixed = false → es !! i = Some e → decode_raw de_entry c i = Ok e.
Proof using page_at decodes.
  intros [P T C S R] F E. unfold decode_raw. rewrite P, C, <-leaf_length.
  destruct (entry_bytes i e E) as (b & Eb & D). rewrite (leaf_slice _ _ _ _ _ _ page_at Eb).
  rewrite F. done.
Qed.

Lemma reconstruct_entry i e previous : prefixed = true → es !! i = Some e → resumes bs i previous →
  ∃ b, bs !! i = Some b ∧ reconstruct_prefix_entry page (length es) i previous = Ok b ∧ de_entry b = Ok e.
Proof using page_at decodes.
  intros F E R. destruct (entry_bytes i e E) as (b & Eb & D). exists b. split_and!; [done| |done].
  rewrite <-leaf_length. eapply reconstruct_ok; [rewrite <-F; exact page_at|done..].
Qed.

Lemma decode_prefix_next_ok c e : cursor_in c → prefixed = true → es !! lc_slot c = Some e →
  ∃ c', decode_prefix_next de_entry c = Ok (c', e) ∧ cursor_in c' ∧ lc_slot c' = S (lc_slot c) ∧
    lc_buffered c' = lc_buffered c.
Proof using page_at decodes.
  intros [P T C Sl R] F E. unfold decode_prefix_next, decode_prefix_at. rewrite P, C.
  destruct (reconstruct_entry _ e _ F E (R F)) as (b & Eb & -> & D). cbn [mbind result_bind]. rewrite D.
  cbn [mbind result_bind]. eexists; split; [done|]. split; [|done].
  apply lookup_lt_Some in E. split; cbn; [done..|lia|]. intros _. right. by exists (lc_slot c).
Qed.

Lemma next_entry_ok c : cursor_in c →
  match remaining c with
  | [] => next_entry de_entry c = Ok (c, None)
  | e :: rest => ∃ c', next_entry de_entry c = Ok (c', Some e) ∧ cursor_in c' ∧ remaining c' = rest
  end.
Proof using page_at decodes.
  intros CI. destruct (CI) as [P T C Sl R]. unfold remaining, next_entry.
  destruct (lc_buffered c) as [b|] eqn:Bu; cbn [app].
  { eexists; split; [done|]. split; [by split|done]. }
  rewrite C, T, leaf_type_prefix. destruct (decide (lc_slot c < length es)%nat) as [Ins|Out].
  2: { rewrite drop_ge by lia. by rewrite (proj2 (Nat.leb_le _ _)) by lia. }
  rewrite (proj2 (Nat.leb_gt _ _)) by lia.
  destruct (lookup_lt_is_Some_2 es (lc_slot c) Ins) as [e E]. rewrite (drop_S _ _ _ E).
  destruct (decide (prefixed = true)) as [F|F%not_true_is_false].
  - rewrite F. destruct (decode_prefix_next_ok c e CI F E) as (c' & -> & CI' & Sl' & B'). cbn [mbind result_bind].
    exists c'. split; [done|]. split; [done|]. by rewrite B', Bu, Sl'.
  - rewrite F, (decode_raw_ok c _ e CI F E). cbn [mbind result_bind]. eexists; split; [done|].
    split; [|done]. split; cbn; [done|by rewrite T|done|lia|by rewrite F].
Qed.

(** Draining the cursor hands the body what remains of the leaf. *)
Lemma drain_ok {S'} (body : S' → K * FactRef → result (S' * bool)) fuel : ∀ c s,
  cursor_in c → (length (remaining c) < fuel)%nat →
  drain_leaf de_entry fuel body c s = visitR body s (remaining c).
Proof using page_at decodes.
  induction fuel as [|fuel IH]; intros c s CI B; [lia|]. cbn [drain_leaf].
  pose proof (next_entry_ok c CI) as N. destruct (remaining c) as [|e rest] eqn:Rc.
  - rewrite N. done.
  - destruct N as (c' & -> & CI' & R'). cbn [mbind result_bind visitR].
    destruct (body s e) as [[s' [] ]|x]; cbn [mbind result_bind]; [|done..].
    rewrite IH by (rewrite ?R'; cbn in B; done || lia). by rewrite R'.
Qed.
(** Position [k] is the lower bound of [start] in the leaf. *)
Definition lower_bound (start : K) (k : nat) : Prop :=
  (∀ i e, (i < k)%nat → es !! i = Some e → cmp e.1 start = Lt) ∧
  (∀ i e, (k ≤ i)%nat → es !! i = Some e → cmp e.1 start ≠ Lt).

Definition key_below (start : K) (i : nat) : bool :=
  match es !! i with Some e => ltb_ord e.1 start | None => false end.

Lemma key_below_mono start i j : (i ≤ j)%nat → key_below start j = true → key_below start i = true.
Proof using ascending OL.
  intros L. unfold key_below. destruct (es !! j) as [ej|] eqn:Ej; [|done].
  intros B%ltb_ord_true. destruct (lookup_lt_is_Some_2 es i) as [ei Ei].
  { apply lookup_lt_Some in Ej. lia. }
  rewrite Ei. apply ltb_ord_true. destruct (decide (i = j)) as [->|N]; [by simplify_eq|].
  apply cmp_trans with ej.1; [|done]. eapply ascending_lookup; [done..|lia].
Qed.

Lemma seek_raw_ok c start : cursor_in c → lc_buffered c = None → prefixed = false →
  ∃ c' k, seek_raw_lower_bound de_entry c start = Ok c' ∧ cursor_in c' ∧ remaining c' = drop k es ∧ lower_bound start k.
Proof using page_at decodes ascending OL.
  intros CI Bu F. destruct (CI) as [P T C Sl R]. unfold seek_raw_lower_bound. rewrite C.
  destruct (bisect_whole (λ middle, '(key, _) ← decode_raw de_entry c middle; Ok (ltb_ord key start))
              (key_below start) (length es)) as (k & -> & B & Lo & Hi).
  { intros i Hi. destruct (lookup_lt_is_Some_2 es i Hi) as [[key r] E]. rewrite (decode_raw_ok c i _ CI F E).
    cbn [mbind result_bind]. unfold key_below. by rewrite E. }
  { intros i j ? ?. by apply key_below_mono with j; [lia|]. }
  assert (LB : lower_bound start k).
  { split; intros i e Hi' E.
    - specialize (Lo i Hi'). unfold key_below in Lo. rewrite E in Lo. by apply ltb_ord_true.
    - apply ltb_ord_false. specialize (Hi i). unfold key_below in Hi. rewrite E in Hi. apply Hi.
      apply lookup_lt_Some in E. lia. }
  cbn [mbind result_bind]. destruct (decide (k < length es)%nat) as [Ins|Out].
  - rewrite (proj2 (Nat.ltb_lt _ _) Ins). destruct (lookup_lt_is_Some_2 es k Ins) as [e E].
    rewrite (decode_raw_ok c k e CI F E). cbn [mbind result_bind]. eexists _, k. split; [done|].
    split; [split; cbn; [done..|lia|by rewrite F]|]. split; [|done]. unfold remaining. cbn.
    by rewrite (drop_S _ _ _ E).
  - rewrite (proj2 (Nat.ltb_ge _ _)) by lia. eexists _, k. split; [done|].
    split; [split; cbn; [done..|lia|by rewrite F]|]. split; [|done]. unfold remaining. cbn. by rewrite Bu.
Qed.

Lemma prefix_linear_ok start fuel : ∀ c, cursor_in c → lc_buffered c = None → prefixed = true →
  (length es - lc_slot c ≤ fuel)%nat →
  (∀ i e, (i < lc_slot c)%nat → es !! i = Some e → cmp e.1 start = Lt) →
  (∀ t e, (lc_slot c < t)%nat → is_restart t = true → es !! t = Some e → cmp e.1 start ≠ Lt) →
  ∃ c' k, prefix_linear de_entry fuel c start = Ok c' ∧ cursor_in c' ∧ remaining c' = drop k es ∧ lower_bound start k.
Proof using page_at decodes ascending OL.
  induction fuel as [|fuel IH]; intros c CI Bu F Fu Lo Re; destruct (CI) as [P T C Sl R]; cbn [prefix_linear]; rewrite C.
  all: destruct (decide (lc_slot c < length es)%nat) as [Ins|Out];
    [rewrite (proj2 (Nat.ltb_lt _ _)) by lia|rewrite (proj2 (Nat.ltb_ge _ _)) by lia].
  2,4: exists c, (lc_slot c); split; [done|]; split; [done|]; split; [unfold remaining; by rewrite Bu|];
    split; [done|]; intros i e Hi E; apply lookup_lt_Some in E; lia.
  { lia. }
  destruct (lookup_lt_is_Some_2 es (lc_slot c) Ins) as [e E].
  destruct (decode_prefix_next_ok c e CI F E) as (c' & -> & CI' & Sl' & B'). cbn [mbind result_bind].
  assert (Up : cmp e.1 start ≠ Lt → lower_bound start (lc_slot c)).
  { intros N. split; [done|]. intros i x Hi X. destruct (decide (i = lc_slot c)) as [->|Ni]; [by simplify_eq|].
    intros Q. apply N. apply cmp_trans with x.1; [|done].
    eapply ascending_lookup; [done|exact E|exact X|lia]. }
  destruct (ltb_ord e.1 start) eqn:Lb; cbn [negb].
  - apply ltb_ord_true in Lb.
    assert (Lo' : ∀ i x, (i < lc_slot c')%nat → es !! i = Some x → cmp x.1 start = Lt).
    { intros i x Hi X. destruct (decide (i = lc_slot c)) as [->|N]; [by simplify_eq|]. apply (Lo i x); [lia|done]. }
    destruct (is_restart (S (lc_slot c))) eqn:Rs.
    + exists c', (lc_slot c'). split; [done|]. split; [done|].
      split; [unfold remaining; by rewrite B', Bu|]. split; [done|]. intros i x Hi X. rewrite Sl' in Hi.
      destruct (decide (i = S (lc_slot c))) as [->|N]; [by apply (Re _ _ (Nat.lt_succ_diag_r _) Rs X)|].
      assert (Li : (S (lc_slot c) < length es)%nat) by (apply lookup_lt_Some in X; lia).
      destruct (lookup_lt_is_Some_2 es _ Li) as [y Y]. pose proof (Re _ _ (Nat.lt_succ_diag_r _) Rs Y) as Q.
      intros Z. apply Q. apply cmp_trans with x.1; [|done]. eapply ascending_lookup; [done|exact Y|exact X|lia].
    + apply IH; [done|congruence|done|lia|done|]. intros t x Ht. apply Re. lia.
  - apply ltb_ord_false in Lb. eexists _, (lc_slot c). split; [done|]. destruct CI' as [P' T' C' S'' R'].
    split; [by split|]. split; [|by apply Up]. unfold remaining. cbn. rewrite Sl'. by rewrite (drop_S _ _ _ E).
Qed.

Lemma restart_key c j e : cursor_in c → prefixed = true → es !! (j * PREFIX_RESTART_INTERVAL)%nat = Some e →
  ∃ c', decode_prefix_restart de_entry c (j * PREFIX_RESTART_INTERVAL) = Ok (c', e).
Proof using page_at decodes.
  intros [P T C Sl R] F E. unfold decode_prefix_restart, decode_prefix_at. cbn. rewrite P, C.
  destruct (reconstruct_entry _ e [] F E) as (b & _ & -> & D); [left; apply is_restart_iff; by exists j|].
  cbn [mbind result_bind]. rewrite D. by eexists.
Qed.

(** Which restart keys do not lie above [start]. *)
Definition restart_upto (start : K) (j : nat) : bool :=
  match es !! (j * PREFIX_RESTART_INTERVAL)%nat with Some e => negb (ltb_ord start e.1) | None => false end.

Lemma restart_upto_mono start i j : (i ≤ j)%nat → restart_upto start j = true → restart_upto start i = true.
Proof using ascending OL.
  intros L. unfold restart_upto. destruct (es !! (j * _)%nat) as [ej|] eqn:Ej; [|done].
  destruct (lookup_lt_is_Some_2 es (i * PREFIX_RESTART_INTERVAL)%nat) as [ei Ei].
  { apply lookup_lt_Some in Ej. unfold PREFIX_RESTART_INTERVAL in *. lia. }
  rewrite Ei. destruct (decide (i = j)) as [->|N]; [by simplify_eq|].
  assert (A : cmp ei.1 ej.1 = Lt) by (eapply ascending_lookup; [done..|unfold PREFIX_RESTART_INTERVAL; lia]).
  rewrite !negb_true_iff, !ltb_ord_false. intros Q X. apply Q. by apply cmp_trans with ei.1.
Qed.

Lemma seek_prefix_ok c start : cursor_in c → lc_slot c = O → lc_buffered c = None → prefixed = true →
  ∃ c' k, seek_prefix_lower_bound de_entry c start = Ok c' ∧ cursor_in c' ∧ remaining c' = drop k es ∧ lower_bound start k.
Proof using page_at decodes ascending OL.
  intros CI Sl Bu F. destruct (CI) as [P T C _ R]. unfold seek_prefix_lower_bound. rewrite C.
  destruct (length es =? 0)%nat eqn:Z0.
  { apply Nat.eqb_eq in Z0. exists c, O. split; [done|]. split; [done|].
    split; [unfold remaining; by rewrite Bu, Sl|]. split; [lia|].
    intros i e _ E. apply lookup_lt_Some in E. lia. }
  apply Nat.eqb_neq in Z0.
  destruct (bisect_whole (λ middle, '(_, (key, _)) ← decode_prefix_restart de_entry c (middle * PREFIX_RESTART_INTERVAL);
              Ok (negb (ltb_ord start key))) (restart_upto start)
              ((length es + PREFIX_RESTART_INTERVAL - 1) / PREFIX_RESTART_INTERVAL)) as (k & -> & B & Lo & Hi).
  { intros i Hi%restart_blocks. destruct (lookup_lt_is_Some_2 es _ Hi) as [[key r] E].
    destruct (restart_key c i _ CI F E) as (c' & ->). cbn [mbind result_bind]. unfold restart_upto. by rewrite E. }
  { intros i j ? ?. by apply restart_upto_mono with j; [lia|]. }
  cbn [mbind result_bind]. set (q := ((k - 1) * PREFIX_RESTART_INTERVAL)%nat).
  assert (Bq : (q < length es)%nat).
  { apply restart_blocks. destruct k; [|lia]. apply restart_blocks. unfold PREFIX_RESTART_INTERVAL. lia. }
  apply prefix_linear_ok; cbn; [|done|done|lia| |].
  - split; cbn; [done..|lia|]. intros _. left. apply is_restart_iff. by exists (k - 1)%nat.
  - intros i x Hi' X. destruct k as [|k]; [unfold q in Hi'; cbn in Hi'; lia|].
    specialize (Lo k ltac:(lia)). unfold restart_upto in Lo. unfold q in Hi'. rewrite Nat.sub_succ, Nat.sub_0_r in Hi'.
    destruct (es !! (k * _)%nat) as [y|] eqn:Y; [|done]. apply negb_true_iff, ltb_ord_false in Lo.
    eapply cmp_lt_ge; [|exact Lo]. eapply ascending_lookup; [done|exact X|exact Y|done].
  - intros t x Ht (j & ->)%is_restart_iff X. unfold q in Ht.
    assert (Hj : (k ≤ j)%nat) by (unfold PREFIX_RESTART_INTERVAL in Ht; lia).
    specialize (Hi j). unfold restart_upto in Hi. rewrite X in Hi.
    apply negb_false_iff in Hi; [|split; [done|]; apply restart_blocks; by apply lookup_lt_Some in X].
    apply ltb_ord_true in Hi. intros Q. by rewrite (cmp_opp start), Hi in Q.
Qed.

Lemma seek_ok c start : cursor_in c → lc_slot c = O → lc_buffered c = None →
  ∃ c' k, seek_lower_bound de_entry c start = Ok c' ∧ cursor_in c' ∧ remaining c' = drop k es ∧ lower_bound start k.
Proof using page_at decodes ascending OL.
  intros CI Sl Bu. unfold seek_lower_bound. rewrite (ci_type c CI), leaf_type_prefix.
  destruct (decide (prefixed = true)) as [F|F%not_true_is_false]; rewrite F.
  - by apply seek_prefix_ok.
  - by apply seek_raw_ok.
Qed.

(** The body of a range scan over one leaf. *)
Definition scan_body {S'} (visit : S' → K * FactRef → result (S' * bool)) (stop : option K)
    : S' * Outcome → K * FactRef → result ((S' * Outcome) * bool) := λ '(s, _) entry,
  if match stop with Some e => negb (ltb_ord entry.1 e) | None => false end
  then Ok ((s, Past), false)
  else '(s, go) ← visit s entry;
       if go : bool then Ok ((s, Running), true) else Ok ((s, Halted), false).

Lemma scan_body_outcome {S'} (visit : S' → K * FactRef → result (S' * bool)) stop l : ∀ s,
  ('(so, _) ← visitR (scan_body visit stop) (s, Running) l; Ok so) = leaf_outcome visit stop id l s.
Proof using.
  induction l as [|[k r] l IH]; intros s; [done|]. rewrite leaf_outcome_cons. cbn [visitR scan_body fst].
  replace (match stop with Some e => negb (ltb_ord k e) | None => false end) with (negb (before stop k))
    by (by destruct stop).
  destruct (before stop k); cbn [negb mbind result_bind]; [|done].
  destruct (visit s (k, r)) as [[s' [] ]|x] eqn:V; unfold id; rewrite V; cbn [mbind result_bind]; [apply IH|done..].
Qed.

Lemma drain_outcome {S'} (visit : S' → K * FactRef → result (S' * bool)) stop c s :
  cursor_in c → (length (remaining c) ≤ S (length es))%nat →
  ('(so, _) ← drain_leaf de_entry (S (S (lc_entry_count c))) (scan_body visit stop) c (s, Running); Ok so) =
  leaf_outcome visit stop id (remaining c) s.
Proof using page_at decodes.
  intros CI B. rewrite drain_ok by (rewrite ?(ci_count c CI); done || lia). apply scan_body_outcome.
Qed.

(** The projected visitor over one leaf. *)
Section projected_leaf.
Context {Entry : Type} (cmp_owned : K → K → comparison) (project : K → Entry).
Hypothesis cmp_owned_cmp : ∀ w k, cmp_owned w k = cmp w k.

Lemma is_lt_ltb w k : is_lt (cmp_owned w k) = ltb_ord w k.
Proof using cmp_owned_cmp. rewrite cmp_owned_cmp. unfold ltb_ord. by destruct (cmp w k). Qed.

Lemma projected_seek_ok start : length es ≠ O →
  ∃ k, projected_seek de_entry cmp_owned page (leaf_type prefixed) (length es) start = Ok k ∧
    (k ≤ length es)%nat ∧ (prefixed = true → is_restart k = true) ∧
    ∀ i e, (i < k)%nat → es !! i = Some e → cmp e.1 start = Lt.
Proof using page_at decodes ascending OL cmp_owned_cmp.
  intros N. unfold projected_seek. rewrite leaf_type_prefix.
  destruct (decide (prefixed = true)) as [F|F%not_true_is_false]; rewrite F.
  - destruct (bisect_whole (λ middle, previous ← reconstruct_prefix_entry page (length es) (middle * PREFIX_RESTART_INTERVAL) [];
              '(wire, _) ← de_entry previous; Ok (is_lt (cmp_owned wire start)))
              (λ j, key_below start (j * PREFIX_RESTART_INTERVAL))
              ((length es + PREFIX_RESTART_INTERVAL - 1) / PREFIX_RESTART_INTERVAL)) as (k & -> & B & Lo & _).
    { intros j Hj%restart_blocks. destruct (lookup_lt_is_Some_2 es _ Hj) as [[key r] E].
      destruct (reconstruct_entry _ _ [] F E) as (b & _ & -> & D); [left; apply is_restart_iff; by exists j|].
      cbn [mbind result_bind]. rewrite D. cbn [mbind result_bind]. rewrite is_lt_ltb. unfold key_below. by rewrite E. }
    { intros i j ?. apply key_below_mono. unfold PREFIX_RESTART_INTERVAL. lia. }
    cbn [mbind result_bind]. eexists; split; [done|].
    assert (Bq : ((k - 1) * PREFIX_RESTART_INTERVAL < length es)%nat).
    { apply restart_blocks. destruct k; [|lia]. apply restart_blocks. lia. }
    split; [lia|]. split; [intros _; apply is_restart_iff; by exists (k - 1)%nat|].
    intros i x Hi X. destruct k as [|k]; [cbn in Hi; lia|]. rewrite Nat.sub_succ, Nat.sub_0_r in *.
    specialize (Lo k ltac:(lia)). unfold key_below in Lo. destruct (es !! (k * _)%nat) as [y|] eqn:Y; [|done].
    apply ltb_ord_true in Lo. apply cmp_trans with y.1; [|done]. eapply ascending_lookup; [done|exact X|exact Y|done].
  - destruct (bisect_whole (λ middle, slice ← leaf_entry_slice page (length es) middle;
              '(wire, _) ← de_entry slice; Ok (is_lt (cmp_owned wire start)))
              (key_below start) (length es)) as (k & -> & B & Lo & _).
    { intros j Hj. destruct (lookup_lt_is_Some_2 es _ Hj) as [[key r] E].
      destruct (entry_bytes j _ E) as (b & Eb & D). rewrite <-leaf_length, (leaf_slice _ _ _ _ _ _ page_at Eb), F.
      cbn [mbind result_bind record_of]. rewrite D. cbn [mbind result_bind]. rewrite is_lt_ltb. unfold key_below. by rewrite E. }
    { intros i j ?. apply key_below_mono. lia. }
    exists k. split; [done|]. split; [lia|]. split; [done|]. intros i e Hi E. specialize (Lo i Hi).
    unfold key_below in Lo. rewrite E in Lo. by apply ltb_ord_true.
Qed.

Lemma projected_entries_ok {S'} (visit : S' → Entry * FactRef → result (S' * bool)) on_start start stop todo : ∀ slot previous s,
  (slot + todo = length es)%nat → (prefixed = true → resumes bs slot previous) →
  projected_entries de_entry cmp_owned project todo slot page (leaf_type prefixed) (length es) on_start start stop previous visit s
  = leaf_outcome visit stop project
      (if on_start then List.filter (λ e, negb (ltb_ord e.1 start)) (drop slot es) else drop slot es) s.
Proof using page_at decodes cmp_owned_cmp.
  induction todo as [|todo IH]; intros slot previous s B R; cbn [projected_entries].
  { rewrite drop_ge by lia. by destruct on_start. }
  destruct (lookup_lt_is_Some_2 es slot ltac:(lia)) as [[k r] E]. rewrite (drop_S _ _ _ E), leaf_type_prefix.
  assert (D : ∃ b pv, (if prefixed then previous ← reconstruct_prefix_entry page (length es) slot previous; Ok (previous, previous)
                       else slice ← leaf_entry_slice page (length es) slot; Ok (slice, previous)) = Ok (b, pv) ∧
                      de_entry b = Ok (k, r) ∧ (prefixed = true → resumes bs (S slot) pv)).
  { destruct (decide (prefixed = true)) as [F|F%not_true_is_false]; rewrite F.
    - destruct (reconstruct_entry _ _ previous F E (R F)) as (b & Eb & -> & D). exists b, b.
      split_and!; [done..|]. intros _. right. by exists slot.
    - destruct (entry_bytes _ _ E) as (b & Eb & D). exists b, previous.
      by rewrite <-leaf_length, (leaf_slice _ _ _ _ _ _ page_at Eb), F. }
  destruct D as (b & pv & -> & D & R'). cbn [mbind result_bind]. rewrite D. cbn [mbind result_bind].
  rewrite is_lt_ltb. cbn [List.filter fst].
  replace (match stop with Some bound => negb (is_lt (cmp_owned k bound)) | None => false end)
    with (negb (before stop k)) by (destruct stop; cbn; [by rewrite is_lt_ltb|done]).
  destruct on_start; cbn [andb]; [destruct (ltb_ord k start); cbn [negb]|].
  - rewrite IH; [done|lia|done].
  - rewrite leaf_outcome_cons. destruct (before stop k); cbn [negb]; [|done].
    destruct (visit s _) as [[s' [] ]|x]; cbn [mbind result_bind]; [|done..]. rewrite IH; [done|lia|done].
  - rewrite leaf_outcome_cons. destruct (before stop k); cbn [negb]; [|done].
    destruct (visit s _) as [[s' [] ]|x]; cbn [mbind result_bind]; [|done..]. rewrite IH; [done|lia|done].
Qed.
End projected_leaf.
End leaf.

(** * Trees *)

Lemma filter_none' {A} (p : A → bool) l : (∀ x, x ∈ l → p x = false) → List.filter p l = [].
Proof. induction l as [|x l IH]; intros F; cbn; [done|]. rewrite F by set_solver. apply IH. set_solver. Qed.

Section tree.
Context {K : Type} `{OL : OrdLaws K}.
Context (load : Z → result bytes) (de_key : bytes → result K) (de_entry : bytes → result (K * FactRef)).

(** A leaf is its page and the entries on it. *)
Definition Leaf : Type := Z * list (K * FactRef).
Definition entries_of (leaves : list Leaf) : list (K * FactRef) := concat (snd <$> leaves).
Definition first_key (leaves : list Leaf) : option K := fst <$> head (entries_of leaves).

Definition leaf_on (l : Leaf) (next : Z) : Prop :=
  ∃ page prefixed bs, load l.1 = Ok page ∧ leaf_at prefixed page bs next ∧
    Forall2 (λ e b, de_entry b = Ok e) l.2 bs.

(** The leaves are linked in order; the last one points to page 0. *)
Fixpoint chain (leaves : list Leaf) : Prop :=
  match leaves with
  | [] => True
  | l :: rest => leaf_on l (match rest with [] => 0 | l' :: _ => l'.1 end) ∧ chain rest
  end.

(** The page [id] is the root of a tree of height [h] over [leaves]; a
    separator is the first key of the subtree to its right. *)
Fixpoint subtree (h : nat) (id : Z) (leaves : list Leaf) : Prop :=
  match h with
  | O => ∃ l next, leaves = [l] ∧ l.1 = id ∧ leaf_on l next
  | S h => ∃ page children seps groups,
      load id = Ok page ∧ internal_at page children seps ∧ Forall u64_ok children ∧
      Forall2 (subtree h) children groups ∧
      (∀ j g, groups !! S j = Some g → ∃ b k, seps !! j = Some b ∧ de_key b = Ok k ∧ first_key g = Some k) ∧
      leaves = concat groups
  end.

Record btree (h : nat) (root : Z) (leaves : list Leaf) : Prop := {
  bt_tree : subtree h root leaves;
  bt_chain : chain leaves;
  bt_ids : Forall (λ l : Leaf, 0 < l.1 < 2 ^ 64) leaves;
  bt_distinct : NoDup (fst <$> leaves);
  bt_ascending : strictly_ascending (entries_of leaves);
}.

Lemma entries_of_app l1 l2 : entries_of (l1 ++ l2) = entries_of l1 ++ entries_of l2.
Proof using. unfold entries_of. by rewrite fmap_app, concat_app. Qed.
Lemma entries_of_cons l ls : entries_of (l :: ls) = l.2 ++ entries_of ls.
Proof using. done. Qed.
Lemma first_key_elem g k : first_key g = Some k → ∃ e, e ∈ entries_of g ∧ e.1 = k.
Proof using.
  unfold first_key. destruct (entries_of g) as [|e es]; [done|]. cbn. intros [= <-]. exists e. split; [left|done].
Qed.
Lemma first_key_least g k e : strictly_ascending (entries_of g) → first_key g = Some k → e ∈ entries_of g →
  cmp e.1 k ≠ Lt.
Proof using OL.
  unfold first_key, strictly_ascending. destruct (entries_of g) as [|x es]; [done|]. cbn. intros [_ F]%StronglySorted_inv [= <-].
  rewrite Forall_forall in F. intros [->|Hx]%elem_of_cons; [by rewrite cmp_refl|].
  specialize (F e Hx). cbn in F. intros Q. by rewrite (cmp_opp x.1), F in Q.
Qed.

(** Subtrees stand in the order of their entries. *)
Lemma groups_ascending groups i j g g' x y :
  strictly_ascending (entries_of (concat groups)) → groups !! i = Some g → groups !! j = Some g' → (i < j)%nat →
  x ∈ entries_of g → y ∈ entries_of g' → cmp x.1 y.1 = Lt.
Proof using OL.
  revert i j. induction groups as [|g0 groups IH]; intros i j A Gi Gj L X Y; [done|].
  cbn [concat] in A. rewrite entries_of_app in A. apply ascending_app in A as (A1 & A2 & A3).
  destruct j as [|j]; [lia|]. cbn in Gj. destruct i as [|i]; cbn in Gi.
  - simplify_eq. apply A3; [done|]. apply list_elem_of_lookup_2 in Gj.
    clear -Gj Y. induction groups as [|h groups IH]; [by apply elem_of_nil in Gj|].
    cbn [concat]. rewrite entries_of_app, elem_of_app. apply elem_of_cons in Gj as [->|Gj]; [by left|right; auto].
  - apply (IH i j); [done..|lia|done|done].
Qed.

Lemma group_ascending groups i g : strictly_ascending (entries_of (concat groups)) → groups !! i = Some g →
  strictly_ascending (entries_of g).
Proof using OL.
  revert i. induction groups as [|g0 groups IH]; intros i A G; [done|].
  cbn [concat] in A. rewrite entries_of_app in A. apply ascending_app in A as (A1 & A2 & A3).
  destruct i as [|i]; cbn in G; [by simplify_eq|eauto].
Qed.

(** The descent picks the subtree between the right separators. *)
Lemma child_for_key_ok page children seps (groups : list (list Leaf)) key :
  internal_at page children seps → Forall u64_ok children → length groups = length children →
  (∀ j g, groups !! S j = Some g → ∃ b k, seps !! j = Some b ∧ de_key b = Ok k ∧ first_key g = Some k) →
  strictly_ascending (entries_of (concat groups)) →
  ∃ i c g, child_for_key de_key page key = Ok c ∧ children !! i = Some c ∧ groups !! i = Some g ∧
    (∀ j g', (j < i)%nat → groups !! j = Some g' → ∀ e, e ∈ entries_of g' → cmp e.1 key = Lt) ∧
    (∀ j g', (i < j)%nat → groups !! j = Some g' → ∀ e, e ∈ entries_of g' → cmp e.1 key ≠ Lt).
Proof using OL.
  intros IA U Lg Sep As. pose proof PAGE_SIZE_val. pose proof (ia_width _ _ _ IA) as W.
  pose proof (ia_dir _ _ _ IA) as Dir. unfold INTERNAL_HEADER_SIZE, SLOT_SIZE in Dir.
  set (n := length seps) in *.
  pose proof (ia_count _ _ _ IA) as C. apply holds_u16 in C; [|unfold u16_ok; lia]. rewrite Nat2Z.id in C.
  destruct (ia_right _ _ _ IA) as (right & La & Hr).
  apply holds_u64 in Hr; [|rewrite last_lookup in La; by apply (Forall_lookup_1 _ _ _ _ U La)].
  assert (G : ∀ j, (j < n)%nat → ∃ g b k, groups !! S j = Some g ∧ seps !! j = Some b ∧ de_key b = Ok k ∧ first_key g = Some k).
  { intros j Hj. destruct (lookup_lt_is_Some_2 groups (S j)) as [g Hg]; [lia|].
    destruct (Sep j g Hg) as (b & k & ?). by exists g, b, k. }
  set (p := λ j, match groups !! S j with
                 | Some g => match first_key g with Some k => negb (ltb_ord key k) | None => false end
                 | None => false end).
  destruct (bisect_whole (λ middle, sep_slice ← slot_slice page (INTERNAL_HEADER_SIZE + n * 8 + middle * SLOT_SIZE);
              sep_key ← de_key sep_slice; Ok (negb (ltb_ord key sep_key))) p n) as (i & E & B & Lo & Hi).
  { intros j Hj. destruct (G j Hj) as (g & b & k & Eg & Eb & Ek & Ef).
    pose proof (slot_holds_slice _ _ _ _ _ (ia_slots _ _ _ IA j b Eb)) as Sl. fold n in Sl. rewrite Sl. cbn [mbind result_bind].
    rewrite Ek. cbn [mbind result_bind]. unfold p. by rewrite Eg, Ef. }
  { intros a j Ha. unfold p. destruct (G a ltac:(lia)) as (ga & ba & ka & Ea & _ & _ & Fa).
    destruct (G j ltac:(lia)) as (gj & bj & kj & Ej & _ & _ & Fj). rewrite Ea, Ej, Fa, Fj.
    destruct (decide (a = j)) as [->|N]; [by simplify_eq|].
    rewrite !negb_true_iff, !ltb_ord_false. intros Q X. apply Q.
    destruct (first_key_elem _ _ Fa) as (x & Hx & <-). destruct (first_key_elem _ _ Fj) as (y & Hy & <-).
    apply cmp_trans with x.1; [done|].
    exact (groups_ascending groups (S a) (S j) ga gj x y As Ea Ej ltac:(lia) Hx Hy). }
  destruct (lookup_lt_is_Some_2 children i) as [c Ec]; [lia|].
  destruct (lookup_lt_is_Some_2 groups i) as [g Eg]; [lia|]. exists i, c, g.
  split_and!; [|done|done| |].
  - unfold child_for_key. apply bind_Ok. exists n. split; [done|]. apply bind_Ok. exists right. split; [done|].
    apply bind_Ok. exists i. split; [exact E|]. destruct (decide (i < n)%nat) as [In|Out].
    + rewrite (proj2 (Nat.ltb_lt _ _)) by lia. apply holds_u64; [by apply (Forall_lookup_1 _ _ _ _ U Ec)|].
      by apply (ia_children _ _ _ IA).
    + rewrite (proj2 (Nat.ltb_ge _ _)) by lia. f_equal. rewrite last_lookup in La.
      replace (Nat.pred (length children)) with i in La by lia. congruence.
  - intros j g' Hj Gj e He. destruct i as [|i]; [lia|]. specialize (Lo i ltac:(lia)). unfold p in Lo. rewrite Eg in Lo.
    destruct (first_key g) as [k|] eqn:Fk; [|done]. apply negb_true_iff, ltb_ord_false in Lo.
    destruct (first_key_elem _ _ Fk) as (x & Hx & <-).
    eapply cmp_lt_ge; [exact (groups_ascending groups j (S i) g' g e x As Gj Eg Hj He Hx)|done].
  - intros j g' Hj Gj e He. destruct j as [|j]; [lia|].
    assert (Li : (i < n)%nat) by (apply lookup_lt_Some in Gj; lia).
    specialize (Hi j). unfold p in Hi. rewrite Gj in Hi. destruct (Sep j g' Gj) as (b & k & _ & _ & Fk).
    rewrite Fk in Hi. apply negb_false_iff in Hi; [|apply lookup_lt_Some in Gj; lia]. apply ltb_ord_true in Hi.
    pose proof (first_key_least g' k e (group_ascending _ _ _ As Gj) Fk He) as Q. intros X. apply Q.
    by apply cmp_trans with key.
Qed.

Lemma internal_first_byte page children seps msg : internal_at page children seps →
  first_byte page msg = Ok PAGE_TYPE_INTERNAL.
Proof using.
  intros IA. unfold first_byte. by rewrite (proj1 (holds_head _ _ _) (ia_type _ _ _ IA)).
Qed.

Lemma elem_entries_concat groups e : e ∈ entries_of (concat groups) → ∃ j g, groups !! j = Some g ∧ e ∈ entries_of g.
Proof using.
  induction groups as [|g groups IH]; [intros X; by apply elem_of_nil in X|].
  cbn [concat]. rewrite entries_of_app, elem_of_app. intros [X|X]; [by exists O, g|].
  destruct (IH X) as (j & g' & ? & ?). by exists (S j), g'.
Qed.

Lemma find_leaf_for_key_ok key h : ∀ fuel id leaves,
  (h < fuel)%nat → subtree h id leaves → strictly_ascending (entries_of leaves) →
  ∃ L1 l L2, leaves = L1 ++ l :: L2 ∧ find_leaf_for_key load de_key fuel id key = Ok l.1 ∧
    (∀ e, e ∈ entries_of L1 → cmp e.1 key = Lt) ∧ (∀ e, e ∈ entries_of L2 → cmp e.1 key ≠ Lt).
Proof using OL.
  induction h as [|h IH]; intros [|fuel] id leaves F T A; [lia| |lia|]; cbn [find_leaf_for_key subtree] in *.
  - destruct T as (l & next & -> & <- & (page & pre & bs & Lo & LA & D)). exists [], l, []. split; [done|].
    rewrite Lo. cbn [mbind result_bind]. rewrite (leaf_first_byte _ _ _ _ LA). cbn [mbind result_bind].
    rewrite leaf_type_is_leaf. split; [done|]. split; intros e X; by apply elem_of_nil in X.
  - destruct T as (page & children & seps & groups & Lo & IA & U & T & Sep & ->).
    rewrite Lo. cbn [mbind result_bind]. rewrite (internal_first_byte _ _ _ _ IA). cbn -[child_for_key entries_of].
    destruct (child_for_key_ok page children seps groups key IA U) as (i & c & g & -> & Ec & Eg & Be & Af);
      [symmetry; by eapply Forall2_length|done|done|]. cbn [mbind result_bind].
    pose proof (Forall2_lookup_lr _ _ _ _ _ _ T Ec Eg) as Tg.
    destruct (IH fuel c g) as (L1 & l & L2 & -> & -> & X1 & X2); [lia|done|by eapply group_ascending|].
    exists (concat (take i groups) ++ L1), l, (L2 ++ concat (drop (S i) groups)). split_and!; [|done| |].
    + rewrite <-(take_drop_middle _ _ _ Eg) at 1. rewrite concat_app. cbn [concat]. by rewrite <-!app_assoc.
    + intros e. rewrite entries_of_app, elem_of_app. intros [X|X]; [|by apply X1].
      apply elem_entries_concat in X as (j & g' & Ej & Xe). pose proof (lookup_lt_Some _ _ _ Ej) as Lj.
      rewrite length_take in Lj. rewrite lookup_take_lt in Ej by lia. apply (Be j g'); [lia|done..].
    + intros e. rewrite entries_of_app, elem_of_app. intros [X|X]; [by apply X2|].
      apply elem_entries_concat in X as (j & g' & Ej & Xe). rewrite lookup_drop in Ej.
      apply (Af (S i + j)%nat g'); [lia|done..].
Qed.

Lemma find_leftmost_leaf_ok h : ∀ fuel id leaves, (h < fuel)%nat → subtree h id leaves →
  ∃ l rest, leaves = l :: rest ∧ find_leftmost_leaf load fuel id = Ok l.1.
Proof using.
  induction h as [|h IH]; intros [|fuel] id leaves F T; [lia| |lia|]; cbn [find_leftmost_leaf subtree] in *.
  - destruct T as (l & next & -> & <- & (page & pre & bs & Lo & LA & D)). exists l, []. split; [done|].
    rewrite Lo. cbn [mbind result_bind]. rewrite (leaf_first_byte _ _ _ _ LA). cbn [mbind result_bind].
    by rewrite leaf_type_is_leaf.
  - destruct T as (page & children & seps & groups & Lo & IA & U & T & Sep & ->). pose proof PAGE_SIZE_val.
    pose proof (ia_dir _ _ _ IA) as Dir. unfold INTERNAL_HEADER_SIZE, SLOT_SIZE in Dir.
    rewrite Lo. cbn [mbind result_bind]. rewrite (internal_first_byte _ _ _ _ IA). cbn -[entries_of].
    pose proof (ia_count _ _ _ IA) as C. apply holds_u16 in C; [|unfold u16_ok; lia]. rewrite Nat2Z.id in C.
    rewrite C. cbn [mbind result_bind]. pose proof (ia_width _ _ _ IA) as W.
    destruct T as [|c g children groups Tc T]; [done|]. apply Forall_cons in U as [Uc U].
    assert (R : (if (length seps =? 0)%nat then read_u64_at page 4 else read_u64_at page INTERNAL_HEADER_SIZE) = Ok c).
    { destruct (length seps =? 0)%nat eqn:Z0; [apply Nat.eqb_eq in Z0|apply Nat.eqb_neq in Z0].
      - destruct (ia_right _ _ _ IA) as (right & La & Hr). destruct children; [|cbn in W; lia].
        cbn in La. simplify_eq. by apply holds_u64.
      - apply holds_u64; [done|]. apply (ia_children _ _ _ IA O); [lia|done]. }
    rewrite R. cbn [mbind result_bind]. destruct (IH fuel c g ltac:(lia) Tc) as (l & rest & -> & ->).
    by exists l, (rest ++ concat groups).
Qed.

(** ** Scans along the chain *)

Definition next_of (rest : list Leaf) : Z := match rest with [] => 0 | l' :: _ => l'.1 end.

Section scans.
Context {S' : Type} (visit : S' → K * FactRef → result (S' * bool)) (start : K) (stop : option K) (start_leaf : Z).

(** One leaf: the entries from the lower bound on, or all of them. *)
Lemma visit_leaf_step l rest fuel s :
  leaf_on l (next_of rest) → 0 ≤ next_of rest < 2 ^ 64 → strictly_ascending l.2 →
  ∃ es', (if l.1 =? start_leaf
          then ∃ k, es' = drop k l.2 ∧ lower_bound l.2 start k else es' = l.2) ∧
    visit_leaves load de_entry (S fuel) start_leaf l.1 start stop visit s =
    ('(s, outcome) ← leaf_outcome visit stop id es' s;
     match outcome with
     | Past => Ok (s, true)
     | Halted => Ok (s, false)
     | Running => if next_of rest =? 0 then Ok (s, true)
                  else visit_leaves load de_entry fuel start_leaf (next_of rest) start stop visit s
     end).
Proof using OL.
  intros (page & pre & bs & Lo & LA & D) U A. cbn [visit_leaves]. rewrite Lo. cbn [mbind result_bind].
  rewrite (leaf_first_byte _ _ _ _ LA). cbn [mbind result_bind]. rewrite leaf_type_is_leaf. cbn [ensure mbind result_bind].
  rewrite (holds_u64 _ _ (next_of rest)) by (exact (la_next _ _ _ _ LA) || done). cbn [mbind result_bind].
  destruct (leaf_cursor_new_ok de_entry pre page bs _ l.2 LA D) as (c & -> & CI & Sl & Bu).
  assert (X : ∃ c', (if l.1 =? start_leaf then seek_lower_bound de_entry c start else Ok c) = Ok c' ∧
                    cursor_in pre page bs l.2 c' ∧
                    if l.1 =? start_leaf then ∃ k, remaining l.2 c' = drop k l.2 ∧ lower_bound l.2 start k
                    else remaining l.2 c' = l.2).
  { destruct (l.1 =? start_leaf).
    - destruct (seek_ok de_entry pre page bs _ l.2 LA D A c start CI Sl Bu) as (c' & k & ? & ? & ? & ?).
      exists c'. split_and!; [done..|]. by exists k.
    - exists c. split_and!; [done..|]. unfold remaining. by rewrite Bu, Sl. }
  destruct X as (c' & E & CI' & R'). exists (remaining l.2 c'). split.
  { destruct (l.1 =? start_leaf); [|done]. destruct R' as (k & R' & LB). by exists k. }
  cbn [mbind result_bind]. rewrite E. cbn [mbind result_bind].
  pose proof (drain_outcome de_entry pre page bs _ l.2 LA D visit stop c' s CI') as O.
  rewrite <-O.
  2: { destruct (l.1 =? start_leaf); [destruct R' as (k & -> & _); rewrite length_drop|rewrite R']; lia. }
  unfold scan_body. by destruct (drain_leaf _ _ _ _ _) as [[[s' o] b]|e].
Qed.

Lemma visit_rest rest : ∀ l fuel s, chain (l :: rest) →
  Forall (λ l : Leaf, 0 < l.1 < 2 ^ 64) (l :: rest) → start_leaf ∉ (fst <$> (l :: rest)) →
  strictly_ascending (entries_of (l :: rest)) → (length (l :: rest) ≤ fuel)%nat →
  visit_leaves load de_entry fuel start_leaf l.1 start stop visit s =
  visitR visit s (projected_until stop id (entries_of (l :: rest))).
Proof using OL.
  induction rest as [|l' rest IH]; intros l fuel s Ch Ids Ns A F; (destruct fuel as [|fuel]; [cbn in F; lia|]).
  all: destruct Ch as [On Ch]; apply Forall_cons in Ids as [Id Ids]; rewrite entries_of_cons in A |- *;
    apply ascending_app in A as (A1 & A2 & _); apply not_elem_of_cons in Ns as [Nl Ns].
  - destruct (visit_leaf_step l [] fuel s On) as (es' & E & ->); [cbn; lia|done|].
    rewrite (proj2 (Z.eqb_neq _ _)) in E by congruence. subst es'. by rewrite leaf_then.
  - destruct (visit_leaf_step l (l' :: rest) fuel s On) as (es' & E & ->).
    { apply Forall_cons in Ids as [? _]. cbn. lia. }
    { done. }
    rewrite (proj2 (Z.eqb_neq _ _)) in E by congruence. subst es'. rewrite leaf_then.
    apply Forall_cons in Ids as [Id' Ids']. cbn [next_of]. rewrite (proj2 (Z.eqb_neq _ _)) by lia.
    destruct (leaf_outcome _ _ _ _ _) as [[s' [] ]|x]; cbn [mbind result_bind]; [|done..].
    apply IH; [done|by apply Forall_cons|done|done|cbn in F |- *; lia].
Qed.
End scans.

(** What the start leaf contributes, whichever way it is searched. *)
Lemma range_split L1 (l : Leaf) L2 start stop k :
  strictly_ascending (entries_of (L1 ++ l :: L2)) →
  (∀ e, e ∈ entries_of L1 → cmp e.1 start = Lt) → (∀ e, e ∈ entries_of L2 → cmp e.1 start ≠ Lt) →
  lower_bound l.2 start k →
  bt_from start stop (entries_of (L1 ++ l :: L2)) = until stop (drop k l.2 ++ entries_of L2).
Proof using OL.
  intros A B1 B2 [Lo Hi]. rewrite entries_of_app, entries_of_cons in *. rewrite <-(take_drop k l.2) in A |- * at 1.
  rewrite <-app_assoc, app_assoc in A |- *. apply bt_from_suffix; [done| |].
  - intros e [X|X]%elem_of_app; [by apply B1|]. apply list_elem_of_lookup in X as (i & X).
    apply lookup_take_Some in X as [X L]. by apply (Lo i).
  - intros e [X|X]%elem_of_app; [|by apply B2]. apply list_elem_of_lookup in X as (i & X). rewrite lookup_drop in X.
    apply (Hi (k + i)%nat); [lia|done].
Qed.

Lemma lower_bound_filter (es : list (K * FactRef)) start : strictly_ascending es →
  ∃ k, lower_bound es start k ∧ List.filter (λ e, negb (ltb_ord e.1 start)) es = drop k es.
Proof using OL.
  unfold strictly_ascending. induction 1 as [|e es Ss IH F]; [exists O; by split|].
  cbn [List.filter]. destruct (ltb_ord e.1 start) eqn:B; cbn [negb].
  - destruct IH as (k & [Lo Hi] & ->). exists (S k). split; [|done]. apply ltb_ord_true in B. split.
    + intros [|i] x Hx E; cbn in E; [by simplify_eq|]. apply (Lo i); [lia|done].
    + intros [|i] x Hx E; cbn in E; [lia|]. apply (Hi i); [lia|done].
  - apply ltb_ord_false in B. rewrite Forall_forall in F.
    assert (X : ∀ x, x ∈ es → cmp x.1 start ≠ Lt).
    { intros x Hx Q. apply B. apply cmp_trans with x.1; [by apply F|done]. }
    exists O. cbn [drop]. split.
    + split; [lia|]. intros [|i] x _ E; cbn in E; [by simplify_eq|]. by apply X, list_elem_of_lookup_2 with i.
    + f_equal. apply List_filter_id. intros x Hx. apply negb_true_iff, ltb_ord_false. by apply X.
Qed.

Lemma projected_until_id stop (es : list (K * FactRef)) : projected_until stop id es = until stop es.
Proof using.
  unfold projected_until. rewrite <-(list_fmap_id (until stop es)) at 2. apply list_fmap_ext. by intros ? [].
Qed.

(** The parts of a tree around the leaf a search starts at. *)
Lemma btree_split h root leaves start fuel : btree h root leaves → (h < fuel)%nat →
  ∃ L1 l L2, leaves = L1 ++ l :: L2 ∧ find_leaf_for_key load de_key fuel root start = Ok l.1 ∧
    (∀ e, e ∈ entries_of L1 → cmp e.1 start = Lt) ∧ (∀ e, e ∈ entries_of L2 → cmp e.1 start ≠ Lt) ∧
    chain (l :: L2) ∧ Forall (λ l : Leaf, 0 < l.1 < 2 ^ 64) (l :: L2) ∧ (l.1 ∉ (fst <$> L2)) ∧
    strictly_ascending (entries_of (l :: L2)).
Proof using OL.
  intros [T C I N A] F. destruct (find_leaf_for_key_ok start h fuel root leaves F T A)
    as (L1 & l & L2 & -> & E & B1 & B2). exists L1, l, L2. split_and!; [done..| | | |].
  - clear -C. induction L1 as [|x L1 IH]; [done|]. apply IH, C.
  - by apply Forall_app in I as [_ I].
  - rewrite fmap_app in N. apply NoDup_app in N as (_ & _ & N). by apply NoDup_cons in N as [N _].
  - rewrite entries_of_app in A. by apply ascending_app in A as (_ & A & _).
Qed.

Lemma visit_range_entries_ok {S'} (visit : S' → K * FactRef → result (S' * bool)) h root leaves start stop fuel s :
  btree h root leaves → (h < fuel)%nat → (length leaves ≤ fuel)%nat →
  visit_range_entries load de_key de_entry fuel root start stop visit s =
  visitR visit s (bt_from start stop (entries_of leaves)).
Proof using OL.
  intros T F Fl. destruct (btree_split h root leaves start fuel T F)
    as (L1 & l & L2 & -> & E & B1 & B2 & C & I & N & A). unfold visit_range_entries. rewrite E. cbn [mbind result_bind].
  destruct fuel as [|fuel]; [lia|]. destruct C as [On C]. apply Forall_cons in I as [Id I].
  rewrite length_app in Fl. cbn [length] in Fl.
  destruct (visit_leaf_step visit start stop l.1 l L2 fuel s On) as (es' & W & ->).
  { destruct L2 as [|l2 L2]; cbn; [lia|]. apply Forall_cons in I as [? _]. lia. }
  { rewrite entries_of_cons in A. by apply ascending_app in A as (A & _). }
  rewrite Z.eqb_refl in W. destruct W as (k & -> & LB).
  rewrite (range_split L1 l L2 start stop k (bt_ascending _ _ _ T) B1 B2 LB), <-projected_until_id, leaf_then.
  destruct (leaf_outcome _ _ _ _ _) as [[s' [] ]|x]; cbn [mbind result_bind]; [|done..].
  destruct L2 as [|l2 L2]; cbn [next_of]; [done|].
  assert (0 < l2.1) by (apply Forall_cons in I as [? _]; lia). rewrite (proj2 (Z.eqb_neq _ _)) by lia.
  apply visit_rest; [done|done|done| |cbn in Fl |- *; lia].
  rewrite entries_of_cons in A. by apply ascending_app in A as (_ & A & _).
Qed.

Lemma visitR_collect {A} (l acc : list A) : visitR (λ r x, Ok (r ++ [x], true)) acc l = Ok (acc ++ l, true).
Proof using.
  revert acc. induction l as [|x l IH]; intros acc; cbn [visitR mbind result_bind]; [by rewrite app_nil_r|].
  by rewrite IH, <-app_assoc.
Qed.

Lemma range_scan_entries_ok h root leaves start stop fuel :
  btree h root leaves → (h < fuel)%nat → (length leaves ≤ fuel)%nat →
  range_scan_entries load de_key de_entry fuel root start stop = Ok (bt_from start stop (entries_of leaves)).
Proof using OL.
  intros T F Fl. pose proof (visit_range_entries_ok (λ r e, Ok (r ++ [e], true)) h root leaves start stop fuel [] T F Fl) as E.
  rewrite visitR_collect in E. unfold visit_range_entries, range_scan_entries in *.
  destruct (find_leaf_for_key _ _ _ _ _) as [leaf|x]; [|done]. cbn [mbind result_bind] in *. by rewrite E.
Qed.

Lemma stream_leaves_ok rest : ∀ l fuel acc, chain (l :: rest) → Forall (λ l : Leaf, 0 < l.1 < 2 ^ 64) (l :: rest) →
  (length (l :: rest) ≤ fuel)%nat →
  stream_leaves load de_entry fuel l.1 acc = Ok (acc ++ entries_of (l :: rest)).
Proof using.
  induction rest as [|l' rest IH]; intros l fuel acc [(page & pre & bs & Lo & LA & D) C] I F;
    (destruct fuel as [|fuel]; [cbn in F; lia|]); apply Forall_cons in I as [Id I]; cbn [stream_leaves];
    rewrite Lo; cbn [mbind result_bind]; rewrite (leaf_first_byte _ _ _ _ LA); cbn [mbind result_bind];
    rewrite leaf_type_is_leaf; cbn [ensure mbind result_bind].
  all: destruct (leaf_cursor_new_ok de_entry pre page bs _ l.2 LA D) as (c & Ec & CI & Sl & Bu).
  all: assert (R : remaining l.2 c = l.2) by (unfold remaining; by rewrite Bu, Sl).
  all: pose proof (la_next _ _ _ _ LA) as N; apply holds_u64 in N;
    [|unfold u64_ok; try (apply Forall_cons in I as [? _]); lia]; rewrite N; cbn [mbind result_bind];
    rewrite Ec; cbn [mbind result_bind];
    rewrite (drain_ok de_entry pre page bs _ l.2 LA D) by (rewrite ?R, ?(ci_count _ _ _ _ c CI); done || lia);
    rewrite visitR_collect, R; cbn [mbind result_bind]; rewrite (entries_of_cons l).
  - cbn. by rewrite app_nil_r.
  - apply Forall_cons in I as [Id' I']. rewrite (proj2 (Z.eqb_neq _ _)) by lia.
    rewrite IH; [by rewrite <-app_assoc|done|by apply Forall_cons|cbn in F |- *; lia].
Qed.

Lemma stream_all_entries_ok h root leaves fuel : btree h root leaves → (h < fuel)%nat → (length leaves ≤ fuel)%nat →
  stream_all_entries load de_entry fuel root = Ok (entries_of leaves).
Proof using.
  intros [T C I N A] F Fl. unfold stream_all_entries.
  destruct (find_leftmost_leaf_ok h fuel root leaves F T) as (l & rest & -> & ->). cbn [mbind result_bind].
  by apply (stream_leaves_ok rest l fuel []).
Qed.

(** ** The projected visitors *)

Section projected_scans.
Context {Entry S' : Type} (cmp_owned : K → K → comparison) (project : K → Entry).
Hypothesis cmp_owned_cmp : ∀ w k, cmp_owned w k = cmp w k.
Context (visit : S' → Entry * FactRef → result (S' * bool)) (start : K) (stop : option K) (start_leaf : Z).

Lemma projected_leaf_step l rest fuel s :
  leaf_on l (next_of rest) → 0 ≤ next_of rest < 2 ^ 64 → strictly_ascending l.2 →
  ∃ es', (if l.1 =? start_leaf
          then ∃ k, es' = drop k l.2 ∧ lower_bound l.2 start k else es' = l.2) ∧
    projected_leaves load de_entry cmp_owned project (S fuel) start_leaf l.1 start stop visit s =
    ('(s, outcome) ← leaf_outcome visit stop project es' s;
     match outcome with
     | Past => Ok (s, true)
     | Halted => Ok (s, false)
     | Running => if next_of rest =? 0 then Ok (s, true)
                  else projected_leaves load de_entry cmp_owned project fuel start_leaf (next_of rest) start stop visit s
     end).
Proof using OL cmp_owned_cmp.
  intros (page & pre & bs & Lo & LA & D) U A. cbn [projected_leaves]. rewrite Lo. cbn [mbind result_bind].
  rewrite (leaf_header_ok de_entry _ _ _ _ l.2 LA D). cbn [mbind result_bind].
  rewrite (holds_u64 _ _ (next_of rest)) by (exact (la_next _ _ _ _ LA) || done). cbn [mbind result_bind].
  assert (X : ∃ k, (if (l.1 =? start_leaf) && negb (length l.2 =? 0)%nat
                    then projected_seek de_entry cmp_owned page (leaf_type pre) (length l.2) start else Ok O) = Ok k ∧
                   (k ≤ length l.2)%nat ∧ (pre = true → is_restart k = true) ∧
                   (if l.1 =? start_leaf then ∀ i e, (i < k)%nat → l.2 !! i = Some e → cmp e.1 start = Lt else k = O)).
  { destruct (l.1 =? start_leaf); cbn [andb]; [|exists O; split_and!; [done|lia|done|done]].
    destruct (length l.2 =? 0)%nat eqn:Z0; cbn [negb]; [exists O; split_and!; [done|lia|done|lia]|].
    apply Nat.eqb_neq in Z0. by apply (projected_seek_ok de_entry pre page bs _ l.2 LA D A cmp_owned cmp_owned_cmp). }
  destruct X as (k & E & B & Rs & Lo'). rewrite E. cbn [mbind result_bind].
  rewrite (projected_entries_ok de_entry pre page bs _ l.2 LA D cmp_owned project cmp_owned_cmp)
    by (lia || intros ?; left; auto).
  eexists; split; [|reflexivity]. destruct (l.1 =? start_leaf); [|by rewrite Lo'].
  destruct (lower_bound_filter l.2 start A) as (k' & LB & Fi). exists k'. split; [|done]. rewrite <-Fi.
  rewrite <-(take_drop k l.2) at 2. rewrite List.filter_app.
  assert (Z : List.filter (λ e, negb (ltb_ord e.1 start)) (take k l.2) = []).
  { apply filter_none'. intros x Hx. apply list_elem_of_lookup in Hx as (i & X). apply lookup_take_Some in X as [X L].
    apply negb_false_iff, ltb_ord_true. by apply (Lo' i). }
  by rewrite Z.
Qed.

Lemma projected_rest rest : ∀ l fuel s, chain (l :: rest) →
  Forall (λ l : Leaf, 0 < l.1 < 2 ^ 64) (l :: rest) → start_leaf ∉ (fst <$> (l :: rest)) →
  strictly_ascending (entries_of (l :: rest)) → (length (l :: rest) ≤ fuel)%nat →
  projected_leaves load de_entry cmp_owned project fuel start_leaf l.1 start stop visit s =
  visitR visit s (projected_until stop project (entries_of (l :: rest))).
Proof using OL cmp_owned_cmp.
  induction rest as [|l' rest IH]; intros l fuel s Ch Ids Ns A F; (destruct fuel as [|fuel]; [cbn in F; lia|]).
  all: destruct Ch as [On Ch]; apply Forall_cons in Ids as [Id Ids]; rewrite entries_of_cons in A |- *;
    apply ascending_app in A as (A1 & A2 & _); apply not_elem_of_cons in Ns as [Nl Ns].
  - destruct (projected_leaf_step l [] fuel s On) as (es' & E & ->); [cbn; lia|done|].
    rewrite (proj2 (Z.eqb_neq _ _)) in E by congruence. subst es'. by rewrite leaf_then.
  - destruct (projected_leaf_step l (l' :: rest) fuel s On) as (es' & E & ->).
    { apply Forall_cons in Ids as [? _]. cbn. lia. }
    { done. }
    rewrite (proj2 (Z.eqb_neq _ _)) in E by congruence. subst es'. rewrite leaf_then.
    apply Forall_cons in Ids as [Id' Ids']. cbn [next_of]. rewrite (proj2 (Z.eqb_neq _ _)) by lia.
    destruct (leaf_outcome _ _ _ _ _) as [[s' [] ]|x]; cbn [mbind result_bind]; [|done..].
    apply IH; [done|by apply Forall_cons|done|done|cbn in F |- *; lia].
Qed.
End projected_scans.

Lemma visit_current_range_ok {Entry S'} (cmp_owned : K → K → comparison) (project : K → Entry)
    (visit : S' → Entry * FactRef → result (S' * bool)) h root leaves start stop fuel s :
  (∀ w k, cmp_owned w k = cmp w k) →
  btree h root leaves → (h < fuel)%nat → (length leaves ≤ fuel)%nat →
  visit_current_range load de_key de_entry cmp_owned project fuel root start stop visit s =
  visitR visit s (prod_map project id <$> bt_from start stop (entries_of leaves)).
Proof using OL.
  intros Cm T F Fl. destruct (btree_split h root leaves start fuel T F)
    as (L1 & l & L2 & -> & E & B1 & B2 & C & I & N & A). unfold visit_current_range. rewrite E. cbn [mbind result_bind].
  destruct fuel as [|fuel]; [lia|]. destruct C as [On C]. apply Forall_cons in I as [Id I].
  rewrite length_app in Fl. cbn [length] in Fl.
  destruct (projected_leaf_step cmp_owned project Cm visit start stop l.1 l L2 fuel s On) as (es' & W & ->).
  { destruct L2 as [|l2 L2]; cbn; [lia|]. apply Forall_cons in I as [? _]. lia. }
  { rewrite entries_of_cons in A. by apply ascending_app in A as (A & _). }
  rewrite Z.eqb_refl in W. destruct W as (k & -> & LB).
  rewrite (range_split L1 l L2 start stop k (bt_ascending _ _ _ T) B1 B2 LB).
  change (prod_map project id <$> until stop ?x) with (projected_until stop project x). rewrite leaf_then.
  destruct (leaf_outcome _ _ _ _ _) as [[s' [] ]|x]; cbn [mbind result_bind]; [|done..].
  destruct L2 as [|l2 L2]; cbn [next_of]; [done|].
  assert (0 < l2.1) by (apply Forall_cons in I as [? _]; lia). rewrite (proj2 (Z.eqb_neq _ _)) by lia.
  apply projected_rest; [done|done|done|done| |cbn in Fl |- *; lia].
  rewrite entries_of_cons in A. by apply ascending_app in A as (_ & A & _).
Qed.
End tree.
