(* ===== verification/Backends.v ===== *)
(** Page storage (src/src/storage/mod.rs, backend/memory.rs, backend/file.rs):
    the trait [StorageBackend], what its clients rely on, and the in-memory and
    the single-file implementations.

    A file is its bytes: seeking past the end and writing fills the gap with
    zeros.  Errors of the operating system other than a short read are not
    modelled, and [sync] has nothing to do.  The advisory lock is in [FileLock]. *)
From S2P Require Import Prelude Types ValueCodec Index Wal FactStore PackedPages HeaderPage BTreePages.

(** * The trait *)

Class StorageBackend (B : Type) : Type := {
  backend_write_page : B → Z → bytes → result B;
  backend_read_page : B → Z → result bytes;
  backend_page_count : B → result Z;
}.

(** What the builders and readers of data pages rely on; page 0 is the header
    and is written by its own protocol. *)
Class BackendLaws (B : Type) `{StorageBackend B} : Prop := {
  write_page_reads b id page b' : 0 < id → backend_write_page b id page = Ok b' →
    backend_read_page b' id = Ok page;
  write_page_keeps b id page b' j q : 0 < id → backend_write_page b id page = Ok b' → j ≠ id → 0 < j →
    backend_read_page b j = Ok q → backend_read_page b' j = Ok q;
  write_page_accepts b id page : 0 < id < 2 ^ 52 → length page = PAGE_SIZE →
    ∃ b', backend_write_page b id page = Ok b';
}.

Section default_methods.
Context {B : Type} `{StorageBackend B}.

(** [has_complete_page_prefix] as the trait provides it. *)
Fixpoint complete_prefix_from (b : B) (page_id : Z) (todo : nat) : bool :=
  match todo with
  | O => true
  | S todo =>
      match backend_read_page b page_id with
      | Ok page => if (length page =? PAGE_SIZE)%nat then complete_prefix_from b (page_id + 1) todo else false
      | Err _ => false
      end
  end.
Definition has_complete_page_prefix (b : B) (published_page_count : Z) : result bool :=
  Ok (complete_prefix_from b 0 (Z.to_nat published_page_count)).
End default_methods.

(** * Memory *)

Module MemoryBackend.
Record t : Type := mk { pages : gmap Z bytes }.
Definition new : t := mk ∅.

Definition write_page (b : t) (page_id : Z) (data : bytes) : result t :=
  _ ← ensure (length data =? PAGE_SIZE)%nat "Invalid page size";
  Ok (mk (<[page_id := data]> (pages b))).
Definition read_page (b : t) (page_id : Z) : result bytes := ok_or (pages b !! page_id) "Page not found".
Definition page_count (b : t) : result Z := Ok (Z.of_nat (size (pages b))).

(** The override answers from the keys. *)
Fixpoint present_from (b : t) (page_id : Z) (todo : nat) : bool :=
  match todo with
  | O => true
  | S todo =>
      match pages b !! page_id with
      | Some page => (length page =? PAGE_SIZE)%nat && present_from b (page_id + 1) todo
      | None => false
      end
  end.
Definition has_complete_prefix (b : t) (published_page_count : Z) : result bool :=
  Ok (present_from b 0 (Z.to_nat published_page_count)).

#[global] Instance backend : StorageBackend t :=
  {| backend_write_page := write_page; backend_read_page := read_page; backend_page_count := page_count |}.

#[global] Instance laws : BackendLaws t.
Proof.
  split; cbn; unfold write_page, read_page.
  - intros b id page b' _ E. inv_ok. cbn. by rewrite lookup_insert_eq.
  - intros b id page b' j q _ E N _ R. inv_ok. cbn. rewrite lookup_insert_ne by done. by rewrite R.
  - intros b id page _ ->. rewrite Nat.eqb_refl. by eexists.
Qed.
End MemoryBackend.

(** The override agrees with the method it overrides. *)
Lemma memory_prefix_agrees b n :
  MemoryBackend.has_complete_prefix b n = has_complete_page_prefix b n.
Proof.
  unfold MemoryBackend.has_complete_prefix, has_complete_page_prefix. f_equal.
  generalize 0. induction (Z.to_nat n) as [|k IH]; intros id; cbn; [done|].
  unfold MemoryBackend.read_page. destruct (MemoryBackend.pages b !! id) as [p|]; cbn; [|done].
  destruct (length p =? PAGE_SIZE)%nat; cbn; [apply IH|done].
Qed.

(** * One file *)

(** [seek] and [write_all]. *)
Definition file_write (file : bytes) (off : nat) (data : bytes) : bytes :=
  take off (file ++ replicate (off - length file) (z2b 0)) ++ data ++ drop (off + length data) file.
(** [seek] and [read_exact]. *)
Definition file_read (file : bytes) (off len : nat) : result bytes :=
  ok_or (get_range file off (off + len)) "failed to fill whole buffer".

Module FileBackend.
Record t : Type := mk { file : bytes; header : FileHeader.t; is_new : bool }.

Definition with_page_count (h : FileHeader.t) (n : Z) : FileHeader.t :=
  FileHeader.mk (FileHeader.magic h) (FileHeader.version h) n (FileHeader.node_count h)
    (FileHeader.last_checkpointed_tx_count h) (FileHeader.eavt_root_page h) (FileHeader.aevt_root_page h)
    (FileHeader.avet_root_page h) (FileHeader.vaet_root_page h) (FileHeader.index_checksum h)
    (FileHeader.fact_page_format h) (FileHeader.padding h) (FileHeader.fact_page_count h)
    (FileHeader.header_checksum h).

Definition page_offset (page_id : Z) : result nat :=
  off ← ok_or (checked_mul_u64 page_id (Z.of_nat PAGE_SIZE)) "page offset overflow";
  Ok (Z.to_nat off).

Definition write_page (b : t) (page_id : Z) (data : bytes) : result t :=
  _ ← ensure (length data =? PAGE_SIZE)%nat "Invalid page size";
  offset ← page_offset page_id;
  let file' := file_write (file b) offset data in
  if page_id =? 0 then
    header' ← FileHeader.from_bytes data;
    Ok (mk file' header' (is_new b))
  else if FileHeader.page_count (header b) <=? page_id then
    count ← ok_or (checked_add_u64 page_id 1) "page_count overflow";
    Ok (mk file' (with_page_count (header b) count) (is_new b))
  else Ok (mk file' (header b) (is_new b)).

Definition read_page (b : t) (page_id : Z) : result bytes :=
  _ ← ensure (page_id <? FileHeader.page_count (header b)) "Page out of bounds";
  offset ← page_offset page_id;
  file_read (file b) offset PAGE_SIZE.

Definition page_count (b : t) : result Z := Ok (FileHeader.page_count (header b)).

Definition has_complete_prefix (b : t) (published_page_count : Z) : result bool :=
  required_len ← ok_or (checked_mul_u64 published_page_count (Z.of_nat PAGE_SIZE))
                   "published database byte length overflow";
  Ok (required_len <=? Z.of_nat (length (file b))).

Definition read_header (file : bytes) : result FileHeader.t :=
  header_bytes ← file_read file 0 PAGE_SIZE;
  header ← FileHeader.from_bytes header_bytes;
  _ ← FileHeader.validate header;
  Ok header.

Section open.
Context (crc32 : bytes → Z).
Definition write_header (file : bytes) (h : FileHeader.t) : result bytes :=
  page ← build_header_page crc32 h;
  Ok (file_write file 0 page).

(** [open] once the lock is held, on the bytes of the file it finds or creates. *)
Definition open (file : bytes) : result t :=
  let is_new := (length file =? 0)%nat in
  if (PAGE_SIZE <=? length file)%nat then
    match read_header file with
    | Ok header => Ok (mk file header is_new)
    | Err _ => Err "Failed to read header from existing file"
    end
  else if is_new then
    file ← write_header file FileHeader.new;
    Ok (mk file FileHeader.new is_new)
  else Err "Existing database is truncated".
End open.

(** The bytes [copy_published_image_to] copies. *)
Definition copy_published_image (b : t) : result bytes :=
  published ← read_header (file b);
  byte_len ← ok_or (checked_mul_u64 (FileHeader.page_count published) (Z.of_nat PAGE_SIZE))
               "published database byte length overflow";
  let copied := take (Z.to_nat byte_len) (file b) in
  _ ← ensure (Z.of_nat (length copied) =? byte_len) "Published database image is truncated";
  Ok copied.

#[global] Instance backend : StorageBackend t :=
  {| backend_write_page := write_page; backend_read_page := read_page; backend_page_count := page_count |}.
End FileBackend.

(** ** Bytes of the file *)

Lemma length_file_write file off data :
  length (file_write file off data) = Nat.max (length file) (off + length data).
Proof.
  unfold file_write. rewrite !length_app, length_take, length_app, length_replicate, length_drop. lia.
Qed.

Lemma file_write_reads file off data : holds (file_write file off data) off data.
Proof.
  apply holds_lookup. rewrite length_file_write. split; [lia|]. intros i Hi. unfold file_write.
  rewrite lookup_app_r by (rewrite length_take, length_app, length_replicate; lia).
  rewrite length_take, length_app, length_replicate, Nat.min_l by lia.
  rewrite lookup_app_l by lia. f_equal. lia.
Qed.

Lemma file_write_keeps file off data off2 bs : holds file off2 bs →
  (off2 + length bs ≤ off ∨ off + length data ≤ off2)%nat → holds (file_write file off data) off2 bs.
Proof.
  intros (L & E)%holds_lookup D. apply holds_lookup. rewrite length_file_write. split; [lia|].
  intros i Hi. rewrite <-E by done. unfold file_write. destruct D as [D|D].
  - rewrite lookup_app_l by (rewrite length_take, length_app, length_replicate; lia).
    rewrite lookup_take_lt by lia. by rewrite lookup_app_l by lia.
  - rewrite lookup_app_r by (rewrite length_take, length_app, length_replicate; lia).
    rewrite length_take, length_app, length_replicate, Nat.min_l by lia.
    rewrite lookup_app_r by lia. rewrite lookup_drop. f_equal. lia.
Qed.

Lemma file_read_holds file off len bs : file_read file off len = Ok bs ↔ length bs = len ∧ holds file off bs.
Proof.
  unfold file_read, holds. split.
  - intros E. inv_ok. pose proof (get_range_length _ _ _ _ E) as L. replace (off + len - off)%nat with len in L by lia.
    split; [done|]. by rewrite L.
  - intros [<- ->]. done.
Qed.

Lemma page_offset_Ok id off : FileBackend.page_offset id = Ok off ↔
  id * 4096 < 2 ^ 64 ∧ off = Z.to_nat (id * 4096).
Proof.
  unfold FileBackend.page_offset, checked_mul_u64, u64_MAX. rewrite PAGE_SIZE_val.
  destruct (id * 4096 <=? 2 ^ 64 - 1) eqn:C; cbn; [apply Z.leb_le in C|apply Z.leb_gt in C].
  - split; [intros [= <-]; split; [lia|done]|by intros [_ ->]].
  - split; [done|lia].
Qed.

(** Pages do not overlap. *)
Lemma page_offset_disjoint i j a b : 0 ≤ i → 0 ≤ j → i ≠ j →
  FileBackend.page_offset i = Ok a → FileBackend.page_offset j = Ok b →
  (a + PAGE_SIZE ≤ b ∨ b + PAGE_SIZE ≤ a)%nat.
Proof. intros Hi Hj N [_ ->]%page_offset_Ok [_ ->]%page_offset_Ok. pose proof PAGE_SIZE_val. lia. Qed.

#[export] Instance file_backend_laws : BackendLaws FileBackend.t.
Proof.
  split; cbn; unfold FileBackend.write_page, FileBackend.read_page.
  - intros b id page b' P E. apply bind_Ok in E as (u & L & E). apply ensure_Ok, Nat.eqb_eq in L.
    apply bind_Ok in E as (off & O & E). rewrite (proj2 (Z.eqb_neq _ _)) in E by lia.
    assert (R : file_read (file_write (FileBackend.file b) off page) off PAGE_SIZE = Ok page)
      by (apply file_read_holds; split; [done|apply file_write_reads]).
    destruct (_ <=? id) eqn:C; inv_ok; cbn [FileBackend.header FileBackend.file FileBackend.with_page_count FileHeader.page_count].
    + unfold checked_add_u64 in *. case_match; simplify_eq. rewrite (proj2 (Z.ltb_lt _ _)) by lia.
      cbn [ensure mbind result_bind]. by rewrite O.
    + apply Z.leb_gt in C. rewrite (proj2 (Z.ltb_lt _ _)) by lia. cbn [ensure mbind result_bind]. by rewrite O.
  - intros b id page b' j q P E N Pj R. apply bind_Ok in E as (u & L & E). apply ensure_Ok, Nat.eqb_eq in L.
    apply bind_Ok in E as (off & O & E). rewrite (proj2 (Z.eqb_neq _ _)) in E by lia.
    apply bind_Ok in R as (u' & Lt' & R). apply ensure_Ok, Z.ltb_lt in Lt'. apply bind_Ok in R as (offj & Oj & R).
    apply file_read_holds in R as [Lq R].
    assert (R' : file_read (file_write (FileBackend.file b) off page) offj PAGE_SIZE = Ok q).
    { apply file_read_holds. split; [done|]. apply file_write_keeps; [done|]. rewrite L, Lq.
      destruct (page_offset_disjoint id j off offj); [lia..|done|done|lia|lia]. }
    destruct (_ <=? id) eqn:C; inv_ok; cbn [FileBackend.header FileBackend.file FileBackend.with_page_count FileHeader.page_count].
    + unfold checked_add_u64 in *. case_match; simplify_eq. apply Z.leb_le in C.
      rewrite (proj2 (Z.ltb_lt _ _)) by lia. cbn [ensure mbind result_bind]. by rewrite Oj.
    + rewrite (proj2 (Z.ltb_lt _ _)) by lia. cbn [ensure mbind result_bind]. by rewrite Oj.
  - intros b id page P ->. rewrite Nat.eqb_refl. cbn [ensure mbind result_bind].
    assert (O : FileBackend.page_offset id = Ok (Z.to_nat (id * 4096))) by (apply page_offset_Ok; split; [lia|done]).
    rewrite O. cbn [mbind result_bind]. rewrite (proj2 (Z.eqb_neq _ _)) by lia. destruct (_ <=? id); [|by eexists].
    unfold checked_add_u64, u64_MAX. rewrite (proj2 (Z.leb_le _ _)) by lia. by eexists.
Qed.

(** ** Publication through page 0 *)

Definition write_pages (b : FileBackend.t) (ws : list (Z * bytes)) : result FileBackend.t :=
  foldR (λ b '(id, page), FileBackend.write_page b id page) b ws.

Lemma file_write_page_Ok b id page b' : FileBackend.write_page b id page = Ok b' →
  length page = PAGE_SIZE ∧ ∃ off, FileBackend.page_offset id = Ok off ∧
    FileBackend.file b' = file_write (FileBackend.file b) off page.
Proof.
  unfold FileBackend.write_page. intros E. apply bind_Ok in E as (u & L & E). apply ensure_Ok, Nat.eqb_eq in L.
  apply bind_Ok in E as (off & O & E). split; [done|]. exists off. split; [done|].
  repeat case_match; inv_ok; done.
Qed.

(** Bytes below the first page written stay. *)
Lemma write_pages_prefix ws : ∀ b b' image n,
  holds (FileBackend.file b) 0 image → Z.of_nat (length image) = n * 4096 → 0 ≤ n →
  Forall (λ w : Z * bytes, n ≤ w.1) ws → write_pages b ws = Ok b' → holds (FileBackend.file b') 0 image.
Proof.
  induction ws as [|[id page] ws IH]; intros b b' image n H L P F E; cbn in E; [by inv_ok|].
  apply bind_Ok in E as (b1 & E1 & E). apply Forall_cons in F as [F1 F]. cbn in F1.
  apply file_write_page_Ok in E1 as (Lp & off & [O ->]%page_offset_Ok & Ef).
  eapply IH; [|exact L|done|done|exact E]. rewrite Ef. apply file_write_keeps; [done|]. left. lia.
Qed.

Lemma holds_prefix file bs n : holds file 0 bs → (n ≤ length bs)%nat → holds file 0 (take n bs).
Proof. intros H L. rewrite <-(take_drop n bs) in H. by apply holds_app in H as [H _]. Qed.

Lemma read_header_image file image : holds file 0 image → (PAGE_SIZE ≤ length image)%nat →
  FileBackend.read_header file = FileBackend.read_header image.
Proof.
  intros H L. unfold FileBackend.read_header.
  assert (R : ∀ f, holds f 0 image → file_read f 0 PAGE_SIZE = Ok (take PAGE_SIZE image)).
  { intros f Hf. apply file_read_holds. rewrite length_take. split; [lia|by apply holds_prefix]. }
  rewrite !R; [done| |done]. by apply holds_lookup.
Qed.

Lemma published_image_ok b image : FileBackend.copy_published_image b = Ok image →
  ∃ h, FileBackend.read_header (FileBackend.file b) = Ok h ∧ holds (FileBackend.file b) 0 image ∧
    Z.of_nat (length image) = FileHeader.page_count h * 4096 ∧ 1 ≤ FileHeader.page_count h.
Proof.
  unfold FileBackend.copy_published_image. intros E. apply bind_Ok in E as (h & R & E). exists h. split; [done|].
  apply bind_Ok in E as (n & N & E). apply ok_or_Ok in N. apply bind_Ok in E as (u & L & E).
  apply ensure_Ok, Z.eqb_eq in L. apply Ok_inj in E as <-. rewrite PAGE_SIZE_val in N.
  unfold checked_mul_u64 in N. case_match eqn:C; [|done]. simplify_eq. rewrite L.
  split; [|split; [done|]].
  - apply holds_lookup. rewrite length_take. split; [lia|]. intros i Hi. by rewrite lookup_take_lt by lia.
  - assert (0 ≤ FileHeader.page_count h) by lia.
    destruct (decide (FileHeader.page_count h = 0)) as [Z0|]; [exfalso|lia].
    unfold FileBackend.read_header in R. inv_ok. unfold FileHeader.validate in *. inv_ok.
    repeat match goal with H : negb _ = true |- _ => apply negb_true_iff, Z.eqb_neq in H end. done.
Qed.

Lemma published_image_of b image h : holds (FileBackend.file b) 0 image →
  FileBackend.read_header (FileBackend.file b) = Ok h → 0 ≤ FileHeader.page_count h →
  Z.of_nat (length image) = FileHeader.page_count h * 4096 → FileHeader.page_count h * 4096 < 2 ^ 64 →
  FileBackend.copy_published_image b = Ok image.
Proof.
  intros H R P L B. unfold FileBackend.copy_published_image. rewrite R. cbn [mbind result_bind].
  rewrite PAGE_SIZE_val. unfold checked_mul_u64, u64_MAX. rewrite (proj2 (Z.leb_le _ _)) by lia.
  cbn [ok_or mbind result_bind]. unfold holds in H. apply get_range_Some in H as (_ & Hl & Hi).
  rewrite <-L, Nat2Z.id. rewrite Nat.add_0_l, Nat.sub_0_r in Hi. rewrite drop_0 in Hi. rewrite <-Hi.
  by rewrite Z.eqb_refl.
Qed.

(** Data pages written after the published ones do not disturb the image. *)
Lemma unpublished_invisible b image h ws b' :
  FileBackend.copy_published_image b = Ok image → FileBackend.read_header (FileBackend.file b) = Ok h →
  Forall (λ w : Z * bytes, FileHeader.page_count h ≤ w.1) ws → write_pages b ws = Ok b' →
  FileBackend.copy_published_image b' = Ok image ∧ FileBackend.read_header (FileBackend.file b') = Ok h.
Proof.
  intros I R F E. pose proof I as I'. apply published_image_ok in I as (h' & R' & H & L & P).
  rewrite R in R'. apply Ok_inj in R' as <-. pose proof PAGE_SIZE_val.
  assert (H' : holds (FileBackend.file b') 0 image) by (eapply write_pages_prefix; [exact H|exact L|lia|done|done]).
  assert (R2 : FileBackend.read_header (FileBackend.file b') = Ok h).
  { rewrite (read_header_image _ image H') by lia. by rewrite <-(read_header_image _ image H) by lia. }
  split; [|done]. apply published_image_of with h; [done|done|lia|done|].
  unfold FileBackend.copy_published_image in I'. rewrite R in I'. cbn [mbind result_bind] in I'.
  rewrite PAGE_SIZE_val in I'. unfold checked_mul_u64, u64_MAX in I'. case_match eqn:C; [|done]. lia.
Qed.

(** The pages written last are what the file holds at their places. *)
Lemma write_pages_holds ws : ∀ b b' id page, NoDup ws.*1 → Forall (λ w : Z * bytes, 0 < w.1) ws →
  write_pages b ws = Ok b' → (id, page) ∈ ws →
  ∃ off, FileBackend.page_offset id = Ok off ∧ length page = PAGE_SIZE ∧ holds (FileBackend.file b') off page.
Proof.
  induction ws as [|[i p] ws IH]; intros b b' id page N F E X; [by apply elem_of_nil in X|].
  cbn in E, N. apply bind_Ok in E as (b1 & E1 & E). apply NoDup_cons in N as [Ni N].
  apply Forall_cons in F as [Fi F]. apply elem_of_cons in X as [X|X]; [|by eapply IH].
  simplify_eq. apply file_write_page_Ok in E1 as (L & off & O & Ef). exists off. split; [done|]. split; [done|].
  assert (H : holds (FileBackend.file b1) off p) by (rewrite Ef; apply file_write_reads).
  clear IH Ef. cbn in Fi. revert b1 H E. induction ws as [|[j q] ws IH]; intros b1 H E; cbn in E; [by inv_ok|].
  apply bind_Ok in E as (b2 & E2 & E). cbn in Ni, N. apply NoDup_cons in N as [_ N].
  apply not_elem_of_cons in Ni as [Nj Ni]. apply Forall_cons in F as [Fj F]. cbn in Fj.
  apply (IH Ni N F b2); [|done]. apply file_write_page_Ok in E2 as (L2 & off2 & O2 & ->).
  apply file_write_keeps; [done|]. rewrite L, L2.
  destruct (page_offset_disjoint i j off off2); [lia..|done|done|lia|lia].
Qed.

(** C11: Page 0 is the commit point of the file.  Pages are written whole.  While a
    checkpoint writes pages beyond the published ones, each once, every intermediate file reopens with the old
    header and yields the old image byte for byte; once the header page is
    written the file reopens with the new header, and the pages written before
    it are read back. *)
Theorem publication_commits crc32 b image h ws b1 page0 h1 :
  FileBackend.copy_published_image b = Ok image →
  FileBackend.read_header (FileBackend.file b) = Ok h →
  Forall (λ w : Z * bytes, FileHeader.page_count h ≤ w.1) ws → NoDup ws.*1 →
  write_pages b ws = Ok b1 →
  length page0 = PAGE_SIZE → FileHeader.from_bytes page0 = Ok h1 → FileHeader.validate h1 = Ok () →
  (∀ k bk, write_pages b (take k ws) = Ok bk →
     FileBackend.copy_published_image bk = Ok image ∧
     FileBackend.open crc32 (FileBackend.file bk) = Ok (FileBackend.mk (FileBackend.file bk) h false)) ∧
  ∃ b2, FileBackend.write_page b1 0 page0 = Ok b2 ∧
    FileBackend.open crc32 (FileBackend.file b2) = Ok (FileBackend.mk (FileBackend.file b2) h1 false) ∧
    ∀ id page, (id, page) ∈ ws → id < FileHeader.page_count h1 → FileBackend.read_page b2 id = Ok page.
Proof.
  intros I R F N E L0 P0 V. pose proof PAGE_SIZE_val as PS.
  assert (Op : ∀ bx hx, (PAGE_SIZE ≤ length (FileBackend.file bx))%nat →
            FileBackend.read_header (FileBackend.file bx) = Ok hx →
            FileBackend.open crc32 (FileBackend.file bx) = Ok (FileBackend.mk (FileBackend.file bx) hx false)).
  { intros bx hx Lx Rx. unfold FileBackend.open. rewrite (proj2 (Nat.leb_le _ _) Lx), Rx.
    by rewrite (proj2 (Nat.eqb_neq _ _)) by lia. }
  assert (Ln : ∀ f hx, FileBackend.read_header f = Ok hx → (PAGE_SIZE ≤ length f)%nat).
  { intros f hx Rx. unfold FileBackend.read_header in Rx. apply bind_Ok in Rx as (hb & Rx & _).
    apply file_read_holds in Rx as [Lb Rx]. apply page_holds_length in Rx. lia. }
  assert (P1 : 1 ≤ FileHeader.page_count h).
  { apply published_image_ok in I as (h' & R' & _ & _ & P). rewrite R in R'. apply Ok_inj in R' as <-. done. }
  split.
  - intros k bk Ek. destruct (unpublished_invisible b image h (take k ws) bk) as [I' R']; [done|done| |done|].
    { by apply Forall_take. }
    split; [done|]. apply Op; [by eapply Ln|done].
  - assert (W : ∃ b2, FileBackend.write_page b1 0 page0 = Ok b2 ∧
                  FileBackend.file b2 = file_write (FileBackend.file b1) 0 page0 ∧ FileBackend.header b2 = h1).
    { unfold FileBackend.write_page. rewrite L0, Nat.eqb_refl. cbn [ensure mbind result_bind].
      replace (FileBackend.page_offset 0) with (Ok O) by done. cbn [mbind result_bind Z.eqb]. rewrite P0.
      cbn [mbind result_bind]. by eexists. }
    destruct W as (b2 & E2 & Ef & Eh). exists b2. split; [done|].
    assert (H0 : holds (FileBackend.file b2) 0 page0) by (rewrite Ef; apply file_write_reads).
    assert (R2 : FileBackend.read_header (FileBackend.file b2) = Ok h1).
    { unfold FileBackend.read_header. rewrite (proj2 (file_read_holds _ _ _ page0)) by done.
      cbn [mbind result_bind]. rewrite P0. cbn [mbind result_bind]. by rewrite V. }
    split; [apply Op; [by eapply Ln|done]|]. intros id page X Lt'.
    assert (Fp : Forall (λ w : Z * bytes, 0 < w.1) ws) by (eapply Forall_impl; [exact F|]; cbn; intros; lia).
    destruct (write_pages_holds ws b b1 id page N Fp E X) as (off & O & Lp & H).
    rewrite Forall_forall in Fp. specialize (Fp _ X). cbn in Fp.
    unfold FileBackend.read_page. rewrite Eh, (proj2 (Z.ltb_lt _ _) Lt'). cbn [ensure mbind result_bind].
    rewrite O. cbn [mbind result_bind]. apply file_read_holds. split; [done|]. rewrite Ef.
    apply file_write_keeps; [done|]. rewrite L0. right. apply page_offset_Ok in O as [_ ->]. lia.
Qed.

(** A database with one page appended and published. *)
Definition demo_crc (bs : bytes) : Z := 0.
Definition demo_file : result FileBackend.t := FileBackend.open demo_crc [].
Definition demo_backend : FileBackend.t :=
  match demo_file with Ok b => b | Err _ => FileBackend.mk [] FileHeader.new true end.
Definition demo_data : bytes := replicate PAGE_SIZE (z2b 7).
Definition demo_header : FileHeader.t := FileBackend.with_page_count FileHeader.new 2.
Definition demo_page0 : bytes := match build_header_page demo_crc demo_header with Ok p => p | Err _ => [] end.
Definition demo_written : FileBackend.t :=
  match write_pages demo_backend [(1, demo_data)] with Ok b => b | Err _ => demo_backend end.

Lemma publication_commits_witness :
  ∃ b2, FileBackend.write_page demo_written 0 demo_page0 = Ok b2 ∧
    FileBackend.open demo_crc (FileBackend.file b2) = Ok (FileBackend.mk (FileBackend.file b2) demo_header false) ∧
    ∀ id page, (id, page) ∈ [(1, demo_data)] → id < 2 → FileBackend.read_page b2 id = Ok page.
Proof.
  assert (W : write_pages demo_backend [(1, demo_data)] = Ok demo_written) by (vm_compute; reflexivity).
  pose proof (publication_commits demo_crc demo_backend (FileBackend.file demo_backend) FileHeader.new
                [(1, demo_data)] demo_written demo_page0 demo_header) as T.
  destruct T as [_ T]; [vm_compute; reflexivity|vm_compute; reflexivity| | |exact W|vm_compute; reflexivity..|exact T].
  - apply Forall_cons. split; [cbn; lia|by apply Forall_nil].
  - apply NoDup_singleton.
Defined.
