(* ===== verification/BTreeBuild.v ===== *)
(** Building the on-disk B+trees (src/src/storage/btree_v6.rs): entries are packed
    into leaves in order, the leaves are linked, and internal levels are put on
    top until one page is left.

    The backend and the cache are threaded through; a page is written to both.
    An error abandons the build, so the state is returned only with a result.
    The build is shown to return a tree whose leaves hold exactly the entries,
    under the conditions its size tests leave open: every entry and every key
    fits on a page, and the fill target leaves eight bytes free. *)
From S2P Require Import Prelude Types ValueCodec Index Wal FactStore PackedPages Cache BTreePages Lookup BTreeScan HeaderPage Backends.

(** * Definitions *)

Section build.
Context {B : Type} `{StorageBackend B}.

Record Disk : Type := mkDisk { dk_backend : B; dk_cache : CacheInner }.

(** [backend.write_page(id, &page)?; cache.put_dirty(id, page)]. *)
Definition write_both (d : Disk) (page_id : Z) (page : bytes) : result Disk :=
  b ← backend_write_page (dk_backend d) page_id page;
  Ok (mkDisk b (put_dirty (dk_cache d) page_id page)).

Definition write_leaf_page (d : Disk) (page_id : Z) (entries : list bytes) (next_leaf : Z) : result Disk :=
  page ← leaf_page entries next_leaf;
  write_both d page_id page.
Definition write_internal_page (d : Disk) (page_id : Z) (child_ids : list Z) (sep_bytes : list bytes) : result Disk :=
  page ← internal_page child_ids sep_bytes;
  write_both d page_id page.

(** ** Leaves *)

Record Packing : Type := mkPacking {
  pk_disk : Disk;
  pk_infos : list (Z * bytes);
  pk_cur : list bytes;
  pk_raw : nat;
  pk_prefix : nat;
  pk_first_key : option bytes;
  pk_next : Z;
}.

(** Write the current leaf and start the next one. *)
Definition flush_leaf (p : Packing) : result Packing :=
  d ← write_leaf_page (pk_disk p) (pk_next p) (pk_cur p) 0;
  first_key ← ok_or (pk_first_key p) "BUG: cur_first_key empty when writing leaf page";
  Ok (mkPacking d (pk_infos p ++ [(pk_next p, first_key)]) [] 0 0 None (pk_next p + 1)).

Section packing.
Context {K' : Type} (serialize_first_key : K' → result bytes) (page_fill_bytes : nat).

Definition pack_entry (p : Packing) (item : result (bytes * K')) : result Packing :=
  '(entry, key) ← item;
  '(_, _, prefix_entry_len) ← prefix_record_layout (last (pk_cur p)) (length (pk_cur p)) entry;
  let projected := (LEAF_HEADER_SIZE + (length (pk_cur p) + 1) * SLOT_SIZE
                    + (pk_raw p + length entry) `min` (pk_prefix p + prefix_entry_len))%nat in
  let empty := (length (pk_cur p) =? 0)%nat in
  _ ← ensure (negb ((PAGE_SIZE <? projected)%nat && empty)) "B-tree leaf entry does not fit in one page";
  p ← (if (page_fill_bytes <? projected)%nat && negb empty then flush_leaf p else Ok p);
  first_key ← match pk_first_key p with Some k => Ok k | None => serialize_first_key key end;
  '(_, _, prefix_entry_len) ← prefix_record_layout (last (pk_cur p)) (length (pk_cur p)) entry;
  Ok (mkPacking (pk_disk p) (pk_infos p) (pk_cur p ++ [entry]) (pk_raw p + length entry)
        (pk_prefix p + prefix_entry_len) (Some first_key) (pk_next p)).
End packing.

(** Link every leaf to the one after it. *)
Fixpoint patch_next_leaf (d : Disk) (infos : list (Z * bytes)) : result Disk :=
  match infos with
  | [] => Ok d
  | (pid, _) :: rest =>
      match rest with
      | [] => Ok d
      | (next_lid, _) :: _ =>
          '(c, page) ← get_or_load (backend_read_page (dk_backend d)) (dk_cache d) pid;
          page ← ok_or (write_at page 4 (to_le_bytes 8 next_lid)) "page too small to write next_leaf";
          d ← write_both (mkDisk (dk_backend d) c) pid page;
          patch_next_leaf d rest
      end
  end.

(** ** Internal levels *)

(** Children taken for one node: the loop that adds separators. *)
Fixpoint fill_node (page_fill_bytes : nat) (child_ids : list Z) (sep_bytes : list bytes) (sep_data_bytes : nat)
    (level : list (Z * bytes)) : result (list Z * list bytes * list (Z * bytes)) :=
  match level with
  | [] => Ok (child_ids, sep_bytes, [])
  | (id, sep) :: level' =>
      let projected := (INTERNAL_HEADER_SIZE + (length child_ids - 1) * 8 + (length sep_bytes + 1) * SLOT_SIZE
                        + sep_data_bytes + length sep)%nat in
      let first := (length sep_bytes =? 0)%nat in
      _ ← ensure (negb ((PAGE_SIZE <? projected)%nat && first)) "B-tree separator does not fit in one page";
      if (page_fill_bytes <? projected)%nat && negb first then Ok (child_ids, sep_bytes, level)
      else fill_node page_fill_bytes (child_ids ++ [id]) (sep_bytes ++ [sep]) (sep_data_bytes + length sep) level'
  end.

(** One level: nodes over [level], with the first key of each. *)
Fixpoint build_level (fuel : nat) (page_fill_bytes : nat) (d : Disk) (next_page : Z) (level : list (Z * bytes))
    : result (Disk * Z * list (Z * bytes)) :=
  match level with
  | [] => Ok (d, next_page, [])
  | (id, first_key) :: level =>
      match fuel with
      | O => Err "out of fuel"
      | S fuel =>
          '(child_ids, sep_bytes, rest) ← fill_node page_fill_bytes [id] [] 0 level;
          d ← write_internal_page d next_page child_ids sep_bytes;
          '(d, next, nodes) ← build_level fuel page_fill_bytes d (next_page + 1) rest;
          Ok (d, next, (next_page, first_key) :: nodes)
      end
  end.

Fixpoint build_levels (fuel : nat) (page_fill_bytes : nat) (d : Disk) (next_page : Z) (level : list (Z * bytes))
    : result (Disk * (Z * Z)) :=
  match level with
  | [(root, _)] => Ok (d, (root, next_page))
  | _ =>
      match fuel with
      | O => Err "out of fuel"
      | S fuel =>
          '(d, next_page, level) ← build_level (length level) page_fill_bytes d next_page level;
          build_levels fuel page_fill_bytes d next_page level
      end
  end.

Definition build_btree_serialized_results {K'} (sorted_entries : list (result (bytes * K')))
    (serialize_first_key : K' → result bytes) (d : Disk) (start_page_id : Z) (options : BtreeBuildOptions)
    : result (Disk * (Z * Z)) :=
  let page_fill_bytes := fill_bytes options in
  p ← foldR (pack_entry serialize_first_key page_fill_bytes)
        (mkPacking d [] [] 0 0 None start_page_id) sorted_entries;
  if (length (pk_cur p) =? 0)%nat && (length (pk_infos p) =? 0)%nat then
    d ← write_leaf_page (pk_disk p) (pk_next p) [] 0;
    Ok (d, (pk_next p, pk_next p + 1))
  else
    p ← (if (length (pk_cur p) =? 0)%nat then Ok p else flush_leaf p);
    d ← patch_next_leaf (pk_disk p) (pk_infos p);
    build_levels (length (pk_infos p)) page_fill_bytes d (pk_next p) (pk_infos p).

(** The entry points differ in who serialises the keys. *)
Definition build_btree_with_options (sorted_entries : list (bytes * bytes)) (d : Disk) (start_page_id : Z)
    (options : BtreeBuildOptions) : result (Disk * (Z * Z)) :=
  build_btree_serialized_results (Ok <$> sorted_entries) Ok d start_page_id options.
Definition build_btree (sorted_entries : list (bytes * bytes)) (d : Disk) (start_page_id : Z)
    : result (Disk * (Z * Z)) :=
  build_btree_with_options sorted_entries d start_page_id build_options_default.

Section keyed.
Context {K : Type} (ser_entry : K * FactRef → result bytes) (ser_key : K → result bytes).

Definition btree_entries (l : list (K * FactRef)) : result (list (bytes * bytes)) :=
  mapR (λ e, entry_bytes ← ser_entry e; key_bytes ← ser_key e.1; Ok (entry_bytes, key_bytes)) l.

Definition build_btree_from_key_entries (sorted_entries : list (K * FactRef)) (d : Disk) (start_page_id : Z)
    (options : BtreeBuildOptions) : result (Disk * (Z * Z)) :=
  build_btree_serialized_results
    ((λ e, entry_bytes ← ser_entry e; Ok (entry_bytes, e.1)) <$> sorted_entries)
    ser_key d start_page_id options.
End keyed.
End build.
Arguments Disk : clear implicits.

(** [merge_sorted_iters]: ties take the left. *)
Fixpoint merge_sorted_iters {T} `{Ord T} (a : list T) : list T → list T :=
  fix merge_b (b : list T) : list T :=
    match a, b with
    | x :: a', y :: b' => if match cmp x y with Gt => false | _ => true end
                          then x :: merge_sorted_iters a' b else y :: merge_b b'
    | _ :: _, [] => a
    | [], _ => b
    end.

(** * The disk *)

Section disk.
Context {B : Type} `{BL : BackendLaws B}.

Definition read (d : Disk B) : Z → result bytes := backend_read_page (dk_backend d).

Record disk_ok (d : Disk B) : Prop := {
  do_cache : cache_ok (dk_cache d);
  do_coherent : coherent (read d) (dk_cache d);
  do_ids : ∀ id e, entries (dk_cache d) !! id = Some e → 0 < id;
}.

(** The pages below [n], and what a later state keeps of them. *)
Definition below (n : Z) (d : Disk B) (id : Z) : result bytes := if (0 <? id) && (id <? n) then read d id else Err "".
Definition extends (f g : Z → result bytes) : Prop := ∀ id q, f id = Ok q → g id = Ok q.

Lemma extends_refl f : extends f f.
Proof using. by intros id q. Qed.
Lemma extends_trans f g h : extends f g → extends g h → extends f h.
Proof using. intros A C id q E. by apply C, A. Qed.
Lemma below_read n d : extends (below n d) (read d).
Proof using. unfold below. intros id q. by destruct (_ && _). Qed.
Lemma below_mono m n d : m ≤ n → extends (below m d) (below n d).
Proof using.
  unfold below. intros L id q. destruct ((0 <? id) && (id <? m)) eqn:C; [|done].
  apply andb_true_iff in C as [C1%Z.ltb_lt C2%Z.ltb_lt]. by rewrite (proj2 (Z.ltb_lt _ _) C1), (proj2 (Z.ltb_lt _ _)) by lia.
Qed.
Lemma below_Ok n d id q : below n d id = Ok q ↔ 0 < id < n ∧ read d id = Ok q.
Proof using.
  unfold below. destruct (0 <? id) eqn:C1, (id <? n) eqn:C2; cbn; rewrite ?Z.ltb_lt, ?Z.ltb_ge in *; split;
    (done || (intros; split; [lia|done]) || (intros [? ?]; done || lia)).
Qed.

Lemma write_both_ok d id page : disk_ok d → 0 < id < 2 ^ 52 → length page = PAGE_SIZE →
  ∃ d', write_both d id page = Ok d' ∧ disk_ok d' ∧ read d' id = Ok page ∧
    (∀ j q, j ≠ id → 0 < j → read d j = Ok q → read d' j = Ok q).
Proof using BL.
  intros [C Co I] P L. unfold write_both, read.
  destruct (write_page_accepts (dk_backend d) id page P L) as [b' E]. rewrite E. cbn [mbind result_bind].
  destruct (put_dirty_ok (dk_cache d) id page C) as (C' & _ & Ei & Ej).
  assert (W : backend_read_page b' id = Ok page) by (eapply write_page_reads; [|exact E]; lia).
  eexists; split; [done|]. cbn [dk_backend]. split; [|split; [done|]].
  - split; cbn; [done| |].
    + intros j e Le. unfold read. cbn. destruct (decide (j = id)) as [->|N].
      * rewrite Ei in Le. by simplify_eq.
      * pose proof (Ej j e N Le) as Lj. eapply write_page_keeps; [|exact E|done| |by apply (Co j e)]; [lia|].
        by eapply I.
    + intros j e Le. destruct (decide (j = id)) as [->|N]; [lia|]. eapply I. by eapply Ej.
  - intros j q N Pj R. eapply write_page_keeps; [|exact E|done..]. lia.
Qed.

(** Appending a page keeps the pages below it. *)
Lemma write_both_append d id page : disk_ok d → 0 < id < 2 ^ 52 → length page = PAGE_SIZE →
  ∃ d', write_both d id page = Ok d' ∧ disk_ok d' ∧ read d' id = Ok page ∧ extends (below id d) (below id d').
Proof using BL.
  intros O P L. destruct (write_both_ok d id page O P L) as (d' & E & O' & R & F). exists d'.
  split_and!; [done..|]. intros j q [Pj Rj]%below_Ok. apply below_Ok. split; [done|]. apply F; [lia..|done].
Qed.
End disk.

(** * Trees under growth *)

Section growth.
Context {K : Type} `{OL : OrdLaws K}.
Context (de_key : bytes → result K) (de_entry : bytes → result (K * FactRef)).

Lemma leaf_on_mono f g l next : extends f g → leaf_on f de_entry l next → leaf_on g de_entry l next.
Proof using. intros X (page & pre & bs & Lo & LA & D). exists page, pre, bs. split; [by apply X|done]. Qed.

Lemma subtree_mono f g h : extends f g → ∀ id leaves, subtree f de_key de_entry h id leaves → subtree g de_key de_entry h id leaves.
Proof using.
  intros X. induction h as [|h IH]; intros id leaves T; cbn in *.
  - destruct T as (l & next & -> & <- & T). exists l, next. split_and!; [done..|]. by eapply leaf_on_mono.
  - destruct T as (page & children & seps & groups & Lo & IA & U & T & Sep & ->).
    exists page, children, seps, groups. split_and!; [by apply X|done..| |done|done].
    eapply Forall2_impl; [exact T|]. intros. by apply IH.
Qed.

Lemma chain_mono f g leaves : extends f g → chain f de_entry leaves → chain g de_entry leaves.
Proof using.
  intros X. induction leaves as [|l leaves IH]; [done|]. intros [T C]. split; [by eapply leaf_on_mono|by apply IH].
Qed.
End growth.

(** * Packing leaves *)

Lemma records_snoc prefixed e entries : ∀ previous i,
  records prefixed previous i (entries ++ [e]) =
  records prefixed previous i entries ++
    [record_of prefixed (match last entries with Some x => Some x | None => previous end) (i + length entries) e].
Proof.
  induction entries as [|x entries IH]; intros previous i; cbn [app records length]; [by rewrite Nat.add_0_r|].
  rewrite IH, Nat.add_succ_r. cbn [app]. do 3 f_equal. destruct entries as [|y entries]; [done|].
  cbn [last]. by destruct (last (y :: entries)) eqn:E; [|apply last_None in E].
Qed.
Lemma raw_size_app a b : raw_size (a ++ b) = (raw_size a + raw_size b)%nat.
Proof. unfold raw_size. by rewrite fmap_app, sum_list_with_app. Qed.

Section packing_proof.
Context {B : Type} `{BL : BackendLaws B} {K K' : Type} `{OL : OrdLaws K}.
Context (de_key : bytes → result K) (de_entry : bytes → result (K * FactRef)) (ser : K' → result bytes).

(** A key that fits as the only separator of an internal page. *)
Definition key_ok (kb : bytes) (k : K) : Prop :=
  de_key kb = Ok k ∧ (INTERNAL_HEADER_SIZE + (8 + SLOT_SIZE) + length kb ≤ PAGE_SIZE)%nat.
(** An item of the input: its bytes fit alone on a leaf and decode. *)
Definition item_ok (item : result (bytes * K')) (e : K * FactRef) : Prop :=
  ∃ b k kb, item = Ok (b, k) ∧ de_entry b = Ok e ∧ (LEAF_HEADER_SIZE + SLOT_SIZE + length b ≤ PAGE_SIZE)%nat ∧
    ser k = Ok kb ∧ key_ok kb e.1.

Definition info_ok (info : Z * bytes) (l : Leaf) : Prop :=
  info.1 = l.1 ∧ ∃ k, key_ok info.2 k ∧ fst <$> head l.2 = Some k.

Record packed (d0 : Disk B) (start : Z) (p : Packing) (leaves : list Leaf) (cur : list (K * FactRef)) : Prop := {
  pd_disk : disk_ok (pk_disk p);
  pd_next : pk_next p = start + Z.of_nat (length leaves);
  pd_ids : leaves.*1 = seqZ start (Z.of_nat (length leaves));
  pd_infos : Forall2 info_ok (pk_infos p) leaves;
  pd_leaves : Forall (λ l, leaf_on (below (pk_next p) (pk_disk p)) de_entry l 0) leaves;
  pd_cur : Forall2 (λ e b, de_entry b = Ok e) cur (pk_cur p);
  pd_small : Forall (λ b, LEAF_HEADER_SIZE + SLOT_SIZE + length b ≤ PAGE_SIZE)%nat (pk_cur p);
  pd_raw : pk_raw p = raw_size (pk_cur p);
  pd_prefix : pk_prefix p = raw_size (records true None 0 (pk_cur p));
  pd_fits : leaf_fits (pk_cur p);
  pd_first : match cur with
             | [] => pk_first_key p = None
             | e :: _ => ∃ kb, pk_first_key p = Some kb ∧ key_ok kb e.1
             end;
  pd_old : extends (below start d0) (below start (pk_disk p));
}.

Lemma leaves_le_entries (infos : list (Z * bytes)) leaves : Forall2 info_ok infos leaves →
  (length leaves ≤ length (entries_of leaves))%nat.
Proof using.
  induction 1 as [|info l infos leaves (_ & k & _ & Hk) F IH]; [done|].
  rewrite entries_of_cons, length_app. destruct (l.2); [done|]. cbn [length]. lia.
Qed.

Lemma infos_ids (infos : list (Z * bytes)) leaves : Forall2 info_ok infos leaves → infos.*1 = leaves.*1.
Proof using. induction 1 as [|info l infos leaves (E & _) F IH]; cbn; [done|]. by rewrite E, IH. Qed.

Lemma small_of_fit b : (LEAF_HEADER_SIZE + SLOT_SIZE + length b ≤ PAGE_SIZE)%nat → small b.
Proof using. unfold small, LEAF_HEADER_SIZE, SLOT_SIZE. lia. Qed.

Lemma flush_leaf_ok d0 start p leaves cur : packed d0 start p leaves cur → cur ≠ [] → 0 < start → pk_next p < 2 ^ 52 →
  ∃ p', flush_leaf p = Ok p' ∧ packed d0 start p' (leaves ++ [(pk_next p, cur)]) [].
Proof using BL.
  intros [D N I In Lv C Sm R Px F Fk O] Ne P B2. unfold flush_leaf, write_leaf_page.
  destruct (leaf_page_ok (pk_cur p) 0) as (page & pre & -> & LA).
  { eapply Forall_impl; [exact Sm|]. intros; by apply small_of_fit. }
  { done. }
  cbn [mbind result_bind].
  destruct (write_both_append (pk_disk p) (pk_next p) page D) as (d' & -> & D' & Rd & X); [lia|apply (la_len _ _ _ _ LA)|].
  cbn [mbind result_bind]. destruct cur as [|e cur]; [done|]. destruct Fk as (kb & -> & Kb). cbn [ok_or mbind result_bind].
  eexists; split; [done|]. split; cbn [pk_disk pk_next pk_infos pk_cur pk_raw pk_prefix pk_first_key].
  - done.
  - rewrite length_app, N. cbn [length]. lia.
  - rewrite fmap_app, length_app, I. cbn [length fmap list_fmap]. rewrite Nat2Z.inj_add, seqZ_app by lia.
    f_equal. rewrite N. by rewrite seqZ_cons by lia.
  - apply Forall2_app; [done|]. constructor; [|constructor]. split; [done|]. by exists e.1.
  - apply Forall_app. split.
    + eapply Forall_impl; [exact Lv|]. intros l T. eapply leaf_on_mono; [|exact T].
      eapply extends_trans; [exact X|apply below_mono; lia].
    + constructor; [|constructor]. exists page, pre, (pk_cur p). split; [|done]. apply below_Ok. split; [cbn; lia|done].
  - constructor.
  - constructor.
  - done.
  - done.
  - unfold leaf_fits. cbn. pose proof PAGE_SIZE_val. lia.
  - done.
  - eapply extends_trans; [exact O|]. intros j q [Pj Rj]%below_Ok.
    assert (Y : below (pk_next p) d' j = Ok q) by (apply X, below_Ok; split; [lia|done]).
    apply below_Ok in Y as [_ Y]. apply below_Ok. split; [lia|done].
Qed.

Lemma pack_entry_ok d0 start fill p leaves cur item e :
  packed d0 start p leaves cur → item_ok item e → (fill ≤ PAGE_SIZE)%nat → 0 < start → pk_next p < 2 ^ 52 →
  ∃ p' leaves' cur', pack_entry ser fill p item = Ok p' ∧ packed d0 start p' leaves' cur' ∧
    entries_of leaves' ++ cur' = entries_of leaves ++ cur ++ [e] ∧ cur' ≠ [].
Proof using BL.
  intros Pd (b & k & kb & -> & De & Fb & Sk & Kb) Fi P B2. pose proof PAGE_SIZE_val as PS.
  assert (Sb : small b) by (by apply small_of_fit). unfold pack_entry. cbn [mbind result_bind].
  rewrite prefix_record_layout_ok by done. cbn [mbind result_bind].
  set (projected := (LEAF_HEADER_SIZE + _ + _)%nat).
  assert (Push : ∀ p leaves cur, packed d0 start p leaves cur →
    (LEAF_HEADER_SIZE + (length (pk_cur p) + 1) * SLOT_SIZE + (pk_raw p + length b) `min`
       (pk_prefix p + (PREFIX_RECORD_HEADER_SIZE + (length b - shared_with (last (pk_cur p)) (length (pk_cur p)) b))) ≤ PAGE_SIZE)%nat →
    ∃ p', (first_key ← match pk_first_key p with Some k => Ok k | None => ser k end;
           '(_, _, plen) ← prefix_record_layout (last (pk_cur p)) (length (pk_cur p)) b;
           Ok (mkPacking (pk_disk p) (pk_infos p) (pk_cur p ++ [b]) (pk_raw p + length b) (pk_prefix p + plen)
                 (Some first_key) (pk_next p))) = Ok p' ∧ packed d0 start p' leaves (cur ++ [e])).
  { clear p leaves cur Pd B2 projected. intros p leaves cur [D N I In Lv C Sm R Px F Fk O] Fits.
    assert (Y : ∃ fk, match pk_first_key p with Some k => Ok k | None => ser k end = Ok fk ∧
                 match cur ++ [e] with [] => False | x :: _ => key_ok fk x.1 end).
    { destruct cur as [|x cur]; [rewrite Fk; by exists kb|]. destruct Fk as (kb' & -> & Kb'). by exists kb'. }
    destruct Y as (fk & -> & Yk). cbn [mbind result_bind]. rewrite prefix_record_layout_ok by done. cbn [mbind result_bind].
    eexists; split; [done|]. split; cbn [pk_disk pk_next pk_infos pk_cur pk_raw pk_prefix pk_first_key]; [done..| | | | | | |done].
    - apply Forall2_app; [done|]. by constructor; [|constructor].
    - apply Forall_app. split; [done|]. by constructor; [|constructor].
    - rewrite raw_size_app, R, raw_size_cons. cbn. lia.
    - rewrite records_snoc, raw_size_app, Px, raw_size_cons, length_record. cbn [Nat.add].
      replace (match last (pk_cur p) with Some x => Some x | None => None end) with (last (pk_cur p)) by (by destruct (last _)).
      cbn -[PREFIX_RECORD_HEADER_SIZE]. lia.
    - unfold leaf_fits. rewrite length_app, records_snoc, !raw_size_app, !raw_size_cons, length_record.
      replace (match last (pk_cur p) with Some x => Some x | None => None end) with (last (pk_cur p)) by (by destruct (last _)).
      rewrite R, Px in Fits. cbn [length Nat.add raw_size] in *. unfold raw_size at 2 4. cbn [fmap list_fmap sum_list sum_list_with].
      rewrite !Nat.add_0_r. exact Fits.
    - destruct (cur ++ [e]) as [|x l]; [done|]. by exists fk. }
  assert (Alone : (LEAF_HEADER_SIZE + (0 + 1) * SLOT_SIZE + (0 + length b) `min`
       (0 + (PREFIX_RECORD_HEADER_SIZE + (length b - shared_with None 0 b))) ≤ PAGE_SIZE)%nat).
  { unfold LEAF_HEADER_SIZE, SLOT_SIZE in *. lia. }
  destruct (length (pk_cur p) =? 0)%nat eqn:Em.
  - apply Nat.eqb_eq, length_zero_iff_nil in Em.
    assert (Pr : (projected ≤ PAGE_SIZE)%nat).
    { unfold projected. rewrite (pd_raw _ _ _ _ _ Pd), (pd_prefix _ _ _ _ _ Pd), Em. exact Alone. }
    rewrite (proj2 (Nat.ltb_ge _ _) Pr). cbn [negb andb ensure mbind result_bind]. rewrite andb_false_r. cbn [mbind result_bind].
    destruct (Push p leaves cur Pd Pr) as (p' & E & Pd'). exists p', leaves, (cur ++ [e]).
    split_and!; [exact E|done|done|by destruct cur].
  - apply Nat.eqb_neq in Em. rewrite andb_false_r. cbn [negb ensure mbind result_bind]. rewrite andb_true_r.
    destruct (fill <? projected)%nat eqn:C.
    + assert (Nc : cur ≠ []).
      { intros ->. pose proof (pd_cur _ _ _ _ _ Pd) as F. apply Forall2_length in F. cbn in F. lia. }
      destruct (flush_leaf_ok d0 start p leaves cur Pd Nc P B2) as (p1 & -> & Pd1). cbn [mbind result_bind].
      pose proof (pd_cur _ _ _ _ _ Pd1) as C1. apply Forall2_length in C1. cbn in C1. symmetry in C1.
      apply length_zero_iff_nil in C1.
      destruct (Push p1 _ [] Pd1) as (p' & E & Pd').
      { rewrite (pd_raw _ _ _ _ _ Pd1), (pd_prefix _ _ _ _ _ Pd1), C1. exact Alone. }
      exists p', (leaves ++ [(pk_next p, cur)]), [e]. split_and!; [exact E|done| |done].
      rewrite entries_of_app. unfold entries_of at 2. cbn. by rewrite app_nil_r, <-app_assoc.
    + apply Nat.ltb_ge in C. cbn [mbind result_bind].
      destruct (Push p leaves cur Pd) as (p' & E & Pd'); [unfold projected in C; lia|].
      exists p', leaves, (cur ++ [e]). split_and!; [exact E|done|done|by destruct cur].
Qed.

Lemma pack_all_ok d0 start fill items es : ∀ p leaves cur,
  packed d0 start p leaves cur → Forall2 item_ok items es → (fill ≤ PAGE_SIZE)%nat → 0 < start →
  start + Z.of_nat (length (entries_of leaves ++ cur) + length es) < 2 ^ 52 →
  ∃ p' leaves' cur', foldR (pack_entry ser fill) p items = Ok p' ∧ packed d0 start p' leaves' cur' ∧
    entries_of leaves' ++ cur' = entries_of leaves ++ cur ++ es ∧ (cur ++ es ≠ [] → cur' ≠ []).
Proof using BL.
  revert es. induction items as [|item items IH]; intros es p leaves cur Pd F Fi P B2.
  - inversion F; subst. exists p, leaves, cur. by rewrite app_nil_r.
  - inversion F as [|? e ? es' Fe F']; subst. cbn [foldR length] in *.
    destruct (pack_entry_ok d0 start fill p leaves cur item e Pd Fe Fi P) as (p1 & l1 & c1 & -> & Pd1 & E1 & N1).
    { rewrite (pd_next _ _ _ _ _ Pd). pose proof (leaves_le_entries _ _ (pd_infos _ _ _ _ _ Pd)).
      rewrite length_app in B2. lia. }
    cbn [mbind result_bind].
    destruct (IH es' p1 l1 c1 Pd1 F' Fi P) as (p2 & l2 & c2 & E2 & Pd2 & Eq & N2).
    { rewrite E1, app_assoc, length_app. cbn [length]. rewrite length_app in *. lia. }
    exists p2, l2, c2. split_and!; [done|done| |].
    + rewrite Eq, app_assoc, E1. by rewrite <-!app_assoc.
    + intros _. apply N2. by destruct c1.
Qed.
End packing_proof.

(** * Linking the leaves *)

Section linking.
Context {B : Type} `{BL : BackendLaws B} {K : Type}.
Context (de_entry : bytes → result (K * FactRef)).

Lemma load_page (d : Disk B) id page : disk_ok d → 0 < id → read d id = Ok page →
  ∃ c, get_or_load (backend_read_page (dk_backend d)) (dk_cache d) id = Ok (c, page) ∧ disk_ok (mkDisk (dk_backend d) c).
Proof using.
  intros [C Co I] P R. pose proof (get_or_load_ok (read d) (dk_cache d) id C Co) as G. unfold read in G, R.
  destruct (get_or_load _ _ _) as [[c pg]|e] eqn:E.
  - destruct G as (G & C' & Co'). rewrite R in G. apply Ok_inj in G as <-. exists c. split; [done|].
    split; [done|done|]. cbn. intros j x Lx. unfold get_or_load, probe, commit_load in E.
    destruct (entries (dk_cache d) !! id) as [en|] eqn:Le; cbn in E; [apply Ok_inj in E; simplify_eq; by eapply I|].
    rewrite R in E. cbn in E. apply Ok_inj in E. simplify_eq.
    destruct (insert_entry_ok (dk_cache d) id (mkCacheEntry page false) C Le) as (_ & _ & Ei & Ej).
    destruct (decide (j = id)) as [->|N]; [done|]. eapply I. by apply (Ej j x N).
  - by rewrite R in G.
Qed.

Lemma patch_next_leaf_ok (infos : list (Z * bytes)) : ∀ leaves (d : Disk B),
  disk_ok d → infos.*1 = leaves.*1 → NoDup leaves.*1 → Forall (λ l : Leaf, 0 < l.1 < 2 ^ 52) leaves →
  Forall (λ l, leaf_on (read d) de_entry l 0) leaves →
  ∃ d', patch_next_leaf d infos = Ok d' ∧ disk_ok d' ∧ chain (read d') de_entry leaves ∧
    ∀ j q, j ∉ leaves.*1 → 0 < j → read d j = Ok q → read d' j = Ok q.
Proof using BL.
  induction infos as [|[pid fk] infos IH]; intros leaves d D Eq N I L; destruct leaves as [|l leaves]; try done.
  { by exists d. }
  cbn [fmap list_fmap fst] in Eq. injection Eq as -> Eq. apply Forall_cons in I as [Il I].
  apply Forall_cons in L as [Ll L]. cbn [fmap list_fmap] in N. apply NoDup_cons in N as [Nl N]. cbn [patch_next_leaf].
  destruct infos as [|[nid nk] infos]; destruct leaves as [|l' leaves]; try done.
  { exists d. split_and!; [done..|]. by intros. }
  cbn [fmap list_fmap fst] in Eq. injection Eq as -> Eq.
  destruct Ll as (page & pre & bs & Lo & LA & De).
  destruct (load_page d l.1 page D ltac:(lia) Lo) as (c & -> & D1). cbn [mbind result_bind].
  destruct (leaf_patch pre page bs 0 l'.1 LA) as (page' & Ep & LA'). unfold put in Ep. apply ok_or_Ok in Ep. rewrite Ep.
  cbn [ok_or mbind result_bind].
  destruct (write_both_ok _ l.1 page' D1 ltac:(lia) (la_len _ _ _ _ LA')) as (d2 & -> & D2 & R2 & F2).
  cbn [mbind result_bind].
  destruct (IH (l' :: leaves) d2 D2) as (d' & -> & D' & C' & F'); [cbn; by rewrite Eq|done|done| |].
  { apply Forall_forall. intros x Hx. rewrite Forall_forall in L, I. destruct (L x Hx) as (pg & pr & b' & Lx & ?).
    exists pg, pr, b'. split; [|done]. apply F2; [|by destruct (I x Hx)|done].
    intros Ex. apply Nl. rewrite <-Ex. apply list_elem_of_fmap. by exists x. }
  exists d'. split; [done|]. split; [done|]. split.
  - split; [|done]. exists page', pre, bs. split; [|done]. apply F'; [done|lia|done].
  - intros j q Nj Pj Rj. apply not_elem_of_cons in Nj as [Nj1 Nj]. apply F'; [done|done|]. by apply F2.
Qed.
End linking.

(** * Internal levels *)

Section levels.
Context {B : Type} `{BL : BackendLaws B} {K : Type} `{OL : OrdLaws K}.
Context (de_key : bytes → result K) (de_entry : bytes → result (K * FactRef)) (fill : nat).
Hypothesis fill_room : (fill + 8 ≤ PAGE_SIZE)%nat.

(** A page of a level, the first key below it and the leaves it covers. *)
Definition node_ok (f : Z → result bytes) (h : nat) (node : Z * bytes) (g : list Leaf) : Prop :=
  subtree f de_key de_entry h node.1 g ∧ 0 < node.1 < 2 ^ 52 ∧ ∃ k, key_ok de_key node.2 k ∧ first_key g = Some k.

Lemma node_ok_mono f g h node leaves : extends f g → node_ok f h node leaves → node_ok g h node leaves.
Proof using. intros X (T & P & Q). split; [by eapply subtree_mono|done]. Qed.

(** The loop takes a non-empty run of the level, and what it takes fits. *)
Lemma fill_node_ok level : ∀ child_ids seps,
  length child_ids = S (length seps) → internal_fits seps ∨ seps = [] →
  Forall (λ n : Z * bytes, ∃ k, key_ok de_key n.2 k) level →
  ∃ taken rest, level = taken ++ rest ∧ internal_fits (seps ++ taken.*2) ∧
    fill_node fill child_ids seps (raw_size seps) level = Ok (child_ids ++ taken.*1, seps ++ taken.*2, rest) ∧
    (seps = [] → level ≠ [] → taken ≠ []).
Proof using fill_room.
  pose proof PAGE_SIZE_val as PS.
  induction level as [|[id sep] level IH]; intros child_ids seps W Fi Ok'; cbn [fill_node].
  { exists [], []. cbn. rewrite !app_nil_r. split_and!; [done| |done|done].
    destruct Fi as [Fi| ->]; [done|]. unfold internal_fits. cbn. lia. }
  apply Forall_cons in Ok' as [(k & _ & Ks) Ok']. cbn [snd] in Ks. rewrite W, Nat.sub_succ, Nat.sub_0_r.
  set (projected := (INTERNAL_HEADER_SIZE + _ + _ + _ + _)%nat).
  destruct (length seps =? 0)%nat eqn:Em.
  - apply Nat.eqb_eq, length_zero_iff_nil in Em as ->.
    assert (Pr : (projected ≤ PAGE_SIZE)%nat).
    { unfold projected. cbn -[Nat.mul PAGE_SIZE INTERNAL_HEADER_SIZE SLOT_SIZE]. unfold INTERNAL_HEADER_SIZE, SLOT_SIZE in *. lia. }
    rewrite (proj2 (Nat.ltb_ge _ _) Pr). cbn [andb negb ensure mbind result_bind]. rewrite andb_false_r.
    destruct (IH (child_ids ++ [id]) [sep]) as (taken & rest & -> & F & E & _).
    { rewrite length_app. cbn. cbn in W. lia. }
    { left. unfold internal_fits. cbn [length]. rewrite raw_size_cons. cbn [raw_size fmap list_fmap sum_list sum_list_with].
      unfold INTERNAL_HEADER_SIZE, SLOT_SIZE in *. unfold raw_size. cbn. lia. }
    { done. }
    exists ((id, sep) :: taken), rest. cbn [app fmap list_fmap fst snd]. split_and!; [done|done| |done].
    rewrite raw_size_cons in E. cbn [raw_size fmap list_fmap sum_list sum_list_with Nat.add] in E |- *.
    unfold raw_size in E |- *. cbn in E |- *. rewrite Nat.add_0_r in E. rewrite E. by rewrite <-!app_assoc.
  - apply Nat.eqb_neq in Em. rewrite andb_false_r. cbn [negb ensure mbind result_bind]. rewrite andb_true_r.
    destruct Fi as [Fi| ->]; [|done].
    destruct (fill <? projected)%nat eqn:C.
    + exists [], ((id, sep) :: level). cbn. rewrite !app_nil_r. split_and!; [done..|]. by intros ->.
    + apply Nat.ltb_ge in C. assert (Rs : raw_size (seps ++ [sep]) = (raw_size seps + length sep)%nat).
      { rewrite raw_size_app, raw_size_cons. cbn. lia. }
      destruct (IH (child_ids ++ [id]) (seps ++ [sep])) as (taken & rest & -> & F & E & _).
      { rewrite !length_app. cbn. lia. }
      { left. unfold internal_fits. rewrite Rs, length_app. cbn [length]. unfold projected, INTERNAL_HEADER_SIZE, SLOT_SIZE in *. lia. }
      { done. }
      exists ((id, sep) :: taken), rest. cbn [app fmap list_fmap fst snd]. rewrite Rs in E.
      split_and!; [done|by rewrite <-app_assoc in F| |by intros ->].
      rewrite E. by rewrite <-!app_assoc.
Qed.

Lemma first_key_app (g g' : list (@Leaf K)) k : first_key g = Some k → first_key (g ++ g') = Some k.
Proof using.
  unfold first_key. rewrite entries_of_app. by destruct (entries_of g) as [|e es].
Qed.

(** The page over a run of nodes. *)
Lemma new_node_ok f h (first : Z * bytes) (taken : list (Z * bytes)) g gs page id :
  node_ok f h first g → Forall2 (node_ok f h) taken gs →
  internal_at page (first.1 :: taken.*1) taken.*2 → f id = Ok page → 0 < id < 2 ^ 52 →
  node_ok f (S h) (id, first.2) (g ++ concat gs).
Proof using.
  clear fill_room. intros (T & P & k & Kk & Fk) F IA Lo Pi. split; [|split; [done|]; exists k; split; [done|by apply first_key_app]].
  cbn [fst subtree]. exists page, (first.1 :: taken.*1), taken.*2, (g :: gs). split_and!; [done|done| | | |done].
  - apply Forall_cons. split; [unfold u64_ok; lia|]. apply Forall_fmap. eapply Forall2_Forall_l; [exact F|].
    apply Forall_true. intros g' n (_ & Pn & _). cbn. unfold u64_ok. lia.
  - constructor; [done|]. apply Forall2_fmap_l. eapply Forall2_impl; [exact F|]. by intros n g' (Tn & _).
  - intros j g' Hg. cbn in Hg. destruct (Forall2_lookup_r _ _ _ _ _ F Hg) as (n & Hn & (_ & _ & k' & (Kd & _) & Fk')).
    exists n.2, k'. split_and!; [by rewrite list_lookup_fmap, Hn|done..].
Qed.

Lemma build_level_ok fuel : ∀ level groups (d : Disk B) next h,
  disk_ok d → Forall2 (node_ok (below next d) h) level groups → (length level ≤ fuel)%nat →
  0 < next → next + Z.of_nat (length level) < 2 ^ 52 →
  ∃ d' next' nodes groups', build_level fuel fill d next level = Ok (d', next', nodes) ∧ disk_ok d' ∧
    Forall2 (node_ok (below next' d') (S h)) nodes groups' ∧ concat groups' = concat groups ∧
    next' = next + Z.of_nat (length nodes) ∧ (2 * length nodes ≤ length level + 1)%nat ∧
    (level ≠ [] → nodes ≠ []) ∧ extends (below next d) (below next d').
Proof using BL fill_room.
  induction fuel as [|fuel IH]; intros level groups d next h D F Fu P B2;
    (destruct F as [|[id fk] g level groups (T & Pi & k & Kk & Fk) F];
     [exists d, next, [], []; cbn [build_level length concat]; split_and!;
        [done|done|constructor|done|lia|lia|done|apply extends_refl]|]).
  { cbn in Fu. lia. }
  cbn [build_level length] in *.
  destruct (fill_node_ok level [id] []) as (taken & rest & -> & Fi & E & Ne); [done|by right| |].
  { eapply Forall2_Forall_l; [exact F|]. apply Forall_true. intros g' n (_ & _ & k' & ? & _). by exists k'. }
  change (raw_size []) with O in E. rewrite E. cbn [mbind result_bind app] in *.
  apply Forall2_app_inv_l in F as (gt & gr & Ft & Fr & ->).
  unfold write_internal_page.
  destruct (internal_page_ok (id :: taken.*1) taken.*2) as (page & Ep & IA); [cbn; by rewrite !length_fmap|done|].
  rewrite Ep. cbn [mbind result_bind].
  destruct (write_both_append d next page D) as (d1 & E1 & D1 & R1 & X1); [lia|apply (ia_len _ _ _ IA)|].
  rewrite E1. cbn [mbind result_bind].
  assert (X1' : extends (below next d) (below (next + 1) d1)) by (eapply extends_trans; [exact X1|apply below_mono; lia]).
  destruct (IH rest gr d1 (next + 1) h D1) as (d' & next' & nodes & groups' & E2 & D' & F' & C' & N' & L' & Ne' & X').
  { eapply Forall2_impl; [exact Fr|]. intros n g'. by apply node_ok_mono. }
  { rewrite length_app in Fu. lia. }
  { lia. }
  { rewrite length_app in B2. lia. }
  rewrite E2. cbn [mbind result_bind].
  assert (X2 : extends (below (next + 1) d1) (below next' d')) by (eapply extends_trans; [exact X'|apply below_mono; lia]).
  eexists d', next', ((next, fk) :: nodes), ((g ++ concat gt) :: groups'). split_and!; [done|done| | | | |done|].
  - constructor; [|done]. eapply (new_node_ok _ h (id, fk) taken g gt page next); [| |done| |cbn in *; lia].
    + eapply node_ok_mono; [eapply extends_trans; [exact X1'|exact X2]|]. split; [done|]. split; [done|]. by exists k.
    + eapply Forall2_impl; [exact Ft|]. intros n g'. apply node_ok_mono. eapply extends_trans; [exact X1'|exact X2].
    + apply X2, below_Ok. split; [lia|done].
  - cbn [concat]. rewrite C', concat_app. by rewrite <-app_assoc.
  - cbn [length]. lia.
  - cbn [length]. rewrite length_app in *. destruct taken as [|t taken]; [|cbn [length] in *; lia].
    destruct rest as [|r rest]; [|by destruct Ne]. destruct nodes as [|n nodes]; [cbn; lia|].
    cbn in L'. lia.
  - intros j q Hj. apply X1, below_Ok in Hj as [Pj Rj].
    assert (Y : below (next + 1) d' j = Ok q) by (apply X', below_Ok; split; [lia|done]).
    apply below_Ok in Y as [_ Y]. by apply below_Ok.
Qed.

(** Levels shrink until the root is left. *)
Lemma build_levels_ok fuel : ∀ level groups (d : Disk B) next h,
  disk_ok d → Forall2 (node_ok (below next d) h) level groups → level ≠ [] → (length level ≤ fuel)%nat →
  0 < next → next + 2 * Z.of_nat (length level) < 2 ^ 52 →
  ∃ d' root next' h', build_levels fuel fill d next level = Ok (d', (root, next')) ∧ disk_ok d' ∧
    subtree (below next' d') de_key de_entry h' root (concat groups) ∧ (h' < h + length level)%nat ∧
    next ≤ next' ≤ next + 2 * Z.of_nat (length level) ∧ extends (below next d) (below next d').
Proof using BL fill_room.
  induction fuel as [|fuel IH]; intros level groups d next h D F Ne Fu P B2.
  { destruct level; [done|]. cbn in Fu. lia. }
  destruct level as [|[root fk] level]; [done|]. destruct level as [|n2 level].
  { inversion F as [|? g ? gs Fg F']; subst. inversion F'; subst. destruct Fg as (T & _).
    exists d, root, next, h. cbn [build_levels concat length app]. rewrite app_nil_r.
    split_and!; [done..|lia|lia|lia|apply extends_refl]. }
  set (lv := (root, fk) :: n2 :: level) in *. cbn [build_levels].
  change (match lv with [(root, _)] => Ok (d, (root, next))
          | _ => '(d, next_page, level) ← build_level (length lv) fill d next lv; build_levels fuel fill d next_page level end)
    with ('(d, next_page, level) ← build_level (length lv) fill d next lv; build_levels fuel fill d next_page level).
  destruct (build_level_ok (length lv) lv groups d next h D F) as (d1 & next1 & nodes & groups1 & E1 & D1 & F1 & C1 & N1 & L1 & Ne1 & X1);
    [lia|lia|lia|]. rewrite E1. cbn [mbind result_bind].
  assert (Lv : (2 ≤ length lv)%nat) by (unfold lv; cbn; lia).
  destruct (IH nodes groups1 d1 next1 (S h) D1 F1) as (d' & root' & next' & h' & E2 & D' & T' & H' & B' & X'); [by apply Ne1|lia|lia|lia|].
  exists d', root', next', h'. rewrite E2. rewrite C1 in T'. split_and!; [done..|lia|lia|lia|].
  intros j q Hj. apply X1, below_Ok in Hj as [Pj Rj].
  assert (Y : below next1 d' j = Ok q) by (apply X', below_Ok; split; [lia|done]).
  apply below_Ok in Y as [_ Y]. by apply below_Ok.
Qed.
End levels.

(** * The whole build *)

Section whole.
Context {B : Type} `{BL : BackendLaws B} {K K' : Type} `{OL : OrdLaws K}.
Context (de_key : bytes → result K) (de_entry : bytes → result (K * FactRef)) (ser : K' → result bytes).

Lemma btree_mono f g h root (leaves : list (@Leaf K)) : extends f g →
  btree f de_key de_entry h root leaves → btree g de_key de_entry h root leaves.
Proof using.
  intros X [T C I N A]. split; [by eapply subtree_mono|by eapply chain_mono|done..].
Qed.

Lemma chain_leaves f (leaves : list (@Leaf K)) : chain f de_entry leaves → Forall (λ l, ∃ nx, leaf_on f de_entry l nx) leaves.
Proof using. induction leaves as [|l leaves IH]; [done|]. intros [T C]. constructor; [by eexists|by apply IH]. Qed.

Lemma chain_below n (d : Disk B) (leaves : list (@Leaf K)) : chain (read d) de_entry leaves →
  Forall (λ l : Leaf, 0 < l.1 < n) leaves → chain (below n d) de_entry leaves.
Proof using.
  induction leaves as [|l leaves IH]; [done|]. intros [(page & pre & bs & Lo & T) C] [I Is]%Forall_cons.
  split; [|by apply IH]. exists page, pre, bs. split; [by apply below_Ok|done].
Qed.

Lemma concat_singletons {A} (l : list A) : concat ((λ x, [x]) <$> l) = l.
Proof using. induction l as [|x l IH]; cbn; [done|]. by rewrite IH. Qed.

(** Pages start at [start] and are numbered in order. *)
Lemma ids_in_range (start : Z) (leaves : list (@Leaf K)) : leaves.*1 = seqZ start (Z.of_nat (length leaves)) →
  NoDup leaves.*1 ∧ Forall (λ l : Leaf, start ≤ l.1 < start + Z.of_nat (length leaves)) leaves.
Proof using.
  intros E. split; [rewrite E; apply NoDup_seqZ|]. apply Forall_forall. intros l Hl.
  apply elem_of_seqZ. rewrite <-E. apply list_elem_of_fmap. by exists l.
Qed.

Lemma build_ok (d : Disk B) start options items es :
  disk_ok d → 0 < start → start + 3 * Z.of_nat (length es) + 1 < 2 ^ 52 →
  (fill_bytes options + 8 ≤ PAGE_SIZE)%nat → Forall2 (item_ok de_key de_entry ser) items es → strictly_ascending es →
  ∃ d' root next h leaves, build_btree_serialized_results items ser d start options = Ok (d', (root, next)) ∧
    disk_ok d' ∧ btree (below next d') de_key de_entry h root leaves ∧ entries_of leaves = es ∧
    (h < length leaves)%nat ∧ (length leaves ≤ 1 + length es)%nat ∧
    start < next ≤ start + 3 * Z.of_nat (length es) + 1 ∧ extends (below start d) (below start d').
Proof using BL.
  intros D P B2 Fi F A. pose proof PAGE_SIZE_val as PS. unfold build_btree_serialized_results.
  destruct (pack_all_ok de_key de_entry ser d start (fill_bytes options) items es
              (mkPacking d [] [] 0 0 None start) [] []) as (p & lv & cur & -> & Pd & Eq & Ne); [|done|lia|done|cbn; lia|].
  { split; cbn; [done|lia|done|constructor|constructor|constructor|constructor|done|done| |done|apply extends_refl].
    unfold leaf_fits. cbn. lia. }
  cbn [app] in Eq, Ne. change (entries_of []) with (@nil (K * FactRef)) in Eq. cbn [app mbind result_bind] in Eq |- *.
  pose proof (Forall2_length _ _ _ (pd_cur _ _ _ _ _ _ _ Pd)) as Lc.
  pose proof (Forall2_length _ _ _ (pd_infos _ _ _ _ _ _ _ Pd)) as Li.
  pose proof (pd_next _ _ _ _ _ _ _ Pd) as Np.
  destruct es as [|e0 es0] eqn:Ees.
  - (* the empty tree *)
    assert (cur = []) as -> by (destruct cur; [done|by destruct (entries_of lv)]). rewrite app_nil_r in Eq.
    assert (lv = []) as ->.
    { pose proof (leaves_le_entries _ _ _ (pd_infos _ _ _ _ _ _ _ Pd)) as L. rewrite Eq in L. destruct lv; [done|cbn in L; lia]. }
    cbn in Lc, Li, Np. rewrite Z.add_0_r in Np. rewrite <-Lc, Li. cbn [Nat.eqb andb length]. unfold write_leaf_page.
    destruct (leaf_page_ok [] 0) as (page & pre & -> & LA); [constructor|unfold leaf_fits; cbn; lia|].
    cbn [mbind result_bind]. rewrite Np. cbn [length] in B2.
    destruct (write_both_append (pk_disk p) start page (pd_disk _ _ _ _ _ _ _ Pd)) as (d' & -> & D' & R & X);
      [lia|apply (la_len _ _ _ _ LA)|]. cbn [mbind result_bind].
    assert (On : leaf_on (below (start + 1) d') de_entry (start, []) 0).
    { exists page, pre, []. split; [apply below_Ok; split; [cbn; lia|done]|]. split; [done|constructor]. }
    exists d', start, (start + 1), O, [(start, [])]. split_and!; [done|done| |done|cbn; lia|cbn; lia|lia|cbn; lia|].
    + split; [by exists (start, []), 0|done|constructor; [cbn; lia|constructor]|apply NoDup_singleton|constructor].
    + eapply extends_trans; [apply (pd_old _ _ _ _ _ _ _ Pd)|exact X].
  - rewrite <-Ees in *. assert (cur ≠ []) as Nc by (apply Ne; by rewrite Ees).
    assert ((length (pk_cur p) =? 0)%nat = false) as -> by (apply Nat.eqb_neq; destruct cur; cbn in Lc; [done|lia]).
    cbn [andb]. assert (Le : (length lv + 1 ≤ length es)%nat).
    { rewrite <-Eq, length_app. pose proof (leaves_le_entries _ _ _ (pd_infos _ _ _ _ _ _ _ Pd)). destruct cur; [done|]. cbn. lia. }
    destruct (flush_leaf_ok de_key de_entry d start p lv cur Pd Nc P) as (p1 & -> & Pd1); [lia|]. cbn [mbind result_bind].
    set (leaves := lv ++ [(pk_next p, cur)]) in *. assert (Ll : length leaves = S (length lv)) by (unfold leaves; rewrite length_app; cbn; lia).
    assert (El : entries_of leaves = es).
    { unfold leaves. rewrite entries_of_app. unfold entries_of at 2. cbn. by rewrite app_nil_r. }
    destruct (ids_in_range start leaves (pd_ids _ _ _ _ _ _ _ Pd1)) as [Nd Ir].
    pose proof (pd_next _ _ _ _ _ _ _ Pd1) as Np1. clearbody leaves.
    destruct (patch_next_leaf_ok de_entry (pk_infos p1) leaves (pk_disk p1) (pd_disk _ _ _ _ _ _ _ Pd1))
      as (d2 & -> & D2 & C2 & F2).
    { eapply infos_ids, (pd_infos _ _ _ _ _ _ _ Pd1). }
    { done. }
    { eapply Forall_impl; [exact Ir|]. cbn. intros l Hl. lia. }
    { eapply Forall_impl; [apply (pd_leaves _ _ _ _ _ _ _ Pd1)|]. intros l. apply leaf_on_mono, below_read. }
    cbn [mbind result_bind].
    assert (Ir' : Forall (λ l : Leaf, 0 < l.1 < pk_next p1) leaves) by (eapply Forall_impl; [exact Ir|]; cbn; intros; lia).
    pose proof (chain_below (pk_next p1) d2 leaves C2 Ir') as C2'.
    destruct (build_levels_ok de_key de_entry (fill_bytes options) Fi (length (pk_infos p1)) (pk_infos p1) ((λ l, [l]) <$> leaves) d2 (pk_next p1) 0 D2)
      as (d3 & root & next & h & E3 & D3 & T3 & H3 & B3 & X3).
    { apply Forall2_fmap_r. pose proof (chain_leaves _ _ C2') as On. rewrite Forall_forall in On, Ir.
      apply Forall2_same_length_lookup. split; [apply (Forall2_length _ _ _ (pd_infos _ _ _ _ _ _ _ Pd1))|].
      intros i x l Ex El'. destruct (Forall2_lookup_lr _ _ _ _ _ _ (pd_infos _ _ _ _ _ _ _ Pd1) Ex El') as [Eid (k & Kk & Fk)].
      apply list_elem_of_lookup_2 in El'. destruct (On l El') as [nx Hon]. specialize (Ir l El').
      split; [by exists l, nx|]. split; [lia|]. exists k. split; [done|]. unfold first_key, entries_of. cbn.
      by rewrite app_nil_r. }
    { intros E0. pose proof (Forall2_length _ _ _ (pd_infos _ _ _ _ _ _ _ Pd1)) as X. rewrite E0 in X. cbn in X. lia. }
    { done. }
    { lia. }
    { rewrite (Forall2_length _ _ _ (pd_infos _ _ _ _ _ _ _ Pd1)). lia. }
    rewrite (Forall2_length _ _ _ (pd_infos _ _ _ _ _ _ _ Pd1)) in *. rewrite concat_singletons in T3.
    assert (X3' : extends (below (pk_next p1) d2) (below next d3)) by (eapply extends_trans; [exact X3|apply below_mono; lia]).
    exists d3, root, next, h, leaves. rewrite E3. split_and!; [done|done| |done|lia|lia|lia|lia|].
    + split; [done|by eapply chain_mono| |done|by rewrite El]. eapply Forall_impl; [exact Ir'|]. cbn. intros; lia.
    + eapply extends_trans; [apply (pd_old _ _ _ _ _ _ _ Pd1)|]. intros j q [Pj Rj]%below_Ok.
      assert (Y : below (pk_next p1) d3 j = Ok q).
      { apply X3, below_Ok. split; [lia|]. apply F2; [|lia|done]. intros Hj. apply list_elem_of_fmap in Hj as (l & -> & Hl).
        rewrite Forall_forall in Ir. specialize (Ir l Hl). lia. }
      apply below_Ok in Y as [_ Y]. by apply below_Ok.
Qed.
End whole.
