(* ===== verification/PageIntegrity.v ===== *)
(** The checksum catalog of the published base pages
    (src/src/storage/page_integrity.rs): one checksum per page, bound to the base
    generation and to the page's position, with its canonical encoding.

    [crc32] is a parameter with 32-bit results. *)
From S2P Require Import Prelude Types ValueCodec Index Wal FactStore PackedPages HeaderPage.

(** * Definitions *)

Definition PAGE_INTEGRITY_CATALOG_MAGIC : bytes := as_bytes "MGPGC001".
Definition PAGE_INTEGRITY_CATALOG_CODEC_VERSION : Z := 1.
Definition PAGE_INTEGRITY_CATALOG_RESERVED : Z := 0.
Definition PAGE_CHECKSUM_DOMAIN : bytes := as_bytes "MGPGC001:base-page:v1" ++ [z2b 0].
Definition CATALOG_HEADER_LEN : nat := 8 + 4 + 4 + 8 + 8 + 8.
Definition CHECKSUM_LEN : nat := 4.
Definition MAX_BASE_INTEGRITY_CATALOG_BYTES : Z := 64 * 1024 * 1024.
Definition MAX_BASE_INTEGRITY_COVERED_PAGES : Z := 16777206.

Definition validate_catalog_layout (base_generation covered_page_start covered_page_count : Z) : result () :=
  if covered_page_count =? 0 then
    ensure (negb (negb (base_generation =? 0) || negb (covered_page_start =? 1)))
      "Empty base page integrity catalog requires generation 0, page start 1, and page count 0"
  else
    _ ← ensure (negb (base_generation =? 0)) "Non-empty base page integrity catalog requires a non-zero generation";
    _ ← ensure (negb (covered_page_start =? 0)) "Base page integrity catalog must not cover header page 0";
    _ ← ok_or (checked_add_u64 covered_page_start covered_page_count)
          "Base page integrity catalog page range overflow";
    Ok ().

Definition encoded_len_for_count (covered_page_count : Z) : result Z :=
  _ ← ensure (covered_page_count <=? MAX_BASE_INTEGRITY_COVERED_PAGES)
        "Base page integrity catalog exceeds the supported metadata limit";
  checksum_bytes ← ok_or (checked_mul_u64 covered_page_count (Z.of_nat CHECKSUM_LEN))
                     "Base page integrity catalog encoded length overflow";
  encoded_len ← ok_or (checked_add_u64 (Z.of_nat CATALOG_HEADER_LEN) checksum_bytes)
                  "Base page integrity catalog encoded length overflow";
  _ ← ensure (encoded_len <=? MAX_BASE_INTEGRITY_CATALOG_BYTES)
        "Base page integrity catalog exceeds the supported metadata limit";
  Ok encoded_len.

Module BasePageIntegrityCatalog.
Record t : Type := mk {
  base_generation : Z;
  covered_page_start : Z;
  covered_page_count : Z;
  page_checksums : list Z;
}.
#[global] Instance catalog_eq_dec : EqDecision t.
Proof. solve_decision. Defined.

Definition build (base_generation covered_page_start : Z) (page_checksums : list Z) : result t :=
  let covered_page_count := Z.of_nat (length page_checksums) in
  _ ← validate_catalog_layout base_generation covered_page_start covered_page_count;
  Ok (mk base_generation covered_page_start covered_page_count page_checksums).

Definition checksum_for_page (c : t) (page_id : Z) : result Z :=
  offset ← (if covered_page_start c <=? page_id then Ok (Z.to_nat (page_id - covered_page_start c))
            else Err "Base page integrity catalog does not cover page");
  ok_or (page_checksums c !! offset) "Base page integrity catalog does not cover page".

Definition encoded_len (c : t) : result Z := encoded_len_for_count (covered_page_count c).

Definition encode (c : t) : result bytes :=
  _ ← validate_catalog_layout (base_generation c) (covered_page_start c) (covered_page_count c);
  _ ← encoded_len c;
  Ok (PAGE_INTEGRITY_CATALOG_MAGIC ++ to_le_bytes 4 PAGE_INTEGRITY_CATALOG_CODEC_VERSION ++
      to_le_bytes 4 PAGE_INTEGRITY_CATALOG_RESERVED ++ to_le_bytes 8 (base_generation c) ++
      to_le_bytes 8 (covered_page_start c) ++ to_le_bytes 8 (covered_page_count c) ++
      concat (to_le_bytes 4 <$> page_checksums c)).

Definition decode (encoded : bytes) : result t :=
  _ ← ensure (CATALOG_HEADER_LEN <=? length encoded)%nat "Base page integrity catalog is truncated";
  _ ← ensure (bool_decide (get_range encoded 0 8 = Some PAGE_INTEGRITY_CATALOG_MAGIC))
        "Base page integrity catalog magic mismatch";
  codec_version ← read_u32_le encoded 8;
  _ ← ensure (codec_version =? PAGE_INTEGRITY_CATALOG_CODEC_VERSION)
        "Unsupported base page integrity catalog codec version";
  reserved ← read_u32_le encoded 12;
  _ ← ensure (reserved =? PAGE_INTEGRITY_CATALOG_RESERVED)
        "Base page integrity catalog reserved field must be zero";
  base_generation ← read_u64_le encoded 16;
  covered_page_start ← read_u64_le encoded 24;
  covered_page_count ← read_u64_le encoded 32;
  _ ← validate_catalog_layout base_generation covered_page_start covered_page_count;
  expected_len ← encoded_len_for_count covered_page_count;
  _ ← ensure (Z.of_nat (length encoded) =? expected_len) "Base page integrity catalog length mismatch";
  page_checksums ← mapR (λ index, read_u32_le encoded (CATALOG_HEADER_LEN + index * CHECKSUM_LEN))
                     (seq 0 (Z.to_nat covered_page_count));
  build base_generation covered_page_start page_checksums.

Section checksums.
Context (crc32 : bytes → Z).

Definition compute_page_checksum (base_generation page_id : Z) (page : bytes) : result Z :=
  _ ← ensure (negb (base_generation =? 0)) "Base page integrity checksum requires a non-zero generation";
  _ ← ensure (negb (page_id =? 0)) "Base page integrity checksum does not cover header page 0";
  _ ← ensure (length page =? PAGE_SIZE)%nat "Base page integrity checksum requires exactly one page";
  Ok (crc32 (PAGE_CHECKSUM_DOMAIN ++ to_le_bytes 8 base_generation ++ to_le_bytes 8 page_id ++ page)).

Definition verify_page (c : t) (page_id : Z) (page : bytes) : result () :=
  expected ← checksum_for_page c page_id;
  actual ← compute_page_checksum (base_generation c) page_id page;
  ensure (actual =? expected) "Base page integrity checksum mismatch".

(** Checksums of consecutive pages, as the checkpoint computes them. *)
Fixpoint page_checksums_from (base_generation page_id : Z) (pages : list bytes) : result (list Z) :=
  match pages with
  | [] => Ok []
  | page :: pages =>
      c ← compute_page_checksum base_generation page_id page;
      next ← ok_or (checked_add_u64 page_id 1) "Base page integrity catalog page range overflow";
      cs ← page_checksums_from base_generation next pages;
      Ok (c :: cs)
  end.
Definition from_pages (base_generation covered_page_start : Z) (pages : list bytes) : result t :=
  cs ← page_checksums_from base_generation covered_page_start pages;
  build base_generation covered_page_start cs.
End checksums.

Definition catalog_crc32 (crc32 : bytes → Z) (encoded_catalog : bytes) : Z := crc32 encoded_catalog.

(** The widths of the fields, and the count the constructor computes. *)
Record ok (c : t) : Prop := {
  ok_generation : u64_ok (base_generation c);
  ok_start : u64_ok (covered_page_start c);
  ok_count : covered_page_count c = Z.of_nat (length (page_checksums c));
  ok_checksums : Forall u32_ok (page_checksums c);
}.
End BasePageIntegrityCatalog.
Import BasePageIntegrityCatalog.

(** * The encoding *)

Lemma length_concat_u32 cs : length (concat (to_le_bytes 4 <$> cs)) = (length cs * 4)%nat.
Proof. induction cs as [|c cs IH]; cbn; [done|]. rewrite length_app, length_to_le_bytes, IH. lia. Qed.

Lemma concat_u32_slice cs i c : cs !! i = Some c →
  ∃ pre post, concat (to_le_bytes 4 <$> cs) = pre ++ to_le_bytes 4 c ++ post ∧ length pre = (i * 4)%nat.
Proof.
  intros E. exists (concat (to_le_bytes 4 <$> take i cs)), (concat (to_le_bytes 4 <$> drop (S i) cs)). split.
  - rewrite <-(take_drop_middle cs i c E) at 1. rewrite fmap_app, concat_app. cbn. done.
  - rewrite length_concat_u32, length_take. apply lookup_lt_Some in E. lia.
Qed.

Lemma encoded_len_Ok n len : 0 ≤ n → encoded_len_for_count n = Ok len ↔
  n ≤ MAX_BASE_INTEGRITY_COVERED_PAGES ∧ len = 40 + 4 * n.
Proof.
  intros P. unfold encoded_len_for_count, checked_mul_u64, checked_add_u64, MAX_BASE_INTEGRITY_COVERED_PAGES,
    MAX_BASE_INTEGRITY_CATALOG_BYTES, CHECKSUM_LEN, CATALOG_HEADER_LEN, u64_MAX.
  destruct (n <=? 16777206) eqn:C; cbn [ensure mbind result_bind]; [apply Z.leb_le in C|apply Z.leb_gt in C; split; [done|lia]].
  rewrite (proj2 (Z.leb_le _ _)) by lia. cbn [ok_or mbind result_bind].
  rewrite (proj2 (Z.leb_le _ _)) by lia. cbn [ok_or mbind result_bind].
  rewrite (proj2 (Z.leb_le _ _)) by lia. cbn [ensure mbind result_bind].
  split; [intros [= <-]; split; lia|]. intros [_ ->]. f_equal. lia.
Qed.

Lemma read_u32_mid pre z post : u32_ok z → read_u32_le (pre ++ to_le_bytes 4 z ++ post) (length pre) = Ok z.
Proof.
  intros U. unfold read_u32_le. rewrite (get_range_at _ pre (to_le_bytes 4 z) post); [|done|done|by rewrite length_to_le_bytes].
  cbn. by rewrite from_to_le_bytes by (unfold u32_ok in U; cbn; lia).
Qed.
Lemma read_u64_mid pre z post : u64_ok z → read_u64_le (pre ++ to_le_bytes 8 z ++ post) (length pre) = Ok z.
Proof.
  intros U. unfold read_u64_le. rewrite (get_range_at _ pre (to_le_bytes 8 z) post); [|done|done|by rewrite length_to_le_bytes].
  cbn. by rewrite from_to_le_bytes by (unfold u64_ok in U; cbn; lia).
Qed.

(** A field read is a field at the front of the rest. *)
Lemma get_range_drop (bs x : bytes) a b : get_range bs a b = Some x → drop a bs = x ++ drop b bs ∧ length x = (b - a)%nat.
Proof.
  intros (Ha & Hb & ->)%get_range_Some. split; [|rewrite length_take, length_drop; lia].
  rewrite <-(take_drop (b - a) (drop a bs)) at 1. f_equal. rewrite drop_drop. f_equal. lia.
Qed.
Lemma read_u32_drop bs a z : read_u32_le bs a = Ok z → drop a bs = to_le_bytes 4 z ++ drop (a + 4) bs ∧ u32_ok z.
Proof.
  unfold read_u32_le. intros E. apply bind_Ok in E as (x & X & E). apply ok_or_Ok, get_range_drop in X as [X L].
  apply Ok_inj in E as <-. replace (a + 4 - a)%nat with 4%nat in L by lia. rewrite <-L, to_from_le_bytes. split; [by rewrite L|].
  pose proof (from_le_bytes_range x) as R. rewrite L in R. unfold u32_ok. cbn in R. lia.
Qed.
Lemma read_u64_drop bs a z : read_u64_le bs a = Ok z → drop a bs = to_le_bytes 8 z ++ drop (a + 8) bs ∧ u64_ok z.
Proof.
  unfold read_u64_le. intros E. apply bind_Ok in E as (x & X & E). apply ok_or_Ok, get_range_drop in X as [X L].
  apply Ok_inj in E as <-. replace (a + 8 - a)%nat with 8%nat in L by lia. rewrite <-L, to_from_le_bytes. split; [by rewrite L|].
  pose proof (from_le_bytes_range x) as R. rewrite L in R. unfold u64_ok. cbn in R. lia.
Qed.

Lemma checksums_drop bs n : ∀ k cs,
  mapR (λ index, read_u32_le bs (CATALOG_HEADER_LEN + index * CHECKSUM_LEN)) (seq k n) = Ok cs →
  length bs = (40 + 4 * (k + n))%nat →
  drop (40 + 4 * k) bs = concat (to_le_bytes 4 <$> cs) ∧ length cs = n ∧ Forall u32_ok cs.
Proof.
  unfold CATALOG_HEADER_LEN, CHECKSUM_LEN.
  induction n as [|n IH]; intros k cs E L; cbn [seq mapR] in E.
  - apply Ok_inj in E as <-. rewrite drop_ge by lia. done.
  - apply bind_Ok in E as (c & Ec & E). apply bind_Ok in E as (cs' & Ecs & E). apply Ok_inj in E as <-.
    apply read_u32_drop in Ec as [Ec U]. destruct (IH (S k) cs' Ecs) as (Ed & Ln & Fu); [lia|].
    replace (8 + 4 + 4 + 8 + 8 + 8 + k * 4)%nat with (40 + 4 * k)%nat in Ec by lia.
    rewrite Ec. replace (40 + 4 * k + 4)%nat with (40 + 4 * S k)%nat by lia. rewrite Ed. cbn [fmap list_fmap concat length].
    split_and!; [done|lia|by constructor].
Qed.

Lemma catalog_encode_decodes c bs : BasePageIntegrityCatalog.ok c ∧ encode c = Ok bs → decode bs = Ok c.
Proof.
  intros [[Og Os Oc Ok'] E]. unfold encode, encoded_len in E. apply bind_Ok in E as ([] & V & E).
  apply bind_Ok in E as (len & El & E). pose proof El as El0. apply encoded_len_Ok in El as [Mx ->]; [|lia].
  apply Ok_inj in E. set (tail := concat (to_le_bytes 4 <$> page_checksums c)) in E.
  assert (Ln : length bs = (40 + 4 * length (page_checksums c))%nat).
  { rewrite <-E. rewrite !length_app, !length_to_le_bytes. unfold tail. rewrite length_concat_u32. cbn. lia. }
  unfold MAX_BASE_INTEGRITY_COVERED_PAGES in Mx. unfold decode, CATALOG_HEADER_LEN.
  rewrite (proj2 (Nat.leb_le _ _)) by lia. cbn [ensure mbind result_bind].
  rewrite bool_decide_true.
  2: { rewrite <-E. by apply (get_range_app_mid [] PAGE_INTEGRITY_CATALOG_MAGIC). }
  cbn [ensure mbind result_bind].
  assert (R4 : ∀ off z pre post, bs = pre ++ to_le_bytes 4 z ++ post → length pre = off → u32_ok z → read_u32_le bs off = Ok z).
  { intros off z pre post -> <- U. by apply read_u32_mid. }
  assert (R8 : ∀ off z pre post, bs = pre ++ to_le_bytes 8 z ++ post → length pre = off → u64_ok z → read_u64_le bs off = Ok z).
  { intros off z pre post -> <- U. by apply read_u64_mid. }
  rewrite (R4 8%nat _ _ _ (eq_sym E)) by (done || unfold u32_ok, PAGE_INTEGRITY_CATALOG_CODEC_VERSION; lia).
  cbn [mbind result_bind]. rewrite Z.eqb_refl. cbn [ensure mbind result_bind].
  rewrite (app_assoc PAGE_INTEGRITY_CATALOG_MAGIC) in E.
  rewrite (R4 12%nat _ _ _ (eq_sym E)) by (done || unfold u32_ok, PAGE_INTEGRITY_CATALOG_RESERVED; lia).
  cbn [mbind result_bind]. rewrite Z.eqb_refl. cbn [ensure mbind result_bind]. rewrite app_assoc in E.
  rewrite (R8 16%nat _ _ _ (eq_sym E)) by done. cbn [mbind result_bind]. rewrite app_assoc in E.
  rewrite (R8 24%nat _ _ _ (eq_sym E)) by done. cbn [mbind result_bind]. rewrite app_assoc in E.
  rewrite (R8 32%nat _ _ _ (eq_sym E)) by (done || unfold u64_ok; lia). cbn [mbind result_bind]. rewrite app_assoc in E.
  rewrite V. cbn [mbind result_bind]. rewrite El0. cbn [mbind result_bind].
  rewrite (proj2 (Z.eqb_eq _ _)) by lia. cbn [ensure mbind result_bind].
  assert (M : mapR (λ index, read_u32_le bs (8 + 4 + 4 + 8 + 8 + 8 + index * CHECKSUM_LEN))
                (seq 0 (Z.to_nat (covered_page_count c))) = Ok (page_checksums c)).
  { apply mapR_Forall2. rewrite Oc, Nat2Z.id. apply Forall2_same_length_lookup. split; [by rewrite length_seq|].
    intros i x cs Ex Ecs. apply lookup_seq in Ex as [-> _]. cbn [Nat.add].
    destruct (concat_u32_slice _ _ _ Ecs) as (pre & post & Et & Lp). fold tail in Et. rewrite Et, app_assoc in E.
    apply (R4 _ _ _ _ (eq_sym E)); [|by apply (Forall_lookup_1 _ _ _ _ Ok' Ecs)].
    rewrite !length_app, !length_to_le_bytes, Lp. unfold CHECKSUM_LEN. cbn. lia. }
  rewrite M. cbn [mbind result_bind]. unfold build. rewrite <-Oc, V. cbn [mbind result_bind]. by destruct c.
Qed.

Lemma catalog_decode_encodes c bs : decode bs = Ok c → BasePageIntegrityCatalog.ok c ∧ encode c = Ok bs.
Proof.
  intros E. unfold decode in E. apply bind_Ok in E as (u1 & L40 & E). apply ensure_Ok, Nat.leb_le in L40.
  apply bind_Ok in E as (u2 & Mg & E). apply ensure_Ok, bool_decide_eq_true, get_range_drop in Mg as [Mg _].
  apply bind_Ok in E as (v & Ev & E). apply bind_Ok in E as (u3 & Cv & E). apply ensure_Ok, Z.eqb_eq in Cv.
  apply bind_Ok in E as (r & Er & E). apply bind_Ok in E as (u4 & Cr & E). apply ensure_Ok, Z.eqb_eq in Cr.
  apply bind_Ok in E as (g & Eg & E). apply bind_Ok in E as (s & Es & E). apply bind_Ok in E as (n & En & E).
  apply bind_Ok in E as ([] & V & E). apply bind_Ok in E as (len & Elen & E). apply bind_Ok in E as (u5 & Cl & E).
  apply ensure_Ok, Z.eqb_eq in Cl. apply bind_Ok in E as (cs & Ecs & E).
  apply read_u32_drop in Ev as [Ev _]. apply read_u32_drop in Er as [Er _]. apply read_u64_drop in Eg as [Eg Ug].
  apply read_u64_drop in Es as [Es Us]. apply read_u64_drop in En as [En Un]. subst v r.
  pose proof Elen as Elen0. apply encoded_len_Ok in Elen as [Mx ->]; [|unfold u64_ok in Un; lia].
  apply checksums_drop in Ecs as (Ed & Lc & Fc); [|unfold u64_ok in Un; lia].
  unfold build in E. apply bind_Ok in E as ([] & V' & E). apply Ok_inj in E as <-. unfold u64_ok in Un.
  assert (Nn : Z.of_nat (length cs) = n) by lia.
  split; [by split|]. unfold encode, encoded_len. cbn [base_generation covered_page_start covered_page_count page_checksums].
  rewrite V'. cbn [mbind result_bind]. rewrite Nn, Elen0. cbn [mbind result_bind]. f_equal.
  rewrite drop_0 in Mg. rewrite Mg. f_equal. rewrite Ev. f_equal. cbn [Nat.add]. rewrite Er. f_equal. cbn [Nat.add].
  rewrite Eg. f_equal. cbn [Nat.add]. rewrite Es. f_equal. cbn [Nat.add]. rewrite En. f_equal. cbn [Nat.add]. symmetry. exact Ed.
Qed.

(** Encoding and decoding the catalog are inverse, both ways: a catalog within
    the size limit encodes to bytes that decode to it, and any bytes that
    decode at all are the one encoding of what they decode to, so that a
    descriptor's checksum over the bytes identifies the catalog. *)
Theorem catalog_codec_bijective (c : BasePageIntegrityCatalog.t) (bs : bytes) :
  BasePageIntegrityCatalog.ok c ∧ encode c = Ok bs ↔ decode bs = Ok c.
Proof. split; [apply catalog_encode_decodes|apply catalog_decode_encodes]. Qed.

(** * Verification of pages *)

Section verify.
Context (crc32 : bytes → Z).

Lemma page_checksums_from_lookup g pages : ∀ id cs i page, page_checksums_from crc32 g id pages = Ok cs → pages !! i = Some page →
  ∃ c, cs !! i = Some c ∧ compute_page_checksum crc32 g (id + Z.of_nat i) page = Ok c.
Proof.
  induction pages as [|p pages IH]; intros id cs i page E Ep; [done|]. cbn [page_checksums_from] in E.
  apply bind_Ok in E as (c & Ec & E). apply bind_Ok in E as (nx & En & E). apply bind_Ok in E as (cs' & Ecs & E).
  apply Ok_inj in E as <-. apply ok_or_Ok in En. unfold checked_add_u64 in En. case_match; simplify_eq.
  destruct i as [|i]; cbn in Ep |- *; [simplify_eq; exists c; split; [done|]; by rewrite Z.add_0_r|].
  destruct (IH _ _ i page Ecs Ep) as (c' & ? & E'). exists c'. split; [done|].
  by replace (id + Z.of_nat (S i)) with (id + 1 + Z.of_nat i) by lia.
Qed.
Lemma page_checksums_from_length g pages : ∀ id cs, page_checksums_from crc32 g id pages = Ok cs → length cs = length pages.
Proof.
  induction pages as [|p pages IH]; intros id cs E; cbn [page_checksums_from] in E; [by inv_ok|].
  inv_ok. cbn. f_equal. by eapply IH.
Qed.

(** C28: The catalog of a base accepts each of its pages at its own position, and
    nothing else but a checksum collision: an accepted page lies in the covered
    range, is a full page, and its checksum, generation and position included,
    is that of the page published there; page 0 is never accepted. *)
Theorem verified_pages g start pages c id page :
  from_pages crc32 g start pages = Ok c →
  (verify_page crc32 c id page = Ok () ↔
   id ≠ 0 ∧ ∃ i published, id = start + Z.of_nat i ∧ pages !! i = Some published ∧ length page = PAGE_SIZE ∧
     crc32 (PAGE_CHECKSUM_DOMAIN ++ to_le_bytes 8 g ++ to_le_bytes 8 id ++ page) =
     crc32 (PAGE_CHECKSUM_DOMAIN ++ to_le_bytes 8 g ++ to_le_bytes 8 id ++ published)).
Proof.
  intros E. unfold from_pages, build in E. apply bind_Ok in E as (cs & Ecs & E). apply bind_Ok in E as ([] & V & E).
  apply Ok_inj in E as <-. pose proof (page_checksums_from_length _ _ _ _ Ecs) as L.
  unfold verify_page, checksum_for_page. cbn [base_generation covered_page_start page_checksums]. split.
  - intros E. apply bind_Ok in E as (ex & Eex & E). apply bind_Ok in Eex as (off & Eoff & Eex). apply ok_or_Ok in Eex.
    case_match eqn:Cs; [|done]. apply Z.leb_le in Cs. apply Ok_inj in Eoff as <-.
    destruct (lookup_lt_is_Some_2 pages (Z.to_nat (id - start))) as [pub Epub]; [rewrite <-L; by apply lookup_lt_Some in Eex|].
    destruct (page_checksums_from_lookup _ _ _ _ _ _ Ecs Epub) as (c & Ec & Hc). simplify_eq.
    rewrite Z2Nat.id in Hc by lia. replace (start + (id - start)) with id in Hc by lia.
    apply bind_Ok in E as (act & Ea & E). apply ensure_Ok, Z.eqb_eq in E as ->. unfold compute_page_checksum in Ea, Hc.
    inv_ok. match goal with H : (length page =? PAGE_SIZE)%nat = true |- _ => apply Nat.eqb_eq in H end.
    split. { intros ->. done. }
    exists (Z.to_nat (id - start)), pub. split_and!; [lia|done|done|congruence].
  - intros (Nz & i & pub & Ei & Epub & Lp & Eq). destruct (page_checksums_from_lookup _ _ _ _ _ _ Ecs Epub) as (c & Ec & Hc).
    rewrite (proj2 (Z.leb_le _ _)) by lia. cbn [mbind result_bind]. replace (Z.to_nat (id - start)) with i by lia.
    rewrite Ec. cbn [ok_or mbind result_bind]. rewrite <-Ei in Hc. unfold compute_page_checksum in *. inv_ok.
    match goal with H : negb (g =? 0) = true |- _ => rewrite H end. cbn [ensure mbind result_bind].
    rewrite (proj2 (Z.eqb_neq _ _) Nz). cbn [negb ensure mbind result_bind].
    rewrite Lp, Nat.eqb_refl. cbn [ensure mbind result_bind]. by rewrite Eq, Z.eqb_refl.
Qed.
End verify.

(** A checksum that adds up the bytes, and a base of two pages. *)
Definition demo_sum (bs : bytes) : Z := foldr (λ b n, b2z b + n) 0 bs.
Definition demo_pages : list bytes := [replicate PAGE_SIZE (z2b 1); replicate PAGE_SIZE (z2b 2)].
Definition demo_catalog : BasePageIntegrityCatalog.t :=
  match from_pages demo_sum 5 1 demo_pages with Ok c => c | Err _ => mk 0 1 0 [] end.

Lemma verified_pages_witness :
  verify_page demo_sum demo_catalog 2 (replicate PAGE_SIZE (z2b 2)) = Ok ().
Proof.
  apply (verified_pages demo_sum 5 1 demo_pages demo_catalog 2 (replicate PAGE_SIZE (z2b 2))); [vm_compute; reflexivity|].
  split; [lia|]. exists 1%nat, (replicate PAGE_SIZE (z2b 2)). split_and!; [lia|reflexivity|apply length_replicate|reflexivity].
Defined.
