(* ===== verification/BTreeIndex.v ===== *)
(** The index reader over on-disk B+trees (src/src/storage/btree_v6.rs):
    [MutexStorageBackend], [OnDiskIndexReader] and its implementation of the
    committed-index interface.

    [PostcardKey] is what the trees use of postcard for one key type; its laws
    say that it reads back what it wrote.  Locks are taken for one page read at a
    time, so an operation sees the backend and the cache as it finds them; a
    coherent cache shows the backend's pages.  [fuel] bounds descent and scans. *)
From S2P Require Import Prelude Types ValueCodec Index Wal FactStore PackedPages Cache BTreePages Lookup BTreeScan HeaderPage Backends BTreeBuild PageIntegrity.

(** * postcard *)

Class PostcardKey (K : Type) : Type := {
  pc_ser_key : K → result bytes;
  pc_ser_entry : K * FactRef → result bytes;
  pc_de_key : bytes → result K;
  pc_de_entry : bytes → result (K * FactRef);
  pc_take_entry : bytes → result ((K * FactRef) * bytes);
}.
Class PostcardKeyLaws (K : Type) `{PostcardKey K} : Prop := {
  pc_key_inverts k bs : pc_ser_key k = Ok bs → pc_de_key bs = Ok k;
  pc_entry_inverts e bs : pc_ser_entry e = Ok bs → pc_de_entry bs = Ok e;
  pc_take_inverts e bs : pc_ser_entry e = Ok bs → pc_take_entry bs = Ok (e, []);
}.

(** * Definitions *)

Section reader.
Context {B : Type} `{StorageBackend B} (crc32 : bytes → Z).
Context `{PostcardKey EavtKey, PostcardKey AevtKey, PostcardKey AvetKey, PostcardKey VaetKey}.

Record MutexStorageBackend : Type := mkMutexBackend {
  ms_backend : B;
  base_integrity : option BasePageIntegrityCatalog.t;
}.
Definition mutex_read_page (m : MutexStorageBackend) (page_id : Z) : result bytes :=
  page ← backend_read_page (ms_backend m) page_id;
  match base_integrity m with
  | Some catalog => _ ← BasePageIntegrityCatalog.verify_page crc32 catalog page_id page; Ok page
  | None => Ok page
  end.

Record OnDiskIndexReader : Type := mkIndexReader {
  backend_adapter : MutexStorageBackend;
  od_cache : CacheInner;
  eavt_root : Z;
  aevt_root : Z;
  avet_root : Z;
  vaet_root : Z;
}.
Definition index_reader_new (b : B) (cache : CacheInner) (eavt_root aevt_root avet_root vaet_root : Z)
    : OnDiskIndexReader :=
  mkIndexReader (mkMutexBackend b None) cache eavt_root aevt_root avet_root vaet_root.
Definition index_reader_new_verified (b : B) (cache : CacheInner) (catalog : BasePageIntegrityCatalog.t)
    (eavt_root aevt_root avet_root vaet_root : Z) : OnDiskIndexReader :=
  mkIndexReader (mkMutexBackend b (Some catalog)) cache eavt_root aevt_root avet_root vaet_root.

(** [self.cache.get_or_load(page_id, &self.backend_adapter)]. *)
Definition od_load (r : OnDiskIndexReader) (page_id : Z) : result bytes :=
  '(_, page) ← get_or_load (mutex_read_page (backend_adapter r)) (od_cache r) page_id;
  Ok page.

(** [decode_projected_*]: the borrowed decoder and its check for leftover bytes. *)
Definition decode_projected {K} `{PostcardKey K} (bs : bytes) : result (K * FactRef) :=
  decode_entry pc_take_entry bs.

Section over.
Context (fuel : nat) (r : OnDiskIndexReader).

(** Nothing is stored under a root of 0. *)
Definition od_range_scan {K} `{Ord K, PostcardKey K} (root : Z) (start : K) (stop : option K) : result (list FactRef) :=
  if root =? 0 then Ok [] else range_scan (od_load r) pc_de_key pc_de_entry fuel root start stop.
Definition od_range_scan_entries {K} `{Ord K, PostcardKey K} (root : Z) (start : K) (stop : option K)
    : result (list (K * FactRef)) :=
  if root =? 0 then Ok [] else range_scan_entries (od_load r) pc_de_key pc_de_entry fuel root start stop.

Definition visit_current_eavt_range {S'} (start : EavtKey) (stop : option EavtKey)
    (visit : S' → CurrentEavtEntryRef.t * FactRef → result (S' * bool)) (s : S') : result (S' * bool) :=
  visit_current_range (od_load r) pc_de_key decode_projected eavt_wire_cmp_owned
    (project CurrentEavtEntryRef.from_owned) fuel (eavt_root r) start stop visit s.
Definition visit_current_aevt_range {S'} (start : AevtKey) (stop : option AevtKey)
    (visit : S' → CurrentAevtEntryRef.t * FactRef → result (S' * bool)) (s : S') : result (S' * bool) :=
  visit_current_range (od_load r) pc_de_key decode_projected aevt_wire_cmp_owned
    (project CurrentAevtEntryRef.from_owned) fuel (aevt_root r) start stop visit s.
Definition visit_current_vaet_range {S'} (start : VaetKey) (stop : option VaetKey)
    (visit : S' → CurrentVaetEntryRef.t * FactRef → result (S' * bool)) (s : S') : result (S' * bool) :=
  visit_current_range (od_load r) pc_de_key decode_projected vaet_wire_cmp_owned
    (project CurrentVaetEntryRef.from_owned) fuel (vaet_root r) start stop visit s.

Definition od_range_scan_avet (start : AvetKey) (stop : option AvetKey) : result (list FactRef) :=
  od_range_scan (avet_root r) start stop.
Definition od_visit_aevt_entries {S'} (start : AevtKey) (stop : option AevtKey)
    (visit : S' → AevtKey * FactRef → result (S' * bool)) (s : S') : result (S' * bool) :=
  if aevt_root r =? 0 then Ok (s, true)
  else visit_range_entries (od_load r) pc_de_key pc_de_entry fuel (aevt_root r) start stop visit s.

Definition on_disk_reader : CommittedIndexReader := {|
  ix_range_scan_eavt start stop := od_range_scan (eavt_root r) start stop;
  ix_visit_eavt S' start stop visit s :=
    if eavt_root r =? 0 then Ok (s, true) else visit_current_eavt_range start stop visit s;
  ix_range_scan_aevt start stop := od_range_scan (aevt_root r) start stop;
  ix_visit_aevt S' start stop visit s :=
    if aevt_root r =? 0 then Ok (s, true) else visit_current_aevt_range start stop visit s;
  ix_range_scan_vaet start stop := od_range_scan (vaet_root r) start stop;
  ix_visit_vaet S' start stop visit s :=
    if vaet_root r =? 0 then Ok (s, true) else visit_current_vaet_range start stop visit s;
|}.
End over.
End reader.
Arguments MutexStorageBackend : clear implicits.
Arguments OnDiskIndexReader : clear implicits.

(** * Reading through the adapter *)

Section adapter.
Context {B : Type} `{BL : BackendLaws B} (crc32 : bytes → Z).

(** The reader looks at the disk [d]. *)
Record looks_at (r : OnDiskIndexReader B) (d : Disk B) : Prop := {
  lk_backend : ms_backend (backend_adapter r) = dk_backend d;
  lk_coherent : coherent (read d) (od_cache r);
}.
Definition accepted (r : OnDiskIndexReader B) (id : Z) (page : bytes) : Prop :=
  match base_integrity (backend_adapter r) with
  | Some catalog => BasePageIntegrityCatalog.verify_page crc32 catalog id page = Ok ()
  | None => True
  end.

Lemma od_load_ok r d id page : looks_at r d → read d id = Ok page → accepted r id page →
  od_load crc32 r id = Ok page.
Proof using.
  intros [Eb Co] R Ac. unfold od_load, get_or_load, probe. destruct (entries (od_cache r) !! id) as [e|] eqn:L.
  - cbn. pose proof (Co id e L) as C. rewrite R in C. apply Ok_inj in C. by rewrite C.
  - cbn [fmap option_fmap option_map]. unfold mutex_read_page. rewrite Eb. unfold read in R. rewrite R. cbn [mbind result_bind].
    unfold accepted in Ac. destruct (base_integrity (backend_adapter r)) as [catalog|]; [rewrite Ac|].
    all: cbn [mbind result_bind]; unfold commit_load; by rewrite L.
Qed.

Lemma od_load_extends r d n : looks_at r d →
  (∀ id page, 0 < id < n → read d id = Ok page → accepted r id page) → extends (below n d) (od_load crc32 r).
Proof using.
  intros Lk Ac id page [P R]%below_Ok. apply (od_load_ok r d); [done|done|]. by apply Ac.
Qed.
End adapter.

(** * Trees of one key type *)

Section trees.
Context {K : Type} `{OL : OrdLaws K} `{PL : PostcardKeyLaws K}.

(** The entry and its key are small enough for a page of each kind. *)
Definition entry_fits (e : K * FactRef) : Prop :=
  ∃ b kb, pc_ser_entry e = Ok b ∧ (LEAF_HEADER_SIZE + SLOT_SIZE + length b ≤ PAGE_SIZE)%nat ∧
    pc_ser_key e.1 = Ok kb ∧ (INTERNAL_HEADER_SIZE + (8 + SLOT_SIZE) + length kb ≤ PAGE_SIZE)%nat.

Lemma projected_inverts e b : pc_ser_entry e = Ok b → decode_projected b = Ok e.
Proof using PL. intros E. unfold decode_projected, decode_entry. rewrite (pc_take_inverts e b E). done. Qed.

(** The tree at [root] holds [es], for both decoders and within the fuel. *)
Definition serves_tree (f : Z → result bytes) (fuel : nat) (root : Z) (es : list (K * FactRef)) : Prop :=
  0 < root ∧
  (∃ h leaves, btree f pc_de_key pc_de_entry h root leaves ∧ entries_of leaves = es ∧
     (h < fuel)%nat ∧ (length leaves ≤ fuel)%nat) ∧
  (∃ h leaves, btree f pc_de_key decode_projected h root leaves ∧ entries_of leaves = es ∧
     (h < fuel)%nat ∧ (length leaves ≤ fuel)%nat).

Lemma serves_tree_mono f g fuel fuel' root es : extends f g → (fuel ≤ fuel')%nat →
  serves_tree f fuel root es → serves_tree g fuel' root es.
Proof using.
  intros X L (P & (h & ls & T & E & B1 & B2) & (h' & ls' & T' & E' & B1' & B2')). split; [done|]. split.
  - exists h, ls. split_and!; [by eapply btree_mono|done|lia|lia].
  - exists h', ls'. split_and!; [by eapply btree_mono|done|lia|lia].
Qed.

Section scans.
Context (f : Z → result bytes) (fuel : nat) (root : Z) (es : list (K * FactRef)).
Hypothesis served : serves_tree f fuel root es.

Lemma served_range_entries start stop :
  range_scan_entries f pc_de_key pc_de_entry fuel root start stop = Ok (bt_from start stop es).
Proof using served OL.
  destruct served as (_ & (h & ls & T & <- & B1 & B2) & _). by eapply range_scan_entries_ok.
Qed.
Lemma served_range start stop :
  range_scan f pc_de_key pc_de_entry fuel root start stop = Ok (snd <$> bt_from start stop es).
Proof using served OL. unfold range_scan. by rewrite served_range_entries. Qed.
Lemma served_stream : stream_all_entries f pc_de_entry fuel root = Ok es.
Proof using served.
  destruct served as (_ & (h & ls & T & <- & B1 & B2) & _). by eapply stream_all_entries_ok.
Qed.
Lemma served_visit {S'} start stop (visit : S' → K * FactRef → result (S' * bool)) s :
  visit_range_entries f pc_de_key pc_de_entry fuel root start stop visit s = visitR visit s (bt_from start stop es).
Proof using served OL.
  destruct served as (_ & (h & ls & T & <- & B1 & B2) & _). by eapply visit_range_entries_ok.
Qed.
Lemma served_current {Entry S'} (cmp_owned : K → K → comparison) (prj : K → Entry) start stop
    (visit : S' → Entry * FactRef → result (S' * bool)) s :
  (∀ w k, cmp_owned w k = cmp w k) →
  visit_current_range f pc_de_key decode_projected cmp_owned prj fuel root start stop visit s =
  visitR visit s (prod_map prj id <$> bt_from start stop es).
Proof using served OL.
  intros Cm. destruct served as (_ & _ & (h & ls & T & <- & B1 & B2)). by eapply visit_current_range_ok.
Qed.
End scans.

(** ** Building *)

Context {B : Type} `{BL : BackendLaws B}.

Lemma items_ok (de : bytes → result (K * FactRef)) es : (∀ e b, pc_ser_entry e = Ok b → de b = Ok e) →
  Forall entry_fits es →
  Forall2 (item_ok pc_de_key de pc_ser_key) ((λ e, b ← pc_ser_entry e; Ok (b, e.1)) <$> es) es.
Proof using PL.
  intros De F. induction F as [|e es (b & kb & Eb & Lb & Ek & Lk) F IH]; [constructor|]. cbn. constructor; [|done].
  exists b, e.1, kb. rewrite Eb. split_and!; [done|by apply De|done|done|]. split; [by apply pc_key_inverts|done].
Qed.

Lemma root_positive n (d : Disk B) de h root leaves :
  subtree (below n d) pc_de_key de h root leaves → 0 < root.
Proof using.
  destruct h; cbn.
  - intros (l & nx & _ & <- & (page & pre & bs & [P _]%below_Ok & _)). lia.
  - intros (page & cs & ss & gs & [P _]%below_Ok & _). lia.
Qed.

Lemma build_tree_ok (d : Disk B) start options es :
  disk_ok d → 0 < start → start + 3 * Z.of_nat (length es) + 1 < 2 ^ 52 →
  (fill_bytes options + 8 ≤ PAGE_SIZE)%nat → Forall entry_fits es → strictly_ascending es →
  ∃ d' root next, build_btree_from_key_entries pc_ser_entry pc_ser_key es d start options = Ok (d', (root, next)) ∧
    disk_ok d' ∧ serves_tree (below next d') (S (length es)) root es ∧
    start < next ≤ start + 3 * Z.of_nat (length es) + 1 ∧ extends (below start d) (below start d').
Proof using BL PL.
  intros D P B2 Fi F A. unfold build_btree_from_key_entries.
  destruct (build_ok pc_de_key pc_de_entry pc_ser_key d start options _ es D P B2 Fi (items_ok pc_de_entry es pc_entry_inverts F) A)
    as (d' & root & next & h & ls & E & D' & T & El & Hh & Hl & Bn & X).
  destruct (build_ok pc_de_key decode_projected pc_ser_key d start options _ es D P B2 Fi (items_ok decode_projected es projected_inverts F) A)
    as (d2 & root2 & next2 & h2 & ls2 & E2 & _ & T2 & El2 & Hh2 & Hl2 & _ & _).
  rewrite E in E2. apply Ok_inj in E2. simplify_eq. exists d2, root2, next2. split_and!; [done|done| |lia|lia|done].
  split; [by eapply root_positive, T|]. split; [exists h, ls|exists h2, ls2]; split_and!; (done || lia).
Qed.

(** Serialising the keys of all entries up front, or only the first of each leaf,
    builds the same pages. *)
Lemma lazy_build_eager (d : Disk B) start options es pairs : btree_entries pc_ser_entry pc_ser_key es = Ok pairs →
  build_btree_from_key_entries pc_ser_entry pc_ser_key es d start options = build_btree_with_options pairs d start options.
Proof using.
  intros E%mapR_Forall2. unfold build_btree_from_key_entries, build_btree_with_options, build_btree_serialized_results.
  assert (Q : ∀ p, foldR (pack_entry pc_ser_key (fill_bytes options)) p ((λ e, b ← pc_ser_entry e; Ok (b, e.1)) <$> es) =
                   foldR (pack_entry Ok (fill_bytes options)) p (Ok <$> pairs)).
  { induction E as [|e [b kb] es pairs Ee F IH]; intros p; [done|].
    apply bind_Ok in Ee as (b' & Eb & Ee). apply bind_Ok in Ee as (kb' & Ek & Ee). apply Ok_inj in Ee. simplify_eq.
    cbn [fmap list_fmap foldR]. rewrite Eb. cbn [mbind result_bind].
    assert (S' : pack_entry pc_ser_key (fill_bytes options) p (Ok (b, e.1)) = pack_entry Ok (fill_bytes options) p (Ok (b, kb))).
    { unfold pack_entry. cbn [mbind result_bind]. destruct (prefix_record_layout _ _ _) as [[[? ?] ?]|x]; cbn [mbind result_bind]; [|done].
      destruct (ensure _ _); cbn [mbind result_bind]; [|done]. destruct (if _ : bool then _ else _) as [p'|x]; cbn [mbind result_bind]; [|done].
      destruct (pk_first_key p'); [done|]. by rewrite Ek. }
    rewrite S'. destruct (pack_entry Ok _ _ _); cbn [mbind result_bind]; [apply IH|done]. }
  by rewrite Q.
Qed.
End trees.

(** [cache.get_or_load(page_id, backend)] on the disk a build leaves behind. *)
Definition cached_load {B} `{StorageBackend B} (d : Disk B) (id : Z) : result bytes :=
  '(_, page) ← get_or_load (backend_read_page (dk_backend d)) (dk_cache d) id;
  Ok page.

Lemma cached_load_extends {B} `{BackendLaws B} (d : Disk B) : disk_ok d → extends (read d) (cached_load d).
Proof.
  intros [C Co _] id page R. pose proof (get_or_load_ok (read d) (dk_cache d) id C Co) as G.
  unfold cached_load. unfold read in *. destruct (get_or_load _ _ _) as [[c pg]|e]; cbn.
  - destruct G as (G & _). rewrite R in G. by apply Ok_inj in G as <-.
  - by rewrite R in G.
Qed.

(** C10: Building a B+tree from any ascending entries that fit on pages succeeds, and
    the pages it wrote are those entries: a full stream returns all of them in
    order, a range scan exactly those in the half-open range, whatever mix of
    raw and prefix-compressed leaves and however many levels the build chose;
    pages below the first new one keep their content and the page numbers used
    are bounded. *)
Theorem btree_round_trip {K} `{OrdLaws K} `{PostcardKeyLaws K} {B} `{BackendLaws B} (d : Disk B) start options es :
  disk_ok d → 0 < start → start + 3 * Z.of_nat (length es) + 1 < 2 ^ 52 →
  (fill_bytes options + 8 ≤ PAGE_SIZE)%nat → Forall entry_fits es → strictly_ascending es →
  ∃ pairs d' root next,
    btree_entries pc_ser_entry pc_ser_key es = Ok pairs ∧
    build_btree_with_options pairs d start options = Ok (d', (root, next)) ∧
    (∀ fuel, (length es < fuel)%nat →
       stream_all_entries (cached_load d') pc_de_entry fuel root = Ok es ∧
       ∀ lo hi, range_scan_entries (cached_load d') pc_de_key pc_de_entry fuel root lo hi = Ok (bt_from lo hi es)) ∧
    (∀ id page, 0 < id < start → read d id = Ok page → read d' id = Ok page) ∧
    start < next ≤ start + 3 * Z.of_nat (length es) + 1.
Proof.
  intros D P B2 Fi F A. assert (Pr : ∃ pairs, btree_entries pc_ser_entry pc_ser_key es = Ok pairs).
  { clear -F. induction F as [|e es (b & kb & Eb & _ & Ek & _) F [pairs IH]]; [by eexists|].
    unfold btree_entries in *. cbn [mapR]. rewrite Eb. cbn [mbind result_bind]. rewrite Ek. cbn [mbind result_bind].
    rewrite IH. by eexists. }
  destruct Pr as [pairs Ep]. destruct (build_tree_ok d start options es D P B2 Fi F A) as (d' & root & next & E & D' & T & Bn & X).
  exists pairs, d', root, next. split; [done|]. split; [by rewrite <-(lazy_build_eager d start options es pairs Ep)|].
  split; [|split; [|done]].
  - intros fuel Fu. assert (T' : serves_tree (cached_load d') fuel root es).
    { eapply serves_tree_mono; [|exact Fu|exact T]. eapply extends_trans; [apply below_read|by apply cached_load_extends]. }
    split; [by apply served_stream|]. intros lo hi. by apply served_range_entries.
  - intros id page Pi R. assert (Y : below start d' id = Ok page) by (apply X, below_Ok; done).
    by apply below_Ok in Y as [_ Y].
Qed.

(** * The reader serves its indexes *)

Section serves.
Context {B : Type} `{BL : BackendLaws B} (crc32 : bytes → Z).
Context `{PE : PostcardKeyLaws EavtKey, PA : PostcardKeyLaws AevtKey, PV : PostcardKeyLaws AvetKey, PR : PostcardKeyLaws VaetKey}.

Lemma eavt_wire_cmp_rest w k : eavt_wire_cmp_owned w k = cmp w k.
Proof using. done. Qed.
Lemma aevt_wire_cmp_rest w k : aevt_wire_cmp_owned w k = cmp w k.
Proof using. done. Qed.
Lemma vaet_wire_cmp_rest w k : vaet_wire_cmp_owned w k = cmp w k.
Proof using. done. Qed.

(** Trees that hold the four indexes of the rows make a reader that keeps the
    promise the fact store relies on. *)
Lemma on_disk_reader_serves fuel (r : OnDiskIndexReader B) rows :
  serves_tree (od_load crc32 r) fuel (eavt_root r) (eavt (indexes_of rows)) →
  serves_tree (od_load crc32 r) fuel (aevt_root r) (aevt (indexes_of rows)) →
  serves_tree (od_load crc32 r) fuel (vaet_root r) (vaet (indexes_of rows)) →
  ServesIndex (on_disk_reader crc32 fuel r) rows.
Proof using.
  intros E A V. assert (NZ : ∀ z, 0 < z → (z =? 0) = false) by (intros; apply Z.eqb_neq; lia).
  split; intros; cbn; unfold od_range_scan, visit_current_eavt_range, visit_current_aevt_range, visit_current_vaet_range.
  - rewrite (NZ _ (proj1 E)). by apply served_range.
  - rewrite (NZ _ (proj1 E)). by apply served_current.
  - rewrite (NZ _ (proj1 A)). by apply served_range.
  - exists (bt_from start stop (aevt (indexes_of rows))). split_and!; [done..|]. intros S visit x. rewrite (NZ _ (proj1 A)).
    by apply served_current.
  - rewrite (NZ _ (proj1 V)). by apply served_range.
  - rewrite (NZ _ (proj1 V)). by apply served_current.
Qed.
End serves.

(** * Witnesses *)

(** Keys of eight bytes and references of ten. *)
#[global] Instance demo_postcard : PostcardKey Z := {|
  pc_ser_key k := if (0 <=? k) && (k <? 2 ^ 64) then Ok (to_le_bytes 8 k) else Err "width";
  pc_ser_entry e :=
    if ((0 <=? e.1) && (e.1 <? 2 ^ 64)) && ((0 <=? page_id e.2) && (page_id e.2 <? 2 ^ 64)) &&
       ((0 <=? slot_index e.2) && (slot_index e.2 <? 2 ^ 16))
    then Ok (to_le_bytes 8 e.1 ++ to_le_bytes 8 (page_id e.2) ++ to_le_bytes 2 (slot_index e.2)) else Err "width";
  pc_de_key bs := Ok (from_le_bytes bs);
  pc_de_entry bs :=
    Ok (from_le_bytes (take 8 bs), mkFactRef (from_le_bytes (take 8 (drop 8 bs))) (from_le_bytes (take 2 (drop 16 bs))));
  pc_take_entry bs :=
    Ok ((from_le_bytes (take 8 bs), mkFactRef (from_le_bytes (take 8 (drop 8 bs))) (from_le_bytes (take 2 (drop 16 bs)))),
        drop 18 bs);
|}.
#[global] Instance demo_postcard_laws : PostcardKeyLaws Z.
Proof.
  assert (W : ∀ n z, 0 ≤ z < 2 ^ (Z.of_nat n * 8) → from_le_bytes (to_le_bytes n z) = z) by (apply from_to_le_bytes).
  assert (Wide : ∀ (e : Z * FactRef) bs, pc_ser_entry e = Ok bs →
    bs = to_le_bytes 8 e.1 ++ to_le_bytes 8 (page_id e.2) ++ to_le_bytes 2 (slot_index e.2) ∧
    0 ≤ e.1 < 2 ^ 64 ∧ 0 ≤ page_id e.2 < 2 ^ 64 ∧ 0 ≤ slot_index e.2 < 2 ^ 16).
  { intros e bs E. cbn in E. case_match eqn:C; [|done]. apply Ok_inj in E as <-. split; [done|].
    rewrite !andb_true_iff, !Z.leb_le, !Z.ltb_lt in C. lia. }
  assert (Parts : ∀ (e : Z * FactRef) bs, pc_ser_entry e = Ok bs →
    (from_le_bytes (take 8 bs), mkFactRef (from_le_bytes (take 8 (drop 8 bs))) (from_le_bytes (take 2 (drop 16 bs)))) = e ∧
    drop 18 bs = []).
  { intros [k [p s]] bs (-> & Hk & Hp & Hs)%Wide. cbn [fst snd page_id slot_index] in *.
    rewrite take_app_length' by (by rewrite length_to_le_bytes).
    rewrite (drop_app_length' _ _ 8) by (by rewrite length_to_le_bytes).
    rewrite take_app_length' by (by rewrite length_to_le_bytes).
    rewrite (app_assoc (to_le_bytes 8 k)), (drop_app_length' _ _ 16) by (by rewrite length_app, !length_to_le_bytes).
    rewrite take_ge by (by rewrite length_to_le_bytes). rewrite !W by (cbn; lia). split; [done|].
    rewrite drop_ge; [done|]. by rewrite !length_app, !length_to_le_bytes. }
  split.
  - intros k bs E. cbn in E |- *. case_match eqn:C; [|done]. apply Ok_inj in E as <-.
    rewrite andb_true_iff, Z.leb_le, Z.ltb_lt in C. rewrite W by (cbn; lia). done.
  - intros e bs E. cbn. by rewrite (proj1 (Parts e bs E)).
  - intros e bs E. cbn. destruct (Parts e bs E) as [-> ->]. done.
Qed.

Definition demo_entries : list (Z * FactRef) := [(3, mkFactRef 1 0); (5, mkFactRef 1 1); (9, mkFactRef 2 0)].
Definition demo_disk : Disk MemoryBackend.t := mkDisk MemoryBackend.new (cache_new 16).

Lemma demo_disk_ok : disk_ok demo_disk.
Proof.
  split; [apply cache_new_ok|intros id e L|intros id e L]; cbn in L; by rewrite lookup_empty in L.
Qed.

Lemma btree_round_trip_witness :
  ∃ pairs d' root next,
    btree_entries pc_ser_entry pc_ser_key demo_entries = Ok pairs ∧
    build_btree_with_options pairs demo_disk 1 build_options_default = Ok (d', (root, next)) ∧
    range_scan_entries (cached_load d') pc_de_key pc_de_entry 4 root 4 (Some 9) = Ok [(5, mkFactRef 1 1)].
Proof.
  destruct (btree_round_trip demo_disk 1 build_options_default demo_entries) as (pairs & d' & root & next & E1 & E2 & R & _).
  - apply demo_disk_ok.
  - lia.
  - cbn; lia.
  - apply Nat.leb_le. vm_compute. reflexivity.
  - repeat constructor; (eexists _, _; split; [vm_compute; reflexivity|]; split; [apply Nat.leb_le; vm_compute; reflexivity|];
      split; [vm_compute; reflexivity|apply Nat.leb_le; vm_compute; reflexivity]).
  - repeat constructor.
  - exists pairs, d', root, next. split; [exact E1|]. split; [exact E2|].
    destruct (R 4%nat) as [_ R']; [cbn; lia|]. rewrite R'. reflexivity.
Defined.

(** ** What the size tests let through *)

(** An entry too large for a leaf is refused when it comes first; when it comes
    after another entry the test is not made again for the new leaf, the build
    reports success, and the slot directory has overwritten the entry. *)
Definition big_entry : bytes := replicate (Z.to_nat 4084) (z2b 7).
Example big_entry_first_refused :
  build_btree [(big_entry, [z2b 2])] demo_disk 1 = Err "B-tree leaf entry does not fit in one page".
Proof. vm_compute. reflexivity. Qed.
Example big_entry_later_damaged :
  match build_btree [([z2b 1], [z2b 1]); (big_entry, [z2b 2])] demo_disk 1 with
  | Ok (d, _) =>
      match (page ← read d 2; leaf_entry_slice page 1 0) with
      | Ok stored => (length stored =? length big_entry)%nat && negb (bool_decide (stored = big_entry))
      | Err _ => false
      end
  | Err _ => false
  end = true.
Proof. vm_compute. reflexivity. Qed.

(** The test for separators counts the child pointers before the one it adds, so
    a page may be filled eight bytes too far: at a fill target of 100 percent,
    66 separators of 50 bytes are accepted and two of them are lost. *)
Definition demo_separators : list (Z * bytes) := replicate 67 (1, replicate 50 (z2b 7)).
Example full_internal_page_damaged :
  match fill_node PAGE_SIZE [1] [] 0 demo_separators with
  | Ok (children, seps, _) =>
      match internal_page children seps with
      | Ok page =>
          (length seps =? 66)%nat &&
          match slot_slice page (INTERNAL_HEADER_SIZE + 66 * 8 + 64 * SLOT_SIZE) with
          | Ok stored => negb (bool_decide (stored = replicate 50 (z2b 7)))
          | Err _ => true
          end
      | Err _ => false
      end
  | Err _ => false
  end = true.
Proof. vm_compute. reflexivity. Qed.
