(* ===== verification/IndexOrder.v ===== *)
(** Index entries of the pending facts at a checkpoint
    (src/src/storage/persistent_facts.rs, [PendingIndexOrder] and
    [build_sorted_index_entries]): one buffer of positions is sorted four times,
    once per index, and turned into entries; with a single attribute the AEVT
    sort is skipped.

    [sort_unstable_by] is any sort; the keys of distinct facts are distinct, so
    its result is determined.  The borrowed key views have the fields of the
    owned keys in the same order, which is all postcard sees of them, so they are
    the same types here. *)
From S2P Require Import Prelude Types ValueCodec NetView SortedRuns Index PendingOverlay FactStore Lookup MergeScan CurrentState IndexScan Cursors EntityCursors RefsCursor.

Definition BorrowedEavtKey : Type := EavtKey.
Definition BorrowedAevtKey : Type := AevtKey.
Definition BorrowedAvetKey : Type := AvetKey.
Definition BorrowedVaetKey : Type := VaetKey.

Definition eavt_key_with_value_bytes (f : Fact) (vb : bytes) : EavtKey :=
  mkEavt (entity f) (attribute f) (valid_from f) (valid_to f) (tx_count f) vb (tx_id f) (asserted f).
Definition aevt_key_with_value_bytes (f : Fact) (vb : bytes) : AevtKey :=
  mkAevt (attribute f) (entity f) (valid_from f) (valid_to f) (tx_count f) vb (tx_id f) (asserted f).
Definition avet_key_with_value_bytes (f : Fact) (vb : bytes) : AvetKey :=
  mkAvet (attribute f) vb (valid_from f) (valid_to f) (entity f) (tx_count f) (tx_id f) (asserted f).
Definition fact_vaet_key (f : Fact) : option VaetKey :=
  match value f with
  | VRef target => Some (mkVaet target (attribute f) (valid_from f) (valid_to f) (entity f) (tx_count f) (tx_id f) (asserted f))
  | _ => None
  end.

(** * The sort buffer *)

Record PendingIndexOrder : Type := mkOrder {
  po_facts : list Fact;
  po_refs : list FactRef;
  po_value_bytes : list bytes;
  po_order : list nat;
  uniform_attribute : bool;
  eavt_ordered : bool;
}.

Definition required_index {A} (slice : list A) (i : nat) : result A :=
  ok_or (slice !! i) "pending sort index must originate from the fact slice".

Definition pending_order_new (facts : list Fact) (refs : list FactRef) : PendingIndexOrder :=
  let uniform := match facts with
                 | [] => true
                 | first :: _ => forallb (λ fact, bool_decide (attribute fact = attribute first)) facts
                 end in
  mkOrder facts refs ((λ f, encode_value (value f)) <$> facts) [] uniform false.

Definition with_order (o : PendingIndexOrder) (order : list nat) (ordered : bool) : PendingIndexOrder :=
  mkOrder (po_facts o) (po_refs o) (po_value_bytes o) order (uniform_attribute o) ordered.
Definition reset_all (o : PendingIndexOrder) : PendingIndexOrder := with_order o (seq 0 (length (po_facts o))) false.

(** [order.sort_unstable_by] with a comparison of keys read at the positions. *)
Definition sort_order {T} `{Ord T} (key : nat → result T) (order : list nat) : result (list nat) :=
  keyed ← mapR (λ i, k ← key i; Ok (k, i)) order;
  Ok (snd <$> merge_sort (λ x y, le_ord x.1 y.1) keyed).

Definition sort_eavt (o : PendingIndexOrder) : result PendingIndexOrder :=
  let o := reset_all o in
  order ← sort_order (λ i,
    f ← required_index (po_facts o) i;
    vb ← required_index (po_value_bytes o) i;
    Ok (entity f, (attribute f, (valid_from f, (valid_to f, (tx_count f, (vb, (tx_id f, asserted f)))))))) (po_order o);
  Ok (with_order o order true).

Definition sort_aevt (o : PendingIndexOrder) : result PendingIndexOrder :=
  if uniform_attribute o && eavt_ordered o then Ok o
  else
    let o := reset_all o in
    order ← sort_order (λ i,
      f ← required_index (po_facts o) i;
      vb ← required_index (po_value_bytes o) i;
      Ok (attribute f, (entity f, (valid_from f, (valid_to f, (tx_count f, (vb, (tx_id f, asserted f)))))))) (po_order o);
    Ok (with_order o order false).

Definition sort_avet (o : PendingIndexOrder) : result PendingIndexOrder :=
  let o := reset_all o in
  order ← sort_order (λ i,
    f ← required_index (po_facts o) i;
    vb ← required_index (po_value_bytes o) i;
    Ok (attribute f, (vb, (valid_from f, (valid_to f, (entity f, (tx_count f, (tx_id f, asserted f)))))))) (po_order o);
  Ok (with_order o order false).

Definition sort_vaet (o : PendingIndexOrder) : result PendingIndexOrder :=
  let refs := omap (λ '(i, f), match value f with VRef _ => Some i | _ => None end) (zip (seq 0 (length (po_facts o))) (po_facts o)) in
  order ← sort_order (λ i,
    f ← required_index (po_facts o) i;
    target ← match value f with VRef t => Ok t | _ => Err "VAET order contains only Ref values" end;
    Ok (target, (attribute f, (valid_from f, (valid_to f, (entity f, (tx_count f, (tx_id f, asserted f)))))))) refs;
  Ok (with_order o order (eavt_ordered o)).

(** ** The entries in the order of the buffer *)

Definition entries_at {K} (o : PendingIndexOrder) (key : Fact → bytes → result K) : result (list (K * FactRef)) :=
  mapR (λ i,
    f ← required_index (po_facts o) i;
    vb ← required_index (po_value_bytes o) i;
    k ← key f vb;
    r ← required_index (po_refs o) i;
    Ok (k, r)) (po_order o).

Definition eavt_entries (o : PendingIndexOrder) : result (list (EavtKey * FactRef)) :=
  entries_at o (λ f vb, Ok (eavt_key_with_value_bytes f vb)).
Definition borrowed_eavt_entries (o : PendingIndexOrder) : result (list (BorrowedEavtKey * FactRef)) :=
  entries_at o (λ f vb, Ok (mkEavt (entity f) (attribute f) (valid_from f) (valid_to f) (tx_count f) vb (tx_id f) (asserted f))).
Definition aevt_entries (o : PendingIndexOrder) : result (list (AevtKey * FactRef)) :=
  entries_at o (λ f vb, Ok (aevt_key_with_value_bytes f vb)).
Definition borrowed_aevt_entries (o : PendingIndexOrder) : result (list (BorrowedAevtKey * FactRef)) :=
  entries_at o (λ f vb, Ok (mkAevt (attribute f) (entity f) (valid_from f) (valid_to f) (tx_count f) vb (tx_id f) (asserted f))).
Definition avet_entries (o : PendingIndexOrder) : result (list (AvetKey * FactRef)) :=
  entries_at o (λ f vb, Ok (avet_key_with_value_bytes f vb)).
Definition borrowed_avet_entries (o : PendingIndexOrder) : result (list (BorrowedAvetKey * FactRef)) :=
  entries_at o (λ f vb, Ok (mkAvet (attribute f) vb (valid_from f) (valid_to f) (entity f) (tx_count f) (tx_id f) (asserted f))).

Definition vaet_entries (o : PendingIndexOrder) : result (list (VaetKey * FactRef)) :=
  mapR (λ i,
    f ← required_index (po_facts o) i;
    k ← ok_or (fact_vaet_key f) "VAET order contains only Ref values";
    r ← required_index (po_refs o) i;
    Ok (k, r)) (po_order o).
Definition borrowed_vaet_entries (o : PendingIndexOrder) : result (list (BorrowedVaetKey * FactRef)) :=
  mapR (λ i,
    f ← required_index (po_facts o) i;
    target ← match value f with VRef t => Ok t | _ => Err "VAET order contains only Ref values" end;
    r ← required_index (po_refs o) i;
    Ok (mkVaet target (attribute f) (valid_from f) (valid_to f) (entity f) (tx_count f) (tx_id f) (asserted f), r)) (po_order o).

(** * The direct construction *)

Definition SortedIndexEntries : Type := Indexes.

Definition push_index_entries_for_fact (es : SortedIndexEntries) (f : Fact) (r : FactRef) : SortedIndexEntries :=
  let vb := encode_value (value f) in {|
  eavt := eavt es ++ [(mkEavt (entity f) (attribute f) (valid_from f) (valid_to f) (tx_count f) vb (tx_id f) (asserted f), r)];
  aevt := aevt es ++ [(mkAevt (attribute f) (entity f) (valid_from f) (valid_to f) (tx_count f) vb (tx_id f) (asserted f), r)];
  avet := avet es ++ [(mkAvet (attribute f) vb (valid_from f) (valid_to f) (entity f) (tx_count f) (tx_id f) (asserted f), r)];
  vaet := match value f with
          | VRef target => vaet es ++ [(mkVaet target (attribute f) (valid_from f) (valid_to f) (entity f) (tx_count f) (tx_id f) (asserted f), r)]
          | _ => vaet es
          end;
|}.

Definition sort_entries {K} `{Ord K} (es : list (K * FactRef)) : list (K * FactRef) :=
  merge_sort (λ x y, le_ord x.1 y.1) es.
Definition sort_index_entries (es : SortedIndexEntries) : SortedIndexEntries := {|
  eavt := sort_entries (eavt es); aevt := sort_entries (aevt es);
  avet := sort_entries (avet es); vaet := sort_entries (vaet es) |}.

Definition build_sorted_index_entries (facts : list Fact) (refs : list FactRef) : SortedIndexEntries :=
  sort_index_entries (foldl (λ es '(f, r), push_index_entries_for_fact es f r) indexes_new (zip facts refs)).

(** * Both give the indexes of the facts *)

#[local] Instance row_inhabited : Inhabited (Fact * FactRef) := populate (no_fact, mkFactRef 0 0).

Section uniqueness.
Context {K : Type} `{OrdLaws K}.

Lemma ascending_unique (l m : list (K * FactRef)) : strictly_ascending l → strictly_ascending m → l ≡ₚ m → l = m.
Proof.
  intros L M P. eapply (StronglySorted_unique_strong (λ x y : K * FactRef, cmp x.1 y.1 = Lt)); [|done..].
  intros x y _ _ A B. pose proof (cmp_opp x.1 y.1) as O. rewrite A, B in O. done.
Qed.

Lemma index_unique (kf : Fact → K) (rows l : list (Fact * FactRef)) : NoDup (kf <$> rows.*1) → l ≡ₚ rows →
  StronglySorted (λ x y, le_ord (kf x.1) (kf y.1)) l → prod_map kf id <$> l = index_of kf rows.
Proof.
  intros N P S. rewrite <-list_fmap_compose in N.
  pose proof (sort_strict (kf ∘ fst) rows l P S N) as St. destruct (bt_build (prod_map kf id <$> rows)) as [A Q].
  apply ascending_unique; [|exact A|].
  - clear -St. induction St as [|x l S IH F]; [constructor|]. cbn. constructor; [done|]. by apply Forall_fmap.
  - unfold index_of. rewrite Q; [by rewrite P|]. by rewrite <-list_fmap_compose.
Qed.
End uniqueness.

Lemma sort_order_ok {T} `{PreOrdLaws T} (key : nat → result T) (tk : nat → T) order :
  (∀ i, i ∈ order → key i = Ok (tk i)) →
  ∃ order', sort_order key order = Ok order' ∧ order' ≡ₚ order ∧ StronglySorted (λ i j, le_ord (tk i) (tk j)) order'.
Proof.
  intros E. unfold sort_order.
  rewrite (mapR_total _ (λ i, (tk i, i))) by (intros i I; by rewrite E). cbn [mbind result_bind].
  set (keyed := (λ i, (tk i, i)) <$> order). pose proof (merge_sort_Permutation (λ x y : T * nat, le_ord x.1 y.1) keyed) as P.
  eexists. split; [done|]. split.
  - rewrite P. unfold keyed. rewrite <-list_fmap_compose. by rewrite list_fmap_id.
  - assert (F : ∀ x, x ∈ merge_sort (λ x y : T * nat, le_ord x.1 y.1) keyed → x.1 = tk x.2).
    { intros x. rewrite P. unfold keyed. by intros (i & -> & _)%list_elem_of_fmap. }
    assert (S : StronglySorted (λ x y : T * nat, le_ord x.1 y.1) (merge_sort (λ x y : T * nat, le_ord x.1 y.1) keyed)).
    { apply StronglySorted_merge_sort; [intros x y z; apply transitivity|intros x y; apply (total le_ord x.1)]. }
    revert F. clear -S. induction S as [|x l S IH Fa]; intros F; [constructor|]. cbn. constructor; [apply IH; set_solver|].
    apply Forall_fmap. rewrite Forall_forall in Fa |- *. intros y Y. cbn. rewrite <-!F by set_solver. by apply Fa.
Qed.

Section orders.
Context (facts : list Fact) (refs : list FactRef).
Hypothesis same_length : length refs = length facts.
Hypothesis distinct : NoDup (eavt_key_of <$> facts).
Abbreviation rows := (zip facts refs).
Definition row_at (i : nat) : Fact * FactRef := rows !!! i.

Lemma rows_facts : rows.*1 = facts.
Proof using same_length. apply fst_zip. lia. Qed.

Lemma at_position i : (i < length facts)%nat →
  facts !! i = Some (row_at i).1 ∧ refs !! i = Some (row_at i).2 ∧
  ((λ f, encode_value (value f)) <$> facts) !! i = Some (encode_value (value (row_at i).1)).
Proof using same_length.
  intros L. destruct (lookup_lt_is_Some_2 facts i L) as [f F]. destruct (lookup_lt_is_Some_2 refs i) as [r R]; [lia|].
  assert (E : row_at i = (f, r)).
  { unfold row_at. apply list_lookup_total_correct. by apply lookup_zip_Some. }
  rewrite E, list_lookup_fmap, F, R. done.
Qed.

Lemma rows_at_seq : row_at <$> seq 0 (length facts) = rows.
Proof using same_length.
  apply list_eq_same_length with (n := length facts); [rewrite length_zip; lia|by rewrite length_fmap, length_seq|].
  intros i x y L E F. rewrite list_lookup_fmap, lookup_seq_lt in E by done. cbn in E. simplify_eq.
  unfold row_at. by apply list_lookup_total_correct.
Qed.

(** The buffer is about these facts; [order] lists the positions of [R] sorted by [kf]. *)
Record about (o : PendingIndexOrder) : Prop := {
  ab_facts : po_facts o = facts;
  ab_refs : po_refs o = refs;
  ab_values : po_value_bytes o = (λ f, encode_value (value f)) <$> facts;
  ab_uniform : uniform_attribute o = uniform_attribute (pending_order_new facts refs);
}.
Definition sorted_rows {K} `{Ord K} (kf : Fact → K) (R : list (Fact * FactRef)) (order : list nat) : Prop :=
  row_at <$> order ≡ₚ R ∧ Forall (λ i, (i < length facts)%nat) order ∧
  StronglySorted (λ i j, le_ord (kf (row_at i).1) (kf (row_at j).1)) order.

Lemma sorted_index {K} `{OrdLaws K} (kf : Fact → K) R order : NoDup (kf <$> R.*1) → sorted_rows kf R order →
  (λ i, (kf (row_at i).1, (row_at i).2)) <$> order = index_of kf R.
Proof using.
  intros N (P & _ & S). rewrite <-(index_unique kf R (row_at <$> order) N P); [by rewrite <-list_fmap_compose|].
  clear -S. induction S as [|x l S IH F]; [constructor|]. cbn. constructor; [done|]. by apply Forall_fmap.
Qed.

Lemma entries_at_ok {K} o (key : Fact → bytes → result K) (kf : Fact → K) order : about o → po_order o = order →
  Forall (λ i, (i < length facts)%nat) order →
  (∀ i, i ∈ order → key (row_at i).1 (encode_value (value (row_at i).1)) = Ok (kf (row_at i).1)) →
  entries_at o key = Ok ((λ i, (kf (row_at i).1, (row_at i).2)) <$> order).
Proof using same_length.
  intros [Ef Er Ev _] <- F Ek. unfold entries_at. apply mapR_total. intros i I.
  rewrite Forall_forall in F. destruct (at_position i (F i I)) as (A & B & C).
  unfold required_index. rewrite Ef, Er, Ev, A, B, C. cbn. rewrite Ek by done. done.
Qed.

(** Any sort by the fields of a key. *)
Lemma sort_seq_ok {K T} `{OrdLaws K, PreOrdLaws T} (kf : Fact → K) (tuple : Fact → T) (key : nat → result T) :
  (∀ i, (i < length facts)%nat → key i = Ok (tuple (row_at i).1)) → (∀ f g, cmp (tuple f) (tuple g) = cmp (kf f) (kf g)) →
  ∃ order, sort_order key (seq 0 (length facts)) = Ok order ∧ sorted_rows kf rows order.
Proof using same_length.
  intros Ek Ec. destruct (sort_order_ok key (λ i, tuple (row_at i).1) (seq 0 (length facts))) as (order & E & P & S).
  { intros i I%elem_of_seq. apply Ek. lia. }
  exists order. split; [done|]. split_and!.
  - rewrite P. by rewrite rows_at_seq.
  - rewrite P. apply Forall_forall. intros i I%elem_of_seq. lia.
  - eapply StronglySorted_weaken; [|exact S]. intros i j _ _. unfold le_ord. by rewrite Ec.
Qed.

Lemma eavt_keys : NoDup (eavt_key_of <$> rows.*1).
Proof using same_length distinct. by rewrite rows_facts. Qed.
Lemma aevt_keys : NoDup (aevt_key_of <$> rows.*1).
Proof using same_length distinct. apply (NoDup_fmap_det _ eavt_key_of); [intros f g [=]; unfold eavt_key_of; by f_equal|apply eavt_keys]. Qed.
Lemma avet_keys : NoDup (avet_key_of <$> rows.*1).
Proof using same_length distinct. apply (NoDup_fmap_det _ eavt_key_of); [intros f g [=]; unfold eavt_key_of; by f_equal|apply eavt_keys]. Qed.
Lemma vaet_keys : NoDup (vaet_key <$> (ref_rows rows).*1).
Proof using same_length distinct.
  pose proof eavt_keys as N. rewrite <-list_fmap_compose in N |- *.
  assert (F : NoDup (eavt_key_of ∘ fst <$> ref_rows rows)).
  { clear -N. induction rows as [|x l IH]; [constructor|]. cbn in N. apply NoDup_cons in N as [Nx N]. cbn.
    destruct (is_ref x.1); [|by apply IH]. cbn. constructor; [|by apply IH]. intros (y & E & Y)%list_elem_of_fmap.
    apply Nx, list_elem_of_fmap. exists y. split; [done|]. by apply elem_of_List_filter in Y as [_ ?]. }
  assert (R : ∀ x, x ∈ ref_rows rows → is_ref x.1 = true) by (by intros x [? _]%elem_of_List_filter).
  clear N. induction (ref_rows rows) as [|x l IH]; [constructor|]. cbn in F |- *. apply NoDup_cons in F as [Nx F].
  constructor; [|apply IH; [done|set_solver]]. intros (y & E & Y)%list_elem_of_fmap. apply Nx, list_elem_of_fmap.
  exists y. split; [|done]. pose proof (R x ltac:(set_solver)) as Rx. pose proof (R y ltac:(set_solver)) as Ry.
  unfold is_ref in Rx, Ry. cbn in E |- *. unfold vaet_key in E. unfold eavt_key_of.
  destruct (value x.1) eqn:Vx, (value y.1) eqn:Vy; try done. injection E as -> -> -> -> -> -> -> ->. done.
Qed.

Lemma sort_eavt_ok o : about o →
  ∃ o', sort_eavt o = Ok o' ∧ about o' ∧ eavt_ordered o' = true ∧ sorted_rows eavt_key_of rows (po_order o').
Proof using same_length.
  intros [Ef Er Ev Eu]. unfold sort_eavt, reset_all. cbn [with_order po_facts po_value_bytes po_order]. rewrite Ef, Ev.
  edestruct (sort_seq_ok eavt_key_of (λ f, eavt_tuple (eavt_key_of f))) as (order & -> & S).
  { intros i L. destruct (at_position i L) as (A & _ & C). unfold required_index. rewrite A, C. cbn. reflexivity. }
  { done. }
  cbn [mbind result_bind]. eexists. split; [done|]. split; [by split|]. done.
Qed.

Lemma sort_aevt_ok o : about o → (eavt_ordered o = true → sorted_rows eavt_key_of rows (po_order o)) →
  ∃ o', sort_aevt o = Ok o' ∧ about o' ∧ sorted_rows aevt_key_of rows (po_order o').
Proof using same_length.
  clear distinct. intros Ab Se. unfold sort_aevt. destruct (uniform_attribute o && eavt_ordered o) eqn:C.
  - apply andb_true_iff in C as [U Eo]. exists o. split_and!; [done..|]. destruct (Se Eo) as (P & F & S).
    split_and!; [done..|]. rewrite (ab_uniform o Ab) in U. cbn in U.
    assert (A : ∃ a, ∀ f, f ∈ facts → attribute f = a).
    { destruct facts as [|f0 fs]; [exists ""; set_solver|]. exists (attribute f0). rewrite forallb_forall in U.
      intros f Hf. by apply list_elem_of_In, U, bool_decide_eq_true in Hf. }
    destruct A as [a A]. rewrite Forall_forall in F. eapply StronglySorted_weaken; [|exact S].
    intros i j I J. destruct (at_position i (F i I)) as (Fi & _). destruct (at_position j (F j J)) as (Fj & _).
    apply list_elem_of_lookup_2, A in Fi, Fj. unfold le_ord, cmp, EavtKey_ord, AevtKey_ord, cmp_on, eavt_tuple, aevt_tuple.
    cbn [ak_attribute ak_entity ak_valid_from ak_valid_to ak_tx_count ak_value_bytes ak_tx_id ak_asserted aevt_key_of
         ek_attribute ek_entity ek_valid_from ek_valid_to ek_tx_count ek_value_bytes ek_tx_id ek_asserted eavt_key_of].
    rewrite !cmp_pair, Fi, Fj, cmp_refl. done.
  - destruct Ab as [Ef Er Ev Eu]. unfold reset_all. cbn [with_order po_facts po_value_bytes po_order]. rewrite Ef, Ev.
    edestruct (sort_seq_ok aevt_key_of (λ f, aevt_tuple (aevt_key_of f))) as (order & -> & S).
    { intros i L. destruct (at_position i L) as (A & _ & D). unfold required_index. rewrite A, D. cbn. reflexivity. }
    { done. }
    cbn [mbind result_bind]. eexists. split; [done|]. split; [by split|done].
Qed.

Lemma sort_avet_ok o : about o → ∃ o', sort_avet o = Ok o' ∧ about o' ∧ sorted_rows avet_key_of rows (po_order o').
Proof using same_length.
  intros [Ef Er Ev Eu]. unfold sort_avet, reset_all. cbn [with_order po_facts po_value_bytes po_order]. rewrite Ef, Ev.
  edestruct (sort_seq_ok avet_key_of (λ f, avet_tuple (avet_key_of f))) as (order & -> & S).
  { intros i L. destruct (at_position i L) as (A & _ & C). unfold required_index. rewrite A, C. cbn. reflexivity. }
  { done. }
  cbn [mbind result_bind]. eexists. split; [done|]. split; [by split|done].
Qed.

Lemma ref_positions : row_at <$> omap (λ '(i, f), match value f with VRef _ => Some i | _ => None end) (zip (seq 0 (length facts)) facts)
  = ref_rows rows.
Proof using same_length.
  clear distinct.
  rewrite <-rows_at_seq. assert (E : ∀ i f, (i, f) ∈ zip (seq 0 (length facts)) facts → f = (row_at i).1).
  { intros i f (k & Lk)%list_elem_of_lookup. apply lookup_zip_Some in Lk as [Lk Lf].
    apply lookup_seq in Lk as [-> L]. destruct (at_position k L) as (A & _). cbn in A. rewrite Lf in A. by simplify_eq. }
  assert (Z : seq 0 (length facts) = (zip (seq 0 (length facts)) facts).*1) by (rewrite fst_zip; [done|by rewrite length_seq]).
  rewrite Z at 2. clear Z. induction (zip _ facts) as [|[i f] l IH]; [done|].
  cbn [omap list_omap fmap list_fmap fst List.filter]. rewrite <-(E i f) by set_solver.
  assert (IH' : row_at <$> omap (λ '(i0, f0), match value f0 with VRef _ => Some i0 | _ => None end) l
    = List.filter (λ x, is_ref x.1) (row_at <$> l.*1)) by (apply IH; intros; apply E; set_solver).
  unfold is_ref at 1. destruct (value f); try exact IH'. cbn. f_equal. exact IH'.
Qed.

Lemma sort_vaet_ok o : about o → ∃ o', sort_vaet o = Ok o' ∧ about o' ∧ sorted_rows vaet_key (ref_rows rows) (po_order o').
Proof using same_length.
  clear distinct. intros [Ef Er Ev Eu]. unfold sort_vaet. rewrite Ef. pose proof ref_positions as R.
  set (ps := omap _ _) in *.
  assert (L : ∀ i, i ∈ ps → (i < length facts)%nat ∧ is_ref (row_at i).1 = true).
  { intros i I. split.
    - unfold ps in I. apply list_elem_of_omap in I as ([j f] & J & E). apply elem_of_zip_l, elem_of_seq in J.
      destruct (value f); simplify_eq. lia.
    - assert (X : row_at i ∈ row_at <$> ps) by by apply list_elem_of_fmap_2. rewrite R in X. by apply elem_of_List_filter in X as [? _]. }
  destruct (sort_order_ok (λ i, f ← required_index facts i;
      target ← match value f with VRef t => Ok t | _ => Err "VAET order contains only Ref values" end;
      Ok (target, (attribute f, (valid_from f, (valid_to f, (entity f, (tx_count f, (tx_id f, asserted f))))))))
    (λ i, vaet_tuple (vaet_key (row_at i).1)) ps) as (order & -> & P & S).
  { intros i I. destruct (L i I) as [Li Ri]. destruct (at_position i Li) as (A & _). unfold required_index. rewrite A. cbn.
    unfold is_ref in Ri. unfold vaet_key, vaet_tuple. cbn. destruct (value (row_at i).1); try done. }
  cbn [mbind result_bind]. eexists. split; [done|]. split; [by split|]. cbn [with_order po_order]. split_and!.
  - by rewrite P, R.
  - rewrite P. apply Forall_forall. intros i I. by apply L.
  - exact S.
Qed.

Lemma about_new : about (pending_order_new facts refs).
Proof using. by split. Qed.

Lemma indexes_of_rows : indexes_of rows =
  {| eavt := index_of eavt_key_of rows; aevt := index_of aevt_key_of rows; avet := index_of avet_key_of rows;
     vaet := index_of vaet_key (ref_rows rows) |}.
Proof using. by rewrite <-vaet_index, indexes_of_parts. Qed.

(** ** Sorting the entries themselves *)

Lemma pushed_entries (l : list (Fact * FactRef)) : foldl (λ es '(f, r), push_index_entries_for_fact es f r) indexes_new l =
  {| eavt := prod_map eavt_key_of id <$> l; aevt := prod_map aevt_key_of id <$> l; avet := prod_map avet_key_of id <$> l;
     vaet := prod_map vaet_key id <$> ref_rows l |}.
Proof using.
  clear same_length distinct. induction l as [|[f r] l IH] using rev_ind; [done|]. rewrite foldl_app, IH, !fmap_app. cbn [foldl].
  assert (V : prod_map vaet_key id <$> ref_rows (l ++ [(f, r)]) = match value f with
     | VRef t => (prod_map vaet_key id <$> ref_rows l) ++
         [(mkVaet t (attribute f) (valid_from f) (valid_to f) (entity f) (tx_count f) (tx_id f) (asserted f), r)]
     | _ => prod_map vaet_key id <$> ref_rows l end).
  { rewrite List.filter_app, fmap_app. unfold is_ref at 2. cbn [List.filter fst].
    destruct (value f) eqn:E; cbn; rewrite ?app_nil_r; try done. unfold prod_map, vaet_key. cbn. by rewrite E. }
  by rewrite V.
Qed.

Lemma sort_entries_index {K} `{OrdLaws K} (kf : Fact → K) (R : list (Fact * FactRef)) : NoDup (kf <$> R.*1) →
  sort_entries (prod_map kf id <$> R) = index_of kf R.
Proof using.
  intros N. destruct (bt_build (prod_map kf id <$> R)) as [A Q]. unfold sort_entries, index_of.
  pose proof (merge_sort_Permutation (λ x y : K * FactRef, le_ord x.1 y.1) (prod_map kf id <$> R)) as P.
  rewrite <-list_fmap_compose in N. assert (N' : NoDup (prod_map kf id <$> R).*1) by by rewrite <-list_fmap_compose.
  apply ascending_unique; [|exact A|by rewrite P, Q].
  apply (sort_strict fst (prod_map kf id <$> R)); [exact P| |exact N'].
  apply StronglySorted_merge_sort; [intros x y z; apply transitivity|intros x y; apply (total le_ord x.1)].
Qed.

Lemma build_sorted_ok : build_sorted_index_entries facts refs = indexes_of rows.
Proof using same_length distinct.
  unfold build_sorted_index_entries, sort_index_entries. rewrite pushed_entries, indexes_of_rows. cbn [eavt aevt avet vaet].
  by rewrite !sort_entries_index by (apply eavt_keys || apply aevt_keys || apply avet_keys || apply vaet_keys).
Qed.

(** ** The entries of the buffer *)

Lemma vaet_entries_ok o : about o → sorted_rows vaet_key (ref_rows rows) (po_order o) →
  vaet_entries o = Ok (vaet (indexes_of rows)) ∧ borrowed_vaet_entries o = Ok (vaet (indexes_of rows)).
Proof using same_length distinct.
  intros [Ef Er Ev _] S. rewrite indexes_of_rows. cbn [vaet]. rewrite <-(sorted_index vaet_key _ _ vaet_keys S).
  destruct S as (P & F & _). rewrite Forall_forall in F.
  assert (R : ∀ i, i ∈ po_order o → is_ref (row_at i).1 = true).
  { intros i I. assert (X : row_at i ∈ row_at <$> po_order o) by by apply list_elem_of_fmap_2. rewrite P in X. by apply elem_of_List_filter in X as [? _]. }
  split; unfold vaet_entries, borrowed_vaet_entries; apply mapR_total; intros i I; destruct (at_position i (F i I)) as (A & B & _);
    specialize (R i I); unfold required_index; rewrite Ef, Er, A, B; cbn; unfold is_ref in R; unfold fact_vaet_key, vaet_key;
    destruct (value (row_at i).1); try done.
Qed.
End orders.

(** C37: The checkpoint sorts one buffer of positions once per index, reusing the
    EAVT order for AEVT when all pending facts have the same attribute.  For facts
    with distinct identities, each pass yields exactly the entries, in order, that
    the covering index of these facts holds; the owned and the borrowed iterator
    agree, and so does the direct construction that sorts the entries themselves. *)
Theorem pending_order_exact facts refs : length refs = length facts → NoDup (eavt_key_of <$> facts) →
  let ix := indexes_of (zip facts refs) in
  ∃ o1 o2 o3 o4,
    sort_eavt (pending_order_new facts refs) = Ok o1 ∧ sort_aevt o1 = Ok o2 ∧ sort_avet o2 = Ok o3 ∧ sort_vaet o3 = Ok o4 ∧
    eavt_entries o1 = Ok (eavt ix) ∧ borrowed_eavt_entries o1 = Ok (eavt ix) ∧
    aevt_entries o2 = Ok (aevt ix) ∧ borrowed_aevt_entries o2 = Ok (aevt ix) ∧
    avet_entries o3 = Ok (avet ix) ∧ borrowed_avet_entries o3 = Ok (avet ix) ∧
    vaet_entries o4 = Ok (vaet ix) ∧ borrowed_vaet_entries o4 = Ok (vaet ix) ∧
    build_sorted_index_entries facts refs = ix.
Proof.
  intros L N ix. destruct (sort_eavt_ok facts refs L _ (about_new facts refs)) as (o1 & E1 & A1 & Eo & S1).
  destruct (sort_aevt_ok facts refs L o1 A1 (λ _, S1)) as (o2 & E2 & A2 & S2).
  destruct (sort_avet_ok facts refs L o2 A2) as (o3 & E3 & A3 & S3).
  destruct (sort_vaet_ok facts refs L o3 A3) as (o4 & E4 & A4 & S4).
  exists o1, o2, o3, o4. destruct (vaet_entries_ok facts refs L N o4 A4 S4) as [V1 V2].
  pose proof (sorted_index facts refs _ _ _ (eavt_keys facts refs L N) S1) as I1.
  pose proof (sorted_index facts refs _ _ _ (aevt_keys facts refs L N) S2) as I2.
  pose proof (sorted_index facts refs _ _ _ (avet_keys facts refs L N) S3) as I3.
  split_and!; [done..| | | | | | |done|done|by apply build_sorted_ok]; unfold ix; rewrite indexes_of_rows; cbn [eavt aevt avet];
    rewrite <-?I1, <-?I2, <-?I3.
  - by apply (entries_at_ok facts refs L o1 _ eavt_key_of); [..|apply S1|].
  - by apply (entries_at_ok facts refs L o1 _ eavt_key_of); [..|apply S1|].
  - by apply (entries_at_ok facts refs L o2 _ aevt_key_of); [..|apply S2|].
  - by apply (entries_at_ok facts refs L o2 _ aevt_key_of); [..|apply S2|].
  - by apply (entries_at_ok facts refs L o3 _ avet_key_of); [..|apply S3|].
  - by apply (entries_at_ok facts refs L o3 _ avet_key_of); [..|apply S3|].
Qed.

(** Two facts of one attribute, asserted out of entity order. *)
Definition order_facts : list Fact :=
  [fact_with_valid_time 9 ":name" (VInteger 1) 5 1 0 10; fact_with_valid_time 4 ":name" (VInteger 2) 5 1 0 10].
Definition order_refs : list FactRef := [mkFactRef 1 0; mkFactRef 1 1].

Lemma pending_order_exact_witness :
  uniform_attribute (pending_order_new order_facts order_refs) = true ∧
  ∃ o1 o2, sort_eavt (pending_order_new order_facts order_refs) = Ok o1 ∧ sort_aevt o1 = Ok o2 ∧
    aevt_entries o2 = Ok (aevt (indexes_of (zip order_facts order_refs))).
Proof.
  split; [reflexivity|].
  destruct (pending_order_exact order_facts order_refs) as (o1 & o2 & o3 & o4 & E1 & E2 & _ & _ & _ & _ & A & _).
  - reflexivity.
  - repeat constructor; set_solver.
  - by exists o1, o2.
Defined.
