(* ===== verification/IntegrityStore.v ===== *)
(** The base integrity catalog on disk (src/src/storage/persistent_facts.rs):
    writing the catalog behind the pages it covers, reading it back through the
    descriptor of page 0, checking the pages of a base, and the layout checks made
    when a file opens. *)
From S2P Require Import Prelude Types ValueCodec Index Wal FactStore PackedPages HeaderPage BTreePages Backends PageIntegrity.
Set Default Proof Using "Type".
Module Cat := BasePageIntegrityCatalog.

Section store.
Context {B : Type} `{StorageBackend B} (crc32 : bytes → Z).

Record BaseIntegrityWrite : Type := mkIntegrityWrite {
  iw_catalog : Cat.t;
  iw_descriptor : BPID.t;
  iw_aggregate_checksum : Z;
  iw_published_page_count : Z;
}.

(** ** Reading *)

(** The pages of the catalog, cut at [remaining] bytes; the rest of the last page
    must be zero. *)
Definition read_catalog_page (b : B) (start : Z) (st : bytes * nat) (offset : nat) : result (bytes * nat) :=
  let '(bytes, remaining) := st in
  page_id ← ok_or (checked_add_u64 start (Z.of_nat offset)) "Base integrity catalog page id overflow";
  page ← backend_read_page b page_id;
  _ ← ensure (length page =? PAGE_SIZE)%nat "Base integrity catalog page has invalid length";
  let payload_len := (remaining `min` PAGE_SIZE)%nat in
  _ ← ensure (forallb (λ byte, b2z byte =? 0) (drop payload_len page)) "Base integrity catalog padding must be zero";
  Ok (bytes ++ take payload_len page, (remaining - payload_len)%nat).

Definition read_base_integrity_catalog (b : B) (d : BPID.t) : result Cat.t :=
  _ ← ensure (negb (BPID.is_empty d)) "Base integrity catalog descriptor is empty";
  _ ← ensure (BPID.checksum_valid crc32 d) "Base integrity catalog descriptor checksum mismatch";
  expected_len ← encoded_len_for_count (BPID.covered_page_count d);
  _ ← ensure (BPID.catalog_len d =? expected_len) "Base integrity catalog length does not match its covered page count";
  '(bytes, remaining) ← foldR (read_catalog_page b (BPID.catalog_page_start d)) ([], Z.to_nat expected_len)
                          (seq 0 (Z.to_nat (BPID.catalog_page_count d)));
  _ ← ensure ((remaining =? 0)%nat && (Z.of_nat (length bytes) =? expected_len)) "Base integrity catalog is truncated";
  _ ← ensure (Cat.catalog_crc32 crc32 bytes =? BPID.catalog_checksum d) "Base integrity catalog checksum mismatch";
  catalog ← Cat.decode bytes;
  _ ← ensure ((Cat.base_generation catalog =? BPID.base_generation d) &&
              (Cat.covered_page_start catalog =? BPID.covered_page_start d) &&
              (Cat.covered_page_count catalog =? BPID.covered_page_count d))
        "Base integrity catalog identity does not match page 0 descriptor";
  Ok catalog.

Definition verify_base_integrity_pages (b : B) (catalog : Cat.t) : result () :=
  foldR (λ _ offset,
    page_id ← ok_or (checked_add_u64 (Cat.covered_page_start catalog) (Z.of_nat offset)) "Base integrity page id overflow";
    page ← backend_read_page b page_id;
    Cat.verify_page crc32 catalog page_id page) tt (seq 0 (Z.to_nat (Cat.covered_page_count catalog))).

(** ** Writing *)

Definition read_covered_page (b : B) (base_generation start : Z) (offset : nat) : result (bytes * Z) :=
  page_id ← ok_or (checked_add_u64 start (Z.of_nat offset)) "Base integrity page id overflow";
  page ← backend_read_page b page_id;
  _ ← ensure (length page =? PAGE_SIZE)%nat "Base integrity page has invalid length";
  c ← Cat.compute_page_checksum crc32 base_generation page_id page;
  Ok (page, c).

Definition write_catalog_page (encoded : bytes) (start : Z) (b : B) (offset : nat) : result B :=
  page_id ← ok_or (checked_add_u64 start (Z.of_nat offset)) "Base integrity catalog page id overflow";
  let byte_start := (offset * PAGE_SIZE)%nat in
  let byte_end := ((byte_start + PAGE_SIZE) `min` length encoded)%nat in
  chunk ← ok_or (get_range encoded byte_start byte_end) "Base integrity catalog bytes out of bounds";
  backend_write_page b page_id (resize_zero PAGE_SIZE chunk).

Definition write_base_integrity_catalog (b : B) (base_generation covered_page_start covered_page_count catalog_page_start : Z)
    (expected_aggregate_checksum : option Z) : result (B * BaseIntegrityWrite) :=
  if covered_page_count =? 0 then
    catalog ← Cat.build 0 1 [];
    Ok (b, mkIntegrityWrite catalog BPID.empty (default 0 expected_aggregate_checksum) catalog_page_start)
  else
    covered_page_end ← ok_or (checked_add_u64 covered_page_start covered_page_count) "Base integrity covered page range overflow";
    _ ← ensure (covered_page_end <=? catalog_page_start) "Base integrity catalog overlaps covered base pages";
    _ ← encoded_len_for_count covered_page_count;
    pages ← mapR (read_covered_page b base_generation covered_page_start) (seq 0 (Z.to_nat covered_page_count));
    let aggregate_checksum := crc32 (concat (fst <$> pages)) in
    _ ← match expected_aggregate_checksum with
        | Some expected => ensure (aggregate_checksum =? expected) "Base checksum mismatch during v11 migration"
        | None => Ok ()
        end;
    catalog ← Cat.build base_generation covered_page_start (snd <$> pages);
    encoded ← Cat.encode catalog;
    let catalog_len := Z.of_nat (length encoded) in
    catalog_pages ← ok_or (checked_add_u64 catalog_len (Z.of_nat PAGE_SIZE - 1)) "Base integrity catalog page count overflow";
    let catalog_page_count := catalog_pages `div` Z.of_nat PAGE_SIZE in
    descriptor ← BPID.new crc32 base_generation covered_page_start covered_page_count catalog_page_start
                   catalog_page_count catalog_len (Cat.catalog_crc32 crc32 encoded);
    b ← foldR (write_catalog_page encoded catalog_page_start) b (seq 0 (Z.to_nat catalog_page_count));
    decoded ← read_base_integrity_catalog b descriptor;
    _ ← ensure (bool_decide (decoded = catalog)) "Base integrity catalog read-back does not match written catalog";
    published_page_count ← BPID.catalog_page_end descriptor;
    Ok (b, mkIntegrityWrite catalog descriptor aggregate_checksum published_page_count).

(** ** The layout page 0 declares *)

Definition canonical_empty_tail (h : FileHeader.t) (e : HeaderExtension.t) : bool :=
  if PROJECTION_VERSION <=? FileHeader.version h then
    let slots := [HeaderExtension.projection_primary e; HeaderExtension.projection_secondary e] in
    (FileHeader.page_count h =? 1) ||
    (existsb (λ s, negb (ProjectionCatalogSlot.is_empty s)) slots &&
     forallb (λ s, match checked_add_u64 (ProjectionCatalogSlot.catalog_page_start s) (ProjectionCatalogSlot.catalog_page_count s) with
                   | Some stop => stop <=? FileHeader.page_count h
                   | None => false
                   end) (List.filter (ProjectionCatalogSlot.is_selectable crc32) slots))
  else FileHeader.page_count h =? 1.

Definition validate_v11_base_integrity_descriptor (h : FileHeader.t) (e : HeaderExtension.t) : result (option BPID.t) :=
  let d := HeaderExtension.base_integrity e in
  let roots := [FileHeader.eavt_root_page h; FileHeader.aevt_root_page h; FileHeader.avet_root_page h; FileHeader.vaet_root_page h] in
  if BPID.is_empty d then
    if (FileHeader.fact_page_count h =? 0) && (FileHeader.node_count h =? 0) && forallb (Z.eqb 0) roots &&
       (HeaderExtension.base_fact_page_start e =? 1) && canonical_empty_tail h e
    then Ok None else Err "Non-canonical empty or unprotected v11 database"
  else
    _ ← ensure (BPID.covered_page_start d =? HeaderExtension.base_fact_page_start e)
          "Base integrity coverage does not match base fact page start";
    catalog_end ← BPID.catalog_page_end d;
    _ ← ensure (catalog_end <=? FileHeader.page_count h) "Base integrity catalog exceeds published page count";
    expected_catalog_len ← encoded_len_for_count (BPID.covered_page_count d);
    _ ← ensure (BPID.catalog_len d =? expected_catalog_len) "Base integrity catalog length does not match its covered page count";
    covered_page_end ← BPID.covered_page_end d;
    fact_page_end ← ok_or (checked_add_u64 (HeaderExtension.base_fact_page_start e) (FileHeader.fact_page_count h))
                      "Base fact page range overflow";
    _ ← ensure (fact_page_end <=? covered_page_end) "Base fact page range exceeds integrity coverage";
    _ ← ensure (negb (FileHeader.fact_page_count h =? 0)) "Protected v11 base must declare at least one packed fact page";
    _ ← ensure (forallb (λ root, negb ((root =? 0) || (root <? BPID.covered_page_start d) || (covered_page_end <=? root))) roots)
          "root is outside base integrity coverage";
    Ok (Some d).

Definition load_v11_base_integrity (b : B) (h : FileHeader.t) (e : HeaderExtension.t) : result (option Cat.t) :=
  d ← validate_v11_base_integrity_descriptor h e;
  match d with
  | None => Ok None
  | Some d => catalog ← read_base_integrity_catalog b d; Ok (Some catalog)
  end.

Definition build_header_page_with_base_integrity (h : FileHeader.t) (base_fact_page_start : Z) (d : BPID.t) : result bytes :=
  if INTEGRITY_VERSION <=? FileHeader.version h then
    e ← HeaderExtension.with_base_fact_page_start crc32 (HeaderExtension.empty crc32) base_fact_page_start;
    e ← HeaderExtension.with_base_integrity crc32 e d;
    build_header_page_with_extension h e
  else build_header_page crc32 h.
End store.

(** * Reading back what was written *)

Definition chunk_at (encoded : bytes) (i : nat) : bytes := resize_zero PAGE_SIZE (take PAGE_SIZE (drop (i * PAGE_SIZE) encoded)).

Lemma checked_add_ok a b : a + b < 2 ^ 64 → checked_add_u64 a b = Some (a + b).
Proof. intros L. unfold checked_add_u64, u64_MAX. by rewrite (proj2 (Z.leb_le _ _)) by lia. Qed.

Lemma chunk_payload encoded i : (i * PAGE_SIZE ≤ length encoded)%nat →
  let n := ((length encoded - i * PAGE_SIZE) `min` PAGE_SIZE)%nat in
  length (chunk_at encoded i) = PAGE_SIZE ∧ take n (chunk_at encoded i) = take PAGE_SIZE (drop (i * PAGE_SIZE) encoded) ∧
  forallb (λ byte, b2z byte =? 0) (drop n (chunk_at encoded i)) = true.
Proof.
  intros L n. unfold chunk_at, resize_zero. set (c := take PAGE_SIZE (drop (i * PAGE_SIZE) encoded)).
  assert (Lc : length c = n) by (unfold c, n; rewrite length_take, length_drop; lia). rewrite (take_ge c) by lia.
  split_and!.
  - rewrite length_app, length_replicate. lia.
  - by rewrite <-Lc, take_app_length.
  - rewrite <-Lc, drop_app_length. generalize (PAGE_SIZE - length c)%nat. intros k. induction k as [|k IH]; [done|]. cbn. by rewrite IH.
Qed.

Section laws.
Context {B : Type} `{BL : BackendLaws B} (crc32 : bytes → Z).
Hypothesis crc_u32 : ∀ bs, u32_ok (crc32 bs).

Lemma read_catalog_step (b : B) start encoded k : (k * PAGE_SIZE ≤ length encoded)%nat →
  backend_read_page b (start + Z.of_nat k) = Ok (chunk_at encoded k) → start + Z.of_nat k < 2 ^ 64 →
  read_catalog_page b start (take (k * PAGE_SIZE) encoded, (length encoded - k * PAGE_SIZE)%nat) k =
  Ok (take (S k * PAGE_SIZE) encoded, (length encoded - S k * PAGE_SIZE)%nat).
Proof using.
  intros L R Bd. destruct (chunk_payload encoded k L) as (Lc & Tc & Zc). revert Lc Tc Zc R.
  unfold read_catalog_page. rewrite checked_add_ok by lia. cbn [ok_or mbind result_bind].
  generalize (chunk_at encoded k). generalize PAGE_SIZE. intros ps c Lc Tc Zc R. rewrite R. cbn [mbind result_bind].
  rewrite Lc, Nat.eqb_refl. cbn [ensure mbind result_bind]. rewrite Zc. cbn [ensure mbind result_bind]. rewrite Tc.
  do 2 f_equal; [|lia]. replace (S k * ps)%nat with (k * ps + ps)%nat by lia. by rewrite take_take_drop.
Qed.

Lemma read_catalog_loop (b : B) start encoded n m : ∀ k, (k + m = n)%nat →
  (∀ i, (i < n)%nat → backend_read_page b (start + Z.of_nat i) = Ok (chunk_at encoded i)) →
  ((n - 1) * PAGE_SIZE < length encoded ≤ n * PAGE_SIZE)%nat → start + Z.of_nat n < 2 ^ 64 →
  foldR (read_catalog_page b start) (take (k * PAGE_SIZE) encoded, (length encoded - k * PAGE_SIZE)%nat) (seq k m) =
  Ok (encoded, O).
Proof using.
  induction m as [|m IH]; intros k E R L Bd; cbn [seq foldR].
  - replace k with n by lia. rewrite take_ge by lia. do 2 f_equal. lia.
  - rewrite read_catalog_step; [|transitivity ((n - 1) * PAGE_SIZE)%nat; [apply Nat.mul_le_mono_r; lia|lia]|apply R; lia|lia].
    cbn [mbind result_bind]. apply IH; [lia|done..].
Qed.

Lemma write_catalog_loop encoded start n m : ∀ k (b : B), (k + m = n)%nat →
  ((n - 1) * PAGE_SIZE < length encoded ≤ n * PAGE_SIZE)%nat → 0 < start → start + Z.of_nat n < 2 ^ 52 →
  ∃ b', foldR (write_catalog_page encoded start) b (seq k m) = Ok b' ∧
    (∀ i, (k ≤ i < n)%nat → backend_read_page b' (start + Z.of_nat i) = Ok (chunk_at encoded i)) ∧
    (∀ id page, 0 < id → (id < start + Z.of_nat k ∨ start + Z.of_nat n ≤ id) → backend_read_page b id = Ok page → backend_read_page b' id = Ok page).
Proof using BL.
  pose proof PAGE_SIZE_val as PS.
  induction m as [|m IH]; intros k b E L P Bd; cbn [seq foldR]; [exists b; split_and!; [done|lia|done]|].
  assert (Lk : (k * PAGE_SIZE ≤ (n - 1) * PAGE_SIZE)%nat) by (apply Nat.mul_le_mono_r; lia).
  destruct (chunk_payload encoded k) as (Lc & _); [lia|].
  destruct (write_page_accepts b (start + Z.of_nat k) (chunk_at encoded k)) as [b1 W]; [lia|done|].
  assert (St : write_catalog_page encoded start b k = Ok b1).
  { unfold write_catalog_page. rewrite checked_add_ok by lia. cbn [ok_or mbind result_bind].
    rewrite (proj2 (get_range_Some encoded (take PAGE_SIZE (drop (k * PAGE_SIZE) encoded)) _ _)); [exact W|].
    split_and!; [lia|lia|]. destruct (Nat.le_gt_cases (k * PAGE_SIZE + PAGE_SIZE) (length encoded)).
    - rewrite Nat.min_l by lia. f_equal. lia.
    - rewrite Nat.min_r by lia. rewrite !take_ge; rewrite ?length_drop; (done || lia). }
  rewrite St. cbn [mbind result_bind]. destruct (IH (S k) b1) as (b' & -> & R & K); [lia|done..|].
  exists b'. split; [done|]. split.
  - intros i Hi. destruct (decide (i = k)) as [->|N]; [|apply R; lia]. apply K; [lia|lia|].
    eapply write_page_reads; [|exact W]. lia.
  - intros id page Hp Hi Rp. apply K; [done|lia|]. eapply write_page_keeps; [|exact W|lia|done|done]. lia.
Qed.

(** What page 0 can rely on after the catalog was written: it reads back, and it
    accepts the pages of the base. *)
Record catalog_on (b : B) (catalog : Cat.t) (d : BPID.t) (gen start count cat_start : Z) : Prop := {
  co_read : read_base_integrity_catalog crc32 b d = Ok catalog;
  co_generation : Cat.base_generation catalog = gen;
  co_verify id page : start ≤ id < start + count → backend_read_page b id = Ok page → Cat.verify_page crc32 catalog id page = Ok ();
  co_start : BPID.covered_page_start d = start;
  co_count : BPID.covered_page_count d = count;
  co_catalog : BPID.catalog_page_start d = cat_start;
  co_ok : BPID.ok d;
  co_layout : BPID.validate_layout d = Ok ();
  co_checksum : BPID.checksum_valid crc32 d = true;
  co_nonempty : BPID.is_empty d = false;
  co_len : encoded_len_for_count count = Ok (BPID.catalog_len d);
  co_pages : 0 < BPID.catalog_page_count d ≤ count + 2;
}.

Lemma descriptor_new_ok gen start count cat_start n len crc : 0 < gen < 2 ^ 64 → 0 < start → 0 < count → start + count ≤ cat_start →
  cat_start + n < 2 ^ 52 → (n - 1) * 4096 < len ≤ n * 4096 → 0 < n → u32_ok crc →
  ∃ d, BPID.new crc32 gen start count cat_start n len crc = Ok d ∧ BPID.ok d ∧ BPID.validate_layout d = Ok () ∧
    BPID.checksum_valid crc32 d = true ∧ BPID.is_empty d = false ∧ BPID.base_generation d = gen ∧ BPID.covered_page_start d = start ∧
    BPID.covered_page_count d = count ∧ BPID.catalog_page_start d = cat_start ∧ BPID.catalog_page_count d = n ∧
    BPID.catalog_len d = len ∧ BPID.catalog_checksum d = crc.
Proof using crc_u32.
  intros Hg Hs Hc Ho Hb Hl Hn Hcrc.
  assert (V : ∀ k, BPID.validate_layout (BPID.mk gen start count cat_start n len crc k) = Ok ()).
  { intros k. unfold BPID.validate_layout, BPID.is_empty. rewrite (bool_decide_false (_ = BPID.empty)).
    2: { unfold BPID.empty. intros [=]. lia. }
    unfold BPID.covered_page_end, BPID.catalog_page_end, checked_mul_u64, sat_sub_u64, u64_MAX.
    cbn [BPID.base_generation BPID.covered_page_start BPID.covered_page_count BPID.catalog_page_start BPID.catalog_page_count BPID.catalog_len].
    rewrite (proj2 (Z.eqb_neq gen 0)), (proj2 (Z.eqb_neq start 0)), (proj2 (Z.eqb_neq count 0)), (proj2 (Z.eqb_neq n 0)), (proj2 (Z.eqb_neq len 0)) by lia.
    cbn [negb orb ensure mbind result_bind]. rewrite !checked_add_ok by lia. cbn [ok_or mbind result_bind].
    rewrite (proj2 (Z.leb_le (start + count) cat_start)) by lia. cbn [ensure mbind result_bind]. rewrite PAGE_SIZE_val.
    rewrite (proj2 (Z.leb_le (n * 4096) _)) by lia. cbn [ok_or ensure mbind result_bind].
    rewrite (proj2 (Z.leb_le len _)) by lia. cbn [ok_or ensure mbind result_bind].
    rewrite Z.max_l by lia. rewrite (proj2 (Z.leb_le ((n - 1) * 4096) _)) by lia. cbn [ok_or ensure mbind result_bind].
    rewrite (proj2 (Z.ltb_lt _ len)) by lia. done. }
  unfold BPID.new. rewrite V. cbn [mbind result_bind]. eexists. split; [done|].
  split_and!; try done.
  - unfold BPID.ok, u64_ok. cbn. split_and!; try lia; [done|apply crc_u32].
  - unfold BPID.checksum_valid. apply orb_true_iff. right. cbn [BPID.descriptor_checksum]. apply Z.eqb_eq. reflexivity.
  - apply bool_decide_false. unfold BPID.empty. intros [=]. lia.
Qed.

Lemma covered_pages_read (b : B) gen start count : 0 < gen → 0 < start → 0 < count → start + count < 2 ^ 52 →
  (∀ id, start ≤ id < start + count → ∃ page, backend_read_page b id = Ok page ∧ length page = PAGE_SIZE) →
  ∃ pages, mapR (read_covered_page crc32 b gen start) (seq 0 (Z.to_nat count)) = Ok pages ∧ length pages = Z.to_nat count ∧
    ∀ i page c, pages !! i = Some (page, c) → backend_read_page b (start + Z.of_nat i) = Ok page ∧
      Cat.compute_page_checksum crc32 gen (start + Z.of_nat i) page = Ok c ∧ u32_ok c.
Proof using crc_u32.
  clear BL. intros Hg Hs Hc Hb R.
  assert (T : ∀ i, (i < Z.to_nat count)%nat → ∃ page c, read_covered_page crc32 b gen start i = Ok (page, c) ∧
    backend_read_page b (start + Z.of_nat i) = Ok page ∧ Cat.compute_page_checksum crc32 gen (start + Z.of_nat i) page = Ok c ∧ u32_ok c).
  { intros i Hi. destruct (R (start + Z.of_nat i)) as (page & Rp & Lp); [lia|]. unfold read_covered_page.
    assert (Cs : Cat.compute_page_checksum crc32 gen (start + Z.of_nat i) page =
      Ok (crc32 (PAGE_CHECKSUM_DOMAIN ++ to_le_bytes 8 gen ++ to_le_bytes 8 (start + Z.of_nat i) ++ page))).
    { unfold Cat.compute_page_checksum. by rewrite (proj2 (Z.eqb_neq gen 0)), (proj2 (Z.eqb_neq _ 0)), Lp, Nat.eqb_refl by lia. }
    eexists page, _. split_and!; [|exact Rp|exact Cs|apply crc_u32].
    rewrite checked_add_ok by lia. cbn [ok_or mbind result_bind]. rewrite Rp. cbn [mbind result_bind].
    rewrite Lp, Nat.eqb_refl. cbn [ensure mbind result_bind]. by rewrite Cs. }
  assert (M : ∀ l, (∀ i, i ∈ l → (i < Z.to_nat count)%nat) → ∃ pages, mapR (read_covered_page crc32 b gen start) l = Ok pages).
  { induction l as [|i l IH]; intros Hl; [by eexists|]. destruct (T i (Hl i ltac:(set_solver))) as (page & c & E & _).
    destruct IH as [pages Ep]; [set_solver|]. cbn. rewrite E. cbn. rewrite Ep. by eexists. }
  destruct (M (seq 0 (Z.to_nat count))) as [pages E]; [intros i I%elem_of_seq; lia|].
  exists pages. apply mapR_Forall2 in E as F. split; [done|]. pose proof (Forall2_length _ _ _ F) as L. rewrite length_seq in L.
  split; [done|]. intros i page c Lk. destruct (Forall2_lookup_r _ _ _ _ _ F Lk) as (x & Lx & Ex).
  apply lookup_seq in Lx as [-> Li]. destruct (T i Li) as (page' & c' & E' & ?). cbn in Ex. rewrite E' in Ex. by simplify_eq.
Qed.

Lemma write_catalog_ok (b : B) gen start count cat_start :
  0 < gen < 2 ^ 64 → 0 < start → 0 < count ≤ MAX_BASE_INTEGRITY_COVERED_PAGES → start + count ≤ cat_start →
  cat_start + count + 2 < 2 ^ 52 →
  (∀ id, start ≤ id < start + count → ∃ page, backend_read_page b id = Ok page ∧ length page = PAGE_SIZE) →
  ∃ b' catalog d aggregate, write_base_integrity_catalog crc32 b gen start count cat_start None =
      Ok (b', mkIntegrityWrite catalog d aggregate (cat_start + BPID.catalog_page_count d)) ∧ u32_ok aggregate ∧
    (∀ id page, 0 < id < cat_start → backend_read_page b id = Ok page → backend_read_page b' id = Ok page) ∧
    catalog_on b' catalog d gen start count cat_start.
Proof using BL crc_u32.
  intros Hg Hs Hc Ho Hb R. pose proof PAGE_SIZE_val as PS.
  destruct (covered_pages_read b gen start count) as (pages & Ep & Lp & Hp); [lia..|done|].
  unfold write_base_integrity_catalog. rewrite (proj2 (Z.eqb_neq count 0)), checked_add_ok by lia. cbn [ok_or mbind result_bind].
  rewrite (proj2 (Z.leb_le _ _) Ho). cbn [ensure mbind result_bind].
  assert (El : encoded_len_for_count count = Ok (40 + 4 * count)) by (apply encoded_len_Ok; lia).
  rewrite El. cbn [mbind result_bind]. rewrite Ep. cbn [mbind result_bind].
  set (cs := snd <$> pages). assert (Lcs : Z.of_nat (length cs) = count) by (unfold cs; rewrite length_fmap; lia).
  assert (Bd : Cat.build gen start cs = Ok (Cat.mk gen start count cs)).
  { unfold Cat.build, validate_catalog_layout. rewrite Lcs.
    rewrite (proj2 (Z.eqb_neq count 0)), (proj2 (Z.eqb_neq gen 0)), (proj2 (Z.eqb_neq start 0)), checked_add_ok by lia. done. }
  rewrite Bd. cbn [mbind result_bind]. set (catalog := Cat.mk gen start count cs).
  assert (Ok_c : Cat.ok catalog).
  { split; cbn; [unfold u64_ok; lia|unfold u64_ok; lia|done|]. apply Forall_forall. intros c ([page c'] & -> & I)%list_elem_of_fmap.
    apply list_elem_of_lookup in I as [i Li]. by apply (Hp i page c'). }
  assert (Ee : ∃ enc, Cat.encode catalog = Ok enc ∧ Z.of_nat (length enc) = 40 + 4 * count).
  { unfold Cat.encode, Cat.encoded_len, catalog. cbn [Cat.base_generation Cat.covered_page_start Cat.covered_page_count Cat.page_checksums].
    unfold validate_catalog_layout.
    rewrite (proj2 (Z.eqb_neq count 0)), (proj2 (Z.eqb_neq gen 0)), (proj2 (Z.eqb_neq start 0)), checked_add_ok by lia.
    cbn [negb ensure ok_or mbind result_bind]. rewrite El. cbn [mbind result_bind]. eexists. split; [done|].
    rewrite !length_app, !length_to_le_bytes, length_concat_u32. cbn. lia. }
  destruct Ee as (enc & Ee & Le). rewrite Ee. cbn [mbind result_bind]. rewrite checked_add_ok by lia. cbn [ok_or mbind result_bind].
  set (n := (Z.of_nat (length enc) + (Z.of_nat PAGE_SIZE - 1)) `div` Z.of_nat PAGE_SIZE).
  assert (Hn : (n - 1) * 4096 < Z.of_nat (length enc) ≤ n * 4096 ∧ 0 < n ≤ count + 2).
  { unfold n. rewrite PS. pose proof (Z.div_mod (Z.of_nat (length enc) + (4096 - 1)) 4096).
    pose proof (Z.mod_pos_bound (Z.of_nat (length enc) + (4096 - 1)) 4096). lia. }
  clearbody n. destruct Hn as [Hn1 Hn2].
  destruct (descriptor_new_ok gen start count cat_start n (Z.of_nat (length enc)) (Cat.catalog_crc32 crc32 enc))
    as (d & -> & Od & Vd & Cd & Nd & Dg & Ds & Dc & Dp & Dn & Dl & Dk); [lia..|apply crc_u32|]. cbn [mbind result_bind].
  destruct (write_catalog_loop enc cat_start (Z.to_nat n) (Z.to_nat n) 0 b) as (b' & -> & W & K); [done|nia|lia|lia|].
  cbn [mbind result_bind].
  assert (Rd : read_base_integrity_catalog crc32 b' d = Ok catalog).
  { unfold read_base_integrity_catalog. rewrite Nd, Cd, Dc, El. cbn [negb ensure mbind result_bind].
    rewrite Dl, Dp, Dn, Le, Z.eqb_refl. cbn [ensure mbind result_bind].
    pose proof (read_catalog_loop b' cat_start enc (Z.to_nat n) (Z.to_nat n) 0 eq_refl) as Lo.
    cbn [Nat.mul] in Lo. rewrite take_0, Nat.sub_0_r in Lo.
    replace (Z.to_nat (40 + 4 * count)) with (length enc) by lia. rewrite Lo; [|intros; apply W; lia|nia|lia].
    cbn [mbind result_bind]. rewrite Le, Z.eqb_refl. cbn [Nat.eqb andb ensure mbind result_bind].
    rewrite Dk, Z.eqb_refl. cbn [ensure mbind result_bind]. rewrite (catalog_encode_decodes catalog enc) by done. cbn [mbind result_bind].
    unfold catalog. cbn [Cat.base_generation Cat.covered_page_start Cat.covered_page_count]. by rewrite Dg, Ds, !Z.eqb_refl. }
  rewrite Rd. cbn [mbind result_bind]. rewrite bool_decide_true by done. cbn [ensure mbind result_bind].
  unfold BPID.catalog_page_end. rewrite Dp, Dn, checked_add_ok by lia. cbn [ok_or mbind result_bind].
  eexists b', catalog, d, _. rewrite Dn. split; [done|]. split; [apply crc_u32|]. split; [intros id page Hi Rp; apply K; [lia|lia|done]|].
  split; try done; [|by rewrite Dl, Le|rewrite Dn; lia].
  intros id page Hi Rp. destruct (R id Hi) as (page' & Rp' & Lp').
  assert (page = page') as ->. { assert (Rb : backend_read_page b' id = Ok page') by (apply K; [lia|lia|done]). congruence. }
  destruct (lookup_lt_is_Some_2 pages (Z.to_nat (id - start))) as [[pg c] Lk]; [lia|].
  destruct (Hp _ _ _ Lk) as (Ri & Ci & _). replace (start + Z.of_nat (Z.to_nat (id - start))) with id in Ri, Ci by lia.
  rewrite Rp' in Ri. apply Ok_inj in Ri as <-. unfold Cat.verify_page, Cat.checksum_for_page, catalog.
  cbn [Cat.base_generation Cat.covered_page_start Cat.page_checksums]. rewrite (proj2 (Z.leb_le _ _)) by lia. cbn [mbind result_bind].
  unfold cs. rewrite list_lookup_fmap, Lk. cbn. rewrite Ci. cbn. by rewrite Z.eqb_refl.
Qed.

(** The catalog is read from its own pages only. *)
Lemma read_catalog_agree (b b' : B) d : BPID.validate_layout d = Ok () → BPID.is_empty d = false → BPID.ok d →
  (∀ id page, BPID.catalog_page_start d ≤ id < BPID.catalog_page_start d + BPID.catalog_page_count d →
     backend_read_page b id = Ok page → backend_read_page b' id = Ok page) →
  ∀ catalog, read_base_integrity_catalog crc32 b d = Ok catalog → read_base_integrity_catalog crc32 b' d = Ok catalog.
Proof using.
  intros _ Ne Od A catalog E. unfold read_base_integrity_catalog in E |- *. rewrite Ne in E |- *. cbn [negb ensure mbind result_bind] in E |- *.
  destruct (BPID.checksum_valid crc32 d); cbn [ensure mbind result_bind] in E |- *; [|done].
  destruct (encoded_len_for_count _) as [len|]; cbn [mbind result_bind] in E |- *; [|done].
  destruct (BPID.catalog_len d =? len); cbn [ensure mbind result_bind] in E |- *; [|done].
  apply bind_Ok in E as ([bs rem] & F & E).
  assert (G : ∀ m k st, (k + m ≤ Z.to_nat (BPID.catalog_page_count d))%nat →
    ∀ st', foldR (read_catalog_page b (BPID.catalog_page_start d)) st (seq k m) = Ok st' →
    foldR (read_catalog_page b' (BPID.catalog_page_start d)) st (seq k m) = Ok st').
  { destruct Od as (_ & _ & _ & U1 & U2 & _). unfold u64_ok in U1, U2.
    induction m as [|m IH]; intros k st Hk st' Es; [done|]. cbn [seq foldR] in Es |- *. apply bind_Ok in Es as (st1 & E1 & Es).
    assert (E1' : read_catalog_page b' (BPID.catalog_page_start d) st k = Ok st1).
    { unfold read_catalog_page in E1 |- *. destruct st as [bytes remaining]. apply bind_Ok in E1 as (pid & Ep & E1).
      rewrite Ep. cbn [mbind result_bind]. apply ok_or_Ok in Ep. unfold checked_add_u64 in Ep. case_match; simplify_eq.
      apply bind_Ok in E1 as (page & Rp & E1). rewrite (A _ page) by (done || lia). exact E1. }
    rewrite E1'. cbn [mbind result_bind]. apply IH; [lia|done]. }
  apply G in F; [|lia]. rewrite F. exact E.
Qed.

(** Page 0 of a written base passes the layout checks. *)
Lemma validate_base_ok (b : B) catalog d gen start count cat_start h e : catalog_on b catalog d gen start count cat_start →
  HeaderExtension.base_integrity e = d → HeaderExtension.base_fact_page_start e = start →
  cat_start + BPID.catalog_page_count d ≤ FileHeader.page_count h < 2 ^ 64 → 0 < FileHeader.fact_page_count h ≤ count →
  0 < start → start + count ≤ cat_start →
  Forall (λ root, start ≤ root < start + count) [FileHeader.eavt_root_page h; FileHeader.aevt_root_page h; FileHeader.avet_root_page h; FileHeader.vaet_root_page h] →
  load_v11_base_integrity crc32 b h e = Ok (Some catalog).
Proof using.
  intros [Rd _ _ Ds Dc Dp Od Vd Cd Nd El Pg] Ei Es Hp Hf Hs Ho Fr. unfold load_v11_base_integrity, validate_v11_base_integrity_descriptor.
  rewrite Ei, Es, Nd, Ds, Z.eqb_refl, Dc. cbn [ensure mbind result_bind].
  unfold BPID.catalog_page_end, BPID.covered_page_end. rewrite Dp, Ds, Dc, !checked_add_ok by lia. cbn [ok_or mbind result_bind].
  rewrite El. cbn [mbind result_bind]. rewrite Z.eqb_refl. cbn [ensure mbind result_bind].
  rewrite (proj2 (Z.leb_le (cat_start + _) _)), (proj2 (Z.leb_le (start + FileHeader.fact_page_count h) _)) by lia. cbn [ensure mbind result_bind].
  rewrite (proj2 (Z.eqb_neq (FileHeader.fact_page_count h) 0)) by lia. cbn [negb ensure mbind result_bind].
  rewrite (proj2 (forallb_forall _ _)); [cbn [ensure mbind result_bind]; by rewrite Rd|].
  intros root I%list_elem_of_In. rewrite Forall_forall in Fr. specialize (Fr root I). cbv beta in Fr.
  rewrite (proj2 (Z.eqb_neq root 0)), (proj2 (Z.ltb_ge root start)), (proj2 (Z.leb_gt (start + count) root)) by lia. done.
Qed.
End laws.
