(* ===== verification/DeltaSegment.v ===== *)
(** Delta segments (src/src/storage/delta_segment.rs): the facts of one checkpoint
    with their index entries, appended behind the base instead of rewriting it.

    A segment is built from the facts, checked, encoded into a frame with a
    checksum and a commit marker, written over whole pages and read back from them.
    The postcard codecs of its header and payload are parameters with their round
    trip, crc32 is a parameter with a 32-bit result. *)
From S2P Require Import Prelude Types ValueCodec Index Wal FactStore PackedPages HeaderPage BTreePages Backends PageIntegrity IntegrityStore Lookup MergeScan CurrentState IndexScan.
Set Default Proof Using "Type".

Definition DELTA_SEGMENT_MAGIC : bytes := as_bytes "MGDSG001".
Definition DELTA_SEGMENT_COMMIT_MARKER : bytes := as_bytes "MGDSDONE".
Definition DELTA_SEGMENT_CODEC_VERSION : Z := 1.
Definition SEGMENT_PREFIX_LEN : nat := 20.

(** * Data *)

#[export] Instance AevtKey_eq_dec : EqDecision AevtKey.
Proof. solve_decision. Defined.
#[export] Instance AvetKey_eq_dec : EqDecision AvetKey.
Proof. solve_decision. Defined.
#[export] Instance VaetKey_eq_dec : EqDecision VaetKey.
Proof. solve_decision. Defined.

Record DeltaKeyRange (K : Type) : Type := mkKeyRange { kr_min : K; kr_max : K }.
Arguments mkKeyRange {K}.
Arguments kr_min {K}.
Arguments kr_max {K}.
#[export] Instance DeltaKeyRange_eq_dec {K} `{EqDecision K} : EqDecision (DeltaKeyRange K).
Proof. solve_decision. Defined.

Record DeltaSegmentKeyRanges : Type := mkKeyRanges {
  kr_eavt : option (DeltaKeyRange EavtKey);
  kr_aevt : option (DeltaKeyRange AevtKey);
  kr_avet : option (DeltaKeyRange AvetKey);
  kr_vaet : option (DeltaKeyRange VaetKey);
}.

Record DeltaSegmentHeader : Type := mkSegmentHeader {
  sh_codec_version : Z;
  sh_fact_count : Z;
  sh_fact_page_start : Z;
  sh_fact_page_count : Z;
  sh_low_tx_count : Z;
  sh_high_tx_count : Z;
  sh_eavt_count : Z;
  sh_aevt_count : Z;
  sh_avet_count : Z;
  sh_vaet_count : Z;
  sh_key_ranges : DeltaSegmentKeyRanges;
}.

Record DeltaSegmentPayload : Type := mkSegmentPayload {
  sp_facts : list (FactRef * Fact);
  sp_eavt : list (EavtKey * FactRef);
  sp_aevt : list (AevtKey * FactRef);
  sp_avet : list (AvetKey * FactRef);
  sp_vaet : list (VaetKey * FactRef);
}.

Module DeltaSegment.
Record t : Type := mk { header : DeltaSegmentHeader; payload : DeltaSegmentPayload }.
End DeltaSegment.

(** * Building *)

Definition len_to_u64 (len : nat) (label : string) : result Z :=
  _ ← ensure (Z.of_nat len <=? u64_MAX) (label +:+ " exceeds u64"); Ok (Z.of_nat len).

Definition segment_rows (facts : list (FactRef * Fact)) : list (Fact * FactRef) := (λ x, (x.2, x.1)) <$> facts.
Definition build_index_entries (facts : list (FactRef * Fact)) : Indexes := indexes_of (segment_rows facts).

Definition key_range {K} (entries : list (K * FactRef)) : option (DeltaKeyRange K) :=
  first ← head entries;
  last ← last entries;
  Some (mkKeyRange first.1 last.1).
Definition range_may_overlap {K} `{Ord K} (range : option (DeltaKeyRange K)) (start : K) (stop : option K) : bool :=
  match range with
  | None => false
  | Some range =>
      if ltb_ord (kr_max range) start then false
      else match stop with Some stop => ltb_ord (kr_min range) stop | None => true end
  end.

Definition tx_range (facts : list (FactRef * Fact)) : Z * Z :=
  match (λ x, tx_count x.2) <$> facts with
  | [] => (0, 0)
  | first :: rest => foldl (λ '(low, high) tx, (low `min` tx, high `max` tx)) (first, first) rest
  end.

Definition key_ranges_of (p : DeltaSegmentPayload) : DeltaSegmentKeyRanges :=
  mkKeyRanges (key_range (sp_eavt p)) (key_range (sp_aevt p)) (key_range (sp_avet p)) (key_range (sp_vaet p)).

Definition segment_header_from_payload (p : DeltaSegmentPayload) (fact_page_start fact_page_count : Z) : result DeltaSegmentHeader :=
  let '(low, high) := tx_range (sp_facts p) in
  facts ← len_to_u64 (length (sp_facts p)) "fact count";
  eavt ← len_to_u64 (length (sp_eavt p)) "EAVT count";
  aevt ← len_to_u64 (length (sp_aevt p)) "AEVT count";
  avet ← len_to_u64 (length (sp_avet p)) "AVET count";
  vaet ← len_to_u64 (length (sp_vaet p)) "VAET count";
  Ok (mkSegmentHeader DELTA_SEGMENT_CODEC_VERSION facts fact_page_start fact_page_count low high eavt aevt avet vaet (key_ranges_of p)).

Definition may_overlap_eavt (h : DeltaSegmentHeader) : EavtKey → option EavtKey → bool := range_may_overlap (kr_eavt (sh_key_ranges h)).
Definition may_overlap_aevt (h : DeltaSegmentHeader) : AevtKey → option AevtKey → bool := range_may_overlap (kr_aevt (sh_key_ranges h)).
Definition may_overlap_avet (h : DeltaSegmentHeader) : AvetKey → option AvetKey → bool := range_may_overlap (kr_avet (sh_key_ranges h)).
Definition may_overlap_vaet (h : DeltaSegmentHeader) : VaetKey → option VaetKey → bool := range_may_overlap (kr_vaet (sh_key_ranges h)).

(** * Checking *)

Definition validate_fact_ref_in_range (r : FactRef) (start stop : Z) (label : string) : result () :=
  ensure (negb ((page_id r <? start) || (stop <=? page_id r))) (label +:+ " page reference out of bounds").
(** The loop over the facts, with the set of the references seen. *)
Definition check_fact_row (start stop : Z) (seen : list FactRef) (row : FactRef * Fact) : result (list FactRef) :=
  _ ← validate_fact_ref_in_range row.1 start stop "delta fact row";
  _ ← ensure (bool_decide (row.1 ∉ seen)) "Delta segment duplicate fact reference";
  Ok (row.1 :: seen).
Definition validate_index_refs {K} (entries : list (K * FactRef)) (refs : list FactRef) (label : string) : result () :=
  foldR (λ _ e, ensure (bool_decide (e.2 ∈ refs)) (label +:+ " entry references missing fact")) tt entries.

Definition check_count (count : Z) (len : nat) (label : string) (message : string) : result () :=
  n ← len_to_u64 len label; ensure (count =? n) message.

Definition validate_segment (s : DeltaSegment.t) : result () :=
  let h := DeltaSegment.header s in
  let p := DeltaSegment.payload s in
  _ ← ensure (sh_codec_version h =? DELTA_SEGMENT_CODEC_VERSION) "Unsupported delta segment codec version";
  _ ← check_count (sh_fact_count h) (length (sp_facts p)) "fact count" "Delta segment fact count mismatch";
  _ ← check_count (sh_eavt_count h) (length (sp_eavt p)) "EAVT count" "Delta segment EAVT count mismatch";
  _ ← check_count (sh_aevt_count h) (length (sp_aevt p)) "AEVT count" "Delta segment AEVT count mismatch";
  _ ← check_count (sh_avet_count h) (length (sp_avet p)) "AVET count" "Delta segment AVET count mismatch";
  _ ← check_count (sh_vaet_count h) (length (sp_vaet p)) "VAET count" "Delta segment VAET count mismatch";
  let ranges := sh_key_ranges h in
  let expected := key_ranges_of p in
  _ ← ensure (bool_decide (kr_eavt ranges = kr_eavt expected) && bool_decide (kr_aevt ranges = kr_aevt expected) &&
              bool_decide (kr_avet ranges = kr_avet expected) && bool_decide (kr_vaet ranges = kr_vaet expected))
        "Delta segment key range metadata mismatch";
  let '(low, high) := tx_range (sp_facts p) in
  _ ← ensure ((sh_low_tx_count h =? low) && (sh_high_tx_count h =? high)) "Delta segment tx_count range mismatch";
  stop ← ok_or (checked_add_u64 (sh_fact_page_start h) (sh_fact_page_count h)) "Delta segment fact page range overflow";
  refs ← foldR (check_fact_row (sh_fact_page_start h) stop) [] (sp_facts p);
  _ ← validate_index_refs (sp_eavt p) refs "EAVT";
  _ ← validate_index_refs (sp_aevt p) refs "AEVT";
  _ ← validate_index_refs (sp_avet p) refs "AVET";
  _ ← validate_index_refs (sp_vaet p) refs "VAET";
  let ix := build_index_entries (sp_facts p) in
  ensure (bool_decide (sp_eavt p = eavt ix) && bool_decide (sp_aevt p = aevt ix) &&
          bool_decide (sp_avet p = avet ix) && bool_decide (sp_vaet p = vaet ix))
    "Delta segment index entries do not match facts".

Definition segment_from_parts (h : DeltaSegmentHeader) (p : DeltaSegmentPayload) : result DeltaSegment.t :=
  let s := DeltaSegment.mk h p in
  _ ← validate_segment s; Ok s.

Section from_facts.
Context (to_allocvec : Fact → result bytes).
Definition segment_from_facts (facts : list Fact) (fact_page_start : Z) : result DeltaSegment.t :=
  '(fact_page_count, fact_refs) ←
    match facts with
    | [] => Ok (0, [])
    | _ => '(pages, fact_refs) ← pack_facts to_allocvec facts fact_page_start;
           n ← len_to_u64 (length pages) "delta fact page count";
           Ok (n, fact_refs)
    end;
  let rows := zip fact_refs facts in
  let ix := build_index_entries rows in
  let p := mkSegmentPayload rows (eavt ix) (aevt ix) (avet ix) (vaet ix) in
  h ← segment_header_from_payload p fact_page_start fact_page_count;
  segment_from_parts h p.
End from_facts.

(** * Frames: a body, its checksum and the commit marker *)

Definition TRAILER_LEN : nat := 12.
Section frame.
Context (crc32 : bytes → Z) (name : string) (marker : bytes).
(** [DeltaSegmentTrailer] and [DeltaManifestTrailer]. *)
Definition trailer_append_to (checksum : Z) (out : bytes) : bytes := out ++ to_le_bytes 4 checksum ++ marker.
Definition trailer_from_bytes (bs : bytes) : result Z :=
  _ ← ensure (length bs =? TRAILER_LEN)%nat (name +:+ " trailer length is invalid");
  checksum ← read_u32_le bs 0;
  m ← ok_or (get_range bs 4 (4 + length marker)) (name +:+ " trailer missing commit marker");
  _ ← ensure (bool_decide (m = marker)) (name +:+ " missing commit marker");
  Ok checksum.
(** The body of a frame, as both [decode] functions take it. *)
Definition open_frame (prefix_len : nat) (bs : bytes) : result bytes :=
  _ ← ensure (prefix_len + TRAILER_LEN <=? length bs)%nat (name +:+ " is too short");
  let trailer_offset := (length bs - TRAILER_LEN)%nat in
  t ← ok_or (get_range bs trailer_offset (length bs)) (name +:+ " trailer out of bounds");
  checksum ← trailer_from_bytes t;
  body ← ok_or (get_range bs 0 trailer_offset) (name +:+ " body out of bounds");
  _ ← ensure (checksum =? crc32 body) (name +:+ " checksum mismatch");
  Ok body.
Definition seal_frame (body : bytes) : bytes := trailer_append_to (crc32 body) body.
End frame.

(** * Encoding *)

(** The postcard codecs of the two parts. *)
Class SegmentPostcard : Type := {
  pc_header : DeltaSegmentHeader → result bytes;
  pc_payload : DeltaSegmentPayload → result bytes;
  pc_read_header : bytes → result DeltaSegmentHeader;
  pc_read_payload : bytes → result DeltaSegmentPayload;
}.
(** [postcard::from_bytes] inverts [postcard::to_allocvec] on values of their types. *)
Class SegmentPostcardLaws `{SegmentPostcard} : Prop := {
  pc_header_inverts h bs : pc_header h = Ok bs → pc_read_header bs = Ok h;
  pc_payload_inverts p bs : Forall (λ x, fact_ok x.2) (sp_facts p) → pc_payload p = Ok bs → pc_read_payload bs = Ok p;
}.

Section codec.
Context (crc32 : bytes → Z) `{SegmentPostcard}.

Definition encode_segment (s : DeltaSegment.t) : result bytes :=
  _ ← validate_segment s;
  hb ← pc_header (DeltaSegment.header s);
  pb ← pc_payload (DeltaSegment.payload s);
  _ ← ensure (Z.of_nat (length hb) <=? u32_MAX) "Delta segment header exceeds u32 length";
  _ ← ensure (Z.of_nat (length pb) <=? u64_MAX) "Delta segment payload exceeds u64 length";
  Ok (seal_frame crc32 DELTA_SEGMENT_COMMIT_MARKER
        (DELTA_SEGMENT_MAGIC ++ to_le_bytes 4 (Z.of_nat (length hb)) ++ to_le_bytes 8 (Z.of_nat (length pb)) ++ hb ++ pb)).

Definition decode_segment (bs : bytes) : result DeltaSegment.t :=
  body ← open_frame crc32 "Delta segment" DELTA_SEGMENT_COMMIT_MARKER SEGMENT_PREFIX_LEN bs;
  magic ← ok_or (get_range body 0 8) "Delta segment missing magic";
  _ ← ensure (bool_decide (magic = DELTA_SEGMENT_MAGIC)) "Delta segment magic mismatch";
  header_len ← read_u32_le body 8;
  payload_len ← read_u64_le body 12;
  header_end ← ok_or (checked_add_u64 (Z.of_nat SEGMENT_PREFIX_LEN) header_len) "Delta segment header end overflow";
  payload_end ← ok_or (checked_add_u64 header_end payload_len) "Delta segment payload end overflow";
  _ ← ensure (payload_end =? Z.of_nat (length body)) "Delta segment length fields do not match body length";
  hb ← ok_or (get_range body SEGMENT_PREFIX_LEN (Z.to_nat header_end)) "Delta segment header out of bounds";
  pb ← ok_or (get_range body (Z.to_nat header_end) (Z.to_nat payload_end)) "Delta segment payload out of bounds";
  h ← pc_read_header hb;
  p ← pc_read_payload pb;
  segment_from_parts h p.

(** The encoded segment at the front of whole pages. *)
Definition decode_from_page_bytes (bs : bytes) : result DeltaSegment.t :=
  _ ← ensure (SEGMENT_PREFIX_LEN + TRAILER_LEN <=? length bs)%nat "Delta segment page bytes are too short";
  magic ← ok_or (get_range bs 0 8) "Delta segment missing magic";
  _ ← ensure (bool_decide (magic = DELTA_SEGMENT_MAGIC)) "Delta segment magic mismatch";
  header_len ← read_u32_le bs 8;
  payload_len ← read_u64_le bs 12;
  exact_len ← ok_or (n ← checked_add_u64 (Z.of_nat SEGMENT_PREFIX_LEN) header_len;
                     n ← checked_add_u64 n payload_len;
                     checked_add_u64 n (Z.of_nat TRAILER_LEN)) "Delta segment encoded length overflow";
  _ ← ensure (exact_len <=? Z.of_nat (length bs)) "Delta segment encoded length exceeds descriptor pages";
  exact ← ok_or (get_range bs 0 (Z.to_nat exact_len)) "Delta segment exact bytes out of bounds";
  decode_segment exact.
End codec.

(** * Pages *)

Section pages.
Context {B : Type} `{StorageBackend B}.

(** One page of the loop that spreads encoded bytes over pages; [write_segment_pages]
    and [write_manifest_pages] have the same one. *)
Definition write_frame_page (name : string) (encoded : bytes) (start : Z) (b : B) (page_index : nat) : result B :=
  let byte_start := (page_index * PAGE_SIZE)%nat in
  let byte_end := ((byte_start + PAGE_SIZE) `min` length encoded)%nat in
  chunk ← ok_or (get_range encoded byte_start byte_end) (name +:+ " bytes out of bounds");
  page_id ← ok_or (checked_add_u64 start (Z.of_nat page_index)) (name +:+ " page id overflow");
  backend_write_page b page_id (chunk ++ replicate (PAGE_SIZE - length chunk) (z2b 0)).
Definition frame_page_count (encoded : bytes) : nat := ((length encoded + PAGE_SIZE - 1) / PAGE_SIZE)%nat.

(** The reading loop: whole pages, appended. *)
Definition read_frame_page (name : string) (b : B) (start : Z) (bs : bytes) (offset : nat) : result bytes :=
  page_id ← ok_or (checked_add_u64 start (Z.of_nat offset)) (name +:+ " page id overflow");
  page ← backend_read_page b page_id;
  _ ← ensure (length page =? PAGE_SIZE)%nat (name +:+ " page has invalid size");
  Ok (bs ++ page).
Definition read_frame_pages (name : string) (b : B) (start : Z) (count : nat) : result bytes :=
  foldR (read_frame_page name b start) [] (seq 0 count).

Context (crc32 : bytes → Z) `{SegmentPostcard}.
Definition write_segment_pages (b : B) (page_start : Z) (s : DeltaSegment.t) : result (B * Z) :=
  _ ← ensure (negb (page_start =? 0)) "Delta segment must not start on page 0";
  bs ← encode_segment crc32 s;
  b ← foldR (write_frame_page "Delta segment" bs page_start) b (seq 0 (frame_page_count bs));
  Ok (b, Z.of_nat (frame_page_count bs)).
End pages.

(** * What the check accepts *)

Record segment_ok (s : DeltaSegment.t) : Prop := {
  so_version : sh_codec_version (DeltaSegment.header s) = DELTA_SEGMENT_CODEC_VERSION;
  so_counts : let h := DeltaSegment.header s in let p := DeltaSegment.payload s in
    sh_fact_count h = Z.of_nat (length (sp_facts p)) ∧ sh_eavt_count h = Z.of_nat (length (sp_eavt p)) ∧
    sh_aevt_count h = Z.of_nat (length (sp_aevt p)) ∧ sh_avet_count h = Z.of_nat (length (sp_avet p)) ∧
    sh_vaet_count h = Z.of_nat (length (sp_vaet p));
  so_sizes : let p := DeltaSegment.payload s in
    Forall (λ n, Z.of_nat n ≤ u64_MAX) [length (sp_facts p); length (sp_eavt p); length (sp_aevt p); length (sp_avet p); length (sp_vaet p)];
  so_ranges : sh_key_ranges (DeltaSegment.header s) = key_ranges_of (DeltaSegment.payload s);
  so_tx : (sh_low_tx_count (DeltaSegment.header s), sh_high_tx_count (DeltaSegment.header s)) = tx_range (sp_facts (DeltaSegment.payload s));
  so_pages : sh_fact_page_start (DeltaSegment.header s) + sh_fact_page_count (DeltaSegment.header s) ≤ u64_MAX;
  so_refs : Forall (λ x, sh_fact_page_start (DeltaSegment.header s) ≤ page_id x.1 <
                         sh_fact_page_start (DeltaSegment.header s) + sh_fact_page_count (DeltaSegment.header s)) (sp_facts (DeltaSegment.payload s));
  so_distinct : NoDup (sp_facts (DeltaSegment.payload s)).*1;
  so_entries : let p := DeltaSegment.payload s in
    {| eavt := sp_eavt p; aevt := sp_aevt p; avet := sp_avet p; vaet := sp_vaet p |} = indexes_of (segment_rows (sp_facts p));
}.

Lemma check_count_ok c n l m : check_count c n l m = Ok () ↔ c = Z.of_nat n ∧ Z.of_nat n ≤ u64_MAX.
Proof.
  unfold check_count, len_to_u64. split.
  - intros E. inv_ok. match goal with H : _ = true |- _ => apply Z.leb_le in H end.
    match goal with H : _ = true |- _ => apply Z.eqb_eq in H end. done.
  - intros [-> L]. rewrite (proj2 (Z.leb_le _ _)) by done. cbn. by rewrite Z.eqb_refl.
Qed.
Lemma check_rows_ok start stop rows : ∀ seen out, foldR (check_fact_row start stop) seen rows = Ok out ↔
  out = rev rows.*1 ++ seen ∧ Forall (λ x, start ≤ page_id x.1 < stop) rows ∧ NoDup rows.*1 ∧ (∀ r, r ∈ rows.*1 → r ∉ seen).
Proof.
  induction rows as [|[r f] rows IH]; intros seen out; cbn [foldR fmap list_fmap rev app].
  - split; [intros [= <-]; split_and!; [done|constructor|constructor|set_solver]|by intros (-> & _)].
  - assert (St : ∀ out, check_fact_row start stop seen (r, f) = Ok out ↔ out = r :: seen ∧ start ≤ page_id r < stop ∧ r ∉ seen).
    { intros o. unfold check_fact_row, validate_fact_ref_in_range. cbn [fst]. split.
      - intros E. inv_ok. match goal with H : negb _ = true |- _ => apply negb_true_iff, orb_false_iff in H as [?%Z.ltb_ge ?%Z.leb_gt] end.
        match goal with H : bool_decide _ = true |- _ => apply bool_decide_eq_true in H end. done.
      - intros (-> & L & N). rewrite (proj2 (Z.ltb_ge _ _)), (proj2 (Z.leb_gt _ _)) by lia. cbn. by rewrite bool_decide_true. }
    split.
    + intros (s1 & (-> & L & N)%St & (-> & F & D & M)%IH)%bind_Ok. rewrite <-app_assoc. split_and!; [done|by constructor| |].
      * constructor; [|done]. intros I. specialize (M r I). set_solver.
      * intros x [->|I]%elem_of_cons; [done|]. specialize (M x I). set_solver.
    + intros (-> & F & D & M). apply Forall_cons in F as [L F]. apply NoDup_cons in D as [Nr D].
      rewrite (proj2 (St (r :: seen))) by (split_and!; [done|apply L|apply L|apply M; set_solver]). cbn [mbind result_bind]. apply IH.
      split_and!; [by rewrite <-app_assoc|done|done|]. intros x I [->|J]%elem_of_cons; [done|]. apply (M x); set_solver.
Qed.
Lemma index_refs_ok {K} (entries : list (K * FactRef)) refs label :
  validate_index_refs entries refs label = Ok () ↔ ∀ e, e ∈ entries → e.2 ∈ refs.
Proof.
  unfold validate_index_refs. induction entries as [|e entries IH]; cbn [foldR]; [split; [set_solver|done]|].
  split.
  - intros ([] & E & R)%bind_Ok. inv_ok. apply bool_decide_eq_true in E. rewrite IH in R. set_solver.
  - intros R. rewrite bool_decide_true by (apply R; set_solver). cbn. apply IH. set_solver.
Qed.
(** A value of a map comes from an insertion. *)
Lemma bt_insert_value {K V} `{Ord K} (k : K) (v : V) m x : x ∈ bt_insert k v m → x.2 = v ∨ x ∈ m.
Proof.
  induction m as [|[k' v'] m IH]; cbn; [set_solver|]. destruct (cmp k k'); rewrite ?elem_of_cons; naive_solver.
Qed.
Lemma built_values {K V} `{Ord K} (rows : list (K * V)) e :
  e ∈ foldl (λ m r, bt_insert r.1 r.2 m) [] rows → e.2 ∈ rows.*2.
Proof.
  induction rows as [|[k v] rows IH] using rev_ind; [set_solver|]. rewrite foldl_app, fmap_app. cbn [foldl fst snd].
  intros I. apply elem_of_app. destruct (bt_insert_value _ _ _ _ I) as [->|J]; [right; set_solver|left; by apply IH].
Qed.

Lemma entry_refs rows : let ix := indexes_of rows in
  (∀ e, e ∈ eavt ix → e.2 ∈ rows.*2) ∧ (∀ e, e ∈ aevt ix → e.2 ∈ rows.*2) ∧
  (∀ e, e ∈ avet ix → e.2 ∈ rows.*2) ∧ (∀ e, e ∈ vaet ix → e.2 ∈ rows.*2).
Proof.
  cbn zeta. rewrite indexes_of_parts. cbn [eavt aevt avet vaet].
  assert (M : ∀ K (kf : Fact → K), (prod_map kf id <$> rows).*2 = rows.*2).
  { intros K kf. rewrite <-list_fmap_compose. done. }
  split_and!; intros e I%built_values; rewrite ?M in I; [done..|].
  apply list_elem_of_fmap in I as (x & -> & I). apply list_elem_of_omap in I as ([f r] & I & E).
  destruct (vaet_key_of f); [|done]. injection E as <-. apply (list_elem_of_fmap_2 snd _ _ I).
Qed.
Lemma segment_rows_refs facts : (segment_rows facts).*2 = facts.*1.
Proof. unfold segment_rows. by rewrite <-list_fmap_compose. Qed.
Lemma segment_rows_facts facts : (segment_rows facts).*1 = facts.*2.
Proof. unfold segment_rows. by rewrite <-list_fmap_compose. Qed.

Lemma checked_add_Some a b c : checked_add_u64 a b = Some c ↔ c = a + b ∧ a + b ≤ u64_MAX.
Proof. unfold checked_add_u64. destruct (Z.leb_spec (a + b) u64_MAX); split; [by intros [= <-]|by intros [-> _]|done|intros [_ ?]; lia]. Qed.

Lemma checked_add_le a b : a + b ≤ u64_MAX → checked_add_u64 a b = Some (a + b).
Proof. intros L. by apply checked_add_Some. Qed.

Lemma validate_accepts s : segment_ok s → validate_segment s = Ok ().
Proof.
  destruct s as [h p]. intros [V C Sz R T P F D E]. cbn [DeltaSegment.header DeltaSegment.payload] in *.
  destruct C as (C1 & C2 & C3 & C4 & C5). rewrite !Forall_cons in Sz. destruct Sz as (Z1 & Z2 & Z3 & Z4 & Z5 & _).
  unfold validate_segment. cbn [DeltaSegment.header DeltaSegment.payload]. rewrite V, Z.eqb_refl. cbn [ensure mbind result_bind].
  rewrite !(proj2 (check_count_ok _ _ _ _)) by done. cbn [mbind result_bind]. rewrite R.
  rewrite (bool_decide_true (kr_eavt _ = _)), (bool_decide_true (kr_aevt _ = _)), (bool_decide_true (kr_avet _ = _)), (bool_decide_true (kr_vaet _ = _)) by done.
  cbn [andb ensure mbind result_bind].
  destruct (tx_range (sp_facts p)) as [low high]. injection T as -> ->. rewrite !Z.eqb_refl. cbn [andb ensure mbind result_bind].
  rewrite (proj2 (checked_add_Some _ _ _) (conj eq_refl P)). cbn [ok_or mbind result_bind].
  rewrite (proj2 (check_rows_ok _ _ _ _ (rev (sp_facts p).*1 ++ []))) by (split_and!; [done..|set_solver]). cbn [mbind result_bind].
  rewrite app_nil_r. unfold build_index_entries. rewrite <-E. cbn [eavt aevt avet vaet].
  pose proof (entry_refs (segment_rows (sp_facts p))) as M. cbn zeta in M. rewrite <-E, segment_rows_refs in M. cbn [eavt aevt avet vaet] in M.
  destruct M as (M1 & M2 & M3 & M4).
  rewrite !(proj2 (index_refs_ok _ _ _)) by (intros e I; rewrite list_elem_of_In, <-in_rev, <-list_elem_of_In; auto).
  cbn [mbind result_bind]. by rewrite !bool_decide_true.
Qed.
Lemma validate_sound s : validate_segment s = Ok () → segment_ok s.
Proof.
  destruct s as [h p]. unfold validate_segment. cbn [DeltaSegment.header DeltaSegment.payload]. intros E.
  destruct (tx_range (sp_facts p)) as [low high] eqn:T. inv_ok.
  repeat match goal with H : check_count _ _ _ _ = Ok ?u |- _ => destruct u; apply check_count_ok in H as [? ?] end.
  rewrite !andb_true_iff, !bool_decide_eq_true in *.
  match goal with H : foldR _ _ _ = Ok _ |- _ => apply check_rows_ok in H as (-> & ? & ? & _) end.
  match goal with H : checked_add_u64 _ _ = Some _ |- _ => apply checked_add_Some in H as [-> ?] end.
  split; cbn [DeltaSegment.header DeltaSegment.payload]; try done.
  - by apply Z.eqb_eq.
  - by repeat constructor.
  - destruct (sh_key_ranges h), (key_ranges_of p). cbn in *. naive_solver.
  - rewrite T. rewrite !Z.eqb_eq in *. naive_solver.
  - unfold build_index_entries in *. destruct (indexes_of (segment_rows (sp_facts p))). cbn in *. naive_solver.
Qed.

(** * Round trips *)

Section frame_proofs.
Context (crc32 : bytes → Z) (name : string) (marker : bytes).
Hypothesis crc_u32 : ∀ bs, u32_ok (crc32 bs).
Hypothesis marker_len : length marker = 8%nat.

Lemma seal_length body : length (seal_frame crc32 marker body) = (length body + TRAILER_LEN)%nat.
Proof using marker_len. unfold seal_frame, trailer_append_to, TRAILER_LEN. rewrite !length_app, length_to_le_bytes, marker_len. lia. Qed.
Lemma open_seal prefix body : (prefix ≤ length body)%nat → open_frame crc32 name marker prefix (seal_frame crc32 marker body) = Ok body.
Proof using crc_u32 marker_len.
  intros L. unfold open_frame. rewrite seal_length, (proj2 (Nat.leb_le _ _)) by lia. cbn [ensure mbind result_bind].
  rewrite Nat.add_sub. unfold seal_frame, trailer_append_to.
  rewrite (get_range_skip body _ (length body) (length body + TRAILER_LEN)) by (unfold TRAILER_LEN; lia). rewrite Nat.sub_diag, (get_range_all (to_le_bytes 4 (crc32 body) ++ marker)) by (rewrite length_app, length_to_le_bytes, marker_len; unfold TRAILER_LEN; lia).
  cbn [ok_or mbind result_bind]. unfold trailer_from_bytes. rewrite length_app, length_to_le_bytes, marker_len. cbn [Nat.eqb TRAILER_LEN Nat.add ensure mbind result_bind].
  rewrite read_u32_here by apply crc_u32. cbn [mbind result_bind].
  rewrite (get_range_skip (to_le_bytes 4 (crc32 body)) marker) by (rewrite length_to_le_bytes; lia).
  rewrite length_to_le_bytes, (get_range_all marker) by lia.
  cbn [ok_or mbind result_bind]. rewrite bool_decide_true by done. cbn [ensure mbind result_bind].
  rewrite get_range_here by done. cbn [ok_or mbind result_bind]. by rewrite Z.eqb_refl.
Qed.
End frame_proofs.

Section codec_proofs.
Context (crc32 : bytes → Z) `{SP : SegmentPostcardLaws}.
Hypothesis crc_u32 : ∀ bs, u32_ok (crc32 bs).

Definition segment_body (hb pb : bytes) : bytes :=
  DELTA_SEGMENT_MAGIC ++ to_le_bytes 4 (Z.of_nat (length hb)) ++ to_le_bytes 8 (Z.of_nat (length pb)) ++ hb ++ pb.
Lemma segment_body_length hb pb : length (segment_body hb pb) = (20 + length hb + length pb)%nat.
Proof using. unfold segment_body. assert (length DELTA_SEGMENT_MAGIC = 8%nat) as M by done. rewrite !length_app, !length_to_le_bytes, M. lia. Qed.
Lemma encode_segment_ok s hb pb : segment_ok s → pc_header (DeltaSegment.header s) = Ok hb → pc_payload (DeltaSegment.payload s) = Ok pb →
  Z.of_nat (length hb) ≤ u32_MAX → Z.of_nat (length pb) ≤ u64_MAX →
  encode_segment crc32 s = Ok (seal_frame crc32 DELTA_SEGMENT_COMMIT_MARKER (segment_body hb pb)).
Proof using.
  intros V Eh Ep Lh Lp. unfold encode_segment. rewrite validate_accepts by done. cbn [mbind result_bind]. rewrite Eh. cbn [mbind result_bind].
  rewrite Ep. cbn [mbind result_bind]. by rewrite !(proj2 (Z.leb_le _ _)) by done.
Qed.
Lemma encode_segment_inv s bs : encode_segment crc32 s = Ok bs → ∃ hb pb, segment_ok s ∧
  pc_header (DeltaSegment.header s) = Ok hb ∧ pc_payload (DeltaSegment.payload s) = Ok pb ∧
  u32_ok (Z.of_nat (length hb)) ∧ u64_ok (Z.of_nat (length pb)) ∧
  bs = seal_frame crc32 DELTA_SEGMENT_COMMIT_MARKER (segment_body hb pb).
Proof using.
  unfold encode_segment. intros E. inv_ok. repeat match goal with u : () |- _ => destruct u end.
  eexists _, _. unfold u32_ok, u64_ok, u32_MAX, u64_MAX in *. rewrite !Z.leb_le in *. split_and!; (done || lia || by apply validate_sound).
Qed.

Ltac skip_magic := assert (length DELTA_SEGMENT_MAGIC = 8%nat) as Lm by done; revert Lm; generalize DELTA_SEGMENT_MAGIC; intros magic Lm.
(** The prefix of a body, with anything after it. *)
Lemma prefix_reads hb pb tail : u32_ok (Z.of_nat (length hb)) → u64_ok (Z.of_nat (length pb)) →
  get_range (segment_body hb pb ++ tail) 0 8 = Some DELTA_SEGMENT_MAGIC ∧
  read_u32_le (segment_body hb pb ++ tail) 8 = Ok (Z.of_nat (length hb)) ∧
  read_u64_le (segment_body hb pb ++ tail) 12 = Ok (Z.of_nat (length pb)).
Proof using.
  intros Hh Hp. unfold segment_body. skip_magic. rewrite <-!app_assoc. split_and!.
  - by apply get_range_here.
  - rewrite read_u32_skip by lia. rewrite Lm. by apply read_u32_here.
  - rewrite read_u64_skip by lia. rewrite read_u64_skip by (rewrite length_to_le_bytes; lia). rewrite Lm, length_to_le_bytes. by apply read_u64_here.
Qed.
Lemma body_parts hb pb : let n := (20 + length hb)%nat in
  get_range (segment_body hb pb) 20 n = Some hb ∧ get_range (segment_body hb pb) n (n + length pb) = Some pb.
Proof using.
  unfold segment_body. skip_magic. cbn zeta.
  set (pre := magic ++ to_le_bytes 4 (Z.of_nat (length hb)) ++ to_le_bytes 8 (Z.of_nat (length pb))).
  assert (Lp : length pre = 20%nat) by (unfold pre; rewrite !length_app, !length_to_le_bytes, Lm; lia).
  assert (magic ++ to_le_bytes 4 (Z.of_nat (length hb)) ++ to_le_bytes 8 (Z.of_nat (length pb)) ++ hb ++ pb = pre ++ hb ++ pb) as ->
    by (unfold pre; by rewrite <-!app_assoc).
  split.
  - apply (get_range_at _ pre hb pb); by rewrite ?Lp.
  - apply (get_range_at _ (pre ++ hb) pb []); rewrite ?app_nil_r, ?length_app, ?Lp; (done || by rewrite <-app_assoc).
Qed.

Lemma decode_encode_segment s bs : Forall (λ x, fact_ok x.2) (sp_facts (DeltaSegment.payload s)) → encode_segment crc32 s = Ok bs →
  Z.of_nat (length bs) ≤ u64_MAX → decode_segment crc32 bs = Ok s.
Proof using SP crc_u32.
  intros F (hb & pb & V & Eh & Ep & Hh & Hp & ->)%encode_segment_inv Sz. unfold decode_segment.
  rewrite seal_length, segment_body_length in Sz by done. unfold TRAILER_LEN in Sz.
  rewrite open_seal by (done || rewrite segment_body_length; unfold SEGMENT_PREFIX_LEN; lia). cbn [mbind result_bind].
  destruct (prefix_reads hb pb [] Hh Hp) as (R1 & R2 & R3). rewrite app_nil_r in R1, R2, R3.
  rewrite R1. cbn [ok_or mbind result_bind]. rewrite bool_decide_true by done. cbn [ensure mbind result_bind].
  rewrite R2. cbn [mbind result_bind]. rewrite R3. cbn [mbind result_bind].
  unfold SEGMENT_PREFIX_LEN. rewrite !checked_add_le by lia. cbn [ok_or mbind result_bind]. rewrite !checked_add_le by lia. cbn [ok_or mbind result_bind].
  rewrite segment_body_length, (proj2 (Z.eqb_eq _ _)) by lia. cbn [ensure mbind result_bind].
  destruct (body_parts hb pb) as [P1 P2]. cbn zeta in P1, P2.
  replace (Z.to_nat (Z.of_nat 20 + Z.of_nat (length hb) + Z.of_nat (length pb))) with (20 + length hb + length pb)%nat by lia.
  replace (Z.to_nat (Z.of_nat 20 + Z.of_nat (length hb))) with (20 + length hb)%nat by lia.
  rewrite P1. cbn [ok_or mbind result_bind]. rewrite P2. cbn [ok_or mbind result_bind].
  rewrite (pc_header_inverts _ _ Eh). cbn [mbind result_bind]. rewrite (pc_payload_inverts _ _ F Ep). cbn [mbind result_bind].
  unfold segment_from_parts. destruct s as [h p]. cbn [DeltaSegment.header DeltaSegment.payload]. by rewrite validate_accepts.
Qed.
(** Whatever follows on the last page. *)
Lemma decode_segment_pages s bs tail : Forall (λ x, fact_ok x.2) (sp_facts (DeltaSegment.payload s)) → encode_segment crc32 s = Ok bs →
  Z.of_nat (length bs) ≤ u64_MAX → decode_from_page_bytes crc32 (bs ++ tail) = Ok s.
Proof using SP crc_u32.
  intros F E Sz. pose proof (decode_encode_segment s bs F E Sz) as D.
  apply encode_segment_inv in E as (hb & pb & V & Eh & Ep & Hh & Hp & Eb).
  assert (Lb : length bs = (20 + length hb + length pb + 12)%nat) by (rewrite Eb, seal_length by done; by rewrite segment_body_length).
  unfold decode_from_page_bytes. rewrite length_app, (proj2 (Nat.leb_le _ _)) by (unfold SEGMENT_PREFIX_LEN, TRAILER_LEN; lia).
  cbn [ensure mbind result_bind].
  assert (exists rest, bs ++ tail = segment_body hb pb ++ rest) as (rest & Er).
  { rewrite Eb. unfold seal_frame, trailer_append_to. rewrite <-!app_assoc. by eexists. }
  destruct (prefix_reads hb pb rest Hh Hp) as (R1 & R2 & R3). rewrite <-Er in R1, R2, R3.
  rewrite R1. cbn [ok_or mbind result_bind]. rewrite bool_decide_true by done. cbn [ensure mbind result_bind].
  rewrite R2. cbn [mbind result_bind]. rewrite R3. cbn [mbind result_bind].
  unfold SEGMENT_PREFIX_LEN, TRAILER_LEN. rewrite checked_add_le by lia. cbn [mbind option_bind]. rewrite checked_add_le by lia.
  cbn [mbind option_bind]. rewrite checked_add_le by lia. cbn [ok_or mbind result_bind].
  rewrite (proj2 (Z.leb_le _ _)) by lia. cbn [ensure mbind result_bind].
  rewrite get_range_here by lia. done.
Qed.
End codec_proofs.

(** ** Frames over pages *)

Lemma foldR_ext_elem {A S'} (f g : S' → A → result S') l : ∀ s, (∀ s x, x ∈ l → f s x = g s x) → foldR f s l = foldR g s l.
Proof.
  induction l as [|x l IH]; intros s E; [done|]. cbn. rewrite E by set_solver. destruct (g s x); [|done]. apply IH. set_solver.
Qed.

Section page_proofs.
Context {B : Type} `{BL : BackendLaws B} (name : string).

Lemma frame_page_count_spec bs : (0 < length bs)%nat →
  ((frame_page_count bs - 1) * PAGE_SIZE < length bs ≤ frame_page_count bs * PAGE_SIZE)%nat ∧ (0 < frame_page_count bs)%nat.
Proof using.
  unfold frame_page_count. pose proof PAGE_SIZE_val as PS. revert PS. generalize PAGE_SIZE. intros ps PS L.
  pose proof (Nat.div_mod_eq (length bs + ps - 1) ps) as D. pose proof (Nat.mod_upper_bound (length bs + ps - 1) ps) as M.
  set (q := ((length bs + ps - 1) / ps)%nat) in *. destruct q as [|q]; [lia|]. cbn [Nat.sub]. rewrite Nat.sub_0_r. nia.
Qed.

(** The loop writes what the loop of the integrity catalog writes. *)
Lemma write_frame_step bs start (b : B) k : (k * PAGE_SIZE ≤ length bs)%nat → start + Z.of_nat k < 2 ^ 64 →
  write_frame_page name bs start b k = write_catalog_page bs start b k.
Proof using.
  intros L S. unfold write_frame_page, write_catalog_page. rewrite checked_add_ok by lia. cbn [ok_or mbind result_bind].
  destruct (get_range bs (k * PAGE_SIZE) _) as [c|] eqn:E.
  - cbn [ok_or mbind result_bind]. apply get_range_length in E. unfold resize_zero. rewrite take_ge; [done|]. rewrite E. lia.
  - exfalso. unfold get_range in E. case_decide as D; [done|]. apply D. lia.
Qed.

Lemma chunks_concat bs n m : ∀ k, (k + m = n)%nat → ((n - 1) * PAGE_SIZE < length bs ≤ n * PAGE_SIZE)%nat →
  ∃ z, concat (chunk_at bs <$> seq k m) = drop (k * PAGE_SIZE) bs ++ z.
Proof using.
  pose proof PAGE_SIZE_val as PS. unfold chunk_at. revert PS. generalize PAGE_SIZE. intros ps PS.
  induction m as [|m IH]; intros k E L; cbn [seq fmap list_fmap concat].
  - exists []. rewrite drop_ge; [done|]. replace k with n by lia. lia.
  - destruct (IH (S k)) as [z ->]; [lia|done|]. set (c := take ps (drop (k * ps) bs)).
    assert (Sp : drop (k * ps) bs = c ++ drop (S k * ps) bs).
    { unfold c. rewrite <-(take_drop ps (drop (k * ps) bs)) at 1. rewrite drop_drop. do 2 f_equal. lia. }
    unfold resize_zero. rewrite (take_ge c) by (unfold c; rewrite length_take; lia). rewrite Sp.
    destruct m as [|m].
    + rewrite (drop_ge bs (S k * ps)) by (replace (S k) with n by lia; lia). rewrite app_nil_r, <-app_assoc. by eexists.
    + assert (length c = ps) as ->.
      { unfold c. rewrite length_take, length_drop. assert ((S k * ps ≤ (n - 1) * ps)%nat) by (apply Nat.mul_le_mono_r; lia). nia. }
      rewrite Nat.sub_diag. cbn [replicate]. rewrite app_nil_r. exists z. by rewrite <-app_assoc.
Qed.

Lemma read_frame_loop reader (b : B) start (pages : nat → bytes) n : ∀ k acc, start + Z.of_nat (k + n) < 2 ^ 64 →
  (∀ i, (k ≤ i < k + n)%nat → backend_read_page b (start + Z.of_nat i) = Ok (pages i) ∧ length (pages i) = PAGE_SIZE) →
  foldR (read_frame_page reader b start) acc (seq k n) = Ok (acc ++ concat (pages <$> seq k n)).
Proof using.
  induction n as [|n IH]; intros k acc Sb R; cbn [seq foldR fmap list_fmap concat]; [by rewrite app_nil_r|].
  destruct (R k ltac:(lia)) as [Rk Lk].
  assert (read_frame_page reader b start acc k = Ok (acc ++ pages k)) as ->.
  { unfold read_frame_page. rewrite checked_add_ok by lia. cbn [ok_or mbind result_bind]. rewrite Rk. cbn [mbind result_bind].
    by rewrite Lk, Nat.eqb_refl. }
  cbn [mbind result_bind].
  rewrite (IH (S k)); [by rewrite <-(app_assoc acc)|lia|]. intros i Hi. apply R. lia.
Qed.

(** A frame written over fresh pages reads back, padded; other pages are kept. *)
Lemma frame_pages_roundtrip (b : B) start bs : (0 < length bs)%nat → 0 < start → start + Z.of_nat (frame_page_count bs) < 2 ^ 52 →
  ∃ b', foldR (write_frame_page name bs start) b (seq 0 (frame_page_count bs)) = Ok b' ∧
    (∃ z, ∀ reader, read_frame_pages reader b' start (frame_page_count bs) = Ok (bs ++ z)) ∧
    (∀ id page, 0 < id → (id < start ∨ start + Z.of_nat (frame_page_count bs) ≤ id) →
       backend_read_page b id = Ok page → backend_read_page b' id = Ok page).
Proof using BL.
  intros L P Bd. destruct (frame_page_count_spec bs L) as [Bn Pn]. set (n := frame_page_count bs) in *.
  destruct (write_catalog_loop bs start n n 0 b) as (b' & W & R & K); [done|done|done|done|].
  exists b'. split_and!.
  - rewrite <-W. apply foldR_ext_elem. intros s k I%elem_of_seq. apply write_frame_step; [|lia].
    transitivity ((n - 1) * PAGE_SIZE)%nat; [apply Nat.mul_le_mono_r; lia|lia].
  - destruct (chunks_concat bs n n 0 ltac:(done) Bn) as [z Ez]. exists z. intros reader.
    unfold read_frame_pages. rewrite (read_frame_loop reader b' start (chunk_at bs)); [by rewrite Ez|lia|].
    intros i Hi. split; [apply R; lia|]. apply (chunk_payload bs i). transitivity ((n - 1) * PAGE_SIZE)%nat; [apply Nat.mul_le_mono_r; lia|lia].
  - intros id page Hid Ho. apply K; [done|lia].
Qed.
End page_proofs.

(** * Summaries of a segment *)

Lemma tx_range_spec facts low high : tx_range facts = (low, high) → facts ≠ [] →
  Forall (λ x, low ≤ tx_count x.2 ≤ high) facts ∧ low ∈ (λ x, tx_count x.2) <$> facts ∧ high ∈ (λ x, tx_count x.2) <$> facts.
Proof.
  assert (G : ∀ (txs : list Z) lo hi lo' hi', foldl (λ '(l, h) tx, (l `min` tx, h `max` tx)) (lo, hi) txs = (lo', hi') →
    lo' ≤ lo ∧ hi ≤ hi' ∧ Forall (λ t, lo' ≤ t ≤ hi') txs ∧ (lo' = lo ∨ lo' ∈ txs) ∧ (hi' = hi ∨ hi' ∈ txs)).
  { induction txs as [|t txs IH]; cbn; intros lo hi lo' hi' E; [injection E as -> ->; split_and!; (done || lia || constructor || by left)|].
    apply IH in E as (A & C & F & L & Hh). split_and!; [lia|lia|constructor; [lia|done]| |].
    - destruct L as [->|L]; [|right; set_solver]. destruct (Z.min_spec lo t) as [[_ ->]|[_ ->]]; [by left|right; set_solver].
    - destruct Hh as [->|Hh]; [|right; set_solver]. destruct (Z.max_spec hi t) as [[_ ->]|[_ ->]]; [right; set_solver|by left]. }
  unfold tx_range. destruct facts as [|x facts]; [done|]. cbn [fmap list_fmap]. intros E _. apply G in E as (A & C & F & L & Hh).
  split_and!; [constructor; [lia|]| |].
  - apply Forall_fmap in F. done.
  - destruct L as [->|L]; set_solver.
  - destruct Hh as [->|Hh]; set_solver.
Qed.

Lemma le_lt_ord {K} `{OrdLaws K} (a b c : K) : le_ord a b → cmp b c = Lt → cmp a c = Lt.
Proof. unfold le_ord. destruct (cmp a b) eqn:E; [apply cmp_eq in E as ->; done| |done]. intros _. by apply cmp_trans. Qed.
Lemma overlap_sound {K} `{OrdLaws K} (m : list (K * FactRef)) start stop : strictly_ascending m →
  range_may_overlap (key_range m) start stop = false → bt_from start stop m = [].
Proof.
  intros A E. apply elem_of_nil_inv. intros [k r] I. unfold bt_from in I. apply elem_of_List_filter in I as [P I].
  apply andb_true_iff in P as [P1%negb_true_iff P2].
  assert (Hd : ∀ x, head m = Some x → le_ord x.1 k).
  { intros x Hx. destruct m as [|y m]; [done|]. injection Hx as ->. apply elem_of_cons in I as [<-|I]; [apply reflexivity|].
    apply StronglySorted_inv in A as [_ F]. rewrite Forall_forall in F. specialize (F _ I). unfold le_ord. cbn in F. by rewrite F. }
  assert (Tl : ∀ x, last m = Some x → le_ord k x.1).
  { intros x Hx. apply last_Some in Hx as [m' ->]. apply elem_of_app in I as [I|I]; [|apply list_elem_of_singleton in I as <-; apply reflexivity].
    apply StronglySorted_app_1_elem_of with (x1 := (k, r)) (x2 := x) in A; [|done|set_solver]. unfold le_ord. cbn in A. by rewrite A. }
  unfold key_range in E. destruct (head m) as [a|] eqn:Ha; [|destruct m; [by apply not_elem_of_nil in I|done]].
  destruct (last m) as [z|] eqn:Hz; [|apply last_None in Hz; by subst].
  cbn in E. specialize (Hd a eq_refl). specialize (Tl z eq_refl). unfold ltb_ord in *.
  destruct (cmp z.1 start) eqn:Ez; [| |].
  2: { by rewrite (le_lt_ord _ _ _ Tl Ez) in P1. }
  all: destruct stop as [s|]; [|done]; destruct (cmp k s) eqn:Ek; [done| |done]; by rewrite (le_lt_ord _ _ _ Hd Ek) in E.
Qed.

(** * Segments of facts *)

Lemma bt_insert_length {K V} `{Ord K} (k : K) (v : V) m : (length (bt_insert k v m) ≤ S (length m))%nat.
Proof. induction m as [|[k' v'] m IH]; cbn; [lia|]. destruct (cmp k k'); cbn; lia. Qed.
Lemma built_length {K V} `{Ord K} (rows : list (K * V)) : (length (foldl (λ m r, bt_insert r.1 r.2 m) [] rows) ≤ length rows)%nat.
Proof.
  induction rows as [|r rows IH] using rev_ind; [done|]. rewrite foldl_app, length_app. cbn [foldl length].
  pose proof (bt_insert_length r.1 r.2 (foldl (λ m r, bt_insert r.1 r.2 m) [] rows)). lia.
Qed.
Lemma omap_length {A C} (f : A → option C) l : (length (omap f l) ≤ length l)%nat.
Proof. induction l as [|x l IH]; cbn; [done|]. destruct (f x); cbn; lia. Qed.
Lemma index_lengths rows : let ix := indexes_of rows in
  (length (eavt ix) ≤ length rows)%nat ∧ (length (aevt ix) ≤ length rows)%nat ∧ (length (avet ix) ≤ length rows)%nat ∧ (length (vaet ix) ≤ length rows)%nat.
Proof.
  cbn zeta. rewrite indexes_of_parts. cbn [eavt aevt avet vaet].
  split_and!; (etrans; [apply built_length|]); [by rewrite length_fmap..|apply omap_length].
Qed.
Lemma refs_of_below start gs r : r ∈ refs_of start gs → page_id r < start + Z.of_nat (length gs).
Proof.
  intros (j & Lj)%list_elem_of_lookup. assert (j < length (concat gs))%nat as Hj by (rewrite <-(refs_of_length start gs); by eapply lookup_lt_Some).
  destruct (lookup_lt_is_Some_2 _ _ Hj) as [f Hf]. destruct (refs_of_lookup start gs j f Hf) as (k & i & fs & Lk & _ & E).
  rewrite Lj in E. injection E as ->. apply lookup_lt_Some in Lk. cbn. lia.
Qed.

(** The segment of some located facts passes its own check. *)
Lemma segment_of_rows rows start count : Forall (λ x, start ≤ page_id x.1 < start + count) rows → NoDup rows.*1 →
  start + count ≤ u64_MAX → Z.of_nat (length rows) ≤ u64_MAX →
  let ix := build_index_entries rows in
  let p := mkSegmentPayload rows (eavt ix) (aevt ix) (avet ix) (vaet ix) in
  ∃ h, segment_header_from_payload p start count = Ok h ∧ segment_ok (DeltaSegment.mk h p) ∧
    sh_fact_page_start h = start ∧ sh_fact_page_count h = count.
Proof.
  intros F N P L ix p. pose proof (index_lengths (segment_rows rows)) as M. cbn zeta in M. fold (build_index_entries rows) in M.
  assert (length (segment_rows rows) = length rows) as Ls by apply length_fmap. rewrite Ls in M.
  unfold segment_header_from_payload, len_to_u64. destruct (tx_range (sp_facts p)) as [low high] eqn:T.
  cbn [p sp_facts sp_eavt sp_aevt sp_avet sp_vaet]. rewrite !(proj2 (Z.leb_le _ _)) by (unfold ix; lia). cbn [ensure mbind result_bind].
  eexists. split; [done|]. split; [|done].
  split; cbn [DeltaSegment.header DeltaSegment.payload sh_codec_version sh_fact_count sh_eavt_count sh_aevt_count sh_avet_count sh_vaet_count
              sh_key_ranges sh_low_tx_count sh_high_tx_count sh_fact_page_start sh_fact_page_count p sp_facts sp_eavt sp_aevt sp_avet sp_vaet]; try done.
  - repeat constructor; unfold ix; lia.
  - unfold ix, build_index_entries. by destruct (indexes_of (segment_rows rows)).
Qed.

Section facts_proofs.
Context (to_allocvec : Fact → result bytes) (from_bytes : bytes → result Fact).
Hypothesis codec_roundtrip : ∀ f bs, fact_ok f → to_allocvec f = Ok bs → from_bytes bs = Ok f.
Hypothesis codec_nonempty : ∀ f bs, to_allocvec f = Ok bs → bs ≠ [].

Lemma from_facts_ok facts start : Forall (encodable to_allocvec) facts → Forall fact_ok facts → 0 ≤ start → start + Z.of_nat (length facts) < 2 ^ 63 →
  ∃ s, segment_from_facts to_allocvec facts start = Ok s ∧ segment_ok s ∧ (sp_facts (DeltaSegment.payload s)).*2 = facts ∧
    sh_fact_page_start (DeltaSegment.header s) = start ∧ sh_fact_page_count (DeltaSegment.header s) ≤ Z.of_nat (length facts) + 1.
Proof using codec_roundtrip codec_nonempty.
  intros F Fk S0 S1.
  assert (G : ∃ refs count,
    match facts with [] => Ok (0, []) | _ => '(pages, fact_refs) ← pack_facts to_allocvec facts start;
      n ← len_to_u64 (length pages) "delta fact page count"; Ok (n, fact_refs) end = Ok (count, refs) ∧
    length refs = length facts ∧ NoDup refs ∧ Forall (λ r, start ≤ page_id r < start + count) refs ∧ count ≤ Z.of_nat (length facts) + 1).
  { destruct facts as [|f facts]; [exists [], 0; split_and!; (done || constructor)|].
    destruct (pack_facts_groups to_allocvec from_bytes codec_roundtrip codec_nonempty (f :: facts) start F Fk S0) as (gs & E & C & Lg & _); [lia|].
    exists (refs_of start gs), (Z.of_nat (length gs)). rewrite E. cbn [mbind result_bind]. unfold len_to_u64.
    rewrite length_fmap, (proj2 (Z.leb_le _ _)) by (unfold u64_MAX; lia). cbn [ensure mbind result_bind].
    split_and!; [done|by rewrite refs_of_length, C|apply refs_of_NoDup| |lia].
    apply Forall_forall. intros r I. split; [by eapply refs_of_page_ge|by apply refs_of_below]. }
  destruct G as (refs & count & E & L & N & Fr & Lc). unfold segment_from_facts. rewrite E. cbn [mbind result_bind].
  destruct (segment_of_rows (zip refs facts) start count) as (h & Eh & V & Hs & Hc).
  - rewrite <-(fst_zip refs facts) in Fr by lia. by apply Forall_fmap in Fr.
  - rewrite fst_zip by lia. done.
  - unfold u64_MAX. lia.
  - rewrite length_zip. unfold u64_MAX. lia.
  - cbn zeta in Eh, V |- *. rewrite Eh. cbn [mbind result_bind]. unfold segment_from_parts. rewrite validate_accepts by done.
    eexists. split; [done|]. split; [done|]. cbn [DeltaSegment.header DeltaSegment.payload sp_facts]. rewrite Hs, Hc, snd_zip by lia. done.
Qed.
End facts_proofs.

(** * The claims *)

Section claims.
Context {B : Type} `{BL : BackendLaws B} (crc32 : bytes → Z) `{SP : SegmentPostcardLaws}.
Hypothesis crc_u32 : ∀ bs, u32_ok (crc32 bs).

(** Writing a segment over fresh pages: they hold it, and the others are kept. *)
Lemma segment_pages_ok s bs (b : B) page_start : Forall (λ x, fact_ok x.2) (sp_facts (DeltaSegment.payload s)) →
  encode_segment crc32 s = Ok bs → 0 < page_start → page_start + Z.of_nat (frame_page_count bs) < 2 ^ 52 →
  Z.of_nat (length bs) ≤ u64_MAX ∧
  ∃ b', write_segment_pages crc32 b page_start s = Ok (b', Z.of_nat (frame_page_count bs)) ∧
    (∃ z, ∀ reader, read_frame_pages reader b' page_start (frame_page_count bs) = Ok (bs ++ z)) ∧
    (∀ id page, 0 < id → (id < page_start ∨ page_start + Z.of_nat (frame_page_count bs) ≤ id) →
       backend_read_page b id = Ok page → backend_read_page b' id = Ok page).
Proof using BL.
  intros F E P Bd. pose proof E as E'. apply encode_segment_inv in E' as (hb & pb & _ & _ & _ & _ & _ & Eb).
  assert (0 < length bs)%nat as Lb by (rewrite Eb, seal_length by done; unfold TRAILER_LEN; lia).
  destruct (frame_page_count_spec bs Lb) as [[_ Lu] _]. pose proof PAGE_SIZE_val as PS. split; [unfold u64_MAX; nia|].
  destruct (frame_pages_roundtrip "Delta segment" b page_start bs Lb P Bd) as (b' & W & R & K). exists b'. split_and!; [|done|done].
  unfold write_segment_pages. rewrite (proj2 (Z.eqb_neq _ _)) by lia. cbn [negb ensure mbind result_bind]. rewrite E. cbn [mbind result_bind].
  rewrite W. done.
Qed.

(** A coherent segment: its entries are exactly the covering indexes of its facts, the
    references of the facts are distinct and lie in the declared pages, the header's
    transaction range is that of the facts, and an index range that the header's key
    ranges rule out has no entry in it. *)
Definition coherent (s : DeltaSegment.t) : Prop :=
  let h := DeltaSegment.header s in
  let p := DeltaSegment.payload s in
  {| eavt := sp_eavt p; aevt := sp_aevt p; avet := sp_avet p; vaet := sp_vaet p |} = indexes_of (segment_rows (sp_facts p)) ∧
  NoDup (sp_facts p).*1 ∧
  Forall (λ x, sh_fact_page_start h ≤ page_id x.1 < sh_fact_page_start h + sh_fact_page_count h) (sp_facts p) ∧
  (sp_facts p ≠ [] → Forall (λ x, sh_low_tx_count h ≤ tx_count x.2 ≤ sh_high_tx_count h) (sp_facts p)) ∧
  (∀ start stop, may_overlap_eavt h start stop = false → bt_from start stop (sp_eavt p) = []) ∧
  (∀ start stop, may_overlap_aevt h start stop = false → bt_from start stop (sp_aevt p) = []) ∧
  (∀ start stop, may_overlap_avet h start stop = false → bt_from start stop (sp_avet p) = []) ∧
  (∀ start stop, may_overlap_vaet h start stop = false → bt_from start stop (sp_vaet p) = []).
Lemma decoded_segment_coherent bs s : decode_segment crc32 bs = Ok s → coherent s.
Proof using.
  intros E. assert (V : segment_ok s).
  { unfold decode_segment, segment_from_parts in E. inv_ok.
    match goal with H : validate_segment _ = Ok ?u |- _ => destruct u; by apply validate_sound in H end. }
  destruct V as [_ _ _ Ra Tx _ Fr N En]. cbn zeta in *.
  assert (A : let p := DeltaSegment.payload s in strictly_ascending (sp_eavt p) ∧ strictly_ascending (sp_aevt p) ∧
                strictly_ascending (sp_avet p) ∧ strictly_ascending (sp_vaet p)).
  { cbn zeta. rewrite indexes_of_parts in En. injection En as -> -> -> ->. split_and!; apply bt_build. }
  cbn zeta in A. destruct A as (A1 & A2 & A3 & A4). unfold coherent.
  unfold may_overlap_eavt, may_overlap_aevt, may_overlap_avet, may_overlap_vaet. rewrite Ra.
  split_and!; [done|done|done| |by intros; apply overlap_sound..].
  intros Ne. symmetry in Tx. by apply tx_range_spec in Tx as [? _].
Qed.
Section packed.
Context (to_allocvec : Fact → result bytes) (from_bytes : bytes → result Fact).
Hypothesis codec_roundtrip : ∀ f bs, fact_ok f → to_allocvec f = Ok bs → from_bytes bs = Ok f.
Hypothesis codec_nonempty : ∀ f bs, to_allocvec f = Ok bs → bs ≠ [].

(** C21: A segment codec that loses nothing and lets nothing incoherent in.  Facts within
    the machine's ranges whose records fit a page make a segment whose payload is these
    facts, in order.  When postcard encodes its header and payload and the pages fit, its
    bytes decode to it; written over fresh pages it leaves the other pages alone, and the
    whole pages, padding included, decode to it.  And whatever bytes decode at all, the
    segment they decode to is coherent: its index entries are exactly the covering indexes
    of its facts, references are distinct and in the declared pages, the transaction range
    covers the facts, and a range of keys the header rules out has no entry. *)
Theorem delta_segment_exact facts start (b : B) page_start : Forall fact_ok facts → Forall (encodable to_allocvec) facts →
  0 ≤ start → start + Z.of_nat (length facts) < 2 ^ 63 →
  (∃ s, segment_from_facts to_allocvec facts start = Ok s ∧ (sp_facts (DeltaSegment.payload s)).*2 = facts ∧
    ∀ hb pb, pc_header (DeltaSegment.header s) = Ok hb → pc_payload (DeltaSegment.payload s) = Ok pb →
      Z.of_nat (length hb) ≤ u32_MAX → Z.of_nat (length pb) ≤ u64_MAX →
      ∃ bs, encode_segment crc32 s = Ok bs ∧ (0 < page_start → page_start + Z.of_nat (frame_page_count bs) < 2 ^ 52 →
        decode_segment crc32 bs = Ok s ∧
        ∃ b' page_bytes, write_segment_pages crc32 b page_start s = Ok (b', Z.of_nat (frame_page_count bs)) ∧
          read_frame_pages "Delta segment" b' page_start (frame_page_count bs) = Ok page_bytes ∧
          decode_from_page_bytes crc32 page_bytes = Ok s ∧
          ∀ id page, 0 < id → (id < page_start ∨ page_start + Z.of_nat (frame_page_count bs) ≤ id) →
            backend_read_page b id = Ok page → backend_read_page b' id = Ok page)) ∧
  (∀ bs s, decode_segment crc32 bs = Ok s → coherent s).
Proof using All.
  intros Fk F S0 S1. split; [|exact decoded_segment_coherent].
  destruct (from_facts_ok to_allocvec from_bytes codec_roundtrip codec_nonempty facts start F Fk S0 S1) as (s & E & V & Ef & _).
  exists s. split_and!; [done|done|]. intros hb pb Eh Ep Lh Lp. pose proof (encode_segment_ok crc32 s hb pb V Eh Ep Lh Lp) as En.
  eexists. split; [exact En|]. intros P Bd.
  assert (Fs : Forall (λ x, fact_ok x.2) (sp_facts (DeltaSegment.payload s))) by (rewrite <-Ef in Fk; exact (proj1 (Forall_fmap snd _ _) Fk)).
  destruct (segment_pages_ok s _ b page_start Fs En P Bd) as (Lb & b' & W & (z & R) & K).
  split; [by apply decode_encode_segment|]. eexists b', _. split_and!; [done|apply R|by apply decode_segment_pages|done].
Qed.
End packed.

End claims.

(** * Witnesses *)

#[export] Instance DeltaSegmentKeyRanges_eq_dec : EqDecision DeltaSegmentKeyRanges.
Proof. solve_decision. Defined.
#[export] Instance DeltaSegmentHeader_eq_dec : EqDecision DeltaSegmentHeader.
Proof. solve_decision. Defined.
#[export] Instance DeltaSegmentPayload_eq_dec : EqDecision DeltaSegmentPayload.
Proof. solve_decision. Defined.

Definition demo_segment : DeltaSegment.t :=
  match segment_from_facts demo_encode demo_facts 7 with
  | Ok s => s
  | Err _ => DeltaSegment.mk (mkSegmentHeader 0 0 0 0 0 0 0 0 0 0 (mkKeyRanges None None None None)) (mkSegmentPayload [] [] [] [] [])
  end.
Definition one_value {A} `{EqDecision A} (a x : A) : result bytes := if bool_decide (x = a) then Ok [z2b 1] else Err "not encoded".
Definition read_value {A} (a : A) (bs : bytes) : result A := if bool_decide (bs = [z2b 1]) then Ok a else Err "not decoded".
Lemma one_value_inverts {A} `{EqDecision A} (a x : A) bs : one_value a x = Ok bs → read_value a bs = Ok x.
Proof. unfold one_value. case_bool_decide; [|done]. intros [= <-]. by subst. Qed.

#[global] Instance demo_segment_postcard : SegmentPostcard := {|
  pc_header := one_value (DeltaSegment.header demo_segment);
  pc_payload := one_value (DeltaSegment.payload demo_segment);
  pc_read_header := read_value (DeltaSegment.header demo_segment);
  pc_read_payload := read_value (DeltaSegment.payload demo_segment);
|}.
#[global] Instance demo_segment_postcard_laws : SegmentPostcardLaws.
Proof. split; intros; by apply one_value_inverts. Qed.
Lemma demo_segment_built : segment_from_facts demo_encode demo_facts 7 = Ok demo_segment.
Proof. vm_compute. reflexivity. Qed.
Definition demo_segment_bytes : bytes := match encode_segment Wal.demo_crc demo_segment with Ok bs => bs | Err _ => [] end.
Lemma demo_segment_encoded : encode_segment Wal.demo_crc demo_segment = Ok demo_segment_bytes.
Proof. vm_compute. reflexivity. Qed.

Lemma delta_segment_exact_witness :
  length (sp_facts (DeltaSegment.payload demo_segment)) = 2%nat ∧
  (∃ b page_bytes, write_segment_pages Wal.demo_crc MemoryBackend.new 5 demo_segment = Ok (b, 1) ∧
    read_frame_pages "Delta segment" b 5 1 = Ok page_bytes ∧ decode_from_page_bytes Wal.demo_crc page_bytes = Ok demo_segment) ∧
  bt_from (entity_low 8) None (sp_eavt (DeltaSegment.payload demo_segment)) = [].
Proof.
  destruct (delta_segment_exact (B := MemoryBackend.t) Wal.demo_crc demo_crc_u32 demo_encode demo_decode demo_codec demo_nonempty demo_facts 7
    MemoryBackend.new 5 demo_facts_ok demo_encodable) as [(s & E & _ & R) Co]; [done|done|].
  rewrite demo_segment_built in E. apply Ok_inj in E as <-.
  destruct (R [z2b 1] [z2b 1]) as (bs & En & D); [vm_compute; reflexivity..|vm_compute; discriminate|vm_compute; discriminate|].
  rewrite demo_segment_encoded in En. apply Ok_inj in En as <-.
  destruct D as (De & b & pb & W & Rd & D & _); [done|vm_compute; reflexivity|].
  split; [vm_compute; reflexivity|]. split.
  - exists b, pb. assert (frame_page_count demo_segment_bytes = 1%nat) as C by (vm_compute; reflexivity). rewrite C in W, Rd. change (Z.of_nat 1) with 1 in W.
    split; [exact W|]. split; [exact Rd|exact D].
  - destruct (Co _ _ De) as (_ & _ & _ & _ & O & _). apply O. vm_compute. reflexivity.
Defined.
