(* ===== verification/DeltaManifest.v ===== *)
(** Delta manifests (src/src/storage/delta_manifest.rs, src/src/storage/delta_growth.rs)
    and the delta checkpoint (src/src/storage/persistent_facts.rs): the list of the
    segments behind a base, its frame on pages, the choice of a usable manifest when a
    file opens, and the checkpoint that appends a segment and a manifest.

    The postcard codec of a manifest is a parameter with its round trip. *)
From S2P Require Import Prelude Types ValueCodec Index Wal FactStore PackedPages HeaderPage BTreePages Backends PageIntegrity IntegrityStore Lookup MergeScan CurrentState IndexScan DeltaSegment.
Set Default Proof Using "Type".

Definition DELTA_MANIFEST_MAGIC : bytes := as_bytes "MGDMF001".
Definition DELTA_MANIFEST_COMMIT_MARKER : bytes := as_bytes "MGDMDONE".
Definition DELTA_MANIFEST_CODEC_VERSION : Z := 1.
Definition MANIFEST_PREFIX_LEN : nat := 16.

(** * Data *)

Record DeltaManifestSegment : Type := mkManifestSegment {
  ms_segment_page_start : Z;
  ms_segment_page_count : Z;
  ms_fact_page_start : Z;
  ms_fact_page_count : Z;
  ms_low_tx_count : Z;
  ms_high_tx_count : Z;
}.
Definition from_segment_header (segment_page_start segment_page_count : Z) (h : DeltaSegmentHeader) : result DeltaManifestSegment :=
  _ ← ensure (negb (segment_page_count =? 0)) "Delta manifest segment page count must be non-zero";
  Ok (mkManifestSegment segment_page_start segment_page_count (sh_fact_page_start h) (sh_fact_page_count h) (sh_low_tx_count h) (sh_high_tx_count h)).

Record DeltaBaseIdentity : Type := mkBaseIdentity {
  bi_page_count : Z;
  bi_fact_page_count : Z;
  bi_checkpoint_tx_count : Z;
  bi_index_checksum : Z;
  bi_eavt_root : Z;
  bi_aevt_root : Z;
  bi_avet_root : Z;
  bi_vaet_root : Z;
}.
Definition base_identity_from_header (h : FileHeader.t) : DeltaBaseIdentity :=
  mkBaseIdentity (FileHeader.page_count h) (FileHeader.fact_page_count h) (FileHeader.last_checkpointed_tx_count h) (FileHeader.index_checksum h)
    (FileHeader.eavt_root_page h) (FileHeader.aevt_root_page h) (FileHeader.avet_root_page h) (FileHeader.vaet_root_page h).
Definition validate_for_segments (i : DeltaBaseIdentity) (segments : list DeltaManifestSegment) : result () :=
  match segments with
  | [] => Ok ()
  | _ =>
      _ ← ensure (negb (bi_page_count i =? 0)) "Delta manifest base page_count must be non-zero";
      _ ← ensure (negb ((bi_eavt_root i =? 0) || (bi_aevt_root i =? 0) || (bi_avet_root i =? 0) || (bi_vaet_root i =? 0)))
            "Delta manifest base identity requires all base index roots";
      foldR (λ _ s, ensure (negb (ms_segment_page_start s <? bi_page_count i)) "Delta manifest segment starts before base page_count") tt segments
  end.
Definition validate_against_header (i : DeltaBaseIdentity) (h : FileHeader.t) : result () :=
  _ ← ensure (bi_page_count i <=? FileHeader.page_count h) "Delta manifest base page_count exceeds file page_count";
  _ ← ensure (bi_fact_page_count i =? FileHeader.fact_page_count h) "Delta manifest base fact_page_count does not match header";
  _ ← ensure (bi_checkpoint_tx_count i <=? FileHeader.last_checkpointed_tx_count h)
        "Delta manifest base checkpoint tx_count exceeds header checkpoint tx_count";
  _ ← ensure (bi_index_checksum i =? FileHeader.index_checksum h) "Delta manifest base checksum does not match header";
  ensure ((bi_eavt_root i =? FileHeader.eavt_root_page h) && (bi_aevt_root i =? FileHeader.aevt_root_page h) &&
          (bi_avet_root i =? FileHeader.avet_root_page h) && (bi_vaet_root i =? FileHeader.vaet_root_page h))
    "Delta manifest base roots do not match header".

Record DeltaManifest : Type := mkManifest {
  dm_codec_version : Z;
  dm_generation : Z;
  dm_base_identity : DeltaBaseIdentity;
  dm_low_tx_count : Z;
  dm_high_tx_count : Z;
  dm_segments : list DeltaManifestSegment;
}.

Definition segment_tx_range (segments : list DeltaManifestSegment) : Z * Z :=
  match segments with
  | [] => (0, 0)
  | first :: rest =>
      foldl (λ '(low, high) s, (low `min` ms_low_tx_count s, high `max` ms_high_tx_count s)) (ms_low_tx_count first, ms_high_tx_count first) rest
  end.

(** * Checking *)

(** The body of the loop over the segments, with the previous one. *)
Definition check_segment (previous : option DeltaManifestSegment) (s : DeltaManifestSegment) : result (option DeltaManifestSegment) :=
  _ ← ensure (negb (ms_segment_page_count s =? 0)) "Delta manifest segment page count must be non-zero";
  _ ← ok_or (checked_add_u64 (ms_segment_page_start s) (ms_segment_page_count s)) "Delta manifest segment page range overflow";
  _ ← ok_or (checked_add_u64 (ms_fact_page_start s) (ms_fact_page_count s)) "Delta manifest fact page range overflow";
  _ ← ensure (ms_low_tx_count s <=? ms_high_tx_count s) "Delta manifest segment tx range is invalid";
  _ ← match previous with
      | Some p =>
          _ ← ensure (ms_low_tx_count p <? ms_low_tx_count s) "Delta manifest segments must be ordered by tx_count";
          _ ← ensure (ms_high_tx_count p <? ms_low_tx_count s) "Delta manifest segment tx ranges must not overlap";
          _ ← ensure (ms_segment_page_start p <? ms_segment_page_start s) "Delta manifest segments must be ordered by page range";
          previous_end ← ok_or (checked_add_u64 (ms_segment_page_start p) (ms_segment_page_count p)) "Delta manifest segment page range overflow";
          ensure (previous_end <=? ms_segment_page_start s) "Delta manifest segment page ranges must not overlap"
      | None => Ok ()
      end;
  Ok (Some s).

Definition validate_manifest (m : DeltaManifest) : result () :=
  _ ← ensure (dm_codec_version m =? DELTA_MANIFEST_CODEC_VERSION) "Unsupported delta manifest codec version";
  let '(expected_low, expected_high) := segment_tx_range (dm_segments m) in
  _ ← ensure (dm_low_tx_count m =? expected_low) "Delta manifest low tx_count does not match referenced segments";
  _ ← ensure (expected_high <=? dm_high_tx_count m) "Delta manifest high tx_count is below referenced segment high tx_count";
  _ ← ensure (dm_high_tx_count m =? expected_high) "Delta manifest high tx_count does not match referenced segments";
  _ ← validate_for_segments (dm_base_identity m) (dm_segments m);
  _ ← ensure (match dm_segments m with [] => true | _ => bi_checkpoint_tx_count (dm_base_identity m) <? dm_low_tx_count m end)
        "Delta manifest base checkpoint tx_count must precede segment tx range";
  _ ← foldR check_segment None (dm_segments m);
  Ok ().

Definition manifest_from_parts (generation : Z) (i : DeltaBaseIdentity) (low high : Z) (segments : list DeltaManifestSegment) : result DeltaManifest :=
  let m := mkManifest DELTA_MANIFEST_CODEC_VERSION generation i low high segments in
  _ ← validate_manifest m; Ok m.
Definition manifest_new (generation : Z) (i : DeltaBaseIdentity) (segments : list DeltaManifestSegment) : result DeltaManifest :=
  let '(low, high) := segment_tx_range segments in
  manifest_from_parts generation i low high segments.

(** * Frames *)

Class ManifestPostcard : Type := {
  pc_manifest : DeltaManifest → result bytes;
  pc_read_manifest : bytes → result DeltaManifest;
}.
Class ManifestPostcardLaws `{ManifestPostcard} : Prop := {
  pc_manifest_inverts m bs : pc_manifest m = Ok bs → pc_read_manifest bs = Ok m;
}.

Section codec.
Context (crc32 : bytes → Z) `{ManifestPostcard}.

Definition encode_manifest (m : DeltaManifest) : result bytes :=
  _ ← validate_manifest m;
  pb ← pc_manifest m;
  _ ← ensure (Z.of_nat (length pb) <=? u64_MAX) "Delta manifest payload exceeds u64 length";
  Ok (seal_frame crc32 DELTA_MANIFEST_COMMIT_MARKER (DELTA_MANIFEST_MAGIC ++ to_le_bytes 8 (Z.of_nat (length pb)) ++ pb)).

Definition decode_manifest (bs : bytes) : result DeltaManifest :=
  body ← open_frame crc32 "Delta manifest" DELTA_MANIFEST_COMMIT_MARKER MANIFEST_PREFIX_LEN bs;
  magic ← ok_or (get_range body 0 8) "Delta manifest missing magic";
  _ ← ensure (bool_decide (magic = DELTA_MANIFEST_MAGIC)) "Delta manifest magic mismatch";
  payload_len ← read_u64_le body 8;
  payload_end ← ok_or (checked_add_u64 (Z.of_nat MANIFEST_PREFIX_LEN) payload_len) "Delta manifest payload end overflow";
  _ ← ensure (payload_end =? Z.of_nat (length body)) "Delta manifest length field does not match body length";
  pb ← ok_or (get_range body MANIFEST_PREFIX_LEN (Z.to_nat payload_end)) "Delta manifest payload out of bounds";
  m ← pc_read_manifest pb;
  _ ← validate_manifest m;
  Ok m.

(** [select_manifest_candidate]: the newer of two encoded manifests. *)
Inductive ManifestSelection : Type :=
| ManifestUse (slot : SlotName) (manifest : DeltaManifest)
| ManifestRecoveryRequired.
Definition decode_candidate (slot : SlotName) (candidate : option bytes) : option (SlotName * DeltaManifest) :=
  bs ← candidate;
  match decode_manifest bs with Ok m => Some (slot, m) | Err _ => None end.
Definition select_manifest_candidate (primary secondary : option bytes) : ManifestSelection :=
  match decode_candidate Primary primary, decode_candidate Secondary secondary with
  | Some (ps, pm), Some (ss, sm) => if dm_generation sm <=? dm_generation pm then ManifestUse ps pm else ManifestUse ss sm
  | Some (slot, m), None | None, Some (slot, m) => ManifestUse slot m
  | None, None => ManifestRecoveryRequired
  end.
End codec.

(** * Pages *)

Section pages.
Context {B : Type} `{StorageBackend B} (crc32 : bytes → Z) `{SegmentPostcard, ManifestPostcard}.

Definition write_manifest_pages (b : B) (page_start : Z) (m : DeltaManifest) : result (B * HeaderManifestSlot.t) :=
  _ ← ensure (negb (page_start =? 0)) "Delta manifest payload must not start on page 0";
  bs ← encode_manifest crc32 m;
  b ← foldR (write_frame_page "Delta manifest" bs page_start) b (seq 0 (frame_page_count bs));
  descriptor ← HeaderManifestSlot.new crc32 (dm_generation m) page_start (Z.of_nat (frame_page_count bs)) (Z.of_nat (length bs)) (crc32 bs);
  Ok (b, descriptor).

Definition validate_manifest_descriptor_bounds (h : FileHeader.t) (d : HeaderManifestSlot.t) : result () :=
  stop ← ok_or (checked_add_u64 (HeaderManifestSlot.manifest_page_start d) (HeaderManifestSlot.manifest_page_count d))
           "Delta manifest payload page range overflow";
  ensure (stop <=? FileHeader.page_count h) "Delta manifest payload page range out of bounds".
Definition read_manifest_from_descriptor (b : B) (h : FileHeader.t) (d : HeaderManifestSlot.t) : result DeltaManifest :=
  _ ← validate_manifest_descriptor_bounds h d;
  capacity ← ok_or (checked_mul_u64 (HeaderManifestSlot.manifest_page_count d) (Z.of_nat PAGE_SIZE)) "Delta manifest payload capacity overflow";
  _ ← ensure (HeaderManifestSlot.manifest_len d <=? capacity) "Delta manifest payload length exceeds descriptor pages";
  bs ← read_frame_pages "Delta manifest" b (HeaderManifestSlot.manifest_page_start d) (Z.to_nat (HeaderManifestSlot.manifest_page_count d));
  let bs := take (Z.to_nat (HeaderManifestSlot.manifest_len d)) bs in
  _ ← ensure (crc32 bs =? HeaderManifestSlot.manifest_checksum d) "Delta manifest payload checksum mismatch";
  m ← decode_manifest crc32 bs;
  _ ← ensure (dm_generation m =? HeaderManifestSlot.generation d) "Delta manifest generation does not match header descriptor";
  Ok m.

Definition read_delta_segment_from_descriptor (b : B) (h : FileHeader.t) (d : DeltaManifestSegment) : result DeltaSegment.t :=
  segment_end ← ok_or (checked_add_u64 (ms_segment_page_start d) (ms_segment_page_count d)) "Delta segment page range overflow";
  _ ← ensure (segment_end <=? FileHeader.page_count h) "Delta segment page range out of bounds";
  _ ← ok_or (checked_mul_u64 (ms_segment_page_count d) (Z.of_nat PAGE_SIZE)) "Delta segment page capacity overflow";
  bs ← read_frame_pages "Delta segment" b (ms_segment_page_start d) (Z.to_nat (ms_segment_page_count d));
  s ← decode_from_page_bytes crc32 bs;
  let sh := DeltaSegment.header s in
  _ ← ensure ((sh_fact_page_start sh =? ms_fact_page_start d) && (sh_fact_page_count sh =? ms_fact_page_count d) &&
              (sh_low_tx_count sh =? ms_low_tx_count d) && (sh_high_tx_count sh =? ms_high_tx_count d))
        "Delta segment header does not match manifest descriptor";
  Ok s.
Definition load_delta_segments_from_manifest (b : B) (h : FileHeader.t) (m : DeltaManifest) : result (list DeltaSegment.t) :=
  mapR (read_delta_segment_from_descriptor b h) (dm_segments m).

(** ** Choosing a manifest *)

Inductive PersistedManifestRecoveryReason : Type := CorruptManifestSlot | NoValidManifest.
Inductive PersistedManifestSelection : Type :=
| PersistedNone
| PersistedUse (slot : SlotName) (manifest : DeltaManifest)
| PersistedRecovery (reason : PersistedManifestRecoveryReason).

Definition slot_candidates (e : HeaderExtension.t) : list (SlotName * HeaderManifestSlot.t) :=
  (if HeaderManifestSlot.is_selectable crc32 (HeaderExtension.primary e) then [(Primary, HeaderExtension.primary e)] else []) ++
  (if HeaderManifestSlot.is_selectable crc32 (HeaderExtension.secondary e) then [(Secondary, HeaderExtension.secondary e)] else []).
(** [sort_by_key] with [Reverse(generation)] of at most two candidates; it is stable. *)
Definition sort_candidates (l : list (SlotName * HeaderManifestSlot.t)) : list (SlotName * HeaderManifestSlot.t) :=
  match l with
  | [x; y] => if HeaderManifestSlot.generation x.2 <? HeaderManifestSlot.generation y.2 then [y; x] else l
  | _ => l
  end.
Definition has_invalid_slot (e : HeaderExtension.t) : bool :=
  let invalid s := negb (HeaderManifestSlot.is_empty s) && negb (HeaderManifestSlot.is_selectable crc32 s) in
  invalid (HeaderExtension.primary e) || invalid (HeaderExtension.secondary e).

Fixpoint first_manifest (b : B) (h : FileHeader.t) (candidates : list (SlotName * HeaderManifestSlot.t)) : PersistedManifestSelection :=
  match candidates with
  | [] => PersistedRecovery NoValidManifest
  | (slot, d) :: rest =>
      match read_manifest_from_descriptor b h d with
      | Ok m => PersistedUse slot m
      | Err _ => first_manifest b h rest
      end
  end.
Definition load_persisted_manifest_selection (b : B) (h : FileHeader.t) (page0 : bytes) : result PersistedManifestSelection :=
  e ← HeaderExtension.read_from_page0 crc32 (FileHeader.version h) page0;
  match e with
  | None => Ok PersistedNone
  | Some e =>
      match slot_candidates e with
      | [] => if has_invalid_slot e then Ok (PersistedRecovery CorruptManifestSlot) else Ok PersistedNone
      | candidates => Ok (first_manifest b h (sort_candidates candidates))
      end
  end.

Fixpoint first_usable (b : B) (h : FileHeader.t) (candidates : list (SlotName * HeaderManifestSlot.t))
    : HeaderManifestSlotSelection * PersistedManifestSelection * list DeltaSegment.t :=
  match candidates with
  | [] => (RecoveryRequired, PersistedRecovery NoValidManifest, [])
  | (slot, d) :: rest =>
      match (m ← read_manifest_from_descriptor b h d; segments ← load_delta_segments_from_manifest b h m; Ok (m, segments)) with
      | Ok (m, segments) => (Use slot d, PersistedUse slot m, segments)
      | Err _ => first_usable b h rest
      end
  end.
Definition load_usable_delta_selection (b : B) (h : FileHeader.t) (page0 : bytes)
    : result (HeaderManifestSlotSelection * PersistedManifestSelection * list DeltaSegment.t) :=
  e ← HeaderExtension.read_from_page0 crc32 (FileHeader.version h) page0;
  match e with
  | None => Ok (NoDeltaManifest, PersistedNone, [])
  | Some e =>
      match slot_candidates e with
      | [] => if has_invalid_slot e then Ok (RecoveryRequired, PersistedRecovery CorruptManifestSlot, []) else Ok (NoDeltaManifest, PersistedNone, [])
      | candidates => Ok (first_usable b h (sort_candidates candidates))
      end
  end.

(** ** The delta checkpoint *)

Definition build_next_manifest_extension (h : FileHeader.t) (page0 : bytes) (current : HeaderManifestSlotSelection) (d : HeaderManifestSlot.t)
    : result (HeaderExtension.t * SlotName) :=
  e ← HeaderExtension.read_from_page0 crc32 (FileHeader.version h) page0;
  let e := default (HeaderExtension.empty crc32) e in
  let '(p, s, slot) :=
    match current with
    | Use Primary _ => (HeaderExtension.primary e, d, Secondary)
    | Use Secondary _ => (d, HeaderExtension.secondary e, Primary)
    | _ => (d, HeaderManifestSlot.empty, Primary)
    end in
  n ← HeaderExtension.with_base_fact_page_start crc32 (HeaderExtension.new crc32 p s) (HeaderExtension.base_fact_page_start e);
  n ← HeaderExtension.with_base_integrity crc32 n (HeaderExtension.base_integrity e);
  n ← HeaderExtension.with_projection_catalog_slots crc32 n (HeaderExtension.projection_primary e) (HeaderExtension.projection_secondary e);
  Ok (n, slot).

(** What a delta checkpoint leaves: the backend with the new segment and manifest, the
    page 0 that publishes them, and the handle's new selection. *)
Record DeltaSave : Type := mkDeltaSave {
  ds_backend : B;
  ds_header : FileHeader.t;
  ds_page0 : bytes;
  ds_selection : HeaderManifestSlotSelection;
  ds_manifest_selection : PersistedManifestSelection;
  ds_segment : DeltaSegment.t;
}.

Context (to_allocvec : Fact → result bytes).
Definition delta_capable (h : FileHeader.t) : bool :=
  negb ((FileHeader.version h <? INTEGRITY_VERSION) || (MAX_READABLE_FORMAT_VERSION <? FileHeader.version h) ||
        negb (FileHeader.fact_page_format h =? FACT_PAGE_FORMAT_PACKED) || (FileHeader.eavt_root_page h =? 0) ||
        (FileHeader.aevt_root_page h =? 0) || (FileHeader.avet_root_page h =? 0) || (FileHeader.vaet_root_page h =? 0)).
Definition advance_header (h : FileHeader.t) (page_count node_count tx_count : Z) : FileHeader.t :=
  FileHeader.mk (FileHeader.magic h) (FileHeader.version h) page_count node_count tx_count
    (FileHeader.eavt_root_page h) (FileHeader.aevt_root_page h) (FileHeader.avet_root_page h) (FileHeader.vaet_root_page h)
    (FileHeader.index_checksum h) (FileHeader.fact_page_format h) (FileHeader.padding h) (FileHeader.fact_page_count h) (FileHeader.header_checksum h).
Definition with_header_checksum (h : FileHeader.t) : FileHeader.t :=
  FileHeader.mk (FileHeader.magic h) (FileHeader.version h) (FileHeader.page_count h) (FileHeader.node_count h) (FileHeader.last_checkpointed_tx_count h)
    (FileHeader.eavt_root_page h) (FileHeader.aevt_root_page h) (FileHeader.avet_root_page h) (FileHeader.vaet_root_page h)
    (FileHeader.index_checksum h) (FileHeader.fact_page_format h) (FileHeader.padding h) (FileHeader.fact_page_count h)
    (compute_header_checksum crc32 h).

(** [try_save_delta_segment] on a backend whose page 0 is [page0], up to the write of the
    new page 0: [None] when the facts have to go into a full rebuild. *)
Definition prepare_delta_segment (b : B) (page0 : bytes) (selection : HeaderManifestSlotSelection)
    (persisted : PersistedManifestSelection) (resident_segments : nat) (current_tx_count : Z) (pending : list Fact) : result (option DeltaSave) :=
  match pending, persisted with
  | [], _ | _, PersistedRecovery _ => Ok None
  | _, _ =>
      h ← FileHeader.from_bytes page0;
      if negb (delta_capable h) then Ok None
      else
        '(base_identity, segments) ←
          match persisted with
          | PersistedUse _ m =>
              _ ← ensure (length (dm_segments m) =? resident_segments)%nat "Resident delta segment count does not match the selected manifest";
              Ok (dm_base_identity m, dm_segments m)
          | _ =>
              _ ← ensure (resident_segments =? 0)%nat "Resident delta segments exist without a selected manifest";
              Ok (base_identity_from_header h, [])
          end;
        let segment_page_start := FileHeader.page_count h in
        segment ← segment_from_facts to_allocvec pending segment_page_start;
        '(b, segment_page_count) ← write_segment_pages crc32 b segment_page_start segment;
        manifest_segment ← from_segment_header segment_page_start segment_page_count (DeltaSegment.header segment);
        let generation := (current_tx_count `max` sat_add_u64 (FileHeader.last_checkpointed_tx_count h) 1) `max` 1 in
        manifest ← manifest_new generation base_identity (segments ++ [manifest_segment]);
        manifest_page_start ← ok_or (checked_add_u64 segment_page_start segment_page_count) "Delta manifest page start overflow";
        '(b, descriptor) ← write_manifest_pages b manifest_page_start manifest;
        '(extension, slot) ← build_next_manifest_extension h page0 selection descriptor;
        next_page_count ← ok_or (checked_add_u64 manifest_page_start (HeaderManifestSlot.manifest_page_count descriptor))
                            "Delta checkpoint page count overflow";
        node_count ← ok_or (checked_add_u64 (FileHeader.node_count h) (Z.of_nat (length pending))) "node_count overflow";
        let h := with_header_checksum (advance_header h next_page_count node_count current_tx_count) in
        page0 ← build_header_page_with_extension h extension;
        Ok (Some (mkDeltaSave b h page0 (Use slot descriptor) (PersistedUse slot manifest) segment))
  end.
End pages.

(** * Growth policy (delta_growth.rs) *)

Inductive DeltaMaintenanceDecision : Type := ContinueDeltaAppend | ScheduleBackgroundRecompact | MaintenanceBackpressure.
Record DeltaGrowthMetrics : Type := mkGrowth {
  gm_segment_count : Z;
  gm_page_growth : Z;
  gm_base_page_count : Z;
  gm_delta_fact_count : option Z;
  gm_base_fact_count : option Z;
}.
Definition growth_no_delta (base_page_count : Z) : DeltaGrowthMetrics := mkGrowth 0 0 base_page_count None None.
Definition growth_from_manifest (m : DeltaManifest) : DeltaGrowthMetrics :=
  mkGrowth (Z.of_nat (length (dm_segments m)) `min` u64_MAX)
    (foldl (λ total s, sat_add_u64 total (ms_segment_page_count s)) 0 (dm_segments m))
    (bi_page_count (dm_base_identity m)) None None.
Definition with_exact_fact_counts (g : DeltaGrowthMetrics) (delta_facts base_facts : Z) : DeltaGrowthMetrics :=
  mkGrowth (gm_segment_count g) (gm_page_growth g) (gm_base_page_count g) (Some delta_facts) (Some base_facts).
(** In 128 bits: no overflow. *)
Definition ratio_at_least (value base percent : Z) : bool := (0 <? base) && (base * percent <=? value * 100).
Definition page_ratio_at_least (g : DeltaGrowthMetrics) (percent : Z) : bool :=
  (1024 <=? gm_page_growth g) && ratio_at_least (gm_page_growth g) (gm_base_page_count g) percent.
Definition fact_ratio_at_least (g : DeltaGrowthMetrics) (percent : Z) : bool :=
  match gm_delta_fact_count g, gm_base_fact_count g with
  | Some d, Some n => (1000 <=? d) && ratio_at_least d n percent
  | _, _ => false
  end.
Definition crosses_hard_threshold (g : DeltaGrowthMetrics) : bool :=
  (4096 <=? gm_segment_count g) || (65536 <=? gm_page_growth g) || page_ratio_at_least g 25 || fact_ratio_at_least g 25.
Definition crosses_soft_threshold (g : DeltaGrowthMetrics) : bool :=
  (1024 <=? gm_segment_count g) || (16384 <=? gm_page_growth g) || page_ratio_at_least g 10 || fact_ratio_at_least g 10.
Definition decide_growth (g : DeltaGrowthMetrics) : DeltaMaintenanceDecision :=
  if crosses_hard_threshold g then MaintenanceBackpressure
  else if crosses_soft_threshold g then ScheduleBackgroundRecompact
  else ContinueDeltaAppend.

(** * What the check accepts *)

(** One segment after another: later transactions, later pages. *)
Definition follows (p s : DeltaManifestSegment) : Prop :=
  ms_low_tx_count p < ms_low_tx_count s ∧ ms_high_tx_count p < ms_low_tx_count s ∧ ms_segment_page_start p < ms_segment_page_start s ∧
  ms_segment_page_start p + ms_segment_page_count p ≤ ms_segment_page_start s.
Record listed_ok (s : DeltaManifestSegment) : Prop := {
  eo_count : ms_segment_page_count s ≠ 0;
  eo_pages : ms_segment_page_start s + ms_segment_page_count s ≤ u64_MAX;
  eo_facts : ms_fact_page_start s + ms_fact_page_count s ≤ u64_MAX;
  eo_tx : ms_low_tx_count s ≤ ms_high_tx_count s;
}.
Fixpoint segment_chain (previous : option DeltaManifestSegment) (segments : list DeltaManifestSegment) : Prop :=
  match segments with
  | [] => True
  | s :: rest => listed_ok s ∧ match previous with Some p => follows p s | None => True end ∧ segment_chain (Some s) rest
  end.
Record base_ok (i : DeltaBaseIdentity) (low : Z) (segments : list DeltaManifestSegment) : Prop := {
  bo_pages : bi_page_count i ≠ 0;
  bo_roots : bi_eavt_root i ≠ 0 ∧ bi_aevt_root i ≠ 0 ∧ bi_avet_root i ≠ 0 ∧ bi_vaet_root i ≠ 0;
  bo_behind : Forall (λ s, bi_page_count i ≤ ms_segment_page_start s) segments;
  bo_tx : bi_checkpoint_tx_count i < low;
}.
Record manifest_ok (m : DeltaManifest) : Prop := {
  mo_version : dm_codec_version m = DELTA_MANIFEST_CODEC_VERSION;
  mo_range : (dm_low_tx_count m, dm_high_tx_count m) = segment_tx_range (dm_segments m);
  mo_base : dm_segments m ≠ [] → base_ok (dm_base_identity m) (dm_low_tx_count m) (dm_segments m);
  mo_chain : segment_chain None (dm_segments m);
}.

Lemma check_segment_ok previous s out : check_segment previous s = Ok out ↔
  out = Some s ∧ listed_ok s ∧ match previous with Some p => ms_segment_page_start p + ms_segment_page_count p ≤ u64_MAX → follows p s | None => True end ∧
  match previous with Some p => ms_segment_page_start p + ms_segment_page_count p ≤ u64_MAX | None => True end.
Proof.
  unfold check_segment. split.
  - intros E. destruct previous as [p|]; inv_ok.
    all: repeat match goal with H : checked_add_u64 _ _ = Some _ |- _ => apply checked_add_Some in H as [-> ?] end.
    all: repeat match goal with H : (_ <? _) = true |- _ => apply Z.ltb_lt in H | H : (_ <=? _) = true |- _ => apply Z.leb_le in H
                              | H : negb (_ =? 0) = true |- _ => apply negb_true_iff, Z.eqb_neq in H end.
    all: by split_and!.
  - intros (-> & [C P F T] & Fo & Pp). rewrite (proj2 (Z.eqb_neq _ _)) by done. cbn [negb ensure mbind result_bind].
    rewrite !checked_add_le by done. cbn [ok_or mbind result_bind]. rewrite (proj2 (Z.leb_le _ _)) by done. cbn [ensure mbind result_bind].
    destruct previous as [p|]; [|done]. destruct (Fo Pp) as (? & ? & ? & ?).
    rewrite !(proj2 (Z.ltb_lt _ _)) by done. cbn [ensure mbind result_bind]. rewrite checked_add_le by done. cbn [ok_or mbind result_bind].
    by rewrite (proj2 (Z.leb_le _ _)).
Qed.
Lemma check_chain segments : ∀ previous, (∀ p, previous = Some p → listed_ok p) →
  ((∃ out, foldR check_segment previous segments = Ok out) ↔ segment_chain previous segments).
Proof.
  induction segments as [|s segments IH]; intros previous O; cbn [foldR segment_chain]; [split; [done|by eexists]|]. split.
  - intros (out & (o & (-> & Es & F & P)%check_segment_ok & R)%bind_Ok). split_and!; [done| |apply IH; [by intros ? [= <-]|by eexists]].
    destruct previous as [p|]; [|done]. by apply F.
  - intros (Es & F & C). apply IH in C as [out R]; [|by intros ? [= <-]]. exists out.
    rewrite (proj2 (check_segment_ok previous s (Some s))); [done|]. destruct previous as [p|]; [|done].
    split_and!; [done|done|done|]. apply (O p eq_refl).
Qed.
Lemma behind_ok i segments : (∃ u, foldR (λ _ s, ensure (negb (ms_segment_page_start s <? bi_page_count i)) "Delta manifest segment starts before base page_count") tt segments = Ok u) ↔
  Forall (λ s, bi_page_count i ≤ ms_segment_page_start s) segments.
Proof.
  induction segments as [|s segments IH]; cbn [foldR]; [split; [constructor|by eexists]|]. rewrite Forall_cons, <-IH. split.
  - intros (u & ([] & E & R)%bind_Ok). inv_ok. apply negb_true_iff, Z.ltb_ge in E. split; [done|by eexists].
  - intros (L & u & R). exists u. rewrite (proj2 (Z.ltb_ge _ _)) by done. done.
Qed.

Lemma validate_manifest_ok m : validate_manifest m = Ok () ↔ manifest_ok m.
Proof.
  unfold validate_manifest. destruct (segment_tx_range (dm_segments m)) as [low high] eqn:T. split.
  - intros E. inv_ok. rewrite !Z.eqb_eq in *. split; [done|rewrite T; by f_equal| |].
    + intros Ne. unfold validate_for_segments in *. destruct (dm_segments m) as [|s segments]; [done|]. inv_ok.
      match goal with H : negb (_ || _) = true |- _ => rewrite negb_true_iff, !orb_false_iff, !Z.eqb_neq in H; destruct H as [[[? ?] ?] ?] end.
      match goal with H : negb _ = true |- _ => apply negb_true_iff, Z.eqb_neq in H end.
      match goal with H : (_ <? _) = true |- _ => apply Z.ltb_lt in H end.
      split; [done|done|apply behind_ok; by eexists|done].
    + apply check_chain; [done|by eexists].
  - intros [V R Bo C]. rewrite V, T in *. injection R as Rl Rh. rewrite Rl, Rh in *. rewrite !Z.eqb_refl, Z.leb_refl. cbn [ensure mbind result_bind].
    apply check_chain in C as [out C]; [|done]. rewrite C.
    unfold validate_for_segments. destruct (dm_segments m) as [|s segments]; [done|]. destruct (Bo ltac:(done)) as [P (? & ? & ? & ?) Be Tx].
    rewrite !(proj2 (Z.eqb_neq _ _)) by done. cbn [negb orb ensure mbind result_bind].
    apply behind_ok in Be as [[] ->]. cbn [mbind result_bind]. by rewrite (proj2 (Z.ltb_lt _ _)).
Qed.

(** Segment entries are unsigned. *)
Definition entry_u64 (s : DeltaManifestSegment) : Prop :=
  0 ≤ ms_segment_page_start s ∧ 0 ≤ ms_segment_page_count s ∧ 0 ≤ ms_fact_page_start s ∧ 0 ≤ ms_fact_page_count s.
Lemma chain_sorted segments : ∀ previous, Forall entry_u64 segments → segment_chain previous segments →
  StronglySorted (λ a b, ms_high_tx_count a < ms_low_tx_count b ∧ ms_segment_page_start a + ms_segment_page_count a ≤ ms_segment_page_start b) segments ∧
  match previous with
  | Some p => Forall (λ b, ms_high_tx_count p < ms_low_tx_count b ∧ ms_segment_page_start p + ms_segment_page_count p ≤ ms_segment_page_start b) segments
  | None => True
  end.
Proof.
  induction segments as [|s segments IH]; intros previous U C; [split; [constructor|by destruct previous]|].
  apply Forall_cons in U as [Us U]. destruct C as (Es & F & C). destruct (IH (Some s) U C) as [So Fo]. split; [by constructor|].
  destruct previous as [p|]; [|done]. destruct F as (? & ? & ? & ?). constructor; [done|].
  eapply Forall_impl; [exact Fo|]. intros x [? ?]. destruct Us as (? & ? & _), Es as [_ _ _ ?]. split; lia.
Qed.

Lemma segment_range_spec segments low high : segment_tx_range segments = (low, high) →
  Forall (λ s, low ≤ ms_low_tx_count s ∧ ms_high_tx_count s ≤ high) segments.
Proof.
  assert (G : ∀ segments lo hi lo' hi',
    foldl (λ '(l, h) s, (l `min` ms_low_tx_count s, h `max` ms_high_tx_count s)) (lo, hi) segments = (lo', hi') →
    lo' ≤ lo ∧ hi ≤ hi' ∧ Forall (λ s, lo' ≤ ms_low_tx_count s ∧ ms_high_tx_count s ≤ hi') segments).
  { clear. induction segments as [|s segments IH]; cbn; intros lo hi lo' hi' E; [injection E as -> ->; split_and!; [lia|lia|constructor]|].
    apply IH in E as (A & C & F). split_and!; [lia|lia|constructor; [lia|done]]. }
  destruct segments as [|s segments]; [constructor|]. cbn [segment_tx_range]. intros (A & C & F)%G. by constructor.
Qed.

(** * Round trips *)

Section roundtrips.
Context {B : Type} `{BL : BackendLaws B} (crc32 : bytes → Z) `{SP : SegmentPostcardLaws} `{MP : ManifestPostcardLaws}.
Hypothesis crc_u32 : ∀ bs, u32_ok (crc32 bs).

Definition manifest_body (pb : bytes) : bytes := DELTA_MANIFEST_MAGIC ++ to_le_bytes 8 (Z.of_nat (length pb)) ++ pb.
Lemma manifest_body_length pb : length (manifest_body pb) = (16 + length pb)%nat.
Proof using.
  unfold manifest_body. assert (length DELTA_MANIFEST_MAGIC = 8%nat) as M by done. rewrite !length_app, !length_to_le_bytes, M. lia.
Qed.
Lemma encode_manifest_inv m bs : encode_manifest crc32 m = Ok bs → ∃ pb, manifest_ok m ∧ pc_manifest m = Ok pb ∧ u64_ok (Z.of_nat (length pb)) ∧
  bs = seal_frame crc32 DELTA_MANIFEST_COMMIT_MARKER (manifest_body pb).
Proof using.
  unfold encode_manifest. intros E. inv_ok. repeat match goal with u : () |- _ => destruct u end.
  eexists. unfold u64_ok, u64_MAX in *. rewrite !Z.leb_le in *. split_and!; (done || lia || by apply validate_manifest_ok).
Qed.
Lemma decode_encode_manifest m bs : encode_manifest crc32 m = Ok bs → Z.of_nat (length bs) ≤ u64_MAX → decode_manifest crc32 bs = Ok m.
Proof using MP crc_u32.
  intros (pb & V & Ep & Hp & ->)%encode_manifest_inv Sz. unfold decode_manifest.
  rewrite seal_length, manifest_body_length in Sz by done. unfold TRAILER_LEN in Sz.
  rewrite open_seal by (done || rewrite manifest_body_length; unfold MANIFEST_PREFIX_LEN; lia). cbn [mbind result_bind].
  assert (R : get_range (manifest_body pb) 0 8 = Some DELTA_MANIFEST_MAGIC ∧ read_u64_le (manifest_body pb) 8 = Ok (Z.of_nat (length pb)) ∧
              get_range (manifest_body pb) 16 (16 + length pb) = Some pb).
  { unfold manifest_body. assert (length DELTA_MANIFEST_MAGIC = 8%nat) as Lm by done. revert Lm. generalize DELTA_MANIFEST_MAGIC. intros magic Lm. split_and!.
    - by apply get_range_here.
    - rewrite read_u64_skip by lia. rewrite Lm. by apply read_u64_here.
    - apply (get_range_at _ (magic ++ to_le_bytes 8 (Z.of_nat (length pb))) pb []);
        rewrite ?app_nil_r, ?length_app, ?length_to_le_bytes, ?Lm; (done || by rewrite <-app_assoc). }
  destruct R as (R1 & R2 & R3). rewrite R1. cbn [ok_or mbind result_bind]. rewrite bool_decide_true by done. cbn [ensure mbind result_bind].
  rewrite R2. cbn [mbind result_bind]. unfold MANIFEST_PREFIX_LEN. rewrite checked_add_le by lia. cbn [ok_or mbind result_bind].
  rewrite manifest_body_length, (proj2 (Z.eqb_eq _ _)) by lia. cbn [ensure mbind result_bind].
  replace (Z.to_nat (Z.of_nat 16 + Z.of_nat (length pb))) with (16 + length pb)%nat by lia. rewrite R3. cbn [ok_or mbind result_bind].
  rewrite (pc_manifest_inverts _ _ Ep). cbn [mbind result_bind]. by rewrite (proj2 (validate_manifest_ok m)).
Qed.

(** ** Reading is stable *)

(** [b'] still has the pages of [b] below [n]. *)
Definition keeps_below (n : Z) (b b' : B) : Prop := ∀ id page, 0 < id < n → backend_read_page b id = Ok page → backend_read_page b' id = Ok page.

Lemma read_frame_keeps reader n (b b' : B) start count bs : keeps_below n b b' → 0 < start → start + Z.of_nat count ≤ n →
  read_frame_pages reader b start count = Ok bs → read_frame_pages reader b' start count = Ok bs.
Proof using.
  intros K P L. unfold read_frame_pages.
  assert (G : ∀ k m acc, (k + m ≤ count)%nat → foldR (read_frame_page reader b start) acc (seq k m) = Ok bs →
    foldR (read_frame_page reader b' start) acc (seq k m) = Ok bs).
  { intros k m. revert k. induction m as [|m IH]; intros k acc Lk; cbn [seq foldR]; [done|].
    intros (acc' & E & R)%bind_Ok. assert (read_frame_page reader b' start acc k = Ok acc') as ->.
    { unfold read_frame_page in *. inv_ok. match goal with H : checked_add_u64 _ _ = Some _ |- _ => rewrite H; apply checked_add_Some in H as [-> _] end.
      cbn [ok_or mbind result_bind]. match goal with H : backend_read_page b _ = Ok _ |- _ => apply K in H; [rewrite H|lia] end.
      cbn [mbind result_bind]. match goal with H : _ = true |- _ => by rewrite H end. }
    cbn [mbind result_bind]. apply IH; [lia|done]. }
  apply G. done.
Qed.

Definition grown (h h' : FileHeader.t) : Prop := FileHeader.page_count h ≤ FileHeader.page_count h'.
Lemma read_segment_keeps (b b' : B) h h' d s : keeps_below (FileHeader.page_count h) b b' → grown h h' → 0 < ms_segment_page_start d → 0 ≤ ms_segment_page_count d →
  read_delta_segment_from_descriptor crc32 b h d = Ok s → read_delta_segment_from_descriptor crc32 b' h' d = Ok s.
Proof using.
  intros K G P P'. unfold read_delta_segment_from_descriptor, grown in *. intros E.
  apply bind_Ok in E as (stop & E1 & E). apply bind_Ok in E as ([] & E2 & E). apply bind_Ok in E as (cap & E3 & E). apply bind_Ok in E as (bs & E4 & E).
  rewrite E1. cbn [mbind result_bind]. apply ok_or_Ok, checked_add_Some in E1 as [-> _]. apply ensure_Ok, Z.leb_le in E2.
  rewrite (proj2 (Z.leb_le _ _)) by lia. cbn [ensure mbind result_bind]. rewrite E3. cbn [ok_or mbind result_bind].
  eapply read_frame_keeps in E4; [|exact K|done|lia]. rewrite E4. exact E.
Qed.
Lemma load_segments_keeps (b b' : B) h h' segments out : keeps_below (FileHeader.page_count h) b b' → grown h h' →
  Forall (λ d, 0 < ms_segment_page_start d ∧ 0 ≤ ms_segment_page_count d) segments →
  mapR (read_delta_segment_from_descriptor crc32 b h) segments = Ok out → mapR (read_delta_segment_from_descriptor crc32 b' h') segments = Ok out.
Proof using.
  intros K G F. rewrite !mapR_Forall2. revert out. induction segments as [|d segments IH]; intros out R; inversion R as [|? s ? rest E R']; subst; [constructor|].
  apply Forall_cons in F as [[P P'] F]. constructor; [by eapply read_segment_keeps|by apply IH].
Qed.

Lemma read_manifest_keeps (b b' : B) h d m : keeps_below (FileHeader.page_count h) b b' → 0 < HeaderManifestSlot.manifest_page_start d →
  0 ≤ HeaderManifestSlot.manifest_page_count d →
  read_manifest_from_descriptor crc32 b h d = Ok m → read_manifest_from_descriptor crc32 b' h d = Ok m.
Proof using.
  intros K P P'. unfold read_manifest_from_descriptor. intros E.
  apply bind_Ok in E as ([] & E1 & E). apply bind_Ok in E as (cap & E2 & E). apply bind_Ok in E as ([] & E3 & E). apply bind_Ok in E as (bs & E4 & E).
  rewrite E1. cbn [mbind result_bind]. rewrite E2. cbn [mbind result_bind]. rewrite E3. cbn [mbind result_bind].
  unfold validate_manifest_descriptor_bounds in E1. apply bind_Ok in E1 as (stop & S1 & S2). apply ok_or_Ok, checked_add_Some in S1 as [-> _].
  apply ensure_Ok, Z.leb_le in S2. eapply read_frame_keeps in E4; [|exact K|done|lia]. rewrite E4. exact E.
Qed.

(** ** Pages *)

Lemma encoded_length m bs : encode_manifest crc32 m = Ok bs → (0 < length bs)%nat.
Proof using. intros (pb & _ & _ & _ & ->)%encode_manifest_inv. rewrite seal_length by done. unfold TRAILER_LEN. lia. Qed.
Lemma frame_fits bs start : (0 < length bs)%nat → 0 < start → start + Z.of_nat (frame_page_count bs) < 2 ^ 52 →
  Z.of_nat (length bs) ≤ u64_MAX ∧ Z.of_nat (length bs) ≤ Z.of_nat (frame_page_count bs) * Z.of_nat PAGE_SIZE ≤ u64_MAX ∧ 0 < Z.of_nat (frame_page_count bs).
Proof using.
  intros L P Bd. destruct (frame_page_count_spec bs L) as [[_ Lu] Pn]. pose proof PAGE_SIZE_val as PS. unfold u64_MAX. split_and!; nia.
Qed.

Lemma manifest_pages_ok (b : B) m bs start : encode_manifest crc32 m = Ok bs → 0 < start → start + Z.of_nat (frame_page_count bs) < 2 ^ 52 →
  u64_ok (dm_generation m) → dm_generation m ≠ 0 →
  ∃ b' d, write_manifest_pages crc32 b start m = Ok (b', d) ∧ keeps_below start b b' ∧
    HeaderManifestSlot.ok d ∧ HeaderManifestSlot.is_selectable crc32 d = true ∧ HeaderManifestSlot.generation d = dm_generation m ∧
    HeaderManifestSlot.manifest_page_start d = start ∧ HeaderManifestSlot.manifest_page_count d = Z.of_nat (frame_page_count bs) ∧
    ∀ h, start + Z.of_nat (frame_page_count bs) ≤ FileHeader.page_count h → read_manifest_from_descriptor crc32 b' h d = Ok m.
Proof using BL MP crc_u32.
  intros E P Bd Gu Gn. pose proof (encoded_length m bs E) as L. destruct (frame_fits bs start L P Bd) as (Lu & Lc & Pn).
  destruct (frame_pages_roundtrip "Delta manifest" b start bs L P Bd) as (b' & W & (z & R) & K).
  set (slot := HeaderManifestSlot.mk (dm_generation m) start (Z.of_nat (frame_page_count bs)) (Z.of_nat (length bs)) (crc32 bs) 0).
  set (d := HeaderManifestSlot.mk (dm_generation m) start (Z.of_nat (frame_page_count bs)) (Z.of_nat (length bs)) (crc32 bs) (HeaderManifestSlot.compute_checksum crc32 slot)).
  assert (N : HeaderManifestSlot.new crc32 (dm_generation m) start (Z.of_nat (frame_page_count bs)) (Z.of_nat (length bs)) (crc32 bs) = Ok d).
  { unfold HeaderManifestSlot.new. rewrite !(proj2 (Z.eqb_neq _ _)) by lia. cbn [negb ensure mbind result_bind].
    rewrite checked_add_le by (unfold u64_MAX; lia). done. }
  exists b', d. unfold write_manifest_pages. rewrite (proj2 (Z.eqb_neq _ _)) by lia. cbn [negb ensure mbind result_bind]. rewrite E. cbn [mbind result_bind].
  rewrite W. cbn [mbind result_bind]. rewrite N. split; [done|]. split; [intros id page [? ?]; apply K; lia|].
  assert (Lu' : u64_ok (Z.of_nat (length bs))) by (unfold u64_ok, u64_MAX in *; lia).
  destruct (manifest_slot_new_ok crc32 crc_u32 (dm_generation m) start (Z.of_nat (frame_page_count bs)) (Z.of_nat (length bs)) (crc32 bs) d) as [Od Sd];
    [done|unfold u64_ok; lia|unfold u64_ok; lia|done|apply crc_u32|exact N|].
  split_and!; [done..|]. intros h Lh. unfold read_manifest_from_descriptor, validate_manifest_descriptor_bounds.
  cbn [d HeaderManifestSlot.manifest_page_start HeaderManifestSlot.manifest_page_count HeaderManifestSlot.manifest_len HeaderManifestSlot.manifest_checksum HeaderManifestSlot.generation].
  rewrite checked_add_le by (unfold u64_MAX; lia). cbn [ok_or mbind result_bind]. rewrite (proj2 (Z.leb_le _ _)) by lia. cbn [ensure mbind result_bind].
  unfold checked_mul_u64. rewrite (proj2 (Z.leb_le _ u64_MAX)) by lia. cbn [ok_or mbind result_bind]. rewrite (proj2 (Z.leb_le _ _)) by lia. cbn [ensure mbind result_bind].
  rewrite !Nat2Z.id, R. cbn [mbind result_bind]. rewrite take_app_length, Z.eqb_refl. cbn [ensure mbind result_bind].
  rewrite (decode_encode_manifest m bs E Lu). cbn [mbind result_bind]. by rewrite Z.eqb_refl.
Qed.

(** ** Choosing *)

Lemma candidates_of e slot d : (slot, d) ∈ slot_candidates crc32 e → d = slot_of e slot ∧ HeaderManifestSlot.is_selectable crc32 d = true.
Proof using.
  unfold slot_candidates. intros [I|I]%elem_of_app.
  - destruct (HeaderManifestSlot.is_selectable crc32 (HeaderExtension.primary e)) eqn:E; [|by apply not_elem_of_nil in I].
    apply list_elem_of_singleton in I as [= -> ->]. done.
  - destruct (HeaderManifestSlot.is_selectable crc32 (HeaderExtension.secondary e)) eqn:E; [|by apply not_elem_of_nil in I].
    apply list_elem_of_singleton in I as [= -> ->]. done.
Qed.
Lemma sort_candidates_elem l x : x ∈ sort_candidates l ↔ x ∈ l.
Proof using. destruct l as [|a [|b [|]]]; [done|done| |done]. cbn. case_match; [|done]. rewrite !elem_of_cons. tauto. Qed.

(** What an opened file's selection says. *)
Record used (b : B) (h : FileHeader.t) (e : HeaderExtension.t) (slot : SlotName) (m : DeltaManifest) (segments : list DeltaSegment.t) : Prop := {
  us_selectable : HeaderManifestSlot.is_selectable crc32 (slot_of e slot) = true;
  us_manifest : read_manifest_from_descriptor crc32 b h (slot_of e slot) = Ok m;
  us_segments : load_delta_segments_from_manifest crc32 b h m = Ok segments;
}.
Lemma load_cases b h e page0 sel persisted segments : HeaderExtension.read_from_page0 crc32 (FileHeader.version h) page0 = Ok (Some e) →
  load_usable_delta_selection crc32 b h page0 = Ok (sel, persisted, segments) →
  match persisted with
  | PersistedNone => sel = NoDeltaManifest ∧ segments = []
  | PersistedUse slot m => sel = Use slot (slot_of e slot) ∧ used b h e slot m segments
  | PersistedRecovery _ => True
  end.
Proof using.
  intros R. unfold load_usable_delta_selection. rewrite R. cbn [mbind result_bind].
  assert (G : ∀ l, (∀ slot d, (slot, d) ∈ l → d = slot_of e slot ∧ HeaderManifestSlot.is_selectable crc32 d = true) →
    first_usable crc32 b h l = (sel, persisted, segments) →
    match persisted with PersistedNone => False | PersistedUse slot m => sel = Use slot (slot_of e slot) ∧ used b h e slot m segments | PersistedRecovery _ => True end).
  { induction l as [|[slot d] l IH]; intros C; cbn [first_usable]; [by intros [= <- <- <-]|].
    destruct (m ← read_manifest_from_descriptor crc32 b h d; segments ← load_delta_segments_from_manifest crc32 b h m; Ok (m, segments)) as [[m' s']|x] eqn:E.
    - intros [= <- <- <-]. destruct (C slot d ltac:(apply elem_of_cons; by left)) as [-> S]. split; [done|]. inv_ok. simplify_eq. by split.
    - apply IH. intros slot' d' I. apply C, elem_of_cons. by right. }
  destruct (slot_candidates crc32 e) as [|c l] eqn:Cs.
  - destruct (has_invalid_slot crc32 e); by intros [= <- <- <-].
  - intros E%Ok_inj. apply G in E; [by destruct persisted|]. intros slot d I. apply candidates_of. rewrite Cs. by apply sort_candidates_elem.
Qed.

(** The newest of the slots wins when it can be read. *)
Lemma newest_wins b h e page0 slot m segments : HeaderExtension.read_from_page0 crc32 (FileHeader.version h) page0 = Ok (Some e) →
  used b h e slot m segments →
  (HeaderManifestSlot.is_selectable crc32 (slot_of e (other slot)) = true →
     HeaderManifestSlot.generation (slot_of e (other slot)) < HeaderManifestSlot.generation (slot_of e slot)) →
  load_usable_delta_selection crc32 b h page0 = Ok (Use slot (slot_of e slot), PersistedUse slot m, segments).
Proof using.
  intros R [S M L] N. unfold load_usable_delta_selection. rewrite R. cbn [mbind result_bind].
  assert (F : ∀ rest, first_usable crc32 b h ((slot, slot_of e slot) :: rest) = (Use slot (slot_of e slot), PersistedUse slot m, segments)).
  { intros rest. cbn [first_usable]. rewrite M. cbn [mbind result_bind]. by rewrite L. }
  assert (H' : ∃ rest, sort_candidates (slot_candidates crc32 e) = (slot, slot_of e slot) :: rest).
  { unfold slot_candidates. destruct slot; cbn [slot_of other] in *; rewrite S.
    - destruct (HeaderManifestSlot.is_selectable crc32 (HeaderExtension.secondary e)); [|by eexists]. cbn.
      rewrite (proj2 (Z.ltb_ge _ _)) by (specialize (N eq_refl); lia). by eexists.
    - destruct (HeaderManifestSlot.is_selectable crc32 (HeaderExtension.primary e)); [|by eexists]. cbn.
      rewrite (proj2 (Z.ltb_lt _ _)) by (by apply N). by eexists. }
  destruct H' as [rest Er]. destruct (slot_candidates crc32 e) as [|c l]; [done|]. rewrite Er. by rewrite F.
Qed.
End roundtrips.

(** * The checkpoint *)

Lemma chain_snoc segments x : ∀ previous, segment_chain previous segments → listed_ok x →
  (∀ p, last (option_list previous ++ segments) = Some p → follows p x) → segment_chain previous (segments ++ [x]).
Proof.
  induction segments as [|s segments IH]; intros previous C E F; cbn [app segment_chain].
  - split_and!; [done| |done]. destruct previous as [p|]; [|done]. by apply F.
  - destruct C as (Es & Fs & C). split_and!; [done|done|]. apply IH; [done|done|]. intros p Lp. apply F.
    change (last (s :: segments) = Some p) in Lp. destruct previous as [q|]; [|exact Lp]. change (last (q :: s :: segments) = Some p). by rewrite last_cons_cons.
Qed.
Lemma chain_entries segments : ∀ previous s, segment_chain previous segments → s ∈ segments → listed_ok s.
Proof.
  induction segments as [|x segments IH]; intros previous s C I; [by apply not_elem_of_nil in I|]. destruct C as (E & _ & C).
  apply elem_of_cons in I as [->|I]; [done|by eapply IH].
Qed.
Lemma last_Some_elem_of {A} (l : list A) x : last l = Some x → x ∈ l.
Proof. intros (l' & ->)%last_Some. apply elem_of_app. right. by apply list_elem_of_singleton. Qed.
Lemma range_snoc segments x low high : segment_tx_range segments = (low, high) → segments ≠ [] →
  segment_tx_range (segments ++ [x]) = (low `min` ms_low_tx_count x, high `max` ms_high_tx_count x).
Proof. destruct segments as [|s segments]; [done|]. cbn [segment_tx_range app]. intros E _. rewrite foldl_app. by rewrite E. Qed.

(** Slots of the projection catalog that page 0 may carry over. *)
Definition projections_valid (crc32 : bytes → Z) (e : HeaderExtension.t) : Prop :=
  ∀ s, s ∈ [HeaderExtension.projection_primary e; HeaderExtension.projection_secondary e] →
    ProjectionCatalogSlot.is_empty s = true ∨ ProjectionCatalogSlot.is_selectable crc32 s = true.

Section checkpoint.
Context {B : Type} `{BL : BackendLaws B} (crc32 : bytes → Z) `{SP : SegmentPostcardLaws} `{MP : ManifestPostcardLaws}.
Hypothesis crc_u32 : ∀ bs, u32_ok (crc32 bs).

Lemma next_extension_ok h page0 e sel d : HeaderExtension.read_from_page0 crc32 (FileHeader.version h) page0 = Ok (Some e) →
  extension_ok crc32 e → projections_valid crc32 e → HeaderManifestSlot.ok d → sel ≠ RecoveryRequired →
  ∃ e' slot, build_next_manifest_extension crc32 h page0 sel d = Ok (e', slot) ∧ slot_of e' slot = d ∧
    slot_of e' (other slot) = match sel with Use w _ => slot_of e w | _ => HeaderManifestSlot.empty end ∧
    extension_ok crc32 e' ∧ projections_valid crc32 e' ∧ (∀ v, storable v e → storable v e').
Proof using crc_u32.
  intros R O P Od Ns. unfold build_next_manifest_extension. rewrite R. cbn [mbind result_bind]. change (default (HeaderExtension.empty crc32) (Some e)) with e. cbn zeta.
  set (choice := match sel with Use Primary _ => (HeaderExtension.primary e, d, Secondary) | Use Secondary _ => (d, HeaderExtension.secondary e, Primary) | _ => (d, HeaderManifestSlot.empty, Primary) end).
  destruct choice as [[p s] slot] eqn:Ec.
  assert (Ok1 : HeaderManifestSlot.ok p ∧ HeaderManifestSlot.ok s).
  { destruct O. destruct sel as [|[] ?|]; cbn in Ec; injection Ec as <- <- <-; (split; [done|]) || split; try done; apply empty_slot_ok. }
  destruct O as [O1 O2 [O3 O3'] O4 O5 O6 [O7 O8]].
  set (e1 := HeaderExtension.mk p s (HeaderExtension.base_fact_page_start e) (HeaderExtension.compute_base_layout_checksum crc32 (HeaderExtension.base_fact_page_start e))
               BPID.empty ProjectionCatalogSlot.empty ProjectionCatalogSlot.empty).
  assert (HeaderExtension.with_base_fact_page_start crc32 (HeaderExtension.new crc32 p s) (HeaderExtension.base_fact_page_start e) = Ok e1) as ->.
  { unfold HeaderExtension.with_base_fact_page_start. rewrite (proj2 (Z.eqb_neq (HeaderExtension.base_fact_page_start e) 0)) by done. cbn [negb ensure mbind result_bind HeaderExtension.new HeaderExtension.base_integrity].
    assert (BPID.is_empty BPID.empty = true) as -> by (by apply bool_decide_eq_true). done. }
  cbn [mbind result_bind].
  assert (HeaderExtension.with_base_integrity crc32 e1 (HeaderExtension.base_integrity e) =
          Ok (HeaderExtension.mk p s (HeaderExtension.base_fact_page_start e) (HeaderExtension.base_layout_checksum e1) (HeaderExtension.base_integrity e)
                ProjectionCatalogSlot.empty ProjectionCatalogSlot.empty)) as ->.
  { unfold HeaderExtension.with_base_integrity. destruct (BPID.is_empty (HeaderExtension.base_integrity e)) eqn:Em; [done|].
    destruct O6 as [?|(V & C & S)]; [done|]. rewrite V. cbn [mbind result_bind]. rewrite C. cbn [ensure mbind result_bind]. by rewrite S, Z.eqb_refl. }
  cbn [mbind result_bind].
  assert (V : ∀ x, x ∈ [HeaderExtension.projection_primary e; HeaderExtension.projection_secondary e] →
    negb (ProjectionCatalogSlot.is_empty x) && negb (ProjectionCatalogSlot.is_selectable crc32 x) = false).
  { intros x [->| ->]%P; [done|apply andb_false_r]. }
  unfold HeaderExtension.with_projection_catalog_slots. rewrite !V by (rewrite !elem_of_cons; auto). cbn [orb negb ensure mbind result_bind].
  eexists _, slot. split; [done|]. cbn [HeaderExtension.primary HeaderExtension.secondary HeaderExtension.base_fact_page_start HeaderExtension.base_layout_checksum HeaderExtension.base_integrity].
  split_and!.
  - destruct sel as [|[] ?|]; cbn in Ec; injection Ec as <- <- <-; done.
  - destruct sel as [|[] ?|]; cbn in Ec; injection Ec as <- <- <-; done.
  - destruct Ok1. by split; cbn.
  - exact P.
  - intros v [S1 S2]. by split.
Qed.

(** An opened file with page 0 [page0], and what it selected. *)
Record delta_state (b : B) (h : FileHeader.t) (e : HeaderExtension.t) (page0 : bytes) (sel : HeaderManifestSlotSelection)
    (persisted : PersistedManifestSelection) (segments : list DeltaSegment.t) : Prop := {
  st_header : FileHeader.ok h;
  st_validate : FileHeader.validate h = Ok ();
  st_capable : delta_capable h = true;
  st_page0 : FileHeader.from_bytes page0 = Ok h;
  st_read : HeaderExtension.read_from_page0 crc32 (FileHeader.version h) page0 = Ok (Some e);
  st_extension : extension_ok crc32 e;
  st_storable : storable (FileHeader.version h) e;
  st_projection : projections_valid crc32 e;
  st_load : load_usable_delta_selection crc32 b h page0 = Ok (sel, persisted, segments);
  st_used : match persisted with
    | PersistedNone => True
    | PersistedUse slot m => HeaderManifestSlot.generation (slot_of e slot) ≤ FileHeader.last_checkpointed_tx_count h ∧
        dm_high_tx_count m ≤ FileHeader.last_checkpointed_tx_count h ∧ dm_segments m ≠ [] ∧
        Forall (λ d, 0 < ms_segment_page_start d ∧ 0 ≤ ms_segment_page_count d) (dm_segments m) ∧ manifest_ok m
    | PersistedRecovery _ => False
    end;
}.

(** The base and the segments a checkpoint extends. *)
Definition lineage (h : FileHeader.t) (persisted : PersistedManifestSelection) : DeltaBaseIdentity * list DeltaManifestSegment :=
  match persisted with PersistedUse _ m => (dm_base_identity m, dm_segments m) | _ => (base_identity_from_header h, []) end.
Definition next_generation (h : FileHeader.t) (current_tx_count : Z) : Z :=
  (current_tx_count `max` sat_add_u64 (FileHeader.last_checkpointed_tx_count h) 1) `max` 1.
Definition appended_entry (h : FileHeader.t) (s : DeltaSegment.t) (count : Z) : DeltaManifestSegment :=
  mkManifestSegment (FileHeader.page_count h) count (sh_fact_page_start (DeltaSegment.header s)) (sh_fact_page_count (DeltaSegment.header s))
    (sh_low_tx_count (DeltaSegment.header s)) (sh_high_tx_count (DeltaSegment.header s)).
Definition next_manifest (h : FileHeader.t) (persisted : PersistedManifestSelection) (current_tx_count : Z) (entry : DeltaManifestSegment) : DeltaManifest :=
  let all := (lineage h persisted).2 ++ [entry] in
  mkManifest DELTA_MANIFEST_CODEC_VERSION (next_generation h current_tx_count) (lineage h persisted).1
    (segment_tx_range all).1 (segment_tx_range all).2 all.

Lemma loaded_inside b h d s : read_delta_segment_from_descriptor crc32 b h d = Ok s → ms_segment_page_start d + ms_segment_page_count d ≤ FileHeader.page_count h.
Proof using.
  unfold read_delta_segment_from_descriptor. intros E. inv_ok.
  match goal with H : checked_add_u64 (ms_segment_page_start d) _ = Some _ |- _ => apply checked_add_Some in H as [-> _] end.
  match goal with H : (_ <=? FileHeader.page_count h) = true |- _ => by apply Z.leb_le in H end.
Qed.
Lemma capable_roots h : delta_capable h = true → INTEGRITY_VERSION ≤ FileHeader.version h ≤ MAX_READABLE_FORMAT_VERSION ∧
  FileHeader.eavt_root_page h ≠ 0 ∧ FileHeader.aevt_root_page h ≠ 0 ∧ FileHeader.avet_root_page h ≠ 0 ∧ FileHeader.vaet_root_page h ≠ 0.
Proof using. unfold delta_capable. rewrite negb_true_iff, !orb_false_iff, !Z.eqb_neq, !Z.ltb_ge. tauto. Qed.
Lemma extension_format_some v : INTEGRITY_VERSION ≤ v ≤ MAX_READABLE_FORMAT_VERSION → is_Some (extension_format v).
Proof using. unfold INTEGRITY_VERSION, MAX_READABLE_FORMAT_VERSION. intros H'. assert (v = 11 ∨ v = 12 ∨ v = 13) as [->|[->| ->]] by lia; by eexists. Qed.
Lemma valid_pages h : FileHeader.ok h → FileHeader.validate h = Ok () → 0 < FileHeader.page_count h.
Proof using.
  intros O V. unfold FileHeader.validate in V. inv_ok. match goal with H : negb _ = true |- _ => apply negb_true_iff, Z.eqb_neq in H end.
  pose proof (FileHeader.ok_page_count h O) as P. unfold u64_ok in P. lia.
Qed.

(** The extended manifest passes its check. *)
Lemma next_manifest_ok b h e page0 sel persisted segments tx entry : delta_state b h e page0 sel persisted segments →
  listed_ok entry → ms_segment_page_start entry = FileHeader.page_count h → FileHeader.last_checkpointed_tx_count h < ms_low_tx_count entry →
  manifest_ok (next_manifest h persisted tx entry).
Proof using.
  intros St Eo Es Et. destruct (capable_roots h (st_capable _ _ _ _ _ _ _ St)) as (_ & ? & ? & ? & ?).
  pose proof (valid_pages h (st_header _ _ _ _ _ _ _ St) (st_validate _ _ _ _ _ _ _ St)) as Pp.
  pose proof (load_cases crc32 b h e page0 sel persisted segments (st_read _ _ _ _ _ _ _ St) (st_load _ _ _ _ _ _ _ St)) as Lc.
  pose proof (st_used _ _ _ _ _ _ _ St) as Us. destruct persisted as [|slot m|r]; [| |done].
  - split; cbn; [done|done| |done]. intros _. split; cbn; [lia|done|repeat constructor; lia|done].
  - destruct Us as (_ & Hi & Ne & Fp & [V R Bo C]), Lc as [_ [_ _ L]]. specialize (Bo Ne).
    assert (Hr : segment_tx_range (dm_segments m ++ [entry]) = (dm_low_tx_count m `min` ms_low_tx_count entry, dm_high_tx_count m `max` ms_high_tx_count entry))
      by (by apply range_snoc).
    pose proof (segment_range_spec _ _ _ (eq_sym R)) as Sr. rewrite Forall_forall in Sr.
    assert (Ins : ∀ d, d ∈ dm_segments m → ms_segment_page_start d + ms_segment_page_count d ≤ FileHeader.page_count h).
    { intros d I. unfold load_delta_segments_from_manifest in L. apply mapR_Forall2 in L. apply list_elem_of_lookup in I as [i Hi'].
      destruct (Forall2_lookup_l _ _ _ _ _ L Hi') as (s & _ & Es'). by eapply loaded_inside. }
    assert (Lo : dm_low_tx_count m ≤ dm_high_tx_count m).
    { destruct (dm_segments m) as [|d l] eqn:Ed; [done|]. destruct (Sr d ltac:(apply elem_of_cons; by left)). destruct C as ([_ _ _ ?] & _). lia. }
    assert (Ch : segment_chain None (dm_segments m ++ [entry])).
    { apply chain_snoc; [done|done|]. intros p Lp. assert (I : p ∈ dm_segments m) by (apply last_Some_elem_of; exact Lp).
      specialize (Sr p I). specialize (Ins p I). rewrite Forall_forall in Fp. specialize (Fp p I).
      assert (listed_ok p) as [? _ _ ?] by (by eapply chain_entries). unfold follows. lia. }
    unfold next_manifest. cbn [lineage fst snd]. rewrite Hr. split; cbn [dm_codec_version dm_low_tx_count dm_high_tx_count dm_segments dm_base_identity fst snd]; [done|done| |done].
    intros _. destruct Bo as [B1 B2 B3 B4]. split; [done|done| |lia]. apply Forall_app. split; [done|]. constructor; [|constructor].
    destruct (dm_segments m) as [|d l] eqn:Ed; [done|]. apply Forall_cons in B3 as [? _]. apply Forall_cons in Fp as [? _].
    specialize (Ins d ltac:(apply elem_of_cons; by left)). lia.
Qed.

(** ** The new lineage *)

Lemma encode_manifest_ok m pb : manifest_ok m → pc_manifest m = Ok pb → Z.of_nat (length pb) ≤ u64_MAX →
  encode_manifest crc32 m = Ok (seal_frame crc32 DELTA_MANIFEST_COMMIT_MARKER (manifest_body pb)).
Proof using.
  intros V Ep Lp. unfold encode_manifest. rewrite (proj2 (validate_manifest_ok m)) by done. cbn [mbind result_bind]. rewrite Ep. cbn [mbind result_bind].
  by rewrite (proj2 (Z.leb_le _ _)) by done.
Qed.
Lemma lineage_loaded b h e page0 sel persisted segments : delta_state b h e page0 sel persisted segments →
  mapR (read_delta_segment_from_descriptor crc32 b h) (lineage h persisted).2 = Ok segments ∧
  Forall (λ d, 0 < ms_segment_page_start d ∧ 0 ≤ ms_segment_page_count d) (lineage h persisted).2 ∧
  length segments = length (lineage h persisted).2 ∧ sel ≠ RecoveryRequired ∧
  ∀ w d, sel = Use w d → HeaderManifestSlot.generation (slot_of e w) ≤ FileHeader.last_checkpointed_tx_count h.
Proof using.
  intros St. pose proof (load_cases crc32 b h e page0 sel persisted segments (st_read _ _ _ _ _ _ _ St) (st_load _ _ _ _ _ _ _ St)) as Lc.
  pose proof (st_used _ _ _ _ _ _ _ St) as Us. destruct persisted as [|slot m|r]; [| |done]; cbn [lineage snd].
  - destruct Lc as [-> ->]. split_and!; [done|constructor|done|done|done].
  - destruct Lc as [-> [_ _ L]], Us as (G & _ & _ & Fp & _). split_and!; [exact L|done| |done|by intros w d [= <- <-]].
    apply mapR_Forall2, Forall2_length in L. done.
Qed.

(** The new segment, read through its manifest entry. *)
Lemma new_entry_reads (b : B) h h' s bs : Forall (λ x, fact_ok x.2) (sp_facts (DeltaSegment.payload s)) → encode_segment crc32 s = Ok bs →
  0 < FileHeader.page_count h → FileHeader.page_count h + Z.of_nat (frame_page_count bs) < 2 ^ 52 →
  FileHeader.page_count h + Z.of_nat (frame_page_count bs) ≤ FileHeader.page_count h' →
  (∃ z, read_frame_pages "Delta segment" b (FileHeader.page_count h) (frame_page_count bs) = Ok (bs ++ z)) →
  read_delta_segment_from_descriptor crc32 b h' (appended_entry h s (Z.of_nat (frame_page_count bs))) = Ok s.
Proof using SP crc_u32.
  intros F E P Bd G (z & R). assert (0 < length bs)%nat as L.
  { apply encode_segment_inv in E as (hb & pb & _ & _ & _ & _ & _ & ->). rewrite seal_length by done. unfold TRAILER_LEN. lia. }
  destruct (frame_fits bs (FileHeader.page_count h) L P Bd) as (Lu & Lc & _).
  unfold read_delta_segment_from_descriptor, appended_entry.
  cbn [ms_segment_page_start ms_segment_page_count ms_fact_page_start ms_fact_page_count ms_low_tx_count ms_high_tx_count].
  rewrite checked_add_le by (unfold u64_MAX; lia). cbn [ok_or mbind result_bind]. rewrite (proj2 (Z.leb_le _ _)) by lia. cbn [ensure mbind result_bind].
  unfold checked_mul_u64. rewrite (proj2 (Z.leb_le _ u64_MAX)) by lia. cbn [ok_or mbind result_bind].
  rewrite Nat2Z.id, R. cbn [mbind result_bind]. rewrite (decode_segment_pages crc32 crc_u32 s bs z F E Lu). cbn [mbind result_bind].
  by rewrite !Z.eqb_refl.
Qed.

Lemma advanced_header_ok h page_count node_count tx : FileHeader.ok h → FileHeader.validate h = Ok () → delta_capable h = true →
  FileHeader.page_count h ≤ page_count → u64_ok page_count → u64_ok node_count → u64_ok tx →
  let h' := with_header_checksum crc32 (advance_header h page_count node_count tx) in
  FileHeader.ok h' ∧ FileHeader.validate h' = Ok () ∧ delta_capable h' = true.
Proof using crc_u32.
  intros O V C L Up Un Ut h'. pose proof (valid_pages h O V) as P. split_and!.
  - destruct O. split; cbn; try done. apply crc_u32.
  - unfold FileHeader.validate in *. inv_ok. cbn [h' with_header_checksum advance_header FileHeader.magic FileHeader.version FileHeader.page_count FileHeader.eavt_root_page FileHeader.fact_page_count].
    repeat match goal with H : bool_decide _ = true |- _ => rewrite H; clear H end. cbn [ensure mbind result_bind].
    repeat match goal with H : (1 <=? _) && _ = true |- _ => rewrite H; clear H end. cbn [ensure mbind result_bind].
    rewrite (proj2 (Z.eqb_neq page_count 0)) by lia. cbn [negb ensure mbind result_bind].
    match goal with H : _ || (FileHeader.eavt_root_page h <? _) = true |- _ => apply orb_true_iff in H end.
    assert ((FileHeader.eavt_root_page h =? 0) || (FileHeader.eavt_root_page h <? page_count) = true) as ->.
    { apply orb_true_iff. rewrite Z.ltb_lt in *. destruct_or!; [by left|right; lia]. }
    cbn [ensure mbind result_bind]. match goal with H : (FileHeader.fact_page_count h <=? _) = true |- _ => apply Z.leb_le in H end.
    by rewrite (proj2 (Z.leb_le _ _)) by lia.
  - exact C.
Qed.

(** A page 0 that publishes a readable manifest of the lineage and one more segment. *)
Lemma published_loads b b' h h' e e' page0 page0' sel persisted segments slot d m entry s : delta_state b h e page0 sel persisted segments →
  keeps_below (FileHeader.page_count h) b b' → grown h h' →
  HeaderExtension.read_from_page0 crc32 (FileHeader.version h') page0' = Ok (Some e') → slot_of e' slot = d →
  slot_of e' (other slot) = match sel with Use w _ => slot_of e w | _ => HeaderManifestSlot.empty end →
  HeaderManifestSlot.is_selectable crc32 d = true → FileHeader.last_checkpointed_tx_count h < HeaderManifestSlot.generation d →
  read_manifest_from_descriptor crc32 b' h' d = Ok m → dm_segments m = (lineage h persisted).2 ++ [entry] →
  read_delta_segment_from_descriptor crc32 b' h' entry = Ok s →
  load_usable_delta_selection crc32 b' h' page0' = Ok (Use slot d, PersistedUse slot m, segments ++ [s]).
Proof using.
  intros St K G R Ed Eo Sd Gd Rm Es Rs. destruct (lineage_loaded _ _ _ _ _ _ _ St) as (L & Fp & _ & _ & Gen).
  subst d. apply (newest_wins crc32 b' h' e' page0' slot m (segments ++ [s])); [done| |].
  - split; [done|done|]. unfold load_delta_segments_from_manifest. rewrite Es. apply mapR_Forall2, Forall2_app; [|by constructor; [|constructor]].
    apply mapR_Forall2. by eapply load_segments_keeps.
  - rewrite Eo. destruct sel as [|w d'|]; [done| |done]. intros _. specialize (Gen w d' eq_refl). lia.
Qed.

Section pending.
Context (to_allocvec : Fact → result bytes) (from_bytes : bytes → result Fact).
Hypothesis codec_roundtrip : ∀ f bs, fact_ok f → to_allocvec f = Ok bs → from_bytes bs = Ok f.
Hypothesis codec_nonempty : ∀ f bs, to_allocvec f = Ok bs → bs ≠ [].

Lemma built_segment facts start last tx s : facts ≠ [] → Forall fact_ok facts → Forall (λ f, last < tx_count f ≤ tx) facts →
  0 ≤ start → start + Z.of_nat (length facts) < 2 ^ 63 → segment_from_facts to_allocvec facts start = Ok s →
  segment_ok s ∧ (sp_facts (DeltaSegment.payload s)).*2 = facts ∧ sh_fact_page_start (DeltaSegment.header s) = start ∧
  sh_low_tx_count (DeltaSegment.header s) ≤ sh_high_tx_count (DeltaSegment.header s) ∧
  last < sh_low_tx_count (DeltaSegment.header s) ∧ sh_high_tx_count (DeltaSegment.header s) ≤ tx.
Proof using codec_roundtrip codec_nonempty.
  intros Ne Fk Ft S0 S1 Es.
  assert (En : Forall (encodable to_allocvec) facts).
  { unfold segment_from_facts in Es. destruct facts as [|f facts]; [done|]. inv_ok. destruct x as [n refs]. inv_ok. destruct x as [pages refs']. by eapply pack_facts_encodable. }
  destruct (from_facts_ok to_allocvec from_bytes codec_roundtrip codec_nonempty facts start En Fk S0 S1) as (s' & E' & V & Ef & Hs & _).
  rewrite Es in E'. apply Ok_inj in E' as <-. split; [done|]. split; [done|]. split; [done|].
  assert (Nf : sp_facts (DeltaSegment.payload s) ≠ []) by (intros X; rewrite X in Ef; by subst).
  pose proof (so_tx s V) as Tx. symmetry in Tx. apply tx_range_spec in Tx as (F & Lo & Hi); [|done].
  assert (T : ∀ t, t ∈ (λ x, tx_count x.2) <$> sp_facts (DeltaSegment.payload s) → last < t ≤ tx ∧ sh_low_tx_count (DeltaSegment.header s) ≤ t).
  { intros t (x & -> & I)%list_elem_of_fmap. rewrite Forall_forall in Ft. rewrite Forall_forall in F. split; [apply Ft; rewrite <-Ef; by apply list_elem_of_fmap_2|]. by apply F. }
  destruct (T _ Lo), (T _ Hi). lia.
Qed.

(** One run: an opened file, newer facts, and the postcard bytes of the three values. *)
Section run.
Context (b : B) (h : FileHeader.t) (e : HeaderExtension.t) (page0 : bytes) (sel : HeaderManifestSlotSelection)
  (persisted : PersistedManifestSelection) (segments : list DeltaSegment.t) (pending : list Fact) (tx : Z) (s : DeltaSegment.t) (hb pb mb : bytes).
Hypothesis St : delta_state b h e page0 sel persisted segments.
Hypothesis pending_some : pending ≠ [].
Hypothesis pending_ok : Forall fact_ok pending.
Hypothesis pending_newer : Forall (λ f, FileHeader.last_checkpointed_tx_count h < tx_count f ≤ tx) pending.
Hypothesis tx_u64 : u64_ok tx.
Hypothesis segment_built : segment_from_facts to_allocvec pending (FileHeader.page_count h) = Ok s.
Hypothesis header_bytes : pc_header (DeltaSegment.header s) = Ok hb ∧ Z.of_nat (length hb) ≤ u32_MAX.
Hypothesis payload_bytes : pc_payload (DeltaSegment.payload s) = Ok pb ∧ Z.of_nat (length pb) ≤ u64_MAX.
Let bs := seal_frame crc32 DELTA_SEGMENT_COMMIT_MARKER (segment_body hb pb).
Let n := Z.of_nat (frame_page_count bs).
Let m := next_manifest h persisted tx (appended_entry h s n).
Hypothesis manifest_bytes : pc_manifest m = Ok mb ∧ Z.of_nat (length mb) ≤ u64_MAX.
Let ms := seal_frame crc32 DELTA_MANIFEST_COMMIT_MARKER (manifest_body mb).
Hypothesis pages_fit : FileHeader.page_count h + n + Z.of_nat (frame_page_count ms) < 2 ^ 52.
Hypothesis facts_fit : FileHeader.page_count h + Z.of_nat (length pending) < 2 ^ 63.
Hypothesis nodes_fit : FileHeader.node_count h + Z.of_nat (length pending) ≤ u64_MAX.

Lemma run_pages : 0 < FileHeader.page_count h.
Proof using St. exact (valid_pages h (st_header _ _ _ _ _ _ _ St) (st_validate _ _ _ _ _ _ _ St)). Qed.
Lemma run_count : 0 < n.
Proof using All.
  assert (Lb : (0 < length bs)%nat) by (unfold bs; rewrite seal_length by done; unfold TRAILER_LEN; lia).
  destruct (frame_page_count_spec bs Lb) as [_ Pn]. unfold n. lia.
Qed.
Lemma run_segment : segment_ok s ∧ (sp_facts (DeltaSegment.payload s)).*2 = pending ∧
  Forall (λ x, fact_ok x.2) (sp_facts (DeltaSegment.payload s)) ∧
  FileHeader.last_checkpointed_tx_count h < sh_low_tx_count (DeltaSegment.header s) ≤ sh_high_tx_count (DeltaSegment.header s) ∧
  sh_high_tx_count (DeltaSegment.header s) ≤ tx ∧ encode_segment crc32 s = Ok bs.
Proof using All.
  destruct (built_segment pending _ _ tx s pending_some pending_ok pending_newer (Z.lt_le_incl _ _ run_pages) facts_fit segment_built) as (V & Ef & _ & Hl & Hlast & Htx).
  split_and!; try done.
  - pose proof pending_ok as Fk. rewrite <-Ef in Fk. exact (proj1 (Forall_fmap snd _ _) Fk).
  - by apply encode_segment_ok; destruct header_bytes, payload_bytes.
Qed.
Lemma run_manifest : manifest_ok m ∧ dm_generation m = tx ∧ dm_high_tx_count m ≤ tx ∧ encode_manifest crc32 m = Ok ms.
Proof using All.
  destruct run_segment as (V & _ & _ & Hl & Htx & _). pose proof run_pages as Pp. pose proof run_count as Pn.
  pose proof (FileHeader.ok_last h (st_header _ _ _ _ _ _ _ St)) as U. unfold u64_ok in U.
  assert (Eo : listed_ok (appended_entry h s n)).
  { split; cbn [appended_entry ms_segment_page_start ms_segment_page_count ms_fact_page_start ms_fact_page_count ms_low_tx_count ms_high_tx_count];
      [lia|unfold u64_MAX; lia|apply (so_pages s V)|lia]. }
  pose proof (next_manifest_ok _ _ _ _ _ _ _ tx (appended_entry h s n) St Eo eq_refl (proj1 Hl)) as Mo. fold m in Mo. split_and!; [done| | |].
  - unfold m, next_manifest. cbn [dm_generation]. unfold next_generation, sat_add_u64, u64_MAX. unfold u64_ok in tx_u64. lia.
  - unfold m, next_manifest. cbn [dm_high_tx_count]. pose proof (st_used _ _ _ _ _ _ _ St) as Us. destruct persisted as [|slot m0|]; [cbn; lia| |done].
    destruct Us as (_ & Hi & Ne & _ & [_ Rg _ _]). cbn [lineage snd]. rewrite (range_snoc _ _ _ _ (eq_sym Rg) Ne). cbn [snd appended_entry ms_high_tx_count]. lia.
  - by apply encode_manifest_ok; destruct manifest_bytes.
Qed.

Lemma run_written : ∃ b1 b2 d, write_segment_pages crc32 b (FileHeader.page_count h) s = Ok (b1, n) ∧
  write_manifest_pages crc32 b1 (FileHeader.page_count h + n) m = Ok (b2, d) ∧ keeps_below (FileHeader.page_count h) b b2 ∧
  HeaderManifestSlot.ok d ∧ HeaderManifestSlot.is_selectable crc32 d = true ∧ HeaderManifestSlot.generation d = tx ∧
  HeaderManifestSlot.manifest_page_count d = Z.of_nat (frame_page_count ms) ∧
  HeaderManifestSlot.manifest_page_start d = FileHeader.page_count h + n ∧
  ∀ h', FileHeader.page_count h + n + Z.of_nat (frame_page_count ms) ≤ FileHeader.page_count h' →
    read_manifest_from_descriptor crc32 b2 h' d = Ok m ∧ read_delta_segment_from_descriptor crc32 b2 h' (appended_entry h s n) = Ok s.
Proof using All.
  destruct run_segment as (V & _ & Fs & Hl & Htx & Enc), run_manifest as (Mo & Gt & _ & Ems). pose proof run_pages as Pp. pose proof run_count as Pn.
  pose proof (FileHeader.ok_last h (st_header _ _ _ _ _ _ _ St)) as U. unfold u64_ok in U.
  destruct (segment_pages_ok crc32 s bs b (FileHeader.page_count h) Fs Enc Pp) as (_ & b1 & W1 & (z & R1) & K1); [fold n; lia|].
  destruct (manifest_pages_ok crc32 crc_u32 b1 m ms (FileHeader.page_count h + n) Ems) as (b2 & d & W2 & K2 & Od & Sd & Gd & Hds & Hdc & Rm);
    [lia|lia|by rewrite Gt|rewrite Gt; lia|].
  exists b1, b2, d. split_and!; [done|done| |done|done|by rewrite Gd|done|done|].
  - intros id page Hid Rp. apply K2; [lia|]. apply K1; [lia|lia|done].
  - intros h' Hh. split; [by apply Rm|]. apply (new_entry_reads b2 h h' s bs Fs Enc Pp); [fold n; lia|fold n; lia|].
    exists z. apply (read_frame_keeps _ (FileHeader.page_count h + n) b1 b2); [done|done|unfold n; lia|apply R1].
Qed.

(** The handler, given what its steps return. *)
Lemma run_saves b1 b2 d e' slot page0' :
  write_segment_pages crc32 b (FileHeader.page_count h) s = Ok (b1, n) → write_manifest_pages crc32 b1 (FileHeader.page_count h + n) m = Ok (b2, d) →
  HeaderManifestSlot.manifest_page_count d = Z.of_nat (frame_page_count ms) → build_next_manifest_extension crc32 h page0 sel d = Ok (e', slot) →
  let h' := with_header_checksum crc32 (advance_header h (FileHeader.page_count h + n + Z.of_nat (frame_page_count ms)) (FileHeader.node_count h + Z.of_nat (length pending)) tx) in
  build_header_page_with_extension h' e' = Ok page0' →
  prepare_delta_segment crc32 to_allocvec b page0 sel persisted (length segments) tx pending = Ok (Some (mkDeltaSave b2 h' page0' (Use slot d) (PersistedUse slot m) s)).
Proof using All.
  intros W1 W2 Hdc Ex h' Bp. destruct run_manifest as (Mo & _), (lineage_loaded _ _ _ _ _ _ _ St) as (_ & _ & Ll & _). pose proof run_count as Pn.
  assert (Body : ∀ i l, lineage h persisted = (i, l) →
    (segment ← segment_from_facts to_allocvec pending (FileHeader.page_count h);
     '(b, segment_page_count) ← write_segment_pages crc32 b (FileHeader.page_count h) segment;
     manifest_segment ← from_segment_header (FileHeader.page_count h) segment_page_count (DeltaSegment.header segment);
     manifest ← manifest_new (next_generation h tx) i (l ++ [manifest_segment]);
     manifest_page_start ← ok_or (checked_add_u64 (FileHeader.page_count h) segment_page_count) "Delta manifest page start overflow";
     '(b, descriptor) ← write_manifest_pages crc32 b manifest_page_start manifest;
     '(extension, slot) ← build_next_manifest_extension crc32 h page0 sel descriptor;
     next_page_count ← ok_or (checked_add_u64 manifest_page_start (HeaderManifestSlot.manifest_page_count descriptor)) "Delta checkpoint page count overflow";
     node_count ← ok_or (checked_add_u64 (FileHeader.node_count h) (Z.of_nat (length pending))) "node_count overflow";
     let h := with_header_checksum crc32 (advance_header h next_page_count node_count tx) in
     page0 ← build_header_page_with_extension h extension;
     Ok (Some (mkDeltaSave b h page0 (Use slot descriptor) (PersistedUse slot manifest) segment))) =
    Ok (Some (mkDeltaSave b2 h' page0' (Use slot d) (PersistedUse slot m) s))).
  { intros i l El. rewrite segment_built. cbn [mbind result_bind]. rewrite W1. cbn [mbind result_bind]. unfold from_segment_header.
    rewrite (proj2 (Z.eqb_neq _ _)) by lia. cbn [negb ensure mbind result_bind]. fold (appended_entry h s n).
    assert (manifest_new (next_generation h tx) i (l ++ [appended_entry h s n]) = Ok m) as ->.
    { unfold manifest_new, manifest_from_parts. destruct (segment_tx_range (l ++ [appended_entry h s n])) as [lo hi] eqn:T.
      assert (m = mkManifest DELTA_MANIFEST_CODEC_VERSION (next_generation h tx) i lo hi (l ++ [appended_entry h s n])) as Em
        by (unfold m, next_manifest; by rewrite El; cbn [fst snd]; rewrite T).
      rewrite <-Em. by rewrite (proj2 (validate_manifest_ok m)). }
    cbn [mbind result_bind]. rewrite (checked_add_le (FileHeader.page_count h) n) by (unfold u64_MAX; lia). cbn [ok_or mbind result_bind]. rewrite W2. cbn [mbind result_bind].
    rewrite Ex. cbn [mbind result_bind]. rewrite Hdc, (checked_add_le (FileHeader.page_count h + n)) by (unfold u64_MAX; lia). cbn [ok_or mbind result_bind].
    rewrite (checked_add_le (FileHeader.node_count h)) by done. cbn [ok_or mbind result_bind]. fold h'. by rewrite Bp. }
  unfold prepare_delta_segment. rewrite (st_page0 _ _ _ _ _ _ _ St). cbn [mbind result_bind]. rewrite (st_capable _ _ _ _ _ _ _ St). cbn [negb].
  pose proof (st_used _ _ _ _ _ _ _ St) as Us. destruct persisted as [|w m0|]; [| |done]; cbn [lineage snd] in *.
  - rewrite Ll. cbn [length Nat.eqb ensure mbind result_bind]. destruct pending as [|f l]; [done|]. by apply Body.
  - rewrite Ll, Nat.eqb_refl. cbn [ensure mbind result_bind]. destruct pending as [|f l]; [done|]. by apply Body.
Qed.

(** The new segment and manifest are on pages behind the published ones, and the page 0
    that publishes them opens, on any backend that still has these pages, to the old
    segments followed by the new one. *)
Lemma delta_segment_prepared :
  ∃ out e', prepare_delta_segment crc32 to_allocvec b page0 sel persisted (length segments) tx pending = Ok (Some out) ∧
    ds_segment out = s ∧ (sp_facts (DeltaSegment.payload s)).*2 = pending ∧ segment_ok s ∧
    keeps_below (FileHeader.page_count h) b (ds_backend out) ∧ FileHeader.last_checkpointed_tx_count (ds_header out) = tx ∧
    FileHeader.page_count h ≤ FileHeader.page_count (ds_header out) ∧
    length (ds_page0 out) = PAGE_SIZE ∧ FileHeader.from_bytes (ds_page0 out) = Ok (ds_header out) ∧
    ∀ b3, keeps_below (FileHeader.page_count (ds_header out)) (ds_backend out) b3 →
      delta_state b3 (ds_header out) e' (ds_page0 out) (ds_selection out) (ds_manifest_selection out) (segments ++ [s]).
Proof using All.
  destruct run_segment as (V & Ef & _ & Hl & Htx & _), run_manifest as (Mo & Gt & Mh & _), run_written as (b1 & b2 & d & W1 & W2 & K & Od & Sd & Gd & Hdc & Hds & Rd).
  pose proof run_pages as Pp. pose proof run_count as Pn. destruct (lineage_loaded _ _ _ _ _ _ _ St) as (L & Fp & Ll & Ns & Gen).
  pose proof (st_header _ _ _ _ _ _ _ St) as O. pose proof (st_capable _ _ _ _ _ _ _ St) as Ca. pose proof (st_read _ _ _ _ _ _ _ St) as Re.
  destruct (next_extension_ok h page0 e sel d Re (st_extension _ _ _ _ _ _ _ St) (st_projection _ _ _ _ _ _ _ St) Od Ns) as (e' & slot & Ex & Sl & So & Oe & Pe & Sto).
  set (pages := FileHeader.page_count h + n + Z.of_nat (frame_page_count ms)) in *.
  set (h' := with_header_checksum crc32 (advance_header h pages (FileHeader.node_count h + Z.of_nat (length pending)) tx)).
  destruct (advanced_header_ok h pages (FileHeader.node_count h + Z.of_nat (length pending)) tx O (st_validate _ _ _ _ _ _ _ St) Ca) as (O' & V' & C');
    [unfold pages; lia|unfold u64_ok; unfold pages in *; lia|pose proof (FileHeader.ok_node_count h O) as U; unfold u64_ok, u64_MAX in *; lia|done|]. fold h' in O', V', C'.
  destruct (page0_roundtrip crc32 crc_u32 h' e' O' Oe) as [Bi Br].
  destruct (proj2 Bi) as [page0' Bp]; [split_and!; [done| |apply Sto, St]|].
  { destruct (capable_roots h Ca) as [Vr _]. apply extension_format_some. exact Vr. }
  destruct (Br page0' Bp) as (Lp & Fb & Rx & _).
  exists (mkDeltaSave b2 h' page0' (Use slot d) (PersistedUse slot m) s), e'. split; [|split_and!; [done|done|done|exact K|done|cbn; unfold pages; lia|done|done|]].
  - by apply (run_saves b1 b2 d e' slot page0').
  - cbn [ds_backend ds_header ds_page0 ds_selection ds_manifest_selection]. intros b3 K3. destruct (Rd h' ltac:(reflexivity)) as [Rm Rs].
    apply (read_manifest_keeps crc32 b2 b3) in Rm; [|done|lia|lia].
    apply (read_segment_keeps crc32 b2 b3 h' h') in Rs; [|done|unfold grown; lia|cbn; lia|cbn; lia].
    assert (K' : keeps_below (FileHeader.page_count h) b b3).
    { intros id page Hid Rp. apply K3; [cbn; unfold pages; lia|]. by apply K. }
    assert (G : grown h h') by (unfold grown, pages in *; cbn; lia).
    split; try done; [apply Sto, St| |].
    + apply (published_loads b b3 h h' e e' page0 page0' sel persisted segments slot d m (appended_entry h s n) s); (done || (rewrite Gd; lia) || idtac).
    + rewrite Sl, Gd. split_and!; [done|exact Mh|unfold m, next_manifest; cbn; by destruct (lineage h persisted).2| |done].
      unfold m, next_manifest. cbn [dm_segments]. apply Forall_app. split; [done|]. constructor; [cbn; lia|constructor].
Qed.
End run.
End pending.
End checkpoint.

(** A manifest that decodes is a lineage: each segment starts after the base's pages and
    after its transactions, its transactions and pages come after those of all segments
    before it, and the manifest's own transaction range covers them all. *)
Theorem decoded_manifest_ordered (crc32 : bytes → Z) `{ManifestPostcard} bs m : decode_manifest crc32 bs = Ok m → Forall entry_u64 (dm_segments m) →
  StronglySorted (λ a b, ms_high_tx_count a < ms_low_tx_count b ∧ ms_segment_page_start a + ms_segment_page_count a ≤ ms_segment_page_start b) (dm_segments m) ∧
  Forall (λ s, bi_page_count (dm_base_identity m) ≤ ms_segment_page_start s ∧ bi_checkpoint_tx_count (dm_base_identity m) < ms_low_tx_count s ∧
               dm_low_tx_count m ≤ ms_low_tx_count s ∧ ms_low_tx_count s ≤ ms_high_tx_count s ∧ ms_high_tx_count s ≤ dm_high_tx_count m) (dm_segments m).
Proof.
  intros E U. assert (V : manifest_ok m).
  { unfold decode_manifest in E. inv_ok. match goal with H : validate_manifest _ = Ok ?u |- _ => destruct u; by apply validate_manifest_ok in H end. }
  destruct V as [_ R Bo C]. split; [by apply (chain_sorted _ None)|]. symmetry in R. apply segment_range_spec in R. rewrite !Forall_forall in *.
  intros s I. destruct (R s I). assert (listed_ok s) as [_ _ _ ?] by (by eapply chain_entries).
  destruct Bo as [_ _ Be Tx]; [intros X; by rewrite X in I; apply not_elem_of_nil in I|]. rewrite Forall_forall in Be. specialize (Be s I). split_and!; lia.
Qed.

(** * Witnesses *)

#[export] Instance DeltaManifestSegment_eq_dec : EqDecision DeltaManifestSegment.
Proof. solve_decision. Defined.
#[export] Instance DeltaBaseIdentity_eq_dec : EqDecision DeltaBaseIdentity.
Proof. solve_decision. Defined.
#[export] Instance DeltaManifest_eq_dec : EqDecision DeltaManifest.
Proof. solve_decision. Defined.

(** A file with a base of six pages and nothing behind it. *)
Definition lineage_header : FileHeader.t :=
  FileHeader.mk MAGIC_NUMBER 12 7 0 0 2 3 4 5 0 FACT_PAGE_FORMAT_PACKED [z2b 0; z2b 0; z2b 0] 1 0.
Definition lineage_extension : HeaderExtension.t := HeaderExtension.empty Wal.demo_crc.
Definition lineage_page0 : bytes := match build_header_page_with_extension lineage_header lineage_extension with Ok p => p | Err _ => [] end.
Definition lineage_entry : DeltaManifestSegment := appended_entry lineage_header demo_segment 1.
Definition lineage_manifest : DeltaManifest := next_manifest lineage_header PersistedNone 2 lineage_entry.
#[global] Instance demo_manifest_postcard : ManifestPostcard := {| pc_manifest := one_value lineage_manifest; pc_read_manifest := read_value lineage_manifest |}.
#[global] Instance demo_manifest_postcard_laws : ManifestPostcardLaws.
Proof. split. intros m bs. apply one_value_inverts. Qed.

Lemma lineage_projections : projections_valid Wal.demo_crc lineage_extension.
Proof.
  intros s I. left. assert (s = ProjectionCatalogSlot.empty) as ->; [|reflexivity].
  apply elem_of_cons in I as [E|[E|I]%elem_of_cons]; [exact E|exact E|]. by apply not_elem_of_nil in I.
Qed.
Lemma lineage_state (b : MemoryBackend.t) : delta_state Wal.demo_crc b lineage_header lineage_extension lineage_page0 NoDeltaManifest PersistedNone [].
Proof.
  assert (O : FileHeader.ok lineage_header) by (split; cbn; unfold FACT_PAGE_FORMAT_PACKED; try done; ilia).
  assert (Oe : extension_ok Wal.demo_crc lineage_extension) by (apply extension_new_ok; apply empty_slot_ok).
  assert (Bp : build_header_page_with_extension lineage_header lineage_extension = Ok lineage_page0) by (vm_compute; reflexivity).
  destruct (page0_roundtrip Wal.demo_crc demo_crc_u32 lineage_header lineage_extension O Oe) as [_ R]. destruct (R _ Bp) as (_ & Fb & Rx & _).
  split; [exact O|vm_compute; reflexivity|vm_compute; reflexivity|exact Fb|exact Rx|exact Oe| | | |exact I].
  - split; [|intros _; split]; reflexivity.
  - exact lineage_projections.
  - unfold load_usable_delta_selection. rewrite Rx. vm_compute. reflexivity.
Qed.

Definition lineage_bytes : bytes := match encode_manifest Wal.demo_crc lineage_manifest with Ok bs => bs | Err _ => [] end.
Lemma decoded_manifest_ordered_witness :
  decode_manifest Wal.demo_crc lineage_bytes = Ok lineage_manifest ∧
  Forall (λ s, 7 ≤ ms_segment_page_start s ∧ 0 < ms_low_tx_count s) (dm_segments lineage_manifest).
Proof.
  assert (D : decode_manifest Wal.demo_crc lineage_bytes = Ok lineage_manifest) by (vm_compute; reflexivity). split; [exact D|].
  destruct (decoded_manifest_ordered Wal.demo_crc _ _ D) as [_ F].
  - apply Forall_forall. intros s I. apply list_elem_of_singleton in I as ->. vm_compute. split_and!; discriminate.
  - eapply Forall_impl; [exact F|]. intros s (P & Q & _). split; [exact P|exact Q].
Defined.

(** The same file with a projection slot whose checksum is wrong: the checkpoint fails. *)
Definition damaged_extension : HeaderExtension.t :=
  HeaderExtension.mk (HeaderExtension.primary lineage_extension) (HeaderExtension.secondary lineage_extension)
    (HeaderExtension.base_fact_page_start lineage_extension) (HeaderExtension.base_layout_checksum lineage_extension)
    (HeaderExtension.base_integrity lineage_extension) (ProjectionCatalogSlot.mk 1 9 1 10 0 77) ProjectionCatalogSlot.empty.
Definition damaged_header : FileHeader.t :=
  FileHeader.mk MAGIC_NUMBER 13 7 0 0 2 3 4 5 0 FACT_PAGE_FORMAT_PACKED [z2b 0; z2b 0; z2b 0] 1 0.
Definition damaged_page0 : bytes := match build_header_page_with_extension damaged_header damaged_extension with Ok p => p | Err _ => [] end.
Example damaged_projection_blocks_checkpoint :
  load_usable_delta_selection Wal.demo_crc MemoryBackend.new damaged_header damaged_page0 = Ok (NoDeltaManifest, PersistedNone, []) ∧
  prepare_delta_segment Wal.demo_crc demo_encode MemoryBackend.new damaged_page0 NoDeltaManifest PersistedNone 0 2 demo_facts =
    Err "Projection catalog slot is invalid".
Proof. split; vm_compute; reflexivity. Qed.
