(* ===== verification/DeltaIndex.v ===== *)
(** The layered index reader (src/src/storage/delta_index.rs): resident delta
    entries over the base indexes on disk, collected from the segments of the file
    (src/src/storage/persistent_facts.rs).

    [KeyedIndexReader] is the trait the base implements, with the laws
    [ServesKeyed]; the layered reader is proved against them and keeps
    [ServesIndex] for the rows of both layers.  A [BTreeMap] is the ascending list
    of its entries; the lock around the delta is held for one operation.  A
    visitor closure with the delta iterator inside is a visitor whose state
    carries the entries not yet handed out. *)
From S2P Require Import Prelude Types ValueCodec NetView Index FactStore Lookup CurrentState MergeScan IndexScan Cursors EntityCursors RefsCursor BTreePages BTreeScan BTreeBuild Backends PageIntegrity BTreeIndex IndexOrder DeltaSegment.

Record KeyedIndexReader : Type := {
  kx_eavt_entries : EavtKey → option EavtKey → result (list (EavtKey * FactRef));
  kx_visit_eavt : ∀ S : Type, EavtKey → option EavtKey →
    (S → CurrentEavtEntryRef.t * FactRef → result (S * bool)) → S → result (S * bool);
  kx_aevt_entries : AevtKey → option AevtKey → result (list (AevtKey * FactRef));
  kx_visit_aevt_entries : ∀ S : Type, AevtKey → option AevtKey →
    (S → AevtKey * FactRef → result (S * bool)) → S → result (S * bool);
  kx_visit_aevt : ∀ S : Type, AevtKey → option AevtKey →
    (S → CurrentAevtEntryRef.t * FactRef → result (S * bool)) → S → result (S * bool);
  kx_avet_entries : AvetKey → option AvetKey → result (list (AvetKey * FactRef));
  kx_vaet_entries : VaetKey → option VaetKey → result (list (VaetKey * FactRef));
  kx_visit_vaet : ∀ S : Type, VaetKey → option VaetKey →
    (S → CurrentVaetEntryRef.t * FactRef → result (S * bool)) → S → result (S * bool);
}.
Arguments kx_visit_eavt _ {S}.
Arguments kx_visit_aevt_entries _ {S}.
Arguments kx_visit_aevt _ {S}.
Arguments kx_visit_vaet _ {S}.

(** What the base promises: its scans are the ranges of the indexes of its rows. *)
Class ServesKeyed (kx : KeyedIndexReader) (rows : list (Fact * FactRef)) : Prop := {
  keyed_eavt start stop : kx_eavt_entries kx start stop = Ok (bt_from start stop (eavt (indexes_of rows)));
  keyed_visit_eavt S start stop (visit : S → _ → result (S * bool)) x : kx_visit_eavt kx start stop visit x =
    visitR visit x (prod_map CurrentEavtEntryRef.from_owned id <$> bt_from start stop (eavt (indexes_of rows)));
  keyed_aevt start stop : kx_aevt_entries kx start stop = Ok (bt_from start stop (aevt (indexes_of rows)));
  keyed_visit_aevt_entries S start stop (visit : S → _ → result (S * bool)) x :
    kx_visit_aevt_entries kx start stop visit x = visitR visit x (bt_from start stop (aevt (indexes_of rows)));
  keyed_visit_aevt S start stop (visit : S → _ → result (S * bool)) x : kx_visit_aevt kx start stop visit x =
    visitR visit x (prod_map CurrentAevtEntryRef.from_owned id <$> bt_from start stop (aevt (indexes_of rows)));
  keyed_avet start stop : kx_avet_entries kx start stop = Ok (bt_from start stop (avet (indexes_of rows)));
  keyed_vaet start stop : kx_vaet_entries kx start stop = Ok (bt_from start stop (vaet (indexes_of rows)));
  keyed_visit_vaet S start stop (visit : S → _ → result (S * bool)) x : kx_visit_vaet kx start stop visit x =
    visitR visit x (prod_map CurrentVaetEntryRef.from_owned id <$> bt_from start stop (vaet (indexes_of rows)));
}.

(** * Delta entries *)

Definition DeltaIndexEntries : Type := Indexes.
Definition delta_new : DeltaIndexEntries := indexes_new.
(** [BTreeMap::extend]. *)
Definition extend_map {K} `{Ord K} (m es : list (K * FactRef)) : list (K * FactRef) :=
  foldl (λ m e, bt_insert e.1 e.2 m) m es.
Definition extend_from_entries (d : DeltaIndexEntries) (es ea : _) (ev : _) (er : _) : DeltaIndexEntries := {|
  eavt := extend_map (eavt d) es; aevt := extend_map (aevt d) ea;
  avet := extend_map (avet d) ev; vaet := extend_map (vaet d) er |}.
Definition delta_from_entries es ea ev er : DeltaIndexEntries := extend_from_entries delta_new es ea ev er.

(** [wire_committed_readers] and [append_resident_delta_segment], their part for the
    indexes. *)
Definition wire_delta_indexes (segments : list DeltaSegment.t) : DeltaIndexEntries :=
  let payloads := DeltaSegment.payload <$> segments in
  delta_from_entries (concat (sp_eavt <$> payloads)) (concat (sp_aevt <$> payloads)) (concat (sp_avet <$> payloads)) (concat (sp_vaet <$> payloads)).
Definition append_resident_delta_segment (d : DeltaIndexEntries) (s : DeltaSegment.t) : DeltaIndexEntries :=
  let p := DeltaSegment.payload s in
  extend_from_entries d (sp_eavt p) (sp_aevt p) (sp_avet p) (sp_vaet p).

Definition RANGE_PANIC : string := "panic: range start is greater than range end in BTreeMap".
(** [BTreeMap::range] panics on a range whose start is behind its end, unless the
    map is empty. *)
Definition range_delta_entries {K} `{Ord K} (entries : list (K * FactRef)) (start : K) (stop : option K)
    : result (list (K * FactRef)) :=
  match stop, entries with
  | Some k, _ :: _ => _ ← ensure (negb (ltb_ord k start)) RANGE_PANIC; Ok (bt_from start stop entries)
  | _, _ => Ok (bt_from start stop entries)
  end.

(** The entry of the base goes first when its key is not greater. *)
Definition merge_keyed {K} `{Ord K} (base delta : list (K * FactRef)) : list (K * FactRef) :=
  list_merge (λ x y, le_ord x.1 y.1) base delta.
Definition merge_entry_refs {K} `{Ord K} (base delta : list (K * FactRef)) : list FactRef :=
  snd <$> merge_keyed base delta.

(** * Visiting both layers *)

Section interleave.
Context {K E S : Type} (from_owned : K → E) (greater : E → K → bool).
Context (visit : S → E * FactRef → result (S * bool)).

(** The [while] loop of the closure: delta entries before the base entry. *)
Fixpoint drain_delta (base_entry : E) (delta : list (K * FactRef)) (s : S) : result (list (K * FactRef) * S * bool) :=
  match delta with
  | (key, fact_ref) :: rest =>
    if greater base_entry key then
      '(s, continue) ← visit s (from_owned key, fact_ref);
      if continue : bool then drain_delta base_entry rest s else Ok (rest, s, false)
    else Ok (delta, s, true)
  | [] => Ok ([], s, true)
  end.
Definition interleave (st : list (K * FactRef) * S) (base : E * FactRef) : result ((list (K * FactRef) * S) * bool) :=
  '(delta, s, continue) ← drain_delta base.1 st.1 st.2;
  if continue : bool then '(s, continue) ← visit s base; Ok ((delta, s), continue)
  else Ok ((delta, s), false).
(** After the base: the rest of the delta, unless the visitor stopped. *)
Definition finish_delta (r : result ((list (K * FactRef) * S) * bool)) : result (S * bool) :=
  '((delta, s), base_complete) ← r;
  if base_complete : bool then visitR visit s (prod_map from_owned id <$> delta) else Ok (s, false).
End interleave.

Record LayeredIndexReader : Type := mkLayeredIndex { layer_base : KeyedIndexReader; layer_delta : DeltaIndexEntries }.
Definition layered_new (base : KeyedIndexReader) (delta : DeltaIndexEntries) : LayeredIndexReader := mkLayeredIndex base delta.

Section Layered.
Context (r : LayeredIndexReader).

Definition layered_scan {K} `{Ord K} (scan : K → option K → result (list (K * FactRef))) (entries : list (K * FactRef))
    (start : K) (stop : option K) : result (list FactRef) :=
  base ← scan start stop;
  delta ← range_delta_entries entries start stop;
  Ok (merge_entry_refs base delta).
Definition layered_range_scan_avet : AvetKey → option AvetKey → result (list FactRef) :=
  layered_scan (kx_avet_entries (layer_base r)) (avet (layer_delta r)).
(** [visit_aevt_entries]: by whole keys. *)
Definition layered_visit_aevt_entries {S} (start : AevtKey) (stop : option AevtKey)
    (visit : S → AevtKey * FactRef → result (S * bool)) (x : S) : result (S * bool) :=
  delta ← range_delta_entries (aevt (layer_delta r)) start stop;
  finish_delta id visit (kx_visit_aevt_entries (layer_base r) start stop
    (interleave id (λ base_key delta_key, ltb_ord delta_key base_key) visit) (delta, x)).

Definition layered_index_reader : CommittedIndexReader := {|
  ix_range_scan_eavt := layered_scan (kx_eavt_entries (layer_base r)) (eavt (layer_delta r));
  ix_visit_eavt S start stop visit x :=
    delta ← range_delta_entries (eavt (layer_delta r)) start stop;
    finish_delta CurrentEavtEntryRef.from_owned visit (kx_visit_eavt (layer_base r) start stop
      (interleave CurrentEavtEntryRef.from_owned (λ e k, is_gt (CurrentEavtEntryRef.cmp_owned e k)) visit) (delta, x));
  ix_range_scan_aevt := layered_scan (kx_aevt_entries (layer_base r)) (aevt (layer_delta r));
  ix_visit_aevt S start stop visit x :=
    delta ← range_delta_entries (aevt (layer_delta r)) start stop;
    finish_delta CurrentAevtEntryRef.from_owned visit (kx_visit_aevt (layer_base r) start stop
      (interleave CurrentAevtEntryRef.from_owned (λ e k, is_gt (CurrentAevtEntryRef.cmp_owned_suffix e k)) visit) (delta, x));
  ix_range_scan_vaet := layered_scan (kx_vaet_entries (layer_base r)) (vaet (layer_delta r));
  ix_visit_vaet S start stop visit x :=
    delta ← range_delta_entries (vaet (layer_delta r)) start stop;
    finish_delta CurrentVaetEntryRef.from_owned visit (kx_visit_vaet (layer_base r) start stop
      (interleave CurrentVaetEntryRef.from_owned (λ e k, is_gt (CurrentVaetEntryRef.cmp_owned e k)) visit) (delta, x));
|}.
End Layered.

(** * Interleaving is merging *)

Section weave.
Context {K E S : Type} (from_owned : K → E) (greater : E → K → bool).

(** The entries in the order the visitor sees them. *)
Fixpoint split_delta (base_entry : E) (delta : list (K * FactRef)) : list (K * FactRef) * list (K * FactRef) :=
  match delta with
  | e :: rest => if greater base_entry e.1 then let '(b, a) := split_delta base_entry rest in (e :: b, a) else ([], delta)
  | [] => ([], [])
  end.
Fixpoint weave (base delta : list (K * FactRef)) : list (K * FactRef) :=
  match base with
  | [] => delta
  | b :: base => let '(first, rest) := split_delta (from_owned b.1) delta in first ++ b :: weave base rest
  end.

Lemma split_delta_app e delta : (split_delta e delta).1 ++ (split_delta e delta).2 = delta.
Proof.
  induction delta as [|d delta IH]; [done|]. cbn. destruct (greater e d.1); [|done]. destruct (split_delta e delta). cbn in *. by rewrite IH.
Qed.
Lemma weave_perm base : ∀ delta, weave base delta ≡ₚ base ++ delta.
Proof.
  induction base as [|b base IH]; intros delta; [done|]. cbn. pose proof (split_delta_app (from_owned b.1) delta) as A.
  destruct (split_delta (from_owned b.1) delta) as [first rest]. cbn in A. rewrite IH, <-A.
  rewrite <-Permutation_middle. constructor. rewrite !app_assoc. f_equiv. apply Permutation_app_comm.
Qed.

Context (visit : S → E * FactRef → result (S * bool)).
Lemma drain_split e : ∀ delta s,
  match visitR visit s (prod_map from_owned id <$> (split_delta e delta).1) with
  | Ok (s', true) => drain_delta from_owned greater visit e delta s = Ok ((split_delta e delta).2, s', true)
  | Ok (s', false) => ∃ d, drain_delta from_owned greater visit e delta s = Ok (d, s', false)
  | Err x => drain_delta from_owned greater visit e delta s = Err x
  end.
Proof.
  induction delta as [|[k r] delta IH]; intros s; [done|]. cbn [drain_delta split_delta fst]. destruct (greater e k); [|done].
  destruct (split_delta e delta) as [b a] eqn:B. cbn [fst snd fmap list_fmap visitR prod_map id].
  change (prod_map from_owned id (k, r)) with (from_owned k, r).
  destruct (visit s (from_owned k, r)) as [[s1 [] ]|x]; cbn [mbind result_bind]; [|eauto|done]. exact (IH s1).
Qed.
Lemma weave_visit base : ∀ delta s,
  finish_delta from_owned visit (visitR (interleave from_owned greater visit) (delta, s) (prod_map from_owned id <$> base)) =
  visitR visit s (prod_map from_owned id <$> weave base delta).
Proof.
  induction base as [|b base IH]; intros delta s; [done|]. cbn [fmap list_fmap visitR weave].
  change (interleave from_owned greater visit (delta, s) (prod_map from_owned id b)) with
    ('(delta, s, continue) ← drain_delta from_owned greater visit (from_owned b.1) delta s;
     if continue : bool then '(s, continue) ← visit s (prod_map from_owned id b); Ok ((delta, s), continue) else Ok ((delta, s), false)).
  pose proof (drain_split (from_owned b.1) delta s) as D.
  destruct (split_delta (from_owned b.1) delta) as [first rest]. cbn [fst snd] in D. rewrite fmap_app, visitR_app.
  destruct (visitR visit s (prod_map from_owned id <$> first)) as [[s1 [] ]|x]; [|destruct D as [d D]|]; rewrite D; cbn [mbind result_bind]; [|done|done].
  cbn [fmap list_fmap visitR]. destruct (visit s1 (prod_map from_owned id b)) as [[s2 [] ]|x]; cbn [mbind result_bind]; [|done|done].
  apply IH.
Qed.
End weave.

(** Interleaving by a comparison that agrees with the keys is merging by them. *)
Lemma weave_merge {K E} `{OrdLaws K} (from_owned : K → E) greater base : ∀ delta : list (K * FactRef),
  (∀ b d, b ∈ base → d ∈ delta → greater (from_owned b.1) d.1 = ltb_ord d.1 b.1) →
  weave from_owned greater base delta = merge_keyed base delta.
Proof.
  unfold merge_keyed. induction base as [|b base IH]; intros delta G; [by destruct delta|]. cbn [weave].
  induction delta as [|d delta IHd]; [cbn; f_equal; rewrite IH; [by destruct base|set_solver]|].
  rewrite list_merge_cons. cbn [split_delta]. rewrite (G b d) by set_solver. unfold ltb_ord.
  destruct (decide (le_ord b.1 d.1)) as [L|L].
  - assert (match cmp d.1 b.1 with Lt => true | _ => false end = false) as ->.
    { unfold le_ord in L. rewrite (cmp_opp b.1 d.1). by destruct (cmp b.1 d.1). }
    cbn [app]. f_equal. apply IH. set_solver.
  - assert (match cmp d.1 b.1 with Lt => true | _ => false end = true) as ->.
    { unfold le_ord in L. rewrite (cmp_opp b.1 d.1). destruct (cmp b.1 d.1); [exfalso; by apply L|exfalso; by apply L|done]. }
    specialize (IHd ltac:(set_solver)). destruct (split_delta _ _ delta) as [first rest]. cbn [app]. f_equal. exact IHd.
Qed.

(** * The merge of two indexes is the index of both *)

Lemma bt_from_ascending {K} `{OrdLaws K} start stop (m : list (K * FactRef)) : strictly_ascending m → strictly_ascending (bt_from start stop m).
Proof. apply StronglySorted_filter_bool. Qed.
Lemma strict_sorted {K} `{OrdLaws K} (m : list (K * FactRef)) : strictly_ascending m → Sorted (λ x y, le_ord x.1 y.1) m.
Proof.
  intros A. apply StronglySorted_Sorted. eapply StronglySorted_weaken; [|exact A]. intros x y _ _ E. unfold le_ord. by rewrite E.
Qed.
Lemma ascending_keys {K} `{OrdLaws K} (m : list (K * FactRef)) : strictly_ascending m → NoDup m.*1.
Proof.
  induction 1 as [|x m A IH F]; [constructor|]. cbn. constructor; [|done]. intros (y & E & Y)%list_elem_of_fmap.
  rewrite Forall_forall in F. specialize (F y Y). cbn in F. rewrite E, cmp_refl in F. done.
Qed.
Lemma index_perm {K} `{OrdLaws K} (kf : Fact → K) rows : NoDup (kf <$> rows.*1) →
  strictly_ascending (index_of kf rows) ∧ index_of kf rows ≡ₚ prod_map kf id <$> rows.
Proof.
  intros N. destruct (bt_build (prod_map kf id <$> rows)) as [A P]. split; [done|]. apply P.
  rewrite <-list_fmap_compose. rewrite <-list_fmap_compose in N. done.
Qed.
Lemma merged_index {K} `{OrdLaws K} (kf : Fact → K) rows1 rows2 start stop : NoDup (kf <$> (rows1 ++ rows2).*1) →
  merge_keyed (bt_from start stop (index_of kf rows1)) (bt_from start stop (index_of kf rows2)) =
  bt_from start stop (index_of kf (rows1 ++ rows2)).
Proof.
  intros N. pose proof N as N'. rewrite fmap_app, fmap_app in N'. apply NoDup_app in N' as (N1 & _ & N2).
  destruct (index_perm kf rows1 N1) as [A1 P1], (index_perm kf rows2 N2) as [A2 P2], (index_perm kf _ N) as [A P].
  set (R := λ x y : K * FactRef, le_ord x.1 y.1).
  assert (Pm : merge_keyed (bt_from start stop (index_of kf rows1)) (bt_from start stop (index_of kf rows2)) ≡ₚ
               bt_from start stop (index_of kf (rows1 ++ rows2))).
  { etrans; [apply merge_Permutation|]. unfold bt_from. rewrite <-List.filter_app.
    apply List_filter_perm. by rewrite P, P1, P2, fmap_app. }
  apply ascending_unique; [|by apply bt_from_ascending|done].
  apply (sort_strict fst (bt_from start stop (index_of kf (rows1 ++ rows2)))); [done| |by apply ascending_keys, bt_from_ascending].
  apply Sorted_StronglySorted; [intros x y z; apply transitivity|].
  apply Sorted_list_merge; [intros x y; apply (total le_ord x.1)|by apply strict_sorted, bt_from_ascending..].
Qed.
Lemma range_ok {K} `{OrdLaws K} (m : list (K * FactRef)) start stop : ordered_range start stop →
  range_delta_entries m start stop = Ok (bt_from start stop m).
Proof.
  intros O. unfold range_delta_entries. destruct stop as [k|], m as [|e m]; try done. cbn in O. unfold ltb_ord.
  rewrite (cmp_opp start k). unfold le_ord in O. by destruct (cmp start k).
Qed.

Lemma behind_panics {K} `{OrdLaws K} (m : list (K * FactRef)) start stop : cmp stop start = Lt → m ≠ [] →
  range_delta_entries m start (Some stop) = Err RANGE_PANIC.
Proof. intros L N. unfold range_delta_entries. destruct m as [|e m]; [done|]. unfold ltb_ord. by rewrite L. Qed.

(** ** Extending the delta *)

Lemma extend_index {K} `{OrdLaws K} (kf : Fact → K) rows1 rows2 : NoDup (kf <$> (rows1 ++ rows2).*1) →
  extend_map (index_of kf rows1) (index_of kf rows2) = index_of kf (rows1 ++ rows2).
Proof.
  intros N. pose proof N as N'. rewrite fmap_app, fmap_app in N'. apply NoDup_app in N' as (N1 & _ & N2).
  destruct (index_perm kf rows2 N2) as [A2 P2], (index_perm kf _ N) as [A P].
  unfold extend_map. unfold index_of at 1. rewrite <-foldl_app.
  destruct (bt_build ((prod_map kf id <$> rows1) ++ index_of kf rows2)) as [A' P'].
  apply ascending_unique; [exact A'|exact A|]. rewrite P'; [by rewrite P, P2, fmap_app|].
  rewrite fmap_app, P2, <-fmap_app, <-fmap_app, <-list_fmap_compose. rewrite <-list_fmap_compose in N. done.
Qed.

Lemma all_keys rows : NoDup (eavt_key_of <$> rows.*1) →
  NoDup (aevt_key_of <$> rows.*1) ∧ NoDup (avet_key_of <$> rows.*1) ∧ NoDup (vaet_key <$> (ref_rows rows).*1).
Proof.
  intros N. assert (L : length rows.*2 = length rows.*1) by by rewrite !length_fmap.
  pose proof (aevt_keys rows.*1 rows.*2 L N) as A. pose proof (avet_keys rows.*1 rows.*2 L N) as V.
  pose proof (vaet_keys rows.*1 rows.*2 L N) as R. rewrite !zip_fst_snd in *. done.
Qed.
Lemma index_parts rows : indexes_of rows =
  {| eavt := index_of eavt_key_of rows; aevt := index_of aevt_key_of rows; avet := index_of avet_key_of rows;
     vaet := index_of vaet_key (ref_rows rows) |}.
Proof. by rewrite <-vaet_index, indexes_of_parts. Qed.
Lemma eavt_inhabited rows more : NoDup (eavt_key_of <$> (rows ++ more).*1) → rows ≠ [] → eavt (indexes_of (rows ++ more)) ≠ [].
Proof.
  intros N Ne E. rewrite index_parts in E. cbn [eavt] in E. destruct (index_perm eavt_key_of _ N) as [_ P]. rewrite E in P.
  apply Permutation_nil_l in P. by destruct rows.
Qed.
Lemma ref_rows_app l k : ref_rows (l ++ k) = ref_rows l ++ ref_rows k.
Proof. apply List.filter_app. Qed.

Section serves.
Context (base : KeyedIndexReader) (rows drows : list (Fact * FactRef)).
Context `{Sb : !ServesKeyed base rows}.
Hypothesis distinct : NoDup (eavt_key_of <$> (rows ++ drows).*1).

Lemma vaet_distinct : NoDup (vaet_key <$> (ref_rows rows ++ ref_rows drows).*1).
Proof using distinct. rewrite <-ref_rows_app. by apply all_keys. Qed.

Lemma scan_ok {K} `{OrdLaws K} (kf : Fact → K) R1 R2 scan start stop : NoDup (kf <$> (R1 ++ R2).*1) → ordered_range start stop →
  scan start stop = Ok (bt_from start stop (index_of kf R1)) →
  layered_scan scan (index_of kf R2) start stop = Ok (snd <$> bt_from start stop (index_of kf (R1 ++ R2))).
Proof using.
  intros N O E. unfold layered_scan, merge_entry_refs. rewrite E, range_ok by done. cbn [mbind result_bind]. by rewrite merged_index.
Qed.
Lemma visit_ok {K E S} `{OrdLaws K} (kf : Fact → K) R1 R2 (from_owned : K → E) greater start stop
    (visit : S → E * FactRef → result (S * bool)) x base_visit : NoDup (kf <$> (R1 ++ R2).*1) → ordered_range start stop →
  (∀ b d, b ∈ bt_from start stop (index_of kf R1) → d ∈ bt_from start stop (index_of kf R2) →
     greater (from_owned b.1) d.1 = ltb_ord d.1 b.1) →
  (∀ T (v : T → E * FactRef → result (T * bool)) t, base_visit T v t = visitR v t (prod_map from_owned id <$> bt_from start stop (index_of kf R1))) →
  (delta ← range_delta_entries (index_of kf R2) start stop;
   finish_delta from_owned visit (base_visit _ (interleave from_owned greater visit) (delta, x))) =
  visitR visit x (prod_map from_owned id <$> bt_from start stop (index_of kf (R1 ++ R2))).
Proof using.
  intros N O G B. rewrite range_ok by done. cbn [mbind result_bind]. rewrite B, weave_visit, weave_merge by done. by rewrite merged_index.
Qed.
Lemma gt_flip {K} `{OrdLaws K} (a b : K) : is_gt (cmp a b) = ltb_ord b a.
Proof using. unfold ltb_ord. rewrite (cmp_opp a b). by destruct (cmp a b). Qed.

Lemma layered_index_serves : ServesIndex (layered_index_reader (mkLayeredIndex base (indexes_of drows))) (rows ++ drows).
Proof using Sb distinct.
  destruct (all_keys _ distinct) as (Na & _ & _). pose proof vaet_distinct as Nv.
  split; cbn [layered_index_reader ix_range_scan_eavt ix_visit_eavt ix_range_scan_aevt ix_visit_aevt ix_range_scan_vaet ix_visit_vaet layer_base layer_delta].
  - intros start stop O. pose proof (keyed_eavt (rows := rows) start stop) as Kb. rewrite !index_parts in *. cbn [eavt] in *. by apply scan_ok.
  - intros S start stop visit x O. pose proof (λ S, keyed_visit_eavt (rows := rows) S start stop) as Kb. rewrite !index_parts in *. cbn [eavt] in *.
    apply (visit_ok eavt_key_of rows drows _ _ start stop visit x (λ T v t, kx_visit_eavt base start stop v t)); [done|done| |done].
    intros b d _ _. exact (gt_flip b.1 d.1).
  - intros start stop O. pose proof (keyed_aevt (rows := rows) start stop) as Kb. rewrite !index_parts in *. cbn [aevt] in *. by apply scan_ok.
  - intros start stop O. rewrite !index_parts. cbn [aevt].
    exists (weave CurrentAevtEntryRef.from_owned (λ e k, is_gt (CurrentAevtEntryRef.cmp_owned_suffix e k))
              (bt_from start stop (index_of aevt_key_of rows)) (bt_from start stop (index_of aevt_key_of drows))).
    split_and!.
    + rewrite weave_perm. rewrite <-(merged_index aevt_key_of) by done. symmetry. apply merge_Permutation.
    + intros One. rewrite weave_merge; [by apply merged_index|]. intros b d Ib Id.
      rewrite <-gt_flip. f_equal. apply aevt_suffix_cmp. apply One; rewrite weave_perm, elem_of_app; auto.
    + intros S visit x. pose proof (λ S, keyed_visit_aevt (rows := rows) S start stop) as Kb. rewrite index_parts in Kb. cbn [aevt] in Kb.
      rewrite range_ok by done. cbn [mbind result_bind]. rewrite Kb. apply weave_visit.
  - intros start stop O. pose proof (keyed_vaet (rows := rows) start stop) as Kb. rewrite !index_parts in *. cbn [vaet] in *.
    rewrite ref_rows_app. by apply scan_ok.
  - intros S start stop visit x O. pose proof (λ S, keyed_visit_vaet (rows := rows) S start stop) as Kb. rewrite !index_parts in *. cbn [vaet] in *.
    rewrite ref_rows_app.
    apply (visit_ok vaet_key (ref_rows rows) (ref_rows drows) _ _ start stop visit x (λ T v t, kx_visit_vaet base start stop v t)); [done|done| |done].
    intros b d _ _. exact (gt_flip b.1 d.1).
Qed.

(** The two operations outside the interface of the store. *)
Lemma layered_avet start stop : ordered_range start stop →
  layered_range_scan_avet (mkLayeredIndex base (indexes_of drows)) start stop = Ok (snd <$> bt_from start stop (avet (indexes_of (rows ++ drows)))).
Proof using Sb distinct.
  intros O. destruct (all_keys _ distinct) as (_ & Nv & _). unfold layered_range_scan_avet. cbn [layer_base layer_delta].
  pose proof (keyed_avet (rows := rows) start stop) as Kb. rewrite !index_parts in *. cbn [avet] in *. by apply scan_ok.
Qed.
Lemma layered_aevt_entries {S} start stop (visit : S → _ → result (S * bool)) x : ordered_range start stop →
  layered_visit_aevt_entries (mkLayeredIndex base (indexes_of drows)) start stop visit x =
  visitR visit x (bt_from start stop (aevt (indexes_of (rows ++ drows)))).
Proof using Sb distinct.
  intros O. destruct (all_keys _ distinct) as (Na & _ & _). unfold layered_visit_aevt_entries. cbn [layer_base layer_delta].
  pose proof (λ S, keyed_visit_aevt_entries (rows := rows) S start stop) as Kb. rewrite !index_parts in *. cbn [aevt] in *.
  assert (I : ∀ l : list (AevtKey * FactRef), prod_map id id <$> l = l).
  { intros l. rewrite <-(list_fmap_id l) at 2. apply list_fmap_ext. by intros ? []. }
  rewrite <-(I (bt_from start stop (index_of aevt_key_of (rows ++ drows)))).
  apply (visit_ok aevt_key_of rows drows id _ start stop visit x (λ T v t, kx_visit_aevt_entries base start stop v t)); [done|done|done|].
  intros T v t. by rewrite I.
Qed.
End serves.

Lemma delta_extends drows more : NoDup (eavt_key_of <$> (drows ++ more).*1) →
  let m := indexes_of more in
  extend_from_entries (indexes_of drows) (eavt m) (aevt m) (avet m) (vaet m) = indexes_of (drows ++ more).
Proof.
  intros N. destruct (all_keys _ N) as (Na & Nv & Nr). rewrite ref_rows_app in Nr.
  cbn zeta. rewrite !index_parts. unfold extend_from_entries. cbn [eavt aevt avet vaet]. rewrite ref_rows_app.
  by rewrite !extend_index.
Qed.

(** * The base on disk *)

Section disk.
Context {B : Type} `{BL : BackendLaws B} (crc32 : bytes → Z).
Context `{PE : PostcardKeyLaws EavtKey, PA : PostcardKeyLaws AevtKey, PV : PostcardKeyLaws AvetKey, PR : PostcardKeyLaws VaetKey}.

(** [impl KeyedIndexReader for OnDiskIndexReader]. *)
Definition on_disk_keyed (fuel : nat) (r : OnDiskIndexReader B) : KeyedIndexReader := {|
  kx_eavt_entries := od_range_scan_entries crc32 fuel r (eavt_root r);
  kx_visit_eavt S := ix_visit_eavt (on_disk_reader crc32 fuel r) (S := S);
  kx_aevt_entries := od_range_scan_entries crc32 fuel r (aevt_root r);
  kx_visit_aevt_entries S := od_visit_aevt_entries crc32 fuel r;
  kx_visit_aevt S := ix_visit_aevt (on_disk_reader crc32 fuel r) (S := S);
  kx_avet_entries := od_range_scan_entries crc32 fuel r (avet_root r);
  kx_vaet_entries := od_range_scan_entries crc32 fuel r (vaet_root r);
  kx_visit_vaet S := ix_visit_vaet (on_disk_reader crc32 fuel r) (S := S);
|}.

(** Trees that hold the four indexes of the rows make a base. *)
Lemma on_disk_keyed_serves fuel (r : OnDiskIndexReader B) rows :
  serves_tree (od_load crc32 r) fuel (eavt_root r) (eavt (indexes_of rows)) →
  serves_tree (od_load crc32 r) fuel (aevt_root r) (aevt (indexes_of rows)) →
  serves_tree (od_load crc32 r) fuel (avet_root r) (avet (indexes_of rows)) →
  serves_tree (od_load crc32 r) fuel (vaet_root r) (vaet (indexes_of rows)) →
  ServesKeyed (on_disk_keyed fuel r) rows.
Proof using.
  intros E A V R. assert (NZ : ∀ z, 0 < z → (z =? 0) = false) by (intros; apply Z.eqb_neq; lia).
  split; intros; cbn;
    unfold od_range_scan_entries, od_visit_aevt_entries, visit_current_eavt_range, visit_current_aevt_range, visit_current_vaet_range;
    rewrite ?(NZ _ (proj1 E)), ?(NZ _ (proj1 A)), ?(NZ _ (proj1 V)), ?(NZ _ (proj1 R)).
  all: by first [apply served_range_entries|apply served_visit|apply served_current].
Qed.
End disk.

(** * The claim *)

(** The rows of the segments of a file, in order. *)
Definition lineage_rows (segments : list DeltaSegment.t) : list (Fact * FactRef) :=
  concat ((λ s, segment_rows (sp_facts (DeltaSegment.payload s))) <$> segments).
Lemma lineage_rows_app l k : lineage_rows (l ++ k) = lineage_rows l ++ lineage_rows k.
Proof. unfold lineage_rows. by rewrite fmap_app, concat_app. Qed.

(** Wiring the segments at once is appending them one by one. *)
Lemma wire_snoc segments s : wire_delta_indexes (segments ++ [s]) = append_resident_delta_segment (wire_delta_indexes segments) s.
Proof.
  unfold wire_delta_indexes, append_resident_delta_segment, delta_from_entries, extend_from_entries, extend_map. cbn [eavt aevt avet vaet].
  rewrite !fmap_app, !concat_app, !foldl_app. cbn [fmap list_fmap concat]. by rewrite !app_nil_r.
Qed.
Lemma append_is_extend d s : segment_ok s →
  append_resident_delta_segment d s = let m := indexes_of (segment_rows (sp_facts (DeltaSegment.payload s))) in extend_from_entries d (eavt m) (aevt m) (avet m) (vaet m).
Proof. intros V. pose proof (so_entries s V) as E. cbn zeta in *. by rewrite <-E. Qed.
Lemma wired_indexes segments : Forall segment_ok segments → NoDup (eavt_key_of <$> (lineage_rows segments).*1) →
  wire_delta_indexes segments = indexes_of (lineage_rows segments).
Proof.
  induction segments as [|s segments IH] using rev_ind; [done|]. intros [F Fs]%Forall_app N. rewrite lineage_rows_app in *.
  rewrite wire_snoc, IH; [|done|rewrite fmap_app, fmap_app in N; by apply NoDup_app in N as (? & _)].
  rewrite append_is_extend by exact (Forall_inv Fs). assert (lineage_rows [s] = segment_rows (sp_facts (DeltaSegment.payload s))) as E by apply app_nil_r.
  rewrite E in *. by apply delta_extends.
Qed.

(** C13: A base that serves the rows of its pages, under the delta indexes wired from the
    segments of the file and extended by one more at a checkpoint, makes a reader that
    keeps the promise the fact store relies on, for the rows of the base and of all the
    segments; the scan by value and the visit by whole keys are exact as well.  The
    ranges are ordered: for any other, the map of the delta panics. *)
Theorem layered_reader_exact base rows segments s : ServesKeyed base rows → Forall segment_ok (segments ++ [s]) →
  NoDup (eavt_key_of <$> (rows ++ lineage_rows (segments ++ [s])).*1) →
  let all := rows ++ lineage_rows (segments ++ [s]) in
  let r := layered_new base (append_resident_delta_segment (wire_delta_indexes segments) s) in
  ServesIndex (layered_index_reader r) all ∧
  (∀ start stop, ordered_range start stop →
     layered_range_scan_avet r start stop = Ok (snd <$> bt_from start stop (avet (indexes_of all)))) ∧
  (∀ S start stop (visit : S → _ → result (S * bool)) x, ordered_range start stop →
     layered_visit_aevt_entries r start stop visit x = visitR visit x (bt_from start stop (aevt (indexes_of all)))) ∧
  (∀ start stop, cmp stop start = Lt → lineage_rows (segments ++ [s]) ≠ [] →
     ix_range_scan_eavt (layered_index_reader r) start (Some stop) = Err RANGE_PANIC).
Proof.
  intros Sb F N all r. pose proof N as N'. rewrite fmap_app, fmap_app in N'. apply NoDup_app in N' as (_ & _ & N').
  unfold r, layered_new. rewrite <-wire_snoc, wired_indexes by done. split_and!.
  - by apply layered_index_serves.
  - intros. by apply layered_avet.
  - intros. by apply layered_aevt_entries.
  - intros start stop L Ne. cbn. unfold layered_scan. rewrite (keyed_eavt (rows := rows)). cbn [mbind result_bind].
    rewrite behind_panics; [done|done|]. rewrite <-(app_nil_r (lineage_rows _)). apply eavt_inhabited; [by rewrite app_nil_r|done].
Qed.

(** * Witnesses *)

(** The reader over the in-memory indexes of some rows. *)
Definition keyed_reader_of (rows : list (Fact * FactRef)) : KeyedIndexReader :=
  let ix := indexes_of rows in {|
  kx_eavt_entries start stop := Ok (bt_from start stop (eavt ix));
  kx_visit_eavt S start stop visit x := visitR visit x (prod_map CurrentEavtEntryRef.from_owned id <$> bt_from start stop (eavt ix));
  kx_aevt_entries start stop := Ok (bt_from start stop (aevt ix));
  kx_visit_aevt_entries S start stop visit x := visitR visit x (bt_from start stop (aevt ix));
  kx_visit_aevt S start stop visit x := visitR visit x (prod_map CurrentAevtEntryRef.from_owned id <$> bt_from start stop (aevt ix));
  kx_avet_entries start stop := Ok (bt_from start stop (avet ix));
  kx_vaet_entries start stop := Ok (bt_from start stop (vaet ix));
  kx_visit_vaet S start stop visit x := visitR visit x (prod_map CurrentVaetEntryRef.from_owned id <$> bt_from start stop (vaet ix));
|}.
#[export] Instance keyed_reader_of_serves rows : ServesKeyed (keyed_reader_of rows) rows.
Proof. by split. Qed.

(** A segment of one fact whose page is [page]. *)
Definition layer_row (e : EntityId) (a : Attribute) (page : Z) : Fact * FactRef :=
  (fact_with_valid_time e a (VInteger 1) 5 1 0 10, mkFactRef page 0).
Definition layer_segment (r : Fact * FactRef) : DeltaSegment.t :=
  let rows := [(r.2, r.1)] in
  let ix := build_index_entries rows in
  let p := mkSegmentPayload rows (eavt ix) (aevt ix) (avet ix) (vaet ix) in
  match segment_header_from_payload p (page_id r.2) 1 with
  | Ok h => DeltaSegment.mk h p
  | Err _ => demo_segment
  end.
Definition layer_base_rows : list (Fact * FactRef) := [layer_row 2 ":b" 1; layer_row 4 ":a" 2].
Definition layer_segments : list DeltaSegment.t := [layer_segment (layer_row 3 ":a" 7)].
Definition layer_newest : DeltaSegment.t := layer_segment (layer_row 1 ":b" 9).
Definition layer_demo : LayeredIndexReader :=
  layered_new (keyed_reader_of layer_base_rows) (append_resident_delta_segment (wire_delta_indexes layer_segments) layer_newest).

(** Visiting two attributes at once, the entries come out of key order: entity 1 of
    [:b] before entity 4 of [:a], while the visit by whole keys keeps the order. *)
Example layered_aevt_mixes :
  ix_visit_aevt (layered_index_reader layer_demo) (attribute_low ":a") None (λ l e, Ok (l ++ [page_id e.2], true)) [] = Ok ([7; 9; 2; 1], true) ∧
  layered_visit_aevt_entries layer_demo (attribute_low ":a") None (λ l e, Ok (l ++ [page_id e.2], true)) [] = Ok ([7; 2; 9; 1], true).
Proof. split; vm_compute; reflexivity. Qed.

(** The range of the largest entity wraps to a range behind its start. *)
Lemma layered_reader_exact_witness :
  layered_range_scan_avet layer_demo (avet_key_of (layer_row 1 ":a" 0).1) None = Ok [mkFactRef 7 0; mkFactRef 2 0; mkFactRef 9 0; mkFactRef 1 0] ∧
  ix_range_scan_eavt (layered_index_reader layer_demo) (entity_low (2 ^ 128 - 1)) (Some (entity_low (next_entity (2 ^ 128 - 1)))) = Err RANGE_PANIC.
Proof.
  destruct (layered_reader_exact (keyed_reader_of layer_base_rows) layer_base_rows layer_segments layer_newest) as (_ & A & _ & P).
  - apply keyed_reader_of_serves.
  - constructor; [|constructor; [|constructor]]; apply validate_sound; vm_compute; reflexivity.
  - apply (bool_decide_unpack _). vm_compute. exact I.
  - split; [|apply (P (entity_low (2 ^ 128 - 1)) (entity_low (next_entity (2 ^ 128 - 1)))); [vm_compute; reflexivity|discriminate]].
    etrans; [exact (A (avet_key_of (layer_row 1 ":a" 0).1) None I)|]. vm_compute. reflexivity.
Defined.
