(* ===== verification/DeltaCheckpoint.v ===== *)
(** The delta checkpoint of a handle (src/src/storage/persistent_facts.rs): writing the
    segment, its manifest and page 0, and publishing the segment to the fact store.

    [DeltaManifest] prepares the pages; here page 0 goes to the backend, and the handle
    [PersistentFactStorage] with its cache, its resident delta and its store moves on.
    The readers a store holds share the backend, the cache and the resident maps of the
    handle: extending them in place is a reader over the handle's new state.  [sync] has
    nothing to do.  Only the result of a checkpoint that returns is modelled: one that
    fails leaves the pages it wrote behind the published ones. *)
From S2P Require Import Prelude Types ValueCodec Index Wal FactStore PendingOverlay Lookup PackedPages Cache CommittedReaders HeaderPage BTreePages BTreeScan BTreeBuild Backends PageIntegrity BTreeIndex IntegrityStore DeltaSegment DeltaManifest DeltaIndex.
Set Default Proof Using "Type".

(** * Page 0 *)

(** [StorageBackend::is_new]. *)
Class BackendIsNew (B : Type) : Type := backend_is_new : B → bool.
#[export] Instance memory_is_new : BackendIsNew MemoryBackend.t := λ _, true.
#[export] Instance file_is_new : BackendIsNew FileBackend.t := FileBackend.is_new.

(** What a publication relies on: a header page is written, read back, and leaves the
    pages it publishes. *)
Class HeaderLaws (B : Type) `{StorageBackend B} : Prop := {
  header_write_accepts b page h : length page = PAGE_SIZE → FileHeader.from_bytes page = Ok h → ∃ b', backend_write_page b 0 page = Ok b';
  header_write_reads b page h b' : backend_write_page b 0 page = Ok b' → FileHeader.from_bytes page = Ok h → 0 < FileHeader.page_count h →
    backend_read_page b' 0 = Ok page;
  header_write_keeps b page h b' id q : backend_write_page b 0 page = Ok b' → FileHeader.from_bytes page = Ok h →
    0 < id < FileHeader.page_count h → backend_read_page b id = Ok q → backend_read_page b' id = Ok q;
}.
#[export] Instance memory_header_laws : HeaderLaws MemoryBackend.t.
Proof.
  split; cbn; unfold MemoryBackend.write_page, MemoryBackend.read_page.
  - intros b page h -> _. rewrite Nat.eqb_refl. by eexists.
  - intros b page h b' E _ _. inv_ok. cbn. by rewrite lookup_insert_eq.
  - intros b page h b' id q E _ I R. inv_ok. cbn. rewrite lookup_insert_ne by lia. by rewrite R.
Qed.
#[export] Instance file_header_laws : HeaderLaws FileBackend.t.
Proof.
  assert (O0 : FileBackend.page_offset 0 = Ok 0%nat) by (by apply page_offset_Ok).
  split; cbn; unfold FileBackend.write_page, FileBackend.read_page; rewrite ?O0; cbn [Z.eqb].
  - intros b page h -> E. rewrite Nat.eqb_refl. cbn [ensure mbind result_bind]. rewrite E. by eexists.
  - intros b page h b' E Eh P. apply bind_Ok in E as (u & L & E). apply ensure_Ok, Nat.eqb_eq in L. cbn [mbind result_bind] in E.
    rewrite Eh in E. cbn [mbind result_bind] in E. apply Ok_inj in E as <-. cbn [FileBackend.header FileBackend.file].
    rewrite (proj2 (Z.ltb_lt _ _)) by done. cbn [ensure mbind result_bind]. apply file_read_holds. split; [done|apply file_write_reads].
  - intros b page h b' id q E Eh I R. apply bind_Ok in E as (u & L & E). apply ensure_Ok, Nat.eqb_eq in L. cbn [mbind result_bind] in E.
    rewrite Eh in E. cbn [mbind result_bind] in E. apply Ok_inj in E as <-. cbn [FileBackend.header FileBackend.file].
    rewrite (proj2 (Z.ltb_lt _ _)) by lia. cbn [ensure mbind result_bind]. apply bind_Ok in R as (u' & _ & R). apply bind_Ok in R as (off & O & R).
    rewrite O. cbn [mbind result_bind]. apply file_read_holds in R as [Lq R]. apply file_read_holds. split; [done|]. apply file_write_keeps; [done|].
    destruct (page_offset_disjoint 0 id 0 off); [lia..|done|done|lia|lia].
Qed.

(** * Resident facts *)

(** [BTreeMap<FactRef, Fact>] and its [extend]. *)
Definition ResidentFacts : Type := list (FactRef * Fact).
Definition extend_facts (m es : ResidentFacts) : ResidentFacts := foldl (λ m e, bt_insert e.1 e.2 m) m es.
Definition wire_delta_facts (segments : list DeltaSegment.t) : ResidentFacts :=
  foldl (λ m s, extend_facts m (sp_facts (DeltaSegment.payload s))) [] segments.

(** * The handle *)

Section handle.
Context {B : Type} `{StorageBackend B, BackendIsNew B} (crc32 : bytes → Z) `{SegmentPostcard, ManifestPostcard}.
Context `{PostcardKey EavtKey, PostcardKey AevtKey, PostcardKey AvetKey, PostcardKey VaetKey}.
Context (to_allocvec : Fact → result bytes) (from_bytes : bytes → result Fact).
(** The depth to which the readers follow a tree. *)
Context (fuel : nat).

Record PersistentFactStorage : Type := mkPersistent {
  ps_backend : B;
  ps_page_cache : CacheInner;
  ps_storage : FactStorage;
  ps_dirty : bool;
  ps_last_checkpointed_tx_count : Z;
  ps_header_manifest_selection : HeaderManifestSlotSelection;
  ps_delta_manifest_selection : PersistedManifestSelection;
  ps_resident_delta_segment_count : nat;
  ps_resident_delta_facts : option ResidentFacts;
  ps_resident_delta_indexes : option DeltaIndexEntries;
  ps_committed_fact_pages : nat;
  ps_committed_fact_page_start : Z;
  ps_base_integrity : option BasePageIntegrityCatalog.t;
}.

Definition base_fact_loader (ps : PersistentFactStorage) : CommittedFactReader :=
  loader_reader from_bytes (mutex_read_page crc32 (mkMutexBackend (ps_backend ps) (ps_base_integrity ps)))
    (mkLoader (ps_page_cache ps) (ps_committed_fact_pages ps) (ps_committed_fact_page_start ps)).
Definition base_index_reader (ps : PersistentFactStorage) (h : FileHeader.t) : OnDiskIndexReader B :=
  match ps_base_integrity ps with
  | Some catalog => index_reader_new_verified (ps_backend ps) (ps_page_cache ps) catalog
      (FileHeader.eavt_root_page h) (FileHeader.aevt_root_page h) (FileHeader.avet_root_page h) (FileHeader.vaet_root_page h)
  | None => index_reader_new (ps_backend ps) (ps_page_cache ps)
      (FileHeader.eavt_root_page h) (FileHeader.aevt_root_page h) (FileHeader.avet_root_page h) (FileHeader.vaet_root_page h)
  end.

(** The readers over the backend, the cache and the resident maps. *)
Definition fact_reader_over (ps : PersistentFactStorage) (delta : option ResidentFacts) : CommittedFactReader :=
  match delta with
  | Some delta_facts => layered_reader (mkLayered (base_fact_loader ps) delta_facts)
  | None => base_fact_loader ps
  end.
Definition index_reader_over (ps : PersistentFactStorage) (h : FileHeader.t) (delta : option DeltaIndexEntries) : CommittedIndexReader :=
  match delta with
  | Some delta_indexes => layered_index_reader (layered_new (on_disk_keyed crc32 fuel (base_index_reader ps h)) delta_indexes)
  | None => on_disk_reader crc32 fuel (base_index_reader ps h)
  end.

Definition with_resident (ps : PersistentFactStorage) (storage : FactStorage) (count : nat) (facts : option ResidentFacts)
    (indexes : option DeltaIndexEntries) : PersistentFactStorage :=
  mkPersistent (ps_backend ps) (ps_page_cache ps) storage (ps_dirty ps) (ps_last_checkpointed_tx_count ps)
    (ps_header_manifest_selection ps) (ps_delta_manifest_selection ps) count facts indexes
    (ps_committed_fact_pages ps) (ps_committed_fact_page_start ps) (ps_base_integrity ps).

Definition wire_committed_readers (ps : PersistentFactStorage) (h : FileHeader.t) (segments : list DeltaSegment.t) : PersistentFactStorage :=
  let some {A} (x : A) : option A := match segments with [] => None | _ => Some x end in
  let facts := some (wire_delta_facts segments) in
  let indexes := some (wire_delta_indexes segments) in
  let index_reader := if FileHeader.eavt_root_page h =? 0 then None else Some (index_reader_over ps h indexes) in
  with_resident ps (publish_committed_readers (ps_storage ps) (fact_reader_over ps facts) index_reader) (length segments) facts indexes.

(** The closure extends the two maps that the store's readers share. *)
Definition append_resident_segment (ps : PersistentFactStorage) (h : FileHeader.t) (s : DeltaSegment.t) : result PersistentFactStorage :=
  facts ← ok_or (ps_resident_delta_facts ps) "Resident delta fact state is missing";
  indexes ← ok_or (ps_resident_delta_indexes ps) "Resident delta index state is missing";
  next_segment_count ← ok_or (checked_add_u64 (Z.of_nat (ps_resident_delta_segment_count ps)) 1) "Resident delta segment count overflow";
  let facts := Some (extend_facts facts (sp_facts (DeltaSegment.payload s))) in
  let indexes := Some (append_resident_delta_segment indexes s) in
  Ok (with_resident ps
        (publish_incremental_committed (ps_storage ps) (fmap (λ _, fact_reader_over ps facts)) (fmap (λ _, index_reader_over ps h indexes)))
        (Z.to_nat next_segment_count) facts indexes).

(** [None] hands the facts on to a full rebuild. *)
Definition try_save_delta_segment (ps : PersistentFactStorage) (pending_facts : list Fact) : result (PersistentFactStorage * bool) :=
  match pending_facts, ps_delta_manifest_selection ps with
  | [], _ | _, PersistedRecovery _ => Ok (ps, false)
  | _, _ =>
      match backend_read_page (ps_backend ps) 0 with
      | Err _ => if backend_is_new (ps_backend ps) then Ok (ps, false) else Err "Failed to read header from existing file"
      | Ok page0 =>
          prepared ← prepare_delta_segment crc32 to_allocvec (ps_backend ps) page0 (ps_header_manifest_selection ps) (ps_delta_manifest_selection ps)
                       (ps_resident_delta_segment_count ps) (current_tx_count (ps_storage ps)) pending_facts;
          match prepared with
          | None => Ok (ps, false)
          | Some out =>
              curr_header ← FileHeader.from_bytes page0;
              let cache := invalidate_from (ps_page_cache ps) (FileHeader.page_count curr_header) in
              b ← backend_write_page (ds_backend out) 0 (ds_page0 out);
              let ps := mkPersistent b cache (ps_storage ps) false (current_tx_count (ps_storage ps)) (ds_selection out) (ds_manifest_selection out)
                          (ps_resident_delta_segment_count ps) (ps_resident_delta_facts ps) (ps_resident_delta_indexes ps)
                          (ps_committed_fact_pages ps) (ps_committed_fact_page_start ps) (ps_base_integrity ps) in
              ps ← (if (ps_resident_delta_segment_count ps =? 0)%nat then Ok (wire_committed_readers ps (ds_header out) [ds_segment out])
                    else append_resident_segment ps (ds_header out) (ds_segment out));
              Ok (with_resident ps (post_checkpoint_clear (ps_storage ps)) (ps_resident_delta_segment_count ps)
                    (ps_resident_delta_facts ps) (ps_resident_delta_indexes ps), true)
          end
      end
  end.
End handle.
Arguments PersistentFactStorage : clear implicits.

(** * Keys and maps *)

Lemma ref_lt (r q : FactRef) : page_id r < page_id q ∨ page_id r = page_id q ∧ slot_index r < slot_index q → cmp r q = Lt.
Proof.
  unfold cmp, FactRef_ord, cmp_on, cmp, pair_ord. unfold cmp, Z_ord. cbn. intros [L|[-> L]].
  - by rewrite (proj2 (Z.compare_lt_iff _ _)).
  - rewrite Z.compare_refl. by apply Z.compare_lt_iff.
Qed.
Lemma refs_of_ascending gs : ∀ start, StronglySorted (λ r q, cmp r q = Lt) (refs_of start gs).
Proof.
  induction gs as [|g gs IH]; intros start; cbn [refs_of]; [constructor|]. apply StronglySorted_app_2; [| |apply IH].
  - intros r q (i & -> & _)%list_elem_of_fmap Q%refs_of_page_ge. apply ref_lt. cbn. lia.
  - generalize 0%nat. induction (length g) as [|n IHn]; intros k; cbn; [constructor|]. constructor; [apply IHn|].
    apply Forall_forall. intros q (i & -> & I%elem_of_seq)%list_elem_of_fmap. apply ref_lt. cbn. lia.
Qed.
Lemma zip_ascending (refs : list FactRef) (facts : list Fact) : StronglySorted (λ r q, cmp r q = Lt) refs → strictly_ascending (zip refs facts).
Proof.
  intros S. revert facts. induction S as [|r refs S IH F]; intros [|f facts]; cbn; try constructor; [apply IH|].
  apply Forall_forall. intros [q g] I%elem_of_zip_l. rewrite Forall_forall in F. by apply F.
Qed.
Lemma bt_insert_last {K V} `{OrdLaws K} (k : K) (v : V) m : Forall (λ x, cmp x.1 k = Lt) m → bt_insert k v m = m ++ [(k, v)].
Proof.
  induction 1 as [|[k' v'] m L F IH]; [done|]. cbn in *. by rewrite (cmp_opp k' k), L, IH.
Qed.
Lemma extend_above (es : ResidentFacts) : ∀ m, strictly_ascending es → (∀ x y, x ∈ m → y ∈ es → cmp x.1 y.1 = Lt) → extend_facts m es = m ++ es.
Proof.
  induction es as [|[r f] es IH]; intros m S A; cbn; [by rewrite app_nil_r|]. apply StronglySorted_inv in S as [S F].
  rewrite bt_insert_last by (apply Forall_forall; intros x I; apply (A x (r, f) I); left).
  unfold extend_facts in IH. rewrite IH; [by rewrite <-app_assoc|done|]. rewrite Forall_forall in F.
  intros x y [I| ->%list_elem_of_singleton]%elem_of_app J; [apply A; [done|by right]|]. by apply F.
Qed.
Lemma wire_facts_snoc segments s : wire_delta_facts (segments ++ [s]) = extend_facts (wire_delta_facts segments) (sp_facts (DeltaSegment.payload s)).
Proof. unfold wire_delta_facts. by rewrite foldl_app. Qed.

(** Reading fact pages that did not change. *)
Lemma read_all_keeps from_bytes (read1 read2 : Z → result bytes) start n facts : 0 ≤ start → start + Z.of_nat n ≤ u64_MAX →
  (∀ id page, start ≤ id < start + Z.of_nat n → read1 id = Ok page → read2 id = Ok page) →
  read_all_from_pages from_bytes read1 start n = Ok facts → read_all_from_pages from_bytes read2 start n = Ok facts.
Proof.
  intros S0 S1 K. unfold read_all_from_pages, for_each_from_pages.
  assert (G : ∀ l acc, (∀ i, i ∈ l → (i < n)%nat) → foldR (λ s i, page ← read1 (sat_add_u64 start (Z.of_nat i));
      _ ← ensure (length page =? PAGE_SIZE)%nat "Committed fact page has invalid length";
      _ ← ensure (page_byte page 0 =? PAGE_TYPE_PACKED) "Committed fact page has invalid page type";
      visit_slots from_bytes page (record_count_or_zero page) (λ s _ f, Ok (s ++ [f])) s) acc l = Ok facts →
    foldR (λ s i, page ← read2 (sat_add_u64 start (Z.of_nat i));
      _ ← ensure (length page =? PAGE_SIZE)%nat "Committed fact page has invalid length";
      _ ← ensure (page_byte page 0 =? PAGE_TYPE_PACKED) "Committed fact page has invalid page type";
      visit_slots from_bytes page (record_count_or_zero page) (λ s _ f, Ok (s ++ [f])) s) acc l = Ok facts).
  { induction l as [|i l IH]; intros acc I; [done|]. cbn [foldR]. assert (i < n)%nat as Hi by (apply I; left).
    assert (sat_add_u64 start (Z.of_nat i) = start + Z.of_nat i) as -> by (unfold sat_add_u64; lia).
    destruct (read1 (start + Z.of_nat i)) as [page|] eqn:R; [|done]. rewrite (K _ page) by (done || lia). cbn [mbind result_bind].
    match goal with |- mbind _ ?r = _ → _ => destruct r; [|done] end. cbn [mbind result_bind]. apply IH. intros j J. apply I. by right. }
  intros E. apply G; [|exact E]. intros i I%elem_of_seq. lia.
Qed.

(** * The claim *)

Section checkpoint.
Context {B : Type} `{BL : BackendLaws B} `{HL : !HeaderLaws B} `{BackendIsNew B} (crc32 : bytes → Z) `{SP : SegmentPostcardLaws} `{MP : ManifestPostcardLaws}.
Context `{PostcardKey EavtKey, PostcardKey AevtKey, PostcardKey AvetKey, PostcardKey VaetKey}.
Context (to_allocvec : Fact → result bytes) (from_bytes : bytes → result Fact) (fuel : nat).
Hypothesis crc_u32 : ∀ bs, u32_ok (crc32 bs).
Hypothesis codec_roundtrip : ∀ f bs, fact_ok f → to_allocvec f = Ok bs → from_bytes bs = Ok f.
Hypothesis codec_nonempty : ∀ f bs, to_allocvec f = Ok bs → bs ≠ [].

Lemma segment_ascending facts start s : Forall (encodable to_allocvec) facts → Forall fact_ok facts → 0 ≤ start →
  start + Z.of_nat (length facts) < 2 ^ 63 → segment_from_facts to_allocvec facts start = Ok s →
  strictly_ascending (sp_facts (DeltaSegment.payload s)).
Proof using codec_roundtrip codec_nonempty.
  intros En Fk S0 S1. unfold segment_from_facts, segment_from_parts. destruct facts as [|f facts].
  - cbn [mbind result_bind]. intros E. inv_ok. constructor.
  - destruct (pack_facts_groups to_allocvec from_bytes codec_roundtrip codec_nonempty (f :: facts) start En Fk S0 ltac:(lia)) as (gs & -> & _).
    cbn [mbind result_bind]. intros E. inv_ok. cbn [DeltaSegment.payload sp_facts]. apply zip_ascending, refs_of_ascending.
Qed.

(** The store of a handle reads the base and the resident segments of its file. *)
Definition resident {A} (segments : list DeltaSegment.t) (x : A) : option A := match segments with [] => None | _ => Some x end.
Record serving (ps : PersistentFactStorage B) (h : FileHeader.t) (segments : list DeltaSegment.t) (base_facts : list Fact) : Prop := {
  sg_count : ps_resident_delta_segment_count ps = length segments;
  sg_facts : ps_resident_delta_facts ps = resident segments (wire_delta_facts segments);
  sg_indexes : ps_resident_delta_indexes ps = resident segments (wire_delta_indexes segments);
  sg_fact_reader : committed (ps_storage ps) = Some (fact_reader_over crc32 from_bytes ps (ps_resident_delta_facts ps));
  sg_index_reader : committed_index_reader (ps_storage ps) = Some (index_reader_over crc32 fuel ps h (ps_resident_delta_indexes ps));
  sg_base : rd_stream_all (base_fact_loader crc32 from_bytes ps) = Ok base_facts;
  sg_base_pages : 0 < ps_committed_fact_page_start ps ∧
    ps_committed_fact_page_start ps + Z.of_nat (ps_committed_fact_pages ps) ≤ FileHeader.page_count h;
}.

(** The pending facts are new, the codecs accept them, and the machine's counters have room. *)
Record checkpoint_room (h : FileHeader.t) (persisted : PersistedManifestSelection) (segments : list DeltaSegment.t) (pending : list Fact) (tx : Z) : Prop := {
  cr_some : pending ≠ [];
  cr_facts : Forall fact_ok pending;
  cr_encodable : Forall (encodable to_allocvec) pending;
  cr_newer : Forall (λ f, FileHeader.last_checkpointed_tx_count h < tx_count f ≤ tx) pending;
  cr_tx : u64_ok tx;
  cr_fact_pages : FileHeader.page_count h + Z.of_nat (length pending) < 2 ^ 63;
  cr_nodes : FileHeader.node_count h + Z.of_nat (length pending) ≤ u64_MAX;
  cr_segments : Z.of_nat (length segments) < u64_MAX;
  cr_frames s : segment_from_facts to_allocvec pending (FileHeader.page_count h) = Ok s → ∃ hb pb mb,
    let bs := seal_frame crc32 DELTA_SEGMENT_COMMIT_MARKER (segment_body hb pb) in
    let n := Z.of_nat (frame_page_count bs) in
    (pc_header (DeltaSegment.header s) = Ok hb ∧ Z.of_nat (length hb) ≤ u32_MAX) ∧
    (pc_payload (DeltaSegment.payload s) = Ok pb ∧ Z.of_nat (length pb) ≤ u64_MAX) ∧
    (pc_manifest (next_manifest h persisted tx (appended_entry h s n)) = Ok mb ∧ Z.of_nat (length mb) ≤ u64_MAX) ∧
    FileHeader.page_count h + n + Z.of_nat (frame_page_count (seal_frame crc32 DELTA_MANIFEST_COMMIT_MARKER (manifest_body mb))) < 2 ^ 52;
}.

(** The facts of the store of a handle. *)
Lemma serving_facts ps h segments base_facts : serving ps h segments base_facts →
  get_all_facts (ps_storage ps) = Ok (base_facts ++ (wire_delta_facts segments).*2 ++ get_pending_facts (ps_storage ps)).
Proof using.
  intros [_ F _ R _ Ba _]. unfold get_all_facts. rewrite R, F. destruct segments as [|s segments]; cbn [resident fact_reader_over].
  - rewrite Ba. done.
  - cbn [rd_stream_all layered_reader]. unfold layered_stream_all. cbn [CommittedReaders.base delta_facts]. rewrite Ba. cbn [mbind result_bind].
    by rewrite <-app_assoc.
Qed.

(** The base reads the same facts when its pages are kept. *)
Lemma base_kept ps ps' h base_facts : FileHeader.ok h → keeps_below (FileHeader.page_count h) (ps_backend ps) (ps_backend ps') →
  ps_base_integrity ps' = ps_base_integrity ps → ps_committed_fact_pages ps' = ps_committed_fact_pages ps →
  ps_committed_fact_page_start ps' = ps_committed_fact_page_start ps →
  0 < ps_committed_fact_page_start ps → ps_committed_fact_page_start ps + Z.of_nat (ps_committed_fact_pages ps) ≤ FileHeader.page_count h →
  rd_stream_all (base_fact_loader crc32 from_bytes ps) = Ok base_facts → rd_stream_all (base_fact_loader crc32 from_bytes ps') = Ok base_facts.
Proof using.
  intros O K Ei Ep Es P Le. unfold base_fact_loader, loader_reader, loader_stream_all. cbn [rd_stream_all committed_fact_page_start committed_fact_pages].
  rewrite Ei, Ep, Es. pose proof (FileHeader.ok_page_count h O) as U. unfold u64_ok in U. apply read_all_keeps; [lia|unfold u64_MAX; lia|].
  intros id page I. unfold mutex_read_page. cbn [ms_backend BTreeIndex.base_integrity].
  destruct (backend_read_page (ps_backend ps) id) as [q|] eqn:R; [|done]. rewrite (K id q) by (done || lia). done.
Qed.

(** Writing page 0. *)
Lemma page0_written (b : B) page h : length page = PAGE_SIZE → FileHeader.from_bytes page = Ok h → 0 < FileHeader.page_count h →
  ∃ b', backend_write_page b 0 page = Ok b' ∧ backend_read_page b' 0 = Ok page ∧ keeps_below (FileHeader.page_count h) b b'.
Proof using HL.
  intros L E P. destruct (header_write_accepts b page h L E) as [b' W]. exists b'. split_and!; [done|by apply (header_write_reads b page h)|].
  intros id q I. by apply (header_write_keeps b page h).
Qed.

(** Publishing one more segment. *)
Lemma publish_segment ps h' segments s : ps_resident_delta_segment_count ps = length segments →
  ps_resident_delta_facts ps = resident segments (wire_delta_facts segments) →
  ps_resident_delta_indexes ps = resident segments (wire_delta_indexes segments) →
  is_Some (committed (ps_storage ps)) → is_Some (committed_index_reader (ps_storage ps)) →
  FileHeader.eavt_root_page h' ≠ 0 → Z.of_nat (length segments) < u64_MAX →
  let facts := Some (wire_delta_facts (segments ++ [s])) in
  let indexes := Some (wire_delta_indexes (segments ++ [s])) in
  ∃ st, (if (ps_resident_delta_segment_count ps =? 0)%nat then Ok (wire_committed_readers crc32 from_bytes fuel ps h' [s])
         else append_resident_segment crc32 from_bytes fuel ps h' s) =
      Ok (with_resident ps st (length (segments ++ [s])) facts indexes) ∧
    committed st = Some (fact_reader_over crc32 from_bytes ps facts) ∧
    committed_index_reader st = Some (index_reader_over crc32 fuel ps h' indexes) ∧
    get_pending_facts st = [] ∧ tx_counter st = tx_counter (ps_storage ps).
Proof using.
  intros Ec Ef Ei [rd Er] [ix Ex] Nr Fit facts indexes. rewrite Ec. destruct segments as [|s0 segments].
  - eexists. cbn [length Nat.eqb]. unfold wire_committed_readers. rewrite (proj2 (Z.eqb_neq _ _)) by done. by split_and!.
  - assert ((length (s0 :: segments) =? 0)%nat = false) as -> by done. unfold append_resident_segment. rewrite Ef, Ei, Ec.
    cbn [resident ok_or mbind result_bind]. unfold checked_add_u64. rewrite (proj2 (Z.leb_le _ _)) by lia. cbn [ok_or mbind result_bind].
    rewrite <-wire_facts_snoc, <-wire_snoc.
    assert (Z.to_nat (Z.of_nat (length (s0 :: segments)) + 1) = length ((s0 :: segments) ++ [s])) as -> by (rewrite length_app; cbn [length]; lia).
    eexists. split; [done|]. cbn. rewrite Er, Ex. by split_and!.
Qed.

(** C12: A delta checkpoint succeeds, makes the pending facts durable and shows the same
    ledger.  Let a file be open with its page 0, a selection of segments and projection
    slots that are empty or valid (with a damaged one the checkpoint fails), and let the
    handle's store read the base and these segments.  Let the pending facts be newer than
    the last checkpoint, let the codecs accept them and the counters have room.  Then the
    checkpoint returns; the pages published before are untouched; the new page 0 is on
    the backend, and reopening the file through it selects the old segments followed by
    one that holds exactly the pending facts; the handle's selections are those of the
    reopened file and its last checkpoint is the store's counter; nothing is pending, and
    the store reads, through the readers it now holds, the ledger it read before. *)
Theorem delta_checkpoint_recovers (ps : PersistentFactStorage B) h e page0 segments base_facts :
  let pending := get_pending_facts (ps_storage ps) in
  let tx := current_tx_count (ps_storage ps) in
  backend_read_page (ps_backend ps) 0 = Ok page0 →
  delta_state crc32 (ps_backend ps) h e page0 (ps_header_manifest_selection ps) (ps_delta_manifest_selection ps) segments →
  serving ps h segments base_facts → Forall (λ x, page_id x.1 < FileHeader.page_count h) (wire_delta_facts segments) →
  checkpoint_room h (ps_delta_manifest_selection ps) segments pending tx →
  ∃ ps' s h' e' page0', try_save_delta_segment crc32 to_allocvec from_bytes fuel ps pending = Ok (ps', true) ∧
    (sp_facts (DeltaSegment.payload s)).*2 = pending ∧
    keeps_below (FileHeader.page_count h) (ps_backend ps) (ps_backend ps') ∧
    backend_read_page (ps_backend ps') 0 = Ok page0' ∧
    delta_state crc32 (ps_backend ps') h' e' page0' (ps_header_manifest_selection ps') (ps_delta_manifest_selection ps') (segments ++ [s]) ∧
    FileHeader.last_checkpointed_tx_count h' = tx ∧ ps_last_checkpointed_tx_count ps' = tx ∧ ps_dirty ps' = false ∧
    serving ps' h' (segments ++ [s]) base_facts ∧
    get_pending_facts (ps_storage ps') = [] ∧ current_tx_count (ps_storage ps') = tx ∧
    get_all_facts (ps_storage ps') = get_all_facts (ps_storage ps).
Proof using All.
  intros pending tx R0 St Sg Below Room. pose proof (st_header _ _ _ _ _ _ _ _ St) as O.
  pose proof (valid_pages h O (st_validate _ _ _ _ _ _ _ _ St)) as Pp.
  destruct (from_facts_ok to_allocvec from_bytes codec_roundtrip codec_nonempty pending (FileHeader.page_count h)) as (s & Es & Vs & Ef & Hs & _);
    [apply Room|apply Room|lia|apply Room|].
  destruct (cr_frames _ _ _ _ _ Room s Es) as (hb & pb & mb & Eh & Ep & Em & Fit).
  destruct (delta_segment_prepared crc32 crc_u32 to_allocvec from_bytes codec_roundtrip codec_nonempty (ps_backend ps) h e page0
    (ps_header_manifest_selection ps) (ps_delta_manifest_selection ps) segments pending tx s hb pb mb St (cr_some _ _ _ _ _ Room) (cr_facts _ _ _ _ _ Room)
    (cr_newer _ _ _ _ _ Room) (cr_tx _ _ _ _ _ Room) Es Eh Ep Em Fit (cr_fact_pages _ _ _ _ _ Room) (cr_nodes _ _ _ _ _ Room))
    as (out & e' & Pr & Eo & _ & _ & K & Lt & Pg & Lp & Fb & Re).
  destruct (page0_written (ds_backend out) (ds_page0 out) (ds_header out) Lp Fb ltac:(lia)) as (b3 & W & R3 & K3). specialize (Re b3 K3).
  assert (Kb : keeps_below (FileHeader.page_count h) (ps_backend ps) b3).
  { intros id page I Rp. apply K3; [lia|]. by apply K. }
  destruct (capable_roots _ (st_capable _ _ _ _ _ _ _ _ Re)) as (_ & Nr & _).
  set (ps1 := mkPersistent b3 (invalidate_from (ps_page_cache ps) (FileHeader.page_count h)) (ps_storage ps) false tx (ds_selection out) (ds_manifest_selection out)
    (ps_resident_delta_segment_count ps) (ps_resident_delta_facts ps) (ps_resident_delta_indexes ps)
    (ps_committed_fact_pages ps) (ps_committed_fact_page_start ps) (ps_base_integrity ps)).
  pose proof Sg as [Gc Gf Gi Gr Gx Gb [Gp Gl]].
  destruct (publish_segment ps1 (ds_header out) segments s Gc Gf Gi) as (st & Pu & Cf & Cx & Pe & Tc);
    [by eexists|by eexists|done|apply Room|].
  set (ps' := with_resident ps1 (post_checkpoint_clear st) (length (segments ++ [s])) (Some (wire_delta_facts (segments ++ [s]))) (Some (wire_delta_indexes (segments ++ [s])))).
  assert (Some_snoc : ∀ A (x : A), resident (segments ++ [s]) x = Some x) by (by destruct segments).
  assert (Sg' : serving ps' (ds_header out) (segments ++ [s]) base_facts).
  { split; cbn [ps' ps1 with_resident ps_resident_delta_segment_count ps_resident_delta_facts ps_resident_delta_indexes ps_storage]; rewrite ?Some_snoc; try done.
    - by apply (base_kept ps ps' h).
    - cbn. lia. }
  assert (Ev : try_save_delta_segment crc32 to_allocvec from_bytes fuel ps pending = Ok (ps', true)).
  { unfold try_save_delta_segment. pose proof (cr_some _ _ _ _ _ Room) as Ne. pose proof (st_used _ _ _ _ _ _ _ _ St) as Us.
    rewrite R0, Gc. fold tx. rewrite Pr. cbn [mbind result_bind]. rewrite (st_page0 _ _ _ _ _ _ _ _ St). cbn [mbind result_bind]. rewrite W. cbn [mbind result_bind].
    rewrite <-Gc. fold ps1. change (ps_resident_delta_segment_count ps) with (ps_resident_delta_segment_count ps1). rewrite Eo, Pu. cbn [mbind result_bind].
    destruct pending; [done|]. by destruct (ps_delta_manifest_selection ps). }
  exists ps', s, (ds_header out), e', (ds_page0 out). split_and!; try done.
  rewrite (serving_facts _ _ _ _ Sg'), (serving_facts _ _ _ _ Sg), wire_facts_snoc.
  rewrite extend_above; [|apply (segment_ascending pending (FileHeader.page_count h)); (done || lia || apply Room)|].
  - rewrite fmap_app, Ef, app_assoc. assert (get_pending_facts (ps_storage ps') = []) as -> by done. by rewrite app_nil_r, !app_assoc.
  - intros x y Ix Iy. apply ref_lt. left. rewrite Forall_forall in Below. specialize (Below x Ix).
    pose proof (so_refs s Vs) as Rs. rewrite Forall_forall in Rs. specialize (Rs y Iy). lia.
Qed.
End checkpoint.

(** * Witness *)

(** The index trees of the base are not read here. *)
#[local] Instance no_postcard K : PostcardKey K := {|
  pc_ser_key _ := Err "no codec"; pc_ser_entry _ := Err "no codec"; pc_de_key _ := Err "no codec";
  pc_de_entry _ := Err "no codec"; pc_take_entry _ := Err "no codec" |}.
(** A file whose base has one empty fact page, and a handle with two pending facts. *)
Definition delta_disk : MemoryBackend.t := MemoryBackend.mk (<[0 := lineage_page0]> (<[1 := new_packed_page]> ∅)).
Definition delta_bare : PersistentFactStorage MemoryBackend.t :=
  mkPersistent delta_disk (cache_new 4) storage_new true 0 NoDeltaManifest PersistedNone 0 None None 1 1 None.
Definition delta_store : FactStorage := {|
  pending := (insert_batch const_hasher overlay_new demo_facts false).1;
  committed := Some (fact_reader_over Wal.demo_crc demo_decode delta_bare None);
  committed_index_reader := Some (index_reader_over Wal.demo_crc 8 delta_bare lineage_header None);
  publication_generation := 0; tx_counter := 2 |}.
Definition delta_handle : PersistentFactStorage MemoryBackend.t := with_resident delta_bare delta_store 0 None None.
Lemma delta_pending : get_pending_facts delta_store = demo_facts.
Proof. vm_compute. reflexivity. Qed.
Lemma delta_serving : serving Wal.demo_crc demo_decode 8 delta_handle lineage_header [] [].
Proof. split; [reflexivity..|vm_compute; reflexivity|split; vm_compute; [reflexivity|discriminate]]. Qed.
Lemma delta_room : checkpoint_room Wal.demo_crc demo_encode lineage_header PersistedNone [] demo_facts 2.
Proof.
  split; [discriminate|exact demo_facts_ok|exact demo_encodable|repeat constructor; cbn; lia|unfold u64_ok; lia|vm_compute; reflexivity|vm_compute; discriminate
    |vm_compute; reflexivity|].
  intros s E. assert (s = demo_segment) as -> by (apply Ok_inj; rewrite <-E; exact demo_segment_built).
  exists [z2b 1], [z2b 1], [z2b 1]. cbv zeta. split_and!; vm_compute; (reflexivity || discriminate).
Qed.
Lemma delta_checkpoint_recovers_witness :
  ∃ ps' s, try_save_delta_segment Wal.demo_crc demo_encode demo_decode 8 delta_handle demo_facts = Ok (ps', true) ∧
    (sp_facts (DeltaSegment.payload s)).*2 = demo_facts ∧ get_pending_facts (ps_storage ps') = [] ∧
    get_all_facts (ps_storage ps') = Ok demo_facts.
Proof.
  assert (G : get_all_facts (ps_storage delta_handle) = Ok demo_facts) by (vm_compute; reflexivity).
  destruct (delta_checkpoint_recovers Wal.demo_crc demo_encode demo_decode 8 demo_crc_u32 demo_codec demo_nonempty delta_handle lineage_header
    lineage_extension lineage_page0 [] []) as (ps' & s & h' & e' & page0' & E & F & _ & _ & _ & _ & _ & _ & _ & P & _ & A).
  - vm_compute. reflexivity.
  - exact (lineage_state delta_disk).
  - exact delta_serving.
  - constructor.
  - exact delta_room.
  - exists ps', s. split; [exact E|]. split; [exact F|]. split; [exact P|]. rewrite A. exact G.
Defined.
