(* ===== verification/Lexer.v ===== *)
(** The tokenizer of the query language (src/src/query/datalog/parser.rs).

    A [&str] is the list of its [char]s, a [char] its Unicode scalar value; a
    [String] the parser builds is its UTF-8 bytes, as everywhere else.  The
    tables behind [char::is_alphabetic] and [char::is_numeric] beyond ASCII
    are a parameter ([Unicode]) about which nothing is assumed.  The iterator is
    the list of the characters not yet read. *)
From S2P Require Import Prelude Types Floats.
From Stdlib Require Import Floats.SpecFloat Strings.Ascii.

Definition MAX_STRING_LENGTH : Z := 1024 * 1024.
Definition MAX_KEYWORD_LENGTH : Z := 1024.
Definition MAX_SYMBOL_LENGTH : Z := 1024.

Inductive Token : Type :=
| LeftParen | RightParen | LeftBracket | RightBracket | LeftBrace | RightBrace
| TKeyword (s : string)
| TSymbol (s : string)
| TString (s : string)
| TInteger (z : Z)
| TFloat (bits : Z)
| TBoolean (b : bool)
| TTaggedLiteral (s : string)
| TNil
| TBindSlot (s : string).

(** * Characters and strings *)

Class Unicode : Type := {
  unicode_alphabetic : Z → bool;
  unicode_numeric : Z → bool;
}.

Definition chr (a : Ascii.ascii) : Z := Z.of_N (Ascii.N_of_ascii a).
Arguments chr _%_char_scope.
Definition chars (s : string) : list Z := chr <$> String.list_ascii_of_string s.
Definition one_of (s : string) (c : Z) : bool := existsb (Z.eqb c) (chars s).
Definition DQUOTE : Z := 34.
Definition BACKSLASH : Z := 92.
Definition NEWLINE : Z := 10.

Definition ascii_digit (c : Z) : bool := (48 <=? c) && (c <=? 57).
Definition is_numeric `{Unicode} (c : Z) : bool :=
  if c <? 128 then ascii_digit c else unicode_numeric c.
Definition is_alphabetic `{Unicode} (c : Z) : bool :=
  if c <? 128 then (65 <=? c) && (c <=? 90) || (97 <=? c) && (c <=? 122) else unicode_alphabetic c.
Definition is_alphanumeric `{Unicode} (c : Z) : bool := is_alphabetic c || is_numeric c.

(** [char::encode_utf8]. *)
Definition utf8 (c : Z) : bytes :=
  z2b <$> (if c <? 0x80 then [c]
           else if c <? 0x800 then [0xC0 + c / 64; 0x80 + c mod 64]
           else if c <? 0x10000 then [0xE0 + c / 4096; 0x80 + (c / 64) mod 64; 0x80 + c mod 64]
           else [0xF0 + c / 262144; 0x80 + (c / 4096) mod 64; 0x80 + (c / 64) mod 64; 0x80 + c mod 64]).
Definition text (cs : list Z) : string := of_bytes (flat_map utf8 cs).
(** [String::push] and [String::len]. *)
Definition push_char (s : string) (c : Z) : string := s +:+ text [c].
Definition len (s : string) : Z := Z.of_nat (String.length s).

(** * Numbers *)

(** The value of a run of ASCII digits. *)
Definition digits_value (ds : list Z) : Z := foldl (λ n d, n * 10 + (d - 48)) 0 ds.
Definition signed (neg : bool) (n : Z) : Z := if neg then - n else n.
Definition split_sign (cs : list Z) : bool * list Z :=
  match cs with
  | c :: ds => if c =? 45 then (true, ds) else if c =? 43 then (false, ds) else (false, cs)
  | [] => (false, cs)
  end.

(** [str::parse::<i64>]. *)
Definition parse_i64 (cs : list Z) : option Z :=
  let '(neg, ds) := split_sign cs in
  let n := signed neg (digits_value ds) in
  if negb (bool_decide (ds = [])) && forallb ascii_digit ds && (i64_MIN <=? n) && (n <=? i64_MAX)
  then Some n else None.

(** The double nearest to [m / 10^k], ties to even. *)
Definition f64_of_decimal (neg : bool) (m : Z) (k : nat) : Z :=
  match m with
  | Zpos p => Float.encode (SFdiv Float.PREC Float.EMAX (S754_finite neg p 0)
                              (S754_finite false (Z.to_pos (10 ^ Z.of_nat k)) 0))
  | _ => Float.with_sign neg 0
  end.

(** [str::parse::<f64>] of text with no exponent, which is all that
    [parse_number] reads. *)
Definition split_point (cs : list Z) : list Z * list Z :=
  match list_find (λ c, c = 46) cs with
  | Some (i, _) => (take i cs, drop (S i) cs)
  | None => (cs, [])
  end.
Definition parse_f64 (cs : list Z) : option Z :=
  let '(neg, ds) := split_sign cs in
  let '(whole, frac) := split_point ds in
  if negb (bool_decide (whole ++ frac = [])) && forallb ascii_digit (whole ++ frac)
  then Some (f64_of_decimal neg (digits_value (whole ++ frac)) (length frac)) else None.

Section Lexer.
Context `{Unicode}.

(** [parse_number]: whether a point was read, the text, and what is left. *)
Fixpoint parse_number (cs : list Z) (is_float : bool) (num_str : list Z) : bool * list Z * list Z :=
  match cs with
  | c :: cs' =>
    if is_numeric c then parse_number cs' is_float (num_str ++ [c])
    else if (c =? 46) && negb is_float then parse_number cs' true (num_str ++ [c])
    else (is_float, num_str, cs)
  | [] => (is_float, num_str, [])
  end.

Definition lex_number (num_str cs : list Z) : result (Token * list Z) :=
  let '(is_float, num, rest) := parse_number cs false num_str in
  if is_float then f ← ok_or (parse_f64 num) "Float literal out of range"; Ok (TFloat f, rest)
  else i ← ok_or (parse_i64 num) "Integer literal out of range"; Ok (TInteger i, rest).

(** * Names *)

Definition keyword_char (c : Z) : bool := is_alphanumeric c || one_of "/-_" c.
Definition tag_char (c : Z) : bool := is_alphanumeric c || one_of "-" c.
Definition symbol_char (c : Z) : bool := is_alphanumeric c || one_of "?_-/" c.
Definition slot_char (c : Z) : bool := is_alphanumeric c || one_of "_-" c.

(** The loop the name-like tokens share: push while the test holds, with the
    length tested before each push. *)
Fixpoint read_name (ok : Z → bool) (limit : Z) (e : string) (acc : string) (cs : list Z) : result (string * list Z) :=
  match cs with
  | c :: cs' =>
    if ok c then if limit <=? len acc then Err e else read_name ok limit e (push_char acc c) cs'
    else Ok (acc, cs)
  | [] => Ok (acc, [])
  end.

Definition parse_symbol (first : Z) (cs : list Z) : result (string * list Z) :=
  read_name symbol_char MAX_SYMBOL_LENGTH "Symbol exceeds maximum length" (text [first]) cs.

(** [match symbol.as_str()]. *)
Definition symbol_token (s : string) : Token :=
  if bool_decide (s = "true"%string) then TBoolean true
  else if bool_decide (s = "false"%string) then TBoolean false
  else if bool_decide (s = "nil"%string) then TNil
  else TSymbol s.

(** * Strings and comments *)

Definition unescape (c : Z) : Z :=
  if c =? chr "n" then 10 else if c =? chr "t" then 9 else if c =? chr "r" then 13 else c.

Fixpoint read_string (acc : string) (cs : list Z) : result (string * list Z) :=
  match cs with
  | c :: cs' =>
    if c =? DQUOTE then Ok (acc, cs')
    else if c =? BACKSLASH then
      match cs' with
      | escaped :: cs'' => read_string (push_char acc (unescape escaped)) cs''
      | [] => Ok (acc, [])
      end
    else if MAX_STRING_LENGTH <=? len acc then Err "String exceeds maximum length"
    else read_string (push_char acc c) cs'
  | [] => Ok (acc, [])
  end.

Fixpoint skip_comment (cs : list Z) : list Z :=
  match cs with
  | c :: cs' => if c =? NEWLINE then cs else skip_comment cs'
  | [] => []
  end.

(** * One turn of the loop of [tokenize], with [ch] peeked and [cs] behind it *)

Definition lex_punctuation (ch : Z) : option Token :=
  if ch =? chr "(" then Some LeftParen else if ch =? chr ")" then Some RightParen
  else if ch =? chr "[" then Some LeftBracket else if ch =? chr "]" then Some RightBracket
  else if ch =? chr "{" then Some LeftBrace else if ch =? chr "}" then Some RightBrace
  else None.

Definition lex_minus (cs : list Z) : result (Token * list Z) :=
  match cs with
  | next :: _ =>
    if is_numeric next then lex_number [45] cs
    else '(s, rest) ← parse_symbol 45 cs; Ok (TSymbol s, rest)
  | [] => Ok (TSymbol "-", [])
  end.

Definition whitespace (ch : Z) : bool := one_of " ," ch || (ch =? 9) || (ch =? 10) || (ch =? 13).

Definition lex (ch : Z) (cs : list Z) : result (option Token * list Z) :=
  if whitespace ch then Ok (None, cs)
  else match lex_punctuation ch with Some t => Ok (Some t, cs) | None =>
  if ch =? DQUOTE then '(s, rest) ← read_string "" cs; Ok (Some (TString s), rest)
  else if ch =? chr ":" then
    '(k, rest) ← read_name keyword_char MAX_KEYWORD_LENGTH "Keyword exceeds maximum length" ":" cs;
    Ok (Some (TKeyword k), rest)
  else if ch =? chr "#" then
    '(tag, rest) ← read_name tag_char MAX_SYMBOL_LENGTH "Tagged literal exceeds maximum length" "" cs;
    Ok (Some (TTaggedLiteral tag), rest)
  else if ch =? 45 then '(t, rest) ← lex_minus cs; Ok (Some t, rest)
  else if ascii_digit ch then '(t, rest) ← lex_number [] (ch :: cs); Ok (Some t, rest)
  else if is_alphabetic ch || one_of "?_" ch then
    '(s, rest) ← read_name symbol_char MAX_SYMBOL_LENGTH "Symbol exceeds maximum length" "" (ch :: cs);
    Ok (Some (symbol_token s), rest)
  else if one_of "<>=+*/" ch then
    match cs with
    | next :: cs' =>
      if one_of "<>" ch && (next =? chr "=") then Ok (Some (TSymbol (text [ch; next])), cs')
      else Ok (Some (TSymbol (text [ch])), cs)
    | [] => Ok (Some (TSymbol (text [ch])), cs)
    end
  else if ch =? chr "!" then
    match cs with
    | next :: cs' => if next =? chr "=" then Ok (Some (TSymbol "!="), cs') else Err "Unexpected character: !"
    | [] => Err "Unexpected character: !"
    end
  else if ch =? chr ";" then Ok (None, skip_comment cs)
  else if ch =? chr "$" then
    '(name, rest) ← read_name slot_char MAX_SYMBOL_LENGTH "Bind slot name exceeds maximum length" "" cs;
    _ ← ensure (negb (bool_decide (name = ""%string))) "Bind slot '$' must be followed by an identifier";
    Ok (Some (TBindSlot name), rest)
  else Err "Unexpected character"
  end.

(** Every turn reads a character, so the number of characters is enough fuel. *)
Fixpoint tokenize_loop (fuel : nat) (cs : list Z) (tokens : list Token) : result (list Token) :=
  match cs with
  | [] => Ok tokens
  | ch :: rest =>
    match fuel with
    | O => Err "out of fuel"
    | S fuel => '(t, rest) ← lex ch rest; tokenize_loop fuel rest (tokens ++ from_option (λ t, [t]) [] t)
    end
  end.
Definition tokenize (input : list Z) : result (list Token) := tokenize_loop (length input) input [].
End Lexer.

(** * Text *)

Lemma of_bytes_app a b : of_bytes (a ++ b) = of_bytes a +:+ of_bytes b.
Proof. induction a as [|x a IH]; [done|]. exact (f_equal (String (ascii_of_byte x)) IH). Qed.
Lemma of_bytes_length bs : String.length (of_bytes bs) = length bs.
Proof. induction bs as [|x bs IH]; [done|]. cbn. f_equal. exact IH. Qed.
Lemma text_app a b : text (a ++ b) = text a +:+ text b.
Proof. unfold text. by rewrite flat_map_app, of_bytes_app. Qed.
Lemma text_cons c cs : text (c :: cs) = text [c] +:+ text cs.
Proof. apply (text_app [c] cs). Qed.
Lemma string_app_assoc (a b c : string) : (a +:+ b) +:+ c = a +:+ (b +:+ c).
Proof. induction a as [|x a IH]; [done|]. exact (f_equal (String x) IH). Qed.
Lemma string_app_nil (a : string) : a +:+ "" = a.
Proof. induction a as [|x a IH]; [done|]. exact (f_equal (String x) IH). Qed.
Lemma len_app a b : len (a +:+ b) = len a + len b.
Proof. unfold len. induction a as [|x a IH]; [done|]. change (String x a +:+ b) with (String x (a +:+ b)). cbn [String.length]. lia. Qed.
Lemma len_char c : 1 ≤ len (text [c]) ≤ 4.
Proof.
  unfold len, text. rewrite of_bytes_length. cbn [flat_map]. rewrite app_nil_r. unfold utf8. rewrite length_fmap.
  repeat case_match; cbn; lia.
Qed.
Lemma push_text acc c cs : push_char acc c +:+ text cs = acc +:+ text (c :: cs).
Proof. unfold push_char. by rewrite string_app_assoc, (text_cons c cs). Qed.
Lemma len_nonneg s : 0 ≤ len s.
Proof. unfold len. lia. Qed.

(** Characters as numbers, for [lia]. *)
Ltac char_norm :=
  repeat match goal with
  | |- context [chars ?s] => let v := eval vm_compute in (chars s) in change (chars s) with v
  | |- context [chr ?a] => let v := eval vm_compute in (chr a) in change (chr a) with v
  | H : context [chars ?s] |- _ => let v := eval vm_compute in (chars s) in change (chars s) with v in H
  | H : context [chr ?a] |- _ => let v := eval vm_compute in (chr a) in change (chr a) with v in H
  end.
Ltac char_lia :=
  unfold keyword_char, tag_char, symbol_char, slot_char, is_alphanumeric, is_alphabetic, is_numeric, whitespace, one_of, ascii_digit,
    DQUOTE, BACKSLASH, NEWLINE in *; char_norm; cbn [existsb] in *;
  repeat match goal with
  | |- context [?c <? 128] => destruct (Z.ltb_spec c 128)
  | H : context [?c <? 128] |- _ => destruct (Z.ltb_spec c 128)
  | |- context [unicode_alphabetic ?c] => destruct (unicode_alphabetic c)
  | |- context [unicode_numeric ?c] => destruct (unicode_numeric c)
  end; lia.

Section LexerProofs.
Context `{Unicode}.

(** What may follow a token that reads as long as a test holds. *)
Definition stops (ok : Z → bool) (rest : list Z) : Prop :=
  match rest with c :: _ => ok c = false | [] => True end.

Lemma read_name_ok ok limit e name : ∀ acc rest,
  Forall (λ c, ok c = true) name → stops ok rest → len (acc +:+ text name) ≤ limit →
  read_name ok limit e acc (name ++ rest) = Ok (acc +:+ text name, rest).
Proof.
  induction name as [|c name IH]; intros acc rest F St L; cbn [app read_name].
  - rewrite string_app_nil. destruct rest as [|c rest]; [done|]. cbn in St |- *. by rewrite St.
  - apply Forall_cons in F as [Fc F]. rewrite Fc. rewrite <-push_text in L |- *.
    pose proof (len_char c). pose proof (len_nonneg (text name)). pose proof L as L'. unfold push_char in L'. rewrite !len_app in L'.
    destruct (Z.leb_spec limit (len acc)); [lia|]. by apply IH.
Qed.

(** The body of a string literal and the characters it stands for. *)
Inductive quoted : list Z → list Z → Prop :=
| quoted_nil : quoted [] []
| quoted_plain c body cs : c ≠ DQUOTE → c ≠ BACKSLASH → quoted body cs → quoted (c :: body) (c :: cs)
| quoted_escape e body cs : quoted body cs → quoted (BACKSLASH :: e :: body) (unescape e :: cs).

Lemma read_string_ok body cs : quoted body cs → ∀ acc rest, len (acc +:+ text cs) ≤ MAX_STRING_LENGTH →
  read_string acc (body ++ DQUOTE :: rest) = Ok (acc +:+ text cs, rest).
Proof.
  induction 1 as [|c body cs N1 N2 Q IH|e body cs Q IH]; intros acc rest L; cbn [app read_string].
  - rewrite string_app_nil. by rewrite Z.eqb_refl.
  - rewrite (proj2 (Z.eqb_neq c DQUOTE) N1), (proj2 (Z.eqb_neq c BACKSLASH) N2).
    rewrite <-push_text in L |- *. pose proof (len_char c). pose proof (len_nonneg (text cs)).
    pose proof L as L'. unfold push_char in L'. rewrite !len_app in L'.
    destruct (Z.leb_spec MAX_STRING_LENGTH (len acc)); [lia|]. by apply IH.
  - change (BACKSLASH =? DQUOTE) with false. rewrite Z.eqb_refl. cbn [app]. rewrite <-push_text in L |- *. by apply IH.
Qed.

Definition digits (ds : list Z) : Prop := Forall (λ d, ascii_digit d = true) ds.
Lemma digit_numeric d : ascii_digit d = true → is_numeric d = true.
Proof. intros. char_lia. Qed.

Lemma parse_digits ds : ∀ rest b acc, digits ds → parse_number (ds ++ rest) b acc = parse_number rest b (acc ++ ds).
Proof.
  induction ds as [|d ds IH]; intros rest b acc D; [by rewrite app_nil_r|].
  apply Forall_cons in D as [Dd D]. cbn [app parse_number]. rewrite (digit_numeric d Dd), IH by done. by rewrite <-app_assoc.
Qed.
(** A number ends where no digit follows, and no point after an integer. *)
Definition number_ends (is_float : bool) (rest : list Z) : Prop :=
  stops (λ c, is_numeric c || (c =? 46) && negb is_float) rest.
Lemma parse_number_end b acc rest : number_ends b rest → parse_number rest b acc = (b, acc, rest).
Proof.
  destruct rest as [|c rest]; [done|]. cbn. intros [-> X]%orb_false_iff. by rewrite X.
Qed.

Lemma split_point_digits ds fs : digits ds → split_point (ds ++ 46 :: fs) = (ds, fs).
Proof.
  intros D. unfold split_point.
  assert (list_find (λ c, c = 46) (ds ++ 46 :: fs) = Some (length ds, 46)) as ->.
  { apply list_find_Some. rewrite list_lookup_middle by done. split; [done|]. split; [done|].
    intros j y L Lt ->. rewrite lookup_app_l in L by done. unfold digits in D. rewrite Forall_lookup in D. specialize (D _ _ L). done. }
  rewrite take_app_length. rewrite drop_app_ge by lia. by replace (S (length ds) - length ds)%nat with 1%nat by lia.
Qed.
Lemma forallb_digits ds : digits ds → forallb ascii_digit ds = true.
Proof. unfold digits. rewrite forallb_forall, Forall_forall. intros D x I. apply D. by apply list_elem_of_In. Qed.

Definition minus (neg : bool) : list Z := if neg then [45] else [].
Lemma split_sign_minus neg ds : digits (take 1 ds) → split_sign (minus neg ++ ds) = (neg, ds).
Proof. destruct neg; [done|]. destruct ds as [|d ds]; [done|]. intros D%Forall_cons_1. destruct D as [D _]. cbn.
  destruct (Z.eqb_spec d 45); [subst; done|]. destruct (Z.eqb_spec d 43); [subst; done|]. done.
Qed.
Lemma digits_take ds : digits ds → digits (take 1 ds).
Proof. apply Forall_take. Qed.

(** Reading a literal, after its first character has chosen the branch. *)
Lemma lex_integer neg ds rest : digits ds → ds ≠ [] → number_ends false rest →
  lex_number (minus neg) (ds ++ rest) =
  if (i64_MIN <=? signed neg (digits_value ds)) && (signed neg (digits_value ds) <=? i64_MAX)
  then Ok (TInteger (signed neg (digits_value ds)), rest) else Err "Integer literal out of range".
Proof.
  intros D Ne St. unfold lex_number. rewrite parse_digits, parse_number_end by done.
  unfold parse_i64. rewrite split_sign_minus by by apply digits_take. rewrite bool_decide_eq_false_2 by done.
  rewrite forallb_digits by done. cbn [negb andb]. by destruct (_ && _).
Qed.
Lemma lex_float neg ds fs rest : digits ds → digits fs → ds ≠ [] → number_ends true rest →
  lex_number (minus neg) (ds ++ 46 :: fs ++ rest) =
  Ok (TFloat (f64_of_decimal neg (digits_value (ds ++ fs)) (length fs)), rest).
Proof.
  intros D F Ne St. unfold lex_number. rewrite parse_digits by done. cbn [parse_number].
  assert (is_numeric 46 = false) as -> by char_lia. cbn [Z.eqb negb andb Pos.eqb].
  rewrite parse_digits, parse_number_end by done.
  unfold parse_f64. rewrite <-!app_assoc. cbn [app]. rewrite split_sign_minus, split_point_digits; [|done|].
  2: { destruct ds as [|d ds]; [done|]. cbn. apply Forall_cons in D as [D _]. repeat constructor. done. }
  rewrite bool_decide_eq_false_2 by (destruct ds; done). rewrite forallb_app, !forallb_digits by done. done.
Qed.

(** * The lexical grammar *)

(** [spells rest t body]: the characters [body], with [rest] behind them, read as
    the one token [t]. *)
Inductive spells (rest : list Z) : Token → list Z → Prop :=
| spells_punctuation c t : lex_punctuation c = Some t → spells rest t [c]
| spells_string body cs : quoted body cs → len (text cs) ≤ MAX_STRING_LENGTH →
    spells rest (TString (text cs)) (DQUOTE :: body ++ [DQUOTE])
| spells_keyword name : Forall (λ c, keyword_char c = true) name → stops keyword_char rest →
    len (text (58 :: name)) ≤ MAX_KEYWORD_LENGTH → spells rest (TKeyword (text (58 :: name))) (58 :: name)
| spells_tag name : Forall (λ c, tag_char c = true) name → stops tag_char rest →
    len (text name) ≤ MAX_SYMBOL_LENGTH → spells rest (TTaggedLiteral (text name)) (35 :: name)
| spells_slot name : name ≠ [] → Forall (λ c, slot_char c = true) name → stops slot_char rest →
    len (text name) ≤ MAX_SYMBOL_LENGTH → spells rest (TBindSlot (text name)) (36 :: name)
| spells_symbol c name : is_alphabetic c || one_of "?_" c = true → Forall (λ c, symbol_char c = true) name →
    stops symbol_char rest → len (text (c :: name)) ≤ MAX_SYMBOL_LENGTH →
    spells rest (symbol_token (text (c :: name))) (c :: name)
| spells_minus name : Forall (λ c, symbol_char c = true) name → stops is_numeric (name ++ rest) →
    stops symbol_char rest → len (text (45 :: name)) ≤ MAX_SYMBOL_LENGTH →
    spells rest (TSymbol (text (45 :: name))) (45 :: name)
| spells_operator c : one_of "=+*/" c = true → spells rest (TSymbol (text [c])) [c]
| spells_compare c : one_of "<>" c = true → stops (Z.eqb 61) rest → spells rest (TSymbol (text [c])) [c]
| spells_compare_eq c : one_of "<>" c = true → spells rest (TSymbol (text [c; 61])) [c; 61]
| spells_unequal : spells rest (TSymbol "!=") [33; 61]
| spells_integer neg ds : digits ds → ds ≠ [] → number_ends false rest →
    i64_ok (signed neg (digits_value ds)) → spells rest (TInteger (signed neg (digits_value ds))) (minus neg ++ ds)
| spells_float neg ds fs : digits ds → digits fs → ds ≠ [] → number_ends true rest →
    spells rest (TFloat (f64_of_decimal neg (digits_value (ds ++ fs)) (length fs))) (minus neg ++ ds ++ 46 :: fs).

Inductive lexes : list Token → list Z → Prop :=
| lexes_nil : lexes [] []
| lexes_space c ts cs : whitespace c = true → lexes ts cs → lexes ts (c :: cs)
| lexes_comment body ts cs : Forall (λ c, c ≠ NEWLINE) body → stops (λ c, negb (c =? NEWLINE)) cs →
    lexes ts cs → lexes ts (59 :: body ++ cs)
| lexes_token t body ts cs : spells cs t body → lexes ts cs → lexes (t :: ts) (body ++ cs).

Lemma one_of_In s c : one_of s c = true → In c (chars s).
Proof. unfold one_of. rewrite existsb_exists. by intros (x & I & ->%Z.eqb_eq). Qed.
Lemma symbol_start c : is_alphabetic c || one_of "?_" c = true → symbol_char c = true ∧
  whitespace c = false ∧ lex_punctuation c = None ∧ (c =? DQUOTE) = false ∧ (c =? 58) = false ∧ (c =? 35) = false ∧
  (c =? 45) = false ∧ ascii_digit c = false.
Proof.
  intros C. assert (lex_punctuation c = None) as P.
  { unfold lex_punctuation. char_norm.
    repeat match goal with |- context [c =? ?n] => destruct (Z.eqb_spec c n) as [->|_]; [exfalso; revert C; char_lia|] end. done. }
  repeat split; try done; revert C; char_lia.
Qed.
Lemma digit_start c : ascii_digit c = true →
  whitespace c = false ∧ lex_punctuation c = None ∧ (c =? DQUOTE) = false ∧ (c =? 58) = false ∧ (c =? 35) = false ∧ (c =? 45) = false.
Proof.
  intros C. assert (lex_punctuation c = None) as P.
  { unfold lex_punctuation. char_norm.
    repeat match goal with |- context [c =? ?n] => destruct (Z.eqb_spec c n) as [->|_]; [exfalso; revert C; char_lia|] end. done. }
  repeat split; try done; revert C; char_lia.
Qed.
(** The branches chosen by one character. *)
Lemma lex_quote cs : lex DQUOTE cs = ('(s, rest) ← read_string "" cs; Ok (Some (TString s), rest)).
Proof. reflexivity. Qed.
Lemma lex_colon cs : lex 58 cs =
  ('(k, rest) ← read_name keyword_char MAX_KEYWORD_LENGTH "Keyword exceeds maximum length" ":" cs; Ok (Some (TKeyword k), rest)).
Proof. reflexivity. Qed.
Lemma lex_hash cs : lex 35 cs =
  ('(k, rest) ← read_name tag_char MAX_SYMBOL_LENGTH "Tagged literal exceeds maximum length" "" cs; Ok (Some (TTaggedLiteral k), rest)).
Proof. reflexivity. Qed.
Lemma lex_dollar cs : lex 36 cs =
  ('(name, rest) ← read_name slot_char MAX_SYMBOL_LENGTH "Bind slot name exceeds maximum length" "" cs;
    _ ← ensure (negb (bool_decide (name = ""%string))) "Bind slot '$' must be followed by an identifier";
    Ok (Some (TBindSlot name), rest)).
Proof. reflexivity. Qed.
Lemma lex_dash cs : lex 45 cs = ('(t, rest) ← lex_minus cs; Ok (Some t, rest)).
Proof. reflexivity. Qed.
Lemma lex_semicolon cs : lex 59 cs = Ok (None, skip_comment cs).
Proof. reflexivity. Qed.

Lemma digits_lex neg d ds rest : ascii_digit d = true →
  lex (hd 0 (minus neg ++ d :: ds)) (tl (minus neg ++ d :: ds) ++ rest) =
  ('(t, r) ← lex_number (minus neg) ((d :: ds) ++ rest); Ok (Some t, r)).
Proof.
  intros D. destruct neg; cbn [minus app hd tl].
  - rewrite lex_dash. cbn [lex_minus]. by rewrite (digit_numeric d D).
  - unfold lex. destruct (digit_start d D) as (-> & -> & -> & E1 & E2 & ->). change (chr ":") with 58. change (chr "#") with 35. by rewrite E1, E2, D.
Qed.

Lemma spells_lex rest t body : spells rest t body → ∃ c cs, body = c :: cs ∧ lex c (cs ++ rest) = Ok (Some t, rest).
Proof.
  destruct 1 as [c t P|body cs Q L|name F St L|name F St L|name Ne F St L|c name C F St L|name F Sn St L|c C|c C St|c C| |neg ds D Ne St O|neg ds fs D F Ne St].
  - exists c, []. split; [done|]. unfold lex. assert (whitespace c = false) as ->; [|by rewrite P].
    revert P. unfold lex_punctuation. char_norm. intros P.
    repeat match type of P with context [c =? ?n] => destruct (Z.eqb_spec c n) as [->|_]; [reflexivity|] end. done.
  - exists DQUOTE, (body ++ [DQUOTE]). split; [done|]. rewrite <-app_assoc. cbn [app].
    by rewrite lex_quote, (read_string_ok body cs Q "" rest).
  - exists 58, name. split; [done|]. rewrite lex_colon. rewrite text_cons in L |- *. change ":"%string with (text [58]).
    by rewrite read_name_ok.
  - exists 35, name. split; [done|]. by rewrite lex_hash, (read_name_ok _ _ _ _ "").
  - exists 36, name. split; [done|]. rewrite lex_dollar.
    rewrite (read_name_ok _ _ _ _ "") by done. cbn [mbind result_bind]. rewrite bool_decide_eq_false_2; [done|].
    destruct name as [|c name]; [done|]. intros E. apply (f_equal len) in E. rewrite text_cons in E.
    pose proof (len_char c). pose proof (len_nonneg (text name)). rewrite !len_app in E. change (len "") with 0 in E. lia.
  - exists c, name. split; [done|]. destruct (symbol_start c C) as (Sc & E1 & E2 & E3 & E4 & E5 & E6 & E7).
    unfold lex. change (chr ":") with 58. change (chr "#") with 35. rewrite E1, E2, E3, E4, E5, E6, E7, C.
    change (c :: name ++ rest) with ((c :: name) ++ rest). by rewrite (read_name_ok _ _ _ _ "") by (by constructor || done).
  - exists 45, name. split; [done|]. rewrite lex_dash. unfold lex_minus.
    assert (parse_symbol 45 (name ++ rest) = Ok (text (45 :: name), rest)) as X.
    { unfold parse_symbol. rewrite (text_cons 45 name) in L |- *. by rewrite read_name_ok. }
    destruct (name ++ rest) as [|c cs] eqn:E; [apply app_nil in E as [-> ->]; done|]. cbn in Sn. by rewrite Sn, X.
  - apply one_of_In in C. exists c, []. split; [done|]. destruct C as [<-|[<-|[<-|[<-|[]]]]]; by destruct rest.
  - apply one_of_In in C. exists c, []. split; [done|]. destruct rest as [|x rest]; [by destruct C as [<-|[<-|[]]]|]. cbn in St.
    assert ((x =? chr "=") = false) as X by (change (chr "=") with 61; by rewrite Z.eqb_sym).
    unfold lex. cbn [app]. rewrite X. by destruct C as [<-|[<-|[]]].
  - apply one_of_In in C. exists c, [61]. split; [done|]. by destruct C as [<-|[<-|[]]].
  - by exists 33, [61].
  - destruct ds as [|d ds]; [done|]. exists (hd 0 (minus neg ++ d :: ds)), (tl (minus neg ++ d :: ds)). split; [by destruct neg|].
    rewrite digits_lex by by apply Forall_cons in D as [? _]. rewrite lex_integer by done.
    destruct O. unfold i64_MIN, i64_MAX. rewrite andb_true_intro by (rewrite !Z.leb_le; lia). done.
  - destruct ds as [|d ds]; [done|]. exists (hd 0 (minus neg ++ d :: ds)), (tl (minus neg ++ d :: ds) ++ 46 :: fs). split; [by destruct neg|].
    rewrite <-app_assoc. rewrite digits_lex by by apply Forall_cons in D as [? _]. cbn [app].
    change (d :: ds ++ 46 :: fs ++ rest) with ((d :: ds) ++ 46 :: fs ++ rest). by rewrite lex_float.
Qed.

Lemma skip_comment_ok body cs : Forall (λ c, c ≠ NEWLINE) body → stops (λ c, negb (c =? NEWLINE)) cs →
  skip_comment (body ++ cs) = cs.
Proof.
  intros F St. induction F as [|c body N F IH]; cbn.
  - destruct cs as [|c cs]; [done|]. cbn in St |- *. apply negb_false_iff in St. by rewrite St.
  - by rewrite (proj2 (Z.eqb_neq _ _) N).
Qed.

Lemma lexes_loop ts cs : lexes ts cs → ∀ fuel acc, (length cs ≤ fuel)%nat → tokenize_loop fuel cs acc = Ok (acc ++ ts).
Proof.
  induction 1 as [|c ts cs W L IH|body ts cs F St L IH|t body ts cs Sp L IH]; intros fuel acc Fu.
  - by destruct fuel; cbn; rewrite app_nil_r.
  - destruct fuel as [|fuel]; cbn in Fu; [lia|]. cbn [tokenize_loop]. unfold lex. rewrite W. cbn. rewrite app_nil_r. apply IH. lia.
  - destruct fuel as [|fuel]; cbn in Fu; [lia|]. cbn [tokenize_loop]. rewrite lex_semicolon, skip_comment_ok by done.
    cbn [mbind result_bind from_option]. rewrite app_nil_r. apply IH. rewrite length_app in Fu. lia.
  - destruct (spells_lex cs t body Sp) as (c & cs' & -> & E). rewrite length_app in Fu. cbn [length] in Fu.
    destruct fuel as [|fuel]; [lia|]. cbn [app tokenize_loop]. rewrite E. cbn [mbind result_bind from_option].
    rewrite IH by lia. by rewrite <-app_assoc.
Qed.
Lemma tokenize_lexes ts cs : lexes ts cs → tokenize cs = Ok ts.
Proof. intros L. unfold tokenize. by rewrite (lexes_loop ts cs L). Qed.

(** * What every input gives *)

Definition lex_errors : list string :=
  ["String exceeds maximum length"; "Keyword exceeds maximum length"; "Tagged literal exceeds maximum length";
   "Symbol exceeds maximum length"; "Bind slot name exceeds maximum length"; "Bind slot '$' must be followed by an identifier";
   "Float literal out of range"; "Integer literal out of range"; "Unexpected character: !"; "Unexpected character"].

Ltac known_error := apply (bool_decide_unpack _); vm_compute; exact I.

(** The length is tested before a character is pushed, so a name may exceed its
    limit by the bytes of one character less one. *)
Definition token_bounded (t : Token) : Prop :=
  match t with
  | TKeyword s => 1 ≤ len s ≤ MAX_KEYWORD_LENGTH + 3
  | TSymbol s | TBindSlot s => 1 ≤ len s ≤ MAX_SYMBOL_LENGTH + 3
  | TTaggedLiteral s => len s ≤ MAX_SYMBOL_LENGTH + 3
  | TInteger z => i64_ok z
  | _ => True
  end.

Lemma read_name_bounds ok limit e cs : ∀ acc,
  match read_name ok limit e acc cs with
  | Ok (s, rest) => len acc ≤ len s ≤ Z.max (len acc) (limit + 3) ∧ (length rest ≤ length cs)%nat ∧
      (∀ c cs', cs = c :: cs' → ok c = true → len acc < len s ∧ (length rest ≤ length cs')%nat)
  | Err x => x = e
  end.
Proof.
  induction cs as [|c cs IH]; intros acc; cbn [read_name]; [split; [lia|]; split; [done|]; naive_solver|].
  destruct (ok c) eqn:O; [|split; [lia|]; split; [done|]; intros ? ? [= <- <-]; congruence]. destruct (Z.leb_spec limit (len acc)); [done|].
  specialize (IH (push_char acc c)). destruct (read_name _ _ _ _ _) as [[s rest]|x]; [|done]. destruct IH as (B & L & _).
  unfold push_char in B. rewrite len_app in B. pose proof (len_char c). cbn [length]. split; [lia|]. split; [lia|].
  intros ? ? [= <- <-] _. lia.
Qed.
Lemma read_string_total cs : ∀ acc n, (length cs ≤ n)%nat →
  match read_string acc cs with Ok (_, rest) => (length rest ≤ length cs)%nat | Err x => x = "String exceeds maximum length" end.
Proof.
  intros acc n. revert acc cs. induction n as [|n IH]; intros acc [|c cs] L; cbn [read_string length] in *; try lia.
  destruct (c =? DQUOTE); [lia|]. destruct (c =? BACKSLASH).
  - destruct cs as [|x cs]; cbn [length] in *; [lia|]. specialize (IH (push_char acc (unescape x)) cs ltac:(lia)).
    destruct (read_string _ _) as [[s rest]|e]; [lia|done].
  - destruct (_ <=? _); [done|]. specialize (IH (push_char acc c) cs ltac:(lia)). destruct (read_string _ _) as [[s rest]|e]; [lia|done].
Qed.
Lemma parse_number_shrinks cs : ∀ b acc, (length (parse_number cs b acc).2 ≤ length cs)%nat.
Proof.
  induction cs as [|c cs IH]; intros b acc; cbn [parse_number]; [done|].
  destruct (is_numeric c); [etrans; [apply IH|cbn; lia]|]. destruct (_ && _); [etrans; [apply IH|cbn; lia]|done].
Qed.
Lemma lex_number_total num cs :
  match lex_number num cs with
  | Ok (t, rest) => token_bounded t ∧ (length rest ≤ length cs)%nat ∧
      (∀ c cs', cs = c :: cs' → is_numeric c = true → (length rest ≤ length cs')%nat)
  | Err e => e ∈ lex_errors
  end.
Proof.
  unfold lex_number. pose proof (parse_number_shrinks cs false num) as P.
  assert (∀ c cs', cs = c :: cs' → is_numeric c = true → (length (parse_number cs false num).2 ≤ length cs')%nat) as Q.
  { intros c cs' -> C. cbn. rewrite C. apply parse_number_shrinks. }
  destruct (parse_number cs false num) as [[b n] rest]. cbn [snd] in P, Q. destruct b.
  - destruct (parse_f64 n); cbn; [done|]. known_error.
  - unfold parse_i64. destruct (split_sign n) as [neg ds]. destruct (_ && _) eqn:E; cbn; [|known_error].
    split; [|done]. apply andb_prop in E as [E E2]. apply andb_prop in E as [_ E1]. apply Z.leb_le in E1, E2. ilia.
Qed.
Lemma skip_comment_shrinks cs : (length (skip_comment cs) ≤ length cs)%nat.
Proof. induction cs as [|c cs IH]; cbn; [done|]. destruct (_ =? _); cbn; lia. Qed.

Lemma lex_total c cs :
  match lex c cs with
  | Ok (t, rest) => from_option token_bounded True t ∧ (length rest ≤ length cs)%nat
  | Err e => e ∈ lex_errors
  end.
Proof.
  unfold lex. destruct (whitespace c); [done|]. destruct (lex_punctuation c) as [t|] eqn:P.
  { split; [|done]. unfold lex_punctuation in P. repeat (case_match; [by simplify_eq|]). done. }
  destruct (c =? DQUOTE).
  { pose proof (read_string_total cs "" _ (le_n _)) as X. destruct (read_string _ _) as [[s rest]|e]; cbn; [done|]. subst. known_error. }
  destruct (c =? chr ":").
  { pose proof (read_name_bounds keyword_char MAX_KEYWORD_LENGTH "Keyword exceeds maximum length" cs ":") as X.
    destruct (read_name _ _ _ _ _) as [[s rest]|e]; cbn; [|subst; known_error].
    change (len ":") with 1 in X. unfold MAX_KEYWORD_LENGTH in *. naive_solver lia. }
  destruct (c =? chr "#").
  { pose proof (read_name_bounds tag_char MAX_SYMBOL_LENGTH "Tagged literal exceeds maximum length" cs "") as X.
    destruct (read_name _ _ _ _ _) as [[s rest]|e]; cbn; [|subst; known_error].
    change (len "") with 0 in X. unfold MAX_SYMBOL_LENGTH in *. naive_solver lia. }
  destruct (c =? 45).
  { unfold lex_minus. destruct cs as [|x cs]; [cbn; split; [|done]; change (len "-") with 1; unfold MAX_SYMBOL_LENGTH; lia|].
    destruct (is_numeric x).
    - pose proof (lex_number_total [45] (x :: cs)) as X. destruct (lex_number _ _) as [[t rest]|e]; cbn; [naive_solver|done].
    - unfold parse_symbol. pose proof (read_name_bounds symbol_char MAX_SYMBOL_LENGTH "Symbol exceeds maximum length" (x :: cs) (text [45])) as X.
      destruct (read_name _ _ _ _ _) as [[s rest]|e]; cbn [mbind result_bind from_option token_bounded]; [|subst; known_error].
      change (len (text [45])) with 1 in X. unfold MAX_SYMBOL_LENGTH in *. naive_solver lia. }
  destruct (ascii_digit c) eqn:D.
  { pose proof (lex_number_total [] (c :: cs)) as X. destruct (lex_number _ _) as [[t rest]|e]; cbn; [|done].
    destruct X as (B & _ & L). split; [done|]. eapply L; [done|]. by apply digit_numeric. }
  destruct (is_alphabetic c || one_of "?_" c) eqn:A.
  { pose proof (read_name_bounds symbol_char MAX_SYMBOL_LENGTH "Symbol exceeds maximum length" (c :: cs) "") as X.
    destruct (read_name _ _ _ _ _) as [[s rest]|e]; cbn; [|subst; known_error].
    destruct X as (B & _ & L). destruct (L c cs eq_refl) as [L1 L2]; [by apply symbol_start|]. split; [|done].
    unfold symbol_token. repeat case_match; cbn; try done. change (len "") with 0 in *. unfold MAX_SYMBOL_LENGTH in *. lia. }
  assert (∀ s, 1 ≤ len s ≤ 8 → 1 ≤ len s ≤ MAX_SYMBOL_LENGTH + 3) as Sm by (unfold MAX_SYMBOL_LENGTH; lia).
  destruct (one_of "<>=+*/" c).
  { pose proof (len_char c) as C. destruct cs as [|x cs]; cbn [from_option token_bounded]; [split; [apply Sm; lia|done]|].
    pose proof (len_char x) as X. destruct (_ && _); cbn [from_option token_bounded]; (split; [|cbn; lia]); apply Sm; [|lia].
    rewrite text_cons, len_app. lia. }
  destruct (c =? chr "!").
  { destruct cs as [|x cs]; [known_error|]. destruct (x =? chr "="); [|known_error].
    split; [|cbn; lia]. cbn. apply Sm. done. }
  destruct (c =? chr ";"); [split; [done|apply skip_comment_shrinks]|].
  destruct (c =? chr "$"); [|known_error].
  pose proof (read_name_bounds slot_char MAX_SYMBOL_LENGTH "Bind slot name exceeds maximum length" cs "") as X.
  destruct (read_name _ _ _ _ _) as [[s rest]|e]; cbn [mbind result_bind]; [|subst; known_error].
  destruct (bool_decide_reflect (s = ""%string)); cbn; [known_error|].
  change (len "") with 0 in X. destruct X as (B & L & _). split; [|done]. split; [|unfold MAX_SYMBOL_LENGTH in *; lia].
  destruct s; [done|]. unfold len. cbn [String.length]. lia.
Qed.

Lemma tokenize_loop_total fuel : ∀ cs acc, (length cs ≤ fuel)%nat → Forall token_bounded acc →
  match tokenize_loop fuel cs acc with Ok ts => Forall token_bounded ts | Err e => e ∈ lex_errors end.
Proof.
  induction fuel as [|fuel IH]; intros [|c cs] acc L F; cbn [tokenize_loop length] in *; try done; [lia|].
  pose proof (lex_total c cs) as X. destruct (lex c cs) as [[t rest]|e]; cbn [mbind result_bind]; [|done].
  destruct X as [B R]. apply IH; [lia|]. apply Forall_app. split; [done|]. destruct t; [by repeat constructor|constructor].
Qed.
End LexerProofs.

(** C40: the tokenizer ends on every input with bounded tokens or with one of its
    ten errors.  Names exceed their limit by at most the three extra bytes of the
    last character, and integers fit in [i64]: an integer literal that does not
    is refused, whatever its sign. *)
Theorem tokens_bounded `{Unicode} cs neg ds rest :
  (match tokenize cs with Ok ts => Forall token_bounded ts | Err e => e ∈ lex_errors end) ∧
  (digits ds → ds ≠ [] → number_ends false rest → ¬ i64_ok (signed neg (digits_value ds)) →
   tokenize (minus neg ++ ds ++ rest) = Err "Integer literal out of range").
Proof.
  split; [by apply tokenize_loop_total; [|constructor]|]. intros D Ne St B. unfold tokenize.
  destruct ds as [|d ds]; [done|]. pose proof (digits_lex neg d ds rest ltac:(by apply Forall_cons in D as [? _])) as X.
  rewrite lex_integer in X by done. rewrite app_assoc.
  destruct (minus neg ++ d :: ds) as [|c cs'] eqn:E; [by destruct neg|]. cbn [app length tokenize_loop hd tl] in *. rewrite X.
  destruct (_ && _) eqn:I; [|done]. apply andb_prop in I as [I1 I2]. apply Z.leb_le in I1, I2. unfold i64_ok, i64_MIN, i64_MAX in *. lia.
Qed.

Lemma tokens_bounded_witness : let U := {| unicode_alphabetic := λ _, false; unicode_numeric := λ _, false |} in
  @tokenize U (minus true ++ chars "9223372036854775809" ++ []) = Err "Integer literal out of range".
Proof.
  cbn zeta. apply (@tokens_bounded _ [] true (chars "9223372036854775809") []); [|done|done|].
  - unfold digits. apply Forall_forall. intros d I. revert d I. apply Forall_forall. repeat constructor.
  - vm_compute. intros [X _]. by apply X.
Defined.

(** Escapes are pushed without the length test: the limit does not bound strings. *)
Lemma escapes_unlimited `{Unicode} n :
  tokenize (DQUOTE :: concat (replicate n [BACKSLASH; chr "n"]) ++ [DQUOTE]) = Ok [TString (text (replicate n 10))].
Proof.
  unfold tokenize. cbn [length tokenize_loop]. rewrite lex_quote.
  assert (∀ acc, read_string acc (concat (replicate n [BACKSLASH; chr "n"]) ++ [DQUOTE]) = Ok (acc +:+ text (replicate n 10), [])) as ->.
  { induction n as [|n IH]; intros acc; cbn [replicate concat app].
    - cbn [read_string]. rewrite Z.eqb_refl. by rewrite string_app_nil.
    - cbn [read_string]. change (BACKSLASH =? DQUOTE) with false. rewrite Z.eqb_refl, IH. change (unescape (chr "n")) with 10.
      by rewrite push_text. }
  cbn [mbind result_bind from_option]. by destruct (length _).
Qed.
(** An unterminated string is a token. *)
Lemma unterminated_string `{Unicode} : tokenize (DQUOTE :: chars "abc") = Ok [TString "abc"].
Proof. reflexivity. Qed.
