(* ===== verification/FileLock.v ===== *)
(** The advisory lock of a database file (src/src/storage/backend/file.rs).

    The lock is a side file that appears atomically, with the process id of its
    holder in it; a process that finds one reads it, keeps out when the holder
    is another live process, and otherwise removes the file and tries again, at
    most four times.  The first part is [acquire] as one process runs it alone;
    in the second part any number of processes interleave their file-system
    calls, one call at a time: staging the process id, linking it into place,
    removing the staged file, reading the lock and removing it are separate
    calls, as they are in the code.  A file's content is its characters.  A call
    fails only when the state of the directory makes it fail: disk-full and
    permission errors, which end [acquire] with an error, are left out. *)
From S2P Require Import Prelude Types Floats Lexer.

(** * Process ids as text *)

(** [char::is_whitespace], for [str::trim]. *)
Definition is_whitespace (c : Z) : bool :=
  (9 <=? c) && (c <=? 13) || (0x2000 <=? c) && (c <=? 0x200A) ||
  bool_decide (c ∈ [32; 0x85; 0xA0; 0x1680; 0x2028; 0x2029; 0x202F; 0x205F; 0x3000]).
Fixpoint trim_start (cs : list Z) : list Z :=
  match cs with
  | c :: cs' => if is_whitespace c then trim_start cs' else cs
  | [] => []
  end.
Definition trim (cs : list Z) : list Z := rev (trim_start (rev (trim_start cs))).

(** [str::parse::<u32>]. *)
Definition parse_u32 (cs : list Z) : option Z :=
  let ds := match cs with c :: ds => if c =? 43 then ds else cs | [] => [] end in
  let n := digits_value ds in
  if negb (bool_decide (ds = [])) && forallb ascii_digit ds && (n <=? u32_MAX) then Some n else None.

(** [write!(f, "{our_pid}")] of a [u32], which has at most ten digits. *)
Fixpoint decimal (fuel : nat) (n : Z) : list Z :=
  match fuel with
  | O => []
  | S fuel => if n <? 10 then [48 + n] else decimal fuel (n / 10) ++ [48 + n mod 10]
  end.
Definition show_pid (pid : Z) : list Z := decimal 10 pid.

(** * One process *)

(** The directory entry of the lock: its content, if it exists. *)
Definition LockFile : Type := option (list Z).

Section acquire.
(** What [Path::exists] says of [/proc/<pid>] and of [/proc]. *)
Context (proc_pid_exists : Z → bool) (proc_exists : bool).

Definition is_process_alive (pid : Z) : bool :=
  if proc_pid_exists pid then true
  else if proc_exists then false
  else true.

(** [hard_link] of the staged file, then the content of the lock that was
    already there. *)
Definition try_create (lock : LockFile) (our_pid : Z) : LockFile * option (list Z) :=
  match lock with
  | None => (Some (show_pid our_pid), None)
  | Some holder => (lock, Some holder)
  end.

(** The holder keeps others out. *)
Definition contended (our_pid : Z) (holder : list Z) : bool :=
  match parse_u32 (trim holder) with
  | Some pid => negb (pid =? our_pid) && is_process_alive pid
  | None => false
  end.

Fixpoint acquire_loop (tries : nat) (lock : LockFile) (our_pid : Z) : LockFile * result () :=
  match tries with
  | O => (lock, Err "Failed to acquire database lock after retries")
  | S tries =>
      match try_create lock our_pid with
      | (lock, None) => (lock, Ok ())
      | (lock, Some holder) =>
          if contended our_pid holder then (lock, Err "Database is locked by another process")
          else acquire_loop tries None our_pid
      end
  end.
Definition acquire (lock : LockFile) (our_pid : Z) : LockFile * result () := acquire_loop 4 lock our_pid.

(** * Many processes *)

(** The call a process makes next, with the tries it has left after this one. *)
Inductive Phase : Type :=
| Staging (tries : nat)
| Writing (tries : nat)
| Linking (tries : nat)
| Unstaging (tries : nat) (linked : bool)
| Reading (tries : nat)
| Removing (tries : nat)
| Owner
| Released
| Refused (e : string).

(** The lock, the staged files by the process id in their names, and where
    each process is. *)
Record World : Type := mkWorld { lock_file : LockFile; staged : gmap Z (list Z); phase : gmap Z Phase }.

(** The loop of [acquire]: another try, or the error after the last. *)
Definition next_try (tries : nat) : Phase :=
  match tries with
  | O => Refused "Failed to acquire database lock after retries"
  | S tries => Staging tries
  end.

(** The next call of a process.  The call of an owner is the removal in [drop];
    one that is done, or was never started, makes none. *)
Definition lock_call (w : World) (pid : Z) : World :=
  match phase w !! pid with
  | Some (Staging n) => mkWorld (lock_file w) (<[pid := []]> (staged w)) (<[pid := Writing n]> (phase w))
  | Some (Writing n) => mkWorld (lock_file w) (<[pid := show_pid pid]> (staged w)) (<[pid := Linking n]> (phase w))
  | Some (Linking n) =>
      match lock_file w with
      | None => mkWorld (staged w !! pid) (staged w) (<[pid := Unstaging n true]> (phase w))
      | Some _ => mkWorld (lock_file w) (staged w) (<[pid := Unstaging n false]> (phase w))
      end
  | Some (Unstaging n linked) =>
      mkWorld (lock_file w) (delete pid (staged w)) (<[pid := if linked then Owner else Reading n]> (phase w))
  | Some (Reading n) =>
      mkWorld (lock_file w) (staged w)
        (<[pid := if contended pid (default [] (lock_file w))
                  then Refused "Database is locked by another process" else Removing n]> (phase w))
  | Some (Removing n) => mkWorld None (staged w) (<[pid := next_try n]> (phase w))
  | Some Owner => mkWorld None (staged w) (<[pid := Released]> (phase w))
  | Some Released | Some (Refused _) | None => w
  end.
Definition lock_calls (w : World) (sched : list Z) : World := foldl lock_call w sched.

(** Processes that are about to call [acquire], and the lock they find. *)
Definition lock_start (lock : LockFile) (ps : gset Z) : World := mkWorld lock ∅ (gset_to_gmap (next_try 4) ps).

(** * Theorems *)

Lemma acquire_alone lock our_pid :
  acquire lock our_pid =
  match lock with
  | Some holder =>
      if contended our_pid holder then (lock, Err "Database is locked by another process")
      else (Some (show_pid our_pid), Ok ())
  | None => (Some (show_pid our_pid), Ok ())
  end.
Proof using. unfold acquire. destruct lock as [holder|]; cbn; [|done]. by destruct (contended our_pid holder). Qed.

(** A process has the lock from its link on until it drops it. *)
Definition holds (ph : Phase) : bool := match ph with Owner => true | Unstaging _ linked => linked | _ => false end.
(** Its link has failed and it has not read the lock yet. *)
Definition in_window (ph : Phase) : bool :=
  match ph with Reading _ => true | Unstaging _ linked => negb linked | _ => false end.
(** No owner drops its lock while another process is between its failed link
    and its read. *)
Fixpoint quiet (w : World) (sched : list Z) : bool :=
  match sched with
  | [] => true
  | p :: sched =>
      match phase w !! p with
      | Some Owner => forallb (λ q, negb (in_window q.2)) (map_to_list (phase w))
      | _ => true
      end && quiet (lock_call w p) sched
  end.

Lemma trim_start_id cs : (∀ c, c ∈ cs → is_whitespace c = false) → trim_start cs = cs.
Proof using. destruct cs as [|c cs]; [done|]. intros N. cbn. by rewrite N by left. Qed.
Lemma trim_id cs : (∀ c, c ∈ cs → is_whitespace c = false) → trim cs = cs.
Proof using.
  intros N. unfold trim. rewrite (trim_start_id cs N), trim_start_id; [apply rev_involutive|].
  intros c I. apply N. apply list_elem_of_In, in_rev, list_elem_of_In, I.
Qed.

Lemma decimal_spec fuel : ∀ n, 0 ≤ n < 10 ^ Z.of_nat fuel → (0 < fuel)%nat →
  digits (decimal fuel n) ∧ decimal fuel n ≠ [] ∧ digits_value (decimal fuel n) = n.
Proof using.
  induction fuel as [|fuel IH]; intros n B P; [lia|]. cbn [decimal].
  destruct (Z.ltb_spec n 10) as [L|G].
  - split_and!; [|done|unfold digits_value; cbn; lia]. apply Forall_singleton. unfold ascii_digit. lia.
  - rewrite Nat2Z.inj_succ, Z.pow_succ_r in B by lia.
    assert (fuel ≠ O) by (intros ->; cbn in B; lia).
    destruct (IH (n / 10)) as (D & Ne & V); [split; [apply Z.div_pos|apply Z.div_lt_upper_bound]; lia|lia|].
    pose proof (Z.mod_pos_bound n 10).
    split_and!.
    + apply Forall_app. split; [done|]. apply Forall_singleton. unfold ascii_digit. lia.
    + by destruct (decimal fuel (n / 10)).
    + unfold digits_value in *. rewrite foldl_app, V. cbn. pose proof (Z.div_mod n 10). lia.
Qed.

(** The text of a process id reads back as it. *)
Lemma show_parse pid : u32_ok pid → parse_u32 (trim (show_pid pid)) = Some pid.
Proof using.
  intros B. destruct (decimal_spec 10 pid) as (D & Ne & V); [ilia|lia|].
  unfold show_pid. set (cs := decimal 10 pid) in *. assert (N : ∀ c, c ∈ cs → 48 ≤ c ≤ 57).
  { intros c I. unfold digits in D. rewrite Forall_forall in D. apply D in I. unfold ascii_digit in I. lia. }
  rewrite trim_id.
  - unfold parse_u32. destruct cs as [|c cs']; [done|].
    rewrite (proj2 (Z.eqb_neq c 43)) by (specialize (N c ltac:(left)); lia).
    rewrite (forallb_digits (c :: cs')), V by done.
    rewrite (proj2 (Z.leb_le pid u32_MAX)) by ilia. done.
  - intros c I%N. unfold is_whitespace. rewrite bool_decide_false; [lia|].
    intros X. repeat (apply elem_of_cons in X as [->|X]; [lia|]). by apply elem_of_nil in X.
Qed.
Lemma show_pid_inj p q : u32_ok p → u32_ok q → show_pid p = show_pid q → p = q.
Proof using. intros P Q E. apply show_parse in P, Q. rewrite E in P. by simplify_eq. Qed.

(** ** Exclusion *)

(** Between live processes: the lock file names the process that holds it, what
    is about to be linked is the process id, nobody takes the lock for stale,
    and a process whose link failed still finds a lock. *)
Record live_lock (w : World) : Prop := {
  ll_alive : ∀ p, is_Some (phase w !! p) → is_process_alive p = true ∧ u32_ok p;
  ll_named : ∀ text, lock_file w = Some text → ∃ p ph, text = show_pid p ∧ phase w !! p = Some ph ∧ holds ph = true;
  ll_holds : ∀ p ph, phase w !! p = Some ph → holds ph = true → lock_file w = Some (show_pid p);
  ll_staged : ∀ p n, phase w !! p = Some (Linking n) → staged w !! p = Some (show_pid p);
  ll_removing : ∀ p n, phase w !! p ≠ Some (Removing n);
  ll_window : ∀ p ph, phase w !! p = Some ph → in_window ph = true → lock_file w ≠ None;
}.

Lemma live_lock_unique w p q ph ph' : live_lock w → phase w !! p = Some ph → phase w !! q = Some ph' →
  holds ph = true → holds ph' = true → p = q.
Proof using.
  intros I P Q H H'. apply show_pid_inj; [eapply (ll_alive w I); by eexists..|].
  apply (ll_holds w I) in P, Q; [|done..]. by simplify_eq.
Qed.

(** A process that reads the lock of another live process keeps out. *)
Lemma live_lock_contended w p ph : live_lock w → phase w !! p = Some ph → in_window ph = true →
  contended p (default [] (lock_file w)) = true.
Proof using.
  intros I P W. pose proof (ll_window w I p ph P W) as N. destruct (lock_file w) as [h|] eqn:L; [|done].
  destruct (ll_named w I h L) as (q & ph' & -> & Q & H). destruct (ll_alive w I q) as [A B]; [by eexists|].
  change (default [] (Some (show_pid q))) with (show_pid q). unfold contended. rewrite show_parse, A by done. destruct (Z.eqb_spec q p) as [->|]; [|done].
  rewrite P in Q. injection Q as <-. by destruct ph as [| | |? []| | | | |].
Qed.

Ltac at_other :=
  match goal with
  | H : context [<[?p := _]> _ !! ?q] |- _ =>
      destruct (decide (q = p)) as [->|?]; [rewrite lookup_insert_eq in H|rewrite lookup_insert_ne in H by done]
  end.

(** A call that leaves the lock alone and neither gives a process the lock nor
    takes it away. *)
Lemma live_lock_local w p ph ph' st : live_lock w → phase w !! p = Some ph → holds ph = holds ph' →
  (in_window ph' = true → lock_file w ≠ None) → (∀ n, ph' ≠ Removing n) →
  (∀ n, ph' = Linking n → st !! p = Some (show_pid p)) → (∀ q, q ≠ p → st !! q = staged w !! q) →
  live_lock (mkWorld (lock_file w) st (<[p := ph']> (phase w))).
Proof using.
  intros I P H W R L St. split; cbn.
  - intros q X. apply (ll_alive w I). destruct (decide (q = p)) as [->|]; [by eexists|]. by rewrite lookup_insert_ne in X.
  - intros text E. destruct (ll_named w I text E) as (q & x & -> & Q & Hx). exists q.
    destruct (decide (q = p)) as [->|]; [exists ph'; rewrite lookup_insert_eq|exists x; by rewrite lookup_insert_ne].
    split_and!; [done..|]. rewrite <-H. by simplify_eq.
  - intros q x X Hx. at_other; [|by eapply (ll_holds w I)]. simplify_eq. eapply (ll_holds w I); [done|by rewrite H].
  - intros q n X. at_other; [simplify_eq; by eapply L|]. rewrite St by done. by eapply (ll_staged w I).
  - intros q n X. at_other; [simplify_eq; by eapply R|]. by eapply (ll_removing w I).
  - intros q x X Hx. at_other; [simplify_eq; by apply W|]. by eapply (ll_window w I).
Qed.

Lemma live_lock_link w p n : live_lock w → phase w !! p = Some (Linking n) → lock_file w = None →
  live_lock (mkWorld (staged w !! p) (staged w) (<[p := Unstaging n true]> (phase w))).
Proof using.
  intros I P L. rewrite (ll_staged w I p n P). split; cbn.
  - intros q X. apply (ll_alive w I). destruct (decide (q = p)) as [->|]; [by eexists|]. by rewrite lookup_insert_ne in X.
  - intros text [= <-]. exists p, (Unstaging n true). by rewrite lookup_insert_eq.
  - intros q x X Hx. at_other; [done|]. apply (ll_holds w I) in X; [|done]. by rewrite L in X.
  - intros q k X. at_other; [done|]. by eapply (ll_staged w I).
  - intros q k X. at_other; [done|]. by eapply (ll_removing w I).
  - done.
Qed.

Lemma live_lock_release w p : live_lock w → phase w !! p = Some Owner →
  (∀ q ph, phase w !! q = Some ph → in_window ph = false) →
  live_lock (mkWorld None (staged w) (<[p := Released]> (phase w))).
Proof using.
  intros I P Q. split; cbn.
  - intros q X. apply (ll_alive w I). destruct (decide (q = p)) as [->|]; [by eexists|]. by rewrite lookup_insert_ne in X.
  - done.
  - intros q x X Hx. at_other; [by simplify_eq|]. destruct (live_lock_unique w q p x Owner); done.
  - intros q k X. at_other; [done|]. by eapply (ll_staged w I).
  - intros q k X. at_other; [done|]. by eapply (ll_removing w I).
  - intros q x X Hx. at_other; [by simplify_eq|]. by rewrite (Q q x) in Hx.
Qed.

Lemma live_lock_call w p : live_lock w →
  (phase w !! p = Some Owner → ∀ q ph, phase w !! q = Some ph → in_window ph = false) → live_lock (lock_call w p).
Proof using.
  intros I Q. unfold lock_call. destruct (phase w !! p) as [ph|] eqn:P; [|done].
  destruct ph as [n|n|n|n b|n|n| | |e]; try done.
  - apply (live_lock_local _ _ _ _ _ I P); try done. intros q N. by rewrite lookup_insert_ne.
  - apply (live_lock_local _ _ _ _ _ I P); try done; [intros k _; by rewrite lookup_insert_eq|]. intros q N. by rewrite lookup_insert_ne.
  - destruct (lock_file w) as [h|] eqn:L; [|by apply live_lock_link]. rewrite <-L.
    apply (live_lock_local _ _ _ _ _ I P); try done. by rewrite L.
  - apply (live_lock_local _ _ _ _ _ I P); try done; [by destruct b| |by destruct b|by destruct b|].
    + destruct b; [done|]. intros _. by apply (ll_window w I p (Unstaging n false)).
    + intros q N. by rewrite lookup_delete_ne.
  - rewrite (live_lock_contended w p (Reading n)) by done. by apply (live_lock_local _ _ _ _ _ I P).
  - by destruct (ll_removing w I p n).
  - apply live_lock_release; [done..|]. by apply Q.
Qed.

Lemma live_lock_start ps : (∀ p, p ∈ ps → is_process_alive p = true ∧ u32_ok p) → live_lock (lock_start None ps).
Proof using.
  intros Al. assert (Ph : ∀ p ph, phase (lock_start None ps) !! p = Some ph → ph = Staging 3 ∧ p ∈ ps).
  { intros p ph X. cbn in X. apply lookup_gset_to_gmap_Some in X as [I <-]. done. }
  split; [intros p [x X]; by apply Al, (Ph p x)|done|..]; intros p x X; apply Ph in X as [X _]; by subst.
Qed.


(** ** Progress *)

(** The calls a process can still make before it owns the lock or is refused. *)
Definition calls_left (ph : Phase) : nat :=
  match ph with
  | Staging n => 6 * n + 6
  | Writing n => 6 * n + 5
  | Linking n => 6 * n + 4
  | Unstaging n _ => 6 * n + 3
  | Reading n => 6 * n + 2
  | Removing n => 6 * n + 1
  | Owner | Released | Refused _ => 0
  end.
Lemma lock_call_other w p q : p ≠ q → phase (lock_call w p) !! q = phase w !! q.
Proof using.
  intros N. unfold lock_call. destruct (phase w !! p) as [[]|]; try (destruct (lock_file w)); cbn;
    rewrite ?lookup_insert_ne by done; done.
Qed.
Lemma lock_call_own w p ph : phase w !! p = Some ph →
  ∃ ph', phase (lock_call w p) !! p = Some ph' ∧ (calls_left ph' ≤ calls_left ph - 1)%nat.
Proof using.
  intros P. unfold lock_call. rewrite P. destruct ph as [n|n|n|n b|n|n| | |e].
  all: try (destruct (lock_file w)); cbn [phase]; rewrite ?lookup_insert_eq, ?P; eexists; (split; [reflexivity|]).
  all: try (destruct (contended _ _)); try (destruct b); try (destruct n); cbn; lia.
Qed.
Lemma lock_calls_own sched : ∀ w p ph, phase w !! p = Some ph →
  ∃ ph', phase (lock_calls w sched) !! p = Some ph' ∧ (calls_left ph' ≤ calls_left ph - count_occ Z.eq_dec sched p)%nat.
Proof using.
  induction sched as [|q sched IH]; intros w p ph P; [exists ph; split; [done|cbn; lia]|].
  cbn [lock_calls foldl count_occ]. destruct (Z.eq_dec q p) as [->|N].
  - destruct (lock_call_own w p ph P) as (x & X & Lx). destruct (IH _ p x X) as (y & Y & Ly). exists y. split; [done|lia].
  - rewrite <-(lock_call_other w q p N) in P. destruct (IH _ p ph P) as (y & Y & Ly). exists y. split; [done|lia].
Qed.

Lemma lock_calls_app w xs ys : lock_calls w (xs ++ ys) = lock_calls (lock_calls w xs) ys.
Proof using. apply foldl_app. Qed.

(** The first calls of a try by a process alone. *)
Lemma lock_calls_try w p n : phase w !! p = Some (Staging n) →
  lock_calls w [p; p; p; p] =
  match lock_file w with
  | None => mkWorld (Some (show_pid p)) (delete p (staged w)) (<[p := Owner]> (phase w))
  | Some _ => mkWorld (lock_file w) (delete p (staged w)) (<[p := Reading n]> (phase w))
  end.
Proof using.
  intros P. cbn [lock_calls foldl]. unfold lock_call at 4. rewrite P.
  unfold lock_call at 3. cbn [phase staged lock_file]. rewrite lookup_insert_eq.
  unfold lock_call at 2. cbn [phase staged lock_file]. rewrite !lookup_insert_eq.
  destruct (lock_file w); unfold lock_call; cbn [phase staged lock_file];
    rewrite !lookup_insert_eq, !insert_insert_eq, delete_insert_eq; done.
Qed.

End acquire.

(** * Two owners *)

(** All processes alive, no lock at the start: process 2 finds the lock of
    process 1, which drops it; process 2 reads the missing file as the empty
    string, takes it for stale and removes the lock process 3 has linked in the
    meantime.  Processes 2 and 3 both own the lock. *)
Example release_race :
  let w := lock_calls (λ _, true) true (lock_start None {[ 1; 2; 3 ]})
             ([1; 1; 1; 1] ++ [2; 2; 2; 2] ++ [1; 2] ++ [3; 3; 3; 3] ++ [2] ++ [2; 2; 2; 2]) in
  phase w !! 2 = Some Owner ∧ phase w !! 3 = Some Owner ∧ lock_file w = Some (show_pid 2).
Proof. vm_compute. done. Qed.

(** With a file left by a dead process (9): two processes read it, the first
    removes it and takes the lock, and the second removes that lock. *)
Example stale_lock_shared :
  let w := lock_calls (λ pid, negb (pid =? 9)) true (lock_start (Some (show_pid 9)) {[ 1; 2 ]})
             ([1; 1; 1; 1; 1] ++ [2; 2; 2; 2; 2] ++ [1; 1; 1; 1; 1] ++ [2; 2; 2; 2; 2]) in
  phase w !! 1 = Some Owner ∧ phase w !! 2 = Some Owner ∧ lock_file w = Some (show_pid 2).
Proof. vm_compute. done. Qed.

(** * Witnesses *)

(** Process 1 takes the lock, process 2 is refused, process 1 drops the lock
    and process 3 takes it. *)
Definition demo_schedule : list Z := [1; 2; 2; 1; 1; 2; 2; 1; 2] ++ [1] ++ [3; 3; 3; 3].

