(* ===== verification/EdnParser.v ===== *)
(** The EDN reader (src/src/query/datalog/parser.rs) and time stamps
    (src/src/temporal.rs).

    [Parser] is the list of the tokens not yet read.  The recursion of
    [parse_value], [parse_list], [parse_vector] and [parse_map] carries fuel; one
    more than twice the number of tokens is enough, and the theorem says so.
    [Uuid::parse_str] is the parameter [parse_str]; chrono's two parsers, from a
    text to milliseconds, are [parse_datetime] and [parse_date]. *)
From S2P Require Import Prelude Types NetView QueryTypes Floats Lexer.

Section EdnReader.
Context (parse_str : string → option Z).

Definition Parser : Type := list Token.
Definition peek (p : Parser) : option Token := head p.
Definition advance_token (p : Parser) : option Token * Parser :=
  match p with t :: p => (Some t, p) | [] => (None, []) end.

Definition is_close (close t : Token) : bool :=
  match close, t with
  | RightParen, RightParen | RightBracket, RightBracket | RightBrace, RightBrace => true
  | _, _ => false
  end.

(** [#uuid] and its string. *)
Definition parse_tagged (tag : string) (p : Parser) : result (EdnValue * Parser) :=
  if bool_decide (tag = "uuid"%string) then
    match advance_token p with
    | (Some (TString s), p) =>
      match parse_str s with Some u => Ok (EUuid u, p) | None => Err "Invalid UUID" end
    | _ => Err "Expected UUID string after #uuid tag"
    end
  else Err "Unknown tagged literal".

Definition OUT_OF_FUEL : string := "parser: out of fuel".

Fixpoint parse_value (fuel : nat) (p : Parser) : result (EdnValue * Parser) :=
  match fuel with O => Err OUT_OF_FUEL | S fuel =>
  match peek p with
  | Some LeftParen =>
    '(l, p) ← parse_elements fuel RightParen "Unclosed list" (advance_token p).2 []; Ok (EList l, p)
  | Some LeftBracket =>
    '(l, p) ← parse_elements fuel RightBracket "Unclosed vector" (advance_token p).2 []; Ok (EVector l, p)
  | Some LeftBrace => '(l, p) ← parse_map fuel (advance_token p).2 []; Ok (EMap l, p)
  | Some (TKeyword k) => Ok (EKeyword k, (advance_token p).2)
  | Some (TSymbol s) => Ok (ESymbol s, (advance_token p).2)
  | Some (TString s) => Ok (EString s, (advance_token p).2)
  | Some (TInteger i) => Ok (EInteger i, (advance_token p).2)
  | Some (TFloat f) => Ok (EFloat f, (advance_token p).2)
  | Some (TBoolean b) => Ok (EBoolean b, (advance_token p).2)
  | Some (TTaggedLiteral tag) => parse_tagged tag (advance_token p).2
  | Some TNil => Ok (ENil, (advance_token p).2)
  | Some (TBindSlot name) => Ok (EBindSlot name, (advance_token p).2)
  | Some (RightParen | RightBracket | RightBrace) => Err "Unexpected token"
  | None => Err "Unexpected end of input"
  end end
(** The loop of [parse_list] and of [parse_vector]. *)
with parse_elements (fuel : nat) (close : Token) (unclosed : string) (p : Parser) (elements : list EdnValue)
    : result (list EdnValue * Parser) :=
  match fuel with O => Err OUT_OF_FUEL | S fuel =>
  match peek p with
  | Some t =>
    if is_close close t then Ok (elements, (advance_token p).2)
    else '(v, p) ← parse_value fuel p; parse_elements fuel close unclosed p (elements ++ [v])
  | None => Err unclosed
  end end
with parse_map (fuel : nat) (p : Parser) (pairs : list (EdnValue * EdnValue))
    : result (list (EdnValue * EdnValue) * Parser) :=
  match fuel with O => Err OUT_OF_FUEL | S fuel =>
  match peek p with
  | Some t =>
    if is_close RightBrace t then Ok (pairs, (advance_token p).2)
    else '(k, p) ← parse_value fuel p; '(v, p) ← parse_value fuel p; parse_map fuel p (pairs ++ [(k, v)])
  | None => Err "Unterminated map: missing '}'"
  end end.

Definition parse_tokens (ts : list Token) : result EdnValue :=
  '(v, _) ← parse_value (S (2 * length ts)) ts; Ok v.
Definition parse_edn `{Unicode} (input : list Z) : result EdnValue :=
  tokens ← tokenize input; parse_tokens tokens.

(** * The grammar *)

(** [denotes ts v]: the tokens [ts] are one value, [v]. *)
Inductive denotes : list Token → EdnValue → Prop :=
| denotes_keyword s : denotes [TKeyword s] (EKeyword s)
| denotes_symbol s : denotes [TSymbol s] (ESymbol s)
| denotes_string s : denotes [TString s] (EString s)
| denotes_integer z : denotes [TInteger z] (EInteger z)
| denotes_float f : denotes [TFloat f] (EFloat f)
| denotes_boolean b : denotes [TBoolean b] (EBoolean b)
| denotes_nil : denotes [TNil] ENil
| denotes_slot s : denotes [TBindSlot s] (EBindSlot s)
| denotes_uuid s u : parse_str s = Some u → denotes [TTaggedLiteral "uuid"; TString s] (EUuid u)
| denotes_list ts l : denotes_all ts l → denotes (LeftParen :: ts ++ [RightParen]) (EList l)
| denotes_vector ts l : denotes_all ts l → denotes (LeftBracket :: ts ++ [RightBracket]) (EVector l)
| denotes_map ts l : denotes_pairs ts l → denotes (LeftBrace :: ts ++ [RightBrace]) (EMap l)
with denotes_all : list Token → list EdnValue → Prop :=
| denotes_none : denotes_all [] []
| denotes_more ts v ts' l : denotes ts v → denotes_all ts' l → denotes_all (ts ++ ts') (v :: l)
with denotes_pairs : list Token → list (EdnValue * EdnValue) → Prop :=
| denotes_no_pair : denotes_pairs [] []
| denotes_pair ts k ts' v ts'' l : denotes ts k → denotes ts' v → denotes_pairs ts'' l →
    denotes_pairs (ts ++ ts' ++ ts'') ((k, v) :: l).

Scheme denotes_mut := Minimality for denotes Sort Prop
  with denotes_all_mut := Minimality for denotes_all Sort Prop
  with denotes_pairs_mut := Minimality for denotes_pairs Sort Prop.
Combined Scheme denotes_mutind from denotes_mut, denotes_all_mut, denotes_pairs_mut.

(** What is read is in the grammar. *)
Lemma parse_sound fuel :
  (∀ p v p', parse_value fuel p = Ok (v, p') → ∃ ts, p = ts ++ p' ∧ denotes ts v) ∧
  (∀ close e p acc l p', parse_elements fuel close e p acc = Ok (l, p') →
     ∃ ts k, p = ts ++ close :: p' ∧ l = acc ++ k ∧ denotes_all ts k) ∧
  (∀ p acc l p', parse_map fuel p acc = Ok (l, p') → ∃ ts k, p = ts ++ RightBrace :: p' ∧ l = acc ++ k ∧ denotes_pairs ts k).
Proof.
  induction fuel as [|fuel (IHv & IHl & IHm)]; [done|]. split; [|split].
  - intros [|t p] v p' E; [done|]. cbn [parse_value peek head advance_token snd] in E.
    destruct t; inv_ok; simplify_eq; try (eexists [_]; split; [done|by constructor]).
    + destruct x as [l p2]. inv_ok. simplify_eq. match goal with X : _ = Ok _ |- _ => apply IHl in X as (ts & k & -> & -> & D) end.
      exists (LeftParen :: ts ++ [RightParen]). split; [cbn; by rewrite <-app_assoc|by constructor].
    + destruct x as [l p2]. inv_ok. simplify_eq. match goal with X : _ = Ok _ |- _ => apply IHl in X as (ts & k & -> & -> & D) end.
      exists (LeftBracket :: ts ++ [RightBracket]). split; [cbn; by rewrite <-app_assoc|by constructor].
    + destruct x as [l p2]. inv_ok. simplify_eq. match goal with X : _ = Ok _ |- _ => apply IHm in X as (ts & k & -> & -> & D) end.
      exists (LeftBrace :: ts ++ [RightBrace]). split; [cbn; by rewrite <-app_assoc|by constructor].
    + unfold parse_tagged in E. destruct (bool_decide_reflect (s = "uuid"%string)) as [->|]; [|done].
      destruct p as [|[] p]; try done. cbn in E. destruct (parse_str s) eqn:U; [|done]. simplify_eq.
      eexists [_; _]. split; [done|by constructor].
  - intros close e [|t p] acc l p' E; [done|]. cbn [parse_elements peek head advance_token snd] in E.
    destruct (is_close close t) eqn:C.
    + simplify_eq. exists [], []. rewrite app_nil_r. split; [|split; [done|constructor]]. by destruct close, t.
    + apply bind_Ok in E as ([v p2] & E1 & E2). apply IHv in E1 as (ts & -> & D). apply IHl in E2 as (ts' & k & -> & -> & D').
      exists (ts ++ ts'), (v :: k). rewrite <-!app_assoc. split; [done|]. split; [done|by constructor].
  - intros [|t p] acc l p' E; [done|]. cbn [parse_map peek head advance_token snd] in E.
    destruct (is_close RightBrace t) eqn:C.
    + simplify_eq. exists [], []. rewrite app_nil_r. split; [|split; [done|constructor]]. by destruct t.
    + apply bind_Ok in E as ([a p2] & E1 & E). apply bind_Ok in E as ([b p3] & E2 & E3).
      apply IHv in E1 as (ts & -> & D). apply IHv in E2 as (ts' & -> & D'). apply IHm in E3 as (ts'' & k & -> & -> & D'').
      exists (ts ++ ts' ++ ts''), ((a, b) :: k). rewrite <-!app_assoc. split; [done|]. split; [done|by constructor].
Qed.

Lemma denotes_start ts v : denotes ts v → ∃ t ts', ts = t :: ts' ∧ is_close RightParen t = false ∧
  is_close RightBracket t = false ∧ is_close RightBrace t = false.
Proof. destruct 1; eexists _, _; done. Qed.

(** And what is in the grammar is read, with fuel for its tokens. *)
Lemma elements_step fuel close e ts v p acc : denotes ts v → close = RightParen ∨ close = RightBracket →
  parse_elements (S fuel) close e (ts ++ p) acc =
  ('(v, p) ← parse_value fuel (ts ++ p); parse_elements fuel close e p (acc ++ [v])).
Proof.
  intros D C. destruct (denotes_start ts v D) as (t & ts0 & -> & C1 & C2 & _). cbn [app parse_elements peek head].
  by destruct C as [->| ->]; [rewrite C1|rewrite C2].
Qed.
Lemma map_step fuel ts v p acc : denotes ts v →
  parse_map (S fuel) (ts ++ p) acc =
  ('(k, p) ← parse_value fuel (ts ++ p); '(v, p) ← parse_value fuel p; parse_map fuel p (acc ++ [(k, v)])).
Proof.
  intros D. destruct (denotes_start ts v D) as (t & ts0 & -> & _ & _ & C). cbn [app parse_map peek head]. by rewrite C.
Qed.
Lemma denotes_length ts v : denotes ts v → (1 ≤ length ts)%nat.
Proof. intros (t & ts0 & -> & _)%denotes_start. cbn. lia. Qed.

Lemma parse_complete :
  (∀ ts v, denotes ts v → ∀ fuel p, (2 * length ts ≤ fuel)%nat → parse_value (S fuel) (ts ++ p) = Ok (v, p)) ∧
  (∀ ts l, denotes_all ts l → ∀ fuel close e p acc, (2 * length ts + 2 ≤ fuel)%nat →
     close = RightParen ∨ close = RightBracket → parse_elements fuel close e (ts ++ close :: p) acc = Ok (acc ++ l, p)) ∧
  (∀ ts l, denotes_pairs ts l → ∀ fuel p acc, (2 * length ts + 2 ≤ fuel)%nat →
     parse_map fuel (ts ++ RightBrace :: p) acc = Ok (acc ++ l, p)).
Proof.
  apply denotes_mutind; try done.
  - intros s u U fuel p _. cbn [app parse_value peek head advance_token snd]. unfold parse_tagged.
    rewrite bool_decide_eq_true_2 by done. cbn. by rewrite U.
  - intros ts l D IH fuel p L. cbn [length] in L. rewrite length_app in L. cbn [length] in L.
    cbn [app parse_value peek head advance_token snd]. rewrite <-app_assoc. cbn [app]. rewrite IH by (lia || by left). done.
  - intros ts l D IH fuel p L. cbn [length] in L. rewrite length_app in L. cbn [length] in L.
    cbn [app parse_value peek head advance_token snd]. rewrite <-app_assoc. cbn [app]. rewrite IH by (lia || by right). done.
  - intros ts l D IH fuel p L. cbn [length] in L. rewrite length_app in L. cbn [length] in L.
    cbn [app parse_value peek head advance_token snd]. rewrite <-app_assoc. cbn [app]. rewrite IH by lia. done.
  - intros [|fuel] close e p acc L [->| ->]; cbn in *; try lia; by rewrite app_nil_r.
  - intros ts v ts' l D IH D' IH' [|[|fuel]] close e p acc L C; rewrite length_app in L; pose proof (denotes_length _ _ D); try lia.
    rewrite <-app_assoc, (elements_step _ _ _ _ v), IH by (done || lia). cbn [mbind result_bind].
    rewrite IH' by (done || lia). by rewrite <-app_assoc.
  - intros [|fuel] p acc L; cbn in *; [lia|]. by rewrite app_nil_r.
  - intros ts k ts' v ts'' l D IH D' IH' D'' IH'' [|[|fuel]] p acc L; rewrite !length_app in L; pose proof (denotes_length _ _ D); try lia.
    rewrite <-!app_assoc, (map_step _ _ k), IH by (done || lia). cbn [mbind result_bind].
    rewrite IH' by lia. cbn [mbind result_bind]. rewrite IH'' by lia. by rewrite <-app_assoc.
Qed.

Lemma parse_tokens_exact ts v : parse_tokens ts = Ok v ↔ ∃ pre rest, ts = pre ++ rest ∧ denotes pre v.
Proof.
  unfold parse_tokens. split.
  - intros E. apply bind_Ok in E as ([v' rest] & E & [= <-]). apply (proj1 (parse_sound _)) in E as (pre & -> & D). eauto.
  - intros (pre & rest & -> & D). rewrite (proj1 parse_complete _ _ D); [done|]. rewrite length_app. lia.
Qed.

(** Fuel never runs out. *)
Lemma fuel_enough fuel :
  (∀ p, (2 * length p + 1 ≤ fuel)%nat → parse_value fuel p ≠ Err OUT_OF_FUEL) ∧
  (∀ close e p acc, e ≠ OUT_OF_FUEL → (2 * length p + 2 ≤ fuel)%nat → parse_elements fuel close e p acc ≠ Err OUT_OF_FUEL) ∧
  (∀ p acc, (2 * length p + 2 ≤ fuel)%nat → parse_map fuel p acc ≠ Err OUT_OF_FUEL).
Proof.
  assert (∀ n p v p', parse_value n p = Ok (v, p') → (length p' < length p)%nat) as Shr.
  { intros n p v p' E. apply (proj1 (parse_sound n)) in E as (ts & -> & D). apply denotes_start in D as (t & ts' & -> & _).
    rewrite length_app. cbn. lia. }
  induction fuel as [|fuel (IHv & IHl & IHm)]; [split; [|split]; lia|]. split; [|split].
  - intros [|t p] L; [done|]. cbn [length] in L. cbn [parse_value peek head advance_token snd]. destruct t; try done.
    + specialize (IHl RightParen "Unclosed list" p [] ltac:(done) ltac:(lia)). destruct (parse_elements _ _ _ _ _) as [[]|]; cbn; congruence.
    + specialize (IHl RightBracket "Unclosed vector" p [] ltac:(done) ltac:(lia)). destruct (parse_elements _ _ _ _ _) as [[]|]; cbn; congruence.
    + specialize (IHm p [] ltac:(lia)). destruct (parse_map _ _ _) as [[]|]; cbn; congruence.
    + unfold parse_tagged. repeat case_match; done.
  - intros close e [|t p] acc Ne L; [cbn; congruence|]. cbn [parse_elements peek head]. case_match; [done|].
    specialize (IHv (t :: p) ltac:(lia)). destruct (parse_value fuel (t :: p)) as [[v p']|x] eqn:E; cbn [mbind result_bind]; [|congruence].
    apply IHl; [done|]. apply Shr in E. lia.
  - intros [|t p] acc L; [done|]. cbn [parse_map peek head]. case_match; [done|].
    pose proof (IHv (t :: p) ltac:(lia)). destruct (parse_value fuel (t :: p)) as [[k p']|x] eqn:E; cbn [mbind result_bind]; [|congruence].
    apply Shr in E. pose proof (IHv p' ltac:(lia)). destruct (parse_value fuel p') as [[v p'']|x] eqn:E'; cbn [mbind result_bind]; [|congruence].
    apply Shr in E'. apply IHm. lia.
Qed.
Lemma parse_tokens_total ts : parse_tokens ts ≠ Err OUT_OF_FUEL.
Proof.
  unfold parse_tokens. pose proof (proj1 (fuel_enough (S (2 * length ts))) ts ltac:(lia)).
  destruct (parse_value _ _) as [[]|]; cbn; congruence.
Qed.
End EdnReader.

(** C39: the EDN reader accepts exactly its grammar.  [parse_edn] returns [v] if and
    only if the text has a token sequence that starts with one spelling of [v]
    (what follows is ignored); a text laid out by the lexical grammar, with any
    spacing and comments, is read as the value its tokens denote; and every input
    is answered, whatever its nesting. *)
Theorem edn_reader_exact `{Unicode} parse_str cs v pre rest :
  (parse_edn parse_str cs = Ok v ↔ ∃ pre rest, tokenize cs = Ok (pre ++ rest) ∧ denotes parse_str pre v) ∧
  (lexes (pre ++ rest) cs → denotes parse_str pre v → parse_edn parse_str cs = Ok v) ∧
  parse_edn parse_str cs ≠ Err OUT_OF_FUEL.
Proof.
  unfold parse_edn. split; [|split].
  - rewrite bind_Ok. setoid_rewrite parse_tokens_exact. split.
    + intros (ts & E & pre' & rest' & -> & D). eauto.
    + intros (pre' & rest' & E & D). exists (pre' ++ rest'). eauto.
  - intros L D. rewrite (tokenize_lexes _ _ L). cbn [mbind result_bind]. apply parse_tokens_exact. eauto.
  - pose proof (tokenize_loop_total (length cs) cs [] ltac:(done) ltac:(constructor)) as T. fold (tokenize cs) in T.
    destruct (tokenize cs) as [ts|e]; cbn [mbind result_bind]; [apply parse_tokens_total|].
    intros [= ->]. cut (¬ OUT_OF_FUEL ∈ lex_errors); [tauto|]. apply (bool_decide_eq_false_1 _); reflexivity.
Qed.

Lemma edn_reader_exact_witness :
  let U := {| unicode_alphabetic := λ _, false; unicode_numeric := λ _, false |} in
  @parse_edn (λ _, Some 7) U (chars "(f [1 ?x]) ; c") = Ok (EList [ESymbol "f"; EVector [EInteger 1; ESymbol "?x"]]).
Proof.
  intros U. eapply (proj1 (proj2 (@edn_reader_exact U (λ _, Some 7) _ _
    [LeftParen; TSymbol "f"; LeftBracket; TInteger 1; TSymbol "?x"; RightBracket; RightParen] []))).
  - change (chars "(f [1 ?x]) ; c") with ([40] ++ [102] ++ 32 :: [91] ++ [49] ++ 32 :: [63; 120] ++ [93] ++ [41] ++ 32 :: 59 :: [32; 99] ++ []).
    apply lexes_token; [by constructor|]. apply lexes_token; [change (TSymbol "f") with (symbol_token (text [102])); by constructor; [| |done|vm_compute]|].
    apply lexes_space; [done|]. apply lexes_token; [by constructor|].
    apply lexes_token; [apply (spells_integer _ false [49]); [by repeat constructor|done|done|vm_compute; done]|].
    apply lexes_space; [done|]. apply lexes_token.
    { change (TSymbol "?x") with (symbol_token (text [63; 120])). constructor; [done|by repeat constructor|done|vm_compute; done]. }
    apply lexes_token; [by constructor|]. apply lexes_token; [by constructor|]. apply lexes_space; [done|].
    apply (lexes_comment [32; 99] [] []); [by repeat constructor|done|constructor].
  - apply (denotes_list _ [TSymbol "f"; LeftBracket; TInteger 1; TSymbol "?x"; RightBracket]).
    apply (denotes_more _ [TSymbol "f"]); [constructor|]. apply (denotes_more _ [LeftBracket; TInteger 1; TSymbol "?x"; RightBracket] _ []); [|constructor].
    apply (denotes_vector _ [TInteger 1; TSymbol "?x"]). apply (denotes_more _ [TInteger 1]); [constructor|].
    apply (denotes_more _ [TSymbol "?x"] _ []); constructor.
Defined.

(** * Time stamps *)

Section Timestamps.
Context (parse_datetime parse_date : string → option Z).

Definition has_byte (z : Z) (bs : bytes) : bool := existsb (λ b, b2z b =? z) bs.
(** [str::is_char_boundary]: not inside a UTF-8 sequence. *)
Definition char_boundary (bs : bytes) (i : nat) : bool :=
  match bs !! i with Some b => negb ((0x80 <=? b2z b) && (b2z b <? 0xC0)) | None => Nat.eqb i (length bs) end.
(** Slicing a [str] inside a character panics. *)
Definition SLICE_PANIC : string := "panic: byte index 10 is not a char boundary".

Definition parse_timestamp (s : string) : result Z :=
  let bs := as_bytes s in
  offset ← (if has_byte 43 bs then Ok true
            else if (10 <? length bs)%nat then
              _ ← ensure (char_boundary bs 10) SLICE_PANIC; Ok (has_byte 45 (drop 10 bs))
            else Ok false);
  _ ← ensure (negb offset) "timezone offsets are not supported; use UTC (Z) timestamps only";
  if has_byte 84 bs then ok_or (parse_datetime s) "invalid UTC timestamp"
  else ok_or (parse_date s) "invalid date".

(** A time stamp with a two-byte character across its tenth byte panics instead of
    being refused. *)
Lemma timestamp_slice_panics : parse_timestamp (text (chars "202406-01" ++ [233])) = Err SLICE_PANIC.
Proof. reflexivity. Qed.
End Timestamps.
