(* ===== verification/QueryParser.v ===== *)
(** The command grammar (src/src/query/datalog/parser.rs): from EDN to commands,
    with the safety checks on queries and rules.

    Whether a pattern is a regular expression is the parameter [regex_ok]
    ([regex_lite::Regex::new] succeeds); time stamps are read by
    [EdnParser.parse_timestamp].  A [HashSet] of variables is a [gset]; where the
    source makes a list from one, its order reaches no result and the model uses
    the order of the clauses.  Debug renderings inside error messages are left
    out. *)
From S2P Require Import Prelude Types NetView QueryTypes Floats Lexer EdnParser.

Definition eqs (a b : string) : bool := bool_decide (a = b).
Definition in_names (s : string) (l : list string) : bool := existsb (eqs s) l.
(** [s.starts_with('?')] and [s.starts_with("?_")]. *)
Definition is_logic_name (s : string) : bool := String.prefix "?" s.
Definition is_wild (s : string) : bool := String.prefix "?_" s.

Definition logic_var (v : EdnValue) : option string :=
  match v with ESymbol s => if is_logic_name s then Some s else None | _ => None end.
Definition keyword_is (k : string) (v : option EdnValue) : bool :=
  match v with Some (EKeyword k') => eqs k' k | _ => false end.
Definition head_is (names : list string) (l : list EdnValue) : bool :=
  match l with ESymbol s :: _ => in_names s names | _ => false end.

(** * Find elements *)

Definition window_func (name : string) : result WindowFunc :=
  if in_names name ["lag"; "lead"] then Err "lag/lead are planned for a future release"
  else if eqs name "sum" then Ok WSum
  else if eqs name "count" then Ok WCount
  else if eqs name "min" then Ok WMin
  else if eqs name "max" then Ok WMax
  else if eqs name "avg" then Ok WAvg
  else if eqs name "rank" then Ok WRank
  else if eqs name "row-number" then Ok WRowNumber
  else if in_names name ["count-distinct"; "sum-distinct"] then Err "not window-compatible and cannot be used with ':over'"
  else Ok (WUdf name).

(** The options of [:over]. *)
Fixpoint parse_over (l : list EdnValue) (part ord : option string) (order : Order) : result (option string * option string * Order) :=
  match l with
  | [] => Ok (part, ord, order)
  | EKeyword k :: rest =>
    if eqs k ":partition-by" then
      match rest with
      | v :: rest' => match logic_var v with
                      | Some s => parse_over rest' (Some s) ord order
                      | None => Err "':partition-by' requires a variable (starting with ?)"
                      end
      | [] => Err "':partition-by' requires a variable (starting with ?)"
      end
    else if eqs k ":order-by" then
      match rest with
      | v :: rest' => match logic_var v with
                      | Some s => parse_over rest' part (Some s) order
                      | None => Err "':order-by' requires a variable (starting with ?)"
                      end
      | [] => Err "':order-by' requires a variable (starting with ?)"
      end
    else if eqs k ":desc" then parse_over rest part ord Desc
    else if eqs k ":asc" then parse_over rest part ord Asc
    else Err "unknown option in ':over' clause"
  | _ :: _ => Err "unexpected element in ':over' clause"
  end.

Definition parse_window_expr (elems : list EdnValue) : result FindSpec :=
  match elems with
  | [] => Err "window expression cannot be empty"
  | ESymbol name :: _ =>
    func ← window_func name;
    '(var, over_keyword_idx) ← (match func with
      | WRank | WRowNumber =>
        _ ← ensure (keyword_is ":over" (elems !! 1%nat)) "requires ':over' immediately after the function name (no variable argument)";
        Ok (None, 1%nat)
      | _ =>
        v ← ok_or (elems !! 1%nat ≫= logic_var) "requires a variable argument (starting with ?) before ':over'";
        _ ← ensure (keyword_is ":over" (elems !! 2%nat)) "requires ':over' after the variable argument";
        Ok (Some v, 2%nat)
      end);
    _ ← ensure (Nat.eqb (over_keyword_idx + 2) (length elems)) "unexpected tokens after ':over' clause in window expression";
    match elems !! (over_keyword_idx + 1)%nat with
    | Some (EList over_list) =>
      '(part, ord, order) ← parse_over over_list None None Asc;
      ord ← ok_or ord "':order-by' is required in the ':over' clause";
      Ok (FWindow (mkWindowSpec func var part ord order))
    | _ => Err "':over' must be followed by a list, e.g., (:order-by ?var)"
    end
  | _ :: _ => Err "window function name must be a symbol"
  end.

Definition WINDOW_ONLY : list string := ["avg"; "rank"; "row-number"].

Definition parse_aggregate (elems : list EdnValue) : result FindSpec :=
  if existsb (λ e, keyword_is ":over" (Some e)) elems then parse_window_expr elems
  else match elems with
  | [f; v] =>
    match f with
    | ESymbol func =>
      _ ← ensure (negb (in_names func WINDOW_ONLY)) "is a window function and requires an ':over (...)' clause";
      var ← ok_or (logic_var v) "Aggregate argument must be a variable (starting with ?)";
      Ok (FAggregate func var)
    | _ => Err "Aggregate function name must be a symbol"
    end
  | _ => Err "Aggregate expression must have exactly 2 elements (func ?var)"
  end.

(** * Expressions *)

Definition unary_op (head : string) : option UnaryOp :=
  if eqs head "string?" then Some StringQ
  else if eqs head "integer?" then Some IntegerQ
  else if eqs head "float?" then Some FloatQ
  else if eqs head "boolean?" then Some BooleanQ
  else if eqs head "nil?" then Some NilQ
  else None.
Definition binary_op (head : string) : option BinOp :=
  if eqs head "<" then Some OpLt else if eqs head ">" then Some OpGt
  else if eqs head "<=" then Some OpLte else if eqs head ">=" then Some OpGte
  else if eqs head "=" then Some OpEq else if eqs head "!=" then Some OpNeq
  else if eqs head "+" then Some OpAdd else if eqs head "-" then Some OpSub
  else if eqs head "*" then Some OpMul else if eqs head "/" then Some OpDiv
  else if eqs head "starts-with?" then Some StartsWith
  else if eqs head "ends-with?" then Some EndsWith
  else if eqs head "contains?" then Some Contains
  else None.

Section Commands.
Context (regex_ok : string → bool) (parse_timestamp : string → result Z).

(** [parse_expr] over the parser of the arguments. *)
Definition parse_expr_with (parse_expr_arg : EdnValue → result Expr) (list : list EdnValue) : result Expr :=
  match list with
  | [] => Err "expression list cannot be empty"
  | ESymbol head :: args =>
    match unary_op head with
    | Some op =>
      match args with
      | [a] => arg ← parse_expr_arg a; Ok (Unary op arg)
      | _ => Err "takes exactly 1 argument"
      end
    | None =>
      if eqs head "matches?" then
        match args with
        | [a; b] =>
          lhs ← parse_expr_arg a;
          rhs ← parse_expr_arg b;
          match rhs with
          | Lit (VString pattern) =>
            _ ← ensure (regex_ok pattern) "invalid regex pattern";
            Ok (Bin (Matches pattern) lhs (Lit (VString pattern)))
          | _ => Err "matches? second argument must be a string literal"
          end
        | _ => Err "takes exactly 2 arguments"
        end
      else match binary_op head with
      | Some op =>
        match args with
        | [a; b] => lhs ← parse_expr_arg a; rhs ← parse_expr_arg b; Ok (Bin op lhs rhs)
        | _ => Err "takes exactly 2 arguments"
        end
      | None =>
        match args with
        | [a] => arg ← parse_expr_arg a; Ok (Unary (UdfQ head) arg)
        | _ => Err "unknown expression operator"
        end
      end
    end
  | _ :: _ => Err "expression head must be a symbol"
  end.

Fixpoint parse_expr_arg (edn : EdnValue) : result Expr :=
  match edn with
  | ESymbol s => if is_logic_name s then Ok (Var s) else Err "unsupported expression argument"
  | EInteger n => Ok (Lit (VInteger n))
  | EFloat f => Ok (Lit (VFloat f))
  | EString s => Ok (Lit (VString s))
  | EBoolean b => Ok (Lit (VBoolean b))
  | ENil => Ok (Lit VNull)
  | EKeyword k => Ok (Lit (VKeyword k))
  | EList inner => parse_expr_with parse_expr_arg inner
  | EBindSlot name => Ok (Slot name)
  | EUuid _ | EVector _ | EMap _ => Err "unsupported expression argument"
  end.
Definition parse_expr (list : list EdnValue) : result Expr := parse_expr_with parse_expr_arg list.

Definition parse_expr_clause (vec : list EdnValue) : result WhereClause :=
  match vec with
  | [] => Err "parse_expr_clause called with empty vector"
  | EList inner :: rest =>
    expr ← parse_expr inner;
    binding ← (match rest with
      | [] => Ok None
      | [out] => v ← ok_or (logic_var out) "expression output must be a ?variable"; Ok (Some v)
      | _ => Err "expression clause must be [(expr)] or [(expr) ?out]"
      end);
    Ok (CExpr expr binding)
  | _ :: _ => Err "parse_expr_clause called with non-list element 0"
  end.

(** * Where clauses *)

Definition pseudo_of (v : EdnValue) : option PseudoAttr :=
  match v with EKeyword k => from_keyword k | _ => None end.
Definition parse_query_pattern (vec : list EdnValue) : result Pattern :=
  match vec with
  | [e; a; v] =>
    match pseudo_of e, pseudo_of v, pseudo_of a with
    | Some _, _, _ => Err "pseudo-attribute is not valid in entity position"
    | None, Some _, _ => Err "pseudo-attribute is not valid in value position"
    | None, None, Some pseudo => Ok (pattern_pseudo e pseudo v)
    | None, None, None => pattern_from_edn vec
    end
  | _ => Err "Pattern must have exactly 3 elements (E A V)"
  end.

(** A vector in clause position: an expression clause when it starts with a list. *)
Definition parse_vector_clause (vec : list EdnValue) : result WhereClause :=
  match vec with
  | EList _ :: _ => parse_expr_clause vec
  | _ => p ← parse_query_pattern vec; Ok (CPattern p)
  end.

Definition parse_join_vars (v : option EdnValue) (not_vector not_variable : string) : result (list string) :=
  match v with
  | Some (EVector vs) => mapR (λ v, ok_or (logic_var v) not_variable) vs
  | _ => Err not_vector
  end.

(** One clause inside [not] or [not-join]; [rec] is the clause parser on lists. *)
Definition parse_negated_item (rec : EdnValue → bool → result WhereClause) (unexpected : string) (item : EdnValue)
    : result WhereClause :=
  match item with
  | EVector vec => parse_vector_clause vec
  | EList inner =>
    if head_is ["or"; "or-join"] inner then Err "(or)/(or-join) cannot appear inside (not)/(not-join)"
    else rec item false
  | _ => Err unexpected
  end.

Definition parse_or_branch_item (rec : EdnValue → bool → result WhereClause) (item : EdnValue) : result WhereClause :=
  match item with
  | EVector vec => parse_vector_clause vec
  | EList _ => rec item true
  | _ => Err "expected clause inside or branch"
  end.

Definition parse_or_branch (rec : EdnValue → bool → result WhereClause) (item : EdnValue) : result (list WhereClause) :=
  match item with
  | EList inner =>
    if head_is ["and"] inner then
      match inner with
      | _ :: ((_ :: _) as rest) => mapR (parse_or_branch_item rec) rest
      | _ => Err "(and) inside or/or-join requires at least one clause"
      end
    else c ← parse_or_branch_item rec item; Ok [c]
  | _ => c ← parse_or_branch_item rec item; Ok [c]
  end.

(** [parse_list_as_where_clause], with the recursive call as a parameter. *)
Definition parse_list_with (rec : EdnValue → bool → result WhereClause) (list : list EdnValue) (allow_not : bool)
    : result WhereClause :=
  match list with
  | [] => Err "Empty list in :where clause"
  | ESymbol s :: rest =>
    if eqs s "not" then
      _ ← ensure allow_not "(not ...) cannot appear inside another (not ...)";
      match rest with
      | [] => Err "(not) requires at least one clause"
      | _ => inner ← mapR (parse_negated_item rec "expected pattern or rule invocation inside (not)") rest; Ok (Not inner)
      end
    else if eqs s "not-join" then
      _ ← ensure allow_not "(not-join ...) cannot appear inside another (not ...) or (not-join ...)";
      match rest with
      | vars :: ((_ :: _) as items) =>
        join_vars ← parse_join_vars (Some vars) "(not-join) first argument must be a vector of join variables"
                      "(not-join) join variables must be logic variables";
        inner ← mapR (parse_negated_item rec "expected pattern or rule invocation inside (not-join)") items;
        Ok (NotJoin join_vars inner)
      | _ => Err "(not-join) requires a join-vars vector and at least one clause"
      end
    else if eqs s "or" then
      match rest with
      | [] => Err "(or) requires at least one branch"
      | _ => branches ← mapR (parse_or_branch rec) rest; Ok (Or branches)
      end
    else if eqs s "or-join" then
      match rest with
      | vars :: ((_ :: _) as items) =>
        join_vars ← parse_join_vars (Some vars) "(or-join) first argument must be a vector of join variables"
                      "(or-join) join variables must be logic variables";
        branches ← mapR (parse_or_branch rec) items;
        Ok (OrJoin join_vars branches)
      | _ => Err "(or-join) requires a join-vars vector and at least one branch"
      end
    else Ok (RuleInvocation s rest)
  | _ :: _ => Err "Rule invocation must start with predicate name (symbol)"
  end.

Fixpoint parse_list_item (item : EdnValue) (allow_not : bool) : result WhereClause :=
  match item with
  | EList list => parse_list_with parse_list_item list allow_not
  | _ => Err "not a list"
  end.
Definition parse_list_as_where_clause (list : list EdnValue) (allow_not : bool) : result WhereClause :=
  parse_list_with parse_list_item list allow_not.
End Commands.

(** * Safety checks *)

(** The variables of a pattern position that bind: no wildcard. *)
Definition binding_var (v : EdnValue) : list string :=
  match as_variable v with Some name => if is_wild name then [] else [name] | None => [] end.

Fixpoint outer_vars_from_clause (c : WhereClause) : list string :=
  match c with
  | CPattern p =>
    binding_var (pat_entity p) ++
    (match pat_attribute p with Real a => binding_var a | Pseudo _ => [] end) ++
    binding_var (pat_value p)
  | RuleInvocation _ args => flat_map binding_var args
  | Not _ | NotJoin _ _ => []
  | Or branches =>
    match map (flat_map outer_vars_from_clause) branches with
    | [] => []
    | first :: rest => filter (λ v, forallb (λ s, in_names v s) rest) (remove_dups first)
    end
  | OrJoin join_vars _ => join_vars
  | CExpr _ binding => from_option (λ v, [v]) [] binding
  end.
Definition vars_in_not (c : WhereClause) : list string :=
  match c with Not inner => flat_map outer_vars_from_clause inner | _ => [] end.

(** The [HashSet] of the variables the clauses bind. *)
Definition outer_bound_of (cs : list WhereClause) : gset string := list_to_set (flat_map outer_vars_from_clause cs).

Definition check_not_safety (clauses : list WhereClause) (outer_bound : gset string) : result () :=
  foldR (λ _ c, ensure (forallb (λ v, bool_decide (v ∈ outer_bound)) (vars_in_not c))
                  "variable in (not ...) is not bound by any outer clause") () clauses.
Definition check_not_join_safety (clauses : list WhereClause) (outer_bound : gset string) : result () :=
  foldR (λ _ c, match c with
                | NotJoin join_vars _ =>
                  ensure (forallb (λ v, is_wild v || bool_decide (v ∈ outer_bound)) join_vars)
                    "join variable in (not-join ...) is not bound by any outer clause"
                | _ => Ok ()
                end) () clauses.

Fixpoint parsed_expr_vars (e : Expr) : list string :=
  match e with
  | Var v => [v]
  | Lit _ => []
  | Bin _ l r => parsed_expr_vars l ++ parsed_expr_vars r
  | Unary _ a => parsed_expr_vars a
  | Slot _ => []
  end.

(** [windows(2)]: two neighbours differ. *)
Fixpoint neighbours_differ (l : list (gset string)) : bool :=
  match l with
  | a :: ((b :: _) as l') => negb (bool_decide (a = b)) || neighbours_differ l'
  | _ => false
  end.

(** One clause of [check_expr_safety_with_bound]: the variables bound after it. *)
Fixpoint check_expr_clause (bound : gset string) (c : WhereClause) : result (gset string) :=
  match c with
  | CExpr e binding =>
    _ ← ensure (forallb (λ v, bool_decide (v ∈ bound)) (parsed_expr_vars e))
      "variable in expression clause is not bound by any earlier clause";
    Ok (from_option (λ out, {[ out ]} ∪ bound) bound binding)
  | Not inner | NotJoin _ inner => _ ← foldR check_expr_clause bound inner; Ok bound
  | Or branches =>
    sets ← mapR (λ branch, b ← foldR check_expr_clause bound branch; Ok (b ∖ bound)) branches;
    _ ← ensure (negb (neighbours_differ sets)) "all branches of (or ...) must introduce the same set of new variables";
    Ok (match sets with new_vars :: _ => bound ∪ new_vars | [] => bound end)
  | OrJoin join_vars branches =>
    _ ← ensure (forallb (λ v, is_wild v || bool_decide (v ∈ bound)) join_vars)
      "join variable in (or-join ...) is not bound by any earlier clause";
    _ ← mapR (λ branch, foldR check_expr_clause bound branch) branches;
    Ok bound
  | CPattern _ | RuleInvocation _ _ => Ok (bound ∪ list_to_set (outer_vars_from_clause c))
  end.
Definition check_expr_safety_with_bound (clauses : list WhereClause) (bound : gset string) : result (gset string) :=
  foldR check_expr_clause bound clauses.
Definition check_expr_safety (clauses : list WhereClause) : result () :=
  _ ← check_expr_safety_with_bound clauses ∅; Ok ().

(** * Commands *)

Section Commands2.
Context (regex_ok : string → bool) (parse_timestamp : string → result Z).

Record QueryState : Type := mkQueryState {
  find_specs : list FindSpec;
  with_vars : list string;
  where_clauses : list WhereClause;
  current_clause : option string;
  query_as_of : option NetView.AsOf;
  query_valid_at : option NetView.ValidAt;
  query_max_derived_facts : option Z;
  query_max_results : option Z;
}.
Definition query_state_new : QueryState := mkQueryState [] [] [] None None None None None.

Definition parse_as_of (v : EdnValue) : result NetView.AsOf :=
  match v with
  | EInteger n =>
    if 0 <=? n then val ← ok_or (u64_try_from n) ":as-of counter must be non-negative"; Ok (NetView.AsOfCounter val)
    else Err ":as-of counter must be non-negative"
  | EString s => ts ← parse_timestamp s; Ok (NetView.AsOfTimestamp ts)
  | EBindSlot name => Ok (NetView.AsOfSlot name)
  | _ => Err ":as-of must be an integer (counter) or ISO 8601 string"
  end.
Definition parse_valid_at (v : EdnValue) : result NetView.ValidAt :=
  match v with
  | EString s => ts ← parse_timestamp s; Ok (NetView.ValidAtTimestamp ts)
  | EKeyword k => if eqs k ":any-valid-time" then Ok NetView.AnyValidTime
                  else Err ":valid-at must be an ISO 8601 string or :any-valid-time"
  | EBindSlot name => Ok (NetView.ValidAtSlot name)
  | _ => Err ":valid-at must be an ISO 8601 string or :any-valid-time"
  end.
Definition parse_limit (positive not_integer : string) (v : EdnValue) : result Z :=
  match v with
  | EInteger n => if 1 <=? n then Ok n else Err positive
  | _ => Err not_integer
  end.

(** The variables behind [:with], up to the next keyword. *)
Fixpoint parse_with (items : list EdnValue) (acc : list string) : result (list string * list EdnValue) :=
  match items with
  | EKeyword _ :: _ => Ok (acc, items)
  | v :: rest => match logic_var v with
                 | Some s => parse_with rest (acc ++ [s])
                 | None => Err "':with' clause accepts only variables"
                 end
  | [] => Ok (acc, [])
  end.

(** A keyword of the query vector: the new state and what is left. *)
Definition query_keyword (st : QueryState) (k : string) (rest : list EdnValue) : result (QueryState * list EdnValue) :=
  if eqs k ":as-of" then
    v ← ok_or (head rest) ":as-of requires a value";
    as_of ← parse_as_of v;
    Ok (mkQueryState (find_specs st) (with_vars st) (where_clauses st) (current_clause st) (Some as_of)
          (query_valid_at st) (query_max_derived_facts st) (query_max_results st), tl rest)
  else if eqs k ":valid-at" then
    v ← ok_or (head rest) ":valid-at requires a value";
    valid_at ← parse_valid_at v;
    Ok (mkQueryState (find_specs st) (with_vars st) (where_clauses st) (current_clause st) (query_as_of st)
          (Some valid_at) (query_max_derived_facts st) (query_max_results st), tl rest)
  else if eqs k ":any-valid-time" then
    Ok (mkQueryState (find_specs st) (with_vars st) (where_clauses st) (current_clause st) (query_as_of st)
          (Some NetView.AnyValidTime) (query_max_derived_facts st) (query_max_results st), rest)
  else if eqs k ":max-derived-facts" then
    _ ← ensure (negb (bool_decide (is_Some (query_max_derived_facts st)))) "duplicate :max-derived-facts";
    v ← ok_or (head rest) ":max-derived-facts requires a value";
    n ← parse_limit ":max-derived-facts must be >= 1" ":max-derived-facts must be a positive integer" v;
    Ok (mkQueryState (find_specs st) (with_vars st) (where_clauses st) (current_clause st) (query_as_of st)
          (query_valid_at st) (Some n) (query_max_results st), tl rest)
  else if eqs k ":max-results" then
    _ ← ensure (negb (bool_decide (is_Some (query_max_results st)))) "duplicate :max-results";
    v ← ok_or (head rest) ":max-results requires a value";
    n ← parse_limit ":max-results must be >= 1" ":max-results must be a positive integer" v;
    Ok (mkQueryState (find_specs st) (with_vars st) (where_clauses st) (current_clause st) (query_as_of st)
          (query_valid_at st) (query_max_derived_facts st) (Some n), tl rest)
  else if eqs k ":with" then
    '(vars, rest) ← parse_with rest (with_vars st);
    Ok (mkQueryState (find_specs st) vars (where_clauses st) (current_clause st) (query_as_of st)
          (query_valid_at st) (query_max_derived_facts st) (query_max_results st), rest)
  else
    Ok (mkQueryState (find_specs st) (with_vars st) (where_clauses st) (Some k) (query_as_of st)
          (query_valid_at st) (query_max_derived_facts st) (query_max_results st), rest).

Definition with_find (st : QueryState) (f : FindSpec) : QueryState :=
  mkQueryState (find_specs st ++ [f]) (with_vars st) (where_clauses st) (current_clause st) (query_as_of st)
    (query_valid_at st) (query_max_derived_facts st) (query_max_results st).
Definition with_where (st : QueryState) (c : WhereClause) : QueryState :=
  mkQueryState (find_specs st) (with_vars st) (where_clauses st ++ [c]) (current_clause st) (query_as_of st)
    (query_valid_at st) (query_max_derived_facts st) (query_max_results st).

Definition parse_find_item (item : EdnValue) : result FindSpec :=
  match item with
  | ESymbol s => if is_logic_name s then Ok (FVariable s) else Err "Expected variable or aggregate expression in :find clause"
  | EList elems => parse_aggregate elems
  | _ => Err "Expected variable or aggregate expression in :find clause"
  end.
Definition parse_where_item (unexpected : string) (item : EdnValue) : result WhereClause :=
  match item with
  | EVector vec => parse_vector_clause regex_ok vec
  | EList list => parse_list_as_where_clause regex_ok list true
  | _ => Err unexpected
  end.
(** An element of the query vector that is not a keyword. *)
Definition query_item (st : QueryState) (item : EdnValue) : result QueryState :=
  match current_clause st with
  | Some k =>
    if eqs k ":find" then f ← parse_find_item item; Ok (with_find st f)
    else if eqs k ":where" then
      c ← parse_where_item "Expected pattern vector or rule invocation in :where clause" item; Ok (with_where st c)
    else Err "Unexpected element in query"
  | None => Err "Unexpected element in query"
  end.

Fixpoint query_loop (fuel : nat) (items : list EdnValue) (st : QueryState) : result QueryState :=
  match items with
  | [] => Ok st
  | item :: rest =>
    match fuel with O => Err OUT_OF_FUEL | S fuel =>
    match as_keyword_edn item with
    | Some k => '(st, rest) ← query_keyword st k rest; query_loop fuel rest st
    | None => st ← query_item st item; query_loop fuel rest st
    end end
  end.

Definition check_query (st : QueryState) : result () :=
  let outer_bound := outer_bound_of (where_clauses st) in
  _ ← check_not_safety (where_clauses st) outer_bound;
  _ ← check_not_join_safety (where_clauses st) outer_bound;
  _ ← check_expr_safety (where_clauses st);
  _ ← ensure (forallb (λ f, match f with FAggregate _ var => bool_decide (var ∈ outer_bound) | _ => true end) (find_specs st))
    "Aggregate variable not bound in :where";
  _ ← ensure (forallb (λ v, bool_decide (v ∈ outer_bound)) (with_vars st)) "':with' variable not bound in :where";
  ensure (bool_decide (with_vars st = []) || existsb is_aggregate (find_specs st))
    "':with' clause requires at least one aggregate in :find".

Definition parse_query (elements : list EdnValue) : result DatalogQuery :=
  match elements with
  | [] => Err "Query requires a map argument"
  | first :: _ =>
    query_vector ← ok_or (as_vector first) "Query argument must be a vector";
    st ← query_loop (length query_vector) query_vector query_state_new;
    _ ← check_query st;
    Ok (mkQuery (find_specs st) (where_clauses st) (query_as_of st) (query_valid_at st) (with_vars st)
          (query_max_derived_facts st) (query_max_results st))
  end.

(** ** Transactions *)

Definition valid_time_entry (st : option Z * option Z) (kv : EdnValue * EdnValue) : result (option Z * option Z) :=
  let '(key, val) := kv in
  match as_keyword_edn key with
  | Some k =>
    if eqs k ":valid-from" then
      match val with EString s => t ← parse_timestamp s; Ok (Some t, st.2) | _ => Err ":valid-from must be an ISO 8601 string" end
    else if eqs k ":valid-to" then
      match val with EString s => t ← parse_timestamp s; Ok (st.1, Some t) | _ => Err ":valid-to must be an ISO 8601 string" end
    else Err "Unknown key in valid-time map"
  | None => Err "Unknown key in valid-time map"
  end.
Definition parse_valid_time_map (pairs : list (EdnValue * EdnValue)) : result (option Z * option Z) :=
  foldR valid_time_entry (None, None) pairs.

(** [Option::or]. *)
Definition option_or {A} (o o' : option A) : option A := match o with Some _ => o | None => o' end.

Definition parse_fact (tx_valid_from tx_valid_to : option Z) (fact : EdnValue) : result Pattern :=
  fact_vec ← ok_or (as_vector fact) "Each fact must be a vector [e a v] or [e a v {opts}]";
  match fact_vec with
  | e :: a :: v :: opts =>
    '(fact_valid_from, fact_valid_to) ← (match opts with
      | [] => Ok (None, None)
      | EMap pairs :: _ => parse_valid_time_map pairs
      | _ :: _ => Err "Optional 4th element of a fact must be a map"
      end);
    Ok (pattern_with_valid_time e a v (option_or fact_valid_from tx_valid_from) (option_or fact_valid_to tx_valid_to))
  | _ => Err "Fact must have at least 3 elements (E A V)"
  end.

Definition parse_transaction_elements (elements : list EdnValue) : result Transaction :=
  match elements with
  | [] => Err "requires a vector of facts"
  | first :: rest =>
    '(tx_valid_from, tx_valid_to, facts_element) ← (match first with
      | EMap map =>
        '(from, to) ← parse_valid_time_map map;
        facts_elem ← ok_or (head rest) "with options requires a facts vector after the map";
        Ok (from, to, facts_elem)
      | _ => Ok (None, None, first)
      end);
    facts_vector ← ok_or (as_vector facts_element) "argument must be a vector of facts";
    patterns ← mapR (parse_fact tx_valid_from tx_valid_to) facts_vector;
    Ok (mkTransaction patterns tx_valid_from tx_valid_to)
  end.
Definition parse_transact (elements : list EdnValue) : result DatalogCommand :=
  tx ← parse_transaction_elements elements; Ok (CmdTransact tx).
Definition parse_retract (elements : list EdnValue) : result DatalogCommand :=
  tx ← parse_transaction_elements elements; Ok (CmdRetract tx).

(** ** Forget *)

Definition is_plain_var (f : FindSpec) : bool := match f with FVariable _ => true | _ => false end.
Definition parse_forget_fact (fact : EdnValue) : result Pattern :=
  fact_vec ← ok_or (as_vector fact) "Each forget fact must be a vector [entity attribute value]";
  match fact_vec with
  | [e; a; v] => Ok (pattern_new e a v)
  | _ => Err "Forget fact must have exactly 3 elements (E A V)"
  end.
Definition parse_forget_query (payload : EdnValue) : result ForgetSource :=
  query ← parse_query [payload];
  _ ← ensure (bool_decide (q_as_of query = None)) "Forget query must not use :as-of";
  _ ← ensure (bool_decide (q_valid_at query = None)) "Forget query must not use :valid-at";
  _ ← ensure (Nat.eqb (length (q_find query)) 3 && forallb is_plain_var (q_find query))
    "Forget query :find must be exactly three plain variables";
  Ok (ForgetQuery query).

Definition parse_forget (elements : list EdnValue) : result DatalogCommand :=
  match elements with
  | [] => Err "Forget requires a query vector or a vector of facts"
  | first :: rest =>
    '(valid_to, payload) ← (match first with
      | EMap map =>
        '(from, to) ← parse_valid_time_map map;
        _ ← ensure (bool_decide (from = None)) "Forget does not accept :valid-from; only :valid-to (the closure time)";
        to ← ok_or to "Forget options map requires :valid-to";
        payload ← ok_or (head rest) "Forget with options requires a query or facts vector after the map";
        Ok (Some to, payload)
      | _ => Ok (None, first)
      end);
    payload_vec ← ok_or (as_vector payload) "Forget argument must be a query vector [:find ...] or a vector of facts";
    source ← (if keyword_is ":find" (head payload_vec) then parse_forget_query payload
              else patterns ← mapR parse_forget_fact payload_vec; Ok (ForgetFacts patterns));
    Ok (CmdForget (mkForget source valid_to))
  end.

(** ** Rules *)

Definition check_rule (head_args : list EdnValue) (body : list WhereClause) : result () :=
  let outer_bound : gset string := list_to_set (omap as_variable head_args) ∪ outer_bound_of body in
  _ ← check_not_safety body outer_bound;
  _ ← check_not_join_safety body outer_bound;
  check_expr_safety body.

Definition parse_rule (elements : list EdnValue) : result DatalogCommand :=
  match elements with
  | [] => Err "Rule must have a body"
  | first :: _ =>
    body_vec ← ok_or (as_vector first) "Rule body must be a vector";
    match body_vec with
    | [] => Err "Rule body cannot be empty"
    | head :: body_rest =>
      head_list ← ok_or (as_list head) "Rule head must be a list: (predicate ?args)";
      match head_list with
      | [] => Err "Rule head cannot be empty"
      | ESymbol _ :: head_args =>
        body_clauses ← mapR (parse_where_item "Rule body clause must be a vector (pattern) or list (rule invocation / not)") body_rest;
        _ ← ensure (negb (bool_decide (length body_clauses = 0%nat))) "Rule must have at least one pattern or rule invocation in body";
        _ ← check_rule head_args body_clauses;
        Ok (CmdRule (mkRule head_list body_clauses))
      | _ :: _ => Err "Rule head must start with a symbol (predicate name)"
      end
    end
  end.

Definition parse_command (edn : EdnValue) : result DatalogCommand :=
  match edn with
  | EList (first :: rest) =>
    command ← (match first with ESymbol s => Ok s | EKeyword k => Ok k | _ => Err "Expected command symbol" end);
    if eqs command "query" then q ← parse_query rest; Ok (CmdQuery q)
    else if eqs command "transact" then parse_transact rest
    else if eqs command "retract" then parse_retract rest
    else if eqs command "forget" then parse_forget rest
    else if eqs command "rule" then parse_rule rest
    else Err "Unknown command"
  | _ => Err "Expected a list starting with a command symbol"
  end.
End Commands2.

Definition parse_datalog_command `{Unicode} (parse_str : string → option Z) (regex_ok : string → bool)
    (parse_datetime parse_date : string → option Z) (input : list Z) : result DatalogCommand :=
  edn ← parse_edn parse_str input;
  parse_command regex_ok (parse_timestamp parse_datetime parse_date) edn.

(** * What a parsed query guarantees *)

Definition flat_clause (c : WhereClause) : bool :=
  match c with CPattern _ | RuleInvocation _ _ | CExpr _ _ => true | _ => false end.
(** No body or disjunction is empty, and a negation holds only patterns,
    invocations and expressions, at every depth. *)
Fixpoint nested_ok (c : WhereClause) : bool :=
  match c with
  | CPattern _ | RuleInvocation _ _ | CExpr _ _ => true
  | Not cs | NotJoin _ cs => negb (Nat.eqb (length cs) 0) && forallb flat_clause cs
  | Or bs | OrJoin _ bs =>
    negb (Nat.eqb (length bs) 0) && forallb (λ b, negb (Nat.eqb (length b) 0) && forallb nested_ok b) bs
  end.

(** A clause list directly inside a clause. *)
Definition inner_list (inner : list WhereClause) (d : WhereClause) : Prop :=
  match d with
  | Not cs | NotJoin _ cs => inner = cs
  | Or bs | OrJoin _ bs => inner ∈ bs
  | _ => False
  end.
(** A clause at any depth of a body, with the variables bound by what comes
    before it, on its own level and on the levels around it. *)
Inductive scoped_at (bound : gset string) : list WhereClause → gset string → WhereClause → Prop :=
| scoped_here pre c post : scoped_at bound (pre ++ c :: post) (bound ∪ outer_bound_of pre) c
| scoped_inside pre d inner post scope c : inner_list inner d →
    scoped_at (bound ∪ outer_bound_of pre) inner scope c → scoped_at bound (pre ++ d :: post) scope c.

Record safe_body (bound : gset string) (cs : list WhereClause) : Prop := {
  body_nested : forallb nested_ok cs = true;
  body_exprs : ∀ scope e b x, scoped_at ∅ cs scope (CExpr e b) → x ∈ parsed_expr_vars e → x ∈ scope;
  body_or_joins : ∀ scope vs bs x, scoped_at ∅ cs scope (OrJoin vs bs) → x ∈ vs → is_wild x = false → x ∈ scope;
  body_not : ∀ inner c x, Not inner ∈ cs → c ∈ inner → x ∈ outer_vars_from_clause c → x ∈ bound;
  body_not_join : ∀ vs inner x, NotJoin vs inner ∈ cs → x ∈ vs → is_wild x = false → x ∈ bound;
}.

Record safe_query (q : DatalogQuery) : Prop := {
  query_body : safe_body (outer_bound_of (q_where q)) (q_where q);
  query_aggregates : ∀ f x, FAggregate f x ∈ q_find q → x ∈ outer_bound_of (q_where q);
  query_with : ∀ x, x ∈ q_with_vars q → x ∈ outer_bound_of (q_where q) ∧ ∃ f y, FAggregate f y ∈ q_find q;
  query_limits : ∀ n, q_max_results q = Some n ∨ q_max_derived_facts q = Some n ∨ q_as_of q = Some (NetView.AsOfCounter n) → 0 ≤ n;
  query_positive : q_max_results q ≠ Some 0 ∧ q_max_derived_facts q ≠ Some 0;
}.

Definition safe_command (c : DatalogCommand) : Prop :=
  match c with
  | CmdQuery q => safe_query q
  | CmdForget f =>
    match forget_source f with
    | ForgetQuery q => safe_query q ∧ q_as_of q = None ∧ q_valid_at q = None ∧ ∃ e a v, q_find q = [FVariable e; FVariable a; FVariable v]
    | ForgetFacts _ => True
    end
  | CmdRule r => ∃ name args, rule_head r = ESymbol name :: args ∧ rule_body r ≠ [] ∧
      safe_body (list_to_set (omap as_variable args) ∪ outer_bound_of (rule_body r)) (rule_body r)
  | CmdTransact tx | CmdRetract tx => Forall (λ p, ∃ a, pat_attribute p = Real a) (tx_facts tx)
  end.

(** ** Nesting *)

Lemma mapR_forallb {A B} (f : A → result B) (P : B → bool) l k :
  (∀ x y, x ∈ l → f x = Ok y → P y = true) → mapR f l = Ok k → forallb P k = true ∧ length k = length l.
Proof.
  intros H E. apply mapR_Forall2 in E. split; [|symmetry; by eapply Forall2_length].
  induction E as [|x y l k E F IH]; [done|]. cbn. rewrite (H x y), IH; [done| |by left|done]. intros; eapply H; [by right|done].
Qed.

Section Safety.
Context (regex_ok : string → bool) (parse_timestamp : string → result Z).
#[local] Abbreviation rec := (parse_list_item regex_ok).

Lemma vector_clause_leaf vec c : parse_vector_clause regex_ok vec = Ok c → flat_clause c = true.
Proof.
  unfold parse_vector_clause. destruct vec as [|[] vec]; intros E; inv_ok; try done.
  unfold parse_expr_clause in E. inv_ok. done.
Qed.
Lemma leaf_nested c : flat_clause c = true → nested_ok c = true.
Proof. by destruct c. Qed.

(** A list without negation inside a negation is an invocation. *)
Lemma plain_list_leaf list c : head_is ["or"; "or-join"] list = false → parse_list_with regex_ok rec list false = Ok c → flat_clause c = true.
Proof.
  unfold parse_list_with. destruct list as [|[] l]; try done. cbn [head_is in_names existsb ensure].
  destruct (eqs s "not"); [done|]. destruct (eqs s "not-join"); [done|]. destruct (eqs s "or"); [done|].
  destruct (eqs s "or-join"); [done|]. by intros _ [= <-].
Qed.
Lemma negated_leaf e item c : parse_negated_item regex_ok rec e item = Ok c → flat_clause c = true.
Proof.
  unfold parse_negated_item. destruct item; try done; [apply vector_clause_leaf|].
  destruct (head_is _ l) eqn:Hd; [done|]. by apply plain_list_leaf.
Qed.
Lemma negated_leaves e items cs : mapR (parse_negated_item regex_ok rec e) items = Ok cs →
  forallb flat_clause cs = true ∧ length cs = length items.
Proof. apply mapR_forallb. intros x y _. apply negated_leaf. Qed.

(** What the recursion needs of an element: it is read well, and so are the
    elements of a list ([and] is looked through). *)
Definition reads_nested (v : EdnValue) : Prop := ∀ c, parse_list_item regex_ok v true = Ok c → nested_ok c = true.
Definition reads_nested_within (v : EdnValue) : Prop :=
  reads_nested v ∧ match v with EList l => Forall reads_nested l | _ => True end.

Lemma branch_nested item b : reads_nested_within item → parse_or_branch regex_ok rec item = Ok b →
  negb (Nat.eqb (length b) 0) && forallb nested_ok b = true.
Proof.
  intros [R Rl]. assert (∀ x c, reads_nested x → parse_or_branch_item regex_ok rec x = Ok c → nested_ok c = true) as I.
  { intros x c Rx. unfold parse_or_branch_item. destruct x; try done; [intros; by apply leaf_nested, (vector_clause_leaf l)|apply Rx]. }
  assert ((c ← parse_or_branch_item regex_ok rec item; Ok [c]) = Ok b → negb (Nat.eqb (length b) 0) && forallb nested_ok b = true) as One.
  { intros E. inv_ok. cbn. by rewrite (I _ _ R H). }
  unfold parse_or_branch. destruct item; try apply One. destruct (head_is _ l); [|apply One].
  destruct l as [|a [|a' l]]; try done. intros E. apply (mapR_forallb _ nested_ok) in E as [-> L]; [by rewrite L|].
  intros x y Hx. apply I. rewrite Forall_forall in Rl. apply Rl. by right.
Qed.
Lemma branches_nested items bs : Forall reads_nested_within items → mapR (parse_or_branch regex_ok rec) items = Ok bs →
  forallb (λ b, negb (Nat.eqb (length b) 0) && forallb nested_ok b) bs = true ∧ length bs = length items.
Proof. intros F. apply mapR_forallb. intros x y Hx. apply branch_nested. rewrite Forall_forall in F. by apply F. Qed.

Lemma list_nested l c : Forall reads_nested_within l → parse_list_with regex_ok rec l true = Ok c → nested_ok c = true.
Proof.
  intros F. unfold parse_list_with. destruct l as [|[] l]; try done. apply Forall_cons in F as [_ F]. cbn [ensure mbind result_bind].
  destruct (eqs s "not").
  { destruct l as [|x l]; [done|]. intros E. apply bind_Ok in E as (cs & E & [= <-]). apply negated_leaves in E as [L1 L2]. cbn. by rewrite L1, L2. }
  destruct (eqs s "not-join").
  { destruct l as [|v [|x l]]; try done. intros E. apply bind_Ok in E as (vs & _ & E). apply bind_Ok in E as (cs & E & [= <-]).
    apply negated_leaves in E as [L1 L2]. cbn. by rewrite L1, L2. }
  destruct (eqs s "or").
  { destruct l as [|x l]; [done|]. intros E. apply bind_Ok in E as (bs & E & [= <-]). apply branches_nested in E as [L1 L2]; [|done]. cbn. by rewrite L1, L2. }
  destruct (eqs s "or-join").
  { destruct l as [|v [|x l]]; try done. intros E. apply bind_Ok in E as (vs & _ & E). apply bind_Ok in E as (bs & E & [= <-]).
    apply Forall_cons in F as [_ F]. apply branches_nested in E as [L1 L2]; [|done]. cbn. by rewrite L1, L2. }
  by intros [= <-].
Qed.

Fixpoint edn_list_ind (P : EdnValue → Prop) (step : ∀ v, match v with EList l => Forall P l | _ => True end → P v) (v : EdnValue) : P v :=
  step v (match v with
          | EList l => (fix all (l : list EdnValue) : Forall P l :=
              match l with [] => Forall_nil_2 P | x :: l => Forall_cons_2 P x l (edn_list_ind P step x) (all l) end) l
          | _ => I
          end).
Lemma all_read_nested v : reads_nested_within v.
Proof.
  induction v as [v IH] using edn_list_ind. split.
  - intros c. destruct v; try done. by apply list_nested.
  - destruct v; try done. eapply Forall_impl; [exact IH|]. by intros x [? _].
Qed.
Lemma where_item_nested e v c : parse_where_item regex_ok e v = Ok c → nested_ok c = true.
Proof.
  unfold parse_where_item. destruct v; try done; [intros; by apply leaf_nested, (vector_clause_leaf l)|].
  apply list_nested. apply Forall_forall. intros x _. apply all_read_nested.
Qed.

(** ** Scopes *)

Lemma neighbours_same (l : list (gset string)) a : neighbours_differ (a :: l) = false → Forall (eq a) l.
Proof.
  revert a; induction l as [|b l IH]; intros a E; [constructor|]. cbn [neighbours_differ] in E.
  apply orb_false_iff in E as [E1 E2]. apply negb_false_iff, bool_decide_eq_true in E1 as ->. constructor; [done|by apply IH].
Qed.
Lemma in_names_spec s l : in_names s l = true ↔ s ∈ l.
Proof.
  unfold in_names. rewrite existsb_exists. setoid_rewrite <-list_elem_of_In. unfold eqs. setoid_rewrite bool_decide_eq_true.
  naive_solver.
Qed.
Lemma outer_bound_app l k : outer_bound_of (l ++ k) = outer_bound_of l ∪ outer_bound_of k.
Proof. unfold outer_bound_of. by rewrite flat_map_app, list_to_set_app_L. Qed.
Lemma outer_bound_one c : outer_bound_of [c] = list_to_set (outer_vars_from_clause c).
Proof. unfold outer_bound_of. cbn. by rewrite app_nil_r. Qed.

(** A clause only adds variables it binds. *)
Definition extends_scope (c : WhereClause) : Prop := ∀ bound bound' : gset string,
  check_expr_clause bound c = Ok bound' → bound' ⊆ bound ∪ list_to_set (outer_vars_from_clause c).
Lemma clauses_extend cs : Forall extends_scope cs → ∀ bound bound',
  foldR check_expr_clause bound cs = Ok bound' → bound' ⊆ bound ∪ outer_bound_of cs.
Proof.
  induction 1 as [|c cs Hc F IH]; intros bound bound' E; cbn [foldR] in E; [inv_ok; set_solver|].
  apply bind_Ok in E as (b1 & E1 & E2). apply Hc in E1. apply IH in E2. change (c :: cs) with ([c] ++ cs).
  rewrite outer_bound_app, outer_bound_one. set_solver.
Qed.
Lemma clause_extends c : extends_scope c.
Proof.
  induction c as [p|q args|cs IH|vs cs IH|e b|bs IH|vs bs IH] using where_ind; intros bound bound' E; cbn [check_expr_clause] in E.
  - inv_ok. set_solver.
  - inv_ok. set_solver.
  - inv_ok. set_solver.
  - inv_ok. set_solver.
  - inv_ok. destruct b; cbn; set_solver.
  - apply bind_Ok in E as (sets & M & E). apply bind_Ok in E as ([] & N%ensure_Ok & E). apply negb_true_iff in N. inv_ok.
    apply mapR_Forall2 in M. destruct bs as [|b bs]; [inversion M; subst; set_solver|].
    inversion M as [|? new ? news E1 M']; subst. apply neighbours_same in N. cbn [outer_vars_from_clause map].
    apply union_subseteq. split; [set_solver|]. intros x Hx. apply elem_of_union_r, elem_of_list_to_set, list_elem_of_filter.
    apply Forall_cons in IH as [IHb IHs].
    assert (∀ b s, Forall extends_scope b → (b0 ← foldR check_expr_clause bound b; Ok (b0 ∖ bound)) = Ok s → x ∈ s →
              x ∈ flat_map outer_vars_from_clause b) as V.
    { intros b1 s1 Fb Eb Hs. inv_ok. apply (clauses_extend b1 Fb) in H. unfold outer_bound_of in H. set_solver. }
    split; [|by apply elem_of_remove_dups, (V b new)]. apply Is_true_true, forallb_forall. intros vars Hv. apply in_map_iff in Hv as (b2 & <- & Hb2).
    apply in_names_spec. apply list_elem_of_In, list_elem_of_lookup in Hb2 as [i Hi].
    destruct (Forall2_lookup_l _ _ _ _ _ M' Hi) as (s2 & Hs2 & E2). eapply V; [|exact E2|].
    + by eapply Forall_lookup_1.
    + rewrite Forall_lookup in N. by rewrite <-(N _ _ Hs2).
  - inv_ok. set_solver.
Qed.
Lemma scope_after cs bound bound' : foldR check_expr_clause bound cs = Ok bound' → bound' ⊆ bound ∪ outer_bound_of cs.
Proof. apply clauses_extend. apply Forall_forall. intros c _. apply clause_extends. Qed.

(** What the check says of a clause it meets with [scope] in force. *)
Definition in_scope (scope : gset string) (c : WhereClause) : Prop :=
  match c with
  | CExpr e _ => ∀ x, x ∈ parsed_expr_vars e → x ∈ scope
  | OrJoin vs _ => ∀ x, x ∈ vs → is_wild x = false → x ∈ scope
  | _ => True
  end.
Lemma checked_in_scope b c b' scope : check_expr_clause b c = Ok b' → b ⊆ scope → in_scope scope c.
Proof.
  intros E L. destruct c as [p|q args|cs|vs cs|e o|bs|vs bs]; try done; cbn [check_expr_clause] in E.
  - apply bind_Ok in E as ([] & E%ensure_Ok & _). intros x Hx. rewrite forallb_forall in E.
    apply list_elem_of_In, E, bool_decide_eq_true in Hx. set_solver.
  - apply bind_Ok in E as ([] & E%ensure_Ok & _). intros x Hx W. rewrite forallb_forall in E.
    apply list_elem_of_In, E in Hx. rewrite W in Hx. apply bool_decide_eq_true in Hx. set_solver.
Qed.
Lemma checked_inner b d b' inner : check_expr_clause b d = Ok b' → inner_list inner d →
  ∃ b2, foldR check_expr_clause b inner = Ok b2.
Proof.
  intros E I. destruct d as [p|q args|cs|vs cs|e o|bs|vs bs]; try done; cbn [check_expr_clause] in E; cbn in I.
  - subst. apply bind_Ok in E as (b2 & E & _). eauto.
  - subst. apply bind_Ok in E as (b2 & E & _). eauto.
  - apply bind_Ok in E as (sets & M & _). apply mapR_Forall2 in M. apply list_elem_of_lookup in I as [i Hi].
    destruct (Forall2_lookup_l _ _ _ _ _ M Hi) as (s2 & _ & E2). apply bind_Ok in E2 as (b2 & E2 & _). eauto.
  - apply bind_Ok in E as (? & _ & E). apply bind_Ok in E as (sets & M & _). apply mapR_Forall2 in M. apply list_elem_of_lookup in I as [i Hi].
    destruct (Forall2_lookup_l _ _ _ _ _ M Hi) as (s2 & _ & E2). eauto.
Qed.
Lemma checked_scoped bound0 cs scope c : scoped_at bound0 cs scope c → ∀ bound bound',
  foldR check_expr_clause bound cs = Ok bound' → bound ⊆ bound0 → in_scope scope c.
Proof.
  induction 1 as [bound0 pre c post|bound0 pre d inner post scope c I St IH]; intros bound bound' E L; rewrite foldR_app in E;
    apply bind_Ok in E as (b1 & E1 & E); cbn [foldR] in E; apply bind_Ok in E as (b2 & E2 & _); apply scope_after in E1.
  - eapply checked_in_scope; [exact E2|]. set_solver.
  - destruct (checked_inner _ _ _ _ E2 I) as (b3 & E3). eapply IH; [exact E3|]. set_solver.
Qed.

Lemma foldR_unit_Forall {A} (f : A → result ()) l u : foldR (λ _ x, f x) () l = Ok u → ∀ x, x ∈ l → f x = Ok ().
Proof.
  induction l as [|y l IH]; cbn; intros E x Hx; [by apply not_elem_of_nil in Hx|]. apply bind_Ok in E as ([] & E1 & E2).
  apply elem_of_cons in Hx as [->|Hx]; [done|by apply IH].
Qed.

Lemma checked_body bound cs u u' b : forallb nested_ok cs = true →
  check_not_safety cs bound = Ok u → check_not_join_safety cs bound = Ok u' → foldR check_expr_clause ∅ cs = Ok b →
  safe_body bound cs.
Proof.
  intros Wn Sn Sj Se. split; [done| | | |].
  - intros scope e o x St. exact (checked_scoped _ _ _ _ St _ _ Se (reflexivity _) x).
  - intros scope vs bs x St. exact (checked_scoped _ _ _ _ St _ _ Se (reflexivity _) x).
  - intros inner c x Hi Hc Hx. apply (foldR_unit_Forall _ _ _ Sn) in Hi. apply ensure_Ok in Hi. cbn [vars_in_not] in Hi.
    rewrite forallb_forall in Hi. apply (bool_decide_eq_true_1 _), Hi. apply in_flat_map. exists c. by rewrite <-!list_elem_of_In.
  - intros vs inner x Hi Hx Wx. unfold check_not_join_safety in Sj.
    apply (foldR_unit_Forall (λ c, match c with NotJoin _ _ => _ | _ => _ end) _ _ Sj) in Hi. apply ensure_Ok in Hi.
    rewrite forallb_forall in Hi. apply list_elem_of_In, Hi in Hx. rewrite Wx in Hx. by apply bool_decide_eq_true in Hx.
Qed.

(** ** The query vector *)

Record state_ok (st : QueryState) : Prop := {
  state_nested : forallb nested_ok (where_clauses st) = true;
  state_results : ∀ n, query_max_results st = Some n → 1 ≤ n;
  state_derived : ∀ n, query_max_derived_facts st = Some n → 1 ≤ n;
  state_as_of : ∀ n, query_as_of st = Some (NetView.AsOfCounter n) → 0 ≤ n;
}.
Lemma parse_limit_pos e e' v n : parse_limit e e' v = Ok n → 1 ≤ n.
Proof. destruct v; try done. cbn. destruct (Z.leb_spec 1 z); [|done]. by intros [= <-]. Qed.
Lemma parse_as_of_nonneg v n : parse_as_of parse_timestamp v = Ok (NetView.AsOfCounter n) → 0 ≤ n.
Proof.
  destruct v; try done; cbn [parse_as_of]; [intros E; inv_ok; done|]. destruct (Z.leb_spec 0 z); [|done]. unfold u64_try_from.
  destruct (Z.leb_spec 0 z); [|lia]. cbn. by intros [= <-].
Qed.
Lemma parse_with_shrinks items : ∀ acc vars rest, parse_with items acc = Ok (vars, rest) → (length rest ≤ length items)%nat.
Proof.
  induction items as [|v items IH]; intros acc vars rest; [by intros [= <- <-]|]. cbn [parse_with].
  destruct v; cbn [logic_var]; try done; [by intros [= <- <-]|]. destruct (is_logic_name s); [|done]. intros E%IH. cbn. lia.
Qed.
Lemma tail_shrinks {A} (l : list A) : (length (tl l) ≤ length l)%nat.
Proof. destruct l; cbn; lia. Qed.

Lemma keyword_ok st k rest st' rest' : state_ok st → query_keyword parse_timestamp st k rest = Ok (st', rest') →
  state_ok st' ∧ (length rest' ≤ length rest)%nat.
Proof.
  intros [Wn Mr Md Ao]. unfold query_keyword. pose proof (tail_shrinks rest) as Tl.
  destruct (eqs k ":as-of").
  { intros E. inv_ok. simplify_eq. split; [|done]. split; try done. cbn. intros n [= ->]. by eapply parse_as_of_nonneg. }
  destruct (eqs k ":valid-at"); [intros E; inv_ok; simplify_eq; done|].
  destruct (eqs k ":any-valid-time"); [intros E; inv_ok; simplify_eq; done|].
  destruct (eqs k ":max-derived-facts").
  { intros E. inv_ok. simplify_eq. split; [|done]. split; try done. cbn. intros n [= <-]. by eapply parse_limit_pos. }
  destruct (eqs k ":max-results").
  { intros E. inv_ok. simplify_eq. split; [|done]. split; try done. cbn. intros n [= <-]. by eapply parse_limit_pos. }
  destruct (eqs k ":with"); [|intros E; inv_ok; simplify_eq; done].
  intros E. apply bind_Ok in E as ([vars r] & E & [= <- <-]). split; [done|]. by eapply parse_with_shrinks.
Qed.
Lemma item_ok st item st' : state_ok st → query_item regex_ok st item = Ok st' → state_ok st'.
Proof.
  intros [Wn Mr Md Ao]. unfold query_item. destruct (current_clause st) as [k|]; [|done].
  destruct (eqs k ":find"); [intros E; inv_ok; done|]. destruct (eqs k ":where"); [|done].
  intros E. inv_ok. split; try done. cbn [where_clauses with_where]. rewrite forallb_app, Wn. cbn. by rewrite (where_item_nested _ _ _ H).
Qed.
Lemma loop_ok fuel : ∀ items st st', state_ok st → query_loop regex_ok parse_timestamp fuel items st = Ok st' → state_ok st'.
Proof.
  induction fuel as [|fuel IH]; intros [|item rest] st st' O; cbn [query_loop]; try (by intros [= <-] || done).
  destruct (as_keyword_edn item) as [k|]; intros E.
  - apply bind_Ok in E as ([st1 r1] & E1 & E2). eapply IH; [|exact E2]. by eapply keyword_ok.
  - apply bind_Ok in E as (st1 & E1 & E2). eapply IH; [|exact E2]. by eapply item_ok.
Qed.
Lemma loop_fuel n : ∀ items st fuel fuel', (length items ≤ n)%nat → (length items ≤ fuel)%nat → (length items ≤ fuel')%nat →
  state_ok st → query_loop regex_ok parse_timestamp fuel items st = query_loop regex_ok parse_timestamp fuel' items st.
Proof.
  induction n as [|n IH]; intros [|item rest] st [|fuel] [|fuel'] L L1 L2 O; cbn [length query_loop] in *; try done; try lia.
  destruct (as_keyword_edn item) as [k|].
  - destruct (query_keyword parse_timestamp st k rest) as [[st1 r1]|e] eqn:E; [|done]. cbn [mbind result_bind].
    apply keyword_ok in E as [O1 L3]; [|done]. apply IH; [lia|lia|lia|done].
  - destruct (query_item regex_ok st item) as [st1|e] eqn:E; [|done]. cbn [mbind result_bind].
    apply item_ok in E; [|done]. apply IH; [lia|lia|lia|done].
Qed.
Lemma state_new_ok : state_ok query_state_new.
Proof. done. Qed.

Lemma query_safe elements q : parse_query regex_ok parse_timestamp elements = Ok q → safe_query q.
Proof.
  unfold parse_query. destruct elements as [|first es]; [done|]. intros E. apply bind_Ok in E as (v & _ & E).
  apply bind_Ok in E as (st & L & E). apply loop_ok in L as [Wn Mr Md Ao]; [|apply state_new_ok].
  apply bind_Ok in E as ([] & C & [= <-]). unfold check_query in C.
  apply bind_Ok in C as (u1 & C1 & C). apply bind_Ok in C as (u2 & C2 & C). apply bind_Ok in C as (u3 & C3 & C).
  apply bind_Ok in C as (u4 & C4%ensure_Ok & C). apply bind_Ok in C as (u5 & C5%ensure_Ok & C6%ensure_Ok).
  unfold check_expr_safety in C3. apply bind_Ok in C3 as (b & C3 & _). rewrite forallb_forall in C4, C5.
  split; cbn [q_where q_find q_with_vars q_max_results q_max_derived_facts q_as_of].
  - by eapply checked_body.
  - intros f x Hf. apply list_elem_of_In, C4 in Hf. by apply bool_decide_eq_true in Hf.
  - intros x Hx. split; [by apply list_elem_of_In, C5, bool_decide_eq_true in Hx|].
    apply orb_true_iff in C6 as [C6|C6].
    + apply bool_decide_eq_true in C6. rewrite C6 in Hx. by apply not_elem_of_nil in Hx.
    + apply existsb_exists in C6 as (f & Hf & Af). destruct f; try done. apply list_elem_of_In in Hf. eauto.
  - intros n [H|[H|H]]; [apply Mr in H|apply Md in H|apply Ao in H]; lia.
  - split; intros H; [apply Mr in H|apply Md in H]; lia.
Qed.

Lemma transaction_real elements tx : parse_transaction_elements parse_timestamp elements = Ok tx →
  Forall (λ p, ∃ a, pat_attribute p = Real a) (tx_facts tx).
Proof.
  unfold parse_transaction_elements. destruct elements as [|first rest]; [done|]. intros E.
  apply bind_Ok in E as ([[vf vt] fe] & _ & E). apply bind_Ok in E as (fv & _ & E). apply bind_Ok in E as (ps & E & [= <-]). cbn.
  apply mapR_Forall2 in E. induction E as [|x p l k E F IH]; [constructor|]. constructor; [|done].
  unfold parse_fact in E. apply bind_Ok in E as (vec & _ & E). destruct vec as [|e [|a [|v opts]]]; try done.
  apply bind_Ok in E as ([ff ft] & _ & [= <-]). cbn. eauto.
Qed.

Lemma command_safe edn c : parse_command regex_ok parse_timestamp edn = Ok c → safe_command c.
Proof.
  unfold parse_command. destruct edn; try done. destruct l as [|first rest]; [done|]. intros E.
  apply bind_Ok in E as (name & _ & E). destruct (eqs name "query").
  { inv_ok. by eapply query_safe. }
  destruct (eqs name "transact"); [unfold parse_transact in E; inv_ok; by eapply transaction_real|].
  destruct (eqs name "retract"); [unfold parse_retract in E; inv_ok; by eapply transaction_real|].
  destruct (eqs name "forget").
  { unfold parse_forget in E. destruct rest as [|f0 rest]; [done|]. apply bind_Ok in E as ([vt payload] & _ & E).
    apply bind_Ok in E as (pv & _ & E). apply bind_Ok in E as (src & E & [= <-]). cbn.
    destruct (keyword_is _ _); [|inv_ok; done]. unfold parse_forget_query in E. apply bind_Ok in E as (q & Q & E).
    apply bind_Ok in E as (u1 & A%ensure_Ok & E). apply bind_Ok in E as (u2 & V%ensure_Ok & E). apply bind_Ok in E as (u3 & F%ensure_Ok & [= <-]).
    apply bool_decide_eq_true in A, V. apply andb_prop in F as [L F]. split; [by eapply query_safe|]. split; [done|]. split; [done|].
    destruct (q_find q) as [|[] [|[] [|[] [|]]]]; try done. eauto. }
  destruct (eqs name "rule"); [|done]. unfold parse_rule in E. destruct rest as [|b rest]; [done|].
  apply bind_Ok in E as (bv & _ & E). destruct bv as [|h body]; [done|]. apply bind_Ok in E as (hl & _ & E).
  destruct hl as [|[] args]; try done. apply bind_Ok in E as (cs & E1 & E). apply bind_Ok in E as ([] & Ne%ensure_Ok & E).
  apply bind_Ok in E as (u & C & [= <-]). cbn. exists s, args. split; [done|].
  apply negb_true_iff, bool_decide_eq_false in Ne. split; [by intros ->|]. unfold check_rule in C.
  apply bind_Ok in C as (u1 & C1 & C). apply bind_Ok in C as (u2 & C2 & C). unfold check_expr_safety in C. apply bind_Ok in C as (b' & C3 & _).
  eapply checked_body; [|done|done|done]. eapply mapR_forallb; [|exact E1]. intros; by eapply where_item_nested.
Qed.
End Safety.


#[local] Instance ascii_only : Unicode := {| unicode_alphabetic := λ _, false; unicode_numeric := λ _, false |}.
#[local] Abbreviation read s := (parse_datalog_command (λ _, None) (λ _, true) (λ _, None) (λ _, None) (chars s)).

Definition sample_parsed : DatalogQuery :=
  mkQuery [FVariable "?x"; FAggregate "count" "?e"]
    [CPattern (pattern_new (ESymbol "?e") (EKeyword ":age") (ESymbol "?x")); CExpr (Bin OpGt (Var "?x") (Lit (VInteger 3))) None;
     Not [CPattern (pattern_new (ESymbol "?e") (EKeyword ":dead") (EBoolean true))]]
    (Some (NetView.AsOfCounter 2)) None [] None (Some 10).
Definition sample_text : string :=
  "(query [:find ?x (count ?e) :as-of 2 :max-results 10 :where [?e :age ?x] [(> ?x 3)] (not [?e :dead true])])".


(** A negation inside a branch of [or] is not checked: [?y] occurs nowhere else. *)
Lemma nested_negation_unchecked : ∃ q b,
  read "(query [:find ?e :where (or (and [?e :a 1] (not [?e :b ?y])))])" = Ok (CmdQuery q) ∧ q_where q = [Or [b]] ∧
  b !! 1%nat = Some (Not [CPattern (pattern_new (ESymbol "?e") (EKeyword ":b") (ESymbol "?y"))]) ∧
  (∀ x, x ∈ outer_bound_of (q_where q) → x = "?e"%string).
Proof.
  eexists _, _. split; [vm_compute; reflexivity|]. split; [reflexivity|]. split; [reflexivity|].
  cbn [q_where]. intros x. rewrite outer_bound_one, elem_of_list_to_set. vm_compute outer_vars_from_clause. by intros ->%list_elem_of_singleton.
Qed.
(** What follows the first value is dropped, a second command included. *)
Lemma trailing_text_ignored : read "(transact []) (retract [])" = Ok (CmdTransact (mkTransaction [] None None)).
Proof. vm_compute. reflexivity. Qed.
