(* ===== verification/Prepared.v ===== *)
(** Prepared queries (src/src/query/datalog/prepared.rs): a query with named bind
    slots, filled in and run.

    The substitution that Rust makes in place returns the new query here.  The
    executor is the parameter [run]; a [HashMap] of bindings is a [gmap]. *)
From S2P Require Import Prelude Types NetView QueryTypes.

Inductive BindValue : Type :=
| BEntity (u : Z)
| BVal (v : Value)
| BTxCount (n : Z)
| BTimestamp (t : Z)
| BAnyValidTime.
Abbreviation Bindings := (gmap string BindValue).

Record PreparedQuery : Type := mkPrepared { template : DatalogQuery; slot_names : list string }.

(** * Validation *)

Fixpoint validate_clause (c : WhereClause) : result () :=
  match c with
  | CPattern p =>
    match pat_attribute p with
    | Real (EBindSlot _) => Err "bind slot is not permitted in attribute position"
    | _ => Ok ()
    end
  | Not inner | NotJoin _ inner => foldR (λ _, validate_clause) () inner
  | Or branches | OrJoin _ branches => foldR (λ _ b, foldR (λ _, validate_clause) () b) () branches
  | CExpr _ _ | RuleInvocation _ _ => Ok ()
  end.
Definition validate_clauses_no_attr_slots (cs : list WhereClause) : result () := foldR (λ _, validate_clause) () cs.
Definition validate_no_attribute_slots (q : DatalogQuery) : result () := validate_clauses_no_attr_slots (q_where q).

(** * Slot collection *)

Definition edn_slot (v : EdnValue) : gset string := match v with EBindSlot name => {[ name ]} | _ => ∅ end.
Fixpoint collect_slots_from_expr (e : Expr) (names : gset string) : gset string :=
  match e with
  | Slot name => {[ name ]} ∪ names
  | Bin _ l r => collect_slots_from_expr r (collect_slots_from_expr l names)
  | Unary _ a => collect_slots_from_expr a names
  | Var _ | Lit _ => names
  end.
Fixpoint collect_slots_from_clause (names : gset string) (c : WhereClause) : gset string :=
  match c with
  | CPattern p => edn_slot (pat_value p) ∪ (edn_slot (pat_entity p) ∪ names)
  | Not inner | NotJoin _ inner => fold_left collect_slots_from_clause inner names
  | Or branches | OrJoin _ branches => fold_left (λ names b, fold_left collect_slots_from_clause b names) branches names
  | CExpr e _ => collect_slots_from_expr e names
  | RuleInvocation _ args => fold_left (λ names a, edn_slot a ∪ names) args names
  end.
Definition collect_slots_from_clauses (cs : list WhereClause) (names : gset string) : gset string :=
  fold_left collect_slots_from_clause cs names.
Definition collect_slot_names (q : DatalogQuery) : list string :=
  let names : gset string := match q_as_of q with Some (NetView.AsOfSlot name) => {[ name ]} | _ => ∅ end in
  let names := match q_valid_at q with Some (NetView.ValidAtSlot name) => {[ name ]} ∪ names | _ => names end in
  merge_sort le_ord (elements (collect_slots_from_clauses (q_where q) names)).

Definition prepare_query (q : DatalogQuery) : result PreparedQuery :=
  _ ← validate_no_attribute_slots q;
  Ok (mkPrepared q (collect_slot_names q)).

(** * Substitution *)

Definition bind_value_to_edn (v : Value) : EdnValue :=
  match v with
  | VString s => EString s
  | VInteger i => EInteger i
  | VFloat f => EFloat f
  | VBoolean b => EBoolean b
  | VKeyword k => EKeyword k
  | VRef u => EUuid u
  | VNull => ENil
  end.

Definition MISSING : string := "missing bind value for slot".
Definition WRONG_KIND : string := "slot requires a bind value of another kind".

Definition resolve_entity_slot (name : string) (b : Bindings) : result EdnValue :=
  match b !! name with Some (BEntity u) => Ok (EUuid u) | Some _ => Err WRONG_KIND | None => Err MISSING end.
Definition resolve_value_slot (name : string) (b : Bindings) : result EdnValue :=
  match b !! name with Some (BVal v) => Ok (bind_value_to_edn v) | Some _ => Err WRONG_KIND | None => Err MISSING end.
Definition resolve_val_slot (name : string) (b : Bindings) : result Value :=
  match b !! name with Some (BVal v) => Ok v | Some _ => Err WRONG_KIND | None => Err MISSING end.
Definition resolve_as_of_slot (name : string) (b : Bindings) : result NetView.AsOf :=
  match b !! name with
  | Some (BTxCount n) => Ok (NetView.AsOfCounter n)
  | Some (BTimestamp t) => Ok (NetView.AsOfTimestamp t)
  | Some _ => Err WRONG_KIND
  | None => Err MISSING
  end.
Definition resolve_valid_at_slot (name : string) (b : Bindings) : result NetView.ValidAt :=
  match b !! name with
  | Some (BTimestamp t) => Ok (NetView.ValidAtTimestamp t)
  | Some BAnyValidTime => Ok NetView.AnyValidTime
  | Some _ => Err WRONG_KIND
  | None => Err MISSING
  end.

Definition substitute_edn_value (b : Bindings) (v : EdnValue) : result EdnValue :=
  match v with EBindSlot name => resolve_value_slot name b | _ => Ok v end.
Definition substitute_entity (b : Bindings) (v : EdnValue) : result EdnValue :=
  match v with EBindSlot name => resolve_entity_slot name b | _ => Ok v end.
Definition substitute_slots_pattern (b : Bindings) (p : Pattern) : result Pattern :=
  e ← substitute_entity b (pat_entity p);
  v ← substitute_edn_value b (pat_value p);
  Ok (mkPattern e (pat_attribute p) v (pat_valid_from p) (pat_valid_to p)).
Fixpoint substitute_expr (b : Bindings) (e : Expr) : result Expr :=
  match e with
  | Slot name => v ← resolve_val_slot name b; Ok (Lit v)
  | Bin op l r => l ← substitute_expr b l; r ← substitute_expr b r; Ok (Bin op l r)
  | Unary op a => a ← substitute_expr b a; Ok (Unary op a)
  | Var _ | Lit _ => Ok e
  end.
Fixpoint substitute_where_clause (b : Bindings) (c : WhereClause) : result WhereClause :=
  match c with
  | CPattern p => p ← substitute_slots_pattern b p; Ok (CPattern p)
  | Not cs => cs ← mapR (substitute_where_clause b) cs; Ok (Not cs)
  | NotJoin vs cs => cs ← mapR (substitute_where_clause b) cs; Ok (NotJoin vs cs)
  | Or bs => bs ← mapR (mapR (substitute_where_clause b)) bs; Ok (Or bs)
  | OrJoin vs bs => bs ← mapR (mapR (substitute_where_clause b)) bs; Ok (OrJoin vs bs)
  | CExpr e out => e ← substitute_expr b e; Ok (CExpr e out)
  | RuleInvocation r args => args ← mapR (substitute_edn_value b) args; Ok (RuleInvocation r args)
  end.

(** [substitute].  The time of a query that has a slot there is filled in; any
    other is taken out by [Option::take] and lost. *)
Definition substitute_as_of (b : Bindings) (o : option NetView.AsOf) : result (option NetView.AsOf) :=
  match o with Some (NetView.AsOfSlot name) => t ← resolve_as_of_slot name b; Ok (Some t) | _ => Ok None end.
Definition substitute_valid_at (b : Bindings) (o : option NetView.ValidAt) : result (option NetView.ValidAt) :=
  match o with Some (NetView.ValidAtSlot name) => t ← resolve_valid_at_slot name b; Ok (Some t) | _ => Ok None end.
Definition substitute (q : DatalogQuery) (b : Bindings) : result DatalogQuery :=
  as_of ← substitute_as_of b (q_as_of q);
  valid_at ← substitute_valid_at b (q_valid_at q);
  cs ← mapR (substitute_where_clause b) (q_where q);
  Ok (mkQuery (q_find q) cs as_of valid_at (q_with_vars q) (q_max_derived_facts q) (q_max_results q)).

(** [collect] into a map: a later binding of a name replaces an earlier one. *)
Definition binding_map (bindings : list (string * BindValue)) : Bindings :=
  fold_left (λ m '(name, v), <[name := v]> m) bindings ∅.

Section Execute.
Context {R : Type} (run : DatalogQuery → result R).
Definition prepared_execute (pq : PreparedQuery) (bindings : list (string * BindValue)) : result R :=
  let b := binding_map bindings in
  _ ← ensure (forallb (λ name, bool_decide (is_Some (b !! name))) (slot_names pq)) MISSING;
  filled_query ← substitute (template pq) b;
  run filled_query.
End Execute.

(** * Slots and where they are used *)

(** The positions that substitution looks at: the entity and the value of a
    pattern, the arguments of an invocation, expressions and the two times. *)

Inductive SlotUse : Type := UseEntity | UseValue | UseExpr | UseAsOf | UseValidAt.
Definition kind_admits (u : SlotUse) (v : option BindValue) : bool :=
  match u, v with
  | UseEntity, Some (BEntity _) => true
  | (UseValue | UseExpr), Some (BVal _) => true
  | UseAsOf, Some (BTxCount _ | BTimestamp _) => true
  | UseValidAt, Some (BTimestamp _ | BAnyValidTime) => true
  | _, _ => false
  end.

Definition edn_uses (u : SlotUse) (v : EdnValue) : list (SlotUse * string) :=
  match v with EBindSlot name => [(u, name)] | _ => [] end.
Fixpoint expr_uses (e : Expr) : list (SlotUse * string) :=
  match e with
  | Slot name => [(UseExpr, name)]
  | Bin _ l r => expr_uses l ++ expr_uses r
  | Unary _ a => expr_uses a
  | Var _ | Lit _ => []
  end.
Fixpoint clause_uses (c : WhereClause) : list (SlotUse * string) :=
  match c with
  | CPattern p => edn_uses UseEntity (pat_entity p) ++ edn_uses UseValue (pat_value p)
  | Not cs | NotJoin _ cs => flat_map clause_uses cs
  | Or bs | OrJoin _ bs => flat_map (flat_map clause_uses) bs
  | CExpr e _ => expr_uses e
  | RuleInvocation _ args => flat_map (edn_uses UseValue) args
  end.
Definition query_uses (q : DatalogQuery) : list (SlotUse * string) :=
  (match q_as_of q with Some (NetView.AsOfSlot name) => [(UseAsOf, name)] | _ => [] end) ++
  (match q_valid_at q with Some (NetView.ValidAtSlot name) => [(UseValidAt, name)] | _ => [] end) ++
  flat_map clause_uses (q_where q).

(** Slots in attribute position. *)
Fixpoint attribute_slots (c : WhereClause) : list string :=
  match c with
  | CPattern p => match pat_attribute p with Real (EBindSlot name) => [name] | _ => [] end
  | Not cs | NotJoin _ cs => flat_map attribute_slots cs
  | Or bs | OrJoin _ bs => flat_map (flat_map attribute_slots) bs
  | CExpr _ _ | RuleInvocation _ _ => []
  end.

(** All slots of a query, at any depth of an EDN value, and those that are not
    themselves in one of those positions but inside a vector, a list or a map. *)
Fixpoint edn_slots (v : EdnValue) : list string :=
  match v with
  | EBindSlot name => [name]
  | EVector l | EList l => flat_map edn_slots l
  | EMap l => flat_map (λ '(k, x), edn_slots k ++ edn_slots x) l
  | _ => []
  end.
Definition edn_nested (v : EdnValue) : list string := match v with EBindSlot _ => [] | _ => edn_slots v end.
Definition attribute_spec_slots (edn : EdnValue → list string) (a : AttributeSpec) : list string :=
  match a with Real v => edn v | Pseudo _ => [] end.
Fixpoint expr_slots (e : Expr) : list string :=
  match e with
  | Slot name => [name]
  | Bin _ l r => expr_slots l ++ expr_slots r
  | Unary _ a => expr_slots a
  | Var _ | Lit _ => []
  end.
Fixpoint clause_slots (c : WhereClause) : list string :=
  match c with
  | CPattern p => edn_slots (pat_entity p) ++ attribute_spec_slots edn_slots (pat_attribute p) ++ edn_slots (pat_value p)
  | Not cs | NotJoin _ cs => flat_map clause_slots cs
  | Or bs | OrJoin _ bs => flat_map (flat_map clause_slots) bs
  | CExpr e _ => expr_slots e
  | RuleInvocation _ args => flat_map edn_slots args
  end.
Definition query_slots (q : DatalogQuery) : list string :=
  (match q_as_of q with Some (NetView.AsOfSlot name) => [name] | _ => [] end) ++
  (match q_valid_at q with Some (NetView.ValidAtSlot name) => [name] | _ => [] end) ++
  flat_map clause_slots (q_where q).
Fixpoint clause_nested (c : WhereClause) : list string :=
  match c with
  | CPattern p => edn_nested (pat_entity p) ++ attribute_spec_slots edn_nested (pat_attribute p) ++ edn_nested (pat_value p)
  | Not cs | NotJoin _ cs => flat_map clause_nested cs
  | Or bs | OrJoin _ bs => flat_map (flat_map clause_nested) bs
  | CExpr _ _ => []
  | RuleInvocation _ args => flat_map edn_nested args
  end.
Definition nested_slots (q : DatalogQuery) : list string := flat_map clause_nested (q_where q).

(** The query with only those times that are slots. *)
Definition slot_times (q : DatalogQuery) : DatalogQuery :=
  mkQuery (q_find q) (q_where q)
    (match q_as_of q with Some (NetView.AsOfSlot name) => q_as_of q | _ => None end)
    (match q_valid_at q with Some (NetView.ValidAtSlot name) => q_valid_at q | _ => None end)
    (q_with_vars q) (q_max_derived_facts q) (q_max_results q).

(** The filled query: every slot in one of those positions replaced by its value,
    and nothing else changed. *)
Section Fill.
Context (b : Bindings).
Definition fill_edn (v : EdnValue) : EdnValue :=
  match v with
  | EBindSlot name =>
    match b !! name with Some (BEntity u) => EUuid u | Some (BVal x) => bind_value_to_edn x | _ => v end
  | _ => v
  end.
Fixpoint fill_expr (e : Expr) : Expr :=
  match e with
  | Slot name => match b !! name with Some (BVal v) => Lit v | _ => e end
  | Bin op l r => Bin op (fill_expr l) (fill_expr r)
  | Unary op a => Unary op (fill_expr a)
  | Var _ | Lit _ => e
  end.
Fixpoint fill_clause (c : WhereClause) : WhereClause :=
  match c with
  | CPattern p => CPattern (mkPattern (fill_edn (pat_entity p)) (pat_attribute p) (fill_edn (pat_value p)) (pat_valid_from p) (pat_valid_to p))
  | Not cs => Not (map fill_clause cs)
  | NotJoin vs cs => NotJoin vs (map fill_clause cs)
  | Or bs => Or (map (map fill_clause) bs)
  | OrJoin vs bs => OrJoin vs (map (map fill_clause) bs)
  | CExpr e out => CExpr (fill_expr e) out
  | RuleInvocation r args => RuleInvocation r (map fill_edn args)
  end.
Definition fill_as_of (o : option NetView.AsOf) : option NetView.AsOf :=
  match o with
  | Some (NetView.AsOfSlot name) =>
    match b !! name with Some (BTxCount n) => Some (NetView.AsOfCounter n) | Some (BTimestamp t) => Some (NetView.AsOfTimestamp t) | _ => o end
  | _ => o
  end.
Definition fill_valid_at (o : option NetView.ValidAt) : option NetView.ValidAt :=
  match o with
  | Some (NetView.ValidAtSlot name) =>
    match b !! name with Some (BTimestamp t) => Some (NetView.ValidAtTimestamp t) | Some BAnyValidTime => Some NetView.AnyValidTime | _ => o end
  | _ => o
  end.
Definition fill_query (q : DatalogQuery) : DatalogQuery :=
  mkQuery (q_find q) (fill_clause <$> q_where q) (fill_as_of (q_as_of q)) (fill_valid_at (q_valid_at q))
    (q_with_vars q) (q_max_derived_facts q) (q_max_results q).

(** ** Substitution fills exactly when every use has a value of its kind *)

Definition admitted (uses : list (SlotUse * string)) : Prop := Forall (λ '(u, name), kind_admits u (b !! name) = true) uses.
Definition exact {A} (uses : list (SlotUse * string)) (r : result A) (a : A) : Prop :=
  (admitted uses ∧ r = Ok a) ∨ (¬ admitted uses ∧ (r = Err MISSING ∨ r = Err WRONG_KIND)).

Lemma exact_ok {A} (a : A) : exact [] (Ok a) a.
Proof. left. split; [constructor|done]. Qed.
Lemma exact_bind {A B} u v (r : result A) (a : A) (k : A → result B) (c : B) :
  exact u r a → exact v (k a) c → exact (u ++ v) (x ← r; k x) c.
Proof.
  unfold exact, admitted. rewrite Forall_app. intros [[Hu ->]|[Hu [-> | ->]]] X; cbn; [|right; tauto|right; tauto].
  destruct X as [[Hv ->]|[Hv E]]; [left; tauto|right; tauto].
Qed.
Lemma exact_map {A B} u (r : result A) (a : A) (f : A → B) : exact u r a → exact u (x ← r; Ok (f x)) (f a).
Proof. intros X. rewrite <-(app_nil_r u). eapply exact_bind; [exact X|]. apply exact_ok. Qed.
Lemma exact_mapR {A B} (uses : A → list (SlotUse * string)) (f : A → result B) (g : A → B) l :
  Forall (λ x, exact (uses x) (f x) (g x)) l → exact (flat_map uses l) (mapR f l) (map g l).
Proof.
  induction 1 as [|x l X F IH]; [apply exact_ok|]. cbn. eapply exact_bind; [exact X|]. by apply (exact_map _ _ _ (cons (g x))).
Qed.
Lemma exact_resolve {A} u name (r : result A) (a : A) :
  (kind_admits u (b !! name) = true → r = Ok a) → (kind_admits u (b !! name) = false → r = Err MISSING ∨ r = Err WRONG_KIND) → exact [(u, name)] r a.
Proof.
  intros H1 H2. destruct (kind_admits u (b !! name)) eqn:E.
  - left. split; [by repeat constructor|by apply H1].
  - right. split; [|by apply H2]. intros F. apply Forall_cons in F as [F _]. congruence.
Qed.

Ltac by_kind := intros H; repeat case_match; by eauto.
Lemma value_exact v : exact (edn_uses UseValue v) (substitute_edn_value b v) (fill_edn v).
Proof. destruct v; try apply exact_ok. cbn. apply exact_resolve; unfold resolve_value_slot, kind_admits; by_kind. Qed.
Lemma entity_exact v : exact (edn_uses UseEntity v) (substitute_entity b v) (fill_edn v).
Proof. destruct v; try apply exact_ok. cbn. apply exact_resolve; unfold resolve_entity_slot, kind_admits; by_kind. Qed.
Lemma expr_exact e : exact (expr_uses e) (substitute_expr b e) (fill_expr e).
Proof.
  induction e as [v|v|name|op l IHl r IHr|op a IHa]; cbn; try apply exact_ok.
  - apply exact_resolve; unfold resolve_val_slot, kind_admits; by_kind.
  - eapply exact_bind; [exact IHl|]. by apply (exact_map _ _ _ (Bin op (fill_expr l))).
  - by apply (exact_map _ _ _ (Unary op)).
Qed.
Lemma clause_exact c : exact (clause_uses c) (substitute_where_clause b c) (fill_clause c).
Proof.
  induction c as [p|q args|cs IH|vs cs IH|e o|bs IH|vs bs IH] using where_ind; cbn [clause_uses substitute_where_clause fill_clause].
  - apply exact_map. unfold substitute_slots_pattern. eapply exact_bind; [apply entity_exact|].
    apply (exact_map _ _ _ (λ v, mkPattern _ _ v _ _)), value_exact.
  - apply exact_map, exact_mapR, Forall_forall. intros x _. apply value_exact.
  - by apply exact_map, exact_mapR.
  - by apply exact_map, exact_mapR.
  - apply (exact_map _ _ _ (λ e, CExpr e o)), expr_exact.
  - apply exact_map, exact_mapR. eapply Forall_impl; [exact IH|]. intros x. apply exact_mapR.
  - apply exact_map, exact_mapR. eapply Forall_impl; [exact IH|]. intros x. apply exact_mapR.
Qed.
Lemma substitute_exact q : exact (query_uses q) (substitute q b) (fill_query (slot_times q)).
Proof.
  unfold query_uses, substitute, fill_query, slot_times. cbn [q_find q_where q_as_of q_valid_at q_with_vars q_max_derived_facts q_max_results].
  eapply exact_bind.
  { instantiate (1 := fill_as_of match q_as_of q with Some (NetView.AsOfSlot name) => q_as_of q | _ => None end).
    destruct (q_as_of q) as [[n|t|name]|]; try apply exact_ok. cbn.
    apply exact_resolve; unfold resolve_as_of_slot, kind_admits; [|by_kind]. intros H. repeat case_match; try done. }
  eapply exact_bind.
  { instantiate (1 := fill_valid_at match q_valid_at q with Some (NetView.ValidAtSlot name) => q_valid_at q | _ => None end).
    destruct (q_valid_at q) as [[t| |name]|]; try apply exact_ok. cbn.
    apply exact_resolve; unfold resolve_valid_at_slot, kind_admits; [|by_kind]. intros H. repeat case_match; try done. }
  apply (exact_map _ _ _ (λ cs, mkQuery _ cs _ _ _ _ _)). apply exact_mapR, Forall_forall. intros c _. apply clause_exact.
Qed.
End Fill.

(** ** Only nested slots are left *)

Lemma filled_edn b u v : admitted b (edn_uses u v) → u = UseEntity ∨ u = UseValue → edn_slots (fill_edn b v) = edn_nested v.
Proof.
  intros F Hu. destruct v; try done. cbn in F. apply Forall_cons in F as [F _]. cbn [fill_edn].
  destruct Hu as [-> | ->]; destruct (b !! s) as [[]|]; try done. by destruct v.
Qed.
Lemma filled_all {A} b (f : A → list (SlotUse * string)) (attrs slots nested : A → list string) (g : A → A) l :
  Forall (λ x, admitted b (f x) → attrs x = [] → slots (g x) = nested x) l →
  admitted b (flat_map f l) → flat_map attrs l = [] → flat_map slots (map g l) = flat_map nested l.
Proof.
  induction 1 as [|x l E F IH]; [done|]. cbn. unfold admitted. rewrite Forall_app, app_nil. intros [Hx Hl] [Ax Al].
  by rewrite E, IH.
Qed.
Lemma filled_expr b e : admitted b (expr_uses e) → expr_slots (fill_expr b e) = [].
Proof.
  induction e as [v|v|name|op l IHl r IHr|op a IHa]; cbn; try done.
  - intros F. apply Forall_cons in F as [F _]. by destruct (b !! name) as [[]|].
  - unfold admitted. rewrite Forall_app. intros [Fl Fr]. by rewrite IHl, IHr.
Qed.
Lemma filled_clause b c : admitted b (clause_uses c) → attribute_slots c = [] → clause_slots (fill_clause b c) = clause_nested c.
Proof.
  induction c as [p|q args|cs IH|vs cs IH|e o|bs IH|vs bs IH] using where_ind;
    cbn [clause_uses fill_clause pat_entity pat_value pat_attribute clause_slots clause_nested attribute_slots].
  - unfold admitted. rewrite Forall_app. intros [Fe Fv] At.
    rewrite (filled_edn b UseEntity _ Fe (or_introl eq_refl)), (filled_edn b UseValue _ Fv (or_intror eq_refl)).
    destruct (pat_attribute p) as [a|a]; [|done]. by destruct a.
  - intros F _. eapply (filled_all _ _ (λ _, [])); [|exact F|by clear; induction args].
    apply Forall_forall. intros v _ Fv _. eapply filled_edn; [exact Fv|by right].
  - by apply filled_all.
  - by apply filled_all.
  - intros F _. by apply filled_expr.
  - apply filled_all. eapply Forall_impl; [exact IH|]. intros x. apply filled_all.
  - apply filled_all. eapply Forall_impl; [exact IH|]. intros x. apply filled_all.
Qed.
Lemma filled_query b q : admitted b (query_uses q) → flat_map attribute_slots (q_where q) = [] →
  query_slots (fill_query b (slot_times q)) = nested_slots q.
Proof.
  unfold query_uses, admitted, query_slots, nested_slots. rewrite !Forall_app. intros (Fa & Fv & Fc) At.
  cbn [fill_query slot_times q_as_of q_valid_at q_where].
  rewrite (filled_all b clause_uses attribute_slots clause_slots clause_nested (fill_clause b)); [|..|done|done].
  2: { apply Forall_forall. intros c _. apply filled_clause. }
  assert (match fill_as_of b match q_as_of q with Some (NetView.AsOfSlot _) => q_as_of q | _ => None end
          with Some (NetView.AsOfSlot name) => [name] | _ => [] end = []) as ->.
  { destruct (q_as_of q) as [[n|t|name]|]; try done. apply Forall_cons in Fa as [Fa _]. cbn. by destruct (b !! name) as [[]|]. }
  assert (match fill_valid_at b match q_valid_at q with Some (NetView.ValidAtSlot _) => q_valid_at q | _ => None end
          with Some (NetView.ValidAtSlot name) => [name] | _ => [] end = []) as ->; [|done].
  destruct (q_valid_at q) as [[t| |name]|]; try done. apply Forall_cons in Fv as [Fv _]. cbn. by destruct (b !! name) as [[]|].
Qed.

(** ** The collected names *)

Definition names_of (uses : list (SlotUse * string)) : gset string := list_to_set uses.*2.
Lemma names_app u v : names_of (u ++ v) = names_of u ∪ names_of v.
Proof. unfold names_of. by rewrite fmap_app, list_to_set_app_L. Qed.
Lemma edn_slot_names u v : edn_slot v = names_of (edn_uses u v).
Proof. destruct v; try done. cbn. unfold names_of. cbn. by rewrite union_empty_r_L. Qed.
Lemma collect_fold {A} (f : gset string → A → gset string) (uses : A → list (SlotUse * string)) l :
  Forall (λ x, ∀ names, f names x = names_of (uses x) ∪ names) l →
  ∀ names, fold_left f l names = names_of (flat_map uses l) ∪ names.
Proof.
  induction 1 as [|x l E F IH]; intros names; cbn [fold_left flat_map]; [unfold names_of; set_solver|]. rewrite IH, E, names_app. set_solver.
Qed.
Lemma collect_expr e : ∀ names, collect_slots_from_expr e names = names_of (expr_uses e) ∪ names.
Proof.
  induction e as [v|v|name|op l IHl r IHr|op a IHa]; intros names; cbn [collect_slots_from_expr expr_uses]; try (unfold names_of; set_solver).
Qed.
Lemma collect_clause c : ∀ names, collect_slots_from_clause names c = names_of (clause_uses c) ∪ names.
Proof.
  induction c as [p|q args|cs IH|vs cs IH|e o|bs IH|vs bs IH] using where_ind; intros names; cbn [collect_slots_from_clause clause_uses].
  - rewrite names_app, (edn_slot_names UseValue), (edn_slot_names UseEntity). set_solver.
  - apply collect_fold, Forall_forall. intros v _ ns. by rewrite (edn_slot_names UseValue).
  - by apply collect_fold.
  - by apply collect_fold.
  - apply collect_expr.
  - apply collect_fold. eapply Forall_impl; [exact IH|]. intros x. apply collect_fold.
  - apply collect_fold. eapply Forall_impl; [exact IH|]. intros x. apply collect_fold.
Qed.
Lemma collected q name : name ∈ collect_slot_names q ↔ ∃ u, (u, name) ∈ query_uses q.
Proof.
  unfold collect_slot_names. rewrite merge_sort_Permutation, elem_of_elements. unfold collect_slots_from_clauses.
  rewrite (collect_fold _ clause_uses) by (apply Forall_forall; intros c _; apply collect_clause).
  assert (∀ uses, name ∈ names_of uses ↔ ∃ u, (u, name) ∈ uses) as N.
  { intros uses. unfold names_of. rewrite elem_of_list_to_set, list_elem_of_fmap. split; [intros ([u n] & -> & I); eauto|intros [u I]; by exists (u, name)]. }
  rewrite elem_of_union, N. unfold query_uses. setoid_rewrite elem_of_app. setoid_rewrite elem_of_app.
  destruct (q_as_of q) as [[n|t|a]|], (q_valid_at q) as [[t'| |v]|]; set_solver.
Qed.

(** ** Validation *)

Lemma validate_list {A} (f : A → result ()) (slots : A → list string) l :
  Forall (λ x, f x = Ok () ↔ slots x = []) l → foldR (λ _, f) () l = Ok () ↔ flat_map slots l = [].
Proof.
  induction 1 as [|x l E F IH]; [done|]. cbn. rewrite app_nil. destruct (f x) as [[]|e]; cbn; naive_solver.
Qed.
Lemma validate_clause_exact c : validate_clause c = Ok () ↔ attribute_slots c = [].
Proof.
  induction c as [p|q args|cs IH|vs cs IH|e o|bs IH|vs bs IH] using where_ind; cbn [validate_clause attribute_slots]; try done.
  - destruct (pat_attribute p) as [[]|]; done.
  - by apply validate_list.
  - by apply validate_list.
  - apply validate_list. eapply Forall_impl; [exact IH|]. intros x. apply validate_list.
  - apply validate_list. eapply Forall_impl; [exact IH|]. intros x. apply validate_list.
Qed.
Lemma validate_exact q : validate_no_attribute_slots q = Ok () ↔ flat_map attribute_slots (q_where q) = [].
Proof. apply validate_list, Forall_forall. intros c _. apply validate_clause_exact. Qed.

(** C36: a prepared query runs exactly when its slots are rightly bound.  Preparing
    refuses a slot that is an attribute and nothing else; the names it asks for are
    the slots that are themselves an entity, a value, an argument, in an expression
    or a time.  When each of these uses has a value of the kind its position takes,
    executing runs the query with those slots replaced by their values, its literal
    [:as-of] and [:valid-at] taken out ([slot_times]) and nothing else changed;
    otherwise it fails with the missing-value or the wrong-kind error and does not
    run.  The slots left in the query that runs are exactly those inside vectors,
    lists and maps, which are not asked for.  So for a query without such slots and
    without literal times it is the template, with every slot replaced and none
    left.  Bindings of other names are ignored. *)
Theorem prepared_exact {R} (run : DatalogQuery → result R) q bindings :
  let b := binding_map bindings in
  match prepare_query q with
  | Err _ => flat_map attribute_slots (q_where q) ≠ []
  | Ok pq =>
    flat_map attribute_slots (q_where q) = [] ∧ template pq = q ∧
    (∀ name, name ∈ slot_names pq ↔ ∃ u, (u, name) ∈ query_uses q) ∧
    (admitted b (query_uses q) →
       prepared_execute run pq bindings = run (fill_query b (slot_times q)) ∧
       query_slots (fill_query b (slot_times q)) = nested_slots q) ∧
    (admitted b (query_uses q) → nested_slots q = [] → slot_times q = q →
       prepared_execute run pq bindings = run (fill_query b q) ∧ query_slots (fill_query b q) = []) ∧
    (¬ admitted b (query_uses q) →
       prepared_execute run pq bindings = Err MISSING ∨ prepared_execute run pq bindings = Err WRONG_KIND)
  end.
Proof.
  cbn zeta. unfold prepare_query. pose proof (validate_exact q) as V.
  destruct (validate_no_attribute_slots q) as [[]|e]; cbn [mbind result_bind].
  2: { intros E. by apply V in E. }
  assert (flat_map attribute_slots (q_where q) = []) as At by (by apply V).
  split; [done|]. split; [done|]. split; [apply collected|]. unfold prepared_execute. cbn [slot_names template].
  set (b := binding_map bindings). pose proof (substitute_exact b q) as X.
  assert (Run : admitted b (query_uses q) →
    (_ ← ensure (forallb (λ name, bool_decide (is_Some (b !! name))) (collect_slot_names q)) MISSING;
     filled_query ← substitute q b; run filled_query) = run (fill_query b (slot_times q)) ∧
    query_slots (fill_query b (slot_times q)) = nested_slots q).
  { intros Ad. rewrite (proj2 (forallb_forall _ _)).
    - destruct X as [[_ ->]|[N _]]; [|done]. split; [done|by apply filled_query].
    - intros name I%list_elem_of_In. apply collected in I as [u I]. apply bool_decide_eq_true.
      unfold admitted in Ad. rewrite Forall_forall in Ad. specialize (Ad _ I). cbn in Ad. destruct (b !! name); [eauto|by destruct u]. }
  split; [exact Run|]. split.
  - intros Ad Ne Ti. rewrite <-Ne. rewrite Ti in Run. by apply Run.
  - intros N. destruct X as [[Ad _]|[_ E]]; [done|]. destruct (forallb _ _); cbn; [|by left].
    by destruct E as [-> | ->]; [left|right].
Qed.

(** A literal time does not survive the substitution: [Option::take] empties the
    field before the test for a slot. *)
Lemma literal_time_lost {R} (run : DatalogQuery → result R) find cs n bindings :
  flat_map attribute_slots cs = [] → flat_map clause_uses cs = [] →
  ∃ pq, prepare_query (mkQuery find cs (Some (NetView.AsOfCounter n)) (Some NetView.AnyValidTime) [] None None) = Ok pq ∧
    ∃ cs', prepared_execute run pq bindings = run (mkQuery find cs' None None [] None None).
Proof.
  intros Ha Hu. set (q := mkQuery find cs (Some (NetView.AsOfCounter n)) (Some NetView.AnyValidTime) [] None None).
  assert (query_uses q = []) as U by done.
  unfold prepare_query. rewrite (proj2 (validate_exact q)) by done. eexists. split; [reflexivity|].
  unfold prepared_execute. cbn [slot_names template]. rewrite (proj2 (forallb_forall _ _)).
  - destruct (substitute_exact (binding_map bindings) q) as [[_ ->]|[N _]]; [|destruct N; rewrite U; constructor].
    cbn. eauto.
  - intros name I%list_elem_of_In. apply collected in I as [u I]. rewrite U in I. by apply not_elem_of_nil in I.
Qed.

Definition slot_query : DatalogQuery :=
  query_new [FVariable "?e"] [CPattern (pattern_new (ESymbol "?e") (EKeyword ":age") (EBindSlot "age"))].
Lemma prepared_exact_witness :
  prepared_execute (λ q, Ok (q_where q)) (mkPrepared slot_query ["age"%string]) [("age"%string, BVal (VInteger 30))] =
  Ok [CPattern (pattern_new (ESymbol "?e") (EKeyword ":age") (EInteger 30))].
Proof.
  pose proof (prepared_exact (λ q, Ok (q_where q)) slot_query [("age"%string, BVal (VInteger 30))]) as X.
  change (prepare_query slot_query) with (Ok (mkPrepared slot_query ["age"%string])) in X. cbn match in X.
  destruct X as (_ & _ & _ & _ & X & _). apply X; [repeat constructor|reflexivity..].
Defined.

(** A slot inside a vector is not asked for, and the query runs with it. *)
Definition nested_slot_query : DatalogQuery :=
  query_new [FVariable "?e"] [CPattern (pattern_new (ESymbol "?e") (EKeyword ":a") (EVector [EBindSlot "x"]))].
Example nested_slot_left :
  prepare_query nested_slot_query = Ok (mkPrepared nested_slot_query []) ∧
  prepared_execute (λ q, Ok (query_slots q)) (mkPrepared nested_slot_query []) [] = Ok ["x"%string].
Proof. by vm_compute. Qed.
